(* ===== verification/_CoqProject ===== *)
-Q . S2P
Prelude.v
Gf.v
GfSimd.v
Linalg.v
Cauchy.v
GaussJordan.v
CauchyCodec.v
Stripe.v
Hlc.v
Conflict.v
Ring.v
ShardBatch.v
WalPos.v
WalEntry.v
WalReader.v
WalWriter.v
EventRecord.v
EventWal.v
Lifecycle.v
Checkpoint.v
Recovery.v
Merkle.v
IncMerkle.v
Gossip.v
Membership.v
Detector.v
MetaKey.v
MetaStore.v
Gc.v
Compactor.v
Journal.v
JournalLog.v
JournalHole.v
MetaSync.v
HintWal.v
HintManager.v
HintBuffer.v
SegmentPool.v
LocalWrite.v
WriteOrder.v
PoolRegistry.v
WriteCoordinator.v
HintReceiver.v
