(* ===== verification/Prelude.v ===== *)
(** * OceanFS verification library

    OceanFS is a replicated object store. A client PUT reaches an S3 handler,
    whose write coordinator looks the key up on a consistent hashing ring,
    stores the bytes in the active segments of the node (buffers that are
    logged, filled, sealed and erasure coded), replicates the object's row to
    the other replicas and records a hint for each replica that missed it.
    Segments live in a registry that is rebuilt from an event log. Rows live
    in a metadata store with a change journal that peers pull. A failure
    detector and a gossip protocol keep the ring up to date; garbage
    collection and compaction reclaim segments.

    The library translates these parts into executable definitions and proves
    what they promise. Pure functions are Rocq functions. Code with state
    takes and returns a record of that state. Rust results are [outcome]: a
    value, an error or a panic. What code cannot decide by itself (clocks,
    random choices, the answers of the network, the success of a write to
    disk) is an argument of the step, and the theorems hold for every value
    of it. Tasks that interleave are sequences of their critical sections.
    Integers are [Z] with the wrap-around of their width written out; bytes
    are [Byte.byte].

    ** Files

    Erasure coding (crates/oceanfs-ec): [Gf] the field GF(2^8) and its tables,
    [GfSimd] the vector kernels, [Linalg] linear systems, [Cauchy] matrices,
    encoder and decoder, [GaussJordan] the inversion, [CauchyCodec] recovery
    from any k shards, [Stripe] whole segments. The codec is a type class
    that [Stripe] is proved against.

    Order and placement: [Hlc] the hybrid logical clock (oceanfs-core/hlc.rs),
    [Conflict] last-write-wins (conflict.rs), [Ring] the hashing ring and its
    cache (oceanfs-routing), [ShardBatch] grouping of fetches.

    Logs and the segment registry (crates/oceanfs-storage): [WalPos],
    [WalEntry], [WalReader] the data log, [WalWriter] its writers, rotation
    and group sync, [EventRecord], [EventWal] the event log, [Lifecycle] the
    registry, [Checkpoint] its snapshots, [Recovery] the coordinator of durable
    transitions and the rebuild after a crash.

    Anti-entropy trees (crates/oceanfs-durability): [Merkle], [IncMerkle].

    Membership (crates/oceanfs-membership): [Gossip], [Membership],
    [Detector].

    Metadata: [MetaKey], [MetaStore] rows and tombstones, [Journal],
    [JournalLog] the change journal, [JournalHole] its recovery from a hole,
    [MetaSync] the pull of a peer's changes.

    Reclamation (oceanfs-durability/gc): [Gc] collector and reaper,
    [Compactor] compaction, run against the class of lifecycle machines that
    [Recovery] implements.

    Hints (oceanfs-durability/hinted_handoff, healing_service.rs): [HintWal]
    the log, [HintManager] queues and deliveries, [HintBuffer] the in-memory
    form, [HintReceiver] the application of a batch on the other side.

    Storage pools (oceanfs-storage/pool, config/storage.rs, pool_detach.rs):
    [PoolRegistry] configuration, attachment, placement, drain, detachment and
    the health monitor.

    Writes: [SegmentPool] the active segments (segment/pool.rs),
    [LocalWrite] the chunks of an object, the data log and its replay,
    [WriteOrder] what a crash leaves of them, [WriteCoordinator] puts,
    deletes, replication, forwarding and the S3 handlers (oceanfs-server).

    This file holds what all share: [outcome], loops over ranges, byte codecs,
    lemmas on lists and maps, and the hint database [ocean].

    ** Theorems

    - Coding: the tables make a field, every kernel but GFNI agrees with the
      scalar code, any k of k + m shards give the data back, a segment
      survives encoding and the loss of m shards.
    - Durability: a crash at any byte of an append keeps what was written
      before it (event log, journal, hint log), and a hole in the journal is
      reported as a gap; the registry rebuilt from log and checkpoint is the
      one that was lost, when no earlier write failed half-way; chunks written
      one after the other are read back after a crash; a chunk is readable
      from its append until its segment is sealed; an acknowledged append of
      the data log survives a power loss while system calls succeed.
    - Reclamation: a compaction that runs alone and can read its rows loses no
      object wherever it is cut off, the recovery after it included; the
      reaper takes no segment with a live byte.
    - Accounting: an acknowledged put or delete is held or hinted for every
      replica when its handler returns; while the hint log can be written and
      operations take turns, hints are conserved by deliveries, expiry and
      restarts and the queues implement an abstract one; a hint that is
      accepted is covered.
    - Convergence: rows merge to the same greatest state in any order; a pull
      whose holders are up to date applies what it consumes, and catches up
      when the lag fits one cycle; Merkle descent finds exactly the differing
      leaves.
    - Placement and membership: lookup gives the replica set when no vnode
      position is shared, the ring tracks the table under upserts that take
      turns, only suspicion leads to death, an unreachable node dies; the pool
      registry stays well formed, a segment goes to the best eligible pool,
      never to one that drains, and a degraded pool recovers.
    - Progress and bounds: appends and deliveries end, the buffer of hints
      exceeds its limits at most by the handoffs that overlap.
    - Where the code falls short, the failure is a theorem with a concrete
      run: for instance bytes exchanged by the replay of interleaved writers,
      a hint resolved before the row is written, a refused overwrite that
      erases the committed version, compacted segments destroyed by a restart
      after a checkpoint, an object destroyed by a compaction that fails to
      read its row, a log that does not recover after a write that failed
      half-way, a node lost from the ring by overlapping upserts, syncs
      skipped after a rotation of the data log, a replacement pool that is
      never monitored.

    The doc comment of a theorem says under which conditions it holds, and
    names the theorem about what happens outside them where there is one.

    ** Fuel

    Loops that are not structural take fuel. Each has a lemma that the fuel
    passed by its caller is enough: the drain of a log reader by the bytes
    left, the append of the segment pool by the number of waits, deliveries
    by the pending hints and the attempt limit, the search of a free pool id by
    the number of pools.

    ** Parameters

    CRC-32, BLAKE3, SHA-256, bincode, prost, UTF-8 validation, compressors and the
    generator of segment identifiers are arguments. What is needed of them
    (decode after encode, fixed lengths, distinct identifiers) is a named
    hypothesis, and a concrete instance discharges it in the witness.

    ** Not modelled

    System calls and memory maps, whose outcomes are arguments; connections
    and TLS; metrics, logging and configuration parsing; the caches and
    accelerated compressors, which wrap third-party code; the seal worker's
    file writes, the anti-entropy rounds, scrubbing and repair jobs, whose
    effects on the modelled state are arguments; quorum reads and read repair;
    multipart uploads, buckets, XML and authentication; the assembly of a
    node. *)

From Stdlib Require Import ZArith Lia Strings.Byte.
From stdpp Require Export base tactics option list list_numbers gmap.

Set Default Proof Using "Type".

(** ** Notation scope of the development *)

Declare Scope ocean_scope.
Delimit Scope ocean_scope with ocean.

(** ** Results of Rust code: a value, a returned error, or a panic *)

Inductive outcome (E A : Type) : Type :=
| Ok (a : A)
| Err (e : E)
| Panic.
Arguments Ok {E A} _.
Arguments Err {E A} _.
Arguments Panic {E A}.

#[export] Instance outcome_ret {E} : MRet (outcome E) := fun A a => Ok a.
#[export] Instance outcome_bind {E} : MBind (outcome E) := fun A B f o =>
  match o with
  | Ok a => f a
  | Err e => Err e
  | Panic => Panic
  end.

(** [expect o] is the value of an [Option] the code unwraps: [None] panics. *)
Definition expect {E A} (o : option A) : outcome E A :=
  match o with Some a => Ok a | None => Panic end.

(** [ok_or o e] is [Option::ok_or]. *)
Definition ok_or {E A} (o : option A) (e : E) : outcome E A :=
  match o with Some a => Ok a | None => Err e end.

Fixpoint omapM {E A B} (f : A -> outcome E B) (l : list A) : outcome E (list B) :=
  match l with
  | [] => Ok []
  | a :: l => match f a with
              | Ok b => match omapM f l with
                        | Ok bs => Ok (b :: bs)
                        | Err e => Err e
                        | Panic => Panic
                        end
              | Err e => Err e
              | Panic => Panic
              end
  end.

Lemma omapM_Ok {E A B} (f : A -> outcome E B) (l : list A) (bs : list B) :
  omapM f l = Ok bs <-> Forall2 (fun a b => f a = Ok b) l bs.
Proof.
  revert bs; induction l as [|a l IH]; intros bs; simpl.
  - split; [by intros [= <-]; constructor | by inversion 1].
  - split.
    + intros H. destruct (f a) eqn:Ha; try done.
      destruct (omapM f l) eqn:Hl; try done. injection H as <-.
      constructor; [done|]. by apply IH.
    + inversion 1 as [|? b ? bs' Hb Hbs]; subst. rewrite Hb.
      by rewrite (proj2 (IH _) Hbs).
Qed.

Lemma omapM_total {E A B} (f : A -> outcome E B) (g : A -> B) (l : list A) :
  (forall a, a ∈ l -> f a = Ok (g a)) -> omapM f l = Ok (g <$> l).
Proof.
  intros Hf. apply omapM_Ok. induction l as [|a l IH]; constructor.
  - apply Hf. by left.
  - apply IH. intros a' Ha'. apply Hf. by right.
Qed.

Lemma omapM_length {E A B} (f : A -> outcome E B) l bs :
  omapM f l = Ok bs -> length bs = length l.
Proof. intros H%omapM_Ok%Forall2_length. done. Qed.

(** [&l[a..b]]. *)
Definition slice {E A} (l : list A) (a b : nat) : outcome E (list A) :=
  if bool_decide (a <= b <= length l)%nat then Ok (take (b - a) (drop a l)) else Panic.

Lemma slice_ok {E A} (l : list A) a b :
  (a <= b <= length l)%nat -> slice (E:=E) l a b = Ok (take (b - a) (drop a l)).
Proof. intros H. unfold slice. by rewrite bool_decide_true. Qed.

(** Loops. [ofoldM] is a [for] over a list whose body may return early with an
    error or panic; [for_range a b] is [for i in a..b]. *)
Fixpoint ofoldM {E A S} (f : S -> A -> outcome E S) (s : S) (l : list A) : outcome E S :=
  match l with
  | [] => Ok s
  | a :: l => match f s a with
              | Ok s => ofoldM f s l
              | Err e => Err e
              | Panic => Panic
              end
  end.

Definition for_range {E S} (a b : nat) (f : S -> nat -> outcome E S) (s : S) :
    outcome E S :=
  ofoldM f s (seq a (b - a)).

Lemma for_range_inv {E S} (I : nat -> S -> Prop) a b (f : S -> nat -> outcome E S) s :
  (a <= b)%nat -> I a s ->
  (forall i s, (a <= i < b)%nat -> I i s -> exists s', f s i = Ok s' /\ I (Datatypes.S i) s') ->
  exists s', for_range a b f s = Ok s' /\ I b s'.
Proof.
  intros Hab Ha Hstep. unfold for_range.
  remember (b - a)%nat as n eqn:Hn. revert a s Hab Ha Hn Hstep.
  induction n as [|n IH]; intros a s Hab Ha Hn Hstep; simpl.
  - exists s. split; [done|]. by replace b with a by lia.
  - destruct (Hstep a s) as (s' & -> & Hs'); [lia|done|].
    apply IH; try lia; [done|]. intros; apply Hstep; [lia|done].
Qed.

(** The value a loop computes, where the invariant pins it down. *)
Lemma for_range_eq {E S} (g : nat -> S) a b (f : S -> nat -> outcome E S) :
  (a <= b)%nat ->
  (forall i, (a <= i < b)%nat -> f (g i) i = Ok (g (Datatypes.S i))) ->
  for_range a b f (g a) = Ok (g b).
Proof.
  intros Hab Hstep.
  destruct (for_range_inv (fun i s => s = g i) a b f (g a)) as (s & -> & ->); auto.
  intros i s Hi ->. eauto.
Qed.

(** ** Machine integers, kept as [Z] with the wrap-around written out *)

Local Open Scope Z_scope.

Definition u8_max : Z := 255.
Definition u32_max : Z := 4294967295.
Definition u64_max : Z := 18446744073709551615.

Definition wrap8 (z : Z) : Z := z mod 2 ^ 8.
Definition wrap16 (z : Z) : Z := z mod 2 ^ 16.
Definition wrap32 (z : Z) : Z := z mod 2 ^ 32.
Definition wrap64 (z : Z) : Z := z mod 2 ^ 64.
Definition wrap128 (z : Z) : Z := z mod 2 ^ 128.

Definition is_u8 (z : Z) : Prop := 0 <= z <= u8_max.
Definition is_u32 (z : Z) : Prop := 0 <= z <= u32_max.
Definition is_u64 (z : Z) : Prop := 0 <= z <= u64_max.

Definition saturating_add64 (a b : Z) : Z := Z.min (a + b) u64_max.
Definition saturating_sub (a b : Z) : Z := Z.max (a - b) 0.

Ltac unfold_ints :=
  unfold is_u8, is_u32, is_u64, u8_max, u32_max, u64_max in *.

(** [(a << n) | b] for a value [b] of [n] bits. *)
Lemma lor_shiftl_add a b n :
  0 <= n -> 0 <= b < 2 ^ n -> Z.lor (Z.shiftl a n) b = a * 2 ^ n + b.
Proof.
  intros Hn Hb. rewrite <- Z.shiftl_mul_pow2 by done.
  rewrite <- Z.add_lor_land.
  assert (Z.land (Z.shiftl a n) b = 0) as ->; [|lia].
  apply Z.bits_inj'. intros i Hi. rewrite Z.land_spec, Z.bits_0.
  destruct (Z.lt_ge_cases i n).
  - by rewrite Z.shiftl_spec_low.
  - destruct (Z.eq_dec b 0) as [->|]; [by rewrite Z.bits_0, andb_false_r|].
    rewrite (Z.bits_above_log2 b i), andb_false_r; [done|lia|].
    apply Z.log2_lt_pow2; [lia|]. eapply Z.lt_le_trans; [apply Hb|].
    by apply Z.pow_le_mono_r.
Qed.

(** ** Bytes *)

Abbreviation bytes := (list byte).

(** [NodeId] (crates/oceanfs-core/src/types/id.rs): a string, as its bytes. *)
Abbreviation NodeId := bytes.

Definition Z_of_byte (b : byte) : Z := Z.of_N (Byte.to_N b).
Definition byte_of_Z (z : Z) : byte :=
  default x00 (Byte.of_N (Z.to_N (z mod 256))).

#[export] Instance byte_eq_decision : EqDecision byte := Byte.byte_eq_dec.
#[export] Instance byte_countable : Countable byte :=
  inj_countable Byte.to_N Byte.of_N Byte.of_to_N.

Lemma Z_of_byte_range b : 0 <= Z_of_byte b < 256.
Proof. unfold Z_of_byte. pose proof (Byte.to_N_bounded b). lia. Qed.

Lemma byte_of_Z_of_byte b : byte_of_Z (Z_of_byte b) = b.
Proof.
  pose proof (Z_of_byte_range b). unfold byte_of_Z.
  rewrite Z.mod_small by done. unfold Z_of_byte.
  by rewrite N2Z.id, Byte.of_to_N.
Qed.

Lemma Z_of_byte_of_Z z : Z_of_byte (byte_of_Z z) = z mod 256.
Proof.
  unfold byte_of_Z. pose proof (Z.mod_pos_bound z 256 ltac:(lia)).
  destruct (Byte.of_N (Z.to_N (z mod 256))) as [b|] eqn:Hb; simpl.
  - apply Byte.to_of_N in Hb. unfold Z_of_byte. rewrite Hb. lia.
  - apply Byte.of_N_None_iff in Hb. lia.
Qed.

Lemma Z_of_byte_inj b c : Z_of_byte b = Z_of_byte c -> b = c.
Proof. intros H. by rewrite <- (byte_of_Z_of_byte b), H, byte_of_Z_of_byte. Qed.

(** Every byte, for the finite checks the kernel evaluates. *)
Definition all_bytes : list byte :=
  (fun n => byte_of_Z (Z.of_nat n)) <$> seq 0 256.

Lemma elem_of_all_bytes (b : byte) : b ∈ all_bytes.
Proof.
  unfold all_bytes. apply list_elem_of_fmap. exists (Z.to_nat (Z_of_byte b)).
  pose proof (Z_of_byte_range b). split.
  - rewrite Z2Nat.id by lia. by rewrite byte_of_Z_of_byte.
  - apply elem_of_seq. lia.
Qed.

Lemma forall_bytes (P : byte -> bool) :
  forallb P all_bytes = true -> forall b, P b = true.
Proof.
  intros H b. rewrite forallb_forall in H. apply H.
  apply list_elem_of_In, elem_of_all_bytes.
Qed.

(** ** Little-endian codecs ([to_le_bytes] / [from_le_bytes]) *)

Fixpoint to_le (n : nat) (z : Z) : bytes :=
  match n with
  | O => []
  | S n => byte_of_Z z :: to_le n (z / 256)
  end.

Fixpoint from_le (l : bytes) : Z :=
  match l with
  | [] => 0
  | b :: l => Z_of_byte b + 256 * from_le l
  end.

Lemma length_to_le n z : length (to_le n z) = n.
Proof. revert z; induction n as [|n IH]; intros z; simpl; [done|]. by rewrite IH. Qed.

Lemma from_le_range l : 0 <= from_le l < 256 ^ Z.of_nat (length l).
Proof.
  induction l as [|b l IH]; cbn [from_le length]; [lia|].
  pose proof (Z_of_byte_range b).
  rewrite Nat2Z.inj_succ, Z.pow_succ_r by lia. lia.
Qed.

Lemma from_to_le n z : from_le (to_le n z) = z mod 256 ^ Z.of_nat n.
Proof.
  revert z; induction n as [|n IH]; intros z; cbn [to_le from_le].
  - by rewrite Z.mod_1_r.
  - rewrite Z_of_byte_of_Z, IH, Nat2Z.inj_succ, Z.pow_succ_r by lia.
    rewrite Z.rem_mul_r by lia. lia.
Qed.

Lemma to_le_lookup n z i :
  (i < n)%nat -> to_le n z !! i = Some (byte_of_Z (z / 256 ^ Z.of_nat i)).
Proof.
  revert z i; induction n as [|n IH]; intros z [|i] Hi; cbn [to_le]; try lia.
  - by rewrite Z.div_1_r.
  - simpl. rewrite IH by lia. rewrite Nat2Z.inj_succ, Z.pow_succ_r by lia.
    by rewrite Z.div_div by lia.
Qed.

Lemma from_le_digit l i b :
  l !! i = Some b -> (from_le l / 256 ^ Z.of_nat i) mod 256 = Z_of_byte b.
Proof.
  revert i; induction l as [|c l IH]; intros [|i]; cbn [from_le]; try done.
  - intros [= ->]. rewrite Z.div_1_r. pose proof (Z_of_byte_range b).
    rewrite Z.add_comm, Z.mul_comm, Z.add_comm, Z.mod_add, Z.mod_small by lia. done.
  - intros Hi. rewrite <- (IH i Hi). rewrite Nat2Z.inj_succ, Z.pow_succ_r by lia.
    rewrite <- Z.div_div by lia. pose proof (Z_of_byte_range c).
    rewrite (Z.add_comm (Z_of_byte c)), (Z.mul_comm 256), Z.div_add_l by lia.
    rewrite (Z.div_small (Z_of_byte c)) by lia. by rewrite Z.add_0_r.
Qed.

Lemma from_to_le_small n z : 0 <= z < 256 ^ Z.of_nat n -> from_le (to_le n z) = z.
Proof. intros H. rewrite from_to_le. by apply Z.mod_small. Qed.

Lemma to_from_le l : to_le (length l) (from_le l) = l.
Proof.
  induction l as [|b l IH]; cbn [to_le from_le length]; [done|].
  pose proof (Z_of_byte_range b).
  assert (Hd : (Z_of_byte b + 256 * from_le l) / 256 = from_le l) by
    (rewrite Z.add_comm, Z.mul_comm, Z.div_add_l, (Z.div_small (Z_of_byte b)) by lia; lia).
  rewrite Hd, IH. f_equal.
  apply Z_of_byte_inj. rewrite Z_of_byte_of_Z, Z.add_comm, Z.mul_comm.
  by rewrite Z.add_comm, Z.mod_add, Z.mod_small by lia.
Qed.

(** ** Rows of equal width *)

Section chunks.
Context {A : Type}.
Implicit Types (l : list A) (w : nat).

Lemma concat_chunks_length (f : nat -> list A) w a n :
  (forall j, length (f j) = w) -> length (concat (f <$> seq a n)) = (n * w)%nat.
Proof.
  intros Hf. revert a; induction n as [|n IH]; intros a; simpl; [done|].
  by rewrite length_app, Hf, IH.
Qed.

Lemma concat_chunks_lookup (f : nat -> list A) w a n i :
  (forall j, length (f j) = w) -> (i < n * w)%nat ->
  concat (f <$> seq a n) !! i = f (a + i / w)%nat !! (i mod w)%nat.
Proof.
  intros Hf. revert a i; induction n as [|n IH]; intros a i Hi; simpl; [lia|].
  assert (w <> 0)%nat by lia.
  destruct (decide (i < w)%nat) as [Hlt|Hge].
  - rewrite lookup_app_l by (by rewrite Hf).
    rewrite Nat.div_small, Nat.mod_small by done. by rewrite Nat.add_0_r.
  - rewrite lookup_app_r, Hf by (rewrite Hf; lia).
    rewrite IH by (rewrite ?Nat.mul_succ_l in Hi; lia).
    replace i with (i - w + 1 * w)%nat at 3 4 by lia.
    rewrite Nat.div_add, Nat.Div0.mod_add by done. f_equal. f_equal. lia.
Qed.

Lemma fmap_replicate_concat (t : list A) n a :
  concat (replicate n t) = concat ((fun _ => t) <$> seq a n).
Proof. f_equal. revert a; induction n as [|n IH]; intros a; simpl; [done|]. by rewrite (IH (S a)). Qed.

Lemma take_take_drop l a b : take a l ++ take b (drop a l) = take (a + b) l.
Proof.
  revert l; induction a as [|a IH]; intros l; [done|].
  destruct l as [|x l]; simpl; [by destruct b|]. by rewrite IH.
Qed.

End chunks.

Lemma omapM_app_panic {E A B} (f : A -> outcome E B) (l1 : list A) (a : A) (l2 : list A) :
  (forall x, x ∈ l1 -> exists b, f x = Ok b) -> f a = Panic -> omapM f (l1 ++ a :: l2) = Panic.
Proof.
  intros Hl Ha. induction l1 as [|x l1 IH]; simpl; [by rewrite Ha|].
  destruct (Hl x) as [b ->]; [by left|]. rewrite IH; [done|].
  intros y Hy. apply Hl. by right.
Qed.

(** Filters that agree on the elements of the list. *)
Lemma filter_ext_in {A} (P Q : A -> Prop) `{!forall x, Decision (P x)} `{!forall x, Decision (Q x)}
    (l : list A) :
  (forall x, x ∈ l -> P x <-> Q x) -> filter P l = filter Q l.
Proof.
  induction l as [|x l IH]; intros Hiff; [done|]. rewrite !filter_cons.
  assert (Hl : filter P l = filter Q l) by (apply IH; intros y Hy; apply Hiff; by right).
  pose proof (Hiff x ltac:(by left)) as Hx.
  repeat case_decide; rewrite ?Hl; tauto || done.
Qed.

Lemma filter_true_in {A} (P : A -> Prop) `{!forall x, Decision (P x)} (l : list A) :
  (forall x, x ∈ l -> P x) -> filter P l = l.
Proof.
  induction l as [|x l IH]; intros HP; [done|].
  rewrite filter_cons_True by (apply HP; by left). f_equal.
  apply IH. intros y Hy. apply HP. by right.
Qed.

Lemma filter_false_in {A} (P : A -> Prop) `{!forall x, Decision (P x)} (l : list A) :
  (forall x, x ∈ l -> ~ P x) -> filter P l = [].
Proof.
  induction l as [|x l IH]; intros HP; [done|].
  rewrite filter_cons_False by (apply HP; by left).
  apply IH. intros y Hy. apply HP. by right.
Qed.

(** ** An injective number for a byte string

    Used to instantiate hash parameters in witnesses. *)
Definition spell (l : bytes) : Z := from_le (l ++ [x01]).

Lemma from_le_app a b : from_le (a ++ b) = from_le a + 256 ^ Z.of_nat (length a) * from_le b.
Proof.
  induction a as [|x a IH]; cbn [app from_le length]; [lia|].
  rewrite IH, Nat2Z.inj_succ, Z.pow_succ_r by lia. lia.
Qed.

Lemma spell_inj a b : spell a = spell b -> a = b.
Proof.
  unfold spell. rewrite !from_le_app. change (from_le [x01]) with 1. intros H.
  pose proof (from_le_range a). pose proof (from_le_range b).
  assert (Hlen : length a = length b).
  { destruct (Nat.lt_trichotomy (length a) (length b)) as [Hl|[?|Hl]]; [|done|];
      apply Nat2Z.inj_lt in Hl; apply Z.le_succ_l in Hl;
      apply (Z.pow_le_mono_r 256) in Hl; rewrite ?Z.pow_succ_r in Hl; lia. }
  rewrite <- (to_from_le a), <- (to_from_le b), Hlen. f_equal. rewrite Hlen in H. lia.
Qed.

Lemma forallb_id_false (l : list bool) :
  forallb id l = false -> exists u, l !! u = Some false.
Proof.
  induction l as [|[] l IH]; simpl; [done| |by exists 0%nat].
  intros [u Hu]%IH. by exists (S u).
Qed.

(** ** Fixed-offset fields of a byte record *)

(** [buf[a..b]] of a buffer whose length was checked. *)
Definition field (buf : bytes) (a b : nat) : bytes := take (b - a) (drop a buf).

#[global] Arguments field : simpl never.

Lemma field_skip (n a' b' : nat) (l1 l2 : bytes) (a b : nat) :
  length l1 = n -> a = (n + a')%nat -> b = (n + b')%nat -> field (l1 ++ l2) a b = field l2 a' b'.
Proof.
  intros Hn -> ->. unfold field. rewrite drop_app_ge by lia.
  replace (n + a' - length l1)%nat with a' by lia.
  by replace (n + b' - (n + a'))%nat with (b' - a')%nat by lia.
Qed.

Lemma field_here (n : nat) (l1 l2 : bytes) (b : nat) :
  length l1 = n -> b = n -> field (l1 ++ l2) 0 b = l1.
Proof. intros Hn ->. unfold field. rewrite drop_0, Nat.sub_0_r. by rewrite take_app_length'. Qed.

Lemma field_all (l : bytes) (n : nat) : length l = n -> field l 0 n = l.
Proof. intros <-. unfold field. rewrite drop_0, Nat.sub_0_r. apply firstn_all. Qed.

Lemma field_byte (buf : bytes) (i : nat) (b : byte) : field buf i (S i) = [b] -> buf !! i = Some b.
Proof.
  unfold field. rewrite Nat.sub_succ_l, Nat.sub_diag by done. intros H.
  rewrite <- (Nat.add_0_r i), <- lookup_drop. by destruct (drop i buf); simplify_eq/=.
Qed.

Lemma length_field (buf : bytes) (a b : nat) :
  (a <= b <= length buf)%nat -> length (field buf a b) = (b - a)%nat.
Proof. intros H. unfold field. rewrite length_take, length_drop. lia. Qed.

Lemma field_prefix (buf rest : bytes) (a b : nat) :
  (b <= length buf)%nat -> field (buf ++ rest) a b = field buf a b.
Proof.
  intros H. unfold field. destruct (decide (a <= b)%nat).
  - rewrite drop_app_le by lia. rewrite take_app_le; [done|]. rewrite length_drop. lia.
  - by replace (b - a)%nat with 0%nat by lia.
Qed.

Lemma from_le_u32 (l : bytes) : length l = 4%nat -> is_u32 (from_le l).
Proof.
  intros H. pose proof (from_le_range l) as Hr. rewrite H in Hr.
  change (256 ^ Z.of_nat 4) with (u32_max + 1) in Hr. unfold is_u32. lia.
Qed.

Lemma from_le_u64 (l : bytes) : length l = 8%nat -> is_u64 (from_le l).
Proof.
  intros H. pose proof (from_le_range l) as Hr. rewrite H in Hr.
  change (256 ^ Z.of_nat 8) with (u64_max + 1) in Hr. unfold is_u64. lia.
Qed.

(** Reads every [field] of a concatenation of pieces of known length. *)
Ltac known_length := first [eassumption | apply length_to_le | reflexivity].

Ltac field_norm :=
  match goal with
  | |- context [field (?l1 ++ ?l2) ?a ?b] =>
      let n := open_constr:(_ : nat) in
      let H := fresh "Hlen" in
      assert (H : length l1 = n) by known_length;
      first
        [ (let a0 := eval cbv in a in constr_eq a0 O);
          rewrite (field_here n l1 l2 b H eq_refl)
        | let a' := eval cbv in (a - n)%nat in
          rewrite (field_skip n a' _ l1 l2 a b H eq_refl eq_refl) ];
      clear H
  | |- context [field ?l 0 ?b] => rewrite (field_all l b) by known_length
  end.

(** A 32-bit checksum that stands for CRC-32 in the examples. *)
Definition toy_crc (bs : bytes) : Z := wrap32 (spell bs).

Lemma toy_crc_range bs : is_u32 (toy_crc bs).
Proof.
  unfold toy_crc, wrap32, is_u32, u32_max. pose proof (Z.mod_pos_bound (spell bs) (2 ^ 32)). lia.
Qed.

(** Closes an equation between closed terms by evaluation. *)
Ltac exact_eval := match goal with |- _ = ?r => vm_cast_no_check (@eq_refl _ r) end.

(** ** Hints of the development *)

Create HintDb ocean.

#[export] Hint Resolve toy_crc_range Z_of_byte_range from_le_u32 from_le_u64 elem_of_all_bytes : ocean.
#[export] Hint Rewrite length_to_le @length_app @length_replicate : ocean.
