(* ===== verification/Gf.v ===== *)
(** * GF(2^8) arithmetic (crates/oceanfs-ec/src/gf/mod.rs)

    The log and exp tables built by the two [const fn] loops, the scalar
    operations that index them, and the proof that they make the bytes a field
    of characteristic two. *)

From Stdlib Require Import ZArith Lia Strings.Byte Field.
From S2P Require Import Prelude.

Local Open Scope Z_scope.

(** [PRIMITIVE_POLY]: x^8 + x^4 + x^3 + x^2 + 1. *)
Definition PRIMITIVE_POLY : Z := 285.

(** One turn of the generator in the table loops: [x <<= 1] on [u16], reduced
    by the polynomial when bit 8 is set. *)
Definition gf_double (x : Z) : Z :=
  let x := wrap16 (Z.shiftl x 1) in
  if 256 <=? x then Z.lxor x PRIMITIVE_POLY else x.

(** The [while i < 255] loop of [build_log_table]; one unit of fuel per turn. *)
Fixpoint build_log_loop (fuel : nat) (x i : Z) (log : bytes) : bytes :=
  match fuel with
  | O => log
  | S fuel =>
      if i <? 255 then
        build_log_loop fuel (gf_double x) (i + 1) (<[Z.to_nat x := byte_of_Z i]> log)
      else log
  end.

Definition build_log_table : bytes := build_log_loop 256 1 0 (replicate 256 x00).

(** The [while i < 511] loop of [build_exp_table]. *)
Fixpoint build_exp_loop (fuel : nat) (x i : Z) (exp : bytes) : bytes :=
  match fuel with
  | O => exp
  | S fuel =>
      if i <? 511 then
        build_exp_loop fuel (gf_double x) (i + 1) (<[Z.to_nat i := byte_of_Z x]> exp)
      else exp
  end.

Definition build_exp_table : bytes :=
  let exp := build_exp_loop 512 1 0 (replicate 512 x00) in
  <[255%nat := default x00 (exp !! 0%nat)]> exp.

Definition LOG_TABLE : bytes := Eval vm_compute in build_log_table.
Definition EXP_TABLE : bytes := Eval vm_compute in build_exp_table.

Lemma LOG_TABLE_built : LOG_TABLE = build_log_table.
Proof. by vm_compute. Qed.

Lemma EXP_TABLE_built : EXP_TABLE = build_exp_table.
Proof. by vm_compute. Qed.

(** [LOG_TABLE[a as usize]] and [EXP_TABLE[i]]. Indexing past the end would
    panic; [log_index_ok] and [exp_index_ok] below show it cannot happen on the
    indices the operations use, so the default is never taken. *)
Definition log_at (a : byte) : Z :=
  Z_of_byte (default x00 (LOG_TABLE !! Z.to_nat (Z_of_byte a))).
Definition exp_at (i : Z) : byte := default x00 (EXP_TABLE !! Z.to_nat i).

Definition gf_add (a b : byte) : byte :=
  byte_of_Z (Z.lxor (Z_of_byte a) (Z_of_byte b)).

Definition gf_mul (a b : byte) : byte :=
  if Byte.eqb a x00 || Byte.eqb b x00 then x00
  else let sum := log_at a + log_at b in exp_at sum.

Definition gf_div {E} (a b : byte) : outcome E byte :=
  if Byte.eqb a x00 then Ok x00
  else if Byte.eqb b x00 then Panic
  else
    let diff := log_at a - log_at b in
    let idx := if diff <? 0 then diff + 255 else diff in
    Ok (exp_at idx).

Definition gf_inv {E} (a : byte) : outcome E byte :=
  if Byte.eqb a x00 then Panic else gf_div x01 a.

(** ** The generator: doubling is xor-linear, and the exp table is its orbit *)

Definition xtime (a : byte) : byte := byte_of_Z (gf_double (Z_of_byte a)).

Definition gexp (i : nat) : byte := Nat.iter i xtime x01.
Definition glog (a : byte) : nat := Z.to_nat (log_at a).

Lemma forall_bytes2 (P : byte -> byte -> bool) :
  forallb (fun a => forallb (P a) all_bytes) all_bytes = true ->
  forall a b, P a b = true.
Proof. intros H a. apply forall_bytes, (forall_bytes _ H). Qed.

Lemma byte_eqb_true a b : Byte.eqb a b = true <-> a = b.
Proof.
  pose proof (Byte.byte_dec_lb (x:=a) (y:=b)) as H1.
  pose proof (Byte.byte_dec_bl a b) as H2. tauto.
Qed.

Lemma byte_eqb_false a b : Byte.eqb a b = false <-> a <> b.
Proof. rewrite <- byte_eqb_true. by destruct (Byte.eqb a b). Qed.

Lemma xtime_add a b : xtime (gf_add a b) = gf_add (xtime a) (xtime b).
Proof.
  apply byte_eqb_true. revert a b. apply forall_bytes2. by vm_compute.
Qed.

Lemma forallb_seq (P : nat -> bool) (a n : nat) :
  forallb P (seq a n) = true -> forall i, (a <= i < a + n)%nat -> P i = true.
Proof.
  intros H i Hi. rewrite forallb_forall in H. apply H.
  apply in_seq. lia.
Qed.

Lemma exp_table_orbit i :
  (i < 511)%nat -> EXP_TABLE !! i = Some (gexp i).
Proof.
  intros Hi.
  assert (H : match EXP_TABLE !! i with
              | Some b => Byte.eqb b (gexp i) | None => false end = true).
  { apply (forallb_seq (fun i => match EXP_TABLE !! i with
              | Some b => Byte.eqb b (gexp i) | None => false end) 0 511); [|lia].
    by vm_compute. }
  destruct (EXP_TABLE !! i); [|done]. by apply byte_eqb_true in H as ->.
Qed.

(** The index of every log lookup is in the table, and every logarithm fits in
    the 255 exponents. *)
Lemma log_index_ok a : is_Some (LOG_TABLE !! Z.to_nat (Z_of_byte a)).
Proof.
  apply lookup_lt_is_Some. pose proof (Z_of_byte_range a).
  assert (length LOG_TABLE = 256%nat) as -> by by vm_compute. lia.
Qed.

Lemma glog_lt a : (glog a < 255)%nat.
Proof.
  unfold glog. apply Nat.ltb_lt.
  apply (forall_bytes (fun a => (Z.to_nat (log_at a) <? 255)%nat)). by vm_compute.
Qed.

Lemma log_at_glog a : log_at a = Z.of_nat (glog a).
Proof. unfold glog. rewrite Z2Nat.id; [done|]. apply Z_of_byte_range. Qed.

Lemma gexp_glog a : a <> x00 -> gexp (glog a) = a.
Proof.
  intros Ha. assert (H : Byte.eqb a x00 || Byte.eqb (gexp (glog a)) a = true).
  { apply (forall_bytes (fun a => Byte.eqb a x00 || Byte.eqb (gexp (glog a)) a)).
    by vm_compute. }
  apply byte_eqb_false in Ha. rewrite Ha in H. by apply byte_eqb_true.
Qed.

Lemma gexp_small_inv i : (i < 255)%nat -> gexp i <> x00 /\ glog (gexp i) = i.
Proof.
  intros Hi.
  assert (H : negb (Byte.eqb (gexp i) x00) && (glog (gexp i) =? i)%nat = true).
  { apply (forallb_seq (fun i => negb (Byte.eqb (gexp i) x00)
                                 && (glog (gexp i) =? i)%nat) 0 255); [|lia].
    by vm_compute. }
  apply andb_prop in H as [H1 H2]. apply negb_true_iff, byte_eqb_false in H1.
  apply Nat.eqb_eq in H2. done.
Qed.

Lemma gexp_period i : gexp (255 + i) = gexp i.
Proof.
  unfold gexp. rewrite Nat.add_comm, Nat.iter_add.
  assert (Nat.iter 255 xtime x01 = x01) as -> by by vm_compute.
  done.
Qed.

Lemma gexp_mod i : gexp (i mod 255) = gexp i.
Proof.
  rewrite (Nat.div_mod_eq i 255) at 2. generalize (i / 255)%nat as q.
  induction q as [|q IH]; [f_equal; lia|].
  rewrite IH, <- gexp_period. f_equal. lia.
Qed.

Lemma gexp_nonzero i : gexp i <> x00.
Proof. rewrite <- gexp_mod. apply gexp_small_inv. by apply Nat.mod_upper_bound. Qed.

Lemma glog_gexp i : glog (gexp i) = (i mod 255)%nat.
Proof.
  rewrite <- gexp_mod. apply gexp_small_inv. by apply Nat.mod_upper_bound.
Qed.

Lemma exp_at_gexp i : (i < 511)%nat -> exp_at (Z.of_nat i) = gexp i.
Proof. intros Hi. unfold exp_at. by rewrite Nat2Z.id, exp_table_orbit. Qed.

(** Every exponent the operations form indexes inside [EXP_TABLE]. *)
Lemma exp_index_ok a b :
  is_Some (EXP_TABLE !! Z.to_nat (log_at a + log_at b)).
Proof.
  rewrite !log_at_glog. pose proof (glog_lt a). pose proof (glog_lt b).
  rewrite exp_table_orbit by lia. eauto.
Qed.

(** ** Multiplication by a power of the generator is iterated doubling *)

Lemma gf_mul_nonzero a b :
  a <> x00 -> b <> x00 -> gf_mul a b = gexp (glog a + glog b).
Proof.
  intros Ha%byte_eqb_false Hb%byte_eqb_false. unfold gf_mul. rewrite Ha, Hb. simpl.
  rewrite !log_at_glog, <- Nat2Z.inj_add.
  pose proof (glog_lt a). pose proof (glog_lt b). apply exp_at_gexp. lia.
Qed.

Lemma gf_mul_0_l b : gf_mul x00 b = x00.
Proof. done. Qed.

Lemma gf_mul_0_r a : gf_mul a x00 = x00.
Proof. unfold gf_mul. by destruct (Byte.eqb a x00). Qed.

Lemma gexp_add_mod i j : gexp (i mod 255 + j mod 255) = gexp (i + j).
Proof.
  rewrite <- gexp_mod, <- (gexp_mod (i + j)). f_equal.
  by rewrite <- Nat.Div0.add_mod.
Qed.

Lemma gf_mul_gexp i j : gf_mul (gexp i) (gexp j) = gexp (i + j).
Proof.
  rewrite gf_mul_nonzero by apply gexp_nonzero.
  by rewrite !glog_gexp, gexp_add_mod.
Qed.

Lemma gf_mul_gexp_r a n : a <> x00 -> gf_mul a (gexp n) = gexp (glog a + n).
Proof. intros Ha. by rewrite <- gf_mul_gexp, gexp_glog. Qed.

Lemma byte_zero_or_gexp a : a = x00 \/ exists i, a = gexp i.
Proof.
  destruct (Byte.byte_eq_dec a x00) as [->|Ha]; [by left|right].
  exists (glog a). by rewrite gexp_glog.
Qed.

Lemma iter_xtime_zero i : Nat.iter i xtime x00 = x00.
Proof. induction i as [|i IH]; simpl; [done|]. rewrite IH. by vm_compute. Qed.

Lemma gf_mul_iter i b : gf_mul (gexp i) b = Nat.iter i xtime b.
Proof.
  destruct (byte_zero_or_gexp b) as [->|[j ->]].
  - by rewrite gf_mul_0_r, iter_xtime_zero.
  - rewrite gf_mul_gexp. unfold gexp. by rewrite Nat.iter_add.
Qed.

Lemma iter_xtime_add i a b :
  Nat.iter i xtime (gf_add a b) = gf_add (Nat.iter i xtime a) (Nat.iter i xtime b).
Proof. induction i as [|i IH]; simpl; [done|]. by rewrite IH, xtime_add. Qed.

(** ** Field laws *)

Lemma Z_of_byte_add a b :
  Z_of_byte (gf_add a b) = Z.lxor (Z_of_byte a) (Z_of_byte b).
Proof.
  apply Z.eqb_eq. revert a b.
  apply (forall_bytes2 (fun a b =>
    Z_of_byte (gf_add a b) =? Z.lxor (Z_of_byte a) (Z_of_byte b))). by vm_compute.
Qed.

Lemma gf_add_comm a b : gf_add a b = gf_add b a.
Proof. unfold gf_add. by rewrite Z.lxor_comm. Qed.

Lemma gf_add_assoc a b c : gf_add a (gf_add b c) = gf_add (gf_add a b) c.
Proof. apply Z_of_byte_inj. by rewrite !Z_of_byte_add, Z.lxor_assoc. Qed.

Lemma gf_add_0_l a : gf_add x00 a = a.
Proof. apply Z_of_byte_inj. by rewrite Z_of_byte_add. Qed.

Lemma gf_add_diag a : gf_add a a = x00.
Proof. apply Z_of_byte_inj. by rewrite Z_of_byte_add, Z.lxor_nilpotent. Qed.

Lemma gf_mul_comm a b : gf_mul a b = gf_mul b a.
Proof.
  destruct (byte_zero_or_gexp a) as [->|[i ->]]; [by rewrite gf_mul_0_r|].
  destruct (byte_zero_or_gexp b) as [->|[j ->]]; [by rewrite gf_mul_0_r|].
  rewrite !gf_mul_gexp. f_equal. lia.
Qed.

Lemma gf_mul_assoc a b c : gf_mul a (gf_mul b c) = gf_mul (gf_mul a b) c.
Proof.
  destruct (byte_zero_or_gexp a) as [->|[i ->]]; [done|].
  destruct (byte_zero_or_gexp b) as [->|[j ->]]; [by rewrite gf_mul_0_l, !gf_mul_0_r|].
  destruct (byte_zero_or_gexp c) as [->|[k ->]]; [by rewrite !gf_mul_0_r|].
  rewrite !gf_mul_gexp. f_equal. lia.
Qed.

Lemma gf_mul_1_l a : gf_mul x01 a = a.
Proof. by rewrite (gf_mul_iter 0 a : gf_mul x01 a = a). Qed.

Lemma gf_mul_add_r a b c : gf_mul a (gf_add b c) = gf_add (gf_mul a b) (gf_mul a c).
Proof.
  destruct (byte_zero_or_gexp a) as [->|[i ->]]; [by vm_compute|].
  by rewrite !gf_mul_iter, iter_xtime_add.
Qed.

Lemma gf_mul_add_l a b c : gf_mul (gf_add a b) c = gf_add (gf_mul a c) (gf_mul b c).
Proof. rewrite !(gf_mul_comm _ c). apply gf_mul_add_r. Qed.

(** ** Division and inverse *)

(** The total inverse the field theory uses: [gf_inv] where it is defined. *)
Definition ginv (a : byte) : byte :=
  if Byte.eqb a x00 then x00 else gexp (255 - glog a).

Lemma gf_div_nonzero {E} a b :
  b <> x00 -> gf_div (E:=E) a b = Ok (gf_mul a (ginv b)).
Proof.
  intros Hb. unfold gf_div, ginv.
  destruct (Byte.eqb a x00) eqn:Ha.
  { apply byte_eqb_true in Ha as ->. by rewrite gf_mul_0_l. }
  apply byte_eqb_false in Ha. pose proof (glog_lt a). pose proof (glog_lt b).
  rewrite (proj2 (byte_eqb_false b x00) Hb), !log_at_glog.
  rewrite gf_mul_gexp_r by done. f_equal.
  case_match eqn:Hd; [apply Z.ltb_lt in Hd|apply Z.ltb_ge in Hd].
  - rewrite <- exp_at_gexp by lia. f_equal. lia.
  - replace (glog a + (255 - glog b))%nat with (255 + (glog a - glog b))%nat by lia.
    rewrite gexp_period, <- exp_at_gexp by lia. f_equal. lia.
Qed.

Lemma gf_mul_ginv a : a <> x00 -> gf_mul a (ginv a) = x01.
Proof.
  intros Ha. unfold ginv. rewrite (proj2 (byte_eqb_false a x00) Ha).
  rewrite gf_mul_gexp_r by done. pose proof (glog_lt a).
  replace (glog a + (255 - glog a))%nat with (255 + 0)%nat by lia.
  by rewrite gexp_period.
Qed.

Lemma gf_inv_nonzero {E} a : a <> x00 -> gf_inv (E:=E) a = Ok (ginv a).
Proof.
  intros Ha. unfold gf_inv. rewrite (proj2 (byte_eqb_false a x00) Ha).
  by rewrite gf_div_nonzero, gf_mul_1_l.
Qed.

Lemma ginv_nonzero a : a <> x00 -> ginv a <> x00.
Proof.
  intros Ha H. apply gf_mul_ginv in Ha. rewrite H, gf_mul_0_r in Ha. done.
Qed.

Lemma gf_mul_eq_0 a b : gf_mul a b = x00 -> a = x00 \/ b = x00.
Proof.
  destruct (byte_zero_or_gexp a) as [->|[i ->]]; [by left|].
  destruct (byte_zero_or_gexp b) as [->|[j ->]]; [by right|].
  rewrite gf_mul_gexp. intros []%gexp_nonzero.
Qed.

Lemma gf_add_eq_0 a b : gf_add a b = x00 <-> a = b.
Proof.
  split; [intros H|intros ->; apply gf_add_diag].
  rewrite <- (gf_add_0_l b), <- H, <- gf_add_assoc, gf_add_diag.
  by rewrite gf_add_comm, gf_add_0_l.
Qed.

Lemma gf_add_zero_eq a b : gf_add a b = x00 -> a = b.
Proof. apply gf_add_eq_0. Qed.

Lemma gf_ring_theory :
  ring_theory x00 x01 gf_add gf_mul gf_add (fun a => a) eq.
Proof.
  split; intros; auto using gf_add_0_l, gf_add_comm, gf_add_assoc, gf_mul_1_l,
    gf_mul_comm, gf_mul_assoc, gf_mul_add_l, gf_add_diag.
Qed.

Lemma gf_field_theory :
  field_theory x00 x01 gf_add gf_mul gf_add (fun a => a)
    (fun a b => gf_mul a (ginv b)) ginv eq.
Proof.
  split; [apply gf_ring_theory|done|done|].
  intros a Ha. by rewrite gf_mul_comm, gf_mul_ginv.
Qed.

Add Field gf_field : gf_field_theory.

Declare Scope gf_scope.
Delimit Scope gf_scope with gf.
Infix "⊕" := gf_add (at level 50, left associativity) : gf_scope.
Infix "⊗" := gf_mul (at level 40, left associativity) : gf_scope.

(** ** Property *)

(** the table-driven scalar operations make the bytes a field of
    characteristic two: XOR is a group of exponent two, [gf_mul] is an
    associative and commutative product that distributes over it with unit 1,
    [gf_inv] is defined exactly on the nonzero bytes and gives the inverse,
    [gf_div] undoes [gf_mul], and dividing a nonzero byte by zero panics. *)
Theorem gf_operations_form_field {E} :
  (forall a b c, gf_add a (gf_add b c) = gf_add (gf_add a b) c /\
                 gf_add a b = gf_add b a /\ gf_add x00 a = a /\ gf_add a a = x00) /\
  (forall a b c, gf_mul a (gf_mul b c) = gf_mul (gf_mul a b) c /\
                 gf_mul a b = gf_mul b a /\ gf_mul x01 a = a /\
                 gf_mul a (gf_add b c) = gf_add (gf_mul a b) (gf_mul a c)) /\
  (forall a, a <> x00 -> exists a', gf_inv (E:=E) a = Ok a' /\ gf_mul a a' = x01) /\
  (forall a b, b <> x00 -> gf_div (E:=E) (gf_mul a b) b = Ok a) /\
  gf_inv (E:=E) x00 = Panic /\
  (forall a, a <> x00 -> gf_div (E:=E) a x00 = Panic).
Proof.
  repeat apply conj.
  - auto using gf_add_assoc, gf_add_comm, gf_add_0_l, gf_add_diag.
  - auto using gf_mul_assoc, gf_mul_comm, gf_mul_1_l, gf_mul_add_r.
  - intros a Ha. exists (ginv a). auto using gf_inv_nonzero, gf_mul_ginv.
  - intros a b Hb. rewrite gf_div_nonzero by done. f_equal. field. done.
  - done.
  - intros a Ha. unfold gf_div. by rewrite (proj2 (byte_eqb_false a x00) Ha).
Qed.
