(* ===== verification/GfSimd.v ===== *)
(** * SIMD multiplication (crates/oceanfs-ec/src/gf/simd_x86.rs)

    The PSHUFB split-table kernels and the GFNI kernels with the instructions
    they use written out byte by byte, the batch loops with their remainder
    handling, the run-time detection and the dispatcher. Vector loads and
    stores are checked: an access outside the slice is [Panic], so a result
    [Ok] also says that every raw-pointer access is in bounds. *)

From Stdlib Require Import ZArith Lia Strings.Byte.
From S2P Require Import Prelude Gf.

Local Open Scope Z_scope.

(** ** The vector instructions the kernels use *)

(** [_mm*_loadu_*(ptr.add(off))] of [w] bytes. *)
Definition loadu {E} (w : nat) (data : bytes) (off : nat) : outcome E bytes :=
  if bool_decide (off + w <= length data)%nat then Ok (take w (drop off data)) else Panic.

(** [_mm*_storeu_*(ptr.add(off), v)]. *)
Definition storeu {E} (dst : bytes) (off : nat) (v : bytes) : outcome E bytes :=
  if bool_decide (off + length v <= length dst)%nat
  then Ok (take off dst ++ v ++ drop (off + length v) dst) else Panic.

Definition byte_and (a b : byte) : byte := byte_of_Z (Z.land (Z_of_byte a) (Z_of_byte b)).

Definition set1_epi8 (w : nat) (b : byte) : bytes := replicate w b.
Definition and_si (a b : bytes) : bytes := zip_with byte_and a b.
Definition xor_si (a b : bytes) : bytes := zip_with gf_add a b.

(** [_mm*_srli_epi64::<s>]: a logical shift inside each 64-bit lane. *)
Definition srli_epi64 (s : Z) (v : bytes) : bytes :=
  concat ((fun lane => to_le 8 (Z.shiftr (from_le (take 8 (drop (lane * 8) v))) s))
            <$> seq 0 (length v / 8)).

(** [_mm*_shuffle_epi8]: inside each 128-bit lane, byte [i] selects the table
    byte named by the low four bits of the index, or zero when bit 7 is set. *)
Definition shuffle_epi8 (table idx : bytes) : bytes :=
  imap (fun i x =>
    if Z.testbit (Z_of_byte x) 7 then x00
    else default x00 (table !! (i / 16 * 16 + Z.to_nat (Z.land (Z_of_byte x) 15))%nat)) idx.

(** [_mm256_broadcastsi128_si256] and [_mm512_broadcast_i32x4]. *)
Definition broadcast128 (w : nat) (t : bytes) : bytes := concat (replicate (w / 16) t).

(** [VGF2P8MULB] on one byte pair: carry-less product, then reduction by the
    polynomial the instruction fixes, x^8 + x^4 + x^3 + x + 1. *)
Definition gf2p8mul_byte (a b : byte) : byte :=
  let t := foldl (fun t i =>
    if Z.testbit (Z_of_byte b) (Z.of_nat i)
    then Z.lxor t (Z.shiftl (Z_of_byte a) (Z.of_nat i)) else t) 0 (seq 0 8) in
  let t := foldl (fun t i =>
    if Z.testbit t (Z.of_nat i)
    then Z.lxor t (Z.shiftl 283 (Z.of_nat i - 8)) else t) t (rev (seq 8 7)) in
  byte_of_Z t.

Definition gf2p8mul_epi8 (a b : bytes) : bytes := zip_with gf2p8mul_byte a b.

(** ** Split tables *)

Record GfMulTableX86 := { tbl_lo : bytes; tbl_hi : bytes }.

(** [GfMulTableX86::new]. *)
Definition GfMulTableX86_new (coeff : byte) : GfMulTableX86 :=
  {| tbl_lo := (fun i => gf_mul coeff (byte_of_Z (Z.of_nat i))) <$> seq 0 16;
     tbl_hi := (fun i => gf_mul coeff (byte_of_Z (wrap8 (Z.of_nat i * 16)))) <$> seq 0 16 |}.

(** The body the three PSHUFB kernels share; [w] is the vector width. *)
Definition pshufb_kernel {E} (w : nat) (table : GfMulTableX86) (data : bytes) (off : nat) :
    outcome E bytes :=
  data ← loadu w data off;
  let mask := set1_epi8 w x0f in
  let lo_nibbles := and_si data mask in
  let hi_tmp := srli_epi64 4 data in
  let hi_nibbles := and_si hi_tmp mask in
  lo_table ← loadu 16 (tbl_lo table) 0;
  hi_table ← loadu 16 (tbl_hi table) 0;
  let lo_result := shuffle_epi8 (broadcast128 w lo_table) lo_nibbles in
  let hi_result := shuffle_epi8 (broadcast128 w hi_table) hi_nibbles in
  Ok (xor_si lo_result hi_result).

Definition gf_mul_sse41_16 {E} := pshufb_kernel (E:=E) 16.
Definition gf_mul_avx2_32 {E} := pshufb_kernel (E:=E) 32.
Definition gf_mul_avx512_64 {E} := pshufb_kernel (E:=E) 64.

Definition gf_mul_gfni_avx512_64 {E} (coeff : byte) (data : bytes) (off : nat) :
    outcome E bytes :=
  data ← loadu 64 data off;
  let coeff_vec := set1_epi8 64 coeff in
  Ok (gf2p8mul_epi8 data coeff_vec).

Definition gf_mul_gfni_avx2_32 {E} (coeff : byte) (data : bytes) (off : nat) :
    outcome E bytes :=
  data ← loadu 32 data off;
  let coeff_vec := set1_epi8 32 coeff in
  Ok (gf2p8mul_epi8 data coeff_vec).

(** ** Batch loops *)

(** [for chunk in 0..chunks]: run the kernel at [chunk * w] and store. *)
Definition chunk_loop {E} (w chunks : nat) (kernel : bytes -> nat -> outcome E bytes)
    (data dst : bytes) : outcome E bytes :=
  for_range 0 chunks (fun dst chunk =>
    let offset := (chunk * w)%nat in
    result ← kernel data offset;
    storeu dst offset result) dst.

(** [for i in from..len { dst[i] = gf_mul(coeff, data[i]) }]. *)
Definition scalar_loop {E} (coeff : byte) (from len : nat) (data dst : bytes) :
    outcome E bytes :=
  for_range from len (fun dst i =>
    d ← expect (data !! i);
    if bool_decide (i < length dst)%nat then Ok (<[i := gf_mul coeff d]> dst) else Panic) dst.

(** The remainder both AVX2 loops share: one SSE4.1 vector when at least 16
    bytes are left, then the scalar loop. *)
Definition sse_tail {E} (coeff : byte) (table : GfMulTableX86) (remainder_start len : nat)
    (data dst : bytes) : outcome E bytes :=
  let remainder := (len - remainder_start)%nat in
  if bool_decide (16 <= remainder)%nat then
    sse_result ← gf_mul_sse41_16 table data remainder_start;
    dst ← storeu dst remainder_start sse_result;
    let sse_end := (remainder_start + 16)%nat in
    scalar_loop coeff sse_end len data dst
  else scalar_loop coeff remainder_start len data dst.

Definition gf_mul_sse41_batch {E} (coeff : byte) (data dst : bytes) : outcome E bytes :=
  if negb (bool_decide (length data = length dst)) then Panic else
  let len := length data in
  let chunks := (len / 16)%nat in
  let table := GfMulTableX86_new coeff in
  dst ← chunk_loop 16 chunks (gf_mul_sse41_16 table) data dst;
  let remainder_start := (chunks * 16)%nat in
  scalar_loop coeff remainder_start len data dst.

Definition gf_mul_avx2_batch {E} (coeff : byte) (data dst : bytes) : outcome E bytes :=
  if negb (bool_decide (length data = length dst)) then Panic else
  let len := length data in
  let chunks := (len / 32)%nat in
  let table := GfMulTableX86_new coeff in
  dst ← chunk_loop 32 chunks (gf_mul_avx2_32 table) data dst;
  let remainder_start := (chunks * 32)%nat in
  sse_tail coeff table remainder_start len data dst.

(** [rest(&data[from..], &mut dst[from..])]: the callee writes the tail of
    [dst] in place. *)
Definition on_tail {E} (from : nat) (rest : bytes -> bytes -> outcome E bytes)
    (data dst : bytes) : outcome E bytes :=
  tail ← rest (drop from data) (drop from dst);
  Ok (take from dst ++ tail).

Definition gf_mul_avx512_batch {E} (coeff : byte) (data dst : bytes) : outcome E bytes :=
  if negb (bool_decide (length data = length dst)) then Panic else
  let len := length data in
  let chunks := (len / 64)%nat in
  let table := GfMulTableX86_new coeff in
  dst ← chunk_loop 64 chunks (gf_mul_avx512_64 table) data dst;
  let remainder_start := (chunks * 64)%nat in
  if bool_decide (remainder_start < len)%nat
  then on_tail remainder_start (gf_mul_avx2_batch coeff) data dst
  else Ok dst.

Definition gf_mul_gfni_avx2_batch {E} (coeff : byte) (data dst : bytes) : outcome E bytes :=
  if negb (bool_decide (length data = length dst)) then Panic else
  let len := length data in
  let chunks := (len / 32)%nat in
  dst ← chunk_loop 32 chunks (gf_mul_gfni_avx2_32 coeff) data dst;
  let remainder_start := (chunks * 32)%nat in
  sse_tail coeff (GfMulTableX86_new coeff) remainder_start len data dst.

Definition gf_mul_gfni_avx512_batch {E} (coeff : byte) (data dst : bytes) : outcome E bytes :=
  if negb (bool_decide (length data = length dst)) then Panic else
  let len := length data in
  let chunks := (len / 64)%nat in
  dst ← chunk_loop 64 chunks (gf_mul_gfni_avx512_64 coeff) data dst;
  let remainder_start := (chunks * 64)%nat in
  if bool_decide (remainder_start < len)%nat
  then on_tail remainder_start (gf_mul_gfni_avx2_batch coeff) data dst
  else Ok dst.

(** ** Detection and dispatch *)

Inductive GfSimdLevel := Portable | Sse41 | Avx2 | Avx512 | Gfni.

#[export] Instance GfSimdLevel_eq_dec : EqDecision GfSimdLevel.
Proof. solve_decision. Defined.

(** The features [is_x86_feature_detected!] reports. *)
Record cpu := {
  has_gfni : bool; has_avx512f : bool; has_avx512bw : bool;
  has_avx2 : bool; has_sse41 : bool }.

(** [GfSimdLevel::detect] on x86_64, cache aside: the cached value is the
    value the first call computed on the same CPU. *)
Definition detect (c : cpu) : GfSimdLevel :=
  if has_gfni c && (has_avx512f c || has_avx2 c) then Gfni
  else if has_avx512f c && has_avx512bw c then Avx512
  else if has_avx2 c then Avx2
  else if has_sse41 c then Sse41
  else Portable.

Definition gf_mul_simd {E} (c : cpu) (coeff : byte) (data dst : bytes) : outcome E bytes :=
  if negb (bool_decide (length data = length dst)) then Panic else
  match detect c with
  | Gfni =>
      if has_avx512f c && has_avx512bw c
      then gf_mul_gfni_avx512_batch coeff data dst
      else gf_mul_gfni_avx2_batch coeff data dst
  | Avx512 => gf_mul_avx512_batch coeff data dst
  | Avx2 => gf_mul_avx2_batch coeff data dst
  | Sse41 => gf_mul_sse41_batch coeff data dst
  | Portable => scalar_loop coeff 0 (length data) data dst
  end.

(** [GF_SIMD_LEVEL]: the level as the [u8] of the static cache, [u8::MAX] when
    nothing was detected yet, and [detect] with the cache as state. *)
Definition level_as_u8 (l : GfSimdLevel) : Z :=
  match l with Portable => 0 | Sse41 => 1 | Avx2 => 2 | Avx512 => 3 | Gfni => 4 end.

Definition from_u8 (v : Z) : GfSimdLevel :=
  match v with
  | 0 => Portable | 1 => Sse41 | 2 => Avx2 | 3 => Avx512 | 4 => Gfni | _ => Portable
  end.

Definition detect_cached (c : cpu) (cached : Z) : Z * GfSimdLevel :=
  if negb (cached =? u8_max) then (cached, from_u8 cached)
  else let level := detect c in (level_as_u8 level, level).

(** ** The instructions, byte by byte *)

Definition low_nibble (b : byte) : byte := byte_and b x0f.
Definition high_nibble (b : byte) : byte := byte_of_Z (Z_of_byte b / 16).

Lemma srli_epi64_lookup q v i b :
  length v = (q * 8)%nat -> v !! i = Some b ->
  exists c, srli_epi64 4 v !! i = Some c /\ byte_and c x0f = high_nibble b.
Proof.
  intros Hlen Hb. pose proof (lookup_lt_Some _ _ _ Hb) as Hi.
  unfold srli_epi64. rewrite Hlen, Nat.div_mul by done.
  rewrite (concat_chunks_lookup _ 8) by (try lia; intros; apply length_to_le).
  pose proof (Nat.mod_upper_bound i 8 ltac:(lia)).
  pose proof (Nat.div_mod_eq i 8).
  rewrite to_le_lookup by done. eexists. split; [done|].
  set (l := take 8 (drop ((0 + i / 8) * 8) v)).
  assert (Hl : l !! (i mod 8)%nat = Some b).
  { unfold l. rewrite lookup_take_lt, lookup_drop by lia. rewrite <- Hb. f_equal. lia. }
  apply Z_of_byte_inj. unfold byte_and, high_nibble. rewrite !Z_of_byte_of_Z.
  change (Z_of_byte x0f) with (Z.ones 4). rewrite Z.land_ones, Z.shiftr_div_pow2 by lia.
  change (2 ^ 4) with 16. rewrite <- (from_le_digit l (i mod 8)) by done.
  assert (0 < 256 ^ Z.of_nat (i mod 8)) as Hp by lia.
  revert Hp; generalize (256 ^ Z.of_nat (i mod 8)); intros p Hp.
  rewrite Z.div_div, (Z.mul_comm 16), <- Z.div_div by lia.
  generalize (from_le l / p); intros z.
  Z.div_mod_to_equations. lia.
Qed.

Lemma nibble_small x :
  Z_of_byte x < 16 -> Z.testbit (Z_of_byte x) 7 = false /\ Z.land (Z_of_byte x) 15 = Z_of_byte x.
Proof.
  intros Hx. pose proof (Z_of_byte_range x). split.
  - apply Z.bits_above_log2; [lia|].
    destruct (Z.eq_dec (Z_of_byte x) 0) as [->|]; [done|].
    apply Z.log2_lt_pow2; lia.
  - change 15 with (Z.ones 4). rewrite Z.land_ones by lia. apply Z.mod_small. lia.
Qed.

Lemma shuffle_broadcast_lookup q t idx i x :
  length t = 16%nat -> length idx = (q * 16)%nat ->
  idx !! i = Some x -> Z_of_byte x < 16 ->
  shuffle_epi8 (broadcast128 (q * 16) t) idx !! i = t !! Z.to_nat (Z_of_byte x).
Proof.
  intros Ht Hidx Hx Hsmall. pose proof (lookup_lt_Some _ _ _ Hx) as Hi.
  unfold shuffle_epi8, broadcast128. rewrite list_lookup_imap, Hx.
  cbn [fmap option_fmap option_map].
  destruct (nibble_small x Hsmall) as [-> ->]. pose proof (Z_of_byte_range x).
  rewrite Nat.div_mul, (fmap_replicate_concat _ _ 0) by done.
  assert (i / 16 < q)%nat by (apply Nat.Div0.div_lt_upper_bound; lia).
  rewrite (concat_chunks_lookup _ 16) by (try done; lia).
  rewrite (Nat.add_comm (i / 16 * 16)), Nat.Div0.mod_add, Nat.mod_small by lia.
  destruct (lookup_lt_is_Some_2 t (Z.to_nat (Z_of_byte x))) as [c Hc]; [lia|].
  by rewrite Hc.
Qed.

(** ** The split table multiplies *)

Lemma low_nibble_small b : Z_of_byte (low_nibble b) < 16.
Proof.
  unfold low_nibble, byte_and. rewrite Z_of_byte_of_Z.
  change (Z_of_byte x0f) with (Z.ones 4). rewrite Z.land_ones by lia.
  pose proof (Z.mod_pos_bound (Z_of_byte b) 16). change (2 ^ 4) with 16.
  rewrite Z.mod_small; lia.
Qed.

Lemma high_nibble_small b : Z_of_byte (high_nibble b) < 16.
Proof.
  unfold high_nibble. rewrite Z_of_byte_of_Z. pose proof (Z_of_byte_range b).
  Z.div_mod_to_equations. lia.
Qed.

Lemma nibbles_join b :
  gf_add (low_nibble b) (byte_of_Z (wrap8 (Z_of_byte (high_nibble b) * 16))) = b.
Proof. apply byte_eqb_true. revert b. apply forall_bytes. by vm_compute. Qed.

Lemma table_lo_lookup c x :
  Z_of_byte x < 16 ->
  tbl_lo (GfMulTableX86_new c) !! Z.to_nat (Z_of_byte x) = Some (gf_mul c x).
Proof.
  intros Hx. pose proof (Z_of_byte_range x). cbn [tbl_lo GfMulTableX86_new].
  rewrite list_lookup_fmap, lookup_seq_lt by lia. cbn [fmap option_fmap option_map plus].
  by rewrite Z2Nat.id, byte_of_Z_of_byte by lia.
Qed.

Lemma table_hi_lookup c x :
  Z_of_byte x < 16 ->
  tbl_hi (GfMulTableX86_new c) !! Z.to_nat (Z_of_byte x)
    = Some (gf_mul c (byte_of_Z (wrap8 (Z_of_byte x * 16)))).
Proof.
  intros Hx. pose proof (Z_of_byte_range x). cbn [tbl_hi GfMulTableX86_new].
  rewrite list_lookup_fmap, lookup_seq_lt by lia. cbn [fmap option_fmap option_map plus]. by rewrite Z2Nat.id by lia.
Qed.

Lemma length_srli_epi64 s v q : length v = (q * 8)%nat -> length (srli_epi64 s v) = length v.
Proof.
  intros Hv. unfold srli_epi64. rewrite (concat_chunks_length _ 8).
  - by rewrite Hv, Nat.div_mul.
  - intros; apply length_to_le.
Qed.

Lemma table_lo_load {E} c :
  loadu (E:=E) 16 (tbl_lo (GfMulTableX86_new c)) 0 = Ok (tbl_lo (GfMulTableX86_new c)).
Proof. done. Qed.

Lemma table_hi_load {E} c :
  loadu (E:=E) 16 (tbl_hi (GfMulTableX86_new c)) 0 = Ok (tbl_hi (GfMulTableX86_new c)).
Proof. done. Qed.

Lemma length_and_mask w b v :
  length v = w -> length (and_si v (set1_epi8 w b)) = w.
Proof. intros Hv. unfold and_si, set1_epi8. rewrite length_zip_with, length_replicate. lia. Qed.

Lemma loadu_ok {E} w data off :
  (off + w <= length data)%nat -> loadu (E:=E) w data off = Ok (take w (drop off data)).
Proof. intros H. unfold loadu. by rewrite bool_decide_true. Qed.

Lemma take_drop_length (data : bytes) off w :
  (off + w <= length data)%nat -> length (take w (drop off data)) = w.
Proof. rewrite length_take, length_drop. lia. Qed.

(** One vector: the kernel of width [w] computes [gf_mul c] on each byte. *)
Lemma pshufb_kernel_correct {E} q c data off :
  (off + q * 16 <= length data)%nat ->
  pshufb_kernel (E:=E) (q * 16) (GfMulTableX86_new c) data off
    = Ok (gf_mul c <$> take (q * 16) (drop off data)).
Proof.
  intros Hoff. unfold pshufb_kernel. rewrite (loadu_ok (q * 16)) by done.
  generalize (take_drop_length data off (q * 16) Hoff).
  generalize (take (q * 16) (drop off data)); intros v Hv.
  cbn [mbind outcome_bind]. rewrite table_lo_load, table_hi_load. cbn [mbind outcome_bind].
  f_equal. apply list_eq; intros i. rewrite list_lookup_fmap.
  destruct (v !! i) as [b|] eqn:Hb; cbn [fmap option_fmap option_map].
  2:{ apply lookup_ge_None in Hb. apply lookup_ge_None. unfold xor_si.
      rewrite length_zip_with. unfold shuffle_epi8, and_si, set1_epi8.
      rewrite !length_imap, !length_zip_with. lia. }
  destruct (srli_epi64_lookup (q * 2) v i b ltac:(lia) Hb) as (c' & Hc' & Hhi).
  unfold xor_si. rewrite lookup_zip_with.
  pose proof (lookup_lt_Some _ _ _ Hb) as Hi.
  assert (Hmask : set1_epi8 (q * 16) x0f !! i = Some x0f)
    by (apply lookup_replicate_2; lia).
  pose proof (low_nibble_small b) as Hlo_s. pose proof (high_nibble_small b) as Hhi_s.
  assert (Hlo : and_si v (set1_epi8 (q * 16) x0f) !! i = Some (low_nibble b))
    by (unfold and_si; by rewrite lookup_zip_with, Hb, Hmask).
  assert (Hhi' : and_si (srli_epi64 4 v) (set1_epi8 (q * 16) x0f) !! i = Some (high_nibble b))
    by (unfold and_si; rewrite lookup_zip_with, Hc', Hmask; simpl; by rewrite Hhi).
  pose proof (length_and_mask (q * 16) x0f v Hv) as Hll.
  assert (Hlh : length (srli_epi64 4 v) = (q * 16)%nat)
    by (rewrite (length_srli_epi64 _ _ (q * 2)); lia).
  apply (length_and_mask _ x0f) in Hlh.
  rewrite (shuffle_broadcast_lookup q (tbl_lo (GfMulTableX86_new c)) _ i _ eq_refl Hll Hlo Hlo_s).
  rewrite (shuffle_broadcast_lookup q (tbl_hi (GfMulTableX86_new c)) _ i _ eq_refl Hlh Hhi' Hhi_s).
  rewrite table_lo_lookup, table_hi_lookup by done.
  simpl. by rewrite <- gf_mul_add_r, nibbles_join.
Qed.

(** ** The loops: after [n] bytes the destination holds the products of the
    first [n] data bytes and its old tail. *)

Definition done_to (f : byte -> byte) (data dst : bytes) (n : nat) : bytes :=
  (f <$> take n data) ++ drop n dst.

Lemma length_done_to f data dst n :
  length data = length dst -> length (done_to f data dst n) = length dst.
Proof.
  intros H. unfold done_to. rewrite length_app, length_fmap, length_take, length_drop. lia.
Qed.

Lemma done_to_0 f data dst : done_to f data dst 0 = dst.
Proof. done. Qed.

Lemma done_to_all f data dst :
  length data = length dst -> done_to f data dst (length data) = f <$> data.
Proof. intros H. unfold done_to. by rewrite take_ge, drop_ge, app_nil_r by lia. Qed.

Lemma storeu_done {E} f data dst n w :
  length data = length dst -> (n + w <= length data)%nat ->
  storeu (E:=E) (done_to f data dst n) n (f <$> take w (drop n data))
    = Ok (done_to f data dst (n + w)).
Proof.
  intros Hlen Hn. unfold storeu.
  rewrite length_fmap, take_drop_length, length_done_to by done.
  rewrite bool_decide_true by lia. f_equal. unfold done_to.
  rewrite take_app_length' by (rewrite length_fmap, length_take; lia).
  rewrite app_assoc, <- fmap_app, take_take_drop. f_equal.
  rewrite drop_app, (drop_ge (f <$> take n data)), drop_drop
    by (rewrite length_fmap, length_take; lia).
  simpl. f_equal. rewrite length_fmap, length_take. lia.
Qed.

Lemma chunk_loop_correct {E} f w chunks (kernel : bytes -> nat -> outcome E bytes) data dst :
  length data = length dst -> (chunks * w <= length data)%nat ->
  (forall off, (off + w <= length data)%nat ->
     kernel data off = Ok (f <$> take w (drop off data))) ->
  chunk_loop w chunks kernel data dst = Ok (done_to f data dst (chunks * w)).
Proof.
  intros Hlen Hc Hk. unfold chunk_loop.
  rewrite <- (done_to_0 f data dst) at 1.
  apply (for_range_eq (fun i => done_to f data dst (i * w))); [lia|].
  intros i Hi. assert (i * w + w <= length data)%nat by nia.
  rewrite Hk by done. cbn [mbind outcome_bind].
  rewrite storeu_done by done. do 2 f_equal. lia.
Qed.

Lemma scalar_loop_correct {E} coeff from data dst :
  length data = length dst -> (from <= length data)%nat ->
  scalar_loop (E:=E) coeff from (length data) data (done_to (gf_mul coeff) data dst from)
    = Ok (gf_mul coeff <$> data).
Proof.
  intros Hlen Hf. unfold scalar_loop.
  rewrite <- (done_to_all _ data dst) by done.
  apply (for_range_eq (fun i => done_to (gf_mul coeff) data dst i)); [lia|].
  intros i Hi. destruct (lookup_lt_is_Some_2 data i) as [d Hd]; [lia|].
  rewrite Hd. cbn [expect mbind outcome_bind].
  rewrite length_done_to, bool_decide_true by (done || lia). f_equal. unfold done_to.
  destruct (lookup_lt_is_Some_2 dst i) as [e He]; [lia|].
  rewrite (drop_S dst e i He), (take_S_r data i d Hd).
  rewrite fmap_app, <- app_assoc. simpl.
  rewrite insert_app_r_alt by (rewrite length_fmap, length_take; lia).
  rewrite length_fmap, length_take. by replace (i - i `min` length data)%nat with 0%nat by lia.
Qed.

Lemma sse_tail_correct {E} coeff from data dst :
  length data = length dst -> (from <= length data)%nat ->
  sse_tail (E:=E) coeff (GfMulTableX86_new coeff) from (length data) data
      (done_to (gf_mul coeff) data dst from)
    = Ok (gf_mul coeff <$> data).
Proof.
  intros Hlen Hf. unfold sse_tail. case_bool_decide; [|by apply scalar_loop_correct].
  unfold gf_mul_sse41_16. rewrite (pshufb_kernel_correct 1) by lia.
  cbn [mbind outcome_bind]. rewrite (storeu_done _ _ _ _ 16) by lia.
  cbn [mbind outcome_bind]. apply scalar_loop_correct; [done|lia].
Qed.

Lemma on_tail_correct {E} f from rest data dst :
  length data = length dst -> (from <= length data)%nat ->
  (forall data dst, length data = length dst -> rest data dst = Ok (f <$> data)) ->
  on_tail (E:=E) from rest data (done_to f data dst from) = Ok (f <$> data).
Proof.
  intros Hlen Hf Hrest. unfold on_tail.
  rewrite Hrest by (rewrite !length_drop, length_done_to by done; lia).
  cbn [mbind outcome_bind]. f_equal. unfold done_to.
  rewrite take_app_length' by (rewrite length_fmap, length_take; lia).
  by rewrite <- fmap_app, take_drop.
Qed.

Lemma div_mul_le n w : (n / w * w <= n)%nat.
Proof. rewrite Nat.mul_comm. apply Nat.Div0.mul_div_le. Qed.

Lemma gf_mul_sse41_batch_correct {E} coeff data dst :
  length data = length dst ->
  gf_mul_sse41_batch (E:=E) coeff data dst = Ok (gf_mul coeff <$> data).
Proof.
  intros Hlen. unfold gf_mul_sse41_batch. rewrite bool_decide_true by done.
  cbn [negb]. pose proof (div_mul_le (length data) 16).
  rewrite (chunk_loop_correct (gf_mul coeff)) by (done || (intros; by apply (pshufb_kernel_correct 1))).
  by apply scalar_loop_correct.
Qed.

Lemma gf_mul_avx2_batch_correct {E} coeff data dst :
  length data = length dst ->
  gf_mul_avx2_batch (E:=E) coeff data dst = Ok (gf_mul coeff <$> data).
Proof.
  intros Hlen. unfold gf_mul_avx2_batch. rewrite bool_decide_true by done.
  cbn [negb]. pose proof (div_mul_le (length data) 32).
  rewrite (chunk_loop_correct (gf_mul coeff)) by (done || (intros; by apply (pshufb_kernel_correct 2))).
  by apply sse_tail_correct.
Qed.

Lemma gf_mul_avx512_batch_correct {E} coeff data dst :
  length data = length dst ->
  gf_mul_avx512_batch (E:=E) coeff data dst = Ok (gf_mul coeff <$> data).
Proof.
  intros Hlen. unfold gf_mul_avx512_batch. rewrite bool_decide_true by done.
  cbn [negb]. pose proof (div_mul_le (length data) 64).
  rewrite (chunk_loop_correct (gf_mul coeff)) by (done || (intros; by apply (pshufb_kernel_correct 4))).
  cbn [mbind outcome_bind]. case_bool_decide.
  - by apply on_tail_correct; [..|apply gf_mul_avx2_batch_correct].
  - f_equal. replace (length data / 64 * 64)%nat with (length data) by lia.
    by apply done_to_all.
Qed.

(** The multiplication of a whole slice, on a CPU whose level is not GFNI. *)
Lemma gf_mul_simd_map {E} c coeff data dst :
  detect c <> Gfni -> length data = length dst ->
  gf_mul_simd (E:=E) c coeff data dst = Ok (gf_mul coeff <$> data).
Proof.
  intros Hc Hlen. unfold gf_mul_simd. rewrite bool_decide_true by done. cbn [negb].
  destruct (detect c); [|auto using gf_mul_sse41_batch_correct, gf_mul_avx2_batch_correct,
    gf_mul_avx512_batch_correct..|done].
  rewrite <- (done_to_0 (gf_mul coeff) data dst). apply scalar_loop_correct; [done|lia].
Qed.

(** ** GFNI *)

Lemma gfni_kernel_map w coeff v :
  length v = w ->
  gf2p8mul_epi8 v (set1_epi8 w coeff) = (fun b => gf2p8mul_byte b coeff) <$> v.
Proof.
  intros <-. unfold gf2p8mul_epi8, set1_epi8.
  induction v as [|b v IH]; simpl; [done|]. by rewrite IH.
Qed.

Lemma gfni_avx512_64_map {E} coeff data off :
  (off + 64 <= length data)%nat ->
  gf_mul_gfni_avx512_64 (E:=E) coeff data off
    = Ok ((fun b => gf2p8mul_byte b coeff) <$> take 64 (drop off data)).
Proof.
  intros H. unfold gf_mul_gfni_avx512_64. rewrite loadu_ok by done.
  cbn [mbind outcome_bind]. by rewrite gfni_kernel_map by by apply take_drop_length.
Qed.

Lemma gfni_avx2_32_map {E} coeff data off :
  (off + 32 <= length data)%nat ->
  gf_mul_gfni_avx2_32 (E:=E) coeff data off
    = Ok ((fun b => gf2p8mul_byte b coeff) <$> take 32 (drop off data)).
Proof.
  intros H. unfold gf_mul_gfni_avx2_32. rewrite loadu_ok by done.
  cbn [mbind outcome_bind]. by rewrite gfni_kernel_map by by apply take_drop_length.
Qed.

(** On whole 64-byte blocks both GFNI widths apply the instruction to each byte. *)
Lemma gf_mul_simd_gfni {E} c coeff data dst n :
  detect c = Gfni -> length data = (n * 64)%nat -> length dst = (n * 64)%nat ->
  gf_mul_simd (E:=E) c coeff data dst = Ok ((fun b => gf2p8mul_byte b coeff) <$> data).
Proof.
  intros Hc Hd Hdst. unfold gf_mul_simd.
  rewrite bool_decide_true, Hc by congruence. cbn [negb].
  set (f := fun b => gf2p8mul_byte b coeff). destruct (_ && _).
  - unfold gf_mul_gfni_avx512_batch. rewrite bool_decide_true by congruence. cbn [negb].
    rewrite Hd, Nat.div_mul by done.
    rewrite (chunk_loop_correct f) by (congruence || lia || apply gfni_avx512_64_map).
    cbn [mbind outcome_bind]. rewrite bool_decide_false by lia. f_equal.
    rewrite <- Hd. apply done_to_all. congruence.
  - unfold gf_mul_gfni_avx2_batch. rewrite bool_decide_true by congruence. cbn [negb].
    replace (length data / 32)%nat with (n * 2)%nat
      by (rewrite Hd; replace (n * 64)%nat with (n * 2 * 32)%nat by lia; by rewrite Nat.div_mul).
    rewrite (chunk_loop_correct f) by (congruence || lia || apply gfni_avx2_32_map).
    cbn [mbind outcome_bind]. unfold sse_tail. rewrite bool_decide_false by lia.
    replace (n * 2 * 32)%nat with (length data) by lia. unfold scalar_loop, for_range.
    rewrite Nat.sub_diag. simpl. by rewrite done_to_all by congruence.
Qed.

(** For every coefficient but 0 and 1 the instruction and [gf_mul] disagree. *)
Lemma gfni_field_differs coeff :
  coeff <> x00 -> coeff <> x01 -> exists b, gf2p8mul_byte b coeff <> gf_mul coeff b.
Proof.
  intros H0%byte_eqb_false H1%byte_eqb_false.
  assert (H : existsb (fun b => negb (Byte.eqb (gf2p8mul_byte b coeff) (gf_mul coeff b)))
                all_bytes = true).
  { assert (Hall : Byte.eqb coeff x00 || Byte.eqb coeff x01 ||
      existsb (fun b => negb (Byte.eqb (gf2p8mul_byte b coeff) (gf_mul coeff b))) all_bytes = true).
    { apply (forall_bytes (fun coeff => Byte.eqb coeff x00 || Byte.eqb coeff x01 ||
        existsb (fun b => negb (Byte.eqb (gf2p8mul_byte b coeff) (gf_mul coeff b))) all_bytes)).
      by vm_compute. }
    rewrite H0, H1, !orb_false_l in Hall. exact Hall. }
  apply existsb_exists in H as (b & _ & Hb). exists b.
  by apply byte_eqb_false, negb_true_iff.
Qed.

(** ** Properties *)

(** C28: on every x86 CPU that has no GFNI level, and for whatever the scratch
    buffer held before, [gf_mul_simd] writes exactly [gf_mul coeff] of each
    byte (all vector accesses in bounds), and it panics exactly when the two
    slices have different lengths. *)
Theorem simd_agrees_with_scalar {E} c coeff data dst :
  detect c <> Gfni ->
  gf_mul_simd (E:=E) c coeff data dst
    = if bool_decide (length data = length dst) then Ok (gf_mul coeff <$> data) else Panic.
Proof.
  intros Hc. case_bool_decide as Hlen; [by apply gf_mul_simd_map|].
  unfold gf_mul_simd. by rewrite bool_decide_false.
Qed.

Lemma simd_agrees_with_scalar_witness :
  let c := {| has_gfni := false; has_avx512f := false; has_avx512bw := false;
              has_avx2 := true; has_sse41 := true |} in
  detect c <> Gfni /\
  gf_mul_simd (E:=unit) c x42 (replicate 51 x12) (replicate 51 xff)
    = Ok (gf_mul x42 <$> replicate 51 x12).
Proof.
  intros c. assert (Hc : detect c <> Gfni) by done. split; [exact Hc|].
  exact (simd_agrees_with_scalar (E:=unit) c x42 (replicate 51 x12) (replicate 51 xff) Hc).
Defined.

(** on a CPU with the GFNI level the kernel multiplies in another field:
    for every coefficient except 0 and 1 there is a byte whose product by
    [gf_mul_simd] is not the product by [gf_mul]. *)
Theorem gfni_disagrees_with_scalar {E} c coeff dst :
  detect c = Gfni -> coeff <> x00 -> coeff <> x01 -> length dst = 64%nat ->
  exists b r,
    gf_mul_simd (E:=E) c coeff (replicate 64 b) dst = Ok (replicate 64 r) /\
    r <> gf_mul coeff b.
Proof.
  intros Hc H0 H1 Hdst. destruct (gfni_field_differs coeff H0 H1) as [b Hb].
  exists b, (gf2p8mul_byte b coeff). split; [|done].
  by rewrite (gf_mul_simd_gfni c coeff _ dst 1), fmap_replicate
    by (done || by rewrite length_replicate).
Qed.

Lemma gfni_disagrees_with_scalar_witness :
  exists b r,
    gf_mul_simd (E:=unit) {| has_gfni := true; has_avx512f := true; has_avx512bw := true;
                  has_avx2 := true; has_sse41 := true |} x42 (replicate 64 b) (replicate 64 x00)
      = Ok (replicate 64 r) /\ r <> gf_mul x42 b.
Proof. apply (gfni_disagrees_with_scalar (E:=unit)); done. Defined.
