(* ===== verification/Linalg.v ===== *)
(** * Linear algebra over GF(2^8)

    The facts about vectors and linear systems that the erasure-code proofs
    use: linearity of the inner product, the solution set of a homogeneous
    system and the row operations that preserve it, and the nonsingularity of
    Cauchy systems. *)

From Stdlib Require Import ZArith Lia Strings.Byte Field.
From S2P Require Import Prelude Gf.

Local Open Scope gf_scope.

(** Inner product of two vectors (up to the shorter one). *)
Fixpoint dot (r x : bytes) : byte :=
  match r, x with
  | a :: r, b :: x => a ⊗ b ⊕ dot r x
  | _, _ => x00
  end.

(** [z] solves the homogeneous system whose rows are [M]. *)
Definition sol (M : list bytes) (z : bytes) : Prop := forall r, r ∈ M -> dot r z = x00.

Definition unit_row (n i : nat) : bytes := <[i := x01]> (replicate n x00).

(** ** Linearity *)

Lemma dot_nil_r r : dot r [] = x00.
Proof. by destruct r. Qed.

Lemma dot_zeros_l n x : dot (replicate n x00) x = x00.
Proof.
  revert x; induction n as [|n IH]; intros [|b x]; simpl; try done.
  rewrite IH. ring.
Qed.

Lemma dot_zeros_r n x : dot x (replicate n x00) = x00.
Proof.
  revert x; induction n as [|n IH]; intros [|b x]; simpl; try done.
  rewrite IH. ring.
Qed.

Lemma dot_scale c r x : dot ((fun a => a ⊗ c) <$> r) x = c ⊗ dot r x.
Proof.
  revert x; induction r as [|a r IH]; intros [|b x]; simpl; try ring.
  rewrite IH. ring.
Qed.

Lemma dot_combine f r p x :
  length r = length p ->
  dot (zip_with (fun a b => a ⊕ f ⊗ b) r p) x = dot r x ⊕ f ⊗ dot p x.
Proof.
  revert p x; induction r as [|a r IH]; intros [|b p] [|y x] H; simpl in *; try lia; try ring.
  rewrite IH by lia. ring.
Qed.

Lemma dot_app r1 r2 x1 x2 :
  length r1 = length x1 -> dot (r1 ++ r2) (x1 ++ x2) = dot r1 x1 ⊕ dot r2 x2.
Proof.
  revert x1; induction r1 as [|a r1 IH]; intros [|b x1] H; simpl in *; try lia; [ring|].
  rewrite IH by lia. ring.
Qed.

Lemma dot_unit n i x b :
  length x = n -> x !! i = Some b -> dot (unit_row n i) x = b.
Proof.
  revert n i; induction x as [|c x IH]; intros [|n] [|i] Hn Hb; simpl in Hn, Hb; try done.
  - injection Hb as ->. unfold unit_row. simpl. rewrite dot_zeros_l. ring.
  - change (unit_row (S n) (S i)) with (x00 :: unit_row n i). cbn [dot].
    rewrite (IH n i) by (done || lia). ring.
Qed.

Lemma length_unit_row n i : length (unit_row n i) = n.
Proof. unfold unit_row. by rewrite length_insert, length_replicate. Qed.

Lemma lookup_unit_row n i j :
  (j < n)%nat -> unit_row n i !! j = Some (if decide (i = j) then x01 else x00).
Proof.
  intros Hj. unfold unit_row. destruct (decide (i = j)) as [->|Hne].
  - rewrite list_lookup_insert_eq; [done|]. by rewrite length_replicate.
  - rewrite list_lookup_insert_ne by done. by apply lookup_replicate_2.
Qed.

(** ** Nonsingularity of Cauchy systems *)

(** [csum cx y] is the sum of [c / (x + y)] over the pairs [(c, x)]. *)
Fixpoint csum (cx : list (byte * byte)) (y : byte) : byte :=
  match cx with
  | [] => x00
  | (c, x) :: cx => c ⊗ ginv (x ⊕ y) ⊕ csum cx y
  end.

Fixpoint ctotal (cx : list (byte * byte)) : byte :=
  match cx with
  | [] => x00
  | (c, x) :: cx => c ⊕ ctotal cx
  end.

(** The coefficients after multiplying each by a function of its column. *)
Fixpoint cmap (f : byte -> byte) (cx : list (byte * byte)) : list (byte * byte) :=
  match cx with
  | [] => []
  | (c, x) :: cx => (c ⊗ f x, x) :: cmap f cx
  end.

Definition all_zero (cx : list (byte * byte)) : Prop := Forall (fun cx => cx.1 = x00) cx.

Lemma cmap_snd f cx : (cmap f cx).*2 = cx.*2.
Proof. induction cx as [|[c x] cx IH]; cbn [cmap]; [done|]. by rewrite !fmap_cons, IH. Qed.

Lemma length_cmap f cx : length (cmap f cx) = length cx.
Proof. induction cx as [|[c x] cx IH]; simpl; [done|]. by rewrite IH. Qed.

Lemma cmap_all_zero f cx :
  (forall x, x ∈ cx.*2 -> f x <> x00) -> all_zero (cmap f cx) -> all_zero cx.
Proof.
  induction cx as [|[c x] cx IH]; intros Hf; simpl; [done|].
  intros [H1 H2]%Forall_cons. constructor; [|apply IH; set_solver]. simpl in *.
  apply gf_mul_eq_0 in H1 as [|Hx]; [done|]. destruct (Hf x); [set_solver|done].
Qed.

Lemma csum_all_zero cx y : all_zero cx -> csum cx y = x00.
Proof.
  induction cx as [|[c x] cx IH]; [done|]. intros [H1 H2]%Forall_cons.
  simpl in *. rewrite H1, IH by done. ring.
Qed.

Lemma csum_scale_split x0 cx y :
  y ∉ cx.*2 ->
  (x0 ⊕ y) ⊗ csum cx y = ctotal cx ⊕ csum (cmap (fun x => x0 ⊕ x) cx) y.
Proof.
  induction cx as [|[c x] cx IH]; intros H; simpl; [ring|].
  assert (Hx : x ⊕ y <> x00) by (rewrite gf_add_eq_0; set_solver).
  transitivity (c ⊗ ((x0 ⊕ y) ⊗ ginv (x ⊕ y)) ⊕ (x0 ⊕ y) ⊗ csum cx y); [ring|].
  rewrite IH by set_solver.
  replace ((x0 ⊕ y) ⊗ ginv (x ⊕ y)) with (x01 ⊕ (x0 ⊕ x) ⊗ ginv (x ⊕ y)); [ring|].
  rewrite <- (gf_mul_ginv _ Hx), <- gf_mul_add_l. f_equal.
  transitivity (x0 ⊕ y ⊕ (x ⊕ x)); [ring|]. rewrite gf_add_diag. ring.
Qed.

(** Two rows [y] and [y0] subtracted, after dividing by [y + y0]. *)
Lemma csum_difference cx y y0 :
  y ∉ cx.*2 -> y0 ∉ cx.*2 ->
  csum cx y ⊕ csum cx y0
    = (y ⊕ y0) ⊗ csum (cmap (fun x => ginv (x ⊕ y0)) cx) y.
Proof.
  induction cx as [|[c x] cx IH]; intros Hy Hy0; simpl; [ring|].
  assert (x ⊕ y <> x00) as Hx by (rewrite gf_add_eq_0; set_solver).
  assert (x ⊕ y0 <> x00) as Hx0 by (rewrite gf_add_eq_0; set_solver).
  rewrite gf_mul_add_r, <- IH by set_solver.
  transitivity (c ⊗ (ginv (x ⊕ y) ⊕ ginv (x ⊕ y0)) ⊕ (csum cx y ⊕ csum cx y0)); [ring|].
  f_equal.
  transitivity (c ⊗ (((y ⊕ y0) ⊕ (x ⊕ x)) ⊗ (ginv (x ⊕ y) ⊗ ginv (x ⊕ y0)))).
  - f_equal. field. done.
  - rewrite gf_add_diag. ring.
Qed.

(** One elimination step: a solution of the system gives a solution of the
    system with the column [x0] and the row [y0] removed. *)
Lemma cauchy_eliminate c0 x0 cx y0 ys :
  y0 ∉ ys -> (forall y, y ∈ y0 :: ys -> y ∉ x0 :: cx.*2) ->
  (forall y, y ∈ y0 :: ys -> csum ((c0, x0) :: cx) y = x00) ->
  forall y, y ∈ ys ->
    csum (cmap (fun x => ginv (x ⊕ y0)) (cmap (fun x => x0 ⊕ x) cx)) y = x00.
Proof.
  intros Hy0 Hxy Hsum y Hin. setoid_rewrite not_elem_of_cons in Hxy.
  assert (Hrest : forall y, y ∈ y0 :: ys ->
            csum (cmap (fun x => x0 ⊕ x) cx) y = c0 ⊕ ctotal cx).
  { intros z Hz. specialize (Hsum z Hz). destruct (Hxy z Hz) as [Hne Hnot]. simpl in Hsum.
    assert (x0 ⊕ z <> x00) by (rewrite gf_add_eq_0; congruence).
    pose proof (csum_scale_split x0 cx z Hnot) as Hs.
    apply gf_add_zero_eq in Hsum. rewrite <- Hsum in Hs.
    assert (Hc0 : (x0 ⊕ z) ⊗ (c0 ⊗ ginv (x0 ⊕ z)) = c0) by (field; done).
    rewrite <- Hc0, Hs. generalize (csum (cmap (fun x => x0 ⊕ x) cx) z) (ctotal cx); intros S T.
    transitivity (S ⊕ (T ⊕ T)); [rewrite gf_add_diag|]; ring. }
  assert (Hin' : y ∈ y0 :: ys) by by right.
  assert (H0 : y0 ∈ y0 :: ys) by by left.
  assert (y ⊕ y0 <> x00) by (rewrite gf_add_eq_0; congruence).
  assert (Hd : (y ⊕ y0) ⊗ csum (cmap (fun x => ginv (x ⊕ y0)) (cmap (fun x => x0 ⊕ x) cx)) y
               = x00).
  { rewrite <- csum_difference by (rewrite cmap_snd; by apply Hxy).
    rewrite (Hrest y Hin'), (Hrest y0 H0). apply gf_add_diag. }
  by apply gf_mul_eq_0 in Hd as [].
Qed.

(** A square (or taller) Cauchy system has only the zero solution. *)
Lemma cauchy_nonsingular cx ys :
  NoDup cx.*2 -> NoDup ys -> (forall y, y ∈ ys -> y ∉ cx.*2) ->
  (length cx <= length ys)%nat ->
  (forall y, y ∈ ys -> csum cx y = x00) ->
  all_zero cx.
Proof.
  remember (length cx) as n eqn:Hn. revert cx ys Hn.
  induction n as [|n IH]; intros [|[c0 x0] cx] ys Hn Hx Hy Hxy Hlen Hsum;
    try done; [constructor|].
  destruct ys as [|y0 ys]; simpl in Hlen; [lia|].
  rewrite fmap_cons in Hx, Hxy. apply NoDup_cons in Hx as [Hx0 Hx].
  apply NoDup_cons in Hy as [Hy0 Hy]. simpl in Hx0, Hxy.
  assert (Hz : all_zero cx).
  { apply (cmap_all_zero (fun x => x0 ⊕ x)).
    { intros x Hin. rewrite gf_add_eq_0. set_solver. }
    apply (cmap_all_zero (fun x => ginv (x ⊕ y0))).
    { intros x Hin. rewrite cmap_snd in Hin. apply ginv_nonzero.
      rewrite gf_add_eq_0. set_solver. }
    apply (IH _ ys); rewrite ?length_cmap, ?cmap_snd; try done; [simpl in Hn; lia|set_solver|lia|].
    by eapply cauchy_eliminate. }
  constructor; [|done]. specialize (Hsum y0 ltac:(set_solver)). simpl in *.
  rewrite (csum_all_zero _ _ Hz), gf_add_comm, gf_add_0_l in Hsum.
  apply gf_mul_eq_0 in Hsum as [|[]%ginv_nonzero]; [done|].
  rewrite gf_add_eq_0. set_solver.
Qed.
