(* ===== verification/Cauchy.v ===== *)
(** * Cauchy Reed-Solomon codec (crates/oceanfs-ec/src/matrix.rs, cauchy.rs)

    Coefficient matrices (precomputed and computed), the encoder, Gauss-Jordan
    inversion and the decoder. *)

From Stdlib Require Import ZArith Lia Strings.Byte.
From S2P Require Import Prelude Gf GfSimd Linalg.

Local Open Scope nat_scope.

(** [error.rs]. The text of a message is not modelled. *)
Inductive ec_error :=
| NotEnoughShards (needed available : nat)
| InvalidConfig
| ShardSizeMismatch (expected actual : nat)
| DecodingFailed.

Abbreviation matrix := (list bytes).

(** ** Precomputed coefficients (matrix.rs) *)

Definition CAUCHY_MATRIX_4_2 : matrix :=
  [[x47; xba; x7a; x01]; [xba; x47; xa7; x8e]].

Definition CAUCHY_MATRIX_6_3 : matrix :=
  [[x7a; xa7; x47; xf4; x8e; x01];
   [x9d; xdd; x98; x3d; xaa; x5d];
   [xad; x98; xdd; xaa; x3d; x96]].

Definition CAUCHY_MATRIX_8_4 : matrix :=
  [[xad; x98; xdd; xaa; x3d; x96; x5d; x01];
   [x98; xad; x9d; x5d; x96; x3d; xaa; x8e];
   [xdd; x9d; xad; x96; x5d; xaa; x3d; xf4];
   [xaa; x5d; x96; xad; x9d; xdd; x98; x47]].

Definition CAUCHY_MATRIX_10_6 : matrix :=
  [[xdd; x9d; xad; x96; x5d; xaa; x3d; xf4; x8e; x01];
   [xaa; x5d; x96; xad; x9d; xdd; x98; x47; xa7; x7a];
   [x3d; x96; x5d; x9d; xad; x98; xdd; xa7; x47; xba];
   [x96; x3d; xaa; xdd; x98; xad; x9d; x7a; xba; x47];
   [x5d; xaa; x3d; x98; xdd; x9d; xad; xba; x7a; xa7];
   [x72; xc0; x58; xe0; x3e; x4c; x66; x90; xde; x55]].

(** [flatten]: the row-major view of the array. *)
Definition flatten (m : matrix) : bytes := concat m.

Definition get_const_cauchy_matrix (k m : nat) : option bytes :=
  match k, m with
  | 4, 2 => Some (flatten CAUCHY_MATRIX_4_2)
  | 6, 3 => Some (flatten CAUCHY_MATRIX_6_3)
  | 8, 4 => Some (flatten CAUCHY_MATRIX_8_4)
  | 10, 6 => Some (flatten CAUCHY_MATRIX_10_6)
  | _, _ => None
  end.

(** ** Coefficient and generator matrices (cauchy.rs) *)

(** [x as u8] of an index. *)
Definition as_u8 (n : nat) : byte := byte_of_Z (Z.of_nat n).

Definition compute_cauchy_matrix (ki mi : nat) : outcome ec_error matrix :=
  omapM (fun i =>
    omapM (fun j =>
      let x := as_u8 (j + 1) in
      let y := as_u8 (ki + i + 1) in
      gf_inv (gf_add x y)) (seq 0 ki)) (seq 0 mi).

Definition cauchy_matrix (ki mi : nat) : outcome ec_error matrix :=
  match get_const_cauchy_matrix ki mi with
  | Some flat => omapM (fun i => slice flat (i * ki) ((i + 1) * ki)) (seq 0 mi)
  | None => compute_cauchy_matrix ki mi
  end.

(** Identity on top, coefficients below. *)
Definition generator_matrix (ki mi : nat) : outcome ec_error matrix :=
  cauchy ← cauchy_matrix ki mi;
  Ok ((unit_row ki <$> seq 0 ki) ++ cauchy).

(** ** Encoding *)

(** What [cfg(target_arch)] selects; on x86_64 the CPU decides the SIMD level. *)
Inductive target := X86_64 (c : cpu) | OtherArch.

(** One [(i, j)] step of the encode loops on x86_64: the product goes to the
    scratch buffer, which is then XORed into parity row [i]. *)
Definition encode_step_simd (c : cpu) (cm : matrix) (data_shards : list bytes) (i : nat)
    (st : matrix * bytes) (j : nat) : outcome ec_error (matrix * bytes) :=
  let '(parity, simd_buf) := st in
  row ← expect (cm !! i);
  coeff ← expect (row !! j);
  d ← expect (data_shards !! j);
  simd_buf ← gf_mul_simd c coeff d simd_buf;
  p ← expect (parity !! i);
  Ok (<[i := zip_with gf_add p simd_buf]> parity, simd_buf).

(** The same step elsewhere, with the scalar product. *)
Definition encode_step_scalar (cm : matrix) (data_shards : list bytes) (shard_size i : nat)
    (parity : matrix) (j : nat) : outcome ec_error matrix :=
  row ← expect (cm !! i);
  coeff ← expect (row !! j);
  d ← expect (data_shards !! j);
  p ← expect (parity !! i);
  if bool_decide (length d < shard_size) then Panic
  else Ok (<[i := zip_with (fun p b => gf_add p (gf_mul coeff b)) p d]> parity).

(** [encode_cauchy]; [buf] is what the thread-local [SIMD_BUF] holds. *)
Definition encode_cauchy (t : target) (buf : bytes) (ki mi : nat) (data_shards : list bytes) :
    outcome ec_error (list bytes) :=
  cm ← cauchy_matrix ki mi;
  first ← expect (data_shards !! 0);
  let shard_size := length first in
  let parity := replicate mi (replicate shard_size x00) in
  match t with
  | X86_64 c =>
      let buf := if bool_decide (length buf < shard_size)
                 then buf ++ replicate (shard_size - length buf) x00 else buf in
      let simd_buf := take shard_size buf in
      '(parity, _) ← for_range 0 mi (fun st i =>
        for_range 0 ki (encode_step_simd c cm data_shards i) st) (parity, simd_buf);
      Ok parity
  | OtherArch =>
      for_range 0 mi (fun parity i =>
        for_range 0 ki (encode_step_scalar cm data_shards shard_size i) parity) parity
  end.

(** [Encoder::encode] for a codec with [k] data shards. *)
Definition encode (t : target) (buf : bytes) (k : nat) (data_shards : list bytes)
    (parity_count : nat) : outcome ec_error (list bytes) :=
  if negb (bool_decide (length data_shards = k)) then Err InvalidConfig
  else match data_shards with
  | [] => Ok []
  | first :: _ =>
      let shard_size := length first in
      match find (fun s => negb (bool_decide (length s = shard_size))) data_shards with
      | Some shard => Err (ShardSizeMismatch shard_size (length shard))
      | None => encode_cauchy t buf k parity_count data_shards
      end
  end.

(** ** Matrix inversion *)

Definition row_at (M : matrix) (i : nat) : bytes := default [] (M !! i).
Definition ent (M : matrix) (i j : nat) : byte := default x00 (row_at M i !! j).

(** [while pivot_row < n && aug[pivot_row][col] == 0]; the fuel is [n - col]. *)
Fixpoint find_pivot (aug : matrix) (col fuel pivot_row : nat) : nat :=
  match fuel with
  | 0 => pivot_row
  | S fuel => if Byte.eqb (ent aug pivot_row col) x00
              then find_pivot aug col fuel (pivot_row + 1) else pivot_row
  end.

(** [aug.swap(a, b)]. *)
Definition swap (aug : matrix) (a b : nat) : matrix :=
  <[a := row_at aug b]> (<[b := row_at aug a]> aug).

(** Elimination of one row with the pivot row [prow]. *)
Definition eliminate_row (col : nat) (prow : bytes) (row : nat) (r : bytes) : bytes :=
  if bool_decide (row = col) then r
  else
    let factor := default x00 (r !! col) in
    if Byte.eqb factor x00 then r
    else zip_with (fun a b => gf_add a (gf_mul factor b)) r prow.

(** One turn of [for col in 0..n]; [None] is the early return for a singular
    matrix. *)
Definition gj_column (n : nat) (aug : matrix) (col : nat) :
    outcome ec_error (option matrix) :=
  let pivot_row := find_pivot aug col (n - col) col in
  if bool_decide (pivot_row = n) then Ok None
  else
    let aug := swap aug col pivot_row in
    inv ← gf_inv (ent aug col col);
    let prow := (fun a => gf_mul a inv) <$> row_at aug col in
    let aug := <[col := prow]> aug in
    Ok (Some (imap (eliminate_row col prow) aug)).

Definition gj_loop (n : nat) (aug : matrix) : outcome ec_error (option matrix) :=
  for_range 0 n (fun aug col =>
    match aug with
    | None => Ok None
    | Some aug => gj_column n aug col
    end) (Some aug).

(** The augmented matrix [A | I]. *)
Definition augment (A : matrix) : outcome ec_error matrix :=
  let n := length A in
  omapM (fun i =>
    r ← expect (A !! i);
    if bool_decide (length r < n) then Panic else Ok (take n r ++ unit_row n i)) (seq 0 n).

Definition right_half (n : nat) (aug : matrix) : matrix :=
  (fun r => take n (drop n r)) <$> aug.

Definition invert_matrix (A : matrix) : outcome ec_error (option matrix) :=
  let n := length A in
  aug ← augment A;
  res ← gj_loop n aug;
  Ok (option_map (right_half n) res).

(** ** Decoding *)

(** [sum_j inv[i][j] * sub_data[j][byte_idx]]. *)
Definition recover_byte (inv_row : bytes) (sub_data : list bytes) (k byte_idx : nat) :
    outcome ec_error byte :=
  for_range 0 k (fun sum j =>
    c ← expect (inv_row !! j);
    d ← expect (sub_data !! j);
    b ← expect (d !! byte_idx);
    Ok (gf_add sum (gf_mul c b))) x00.

Definition decode (available_shards : list (option bytes)) (k m : nat) :
    outcome ec_error (list bytes) :=
  let total := k + m in
  if negb (bool_decide (length available_shards = total)) then Err InvalidConfig
  else
    let present := filter (fun i => is_Some (mjoin (available_shards !! i))) (seq 0 total) in
    if bool_decide (length present < k) then Err (NotEnoughShards k (length present))
    else
      p0 ← expect (present !! 0);
      first_shard ← ok_or (mjoin (available_shards !! p0)) InvalidConfig;
      let shard_size := length first_shard in
      gen ← generator_matrix k m;
      let selected := take k present in
      sub_matrix ← omapM (fun idx => expect (gen !! idx)) selected;
      sub_data ← omapM (fun idx => ok_or (mjoin (available_shards !! idx)) InvalidConfig) selected;
      inv ← invert_matrix sub_matrix;
      inv ← ok_or inv DecodingFailed;
      omapM (fun i =>
        row ← expect (inv !! i);
        omapM (fun byte_idx => recover_byte row sub_data k byte_idx) (seq 0 shard_size))
        (seq 0 k).
