(* ===== verification/GaussJordan.v ===== *)
(** * Correctness of the Gauss-Jordan inversion of cauchy.rs

    Every row operation of [gj_column] keeps the solution set of the augmented
    system, and after column [col] the first [col + 1] columns are unit
    columns. Hence a returned inverse solves every system with the input
    matrix, and the early return happens only when the input has a nonzero
    kernel vector. *)

From Stdlib Require Import ZArith Lia Strings.Byte.
From S2P Require Import Prelude Gf GfSimd Linalg Cauchy.

Local Open Scope nat_scope.

(** An [n] by [w] matrix. *)
Definition shape (n w : nat) (M : matrix) : Prop :=
  length M = n /\ forall i r, M !! i = Some r -> length r = w.

(** The first [col] columns are those of the identity. *)
Definition unit_cols (n col : nat) (M : matrix) : Prop :=
  forall i j, i < n -> j < col -> ent M i j = if decide (i = j) then x01 else x00.

Definition same_sol (M N : matrix) : Prop := forall z, sol M z <-> sol N z.

#[export] Instance same_sol_equiv : Equivalence same_sol.
Proof.
  split; unfold same_sol; [done| |].
  - intros M N H z. by rewrite H.
  - intros M N P H1 H2 z. by rewrite H1.
Qed.

#[export] Instance sol_proper : Proper (same_sol ==> eq ==> iff) sol.
Proof. intros M N H z ? <-. apply H. Qed.

Lemma sol_lookup M z : sol M z <-> forall i r, M !! i = Some r -> dot r z = x00.
Proof.
  unfold sol. split.
  - intros H i r Hr. apply H. by eapply list_elem_of_lookup_2.
  - intros H r [i Hr]%list_elem_of_lookup_1. eauto.
Qed.

Lemma row_at_lookup M i : i < length M -> M !! i = Some (row_at M i).
Proof. intros Hi. unfold row_at. by destruct (lookup_lt_is_Some_2 M i Hi) as [r ->]. Qed.

Lemma ent_lookup M i j r : M !! i = Some r -> ent M i j = default x00 (r !! j).
Proof. intros H. unfold ent, row_at. by rewrite H. Qed.

(** ** Swapping rows *)

Definition swap_index (a b i : nat) : nat :=
  if decide (i = a) then b else if decide (i = b) then a else i.

Lemma swap_index_invol a b i : swap_index a b (swap_index a b i) = i.
Proof. unfold swap_index. repeat case_decide; congruence. Qed.

Lemma swap_lookup M a b i :
  a < length M -> b < length M -> swap M a b !! i = M !! swap_index a b i.
Proof.
  intros Ha Hb. unfold swap, swap_index.
  destruct (decide (i = a)) as [->|Hia].
  - rewrite list_lookup_insert_eq by (by rewrite length_insert). by rewrite row_at_lookup.
  - rewrite list_lookup_insert_ne by done. destruct (decide (i = b)) as [->|Hib].
    + rewrite list_lookup_insert_eq by done. by rewrite row_at_lookup.
    + by rewrite list_lookup_insert_ne.
Qed.

Lemma swap_same_sol M a b : a < length M -> b < length M -> same_sol M (swap M a b).
Proof.
  intros Ha Hb z. rewrite !sol_lookup. split; intros H i r.
  - rewrite swap_lookup by done. apply H.
  - intros Hr. apply (H (swap_index a b i)).
    by rewrite swap_lookup, swap_index_invol.
Qed.

Lemma swap_shape n w M a b : a < n -> b < n -> shape n w M -> shape n w (swap M a b).
Proof.
  intros Ha Hb [<- Hw]. split; [unfold swap; by rewrite !length_insert|].
  intros i r. rewrite swap_lookup by done. apply Hw.
Qed.

Lemma swap_ent M a b i j :
  a < length M -> b < length M -> ent (swap M a b) i j = ent M (swap_index a b i) j.
Proof. intros Ha Hb. unfold ent, row_at. by rewrite swap_lookup. Qed.

Lemma swap_unit_cols n col M b :
  shape n (2 * n) M -> col <= b < n -> unit_cols n col M -> unit_cols n col (swap M col b).
Proof.
  intros [Hn Hw] Hb Hu i j Hi Hj. rewrite swap_ent by lia.
  unfold swap_index. repeat case_decide; subst; rewrite Hu by lia;
    repeat case_decide; congruence || lia.
Qed.

(** ** Scaling a row *)

Definition scale_row (M : matrix) (c : nat) (f : byte) : matrix :=
  <[c := (fun a => gf_mul a f) <$> row_at M c]> M.

Lemma scale_lookup M c f i :
  c < length M ->
  scale_row M c f !! i
    = (fun r => if decide (i = c) then (fun a => gf_mul a f) <$> r else r) <$> M !! i.
Proof.
  intros Hc. unfold scale_row. destruct (decide (i = c)) as [->|Hne].
  - rewrite list_lookup_insert_eq by done. by rewrite (row_at_lookup M c).
  - rewrite list_lookup_insert_ne by done. by destruct (M !! i).
Qed.

Lemma scale_same_sol M c f : c < length M -> f <> x00 -> same_sol M (scale_row M c f).
Proof.
  intros Hc Hf z. rewrite !sol_lookup. split; intros H i r.
  - rewrite scale_lookup by done. intros (r' & Hr & Hr')%fmap_Some. specialize (H _ _ Hr).
    subst r. case_decide; [|done]. rewrite dot_scale, H. apply gf_mul_0_r.
  - intros Hr. specialize (H i). rewrite scale_lookup, Hr in H by done.
    specialize (H _ eq_refl). case_decide; [|done].
    rewrite dot_scale in H. by apply gf_mul_eq_0 in H as [].
Qed.

Lemma scale_shape n w M c f : c < n -> shape n w M -> shape n w (scale_row M c f).
Proof.
  intros Hc [<- Hw]. split; [unfold scale_row; by rewrite length_insert|].
  intros i r. rewrite scale_lookup by done. intros (r' & Hr & ->)%fmap_Some.
  case_decide; rewrite ?length_fmap; eauto.
Qed.

Lemma scale_ent M c f i j :
  c < length M ->
  ent (scale_row M c f) i j = if decide (i = c) then gf_mul (ent M i j) f else ent M i j.
Proof.
  intros Hc. unfold ent, row_at. rewrite scale_lookup by done.
  destruct (M !! i) as [r|] eqn:Hr; simpl; case_decide; try done.
  by rewrite list_lookup_fmap; destruct (r !! j).
Qed.

(** ** Eliminating with the pivot row *)

Definition eliminate (M : matrix) (c : nat) : matrix :=
  imap (eliminate_row c (row_at M c)) M.

Lemma eliminate_row_dot c prow i r z :
  length r = length prow -> dot prow z = x00 -> dot (eliminate_row c prow i r) z = dot r z.
Proof.
  intros Hlen Hp. unfold eliminate_row. case_bool_decide; [done|]. case_match; [done|].
  rewrite dot_combine by done. rewrite Hp, gf_mul_0_r, gf_add_comm. apply gf_add_0_l.
Qed.

Lemma eliminate_lookup M c i :
  eliminate M c !! i = eliminate_row c (row_at M c) i <$> M !! i.
Proof. unfold eliminate. by rewrite list_lookup_imap. Qed.

Lemma eliminate_pivot M c : row_at (eliminate M c) c = row_at M c.
Proof.
  unfold row_at at 1. rewrite eliminate_lookup. unfold row_at at 2.
  destruct (M !! c) as [r|]; [|done]. simpl. unfold eliminate_row.
  by rewrite bool_decide_true.
Qed.

Lemma eliminate_row_length n w M c i r :
  shape n w M -> c < n -> M !! i = Some r -> length (eliminate_row c (row_at M c) i r) = w.
Proof.
  intros [Hn Hw] Hc Hr. unfold eliminate_row.
  assert (length (row_at M c) = w) by (apply (Hw c), row_at_lookup; lia).
  assert (length r = w) by eauto.
  case_bool_decide; [done|]. case_match; [done|]. rewrite length_zip_with. lia.
Qed.

Lemma eliminate_shape n w M c : shape n w M -> c < n -> shape n w (eliminate M c).
Proof.
  intros HM Hc. split; [unfold eliminate; rewrite length_imap; apply HM|].
  intros i r. rewrite eliminate_lookup. intros (r' & Hr & ->)%fmap_Some.
  by eapply eliminate_row_length.
Qed.

Lemma eliminate_same_sol n w M c : shape n w M -> c < n -> same_sol M (eliminate M c).
Proof.
  intros [Hn Hw] Hc z. rewrite !sol_lookup.
  assert (Hprow : M !! c = Some (row_at M c)) by (apply row_at_lookup; lia).
  assert (Hd : forall i r, M !! i = Some r -> dot (row_at M c) z = x00 ->
            dot (eliminate_row c (row_at M c) i r) z = dot r z).
  { intros i r Hr Hp. apply eliminate_row_dot; [|done]. by rewrite (Hw i r), (Hw c). }
  split; intros H i r.
  - rewrite eliminate_lookup. intros (r' & Hr & ->)%fmap_Some.
    rewrite Hd; eauto.
  - intros Hr. rewrite <- (Hd i) by (done || apply (H c); rewrite eliminate_lookup, Hprow;
      simpl; unfold eliminate_row; by rewrite bool_decide_true).
    apply (H i). by rewrite eliminate_lookup, Hr.
Qed.

Lemma eliminate_ent n w M c i j :
  shape n w M -> c < n -> i < n -> j < w ->
  ent (eliminate M c) i j
    = if decide (i = c) then ent M i j
      else gf_add (ent M i j) (gf_mul (ent M i c) (ent M c j)).
Proof.
  intros [Hn Hw] Hc Hi Hj.
  assert (Hr : M !! i = Some (row_at M i)) by (apply row_at_lookup; lia).
  assert (Hp : M !! c = Some (row_at M c)) by (apply row_at_lookup; lia).
  assert (Hlr : length (row_at M i) = w) by eauto.
  assert (Hlp : length (row_at M c) = w) by eauto.
  unfold ent at 1. unfold row_at at 1. rewrite eliminate_lookup, Hr. simpl.
  unfold eliminate_row. case_decide; [by rewrite bool_decide_true|].
  rewrite bool_decide_false by done. fold (ent M i c).
  destruct (Byte.eqb (ent M i c) x00) eqn:Hf.
  - apply byte_eqb_true in Hf. rewrite Hf, gf_mul_0_l, gf_add_comm, gf_add_0_l. done.
  - rewrite lookup_zip_with, (ent_lookup M i j _ Hr), (ent_lookup M c j _ Hp).
    destruct (lookup_lt_is_Some_2 (row_at M i) j) as [a Ha]; [lia|].
    destruct (lookup_lt_is_Some_2 (row_at M c) j) as [b Hb]; [lia|].
    by rewrite Ha, Hb.
Qed.

(** ** One column *)

(** The pivot search stops at the first nonzero entry of the column at or
    below [p], or at [p + fuel]. *)
Lemma find_pivot_spec M col fuel p :
  let q := find_pivot M col fuel p in
  p <= q <= p + fuel /\
  (forall i, p <= i < q -> ent M i col = x00) /\
  (q < p + fuel -> ent M q col <> x00).
Proof.
  revert p; induction fuel as [|fuel IH]; intros p; simpl.
  - split; [lia|]. split; [intros; lia|lia].
  - destruct (Byte.eqb (ent M p col) x00) eqn:He.
    + apply byte_eqb_true in He. destruct (IH (p + 1)) as (H1 & H2 & H3).
      split; [lia|]. split; [|intros; apply H3; lia].
      intros i Hi. destruct (decide (i = p)) as [->|]; [done|]. apply H2. lia.
    + apply byte_eqb_false in He. split; [lia|]. split; [intros; lia|done].
Qed.

(** A found pivot: the column step succeeds without a panic, keeps the
    solutions and makes one more unit column. *)
Lemma gj_column_pivot n M col :
  let p := find_pivot M col (n - col) col in
  shape n (2 * n) M -> unit_cols n col M -> col < n -> p <> n ->
  exists N, gj_column n M col = Ok (Some N) /\
    shape n (2 * n) N /\ unit_cols n (S col) N /\ same_sol M N.
Proof.
  intros p HM Hu Hc Hp.
  destruct (find_pivot_spec M col (n - col) col) as (Hpr & _ & Hpz). fold p in Hpr, Hpz.
  specialize (Hpz ltac:(lia)). pose proof HM as [Hn Hw].
  set (M1 := swap M col p).
  assert (HM1 : shape n (2 * n) M1) by (apply swap_shape; done || lia).
  assert (Hu1 : unit_cols n col M1) by (apply swap_unit_cols; done || lia).
  assert (Hpiv : ent M1 col col = ent M p col).
  { unfold M1. rewrite swap_ent by lia. unfold swap_index. by case_decide. }
  pose proof (proj1 HM1) as Hn1.
  set (f := ginv (ent M1 col col)). set (M2 := scale_row M1 col f).
  assert (HM2 : shape n (2 * n) M2) by (by apply scale_shape).
  exists (eliminate M2 col). split; [|split; [|split]].
  - unfold gj_column. fold p. rewrite bool_decide_false by done. fold M1.
    rewrite gf_inv_nonzero by (by rewrite Hpiv). cbn [mbind outcome_bind].
    do 2 f_equal. unfold eliminate. fold f. fold (scale_row M1 col f). fold M2. f_equal.
    unfold M2, scale_row, row_at at 2. by rewrite list_lookup_insert_eq by lia.
  - by apply eliminate_shape.
  - intros i j Hi Hj. rewrite (eliminate_ent n (2 * n)) by (done || lia).
    unfold M2. rewrite !scale_ent by lia. rewrite (decide_True _ _ (eq_refl col)).
    destruct (decide (j = col)) as [->|].
    + unfold f. rewrite gf_mul_ginv by (by rewrite Hpiv).
      destruct (decide (i = col)) as [->|]; [by rewrite gf_mul_ginv by (by rewrite Hpiv)|].
      by rewrite (gf_mul_comm _ x01), gf_mul_1_l, gf_add_diag.
    + rewrite (Hu1 col j), (Hu1 i j) by lia. rewrite (decide_False (P:=col = j)) by done.
      rewrite gf_mul_0_l, gf_mul_0_r. case_decide as Hic; [|by rewrite gf_add_comm, gf_add_0_l].
      subst i. by rewrite decide_False.
  - transitivity M1; [by apply swap_same_sol; lia|].
    transitivity M2; [|by eapply eliminate_same_sol].
    apply scale_same_sol; [lia|]. apply ginv_nonzero. by rewrite Hpiv.
Qed.

(** ** No pivot *)

(** A nonzero kernel vector of the left half of an augmented matrix. *)
Definition left_kernel (n : nat) (M : matrix) : Prop :=
  exists x, length x = n /\ x01 ∈ x /\ sol M (x ++ replicate n x00).

Definition kernel_vector (n col : nat) (M : matrix) : bytes :=
  ((fun i => ent M i col) <$> seq 0 col) ++ x01 :: replicate (n - S col) x00.

Lemma unit_prefix n w col M i r :
  shape n w M -> col <= w -> unit_cols n col M -> M !! i = Some r ->
  take col r = if decide (i < col) then unit_row col i else replicate col x00.
Proof.
  intros [Hn Hw] Hcw Hu Hr. assert (i < n) by (rewrite <- Hn; by eapply lookup_lt_Some).
  pose proof (Hw i r Hr) as Hlen. apply list_eq; intros j.
  destruct (decide (j < col)) as [Hj|Hj].
  - rewrite lookup_take_lt by done.
    assert (He : r !! j = Some (ent M i j)).
    { rewrite (ent_lookup M i j r Hr). destruct (lookup_lt_is_Some_2 r j) as [? ->]; [lia|done]. }
    rewrite He, Hu by lia. destruct (decide (i < col)).
    + rewrite lookup_unit_row by done. by repeat case_decide.
    + rewrite lookup_replicate_2 by done. case_decide; [lia|done].
  - rewrite !(proj2 (lookup_ge_None _ j)); [done| |rewrite length_take; lia].
    case_decide; rewrite ?length_unit_row, ?length_replicate; lia.
Qed.

Lemma no_pivot_kernel n M col :
  shape n (2 * n) M -> unit_cols n col M -> col < n ->
  (forall i, col <= i < n -> ent M i col = x00) -> left_kernel n M.
Proof.
  intros HM Hu Hc Hz. pose proof HM as [Hn Hw]. exists (kernel_vector n col M). split; [|split].
  - unfold kernel_vector. rewrite length_app, length_fmap, length_seq. simpl.
    rewrite length_replicate. lia.
  - unfold kernel_vector. set_solver.
  - apply sol_lookup. intros i r Hr.
    assert (Hi : i < n) by (rewrite <- Hn; by eapply lookup_lt_Some).
    assert (Hlen := Hw i r Hr).
    assert (Hrc : r !! col = Some (ent M i col)).
    { rewrite (ent_lookup M i col r Hr). destruct (lookup_lt_is_Some_2 r col) as [? ->]; [lia|done]. }
    rewrite <- (take_drop_middle r col _ Hrc). unfold kernel_vector.
    rewrite <- app_assoc. simpl. rewrite <- replicate_add.
    rewrite dot_app by (rewrite length_take, length_fmap, length_seq; lia). simpl.
    rewrite dot_zeros_r, (unit_prefix n (2 * n) col M i r) by (done || lia).
    rewrite (gf_mul_comm _ x01), gf_mul_1_l, (gf_add_comm _ x00), gf_add_0_l.
    case_decide.
    + rewrite (dot_unit col i _ (ent M i col)); [apply gf_add_diag| |].
      * by rewrite length_fmap, length_seq.
      * by rewrite list_lookup_fmap, lookup_seq_lt.
    + rewrite dot_zeros_l, gf_add_0_l. apply Hz. lia.
Qed.

Lemma gj_column_no_pivot n M col :
  shape n (2 * n) M -> unit_cols n col M -> col < n ->
  find_pivot M col (n - col) col = n ->
  gj_column n M col = Ok None /\ left_kernel n M.
Proof.
  intros HM Hu Hc Hp. unfold gj_column. rewrite Hp, bool_decide_true by done. split; [done|].
  destruct (find_pivot_spec M col (n - col) col) as (_ & Hz & _). rewrite Hp in Hz.
  by apply (no_pivot_kernel n M col).
Qed.

(** ** The whole elimination *)

(** The loop returns without a panic: either the left half became the identity
    and the solutions are those of the input, or the input has a nonzero
    kernel vector. *)
Lemma gj_loop_spec n M :
  shape n (2 * n) M ->
  exists res, gj_loop n M = Ok res /\
    match res with
    | Some N => shape n (2 * n) N /\ unit_cols n n N /\ same_sol M N
    | None => left_kernel n M
    end.
Proof.
  intros HM. unfold gj_loop.
  apply (for_range_inv (fun col res => match res with
    | Some N => shape n (2 * n) N /\ unit_cols n col N /\ same_sol M N
    | None => left_kernel n M
    end)); [lia| |].
  - split; [done|]. split; [|done]. intros i j ? ?. lia.
  - intros col [N|] Hcol HI; [|eauto]. destruct HI as (HN & Hu & Hs).
    destruct (decide (find_pivot N col (n - col) col = n)) as [Hp|Hp].
    + destruct (gj_column_no_pivot n N col) as [-> Hk]; try done; [lia|].
      exists None. split; [done|]. destruct Hk as (x & Hx & H1 & Hsol).
      exists x. by rewrite Hs.
    + destruct (gj_column_pivot n N col) as (N' & -> & HN' & Hu' & Hs'); try done; [lia|].
      exists (Some N'). split; [done|]. split; [done|]. split; [done|].
      by transitivity N.
Qed.

(** ** Inversion *)

Lemma augment_ok A n :
  shape n n A ->
  exists aug, augment A = Ok aug /\ shape n (2 * n) aug /\
    forall i r, A !! i = Some r -> aug !! i = Some (r ++ unit_row n i).
Proof.
  intros [Hn Hw]. exists ((fun i => row_at A i ++ unit_row n i) <$> seq 0 n).
  split; [|split; [split|]].
  - unfold augment. rewrite Hn. apply omapM_total. intros i Hi%elem_of_seq.
    rewrite (row_at_lookup A i) by lia. cbn [expect mbind outcome_bind].
    rewrite bool_decide_false by (rewrite (Hw i) by (apply row_at_lookup; lia); lia).
    by rewrite take_ge by (rewrite (Hw i) by (apply row_at_lookup; lia); lia).
  - by rewrite length_fmap, length_seq.
  - intros i r. rewrite list_lookup_fmap. intros (j & [Hj Hlt]%lookup_seq & ->)%fmap_Some.
    rewrite length_app, length_unit_row, (Hw j) by (apply row_at_lookup; lia). lia.
  - intros i r Hr. assert (i < length A) by (by eapply lookup_lt_Some).
    rewrite list_lookup_fmap, lookup_seq_lt by lia. simpl. unfold row_at. by rewrite Hr.
Qed.

(** A reduced system [I | R] that a vector solves gives its left half back. *)
Lemma reduced_solution n N x y i r :
  shape n (2 * n) N -> unit_cols n n N -> length x = n -> length y = n ->
  sol N (x ++ y) -> N !! i = Some r -> x !! i = Some (dot (take n (drop n r)) y).
Proof.
  intros HN Hu Hx Hy Hz Hr. pose proof HN as [HlN HwN].
  rewrite sol_lookup in Hz. specialize (Hz i r Hr).
  assert (Hi : i < n) by (rewrite <- HlN; by eapply lookup_lt_Some).
  destruct (lookup_lt_is_Some_2 x i) as [b Hb]; [lia|].
  rewrite <- (take_drop n r) in Hz.
  rewrite dot_app in Hz by (rewrite length_take, (HwN i r Hr); lia).
  rewrite (unit_prefix n (2 * n) n N i r) in Hz by (done || lia).
  rewrite decide_True, (dot_unit n i x b) in Hz by done.
  apply gf_add_zero_eq in Hz.
  rewrite take_ge by (rewrite length_drop, (HwN i r Hr); lia). by rewrite Hb, Hz.
Qed.

(** [invert_matrix] on a square matrix: it never panics; an inverse it returns
    maps [A x] back to [x] for every vector [x]; and it reports singular only
    when [A] has a nonzero kernel vector. *)
Lemma invert_matrix_spec A n :
  shape n n A ->
  exists res, invert_matrix A = Ok res /\
    match res with
    | Some inv => shape n n inv /\
        forall x y, length x = n -> length y = n ->
          (forall i r, A !! i = Some r -> y !! i = Some (dot r x)) ->
          forall i r, inv !! i = Some r -> x !! i = Some (dot r y)
    | None => exists x, length x = n /\ x01 ∈ x /\ sol A x
    end.
Proof.
  intros HA. destruct (augment_ok A n HA) as (aug & Haug & Hshape & Hrows).
  destruct (gj_loop_spec n aug Hshape) as (res & Hres & Hspec).
  pose proof HA as [Hn Hw].
  unfold invert_matrix. rewrite Haug. cbn [mbind outcome_bind]. rewrite Hn, Hres.
  cbn [mbind outcome_bind]. eexists. split; [done|]. destruct res as [N|]; simpl.
  - destruct Hspec as ([HlN HwN] & Hu & Hs). split.
    { split; [unfold right_half; by rewrite length_fmap|].
      intros i r. unfold right_half. rewrite list_lookup_fmap.
      intros (r' & Hr & ->)%fmap_Some. rewrite length_take, length_drop, (HwN i) by done. lia. }
    intros x y Hx Hy Hyx i r. unfold right_half. rewrite list_lookup_fmap.
    intros (r' & Hr & ->)%fmap_Some.
    assert (Hz : sol N (x ++ y)).
    { rewrite <- Hs. apply sol_lookup. intros j ra Hra.
      assert (j < n) by (destruct Hshape as [<- _]; by eapply lookup_lt_Some).
      assert (Hj : A !! j = Some (row_at A j)) by (apply row_at_lookup; lia).
      rewrite (Hrows j _ Hj) in Hra. injection Hra as <-.
      rewrite dot_app by (rewrite (Hw j) by done; done).
      rewrite (dot_unit n j y _ Hy (Hyx j _ Hj)). apply gf_add_diag. }
    by apply (reduced_solution n N).
  - destruct Hspec as (x & Hx & H1 & Hsol). exists x. split; [done|]. split; [done|].
    apply sol_lookup. intros i r Hr. rewrite sol_lookup in Hsol.
    specialize (Hsol i _ (Hrows i r Hr)). rewrite dot_app in Hsol by (rewrite (Hw i r Hr); done).
    by rewrite dot_zeros_r, gf_add_comm, gf_add_0_l in Hsol.
Qed.

(** ** Property *)

(** C18: [invert_matrix] on a square matrix [A] never panics, and it returns an
    inverse exactly when [A] has no nonzero kernel vector; the inverse maps
    [A x] back to [x] for every vector [x]. *)
Theorem invert_matrix_correct A n :
  shape n n A ->
  (forall x, length x = n -> x01 ∈ x -> ~ sol A x) /\
    (exists inv, invert_matrix A = Ok (Some inv) /\ shape n n inv /\
       forall x y, length x = n -> length y = n ->
         (forall i r, A !! i = Some r -> y !! i = Some (dot r x)) ->
         forall i r, inv !! i = Some r -> x !! i = Some (dot r y))
  \/ invert_matrix A = Ok None /\ exists x, length x = n /\ x01 ∈ x /\ sol A x.
Proof.
  intros HA. destruct (invert_matrix_spec A n HA) as (res & Hres & Hspec).
  destruct res as [inv|]; [left|by right]. destruct Hspec as [Hinv Hspec].
  split; [|by eauto]. intros x Hx [i Hi]%list_elem_of_lookup_1 Hsol.
  rewrite sol_lookup in Hsol. destruct HA as [Hn Hw].
  assert (Hlt : i < n) by (rewrite <- Hx; by eapply lookup_lt_Some).
  destruct (lookup_lt_is_Some_2 inv i) as [r Hr]; [by rewrite (proj1 Hinv)|].
  rewrite (Hspec x (replicate n x00)) with (r := r) in Hi;
    [|done|by rewrite length_replicate| |done].
  - by rewrite dot_zeros_r in Hi.
  - intros j rj Hj. rewrite (Hsol j rj Hj). apply lookup_replicate_2.
    rewrite <- Hn. by eapply lookup_lt_Some.
Qed.

Lemma invert_matrix_correct_witness :
  let A := [[x01; x02]; [x03; x04]] in
  shape 2 2 A /\
  ((forall x, length x = 2 -> x01 ∈ x -> ~ sol A x) /\
    (exists inv, invert_matrix A = Ok (Some inv) /\ shape 2 2 inv /\
       forall x y, length x = 2 -> length y = 2 ->
         (forall i r, A !! i = Some r -> y !! i = Some (dot r x)) ->
         forall i r, inv !! i = Some r -> x !! i = Some (dot r y))
  \/ invert_matrix A = Ok None /\ exists x, length x = 2 /\ x01 ∈ x /\ sol A x).
Proof.
  intros A. assert (HA : shape 2 2 A).
  { split; [done|]. intros [|[|i]] r; simpl; intros [= <-]; done. }
  split; [exact HA|]. exact (invert_matrix_correct A 2 HA).
Defined.
