(* ===== verification/CauchyCodec.v ===== *)
(** * Correctness of the Cauchy codec

    The coefficient matrix and its precomputed copies, the parity that the
    encode loops compute, and the recovery theorem of the decoder: any [k] of
    the [k + m] shards give the data back. *)

From Stdlib Require Import ZArith Lia Strings.Byte.
From S2P Require Import Prelude Gf GfSimd Linalg Cauchy GaussJordan.

Local Open Scope nat_scope.

(** ** Coefficients *)

Definition coefficient (k i j : nat) : byte :=
  ginv (gf_add (as_u8 (j + 1)) (as_u8 (k + i + 1))).

Definition coefficient_row (k i : nat) : bytes := coefficient k i <$> seq 0 k.

Definition coefficients (k m : nat) : matrix := coefficient_row k <$> seq 0 m.

Lemma as_u8_inj a b : a < b + 256 -> b < a + 256 -> as_u8 a = as_u8 b -> a = b.
Proof.
  intros Ha Hb H. unfold as_u8 in H. apply (f_equal Z_of_byte) in H.
  rewrite !Z_of_byte_of_Z in H. Z.div_mod_to_equations. lia.
Qed.

(** The row and column points never meet while [k + m <= 256]. *)
Lemma points_distinct k i j :
  j < k -> k + i < 256 -> gf_add (as_u8 (j + 1)) (as_u8 (k + i + 1)) <> x00.
Proof. intros Hj Hi H%gf_add_zero_eq%as_u8_inj; lia. Qed.

Lemma compute_cauchy_matrix_ok k m :
  k + m <= 256 -> compute_cauchy_matrix k m = Ok (coefficients k m).
Proof.
  intros Hkm. unfold compute_cauchy_matrix. apply omapM_total.
  intros i Hi%elem_of_seq. apply omapM_total. intros j Hj%elem_of_seq.
  apply gf_inv_nonzero, points_distinct; lia.
Qed.

Lemma const_matrix_computed k m :
  cauchy_matrix k m = compute_cauchy_matrix k m.
Proof.
  unfold cauchy_matrix. destruct (get_const_cauchy_matrix k m) eqn:Hc; [|done].
  unfold get_const_cauchy_matrix in Hc. repeat case_match; simplify_eq; by vm_compute.
Qed.

Lemma cauchy_matrix_ok k m : k + m <= 256 -> cauchy_matrix k m = Ok (coefficients k m).
Proof. intros H. by rewrite const_matrix_computed, compute_cauchy_matrix_ok. Qed.

Lemma coefficients_lookup k m i : i < m -> coefficients k m !! i = Some (coefficient_row k i).
Proof. intros Hi. unfold coefficients. by rewrite list_lookup_fmap, lookup_seq_lt. Qed.

Lemma coefficient_row_lookup k i j :
  j < k -> coefficient_row k i !! j = Some (coefficient k i j).
Proof. intros Hj. unfold coefficient_row. by rewrite list_lookup_fmap, lookup_seq_lt. Qed.

Lemma length_coefficient_row k i : length (coefficient_row k i) = k.
Proof. unfold coefficient_row. by rewrite length_fmap, length_seq. Qed.

(** ** Parity *)

(** Byte [b] of every shard. *)
Definition column (shards : list bytes) (b : nat) : bytes :=
  (fun d => default x00 (d !! b)) <$> shards.

(** The combination of the shards with the coefficients [row]. *)
Definition combine_shards (row : bytes) (shards : list bytes) (size : nat) : bytes :=
  (fun b => dot row (column shards b)) <$> seq 0 size.

Definition parity_of (k m : nat) (shards : list bytes) (size : nat) : list bytes :=
  (fun i => combine_shards (coefficient_row k i) shards size) <$> seq 0 m.

Lemma combine_shards_nil row size : combine_shards row [] size = replicate size x00.
Proof.
  unfold combine_shards, column. generalize 0 as a.
  induction size as [|size IH]; intros a; [done|]. cbn [seq replicate].
  by rewrite fmap_cons, IH, dot_nil_r.
Qed.

Lemma length_combine_shards row shards size : length (combine_shards row shards size) = size.
Proof. unfold combine_shards. by rewrite length_fmap, length_seq. Qed.

Lemma combine_shards_snoc row shards size c d :
  length row = length shards -> length d = size ->
  zip_with (fun p b => gf_add p (gf_mul c b)) (combine_shards row shards size) d
    = combine_shards (row ++ [c]) (shards ++ [d]) size.
Proof.
  intros Hlen Hd. apply list_eq; intros b.
  rewrite lookup_zip_with. unfold combine_shards. rewrite !list_lookup_fmap.
  destruct (decide (b < size)) as [Hb|Hb].
  - rewrite lookup_seq_lt by done. simpl.
    destruct (lookup_lt_is_Some_2 d b) as [x Hx]; [lia|]. rewrite Hx. simpl. f_equal.
    unfold column. rewrite fmap_app, dot_app by (by rewrite length_fmap). simpl.
    rewrite Hx. simpl. by rewrite (gf_add_comm (gf_mul c x) x00), gf_add_0_l.
  - by rewrite (proj2 (lookup_ge_None (seq 0 size) b)) by (rewrite length_seq; lia).
Qed.

Lemma take_snoc {A} (l : list A) i x : l !! i = Some x -> take (S i) l = take i l ++ [x].
Proof. apply take_S_r. Qed.

Section encode_loops.
Context (k m : nat) (data : list bytes) (size : nat).
Hypothesis Hk : length data = k.
Hypothesis Hsize : forall j d, data !! j = Some d -> length d = size.

(** Parity rows after [i] full rows and [j] columns of row [i]. *)
Let partial_row (i j : nat) : bytes :=
  combine_shards (take j (coefficient_row k i)) (take j data) size.
Let partial (i j : nat) : list bytes :=
  <[i := partial_row i j]>
    (((fun i => combine_shards (coefficient_row k i) data size) <$> seq 0 i)
      ++ replicate (m - i) (replicate size x00)).

Lemma partial_lookup i j : i < m -> partial i j !! i = Some (partial_row i j).
Proof.
  intros Hi. unfold partial. apply list_lookup_insert_eq.
  rewrite length_app, length_fmap, length_seq, length_replicate. lia.
Qed.

Lemma partial_start i :
  i < m ->
  partial i 0 = ((fun i => combine_shards (coefficient_row k i) data size) <$> seq 0 i)
                  ++ replicate (m - i) (replicate size x00).
Proof.
  intros Hi. unfold partial. apply list_insert_id. unfold partial_row. simpl.
  rewrite combine_shards_nil.
  rewrite lookup_app_r by (by rewrite length_fmap, length_seq).
  rewrite length_fmap, length_seq. apply lookup_replicate_2. lia.
Qed.

Lemma partial_end i :
  i < m ->
  partial i k = ((fun i => combine_shards (coefficient_row k i) data size) <$> seq 0 (S i))
                  ++ replicate (m - S i) (replicate size x00).
Proof.
  intros Hi. unfold partial, partial_row.
  rewrite (take_ge (coefficient_row k i)), (take_ge data)
    by (rewrite ?length_coefficient_row; lia).
  replace (m - i) with (S (m - S i)) by lia.
  rewrite insert_app_r_alt by (by rewrite length_fmap, length_seq).
  rewrite length_fmap, length_seq, Nat.sub_diag, seq_S, fmap_app, <- app_assoc. done.
Qed.

Lemma partial_step i j d :
  i < m -> data !! j = Some d -> j < k ->
  <[i := zip_with (fun p b => gf_add p (gf_mul (coefficient k i j) b)) (partial_row i j) d]>
    (partial i j) = partial i (S j).
Proof.
  intros Hi Hd Hj. unfold partial. rewrite list_insert_insert_eq. f_equal. unfold partial_row.
  rewrite combine_shards_snoc.
  - by rewrite <- (take_snoc _ _ _ Hd), <- (take_snoc _ _ _ (coefficient_row_lookup k i j Hj)).
  - rewrite !length_take, length_coefficient_row. lia.
  - eauto.
Qed.

Lemma zip_with_fmap_r' (p d : bytes) (c : byte) :
  zip_with gf_add p (gf_mul c <$> d) = zip_with (fun p b => gf_add p (gf_mul c b)) p d.
Proof. apply zip_with_fmap_r. Qed.

Lemma data_lookup j : j < k -> exists d, data !! j = Some d /\ length d = size.
Proof. intros Hj. destruct (lookup_lt_is_Some_2 data j) as [d Hd]; [lia|]. eauto. Qed.

(** The scalar loops. *)
Lemma encode_scalar_loops :
  for_range 0 m (fun parity i =>
    for_range 0 k (encode_step_scalar (coefficients k m) data size i) parity)
    (replicate m (replicate size x00)) = Ok (parity_of k m data size).
Proof.
  set (g := fun i => ((fun i => combine_shards (coefficient_row k i) data size) <$> seq 0 i)
                  ++ replicate (m - i) (replicate size x00)).
  replace (replicate m (replicate size x00)) with (g 0) by (unfold g; by rewrite Nat.sub_0_r).
  replace (parity_of k m data size) with (g m)
    by (unfold g; rewrite Nat.sub_diag; simpl; apply app_nil_r).
  apply (for_range_eq g); [lia|]. intros i Hi. unfold g. rewrite <- partial_start by lia.
  rewrite <- partial_end by lia. apply (for_range_eq (partial i)); [lia|].
  intros j Hj. destruct (data_lookup j) as (d & Hd & Hdl); [lia|].
  unfold encode_step_scalar. rewrite coefficients_lookup by lia. cbn [expect mbind outcome_bind].
  rewrite coefficient_row_lookup by lia. cbn [expect mbind outcome_bind].
  rewrite Hd. cbn [expect mbind outcome_bind]. rewrite partial_lookup by lia.
  cbn [expect mbind outcome_bind]. rewrite bool_decide_false by lia.
  f_equal. apply partial_step; done || lia.
Qed.

(** The SIMD loops, on a CPU whose kernel multiplies in the right field and
    from a scratch buffer of the right size. *)
Lemma encode_simd_loops c buf :
  detect c <> Gfni -> length buf = size ->
  exists buf', for_range 0 m (fun st i =>
      for_range 0 k (encode_step_simd c (coefficients k m) data i) st)
    (replicate m (replicate size x00), buf) = Ok (parity_of k m data size, buf').
Proof.
  intros Hc Hbuf.
  set (g := fun i => ((fun i => combine_shards (coefficient_row k i) data size) <$> seq 0 i)
                  ++ replicate (m - i) (replicate size x00)).
  destruct (for_range_inv (fun i (st : matrix * bytes) => st.1 = g i /\ length st.2 = size) 0 m
    (fun st i => for_range 0 k (encode_step_simd c (coefficients k m) data i) st)
    (replicate m (replicate size x00), buf)) as ([p b] & Hrun & Hp & _).
  - lia.
  - unfold g. simpl. by rewrite Nat.sub_0_r.
  - intros i [p b] Hi [Hp Hb]. simpl in Hp, Hb. unfold g in *. rewrite <- partial_start in Hp by lia.
    rewrite <- partial_end by lia. subst p.
    apply (for_range_inv (fun j (st : matrix * bytes) => st.1 = partial i j /\ length st.2 = size));
      [lia|done|].
    intros j [p b'] Hj [Hp' Hb']. simpl in Hp', Hb'. subst p.
    destruct (data_lookup j) as (d & Hd & Hdl); [lia|].
    unfold encode_step_simd. rewrite coefficients_lookup by lia. cbn [expect mbind outcome_bind].
    rewrite coefficient_row_lookup by lia. cbn [expect mbind outcome_bind].
    rewrite Hd. cbn [expect mbind outcome_bind]. rewrite gf_mul_simd_map by (done || lia).
    cbn [expect mbind outcome_bind]. rewrite partial_lookup by lia.
    cbn [expect mbind outcome_bind]. eexists. split; [done|]. split; simpl.
    + rewrite zip_with_fmap_r'. apply partial_step; done || lia.
    + by rewrite length_fmap.
  - exists b. rewrite Hrun. simpl in Hp. subst p. unfold g.
    by rewrite Nat.sub_diag, app_nil_r.
Qed.

End encode_loops.

(** The targets whose kernel multiplies in the field of [gf_mul]. *)
Definition sound_target (t : target) : Prop :=
  match t with X86_64 c => detect c <> Gfni | OtherArch => True end.

Lemma encode_cauchy_ok t buf k m data size :
  sound_target t -> 0 < k -> k + m <= 256 -> length data = k ->
  (forall j d, data !! j = Some d -> length d = size) ->
  encode_cauchy t buf k m data = Ok (parity_of k m data size).
Proof.
  intros Ht Hk Hkm Hlen Hsize. unfold encode_cauchy. rewrite cauchy_matrix_ok by done.
  cbn [mbind outcome_bind]. destruct (lookup_lt_is_Some_2 data 0) as [d Hd]; [lia|].
  rewrite Hd. cbn [expect mbind outcome_bind]. rewrite (Hsize 0 d Hd).
  destruct t as [c|]; [|by apply encode_scalar_loops].
  match goal with |- context [take size ?b] => set (buf0 := b) end.
  destruct (encode_simd_loops k m data size Hlen Hsize c (take size buf0)) as [buf' ->]; [done| |done].
  unfold buf0. rewrite length_take. case_bool_decide; rewrite ?length_app, ?length_replicate; lia.
Qed.

Lemma encode_ok t buf k m data size :
  sound_target t -> 0 < k -> k + m <= 256 -> length data = k ->
  (forall j d, data !! j = Some d -> length d = size) ->
  encode t buf k data m = Ok (parity_of k m data size).
Proof.
  intros Ht Hk Hkm Hlen Hsize. unfold encode. rewrite bool_decide_true by done. cbn [negb].
  destruct data as [|d data']; [simpl in Hlen; lia|].
  destruct (find _ _) as [s|] eqn:Hf; [|by apply encode_cauchy_ok].
  apply find_some in Hf as [Hin%list_elem_of_In Hs]. apply negb_true_iff, bool_decide_eq_false in Hs.
  apply list_elem_of_lookup_1 in Hin as [j Hj]. destruct Hs.
  by rewrite (Hsize j s Hj), (Hsize 0 d).
Qed.

(** ** Any [k] rows of the generator matrix are independent *)

Definition gen_row (k idx : nat) : bytes :=
  if decide (idx < k) then unit_row k idx else coefficient_row k (idx - k).

Lemma generator_matrix_lookup k m :
  k + m <= 256 ->
  exists gen, generator_matrix k m = Ok gen /\
    forall idx, idx < k + m -> gen !! idx = Some (gen_row k idx).
Proof.
  intros Hkm. unfold generator_matrix. rewrite cauchy_matrix_ok by done.
  cbn [mbind outcome_bind]. eexists. split; [done|]. intros idx Hidx. unfold gen_row.
  case_decide.
  - rewrite lookup_app_l by (by rewrite length_fmap, length_seq).
    by rewrite list_lookup_fmap, lookup_seq_lt.
  - rewrite lookup_app_r by (rewrite length_fmap, length_seq; lia).
    rewrite length_fmap, length_seq. apply coefficients_lookup. lia.
Qed.

Lemma length_gen_row k idx : length (gen_row k idx) = k.
Proof. unfold gen_row. case_decide; [apply length_unit_row|apply length_coefficient_row]. Qed.

Definition point (j : nat) : byte := as_u8 (j + 1).

Lemma dot_csum xf y x a :
  (forall i b, x !! i = Some b -> b = xf (a + i)) ->
  dot ((fun j => ginv (gf_add (point j) y)) <$> seq a (length x)) x
    = csum ((fun j => (xf j, point j)) <$> seq a (length x)) y.
Proof.
  revert a; induction x as [|b x IH]; intros a Hx; [done|].
  cbn [length seq]. rewrite !fmap_cons. cbn [dot csum].
  rewrite IH by (intros i c Hc; rewrite (Hx (S i) c) by done; f_equal; lia).
  rewrite (Hx 0 b) by done. rewrite Nat.add_0_r. f_equal. apply gf_mul_comm.
Qed.

Lemma csum_filter (P : nat -> Prop) `{!forall j, Decision (P j)} xf y js :
  (forall j, j ∈ js -> ~ P j -> xf j = x00) ->
  csum ((fun j => (xf j, point j)) <$> filter P js) y
    = csum ((fun j => (xf j, point j)) <$> js) y.
Proof.
  induction js as [|j js IH]; intros Hz; [done|]. rewrite filter_cons.
  rewrite fmap_cons. cbn [csum]. case_decide.
  - rewrite fmap_cons. cbn [csum]. by rewrite IH by (intros; apply Hz; [by right|done]).
  - rewrite IH by (intros; apply Hz; [by right|done]).
    by rewrite (Hz j ltac:(by left)), gf_mul_0_l, gf_add_0_l.
Qed.

Lemma filter_complement_length {A} (P : A -> Prop) `{!forall x, Decision (P x)} (l : list A) :
  length (filter P l) + length (filter (fun x => ~ P x) l) = length l.
Proof. rewrite <- length_app. apply Permutation_length, filter_app_complement. Qed.

(** The missing data shards are as many as the selected parity shards. *)
Lemma missing_count k sel :
  NoDup sel -> length sel = k ->
  length (filter (fun j => j ∉ sel) (seq 0 k)) = length (filter (fun idx => ~ idx < k) sel).
Proof.
  intros Hnd Hlen.
  pose proof (filter_complement_length (fun j => j ∈ sel) (seq 0 k)) as H1.
  pose proof (filter_complement_length (fun idx => idx < k) sel) as H2.
  assert (Hp : filter (fun j => j ∈ sel) (seq 0 k) ≡ₚ filter (fun idx => idx < k) sel).
  { apply NoDup_Permutation; [apply NoDup_filter, NoDup_seq|by apply NoDup_filter|].
    intros x. rewrite !list_elem_of_filter, elem_of_seq. naive_solver lia. }
  rewrite Hp in H1. rewrite length_seq in H1. lia.
Qed.

Lemma coefficient_row_csum k p x :
  k <= p -> length x = k ->
  dot (coefficient_row k (p - k)) x
    = csum ((fun j => (default x00 (x !! j), point j)) <$> seq 0 k) (point p).
Proof.
  intros Hp Hx. rewrite <- Hx at 3.
  rewrite <- (dot_csum (fun j => default x00 (x !! j)));
    [|intros i b Hi; simpl; by rewrite Hi].
  rewrite Hx. f_equal. unfold coefficient_row, coefficient, point.
  apply list_fmap_ext. intros i j _. do 3 f_equal. lia.
Qed.

Lemma points_NoDup (l : list nat) :
  NoDup l -> (forall a, a ∈ l -> a < 256) -> NoDup (point <$> l).
Proof.
  intros Hnd Hl. apply NoDup_fmap_2_strong; [|done].
  intros a b Ha%Hl Hb%Hl He%as_u8_inj; lia.
Qed.

(** [k] distinct rows of the generator matrix kill only the zero vector. *)
Lemma generator_rows_independent k m sel x :
  k + m <= 256 -> NoDup sel -> length sel = k -> (forall idx, idx ∈ sel -> idx < k + m) ->
  length x = k -> (forall idx, idx ∈ sel -> dot (gen_row k idx) x = x00) ->
  forall j b, x !! j = Some b -> b = x00.
Proof.
  intros Hkm Hnd Hlen Hlt Hx Hdot.
  set (xf := fun j => default x00 (x !! j)).
  assert (Hdata : forall j, j ∈ sel -> j < k -> xf j = x00).
  { intros j Hj Hjk. specialize (Hdot j Hj). unfold gen_row in Hdot.
    rewrite decide_True in Hdot by done. unfold xf.
    destruct (lookup_lt_is_Some_2 x j) as [b Hb]; [lia|].
    rewrite Hb. by rewrite (dot_unit k j x b) in Hdot. }
  set (missing := filter (fun j => j ∉ sel) (seq 0 k)).
  set (par := filter (fun idx => ~ idx < k) sel).
  assert (Hz : all_zero ((fun j => (xf j, point j)) <$> missing)).
  { apply (cauchy_nonsingular _ (point <$> par)); rewrite <- ?list_fmap_compose.
    - apply points_NoDup; [apply NoDup_filter, NoDup_seq|].
      intros a [_ Ha%elem_of_seq]%list_elem_of_filter. lia.
    - apply points_NoDup; [by apply NoDup_filter|].
      intros a [_ Ha%Hlt]%list_elem_of_filter. lia.
    - intros y (p & -> & [Hp1 Hp%Hlt]%list_elem_of_filter)%list_elem_of_fmap.
      intros (j & He & [_ Hj%elem_of_seq]%list_elem_of_filter)%list_elem_of_fmap.
      apply as_u8_inj in He; lia.
    - rewrite !length_fmap. unfold missing, par. by rewrite missing_count.
    - intros y (p & -> & [Hp1 Hp]%list_elem_of_filter)%list_elem_of_fmap.
      unfold missing. rewrite csum_filter.
      + specialize (Hdot p Hp). unfold gen_row in Hdot. rewrite decide_False in Hdot by done.
        rewrite <- Hdot. symmetry. apply coefficient_row_csum; lia.
      + intros j Hj%elem_of_seq Hn. apply Hdata; [|lia]. by destruct (decide (j ∈ sel)). }
  intros j b Hj. assert (Hjk : j < k) by (rewrite <- Hx; by eapply lookup_lt_Some).
  assert (xf j = b) as <- by (unfold xf; by rewrite Hj).
  destruct (decide (j ∈ sel)) as [Hin|Hnin]; [by apply Hdata|].
  unfold all_zero in Hz. rewrite Forall_fmap, Forall_forall in Hz. apply (Hz j).
  apply list_elem_of_filter. split; [done|]. apply elem_of_seq. lia.
Qed.

(** ** Decoding *)

Lemma recover_byte_dot row sub_data k b :
  length row = k -> length sub_data = k ->
  (forall j d, sub_data !! j = Some d -> b < length d) ->
  recover_byte row sub_data k b = Ok (dot row (column sub_data b)).
Proof.
  intros Hr Hs Hb. unfold recover_byte.
  set (g := fun j => dot (take j row) (take j (column sub_data b))).
  replace (dot row (column sub_data b)) with (g k)
    by (unfold g, column; rewrite !take_ge by (rewrite ?length_fmap; lia); done).
  apply (for_range_eq g); [lia|]. intros j Hj. unfold g.
  destruct (lookup_lt_is_Some_2 row j) as [c Hc]; [lia|].
  destruct (lookup_lt_is_Some_2 sub_data j) as [d Hd]; [lia|].
  destruct (lookup_lt_is_Some_2 d b) as [x Hx]; [eauto|].
  rewrite Hc, Hd. cbn [expect mbind outcome_bind]. rewrite Hx. cbn [expect mbind outcome_bind].
  assert (Hcol : column sub_data b !! j = Some x)
    by (unfold column; rewrite list_lookup_fmap, Hd; simpl; by rewrite Hx).
  rewrite (take_S_r _ _ _ Hc), (take_S_r _ _ _ Hcol).
  rewrite dot_app by (unfold column; rewrite !length_take, length_fmap; lia). simpl.
  by rewrite (gf_add_comm (gf_mul c x) x00), gf_add_0_l.
Qed.

(** Shard [idx] of the encoded stripe: a data shard or a parity shard. *)
Definition stripe_shards (k m : nat) (data : list bytes) (size : nat) : list bytes :=
  data ++ parity_of k m data size.

Lemma stripe_shard_byte k m data size idx s b :
  length data = k -> (forall j d, data !! j = Some d -> length d = size) ->
  stripe_shards k m data size !! idx = Some s -> b < size ->
  length s = size /\ s !! b = Some (dot (gen_row k idx) (column data b)).
Proof.
  intros Hlen Hsize Hs Hb. unfold stripe_shards in Hs. unfold gen_row.
  destruct (decide (idx < k)) as [Hi|Hi].
  - rewrite lookup_app_l in Hs by lia. split; [eauto|].
    rewrite (dot_unit k idx _ (default x00 (s !! b))).
    + destruct (lookup_lt_is_Some_2 s b) as [? ->]; [by rewrite (Hsize idx)|done].
    + unfold column. by rewrite length_fmap.
    + unfold column. by rewrite list_lookup_fmap, Hs.
  - rewrite lookup_app_r, Hlen in Hs by lia. unfold parity_of in Hs.
    rewrite list_lookup_fmap in Hs. apply fmap_Some in Hs as (i & [Hi1 Hi2]%lookup_seq & ->).
    split; [apply length_combine_shards|]. unfold combine_shards.
    by rewrite list_lookup_fmap, lookup_seq_lt, Hi1.
Qed.

(** A view of the stripe in which some shards are lost: every shard that is
    present is the shard that was written. *)
Definition survives (available : list (option bytes)) (full : list bytes) : Prop :=
  Forall2 (fun o s => forall s', o = Some s' -> s' = s) available full.

Definition present_count (available : list (option bytes)) : nat :=
  length (filter is_Some available).

Definition present_indices (available : list (option bytes)) : list nat :=
  filter (fun i => is_Some (mjoin (available !! i))) (seq 0 (length available)).

Lemma present_indices_from (l av : list (option bytes)) a :
  (forall i, av !! (a + i) = l !! i) ->
  length (filter (fun i => is_Some (mjoin (av !! i))) (seq a (length l)))
    = length (filter is_Some l).
Proof.
  revert a; induction l as [|o l IH]; intros a H; [done|]. cbn [length seq].
  assert (Ha : mjoin (av !! a) = o) by (specialize (H 0); rewrite Nat.add_0_r in H; by rewrite H).
  specialize (IH (S a)). rewrite !filter_cons, Ha. case_decide; simpl; rewrite IH; try done;
    intros i; specialize (H (S i)); by rewrite <- Nat.add_succ_comm in H.
Qed.

Lemma present_indices_length available :
  length (present_indices available) = present_count available.
Proof. by apply present_indices_from. Qed.

Section decode_ok.
Context (k m : nat) (data : list bytes) (size : nat) (available : list (option bytes)).
Hypothesis Hk : 0 < k.
Hypothesis Hkm : k + m <= 256.
Hypothesis Hlen : length data = k.
Hypothesis Hsize : forall j d, data !! j = Some d -> length d = size.
Hypothesis Hsurv : survives available (stripe_shards k m data size).
Hypothesis Hpresent : k <= present_count available.

Let sel : list nat := take k (present_indices available).
Let shard_of (idx : nat) : bytes := default [] (stripe_shards k m data size !! idx).

Lemma available_length : length available = k + m.
Proof.
  rewrite (Forall2_length _ _ _ Hsurv). unfold stripe_shards, parity_of.
  rewrite length_app, length_fmap, length_seq. lia.
Qed.

Lemma sel_NoDup : NoDup sel.
Proof. eapply sublist_NoDup; [|apply sublist_take]. apply NoDup_filter, NoDup_seq. Qed.

Lemma sel_length : length sel = k.
Proof. unfold sel. rewrite length_take, present_indices_length. lia. Qed.

(** A selected shard is present and is the one that was written. *)
Lemma sel_shard idx :
  idx ∈ present_indices available ->
  idx < k + m /\ mjoin (available !! idx) = Some (shard_of idx) /\
  length (shard_of idx) = size /\
  forall b, b < size -> shard_of idx !! b = Some (dot (gen_row k idx) (column data b)).
Proof.
  intros [[s Hs] Hidx%elem_of_seq]%list_elem_of_filter.
  rewrite available_length in Hidx.
  destruct (available !! idx) as [o|] eqn:Ho; [|done]. simpl in Hs. subst o.
  destruct (Forall2_lookup_l _ _ _ _ _ Hsurv Ho) as (s' & Hs' & Heq).
  specialize (Heq s eq_refl). subst s'. unfold shard_of. rewrite Hs'. simpl.
  assert (Hb : forall b, b < size ->
    length s = size /\ s !! b = Some (dot (gen_row k idx) (column data b)))
    by (intros; by eapply stripe_shard_byte).
  split; [lia|]. split; [done|]. split; [|intros b Hbs; by apply Hb].
  unfold stripe_shards in Hs'. apply lookup_app_Some in Hs' as [Hs'|[_ Hs']]; [eauto|].
  unfold parity_of in Hs'. rewrite list_lookup_fmap in Hs'.
  apply fmap_Some in Hs' as (i & _ & ->). apply length_combine_shards.
Qed.

Lemma sel_in idx : idx ∈ sel -> idx ∈ present_indices available.
Proof. intros Hin. eapply elem_of_sublist; [exact Hin|apply sublist_take]. Qed.

(** The selected rows are invertible. *)
Lemma sub_matrix_invertible :
  exists inv, invert_matrix (gen_row k <$> sel) = Ok (Some inv) /\ shape k k inv /\
    forall b, b < size ->
      forall i r, inv !! i = Some r -> column data b !! i = Some (dot r (column (shard_of <$> sel) b)).
Proof.
  assert (Hshape : shape k k (gen_row k <$> sel)).
  { split; [rewrite length_fmap; apply sel_length|].
    intros i r. rewrite list_lookup_fmap. intros (idx & _ & ->)%fmap_Some. apply length_gen_row. }
  destruct (invert_matrix_spec _ k Hshape) as ([inv|] & Hinv & Hspec).
  - exists inv. destruct Hspec as [Hs Hspec]. split; [done|]. split; [done|].
    intros b Hb. apply Hspec; try (unfold column; rewrite ?length_fmap; done || apply sel_length).
    intros i r. rewrite list_lookup_fmap. intros (idx & Hidx & ->)%fmap_Some.
    unfold column at 1. rewrite !list_lookup_fmap, Hidx. simpl.
    destruct (sel_shard idx) as (_ & _ & _ & Hbyte);
      [apply sel_in; by eapply list_elem_of_lookup_2|].
    by rewrite Hbyte.
  - destruct Hspec as (x & Hx & H1 & Hsol). exfalso.
    apply list_elem_of_lookup_1 in H1 as [j Hj].
    enough (x01 = x00) by done.
    eapply (generator_rows_independent k m sel x); try done;
      [apply sel_NoDup|apply sel_length| |].
    + intros idx Hidx%sel_in%sel_shard. apply Hidx.
    + intros idx Hidx. apply Hsol. apply list_elem_of_fmap. eauto.
Qed.

Lemma data_from_columns i d row b :
  data !! i = Some d -> b < size ->
  column data b !! i = Some (dot row (column (shard_of <$> sel) b)) ->
  d !! b = Some (dot row (column (shard_of <$> sel) b)).
Proof.
  intros Hd Hb. unfold column at 1. rewrite list_lookup_fmap, Hd. simpl.
  destruct (lookup_lt_is_Some_2 d b) as [x Hx]; [by rewrite (Hsize i)|].
  by rewrite Hx.
Qed.

Lemma decode_correct : decode available k m = Ok data.
Proof.
  unfold decode. rewrite available_length, bool_decide_true by done. cbn [negb].
  rewrite <- available_length. fold (present_indices available).
  rewrite bool_decide_false by (rewrite present_indices_length; lia).
  destruct (lookup_lt_is_Some_2 (present_indices available) 0) as [p0 Hp0];
    [rewrite present_indices_length; lia|].
  rewrite Hp0. cbn [expect mbind outcome_bind].
  destruct (sel_shard p0) as (_ & -> & Hl0 & _); [by eapply list_elem_of_lookup_2|].
  cbn [ok_or mbind outcome_bind]. rewrite Hl0.
  destruct (generator_matrix_lookup k m Hkm) as (gen & -> & Hgen). cbn [mbind outcome_bind].
  fold sel. rewrite (omapM_total (fun idx => expect (gen !! idx)) (gen_row k))
    by (intros idx Hidx%sel_in%sel_shard; by rewrite Hgen by apply Hidx).
  cbn [mbind outcome_bind].
  rewrite (omapM_total (fun idx => ok_or (mjoin (available !! idx)) InvalidConfig) shard_of)
    by (intros idx (_ & Hs & _)%sel_in%sel_shard; by rewrite Hs).
  cbn [mbind outcome_bind].
  destruct sub_matrix_invertible as (inv & -> & [Hli Hwi] & Hinv).
  cbn [ok_or mbind outcome_bind]. apply omapM_Ok, Forall2_same_length_lookup_2.
  { by rewrite length_seq. }
  intros i i' d [-> Hi]%lookup_seq Hd. simpl.
  assert (Hrow : inv !! i = Some (row_at inv i)) by (apply row_at_lookup; lia).
  rewrite Hrow. cbn [expect mbind outcome_bind].
  apply omapM_Ok, Forall2_same_length_lookup_2; [by rewrite length_seq, (Hsize i)|].
  intros b b' x [-> Hb]%lookup_seq Hx. simpl.
  rewrite recover_byte_dot; [|by apply (Hwi i)|by rewrite length_fmap, sel_length|].
  - f_equal. apply (inj Some). rewrite <- Hx. symmetry.
    by eapply data_from_columns, Hinv.
  - intros j s. rewrite list_lookup_fmap. intros (idx & Hidx & ->)%fmap_Some.
    destruct (sel_shard idx) as (_ & _ & -> & _);
      [apply sel_in; by eapply list_elem_of_lookup_2|done].
Qed.

End decode_ok.

(** ** Properties *)

(** C1: any [k] shards suffice, on every target but those that select the GFNI
    kernel ([sound_target]; for GFNI it is false, [gfni_parity_corrupts]).
    For every number [k > 0] of data shards and [m] of parity shards with
    [k + m <= 256] and every stripe of [k] equally sized data shards, [encode] returns [m] parity shards
    whatever the scratch buffer held, and [decode] returns the data, without
    an error or a panic, from every choice of at least [k] surviving shards. *)
Theorem any_k_shards_recover t buf k m data size :
  sound_target t -> 0 < k -> k + m <= 256 -> length data = k ->
  (forall j d, data !! j = Some d -> length d = size) ->
  exists parity, encode t buf k data m = Ok parity /\ length parity = m /\
    forall available, survives available (data ++ parity) ->
      k <= present_count available -> decode available k m = Ok data.
Proof.
  intros Ht Hk Hkm Hlen Hsize. exists (parity_of k m data size). split; [by apply encode_ok|].
  split; [unfold parity_of; by rewrite length_fmap, length_seq|].
  intros available Hs Hp. by apply (decode_correct k m data size).
Qed.

Lemma any_k_shards_recover_witness :
  exists parity,
    encode OtherArch [] 2 [[x0a; x0b]; [x0c; x0d]] 1 = Ok parity /\ length parity = 1 /\
    forall available, survives available ([[x0a; x0b]; [x0c; x0d]] ++ parity) ->
      2 <= present_count available ->
      decode available 2 1 = Ok [[x0a; x0b]; [x0c; x0d]].
Proof.
  apply (any_k_shards_recover OtherArch [] 2 1 _ 2); [done|lia|lia|done|].
  intros [|[|j]] d; simpl; intros [= <-]; done.
Defined.

(** the precomputed tables are the computed matrix. For all [u8] counts
    [cauchy_matrix] with its fast path equals the run-time computation; that
    computation gives the inverses of [x_j + y_i] when [k + m <= 256], and
    panics (inverse of zero) for every larger pair. *)
Theorem precomputed_matrices_correct k m :
  k <= 255 -> m <= 255 ->
  cauchy_matrix k m = compute_cauchy_matrix k m /\
  compute_cauchy_matrix k m
    = if decide (k + m <= 256) then Ok (coefficients k m) else Panic.
Proof.
  intros Hk Hm. split; [apply const_matrix_computed|].
  case_decide as Hd; [by apply compute_cauchy_matrix_ok|].
  unfold compute_cauchy_matrix.
  replace m with ((256 - k) + S (k + m - 257)) by lia. rewrite seq_app. cbn [seq].
  apply omapM_app_panic.
  - intros i Hi%elem_of_seq. eexists. apply omapM_total. intros j Hj%elem_of_seq.
    apply gf_inv_nonzero, points_distinct; lia.
  - destruct k as [|k]; [lia|]. cbn [seq omapM].
    replace (S k + (0 + (256 - S k)) + 1) with 257 by lia. by vm_compute.
Qed.

Lemma precomputed_matrices_correct_witness :
  cauchy_matrix 10 6 = compute_cauchy_matrix 10 6 /\
  compute_cauchy_matrix 10 6 = Ok (coefficients 10 6).
Proof. exact (precomputed_matrices_correct 10 6 ltac:(lia) ltac:(lia)). Defined.

(** with fewer than [k] surviving shards [decode] reports how many are
    needed and how many it has; with a shard vector of the wrong length it
    reports an invalid configuration. It never returns data in these cases. *)
Theorem decode_rejects available k m :
  (length available <> k + m -> decode available k m = Err InvalidConfig) /\
  (length available = k + m -> present_count available < k ->
   decode available k m = Err (NotEnoughShards k (present_count available))).
Proof.
  unfold decode. split.
  - intros H. by rewrite bool_decide_false.
  - intros H Hp. rewrite bool_decide_true by done. cbn [negb]. rewrite <- H.
    fold (present_indices available). rewrite present_indices_length.
    by rewrite bool_decide_true.
Qed.

(** The stripe of the GFNI witness: four shards of 64 equal bytes. *)
Definition gfni_stripe : list bytes := (fun b => replicate 64 b) <$> [x61; x62; x63; x64].

Definition gfni_cpu : cpu :=
  {| has_gfni := true; has_avx512f := true; has_avx512bw := true;
     has_avx2 := true; has_sse41 := true |}.

(** What [encode] and [decode] return on it. *)
Definition gfni_parity : list bytes :=
  Eval vm_compute in
    match encode (X86_64 gfni_cpu) [] 4 gfni_stripe 2 with Ok p => p | _ => [] end.

Definition gfni_recovered : list bytes :=
  Eval vm_compute in
    match decode (None :: (Some <$> (drop 1 gfni_stripe ++ gfni_parity))) 4 2 with
    | Ok d => d | _ => [] end.

(** on a GFNI CPU the code loses data. The parity that [encode] computes
    with [VGF2P8MULB] is parity over another field than the one [decode] uses,
    so recovering a lost data shard returns success with wrong bytes. *)
Theorem gfni_parity_corrupts c :
  detect c = Gfni ->
  encode (X86_64 c) [] 4 gfni_stripe 2 = Ok gfni_parity /\
  decode (None :: (Some <$> (drop 1 gfni_stripe ++ gfni_parity))) 4 2 = Ok gfni_recovered /\
  gfni_recovered <> gfni_stripe.
Proof.
  intros Hc. split; [|split].
  - destruct c as [[] [] [] [] []]; (discriminate Hc || (vm_compute; reflexivity)).
  - vm_compute. reflexivity.
  - apply (bool_decide_eq_false_1 (gfni_recovered = gfni_stripe)). vm_compute. reflexivity.
Qed.

Lemma gfni_parity_corrupts_witness :
  encode (X86_64 gfni_cpu) [] 4 gfni_stripe 2 = Ok gfni_parity /\
  decode (None :: (Some <$> (drop 1 gfni_stripe ++ gfni_parity))) 4 2 = Ok gfni_recovered /\
  gfni_recovered <> gfni_stripe.
Proof. exact (gfni_parity_corrupts gfni_cpu eq_refl). Defined.
