(* ===== verification/Stripe.v ===== *)
(** * Stripe layout and segment-level coding
    (crates/oceanfs-ec/src/traits.rs, stripe/layout.rs, stripe/batch.rs,
    stripe/parallel.rs and [EncodingPlan] of crates/oceanfs-core/src/types/codec.rs)

    The codec traits as type classes, the encoding plan, and the encoder and
    decoder of whole segments, which are generic in the codec. Arithmetic is
    that of the release profile, which wraps. *)

From Stdlib Require Import ZArith Lia Strings.Byte.
From S2P Require Import Prelude Gf GfSimd Linalg Cauchy GaussJordan CauchyCodec.

Local Open Scope nat_scope.

(** ** The codec traits *)

Class Encoder (T : Type) := {
  enc : T -> list bytes -> nat -> outcome ec_error (list bytes) }.

Class Decoder (T : Type) := {
  dec : T -> list (option bytes) -> nat -> nat -> outcome ec_error (list bytes) }.

(** [CauchyEncoder]: the shard counts, and what its code depends on besides: the
    target it was built for and the thread's scratch buffer. *)
Record CauchyEncoder := { ce_k : nat; ce_m : nat; ce_target : target; ce_buf : bytes }.

#[export] Instance cauchy_encoder : Encoder CauchyEncoder := {
  enc c := encode (ce_target c) (ce_buf c) (ce_k c) }.

#[export] Instance cauchy_decoder : Decoder CauchyEncoder := {
  dec _ := decode }.

(** What a codec promises for [k] data and [m] parity shards. *)
Class CodecLaw (T : Type) `{Encoder T, Decoder T} (codec : T) (k m : nat) : Prop := {
  codec_recovers : forall data size,
    length data = k -> (forall j d, data !! j = Some d -> length d = size) ->
    exists parity, enc codec data m = Ok parity /\ length parity = m /\
      (forall i p, parity !! i = Some p -> length p = size) /\
      forall available, survives available (data ++ parity) ->
        k <= present_count available -> dec codec available k m = Ok data }.

#[export] Instance cauchy_law c m :
  sound_target (ce_target c) -> 0 < ce_k c -> ce_k c + m <= 256 ->
  CodecLaw CauchyEncoder c (ce_k c) m.
Proof.
  intros Ht Hk Hkm. split. intros data size Hlen Hsize.
  exists (parity_of (ce_k c) m data size). split; [by apply encode_ok|].
  split; [unfold parity_of; by rewrite length_fmap, length_seq|]. split.
  - intros i p. unfold parity_of. rewrite list_lookup_fmap.
    intros (j & _ & ->)%fmap_Some. apply length_combine_shards.
  - intros available Hs Hp. by apply (decode_correct (ce_k c) m data size).
Qed.

(** ** Encoding plan *)

Record EncodingPlan := {
  stripe_count : nat; padded_size : Z; shard_size : nat;
  data_shards : nat; parity_shards : nat }.

(** [a.div_ceil(b)]; the standard library panics for [b = 0]. *)
Definition div_ceil_u64 (a b : Z) : outcome ec_error Z :=
  if (b =? 0)%Z then Panic
  else Ok (a / b + if (a mod b =? 0)%Z then 0 else 1)%Z.

(** [StripeLayout::compute]. *)
Definition compute (segment_size : Z) (k m strip_size : nat) : outcome ec_error EncodingPlan :=
  if bool_decide (k = 0) then Err InvalidConfig
  else if bool_decide (strip_size = 0) then Err InvalidConfig
  else if (segment_size =? 0)%Z then Err InvalidConfig
  else
    let stripe_data_size := wrap64 (Z.of_nat k * Z.of_nat strip_size) in
    count ← div_ceil_u64 segment_size stripe_data_size;
    Ok {| stripe_count := Z.to_nat count;
          padded_size := wrap64 (count * stripe_data_size);
          shard_size := strip_size; data_shards := k; parity_shards := m |}.

(** ** Segment encoder *)

Record StripeBatch := { batch_data : list bytes; batch_parity : list bytes }.

(** [buf[off..off + src.len()].copy_from_slice(src)]. *)
Definition copy_range {E} (buf : bytes) (off : nat) (src : bytes) : outcome E bytes :=
  if bool_decide (off + length src <= length buf)
  then Ok (take off buf ++ src ++ drop (off + length src) buf) else Panic.

(** The same inside the [i]-th buffer of a vector. *)
Definition copy_in {E} (bufs : list bytes) (i off : nat) (src : bytes) :
    outcome E (list bytes) :=
  b ← expect (bufs !! i);
  b ← copy_range b off src;
  Ok (<[i := b]> bufs).

(** One [(stripe_idx, shard_idx)] turn of the interleaving loops. *)
Definition interleave_step (segment : bytes) (k sz stripe_idx : nat)
    (shards : list bytes) (shard_idx : nat) : outcome ec_error (list bytes) :=
  let src_offset := stripe_idx * (k * sz) + shard_idx * sz in
  let dst_offset := stripe_idx * sz in
  if bool_decide (src_offset < length segment) then
    let available := length segment - src_offset in
    let copy_len := Nat.min available sz in
    src ← slice segment src_offset (src_offset + copy_len);
    copy_in shards shard_idx dst_offset src
  else Ok shards.

Definition interleave (segment : bytes) (k sz total : nat) : outcome ec_error (list bytes) :=
  for_range 0 total (fun shards stripe_idx =>
    for_range 0 k (interleave_step segment k sz stripe_idx) shards)
    (replicate k (replicate (total * sz) x00)).

(** Copies the shards of one stripe to their buffers:
    [for (p_idx, p_data) in parity.iter().enumerate()]. *)
Definition place_stripe (sz stripe_idx : nat) (bufs : list bytes) (pieces : list bytes) :
    outcome ec_error (list bytes) :=
  for_range 0 (length pieces) (fun bufs p_idx =>
    p ← expect (pieces !! p_idx);
    copy_in bufs p_idx (stripe_idx * sz) p) bufs.

(** [(0..n).into_par_iter().map(f).collect()]: the results in order; a panic of
    any of them is a panic of the whole. *)
Definition par_collect {E A B} (f : A -> outcome E B) (l : list A) :
    outcome E (list (outcome E B)) :=
  omapM (fun a => match f a with Panic => Panic | r => Ok r end) l.

(** [ParallelEncoder::encode]: all stripes are encoded, then the first error is
    returned or the parity copied out. *)
Definition parallel_encode {T} `{Encoder T} (codec : T) (segment : bytes) (plan : EncodingPlan) :
    outcome ec_error StripeBatch :=
  let k := data_shards plan in
  let m := parity_shards plan in
  let total := stripe_count plan in
  let sz := shard_size plan in
  data ← interleave segment k sz total;
  results ← par_collect (fun stripe_idx =>
    stripe_data ← omapM (fun shard => slice shard (stripe_idx * sz) ((stripe_idx + 1) * sz)) data;
    enc codec stripe_data m) (seq 0 total);
  parity ← for_range 0 (length results) (fun bufs stripe_idx =>
    result ← expect (results !! stripe_idx);
    parity ← result;
    place_stripe sz stripe_idx bufs parity) (replicate m (replicate (total * sz) x00));
  Ok {| batch_data := data; batch_parity := parity |}.

(** ** Segment decoder *)

(** [if offset < buf.len() { Some(&buf[offset..end.min(buf.len())]) }]. *)
Definition stripe_slice (buf : bytes) (offset sz : nat) : option bytes :=
  if bool_decide (offset < length buf)
  then Some (take (Nat.min (offset + sz) (length buf) - offset) (drop offset buf)) else None.

(** The shard vector of one stripe, [vec![None; (k + m) as usize]] filled in. *)
Definition gather_stripe (available : StripeBatch) (missing : list nat) (k m sz stripe_idx : nat) :
    outcome ec_error (list (option bytes)) :=
  let offset := stripe_idx * sz in
  let set_slot shards i v :=
    if bool_decide (i < length shards) then Ok (<[i := v]> shards) else Panic in
  shards ← for_range 0 k (fun shards i =>
    if bool_decide (i ∈ missing) then Ok shards
    else
      b ← expect (batch_data available !! i);
      match stripe_slice b offset sz with
      | Some s => set_slot shards i (Some s)
      | None => Ok shards
      end) (replicate ((k + m) mod 256) None);
  for_range 0 m (fun shards i =>
    b ← expect (batch_parity available !! i);
    match stripe_slice b offset sz with
    | Some s => set_slot shards (k + i) (Some s)
    | None => Ok shards
    end) shards.

(** Copies the recovered shards of one stripe, cut to the shard size. *)
Definition place_recovered (sz stripe_idx : nat) (bufs : list bytes) (pieces : list bytes) :
    outcome ec_error (list bytes) :=
  for_range 0 (length pieces) (fun bufs d_idx =>
    d ← expect (pieces !! d_idx);
    let offset := stripe_idx * sz in
    let len := Nat.min (length d) sz in
    b ← expect (bufs !! d_idx);
    if bool_decide (offset + len <= length b)
    then copy_in bufs d_idx offset (take len d) else Ok bufs) bufs.

(** [ParallelDecoder::decode]. *)
Definition parallel_decode {T} `{Decoder T} (codec : T) (available : StripeBatch)
    (plan : EncodingPlan) (missing : list nat) : outcome ec_error (list bytes) :=
  let k := length (batch_data available) mod 256 in
  let m := length (batch_parity available) mod 256 in
  let total := stripe_count plan in
  let sz := shard_size plan in
  results ← par_collect (fun stripe_idx =>
    shards ← gather_stripe available missing k m sz stripe_idx;
    dec codec shards k m) (seq 0 total);
  for_range 0 (length results) (fun bufs stripe_idx =>
    result ← expect (results !! stripe_idx);
    decoded ← result;
    place_recovered sz stripe_idx bufs decoded) (replicate k (replicate (total * sz) x00)).

Lemma par_collect_total {E A B} (f : A -> outcome E B) (g : A -> B) (l : list A) :
  (forall a, a ∈ l -> f a = Ok (g a)) -> par_collect f l = Ok ((fun a => Ok (g a)) <$> l).
Proof. intros Hf. apply omapM_total. intros a Ha. by rewrite Hf. Qed.

(** ** Buffers that fill up stripe by stripe *)

Section buffers.
Context (total sz n : nat) (piece : nat -> nat -> bytes).
Hypothesis Hpiece : forall x s, length (piece x s) = sz.

(** Buffer [x] once its first [s] stripes are written. *)
Definition upto (x s : nat) : bytes :=
  concat (piece x <$> seq 0 s) ++ replicate ((total - s) * sz) x00.

(** All [n] buffers, while stripe [s] is being written and [j] of them have it. *)
Definition bufs_at (s j : nat) : list bytes :=
  (fun x => upto x (if decide (x < j) then S s else s)) <$> seq 0 n.

Lemma upto_concat x s : concat (piece x <$> seq 0 (S s)) = concat (piece x <$> seq 0 s) ++ piece x s.
Proof. rewrite seq_S, fmap_app, concat_app. simpl. by rewrite app_nil_r. Qed.

Lemma length_upto_prefix x s : length (concat (piece x <$> seq 0 s)) = s * sz.
Proof. by apply concat_chunks_length. Qed.

Lemma copy_range_stripe {E} x s src :
  s < total -> piece x s = src ++ replicate (sz - length src) x00 ->
  copy_range (E:=E) (upto x s) (s * sz) src = Ok (upto x (S s)).
Proof.
  intros Hs Hp. assert (Hsrc : length src <= sz).
  { rewrite <- (Hpiece x s), Hp, length_app. lia. }
  unfold copy_range, upto. pose proof (length_upto_prefix x s) as Hl.
  assert ((total - s) * sz = sz + (total - S s) * sz) as Ht by nia.
  rewrite Ht. generalize ((total - S s) * sz); intros rest.
  rewrite bool_decide_true by (rewrite length_app, length_replicate, Hl; lia). f_equal.
  rewrite take_app_length' by done. rewrite upto_concat, <- app_assoc. f_equal.
  rewrite Hp, <- app_assoc. f_equal.
  rewrite drop_app_ge by lia. rewrite Hl, drop_replicate, <- replicate_add. f_equal. lia.
Qed.

Lemma upto_skip x s :
  s < total -> piece x s = replicate sz x00 -> upto x (S s) = upto x s.
Proof.
  intros Hs Hp. unfold upto. rewrite upto_concat, Hp, <- app_assoc, <- replicate_add.
  do 2 f_equal. nia.
Qed.

Lemma bufs_at_lookup s j x : x < n ->
  bufs_at s j !! x = Some (upto x (if decide (x < j) then S s else s)).
Proof. intros Hx. unfold bufs_at. by rewrite list_lookup_fmap, lookup_seq_lt. Qed.

Lemma bufs_at_update s j :
  j < n -> <[j := upto j (S s)]> (bufs_at s j) = bufs_at s (S j).
Proof.
  intros Hj. apply list_eq. intros x. destruct (decide (x < n)) as [Hx|Hx].
  - destruct (decide (x = j)) as [->|Hne].
    + rewrite list_lookup_insert_eq by (unfold bufs_at; by rewrite length_fmap, length_seq).
      rewrite bufs_at_lookup by done. by rewrite decide_True by lia.
    + rewrite list_lookup_insert_ne, !bufs_at_lookup by done. repeat case_decide; done || lia.
  - rewrite !(proj2 (lookup_ge_None _ x)); [done| |];
      rewrite ?length_insert; unfold bufs_at; rewrite length_fmap, length_seq; lia.
Qed.

Lemma copy_in_step {E} s j src :
  s < total -> j < n -> piece j s = src ++ replicate (sz - length src) x00 ->
  copy_in (E:=E) (bufs_at s j) j (s * sz) src = Ok (bufs_at s (S j)).
Proof.
  intros Hs Hj Hp. unfold copy_in. rewrite bufs_at_lookup by done.
  rewrite decide_False by lia. cbn [expect mbind outcome_bind].
  rewrite copy_range_stripe by done. cbn [mbind outcome_bind]. by rewrite bufs_at_update.
Qed.

Lemma skip_step s j :
  s < total -> j < n -> piece j s = replicate sz x00 -> bufs_at s j = bufs_at s (S j).
Proof.
  intros Hs Hj Hp. rewrite <- bufs_at_update, upto_skip by done. symmetry.
  apply list_insert_id. rewrite bufs_at_lookup by done. by rewrite decide_False by lia.
Qed.

Lemma bufs_at_next s : bufs_at s n = bufs_at (S s) 0.
Proof.
  unfold bufs_at. apply list_fmap_ext. intros i x [-> Hx]%lookup_seq.
  rewrite decide_True, decide_False by lia. done.
Qed.

Lemma bufs_at_start : replicate n (replicate (total * sz) x00) = bufs_at 0 0.
Proof.
  apply list_eq. intros x. destruct (decide (x < n)).
  - rewrite bufs_at_lookup, lookup_replicate_2 by done. unfold upto. simpl.
    by rewrite Nat.sub_0_r.
  - rewrite !(proj2 (lookup_ge_None _ x)); [done| |];
      unfold bufs_at; rewrite ?length_fmap, ?length_seq, ?length_replicate; lia.
Qed.

Lemma bufs_at_full : bufs_at total 0 = (fun x => concat (piece x <$> seq 0 total)) <$> seq 0 n.
Proof.
  unfold bufs_at. apply list_fmap_ext. intros i x _. rewrite decide_False by lia.
  unfold upto. rewrite Nat.sub_diag. by rewrite app_nil_r.
Qed.

(** A loop over the stripes whose body writes stripe [s] into every buffer. *)
Lemma stripe_loop {E} (body : list bytes -> nat -> outcome E (list bytes)) :
  (forall s, s < total -> body (bufs_at s 0) s = Ok (bufs_at s n)) ->
  for_range 0 total body (replicate n (replicate (total * sz) x00))
    = Ok ((fun x => concat (piece x <$> seq 0 total)) <$> seq 0 n).
Proof.
  intros Hbody. rewrite bufs_at_start, <- bufs_at_full.
  apply (for_range_eq (fun s => bufs_at s 0)); [lia|].
  intros s Hs. rewrite Hbody by lia. by rewrite bufs_at_next.
Qed.

End buffers.

(** ** Interleaving *)

(** The [sz] bytes of the segment from [off], zero-padded past its end. *)
Definition chunk (segment : bytes) (sz off : nat) : bytes :=
  let src := take sz (drop off segment) in src ++ replicate (sz - length src) x00.

(** Stripe [s] of data shard [x]. *)
Definition data_piece (segment : bytes) (k sz x s : nat) : bytes :=
  chunk segment sz (s * (k * sz) + x * sz).

Lemma length_chunk segment sz off : length (chunk segment sz off) = sz.
Proof. unfold chunk. rewrite length_app, length_replicate, length_take. lia. Qed.

Lemma chunk_past_end segment sz off :
  length segment <= off -> chunk segment sz off = replicate sz x00.
Proof.
  intros H. unfold chunk. rewrite drop_ge by done. rewrite take_nil. simpl. by rewrite Nat.sub_0_r.
Qed.

Lemma interleave_step_ok segment k sz total s j :
  s < total -> j < k ->
  interleave_step segment k sz s (bufs_at total sz k (data_piece segment k sz) s j) j
    = Ok (bufs_at total sz k (data_piece segment k sz) s (S j)).
Proof.
  intros Hs Hj. unfold interleave_step. case_bool_decide as Hsrc.
  - rewrite slice_ok by lia. cbn [mbind outcome_bind].
    apply copy_in_step; try done; [by intros; apply length_chunk|].
    unfold data_piece, chunk. set (off := s * (k * sz) + j * sz) in *.
    replace (off + _ - off) with (Nat.min sz (length segment - off)) by lia.
    assert (take (Nat.min sz (length segment - off)) (drop off segment)
              = take sz (drop off segment)) as ->; [|done].
    rewrite <- take_take. f_equal. apply take_ge. by rewrite length_drop.
  - f_equal. apply skip_step; try done. apply chunk_past_end. lia.
Qed.

Lemma interleave_ok segment k sz total :
  interleave segment k sz total
    = Ok ((fun x => concat (data_piece segment k sz x <$> seq 0 total)) <$> seq 0 k).
Proof.
  unfold interleave. apply (stripe_loop total sz k (data_piece segment k sz)).
  intros s Hs. apply (for_range_eq (bufs_at total sz k (data_piece segment k sz) s)); [lia|].
  intros j Hj. apply interleave_step_ok; lia.
Qed.

Lemma stripe_of_shard (piece : nat -> bytes) sz total s :
  (forall s, length (piece s) = sz) -> s < total ->
  take sz (drop (s * sz) (concat (piece <$> seq 0 total))) = piece s.
Proof.
  intros Hp Hs. replace total with (s + S (total - S s)) by lia.
  rewrite seq_app, fmap_app, concat_app. cbn [seq fmap list_fmap concat].
  rewrite drop_app_length' by (symmetry; by apply concat_chunks_length).
  simpl. by rewrite take_app_length'.
Qed.

(** ** Whole segments *)

Section parallel.
Context {T : Type} `{!Encoder T, !Decoder T} (codec : T) (k m sz total : nat) (segment : bytes).
Context `{Hlaw : !CodecLaw T codec k m}.
Hypothesis Hsz : 0 < sz.
Hypothesis Hkm : k + m < 256.

Let dpiece : nat -> nat -> bytes := data_piece segment k sz.
Let stripe (s : nat) : list bytes := (fun x => dpiece x s) <$> seq 0 k.
Let parity (s : nat) : list bytes := match enc codec (stripe s) m with Ok p => p | _ => [] end.
Let ppiece (x s : nat) : bytes :=
  if decide (x < m) then default [] (parity s !! x) else replicate sz x00.
Let plan (padded : Z) : EncodingPlan :=
  {| stripe_count := total; padded_size := padded; shard_size := sz;
     data_shards := k; parity_shards := m |}.

Lemma dpiece_length x s : length (dpiece x s) = sz.
Proof. apply length_chunk. Qed.

Lemma stripe_law s :
  enc codec (stripe s) m = Ok (parity s) /\ length (parity s) = m /\
  (forall x, length (ppiece x s) = sz) /\
  parity s = (fun x => ppiece x s) <$> seq 0 m /\
  forall available, survives available (stripe s ++ parity s) ->
    k <= present_count available -> dec codec available k m = Ok (stripe s).
Proof.
  destruct (codec_recovers (codec:=codec) (stripe s) sz) as (p & Hp & Hlen & Hsize & Hrec).
  { unfold stripe. by rewrite length_fmap, length_seq. }
  { intros j d. unfold stripe. rewrite list_lookup_fmap.
    intros (x & _ & ->)%fmap_Some. apply dpiece_length. }
  assert (Hpar : parity s = p) by (unfold parity; by rewrite Hp).
  rewrite Hpar. split; [done|]. split; [done|]. split; [|split; [|done]].
  - intros x. unfold ppiece. case_decide; [|by rewrite length_replicate].
    rewrite Hpar. destruct (lookup_lt_is_Some_2 p x) as [d Hd]; [lia|]. rewrite Hd. simpl. eauto.
  - apply list_eq. intros x. rewrite list_lookup_fmap. destruct (decide (x < m)) as [Hx|Hx].
    + rewrite lookup_seq_lt by done. simpl. unfold ppiece. rewrite decide_True, Hpar by done.
      by destruct (lookup_lt_is_Some_2 p x) as [d ->]; [lia|].
    + rewrite !(proj2 (lookup_ge_None _ x)); [done| |]; rewrite ?length_seq; lia.
Qed.

Let encoded : StripeBatch :=
  {| batch_data := (fun x => concat (dpiece x <$> seq 0 total)) <$> seq 0 k;
     batch_parity := (fun x => concat (ppiece x <$> seq 0 total)) <$> seq 0 m |}.

Lemma place_stripe_ok n piece s pieces :
  (forall x s, length (piece x s) = sz) -> s < total ->
  pieces = (fun x => piece x s) <$> seq 0 n ->
  place_stripe sz s (bufs_at total sz n piece s 0) pieces = Ok (bufs_at total sz n piece s n).
Proof.
  intros Hp Hs ->. unfold place_stripe. rewrite length_fmap, length_seq.
  apply (for_range_eq (bufs_at total sz n piece s)); [lia|]. intros j Hj.
  rewrite list_lookup_fmap, lookup_seq_lt by lia. cbn [fmap option_fmap option_map expect mbind outcome_bind].
  apply copy_in_step; try done; [lia|]. simpl. by rewrite Hp, Nat.sub_diag, app_nil_r.
Qed.

Lemma place_recovered_ok n piece s pieces :
  (forall x s, length (piece x s) = sz) -> s < total ->
  pieces = (fun x => piece x s) <$> seq 0 n ->
  place_recovered sz s (bufs_at total sz n piece s 0) pieces = Ok (bufs_at total sz n piece s n).
Proof.
  intros Hp Hs ->. unfold place_recovered. rewrite length_fmap, length_seq.
  apply (for_range_eq (bufs_at total sz n piece s)); [lia|]. intros j Hj.
  rewrite list_lookup_fmap, lookup_seq_lt by lia. cbn [fmap option_fmap option_map expect mbind outcome_bind].
  rewrite bufs_at_lookup by lia. rewrite decide_False by lia. cbn [expect mbind outcome_bind].
  rewrite !Hp, Nat.min_id, take_ge by (by rewrite Hp). rewrite bool_decide_true.
  - apply copy_in_step; try done; [lia|]. simpl. by rewrite Hp, Nat.sub_diag, app_nil_r.
  - unfold upto. rewrite length_app, (length_upto_prefix sz piece Hp), length_replicate. nia.
Qed.

Lemma parallel_encode_ok padded : parallel_encode codec segment (plan padded) = Ok encoded.
Proof.
  unfold parallel_encode. simpl. rewrite interleave_ok. cbn [mbind outcome_bind].
  rewrite (par_collect_total _ parity).
  - cbn [mbind outcome_bind]. rewrite length_fmap, length_seq.
    rewrite (stripe_loop total sz m ppiece).
    + done.
    + intros s Hs. rewrite list_lookup_fmap, lookup_seq_lt by done.
      cbn [fmap option_fmap option_map expect mbind outcome_bind].
      destruct (stripe_law s) as (_ & _ & _ & Hpar & _).
      apply place_stripe_ok; [|done|done]. intros x s'. by apply stripe_law.
  - intros s Hs%elem_of_seq. rewrite (omapM_total _ (fun shard => take sz (drop (s * sz) shard))).
    + cbn [mbind outcome_bind]. rewrite <- list_fmap_compose.
      destruct (stripe_law s) as (Henc & _). rewrite <- Henc. f_equal.
      apply list_fmap_ext. intros i x _. apply stripe_of_shard; [apply dpiece_length|lia].
    + intros shard (x & -> & Hx)%list_elem_of_fmap. rewrite slice_ok.
      * do 2 f_equal. nia.
      * rewrite (concat_chunks_length _ sz) by apply dpiece_length. nia.
Qed.

(** *** Decoding *)

Context (available : StripeBatch) (missing : list nat).
Hypothesis Hdata_len : length (batch_data available) = k.
Hypothesis Hparity : batch_parity available = batch_parity encoded.
Hypothesis Hintact : forall i, i < k -> i ∉ missing ->
  batch_data available !! i = batch_data encoded !! i.
Hypothesis Hmissing : length (filter (fun i => i ∈ missing) (seq 0 k)) <= m.

Let slot (s i : nat) : option bytes := if decide (i ∈ missing) then None else Some (dpiece i s).

Lemma stripe_slice_ok (piece : nat -> bytes) s :
  (forall s, length (piece s) = sz) -> s < total ->
  stripe_slice (concat (piece <$> seq 0 total)) (s * sz) sz = Some (piece s).
Proof.
  intros Hp Hs. unfold stripe_slice. rewrite (concat_chunks_length _ sz) by done.
  rewrite bool_decide_true by nia. f_equal.
  replace (Nat.min (s * sz + sz) (total * sz) - s * sz) with sz by nia.
  by apply stripe_of_shard.
Qed.

Lemma set_slot {A} (l : list (option A)) n r v :
  length l = n -> 0 < r ->
  (if bool_decide (n < length (l ++ replicate r None)) then Ok (<[n := v]> (l ++ replicate r None))
   else Panic) = Ok (E:=ec_error) ((l ++ [v]) ++ replicate (r - 1) None).
Proof.
  intros <- Hr. rewrite length_app, length_replicate, bool_decide_true by lia. f_equal.
  rewrite insert_app_r_alt, Nat.sub_diag, <- app_assoc by done. f_equal.
  by destruct r as [|r]; [lia|]; simpl; rewrite Nat.sub_0_r.
Qed.

Lemma gather_stripe_ok s :
  s < total ->
  gather_stripe available missing k m sz s
    = Ok ((slot s <$> seq 0 k) ++ ((fun i => Some (ppiece i s)) <$> seq 0 m)).
Proof.
  intros Hs. unfold gather_stripe. rewrite (Nat.mod_small (k + m)) by done.
  set (g := fun j => (slot s <$> seq 0 j) ++ replicate (k + m - j) None).
  set (g' := fun j => ((slot s <$> seq 0 k) ++ ((fun i => Some (ppiece i s)) <$> seq 0 j))
                        ++ replicate (m - j) None).
  assert (replicate (k + m) None = g 0) as -> by (unfold g; simpl; by rewrite Nat.sub_0_r).
  rewrite (for_range_eq g 0 k).
  - cbn [mbind outcome_bind].
    assert (g k = g' 0) as ->
      by (unfold g, g'; simpl; rewrite app_nil_r, Nat.sub_0_r; do 2 f_equal; lia).
    rewrite (for_range_eq g' 0 m); unfold g'.
    + by rewrite Nat.sub_diag, app_nil_r.
    + lia.
    + intros j Hj. rewrite seq_S, fmap_app, Hparity. unfold encoded. cbn [batch_parity].
      rewrite list_lookup_fmap, lookup_seq_lt by lia.
      cbn [fmap option_fmap option_map expect mbind outcome_bind]. rewrite Nat.add_0_l.
      rewrite stripe_slice_ok by (done || (intros; by apply stripe_law)).
      rewrite set_slot by (rewrite ?length_app, ?length_fmap, ?length_seq; lia).
      do 2 f_equal; [|f_equal; lia]. by rewrite app_assoc.
  - lia.
  - intros j Hj. unfold g. rewrite seq_S, fmap_app. cbn [fmap list_fmap]. rewrite Nat.add_0_l.
    case_bool_decide as Hin.
    + assert (slot s j = None) as -> by (unfold slot; by rewrite decide_True).
      rewrite <- app_assoc. do 2 f_equal. by replace (k + m - j) with (S (k + m - S j)) by lia.
    + assert (slot s j = Some (dpiece j s)) as -> by (unfold slot; by rewrite decide_False).
      rewrite Hintact by (done || lia). unfold encoded. cbn [batch_data].
      rewrite list_lookup_fmap, lookup_seq_lt by lia.
      cbn [fmap option_fmap option_map expect mbind outcome_bind]. rewrite Nat.add_0_l.
      rewrite stripe_slice_ok by (done || apply dpiece_length).
      rewrite set_slot by (rewrite ?length_fmap, ?length_seq; lia).
      do 2 f_equal. f_equal. lia.
Qed.

Lemma gathered_survives s :
  survives ((slot s <$> seq 0 k) ++ ((fun i => Some (ppiece i s)) <$> seq 0 m))
           (stripe s ++ parity s).
Proof.
  unfold survives. apply Forall2_app.
  - unfold stripe. apply Forall2_fmap, Forall2_same_length_lookup_2; [done|].
    intros i x y Hx Hy. simplify_eq. unfold slot. case_decide; by intros s' [= <-].
  - destruct (stripe_law s) as (_ & _ & _ & Hpar & _).
    rewrite Hpar. apply Forall2_fmap, Forall2_same_length_lookup_2; [done|].
    intros i x y Hx Hy. simplify_eq. by intros s' [= <-].
Qed.

Lemma gathered_present s :
  k <= present_count ((slot s <$> seq 0 k) ++ ((fun i => Some (ppiece i s)) <$> seq 0 m)).
Proof.
  unfold present_count. rewrite filter_app, length_app.
  assert (Hpar : length (filter is_Some ((fun i => Some (ppiece i s)) <$> seq 0 m)) = m).
  { rewrite filter_true_in; [by rewrite length_fmap, length_seq|].
    intros o (i & -> & _)%list_elem_of_fmap. done. }
  assert (Hdat : forall l : list nat, length (filter is_Some (slot s <$> l))
                   = length (filter (fun i => ~ i ∈ missing) l)).
  { induction l as [|i l IH]; [done|]. rewrite fmap_cons.
    destruct (decide (i ∈ missing)) as [Hi|Hi].
    - assert (slot s i = None) as -> by (unfold slot; by rewrite decide_True).
      rewrite filter_cons_False by (by intros [? ?]). by rewrite filter_cons_False by tauto.
    - assert (slot s i = Some (dpiece i s)) as -> by (unfold slot; by rewrite decide_False).
      rewrite filter_cons_True by eauto. rewrite filter_cons_True by done. simpl. by rewrite IH. }
  rewrite Hpar, Hdat. pose proof (filter_complement_length (fun i => i ∈ missing) (seq 0 k)) as Hc.
  rewrite length_seq in Hc. lia.
Qed.

Lemma parallel_decode_ok padded :
  parallel_decode codec available (plan padded) missing = Ok (batch_data encoded).
Proof.
  unfold parallel_decode. rewrite Hdata_len, Hparity. unfold encoded, plan.
  cbn [batch_data batch_parity stripe_count shard_size].
  rewrite length_fmap, length_seq, !Nat.mod_small by lia.
  rewrite (par_collect_total _ stripe).
  - cbn [mbind outcome_bind]. rewrite length_fmap, length_seq.
    apply (stripe_loop total sz k dpiece). intros s Hs.
    rewrite list_lookup_fmap, lookup_seq_lt by done.
    cbn [fmap option_fmap option_map expect mbind outcome_bind].
    apply place_recovered_ok; [apply dpiece_length|done|done].
  - intros s Hs%elem_of_seq. rewrite gather_stripe_ok by lia. cbn [mbind outcome_bind].
    destruct (stripe_law s) as (_ & _ & _ & _ & Hrec).
    apply Hrec; [apply gathered_survives|apply gathered_present].
Qed.

End parallel.

(** ** Reading the segment back *)

(** The segment bytes of the data shards: stripe by stripe, shard by shard. *)
Definition reassemble (shards : list bytes) (sz total : nat) : bytes :=
  concat ((fun s => concat ((fun shard => take sz (drop (s * sz) shard)) <$> shards))
            <$> seq 0 total).

Lemma concat_rows (f : nat -> bytes) k total :
  concat ((fun s => concat ((fun x => f (s * k + x)) <$> seq 0 k)) <$> seq 0 total)
    = concat (f <$> seq 0 (total * k)).
Proof.
  induction total as [|total IH]; [done|].
  rewrite seq_S, fmap_app, concat_app, IH. cbn [fmap list_fmap concat]. rewrite app_nil_r.
  replace (S total * k) with (total * k + k) by lia. rewrite seq_app, fmap_app, concat_app.
  f_equal. rewrite !Nat.add_0_l.
  replace (seq (total * k) k) with (Nat.add (total * k) <$> seq 0 k)
    by (rewrite fmap_add_seq; f_equal; lia).
  by rewrite <- list_fmap_compose.
Qed.

Lemma chunk_lookup segment sz off i :
  i < sz -> chunk segment sz off !! i
            = Some (if decide (off + i < length segment) then default x00 (segment !! (off + i)) else x00).
Proof.
  intros Hi. unfold chunk. case_decide as Ho.
  - rewrite lookup_app_l, lookup_take_lt, lookup_drop by (rewrite ?length_take, ?length_drop; lia).
    by destruct (lookup_lt_is_Some_2 segment (off + i)) as [b ->].
  - rewrite lookup_app_r by (rewrite length_take, length_drop; lia).
    apply lookup_replicate_2. rewrite length_take, length_drop. lia.
Qed.

Lemma chunks_cover segment sz n :
  0 < sz -> length segment <= n * sz ->
  concat ((fun i => chunk segment sz (i * sz)) <$> seq 0 n)
    = segment ++ replicate (n * sz - length segment) x00.
Proof.
  intros Hsz Hlen. apply list_eq. intros i. destruct (decide (i < n * sz)) as [Hi|Hi].
  - rewrite (concat_chunks_lookup _ sz) by (done || (intros; apply length_chunk)).
    rewrite chunk_lookup by (apply Nat.mod_upper_bound; lia). simpl.
    replace (i / sz * sz + i mod sz) with i by (pose proof (Nat.div_mod_eq i sz); lia).
    case_decide.
    + rewrite lookup_app_l by done. by destruct (lookup_lt_is_Some_2 segment i) as [b ->].
    + rewrite lookup_app_r by lia. symmetry. apply lookup_replicate_2. lia.
  - rewrite !(proj2 (lookup_ge_None _ i)); [done| |].
    + rewrite length_app, length_replicate. lia.
    + rewrite (concat_chunks_length _ sz) by (intros; apply length_chunk). lia.
Qed.

Lemma reassemble_data segment k sz total :
  0 < sz -> length segment <= total * k * sz ->
  reassemble ((fun x => concat (data_piece segment k sz x <$> seq 0 total)) <$> seq 0 k) sz total
    = segment ++ replicate (total * k * sz - length segment) x00.
Proof.
  intros Hsz Hlen. rewrite <- chunks_cover by done. rewrite <- concat_rows.
  unfold reassemble. f_equal. apply list_fmap_ext. intros i s [-> Hs]%lookup_seq.
  rewrite <- list_fmap_compose. f_equal. apply list_fmap_ext. intros j x _. simpl.
  rewrite stripe_of_shard by (done || (intros; apply length_chunk)).
  unfold data_piece. f_equal. lia.
Qed.

(** ** Properties *)

Local Open Scope Z_scope.

Lemma compute_ok segment_size k m strip_size :
  (0 < k)%nat -> (0 < strip_size)%nat -> 0 < segment_size ->
  segment_size + Z.of_nat k * Z.of_nat strip_size <= u64_max ->
  exists plan, compute segment_size k m strip_size = Ok plan /\
    padded_size plan = Z.of_nat (stripe_count plan * k * strip_size) /\
    segment_size <= padded_size plan < segment_size + Z.of_nat (k * strip_size) /\
    shard_size plan = strip_size /\ data_shards plan = k /\ parity_shards plan = m.
Proof.
  intros Hk Hs Hseg Hmax. unfold compute.
  rewrite !bool_decide_false, (proj2 (Z.eqb_neq segment_size 0)) by lia.
  set (w := Z.of_nat k * Z.of_nat strip_size) in *. assert (0 < w) by nia.
  unfold u64_max, wrap64 in *. rewrite (Z.mod_small w) by lia. unfold div_ceil_u64.
  rewrite (proj2 (Z.eqb_neq w 0)) by lia. cbn [mbind outcome_bind].
  eexists. split; [done|]. cbn [stripe_count padded_size shard_size data_shards parity_shards].
  pose proof (Z.div_mod segment_size w ltac:(lia)) as Hdm.
  pose proof (Z.mod_pos_bound segment_size w ltac:(lia)) as Hmb.
  pose proof (Z.div_pos segment_size w ltac:(lia) ltac:(lia)).
  set (q := segment_size / w) in *. set (rm := segment_size mod w) in *.
  set (c := q + (if rm =? 0 then 0 else 1)).
  assert (Hc : 0 <= c /\ segment_size <= c * w < segment_size + w).
  { unfold c. destruct (Z.eqb_spec rm 0); nia. }
  rewrite (Z.mod_small (c * w)) by lia. rewrite !Nat2Z.inj_mul, Z2Nat.id by lia.
  unfold w in *. split; [lia|]. split; [lia|done].
Qed.

(** the plan covers the segment. For every positive size, shard count and
    strip size whose sum stays inside [u64], [StripeLayout::compute] succeeds,
    the padded size is the stripes' size, at least the segment's and less than
    one stripe more; a zero argument is an invalid configuration. *)
Theorem stripe_plan_covers segment_size k m strip_size :
  0 <= segment_size -> segment_size + Z.of_nat k * Z.of_nat strip_size <= u64_max ->
  (k = 0%nat \/ strip_size = 0%nat \/ segment_size = 0 ->
     compute segment_size k m strip_size = Err InvalidConfig) /\
  ((0 < k)%nat -> (0 < strip_size)%nat -> 0 < segment_size ->
     exists plan, compute segment_size k m strip_size = Ok plan /\
       padded_size plan = Z.of_nat (stripe_count plan * k * strip_size) /\
       segment_size <= padded_size plan < segment_size + Z.of_nat (k * strip_size)).
Proof.
  intros Hseg Hmax. split.
  - intros Hz. unfold compute. repeat case_bool_decide; try done.
    destruct (Z.eqb_spec segment_size 0); [done|]. lia.
  - intros Hk Hs Hpos. destruct (compute_ok segment_size k m strip_size) as (plan & ? & ? & ? & _); eauto.
Qed.

Lemma stripe_plan_covers_witness :
  exists plan, compute 1025 4 2 64 = Ok plan /\
    padded_size plan = Z.of_nat (stripe_count plan * 4 * 64) /\
    1025 <= padded_size plan < 1025 + Z.of_nat (4 * 64).
Proof.
  refine (proj2 (stripe_plan_covers 1025 4 2 64 _ _) _ _ _); unfold u64_max; lia.
Defined.

(** C9: a whole segment survives the loss of any [m] data shards. For every
    codec that satisfies the codec law, every segment and its plan: encoding
    succeeds, the data shards hold the segment (reassembled they give it back,
    zero-padded), and decoding returns the data shards from a batch in which at
    most [m] of them are marked missing, whatever their buffers hold. *)
Theorem segment_roundtrip {T} `{!Encoder T, !Decoder T} (codec : T) k m strip segment plan :
  CodecLaw T codec k m -> (k + m < 256)%nat ->
  Z.of_nat (length segment) + Z.of_nat k * Z.of_nat strip <= u64_max ->
  compute (Z.of_nat (length segment)) k m strip = Ok plan ->
  exists batch, parallel_encode codec segment plan = Ok batch /\
    reassemble (batch_data batch) strip (stripe_count plan)
      = segment ++ replicate (Z.to_nat (padded_size plan) - length segment) x00 /\
    forall data missing,
      length data = k ->
      (forall i, (i < k)%nat -> i ∉ missing -> data !! i = batch_data batch !! i) ->
      (length (filter (fun i => i ∈ missing) (seq 0 k)) <= m)%nat ->
      parallel_decode codec {| batch_data := data; batch_parity := batch_parity batch |} plan missing
        = Ok (batch_data batch).
Proof.
  intros Hlaw Hkm Hmax Hplan.
  assert (Hpos : (0 < k)%nat /\ (0 < strip)%nat /\ 0 < Z.of_nat (length segment)).
  { unfold compute in Hplan. repeat case_bool_decide; try done.
    destruct (Z.eqb_spec (Z.of_nat (length segment)) 0); [done|]. lia. }
  destruct Hpos as (Hk & Hs & Hseg).
  destruct (compute_ok _ k m strip Hk Hs Hseg Hmax) as (plan' & Hp' & Hpad & Hcov & Hsz & Hdk & Hpm).
  rewrite Hplan in Hp'. injection Hp' as <-.
  destruct plan as [total padded sz k' m']; simpl in *. subst sz k' m'.
  eexists. split; [by apply (parallel_encode_ok codec k m strip total segment)|].
  cbn [batch_data batch_parity]. split.
  - rewrite reassemble_data by lia. do 2 f_equal. rewrite Hpad. lia.
  - intros data missing Hd Hi Hm.
    by apply (parallel_decode_ok codec k m strip total segment Hs Hkm
                {| batch_data := data; batch_parity := _ |} missing).
Qed.

Lemma segment_roundtrip_witness :
  let codec := {| ce_k := 2; ce_m := 1; ce_target := OtherArch; ce_buf := [] |} in
  let segment := [x01; x02; x03; x04; x05] in
  let plan := {| stripe_count := 2; padded_size := 8; shard_size := 2;
                 data_shards := 2; parity_shards := 1 |} in
  exists batch, parallel_encode codec segment plan = Ok batch /\
    reassemble (batch_data batch) 2 (stripe_count plan)
      = segment ++ replicate (Z.to_nat (padded_size plan) - length segment) x00 /\
    forall data missing,
      length data = 2%nat ->
      (forall i, (i < 2)%nat -> i ∉ missing -> data !! i = batch_data batch !! i) ->
      (length (filter (fun i => i ∈ missing) (seq 0 2)) <= 1)%nat ->
      parallel_decode codec {| batch_data := data; batch_parity := batch_parity batch |} plan missing
        = Ok (batch_data batch).
Proof.
  intros codec segment plan. apply (segment_roundtrip codec 2 1 2 segment plan).
  - apply (cauchy_law codec 1); simpl; done || lia.
  - lia.
  - unfold u64_max. simpl. lia.
  - by vm_compute.
Defined.
