(* ===== verification/Hlc.v ===== *)
(** * Hybrid logical clock (crates/oceanfs-core/src/hlc.rs)

    Timestamps and their order, the packed 128-bit state, the two
    compare-and-swap loops as the steps of threads that interleave on the
    shared state, and runs of several nodes that exchange timestamps. *)

From Stdlib Require Import ZArith Lia Sorted Relations.
From S2P Require Import Prelude.

Local Open Scope Z_scope.

(** ** Timestamps *)

Record Hlc := { wall_time : Z; logical : Z }.

#[export] Instance Hlc_eq_dec : EqDecision Hlc.
Proof. solve_decision. Defined.

Definition hlc_zero : Hlc := {| wall_time := 0; logical := 0 |}.

(** [Ord::cmp]: wall time, then logical counter. *)
Definition hlc_cmp (a b : Hlc) : comparison :=
  match Z.compare (wall_time a) (wall_time b) with
  | Eq => Z.compare (logical a) (logical b)
  | c => c
  end.

Definition hlc_lt (a b : Hlc) : Prop := hlc_cmp a b = Lt.

Definition hlc_wf (h : Hlc) : Prop := is_u64 (wall_time h) /\ is_u32 (logical h).

(** ** The packed state: wall time above a 32-bit counter *)

Definition pack (h : Hlc) : Z := Z.lor (Z.shiftl (wall_time h) 32) (logical h).

(** [(cur >> 32) as u64] and [cur as u32]. *)
Definition unpack (cur : Z) : Hlc :=
  {| wall_time := wrap64 (Z.shiftr cur 32); logical := wrap32 cur |}.

(** [HlcClock::new]: the initial state for the system time [wall]. *)
Definition clock_new (wall : Z) : Z := Z.shiftl wall 32.

(** The timestamp one turn of the [now] loop wants to install. *)
Definition now_next (physical cur : Z) : Hlc :=
  let wall := wall_time (unpack cur) in
  let logical := logical (unpack cur) in
  let new_wall := Z.max wall physical in
  let new_logical := wrap32 (logical + 1) in
  if new_logical <? logical
  then {| wall_time := saturating_add64 new_wall 1; logical := 0 |}
  else {| wall_time := new_wall; logical := new_logical |}.

(** The same for [update]; the counter is computed in 64 bits. *)
Definition update_next (received : Hlc) (physical cur : Z) : Hlc :=
  let wall := wall_time (unpack cur) in
  let local_logical := logical (unpack cur) in
  let new_wall := Z.max (Z.max wall (wall_time received)) physical in
  let new_logical :=
    if wall <? wall_time received then wrap64 (logical received + 1)
    else wrap64 (Z.max local_logical (logical received) + 1) in
  if u32_max <? new_logical
  then {| wall_time := saturating_add64 new_wall 1; logical := 0 |}
  else {| wall_time := new_wall; logical := wrap32 new_logical |}.

(** ** Threads on one clock *)

Inductive clock_op := Now | Update (received : Hlc).

Definition op_next (op : clock_op) (physical cur : Z) : Hlc :=
  match op with
  | Now => now_next physical cur
  | Update received => update_next received physical cur
  end.

(** Where a thread is: outside a call, at the top of the loop with the physical
    time it read, or between the load and the compare-and-swap. *)
Inductive thread :=
| Idle
| Looping (op : clock_op) (physical : Z)
| Loaded (op : clock_op) (physical cur : Z).

(** The shared state, the threads, and the calls that returned so far with
    their timestamps, the latest first. *)
Record config := { cstate : Z; threads : nat -> thread; returned : list (clock_op * Hlc) }.

Definition set_thread (f : nat -> thread) (i : nat) (t : thread) : nat -> thread :=
  fun j => if decide (j = i) then t else f j.

Definition op_wf (op : clock_op) : Prop :=
  match op with Now => True | Update received => hlc_wf received end.

Inductive clock_step : config -> config -> Prop :=
| step_call c i op physical :
    threads c i = Idle -> op_wf op -> is_u64 physical ->
    clock_step c {| cstate := cstate c;
                    threads := set_thread (threads c) i (Looping op physical);
                    returned := returned c |}
| step_load c i op physical :
    threads c i = Looping op physical ->
    clock_step c {| cstate := cstate c;
                    threads := set_thread (threads c) i (Loaded op physical (cstate c));
                    returned := returned c |}
| step_cas_ok c i op physical cur :
    threads c i = Loaded op physical cur -> cstate c = cur ->
    clock_step c {| cstate := pack (op_next op physical cur);
                    threads := set_thread (threads c) i Idle;
                    returned := (op, op_next op physical cur) :: returned c |}
| step_cas_fail c i op physical cur :
    (* the exchange is weak: it may fail even when the state is [cur] *)
    threads c i = Loaded op physical cur ->
    clock_step c {| cstate := cstate c;
                    threads := set_thread (threads c) i (Looping op physical);
                    returned := returned c |}.

Definition clock_init (wall : Z) : config :=
  {| cstate := clock_new wall; threads := fun _ => Idle; returned := [] |}.

Inductive clock_reachable (wall : Z) : config -> Prop :=
| reach_init : clock_reachable wall (clock_init wall)
| reach_step c c' : clock_reachable wall c -> clock_step c c' -> clock_reachable wall c'.

(** ** Nodes that exchange timestamps *)

(** One event of a distributed run: the node it happens on, the physical time
    read there, and for a receive the index of the event whose timestamp the
    message carries. *)
Record event := { ev_node : nat; ev_physical : Z; ev_received : option nat }.

Definition event_op (past : list Hlc) (e : event) : option clock_op :=
  match ev_received e with
  | None => Some Now
  | Some i => Update <$> past !! i
  end.

(** Runs the events in order; [None] when a receive names an event that has not
    happened. *)
Fixpoint run_events (es : list event) (clocks : nat -> Z) (past : list Hlc) :
    option (list Hlc) :=
  match es with
  | [] => Some past
  | e :: es =>
      op ← event_op past e;
      let h := op_next op (ev_physical e) (clocks (ev_node e)) in
      run_events es (fun n => if decide (n = ev_node e) then pack h else clocks n) (past ++ [h])
  end.

(** Happens-before: program order on a node, and message edges. *)
Definition hb_edge (es : list event) (i j : nat) : Prop :=
  exists ei ej, es !! i = Some ei /\ es !! j = Some ej /\ (i < j)%nat /\
    (ev_node ei = ev_node ej \/ ev_received ej = Some i).

Definition happens_before (es : list event) : nat -> nat -> Prop :=
  clos_trans nat (hb_edge es).

(** ** Order *)

Lemma hlc_lt_iff a b :
  hlc_lt a b <->
  wall_time a < wall_time b \/ wall_time a = wall_time b /\ logical a < logical b.
Proof.
  unfold hlc_lt, hlc_cmp. destruct (Z.compare_spec (wall_time a) (wall_time b)) as [He|Hl|Hg].
  - rewrite Z.compare_lt_iff. lia.
  - split; [by left|done].
  - split; [done|lia].
Qed.

Lemma hlc_lt_trans a b c : hlc_lt a b -> hlc_lt b c -> hlc_lt a c.
Proof. rewrite !hlc_lt_iff. lia. Qed.

Lemma hlc_lt_irrefl a : ~ hlc_lt a a.
Proof. rewrite hlc_lt_iff. lia. Qed.

Lemma hlc_cmp_eq a b : hlc_cmp a b = Eq -> a = b.
Proof.
  unfold hlc_cmp. destruct a as [w l], b as [w' l']; simpl.
  destruct (Z.compare_spec w w') as [->|?|?]; try done.
  intros ->%Z.compare_eq. done.
Qed.

Lemma hlc_cmp_refl a : hlc_cmp a a = Eq.
Proof. unfold hlc_cmp. by rewrite !Z.compare_refl. Qed.

Lemma hlc_cmp_antisym a b : hlc_cmp b a = CompOpp (hlc_cmp a b).
Proof.
  unfold hlc_cmp. rewrite (Z.compare_antisym (wall_time a)).
  destruct (Z.compare (wall_time a) (wall_time b)); simpl; try done.
  apply Z.compare_antisym.
Qed.

(** ** The packed state *)

Lemma pack_add h : hlc_wf h -> pack h = wall_time h * 2 ^ 32 + logical h.
Proof. intros [Hw Hl]. unfold_ints. apply lor_shiftl_add; lia. Qed.

Lemma unpack_pack h : hlc_wf h -> unpack (pack h) = h.
Proof.
  intros Hh. unfold unpack. rewrite (pack_add h Hh). destruct Hh as [Hw Hl].
  destruct h as [w l]; simpl in *. unfold_ints. unfold wrap64, wrap32.
  rewrite Z.shiftr_div_pow2, Z.div_add_l, (Z.div_small l), Z.add_0_r by lia.
  rewrite Z.mod_small by lia. f_equal. rewrite Z.add_comm, Z.mod_add by lia.
  apply Z.mod_small. lia.
Qed.

Lemma clock_new_pack wall : clock_new wall = pack {| wall_time := wall; logical := 0 |}.
Proof. unfold clock_new, pack. simpl. by rewrite Z.lor_0_r. Qed.

(** ** One turn of a loop *)

(** What the installed timestamp [h'] owes to the state [h] it replaces. *)
Definition advances (op : clock_op) (physical : Z) (h h' : Hlc) : Prop :=
  hlc_wf h' /\ wall_time h <= wall_time h' /\ physical <= wall_time h' /\
  (wall_time h' < u64_max ->
     hlc_lt h h' /\ match op with Now => True | Update r => hlc_lt r h' end).

Lemma op_next_advances op physical h :
  hlc_wf h -> op_wf op -> is_u64 physical ->
  advances op physical h (op_next op physical (pack h)).
Proof.
  intros Hh Hop Hp. unfold advances. rewrite !hlc_lt_iff.
  destruct op as [|[rw rl]]; cbn [op_next]; unfold now_next, update_next;
    rewrite (unpack_pack h Hh); destruct h as [w l], Hh as [Hw Hl]; simpl in *;
    unfold hlc_wf, wrap64, wrap32, saturating_add64 in *; simpl in *.
  - unfold_ints. destruct (Z.eq_dec l 4294967295) as [->|].
    + change ((4294967295 + 1) mod 2 ^ 32) with 0. simpl. split_and!; simpl; lia.
    + rewrite Z.mod_small by lia. destruct (Z.ltb_spec (l + 1) l); [lia|]. simpl. lia.
  - destruct Hop as [Hrw Hrl]; simpl in *. unfold_ints. rewrite hlc_lt_iff. simpl.
    rewrite !(Z.mod_small _ (2 ^ 64)) by lia.
    destruct (Z.ltb_spec w rw); case_match eqn:Ho; simpl;
      (apply Z.ltb_lt in Ho || apply Z.ltb_ge in Ho); rewrite ?(Z.mod_small _ (2 ^ 32)) by lia; lia.
Qed.

(** ** Reachable configurations *)

Definition descending : list (clock_op * Hlc) -> Prop :=
  StronglySorted (fun a b => hlc_lt b.2 a.2).

Definition respects_received (r : clock_op * Hlc) : Prop :=
  match r.1 with Now => True | Update received => hlc_lt received r.2 end.

Definition thread_wf (t : thread) : Prop :=
  match t with
  | Idle => True
  | Looping op physical => op_wf op /\ is_u64 physical
  | Loaded op physical _ => op_wf op /\ is_u64 physical
  end.

(** The state packs the greatest timestamp so far; the calls that returned are
    in strictly descending order, unless the wall time reached its last value. *)
Definition clock_inv (c : config) : Prop :=
  exists h, hlc_wf h /\ cstate c = pack h /\ (forall i, thread_wf (threads c i)) /\
    (wall_time h < u64_max ->
       descending (returned c) /\
       Forall (fun r => r.2 = h \/ hlc_lt r.2 h) (returned c) /\
       Forall respects_received (returned c)).

Lemma set_thread_wf f i t :
  (forall j, thread_wf (f j)) -> thread_wf t -> forall j, thread_wf (set_thread f i t j).
Proof. intros Hf Ht j. unfold set_thread. by case_decide. Qed.

Lemma clock_inv_init wall : is_u64 wall -> clock_inv (clock_init wall).
Proof.
  intros Hw. exists {| wall_time := wall; logical := 0 |}.
  split; [split; simpl; [done|unfold_ints; lia]|]. split; [apply clock_new_pack|].
  split; [done|]. intros _. split; [constructor|]. split; constructor.
Qed.

Lemma clock_inv_step c c' : clock_inv c -> clock_step c c' -> clock_inv c'.
Proof.
  intros (h & Hh & Hst & Hth & Hlog). inversion 1 as
    [? i op p Hi Hop Hp|? i op p Hi|? i op p cur Hi Hcur|? i op p cur Hi]; subst;
    specialize (Hth i) as Hti; rewrite Hi in Hti; simpl in Hti.
  1,2,4: exists h; do 2 (split; [done|]); split; [by apply set_thread_wf|done].
  destruct Hti as [Hop Hp]. simpl. rewrite Hst in *.
  destruct (op_next_advances op p h Hh Hop Hp) as (Hwf & Hmono & _ & Hadv).
  exists (op_next op p (pack h)). split; [done|]. split; [done|].
  split; [by apply set_thread_wf|]. intros Hlt. destruct (Hadv Hlt) as [Hgt Hrecv].
  destruct (Hlog ltac:(lia)) as (Hd & Hle & Hr).
  assert (Hle' : Forall (fun r => hlc_lt r.2 (op_next op p (pack h))) (returned c)).
  { eapply Forall_impl; [exact Hle|]. intros r [->|Hr']; [done|]. by eapply hlc_lt_trans. }
  split; [by constructor|]. split; constructor; [by left| |by destruct op|done].
  eapply Forall_impl; [exact Hle'|]. auto.
Qed.

Lemma clock_reachable_inv wall c : is_u64 wall -> clock_reachable wall c -> clock_inv c.
Proof.
  intros Hw. induction 1; [by apply clock_inv_init|by eapply clock_inv_step].
Qed.

(** ** Distributed runs *)

Lemma run_events_prefix es clocks past hs :
  run_events es clocks past = Some hs -> exists l, hs = past ++ l.
Proof.
  revert clocks past; induction es as [|e es IH]; intros clocks past; simpl.
  - intros [= ->]. exists []. by rewrite app_nil_r.
  - destruct (event_op past e); simpl; [|done]. intros [l ->]%IH.
    rewrite <- app_assoc. eauto.
Qed.

(** After the events [ran], with timestamps [past]: each clock is ahead of the
    events of its node, and every edge so far is ordered. *)
Record run_inv (ran : list event) (clocks : nat -> Z) (past : list Hlc) : Prop := {
  ri_length : length past = length ran;
  ri_clock : forall n, exists h, hlc_wf h /\ clocks n = pack h /\
    forall i e t, ran !! i = Some e -> past !! i = Some t -> ev_node e = n ->
      t = h \/ hlc_lt t h;
  ri_wf : Forall hlc_wf past;
  ri_edges : forall i j a b, hb_edge ran i j ->
    past !! i = Some a -> past !! j = Some b -> hlc_lt a b }.

Lemma hb_edge_app ran l i j :
  (j < length ran)%nat -> hb_edge (ran ++ l) i j <-> hb_edge ran i j.
Proof.
  intros Hj. unfold hb_edge. split; intros (ei & ej & Hi & Hj' & Hij & He); exists ei, ej;
    (split; [|split]; [| |done]).
  - by rewrite lookup_app_l in Hi by lia.
  - by rewrite lookup_app_l in Hj' by lia.
  - rewrite lookup_app_l by lia. done.
  - by rewrite lookup_app_l by lia.
Qed.

Lemma run_inv_step ran clocks past e op :
  run_inv ran clocks past -> is_u64 (ev_physical e) -> event_op past e = Some op ->
  let h := op_next op (ev_physical e) (clocks (ev_node e)) in
  wall_time h < u64_max ->
  run_inv (ran ++ [e]) (fun n => if decide (n = ev_node e) then pack h else clocks n) (past ++ [h]).
Proof.
  intros [Hlen Hclk Hwf Hedges] Hp Hop h Hmax.
  destruct (Hclk (ev_node e)) as (h0 & Hh0 & Hc0 & Hpast0).
  assert (Hopwf : op_wf op).
  { unfold event_op in Hop. destruct (ev_received e) as [i|]; [|by injection Hop as <-].
    destruct (past !! i) as [r|] eqn:Hr; [|done]. injection Hop as <-.
    exact (Forall_lookup_1 _ _ _ _ Hwf Hr). }
  destruct (op_next_advances op (ev_physical e) h0 Hh0 Hopwf Hp) as (Hhwf & _ & _ & Hadv).
  subst h. rewrite Hc0 in *. set (h := op_next op (ev_physical e) (pack h0)) in *.
  destruct (Hadv Hmax) as [Hgt Hrecv].
  assert (Hlocal : forall i e' t, ran !! i = Some e' -> past !! i = Some t ->
            ev_node e' = ev_node e -> hlc_lt t h).
  { intros i e' t Hi Ht Hn. destruct (Hpast0 i e' t Hi Ht Hn) as [->|]; [done|].
    by eapply hlc_lt_trans. }
  split.
  - rewrite !length_app. simpl. lia.
  - intros n. case_decide as Hn; [exists h|destruct (Hclk n) as (hn & Hhn & Hcn & Hpn); exists hn];
      (split; [done|]; split; [done|]); intros i e' t;
      rewrite !lookup_snoc_Some, Hlen; intros [[Hi1 Hi]|[Hi1 Hi]] [[Ht1 Ht]|[Ht1 Ht]] He'; try lia.
    + right. apply (Hlocal i e' t Hi Ht). congruence.
    + by left.
    + by eapply Hpn.
    + congruence.
  - apply Forall_app. split; [done|]. by constructor.
  - intros i j a b Hedge. rewrite !lookup_snoc_Some, Hlen.
    intros [[Ha1 Ha]|[Ha1 <-]] [[Hb1 Hb]|[Hb1 <-]].
    + rewrite (hb_edge_app ran [e]) in Hedge by lia. by apply (Hedges i j).
    + destruct Hedge as (ei & ej & Hi & Hj & Hij & He).
      rewrite lookup_app_l in Hi by lia. rewrite Hb1, list_lookup_middle in Hj by done.
      injection Hj as <-. destruct He as [He|He]; [by eapply Hlocal|].
      unfold event_op in Hop. rewrite He, Ha in Hop. injection Hop as <-. exact Hrecv.
    + destruct Hedge as (? & ? & _ & _ & Hij & _). lia.
    + destruct Hedge as (? & ? & _ & _ & Hij & _). lia.
Qed.

Lemma run_events_inv es ran clocks past hs :
  run_inv ran clocks past -> Forall (fun e => is_u64 (ev_physical e)) es ->
  run_events es clocks past = Some hs -> Forall (fun h => wall_time h < u64_max) hs ->
  forall i j a b, hb_edge (ran ++ es) i j -> hs !! i = Some a -> hs !! j = Some b -> hlc_lt a b.
Proof.
  revert ran clocks past; induction es as [|e es IH]; intros ran clocks past Hinv Hp Hrun Hmax.
  - simpl in Hrun. injection Hrun as ->. rewrite app_nil_r. apply Hinv.
  - apply Forall_cons in Hp as [Hpe Hp]. simpl in Hrun.
    destruct (event_op past e) as [op|] eqn:Hop; simpl in Hrun; [|done].
    pose proof (run_events_prefix _ _ _ _ Hrun) as [l Hl].
    replace (ran ++ e :: es) with ((ran ++ [e]) ++ es) by (by rewrite <- app_assoc).
    eapply IH; [|exact Hp|exact Hrun|exact Hmax].
    apply run_inv_step; [done..|]. rewrite Hl in Hmax.
    apply Forall_app in Hmax as [[_ [Hm _]%Forall_cons]%Forall_app _]. exact Hm.
Qed.

Lemma run_inv_init walls :
  (forall n, is_u64 (walls n)) -> run_inv [] (fun n => clock_new (walls n)) [].
Proof.
  intros Hw. split; [done| |constructor|by intros].
  intros n. exists {| wall_time := walls n; logical := 0 |}.
  split; [split; simpl; [done|unfold_ints; lia]|]. split; [apply clock_new_pack|done].
Qed.

Lemma happens_before_lt es hs :
  (forall i j a b, hb_edge es i j -> hs !! i = Some a -> hs !! j = Some b -> hlc_lt a b) ->
  length hs = length es ->
  forall i j, happens_before es i j ->
  forall a b, hs !! i = Some a -> hs !! j = Some b -> hlc_lt a b.
Proof.
  intros Hedges Hlen i j. induction 1 as [i j Hij|i j k Hij IH1 Hjk IH2]; [by eauto|].
  intros a b Ha Hb. assert (Hj : (j < length hs)%nat).
  { rewrite Hlen. clear -Hij. induction Hij as [i j (? & ? & _ & Hj & _)|]; [|done].
    by eapply lookup_lt_Some. }
  destruct (lookup_lt_is_Some_2 hs j Hj) as [c Hc]. eapply hlc_lt_trans; eauto.
Qed.

Lemma run_events_length es clocks past hs :
  run_events es clocks past = Some hs -> length hs = (length past + length es)%nat.
Proof.
  revert clocks past; induction es as [|e es IH]; intros clocks past; simpl.
  - intros [= ->]. lia.
  - destruct (event_op past e); simpl; [|done]. intros ->%IH. rewrite length_app. simpl. lia.
Qed.

(** ** Properties *)

(** threads that call [now] and [update] on one clock, interleaved in any
    way and with any failures of the weak compare-and-swap, get strictly
    increasing timestamps in the order in which their exchanges succeed, and
    each [update] returns more than the timestamp it received. The hypothesis
    excludes only a clock whose wall time has reached [u64::MAX]. *)
Theorem clock_strictly_increases wall c :
  is_u64 wall -> clock_reachable wall c -> wall_time (unpack (cstate c)) < u64_max ->
  descending (returned c) /\ Forall respects_received (returned c).
Proof.
  intros Hw Hc Hmax. destruct (clock_reachable_inv wall c Hw Hc) as (h & Hh & Hst & _ & Hlog).
  rewrite Hst, unpack_pack in Hmax by done. destruct (Hlog Hmax) as (Hd & _ & Hr). done.
Qed.

(** Two threads: thread 1 wins the race, thread 0 retries. *)
Definition race_threads : nat -> thread :=
  set_thread (set_thread (set_thread (set_thread (set_thread (set_thread (set_thread (set_thread
    (fun _ => Idle) 0 (Looping Now 5)) 1 (Looping Now 7)) 0 (Loaded Now 5 (clock_new 5)))
    1 (Loaded Now 7 (clock_new 5))) 1 Idle) 0 (Looping Now 5))
    0 (Loaded Now 5 (pack {| wall_time := 7; logical := 1 |}))) 0 Idle.

Lemma clock_strictly_increases_witness :
  let c := {| cstate := pack {| wall_time := 7; logical := 2 |}; threads := race_threads;
              returned := [(Now, {| wall_time := 7; logical := 2 |});
                           (Now, {| wall_time := 7; logical := 1 |})] |} in
  clock_reachable 5 c /\ descending (returned c) /\ Forall respects_received (returned c).
Proof.
  intros c. assert (H5 : is_u64 5) by (unfold_ints; lia).
  assert (H7 : is_u64 7) by (unfold_ints; lia).
  assert (Hc : clock_reachable 5 c).
  { pose proof (reach_init 5) as H.
    eapply reach_step in H; [|by apply (step_call _ 0 Now 5)].
    eapply reach_step in H; [|by apply (step_call _ 1 Now 7)].
    eapply reach_step in H; [|by apply (step_load _ 0 Now 5)].
    eapply reach_step in H; [|by apply (step_load _ 1 Now 7)].
    eapply reach_step in H; [|by apply (step_cas_ok _ 1 Now 7 (clock_new 5))].
    eapply reach_step in H; [|by apply (step_cas_fail _ 0 Now 5 (clock_new 5))].
    eapply reach_step in H; [|by apply (step_load _ 0 Now 5)].
    eapply reach_step in H;
      [|by apply (step_cas_ok _ 0 Now 5 (pack {| wall_time := 7; logical := 1 |}))].
    exact H. }
  split; [exact Hc|]. exact (clock_strictly_increases 5 c H5 Hc eq_refl).
Defined.

(** C27: timestamps respect causality across nodes. In a run in which nodes
    stamp local events with [now] and received messages with [update], an
    event that happens before another (program order, messages, and their
    transitive closure) has the smaller timestamp. *)
Theorem hlc_causality es walls hs :
  (forall n, is_u64 (walls n)) -> Forall (fun e => is_u64 (ev_physical e)) es ->
  run_events es (fun n => clock_new (walls n)) [] = Some hs ->
  Forall (fun h => wall_time h < u64_max) hs ->
  forall i j a b, happens_before es i j -> hs !! i = Some a -> hs !! j = Some b -> hlc_lt a b.
Proof.
  intros Hw Hp Hrun Hmax i j a b Hhb. apply (happens_before_lt es hs); [|by apply run_events_length in Hrun|done].
  by eapply (run_events_inv es [] _ []); [apply run_inv_init|..].
Qed.

(** A message from node 0 to node 1 whose physical clock is behind. *)
Definition causality_run : list event :=
  [{| ev_node := 0; ev_physical := 900; ev_received := None |};
   {| ev_node := 1; ev_physical := 100; ev_received := Some 0%nat |};
   {| ev_node := 1; ev_physical := 101; ev_received := None |}].

Lemma hlc_causality_witness :
  run_events causality_run (fun _ => clock_new 50) []
    = Some [{| wall_time := 900; logical := 1 |}; {| wall_time := 900; logical := 2 |};
            {| wall_time := 900; logical := 3 |}] /\
  hlc_lt {| wall_time := 900; logical := 1 |} {| wall_time := 900; logical := 3 |}.
Proof.
  split; [by vm_compute|].
  refine (hlc_causality causality_run (fun _ => 50)
    [{| wall_time := 900; logical := 1 |}; {| wall_time := 900; logical := 2 |};
     {| wall_time := 900; logical := 3 |}] _ _ _ _ 0 2 _ _ _ eq_refl eq_refl).
  - intros _. unfold_ints. lia.
  - repeat constructor; unfold_ints; simpl; lia.
  - by vm_compute.
  - repeat constructor.
  - apply (t_trans _ _ _ 1%nat); apply t_step; eexists _, _; split_and!; try done; [lia|by right|lia|by left].
Defined.

(** a received timestamp at the end of the range makes the clock go
    backward: after merging [(u64::MAX, u32::MAX - 1)] the next [now] returns a
    smaller timestamp than the [update] before it, on every clock. *)
Theorem clock_saturation_goes_backward wall physical :
  is_u64 wall -> is_u64 physical ->
  let received := {| wall_time := u64_max; logical := u32_max - 1 |} in
  let h1 := update_next received physical (clock_new wall) in
  let h2 := now_next physical (pack h1) in
  hlc_wf received /\ hlc_lt h2 h1.
Proof.
  intros Hw Hp received h1 h2. split; [by unfold hlc_wf; unfold_ints; simpl; lia|].
  assert (Hh1 : h1 = {| wall_time := u64_max; logical := u32_max |}).
  { unfold h1, update_next. rewrite clock_new_pack, unpack_pack
      by (split; simpl; [done|unfold_ints; lia]). simpl. unfold_ints.
    rewrite !Z.max_r, !Z.max_l by lia. destruct (Z.ltb_spec wall 18446744073709551615); simpl;
    unfold wrap64, wrap32; simpl; f_equal; lia. }
  unfold h2. rewrite Hh1. unfold now_next. rewrite unpack_pack by (by split; unfold_ints; simpl; lia).
  simpl. apply hlc_lt_iff. unfold_ints. unfold wrap32, saturating_add64, u64_max. simpl. lia.
Qed.

Lemma clock_saturation_goes_backward_witness :
  let received := {| wall_time := u64_max; logical := u32_max - 1 |} in
  let h1 := update_next received 1000 (clock_new 1000) in
  let h2 := now_next 1000 (pack h1) in
  hlc_wf received /\ hlc_lt h2 h1.
Proof. apply (clock_saturation_goes_backward 1000 1000); unfold_ints; lia. Defined.
