(* ===== verification/Conflict.v ===== *)
(** * Last-write-wins conflict resolution (crates/oceanfs-core/src/conflict.rs)

    The resolver, and the convergence of replicas that apply it. *)

From Stdlib Require Import ZArith Lia Strings.Byte.
From S2P Require Import Prelude Hlc.

Local Open Scope Z_scope.

(** [str] compares by bytes. *)
Fixpoint str_cmp (a b : bytes) : comparison :=
  match a, b with
  | [], [] => Eq
  | [], _ :: _ => Lt
  | _ :: _, [] => Gt
  | x :: a, y :: b =>
      match Z.compare (Z_of_byte x) (Z_of_byte y) with
      | Eq => str_cmp a b
      | c => c
      end
  end.

Inductive Resolution := AcceptLocal | AcceptRemote | Merge.

Definition is_local_accepted (r : Resolution) : bool :=
  match r with AcceptLocal => true | _ => false end.

Definition is_remote_accepted (r : Resolution) : bool :=
  match r with AcceptRemote => true | _ => false end.

(** What a bucket's resolver offers. *)
Class ConflictResolver (R : Type) := {
  resolve : R -> Hlc -> Hlc -> NodeId -> NodeId -> Resolution }.

(** [LwwResolver::resolve]. *)
Inductive LwwResolver := Lww.

#[export] Instance lww_resolver : ConflictResolver LwwResolver := {
  resolve _ local remote local_node remote_node :=
    match hlc_cmp remote local with
    | Gt => AcceptRemote
    | Lt => AcceptLocal
    | Eq => match str_cmp remote_node local_node with
            | Gt => AcceptRemote
            | _ => AcceptLocal
            end
    end }.

(** A version of an object: its timestamp, the node that holds it, and what it
    stores. *)
Record version (A : Type) := { v_hlc : Hlc; v_node : NodeId; v_value : A }.
Arguments v_hlc {A} _.
Arguments v_node {A} _.
Arguments v_value {A} _.

(** The version a replica keeps when it compares its own with another one. *)
Definition keep {A} (local remote : version A) : version A :=
  if is_remote_accepted (resolve Lww (v_hlc local) (v_hlc remote) (v_node local) (v_node remote))
  then remote else local.

(** ** Order of versions *)

Definition version_cmp {A} (v w : version A) : comparison :=
  match hlc_cmp (v_hlc v) (v_hlc w) with
  | Eq => str_cmp (v_node v) (v_node w)
  | c => c
  end.

Lemma str_cmp_eq a b : str_cmp a b = Eq -> a = b.
Proof.
  revert b; induction a as [|x a IH]; intros [|y b]; simpl; try done.
  destruct (Z.compare_spec (Z_of_byte x) (Z_of_byte y)) as [He|?|?]; try done.
  intros ->%IH. f_equal. by apply Z_of_byte_inj.
Qed.

Lemma str_cmp_refl a : str_cmp a a = Eq.
Proof. induction a as [|x a IH]; simpl; [done|]. by rewrite Z.compare_refl. Qed.

Lemma str_cmp_antisym a b : str_cmp b a = CompOpp (str_cmp a b).
Proof.
  revert b; induction a as [|x a IH]; intros [|y b]; simpl; try done.
  rewrite (Z.compare_antisym (Z_of_byte x)), IH.
  by destruct (Z.compare (Z_of_byte x) (Z_of_byte y)).
Qed.

Lemma str_cmp_trans a b c : str_cmp a b = Lt -> str_cmp b c = Lt -> str_cmp a c = Lt.
Proof.
  revert b c; induction a as [|x a IH]; intros [|y b] [|z c]; simpl; try done.
  destruct (Z.compare_spec (Z_of_byte x) (Z_of_byte y));
    destruct (Z.compare_spec (Z_of_byte y) (Z_of_byte z)); try done; intros H1 H2;
    destruct (Z.compare_spec (Z_of_byte x) (Z_of_byte z)); try done; try lia. eauto.
Qed.

Section versions.
Context {A : Type}.
Implicit Types v w u : version A.

Lemma version_cmp_antisym v w : version_cmp w v = CompOpp (version_cmp v w).
Proof.
  unfold version_cmp. rewrite hlc_cmp_antisym, str_cmp_antisym.
  by destruct (hlc_cmp (v_hlc v) (v_hlc w)).
Qed.

Lemma version_cmp_refl v : version_cmp v v = Eq.
Proof.
  unfold version_cmp. rewrite hlc_cmp_refl. apply str_cmp_refl.
Qed.

Lemma version_cmp_trans v w u :
  version_cmp v w = Lt -> version_cmp w u = Lt -> version_cmp v u = Lt.
Proof.
  unfold version_cmp. intros H1 H2.
  destruct (hlc_cmp (v_hlc v) (v_hlc w)) eqn:Hvw; try done;
    destruct (hlc_cmp (v_hlc w) (v_hlc u)) eqn:Hwu; try done.
  - apply hlc_cmp_eq in Hvw as ->, Hwu as ->. rewrite hlc_cmp_refl. by eapply str_cmp_trans.
  - apply hlc_cmp_eq in Hvw as ->. by rewrite Hwu.
  - apply hlc_cmp_eq in Hwu as <-. by rewrite Hvw.
  - by rewrite (hlc_lt_trans _ _ _ Hvw Hwu : hlc_cmp _ _ = Lt).
Qed.

(** [keep] is the maximum of the order, and the local version on a tie. *)
Lemma keep_max v w : keep v w = match version_cmp v w with Lt => w | _ => v end.
Proof.
  unfold keep, version_cmp. simpl. rewrite (hlc_cmp_antisym (v_hlc v)), (str_cmp_antisym (v_node v)).
  destruct (hlc_cmp (v_hlc v) (v_hlc w)); simpl; try done.
  by destruct (str_cmp (v_node v) (v_node w)).
Qed.

Definition version_le v w : Prop := version_cmp v w = Lt \/ v = w.

Lemma version_le_trans v w u : version_le v w -> version_le w u -> version_le v u.
Proof.
  intros [H1| ->] [H2| <-]; [left; by eapply version_cmp_trans|by left|by left|by right].
Qed.

Lemma version_le_antisym v w : version_le v w -> version_le w v -> v = w.
Proof.
  intros [H1|?] [H2|?]; try done. rewrite version_cmp_antisym, H1 in H2. done.
Qed.

(** Versions of one object: a timestamp and a node determine the version. *)
Definition keyed (vs : list (version A)) : Prop :=
  forall v w, v ∈ vs -> w ∈ vs -> version_cmp v w = Eq -> v = w.

Lemma keep_upper v w :
  (version_cmp v w = Eq -> v = w) -> version_le v (keep v w) /\ version_le w (keep v w).
Proof.
  intros Heq. rewrite keep_max. unfold version_le.
  destruct (version_cmp v w) eqn:Hc; [rewrite (Heq eq_refl); auto|auto|].
  rewrite (version_cmp_antisym v w), Hc. auto.
Qed.

Lemma foldl_keep_spec vs v :
  keyed (v :: vs) ->
  foldl keep v vs ∈ v :: vs /\ forall w, w ∈ v :: vs -> version_le w (foldl keep v vs).
Proof.
  revert v; induction vs as [|w vs IH]; intros v Hk; simpl.
  - split; [by left|]. intros w ->%list_elem_of_singleton. by right.
  - assert (Hin : keep v w = v \/ keep v w = w) by (rewrite keep_max; case_match; auto).
    destruct (keep_upper v w) as [Hv Hw]; [apply Hk; set_solver|].
    destruct (IH (keep v w)) as [Hmem Hmax].
    { intros a b Ha Hb. apply Hk; destruct Hin as [E|E]; rewrite E in *; set_solver. }
    split; [destruct Hin as [E|E]; rewrite E in *; set_solver|].
    assert (Hroot := Hmax (keep v w) ltac:(set_solver)).
    intros u [->|[->|Hu]%elem_of_cons]%elem_of_cons;
      [by eapply version_le_trans..|apply Hmax; set_solver].
Qed.

End versions.

(** ** Properties *)

(** replicas converge. However the versions of an object reach a replica
    (any order, any starting version), resolving them one by one ends with the
    same version on every replica, and it is the one with the greatest
    timestamp, ties broken by the greater node id. *)
Theorem lww_convergence {A} (v w : version A) vs ws :
  keyed (v :: vs) -> v :: vs ≡ₚ w :: ws ->
  foldl keep v vs = foldl keep w ws /\
  forall u, u ∈ v :: vs -> version_le u (foldl keep v vs).
Proof.
  intros Hk Hperm. assert (Hk' : keyed (w :: ws)) by (intros a b; rewrite <- Hperm; apply Hk).
  destruct (foldl_keep_spec vs v Hk) as [Hin1 Hmax1].
  destruct (foldl_keep_spec ws w Hk') as [Hin2 Hmax2].
  split; [|exact Hmax1]. apply version_le_antisym.
  - apply Hmax2. by rewrite <- Hperm.
  - apply Hmax1. by rewrite Hperm.
Qed.

Lemma lww_convergence_witness :
  let a := {| v_hlc := {| wall_time := 5; logical := 0 |}; v_node := [x61]; v_value := 1 |} in
  let b := {| v_hlc := {| wall_time := 5; logical := 0 |}; v_node := [x62]; v_value := 2 |} in
  foldl keep a [b] = foldl keep b [a] /\ forall u, u ∈ [a; b] -> version_le u (foldl keep a [b]).
Proof.
  intros a b. refine (lww_convergence a b [b] [a] _ _); [|apply Permutation_swap].
  intros u w Hu Hw. apply list_elem_of_In in Hu as [<-|[<-|[]]];
    apply list_elem_of_In in Hw as [<-|[<-|[]]]; done.
Defined.

(** the two sides of one conflict agree. When the versions differ in
    timestamp or node, exactly one of them is accepted, and it is the same one
    whichever node is local. *)
Theorem lww_sides_agree (h1 h2 : Hlc) (n1 n2 : NodeId) :
  (h1, n1) <> (h2, n2) ->
  is_remote_accepted (resolve Lww h1 h2 n1 n2) = is_local_accepted (resolve Lww h2 h1 n2 n1) /\
  is_local_accepted (resolve Lww h1 h2 n1 n2) = negb (is_remote_accepted (resolve Lww h1 h2 n1 n2)).
Proof.
  intros Hne. simpl. rewrite (hlc_cmp_antisym h1), (str_cmp_antisym n1).
  destruct (hlc_cmp h1 h2) eqn:Hc; simpl; try done.
  apply hlc_cmp_eq in Hc. destruct (str_cmp n1 n2) eqn:Hs; simpl; try done.
  apply str_cmp_eq in Hs. congruence.
Qed.

Lemma lww_sides_agree_witness :
  is_remote_accepted (resolve Lww hlc_zero hlc_zero [x61] [x62])
    = is_local_accepted (resolve Lww hlc_zero hlc_zero [x62] [x61]) /\
  is_local_accepted (resolve Lww hlc_zero hlc_zero [x61] [x62])
    = negb (is_remote_accepted (resolve Lww hlc_zero hlc_zero [x61] [x62])).
Proof. apply (lww_sides_agree hlc_zero hlc_zero [x61] [x62]). done. Defined.
