(* ===== verification/Ring.v ===== *)
(** * Consistent hashing ring (crates/oceanfs-routing/src/ring.rs, hash.rs,
    ring_cache.rs and [VnodeRange] of crates/oceanfs-core/src/types/node.rs)

    A ring position is a 32-byte array; its byte-lexicographic order is the
    order of the number below 2^256 that it spells with its first byte as the
    highest ([position], [position_range]), and positions are those numbers
    here. The position map, a [BTreeMap], is its sorted list of entries. *)

From Stdlib Require Import ZArith Lia Sorted Strings.Byte.
From S2P Require Import Prelude.

Local Open Scope Z_scope.

Abbreviation RingPosition := Z.

(** The number that the bytes of a digest spell. *)
Definition position (digest : bytes) : RingPosition := from_le (reverse digest).

Lemma position_range digest : length digest = 32%nat -> 0 <= position digest < 2 ^ 256.
Proof.
  intros H. pose proof (from_le_range (reverse digest)) as Hr. rewrite length_reverse, H in Hr. exact Hr.
Qed.

Lemma position_snoc d b : position (d ++ [b]) = Z_of_byte b + 256 * position d.
Proof. unfold position. by rewrite reverse_snoc. Qed.

(** The first byte that differs decides the order. *)
Lemma position_lt common a b d d' :
  length d = length d' -> Z_of_byte a < Z_of_byte b -> position (common ++ a :: d) < position (common ++ b :: d').
Proof.
  revert d'. induction d as [|x d IH] using rev_ind; intros d' Hl Hab.
  - destruct d'; [|done]. rewrite !position_snoc. lia.
  - rewrite length_app in Hl. destruct d' as [|y d' _] using rev_ind; [cbn in Hl; lia|]. rewrite length_app in Hl.
    rewrite !app_comm_cons, !app_assoc, !position_snoc. specialize (IH d' ltac:(cbn in *; lia) Hab).
    pose proof (Z_of_byte_range x). pose proof (Z_of_byte_range y). lia.
Qed.

(** [RingConfig]. *)
Record RingConfig := { vnodes_per_node : nat; replication_factor : nat }.

Record VnodeRange := { range_start : RingPosition; range_end : RingPosition }.

(** [VnodeRange::contains]. *)
Definition range_contains (r : VnodeRange) (h : RingPosition) : bool :=
  if range_start r <? range_end r then (range_start r <=? h) && (h <? range_end r)
  else if range_start r =? range_end r then
    (range_start r =? 0) || (range_start r <=? h) || (h <? range_end r)
  else (range_start r <=? h) || (h <? range_end r).

Abbreviation entries := (list (RingPosition * NodeId)).

Record Ring := { positions : entries; ring_config : RingConfig; node_ids : list NodeId }.

(** [error.rs]; the text of a message is not modelled. *)
Inductive routing_error := RingEmpty | NodeNotFound (n : NodeId) | InvalidRingConfig.

(** [BTreeMap::insert]: replaces the value of an equal key. *)
Fixpoint bt_insert (p : RingPosition) (n : NodeId) (l : entries) : entries :=
  match l with
  | [] => [(p, n)]
  | (q, m) :: l =>
      if p <? q then (p, n) :: (q, m) :: l
      else if p =? q then (p, n) :: l
      else (q, m) :: bt_insert p n l
  end.

(** [BTreeMap::remove]. *)
Definition bt_remove (p : RingPosition) (l : entries) : entries :=
  filter (fun e => e.1 <> p) l.

Definition ring_new (config : RingConfig) : Ring :=
  {| positions := []; ring_config := config; node_ids := [] |}.

Section ring.
(** [Sha256::digest]. *)
Context (sha256 : bytes -> bytes).

(** [hash_node]: the node id, a colon, and the vnode index in four
    little-endian bytes. *)
Definition hash_node (node_id : NodeId) (vnode_index : nat) : RingPosition :=
  position (sha256 (node_id ++ [x3a] ++ to_le 4 (Z.of_nat vnode_index))).

(** One turn of the [for] loop of [add_node]. *)
Definition add_vnode (node : NodeId) (st : entries * list VnodeRange) (i : nat) :
    entries * list VnodeRange :=
  let pos := hash_node node i in
  (bt_insert pos node st.1, st.2 ++ [{| range_start := pos; range_end := pos |}]).

Definition add_node (r : Ring) (node : NodeId) : Ring * list VnodeRange :=
  let st := foldl (add_vnode node) (positions r, []) (seq 0 (vnodes_per_node (ring_config r))) in
  ({| positions := st.1; ring_config := ring_config r;
      node_ids := if decide (node ∈ node_ids r) then node_ids r else node_ids r ++ [node] |},
   st.2).

Definition remove_node (r : Ring) (node : NodeId) :
    outcome routing_error (Ring * list VnodeRange) :=
  let positions_to_remove := (filter (fun e => e.2 = node) (positions r)).*1 in
  let ranges := (fun pos => {| range_start := pos; range_end := pos |}) <$> positions_to_remove in
  match positions_to_remove with
  | [] => Err (NodeNotFound node)
  | _ :: _ =>
      Ok ({| positions := foldl (fun ps pos => bt_remove pos ps) (positions r) positions_to_remove;
             ring_config := ring_config r;
             node_ids := filter (fun n => n <> node) (node_ids r) |}, ranges)
  end.

(** The walk of [lookup]: nodes in visiting order, each taken once, until the
    result holds [rf] of them. *)
Fixpoint lookup_walk (rf : nat) (visited result : list NodeId) : list NodeId :=
  match visited with
  | [] => result
  | node :: visited =>
      if decide (node ∈ result) then lookup_walk rf visited result
      else
        let result := result ++ [node] in
        if (rf <=? length result)%nat then result else lookup_walk rf visited result
  end.

(** [entries.partition_point(|(pos, _)| pos < key_hash)] on the sorted entries. *)
Fixpoint partition_point (l : entries) (key_hash : RingPosition) : nat :=
  match l with
  | [] => 0
  | (pos, _) :: l => if pos <? key_hash then S (partition_point l key_hash) else 0
  end.

Definition entry_at (l : entries) (i : nat) : RingPosition * NodeId := default (0, []) (l !! i).

Definition ring_lookup (r : Ring) (key_hash : RingPosition) : list NodeId :=
  match positions r with
  | [] => []
  | entries =>
      let start_idx := partition_point entries key_hash in
      let visited := (fun i => (entry_at entries ((start_idx + i) mod length entries)%nat).2)
                       <$> seq 0 (length entries) in
      lookup_walk (replication_factor (ring_config r)) visited []
  end.

Definition node_count (r : Ring) : nat := length (node_ids r).

Definition successor_of (r : Ring) (node_id : NodeId) : option NodeId :=
  let key_hash := hash_node node_id 0 in
  find (fun n => bool_decide (n <> node_id)) (ring_lookup r key_hash).

(** [while end != i && selected[end]]; a run is shorter than the circle, so
    [length selected] turns are enough. *)
Fixpoint run_end (selected : list bool) (i fuel e : nat) : nat :=
  match fuel with
  | O => e
  | S fuel =>
      if negb (e =? i)%nat && default false (selected !! e)
      then run_end selected i fuel ((e + 1) mod length selected)%nat else e
  end.

(** The outer [while i < m]; every turn advances [i] or stops, so [m + 1]
    turns are enough. *)
Fixpoint merge_runs (es : entries) (selected : list bool) (fuel i : nat)
    (ranges : list VnodeRange) : list VnodeRange :=
  match fuel with
  | O => ranges
  | S fuel =>
      let m := length selected in
      if (m <=? i)%nat then ranges
      else if negb (default false (selected !! i)) then merge_runs es selected fuel (i + 1) ranges
      else
        let e := run_end selected i m ((i + 1) mod m)%nat in
        let ranges := ranges ++
          [{| range_start := (entry_at es i).1; range_end := (entry_at es e).1 |}] in
        if (e <=? i)%nat then ranges else merge_runs es selected fuel e ranges
  end.

Definition ranges_owned_by (r : Ring) (node : NodeId) : list VnodeRange :=
  match positions r with
  | [] => []
  | entries =>
      let m := length entries in
      let selected := (fun i => bool_decide (node ∈ ring_lookup r (entry_at entries ((i + 1) mod m)%nat).1))
                        <$> seq 0 m in
      if negb (existsb id selected) then []
      else if forallb id selected then [{| range_start := 0; range_end := 0 |}]
      else merge_runs entries selected (m + 1) 0 []
  end.

End ring.

(** ** Ring cache (ring_cache.rs)

    [ArcSwap] holds one ring; a store replaces it for every later load. *)

Record RingCache := { inner : Ring }.

Definition cache_lookup (c : RingCache) (key_hash : RingPosition) : list NodeId :=
  ring_lookup (inner c) key_hash.

Definition cache_update (c : RingCache) (ring : Ring) : RingCache := {| inner := ring |}.

(** [segment_replica_set]: [blake3] of the printed segment id, as a position. *)
Definition segment_replica_set (blake3 : bytes -> bytes) (c : RingCache)
    (segment_id_text : bytes) : list NodeId :=
  cache_lookup c (position (blake3 segment_id_text)).

(** ** The position map *)

Definition sorted_entries (l : entries) : Prop := StronglySorted (fun a b => a.1 < b.1) l.

Lemma bt_insert_elem p n l e :
  e ∈ bt_insert p n l -> e = (p, n) \/ e ∈ l.
Proof.
  induction l as [|[q m] l IH]; simpl; [set_solver|].
  destruct (p <? q); [set_solver|]. destruct (p =? q); set_solver.
Qed.

Lemma bt_insert_sorted p n l : sorted_entries l -> sorted_entries (bt_insert p n l).
Proof.
  induction 1 as [|[q m] l Hl IH Hall]; simpl; [repeat constructor|].
  destruct (Z.ltb_spec p q).
  - constructor; [by constructor|]. constructor; [done|].
    eapply Forall_impl; [exact Hall|]. simpl. lia.
  - destruct (Z.eqb_spec p q) as [->|].
    + by constructor.
    + constructor; [done|]. apply Forall_forall. intros e [->|He]%bt_insert_elem; simpl; [lia|].
      by eapply Forall_forall in Hall.
Qed.

Lemma bt_insert_elem_iff p n l e :
  sorted_entries l -> e ∈ bt_insert p n l <-> e = (p, n) \/ e ∈ l /\ e.1 <> p.
Proof.
  induction 1 as [|[q m] l Hl IH Hall]; simpl; [set_solver|].
  assert (Hlt : forall e, e ∈ l -> q < e.1) by (by apply Forall_forall).
  destruct (Z.ltb_spec p q); [|destruct (Z.eqb_spec p q) as [->|]].
  - rewrite !elem_of_cons. split; [|naive_solver].
    intros [?|[->|He]]; [by left|right; simpl; split; [by left|lia]|].
    right. split; [by right|]. specialize (Hlt e He). lia.
  - rewrite !elem_of_cons. split; [|naive_solver].
    intros [?|He]; [by left|right]. split; [by right|]. specialize (Hlt e He). lia.
  - rewrite !elem_of_cons, IH. split; [|naive_solver].
    intros [->|[?|[? ?]]]; [right; simpl; split; [by left|lia]|by left|right; split; [by right|done]].
Qed.

Lemma sorted_filter (P : RingPosition * NodeId -> Prop) `{!forall e, Decision (P e)} l :
  sorted_entries l -> sorted_entries (filter P l).
Proof.
  induction 1 as [|e l Hl IH Hall]; [constructor|]. rewrite filter_cons. case_decide; [|done].
  constructor; [done|]. apply Forall_forall. intros x [_ Hx]%list_elem_of_filter.
  by eapply Forall_forall in Hall.
Qed.

Lemma sorted_key_inj l e f : sorted_entries l -> e ∈ l -> f ∈ l -> e.1 = f.1 -> e = f.
Proof.
  induction 1 as [|x l Hl IH Hall]; [set_solver|]. rewrite Forall_forall in Hall.
  intros [->|He]%elem_of_cons [->|Hf]%elem_of_cons Heq; auto.
  - specialize (Hall f Hf). lia.
  - specialize (Hall e He). lia.
Qed.

Lemma sorted_entries_ext l k :
  sorted_entries l -> sorted_entries k -> (forall e, e ∈ l <-> e ∈ k) -> l = k.
Proof.
  intros Hl. revert k. induction Hl as [|x l Hl IH Hx]; intros k Hk Hiff.
  - destruct k as [|y k]; [done|]. specialize (Hiff y). set_solver.
  - destruct Hk as [|y k Hk Hy]; [specialize (Hiff x); set_solver|].
    rewrite Forall_forall in Hx, Hy.
    assert (x = y) as <-.
    { pose proof (proj1 (Hiff x) ltac:(by left)) as Hxk.
      pose proof (proj2 (Hiff y) ltac:(by left)) as Hyl.
      apply elem_of_cons in Hxk as [?|Hxk]; [done|]. apply elem_of_cons in Hyl as [?|Hyl]; [done|].
      specialize (Hx y Hyl). specialize (Hy x Hxk). lia. }
    f_equal. apply IH; [done|]. intros e. specialize (Hiff e). rewrite !elem_of_cons in Hiff.
    split; intros He.
    + destruct (proj1 Hiff) as [->|]; [by right| |done]. specialize (Hx x He). lia.
    + destruct (proj2 Hiff) as [->|]; [by right| |done]. specialize (Hy x He). lia.
Qed.

Lemma foldl_bt_remove ps l :
  foldl (fun l pos => bt_remove pos l) l ps = filter (fun e => e.1 ∉ ps) l.
Proof.
  revert l; induction ps as [|p ps IH]; intros l; simpl.
  - symmetry. apply filter_true_in. set_solver.
  - rewrite IH. unfold bt_remove. rewrite list_filter_filter. apply list_filter_iff. set_solver.
Qed.

(** Removing every position of a node keeps the other entries as they are. *)
Lemma remove_positions_filter l node :
  sorted_entries l ->
  foldl (fun l pos => bt_remove pos l) l (filter (fun e => e.2 = node) l).*1
    = filter (fun e => e.2 <> node) l.
Proof.
  intros Hl. rewrite foldl_bt_remove. apply filter_ext_in. intros e He. split.
  - intros Hn Heq. apply Hn. apply list_elem_of_fmap. exists e. split; [done|].
    by apply list_elem_of_filter.
  - intros Hne (f & Hf & [Hn Hin]%list_elem_of_filter)%list_elem_of_fmap.
    apply Hne. by rewrite (sorted_key_inj l e f).
Qed.

(** ** The walk *)

(** The nodes of [l] in order of first occurrence, without those of [seen]. *)
Fixpoint uniq (seen l : list NodeId) : list NodeId :=
  match l with
  | [] => []
  | n :: l => if decide (n ∈ seen) then uniq seen l else n :: uniq (seen ++ [n]) l
  end.

Lemma uniq_elem seen l n : n ∈ uniq seen l <-> n ∈ l /\ n ∉ seen.
Proof.
  revert seen; induction l as [|x l IH]; intros seen; simpl; [set_solver|].
  case_decide; [rewrite IH; set_solver|]. rewrite elem_of_cons, IH.
  destruct (decide (n = x)); set_solver.
Qed.

Lemma uniq_NoDup seen l : NoDup (uniq seen l).
Proof.
  revert seen; induction l as [|x l IH]; intros seen; simpl; [constructor|].
  case_decide; [done|]. constructor; [|done]. rewrite uniq_elem. set_solver.
Qed.

Lemma uniq_seen_ext s1 s2 l :
  (forall x, x ∈ l -> x ∈ s1 <-> x ∈ s2) -> uniq s1 l = uniq s2 l.
Proof.
  revert s1 s2; induction l as [|x l IH]; intros s1 s2 Hs; simpl; [done|].
  pose proof (Hs x ltac:(by left)).
  rewrite (decide_ext (x ∈ s1) (x ∈ s2)) by done. case_decide.
  - apply IH. intros y Hy. apply Hs. by right.
  - f_equal. apply IH. intros y Hy. rewrite !elem_of_app, (Hs y) by (by right). done.
Qed.

Lemma uniq_filter (P : NodeId -> Prop) `{!forall n, Decision (P n)} seen l :
  uniq seen (filter P l) = filter P (uniq seen l).
Proof.
  revert seen; induction l as [|x l IH]; intros seen; simpl; [done|].
  rewrite filter_cons. destruct (decide (P x)) as [HP|HP]; simpl.
  - case_decide; [done|]. rewrite filter_cons_True by done. by rewrite IH.
  - case_decide; [done|]. rewrite filter_cons_False by done. rewrite <- IH.
    apply uniq_seen_ext. intros y [Hy _]%list_elem_of_filter. set_solver.
Qed.

Lemma lookup_walk_uniq rf l result :
  (length result < Nat.max 1 rf)%nat ->
  lookup_walk rf l result = result ++ take (Nat.max 1 rf - length result) (uniq result l).
Proof.
  revert result; induction l as [|x l IH]; intros result Hlen; simpl.
  - by rewrite take_nil, app_nil_r.
  - case_decide; [by apply IH|]. rewrite length_app. simpl.
    destruct (Nat.leb_spec rf (length result + 1)).
    + by replace (Nat.max 1 rf - length result)%nat with 1%nat by lia.
    + rewrite IH by (rewrite length_app; simpl; lia).
      rewrite length_app, <- app_assoc. simpl.
      by replace (Nat.max 1 rf - length result)%nat
        with (S (Nat.max 1 rf - (length result + 1))) by lia.
Qed.

(** ** The visiting order *)

Lemma rotate_entries (l : entries) s :
  (s <= length l)%nat ->
  (fun i => entry_at l ((s + i) mod length l)%nat) <$> seq 0 (length l) = drop s l ++ take s l.
Proof.
  intros Hs. destruct (decide (length l = 0)%nat) as [H0|H0].
  { apply nil_length_inv in H0 as ->. by destruct s. }
  apply list_eq. intros i. rewrite list_lookup_fmap.
  destruct (decide (i < length l)%nat) as [Hi|Hi].
  - rewrite lookup_seq_lt by done. simpl. unfold entry_at.
    destruct (decide (s + i < length l)%nat).
    + rewrite Nat.mod_small, lookup_app_l, lookup_drop by (rewrite ?length_drop; lia).
      by destruct (lookup_lt_is_Some_2 l (s + i)) as [e ->]; [lia|].
    + rewrite lookup_app_r by (rewrite length_drop; lia). rewrite length_drop.
      replace (s + i)%nat with ((s + i - length l) + 1 * length l)%nat at 1 by lia.
      rewrite Nat.Div0.mod_add, Nat.mod_small by lia.
      rewrite lookup_take_lt by lia.
      replace (i - (length l - s))%nat with (s + i - length l)%nat by lia.
      by destruct (lookup_lt_is_Some_2 l (s + i - length l)) as [e ->]; [lia|].
  - rewrite !(proj2 (lookup_ge_None _ _)); [done| |].
    + rewrite length_app, length_drop, length_take. lia.
    + rewrite length_seq. lia.
Qed.

Lemma partition_point_split l h :
  sorted_entries l ->
  take (partition_point l h) l = filter (fun e => e.1 < h) l /\
  drop (partition_point l h) l = filter (fun e => ~ e.1 < h) l.
Proof.
  induction 1 as [|[p n] l Hl IH Hall]; simpl; [done|]. rewrite Forall_forall in Hall.
  destruct (Z.ltb_spec p h); simpl.
  - rewrite filter_cons_True, filter_cons_False by (simpl; lia).
    destruct IH as [-> ->]. done.
  - rewrite filter_cons_False, filter_cons_True by (simpl; lia).
    rewrite filter_false_in, filter_true_in; [done| |];
      intros e He; specialize (Hall e He); simpl in *; lia.
Qed.

Lemma partition_point_le l h : (partition_point l h <= length l)%nat.
Proof. induction l as [|[p n] l IH]; simpl; [done|]. destruct (p <? h); simpl; lia. Qed.

(** Clockwise from [h]: the positions at or after it, then the wrapped ones. *)
Definition clockwise (l : entries) (h : RingPosition) : list NodeId :=
  (filter (fun e => ~ e.1 < h) l ++ filter (fun e => e.1 < h) l).*2.

Lemma ring_lookup_uniq r h :
  sorted_entries (positions r) ->
  ring_lookup r h
    = take (Nat.max 1 (replication_factor (ring_config r))) (uniq [] (clockwise (positions r) h)).
Proof.
  intros Hs. unfold ring_lookup, clockwise.
  destruct (partition_point_split (positions r) h Hs) as [<- <-].
  rewrite <- rotate_entries by apply partition_point_le.
  destruct (positions r) as [|e l] eqn:Hp; [by destruct (Nat.max _ _)|].
  rewrite <- list_fmap_compose, lookup_walk_uniq by (simpl; lia).
  simpl length. by rewrite Nat.sub_0_r.
Qed.

Lemma clockwise_elem l h n : n ∈ clockwise l h <-> n ∈ l.*2.
Proof.
  unfold clockwise. rewrite !list_elem_of_fmap. setoid_rewrite elem_of_app.
  setoid_rewrite list_elem_of_filter.
  split; [intros (e & -> & He); exists e; tauto|].
  intros (e & -> & He). exists e. split; [done|]. destruct (decide (e.1 < h)); tauto.
Qed.

(** ** Rings built from joins and leaves *)

Definition ring_inv (r : Ring) : Prop :=
  sorted_entries (positions r) /\ NoDup (node_ids r) /\
  forall n, n ∈ node_ids r <-> n ∈ (positions r).*2.

(** A change of membership; removing an unknown node leaves the ring alone. *)
Inductive ring_op := Join (n : NodeId) | Leave (n : NodeId).

Definition ring_apply (sha256 : bytes -> bytes) (r : Ring) (op : ring_op) : Ring :=
  match op with
  | Join n => (add_node sha256 r n).1
  | Leave n => match remove_node r n with Ok (r, _) => r | _ => r end
  end.

Section ring_correct.
Context (sha256 : bytes -> bytes).

(** The first [count] vnodes of two different nodes of the list have no
    position in common. *)
Definition vnodes_distinct (count : nat) (nodes : list NodeId) : Prop :=
  forall n1 i1 n2 i2, n1 ∈ nodes -> n2 ∈ nodes -> (i1 < count)%nat -> (i2 < count)%nat ->
    hash_node sha256 n1 i1 = hash_node sha256 n2 i2 -> n1 = n2.

Lemma vnodes_distinct_subset count nodes nodes' :
  vnodes_distinct count nodes' -> (forall n, n ∈ nodes -> n ∈ nodes') -> vnodes_distinct count nodes.
Proof. intros H Hs n1 i1 n2 i2 H1 H2. apply H; by apply Hs. Qed.

(** The positions after the vnodes of the list [ixs] were inserted. *)
Definition insert_vnodes (node : NodeId) (ixs : list nat) (l : entries) : entries :=
  foldl (fun l i => bt_insert (hash_node sha256 node i) node l) l ixs.

Lemma add_node_positions r node :
  positions (add_node sha256 r node).1
    = insert_vnodes node (seq 0 (vnodes_per_node (ring_config r))) (positions r).
Proof.
  unfold add_node, insert_vnodes. simpl. generalize (@nil VnodeRange) as rs.
  generalize (positions r) as l. induction (seq 0 _) as [|i ixs IH]; intros l rs; [done|].
  apply IH.
Qed.

Lemma insert_vnodes_spec node ixs l :
  sorted_entries l ->
  sorted_entries (insert_vnodes node ixs l) /\
  forall e, e ∈ insert_vnodes node ixs l <->
    (exists i, i ∈ ixs /\ e = (hash_node sha256 node i, node)) \/
    e ∈ l /\ forall i, i ∈ ixs -> e.1 <> hash_node sha256 node i.
Proof.
  revert l; induction ixs as [|i ixs IH]; intros l Hl; simpl.
  - split; [done|]. intros e. set_solver.
  - destruct (IH (bt_insert (hash_node sha256 node i) node l)) as [Hs He];
      [by apply bt_insert_sorted|].
    split; [done|]. intros e. rewrite He, bt_insert_elem_iff by done.
    setoid_rewrite elem_of_cons. split.
    + intros [(j & Hj & ->)|[[->|[Hin Hne]] Hall]]; [left; eauto|left; eauto|right].
      split; [done|]. intros j [->|Hj]; auto.
    + intros [(j & [->|Hj] & ->)|[Hin Hall]]; [|left; eauto|right; split; auto].
      destruct (decide (Exists (fun j => hash_node sha256 node j = hash_node sha256 node i) ixs))
        as [Hex|Hnex].
      * apply Exists_exists in Hex as (j & Hj & Heq). left. exists j. by rewrite Heq.
      * right. split; [by left|]. intros j Hj Heq. apply Hnex, Exists_exists. eauto.
Qed.

(** The vnodes [ixs] of the node take no position of another node. *)
Definition free_for (node : NodeId) (ixs : list nat) (l : entries) : Prop :=
  forall e i, e ∈ l -> i ∈ ixs -> e.1 = hash_node sha256 node i -> e.2 = node.

Lemma insert_vnodes_nodes node ixs l n :
  sorted_entries l -> free_for node ixs l -> ixs <> [] ->
  n ∈ (insert_vnodes node ixs l).*2 <-> n = node \/ n ∈ l.*2.
Proof.
  intros Hl Hgen His. destruct (insert_vnodes_spec node ixs l Hl) as [_ He].
  rewrite !list_elem_of_fmap. setoid_rewrite He. split.
  - intros (e & -> & [(i & _ & ->)|[Hin _]]); [by left|right; eauto].
  - intros [->|(e & -> & Hin)].
    + destruct ixs as [|i ixs]; [done|]. eexists (hash_node sha256 node i, node).
      split; [done|]. left. exists i. split; [by left|done].
    + destruct (decide (e.2 = node)) as [Hn|Hn].
      * destruct ixs as [|i ixs]; [done|]. exists (hash_node sha256 node i, node).
        split; [done|]. left. exists i. split; [by left|done].
      * exists e. split; [done|]. right. split; [done|]. intros i Hi Heq. by apply Hn, (Hgen e i).
Qed.

(** Every position is a vnode hash of the node it maps to. *)
Definition generated (r : Ring) : Prop :=
  forall e, e ∈ positions r -> exists i, (i < vnodes_per_node (ring_config r))%nat /\ e.1 = hash_node sha256 e.2 i.

Lemma generated_free r node :
  ring_inv r -> generated r -> vnodes_distinct (vnodes_per_node (ring_config r)) (node :: node_ids r) ->
  free_for node (seq 0 (vnodes_per_node (ring_config r))) (positions r).
Proof.
  intros (_ & _ & Hids) Hgen Hd e i Hin Hi%elem_of_seq Heq. destruct (Hgen e Hin) as (j & Hj & Ej).
  apply (Hd e.2 j node i); [right; apply Hids, list_elem_of_fmap; eauto|left|done|lia|congruence].
Qed.

Lemma add_node_inv r node :
  (0 < vnodes_per_node (ring_config r))%nat -> vnodes_distinct (vnodes_per_node (ring_config r)) (node :: node_ids r) ->
  ring_inv r -> generated r ->
  ring_inv (add_node sha256 r node).1 /\ generated (add_node sha256 r node).1.
Proof.
  intros Hv Hd Hinv Hgen. pose proof (generated_free r node Hinv Hgen Hd) as Hfree. destruct Hinv as (Hs & Hnd & Hids).
  set (ixs := seq 0 (vnodes_per_node (ring_config r))) in *.
  destruct (insert_vnodes_spec node ixs _ Hs) as [Hs' He'].
  assert (His : ixs <> []) by (unfold ixs; by destruct (vnodes_per_node _); [lia|]).
  assert (Hnodes : node_ids (add_node sha256 r node).1
            = if decide (node ∈ node_ids r) then node_ids r else node_ids r ++ [node]).
  { done. }
  split; [split; [|split]|].
  - by rewrite add_node_positions.
  - rewrite Hnodes. case_decide; [done|]. apply NoDup_app.
    split; [done|]. split; [set_solver|apply NoDup_singleton].
  - intros n. rewrite Hnodes, add_node_positions. fold ixs.
    rewrite insert_vnodes_nodes by done. rewrite <- Hids. case_decide; set_solver.
  - intros e. rewrite add_node_positions. fold ixs. rewrite He'.
    intros [(i & Hi%elem_of_seq & ->)|[Hin _]]; [exists i; split; [cbn; lia|done]|by apply Hgen].
Qed.

Lemma remove_node_positions r r' node ranges :
  sorted_entries (positions r) -> remove_node r node = Ok (r', ranges) ->
  positions r' = filter (fun e => e.2 <> node) (positions r) /\
  node_ids r' = filter (fun n => n <> node) (node_ids r) /\ ring_config r' = ring_config r.
Proof.
  intros Hs. unfold remove_node. rewrite remove_positions_filter by done.
  destruct (filter _ _).*1; [done|]. intros [= <- <-]. done.
Qed.

Lemma remove_node_inv r r' node ranges :
  remove_node r node = Ok (r', ranges) -> ring_inv r -> generated r ->
  ring_inv r' /\ generated r'.
Proof.
  intros Hr (Hs & Hnd & Hids) Hgen.
  destruct (remove_node_positions r r' node ranges Hs Hr) as (Hp & Hn & Hc).
  split; [split; [|split]|].
  - rewrite Hp. by apply sorted_filter.
  - rewrite Hn. by apply NoDup_filter.
  - intros n. rewrite Hn, Hp, list_elem_of_filter, Hids, !list_elem_of_fmap.
    setoid_rewrite list_elem_of_filter. naive_solver.
  - intros e. rewrite Hp, Hc, list_elem_of_filter. intros [_ He]. by apply Hgen.
Qed.

(** Leaving takes exactly the vnodes of the join away again. *)
Lemma leave_join_positions node ixs l :
  sorted_entries l -> free_for node ixs l ->
  node ∉ l.*2 -> filter (fun e => e.2 <> node) (insert_vnodes node ixs l) = l.
Proof.
  intros Hs Hgen Hnew. destruct (insert_vnodes_spec node ixs l Hs) as [Hs' He].
  apply sorted_entries_ext; [by apply sorted_filter|done|].
  intros e. rewrite list_elem_of_filter, He. split.
  - intros [Hne [(i & _ & ->)|[Hin _]]]; done.
  - intros Hin. assert (Hne : e.2 <> node).
    { intros <-. apply Hnew, list_elem_of_fmap. eauto. }
    split; [done|]. right. split; [done|]. intros i Hi Heq. by apply Hne, (Hgen e i).
Qed.

Lemma remove_node_member r node :
  node ∈ (positions r).*2 -> exists r' ranges, remove_node r node = Ok (r', ranges).
Proof.
  intros (e & He & Hin)%list_elem_of_fmap. unfold remove_node.
  assert (Hf : e.1 ∈ (filter (fun e => e.2 = node) (positions r)).*1).
  { apply list_elem_of_fmap. exists e. split; [done|]. by apply list_elem_of_filter. }
  destruct (filter _ _).*1; [by apply not_elem_of_nil in Hf|]. eauto.
Qed.

Lemma ring_apply_config r op :
  sorted_entries (positions r) -> ring_config (ring_apply sha256 r op) = ring_config r.
Proof.
  intros Hs. destruct op as [n|n]; simpl; [done|].
  destruct (remove_node r n) as [[r' ?]| |] eqn:Hr; try done.
  by eapply remove_node_positions.
Qed.

(** The nodes that joined at some time. *)
Definition joined (ops : list ring_op) : list NodeId := omap (fun op => match op with Join n => Some n | Leave _ => None end) ops.

Lemma joined_snoc ops op : joined (ops ++ [op]) = joined ops ++ match op with Join n => [n] | Leave _ => [] end.
Proof. unfold joined. rewrite omap_app. by destruct op. Qed.

Lemma ring_apply_members r op n :
  n ∈ node_ids (ring_apply sha256 r op) -> n ∈ node_ids r \/ op = Join n.
Proof.
  destruct op as [m|m]; simpl.
  - case_decide; [by left|]. rewrite elem_of_app, list_elem_of_singleton. intros [?|Hm]; [by left|right; by rewrite Hm].
  - unfold remove_node. destruct (filter _ _).*1; [by left|]. cbn [node_ids]. intros [_ ?]%list_elem_of_filter. by left.
Qed.

Lemma ring_ops_members config ops n :
  n ∈ node_ids (foldl (ring_apply sha256) (ring_new config) ops) -> n ∈ joined ops.
Proof.
  induction ops as [|op ops IH] using rev_ind; [by intros ?%not_elem_of_nil|]. rewrite foldl_app, joined_snoc. cbn [foldl].
  intros [?| ->]%ring_apply_members; apply elem_of_app; [left; by apply IH|right; left].
Qed.

Lemma ring_ops_inv config ops :
  (0 < vnodes_per_node config)%nat -> vnodes_distinct (vnodes_per_node config) (joined ops) ->
  let r := foldl (ring_apply sha256) (ring_new config) ops in
  ring_inv r /\ generated r /\ ring_config r = config.
Proof.
  intros Hv. induction ops as [|op ops IH] using rev_ind; simpl.
  - intros _. split; [split; [constructor|split; [constructor|done]]|]. split; [|done]. intros e He. by apply not_elem_of_nil in He.
  - rewrite foldl_app, joined_snoc. simpl. intros Hd. destruct IH as (Hi & Hg & Hc).
    { eapply vnodes_distinct_subset; [exact Hd|]. intros n Hn. apply elem_of_app. by left. }
    set (r := foldl (ring_apply sha256) (ring_new config) ops) in *.
    assert (Hc' : ring_config (ring_apply sha256 r op) = config)
      by (rewrite ring_apply_config; [done|apply Hi]).
    enough (ring_inv (ring_apply sha256 r op) /\ generated (ring_apply sha256 r op)) by tauto.
    destruct op as [n|n]; simpl.
    + apply add_node_inv; [by rewrite Hc| |done|done]. rewrite Hc. eapply vnodes_distinct_subset; [exact Hd|].
      intros m [->|Hm]%elem_of_cons; apply elem_of_app; [right; left|left; by eapply ring_ops_members].
    + destruct (remove_node r n) as [[r' ?]| |] eqn:Hr; try done. by eapply remove_node_inv.
Qed.

End ring_correct.

(** ** Lookups *)

Lemma uniq_length_perm l ids :
  NoDup ids -> (forall n, n ∈ ids <-> n ∈ l) -> length (uniq [] l) = length ids.
Proof.
  intros Hnd Hids. apply Permutation_length, NoDup_Permutation; [apply uniq_NoDup|done|].
  intros n. rewrite uniq_elem, Hids. set_solver.
Qed.

Lemma ring_lookup_NoDup r h : sorted_entries (positions r) -> NoDup (ring_lookup r h).
Proof.
  intros Hs. rewrite ring_lookup_uniq by done.
  eapply sublist_NoDup; [apply uniq_NoDup|apply sublist_take].
Qed.

Lemma ring_lookup_elem r h n :
  sorted_entries (positions r) -> n ∈ ring_lookup r h -> n ∈ (positions r).*2.
Proof.
  intros Hs. rewrite ring_lookup_uniq by done. intros Hin.
  apply (elem_of_sublist _ (uniq [] (clockwise (positions r) h))) in Hin; [|apply sublist_take].
  by apply uniq_elem in Hin as [Hin%clockwise_elem _].
Qed.

Lemma ring_lookup_length r h :
  ring_inv r ->
  length (ring_lookup r h)
    = Nat.min (Nat.max 1 (replication_factor (ring_config r))) (node_count r).
Proof.
  intros (Hs & Hnd & Hids). rewrite ring_lookup_uniq, length_take by done. f_equal.
  apply uniq_length_perm; [done|]. intros n. by rewrite Hids, clockwise_elem.
Qed.

(** The walk after a node left: its occurrences are skipped. *)
Lemma clockwise_filter l h node :
  clockwise (filter (fun e => e.2 <> node) l) h = filter (fun n => n <> node) (clockwise l h).
Proof.
  unfold clockwise.
  assert (Hf : forall k : entries, (filter (fun e => e.2 <> node) k).*2
                 = filter (fun n => n <> node) k.*2).
  { induction k as [|e k IH]; [done|]. rewrite fmap_cons, !filter_cons.
    case_decide; by rewrite ?fmap_cons, IH. }
  rewrite <- Hf, !filter_app. do 2 f_equal; rewrite !list_filter_filter; apply list_filter_iff; tauto.
Qed.

Lemma take_filter_prefix {A} (P : A -> Prop) `{!forall x, Decision (P x)} n (l : list A) :
  filter P (take n l) `prefix_of` take n (filter P l).
Proof.
  revert n; induction l as [|x l IH]; intros n; [destruct n; done|].
  destruct n as [|n]; [apply prefix_nil|]. simpl. rewrite !filter_cons. case_decide.
  - simpl. apply prefix_cons, IH.
  - etransitivity; [apply IH|]. exists (drop n (take (S n) (filter P l))).
    rewrite <- (take_drop n (take (S n) (filter P l))) at 1. f_equal.
    rewrite take_take. f_equal. lia.
Qed.

Lemma take_filter_same {A} (P : A -> Prop) `{!forall x, Decision (P x)} n (l : list A) :
  (forall x, x ∈ take n l -> P x) -> take n (filter P l) = take n l.
Proof.
  revert n; induction l as [|x l IH]; intros n HP; [done|].
  destruct n as [|n]; [done|]. simpl in *. rewrite filter_cons_True by (apply HP; by left).
  simpl. f_equal. apply IH. intros y Hy. apply HP. by right.
Qed.

(** ** Owned ranges *)

Lemma partition_point_spec l h i e :
  sorted_entries l -> l !! i = Some e -> (i < partition_point l h)%nat <-> e.1 < h.
Proof.
  intros Hs. revert i. induction Hs as [|[p n] l Hl IH Hall]; intros i; [done|].
  rewrite Forall_forall in Hall. simpl. destruct i as [|i]; simpl.
  - intros [= <-]. destruct (Z.ltb_spec p h); simpl; lia.
  - intros Hi. destruct (Z.ltb_spec p h).
    + rewrite <- (IH i Hi). lia.
    + split; [lia|]. intros He. assert (p < e.1) by (apply Hall; by eapply list_elem_of_lookup_2).
      simpl in *. lia.
Qed.

Lemma sorted_lookup_lt l i j e f :
  sorted_entries l -> l !! i = Some e -> l !! j = Some f -> e.1 < f.1 <-> (i < j)%nat.
Proof.
  intros Hs. revert i j; induction Hs as [|x l Hl IH Hall]; intros [|i] [|j]; simpl; try done.
  - intros [= <-] [= <-]. lia.
  - intros [= <-] Hf. rewrite Forall_forall in Hall.
    specialize (Hall f (list_elem_of_lookup_2 _ _ _ Hf)). lia.
  - intros He [= <-]. rewrite Forall_forall in Hall.
    specialize (Hall e (list_elem_of_lookup_2 _ _ _ He)). lia.
  - intros He Hf. rewrite (IH i j He Hf). lia.
Qed.

(** The walk depends only on where it starts, modulo the circle. *)
Lemma clockwise_rotate l h :
  sorted_entries l ->
  clockwise l h = (drop (partition_point l h mod length l) l
                     ++ take (partition_point l h mod length l) l).*2.
Proof.
  intros Hs. unfold clockwise. destruct (partition_point_split l h Hs) as [<- <-].
  destruct (decide (partition_point l h = length l)) as [->|].
  - rewrite drop_all, take_ge by done. destruct l as [|e l]; [done|].
    rewrite Nat.Div0.mod_same. simpl. by rewrite app_nil_r.
  - rewrite Nat.mod_small; [done|]. pose proof (partition_point_le l h). lia.
Qed.

(** A key between two positions is served like the end of its arc. *)
Lemma lookup_arc_end r h :
  sorted_entries (positions r) -> positions r <> [] ->
  ring_lookup r h
    = ring_lookup r (entry_at (positions r) (partition_point (positions r) h mod length (positions r))%nat).1.
Proof.
  intros Hs Hne. set (l := positions r) in *. set (s := (partition_point l h mod length l)%nat).
  assert (Hlen : length l <> 0%nat) by (by destruct l).
  assert (Hs' : (s < length l)%nat) by (by apply Nat.mod_upper_bound).
  destruct (lookup_lt_is_Some_2 l s Hs') as [e He].
  rewrite !ring_lookup_uniq by done. do 2 f_equal. fold l. rewrite !clockwise_rotate by done.
  assert (Hpp : partition_point l (entry_at l s).1 = s).
  { unfold entry_at. rewrite He. simpl.
    pose proof (partition_point_le l e.1) as Hle.
    pose proof (proj1 (partition_point_spec l e.1 s e Hs He)) as H1.
    destruct (Nat.lt_trichotomy (partition_point l e.1) s) as [Hlt|[?|Hgt]]; [|done|].
    - destruct (lookup_lt_is_Some_2 l (partition_point l e.1)) as [f Hf]; [lia|].
      assert (f.1 < e.1) as Hfe by (by apply (sorted_lookup_lt l _ s f e Hs Hf He)).
      apply (partition_point_spec l e.1 _ f Hs Hf) in Hfe. lia.
    - specialize (H1 Hgt). lia. }
  fold s. rewrite Hpp, (Nat.mod_small s) by done. done.
Qed.

Section owned_ranges.
Context (l : entries) (selected : list bool).
Hypothesis Hsorted : sorted_entries l.
Hypothesis Hlen : length selected = length l.

Let m : nat := length l.
Let sel (a : nat) : bool := default false (selected !! a).

(** The arc of a key that is not a position: the index of the position before it. *)
Definition arc_of (h : RingPosition) : nat := ((partition_point l h + (m - 1)) mod m)%nat.

Definition off_ring (h : RingPosition) : Prop := h ∉ l.*1.

(** The arcs of a run of [p] arcs from arc [i]. *)
Definition in_run (i p a : nat) : Prop := exists k, (k < p)%nat /\ a = ((i + k) mod m)%nat.

Lemma mod_wrap a b : (a < b)%nat -> (a mod b = a)%nat.
Proof. apply Nat.mod_small. Qed.

Lemma mod_wrap_once a b : (b <= a < b + b)%nat -> (a mod b = a - b)%nat.
Proof.
  intros H. replace a with ((a - b) + 1 * b)%nat at 1 by lia.
  rewrite Nat.Div0.mod_add. apply Nat.mod_small. lia.
Qed.

Lemma in_run_interval i p a :
  (i < m)%nat -> (1 <= p < m)%nat -> (a < m)%nat ->
  in_run i p a <-> if decide (i + p < m)%nat then (i <= a < i + p)%nat
                   else (i <= a \/ a < i + p - m)%nat.
Proof.
  intros Hi Hp Ha. unfold in_run. case_decide; split.
  - intros (k & Hk & ->). rewrite mod_wrap by lia. lia.
  - intros Hr. exists (a - i)%nat. rewrite mod_wrap by lia. lia.
  - intros (k & Hk & ->). destruct (decide (i + k < m)%nat).
    + rewrite mod_wrap by lia. lia.
    + rewrite mod_wrap_once by lia. lia.
  - intros [Hr|Hr].
    + exists (a - i)%nat. rewrite mod_wrap by lia. lia.
    + exists (a + m - i)%nat. rewrite mod_wrap_once by lia. lia.
Qed.

Lemma run_end_spec fuel i p q :
  (i < m)%nat -> (1 <= p <= q)%nat -> (q < m)%nat -> sel ((i + q) mod m)%nat = false ->
  (q - p < fuel)%nat ->
  exists p', (p <= p' <= q)%nat /\ run_end selected i fuel ((i + p) mod m)%nat = ((i + p') mod m)%nat /\
    forall k, (p <= k < p')%nat -> sel ((i + k) mod m)%nat = true.
Proof.
  intros Hi. revert p; induction fuel as [|fuel IH]; intros p Hp Hq Hsel Hf; [lia|].
  cbn [run_end]. rewrite Hlen. fold m. fold (sel ((i + p) mod m)%nat).
  assert (Hne : ((i + p) mod m)%nat <> i).
  { destruct (decide (i + p < m)%nat); [rewrite mod_wrap by lia|rewrite mod_wrap_once by lia]; lia. }
  rewrite (proj2 (Nat.eqb_neq _ _) Hne). cbn [negb andb].
  destruct (sel ((i + p) mod m)%nat) eqn:Hsp.
  - assert (p <> q) by (intros ->; congruence).
    replace (((i + p) mod m + 1) mod m)%nat with ((i + (p + 1)) mod m)%nat
      by (rewrite Nat.Div0.add_mod_idemp_l; f_equal; lia).
    destruct (IH (p + 1)%nat) as (p' & Hp' & -> & Hrun); try done; try lia.
    exists p'. split; [lia|]. split; [done|]. intros k Hk.
    destruct (decide (k = p)) as [->|]; [done|]. apply Hrun. lia.
  - exists p. split; [lia|]. split; [done|]. intros k Hk. lia.
Qed.

Lemma entry_at_lookup i : (i < m)%nat -> l !! i = Some (entry_at l i).
Proof. intros Hi. unfold entry_at. by destruct (lookup_lt_is_Some_2 l i Hi) as [e ->]. Qed.

Lemma before_iff h i :
  off_ring h -> (i < m)%nat ->
  ((entry_at l i).1 < h <-> (i < partition_point l h)%nat) /\
  (h < (entry_at l i).1 <-> (partition_point l h <= i)%nat).
Proof.
  intros Hh Hi. pose proof (entry_at_lookup i Hi) as He.
  pose proof (partition_point_spec l h i _ Hsorted He) as Hiff.
  assert ((entry_at l i).1 <> h).
  { intros Heq. apply Hh. rewrite <- Heq. apply list_elem_of_fmap. eexists. split; [done|].
    by eapply list_elem_of_lookup_2. }
  split; [by rewrite Hiff|]. lia.
Qed.

(** The range of a run covers exactly the keys of its arcs. *)
Lemma range_covers i p h :
  (i < m)%nat -> (1 <= p < m)%nat -> off_ring h ->
  range_contains {| range_start := (entry_at l i).1;
                    range_end := (entry_at l ((i + p) mod m)%nat).1 |} h = true
  <-> in_run i p (arc_of h).
Proof.
  intros Hi Hp Hh. set (e := ((i + p) mod m)%nat).
  assert (He : e = if decide (i + p < m)%nat then (i + p)%nat else (i + p - m)%nat).
  { unfold e. case_decide; [apply mod_wrap|apply mod_wrap_once]; lia. }
  assert (Hem : (e < m)%nat) by (rewrite He; case_decide; lia).
  destruct (before_iff h i Hh Hi) as [Hi1 Hi2]. destruct (before_iff h e Hh Hem) as [He1 He2].
  pose proof (partition_point_le l h) as Hpp. fold m in Hpp.
  assert (Harc : arc_of h = if decide (partition_point l h = 0)%nat then (m - 1)%nat
                            else (partition_point l h - 1)%nat).
  { unfold arc_of. destruct (decide (partition_point l h = 0%nat)).
    - rewrite mod_wrap by lia. lia.
    - rewrite mod_wrap_once by lia. lia. }
  assert (Harcm : (arc_of h < m)%nat) by (apply Nat.mod_upper_bound; lia).
  rewrite (in_run_interval i p _ Hi Hp Harcm).
  pose proof (sorted_lookup_lt l i e _ _ Hsorted (entry_at_lookup i Hi) (entry_at_lookup e Hem)) as Hie.
  pose proof (sorted_lookup_lt l e i _ _ Hsorted (entry_at_lookup e Hem) (entry_at_lookup i Hi)) as Hei.
  unfold range_contains. simpl. rewrite Harc.
  destruct (decide (i + p < m)%nat) as [Hw|Hw].
  - rewrite (proj2 (Z.ltb_lt _ _)) by lia.
    rewrite andb_true_iff, Z.leb_le, Z.ltb_lt. case_decide; lia.
  - rewrite (proj2 (Z.ltb_ge _ _)), (proj2 (Z.eqb_neq _ _)) by lia.
    rewrite orb_true_iff, Z.leb_le, Z.ltb_lt. case_decide; lia.
Qed.

Definition covered (ranges : list VnodeRange) (h : RingPosition) : Prop :=
  exists r, r ∈ ranges /\ range_contains r h = true.

Lemma covered_snoc ranges r h :
  covered (ranges ++ [r]) h <-> covered ranges h \/ range_contains r h = true.
Proof. unfold covered. set_solver. Qed.

Lemma arc_of_lt h : (0 < m)%nat -> (arc_of h < m)%nat.
Proof. intros Hm. apply Nat.mod_upper_bound. lia. Qed.

(** The outer loop, with an unselected arc somewhere. *)
Lemma merge_runs_spec u fuel i ranges :
  (u < m)%nat -> sel u = false -> (m < i + fuel)%nat ->
  (forall h, off_ring h -> covered ranges h -> sel (arc_of h) = true) ->
  (forall h, off_ring h -> (arc_of h < i)%nat -> sel (arc_of h) = true -> covered ranges h) ->
  forall h, off_ring h ->
    covered (merge_runs l selected fuel i ranges) h <-> sel (arc_of h) = true.
Proof.
  intros Hu Husel. revert i ranges. induction fuel as [|fuel IH]; intros i ranges Hf Hsound Hcomp;
    cbn [merge_runs]; rewrite ?Hlen; fold m.
  { intros h Hh. pose proof (arc_of_lt h ltac:(lia)). split; [by auto|]. apply Hcomp; [done|lia]. }
  destruct (Nat.leb_spec m i) as [Hmi|Him].
  { intros h Hh. pose proof (arc_of_lt h ltac:(lia)). split; [by auto|]. apply Hcomp; [done|lia]. }
  fold (sel i). destruct (sel i) eqn:Hsi; cbn [negb].
  2:{ apply IH; [lia|done|]. intros h Hh Ha Hs. apply Hcomp; [done| |done].
      assert (arc_of h <> i) by congruence. lia. }
  assert (Hui : u <> i) by congruence.
  set (q := if decide (i < u)%nat then (u - i)%nat else (u + m - i)%nat).
  assert (Hq : (1 <= q < m)%nat /\ ((i + q) mod m)%nat = u).
  { unfold q. case_decide; (split; [lia|]); [rewrite mod_wrap by lia|rewrite mod_wrap_once by lia]; lia. }
  destruct (run_end_spec m i 1 q Him) as (p & Hp & -> & Hrun); try lia; [by rewrite (proj2 Hq)|].
  set (R := {| range_start := (entry_at l i).1; range_end := (entry_at l ((i + p) mod m)%nat).1 |}).
  assert (HR : forall h, off_ring h -> range_contains R h = true <-> in_run i p (arc_of h))
    by (intros h Hh; apply range_covers; [done|lia|done]).
  assert (Hrs : forall a, in_run i p a -> sel a = true).
  { intros a (k & Hk & ->). destruct (decide (k = 0)%nat) as [->|].
    - rewrite Nat.add_0_r, mod_wrap by done. done.
    - apply Hrun. lia. }
  assert (Hsound' : forall h, off_ring h -> covered (ranges ++ [R]) h -> sel (arc_of h) = true).
  { intros h Hh [Hc|Hc]%covered_snoc; [by auto|]. by apply Hrs, HR. }
  assert (He : ((i + p) mod m)%nat = if decide (i + p < m)%nat then (i + p)%nat else (i + p - m)%nat)
    by (case_decide; [apply mod_wrap|apply mod_wrap_once]; lia).
  destruct (Nat.leb_spec ((i + p) mod m) i) as [Hle|Hgt].
  - intros h Hh. split; [by apply Hsound'|]. intros Hs. apply covered_snoc.
    destruct (decide (arc_of h < i)%nat); [left; by apply Hcomp|right].
    apply HR, in_run_interval; try done; [lia|apply arc_of_lt; lia|].
    revert He. case_decide; lia.
  - assert (i + p < m)%nat by (revert He; case_decide; lia).
    apply IH; [lia|done|]. intros h Hh Ha Hs. apply covered_snoc.
    destruct (decide (arc_of h < i)%nat); [left; by apply Hcomp|right].
    apply HR, in_run_interval; try done; [lia|apply arc_of_lt; lia|].
    rewrite decide_True by done. rewrite mod_wrap in Ha by lia. lia.
Qed.

End owned_ranges.

(** ** Properties *)

(** C17: a key's replica set. Take a ring that joins and leaves produce, with at
    least one vnode per node, and such that no two different nodes that ever
    joined have a vnode position in common. [lookup] then walks clockwise from
    the key: it returns the first distinct nodes it meets, exactly
    [replication_factor] of them (one when the factor is 0), or all nodes when
    there are fewer. *)
Theorem lookup_replica_set sha256 config ops h :
  (0 < vnodes_per_node config)%nat -> vnodes_distinct sha256 (vnodes_per_node config) (joined ops) ->
  let r := foldl (ring_apply sha256) (ring_new config) ops in
  let rf := Nat.max 1 (replication_factor config) in
  NoDup (ring_lookup r h) /\
  ring_lookup r h = take rf (uniq [] (clockwise (positions r) h)) /\
  length (ring_lookup r h) = Nat.min rf (node_count r) /\
  forall n, n ∈ ring_lookup r h -> n ∈ node_ids r.
Proof.
  intros Hv Hd r rf. destruct (ring_ops_inv sha256 config ops Hv Hd) as (Hinv & _ & Hc).
  fold r in Hinv, Hc. pose proof Hinv as (Hs & _ & Hids). unfold rf. rewrite <- Hc.
  split; [by apply ring_lookup_NoDup|]. split; [by apply ring_lookup_uniq|].
  split; [by apply ring_lookup_length|]. intros n Hn. rewrite Hids. by eapply ring_lookup_elem.
Qed.

(** A stand-in for the digest: 32 bytes, and distinct for short inputs. *)
Definition toy_digest (bs : bytes) : bytes := take 32 (bs ++ replicate 32 x00).

Lemma toy_digest_length bs : length (toy_digest bs) = 32%nat.
Proof. unfold toy_digest. rewrite length_take, length_app, length_replicate. lia. Qed.

(** The distinctness of the vnodes of some nodes, by evaluation. *)
Definition vnodes_distinctb (sha256 : bytes -> bytes) (count : nat) (nodes : list NodeId) : bool :=
  forallb (fun n1 => forallb (fun n2 => forallb (fun i1 => forallb (fun i2 =>
    bool_decide (n1 = n2) || negb (hash_node sha256 n1 i1 =? hash_node sha256 n2 i2))
    (seq 0 count)) (seq 0 count)) nodes) nodes.

Lemma vnodes_distinct_check sha256 count nodes :
  vnodes_distinctb sha256 count nodes = true -> vnodes_distinct sha256 count nodes.
Proof.
  intros H n1 i1 n2 i2 H1 H2 Hi1 Hi2 E. unfold vnodes_distinctb in H.
  rewrite forallb_forall in H. specialize (H n1 (proj1 (list_elem_of_In _ _) H1)).
  rewrite forallb_forall in H. specialize (H n2 (proj1 (list_elem_of_In _ _) H2)).
  rewrite forallb_forall in H. specialize (H i1 ltac:(apply in_seq; lia)).
  rewrite forallb_forall in H. specialize (H i2 ltac:(apply in_seq; lia)).
  rewrite E, Z.eqb_refl, orb_false_r in H. by apply bool_decide_eq_true in H.
Qed.

Lemma lookup_replica_set_witness :
  let config := {| vnodes_per_node := 2; replication_factor := 2 |} in
  let r := foldl (ring_apply toy_digest) (ring_new config) [Join [x61]; Join [x62]; Join [x63]; Leave [x62]] in
  NoDup (ring_lookup r 7) /\
  ring_lookup r 7 = take 2 (uniq [] (clockwise (positions r) 7)) /\
  length (ring_lookup r 7) = Nat.min 2 (node_count r) /\
  forall n, n ∈ ring_lookup r 7 -> n ∈ node_ids r.
Proof.
  intros config r.
  apply (lookup_replica_set toy_digest config [Join [x61]; Join [x62]; Join [x63]; Leave [x62]] 7); [simpl; lia|].
  apply vnodes_distinct_check. vm_compute. reflexivity.
Defined.

(** a leave moves only what it must. After [remove_node] every key keeps
    its remaining replicas, in order, at the front of its replica set; a key
    that the node did not hold keeps its replica set unchanged. *)
Theorem leave_is_minimal r r' node ranges h :
  ring_inv r -> remove_node r node = Ok (r', ranges) ->
  filter (fun n => n <> node) (ring_lookup r h) `prefix_of` ring_lookup r' h /\
  (node ∉ ring_lookup r h -> ring_lookup r' h = ring_lookup r h).
Proof.
  intros (Hs & _ & _) Hr. destruct (remove_node_positions r r' node ranges Hs Hr) as (Hp & _ & Hc).
  assert (Hs' : sorted_entries (positions r')) by (rewrite Hp; by apply sorted_filter).
  rewrite !ring_lookup_uniq by done. rewrite Hp, Hc, clockwise_filter, uniq_filter.
  split; [apply take_filter_prefix|]. intros Hn. apply take_filter_same. intros x Hx ->. done.
Qed.

Lemma leave_is_minimal_witness :
  let r := {| positions := [(1, [x61]); (5, [x62]); (9, [x63])];
              ring_config := {| vnodes_per_node := 1; replication_factor := 2 |};
              node_ids := [[x61]; [x62]; [x63]] |} in
  let r' := {| positions := [(1, [x61]); (9, [x63])];
               ring_config := {| vnodes_per_node := 1; replication_factor := 2 |};
               node_ids := [[x61]; [x63]] |} in
  filter (fun n => n <> [x62]) (ring_lookup r 3) `prefix_of` ring_lookup r' 3 /\
  ([x62] ∉ ring_lookup r 3 -> ring_lookup r' 3 = ring_lookup r 3).
Proof.
  intros r r'. apply (leave_is_minimal r r' [x62] [{| range_start := 5; range_end := 5 |}]).
  - split; [repeat constructor|]. split; [|done]. apply (bool_decide_unpack _). by vm_compute.
  - by vm_compute.
Defined.

(** joining and leaving again restores the ring: for a node that is not a
    member, [remove_node] after [add_node] succeeds and gives back the same
    positions and the same members. *)
Theorem join_leave_roundtrip sha256 r node :
  vnodes_distinct sha256 (vnodes_per_node (ring_config r)) (node :: node_ids r) -> (0 < vnodes_per_node (ring_config r))%nat ->
  ring_inv r -> generated sha256 r -> node ∉ node_ids r ->
  exists ranges, remove_node (add_node sha256 r node).1 node = Ok (r, ranges).
Proof.
  intros Hd Hv Hinv Hgen Hnew. pose proof (generated_free sha256 r node Hinv Hgen Hd) as Hfree.
  destruct (add_node_inv sha256 r node Hv Hd Hinv Hgen) as [(Hs' & _ & Hids') _].
  destruct Hinv as (Hs & Hnd & Hids).
  assert (Hnode : node ∈ node_ids (add_node sha256 r node).1)
    by (simpl; rewrite decide_False by done; set_solver).
  destruct (remove_node_member (add_node sha256 r node).1 node) as (r' & ranges & Hr);
    [by apply Hids'|].
  exists ranges. rewrite Hr. destruct (remove_node_positions _ _ _ _ Hs' Hr) as (Hp & Hn & Hc).
  rewrite add_node_positions, (leave_join_positions sha256) in Hp by (done || by rewrite <- Hids).
  simpl in Hn. rewrite decide_False, filter_app, filter_true_in, filter_false_in in Hn;
    [|intros x ->%list_elem_of_singleton Hx; by apply Hx|by intros x Hx ->|done].
  rewrite app_nil_r in Hn. destruct r, r'; simpl in *. by subst.
Qed.

Lemma join_leave_roundtrip_witness :
  let r := ring_new {| vnodes_per_node := 2; replication_factor := 2 |} in
  exists ranges, remove_node (add_node toy_digest r [x61]).1 [x61] = Ok (r, ranges).
Proof.
  intros r. apply (join_leave_roundtrip toy_digest r [x61]); [|simpl; lia| | |].
  - apply vnodes_distinct_check. vm_compute. reflexivity.
  - split; [constructor|]. split; [constructor|done].
  - intros e He. by apply not_elem_of_nil in He.
  - apply not_elem_of_nil.
Defined.

(** the enumeration of owned ranges is right. For every key that is not
    itself a vnode position, the key lies in one of the ranges
    [ranges_owned_by] returns exactly when the node is in the key's replica
    set; this covers the empty ring, the full circle and wrapped runs. *)
Theorem ranges_owned_by_correct r node h :
  ring_inv r -> h ∉ (positions r).*1 ->
  covered (ranges_owned_by r node) h <-> node ∈ ring_lookup r h.
Proof.
  intros (Hs & _ & _) Hh. unfold ranges_owned_by.
  destruct (positions r) as [|e0 l0] eqn:Hp.
  { unfold ring_lookup. rewrite Hp. unfold covered. set_solver. }
  rewrite <- Hp in *. set (l := positions r) in *. set (m := length l).
  assert (Hm : (0 < m)%nat) by (unfold m; rewrite Hp; simpl; lia).
  set (selected := _ <$> seq 0 m).
  assert (Hlen : length selected = length l) by (unfold selected; by rewrite length_fmap, length_seq).
  assert (Hsel : forall a, (a < m)%nat -> default false (selected !! a)
            = bool_decide (node ∈ ring_lookup r (entry_at l ((a + 1) mod m)%nat).1)).
  { intros a Ha. unfold selected. by rewrite list_lookup_fmap, lookup_seq_lt. }
  assert (Harc : default false (selected !! arc_of l h) = bool_decide (node ∈ ring_lookup r h)).
  { assert (Hlt : (arc_of l h < m)%nat) by (apply Nat.mod_upper_bound; lia).
    rewrite Hsel by done. apply bool_decide_ext.
    rewrite (lookup_arc_end r h Hs) by (by unfold l in Hp; rewrite Hp). fold l m.
    unfold arc_of. fold m. rewrite Nat.Div0.add_mod_idemp_l.
    replace (partition_point l h + (m - 1) + 1)%nat with (partition_point l h + 1 * m)%nat by lia.
    by rewrite Nat.Div0.mod_add. }
  rewrite <- (bool_decide_eq_true (node ∈ ring_lookup r h)), <- Harc.
  assert (Harclt : (arc_of l h < length selected)%nat) by (rewrite Hlen; apply Nat.mod_upper_bound; fold m; lia).
  destruct (lookup_lt_is_Some_2 selected _ Harclt) as [b Hb]. rewrite Hb. simpl.
  pose proof Hb as Hb0. apply list_elem_of_lookup_2, list_elem_of_In in Hb.
  destruct (existsb id selected) eqn:Hex; cbn [negb].
  2:{ split; [unfold covered; set_solver|]. intros ->.
      apply not_true_iff_false in Hex. destruct Hex. apply existsb_exists. eauto. }
  destruct (forallb id selected) eqn:Hall.
  { rewrite forallb_forall in Hall. specialize (Hall _ Hb). simpl in Hall. subst b.
    split; [done|]. intros _. eexists. split; [by left|]. done. }
  apply forallb_id_false in Hall as [u Hu].
  assert (Hul : (u < m)%nat) by (unfold m; rewrite <- Hlen; by eapply lookup_lt_Some).
  rewrite (merge_runs_spec l selected Hs Hlen u (m + 1) 0 []); try done.
  - by rewrite Hb0.
  - by rewrite Hu.
  - fold m. lia.
  - unfold covered. set_solver.
  - intros ? ? ?. lia.
Qed.

Lemma ranges_owned_by_correct_witness :
  let r := {| positions := [(10, [x61]); (20, [x61]); (30, [x62]); (40, [x61])];
              ring_config := {| vnodes_per_node := 1; replication_factor := 1 |};
              node_ids := [[x61]; [x62]] |} in
  covered (ranges_owned_by r [x61]) 35 <-> [x61] ∈ ring_lookup r 35.
Proof.
  intros r. apply (ranges_owned_by_correct r [x61] 35).
  - split; [repeat constructor|]. split; [apply (bool_decide_unpack _); by vm_compute|].
    intros n. simpl. set_solver.
  - apply (bool_decide_unpack _). by vm_compute.
Defined.

(** The ranges of one node may overlap: on the ring of the witness above the
    key 15 lies in the run [10..20) and again in the wrapped run [30..20). *)
Lemma owned_ranges_overlap :
  let r := {| positions := [(10, [x61]); (20, [x61]); (30, [x62]); (40, [x61])];
              ring_config := {| vnodes_per_node := 1; replication_factor := 1 |};
              node_ids := [[x61]; [x62]] |} in
  ranges_owned_by r [x61] = [{| range_start := 10; range_end := 20 |};
                             {| range_start := 30; range_end := 20 |}] /\
  forallb (fun range => range_contains range 15) (ranges_owned_by r [x61]) = true.
Proof. by vm_compute. Qed.
