(* ===== verification/ShardBatch.v ===== *)
(** * Batching shard fetches by node (crates/oceanfs-routing/src/shard_batch.rs) *)

From Stdlib Require Import ZArith Lia Strings.Byte.
From S2P Require Import Prelude Ring.

Record ShardRequest := {
  req_segment_id : bytes; req_shard_index : Z; req_offset : Z; req_length : Z }.

#[export] Instance ShardRequest_eq_dec : EqDecision ShardRequest.
Proof. solve_decision. Defined.

Abbreviation groups := (list (NodeId * list ShardRequest)).

(** [groups.iter_mut().find(..)]: push to the first group of the node, or append
    a new group. *)
Fixpoint push_group (gs : groups) (node_id : NodeId) (shard : ShardRequest) : groups :=
  match gs with
  | [] => [(node_id, [shard])]
  | (id, shards) :: gs =>
      if decide (id = node_id) then (id, shards ++ [shard]) :: gs
      else (id, shards) :: push_group gs node_id shard
  end.

Definition group_by_node (shards : list ShardRequest)
    (resolve_owner : ShardRequest -> option NodeId) : groups :=
  foldl (fun gs shard =>
    match resolve_owner shard with
    | None => gs
    | Some node_id => push_group gs node_id shard
    end) [] shards.

Lemma uniq_snoc seen l n :
  uniq seen (l ++ [n]) = uniq seen l ++ if decide (n ∈ seen \/ n ∈ l) then [] else [n].
Proof.
  revert seen; induction l as [|x l IH]; intros seen; simpl.
  - apply decide_ext. rewrite elem_of_nil. tauto.
  - destruct (decide (x ∈ seen)) as [Hx|Hx]; rewrite IH; [|simpl; f_equal]; f_equal; apply decide_ext;
      rewrite ?elem_of_app, ?elem_of_cons, ?elem_of_nil; naive_solver.
Qed.

(** Pushing to groups that list each node of [ns] once. *)
Lemma push_group_spec (f : NodeId -> list ShardRequest) ns n s :
  NoDup ns ->
  push_group ((fun x => (x, f x)) <$> ns) n s
    = ((fun x => (x, if decide (x = n) then f x ++ [s] else f x)) <$> ns)
        ++ if decide (n ∈ ns) then [] else [(n, [s])].
Proof.
  induction 1 as [|x ns Hx Hnd IH]; [done|]. rewrite !fmap_cons. cbn [push_group].
  destruct (decide (x = n)) as [->|Hne].
  - rewrite decide_True by (by left). rewrite app_nil_r. f_equal.
    apply list_fmap_ext. intros i y Hy. rewrite decide_False; [done|].
    intros ->. by apply Hx, (list_elem_of_lookup_2 _ i).
  - rewrite IH. rewrite (decide_ext (n ∈ x :: ns) (n ∈ ns)) by set_solver. done.
Qed.

(** ** Property *)

(** the groups are exactly the requests by owner. There is one group per
    resolved owner, in the order in which the owners are first seen; the group
    of a node holds its requests, all of them, in their original order; and
    requests without an owner appear nowhere. *)
Theorem group_by_node_spec shards resolve_owner :
  group_by_node shards resolve_owner
    = (fun n => (n, filter (fun s => resolve_owner s = Some n) shards))
        <$> uniq [] (omap resolve_owner shards).
Proof.
  induction shards as [|s shards IH] using rev_ind; [done|].
  unfold group_by_node in *. rewrite foldl_app. simpl. rewrite IH, omap_app. simpl.
  destruct (resolve_owner s) as [n|] eqn:Hs; simpl.
  - rewrite push_group_spec by apply uniq_NoDup. rewrite uniq_snoc, fmap_app. f_equal.
    + apply list_fmap_ext. intros i x _. f_equal. rewrite filter_app. case_decide as Hx.
      * subst x. by rewrite filter_cons_True.
      * rewrite filter_cons_False by congruence. by rewrite app_nil_r.
    + rewrite (decide_ext (n ∈ uniq [] (omap resolve_owner shards))
                          (n ∈ [] \/ n ∈ omap resolve_owner shards))
        by (rewrite uniq_elem; set_solver).
      case_decide as Hn; [done|]. simpl. do 2 f_equal. rewrite filter_app, filter_cons_True by done.
      rewrite filter_false_in; [done|]. intros x Hx Hr. apply Hn. right.
      apply list_elem_of_omap. eauto.
  - rewrite app_nil_r. apply list_fmap_ext. intros i x _. rewrite filter_app.
    rewrite filter_cons_False by congruence. by rewrite app_nil_r.
Qed.
