(* ===== verification/WalPos.v ===== *)
(** * Log positions and log file names

    [DataWalPos] and [EventWalPos] with their order and the packed encoding
    (crates/oceanfs-storage/src/segment/event_wal.rs), the file names
    [wal_{seq:08}.log] and [evl_{seq:08}.log], the discovery of the data WAL's
    files and the parsing of their sequence numbers
    (crates/oceanfs-storage/src/wal/reader.rs). File names are byte strings;
    paths of one directory are ordered by the bytes of the file name. *)

From Stdlib Require Import ZArith Lia Strings.Byte Sorting.Sorted.
From stdpp Require Import base list sorting.
From S2P Require Import Prelude.

Local Open Scope Z_scope.

(** ** Positions *)

Record DataWalPos := { dp_file_seq : Z; dp_offset : Z }.

Record EventWalPos := { ep_file_seq : Z; ep_offset : Z }.

(** The derived [Ord]: file sequence first, then offset. *)
Definition pos_lt (a b : EventWalPos) : Prop :=
  ep_file_seq a < ep_file_seq b \/
  (ep_file_seq a = ep_file_seq b /\ ep_offset a < ep_offset b).

Definition PACKED_OFFSET_BITS : Z := 48.
Definition PACKED_OFFSET_MASK : Z := 2 ^ PACKED_OFFSET_BITS - 1.

(** The shift drops the bits that leave the 64-bit word. *)
Definition packed (p : EventWalPos) : Z :=
  Z.lor (wrap64 (Z.shiftl (ep_file_seq p) PACKED_OFFSET_BITS))
        (Z.land (ep_offset p) PACKED_OFFSET_MASK).

Definition from_packed (x : Z) : EventWalPos :=
  {| ep_file_seq := wrap32 (Z.shiftr x PACKED_OFFSET_BITS);
     ep_offset := Z.land x PACKED_OFFSET_MASK |}.

(** ** Decimal numbers *)

Definition digit (d : Z) : byte := byte_of_Z (48 + d).

Definition is_digit (b : byte) : bool := (48 <=? Z_of_byte b) && (Z_of_byte b <=? 57).

(** The decimal digits of a number, least significant first. *)
Fixpoint digits_le (fuel : nat) (n : Z) : list Z :=
  match fuel with
  | O => []
  | S fuel => n mod 10 :: (if n <? 10 then [] else digits_le fuel (n / 10))
  end.

(** [format!("{seq:08}")] of a [u32], which has at most ten digits. *)
Definition fmt08 (seq : Z) : bytes :=
  let ds := digits_le 10 seq in
  digit <$> rev (ds ++ replicate (8 - length ds) 0).

(** [format!("{n}")] of a [u64], which has at most twenty digits. *)
Definition fmt_u64 (n : Z) : bytes := digit <$> rev (digits_le 20 n).

Fixpoint parse_digits (max acc : Z) (bs : bytes) : option Z :=
  match bs with
  | [] => Some acc
  | b :: bs =>
      if is_digit b then
        let v := acc * 10 + (Z_of_byte b - 48) in
        if max <? v then None else parse_digits max v bs
      else None
  end.

(** [str::parse] of an unsigned integer with maximum [max]: an optional plus
    sign, at least one digit, no overflow. *)
Definition parse_uint (max : Z) (bs : bytes) : option Z :=
  let rest := match bs with x2b :: r => r | _ => bs end in
  match rest with [] => None | _ => parse_digits max 0 rest end.

Definition parse_u32 : bytes -> option Z := parse_uint u32_max.
Definition parse_u64 : bytes -> option Z := parse_uint u64_max.

(** ** File names *)

Definition bytes_eqb (a b : bytes) : bool := bool_decide (a = b).

Definition strip_prefix (p s : bytes) : option bytes :=
  if bytes_eqb (take (length p) s) p then Some (drop (length p) s) else None.

Definition strip_suffix (p s : bytes) : option bytes :=
  if (length p <=? length s)%nat && bytes_eqb (drop (length s - length p) s) p
  then Some (take (length s - length p) s) else None.

Definition wal_prefix : bytes := [x77; x61; x6c; x5f].
Definition evl_prefix : bytes := [x65; x76; x6c; x5f].
Definition log_suffix : bytes := [x2e; x6c; x6f; x67].

Definition wal_file_name (seq : Z) : bytes := wal_prefix ++ fmt08 seq ++ log_suffix.
Definition evl_file_name (seq : Z) : bytes := evl_prefix ++ fmt08 seq ++ log_suffix.

Definition parse_name (prefix name : bytes) : option Z :=
  n ← strip_prefix prefix name;
  n ← strip_suffix log_suffix n;
  parse_u32 n.

(** [parse_evl_name]. *)
Definition parse_evl_name (name : bytes) : option Z := parse_name evl_prefix name.

(** [WalReplayPosIter::file_seq_of]. *)
Definition file_seq_of (name : bytes) : Z := default 0 (parse_name wal_prefix name).

(** The order of byte strings. *)
Fixpoint lex_le (a b : bytes) : bool :=
  match a, b with
  | [], _ => true
  | _ :: _, [] => false
  | x :: a, y :: b =>
      (Z_of_byte x <? Z_of_byte y) || ((Z_of_byte x =? Z_of_byte y) && lex_le a b)
  end.

(** [WalReader::open]: the names of the directory that look like WAL files, sorted. *)
Definition open_names (dir : list bytes) : list bytes :=
  merge_sort lex_le
    (filter (fun n => is_Some (strip_prefix wal_prefix n) /\ is_Some (strip_suffix log_suffix n)) dir).

(** ** Decimal round trip *)

Fixpoint val_le (l : list Z) : Z :=
  match l with [] => 0 | d :: l => d + 10 * val_le l end.

Fixpoint le10 (w : nat) (n : Z) : list Z :=
  match w with O => [] | S w => n mod 10 :: le10 w (n / 10) end.

Definition is_dec (d : Z) : Prop := 0 <= d < 10.

Lemma digit_val d : is_dec d -> Z_of_byte (digit d) = 48 + d.
Proof. unfold is_dec, digit. intros H. rewrite Z_of_byte_of_Z. by apply Z.mod_small; lia. Qed.

Lemma digits_le_dec fuel n : Forall is_dec (digits_le fuel n).
Proof.
  revert n; induction fuel; intros n; cbn [digits_le]; constructor.
  - unfold is_dec. pose proof (Z.mod_pos_bound n 10). lia.
  - destruct (n <? 10); [constructor | apply IHfuel].
Qed.

Lemma digits_le_val fuel n : 0 <= n < 10 ^ Z.of_nat fuel -> val_le (digits_le fuel n) = n.
Proof.
  revert n; induction fuel as [|fuel IH]; intros n Hn; cbn [digits_le val_le].
  - change (10 ^ Z.of_nat 0) with 1 in Hn. lia.
  - rewrite Nat2Z.inj_succ, Z.pow_succ_r in Hn by lia.
    destruct (n <? 10) eqn:E; cbn [val_le].
    + rewrite Z.mod_small by lia. lia.
    + rewrite IH by (split; [apply Z.div_pos; lia | apply Z.div_lt_upper_bound; lia]).
      pose proof (Z.div_mod n 10). lia.
Qed.

Lemma val_le_app_zeros l k : val_le (l ++ replicate k 0) = val_le l.
Proof. induction l as [|d l IH]; cbn [app val_le]; [induction k; cbn; lia | lia]. Qed.

Lemma val_le_nonneg l : Forall is_dec l -> 0 <= val_le l.
Proof. induction 1 as [|d l Hd _ IH]; cbn [val_le]; unfold is_dec in *; lia. Qed.

Lemma parse_digits_app max acc a b :
  parse_digits max acc (a ++ b) = v ← parse_digits max acc a; parse_digits max v b.
Proof.
  revert acc; induction a as [|x a IH]; intros acc; cbn [app parse_digits]; [done|].
  destruct (is_digit x); [|done]. by destruct (max <? _).
Qed.

Lemma digit_is_digit d : is_dec d -> is_digit (digit d) = true.
Proof.
  intros Hd. unfold is_digit. rewrite digit_val by done. unfold is_dec in Hd.
  by rewrite (proj2 (Z.leb_le 48 (48 + d))), (proj2 (Z.leb_le (48 + d) 57)) by lia.
Qed.

Lemma parse_rev_digits max l :
  Forall is_dec l -> val_le l <= max -> parse_digits max 0 (digit <$> rev l) = Some (val_le l).
Proof.
  induction 1 as [|d l Hd Hl IH]; cbn [val_le rev]; intros Hv; [done|].
  pose proof (val_le_nonneg l Hl). pose proof Hd as Hd'. unfold is_dec in Hd'.
  rewrite fmap_app, parse_digits_app, IH by lia.
  cbn [mbind option_bind fmap list_fmap parse_digits].
  rewrite digit_is_digit, digit_val by done.
  replace (val_le l * 10 + (48 + d - 48)) with (d + 10 * val_le l) by lia.
  by rewrite (proj2 (Z.ltb_ge max (d + 10 * val_le l))).
Qed.

(** Parsing reads back any non-empty decimal representation in range. *)
Lemma parse_decimal max l :
  Forall is_dec l -> (0 < length l)%nat -> val_le l <= max ->
  parse_uint max (digit <$> rev l) = Some (val_le l).
Proof.
  intros Hl Hlen Hv. pose proof (parse_rev_digits max l Hl Hv) as Hp. unfold parse_uint.
  destruct (digit <$> rev l) as [|b bs] eqn:E.
  - apply fmap_nil_inv, (f_equal length) in E. rewrite length_rev in E. cbn in E. lia.
  - destruct (is_digit b) eqn:Eb.
    + by destruct b.
    + cbn [parse_digits] in Hp. by rewrite Eb in Hp.
Qed.

Lemma padded_dec fuel n k : Forall is_dec (digits_le fuel n ++ replicate k 0).
Proof.
  apply Forall_app. split; [apply digits_le_dec|].
  apply Forall_replicate. unfold is_dec. lia.
Qed.

Lemma parse_fmt08 seq : is_u32 seq -> parse_u32 (fmt08 seq) = Some seq.
Proof.
  intros H. unfold is_u32, u32_max in H.
  assert (Hv : val_le (digits_le 10 seq ++ replicate (8 - length (digits_le 10 seq)) 0) = seq)
    by (rewrite val_le_app_zeros; apply digits_le_val; simpl; lia).
  unfold parse_u32, fmt08. cbv zeta. rewrite parse_decimal, Hv; [done|apply padded_dec| |].
  - rewrite length_app. cbn [digits_le length]. lia.
  - unfold u32_max. lia.
Qed.

Lemma parse_fmt_u64 n : is_u64 n -> parse_u64 (fmt_u64 n) = Some n.
Proof.
  intros H. unfold is_u64, u64_max in H.
  assert (Hv : val_le (digits_le 20 n) = n) by (apply digits_le_val; simpl; lia).
  unfold parse_u64, fmt_u64. rewrite parse_decimal, Hv; [done|apply digits_le_dec| |].
  - cbn [digits_le length]. lia.
  - unfold u64_max. lia.
Qed.

Lemma strip_prefix_app p s : strip_prefix p (p ++ s) = Some s.
Proof.
  unfold strip_prefix, bytes_eqb. rewrite take_app_length, drop_app_length.
  by rewrite bool_decide_true.
Qed.

Lemma strip_suffix_app p s : strip_suffix p (s ++ p) = Some s.
Proof.
  unfold strip_suffix, bytes_eqb. rewrite length_app.
  replace (length s + length p - length p)%nat with (length s) by lia.
  rewrite take_app_length, drop_app_length, bool_decide_true by done.
  by rewrite (proj2 (Nat.leb_le _ _)) by lia.
Qed.

Lemma parse_name_fmt p seq :
  is_u32 seq -> parse_name p (p ++ fmt08 seq ++ log_suffix) = Some seq.
Proof.
  intros H. unfold parse_name. rewrite strip_prefix_app. cbn [mbind option_bind].
  rewrite strip_suffix_app. cbn [mbind option_bind]. by apply parse_fmt08.
Qed.

(** ** Order of the names *)

Lemma le10_zero w : le10 w 0 = replicate w 0.
Proof. induction w; cbn [le10 replicate]; [done|]. by rewrite Z.div_0_l, IHw. Qed.

Lemma length_le10 w n : length (le10 w n) = w.
Proof. revert n; induction w; intros; cbn; [done|]. by rewrite IHw. Qed.

Lemma le10_val w n : 0 <= n < 10 ^ Z.of_nat w -> val_le (le10 w n) = n.
Proof.
  revert n; induction w as [|w IH]; intros n Hn; cbn [le10 val_le].
  - change (10 ^ Z.of_nat 0) with 1 in Hn. lia.
  - rewrite Nat2Z.inj_succ, Z.pow_succ_r in Hn by lia.
    rewrite IH by (split; [apply Z.div_pos; lia | apply Z.div_lt_upper_bound; lia]).
    pose proof (Z.div_mod n 10). lia.
Qed.

Lemma digits_le_pad fuel w n :
  (0 < w)%nat -> 0 <= n < 10 ^ Z.of_nat w -> n < 10 ^ Z.of_nat fuel -> (0 < fuel)%nat ->
  digits_le fuel n ++ replicate (w - length (digits_le fuel n)) 0 = le10 w n.
Proof.
  revert w n; induction fuel as [|fuel IH]; intros [|w] n Hw Hn Hf H0; [lia..|].
  rewrite Nat2Z.inj_succ, Z.pow_succ_r in Hf by lia.
  rewrite Nat2Z.inj_succ, Z.pow_succ_r in Hn by lia.
  cbn [digits_le le10]. destruct (n <? 10) eqn:E.
  - cbn [length app]. rewrite Nat.sub_succ, Nat.sub_0_r.
    by rewrite (Z.div_small n 10), le10_zero by lia.
  - cbn [length app]. rewrite Nat.sub_succ. f_equal. apply IH.
    + destruct w; [change (10 ^ Z.of_nat 0) with 1 in Hn; lia | lia].
    + split; [apply Z.div_pos; lia | apply Z.div_lt_upper_bound; lia].
    + apply Z.div_lt_upper_bound; lia.
    + destruct fuel; [change (10 ^ Z.of_nat 0) with 1 in Hf; lia | lia].
Qed.

Lemma fmt08_fixed seq : 0 <= seq < 10 ^ 8 -> fmt08 seq = digit <$> rev (le10 8 seq).
Proof. intros H. unfold fmt08. rewrite digits_le_pad; simpl; try done; lia. Qed.

Lemma lex_le_refl a : lex_le a a = true.
Proof. induction a; cbn [lex_le]; [done|]. rewrite IHa, Z.eqb_refl. apply orb_true_r. Qed.

Lemma lex_le_prefix p a b : lex_le (p ++ a) (p ++ b) = lex_le a b.
Proof. induction p; cbn [app lex_le]; [done|]. by rewrite IHp, Z.eqb_refl, Z.ltb_irrefl. Qed.

Lemma lex_le_app a b c d :
  length a = length b ->
  lex_le (a ++ c) (b ++ d) = if bytes_eqb a b then lex_le c d else lex_le a b.
Proof.
  revert b; induction a as [|x a IH]; intros [|y b] Hl; try done. injection Hl as Hl.
  cbn [app lex_le]. rewrite IH by done. unfold bytes_eqb.
  destruct (Z.ltb_spec (Z_of_byte x) (Z_of_byte y)); cbn [orb].
  - rewrite bool_decide_false; [done|]. intros [= -> _]. lia.
  - destruct (Z.eqb_spec (Z_of_byte x) (Z_of_byte y)) as [E|E]; cbn [andb].
    + apply Z_of_byte_inj in E as ->. by rewrite (bool_decide_ext (y :: a = y :: b) (a = b)) by naive_solver.
    + rewrite bool_decide_false; [done|]. intros [= -> _]. lia.
Qed.

Lemma digit_inj a b : is_dec a -> is_dec b -> digit a = digit b -> a = b.
Proof. intros Ha Hb H. apply (f_equal Z_of_byte) in H. rewrite !digit_val in H by done. lia. Qed.

Definition be10 (w : nat) (n : Z) : bytes := digit <$> rev (le10 w n).

Lemma be10_S w n : be10 (S w) n = be10 w (n / 10) ++ [digit (n mod 10)].
Proof. unfold be10. cbn [le10 rev]. by rewrite fmap_app. Qed.

Lemma length_be10 w n : length (be10 w n) = w.
Proof. unfold be10. by rewrite length_fmap, length_rev, length_le10. Qed.

Lemma mod10_dec n : is_dec (n mod 10).
Proof. unfold is_dec. apply Z.mod_pos_bound. lia. Qed.

Lemma be10_order w a b :
  0 <= a < 10 ^ Z.of_nat w -> 0 <= b < 10 ^ Z.of_nat w ->
  lex_le (be10 w a) (be10 w b) = (a <=? b) /\ (be10 w a = be10 w b -> a = b).
Proof.
  revert a b; induction w as [|w IH]; intros a b Ha Hb.
  - change (10 ^ Z.of_nat 0) with 1 in *. replace a with b by lia. by rewrite lex_le_refl, Z.leb_refl.
  - rewrite Nat2Z.inj_succ, Z.pow_succ_r in Ha, Hb by lia. rewrite !be10_S.
    destruct (IH (a / 10) (b / 10)) as [Hle Hinj];
      [split; [apply Z.div_pos; lia | apply Z.div_lt_upper_bound; lia]..|].
    pose proof (Z.div_mod a 10 ltac:(lia)). pose proof (Z.div_mod b 10 ltac:(lia)).
    pose proof (mod10_dec a) as Hda. pose proof (mod10_dec b) as Hdb.
    split.
    + rewrite lex_le_app, Hle by (by rewrite !length_be10). unfold bytes_eqb.
      unfold is_dec in *. destruct (decide (a / 10 = b / 10)) as [E|E].
      * rewrite E, bool_decide_true by done. cbn [lex_le].
        rewrite !digit_val by (unfold is_dec; lia). rewrite andb_true_r.
        apply Bool.eq_iff_eq_true. rewrite orb_true_iff, Z.ltb_lt, Z.eqb_eq, Z.leb_le. lia.
      * rewrite bool_decide_false by (intros E'; by apply E, Hinj).
        apply Bool.eq_iff_eq_true. rewrite !Z.leb_le. lia.
    + intros [E1 E2%digit_inj]%app_inj_tail; [|done..]. apply Hinj in E1. lia.
Qed.

(** Below 10^8 the order of the names is the order of the numbers. *)
Lemma wal_file_name_order a b :
  0 <= a < 10 ^ 8 -> 0 <= b < 10 ^ 8 ->
  lex_le (wal_file_name a) (wal_file_name b) = (a <=? b).
Proof.
  intros Ha Hb. destruct (be10_order 8 a b) as [Hle Hinj]; [done..|].
  unfold wal_file_name. rewrite lex_le_prefix, !fmt08_fixed by done. fold (be10 8 a) (be10 8 b).
  rewrite lex_le_app by (by rewrite !length_be10). unfold bytes_eqb.
  destruct (decide (be10 8 a = be10 8 b)) as [E|E].
  - rewrite bool_decide_true by done. rewrite (Hinj E), lex_le_refl. lia.
  - by rewrite bool_decide_false.
Qed.

#[global] Instance lex_le_trans : Transitive (fun a b => Is_true (lex_le a b)).
Proof.
  intros a; induction a as [|x a IH]; intros [|y b] [|z c]; cbn [lex_le]; try done.
  rewrite !Is_true_true, !orb_true_iff, !andb_true_iff, !Z.ltb_lt, !Z.eqb_eq.
  intros [?|[? H1]] [?|[? H2]]; [left; lia..|]. right. split; [lia|].
  apply Is_true_true. apply (IH b c); by apply Is_true_true.
Qed.

#[global] Instance lex_le_antisym : AntiSymm (=) (fun a b => Is_true (lex_le a b)).
Proof.
  intros a; induction a as [|x a IH]; intros [|y b]; cbn [lex_le]; try done.
  rewrite !Is_true_true, !orb_true_iff, !andb_true_iff, !Z.ltb_lt, !Z.eqb_eq.
  intros [?|[? H1]] [?|[? H2]]; [lia..|]. f_equal; [by apply Z_of_byte_inj|].
  apply IH; by apply Is_true_true.
Qed.

#[global] Instance lex_le_total : Total (fun a b => Is_true (lex_le a b)).
Proof.
  intros a; induction a as [|x a IH]; intros [|y b]; cbn [lex_le]; try (by left); try (by right).
  rewrite !Is_true_true, !orb_true_iff, !andb_true_iff, !Z.ltb_lt, !Z.eqb_eq.
  destruct (Z.lt_trichotomy (Z_of_byte x) (Z_of_byte y)) as [?|[?|?]]; [by left; left| |by right; left].
  destruct (IH b) as [Hab|Hab]; apply Is_true_true in Hab; [left|right]; right; split; done.
Qed.

(** ** Discovery *)

Lemma wal_name_accepted seq :
  is_Some (strip_prefix wal_prefix (wal_file_name seq)) /\
  is_Some (strip_suffix log_suffix (wal_file_name seq)).
Proof.
  unfold wal_file_name. rewrite strip_prefix_app. split; [done|].
  rewrite app_assoc, strip_suffix_app. done.
Qed.

Lemma sorted_names seqs :
  Forall (fun s => 0 <= s < 10 ^ 8) seqs -> StronglySorted Z.le seqs ->
  Sorted (fun a b => Is_true (lex_le a b)) (wal_file_name <$> seqs).
Proof.
  intros Hb Hs. apply StronglySorted_Sorted.
  induction Hs as [|s seqs Hs IH Hle]; cbn; constructor.
  - apply IH. by inversion Hb.
  - apply Forall_fmap. inversion Hb as [|? ? Hs0 Hb']; subst.
    rewrite Forall_forall in Hb', Hle. apply Forall_forall. intros x Hx.
    change (Is_true (lex_le (wal_file_name s) (wal_file_name x))).
    specialize (Hb' x Hx). specialize (Hle x Hx). rewrite Is_true_true, wal_file_name_order by done. by apply Z.leb_le.
Qed.

(** Opening the data WAL finds every WAL file of the directory and nothing
    else, and replays them in the order of their sequence numbers, for all
    sequence numbers below 10^8: if the directory lists, in any order, the
    files of the sequence numbers [seqs] and other files whose names do not
    match [wal_*.log], [WalReader::open] returns the names of the sorted
    sequence numbers, and [file_seq_of] reads each number back (this one for
    every 32-bit number). *)
Theorem wal_discovery_in_order (dir others : list bytes) (seqs : list Z) :
  dir ≡ₚ (wal_file_name <$> seqs) ++ others ->
  Forall (fun s => 0 <= s < 10 ^ 8) seqs ->
  Forall (fun n => ~ (is_Some (strip_prefix wal_prefix n) /\ is_Some (strip_suffix log_suffix n)))
    others ->
  open_names dir = wal_file_name <$> merge_sort Z.le seqs /\
  (forall s, is_u32 s -> file_seq_of (wal_file_name s) = s).
Proof.
  intros Hdir Hb Ho. split.
  - unfold open_names.
    apply (Sorted_unique (fun a b => Is_true (lex_le a b))).
    + apply Sorted_merge_sort; apply _.
    + apply sorted_names.
      * by rewrite (merge_sort_Permutation Z.le seqs).
      * apply (StronglySorted_merge_sort Z.le).
    + rewrite merge_sort_Permutation, Hdir, filter_app.
      rewrite filter_true_in, filter_false_in.
      * rewrite app_nil_r. apply Permutation_map. symmetry. apply merge_sort_Permutation.
      * by apply Forall_forall.
      * intros n (s & -> & _)%list_elem_of_fmap. apply wal_name_accepted.
  - intros s Hs. unfold file_seq_of, wal_file_name. by rewrite parse_name_fmt.
Qed.

Lemma wal_discovery_in_order_witness :
  let dir := [wal_file_name 10; [x61]; wal_file_name 2] in
  open_names dir = wal_file_name <$> merge_sort Z.le [10; 2] /\
  (forall s, is_u32 s -> file_seq_of (wal_file_name s) = s).
Proof.
  apply (wal_discovery_in_order [wal_file_name 10; [x61]; wal_file_name 2] [[x61]] [10; 2]).
  - change ([wal_file_name 10] ++ [[x61]; wal_file_name 2]
      ≡ₚ [wal_file_name 10] ++ [wal_file_name 2; [x61]]).
    apply Permutation_app_head. apply perm_swap.
  - repeat constructor; lia.
  - repeat constructor. intros [H _]. vm_compute in H. by destruct H.
Defined.

(** Eight digits are a minimum, not a fixed width: from sequence number
    10^8 on, the name order is no longer the replay order. A directory with
    the files 99999999 and 100000000 is replayed in the wrong order. *)
Theorem wal_discovery_misorders :
  open_names [wal_file_name 99999999; wal_file_name 100000000]
  = [wal_file_name 100000000; wal_file_name 99999999].
Proof. by vm_compute. Qed.

(** ** Packed positions *)

Definition packable (p : EventWalPos) : Prop :=
  0 <= ep_file_seq p < 2 ^ 16 /\ 0 <= ep_offset p < 2 ^ 48.

Lemma packed_value p : packable p -> packed p = ep_file_seq p * 2 ^ 48 + ep_offset p.
Proof.
  intros [Hs Ho]. unfold packed, PACKED_OFFSET_MASK, PACKED_OFFSET_BITS, wrap64.
  change (2 ^ 48 - 1) with (Z.ones 48). rewrite Z.land_ones, (Z.mod_small (ep_offset p)) by lia.
  rewrite Z.shiftl_mul_pow2, Z.mod_small by lia.
  rewrite <- Z.shiftl_mul_pow2, lor_shiftl_add by lia. by rewrite Z.shiftl_mul_pow2 by lia.
Qed.

(** A position of the event log whose file sequence number fits in 16 bits
    and whose offset fits in 48 survives the packing into one 64-bit word, and
    the packed words compare exactly as the positions do, so that the single
    atomic store publishes a monotone position. *)
Theorem packed_position_roundtrip_order p q :
  packable p -> packable q ->
  from_packed (packed p) = p /\ (packed p < packed q <-> pos_lt p q).
Proof.
  intros Hp Hq. rewrite !packed_value by done. destruct Hp as [Hs Ho], Hq as [Hs' Ho'].
  split; [|unfold pos_lt; lia].
  unfold from_packed, PACKED_OFFSET_MASK, PACKED_OFFSET_BITS, wrap32.
  change (2 ^ 48 - 1) with (Z.ones 48). rewrite Z.land_ones by lia.
  rewrite Z.shiftr_div_pow2, Z.div_add_l, (Z.div_small (ep_offset p)), Z.add_0_r by lia.
  rewrite (Z.mod_small (ep_file_seq p)) by lia.
  rewrite Z.add_comm, Z_mod_plus_full, Z.mod_small by lia. by destruct p.
Qed.

Lemma packed_position_roundtrip_order_witness :
  let p := {| ep_file_seq := 65535; ep_offset := 7 |} in
  let q := {| ep_file_seq := 3; ep_offset := 67108864 |} in
  from_packed (packed p) = p /\ (packed p < packed q <-> pos_lt p q).
Proof.
  apply (packed_position_roundtrip_order {| ep_file_seq := 65535; ep_offset := 7 |}
    {| ep_file_seq := 3; ep_offset := 67108864 |}); unfold packable; cbn; lia.
Defined.
