(* ===== verification/WalEntry.v ===== *)
(** * Write-ahead log entries (crates/oceanfs-storage/src/wal/entry.rs)

    The 88-byte header with its CRC, the inline data, and their codecs. The
    CRC-32 of the [crc32fast] crate is a parameter. *)

From Stdlib Require Import ZArith Lia Strings.Byte.
From S2P Require Import Prelude.

Local Open Scope Z_scope.

(** The bytes "WAL" and 1. *)
Definition WAL_ENTRY_MAGIC : bytes := [x57; x41; x4c; x01].

Record WalEntry := {
  we_magic : bytes; we_segment_id : bytes; we_offset : Z; we_length : Z;
  we_logical_length : Z; we_tier : byte; we_hlc_wall_time : Z; we_hlc_logical : Z;
  we_checksum : bytes; we_crc : Z; we_data : bytes }.

Definition header_size : nat := 88.

(** The sizes and ranges that the Rust types enforce. *)
Definition entry_typed (e : WalEntry) : Prop :=
  length (we_magic e) = 4%nat /\ length (we_segment_id e) = 16%nat /\
  is_u64 (we_offset e) /\ is_u32 (we_length e) /\ is_u32 (we_logical_length e) /\
  is_u64 (we_hlc_wall_time e) /\ is_u32 (we_hlc_logical e) /\
  length (we_checksum e) = 32%nat /\ is_u32 (we_crc e).

Section codec.
(** [crc32fast::hash]. *)
Context (crc32 : bytes -> Z).

(** The 84 header bytes before the CRC; the reserved bytes are zero. *)
Definition header_prefix (e : WalEntry) : bytes :=
  we_magic e ++ we_segment_id e ++ to_le 8 (we_offset e) ++ to_le 4 (we_length e)
  ++ to_le 4 (we_logical_length e) ++ [we_tier e] ++ [x00; x00; x00]
  ++ to_le 8 (we_hlc_wall_time e) ++ to_le 4 (we_hlc_logical e) ++ we_checksum e.

Definition compute_crc (e : WalEntry) : Z := crc32 (header_prefix e).

Definition verify_crc (e : WalEntry) : bool := we_crc e =? compute_crc e.

(** [WalEntry::new]. *)
Definition entry_new (segment_id : bytes) (offset len logical_length : Z) (tier : byte)
    (wall logical : Z) (checksum data : bytes) : WalEntry :=
  let entry crc := {|
    we_magic := WAL_ENTRY_MAGIC; we_segment_id := segment_id; we_offset := offset;
    we_length := len; we_logical_length := logical_length; we_tier := tier;
    we_hlc_wall_time := wall; we_hlc_logical := logical; we_checksum := checksum;
    we_crc := crc; we_data := data |} in
  entry (compute_crc (entry 0)).

Definition to_header_bytes (e : WalEntry) : bytes := header_prefix e ++ to_le 4 (we_crc e).

Definition to_bytes (e : WalEntry) : bytes := to_header_bytes e ++ we_data e.

Definition serialized_size (e : WalEntry) : nat := header_size + length (we_data e).

Definition from_header_bytes (header : bytes) : option WalEntry :=
  if bool_decide (length header < header_size)%nat then None else
  let magic := field header 0 4 in
  if negb (bool_decide (magic = WAL_ENTRY_MAGIC)) then None else
  let entry := {|
    we_magic := magic;
    we_segment_id := field header 4 20;
    we_offset := from_le (field header 20 28);
    we_length := from_le (field header 28 32);
    we_logical_length := from_le (field header 32 36);
    we_tier := default x00 (header !! 36%nat);
    we_hlc_wall_time := from_le (field header 40 48);
    we_hlc_logical := from_le (field header 48 52);
    we_checksum := field header 52 84;
    we_crc := from_le (field header 84 88);
    we_data := [] |} in
  if negb (verify_crc entry) then None else Some entry.

Definition with_data (e : WalEntry) (data : bytes) : WalEntry :=
  {| we_magic := we_magic e; we_segment_id := we_segment_id e; we_offset := we_offset e;
     we_length := we_length e; we_logical_length := we_logical_length e; we_tier := we_tier e;
     we_hlc_wall_time := we_hlc_wall_time e; we_hlc_logical := we_hlc_logical e;
     we_checksum := we_checksum e; we_crc := we_crc e; we_data := data |}.

Definition from_bytes (data : bytes) : option WalEntry :=
  entry ← from_header_bytes data;
  let data_len := Z.to_nat (we_length entry) in
  if bool_decide (length data < header_size + data_len)%nat then None
  else Some (with_data entry (field data header_size (header_size + data_len))).

(** ** Round trip *)

(** What [WalEntry::new] produces: typed fields, the magic, the right CRC and
    data of the declared length. *)
Definition entry_valid (e : WalEntry) : Prop :=
  entry_typed e /\ we_magic e = WAL_ENTRY_MAGIC /\ we_crc e = compute_crc e /\
  Z.of_nat (length (we_data e)) = we_length e.

Lemma length_header_prefix e : entry_typed e -> length (header_prefix e) = 84%nat.
Proof.
  intros (Hm & Hs & _ & _ & _ & _ & _ & Hc & _). unfold header_prefix.
  rewrite !length_app, !length_to_le. simpl. lia.
Qed.

Lemma length_to_header_bytes e : entry_typed e -> length (to_header_bytes e) = header_size.
Proof.
  intros He. unfold to_header_bytes. rewrite length_app, length_to_le.
  by rewrite length_header_prefix.
Qed.

Lemma compute_crc_data e d : compute_crc (with_data e d) = compute_crc e.
Proof. done. Qed.

Lemma with_data_typed e d : entry_typed e -> entry_typed (with_data e d).
Proof. done. Qed.

(** Parsing a header gives back the entry without its data, whatever follows. *)
Lemma from_to_header e rest :
  entry_valid e -> from_header_bytes (to_header_bytes e ++ rest) = Some (with_data e []).
Proof.
  intros (Ht & Hmagic & Hcrc & _).
  pose proof Ht as (Hm & Hs & Ho & Hl & Hll & Hw & Hlg & Hc & Hcr). unfold_ints.
  unfold from_header_bytes.
  rewrite bool_decide_false by (rewrite length_app, length_to_header_bytes by done; lia).
  unfold to_header_bytes, header_prefix. rewrite <- !app_assoc.
  assert (Htier : (we_magic e ++ we_segment_id e ++ to_le 8 (we_offset e) ++ to_le 4 (we_length e)
    ++ to_le 4 (we_logical_length e) ++ [we_tier e] ++ [x00; x00; x00]
    ++ to_le 8 (we_hlc_wall_time e) ++ to_le 4 (we_hlc_logical e) ++ we_checksum e
    ++ to_le 4 (we_crc e) ++ rest) !! 36%nat = Some (we_tier e))
    by (apply field_byte; repeat field_norm; done).
  rewrite Htier. repeat field_norm. rewrite !from_to_le_small by (simpl; lia).
  rewrite (bool_decide_true (we_magic e = WAL_ENTRY_MAGIC)) by done. cbn [negb].
  change ((if negb (verify_crc (with_data e [])) then None else Some (with_data e []))
          = Some (with_data e [])).
  unfold verify_crc. rewrite compute_crc_data. cbn [we_crc with_data].
  by rewrite Hcrc, Z.eqb_refl.
Qed.

Lemma with_data_id e : with_data e (we_data e) = e.
Proof. by destruct e. Qed.

Lemma from_to_bytes e rest : entry_valid e -> from_bytes (to_bytes e ++ rest) = Some e.
Proof.
  intros He. pose proof He as (Ht & _ & _ & Hlen).
  unfold from_bytes, to_bytes. rewrite <- app_assoc, from_to_header by done.
  cbn [mbind option_bind with_data we_length].
  rewrite <- Hlen, Nat2Z.id.
  rewrite bool_decide_false
    by (rewrite !length_app, length_to_header_bytes by done; lia).
  rewrite (field_skip header_size 0 (length (we_data e))) by
    (by rewrite ?length_to_header_bytes).
  rewrite (field_here (length (we_data e))) by done. exact (f_equal Some (with_data_id e)).
Qed.

(** What a parse that succeeds has checked: the bytes are the header of the
    entry, up to the three reserved ones. *)
Lemma from_header_checked buf e :
  from_header_bytes buf = Some e ->
  (header_size <= length buf)%nat /\ entry_typed e /\ we_magic e = WAL_ENTRY_MAGIC /\
  we_crc e = compute_crc e /\ we_data e = [].
Proof.
  unfold from_header_bytes. intros H.
  destruct (bool_decide (length buf < header_size)%nat) eqn:Hlen; [done|].
  apply bool_decide_eq_false in Hlen.
  destruct (bool_decide (field buf 0 4 = WAL_ENTRY_MAGIC)) eqn:Hm; [|done].
  apply bool_decide_eq_true in Hm. cbn [negb] in H.
  destruct (verify_crc _) eqn:Hc; [|done]. cbn [negb] in H. injection H as <-.
  unfold verify_crc in Hc. apply Z.eqb_eq in Hc.
  assert (Hl : (header_size <= length buf)%nat) by lia. unfold header_size in Hl.
  split_and!; [done| |done|done|done].
  unfold entry_typed. cbn. rewrite !length_field by lia.
  split_and!; try reflexivity; (apply from_le_u32 || apply from_le_u64); rewrite length_field; lia.
Qed.

Lemma length_to_bytes e : entry_typed e -> length (to_bytes e) = serialized_size e.
Proof. intros He. unfold to_bytes. by rewrite length_app, length_to_header_bytes. Qed.

(** A torn record is never taken for a complete one. *)
Lemma from_bytes_torn e n :
  entry_valid e -> (n < serialized_size e)%nat -> from_bytes (take n (to_bytes e)) = None.
Proof.
  intros He Hn. pose proof He as (Ht & _ & _ & Hlen). unfold from_bytes.
  destruct (decide (n < header_size)%nat) as [Hh|Hh].
  - unfold from_header_bytes. rewrite bool_decide_true; [done|].
    rewrite length_take. lia.
  - unfold to_bytes.
    rewrite take_app_ge, from_to_header by (rewrite ?length_to_header_bytes by done; lia || done).
    cbn [mbind option_bind with_data we_length].
    rewrite bool_decide_true; [done|].
    rewrite length_app, length_take, length_to_header_bytes by done.
    unfold serialized_size in Hn. lia.
Qed.

Context (crc32_range : forall bs, is_u32 (crc32 bs)).

Lemma entry_new_valid sid off len llen tier wall lg sum data :
  length sid = 16%nat -> is_u64 off -> is_u32 len -> is_u32 llen -> is_u64 wall -> is_u32 lg ->
  length sum = 32%nat -> Z.of_nat (length data) = len ->
  entry_valid (entry_new sid off len llen tier wall lg sum data).
Proof.
  intros. unfold entry_valid, entry_typed. cbn. split_and!; try done.
  apply crc32_range.
Qed.

End codec.

(** A write-ahead log entry built by [WalEntry::new] from arguments of
    the declared widths, with data of the declared length, is read back
    field for field by [from_bytes] from the bytes [to_bytes] wrote, whatever
    bytes follow it in the log; and no strict prefix of those bytes (a write
    cut by a crash) parses as an entry. The CRC function only has to return
    32-bit values. *)
Theorem wal_entry_roundtrip (crc32 : bytes -> Z) (crc32_range : forall bs, is_u32 (crc32 bs))
    sid off len llen tier wall lg sum data :
  length sid = 16%nat -> is_u64 off -> is_u32 len -> is_u32 llen -> is_u64 wall -> is_u32 lg ->
  length sum = 32%nat -> Z.of_nat (length data) = len ->
  let e := entry_new crc32 sid off len llen tier wall lg sum data in
  (forall rest, from_bytes crc32 (to_bytes e ++ rest) = Some e) /\
  (forall n, (n < serialized_size e)%nat -> from_bytes crc32 (take n (to_bytes e)) = None).
Proof.
  intros. assert (entry_valid crc32 e) by (by apply entry_new_valid).
  split; intros; [by apply from_to_bytes | by apply from_bytes_torn].
Qed.

Lemma wal_entry_roundtrip_witness :
  let e := entry_new toy_crc (replicate 16 x07) 4096 3 9 x01 1700000000000 2 (replicate 32 x05)
             [x61; x62; x63] in
  (forall rest, from_bytes toy_crc (to_bytes e ++ rest) = Some e) /\
  (forall n, (n < serialized_size e)%nat -> from_bytes toy_crc (take n (to_bytes e)) = None).
Proof.
  apply (wal_entry_roundtrip toy_crc toy_crc_range (replicate 16 x07) 4096 3 9 x01
    1700000000000 2 (replicate 32 x05) [x61; x62; x63]); by vm_compute.
Defined.
