(* ===== verification/WalReader.v ===== *)
(** * Replay of the data WAL (crates/oceanfs-storage/src/wal/reader.rs)

    The iterators [WalReplayIter] and [WalReplayPosIter] as a state machine:
    one [turn] is one pass through the [loop] of [next], which either goes
    round again or returns an item; [drain] is a consumer that calls [next]
    until it returns [None]. A file is its name and its bytes, or the failure
    to open it; a read that fails in the middle of a file is not modelled. *)

From Stdlib Require Import ZArith Lia Strings.Byte.
From S2P Require Import Prelude WalEntry WalPos.

Local Open Scope Z_scope.

Record WalFile := { wf_name : bytes; wf_content : option bytes }.

(** The two errors of the iterators. *)
Inductive ReadError :=
  | UnexpectedEof
  | OpenFailed.

Notation item := (DataWalPos * WalEntry + ReadError)%type.

(** [it_files] are the paths from index [current] on; [it_reader] holds the
    bytes of the open file that are not read yet. *)
Record iter := {
  it_files : list WalFile;
  it_reader : option bytes;
  it_seq : Z;
  it_offset : Z }.

(** The state of [WalReplayIter], which has no position. *)
Record plain_iter := { pi_files : list WalFile; pi_reader : option bytes }.

Inductive turn_result (S I : Type) :=
  | Again (s : S)
  | Return (i : option I) (s : S).
Arguments Again {S I}.
Arguments Return {S I}.

(** The items until [next] returns [None]; [None] when the fuel runs out first. *)
Fixpoint drain {S I} (turn : S -> turn_result S I) (fuel : nat) (s : S) : option (list I) :=
  match fuel with
  | O => None
  | Datatypes.S fuel =>
      match turn s with
      | Again s => drain turn fuel s
      | Return (Some i) s => (cons i) <$> drain turn fuel s
      | Return None _ => Some []
      end
  end.

(** [read_exact] of [n] bytes: a short read consumes what is left and fails. *)
Definition read_exact (n : nat) (rest : bytes) : option bytes * bytes :=
  if (n <=? length rest)%nat then (Some (take n rest), drop n rest) else (None, []).

Section reader.
Context (crc32 : bytes -> Z).

(** "Advance to the next file". *)
Definition advance (s : iter) : turn_result iter item :=
  match it_files s with
  | [] => Return None s
  | f :: files =>
      let opened reader :=
        {| it_files := files; it_reader := reader; it_seq := file_seq_of (wf_name f);
           it_offset := 0 |} in
      match wf_content f with
      | Some content => Again (opened (Some content))
      | None => Return (Some (inr OpenFailed)) (opened (it_reader s))
      end
  end.

(** One pass through the loop of [WalReplayPosIter::next]. *)
Definition turn (s : iter) : turn_result iter item :=
  match it_reader s with
  | None => advance s
  | Some rest =>
      let with_reader rest offset :=
        {| it_files := it_files s; it_reader := Some rest; it_seq := it_seq s;
           it_offset := offset |} in
      match read_exact header_size rest with
      | (None, rest) => advance (with_reader rest (it_offset s))
      | (Some header_buf, rest) =>
          match from_header_bytes crc32 header_buf with
          | None => Again (with_reader rest (wrap64 (it_offset s + Z.of_nat header_size)))
          | Some parsed =>
              let data_len := Z.to_nat (we_length parsed) in
              let next_offset := wrap64 (it_offset s + Z.of_nat (header_size + data_len)) in
              match read_exact data_len rest with
              | (None, rest) =>
                  match it_files s with
                  | [] => Return None (with_reader rest (it_offset s))
                  | _ => Return (Some (inr UnexpectedEof)) (with_reader rest (it_offset s))
                  end
              | (Some data_buf, rest) =>
                  let entry := with_data parsed data_buf in
                  if negb (verify_crc crc32 entry) then Again (with_reader rest next_offset)
                  else
                    let pos := {| dp_file_seq := it_seq s; dp_offset := it_offset s |} in
                    Return (Some (inl (pos, entry))) (with_reader rest next_offset)
              end
          end
      end
  end.

(** One pass through the loop of [WalReplayIter::next]. *)
Definition plain_turn (s : plain_iter) : turn_result plain_iter (WalEntry + ReadError) :=
  let advance reader :=
    match pi_files s with
    | [] => Return None {| pi_files := []; pi_reader := reader |}
    | f :: files =>
        match wf_content f with
        | Some content => Again {| pi_files := files; pi_reader := Some content |}
        | None => Return (Some (inr OpenFailed)) {| pi_files := files; pi_reader := reader |}
        end
    end in
  match pi_reader s with
  | None => advance None
  | Some rest =>
      let with_reader rest := {| pi_files := pi_files s; pi_reader := Some rest |} in
      match read_exact header_size rest with
      | (None, rest) => advance (Some rest)
      | (Some header_buf, rest) =>
          match from_header_bytes crc32 header_buf with
          | None => Again (with_reader rest)
          | Some parsed =>
              match read_exact (Z.to_nat (we_length parsed)) rest with
              | (None, rest) =>
                  match pi_files s with
                  | [] => Return None (with_reader rest)
                  | _ => Return (Some (inr UnexpectedEof)) (with_reader rest)
                  end
              | (Some data_buf, rest) =>
                  let entry := with_data parsed data_buf in
                  if negb (verify_crc crc32 entry) then Again (with_reader rest)
                  else Return (Some (inl entry)) (with_reader rest)
              end
          end
      end
  end.

(** Every turn but the last one uses some of the bytes and files left. *)
Definition work (files : list WalFile) (reader : option bytes) : nat :=
  sum_list_with (fun f => S (length (default [] (wf_content f)))) files
  + length (default [] reader).

(** [WalReader::replay_positions] over the files of an open reader. *)
Definition replay_positions (files : list WalFile) : option (list item) :=
  drain turn (S (work files None))
    {| it_files := files; it_reader := None; it_seq := 0; it_offset := 0 |}.

(** [WalReader::replay]. *)
Definition replay (files : list WalFile) : option (list (WalEntry + ReadError)) :=
  drain plain_turn (S (work files None)) {| pi_files := files; pi_reader := None |}.

(** ** Termination *)

Definition iter_work (s : iter) : nat := work (it_files s) (it_reader s).

Lemma work_cons f files r :
  work (f :: files) r = (S (length (default [] (wf_content f))) + work files r)%nat.
Proof. unfold work. cbn [sum_list_with]. lia. Qed.

Lemma read_exact_length n rest : (length (read_exact n rest).2 <= length rest - n)%nat.
Proof. unfold read_exact. destruct (Nat.leb_spec n (length rest)); cbn; [rewrite length_drop|]; lia. Qed.

Lemma work_reader files r r' :
  (length (default [] r') <= length (default [] r))%nat -> (work files r' <= work files r)%nat.
Proof. unfold work. lia. Qed.

Definition decreases {S I} (w : S -> nat) (n : nat) (t : turn_result S I) : Prop :=
  match t with Again s' | Return (Some _) s' => (w s' < n)%nat | Return None _ => True end.

Lemma advance_decreases s : decreases iter_work (iter_work s) (advance s).
Proof.
  destruct s as [[|[name [c|]] files] r seq off]; [done|..];
    unfold decreases, advance, iter_work; cbn [it_files it_reader wf_content];
    rewrite work_cons; unfold work; cbn [wf_content default id length]; lia.
Qed.

Lemma turn_decreases s : decreases iter_work (iter_work s) (turn s).
Proof.
  destruct s as [files [rest|] seq off]; unfold turn; cbn [it_reader it_files it_seq it_offset];
    [|apply advance_decreases].
  pose proof (read_exact_length header_size rest) as H1.
  destruct (read_exact header_size rest) as [[header|] rest1] eqn:E1; cbn [snd] in H1.
  - assert (header_size <= length rest)%nat as Hh
      by (unfold read_exact in E1; destruct (Nat.leb_spec header_size (length rest)); [done|discriminate]).
    unfold header_size in *.
    assert (Hw : forall rest2 off', (length rest2 <= length rest1)%nat ->
      (iter_work {| it_files := files; it_reader := Some rest2; it_seq := seq; it_offset := off' |}
       < iter_work {| it_files := files; it_reader := Some rest; it_seq := seq; it_offset := off |})%nat)
      by (intros; unfold iter_work, work; cbn; lia).
    unfold decreases.
    destruct (from_header_bytes crc32 header) as [e|]; [|by apply Hw].
    pose proof (read_exact_length (Z.to_nat (we_length e)) rest1) as H2.
    destruct (read_exact _ rest1) as [[data|] rest2]; cbn [snd] in H2.
    + destruct (negb _); apply Hw; lia.
    + destruct files; [done|]. apply Hw. lia.
  - pose proof (advance_decreases
      {| it_files := files; it_reader := Some rest1; it_seq := seq; it_offset := off |}) as Ha.
    unfold decreases in *. destruct (advance _) as [s'|[i|] s']; [..|done];
      (eapply Nat.lt_le_trans; [exact Ha|]); apply work_reader; cbn; lia.
Qed.

Lemma drain_fuel {S I} (t : S -> turn_result S I) (w : S -> nat) :
  (forall s, decreases w (w s) (t s)) ->
  forall n m s, (w s < n)%nat -> (w s < m)%nat -> drain t n s = drain t m s /\ is_Some (drain t n s).
Proof.
  intros Hd. induction n as [|n IH]; intros [|m] s Hn Hm; [lia..|].
  cbn [drain]. specialize (Hd s). destruct (t s) as [s'|[i|] s']; cbn in Hd; [..|done].
  - apply IH; lia.
  - destruct (IH m s') as [E [l Hl]]; [lia..|]. rewrite <- E, Hl. eauto.
Qed.

Definition drain_all (s : iter) : option (list item) := drain turn (S (iter_work s)) s.

Lemma drain_all_eq s :
  drain_all s = match turn s with
                | Again s' => drain_all s'
                | Return (Some i) s' => (cons i) <$> drain_all s'
                | Return None _ => Some []
                end.
Proof.
  unfold drain_all at 1. cbn [drain]. pose proof (turn_decreases s) as Hd.
  destruct (turn s) as [s'|[i|] s']; cbn in Hd; [..|done];
    unfold drain_all; [|f_equal]; apply (drain_fuel turn iter_work turn_decreases); lia.
Qed.

(** ** The two iterators agree *)

Definition plain (s : iter) : plain_iter := {| pi_files := it_files s; pi_reader := it_reader s |}.

Definition plain_item (i : item) : WalEntry + ReadError :=
  match i with inl (_, e) => inl e | inr err => inr err end.

Definition plain_result (t : turn_result iter item) : turn_result plain_iter (WalEntry + ReadError) :=
  match t with
  | Again s => Again (plain s)
  | Return i s => Return (plain_item <$> i) (plain s)
  end.

Lemma plain_turn_sim s : plain_turn (plain s) = plain_result (turn s).
Proof.
  destruct s as [files [rest|] seq off]; unfold plain_turn, turn, advance;
    cbn [plain pi_reader pi_files it_reader it_files it_seq it_offset];
    [|by destruct files as [|[name [c|]] files]].
  destruct (read_exact header_size rest) as [[header|] rest1];
    [|by destruct files as [|[name [c|]] files]].
  destruct (from_header_bytes crc32 header) as [e|]; [|done].
  destruct (read_exact _ rest1) as [[data|] rest2]; [by destruct (negb _) | by destruct files].
Qed.

Lemma drain_plain fuel s :
  drain plain_turn fuel (plain s) = map plain_item <$> drain turn fuel s.
Proof.
  revert s; induction fuel as [|fuel IH]; intros s; cbn [drain]; [done|].
  rewrite plain_turn_sim. destruct (turn s) as [s'|[i|] s']; cbn [plain_result fmap option_fmap option_map];
    [apply IH| |done].
  rewrite IH. by destruct (drain turn fuel s').
Qed.

(** ** Replay of a log *)

Lemma read_exact_app a rest n : length a = n -> read_exact n (a ++ rest) = (Some a, rest).
Proof.
  intros <-. unfold read_exact. rewrite length_app, (proj2 (Nat.leb_le _ _)) by lia.
  by rewrite take_app_length, drop_app_length.
Qed.

Lemma read_exact_short n rest : (length rest < n)%nat -> read_exact n rest = (None, []).
Proof. intros H. unfold read_exact. by rewrite (proj2 (Nat.leb_gt _ _)). Qed.

(** A reader in the middle of a file. *)
Definition reading (files : list WalFile) (seq off : Z) (rest : bytes) : iter :=
  {| it_files := files; it_reader := Some rest; it_seq := seq; it_offset := off |}.

Lemma turn_entry files seq off e rest :
  entry_valid crc32 e ->
  turn (reading files seq off (to_bytes e ++ rest))
  = Return (Some (inl ({| dp_file_seq := seq; dp_offset := off |}, e)))
      (reading files seq (wrap64 (off + Z.of_nat (serialized_size e))) rest).
Proof.
  intros He. pose proof He as (Ht & _ & Hcrc & Hlen).
  unfold turn, reading, to_bytes. cbn [it_reader it_files it_seq it_offset].
  rewrite <- app_assoc, read_exact_app by (by apply length_to_header_bytes).
  pose proof (from_to_header crc32 e [] He) as Hh. rewrite app_nil_r in Hh. rewrite Hh.
  cbn [with_data we_length]. rewrite <- Hlen, Nat2Z.id, read_exact_app by done.
  change (with_data _ (we_data e)) with (with_data e (we_data e)). rewrite with_data_id.
  unfold verify_crc. by rewrite Hcrc, Z.eqb_refl.
Qed.

Lemma turn_torn_header files seq off rest :
  (length rest < header_size)%nat -> turn (reading files seq off rest) = advance (reading files seq off []).
Proof. intros H. unfold turn, reading. cbn [it_reader it_files it_seq it_offset]. by rewrite read_exact_short. Qed.

Lemma turn_torn_data files seq off e n :
  entry_valid crc32 e -> (header_size <= n < serialized_size e)%nat ->
  turn (reading files seq off (take n (to_bytes e)))
  = Return (match files with [] => None | _ => Some (inr UnexpectedEof) end)
      (reading files seq off []).
Proof.
  intros He Hn. pose proof He as (Ht & _ & _ & Hlen).
  unfold turn, reading, to_bytes. cbn [it_reader it_files it_seq it_offset].
  rewrite take_app_ge by (rewrite length_to_header_bytes by done; lia).
  rewrite read_exact_app by (by apply length_to_header_bytes).
  pose proof (from_to_header crc32 e [] He) as Hh. rewrite app_nil_r in Hh. rewrite Hh.
  cbn [with_data we_length]. rewrite <- Hlen, Nat2Z.id, read_exact_short; [by destruct files|].
  unfold serialized_size in Hn. rewrite length_take, length_to_header_bytes by done. lia.
Qed.

(** A log file: complete entries, then a torn write. *)
Record log_file := { lf_seq : Z; lf_entries : list WalEntry; lf_torn : bytes }.

Definition lf_bytes (f : log_file) : bytes :=
  concat (to_bytes <$> lf_entries f) ++ lf_torn f.

Definition on_disk (f : log_file) : WalFile :=
  {| wf_name := wal_file_name (lf_seq f); wf_content := Some (lf_bytes f) |}.

Definition torn_write (bs : bytes) : Prop :=
  exists e n, entry_valid crc32 e /\ (n < serialized_size e)%nat /\ bs = take n (to_bytes e).

Definition lf_ok (f : log_file) : Prop :=
  is_u32 (lf_seq f) /\ Forall (entry_valid crc32) (lf_entries f) /\
  Z.of_nat (length (lf_bytes f)) <= u64_max /\ torn_write (lf_torn f).

(** The entries of a file with the position each starts at. *)
Fixpoint positions (seq off : Z) (es : list WalEntry) : list item :=
  match es with
  | [] => []
  | e :: es =>
      inl ({| dp_file_seq := seq; dp_offset := off |}, e)
      :: positions seq (off + Z.of_nat (serialized_size e)) es
  end.

(** What the replay should yield: every complete entry at its position; a
    torn write with a complete header is an error unless its file is the last. *)
Fixpoint expected (files : list log_file) : list item :=
  match files with
  | [] => []
  | f :: files =>
      positions (lf_seq f) 0 (lf_entries f)
      ++ (if (header_size <=? length (lf_torn f))%nat && negb (bool_decide (files = []))
          then [inr UnexpectedEof] else [])
      ++ expected files
  end.

Lemma drain_entries files seq es : forall off rest,
  Forall (entry_valid crc32) es ->
  0 <= off -> off + Z.of_nat (length (concat (to_bytes <$> es))) <= u64_max ->
  drain_all (reading files seq off (concat (to_bytes <$> es) ++ rest))
  = app (positions seq off es) <$>
    drain_all (reading files seq (off + Z.of_nat (length (concat (to_bytes <$> es)))) rest).
Proof.
  induction es as [|e es IH]; intros off rest Hes Hoff Hlen; cbn [fmap list_fmap concat positions].
  - cbn [app length]. rewrite Z.add_0_r. by destruct (drain_all _).
  - inversion Hes as [|? ? He Hes']; subst. pose proof He as (Ht & _).
    cbn [fmap list_fmap concat] in Hlen. rewrite length_app, length_to_bytes in Hlen by done.
    rewrite <- app_assoc, drain_all_eq, turn_entry by done.
    assert (Hw : wrap64 (off + Z.of_nat (serialized_size e)) = off + Z.of_nat (serialized_size e))
      by (unfold wrap64, u64_max in *; apply Z.mod_small; lia).
    rewrite Hw, IH by (done || lia).
    rewrite length_app, length_to_bytes, Nat2Z.inj_add, Z.add_assoc by done.
    by destruct (drain_all _).
Qed.

Lemma drain_torn (files : list log_file) seq off torn :
  torn_write torn ->
  drain_all (reading (on_disk <$> files) seq off torn)
  = app (if (header_size <=? length torn)%nat && negb (bool_decide (files = []))
         then [inr UnexpectedEof] else []) <$> drain_all (reading (on_disk <$> files) seq off []).
Proof.
  intros (e & n & He & Hn & ->). pose proof He as (Ht & _).
  rewrite length_take, length_to_bytes, Nat.min_l by (done || lia).
  assert (Hend : drain_all (reading [] seq off []) = Some []) by (by rewrite drain_all_eq).
  destruct (Nat.leb_spec header_size n); cbn [andb].
  - rewrite drain_all_eq, turn_torn_data by (done || lia).
    destruct files as [|f files]; cbn [fmap list_fmap].
    + by rewrite Hend.
    + rewrite bool_decide_false by done. by destruct (drain_all _).
  - rewrite (drain_all_eq (reading _ _ _ (take _ _))), turn_torn_header
      by (rewrite length_take; lia).
    rewrite (drain_all_eq (reading _ _ _ [])), turn_torn_header by (unfold header_size; cbn; lia).
    destruct (advance _) as [s|[i|] s]; [..|done]; by destruct (drain_all s).
Qed.

Lemma drain_files files : forall seq off,
  Forall lf_ok files ->
  drain_all (reading (on_disk <$> files) seq off []) = Some (expected files).
Proof.
  induction files as [|f files IH]; intros seq off Hok; [by rewrite drain_all_eq|].
  inversion Hok as [|? ? (Hseq & Hes & Hlen & Htorn) Hok']; subst.
  rewrite drain_all_eq, turn_torn_header by (unfold header_size; cbn; lia).
  unfold advance. cbn [fmap list_fmap reading it_files on_disk wf_content wf_name it_reader].
  unfold file_seq_of, wal_file_name. rewrite parse_name_fmt by done. cbn [default id].
  change (drain_all (reading (on_disk <$> files) (lf_seq f) 0 (lf_bytes f)) = Some (expected (f :: files))).
  unfold lf_bytes in *. rewrite length_app in Hlen.
  rewrite drain_entries by (done || lia). rewrite drain_torn by done. by rewrite IH.
Qed.

Lemma replay_positions_start (files : list log_file) :
  replay_positions (on_disk <$> files) = drain_all (reading (on_disk <$> files) 0 0 []).
Proof.
  unfold replay_positions.
  change (drain_all {| it_files := on_disk <$> files; it_reader := None; it_seq := 0; it_offset := 0 |}
          = drain_all (reading (on_disk <$> files) 0 0 [])).
  rewrite !drain_all_eq, turn_torn_header by (unfold header_size; cbn; lia).
  by destruct files as [|f files].
Qed.
End reader.

(** Replaying the data WAL yields every complete entry, once, in order,
    with the exact file and offset it starts at. The files hold complete
    entries followed by a torn write each (possibly empty). A torn write at
    the end of the last file ends the replay cleanly; one in an earlier file
    is reported as an error when its header is complete. When it is shorter
    than a header it leaves no trace at all, which [expected] spells out. *)
Theorem wal_replay_exact (crc32 : bytes -> Z) (files : list log_file) :
  Forall (lf_ok crc32) files ->
  replay_positions crc32 (on_disk <$> files) = Some (expected files).
Proof. intros Hok. rewrite replay_positions_start. by apply drain_files. Qed.

Definition sample_entry (n : nat) : WalEntry :=
  entry_new toy_crc (replicate 16 x07) 0 (Z.of_nat n) (Z.of_nat n) x01 5 0 (replicate 32 x05)
    (replicate n x61).

Lemma sample_entry_valid n : Z.of_nat n <= u32_max -> entry_valid toy_crc (sample_entry n).
Proof.
  intros Hn. apply entry_new_valid; unfold is_u32, is_u64, u32_max, u64_max in *;
    rewrite ?length_replicate; try lia; [apply toy_crc_range].
Qed.

(** Two files, the first with a torn write of a complete header and one byte. *)
Definition sample_log : list log_file :=
  [ {| lf_seq := 3; lf_entries := [sample_entry 2; sample_entry 0];
       lf_torn := take 89 (to_bytes (sample_entry 5)) |};
    {| lf_seq := 4; lf_entries := [sample_entry 1]; lf_torn := [] |} ].

Lemma sample_torn n : (n < 93)%nat -> torn_write toy_crc (take n (to_bytes (sample_entry 5))).
Proof.
  intros Hn. exists (sample_entry 5), n. split_and!; [|done|done].
  apply sample_entry_valid. by vm_compute.
Qed.

Lemma sample_log_ok : Forall (lf_ok toy_crc) sample_log.
Proof.
  constructor; [|constructor; [|constructor]]; unfold lf_ok; cbn [lf_seq lf_entries lf_torn];
    (split; [by vm_compute|]); (split; [|split; [by vm_compute|]]).
  - constructor; [|constructor; [|constructor]]; apply sample_entry_valid; by vm_compute.
  - apply sample_torn. lia.
  - constructor; [|constructor]; apply sample_entry_valid; by vm_compute.
  - apply (sample_torn 0). lia.
Qed.

Lemma wal_replay_exact_witness :
  replay_positions toy_crc (on_disk <$> sample_log) = Some (expected sample_log).
Proof. apply (wal_replay_exact toy_crc sample_log). exact sample_log_ok. Defined.

(** Both replay iterators always come to an end, on any files whatever,
    and yield the same entries and errors in the same order: [replay] is
    [replay_positions] with the positions dropped. *)
Theorem wal_replay_total_agree (crc32 : bytes -> Z) (files : list WalFile) :
  is_Some (replay_positions crc32 files) /\
  replay crc32 files = map plain_item <$> replay_positions crc32 files.
Proof.
  split.
  - apply (drain_fuel (turn crc32) iter_work (turn_decreases crc32) _ (S (work files None)));
      unfold iter_work; cbn [it_files it_reader]; lia.
  - apply (drain_plain crc32 (S (work files None))
      {| it_files := files; it_reader := None; it_seq := 0; it_offset := 0 |}).
Qed.

(** A header that fails its checks is skipped alone, without the data that
    follows it: the replay goes on 88 bytes further, inside that data, and
    never finds the next record again. In a file with a damaged entry (one
    changed byte in its CRC) of five data bytes and an intact entry after it,
    the intact entry is lost and no error is reported. *)
Theorem corrupt_header_hides_next_entry :
  let damaged := take 87 (to_bytes (sample_entry 5)) ++ [xff] ++ replicate 5 x61 in
  length damaged = serialized_size (sample_entry 5) /\
  from_bytes toy_crc (to_bytes (sample_entry 1)) = Some (sample_entry 1) /\
  replay_positions toy_crc
    [{| wf_name := wal_file_name 0; wf_content := Some (damaged ++ to_bytes (sample_entry 1)) |}]
  = Some [].
Proof. by vm_compute. Qed.
