(* ===== verification/WalWriter.v ===== *)
(** * The writer of the data log and its group commit
      (crates/oceanfs-storage/src/wal/writer.rs, sync.rs;
       [cleanup_old_wal_files] of replay.rs)

    Appends are tasks: each looks whether the file is full, rotates it if so,
    writes its entry under the file lock, queues itself with the flusher and
    waits. The flusher takes a batch of waiters, syncs the file once and wakes
    them. The steps of the tasks and of the flusher interleave; a label names
    the step, the task and what the operating system does. A file is its bytes
    and the length of the prefix that is known to be on the device; a power
    loss leaves any longer prefix. The directory is the list of the older
    files and the current one. Counters of metrics are not modelled. *)

From Stdlib Require Import ZArith Lia Strings.Byte.
From stdpp Require Import base list gmap.
From S2P Require Import Prelude WalPos WalEntry WalReader.

Set Default Proof Using "Type".
Local Open Scope Z_scope.

(** ** Files *)

Record File := { fl_bytes : bytes; fl_synced : nat }.

Definition empty_file : File := {| fl_bytes := []; fl_synced := 0 |}.

(** [sync_all] and [fdatasync]. *)
Definition sync_file (f : File) : File := {| fl_bytes := fl_bytes f; fl_synced := length (fl_bytes f) |}.

Definition extend_file (f : File) (bs : bytes) : File := {| fl_bytes := fl_bytes f ++ bs; fl_synced := fl_synced f |}.

Definition set_file_len (f : File) (n : nat) : File :=
  {| fl_bytes := take n (fl_bytes f) ++ replicate (n - length (fl_bytes f)) x00; fl_synced := Nat.min (fl_synced f) n |}.

(** ** The writer *)

Record WalConfig := { wc_max_file_size_bytes : Z; wc_use_sync_file_range : bool }.

(** [ww_cur] is the open file and [ww_cur_seq] the number in its name, which
    is the counter [ww_seq] unless a rotation failed half way. *)
Record Writer := {
  ww_old : list (Z * File); ww_cur_seq : Z; ww_cur : File;
  ww_seq : Z; ww_pos : Z; ww_global : Z; ww_sync_pos : Z; ww_last_synced : Z }.

Definition directory (w : Writer) : list (Z * File) := ww_old w ++ [(ww_cur_seq w, ww_cur w)].

Definition set_cur (w : Writer) (f : File) : Writer :=
  {| ww_old := ww_old w; ww_cur_seq := ww_cur_seq w; ww_cur := f; ww_seq := ww_seq w; ww_pos := ww_pos w;
     ww_global := ww_global w; ww_sync_pos := ww_sync_pos w; ww_last_synced := ww_last_synced w |}.

Definition WAL_RETENTION_FILES : Z := 4.
Definition SYNC_BATCH_MAX_WAITERS : nat := 64.
Definition SYNC_CHANNEL : nat := 1024.

(** [find_latest_file] and [open]. *)
Definition wal_open (dir : list (Z * File)) : Writer :=
  let max_seq := foldr Z.max 0 (fst <$> dir) in
  let file := default empty_file (snd <$> head (filter (fun x => x.1 = max_seq) dir)) in
  let existing_size := Z.of_nat (length (fl_bytes file)) in
  {| ww_old := filter (fun x => x.1 <> max_seq) dir; ww_cur_seq := max_seq; ww_cur := file; ww_seq := max_seq;
     ww_pos := existing_size; ww_global := existing_size; ww_sync_pos := existing_size;
     ww_last_synced := existing_size |}.

(** The device was replaced by an empty one. *)
Definition reopen_fresh : Writer :=
  {| ww_old := []; ww_cur_seq := 0; ww_cur := empty_file; ww_seq := 0; ww_pos := 0; ww_global := 0; ww_sync_pos := 0;
     ww_last_synced := 0 |}.

Definition wal_truncate (w : Writer) (position : Z) : Writer :=
  {| ww_old := ww_old w; ww_cur_seq := ww_cur_seq w; ww_cur := set_file_len (ww_cur w) (Z.to_nat position);
     ww_seq := ww_seq w; ww_pos := position; ww_global := ww_global w; ww_sync_pos := position;
     ww_last_synced := if position <? ww_last_synced w then position else ww_last_synced w |}.

Definition wal_sync (w : Writer) (ok : bool) : Writer * bool := if ok then (set_cur w (sync_file (ww_cur w)), true) else (w, false).

Section writer.
Context (crc32 : bytes -> Z) (cfg : WalConfig).

(** ** Retention *)

Notation garbage_rule := (bytes -> DataWalPos -> bool).

Definition file_contains_live_entries (garbage : garbage_rule) (x : Z * File) : bool :=
  existsb (fun i => match i with inl (pos, e) => negb (garbage (we_segment_id e) pos) | inr _ => false end)
    (default [] (replay_positions crc32 [{| wf_name := wal_file_name x.1; wf_content := Some (fl_bytes x.2) |}])).

(** [removed] is whether a removal succeeds. *)
Definition retained (current_seq keep : Z) (garbage : option garbage_rule) (removed : Z -> bool) (x : Z * File) : bool :=
  let floor := Z.max 0 (current_seq - Z.max 0 (keep - 1)) in
  negb (x.1 <? floor) ||
  match garbage with Some g => file_contains_live_entries g x | None => false end || negb (removed x.1).

Definition cleanup_old_wal_files (keep : Z) (garbage : option garbage_rule) (removed : Z -> bool) (w : Writer) : Writer :=
  let current_seq := foldr Z.max 0 (fst <$> directory w) in
  {| ww_old := filter (fun x => retained current_seq keep garbage removed x = true) (ww_old w);
     ww_cur_seq := ww_cur_seq w; ww_cur := ww_cur w; ww_seq := ww_seq w; ww_pos := ww_pos w; ww_global := ww_global w;
     ww_sync_pos := ww_sync_pos w; ww_last_synced := ww_last_synced w |}.

(** ** The critical sections *)

Inductive rotate_io := SyncFails | OpenFails | Opens (garbage : option garbage_rule) (removed : Z -> bool).

(** When the new file cannot be opened, the old one stays open under the next
    number. *)
Definition rotate (io : rotate_io) (w : Writer) : Writer * bool :=
  match io with
  | SyncFails => (w, false)
  | OpenFails =>
      ({| ww_old := ww_old w; ww_cur_seq := ww_cur_seq w; ww_cur := sync_file (ww_cur w); ww_seq := wrap64 (ww_seq w + 1);
          ww_pos := ww_pos w; ww_global := ww_global w; ww_sync_pos := 0; ww_last_synced := ww_last_synced w |}, false)
  | Opens garbage removed =>
      let seq := wrap64 (ww_seq w + 1) in
      (cleanup_old_wal_files WAL_RETENTION_FILES garbage removed
         {| ww_old := ww_old w ++ [(ww_cur_seq w, sync_file (ww_cur w))]; ww_cur_seq := seq; ww_cur := empty_file;
            ww_seq := seq; ww_pos := 0; ww_global := ww_global w; ww_sync_pos := 0; ww_last_synced := ww_last_synced w |},
       true)
  end.

(** The write of an entry under the file lock; [fails] is the number of bytes
    that a failing write leaves in the file. *)
Definition write_entry (fails : option nat) (e : WalEntry) (w : Writer) : Writer * option DataWalPos :=
  match fails with
  | Some n => (set_cur w (extend_file (ww_cur w) (take n (to_bytes e))), None)
  | None =>
      let pos := wrap64 (ww_pos w + Z.of_nat (length (to_bytes e))) in
      ({| ww_old := ww_old w; ww_cur_seq := ww_cur_seq w; ww_cur := extend_file (ww_cur w) (to_bytes e); ww_seq := ww_seq w;
          ww_pos := pos; ww_global := ww_global w; ww_sync_pos := pos; ww_last_synced := ww_last_synced w |},
       if ww_seq w <=? u32_max then Some {| dp_file_seq := ww_seq w; dp_offset := ww_pos w |} else None)
  end.

Definition count_global (e : WalEntry) (w : Writer) : Writer :=
  {| ww_old := ww_old w; ww_cur_seq := ww_cur_seq w; ww_cur := ww_cur w; ww_seq := ww_seq w; ww_pos := ww_pos w;
     ww_global := wrap64 (ww_global w + Z.of_nat (length (to_bytes e))); ww_sync_pos := ww_sync_pos w;
     ww_last_synced := ww_last_synced w |}.

(** The closure that the flusher calls; [locked] is whether a writer holds
    the file, [ok] whether the system call succeeds. *)
Definition fsync_fn (locked ok : bool) (w : Writer) : Writer * bool :=
  if locked then (w, true)
  else if wc_use_sync_file_range cfg then
    if ww_last_synced w <? ww_sync_pos w then
      if ok then
        ({| ww_old := ww_old w; ww_cur_seq := ww_cur_seq w; ww_cur := sync_file (ww_cur w); ww_seq := ww_seq w;
            ww_pos := ww_pos w; ww_global := ww_global w; ww_sync_pos := ww_sync_pos w;
            ww_last_synced := ww_sync_pos w |}, true)
      else (w, false)
    else (w, true)
  else if ok then (set_cur w (sync_file (ww_cur w)), true) else (w, false).

(** ** Tasks *)

Inductive phase :=
  | Checking (e : WalEntry)
  | Rotating (e : WalEntry)
  | Writing (e : WalEntry)
  | Submitting (pos : DataWalPos) (e : WalEntry)
  | Waiting (pos : DataWalPos) (e : WalEntry)
  | Acked (pos : DataWalPos) (e : WalEntry)
  | Failed.

(** [lg_queue] is the channel of the flusher and [lg_batch] what it has taken
    from it. *)
Record Log := { lg_writer : Writer; lg_tasks : gmap nat phase; lg_queue : list nat; lg_batch : list nat }.

Inductive label :=
  | LStart (i : nat) (e : WalEntry)
  | LCheck (i : nat)
  | LRotate (i : nat) (io : rotate_io)
  | LWrite (i : nat) (fails : option nat)
  | LSubmit (i : nat)
  | LCollect
  | LFlush (locked ok : bool).

Definition set_task (st : Log) (w : Writer) (i : nat) (ph : phase) : Log :=
  {| lg_writer := w; lg_tasks := <[i := ph]> (lg_tasks st); lg_queue := lg_queue st; lg_batch := lg_batch st |}.

(** A waiter that is woken has been acknowledged, whatever the sync returned. *)
Definition wake (tasks : gmap nat phase) (i : nat) : gmap nat phase :=
  match tasks !! i with Some (Waiting pos e) => <[i := Acked pos e]> tasks | _ => tasks end.

(** [None] when the step is not the next one of its task. *)
Definition wal_step (l : label) (st : Log) : option Log :=
  let w := lg_writer st in
  match l with
  | LStart i e => match lg_tasks st !! i with None => Some (set_task st w i (Checking e)) | Some _ => None end
  | LCheck i =>
      match lg_tasks st !! i with
      | Some (Checking e) =>
          Some (set_task st w i
                  (if wc_max_file_size_bytes cfg <? wrap64 (ww_pos w + Z.of_nat (length (to_bytes e)))
                   then Rotating e else Writing e))
      | _ => None
      end
  | LRotate i io =>
      match lg_tasks st !! i with
      | Some (Rotating e) => let '(w, ok) := rotate io w in Some (set_task st w i (if ok then Writing e else Failed))
      | _ => None
      end
  | LWrite i fails =>
      match lg_tasks st !! i with
      | Some (Writing e) =>
          let '(w, pos) := write_entry fails e w in
          Some (set_task st w i (match pos with Some pos => Submitting pos e | None => Failed end))
      | _ => None
      end
  | LSubmit i =>
      match lg_tasks st !! i with
      | Some (Submitting pos e) =>
          if (length (lg_queue st) <? SYNC_CHANNEL)%nat then
            Some {| lg_writer := count_global e w; lg_tasks := <[i := Waiting pos e]> (lg_tasks st);
                    lg_queue := lg_queue st ++ [i]; lg_batch := lg_batch st |}
          else None
      | _ => None
      end
  | LCollect =>
      match lg_batch st, lg_queue st with
      | [], _ :: _ =>
          Some {| lg_writer := w; lg_tasks := lg_tasks st; lg_queue := drop SYNC_BATCH_MAX_WAITERS (lg_queue st);
                  lg_batch := take SYNC_BATCH_MAX_WAITERS (lg_queue st) |}
      | _, _ => None
      end
  | LFlush locked ok =>
      match lg_batch st with
      | [] => None
      | batch =>
          Some {| lg_writer := (fsync_fn locked ok w).1; lg_tasks := foldl wake (lg_tasks st) batch;
                  lg_queue := lg_queue st; lg_batch := [] |}
      end
  end.

Fixpoint wal_run (ls : list label) (st : Log) : option Log :=
  match ls with [] => Some st | l :: ls => st ← wal_step l st; wal_run ls st end.

Definition idle (w : Writer) : Log := {| lg_writer := w; lg_tasks := ∅; lg_queue := []; lg_batch := [] |}.
End writer.

(** ** What a file holds *)

Section contents.
Context (crc32 : bytes -> Z).

Definition bytes_of (es : list WalEntry) : bytes := concat (to_bytes <$> es).

Lemma bytes_of_app a b : bytes_of (a ++ b) = bytes_of a ++ bytes_of b.
Proof using Type. unfold bytes_of. by rewrite fmap_app, concat_app. Qed.

Lemma bytes_of_snoc es e : bytes_of (es ++ [e]) = bytes_of es ++ to_bytes e.
Proof using Type. rewrite bytes_of_app. unfold bytes_of. cbn. by rewrite app_nil_r. Qed.

Lemma length_entry e : entry_valid crc32 e -> length (to_bytes e) = serialized_size e.
Proof using Type. intros (Ht & _). by apply length_to_bytes. Qed.

Lemma entry_size_bound e : entry_valid crc32 e -> (0 < length (to_bytes e))%nat /\ Z.of_nat (length (to_bytes e)) <= 2 ^ 33.
Proof using Type.
  intros He. rewrite length_entry by done. destruct He as (Ht & _ & _ & Hl). destruct Ht as (_ & _ & _ & Hu & _).
  unfold serialized_size, header_size, is_u32, u32_max in *. split; lia.
Qed.

(** Any prefix of a file is a prefix of its entries and a torn write. *)
Lemma cut_entries e0 es : entry_valid crc32 e0 -> Forall (entry_valid crc32) es -> forall n, exists k torn,
  take n (bytes_of es) = bytes_of (take k es) ++ torn /\ torn_write crc32 torn /\
  forall pre post, es = pre ++ post -> (length (bytes_of pre) <= n)%nat -> (length pre <= k)%nat.
Proof using Type.
  intros He0. assert (Hnil : torn_write crc32 []).
  { exists e0, 0%nat. split_and!; [done| |by rewrite take_0]. unfold serialized_size, header_size. lia. }
  induction 1 as [|e es He Hes IH]; intros n.
  { exists 0%nat, []. split_and!; [by destruct n|done|]. intros [|a pre] post; [cbn; lia|done]. }
  pose proof (length_entry e He) as Hlen.
  destruct (le_lt_dec (serialized_size e) n) as [Hn|Hn].
  - destruct (IH (n - serialized_size e)%nat) as (k & torn & Hk & Ht & Hp). exists (S k), torn. split_and!; [|done|].
    + unfold bytes_of in *. cbn [fmap list_fmap concat take]. rewrite take_app_ge by lia. by rewrite Hlen, Hk, app_assoc.
    + intros [|e' pre] post; [cbn; lia|]. intros [= <- ->] Hl. cbn [length]. apply le_n_S, (Hp pre post); [done|].
      unfold bytes_of in *. cbn [fmap list_fmap concat] in Hl. rewrite length_app in Hl. lia.
  - exists 0%nat, (take n (to_bytes e)). split_and!; [|by exists e, n|].
    + unfold bytes_of. cbn [fmap list_fmap concat take app]. by rewrite take_app_le by lia.
    + intros [|e' pre] post; [cbn; lia|]. intros [= <- ->] Hl. unfold bytes_of in Hl. cbn [fmap list_fmap concat] in Hl.
      rewrite length_app in Hl. lia.
Qed.

Lemma file_positions_app seq pre post : Forall (entry_valid crc32) pre -> forall off,
  positions seq off (pre ++ post) = positions seq off pre ++ positions seq (off + Z.of_nat (length (bytes_of pre))) post.
Proof using Type.
  induction 1 as [|e pre He Hpre IH]; intros off; [cbn; by rewrite Z.add_0_r|].
  cbn [app positions]. rewrite IH. unfold bytes_of. cbn [fmap list_fmap concat].
  by rewrite length_app, length_entry, Nat2Z.inj_add, Z.add_assoc by done.
Qed.

(** The entry is in the file, at its position. *)
Definition stored (x : Z * File) (pos : DataWalPos) (e : WalEntry) : Prop :=
  exists pre post, x.1 = dp_file_seq pos /\ fl_bytes x.2 = bytes_of (pre ++ e :: post) /\
    Forall (entry_valid crc32) (pre ++ e :: post) /\ dp_offset pos = Z.of_nat (length (bytes_of pre)).

(** The file is a sequence of entries. *)
Definition clean (x : Z * File) : Prop :=
  exists es, Forall (entry_valid crc32) es /\ fl_bytes x.2 = bytes_of es /\ is_u32 x.1 /\
    Z.of_nat (length (bytes_of es)) <= u64_max /\ (fl_synced x.2 <= length (fl_bytes x.2))%nat.

Definition fully_synced (x : Z * File) : Prop := fl_synced x.2 = length (fl_bytes x.2).

Lemma stored_sync seq f pos e : stored (seq, f) pos e -> stored (seq, sync_file f) pos e.
Proof using Type. done. Qed.

Lemma stored_extend seq f pos e e' :
  stored (seq, f) pos e -> entry_valid crc32 e' -> stored (seq, extend_file f (to_bytes e')) pos e.
Proof using Type.
  intros (pre & post & Hseq & Hb & Hall & Hoff) He'. exists pre, (post ++ [e']). cbn in *. split_and!; [done| | |done].
  - by rewrite Hb, app_comm_cons, (app_assoc pre), bytes_of_snoc.
  - rewrite app_comm_cons, app_assoc. apply Forall_app. auto.
Qed.

Lemma stored_position pre post pos e seq :
  Forall (entry_valid crc32) (pre ++ e :: post) -> seq = dp_file_seq pos ->
  dp_offset pos = Z.of_nat (length (bytes_of pre)) -> inl (pos, e) ∈ positions seq 0 (pre ++ e :: post).
Proof using Type.
  intros [Hpre _]%Forall_app -> Hoff. rewrite file_positions_app by done. apply elem_of_app. right. cbn [positions].
  rewrite Z.add_0_l, <- Hoff. destruct pos. by left.
Qed.

(** Reading the file finds the entry, so that it is kept while it is live. *)
Lemma stored_live garbage x pos e :
  clean x -> stored x pos e -> garbage (we_segment_id e) pos = false -> file_contains_live_entries crc32 garbage x = true.
Proof using Type.
  intros (es0 & _ & Hb0 & Hu & Hlen & _) (pre & post & Hseq & Hb & Hall & Hoff) Hg. unfold file_contains_live_entries.
  set (lf := {| lf_seq := x.1; lf_entries := pre ++ e :: post; lf_torn := [] |}).
  assert (Hfile : {| wf_name := wal_file_name x.1; wf_content := Some (fl_bytes x.2) |} = on_disk lf).
  { unfold on_disk, lf_bytes. cbn. by rewrite app_nil_r, Hb. }
  assert (Hok : lf_ok crc32 lf).
  { unfold lf_ok, lf_bytes. cbn. rewrite app_nil_r. fold (bytes_of (pre ++ e :: post)). rewrite <- Hb, Hb0.
    split_and!; [done|done|done|]. exists e, 0%nat. split_and!; [|unfold serialized_size, header_size; lia|by rewrite take_0].
    apply Forall_app in Hall as [_ Hall]. by apply Forall_cons in Hall as []. }
  rewrite Hfile. change [on_disk lf] with (on_disk <$> [lf]).
  rewrite replay_positions_start, drain_files by (by constructor). cbn [default].
  apply existsb_exists. exists (inl (pos, e)). split; [|cbn; by rewrite Hg].
  apply list_elem_of_In. cbn [expected]. apply elem_of_app. left. by apply stored_position.
Qed.
End contents.

(** ** Runs *)

Section runs.
Context (crc32 : bytes -> Z) (cfg : WalConfig).
(** The entries that no rotation takes for garbage. *)
Context (protected : bytes -> DataWalPos -> Prop).
Notation stored := (stored crc32).
Notation clean := (clean crc32).

(** Steps in which the system calls succeed and no writer holds the file when
    the flusher wants it. With [sync_file_range] nothing is said of a run that
    rotates. *)
Definition good (l : label) : Prop :=
  match l with
  | LStart _ e => entry_valid crc32 e
  | LRotate _ io =>
      wc_use_sync_file_range cfg = false /\
      exists garbage removed, io = Opens (Some garbage) removed /\ forall id pos, protected id pos -> garbage id pos = false
  | LWrite _ fails => fails = None
  | LFlush locked ok => locked = false /\ ok = true
  | _ => True
  end.

Definition held (w : Writer) (pos : DataWalPos) (e : WalEntry) : Prop := exists x, x ∈ directory w /\ stored x pos e.

Definition durable (w : Writer) (pos : DataWalPos) (e : WalEntry) : Prop :=
  exists x, x ∈ directory w /\ stored x pos e /\ dp_offset pos + Z.of_nat (length (to_bytes e)) <= Z.of_nat (fl_synced x.2).

Definition phase_ok (w : Writer) (ph : phase) : Prop :=
  match ph with
  | Checking e | Rotating e | Writing e => entry_valid crc32 e
  | Submitting pos e | Waiting pos e => entry_valid crc32 e /\ (protected (we_segment_id e) pos -> held w pos e)
  | Acked pos e => entry_valid crc32 e /\ (protected (we_segment_id e) pos -> durable w pos e)
  | Failed => True
  end.

Record inv (s0 p0 n : Z) (st : Log) : Prop := {
  iv_old : Forall (fun x => clean x /\ fully_synced x) (ww_old (lg_writer st));
  iv_cur : clean (ww_cur_seq (lg_writer st), ww_cur (lg_writer st));
  iv_pos : ww_pos (lg_writer st) = Z.of_nat (length (fl_bytes (ww_cur (lg_writer st))));
  iv_sync : ww_sync_pos (lg_writer st) = ww_pos (lg_writer st);
  iv_seq : ww_cur_seq (lg_writer st) = ww_seq (lg_writer st);
  iv_seq_le : ww_seq (lg_writer st) <= s0 + n;
  iv_pos_le : ww_pos (lg_writer st) <= p0 + n * 2 ^ 33;
  iv_range : wc_use_sync_file_range cfg = true -> ww_last_synced (lg_writer st) <= Z.of_nat (fl_synced (ww_cur (lg_writer st)));
  iv_tasks : map_Forall (fun _ ph => phase_ok (lg_writer st) ph) (lg_tasks st) }.

(** The entries that were there are still there. *)
Definition keeps_entries (w w' : Writer) : Prop :=
  (forall pos e, protected (we_segment_id e) pos -> held w pos e -> held w' pos e) /\
  (forall pos e, protected (we_segment_id e) pos -> durable w pos e -> durable w' pos e).

Lemma phase_ok_mono w w' ph : keeps_entries w w' -> phase_ok w ph -> phase_ok w' ph.
Proof using Type. intros [Hh Hd]. destruct ph; cbn; try done; intros []; auto. Qed.

Lemma tasks_mono w w' (tasks : gmap nat phase) :
  keeps_entries w w' -> map_Forall (fun _ ph => phase_ok w ph) tasks -> map_Forall (fun _ ph => phase_ok w' ph) tasks.
Proof using Type. intros Hk Ht i ph Hi. eapply phase_ok_mono; [done|]. by eapply Ht. Qed.

Lemma stored_end x pos e : stored x pos e -> dp_offset pos + Z.of_nat (length (to_bytes e)) <= Z.of_nat (length (fl_bytes x.2)).
Proof using Type.
  intros (pre & post & _ & -> & _ & ->). rewrite bytes_of_app, length_app. unfold bytes_of at 3. cbn [fmap list_fmap concat].
  rewrite length_app. lia.
Qed.

Lemma synced_durable w pos e : Forall fully_synced (directory w) -> held w pos e -> durable w pos e.
Proof using Type.
  intros Hall (x & Hx & Hs). exists x. split_and!; [done|done|]. rewrite Forall_forall in Hall. rewrite (Hall x Hx).
  by apply stored_end.
Qed.

Lemma wake_ok w tasks i :
  Forall fully_synced (directory w) -> map_Forall (fun _ ph => phase_ok w ph) tasks ->
  map_Forall (fun _ ph => phase_ok w ph) (wake tasks i).
Proof using Type.
  intros Hall Ht. unfold wake. destruct (tasks !! i) as [[| | | |pos e| |]|] eqn:Hi; try done.
  apply map_Forall_insert_2; [|done]. destruct (Ht _ _ Hi) as [He Hh]. split; [done|]. intros Hp. by apply synced_durable, Hh.
Qed.

Lemma wake_all_ok w batch : forall tasks,
  Forall fully_synced (directory w) -> map_Forall (fun _ ph => phase_ok w ph) tasks ->
  map_Forall (fun _ ph => phase_ok w ph) (foldl wake tasks batch).
Proof using Type.
  induction batch as [|i batch IH]; intros tasks Hall Ht; [done|]. cbn [foldl]. apply IH; [done|]. by apply wake_ok.
Qed.

(** *** The critical sections keep what was written *)

Lemma sync_keeps w : keeps_entries w (set_cur w (sync_file (ww_cur w))).
Proof using Type.
  split; intros pos e _ (x & Hx & Hs); unfold directory in *; apply elem_of_app in Hx as [Hx|Hx].
  - exists x. split; [apply elem_of_app; by left|done].
  - apply list_elem_of_singleton in Hx as ->. exists (ww_cur_seq w, sync_file (ww_cur w)).
    split; [apply elem_of_app; right; by left|]. by apply stored_sync.
  - exists x. split; [apply elem_of_app; by left|done].
  - apply list_elem_of_singleton in Hx as ->. destruct Hs as [Hs Hle]. exists (ww_cur_seq w, sync_file (ww_cur w)).
    split_and!; [apply elem_of_app; right; by left|by apply stored_sync|]. by apply (stored_end _ pos e) in Hs.
Qed.

Lemma write_keeps w e w' pos' :
  write_entry None e w = (w', pos') -> entry_valid crc32 e -> keeps_entries w w'.
Proof using Type.
  intros [= <- _] He. split; intros pos e' _ (x & Hx & Hs); unfold directory in *; apply elem_of_app in Hx as [Hx|Hx].
  1, 3: exists x; split; [apply elem_of_app; by left|done].
  - apply list_elem_of_singleton in Hx as ->. eexists. split; [apply elem_of_app; right; by left|]. by apply stored_extend.
  - apply list_elem_of_singleton in Hx as ->. destruct Hs as [Hs Hle]. eexists.
    split_and!; [apply elem_of_app; right; by left|by apply stored_extend|done].
Qed.

Lemma rotate_keeps w garbage removed w' ok :
  rotate crc32 (Opens (Some garbage) removed) w = (w', ok) -> Forall (fun x => clean x /\ fully_synced x) (ww_old w) ->
  clean (ww_cur_seq w, ww_cur w) -> (forall id pos, protected id pos -> garbage id pos = false) -> keeps_entries w w'.
Proof using Type.
  intros [= <- _] Hold Hcur Hg.
  assert (Hkeep : forall x pos e, protected (we_segment_id e) pos -> x ∈ ww_old w ++ [(ww_cur_seq w, sync_file (ww_cur w))] ->
    stored x pos e -> forall rest keep m, x ∈ filter (fun x => retained crc32 m keep (Some garbage) removed x = true)
      (ww_old w ++ [(ww_cur_seq w, sync_file (ww_cur w))]) ++ rest).
  { intros x pos e Hp Hx Hs rest keep m. apply elem_of_app. left. apply list_elem_of_filter. split; [|done].
    unfold retained. rewrite (stored_live crc32 garbage x pos e); [by rewrite orb_true_r|..|by apply Hg]; [|done].
    apply elem_of_app in Hx as [Hx|Hx]; [rewrite Forall_forall in Hold; by apply Hold|].
    apply list_elem_of_singleton in Hx as ->. destruct Hcur as (es & ? & ? & ? & ? & ?). by exists es. }
  split; intros pos e Hp (x & Hx & Hs); unfold directory in Hx; apply elem_of_app in Hx as [Hx|Hx].
  - exists x. split; [|done]. eapply Hkeep; [done|apply elem_of_app; by left|done].
  - apply list_elem_of_singleton in Hx as ->. eexists. split; [eapply Hkeep; [done|apply elem_of_app; right; by left|]|];
      by apply stored_sync.
  - exists x. split; [|done]. eapply Hkeep; [done|apply elem_of_app; by left|by destruct Hs].
  - apply list_elem_of_singleton in Hx as ->. destruct Hs as [Hs _].
    eexists. split_and!; [eapply Hkeep; [done|apply elem_of_app; right; by left|]|..]; [by apply stored_sync..|].
    by apply (stored_end _ pos e) in Hs.
Qed.

(** *** The steps *)

Lemma step_task_inv s0 p0 n st i ph :
  inv s0 p0 n st -> phase_ok (lg_writer st) ph -> inv s0 p0 (n + 1) (set_task st (lg_writer st) i ph).
Proof using Type.
  intros [] Hph. constructor; cbn [set_task lg_writer lg_tasks]; try done; [lia|lia|]. by apply map_Forall_insert_2.
Qed.

Lemma step_rotate_inv s0 p0 n st i e io w ok :
  inv s0 p0 n st -> good (LRotate i io) -> 0 <= p0 -> 0 <= n -> s0 + n + 1 <= u32_max -> entry_valid crc32 e ->
  rotate crc32 io (lg_writer st) = (w, ok) -> inv s0 p0 (n + 1) (set_task st w i (if ok then Writing e else Failed)).
Proof using Type.
  intros [Hold Hcur Hpos Hsync Hseq Hsl Hpl Hrange Htasks] [Hmode (garbage & removed & -> & Hg)] Hp0 Hn Hs He Hr.
  pose proof (rotate_keeps _ _ _ _ _ Hr Hold Hcur Hg) as Hkeeps. injection Hr as <- <-.
  assert (Hu : is_u32 (ww_cur_seq (lg_writer st))) by (by destruct Hcur as (? & ? & ? & ? & _)).
  rewrite Hseq in Hu. assert (Hw : wrap64 (ww_seq (lg_writer st) + 1) = ww_seq (lg_writer st) + 1).
  { unfold wrap64, is_u32, u32_max in *. apply Z.mod_small. lia. }
  constructor; cbn [set_task lg_writer lg_tasks cleanup_old_wal_files ww_old ww_cur_seq ww_cur ww_seq ww_pos ww_sync_pos
    ww_last_synced fl_bytes empty_file length].
  - apply Forall_forall. intros x [_ Hx]%list_elem_of_filter. apply elem_of_app in Hx as [Hx|Hx].
    + rewrite Forall_forall in Hold. by apply Hold.
    + apply list_elem_of_singleton in Hx as ->. destruct Hcur as (es & ? & ? & ? & ? & ?). split; [by exists es|done].
  - exists []. cbn. unfold is_u32, u32_max, u64_max in *. split_and!; [done|done|lia|lia|lia|lia].
  - done.
  - done.
  - done.
  - lia.
  - lia.
  - congruence.
  - apply map_Forall_insert_2; [done|]. by eapply tasks_mono.
Qed.

Lemma step_write_inv s0 p0 n st i e w pos :
  inv s0 p0 n st -> entry_valid crc32 e -> p0 + (n + 1) * 2 ^ 33 <= u64_max -> write_entry None e (lg_writer st) = (w, pos) ->
  inv s0 p0 (n + 1) (set_task st w i (match pos with Some pos => Submitting pos e | None => Failed end)).
Proof using Type.
  intros [Hold Hcur Hpos Hsync Hseq Hsl Hpl Hrange Htasks] He Hp Hw. pose proof (write_keeps _ _ _ _ Hw He) as Hkeeps.
  injection Hw as <- <-. destruct (entry_size_bound crc32 e He) as [_ Hsize].
  destruct Hcur as (es & Hes & Hb & Hu & Hlen & Hsyn). cbn [fst snd] in *.
  assert (Hwrap : wrap64 (ww_pos (lg_writer st) + Z.of_nat (length (to_bytes e))) =
                  ww_pos (lg_writer st) + Z.of_nat (length (to_bytes e))).
  { unfold wrap64, u64_max in *. apply Z.mod_small. lia. }
  constructor; cbn [set_task lg_writer lg_tasks ww_old ww_cur_seq ww_cur ww_seq ww_pos ww_sync_pos ww_last_synced extend_file
    fl_bytes fl_synced]; try done.
  - exists (es ++ [e]). cbn [fst snd extend_file fl_bytes fl_synced]. rewrite bytes_of_snoc, <- Hb, length_app.
    split_and!; [apply Forall_app; auto|done|done|lia|lia].
  - rewrite length_app. lia.
  - lia.
  - lia.
  - apply map_Forall_insert_2; [|by eapply tasks_mono]. destruct (_ <=? u32_max); [|done]. split; [done|]. intros _.
    eexists. split; [apply elem_of_app; right; by left|]. exists es, []. cbn [fst snd extend_file fl_bytes dp_file_seq dp_offset ww_cur ww_cur_seq].
    split_and!; [done|by rewrite bytes_of_snoc, Hb|apply Forall_app; auto|by rewrite Hpos, Hb].
Qed.

Lemma fsync_synced w s0 p0 n st :
  inv s0 p0 n st -> w = (fsync_fn cfg false true (lg_writer st)).1 ->
  Forall fully_synced (directory w) /\ keeps_entries (lg_writer st) w /\
  ww_old w = ww_old (lg_writer st) /\ ww_cur_seq w = ww_cur_seq (lg_writer st) /\
  fl_bytes (ww_cur w) = fl_bytes (ww_cur (lg_writer st)) /\ ww_seq w = ww_seq (lg_writer st) /\
  ww_pos w = ww_pos (lg_writer st) /\ ww_sync_pos w = ww_sync_pos (lg_writer st) /\
  (wc_use_sync_file_range cfg = true -> ww_last_synced w <= Z.of_nat (fl_synced (ww_cur w))).
Proof using Type.
  intros [Hold Hcur Hpos Hsync Hseq Hsl Hpl Hrange Htasks] ->. unfold fsync_fn. set (w := lg_writer st) in *.
  assert (Holds : Forall fully_synced (ww_old w)) by (eapply Forall_impl; [exact Hold|]; by intros ? []).
  destruct (wc_use_sync_file_range cfg); cbn [fst].
  - destruct (Z.ltb_spec (ww_last_synced w) (ww_sync_pos w)) as [Hlt|Hge]; cbn [fst].
    + split_and!; try done; [|apply (sync_keeps w)|cbn; intros _; lia].
      apply Forall_app. split; [done|]. by constructor.
    + split_and!; try done. apply Forall_app. split; [done|]. constructor; [|done].
      unfold fully_synced. cbn. destruct Hcur as (es & _ & _ & _ & _ & Hle). cbn in Hle. specialize (Hrange eq_refl). lia.
  - split_and!; try done; [|apply sync_keeps]. apply Forall_app. split; [done|]. by constructor.
Qed.

Lemma wal_step_inv s0 p0 n l st st' :
  inv s0 p0 n st -> good l -> wal_step crc32 cfg l st = Some st' -> 0 <= p0 -> 0 <= n ->
  s0 + n + 1 <= u32_max -> p0 + (n + 1) * 2 ^ 33 <= u64_max -> inv s0 p0 (n + 1) st'.
Proof using Type.
  intros Hinv Hgood Hstep Hp0 Hn Hs Hp. pose proof (iv_tasks _ _ _ _ Hinv) as Htasks.
  destruct l as [i e|i|i io|i fails|i| |locked ok]; cbn [wal_step] in Hstep.
  - destruct (lg_tasks st !! i); simplify_eq. by apply step_task_inv.
  - destruct (lg_tasks st !! i) as [[e| | | | | |]|] eqn:Hi; simplify_eq. apply step_task_inv; [done|].
    pose proof (Htasks _ _ Hi). by destruct (_ <? _).
  - destruct (lg_tasks st !! i) as [[|e| | | | |]|] eqn:Hi; simplify_eq.
    destruct (rotate crc32 io (lg_writer st)) as [w ok] eqn:Hr. simplify_eq.
    eapply step_rotate_inv; [done..|exact (Htasks _ _ Hi)|done].
  - destruct (lg_tasks st !! i) as [[| |e| | | |]|] eqn:Hi; simplify_eq. cbn in Hgood. subst fails.
    destruct (write_entry None e (lg_writer st)) as [w pos] eqn:Hw. simplify_eq.
    eapply step_write_inv; [done|exact (Htasks _ _ Hi)|done|done].
  - destruct (lg_tasks st !! i) as [[| | |pos e| | |]|] eqn:Hi; simplify_eq. destruct (_ <? _)%nat; simplify_eq.
    destruct Hinv. constructor; cbn [lg_writer lg_tasks]; try done; [cbn; lia|cbn; lia|].
    apply map_Forall_insert_2; [exact (Htasks _ _ Hi)|done].
  - destruct (lg_batch st); [|done]. destruct (lg_queue st); simplify_eq.
    destruct Hinv. constructor; cbn [lg_writer lg_tasks]; try done; lia.
  - destruct Hgood as [-> ->]. destruct (lg_batch st) as [|j batch]; simplify_eq.
    destruct (fsync_synced _ s0 p0 n st Hinv eq_refl) as (Hall & Hk & Hold & Hcs & Hb & Hsq & Hps & Hsp & Hr).
    destruct Hinv as [Iold Icur Ipos Isync Iseq Isl Ipl Irange Itasks].
    constructor; cbn [lg_writer lg_tasks]; rewrite ?Hold, ?Hcs, ?Hb, ?Hsq, ?Hps, ?Hsp; try done; [|lia|lia|].
    + destruct Icur as (es & ? & ? & ? & ? & ?). exists es. cbn [fst snd] in *. split_and!; try done; [by rewrite Hb|].
      apply Forall_app in Hall as [_ Hc]. apply Forall_cons in Hc as [Hc _]. unfold fully_synced in Hc. cbn [snd] in Hc. rewrite Hc. lia.
    + apply (wake_all_ok _ (j :: batch)); [done|]. by eapply tasks_mono.
Qed.

Lemma wal_run_inv s0 p0 ls : forall n st st',
  inv s0 p0 n st -> Forall good ls -> wal_run crc32 cfg ls st = Some st' -> 0 <= p0 -> 0 <= n ->
  s0 + n + Z.of_nat (length ls) <= u32_max -> p0 + (n + Z.of_nat (length ls)) * 2 ^ 33 <= u64_max ->
  inv s0 p0 (n + Z.of_nat (length ls)) st'.
Proof using Type.
  induction ls as [|l ls IH]; intros n st st' Hinv Hgood Hrun Hp0 Hn Hs Hp; cbn [wal_run length] in *.
  - simplify_eq. by rewrite Z.add_0_r.
  - apply Forall_cons in Hgood as [Hl Hls]. destruct (wal_step crc32 cfg l st) as [st1|] eqn:H1; [|done].
    apply (wal_step_inv s0 p0 n) in H1; [|done|done|done|done|lia|lia].
    replace (n + Z.of_nat (S (length ls))) with (n + 1 + Z.of_nat (length ls)) in * by lia.
    apply (IH (n + 1) st1); try done; lia.
Qed.
End runs.

(** ** Power loss *)

(** Of every file a prefix is left that holds at least what was synced. The
    directory is taken to survive as it is: a file that was created or removed
    before the loss is there or gone after it, although the log never syncs
    the directory (POSIX leaves that open; the journaling file systems the
    program runs on order the creation of a file before the sync of its
    data). *)
Definition power_loss (w : Writer) (files : list WalFile) : Prop :=
  Forall2 (fun x f => wf_name f = wal_file_name x.1 /\
             exists n, (fl_synced x.2 <= n)%nat /\ wf_content f = Some (take n (fl_bytes x.2))) (directory w) files.

Section loss.
Context (crc32 : bytes -> Z).
Notation clean := (clean crc32).

Lemma bytes_of_inj es : Forall (entry_valid crc32) es -> forall es', Forall (entry_valid crc32) es' ->
  bytes_of es = bytes_of es' -> es = es'.
Proof using Type.
  induction 1 as [|e es He Hes IH]; intros [|e' es'] Hall'; unfold bytes_of; cbn [fmap list_fmap concat].
  - done.
  - apply Forall_cons in Hall' as [He' _]. destruct (entry_size_bound crc32 e' He') as [Hp _].
    intros E%(f_equal length). rewrite length_app in E. cbn in E. lia.
  - destruct (entry_size_bound crc32 e He) as [Hp _]. intros E%(f_equal length). rewrite length_app in E. cbn in E. lia.
  - apply Forall_cons in Hall' as [He' Hes']. intros E.
    pose proof (from_to_bytes crc32 e (concat (to_bytes <$> es)) He) as H1. rewrite E, from_to_bytes in H1 by done.
    injection H1 as ->. apply app_inv_head in E. f_equal. by apply IH.
Qed.

(** The log file that is left. *)
Lemma cut_file x f n e0 :
  clean x -> entry_valid crc32 e0 -> wf_name f = wal_file_name x.1 -> (fl_synced x.2 <= n)%nat ->
  wf_content f = Some (take n (fl_bytes x.2)) ->
  exists lf, on_disk lf = f /\ lf_ok crc32 lf /\ lf_seq lf = x.1 /\ (fully_synced x -> lf_torn lf = []) /\
    forall pos e, stored crc32 x pos e -> dp_offset pos + Z.of_nat (length (to_bytes e)) <= Z.of_nat (fl_synced x.2) ->
      inl (pos, e) ∈ positions (lf_seq lf) 0 (lf_entries lf).
Proof using Type.
  intros (es & Hes & Hb & Hu & Hlen & Hsyn) He0 Hname Hn Hc.
  destruct (cut_entries crc32 e0 es He0 Hes n) as (k & torn & Hcut & Htorn & Hpre). rewrite <- Hb in Hcut.
  exists {| lf_seq := x.1; lf_entries := take k es; lf_torn := torn |}. cbn [lf_seq lf_entries lf_torn].
  assert (Hbytes : lf_bytes {| lf_seq := x.1; lf_entries := take k es; lf_torn := torn |} = take n (fl_bytes x.2)).
  { unfold lf_bytes. cbn. by rewrite Hcut. }
  split_and!.
  - unfold on_disk. rewrite Hbytes. destruct f. by cbn in *; subst.
  - unfold lf_ok. rewrite Hbytes, length_take, Hb. cbn. split_and!; [done|by apply Forall_take|lia|done].
  - done.
  - intros Hfull. unfold fully_synced in Hfull. specialize (Hpre es [] (eq_sym (app_nil_r es))).
    rewrite <- Hb in Hpre. rewrite take_ge in Hcut by lia. rewrite take_ge in Hcut by (apply Hpre; lia).
    rewrite Hb in Hcut. apply (f_equal length) in Hcut. rewrite length_app in Hcut. destruct torn; [done|cbn in Hcut; lia].
  - intros pos e (pre & post & Hseq & Hb' & Hall & Hoff) Hle.
    assert (es = pre ++ e :: post) as -> by (apply bytes_of_inj; [done..|congruence]).
    assert (Hk : (length (pre ++ [e]) <= k)%nat).
    { apply (Hpre (pre ++ [e]) post); [by rewrite <- app_assoc|]. rewrite bytes_of_snoc, length_app. lia. }
    rewrite length_app in Hk. cbn in Hk.
    replace (pre ++ e :: post) with ((pre ++ [e]) ++ post) by (by rewrite <- app_assoc).
    rewrite take_app_ge by (rewrite length_app; cbn; lia). rewrite <- app_assoc. apply (stored_position crc32); [|done|done].
    apply Forall_app in Hall as [H1 [H2 H3]%Forall_cons]. apply Forall_app. split; [done|].
    constructor; [done|]. by apply Forall_take.
Qed.

Lemma expected_positions lfs : forall lf i, lf ∈ lfs -> i ∈ positions (lf_seq lf) 0 (lf_entries lf) -> i ∈ expected lfs.
Proof using Type.
  induction lfs as [|f lfs IH]; intros lf i Hl Hi; [by apply not_elem_of_nil in Hl|]. cbn [expected].
  apply elem_of_cons in Hl as [->|Hl]; [apply elem_of_app; by left|]. do 2 (apply elem_of_app; right). by eapply IH.
Qed.

Lemma positions_no_error seq es err : forall off, inr err ∉ positions seq off es.
Proof using Type.
  induction es as [|e es IH]; intros off; cbn [positions]; [apply not_elem_of_nil|]. by intros [?|?%IH]%elem_of_cons.
Qed.

Lemma expected_no_error lfs last err : Forall (fun lf => lf_torn lf = []) lfs -> inr err ∉ expected (lfs ++ [last]).
Proof using Type.
  induction 1 as [|lf lfs Hlf Hall IH]; cbn [app expected].
  - rewrite bool_decide_true, andb_false_r by done. cbn. rewrite app_nil_r. apply positions_no_error.
  - rewrite Hlf. cbn. by intros [?%positions_no_error|?]%elem_of_app.
Qed.

Lemma power_loss_files w files e0 :
  Forall (fun x => clean x /\ fully_synced x) (ww_old w) -> clean (ww_cur_seq w, ww_cur w) -> entry_valid crc32 e0 ->
  power_loss w files ->
  exists old cur, files = on_disk <$> old ++ [cur] /\ Forall (lf_ok crc32) (old ++ [cur]) /\
    Forall (fun lf => lf_torn lf = []) old /\ lf_seq cur = ww_cur_seq w /\ (lf_seq <$> old) = (ww_old w).*1 /\
    forall pos e, durable crc32 w pos e -> inl (pos, e) ∈ expected (old ++ [cur]).
Proof using Type.
  intros Hold Hcur He0 Hloss. unfold power_loss, directory in Hloss.
  apply Forall2_app_inv_l in Hloss as (fs & l & Hfs & Hl & ->).
  apply Forall2_cons_inv_l in Hl as (f & l' & [Hname (n & Hn & Hc)] & Hnil & ->). apply Forall2_nil_inv_l in Hnil as ->.
  destruct (cut_file _ _ _ _ Hcur He0 Hname Hn Hc) as (cur & <- & Hok & Hseq & _ & Hin).
  assert (exists old, fs = on_disk <$> old /\ Forall (lf_ok crc32) old /\ Forall (fun lf => lf_torn lf = []) old /\
    (lf_seq <$> old) = (ww_old w).*1 /\
    forall x pos e, x ∈ ww_old w -> stored crc32 x pos e ->
      dp_offset pos + Z.of_nat (length (to_bytes e)) <= Z.of_nat (fl_synced x.2) -> inl (pos, e) ∈ expected (old ++ [cur])) as H.
  { clear Hname Hn Hc Hin. revert fs Hfs. induction Hold as [|x xs [Hx Hxf] Hxs IH]; intros fs Hfs.
    - apply Forall2_nil_inv_l in Hfs as ->. exists []. split_and!; try done. by intros x ?? ?%not_elem_of_nil.
    - apply Forall2_cons_inv_l in Hfs as (f & fs' & [Hname (m & Hm & Hc)] & Hfs' & ->).
      destruct (IH _ Hfs') as (old & -> & Hoks & Htorn & Hseqs & Hins).
      destruct (cut_file _ _ _ _ Hx He0 Hname Hm Hc) as (lf & <- & Hlok & Hlseq & Hlt & Hlin).
      exists (lf :: old). cbn [fmap list_fmap]. split_and!; [done|by constructor|constructor; auto|by rewrite Hlseq, Hseqs|].
      intros y pos e [->|Hy]%elem_of_cons Hs Hle.
      + eapply expected_positions; [|by apply Hlin]. by left.
      + cbn [app expected]. do 2 (apply elem_of_app; right). by eapply Hins. }
  destruct H as (old & -> & Hoks & Htorn & Hseqs & Hins). exists old, cur.
  split_and!; [by rewrite fmap_app|apply Forall_app; auto|done|done|done|].
  intros pos e (x & Hx & Hs & Hle). unfold directory in Hx. apply elem_of_app in Hx as [Hx|Hx]; [by eapply Hins|].
  apply list_elem_of_singleton in Hx as ->. eapply expected_positions; [apply elem_of_app; right; by left|]. by apply Hin.
Qed.
End loss.

Lemma wal_open_inv crc32 cfg protected dir :
  Forall (fun x => clean crc32 x /\ fully_synced x) dir ->
  inv crc32 cfg protected (ww_seq (wal_open dir)) (ww_pos (wal_open dir)) 0 (idle (wal_open dir)).
Proof.
  intros Hdir. assert (Hmax : is_u32 (foldr Z.max 0 (fst <$> dir))).
  { induction Hdir as [|x dir [(es & _ & _ & Hu & _) _] _ IH]; cbn [fmap list_fmap foldr]; unfold is_u32, u32_max in *; lia. }
  assert (Hcur : clean crc32 (ww_cur_seq (wal_open dir), ww_cur (wal_open dir)) /\ fully_synced (0, ww_cur (wal_open dir))).
  { cbn [wal_open ww_cur_seq ww_cur]. destruct (filter _ dir) as [|x l] eqn:Hf; cbn [head fmap option_fmap option_map default].
    - split; [|done]. exists []. cbn. unfold u64_max. split_and!; [done|done|done|lia|lia].
    - assert (x ∈ filter (fun x => x.1 = foldr Z.max 0 (fst <$> dir)) dir) as [Hx Hin]%list_elem_of_filter by (rewrite Hf; by left).
      rewrite Forall_forall in Hdir. destruct (Hdir x Hin) as [Hc Hs]. split; [|done]. rewrite <- Hx. by destruct x. }
  destruct Hcur as [Hcl Hfs]. constructor; cbn [idle lg_writer lg_tasks]; try done.
  - apply Forall_forall. intros x [_ Hx]%list_elem_of_filter. rewrite Forall_forall in Hdir. by apply Hdir.
  - lia.
  - lia.
  - intros _. unfold fully_synced in Hfs. cbn [snd] in Hfs. rewrite Hfs. done.
Qed.

(** C21: an append that the log has acknowledged survives a power loss. The
    tasks of any number of writers and the flusher interleave in any way, and
    files are rotated and removed meanwhile; every system call succeeds and
    the flusher finds the file free. Whatever the power loss leaves beyond
    what was synced, the replay reports no error and yields the entry at the
    position that was returned, unless a rotation took it for garbage. With
    [sync_file_range] this holds as long as the file is not rotated. *)
Theorem acked_appends_survive_power_loss crc32 cfg protected dir ls st i pos e files :
  Forall (fun x => clean crc32 x /\ fully_synced x) dir ->
  ww_seq (wal_open dir) + Z.of_nat (length ls) <= u32_max ->
  ww_pos (wal_open dir) + Z.of_nat (length ls) * 2 ^ 33 <= u64_max ->
  Forall (good crc32 cfg protected) ls -> wal_run crc32 cfg ls (idle (wal_open dir)) = Some st ->
  lg_tasks st !! i = Some (Acked pos e) -> protected (we_segment_id e) pos -> power_loss (lg_writer st) files ->
  exists items, replay_positions crc32 files = Some items /\ inl (pos, e) ∈ items /\ forall err, inr err ∉ items.
Proof.
  intros Hdir Hs Hp Hgood Hrun Hi Hprot Hloss.
  apply (wal_run_inv crc32 cfg protected (ww_seq (wal_open dir)) (ww_pos (wal_open dir)) ls 0) in Hrun;
    [|by apply wal_open_inv|done|cbn; lia|done|lia|lia].
  destruct Hrun as [Hold Hcur _ _ _ _ _ _ Htasks]. destruct (Htasks _ _ Hi) as [He Hd].
  destruct (power_loss_files crc32 _ _ _ Hold Hcur He Hloss) as (old & cur & -> & Hok & Htorn & _ & _ & Hin).
  exists (expected (old ++ [cur])). split_and!; [by rewrite replay_positions_start, drain_files|by apply Hin, Hd|].
  intros err. by apply expected_no_error.
Qed.

(** *** Where the sync is missing *)

Lemma positions_inside crc32 seq p x es : Forall (entry_valid crc32) es -> forall off,
  inl (p, x) ∈ positions seq off es ->
  dp_file_seq p = seq /\ dp_offset p < off + Z.of_nat (length (bytes_of es)).
Proof.
  induction 1 as [|y es Hy Hes IH]; intros off Hx; cbn [positions] in Hx; [by apply not_elem_of_nil in Hx|].
  destruct (entry_size_bound crc32 y Hy) as [Hl _]. unfold bytes_of in *. cbn [fmap list_fmap concat]. rewrite length_app.
  apply elem_of_cons in Hx as [[= -> ->]|Hx]; [cbn; split; [done|lia]|].
  apply IH in Hx as [? ?]. rewrite (length_entry crc32) in * by done. split; [done|lia].
Qed.

(** A power loss may take what lies past the synced part of the current file. *)
Lemma unsynced_lost crc32 w pos e e0 :
  Forall (fun x => clean crc32 x /\ fully_synced x) (ww_old w) -> clean crc32 (ww_cur_seq w, ww_cur w) ->
  dp_file_seq pos = ww_cur_seq w -> Z.of_nat (fl_synced (ww_cur w)) <= dp_offset pos ->
  (forall x, x ∈ ww_old w -> x.1 <> ww_cur_seq w) -> entry_valid crc32 e0 ->
  exists files items, power_loss w files /\ replay_positions crc32 files = Some items /\ inl (pos, e) ∉ items.
Proof.
  intros Hold Hcur Hseq Hoff Hne He0.
  set (left (x : Z * File) := {| wf_name := wal_file_name x.1; wf_content := Some (take (fl_synced x.2) (fl_bytes x.2)) |}).
  assert (Hloss : power_loss w (left <$> directory w)).
  { unfold power_loss. induction (directory w) as [|x l IH]; constructor; [|done]. split; [done|]. by exists (fl_synced x.2). }
  destruct (power_loss_files crc32 w _ e0 Hold Hcur He0 Hloss) as (old & cur & Hf & Hok & _ & Hsq & Hseqs & _).
  exists (left <$> directory w), (expected (old ++ [cur])).
  split_and!; [done|by rewrite Hf, replay_positions_start, drain_files|].
  pose proof Hok as [Hoks Hc]%Forall_app. apply Forall_cons in Hc as [(_ & Hes & _) _].
  assert (Hlen : (length (bytes_of (lf_entries cur)) <= fl_synced (ww_cur w))%nat).
  { unfold directory in Hf. rewrite !fmap_app in Hf. cbn [fmap list_fmap] in Hf. apply app_inj_tail in Hf as [_ Hf].
    unfold on_disk, left in Hf. cbn in Hf. injection Hf as _ Hb. unfold lf_bytes in Hb.
    apply (f_equal length) in Hb. rewrite length_take, length_app in Hb. unfold bytes_of. lia. }
  clear Hok Hf Hloss. revert Hseqs. generalize (ww_old w) Hne. clear Hold Hne.
  induction old as [|lf old IH]; intros xs Hne Hseqs; cbn [app expected]; intros [Hin|Hin]%elem_of_app.
  - apply (positions_inside crc32) in Hin as [_ Hin]; [lia|done].
  - apply elem_of_app in Hin as [Hin|Hin]; [|by apply not_elem_of_nil in Hin].
    destruct (_ && _); [by apply list_elem_of_singleton in Hin|by apply not_elem_of_nil in Hin].
  - destruct xs as [|x xs]; [done|]. cbn [fmap list_fmap] in Hseqs. injection Hseqs as Hx Hxs.
    apply Forall_cons in Hoks as [(_ & Hles & _) _]. apply (positions_inside crc32) in Hin as [Hin _]; [|done].
    apply (Hne x); [by left|]. congruence.
  - destruct xs as [|x xs]; [done|]. cbn [fmap list_fmap] in Hseqs. injection Hseqs as Hx Hxs.
    apply Forall_cons in Hoks as [_ Hoks]. apply elem_of_app in Hin as [Hin|Hin].
    + destruct (_ && _); [by apply list_elem_of_singleton in Hin|by apply not_elem_of_nil in Hin].
    + eapply (IH Hoks xs); [|done|done]. intros y Hy. apply Hne. by right.
Qed.

(** Without rotation the log stays in its first file. *)
Lemma run_same_file crc32 cfg protected ls : forall st st',
  wc_use_sync_file_range cfg = true -> Forall (good crc32 cfg protected) ls -> wal_run crc32 cfg ls st = Some st' ->
  ww_old (lg_writer st') = ww_old (lg_writer st) /\ ww_seq (lg_writer st') = ww_seq (lg_writer st).
Proof.
  induction ls as [|l ls IH]; intros st st' Hr Hg Hrun; cbn [wal_run] in Hrun; [by simplify_eq|].
  apply Forall_cons in Hg as [Hl Hls]. destruct (wal_step crc32 cfg l st) as [st1|] eqn:H1; [|done].
  destruct (IH _ _ Hr Hls Hrun) as [-> ->]. clear IH Hrun Hls.
  destruct l as [j x|j|j io|j fails|j| |locked ok]; cbn [wal_step] in H1.
  - destruct (lg_tasks st !! j); by simplify_eq.
  - destruct (lg_tasks st !! j) as [[]|]; by simplify_eq.
  - destruct Hl as [Hf _]. congruence.
  - destruct (lg_tasks st !! j) as [[]|]; simplify_eq. cbn in Hl. subst fails. cbn in H1. by simplify_eq.
  - destruct (lg_tasks st !! j) as [[]|]; simplify_eq. destruct (_ <? _)%nat; by simplify_eq.
  - destruct (lg_batch st); [|done]. destruct (lg_queue st); by simplify_eq.
  - destruct (lg_batch st); simplify_eq. cbn [lg_writer]. unfold fsync_fn. by repeat case_match.
Qed.

(** A writer that is alone with the flusher is acknowledged after four steps,
    whatever the sync does. *)
Lemma append_alone crc32 cfg st i e locked ok :
  lg_tasks st !! i = Some (Writing e) -> lg_queue st = [] -> lg_batch st = [] -> ww_seq (lg_writer st) <= u32_max ->
  let pos := {| dp_file_seq := ww_seq (lg_writer st); dp_offset := ww_pos (lg_writer st) |} in
  exists st', wal_run crc32 cfg [LWrite i None; LSubmit i; LCollect; LFlush locked ok] st = Some st' /\
    lg_tasks st' !! i = Some (Acked pos e) /\
    lg_writer st' = (fsync_fn cfg locked ok (count_global e (write_entry None e (lg_writer st)).1)).1.
Proof.
  destruct st as [w tasks queue batch]. cbn [lg_tasks lg_queue lg_batch lg_writer]. intros Hi -> -> Hs.
  cbn [wal_run wal_step lg_tasks]. rewrite Hi. cbn [lg_writer write_entry]. rewrite (proj2 (Z.leb_le _ _) Hs).
  unfold set_task. cbn [mbind option_bind lg_tasks lg_queue lg_batch lg_writer]. rewrite lookup_insert_eq.
  change (length [] <? SYNC_CHANNEL)%nat with true. cbn [mbind option_bind lg_tasks lg_queue lg_batch lg_writer app].
  change (take SYNC_BATCH_MAX_WAITERS [i]) with [i]. change (drop SYNC_BATCH_MAX_WAITERS [i]) with (@nil nat).
  cbn [foldl]. eexists. split; [reflexivity|]. cbn [lg_tasks lg_writer fst]. split; [|done].
  unfold wake. rewrite lookup_insert_eq. by rewrite lookup_insert_eq.
Qed.

(** C39: a rotation sets the write position of the flusher back to zero but not
    the position up to which it believes the file to be synced. With
    [sync_file_range], the default on Linux, it then skips the sync until the
    new file has outgrown the old one: the append that caused the rotation is
    acknowledged with nothing of it on the device, although every system call
    succeeds, and a power loss loses it. *)
Theorem rotation_suspends_sync crc32 cfg protected ls st i e garbage removed :
  wc_use_sync_file_range cfg = true -> (Z.of_nat (length ls) + 1) * 2 ^ 33 <= u64_max ->
  Forall (good crc32 cfg protected) ls -> wal_run crc32 cfg ls (idle (wal_open [])) = Some st ->
  lg_tasks st !! i = Some (Rotating e) -> lg_queue st = [] -> lg_batch st = [] ->
  Z.of_nat (length (to_bytes e)) <= ww_last_synced (lg_writer st) ->
  exists st' pos files items,
    wal_run crc32 cfg [LRotate i (Opens garbage removed); LWrite i None; LSubmit i; LCollect; LFlush false true] st = Some st' /\
    lg_tasks st' !! i = Some (Acked pos e) /\ power_loss (lg_writer st') files /\
    replay_positions crc32 files = Some items /\ inl (pos, e) ∉ items.
Proof.
  intros Hr Hlen Hgood Hrun Hi Hq Hb Hle. destruct (run_same_file _ _ _ _ _ _ Hr Hgood Hrun) as [Hold Hseq].
  cbn in Hold, Hseq. assert (Hinv : inv crc32 cfg protected 0 0 (Z.of_nat (length ls)) st).
  { apply (wal_run_inv crc32 cfg protected 0 0 ls 0) in Hrun; [done|apply (wal_open_inv _ _ _ []); constructor|done|lia|lia| |];
      unfold u32_max, u64_max in *; lia. }
  destruct Hinv as [_ Hcur _ _ Hcs _ _ _ Htasks]. pose proof (Htasks _ _ Hi : entry_valid crc32 e) as He.
  destruct (entry_size_bound crc32 e He) as [_ Hsize].
  assert (Hw : wrap64 (0 + Z.of_nat (length (to_bytes e))) = Z.of_nat (length (to_bytes e)))
    by (unfold wrap64; apply Z.mod_small; lia).
  set (w1 := (rotate crc32 (Opens garbage removed) (lg_writer st)).1).
  assert (Hseq1 : ww_seq w1 = 1) by (cbn; by rewrite Hseq).
  destruct (append_alone crc32 cfg (set_task st w1 i (Writing e)) i e false true) as (st' & Hst' & Ht & Hw').
  { cbn. by rewrite lookup_insert_eq. } { done. } { done. } { cbn [set_task lg_writer]. rewrite Hseq1. done. }
  set (pos := {| dp_file_seq := _; dp_offset := _ |}) in Ht. exists st', pos.
  assert (Hsync : lg_writer st' = count_global e (write_entry None e w1).1).
  { rewrite Hw'. unfold fsync_fn. rewrite Hr. cbn [set_task lg_writer count_global write_entry fst ww_last_synced ww_sync_pos].
    change (ww_pos w1) with 0. change (ww_last_synced w1) with (ww_last_synced (lg_writer st)). rewrite Hw.
    destruct (Z.ltb_spec (ww_last_synced (lg_writer st)) (Z.of_nat (length (to_bytes e)))) as [?|_]; [lia|done]. }
  destruct (unsynced_lost crc32 (lg_writer st') pos e e) as (files & items & Hloss & Hrep & Hno); rewrite ?Hsync; try done.
  - apply Forall_forall. intros x [_ Hx]%list_elem_of_filter. rewrite Hold in Hx. apply list_elem_of_singleton in Hx as ->.
    split; [|done]. destruct Hcur as (es & ? & ? & ? & ? & ?). by exists es.
  - exists [e]. cbn. rewrite Hseq. unfold bytes_of. cbn. rewrite app_nil_r.
    split_and!; [by constructor|done|done|unfold u64_max; lia|lia].
  - intros x [_ Hx]%list_elem_of_filter. rewrite Hold in Hx. apply list_elem_of_singleton in Hx as ->.
    cbn. rewrite Hcs, Hseq. done.
  - rewrite <- Hsync. exists files, items. split_and!; [|done..].
    assert (H0 : wal_step crc32 cfg (LRotate i (Opens garbage removed)) st = Some (set_task st w1 i (Writing e))).
    { cbn [wal_step]. by rewrite Hi. }
    cbn [wal_run] in Hst' |- *. rewrite H0. exact Hst'.
Qed.

(** the flusher only tries the lock of the file. When a writer holds it,
    nothing is synced and the waiters are woken all the same: an append is
    acknowledged that a power loss loses. *)
Theorem contended_sync_acks_unsynced crc32 cfg protected ls st i e ok :
  (Z.of_nat (length ls) + 1) * 2 ^ 33 <= u64_max -> wc_use_sync_file_range cfg = true ->
  Forall (good crc32 cfg protected) ls -> wal_run crc32 cfg ls (idle (wal_open [])) = Some st ->
  lg_tasks st !! i = Some (Writing e) -> lg_queue st = [] -> lg_batch st = [] ->
  exists st' pos files items,
    wal_run crc32 cfg [LWrite i None; LSubmit i; LCollect; LFlush true ok] st = Some st' /\
    lg_tasks st' !! i = Some (Acked pos e) /\ power_loss (lg_writer st') files /\
    replay_positions crc32 files = Some items /\ inl (pos, e) ∉ items.
Proof.
  intros Hlen Hr Hgood Hrun Hi Hq Hb. destruct (run_same_file _ _ _ _ _ _ Hr Hgood Hrun) as [Hold Hseq].
  cbn in Hold, Hseq. assert (Hinv : inv crc32 cfg protected 0 0 (Z.of_nat (length ls)) st).
  { apply (wal_run_inv crc32 cfg protected 0 0 ls 0) in Hrun; [done|apply (wal_open_inv _ _ _ []); constructor|done|lia|lia| |];
      unfold u32_max, u64_max in *; lia. }
  destruct (append_alone crc32 cfg st i e true ok Hi Hq Hb) as (st' & Hst' & Ht & Hw'); [rewrite Hseq; done|].
  pose proof (iv_tasks _ _ _ _ _ _ _ Hinv _ _ Hi : entry_valid crc32 e) as He.
  pose proof (step_write_inv crc32 cfg protected 0 0 _ st i e _ _ Hinv He ltac:(lia) eq_refl) as Hinv'.
  cbn [fsync_fn fst] in Hw'. destruct (iv_cur _ _ _ _ _ _ _ Hinv) as (es & _ & _ & _ & _ & Hsyn).
  destruct (unsynced_lost crc32 (lg_writer st') {| dp_file_seq := ww_seq (lg_writer st); dp_offset := ww_pos (lg_writer st) |} e e)
    as (files & items & Hloss & Hrep & Hno); rewrite ?Hw'; try done.
  - exact (iv_old _ _ _ _ _ _ _ Hinv').
  - exact (iv_cur _ _ _ _ _ _ _ Hinv').
  - cbn. by rewrite (iv_seq _ _ _ _ _ _ _ Hinv).
  - cbn in *. rewrite (iv_pos _ _ _ _ _ _ _ Hinv). lia.
  - intros x Hx. cbn in Hx. rewrite Hold in Hx. by apply not_elem_of_nil in Hx.
  - by exists st', {| dp_file_seq := ww_seq (lg_writer st); dp_offset := ww_pos (lg_writer st) |}, files, items.
Qed.

(** ** Examples *)

Definition small_files (range : bool) : WalConfig := {| wc_max_file_size_bytes := 100; wc_use_sync_file_range := range |}.

Definition kept_all : rotate_io := Opens (Some (fun _ _ => false)) (fun _ => true).

(** Two writers: the second rotates the file while the first one waits. *)
Definition two_writers : list label :=
  [LStart 0 (sample_entry 5); LCheck 0; LWrite 0 None; LSubmit 0; LStart 1 (sample_entry 2); LCheck 1; LCollect;
   LRotate 1 kept_all; LWrite 1 None; LFlush false true; LSubmit 1; LCollect; LFlush false true].

Definition two_written : Log := Eval vm_compute in
  default (idle (wal_open [])) (wal_run toy_crc (small_files false) two_writers (idle (wal_open []))).

Definition survivors (st : Log) : list WalFile :=
  (fun x => {| wf_name := wal_file_name x.1; wf_content := Some (fl_bytes x.2) |}) <$> directory (lg_writer st).

Lemma survivors_loss st : Forall (fun x => (fl_synced x.2 <= length (fl_bytes x.2))%nat) (directory (lg_writer st)) ->
  power_loss (lg_writer st) (survivors st).
Proof.
  unfold power_loss, survivors. induction 1 as [|x l Hx Hl IH]; constructor; [|done]. split; [done|].
  exists (length (fl_bytes x.2)). split; [done|]. by rewrite firstn_all.
Qed.

Ltac good_label :=
  match goal with
  | |- good _ _ _ (LStart _ _) => apply sample_entry_valid; by vm_compute
  | |- good _ _ _ (LRotate _ _) => split; [done|]; by exists (fun _ _ => false), (fun _ => true)
  | |- good _ _ _ (LFlush _ _) => done
  | |- good _ _ _ (LWrite _ _) => done
  | |- _ => exact I
  end.

Ltac good_labels := repeat (apply Forall_cons; split; [good_label|]); apply Forall_nil; exact I.

Lemma two_writers_good : Forall (good toy_crc (small_files false) (fun _ _ => True)) two_writers.
Proof. good_labels. Qed.

Lemma acked_appends_survive_power_loss_witness :
  exists items, replay_positions toy_crc (survivors two_written) = Some items /\
    inl ({| dp_file_seq := 1; dp_offset := 0 |}, sample_entry 2) ∈ items /\ forall err, inr err ∉ items.
Proof.
  apply (acked_appends_survive_power_loss toy_crc (small_files false) (fun _ _ => True) [] two_writers two_written 1).
  - constructor.
  - by vm_compute.
  - by vm_compute.
  - exact two_writers_good.
  - exact_eval.
  - exact_eval.
  - done.
  - apply survivors_loss. repeat constructor; vm_compute; lia.
Defined.

(** The first append is synced, the second one is about to rotate. *)
Definition before_rotation : list label :=
  [LStart 0 (sample_entry 5); LCheck 0; LWrite 0 None; LSubmit 0; LCollect; LFlush false true; LStart 1 (sample_entry 2); LCheck 1].

Definition about_to_rotate : Log := Eval vm_compute in
  default (idle (wal_open [])) (wal_run toy_crc (small_files true) before_rotation (idle (wal_open []))).

Lemma before_rotation_good : Forall (good toy_crc (small_files true) (fun _ _ => True)) before_rotation.
Proof. good_labels. Qed.

Lemma rotation_suspends_sync_witness : exists st' pos files items,
  wal_run toy_crc (small_files true) [LRotate 1 kept_all; LWrite 1 None; LSubmit 1; LCollect; LFlush false true] about_to_rotate
    = Some st' /\
  lg_tasks st' !! 1%nat = Some (Acked pos (sample_entry 2)) /\ power_loss (lg_writer st') files /\
  replay_positions toy_crc files = Some items /\ inl (pos, sample_entry 2) ∉ items.
Proof.
  apply (rotation_suspends_sync toy_crc (small_files true) (fun _ _ => True) before_rotation about_to_rotate 1).
  - done.
  - by vm_compute.
  - exact before_rotation_good.
  - exact_eval.
  - exact_eval.
  - done.
  - done.
  - by vm_compute.
Defined.

Definition before_write : list label := [LStart 0 (sample_entry 5); LCheck 0].

Definition about_to_write : Log := Eval vm_compute in
  default (idle (wal_open [])) (wal_run toy_crc (small_files true) before_write (idle (wal_open []))).

Lemma contended_sync_acks_unsynced_witness : exists st' pos files items,
  wal_run toy_crc (small_files true) [LWrite 0 None; LSubmit 0; LCollect; LFlush true true] about_to_write = Some st' /\
  lg_tasks st' !! 0%nat = Some (Acked pos (sample_entry 5)) /\ power_loss (lg_writer st') files /\
  replay_positions toy_crc files = Some items /\ inl (pos, sample_entry 5) ∉ items.
Proof.
  apply (contended_sync_acks_unsynced toy_crc (small_files true) (fun _ _ => True) before_write about_to_write 0).
  - by vm_compute.
  - done.
  - good_labels.
  - exact_eval.
  - exact_eval.
  - done.
  - done.
Defined.
