(* ===== verification/EventRecord.v ===== *)
(** * Segment event records (crates/oceanfs-storage/src/segment/event_wal.rs)

    The events of the segment lifecycle and their on-disk records: encoding,
    decoding and the recognition of records written before storage pools
    existed. The CRC-32 and the [bincode] codec of the membership list are
    parameters; segment ids and hashes are the bytes they hold. *)

From Stdlib Require Import ZArith Lia Strings.Byte.
From stdpp Require Import base list.
From S2P Require Import Prelude WalPos.

Local Open Scope Z_scope.

(** ** Events *)

Notation SegmentId := bytes (only parsing).
Notation HashOutput := bytes (only parsing).

Inductive SizeTier := Inline | Small | Standard | Multi.

Record ContainedObject := { co_bucket : bytes; co_key : bytes }.

Record ReserveEvent := {
  rs_segment_id : SegmentId; rs_tier : SizeTier; rs_ec_k : byte; rs_ec_m : byte }.

Record SealEvent := {
  sl_segment_id : SegmentId; sl_tier : SizeTier; sl_ec_k : byte; sl_ec_m : byte;
  sl_merkle_root : HashOutput; sl_data_wal_pos : DataWalPos; sl_total_bytes : Z;
  sl_repacked_from : option SegmentId; sl_pool_id : Z;
  sl_contained_objects : option (list ContainedObject) }.

Record DeleteEvent := { dl_segment_id : SegmentId }.

Record MetadataRefreshEvent := {
  rf_segment_id : SegmentId; rf_merkle_root : option HashOutput;
  rf_storage_locations : option (list NodeId); rf_pool_id : option Z }.

Inductive SegmentEvent :=
  | Reserve (evt : ReserveEvent)
  | Seal (evt : SealEvent)
  | Delete (evt : DeleteEvent)
  | MetadataRefresh (evt : MetadataRefreshEvent).

Definition event_segment_id (evt : SegmentEvent) : SegmentId :=
  match evt with
  | Reserve e => rs_segment_id e
  | Seal e => sl_segment_id e
  | Delete e => dl_segment_id e
  | MetadataRefresh e => rf_segment_id e
  end.

(** ** Layout *)

Definition EVENT_RECORD_MAGIC : bytes := [x45; x56; x4c; x01].
Definition EVENT_RECORD_VERSION : byte := x01.
Definition EVENT_RECORD_HEADER_SIZE : nat := 28.
Definition RESERVE_PAYLOAD_SIZE : nat := 4.
Definition SEAL_PAYLOAD_SIZE : nat := 56.
Definition SEAL_PRE_POOL_PAYLOAD_SIZE : nat := 48.
Definition SEAL_REPACKED_FROM_SIZE : nat := 16.
Definition SEAL_POOL_ID_SIZE : nat := 4.
Definition SEAL_CONTAINED_LEN_SIZE : nat := 4.
Definition SEAL_MAX_CONTAINED_TAIL_BYTES : Z := 4 * 1024 * 1024.
Definition SEAL_FLAG_REPACKED_FROM : Z := 1.
Definition SEAL_FLAG_POOL_ID : Z := 2.
Definition SEAL_FLAG_CONTAINED_OBJECTS : Z := 4.
Definition DELETE_PAYLOAD_SIZE : nat := 0.
Definition REFRESH_PAYLOAD_SIZE : nat := 1.
Definition REFRESH_ROOT_SIZE : nat := 32.
Definition REFRESH_MAX_LOCATIONS : nat := 16.
Definition REFRESH_MAX_NODE_ID_LEN : nat := 255.
Definition REFRESH_POOL_ID_SIZE : nat := 4.
Definition REFRESH_FLAG_MERKLE_ROOT : Z := 1.
Definition REFRESH_FLAG_LOCATIONS : Z := 2.
Definition REFRESH_FLAG_POOL_ID : Z := 4.
Definition MAX_PAYLOAD_SIZE : Z :=
  Z.of_nat (SEAL_PAYLOAD_SIZE + SEAL_REPACKED_FROM_SIZE + SEAL_POOL_ID_SIZE
            + SEAL_CONTAINED_LEN_SIZE) + SEAL_MAX_CONTAINED_TAIL_BYTES.
Definition KIND_RESERVE : byte := x00.
Definition KIND_SEAL : byte := x01.
Definition KIND_DELETE : byte := x02.
Definition KIND_METADATA_REFRESH : byte := x03.

Definition tier_to_u8 (tier : SizeTier) : byte :=
  match tier with Inline => x00 | Small => x01 | Standard => x02 | Multi => x03 end.

Definition tier_from_u8 (value : byte) : option SizeTier :=
  match value with
  | x00 => Some Inline
  | x01 => Some Small
  | x02 => Some Standard
  | x03 => Some Multi
  | _ => None
  end.

(** [std::str::from_utf8(..).is_ok()]: well-formed UTF-8. *)
Definition in_range (lo hi : Z) (b : byte) : bool := (lo <=? Z_of_byte b) && (Z_of_byte b <=? hi).

Fixpoint utf8_valid (bs : bytes) : bool :=
  match bs with
  | [] => true
  | b0 :: r0 =>
      if in_range 0 127 b0 then utf8_valid r0 else
      match r0 with
      | [] => false
      | b1 :: r1 =>
          if in_range 194 223 b0 then in_range 128 191 b1 && utf8_valid r1 else
          match r1 with
          | [] => false
          | b2 :: r2 =>
              let second :=
                if in_range 224 224 b0 then in_range 160 191 b1
                else if in_range 237 237 b0 then in_range 128 159 b1
                else in_range 225 239 b0 && in_range 128 191 b1 in
              if in_range 224 239 b0 then second && in_range 128 191 b2 && utf8_valid r2 else
              match r2 with
              | [] => false
              | b3 :: r3 =>
                  let second :=
                    if in_range 240 240 b0 then in_range 144 191 b1
                    else if in_range 244 244 b0 then in_range 128 143 b1
                    else in_range 241 243 b0 && in_range 128 191 b1 in
                  second && in_range 128 191 b2 && in_range 128 191 b3 && utf8_valid r3
              end
          end
      end
  end.

(** ** Codec *)

Section codec.
(** [crc32fast::hash]; [bincode::serialize] and [deserialize] of the membership list. *)
Context (crc32 : bytes -> Z).
Context (serialize : list ContainedObject -> option bytes).
Context (deserialize : bytes -> option (list ContainedObject)).

(** The membership blob of a Seal: none for an absent or empty list, for a
    failed serialization or for one above the cap. *)
Definition membership_blob (contained : option (list ContainedObject)) : option bytes :=
  objs ← contained;
  match objs with
  | [] => None
  | _ =>
      b ← serialize objs;
      if Z.of_nat (length b) <=? SEAL_MAX_CONTAINED_TAIL_BYTES then Some b else None
  end.

Definition contained_blob (evt : SealEvent) : option bytes :=
  membership_blob (sl_contained_objects evt).

Definition flag_if {A} (o : option A) (flag flags : Z) : Z :=
  match o with Some _ => Z.lor flags flag | None => flags end.

Definition seal_flags (evt : SealEvent) : Z :=
  flag_if (contained_blob evt) SEAL_FLAG_CONTAINED_OBJECTS
    (flag_if (sl_repacked_from evt) SEAL_FLAG_REPACKED_FROM SEAL_FLAG_POOL_ID).

Definition seal_payload (evt : SealEvent) : bytes :=
  [tier_to_u8 (sl_tier evt)] ++ [sl_ec_k evt] ++ [sl_ec_m evt] ++ [byte_of_Z (seal_flags evt)]
  ++ sl_merkle_root evt
  ++ to_le 4 (dp_file_seq (sl_data_wal_pos evt))
  ++ to_le 8 (dp_offset (sl_data_wal_pos evt))
  ++ to_le 8 (sl_total_bytes evt)
  ++ default [] (sl_repacked_from evt)
  ++ to_le 4 (sl_pool_id evt)
  ++ match contained_blob evt with
     | Some blob => to_le 4 (Z.of_nat (length blob)) ++ blob
     | None => []
     end.

(** The lengths are cast to [u8]. *)
Definition location_bytes (loc : NodeId) : bytes := to_le 1 (Z.of_nat (length loc)) ++ loc.

Definition locations_section (locations : list NodeId) : bytes :=
  to_le 1 (Z.of_nat (length locations)) ++ concat (location_bytes <$> locations).

Definition refresh_flags (evt : MetadataRefreshEvent) : Z :=
  flag_if (rf_pool_id evt) REFRESH_FLAG_POOL_ID
    (flag_if (rf_storage_locations evt) REFRESH_FLAG_LOCATIONS
      (flag_if (rf_merkle_root evt) REFRESH_FLAG_MERKLE_ROOT 0)).

Definition refresh_payload (evt : MetadataRefreshEvent) : bytes :=
  [byte_of_Z (refresh_flags evt)]
  ++ default [] (rf_merkle_root evt)
  ++ default [] (locations_section <$> rf_storage_locations evt)
  ++ default [] (to_le 4 <$> rf_pool_id evt).

Definition event_payload (evt : SegmentEvent) : byte * bytes :=
  match evt with
  | Reserve e => (KIND_RESERVE, [tier_to_u8 (rs_tier e); rs_ec_k e; rs_ec_m e; x00])
  | Seal e => (KIND_SEAL, seal_payload e)
  | Delete _ => (KIND_DELETE, [])
  | MetadataRefresh e => (KIND_METADATA_REFRESH, refresh_payload e)
  end.

Definition record_prefix (kind : byte) (segment_id : SegmentId) (payload : bytes) : bytes :=
  EVENT_RECORD_MAGIC ++ [EVENT_RECORD_VERSION] ++ [kind] ++ [x00; x00]
  ++ to_le 4 (Z.of_nat (length payload)) ++ segment_id ++ payload.

Definition to_record_bytes (evt : SegmentEvent) : bytes :=
  let '(kind, payload) := event_payload evt in
  let buf := record_prefix kind (event_segment_id evt) payload in
  buf ++ to_le 4 (crc32 buf).

(** The guarded read of [n] bytes at the cursor, and the advanced cursor. *)
Definition read_section (payload : bytes) (cursor n : nat) : option (bytes * nat) :=
  if (length payload <? cursor + n)%nat then None
  else Some (field payload cursor (cursor + n), (cursor + n)%nat).

(** A section that a flag announces; [cursor] is where it would start. *)
Definition opt_section {A} (present : bool) (cursor : nat) (read : option (A * nat))
    : option (option A * nat) :=
  if present then '(a, cursor) ← read; Some (Some a, cursor) else Some (None, cursor).

Definition byte_at (bs : bytes) (i : nat) : byte := default x00 (bs !! i).

Definition has_flag (flags flag : Z) : bool := negb (Z.land flags flag =? 0).

Definition decode_seal (segment_id : SegmentId) (payload : bytes) : option SegmentEvent :=
  let flags := Z_of_byte (byte_at payload 3) in
  let known := Z.lor (Z.lor SEAL_FLAG_REPACKED_FROM SEAL_FLAG_POOL_ID) SEAL_FLAG_CONTAINED_OBJECTS in
  if negb (Z.land flags (255 - known) =? 0) then None else
  if negb (has_flag flags SEAL_FLAG_POOL_ID) then None else
  '(total, cursor) ← read_section payload 48 8;
  '(repacked_from, cursor) ←
    opt_section (has_flag flags SEAL_FLAG_REPACKED_FROM) cursor
      (read_section payload cursor SEAL_REPACKED_FROM_SIZE);
  '(pool, cursor) ← read_section payload cursor SEAL_POOL_ID_SIZE;
  '(contained, cursor) ←
    opt_section (has_flag flags SEAL_FLAG_CONTAINED_OBJECTS) cursor
      ('(len, cursor) ← read_section payload cursor SEAL_CONTAINED_LEN_SIZE;
       let blob_len := from_le len in
       if SEAL_MAX_CONTAINED_TAIL_BYTES <? blob_len then None else
       '(blob, cursor) ← read_section payload cursor (Z.to_nat blob_len);
       objects ← deserialize blob;
       Some (objects, cursor));
  if negb (cursor =? length payload)%nat then None else
  tier ← tier_from_u8 (byte_at payload 0);
  Some (Seal {|
    sl_segment_id := segment_id; sl_tier := tier;
    sl_ec_k := byte_at payload 1; sl_ec_m := byte_at payload 2;
    sl_merkle_root := field payload 4 36;
    sl_data_wal_pos := {| dp_file_seq := from_le (field payload 36 40);
                          dp_offset := from_le (field payload 40 48) |};
    sl_total_bytes := from_le total; sl_repacked_from := repacked_from;
    sl_pool_id := from_le pool; sl_contained_objects := contained |}).

(** One round of the loop over the locations. *)
Fixpoint read_locations (payload : bytes) (count cursor : nat) : option (list NodeId * nat) :=
  match count with
  | O => Some ([], cursor)
  | S count =>
      '(len, cursor) ← read_section payload cursor 1;
      let len := Z.to_nat (from_le len) in
      if (length payload <? cursor + len)%nat || (REFRESH_MAX_NODE_ID_LEN <? len)%nat then None else
      let id := field payload cursor (cursor + len) in
      if negb (utf8_valid id) then None else
      '(ids, cursor) ← read_locations payload count (cursor + len);
      Some (id :: ids, cursor)
  end.

Definition decode_extended_refresh (segment_id : SegmentId) (payload : bytes) : option SegmentEvent :=
  let flags := Z_of_byte (byte_at payload 0) in
  let known := Z.lor (Z.lor REFRESH_FLAG_MERKLE_ROOT REFRESH_FLAG_LOCATIONS) REFRESH_FLAG_POOL_ID in
  if negb (Z.land flags (255 - known) =? 0) then None else
  '(merkle_root, cursor) ←
    opt_section (has_flag flags REFRESH_FLAG_MERKLE_ROOT) 1
      (read_section payload 1 REFRESH_ROOT_SIZE);
  '(locations, cursor) ←
    opt_section (has_flag flags REFRESH_FLAG_LOCATIONS) cursor
      ('(count, cursor) ← read_section payload cursor 1;
       let count := Z.to_nat (from_le count) in
       if (REFRESH_MAX_LOCATIONS <? count)%nat then None
       else read_locations payload count cursor);
  '(pool_id, cursor) ←
    opt_section (has_flag flags REFRESH_FLAG_POOL_ID) cursor
      ('(pool, cursor) ← read_section payload cursor REFRESH_POOL_ID_SIZE;
       Some (from_le pool, cursor));
  if negb (cursor =? length payload)%nat then None else
  Some (MetadataRefresh {|
    rf_segment_id := segment_id; rf_merkle_root := merkle_root;
    rf_storage_locations := locations; rf_pool_id := pool_id |}).

Definition decode_refresh (segment_id : SegmentId) (payload : bytes) : option SegmentEvent :=
  let anchor root := Some (MetadataRefresh {|
    rf_segment_id := segment_id; rf_merkle_root := root;
    rf_storage_locations := None; rf_pool_id := None |}) in
  if (length payload =? REFRESH_PAYLOAD_SIZE)%nat && (Z_of_byte (byte_at payload 0) =? 0)
  then anchor None
  else if (length payload =? REFRESH_PAYLOAD_SIZE + REFRESH_ROOT_SIZE)%nat
          && (Z_of_byte (byte_at payload 0) =? 1)
  then anchor (Some (field payload 1 33))
  else if negb (length payload =? 0)%nat
          && has_flag (Z_of_byte (byte_at payload 0))
               (Z.lor REFRESH_FLAG_LOCATIONS REFRESH_FLAG_POOL_ID)
  then decode_extended_refresh segment_id payload
  else None.

Definition decode_payload (kind : byte) (segment_id : SegmentId) (payload : bytes)
    : option SegmentEvent :=
  match kind with
  | x00 =>
      if (length payload =? RESERVE_PAYLOAD_SIZE)%nat then
        tier ← tier_from_u8 (byte_at payload 0);
        Some (Reserve {| rs_segment_id := segment_id; rs_tier := tier;
                         rs_ec_k := byte_at payload 1; rs_ec_m := byte_at payload 2 |})
      else None
  | x01 => if (SEAL_PAYLOAD_SIZE <=? length payload)%nat then decode_seal segment_id payload else None
  | x02 =>
      if (length payload =? DELETE_PAYLOAD_SIZE)%nat
      then Some (Delete {| dl_segment_id := segment_id |}) else None
  | x03 => decode_refresh segment_id payload
  | _ => None
  end.

Definition from_record_bytes (bs : bytes) : option SegmentEvent :=
  if (length bs <? EVENT_RECORD_HEADER_SIZE + 4)%nat then None else
  if negb (bool_decide (field bs 0 4 = EVENT_RECORD_MAGIC)) then None else
  if negb (bool_decide (byte_at bs 4 = EVENT_RECORD_VERSION)) then None else
  let kind := byte_at bs 5 in
  let payload_len := Z.to_nat (from_le (field bs 8 12)) in
  let expected_total := (EVENT_RECORD_HEADER_SIZE + payload_len + 4)%nat in
  if negb (length bs =? expected_total)%nat then None else
  let stored_crc := from_le (field bs (expected_total - 4) expected_total) in
  if negb (stored_crc =? crc32 (take (expected_total - 4) bs)) then None else
  decode_payload kind (field bs 12 28)
    (field bs EVENT_RECORD_HEADER_SIZE (EVENT_RECORD_HEADER_SIZE + payload_len)).

Definition is_pre_pool_seal (kind : byte) (payload : bytes) : bool :=
  bool_decide (kind = KIND_SEAL) && (4 <=? length payload)%nat &&
  let flags := Z_of_byte (byte_at payload 3) in
  (Z.land flags (255 - Z.lor SEAL_FLAG_REPACKED_FROM SEAL_FLAG_POOL_ID) =? 0)
  && negb (has_flag flags SEAL_FLAG_POOL_ID)
  && ((length payload =? SEAL_PRE_POOL_PAYLOAD_SIZE)%nat
      || (length payload =? SEAL_PRE_POOL_PAYLOAD_SIZE + SEAL_REPACKED_FROM_SIZE)%nat).

(** ** Round trip *)

Definition location_ok (id : NodeId) : Prop :=
  (length id <= REFRESH_MAX_NODE_ID_LEN)%nat /\ utf8_valid id = true.

(** The sizes and ranges of the Rust types, and the bounds of the record. *)
Definition event_ok (evt : SegmentEvent) : Prop :=
  length (event_segment_id evt) = 16%nat /\
  match evt with
  | Seal e =>
      length (sl_merkle_root e) = 32%nat /\ is_u32 (dp_file_seq (sl_data_wal_pos e)) /\
      is_u64 (dp_offset (sl_data_wal_pos e)) /\ is_u64 (sl_total_bytes e) /\
      (forall id, sl_repacked_from e = Some id -> length id = 16%nat) /\ is_u32 (sl_pool_id e)
  | MetadataRefresh e =>
      (forall r, rf_merkle_root e = Some r -> length r = 32%nat) /\
      (forall ls, rf_storage_locations e = Some ls ->
         (length ls <= REFRESH_MAX_LOCATIONS)%nat /\ Forall location_ok ls) /\
      (forall p, rf_pool_id e = Some p -> is_u32 p)
  | _ => True
  end.

(** What a record preserves: a Seal whose membership list got no blob loses it. *)
Definition stored (evt : SegmentEvent) : SegmentEvent :=
  match evt with
  | Seal e => Seal {|
      sl_segment_id := sl_segment_id e; sl_tier := sl_tier e; sl_ec_k := sl_ec_k e;
      sl_ec_m := sl_ec_m e; sl_merkle_root := sl_merkle_root e;
      sl_data_wal_pos := sl_data_wal_pos e; sl_total_bytes := sl_total_bytes e;
      sl_repacked_from := sl_repacked_from e; sl_pool_id := sl_pool_id e;
      sl_contained_objects :=
        match contained_blob e with Some _ => sl_contained_objects e | None => None end |}
  | _ => evt
  end.

Context (deserialize_serialize : forall l b, serialize l = Some b -> deserialize b = Some l).

Lemma contained_blob_spec e b :
  contained_blob e = Some b ->
  is_Some (sl_contained_objects e) /\ deserialize b = sl_contained_objects e /\ Z.of_nat (length b) <= SEAL_MAX_CONTAINED_TAIL_BYTES.
Proof.
  unfold contained_blob, membership_blob. destruct (sl_contained_objects e) as [[|o objs]|]; cbn [mbind option_bind]; try done.
  destruct (serialize (o :: objs)) as [b'|] eqn:Es; cbn [mbind option_bind]; [|done].
  destruct (Z.leb_spec (Z.of_nat (length b')) SEAL_MAX_CONTAINED_TAIL_BYTES); [|done].
  intros [= <-]. split_and!; [done | by apply deserialize_serialize | done].
Qed.

Lemma read_section_eq payload c n :
  (c + n <= length payload)%nat ->
  read_section payload c n = Some (field payload c (c + n), (c + n)%nat).
Proof. intros H. unfold read_section. by rewrite (proj2 (Nat.ltb_ge _ _)). Qed.

Lemma tier_from_to t : tier_from_u8 (tier_to_u8 t) = Some t.
Proof. by destruct t. Qed.

Definition has {A} (o : option A) : bool := match o with Some _ => true | None => false end.

Lemma seal_flags_spec e :
  Z_of_byte (byte_of_Z (seal_flags e)) = seal_flags e /\
  Z.land (seal_flags e) 248 = 0 /\ has_flag (seal_flags e) SEAL_FLAG_POOL_ID = true /\
  has_flag (seal_flags e) SEAL_FLAG_REPACKED_FROM = has (sl_repacked_from e) /\
  has_flag (seal_flags e) SEAL_FLAG_CONTAINED_OBJECTS = has (contained_blob e).
Proof.
  unfold seal_flags. by destruct (sl_repacked_from e), (contained_blob e).
Qed.

Lemma length_seal_payload e :
  event_ok (Seal e) ->
  length (seal_payload e)
  = (60 + (if has (sl_repacked_from e) then 16 else 0)
     + match contained_blob e with Some b => 4 + length b | None => 0 end)%nat.
Proof.
  intros (_ & Hroot & _ & _ & _ & Hrep & _). unfold seal_payload.
  assert (Hd : length (default [] (sl_repacked_from e))
    = if has (sl_repacked_from e) then 16%nat else 0%nat)
    by (destruct (sl_repacked_from e); [by apply Hrep | done]).
  rewrite !length_app, !length_to_le, Hroot, Hd. cbn [length].
  destruct (contained_blob e); rewrite ?length_app, ?length_to_le; cbn [length]; lia.
Qed.

(** Reads the fields of a Seal payload whose optional parts are known. *)
Ltac seal_fields :=
  unfold seal_payload;
  repeat match goal with
    | H : sl_repacked_from _ = _ |- _ => rewrite H; clear H
    | H : contained_blob _ = _ |- _ => rewrite H; clear H
    end;
  cbn [from_option default]; unfold id;
  repeat field_norm; rewrite ?from_to_le_small by (simpl; lia).

Lemma decode_seal_payload e :
  event_ok (Seal e) -> decode_seal (sl_segment_id e) (seal_payload e) = Some (stored (Seal e)).
Proof.
  intros He. pose proof (length_seal_payload e He) as Hlen.
  destruct He as (_ & Hroot & Hseq & Hoff & Htot & Hrep & Hpool). unfold_ints.
  destruct (seal_flags_spec e) as (Hf & Hk & Hp & Hr & Hc). unfold decode_seal.
  change (byte_at (seal_payload e) 3) with (byte_of_Z (seal_flags e)).
  change (byte_at (seal_payload e) 0) with (tier_to_u8 (sl_tier e)).
  change (byte_at (seal_payload e) 1) with (sl_ec_k e).
  change (byte_at (seal_payload e) 2) with (sl_ec_m e).
  change (255 - Z.lor _ SEAL_FLAG_CONTAINED_OBJECTS) with 248.
  rewrite Hf, Hk, Hp, Hr, Hc, tier_from_to. cbn [negb Z.eqb]. unfold opt_section.
  rewrite read_section_eq by (rewrite Hlen; lia). cbn [mbind option_bind].
  pose proof (contained_blob_spec e) as Hblob. unfold stored.
  destruct (sl_repacked_from e) as [r|] eqn:Er; cbn [has];
    [pose proof (Hrep r eq_refl) as Hrl|];
  (destruct (contained_blob e) as [b|] eqn:Eb; cbn [has];
    [destruct (Hblob b eq_refl) as ([objs Hobjs] & Hde & Hle);
     assert (Hb32 : Z.of_nat (length b) < 2 ^ 32) by (unfold SEAL_MAX_CONTAINED_TAIL_BYTES in Hle; lia)|]).
  all: cbn [has] in Hlen; unfold SEAL_REPACKED_FROM_SIZE, SEAL_POOL_ID_SIZE, SEAL_CONTAINED_LEN_SIZE.
  all: cbn [mbind option_bind].
  all: repeat (rewrite read_section_eq by (rewrite Hlen; lia); cbn [mbind option_bind]).
  1, 3: match goal with
    | |- context [Z.ltb SEAL_MAX_CONTAINED_TAIL_BYTES (from_le ?f)] =>
        assert (Hbl : from_le f = Z.of_nat (length b)) by (seal_fields; done)
    end;
    rewrite Hbl, (proj2 (Z.ltb_ge _ _)), Nat2Z.id by done;
    rewrite read_section_eq by (rewrite Hlen; lia); cbn [mbind option_bind].
  all: rewrite Hlen; seal_fields.
  1, 2: rewrite Hde, Hobjs; cbn [mbind option_bind].
  all: (rewrite (proj2 (Nat.eqb_eq _ _)) by lia); cbn [negb].
  all: by destruct (sl_data_wal_pos e).
Qed.

Lemma read_section_at pre s post n :
  length s = n ->
  read_section (pre ++ s ++ post) (length pre) n = Some (s, (length pre + n)%nat).
Proof.
  intros Hn. rewrite read_section_eq by (rewrite !length_app; lia). do 2 f_equal.
  rewrite (field_skip (length pre) 0 n) by lia. by apply (field_here n).
Qed.

Lemma read_locations_at ls : forall pre post,
  Forall location_ok ls ->
  read_locations (pre ++ concat (location_bytes <$> ls) ++ post) (length ls) (length pre)
  = Some (ls, (length pre + length (concat (location_bytes <$> ls)))%nat).
Proof.
  induction ls as [|l ls IH]; intros pre post Hls; cbn [length fmap list_fmap concat read_locations].
  - by rewrite Nat.add_0_r.
  - inversion Hls as [|? ? [Hl Hu] Hls']; subst. unfold REFRESH_MAX_NODE_ID_LEN in Hl.
    change (list_fmap _ _ location_bytes ls) with (location_bytes <$> ls).
    change (location_bytes l) with (to_le 1 (Z.of_nat (length l)) ++ l). rewrite <- !app_assoc.
    rewrite read_section_at by apply length_to_le. cbn [mbind option_bind].
    rewrite from_to_le_small, Nat2Z.id by (simpl; lia).
    unfold REFRESH_MAX_NODE_ID_LEN. rewrite (proj2 (Nat.ltb_ge 255 _)) by lia.
    rewrite (proj2 (Nat.ltb_ge _ _)) by (rewrite !length_app, length_to_le; lia). cbn [orb].
    assert (Hpre : (length pre + 1)%nat = length (pre ++ to_le 1 (Z.of_nat (length l))))
      by (by rewrite length_app, length_to_le).
    rewrite app_assoc, Hpre.
    rewrite (field_skip _ 0 (length l) _ _ _ _ eq_refl) by lia.
    rewrite (field_here (length l)) by done. rewrite Hu. cbn [negb].
    rewrite app_assoc, <- length_app, IH by done. cbn [mbind option_bind].
    do 2 f_equal. rewrite !length_app, length_to_le. lia.
Qed.

Lemma refresh_flags_spec e :
  Z_of_byte (byte_of_Z (refresh_flags e)) = refresh_flags e /\
  Z.land (refresh_flags e) 248 = 0 /\
  has_flag (refresh_flags e) REFRESH_FLAG_MERKLE_ROOT = has (rf_merkle_root e) /\
  has_flag (refresh_flags e) REFRESH_FLAG_LOCATIONS = has (rf_storage_locations e) /\
  has_flag (refresh_flags e) REFRESH_FLAG_POOL_ID = has (rf_pool_id e).
Proof.
  unfold refresh_flags. by destruct (rf_merkle_root e), (rf_storage_locations e), (rf_pool_id e).
Qed.

Lemma opt_section_at {A} (f : A -> bytes) (o : option A) (pre : bytes)
    (read : option (A * nat)) :
  (forall a, o = Some a -> read = Some (a, length (pre ++ f a))) ->
  opt_section (has o) (length pre) read = Some (o, length (pre ++ default [] (f <$> o))).
Proof.
  intros H. unfold opt_section. destruct o as [a|]; cbn [has].
  - by rewrite (H a eq_refl).
  - cbn. by rewrite app_nil_r.
Qed.

Lemma read_locations_section_at ls pre post :
  (length ls <= REFRESH_MAX_LOCATIONS)%nat -> Forall location_ok ls ->
  ('(count, cursor) ← read_section (pre ++ locations_section ls ++ post) (length pre) 1;
   let count := Z.to_nat (from_le count) in
   if (REFRESH_MAX_LOCATIONS <? count)%nat then None
   else read_locations (pre ++ locations_section ls ++ post) count cursor)
  = Some (ls, length (pre ++ locations_section ls)).
Proof.
  intros Hn Hok. pose proof Hn as Hn'. unfold REFRESH_MAX_LOCATIONS in Hn'.
  unfold locations_section. rewrite <- !app_assoc.
  rewrite read_section_at by apply length_to_le. cbn [mbind option_bind]. cbv zeta.
  rewrite from_to_le_small, Nat2Z.id by (simpl; lia). rewrite (proj2 (Nat.ltb_ge _ _)) by done.
  rewrite app_assoc.
  replace (length pre + 1)%nat with (length (pre ++ to_le 1 (Z.of_nat (length ls))))
    by (by rewrite length_app, length_to_le).
  rewrite read_locations_at by done. by rewrite app_assoc, (length_app (_ ++ _)).
Qed.

Lemma decode_extended_refresh_payload e :
  event_ok (MetadataRefresh e) ->
  decode_extended_refresh (rf_segment_id e) (refresh_payload e) = Some (MetadataRefresh e).
Proof.
  intros (_ & Hroot & Hlocs & Hpool).
  destruct (refresh_flags_spec e) as (Hf & Hk & Hr & Hl & Hp). unfold decode_extended_refresh.
  change (byte_at (refresh_payload e) 0) with (byte_of_Z (refresh_flags e)).
  change (255 - Z.lor _ REFRESH_FLAG_POOL_ID) with 248.
  rewrite Hf, Hk, Hr, Hl, Hp. cbn [negb Z.eqb]. clear Hf Hk Hr Hl Hp.
  unfold refresh_payload. set (F := [byte_of_Z (refresh_flags e)]).
  set (R := default [] (rf_merkle_root e)).
  set (L := default [] (locations_section <$> rf_storage_locations e)).
  set (P := default [] (to_le 4 <$> rf_pool_id e)).
  rewrite (opt_section_at id (rf_merkle_root e) F).
  2: { intros r Er. subst R. rewrite Er. rewrite length_app. unfold id. rewrite (Hroot r Er).
       by apply (read_section_at F r (L ++ P) REFRESH_ROOT_SIZE), Hroot. }
  rewrite option_fmap_id. fold R. cbn [mbind option_bind]. rewrite !(app_assoc F R).
  rewrite (opt_section_at locations_section (rf_storage_locations e) (F ++ R)).
  2: { intros ls El. subst L. rewrite El. cbn [fmap option_fmap option_map from_option].
       unfold id. destruct (Hlocs ls El). by apply read_locations_section_at. }
  fold L. cbn [mbind option_bind]. rewrite !(app_assoc (F ++ R) L).
  rewrite (opt_section_at (to_le 4) (rf_pool_id e) ((F ++ R) ++ L)).
  2: { intros q Eq. subst P. rewrite Eq. cbn [fmap option_fmap option_map from_option].
       pose proof (Hpool q Eq). unfold_ints. unfold id. rewrite <- (app_nil_r (to_le 4 q)) at 1.
       rewrite read_section_at by apply length_to_le. cbn [mbind option_bind].
       rewrite from_to_le_small by (simpl; lia). by rewrite (length_app _ (to_le 4 q)), length_to_le. }
  fold P. cbn [mbind option_bind]. rewrite Nat.eqb_refl. by destruct e.
Qed.

Lemma refresh_flags_extended e :
  has (rf_storage_locations e) || has (rf_pool_id e) = true ->
  (refresh_flags e =? 0) = false /\ (refresh_flags e =? 1) = false /\
  has_flag (refresh_flags e) (Z.lor REFRESH_FLAG_LOCATIONS REFRESH_FLAG_POOL_ID) = true.
Proof.
  unfold refresh_flags. by destruct (rf_merkle_root e), (rf_storage_locations e), (rf_pool_id e).
Qed.

Lemma decode_refresh_payload e :
  event_ok (MetadataRefresh e) ->
  decode_refresh (rf_segment_id e) (refresh_payload e) = Some (MetadataRefresh e).
Proof.
  intros He. destruct (refresh_flags_spec e) as (Hf & _). unfold decode_refresh.
  change (byte_at (refresh_payload e) 0) with (byte_of_Z (refresh_flags e)). rewrite Hf.
  destruct (has (rf_storage_locations e) || has (rf_pool_id e)) eqn:Eext.
  - destruct (refresh_flags_extended e Eext) as (-> & -> & ->). rewrite !andb_false_r.
    change (length (refresh_payload e) =? 0)%nat with false. cbn [negb andb].
    by apply decode_extended_refresh_payload.
  - destruct He as (_ & Hroot & _). clear Hf. unfold refresh_payload, refresh_flags.
    destruct e as [sid root [ls|] [q|]]; try done. cbn in Hroot. 
    cbn [rf_merkle_root rf_storage_locations rf_pool_id rf_segment_id].
    destruct root as [r|]; [|done]. pose proof (Hroot r eq_refl) as Hr.
    change ([byte_of_Z _] ++ default [] (Some r) ++ _) with ([byte_of_Z 1] ++ r ++ []).
    rewrite app_nil_r, length_app, Hr. cbn [length Nat.eqb andb Z.eqb].
    change ((33 =? _)%nat && (_ =? 1)) with true. cbv iota beta. by repeat field_norm.
Qed.

(** ** Records *)

Lemma length_locations ls :
  Forall location_ok ls -> (length (concat (location_bytes <$> ls)) <= 256 * length ls)%nat.
Proof.
  induction 1 as [|l ls [Hl _] _ IH]; cbn [fmap list_fmap concat length]; [done|].
  unfold REFRESH_MAX_NODE_ID_LEN in Hl. unfold location_bytes at 1.
  rewrite !length_app, length_to_le. change (list_fmap _ _ location_bytes ls) with (location_bytes <$> ls). lia.
Qed.

Lemma length_refresh_payload e :
  event_ok (MetadataRefresh e) -> (length (refresh_payload e) <= 4134)%nat.
Proof.
  intros (_ & Hroot & Hlocs & _). unfold refresh_payload. rewrite !length_app.
  assert (length (default [] (rf_merkle_root e)) <= 32)%nat
    by (destruct (rf_merkle_root e) as [r|]; [by rewrite <- (Hroot r eq_refl) | cbn; lia]).
  assert (length (default [] (locations_section <$> rf_storage_locations e)) <= 4097)%nat.
  { destruct (rf_storage_locations e) as [ls|]; [|cbn; lia].
    destruct (Hlocs ls eq_refl) as [Hn Hok%length_locations]. unfold REFRESH_MAX_LOCATIONS in Hn.
    change (length (locations_section ls) <= 4097)%nat.
    unfold locations_section. rewrite length_app, length_to_le. lia. }
  assert (length (default [] (to_le 4 <$> rf_pool_id e)) <= 4)%nat
    by (destruct (rf_pool_id e); cbn; lia).
  cbn [length]. lia.
Qed.

Lemma length_event_payload evt :
  event_ok evt -> Z.of_nat (length (event_payload evt).2) <= MAX_PAYLOAD_SIZE.
Proof.
  intros He. unfold MAX_PAYLOAD_SIZE, SEAL_PAYLOAD_SIZE, SEAL_REPACKED_FROM_SIZE,
    SEAL_POOL_ID_SIZE, SEAL_CONTAINED_LEN_SIZE.
  destruct evt as [e|e|e|e]; cbn [event_payload snd].
  - done.
  - rewrite length_seal_payload by done. pose proof (contained_blob_spec e) as Hb.
    unfold SEAL_MAX_CONTAINED_TAIL_BYTES in *. destruct (contained_blob e) as [b|];
      [destruct (Hb b eq_refl) as (_ & _ & Hle)|]; destruct (has _); lia.
  - done.
  - pose proof (length_refresh_payload e He). unfold SEAL_MAX_CONTAINED_TAIL_BYTES. lia.
Qed.

Lemma decode_event_payload evt :
  event_ok evt ->
  decode_payload (event_payload evt).1 (event_segment_id evt) (event_payload evt).2
  = Some (stored evt).
Proof.
  intros He. destruct evt as [e|e|e|e]; cbn [event_payload fst snd event_segment_id].
  - destruct e; cbn. by rewrite tier_from_to.
  - change ((if (SEAL_PAYLOAD_SIZE <=? length (seal_payload e))%nat
             then decode_seal (sl_segment_id e) (seal_payload e) else None) = Some (stored (Seal e))).
    rewrite (proj2 (Nat.leb_le _ _)) by (rewrite length_seal_payload by done; unfold SEAL_PAYLOAD_SIZE; lia).
    by apply decode_seal_payload.
  - by destruct e.
  - by apply decode_refresh_payload.
Qed.

Context (crc32_range : forall bs, is_u32 (crc32 bs)).

Lemma length_record_prefix kind sid payload :
  length sid = 16%nat -> length (record_prefix kind sid payload) = (28 + length payload)%nat.
Proof.
  intros Hs. unfold record_prefix. rewrite !length_app, length_to_le, Hs. cbn [length EVENT_RECORD_MAGIC]. lia.
Qed.

(** The header fields of a record, whatever follows the payload. *)
Lemma record_prefix_fields kind sid payload rest :
  length sid = 16%nat -> Z.of_nat (length payload) <= u32_max ->
  let bs := record_prefix kind sid payload ++ rest in
  field bs 0 4 = EVENT_RECORD_MAGIC /\ byte_at bs 4 = EVENT_RECORD_VERSION /\ byte_at bs 5 = kind /\
  from_le (field bs 8 12) = Z.of_nat (length payload) /\ field bs 12 28 = sid /\
  field bs 28 (28 + length payload) = payload.
Proof.
  intros Hs Hlen bs. unfold u32_max in Hlen. subst bs. unfold record_prefix. rewrite <- !app_assoc.
  repeat field_norm. rewrite from_to_le_small by (simpl; lia). by split_and!.
Qed.

Lemma from_to_record evt :
  event_ok evt -> from_record_bytes (to_record_bytes evt) = Some (stored evt).
Proof.
  intros He. pose proof (decode_event_payload evt He) as Hdec.
  pose proof (length_event_payload evt He) as Hlen. destruct He as [Hsid _].
  unfold to_record_bytes. destruct (event_payload evt) as [kind payload].
  cbn [fst snd] in Hdec, Hlen.
  assert (Hp : Z.of_nat (length payload) <= u32_max)
    by (etransitivity; [exact Hlen | by vm_compute]).
  set (buf := record_prefix kind (event_segment_id evt) payload).
  pose proof (length_record_prefix kind (event_segment_id evt) payload Hsid) as Hbuf. fold buf in Hbuf.
  destruct (record_prefix_fields kind (event_segment_id evt) payload (to_le 4 (crc32 buf)) Hsid Hp)
    as (Hm & Hv & Hk & Hl & Hs & Hpl). fold buf in Hm, Hv, Hk, Hl, Hs, Hpl.
  unfold from_record_bytes, EVENT_RECORD_HEADER_SIZE.
  rewrite Hm, Hv, Hk, Hl, Hs, Nat2Z.id, Hpl.
  rewrite !bool_decide_true by done. rewrite length_app, length_to_le, Hbuf.
  rewrite (proj2 (Nat.ltb_ge _ _)) by lia. rewrite Nat.eqb_refl. cbn [negb].
  replace (28 + length payload + 4 - 4)%nat with (length buf) by lia.
  rewrite take_app_length, (field_skip (length buf) 0 4), (field_all _ 4) by (lia || apply length_to_le).
  pose proof (crc32_range buf). unfold_ints.
  by rewrite from_to_le_small, Z.eqb_refl by (simpl; lia).
Qed.

Lemma pre_pool_not_decoded kind sid payload :
  is_pre_pool_seal kind payload = true -> decode_payload kind sid payload = None.
Proof.
  unfold is_pre_pool_seal. rewrite !andb_true_iff. intros [[Hk _] [[Hkn Hp] Hlen]].
  apply bool_decide_eq_true in Hk as ->. cbn [decode_payload KIND_SEAL].
  change ((if (SEAL_PAYLOAD_SIZE <=? length payload)%nat then decode_seal sid payload else None) = None).
  destruct (_ <=? _)%nat; [|done]. unfold decode_seal.
  destruct (negb (Z.land _ _ =? 0)); [done|]. by rewrite Hp.
Qed.

Lemma encoded_not_pre_pool evt :
  is_pre_pool_seal (event_payload evt).1 (event_payload evt).2 = false.
Proof.
  destruct evt as [e|e|e|e]; cbn [event_payload fst snd]; [done| |done|done].
  destruct (seal_flags_spec e) as (Hf & _ & Hp & _). unfold is_pre_pool_seal.
  change (byte_at (seal_payload e) 3) with (byte_of_Z (seal_flags e)).
  rewrite Hf, Hp. cbn [negb]. by rewrite andb_false_r, andb_false_r.
Qed.

Lemma too_many_locations_not_decoded e ls :
  rf_storage_locations e = Some ls -> (REFRESH_MAX_LOCATIONS < length ls <= 255)%nat ->
  (forall r, rf_merkle_root e = Some r -> length r = 32%nat) ->
  decode_refresh (rf_segment_id e) (refresh_payload e) = None.
Proof.
  intros El Hn Hroot. destruct (refresh_flags_spec e) as (Hf & Hk & Hr & Hl & Hp).
  destruct (refresh_flags_extended e) as (Hf0 & Hf1 & Hf6); [by rewrite El|].
  unfold decode_refresh, decode_extended_refresh.
  change (byte_at (refresh_payload e) 0) with (byte_of_Z (refresh_flags e)).
  change (255 - Z.lor _ REFRESH_FLAG_POOL_ID) with 248.
  rewrite Hf, Hf0, Hf1, Hf6, Hk, Hr, Hl, El, !andb_false_r.
  change (length (refresh_payload e) =? 0)%nat with false. cbn [negb andb Z.eqb has].
  unfold refresh_payload. rewrite El. set (F := [byte_of_Z (refresh_flags e)]).
  set (P := default [] (to_le 4 <$> rf_pool_id e)).
  change (default [] (locations_section <$> Some ls)) with (locations_section ls).
  rewrite (opt_section_at id (rf_merkle_root e) F).
  2: { intros r Er. rewrite Er. rewrite length_app. unfold id. rewrite (Hroot r Er).
       by apply (read_section_at F r _ REFRESH_ROOT_SIZE), Hroot. }
  rewrite option_fmap_id. cbn [mbind option_bind]. unfold locations_section.
  rewrite <- !app_assoc, (app_assoc F), read_section_at by apply length_to_le.
  cbn [mbind option_bind opt_section]. cbv zeta.
  rewrite from_to_le_small, Nat2Z.id by (simpl; lia).
  by rewrite (proj2 (Nat.ltb_lt _ _)) by lia.
Qed.

End codec.

(** The membership lists that survive: absent, or not empty with a blob within the cap. *)
Definition membership_fits (serialize : list ContainedObject -> option bytes) (evt : SegmentEvent) : Prop :=
  match evt with
  | Seal e => sl_contained_objects e = None \/ is_Some (contained_blob serialize e)
  | _ => True
  end.

(** Every segment lifecycle event whose fields have their declared sizes
    and whose locations fit the record (at most 16, each at most 255 bytes of
    UTF-8) is read back from its on-disk record. All fields survive, with one
    exception the code documents: a membership list that is empty or too
    large gets no blob and is read back as absent. The parameters only have
    to be a 32-bit CRC and a [bincode] whose [deserialize] inverts
    [serialize]. *)
Theorem event_record_roundtrip (crc32 : bytes -> Z)
    (serialize : list ContainedObject -> option bytes)
    (deserialize : bytes -> option (list ContainedObject))
    (crc32_range : forall bs, is_u32 (crc32 bs))
    (deserialize_serialize : forall l b, serialize l = Some b -> deserialize b = Some l)
    (evt : SegmentEvent) :
  event_ok evt ->
  from_record_bytes crc32 deserialize (to_record_bytes crc32 serialize evt)
    = Some (stored serialize evt) /\
  (membership_fits serialize evt -> stored serialize evt = evt).
Proof.
  intros He. split; [by apply from_to_record|].
  destruct evt as [e|e|e|e]; cbn [membership_fits stored]; [done| |done|done].
  destruct (contained_blob serialize e) as [b|]; [by destruct e|].
  intros [H|[b Hb]]; [by destruct e; cbn in *; subst | done].
Qed.

(** A membership codec for the examples: it only knows lists of one object
    with a one-byte bucket and key. *)
Definition toy_serialize (l : list ContainedObject) : option bytes :=
  match l with [ {| co_bucket := [b]; co_key := [k] |} ] => Some [b; k] | _ => None end.

Definition toy_deserialize (bs : bytes) : option (list ContainedObject) :=
  match bs with [b; k] => Some [ {| co_bucket := [b]; co_key := [k] |} ] | _ => None end.

Lemma toy_deserialize_serialize l b : toy_serialize l = Some b -> toy_deserialize b = Some l.
Proof. destruct l as [|[[|? []] [|? []]] []]; cbn; try done. by intros [= <-]. Qed.

Definition sample_seal : SegmentEvent := Seal {|
  sl_segment_id := replicate 16 x01; sl_tier := Multi; sl_ec_k := x04; sl_ec_m := x02;
  sl_merkle_root := replicate 32 xab; sl_data_wal_pos := {| dp_file_seq := 3; dp_offset := 4096 |};
  sl_total_bytes := 4096; sl_repacked_from := Some (replicate 16 x02); sl_pool_id := 7;
  sl_contained_objects := Some [ {| co_bucket := [x62]; co_key := [x6b] |} ] |}.

Lemma event_record_roundtrip_witness :
  from_record_bytes toy_crc toy_deserialize (to_record_bytes toy_crc toy_serialize sample_seal)
    = Some (stored toy_serialize sample_seal) /\
  (membership_fits toy_serialize sample_seal -> stored toy_serialize sample_seal = sample_seal).
Proof.
  apply (event_record_roundtrip toy_crc toy_serialize toy_deserialize toy_crc_range
    toy_deserialize_serialize sample_seal).
  unfold event_ok. cbn [sample_seal event_segment_id]. unfold_ints. cbn.
  split_and!; try done; try lia. by intros id [= <-].
Defined.

(** The shape that data directories had before storage pools is refused
    and nothing else is: a payload recognised as a pre-pool Seal never
    decodes, so it is never taken for a current record; and no event this
    code encodes is ever recognised as pre-pool. *)
Theorem pre_pool_seal_refused (serialize : list ContainedObject -> option bytes)
    (deserialize : bytes -> option (list ContainedObject)) :
  (forall kind sid payload,
     is_pre_pool_seal kind payload = true -> decode_payload deserialize kind sid payload = None) /\
  (forall evt,
     is_pre_pool_seal (event_payload serialize evt).1 (event_payload serialize evt).2 = false).
Proof. split; intros; [by apply pre_pool_not_decoded | apply encoded_not_pre_pool]. Qed.

(** The encoder does not enforce the limit of 16 locations that the
    decoder has: a metadata refresh with 17 to 255 locations is written and
    never decodes again. *)
Theorem refresh_location_limit_unchecked (deserialize : bytes -> option (list ContainedObject)) e ls :
  rf_storage_locations e = Some ls -> (REFRESH_MAX_LOCATIONS < length ls <= 255)%nat ->
  (forall r, rf_merkle_root e = Some r -> length r = 32%nat) ->
  decode_payload deserialize KIND_METADATA_REFRESH (rf_segment_id e) (refresh_payload e) = None.
Proof. intros. cbn [decode_payload KIND_METADATA_REFRESH]. by eapply too_many_locations_not_decoded. Qed.

Definition sample_refresh : MetadataRefreshEvent := {|
  rf_segment_id := replicate 16 x01; rf_merkle_root := None;
  rf_storage_locations := Some (replicate 17 [x6e]); rf_pool_id := None |}.

Lemma refresh_location_limit_unchecked_witness :
  decode_payload toy_deserialize KIND_METADATA_REFRESH (rf_segment_id sample_refresh)
    (refresh_payload sample_refresh) = None.
Proof.
  apply (refresh_location_limit_unchecked toy_deserialize sample_refresh (replicate 17 [x6e]));
    [done | vm_compute; lia | done].
Defined.
