(* ===== verification/EventWal.v ===== *)
(** * The segment event log (crates/oceanfs-storage/src/segment/event_wal.rs)

    The files of the event WAL, its writer (open with the repair of a torn
    tail, append, rotation, truncation after a checkpoint, byte accounting)
    and its reader, which stops at the first bad record and tells a torn tail
    from corruption. The disk maps the sequence numbers of the [evl_] files to
    their bytes, in ascending order; the group commit that makes an append
    durable and the metrics are not part of the state. *)

From Stdlib Require Import ZArith Lia Strings.Byte Sorting.Sorted.
From stdpp Require Import base list.
From S2P Require Import Prelude WalPos EventRecord.

Local Open Scope Z_scope.

(** ** The disk *)

Notation Disk := (list (Z * bytes)).

Fixpoint file_get (d : Disk) (seq : Z) : option bytes :=
  match d with
  | [] => None
  | (s, c) :: d => if s =? seq then Some c else file_get d seq
  end.

(** Opening with [create] and writing at the end; setting the contents. *)
Fixpoint file_put (d : Disk) (seq : Z) (c : bytes) : Disk :=
  match d with
  | [] => [(seq, c)]
  | (s, c') :: d =>
      if s =? seq then (s, c) :: d
      else if seq <? s then (seq, c) :: (s, c') :: d
      else (s, c') :: file_put d seq c
  end.

Definition file_append (d : Disk) (seq : Z) (data : bytes) : Disk :=
  file_put d seq (default [] (file_get d seq) ++ data).

Definition file_size (c : bytes) : Z := Z.of_nat (length c).

(** ** Reader *)

Inductive BadDetail :=
  | TruncatedHeader | BadMagic | BadVersion | ImplausibleLength | TruncatedPayload
  | ChecksumMismatch | InvalidPayload.

Inductive EventError :=
  | CorruptEventLog (pos : EventWalPos) (detail : BadDetail)
  | TornEventRecord (pos : EventWalPos) (detail : BadDetail)
  | UnsupportedPrePoolDataDir (pos : EventWalPos).

Record EventWalReader := { er_next : EventWalPos; er_done : bool }.

Inductive read_step :=
  | Recurse (r : EventWalReader)
  | Item (i : option (EventWalPos * SegmentEvent + EventError)) (r : EventWalReader).

Definition read_from (pos : EventWalPos) : EventWalReader := {| er_next := pos; er_done := false |}.

Section reader.
Context (crc32 : bytes -> Z).
Context (deserialize : bytes -> option (list ContainedObject)).
Context (d : Disk).

(** [bytes_in_later_files]. *)
Definition bytes_in_later_files (seq : Z) : Z :=
  foldr Z.add 0 ((fun '(s, c) => if seq <? s then file_size c else 0) <$> d).

Definition bad_record (r : EventWalReader) (content : bytes) (detail : BadDetail)
    (record_end_offset : Z) : read_step :=
  let pos := er_next r in
  let after_here := saturating_sub (file_size content) record_end_offset in
  let after_later := bytes_in_later_files (ep_file_seq pos) in
  Item (Some (inr (if 0 <? after_here + after_later then CorruptEventLog pos detail
                   else TornEventRecord pos detail)))
    {| er_next := pos; er_done := true |}.

(** [skip_to_next_existing_file]: the smallest later sequence number, if any. *)
Definition next_existing (after_seq : Z) : option Z :=
  foldl (fun next '(s, _) =>
    if (after_seq <? s) && match next with Some n => s <? n | None => true end
    then Some s else next) None d.

Definition skip_to_next_existing_file (r : EventWalReader) : option EventWalReader :=
  (fun s => {| er_next := {| ep_file_seq := s; ep_offset := 0 |}; er_done := er_done r |})
  <$> next_existing (ep_file_seq (er_next r)).

Definition set_done (r : EventWalReader) : EventWalReader :=
  {| er_next := er_next r; er_done := true |}.

(** [EventWalReader::next] up to its recursive calls. *)
Definition reader_next (r : EventWalReader) : read_step :=
  if er_done r then Item None r else
  let next := er_next r in
  match file_get d (ep_file_seq next) with
  | None =>
      match skip_to_next_existing_file r with
      | Some r => Recurse r
      | None => Item None (set_done r)
      end
  | Some content =>
      let rest := drop (Z.to_nat (ep_offset next)) content in
      let at_end := wrap64 (ep_offset next + Z.of_nat (length rest)) in
      let min_end := wrap64 (ep_offset next + 32) in
      if (length rest <? EVENT_RECORD_HEADER_SIZE)%nat then
        if at_end =? ep_offset next
        then Recurse (default (set_done r) (skip_to_next_existing_file r))
        else bad_record r content TruncatedHeader at_end
      else
      let header := take EVENT_RECORD_HEADER_SIZE rest in
      if negb (bool_decide (field header 0 4 = EVENT_RECORD_MAGIC))
      then bad_record r content BadMagic min_end else
      if negb (bool_decide (byte_at header 4 = EVENT_RECORD_VERSION))
      then bad_record r content BadVersion min_end else
      let kind := byte_at header 5 in
      let payload_len := from_le (field header 8 12) in
      if MAX_PAYLOAD_SIZE <? payload_len then bad_record r content ImplausibleLength min_end else
      let payload_len := Z.to_nat payload_len in
      let rest := drop EVENT_RECORD_HEADER_SIZE rest in
      if (length rest <? payload_len + 4)%nat
      then bad_record r content TruncatedPayload at_end else
      let tail := take (payload_len + 4) rest in
      let record_end :=
        wrap64 (ep_offset next + Z.of_nat (EVENT_RECORD_HEADER_SIZE + payload_len + 4)) in
      let stored_crc := from_le (field tail payload_len (payload_len + 4)) in
      let payload := take payload_len tail in
      if negb (stored_crc =? crc32 (header ++ payload))
      then bad_record r content ChecksumMismatch record_end else
      match decode_payload deserialize kind (field header 12 28) payload with
      | Some evt =>
          Item (Some (inl (next, evt)))
            {| er_next := {| ep_file_seq := ep_file_seq next; ep_offset := record_end |};
               er_done := er_done r |}
      | None =>
          if is_pre_pool_seal kind payload
          then Item (Some (inr (UnsupportedPrePoolDataDir next))) r
          else bad_record r content InvalidPayload record_end
      end
  end.

(** A consumer that stops at the first error: the events it saw, how the
    iteration ended, and the position of the reader then. *)
Fixpoint read_events (fuel : nat) (r : EventWalReader)
    : option (list (EventWalPos * SegmentEvent) * option EventError * EventWalPos) :=
  match fuel with
  | O => None
  | S fuel =>
      match reader_next r with
      | Recurse r => read_events fuel r
      | Item None r => Some ([], None, er_next r)
      | Item (Some (inr e)) r => Some ([], Some e, er_next r)
      | Item (Some (inl i)) r =>
          '(l, e, next) ← read_events fuel r; Some (i :: l, e, next)
      end
  end.

End reader.

(** ** Writer *)

Record EventWal := {
  ew_disk : Disk; ew_file_seq : Z; ew_position : Z; ew_latest_packed : Z;
  ew_bytes_total : Z; ew_file_bases : list (Z * Z); ew_file_count : Z }.

(** Enough turns for any walk of a reader over the disk. *)
Definition read_fuel (d : Disk) : nat :=
  S (S (sum_list_with (fun '(_, c) => S (S (length c))) d)).

(** The directory scan: sequence numbers and sizes. *)
Definition file_sizes (d : Disk) : list (Z * Z) := (fun '(s, c) => (s, file_size c)) <$> d.

Fixpoint bases_from (cumulative : Z) (files : list (Z * Z)) : list (Z * Z) * Z :=
  match files with
  | [] => ([], cumulative)
  | (seq, size) :: files =>
      let '(bases, total) := bases_from (wrap64 (cumulative + size)) files in
      ((seq, cumulative) :: bases, total)
  end.

Section writer.
Context (crc32 : bytes -> Z).
Context (serialize : list ContainedObject -> option bytes).
Context (deserialize : bytes -> option (list ContainedObject)).
(** [event_wal_file_size_bytes]. *)
Context (file_size_limit : Z).

(** The loop of [truncate_torn_tail]: the torn flag and the end of the last
    good record, the unchanged size for a corrupt log, or the error. *)
Inductive tail_scan :=
  | ScanEnd (torn : bool) (last_good_end : Z)
  | ScanCorrupt
  | ScanError (e : EventError).

Fixpoint scan_tail (d : Disk) (fuel : nat) (r : EventWalReader) (last_good_end : Z)
    : option tail_scan :=
  match fuel with
  | O => None
  | S fuel =>
      match reader_next crc32 deserialize d r with
      | Recurse r => scan_tail d fuel r last_good_end
      | Item None _ => Some (ScanEnd false last_good_end)
      | Item (Some (inl _)) r => scan_tail d fuel r (ep_offset (er_next r))
      | Item (Some (inr (TornEventRecord _ _))) _ => Some (ScanEnd true last_good_end)
      | Item (Some (inr (CorruptEventLog _ _))) _ => Some ScanCorrupt
      | Item (Some (inr e)) _ => Some (ScanError e)
      end
  end.

(** The disk and the size of the file afterwards; [None] when the fuel runs out. *)
Definition truncate_torn_tail (d : Disk) (seq size : Z) : option (outcome EventError (Disk * Z)) :=
  if size =? 0 then Some (Ok (d, 0)) else
  scan ← scan_tail d (read_fuel d) (read_from {| ep_file_seq := seq; ep_offset := 0 |}) 0;
  Some match scan with
    | ScanError e => Err e
    | ScanCorrupt => Ok (d, size)
    | ScanEnd torn last_good_end =>
        if torn && (last_good_end <? size)
        then Ok (file_put d seq (take (Z.to_nat last_good_end) (default [] (file_get d seq))),
                 last_good_end)
        else Ok (d, size)
    end.

Definition max_seq (d : Disk) : Z := default 0 (fst <$> last d).

Definition set_last_size (files : list (Z * Z)) (size : Z) : list (Z * Z) :=
  match last files with Some (seq, _) => removelast files ++ [(seq, size)] | None => files end.

(** [EventWal::open]. *)
Definition ew_open (d : Disk) : option (outcome EventError EventWal) :=
  let files := file_sizes d in
  let seq := max_seq d in
  let d := file_append d seq [] in
  res ← truncate_torn_tail d seq (file_size (default [] (file_get d seq)));
  Some match res with
    | Ok (d, existing_size) =>
        let '(bases, cumulative) := bases_from 0 (set_last_size files existing_size) in
        Ok {| ew_disk := d; ew_file_seq := seq; ew_position := existing_size;
              ew_latest_packed := packed {| ep_file_seq := seq; ep_offset := existing_size |};
              ew_bytes_total := cumulative; ew_file_bases := bases;
              ew_file_count := seq + 1 |}
    | Err e => Err e
    | Panic => Panic
    end.

(** [EventWal::rotate]. *)
Definition rotate (w : EventWal) : EventWal :=
  let new_seq := wrap32 (ew_file_seq w + 1) in
  {| ew_disk := file_append (ew_disk w) new_seq [];
     ew_file_seq := new_seq; ew_position := 0;
     ew_latest_packed := packed {| ep_file_seq := new_seq; ep_offset := 0 |};
     ew_bytes_total := ew_bytes_total w;
     ew_file_bases := ew_file_bases w ++ [(new_seq, ew_bytes_total w)];
     ew_file_count := new_seq + 1 |}.

(** [EventWal::append] without the wait for the group commit. *)
Definition write_record (w : EventWal) (data : bytes) : EventWal :=
  let position := wrap64 (ew_position w + Z.of_nat (length data)) in
  {| ew_disk := file_append (ew_disk w) (ew_file_seq w) data;
     ew_file_seq := ew_file_seq w; ew_position := position;
     ew_latest_packed := packed {| ep_file_seq := ew_file_seq w; ep_offset := position |};
     ew_bytes_total := wrap64 (ew_bytes_total w + Z.of_nat (length data));
     ew_file_bases := ew_file_bases w; ew_file_count := ew_file_count w |}.

Definition ew_append (w : EventWal) (evt : SegmentEvent) : EventWal * EventWalPos :=
  let data := to_record_bytes crc32 serialize evt in
  let w := if file_size_limit <? wrap64 (ew_position w + Z.of_nat (length data))
           then rotate w else w in
  (write_record w data, {| ep_file_seq := ew_file_seq w; ep_offset := ew_position w |}).

(** An append whose [write_all] fails after [kept] bytes: a rotation that was
    due has happened, the bytes stay in the file and the position does not
    move. *)
Definition ew_append_failed (w : EventWal) (evt : SegmentEvent) (kept : nat) : EventWal :=
  let data := to_record_bytes crc32 serialize evt in
  let w := if file_size_limit <? wrap64 (ew_position w + Z.of_nat (length data))
           then rotate w else w in
  {| ew_disk := file_append (ew_disk w) (ew_file_seq w) (take kept data);
     ew_file_seq := ew_file_seq w; ew_position := ew_position w;
     ew_latest_packed := ew_latest_packed w; ew_bytes_total := ew_bytes_total w;
     ew_file_bases := ew_file_bases w; ew_file_count := ew_file_count w |}.

(** [EventWal::truncate_before]: the files it deletes and the rebuilt accounting. *)
Definition fully_covered (w : EventWal) (pos : EventWalPos) (seq size : Z) : bool :=
  negb (seq =? ew_file_seq w)
  && ((seq <? ep_file_seq pos) || ((seq =? ep_file_seq pos) && (size <=? ep_offset pos))).

Definition truncate_before (w : EventWal) (pos : EventWalPos) : EventWal * Z :=
  let covered '(seq, c) := fully_covered w pos seq (file_size c) in
  let removed := foldr (fun f acc => wrap64 (acc + file_size f.2)) 0
                   (filter (fun f => covered f = true) (ew_disk w)) in
  let d := filter (fun f => covered f = false) (ew_disk w) in
  let '(bases, cumulative) := bases_from 0 (file_sizes d) in
  ({| ew_disk := d; ew_file_seq := ew_file_seq w; ew_position := ew_position w;
      ew_latest_packed := packed {| ep_file_seq := ew_file_seq w; ep_offset := ew_position w |};
      ew_bytes_total := cumulative; ew_file_bases := bases;
      ew_file_count := Z.of_nat (length d) |}, removed).

Definition latest_pos (w : EventWal) : EventWalPos := from_packed (ew_latest_packed w).

Definition base_before (w : EventWal) (seq : Z) : option Z :=
  snd <$> head (filter (fun b => (b.1 <=? seq) = true) (rev (ew_file_bases w))).

Definition bytes_since (w : EventWal) (pos : EventWalPos) : Z :=
  saturating_sub (ew_bytes_total w) (default 0 (base_before w (ep_file_seq pos)) + ep_offset pos).

(** [EventWal::reopen_fresh] on a replaced device. *)
Definition reopen_fresh (w : EventWal) : EventWal :=
  {| ew_disk := [(0, [])]; ew_file_seq := 0; ew_position := 0;
     ew_latest_packed := packed {| ep_file_seq := 0; ep_offset := 0 |};
     ew_bytes_total := 0; ew_file_bases := [(0, 0)]; ew_file_count := 1 |}.

End writer.

(** ** Reading one record *)

Definition record_header (kind : byte) (sid : SegmentId) (len : Z) : bytes :=
  EVENT_RECORD_MAGIC ++ [EVENT_RECORD_VERSION] ++ [kind] ++ [x00; x00] ++ to_le 4 len ++ sid.

Lemma record_prefix_split kind sid payload :
  record_prefix kind sid payload = record_header kind sid (Z.of_nat (length payload)) ++ payload.
Proof. unfold record_prefix, record_header. by rewrite <- !app_assoc. Qed.

Lemma length_record_header kind sid len :
  length sid = 16%nat -> length (record_header kind sid len) = 28%nat.
Proof. intros Hs. unfold record_header. rewrite !length_app, length_to_le, Hs. done. Qed.

Lemma record_header_fields kind sid len :
  length sid = 16%nat -> 0 <= len <= u32_max ->
  let h := record_header kind sid len in
  field h 0 4 = EVENT_RECORD_MAGIC /\ byte_at h 4 = EVENT_RECORD_VERSION /\ byte_at h 5 = kind /\
  from_le (field h 8 12) = len /\ field h 12 28 = sid.
Proof.
  intros Hs Hlen h. unfold u32_max in Hlen. subst h. unfold record_header. repeat field_norm.
  rewrite from_to_le_small by (simpl; lia). by split_and!.
Qed.

Section record.
Context (crc32 : bytes -> Z) (crc32_range : forall bs, is_u32 (crc32 bs)).
Context (serialize : list ContainedObject -> option bytes).
Context (deserialize : bytes -> option (list ContainedObject)).
Context (deserialize_serialize : forall l b, serialize l = Some b -> deserialize b = Some l).

Notation record := (to_record_bytes crc32 serialize).
Notation payload_of evt := (event_payload serialize evt).2.

Lemma record_parts evt :
  record evt
  = record_header (event_payload serialize evt).1 (event_segment_id evt)
      (Z.of_nat (length (payload_of evt)))
    ++ payload_of evt
    ++ to_le 4 (crc32 (record_prefix (event_payload serialize evt).1 (event_segment_id evt)
                         (payload_of evt))).
Proof.
  unfold to_record_bytes. destruct (event_payload serialize evt) as [kind payload]. cbn [fst snd].
  by rewrite record_prefix_split at 1; rewrite <- app_assoc.
Qed.

Lemma length_record evt :
  event_ok evt -> length (record evt) = (32 + length (payload_of evt))%nat.
Proof.
  intros [Hs _]. rewrite record_parts, !length_app, length_record_header, length_to_le by done. lia.
Qed.

Lemma payload_bound evt :
  event_ok evt -> Z.of_nat (length (payload_of evt)) <= MAX_PAYLOAD_SIZE.
Proof. by apply length_event_payload with deserialize. Qed.

Definition at_pos (s off : Z) : EventWalReader :=
  read_from {| ep_file_seq := s; ep_offset := off |}.

Lemma payload_u32 evt : event_ok evt -> 0 <= Z.of_nat (length (payload_of evt)) <= u32_max.
Proof.
  intros He. split; [lia|]. etransitivity; [by apply payload_bound | by vm_compute].
Qed.

(** A complete record is yielded with its position. *)
Lemma reader_next_record d s off content evt rest :
  event_ok evt -> file_get d s = Some content ->
  drop (Z.to_nat off) content = record evt ++ rest ->
  0 <= off -> off + Z.of_nat (length (record evt)) <= u64_max ->
  reader_next crc32 deserialize d (at_pos s off)
  = Item (Some (inl ({| ep_file_seq := s; ep_offset := off |}, stored serialize evt)))
      (at_pos s (off + Z.of_nat (length (record evt)))).
Proof.
  intros He Hget Hdrop Hoff Hend. pose proof He as [Hsid _].
  rewrite length_record in * by done.
  pose proof (decode_event_payload serialize deserialize deserialize_serialize evt He) as Hdec.
  pose proof (payload_u32 evt He) as Hu. pose proof (payload_bound evt He) as Hmax.
  rewrite record_parts in Hdrop.
  destruct (event_payload serialize evt) as [kind payload] eqn:Ep. cbn [fst snd] in *.
  destruct (record_header_fields kind (event_segment_id evt) (Z.of_nat (length payload)) Hsid Hu)
    as (Hm & Hv & Hk & Hl & Hs).
  pose proof (length_record_header kind (event_segment_id evt) (Z.of_nat (length payload)) Hsid) as Hlh.
  set (h := record_header _ _ _) in *. set (crc := crc32 _) in *.
  unfold reader_next, at_pos, read_from. cbn [er_done er_next ep_file_seq ep_offset].
  rewrite Hget, Hdrop, <- !app_assoc, !length_app, Hlh.
  unfold EVENT_RECORD_HEADER_SIZE. rewrite (proj2 (Nat.ltb_ge _ 28)) by lia.
  rewrite take_app_length', drop_app_length' by done.
  rewrite Hm, Hv, Hk, Hl, Hs, !bool_decide_true by done. cbn [negb].
  rewrite (proj2 (Z.ltb_ge _ _)), Nat2Z.id by done.
  rewrite !length_app, length_to_le, (proj2 (Nat.ltb_ge _ _)) by lia.
  rewrite (app_assoc payload), take_app_length' by (by rewrite length_app, length_to_le).
  rewrite take_app_length.
  rewrite (field_skip (length payload) 0 4), (field_all _ 4) by (lia || apply length_to_le).
  pose proof (crc32_range (record_prefix kind (event_segment_id evt) payload)) as Hr. fold crc in Hr.
  unfold_ints. rewrite from_to_le_small by (simpl; lia).
  assert (Hcrc : crc = crc32 (h ++ payload)) by (subst crc h; by rewrite record_prefix_split).
  rewrite <- Hcrc, Z.eqb_refl. cbn [negb]. rewrite Hdec.
  do 4 f_equal. unfold wrap64. rewrite Z.mod_small; lia.
Qed.

(** A strict, non-empty prefix of a record at the end of the last file is torn. *)
Lemma reader_next_torn d s off content evt n :
  event_ok evt -> file_get d s = Some content -> bytes_in_later_files d s = 0 ->
  drop (Z.to_nat off) content = take n (record evt) ->
  (0 < n < length (record evt))%nat -> 0 <= off ->
  off + Z.of_nat n = file_size content -> file_size content <= u64_max ->
  exists detail,
    reader_next crc32 deserialize d (at_pos s off)
    = Item (Some (inr (TornEventRecord {| ep_file_seq := s; ep_offset := off |} detail)))
        (set_done (at_pos s off)).
Proof.
  intros He Hget Hlater Hdrop Hn Hoff Hsize Hmax. pose proof He as [Hsid _].
  rewrite length_record in Hn by done.
  pose proof (payload_u32 evt He) as Hu. pose proof (payload_bound evt He) as Hb.
  assert (Hlen : length (take n (record evt)) = n) by (rewrite length_take, length_record by done; lia).
  unfold reader_next, at_pos, read_from. cbn [er_done er_next ep_file_seq ep_offset].
  rewrite Hget, Hdrop, Hlen.
  assert (Hw : wrap64 (off + Z.of_nat n) = file_size content)
    by (unfold wrap64, u64_max in *; rewrite Z.mod_small; lia).
  assert (Htorn : forall detail, bad_record d
    {| er_next := {| ep_file_seq := s; ep_offset := off |}; er_done := false |} content detail
    (wrap64 (off + Z.of_nat n))
    = Item (Some (inr (TornEventRecord {| ep_file_seq := s; ep_offset := off |} detail)))
        (set_done (at_pos s off))).
  { intros detail. unfold bad_record. cbn [er_next ep_file_seq]. rewrite Hlater, Hw.
    unfold saturating_sub. by rewrite Z.sub_diag. }
  unfold EVENT_RECORD_HEADER_SIZE. destruct (Nat.ltb_spec n 28).
  - rewrite (proj2 (Z.eqb_neq _ _)) by (rewrite Hw; lia). eauto.
  - rewrite record_parts. destruct (event_payload serialize evt) as [kind payload].
    cbn [fst snd] in *.
    destruct (record_header_fields kind (event_segment_id evt) (Z.of_nat (length payload)) Hsid Hu)
      as (Hm & Hv & Hk & Hl & Hs).
    pose proof (length_record_header kind (event_segment_id evt) (Z.of_nat (length payload)) Hsid) as Hlh.
    rewrite take_app_ge by lia. rewrite take_app_length', drop_app_length' by done.
    rewrite Hm, Hv, Hk, Hl, !bool_decide_true by done. cbn [negb].
    rewrite (proj2 (Z.ltb_ge _ _)), Nat2Z.id by done.
    rewrite (proj2 (Nat.ltb_lt _ _)) by (rewrite Hlh, length_take; lia). eauto.
Qed.

(** At the end of a file the reader goes on with the next file, if any. *)
Lemma reader_next_end d s off content :
  file_get d s = Some content -> off = file_size content -> file_size content <= u64_max ->
  reader_next crc32 deserialize d (at_pos s off)
  = Recurse (match next_existing d s with
             | Some s' => at_pos s' 0
             | None => set_done (at_pos s off)
             end).
Proof.
  intros Hget -> Hmax. unfold reader_next, at_pos, read_from.
  cbn [er_done er_next ep_file_seq ep_offset].
  rewrite Hget. unfold file_size. rewrite Nat2Z.id, drop_all. cbn [length].
  change (0 <? EVENT_RECORD_HEADER_SIZE)%nat with true. cbv iota.
  unfold file_size, wrap64, u64_max in *. rewrite Z.add_0_r, Z.mod_small, Z.eqb_refl by lia.
  unfold skip_to_next_existing_file. cbn [er_next ep_file_seq er_done].
  by destruct (next_existing d s).
Qed.
End record.

(** ** Ordered disks *)

Definition ordered {A} (d : list (Z * A)) : Prop := StronglySorted Z.lt (fst <$> d).

Lemma ordered_app {A} (d1 d2 : list (Z * A)) :
  ordered (d1 ++ d2) <->
  ordered d1 /\ ordered d2 /\ (forall x y, x ∈ d1 -> y ∈ d2 -> x.1 < y.1).
Proof.
  unfold ordered. rewrite fmap_app. induction d1 as [|a d1 IH]; cbn [fmap list_fmap app].
  - split; [|by intros (_ & H & _)]. intros H. split_and!; [constructor|done|].
    intros x y Hx. by apply not_elem_of_nil in Hx.
  - split.
    + inversion 1 as [|? ? Hs Hall]; subst. apply IH in Hs as (H1 & H2 & H12).
      apply Forall_app in Hall as [Ha1 Ha2]. split_and!; [by constructor|done|].
      intros x y [->|Hx]%elem_of_cons Hy; [|by apply H12].
      rewrite Forall_fmap, Forall_forall in Ha2. by apply Ha2.
    + intros (H1 & H2 & H12). inversion H1 as [|? ? H1' Ha1]; subst. constructor.
      * apply IH. split_and!; [done..|]. intros x y Hx Hy. apply H12; [by apply elem_of_cons; right|done].
      * apply Forall_app. split; [done|]. rewrite Forall_fmap, Forall_forall.
        intros y Hy. apply H12; [apply elem_of_cons; by left | done].
Qed.

Lemma ordered_cons {A} (a : Z * A) d :
  ordered (a :: d) -> ordered d /\ (forall y, y ∈ d -> a.1 < y.1).
Proof.
  intros H. apply (ordered_app [a] d) in H as (_ & H & H'). split; [done|].
  intros y Hy. apply H'; [by apply list_elem_of_singleton | done].
Qed.

Lemma file_get_app (d1 d2 : Disk) s c : ordered (d1 ++ (s, c) :: d2) -> file_get (d1 ++ (s, c) :: d2) s = Some c.
Proof.
  intros (_ & _ & H)%ordered_app. induction d1 as [|[s' c'] d1 IH]; cbn [app file_get].
  - by rewrite Z.eqb_refl.
  - rewrite (proj2 (Z.eqb_neq s' s)).
    + apply IH. intros x y Hx. apply H. apply elem_of_cons. by right.
    + specialize (H (s', c') (s, c)). cbn in H.
      intros ->. assert (s < s); [|lia]. apply H; apply elem_of_cons; by left.
Qed.

Lemma next_existing_keep (d : Disk) a n :
  (forall y, y ∈ d -> n < y.1) ->
  foldl (fun next '(s, _) =>
    if (a <? s) && match next with Some n => s <? n | None => true end
    then Some s else next) (Some n) d = Some n.
Proof.
  induction d as [|[s c] d IH]; intros H; cbn [foldl]; [done|].
  rewrite (proj2 (Z.ltb_ge s n)).
  - rewrite andb_false_r. apply IH. intros y Hy. apply H. apply elem_of_cons. by right.
  - specialize (H (s, c)). cbn in H. apply Z.lt_le_incl, H, elem_of_cons. by left.
Qed.

Lemma next_existing_spec (d1 d2 : Disk) s c :
  ordered (d1 ++ (s, c) :: d2) -> next_existing (d1 ++ (s, c) :: d2) s = fst <$> head d2.
Proof.
  intros (_ & H2 & H)%ordered_app. unfold next_existing.
  assert (Hskip : forall d, (forall y : Z * bytes, y ∈ d -> y.1 <= s) ->
    foldl (fun next '(s0, _) =>
      if (s <? s0) && match next with Some n => s0 <? n | None => true end
      then Some s0 else next) None (d ++ d2) = foldl (fun next '(s0, _) =>
      if (s <? s0) && match next with Some n => s0 <? n | None => true end
      then Some s0 else next) None d2).
  { induction d as [|[s' c'] d IH]; intros Hd; cbn [app foldl]; [done|].
    rewrite (proj2 (Z.ltb_ge s s')).
    - cbn [andb]. apply IH. intros y Hy. apply Hd, elem_of_cons. by right.
    - specialize (Hd (s', c')). apply Hd, elem_of_cons. by left. }
  change (d1 ++ (s, c) :: d2) with (d1 ++ [(s, c)] ++ d2). rewrite app_assoc, Hskip.
  - apply ordered_cons in H2 as [H2 Hs]. destruct d2 as [|[s2 c2] d2]; [done|]. cbn [foldl head fmap option_fmap option_map fst].
    rewrite (proj2 (Z.ltb_lt s s2)) by (apply (Hs (s2, c2)), elem_of_cons; by left). cbn [andb].
    apply next_existing_keep. by apply ordered_cons in H2 as [_ H2].
  - intros y [Hy| ->%list_elem_of_singleton]%elem_of_app; [|done].
    apply Z.lt_le_incl, (H y (s, c)); [done|]. apply elem_of_cons. by left.
Qed.

Lemma bytes_in_later_files_last (d : Disk) s c :
  ordered (d ++ [(s, c)]) -> bytes_in_later_files (d ++ [(s, c)]) s = 0.
Proof.
  intros (_ & _ & H)%ordered_app. unfold bytes_in_later_files. rewrite fmap_app, foldr_app.
  cbn. rewrite Z.ltb_irrefl.
  induction d as [|[s' c'] d IH]; cbn [fmap list_fmap foldr]; [done|].
  rewrite (proj2 (Z.ltb_ge s s')).
  - rewrite IH; [done|]. intros x y Hx. apply H, elem_of_cons. by right.
  - apply Z.lt_le_incl, (H (s', c') (s, c)); [apply elem_of_cons; by left | by apply list_elem_of_singleton].
Qed.

(** ** The log on disk *)

Section log.
Context (crc32 : bytes -> Z) (crc32_range : forall bs, is_u32 (crc32 bs)).
Context (serialize : list ContainedObject -> option bytes).
Context (deserialize : bytes -> option (list ContainedObject)).
Context (deserialize_serialize : forall l b, serialize l = Some b -> deserialize b = Some l).

Notation record := (to_record_bytes crc32 serialize).
Notation read := (read_events crc32 deserialize).

Definition records (es : list SegmentEvent) : bytes := concat (record <$> es).

(** The files of a log: their sequence numbers and the events in them. *)
Notation Files := (list (Z * list SegmentEvent)).

Definition disk_of (fs : Files) : Disk := (fun '(s, es) => (s, records es)) <$> fs.

Fixpoint positions (s off : Z) (es : list SegmentEvent) : list (EventWalPos * SegmentEvent) :=
  match es with
  | [] => []
  | e :: es =>
      ({| ep_file_seq := s; ep_offset := off |}, stored serialize e)
      :: positions s (off + Z.of_nat (length (record e))) es
  end.

(** The log: every event with the position of its record. *)
Definition log_of (fs : Files) : list (EventWalPos * SegmentEvent) :=
  concat ((fun '(s, es) => positions s 0 es) <$> fs).

Definition file_ok (f : Z * list SegmentEvent) : Prop :=
  0 <= f.1 <= u32_max /\ Forall event_ok f.2 /\ Z.of_nat (length (records f.2)) <= u64_max.

Definition files_ok (fs : Files) : Prop := ordered fs /\ Forall file_ok fs.

Definition prepend (l : list (EventWalPos * SegmentEvent))
    (res : list (EventWalPos * SegmentEvent) * option EventError * EventWalPos) :=
  (l ++ res.1.1, res.1.2, res.2).

Lemma read_file d s content rest : forall es off fuel,
  file_get d s = Some content -> Forall event_ok es ->
  drop (Z.to_nat off) content = records es ++ rest ->
  0 <= off -> off + Z.of_nat (length (records es)) <= u64_max ->
  read d (length es + fuel) (at_pos s off)
  = prepend (positions s off es) <$> read d fuel (at_pos s (off + Z.of_nat (length (records es)))).
Proof.
  induction es as [|e es IH]; intros off fuel Hget Hes Hdrop Hoff Hmax.
  - cbn. rewrite Z.add_0_r. by destruct (read d fuel _) as [[[l e] n]|].
  - inversion Hes as [|? ? He Hes']; subst.
    change (records (e :: es)) with (record e ++ records es) in *.
    rewrite length_app in *. rewrite <- app_assoc in Hdrop.
    cbn [length Nat.add read_events].
    rewrite (reader_next_record crc32 crc32_range serialize deserialize deserialize_serialize
      d s off content e (records es ++ rest)) by (done || lia).
    rewrite IH; try done; try lia.
    + rewrite <- Z.add_assoc, <- Nat2Z.inj_add. by destruct (read d fuel _) as [[[l er] n]|].
    + rewrite Z2Nat.inj_add, Nat2Z.id, <- drop_drop, Hdrop by lia. by rewrite drop_app_length.
Qed.

Lemma read_events_mono d n m r res :
  read d n r = Some res -> (n <= m)%nat -> read d m r = Some res.
Proof.
  revert m r res; induction n as [|n IH]; intros [|m] r res H Hm; [done|done|lia|].
  cbn [read_events] in *. destruct (reader_next crc32 deserialize d r) as [r'|[[i|e]|] r']; try done.
  - apply IH; [done|lia].
  - destruct (read d n r') as [[[l er] nx]|] eqn:E; [|done].
    rewrite (IH m r' _ E) by lia. done.
Qed.

Lemma read_events_S d fuel r :
  read d (S fuel) r
  = match reader_next crc32 deserialize d r with
    | Recurse r => read d fuel r
    | Item None r => Some ([], None, er_next r)
    | Item (Some (inr e)) r => Some ([], Some e, er_next r)
    | Item (Some (inl i)) r => '(l, e, next) ← read d fuel r; Some (i :: l, e, next)
    end.
Proof. done. Qed.

Definition chain_fuel (fs : Files) : nat := S (S (sum_list_with (fun f => S (length f.2)) fs)).

(** Where a reader ends that has read a log from a position in file [s]. *)
Fixpoint end_pos (s off : Z) (fs : Files) : EventWalPos :=
  match fs with
  | [] => {| ep_file_seq := s; ep_offset := off |}
  | (s', es) :: fs => end_pos s' (Z.of_nat (length (records es))) fs
  end.

Lemma read_next_files fs : forall d pre s content,
  d = pre ++ (s, content) :: disk_of fs -> ordered d -> Forall file_ok fs ->
  file_size content <= u64_max ->
  read d (chain_fuel fs) (at_pos s (file_size content))
  = Some (log_of fs, None, end_pos s (file_size content) fs).
Proof.
  induction fs as [|[s' es] fs IH]; intros d pre s content Hd Hord Hok Hmax;
    unfold chain_fuel; rewrite read_events_S.
  - rewrite (reader_next_end crc32 deserialize d s _ content)
      by (done || subst; by apply file_get_app).
    rewrite Hd, next_existing_spec by (by subst). cbn. done.
  - rewrite (reader_next_end crc32 deserialize d s _ content)
      by (done || subst; by apply file_get_app).
    rewrite Hd, next_existing_spec by (by subst). rewrite <- Hd.
    cbn [disk_of fmap list_fmap head option_fmap option_map fst].
    inversion Hok as [|? ? (_ & Hes & Hsz) Hok']; subst. cbn [fst snd] in *.
    change (disk_of ((s', es) :: fs)) with ((s', records es) :: disk_of fs) in *.
    cbn [sum_list_with snd].
    replace (S (S (length es) + sum_list_with (fun f => S (length f.2)) fs))
      with (length es + chain_fuel fs)%nat by (unfold chain_fuel; lia).
    rewrite (read_file _ s' (records es) [] es 0).
    + rewrite Z.add_0_l. fold (file_size (records es)).
      rewrite (IH _ (pre ++ [(s, content)]) s' (records es)); try done.
      by rewrite <- app_assoc.
    + assert (Hord' : ordered ((pre ++ [(s, content)]) ++ (s', records es) :: disk_of fs))
        by (by rewrite <- app_assoc).
      apply file_get_app in Hord'. by rewrite <- app_assoc in Hord'.
    + done.
    + by rewrite app_nil_r.
    + lia.
    + lia.
Qed.

Lemma length_records_ge es : Forall event_ok es -> (length es <= length (records es))%nat.
Proof.
  induction 1 as [|e es He _ IH]; [done|]. change (records (e :: es)) with (record e ++ records es).
  rewrite length_app, (length_record crc32 serialize) by done. cbn [length]. lia.
Qed.

Lemma records_app es1 es2 : records (es1 ++ es2) = records es1 ++ records es2.
Proof. unfold records. by rewrite fmap_app, concat_app. Qed.

Lemma disk_of_app fs1 fs2 : disk_of (fs1 ++ fs2) = disk_of fs1 ++ disk_of fs2.
Proof. apply fmap_app. Qed.

Lemma fst_disk_of fs : fst <$> disk_of fs = fst <$> fs.
Proof.
  unfold disk_of. rewrite <- list_fmap_compose. apply list_fmap_ext. by intros ? [s es] _.
Qed.

Lemma ordered_disk_of fs : ordered (disk_of fs) <-> ordered fs.
Proof. unfold ordered. by rewrite fst_disk_of. Qed.

Lemma chain_fuel_disk fs :
  Forall file_ok fs -> (chain_fuel fs <= read_fuel (disk_of fs))%nat.
Proof.
  intros Hok. unfold chain_fuel, read_fuel. do 2 apply le_n_S.
  induction Hok as [|[s es] fs (_ & Hes & _) _ IH]; [done|].
  apply length_records_ge in Hes.
  change (disk_of ((s, es) :: fs)) with ((s, records es) :: disk_of fs).
  cbn [sum_list_with snd] in *. lia.
Qed.

Lemma read_fuel_app d1 d2 : (read_fuel d2 <= read_fuel (d1 ++ d2))%nat.
Proof. unfold read_fuel. rewrite sum_list_with_app. lia. Qed.

(** Reading from a record boundary yields the rest of the log. *)
Lemma read_from_boundary fs1 s es1 es2 fs2 :
  let fs := fs1 ++ (s, es1 ++ es2) :: fs2 in
  files_ok fs ->
  read (disk_of fs) (read_fuel (disk_of fs)) (at_pos s (Z.of_nat (length (records es1))))
  = Some (positions s (Z.of_nat (length (records es1))) es2 ++ log_of fs2, None,
          end_pos s (Z.of_nat (length (records (es1 ++ es2)))) fs2).
Proof.
  intros fs [Hord Hok]. subst fs.
  apply Forall_app in Hok as [_ Hok]. inversion Hok as [|? ? (_ & Hes & Hsz) Hok2]; subst.
  cbn [fst snd] in *. apply ordered_disk_of in Hord. rewrite disk_of_app in *.
  change (disk_of ((s, es1 ++ es2) :: fs2)) with ((s, records (es1 ++ es2)) :: disk_of fs2) in *.
  set (d := disk_of fs1 ++ _) in *.
  apply Forall_app in Hes as [Hes1 Hes2].
  pose proof (records_app es1 es2) as Hr.
  assert (Hsum : (length es2 + chain_fuel fs2 <= read_fuel d)%nat).
  { etransitivity; [|apply read_fuel_app].
    pose proof (chain_fuel_disk fs2 Hok2). pose proof (length_records_ge es2 Hes2).
    unfold read_fuel in *. cbn [sum_list_with]. rewrite Hr, length_app. lia. }
  eapply read_events_mono; [|exact Hsum].
  rewrite (read_file d s (records (es1 ++ es2)) [] es2).
  - rewrite <- Nat2Z.inj_add, <- length_app, <- Hr. fold (file_size (records (es1 ++ es2))).
    by rewrite (read_next_files fs2 d (disk_of fs1) s (records (es1 ++ es2))).
  - by apply file_get_app.
  - done.
  - by rewrite Nat2Z.id, Hr, drop_app_length, app_nil_r.
  - lia.
  - rewrite Hr, length_app in Hsz. lia.
Qed.

(** ** The writer *)

Lemma file_put_last (d : Disk) s c c' :
  (forall x, x ∈ d -> x.1 < s) -> file_put (d ++ [(s, c)]) s c' = d ++ [(s, c')].
Proof.
  induction d as [|[s1 c1] d IH]; intros H; cbn [app file_put]; [by rewrite Z.eqb_refl|].
  assert (s1 < s) by (apply (H (s1, c1)), elem_of_cons; by left).
  rewrite (proj2 (Z.eqb_neq s1 s)), (proj2 (Z.ltb_ge s s1)) by lia. f_equal. apply IH.
  intros x Hx. apply H, elem_of_cons. by right.
Qed.

Lemma file_put_new (d : Disk) s c : (forall x, x ∈ d -> x.1 < s) -> file_put d s c = d ++ [(s, c)].
Proof.
  induction d as [|[s1 c1] d IH]; intros H; cbn [app file_put]; [done|].
  assert (s1 < s) by (apply (H (s1, c1)), elem_of_cons; by left).
  rewrite (proj2 (Z.eqb_neq s1 s)), (proj2 (Z.ltb_ge s s1)) by lia. f_equal. apply IH.
  intros x Hx. apply H, elem_of_cons. by right.
Qed.

Lemma file_get_new (d : Disk) s : (forall x, x ∈ d -> x.1 < s) -> file_get d s = None.
Proof.
  induction d as [|[s1 c1] d IH]; intros H; cbn [file_get]; [done|].
  assert (s1 < s) by (apply (H (s1, c1)), elem_of_cons; by left).
  rewrite (proj2 (Z.eqb_neq s1 s)) by lia. apply IH. intros x Hx. apply H, elem_of_cons. by right.
Qed.

Lemma file_append_last (d : Disk) s c data :
  ordered (d ++ [(s, c)]) -> file_append (d ++ [(s, c)]) s data = d ++ [(s, c ++ data)].
Proof.
  intros Hord. unfold file_append. rewrite file_get_app by done.
  apply file_put_last. apply ordered_app in Hord as (_ & _ & H). intros x Hx.
  apply (H x (s, c)); [done | by apply list_elem_of_singleton].
Qed.

Definition total_size (fs : Files) : Z :=
  foldr Z.add 0 ((fun f => Z.of_nat (length (records f.2))) <$> fs).

Lemma total_size_app fs1 fs2 : total_size (fs1 ++ fs2) = total_size fs1 + total_size fs2.
Proof.
  unfold total_size. rewrite fmap_app. induction fs1; cbn [fmap list_fmap app foldr]; [done|]. lia.
Qed.

Lemma total_size_nonneg fs : 0 <= total_size fs.
Proof. unfold total_size. induction fs; cbn [fmap list_fmap foldr]; lia. Qed.

(** The writer holds the log [fs]: the disk has its files, the write position
    is the end of the last one, and the byte accounting is exact. *)
Record wal_inv (w : EventWal) (fs : Files) : Prop := {
  inv_files : files_ok fs;
  inv_disk : ew_disk w = disk_of fs;
  inv_last : exists fs0 es, fs = fs0 ++ [(ew_file_seq w, es)] /\
               ew_position w = Z.of_nat (length (records es));
  inv_latest : ew_latest_packed w
    = packed {| ep_file_seq := ew_file_seq w; ep_offset := ew_position w |};
  inv_total : ew_bytes_total w = total_size fs;
  inv_bases : forall fs1 s es fs2, fs = fs1 ++ (s, es) :: fs2 ->
                default 0 (base_before w s) = total_size fs1 }.

Lemma files_ok_snoc fs s es :
  files_ok fs -> (forall x, x ∈ fs -> x.1 < s) -> file_ok (s, es) -> files_ok (fs ++ [(s, es)]).
Proof.
  intros [Hord Hok] Hlt Hs. split.
  - apply ordered_app. split_and!; [done|repeat constructor|].
    intros x y Hx ->%list_elem_of_singleton. by apply Hlt.
  - apply Forall_app. split; [done|]. by apply Forall_singleton.
Qed.

Lemma files_ok_lt fs s es x : files_ok (fs ++ [(s, es)]) -> x ∈ fs -> x.1 < s.
Proof.
  intros [(_ & _ & H)%ordered_app _] Hx. apply (H x (s, es)); [done | by apply list_elem_of_singleton].
Qed.

Lemma snoc_split {A} (l l1 l2 : list A) x y :
  l ++ [x] = l1 ++ y :: l2 ->
  (l = l1 /\ x = y /\ l2 = []) \/ (exists l2', l2 = l2' ++ [x] /\ l = l1 ++ y :: l2').
Proof.
  destruct (exists_last (l := y :: l2)) as (l2' & z & E); [done|]. rewrite E, app_assoc.
  intros [-> ->]%app_inj_tail. destruct l2' as [|y' l2']; cbn in E; simplify_eq.
  - left. by rewrite app_nil_r.
  - right. eauto.
Qed.

Lemma base_before_snoc w s b t :
  default 0 (snd <$> head (filter (fun x => (x.1 <=? t) = true) (rev (ew_file_bases w ++ [(s, b)]))))
  = if s <=? t then b else default 0 (base_before w t).
Proof.
  unfold base_before. rewrite rev_app_distr. cbn [rev app]. rewrite filter_cons. cbn [fst].
  destruct (s <=? t); [by rewrite decide_True | by rewrite decide_False].
Qed.

(** Rotation opens an empty file after the last one. *)
Lemma rotate_inv w fs :
  wal_inv w fs -> ew_file_seq w + 1 <= u32_max ->
  wal_inv (rotate w) (fs ++ [(ew_file_seq w + 1, [])]).
Proof.
  intros [Hf Hd (fs0 & es & Hl & Hp) Hlat Ht Hb] Hmax.
  assert (Hlt : forall x, x ∈ fs -> x.1 < ew_file_seq w + 1).
  { subst fs. intros x [Hx| ->%list_elem_of_singleton]%elem_of_app; cbn; [|lia].
    pose proof (files_ok_lt _ _ _ x Hf Hx). lia. }
  assert (Hs : 0 <= ew_file_seq w).
  { destruct Hf as [_ Hok]. subst fs. apply Forall_app in Hok as [_ Hok].
    inversion Hok as [|? ? [? _] _]; subst. cbn in *. lia. }
  assert (Hw : wrap32 (ew_file_seq w + 1) = ew_file_seq w + 1)
    by (unfold wrap32, u32_max in *; apply Z.mod_small; lia).
  unfold rotate. rewrite Hw. split; cbn [ew_disk ew_file_seq ew_position ew_latest_packed ew_bytes_total].
  - apply files_ok_snoc; [done..|]. unfold file_ok, u64_max. cbn. split_and!; [lia|done|constructor|done].
  - unfold file_append. rewrite Hd, disk_of_app, file_get_new, file_put_new; [done|..];
      intros x Hx; (assert (Hx' : x.1 ∈ fst <$> disk_of fs) by (apply list_elem_of_fmap; eauto));
      rewrite fst_disk_of in Hx'; apply list_elem_of_fmap in Hx' as (y & -> & Hy); by apply Hlt.
  - exists fs, []. done.
  - done.
  - rewrite Ht, total_size_app. unfold total_size at 3. cbn. lia.
  - intros fs1 s' es' fs2 [(-> & [= <- <-] & ->)|(fs2' & -> & ->)]%snoc_split.
    + unfold base_before at 1. cbn [ew_file_bases]. rewrite base_before_snoc, Z.leb_refl. done.
    + unfold base_before at 1. cbn [ew_file_bases]. rewrite base_before_snoc.
      rewrite (proj2 (Z.leb_gt _ _)); [by eapply Hb|].
      apply (Hlt (s', es')), elem_of_app. right. apply elem_of_cons. by left.
Qed.

Lemma log_of_app fs1 fs2 : log_of (fs1 ++ fs2) = log_of fs1 ++ log_of fs2.
Proof. unfold log_of. by rewrite fmap_app, concat_app. Qed.

Lemma positions_app s off es1 es2 :
  positions s off (es1 ++ es2)
  = positions s off es1 ++ positions s (off + Z.of_nat (length (records es1))) es2.
Proof.
  revert off; induction es1 as [|e es1 IH]; intros off; cbn [app positions].
  - by rewrite Z.add_0_r.
  - f_equal. rewrite IH. change (records (e :: es1)) with (record e ++ records es1).
    rewrite length_app, Nat2Z.inj_add, Z.add_assoc. done.
Qed.

Lemma total_size_last fs s es : total_size (fs ++ [(s, es)]) = total_size fs + Z.of_nat (length (records es)).
Proof. rewrite total_size_app. unfold total_size at 2. cbn [fmap list_fmap foldr snd]. lia. Qed.

Lemma log_of_last s es : log_of [(s, es)] = positions s 0 es.
Proof. unfold log_of. cbn [fmap list_fmap concat]. apply app_nil_r. Qed.

Lemma write_record_inv w fs evt :
  wal_inv w fs -> event_ok evt -> total_size fs + Z.of_nat (length (record evt)) <= u64_max ->
  exists fs',
    wal_inv (write_record w (record evt)) fs' /\
    log_of fs' = log_of fs ++ [({| ep_file_seq := ew_file_seq w; ep_offset := ew_position w |},
                               stored serialize evt)] /\
    total_size fs' = total_size fs + Z.of_nat (length (record evt)) /\ fst <$> fs' = fst <$> fs.
Proof.
  intros [Hf Hd (fs0 & es & -> & Hp) Hlat Ht Hb] He Hmax.
  assert (Hrec : records (es ++ [evt]) = records es ++ record evt)
    by (rewrite records_app; unfold records at 2; cbn; by rewrite app_nil_r).
  assert (Htot : total_size (fs0 ++ [(ew_file_seq w, es ++ [evt])])
    = total_size (fs0 ++ [(ew_file_seq w, es)]) + Z.of_nat (length (record evt)))
    by (rewrite !total_size_last, Hrec, length_app; lia).
  pose proof (total_size_nonneg fs0) as H0.
  exists (fs0 ++ [(ew_file_seq w, es ++ [evt])]). split_and!; [split| |done|by rewrite !fmap_app].
  - destruct Hf as [Hord Hok]. apply Forall_app in Hok as [Hok0 Hok1].
    inversion Hok1 as [|? ? (Hs & Hes & _) _]; subst. cbn [fst snd] in *. split.
    + apply ordered_app. apply ordered_app in Hord as (H1 & _ & H12). split_and!; [done|repeat constructor|].
      intros x y Hx ->%list_elem_of_singleton. apply (H12 x (ew_file_seq w, es)); [done|].
      by apply list_elem_of_singleton.
    + apply Forall_app. split; [done|]. apply Forall_singleton. split; [done|]. split.
      * apply Forall_app. split; [done|]. by apply Forall_singleton.
      * rewrite total_size_last in Hmax. cbn [snd]. rewrite Hrec, length_app. lia.
  - cbn [write_record ew_disk]. rewrite Hd, !disk_of_app.
    change (disk_of [(ew_file_seq w, es)]) with [(ew_file_seq w, records es)].
    change (disk_of [(ew_file_seq w, es ++ [evt])]) with [(ew_file_seq w, records (es ++ [evt]))].
    rewrite Hrec. apply file_append_last. destruct Hf as [Hord _].
    apply ordered_disk_of in Hord. by rewrite disk_of_app in Hord.
  - exists fs0, (es ++ [evt]). split; [done|]. cbn [write_record ew_position].
    rewrite Hrec, length_app, Hp, total_size_last in *. unfold wrap64, u64_max in *. rewrite Z.mod_small; lia.
  - done.
  - cbn [write_record ew_bytes_total]. rewrite Htot, Ht. unfold wrap64, u64_max in *.
    apply Z.mod_small. pose proof (total_size_nonneg (fs0 ++ [(ew_file_seq w, es)])). lia.
  - intros fs1 s' es' fs2 Heq. apply snoc_split in Heq as [(-> & [= <- <-] & ->)|(fs2' & -> & ->)].
    + by apply (Hb fs1 _ es []).
    + apply (Hb fs1 s' es' (fs2' ++ [(ew_file_seq w, es)])). by rewrite <- app_assoc.
  - rewrite !log_of_app, !log_of_last, positions_app, <- app_assoc, Z.add_0_l, Hp. done.
Qed.

Lemma append_inv limit w fs evt :
  wal_inv w fs -> event_ok evt -> ew_file_seq w + 1 <= u32_max ->
  total_size fs + Z.of_nat (length (record evt)) <= u64_max ->
  let '(w', pos) := ew_append crc32 serialize limit w evt in
  exists fs', wal_inv w' fs' /\ log_of fs' = log_of fs ++ [(pos, stored serialize evt)] /\
    total_size fs' = total_size fs + Z.of_nat (length (record evt)) /\
    ew_file_seq w' <= ew_file_seq w + 1 /\ head (fst <$> fs') = head (fst <$> fs).
Proof.
  intros Hinv He Hseq Hmax. unfold ew_append.
  assert (Hrot : wal_inv (rotate w) (fs ++ [(ew_file_seq w + 1, [])])) by (by apply rotate_inv).
  assert (Htot : total_size (fs ++ [(ew_file_seq w + 1, [])]) = total_size fs)
    by (rewrite total_size_last; cbn; lia).
  destruct (limit <? _).
  - destruct (write_record_inv _ _ evt Hrot He) as (fs' & Hinv' & Hlog & Ht & Hf); [lia|].
    exists fs'. rewrite Hlog, Ht, Hf, log_of_app, log_of_last, app_nil_r. split_and!; [done..|lia| |].
    2: { destruct (inv_last _ _ Hinv) as (fs0 & es & -> & _). by destruct fs0. }
    cbn [write_record ew_file_seq]. unfold rotate. cbn [ew_file_seq]. unfold wrap32.
    destruct (inv_last _ _ Hrot) as (fs0 & es & [_ [= E _]]%app_inj_tail & _). unfold wrap32 in E. lia.
  - destruct (write_record_inv w fs evt Hinv He Hmax) as (fs' & Hinv' & Hlog & Ht & Hf).
    exists fs'. rewrite Hf. split_and!; [done..| |done]. cbn. lia.
Qed.

(** A write that fails before its first byte leaves the log as it was, rotated
    at most. *)
Lemma append_failed_inv limit w fs evt :
  wal_inv w fs -> ew_file_seq w + 1 <= u32_max ->
  exists fs', wal_inv (ew_append_failed crc32 serialize limit w evt 0) fs' /\ log_of fs' = log_of fs /\
    total_size fs' = total_size fs /\ ew_file_seq (ew_append_failed crc32 serialize limit w evt 0) <= ew_file_seq w + 1 /\
    head (fst <$> fs') = head (fst <$> fs).
Proof.
  intros Hinv Hseq. unfold ew_append_failed. cbv zeta. rewrite !take_0.
  assert (forall w fs, wal_inv w fs -> file_append (ew_disk w) (ew_file_seq w) [] = ew_disk w) as Hnil.
  { intros w0 fs0 [Hf Hd (fs1 & es & -> & _) _ _ _]. rewrite Hd, disk_of_app.
    change (disk_of [(ew_file_seq w0, es)]) with [(ew_file_seq w0, records es)].
    rewrite file_append_last, app_nil_r; [done|]. destruct Hf as [Hord _]. apply ordered_disk_of in Hord.
    by rewrite disk_of_app in Hord. }
  destruct (limit <? _).
  - pose proof (rotate_inv w fs Hinv Hseq) as Hrot. exists (fs ++ [(ew_file_seq w + 1, [])]).
    rewrite (Hnil _ _ Hrot), log_of_app, log_of_last, app_nil_r, total_size_last. split; [exact Hrot|].
    split; [done|]. split; [cbn; lia|]. split.
    + destruct (inv_last _ _ Hrot) as (fs0 & es & [_ [= E _]]%app_inj_tail & _). cbn. cbn in E. lia.
    + destruct (inv_last _ _ Hinv) as (fs0 & es & -> & _). by destruct fs0.
  - exists fs. rewrite (Hnil _ _ Hinv). split; [by destruct w|]. split_and!; try done. cbn. lia.
Qed.

(** A run of appends. *)
Fixpoint append_all (limit : Z) (w : EventWal) (evs : list SegmentEvent) : EventWal * list EventWalPos :=
  match evs with
  | [] => (w, [])
  | e :: evs =>
      let '(w, pos) := ew_append crc32 serialize limit w e in
      let '(w, ps) := append_all limit w evs in (w, pos :: ps)
  end.

Lemma append_all_inv limit evs : forall w fs,
  wal_inv w fs -> Forall event_ok evs -> ew_file_seq w + Z.of_nat (length evs) <= u32_max ->
  total_size fs + Z.of_nat (length (records evs)) <= u64_max ->
  let '(w', ps) := append_all limit w evs in
  exists fs', wal_inv w' fs' /\ log_of fs' = log_of fs ++ zip ps (stored serialize <$> evs) /\
    total_size fs' = total_size fs + Z.of_nat (length (records evs)) /\ length ps = length evs.
Proof.
  induction evs as [|e evs IH]; intros w fs Hinv Hevs Hseq Hmax; cbn [append_all].
  - exists fs. cbn. rewrite app_nil_r. split_and!; [done..|lia|done].
  - inversion Hevs as [|? ? He Hevs']; subst. cbn [length] in Hseq.
    change (records (e :: evs)) with (record e ++ records evs) in *. rewrite length_app in *.
    pose proof (append_inv limit w fs e Hinv He ltac:(lia) ltac:(lia)) as Happ.
    destruct (ew_append crc32 serialize limit w e) as [w1 pos].
    destruct Happ as (fs1 & Hinv1 & Hlog1 & Ht1 & Hseq1 & _).
    specialize (IH w1 fs1 Hinv1 Hevs' ltac:(lia) ltac:(lia)).
    destruct (append_all limit w1 evs) as [w2 ps]. destruct IH as (fs2 & Hinv2 & Hlog2 & Ht2 & Hl).
    exists fs2. rewrite Hlog2, Hlog1, <- app_assoc. cbn. split_and!; [done..|lia|by rewrite Hl].
Qed.

(** Positions identify the records: they strictly increase along the log. *)
Lemma positions_bounds s es : forall off x,
  x ∈ positions s off es -> ep_file_seq x.1 = s /\ off <= ep_offset x.1.
Proof.
  induction es as [|e es IH]; intros off x; cbn [positions]; [by intros ?%not_elem_of_nil|].
  intros [->|Hx]%elem_of_cons; [done|]. destruct (IH _ _ Hx). split; [done|lia].
Qed.

Lemma positions_increase s es : forall off,
  Forall event_ok es -> StronglySorted pos_lt (fst <$> positions s off es).
Proof.
  induction es as [|e es IH]; intros off Hes; cbn [positions fmap list_fmap]; [constructor|].
  inversion Hes as [|? ? He Hes']; subst. constructor; [by apply IH|].
  apply Forall_fmap, Forall_forall. intros x [Hs Ho]%positions_bounds. right. cbn.
  rewrite (length_record crc32 serialize e He) in Ho. split; [done | lia].
Qed.

Lemma log_of_files fs x : x ∈ log_of fs -> exists f, f ∈ fs /\ ep_file_seq x.1 = f.1.
Proof.
  unfold log_of. rewrite list_elem_of_In, in_concat. intros (l & Hl & Hx).
  apply list_elem_of_In, list_elem_of_fmap in Hl as ([s es] & -> & Hf).
  apply list_elem_of_In, positions_bounds in Hx as [Hs _]. by exists (s, es).
Qed.

Lemma StronglySorted_app_2 {A} (R : A -> A -> Prop) l1 l2 :
  StronglySorted R l1 -> StronglySorted R l2 -> (forall x y, x ∈ l1 -> y ∈ l2 -> R x y) ->
  StronglySorted R (l1 ++ l2).
Proof.
  induction 1 as [|a l1 Hs IH Ha]; intros H2 H12; cbn [app]; [done|]. constructor.
  - apply IH; [done|]. intros x y Hx. apply H12, elem_of_cons. by right.
  - apply Forall_app. split; [done|]. apply Forall_forall. intros y. apply H12, elem_of_cons. by left.
Qed.

Lemma log_increases fs : files_ok fs -> StronglySorted pos_lt (fst <$> log_of fs).
Proof.
  induction fs as [|[s es] fs IH]; intros [Hord Hok]; [constructor|].
  apply ordered_cons in Hord as [Hord Hlt]. inversion Hok as [|? ? (_ & Hes & _) Hok']; subst.
  change (log_of ((s, es) :: fs)) with (positions s 0 es ++ log_of fs). rewrite fmap_app.
  apply StronglySorted_app_2; [by apply positions_increase | by apply IH|].
  intros x y (x' & -> & Hx)%list_elem_of_fmap (y' & -> & Hy)%list_elem_of_fmap. left.
  apply positions_bounds in Hx as [-> _]. apply log_of_files in Hy as (f & Hf & ->).
  by apply Hlt.
Qed.

(** Every entry of the log starts at a record boundary of some file. *)
Lemma positions_split s es : forall off l1 pos e l2,
  positions s off es = l1 ++ (pos, e) :: l2 ->
  exists es1 e0 es2, es = es1 ++ e0 :: es2 /\ e = stored serialize e0 /\
    pos = {| ep_file_seq := s; ep_offset := off + Z.of_nat (length (records es1)) |} /\
    (pos, e) :: l2 = positions s (off + Z.of_nat (length (records es1))) (e0 :: es2).
Proof.
  induction es as [|e0 es IH]; intros off [|x l1] pos e l2 H; cbn [positions app] in H; try done.
  - injection H as <- <- <-. exists [], e0, es. cbn. rewrite Z.add_0_r. done.
  - injection H as _ H. apply IH in H as (es1 & e1 & es2 & -> & -> & -> & Hl).
    exists (e0 :: es1), e1, es2. change (records (e0 :: es1)) with (record e0 ++ records es1).
    rewrite length_app, Nat2Z.inj_add, Z.add_assoc. done.
Qed.

Lemma log_split fs : forall l1 pos e l2,
  log_of fs = l1 ++ (pos, e) :: l2 ->
  exists fs1 s es1 es2 fs2, fs = fs1 ++ (s, es1 ++ es2) :: fs2 /\
    pos = {| ep_file_seq := s; ep_offset := Z.of_nat (length (records es1)) |} /\
    (pos, e) :: l2 = positions s (Z.of_nat (length (records es1))) es2 ++ log_of fs2.
Proof.
  induction fs as [|[s es] fs IH]; intros l1 pos e l2 H; [by destruct l1|].
  change (log_of ((s, es) :: fs)) with (positions s 0 es ++ log_of fs) in H.
  apply app_eq_inv in H as [(l & H1 & H2)|(l & H1 & H2)].
  - destruct l as [|x l]; cbn in H2.
    + rewrite app_nil_r in H1. symmetry in H2. destruct (IH [] pos e l2 H2)
        as (fs1 & s' & es1 & es2 & fs2 & -> & Hpos & Hl).
      exists ((s, es) :: fs1), s', es1, es2, fs2. done.
    + simplify_eq. apply positions_split in H1 as (es1 & e0 & es2 & -> & -> & Hpos & Hl).
      rewrite Z.add_0_l in *. exists [], s, es1, (e0 :: es2), fs. split_and!; [done..|]. rewrite <- Hl. done.
  - symmetry in H2. destruct (IH l pos e l2) as (fs1 & s' & es1 & es2 & fs2 & -> & Hpos & Hl); [by rewrite H2|].
    exists ((s, es) :: fs1), s', es1, es2, fs2. done.
Qed.

(** ** Opening a log, with or without a torn tail *)

Lemma scan_file d s content rest : forall es off fuel,
  file_get d s = Some content -> Forall event_ok es ->
  drop (Z.to_nat off) content = records es ++ rest ->
  0 <= off -> off + Z.of_nat (length (records es)) <= u64_max ->
  scan_tail crc32 deserialize d (length es + fuel) (at_pos s off) off
  = scan_tail crc32 deserialize d fuel (at_pos s (off + Z.of_nat (length (records es))))
      (off + Z.of_nat (length (records es))).
Proof.
  induction es as [|e es IH]; intros off fuel Hget Hes Hdrop Hoff Hmax.
  - cbn. by rewrite Z.add_0_r.
  - inversion Hes as [|? ? He Hes']; subst.
    change (records (e :: es)) with (record e ++ records es) in *.
    rewrite length_app in *. rewrite <- app_assoc in Hdrop. cbn [length Nat.add scan_tail].
    rewrite (reader_next_record crc32 crc32_range serialize deserialize deserialize_serialize
      d s off content e (records es ++ rest)) by (done || lia).
    cbn [at_pos read_from er_next ep_offset]. rewrite IH; try done; try lia.
    + by rewrite <- Z.add_assoc, <- Nat2Z.inj_add.
    + rewrite Z2Nat.inj_add, Nat2Z.id, <- drop_drop, Hdrop by lia. by rewrite drop_app_length.
Qed.

Lemma bases_from_app c l1 l2 :
  bases_from c (l1 ++ l2)
  = ((bases_from c l1).1 ++ (bases_from (bases_from c l1).2 l2).1,
     (bases_from (bases_from c l1).2 l2).2).
Proof.
  revert c; induction l1 as [|[s n] l1 IH]; intros c; cbn [app bases_from fst snd]; [by destruct (bases_from c l2)|].
  rewrite IH. by destruct (bases_from _ l1).
Qed.

Lemma bases_from_seqs c l : fst <$> (bases_from c l).1 = fst <$> l.
Proof.
  revert c; induction l as [|[s n] l IH]; intros c; cbn [bases_from]; [done|].
  specialize (IH (wrap64 (c + n))). destruct (bases_from _ l). cbn in *. by f_equal.
Qed.

Definition sizes (fs : Files) : list (Z * Z) := file_sizes (disk_of fs).

Lemma sizes_app fs1 fs2 : sizes (fs1 ++ fs2) = sizes fs1 ++ sizes fs2.
Proof. unfold sizes, file_sizes. by rewrite disk_of_app, fmap_app. Qed.

Lemma bases_from_total fs : forall c,
  0 <= c -> c + total_size fs <= u64_max -> (bases_from c (sizes fs)).2 = c + total_size fs.
Proof.
  induction fs as [|[s es] fs IH]; intros c Hc Hmax.
  - cbn. unfold total_size. cbn. lia.
  - change (sizes ((s, es) :: fs)) with ((s, file_size (records es)) :: sizes fs).
    change (total_size ((s, es) :: fs)) with (file_size (records es) + total_size fs) in *.
    pose proof (total_size_nonneg fs). unfold file_size in *. cbn [bases_from].
    assert (Hw : wrap64 (c + Z.of_nat (length (records es))) = c + Z.of_nat (length (records es)))
      by (unfold wrap64, u64_max in *; apply Z.mod_small; lia).
    rewrite Hw. specialize (IH (c + Z.of_nat (length (records es)))).
    destruct (bases_from _ (sizes fs)). cbn [snd] in *. rewrite IH; lia.
Qed.

Lemma bases_exact w fs :
  ordered fs -> total_size fs <= u64_max -> ew_file_bases w = (bases_from 0 (sizes fs)).1 ->
  forall fs1 s es fs2, fs = fs1 ++ (s, es) :: fs2 -> default 0 (base_before w s) = total_size fs1.
Proof.
  intros Hord Hmax Hb fs1 s es fs2 ->. unfold base_before. rewrite Hb, sizes_app, bases_from_app.
  rewrite total_size_app in Hmax. pose proof (total_size_nonneg ((s, es) :: fs2)).
  rewrite bases_from_total by lia. cbn [fst].
  change (sizes ((s, es) :: fs2)) with ((s, file_size (records es)) :: sizes fs2).
  cbn [bases_from]. destruct (bases_from _ (sizes fs2)) as [bs t] eqn:E. cbn [fst].
  rewrite rev_app_distr. cbn [rev]. rewrite <- app_assoc. cbn [app]. rewrite filter_app.
  rewrite (filter_false_in _ (rev bs)).
  - cbn [app]. rewrite filter_cons, decide_True by (cbn; apply Z.leb_refl). cbn. lia.
  - intros x Hx. rewrite Z.leb_le, Z.nle_gt. apply ordered_app in Hord as (_ & Hord & _).
    apply ordered_cons in Hord as [_ Hlt]. rewrite list_elem_of_In, <- in_rev, <- list_elem_of_In in Hx.
    assert (Hx' : x.1 ∈ fst <$> bs) by (apply list_elem_of_fmap; eauto).
    pose proof (bases_from_seqs (wrap64 (0 + total_size fs1 + file_size (records es))) (sizes fs2)) as Hseqs.
    rewrite E in Hseqs. cbn [fst] in Hseqs. rewrite Hseqs in Hx'. unfold sizes, file_sizes in Hx'.
    apply list_elem_of_fmap in Hx' as (y & -> & Hy).
    apply list_elem_of_fmap in Hy as ([s' c'] & -> & Hy).
    apply list_elem_of_fmap in Hy as ([s2 es2] & [= -> ->] & Hy). by apply (Hlt (s2, es2)).
Qed.

(** A torn write at the end of the last file: a strict prefix of a record. *)
Definition torn_record (torn : bytes) : Prop :=
  exists e n, event_ok e /\ (n < length (record e))%nat /\ torn = take n (record e).

Lemma scan_last fs0 s es torn :
  let d := disk_of fs0 ++ [(s, records es ++ torn)] in
  files_ok (fs0 ++ [(s, es)]) -> torn_record torn -> file_size (records es ++ torn) <= u64_max ->
  scan_tail crc32 deserialize d (read_fuel d) (at_pos s 0) 0
  = Some (ScanEnd (negb (bool_decide (torn = []))) (file_size (records es))).
Proof.
  intros d [Hord Hok] (e & n & He & Hn & ->) Hmax.
  assert (Hd : ordered d) by (unfold ordered, d in *; rewrite fmap_app, fst_disk_of; by rewrite fmap_app in Hord).
  apply Forall_app in Hok as [_ Hok]. inversion Hok as [|? ? (_ & Hes & _) _]; subst. cbn [snd] in Hes.
  assert (Hget : file_get d s = Some (records es ++ take n (record e))) by (by apply file_get_app).
  unfold file_size in Hmax. rewrite length_app in Hmax.
  assert (Hfuel : exists fuel, read_fuel d = (length es + S (S fuel))%nat).
  { pose proof (read_fuel_app (disk_of fs0) [(s, records es ++ take n (record e))]) as Hf. fold d in Hf.
    pose proof (length_records_ge es Hes). unfold read_fuel at 1 in Hf. cbn [sum_list_with] in Hf.
    rewrite length_app in Hf. exists (read_fuel d - length es - 2)%nat. lia. }
  destruct Hfuel as [fuel ->].
  rewrite (scan_file d s _ (take n (record e)) es 0) by (done || lia).
  rewrite Z.add_0_l. cbn [scan_tail].
  destruct (decide (n = 0)%nat) as [->|Hn0].
  - rewrite take_0, app_nil_r in *.
    rewrite (reader_next_end crc32 deserialize d s _ (records es)) by (done || unfold file_size; cbn in *; lia).
    unfold d. rewrite next_existing_spec by done. done.
  - assert (Hne : take n (record e) <> []).
    { intros E. apply (f_equal length) in E. rewrite length_take in E. cbn in E. lia. }
    destruct (reader_next_torn crc32 serialize deserialize deserialize_serialize d s
      (Z.of_nat (length (records es))) (records es ++ take n (record e)) e n) as [detail Ht];
      try done; try lia.
    + by apply bytes_in_later_files_last.
    + by rewrite Nat2Z.id, drop_app_length.
    + unfold file_size. rewrite length_app, length_take. lia.
    + unfold file_size. rewrite length_app. lia.
    + rewrite Ht, bool_decide_false by done. done.
Qed.

Lemma truncate_torn_last fs0 s es torn :
  let d := disk_of fs0 ++ [(s, records es ++ torn)] in
  files_ok (fs0 ++ [(s, es)]) -> torn_record torn -> file_size (records es ++ torn) <= u64_max ->
  truncate_torn_tail crc32 deserialize d s (file_size (records es ++ torn))
  = Some (Ok (disk_of (fs0 ++ [(s, es)]), file_size (records es))).
Proof.
  intros d Hok Htorn Hmax. unfold truncate_torn_tail.
  assert (Hdisk : forall c, disk_of fs0 ++ [(s, records es)] = c -> c = disk_of (fs0 ++ [(s, es)]))
    by (intros c <-; by rewrite disk_of_app).
  destruct (Z.eqb_spec (file_size (records es ++ torn)) 0) as [E|E].
  - unfold file_size in E. rewrite length_app in E.
    assert (Hr : records es = []) by (apply nil_length_inv; lia).
    assert (Ht : torn = []) by (apply nil_length_inv; lia).
    unfold d. rewrite (Hdisk (disk_of fs0 ++ [(s, records es ++ torn)])) by (by rewrite Ht, app_nil_r).
    by rewrite Hr.
  - unfold at_pos in *. pose proof (scan_last fs0 s es torn Hok Htorn Hmax) as Hscan. cbv zeta in Hscan.
    fold d in Hscan. unfold at_pos in Hscan. rewrite Hscan. cbn [mbind option_bind].
    destruct (decide (torn = [])) as [->|Hne].
    + rewrite bool_decide_true by done. cbn [negb andb].
      rewrite (Hdisk d) by (unfold d; by rewrite app_nil_r). by rewrite app_nil_r.
    + rewrite bool_decide_false by done. cbn [negb andb].
      assert (0 < length torn)%nat by (destruct torn; [done|cbn; lia]).
      rewrite (proj2 (Z.ltb_lt _ _)) by (unfold file_size; rewrite length_app; lia).
      destruct Hok as [Hord _].
      assert (Hd : ordered d) by (unfold ordered, d in *; rewrite fmap_app, fst_disk_of; by rewrite fmap_app in Hord).
      unfold d. rewrite file_get_app by done. cbn [from_option default]. unfold id, file_size.
      rewrite Nat2Z.id, take_app_length, file_put_last; [by rewrite (Hdisk _ eq_refl)|].
      apply ordered_app in Hd as (_ & _ & Hlt). intros x Hx. apply (Hlt x (s, records es ++ torn)); [done|].
      by apply list_elem_of_singleton.
Qed.

Lemma open_inv fs0 s es torn :
  files_ok (fs0 ++ [(s, es)]) -> torn_record torn -> file_size (records es ++ torn) <= u64_max ->
  total_size (fs0 ++ [(s, es)]) <= u64_max ->
  exists w, ew_open crc32 deserialize (disk_of fs0 ++ [(s, records es ++ torn)]) = Some (Ok w) /\
    wal_inv w (fs0 ++ [(s, es)]).
Proof.
  intros Hok Htorn Hmax Htot. unfold ew_open.
  set (d := disk_of fs0 ++ [(s, records es ++ torn)]).
  assert (Hd : ordered d)
    by (destruct Hok as [Hord _]; unfold ordered, d in *; rewrite fmap_app, fst_disk_of; by rewrite fmap_app in Hord).
  assert (Hms : max_seq d = s) by (unfold max_seq, d; by rewrite last_snoc).
  assert (Happ : file_append d s [] = d) by (unfold d; by rewrite file_append_last, app_nil_r).
  assert (Hget : file_get d s = Some (records es ++ torn)) by (by apply file_get_app).
  assert (Hfiles : set_last_size (file_sizes d) (file_size (records es)) = sizes (fs0 ++ [(s, es)])).
  { unfold set_last_size, file_sizes, d. rewrite fmap_app. cbn [fmap list_fmap].
    rewrite last_snoc, removelast_last, sizes_app. done. }
  rewrite Hms, Happ, Hget. change (default [] (Some (records es ++ torn))) with (records es ++ torn).
  pose proof (truncate_torn_last fs0 s es torn Hok Htorn Hmax) as Ht. cbv zeta in Ht. fold d in Ht.
  rewrite Ht. cbn [mbind option_bind]. rewrite Hfiles.
  pose proof (bases_from_total (fs0 ++ [(s, es)]) 0) as Htt. pose proof (total_size_nonneg (fs0 ++ [(s, es)])).
  destruct (bases_from 0 (sizes (fs0 ++ [(s, es)]))) as [bases total] eqn:Eb. cbn [snd] in Htt.
  eexists. split; [done|]. split; cbn [ew_disk ew_file_seq ew_position ew_latest_packed ew_bytes_total]; try done.
  - by exists fs0, es.
  - rewrite Htt; lia.
  - apply bases_exact; [by destruct Hok|done|]. cbn [ew_file_bases]. by rewrite Eb.
Qed.

Lemma open_fresh_inv :
  exists w, ew_open crc32 deserialize [] = Some (Ok w) /\ wal_inv w [(0, [])].
Proof.
  eexists. split; [done|]. split; cbn [ew_disk ew_file_seq ew_position ew_latest_packed ew_bytes_total]; try done.
  - split; [repeat constructor|]. apply Forall_singleton. split_and!; [done..|constructor|done].
  - by exists [], [].
  - intros fs1 s es fs2 E. destruct fs1 as [|? [|]]; cbn in E; simplify_eq. done.
Qed.

(** ** Truncation after a checkpoint *)

Definition kept (w : EventWal) (pos : EventWalPos) (f : Z * list SegmentEvent) : Prop :=
  fully_covered w pos f.1 (file_size (records f.2)) = false.

#[global] Instance kept_dec w pos f : Decision (kept w pos f).
Proof. unfold kept. apply _. Defined.

Lemma filter_disk_of w pos fs :
  filter (fun f : Z * bytes => fully_covered w pos f.1 (file_size f.2) = false) (disk_of fs)
  = disk_of (filter (kept w pos) fs).
Proof.
  unfold disk_of. induction fs as [|[s es] fs IH]; cbn [fmap list_fmap]; [done|].
  rewrite !filter_cons. unfold kept at 1. cbn [fst snd].
  destruct (decide (fully_covered w pos s (file_size (records es)) = false)); cbn [fmap list_fmap]; by rewrite IH.
Qed.

Lemma ordered_filter {A} (P : Z * A -> Prop) `{!forall x, Decision (P x)} l :
  ordered l -> ordered (filter P l).
Proof.
  induction l as [|a l IH]; intros Hord; [done|]. pose proof Hord as [Hl Ha]%ordered_cons.
  rewrite filter_cons. destruct (decide (P a)); [|by apply IH].
  apply (ordered_app [a]). split_and!; [repeat constructor|by apply IH|].
  intros x y ->%list_elem_of_singleton [_ Hy]%list_elem_of_filter. by apply Ha.
Qed.

Lemma total_size_filter fs (P : Z * list SegmentEvent -> Prop) `{!forall x, Decision (P x)} :
  total_size (filter P fs) <= total_size fs.
Proof.
  unfold total_size. induction fs as [|f fs IH]; [done|]. rewrite filter_cons.
  cbn [fmap list_fmap foldr]. destruct (decide (P f)); cbn [fmap list_fmap foldr]; lia.
Qed.

Lemma truncate_before_inv w fs pos :
  wal_inv w fs -> total_size fs <= u64_max ->
  wal_inv (truncate_before w pos).1 (filter (kept w pos) fs).
Proof.
  intros [[Hord Hok] Hd (fs0 & es & Hl & Hp) Hlat Ht Hb] Hmax. unfold truncate_before.
  set (d' := filter _ (ew_disk w)).
  assert (Hd' : d' = disk_of (filter (kept w pos) fs)).
  { unfold d'. rewrite Hd, <- filter_disk_of. apply list_filter_iff. by intros [s c]. }
  pose proof (bases_from_total (filter (kept w pos) fs) 0) as Htt.
  pose proof (total_size_filter fs (kept w pos)).
  assert (Hsizes : file_sizes d' = sizes (filter (kept w pos) fs)) by (by rewrite Hd').
  rewrite Hsizes. destruct (bases_from 0 (sizes _)) as [bases total] eqn:Eb. cbn [fst snd] in *.
  split; cbn [ew_disk ew_file_seq ew_position ew_latest_packed ew_bytes_total]; try done.
  - split; [by apply ordered_filter|]. rewrite Forall_forall in Hok |- *.
    intros f [_ Hf]%list_elem_of_filter. by apply Hok.
  - exists (filter (kept w pos) fs0), es. split; [|done]. rewrite Hl, filter_app, (filter_true_in _ [_]); [done|].
    intros f ->%list_elem_of_singleton. unfold kept, fully_covered. cbn [fst]. by rewrite Z.eqb_refl.
  - rewrite Htt; lia.
  - apply bases_exact; [by apply ordered_filter|lia|]. cbn [ew_file_bases]. by rewrite Eb.
Qed.

Lemma read_back fs l1 pos e l2 :
  files_ok fs -> log_of fs = l1 ++ (pos, e) :: l2 ->
  exists p, read (disk_of fs) (read_fuel (disk_of fs)) (read_from pos) = Some ((pos, e) :: l2, None, p).
Proof.
  intros Hok (fs1 & s & es1 & es2 & fs2 & -> & -> & Hl)%log_split.
  rewrite Hl. eexists. by apply read_from_boundary.
Qed.

(** The entries at or after a position. *)
Definition at_or_after (pos : EventWalPos) (x : EventWalPos * SegmentEvent) : Prop :=
  ep_file_seq pos < ep_file_seq x.1 \/
  (ep_file_seq pos = ep_file_seq x.1 /\ ep_offset pos <= ep_offset x.1).

#[global] Instance at_or_after_dec pos x : Decision (at_or_after pos x).
Proof. unfold at_or_after. apply _. Defined.

Lemma positions_before_end s es : forall off x,
  Forall event_ok es -> x ∈ positions s off es ->
  ep_offset x.1 < off + Z.of_nat (length (records es)).
Proof.
  induction es as [|e es IH]; intros off x Hes; cbn [positions]; [by intros ?%not_elem_of_nil|].
  inversion Hes as [|? ? He Hes']; subst. change (records (e :: es)) with (record e ++ records es).
  rewrite length_app, (length_record crc32 serialize e He).
  intros [->|Hx]%elem_of_cons; [cbn; lia|]. apply IH in Hx; [|done]. lia.
Qed.

Lemma covered_entries w pos s es x :
  Forall event_ok es -> ~ kept w pos (s, es) -> x ∈ positions s 0 es -> ~ at_or_after pos x.
Proof.
  intros Hes Hc Hx. unfold kept, fully_covered in Hc. cbn [fst snd] in Hc.
  apply not_false_iff_true, andb_true_iff in Hc as [_ Hc].
  pose proof (positions_before_end s es 0 x Hes Hx) as Hend. apply positions_bounds in Hx as [Hs _].
  rewrite orb_true_iff, andb_true_iff, Z.ltb_lt, Z.eqb_eq, Z.leb_le in Hc.
  unfold at_or_after, file_size in *. lia.
Qed.

Lemma truncate_keeps w fs pos :
  Forall file_ok fs ->
  filter (at_or_after pos) (log_of (filter (kept w pos) fs)) = filter (at_or_after pos) (log_of fs).
Proof.
  induction 1 as [|[s es] fs (_ & Hes & _) _ IH]; [done|]. cbn [snd] in Hes. rewrite filter_cons.
  change (log_of ((s, es) :: fs)) with (positions s 0 es ++ log_of fs). rewrite filter_app.
  destruct (decide (kept w pos (s, es))) as [Hk|Hk].
  - change (log_of ((s, es) :: filter (kept w pos) fs)) with (positions s 0 es ++ log_of (filter (kept w pos) fs)).
    by rewrite filter_app, IH.
  - rewrite (filter_false_in _ (positions s 0 es)); [done|]. intros x Hx. by eapply covered_entries.
Qed.

Lemma bytes_since_exact w fs1 s es1 es2 fs2 :
  wal_inv w (fs1 ++ (s, es1 ++ es2) :: fs2) ->
  bytes_since w {| ep_file_seq := s; ep_offset := Z.of_nat (length (records es1)) |}
  = Z.of_nat (length (records es2)) + total_size fs2.
Proof.
  intros Hinv. unfold bytes_since. cbn [ep_file_seq ep_offset].
  rewrite (inv_bases _ _ Hinv fs1 s (es1 ++ es2) fs2 eq_refl), (inv_total _ _ Hinv), total_size_app.
  change (total_size ((s, es1 ++ es2) :: fs2))
    with (Z.of_nat (length (records (es1 ++ es2))) + total_size fs2).
  rewrite records_app, length_app. pose proof (total_size_nonneg fs2). unfold saturating_sub. lia.
Qed.

Lemma reopen_after_crash w fs torn :
  wal_inv w fs -> torn_record torn -> total_size fs + Z.of_nat (length torn) <= u64_max ->
  exists w', ew_open crc32 deserialize (file_append (ew_disk w) (ew_file_seq w) torn) = Some (Ok w') /\
    wal_inv w' fs.
Proof.
  intros Hinv Htorn Hmax. destruct (inv_last _ _ Hinv) as (fs0 & es & Hfs & _).
  pose proof (inv_files _ _ Hinv) as Hok. subst fs. rewrite total_size_last in Hmax.
  pose proof (total_size_nonneg fs0).
  assert (Hdisk : file_append (ew_disk w) (ew_file_seq w) torn
    = disk_of fs0 ++ [(ew_file_seq w, records es ++ torn)]).
  { rewrite (inv_disk _ _ Hinv), disk_of_app. apply file_append_last.
    destruct Hok as [Hord _]. rewrite <- ordered_disk_of, disk_of_app in Hord. exact Hord. }
  rewrite Hdisk. apply open_inv; try done.
  - unfold file_size. rewrite length_app. lia.
  - rewrite total_size_last. lia.
Qed.

Lemma read_suffix fs ps xs i pos :
  files_ok fs -> log_of fs = zip ps xs -> length ps = length xs -> ps !! i = Some pos ->
  exists p, read (disk_of fs) (read_fuel (disk_of fs)) (read_from pos)
    = Some (zip (drop i ps) (drop i xs), None, p).
Proof.
  intros Hok Hlog Hlen Hi.
  destruct (lookup_lt_is_Some_2 xs i) as [x Hx]; [rewrite <- Hlen; by eapply lookup_lt_Some|].
  rewrite (drop_S _ _ _ Hi), (drop_S _ _ _ Hx). cbn [zip zip_with].
  apply (read_back fs (zip (take i ps) (take i xs))); [done|].
  rewrite Hlog. rewrite <- (take_drop i ps) at 1. rewrite <- (take_drop i xs) at 1.
  rewrite zip_with_app by (rewrite !length_take; lia).
  by rewrite (drop_S _ _ _ Hi), (drop_S _ _ _ Hx).
Qed.

Lemma truncate_removed w fs pos :
  total_size fs <= u64_max ->
  foldr (fun (f : Z * bytes) acc => wrap64 (acc + file_size f.2)) 0
    (filter (fun f : Z * bytes => fully_covered w pos f.1 (file_size f.2) = true) (disk_of fs))
  = total_size fs - total_size (filter (kept w pos) fs).
Proof.
  induction fs as [|[s es] fs IH]; intros Hmax; [done|].
  change (disk_of ((s, es) :: fs)) with ((s, records es) :: disk_of fs).
  change (total_size ((s, es) :: fs)) with (file_size (records es) + total_size fs) in *.
  assert (Hlen : 0 <= file_size (records es)) by (unfold file_size; lia).
  specialize (IH ltac:(lia)). pose proof (total_size_filter fs (kept w pos)).
  pose proof (total_size_nonneg (filter (kept w pos) fs)).
  rewrite !filter_cons. cbn [fst snd].
  destruct (decide (kept w pos (s, es))) as [Hk|Hk]; unfold kept in Hk; cbn [fst snd] in Hk.
  2: { apply not_false_iff_true in Hk. rewrite decide_True by done. cbn [foldr snd]. rewrite IH.
       unfold wrap64, u64_max in *. rewrite Z.mod_small; lia. }
  - rewrite decide_False by congruence. rewrite IH.
    change (total_size ((s, es) :: filter (kept w pos) fs))
      with (file_size (records es) + total_size (filter (kept w pos) fs)). lia.
Qed.
End log.

(** C12: The event log is a faithful, crash-safe log. From an empty directory,
    append any run of events (rotating files at any limit), then crash in the
    middle of one more append, so that a strict prefix of its record (possibly
    empty) is at the end of the last file. Then [open] succeeds, the positions
    that [append] returned strictly increase, and reading from any of them
    yields exactly the events from that append on, in order, each at its
    position, and ends cleanly. The bounds keep the file numbers and sizes
    within their integer types. *)
Theorem event_wal_survives_crash (crc32 : bytes -> Z)
    (serialize : list ContainedObject -> option bytes)
    (deserialize : bytes -> option (list ContainedObject))
    (crc32_range : forall bs, is_u32 (crc32 bs))
    (deserialize_serialize : forall l b, serialize l = Some b -> deserialize b = Some l)
    (limit : Z) (evs : list SegmentEvent) (torn : bytes) :
  Forall event_ok evs -> torn_record crc32 serialize torn ->
  Z.of_nat (length evs) <= u32_max ->
  Z.of_nat (length (records crc32 serialize evs) + length torn) <= u64_max ->
  exists w0 w ps w',
    ew_open crc32 deserialize [] = Some (Ok w0) /\
    append_all crc32 serialize limit w0 evs = (w, ps) /\
    ew_open crc32 deserialize (file_append (ew_disk w) (ew_file_seq w) torn) = Some (Ok w') /\
    StronglySorted pos_lt ps /\
    forall i pos, ps !! i = Some pos ->
      exists p, read_events crc32 deserialize (ew_disk w') (read_fuel (ew_disk w')) (read_from pos)
        = Some (zip (drop i ps) (stored serialize <$> drop i evs), None, p).
Proof.
  intros Hevs Htorn Hn Hmax.
  destruct (open_fresh_inv crc32 serialize deserialize) as (w0 & Hopen0 & Hinv0).
  assert (Hseq0 : ew_file_seq w0 = 0) by (by injection Hopen0 as <-).
  pose proof (append_all_inv crc32 serialize limit evs w0 _ Hinv0 Hevs) as Hall.
  change (total_size crc32 serialize [(0, [])]) with 0 in Hall. rewrite Hseq0 in Hall.
  specialize (Hall ltac:(lia) ltac:(lia)).
  destruct (append_all crc32 serialize limit w0 evs) as [w ps] eqn:Eall.
  destruct Hall as (fs & Hinv & Hlog & Htot & Hps).
  change (log_of crc32 serialize [(0, [])] ++ zip ps (stored serialize <$> evs))
    with (zip ps (stored serialize <$> evs)) in Hlog.
  pose proof (inv_files _ _ _ _ Hinv) as Hok.
  destruct (reopen_after_crash crc32 crc32_range serialize deserialize deserialize_serialize w fs torn)
    as (w' & Hopen & Hinv'); [done..|lia|].
  exists w0, w, ps, w'. split_and!; [done..| |].
  - pose proof (log_increases crc32 serialize fs Hok) as Hs.
    rewrite Hlog, fst_zip in Hs by (rewrite length_fmap; lia). done.
  - intros i pos Hi. rewrite (inv_disk _ _ _ _ Hinv'), fmap_drop.
    apply (read_suffix crc32 crc32_range serialize deserialize deserialize_serialize fs ps); try done.
    by rewrite length_fmap.
Qed.

Definition sample_delete : SegmentEvent := Delete {| dl_segment_id := replicate 16 x03 |}.

Lemma sample_seal_ok : event_ok sample_seal.
Proof.
  unfold event_ok. cbn [sample_seal event_segment_id]. unfold_ints. cbn.
  split_and!; try done; try lia. by intros id [= <-].
Qed.

Lemma sample_delete_ok : event_ok sample_delete.
Proof. done. Qed.

(** Two records of 114 and 32 bytes with a limit of 120 bytes per file, and a
    crash 40 bytes into a third. *)
Lemma event_wal_survives_crash_witness :
  let evs := [sample_seal; sample_delete] in
  let torn := take 40 (to_record_bytes toy_crc toy_serialize sample_seal) in
  exists w0 w ps w',
    ew_open toy_crc toy_deserialize [] = Some (Ok w0) /\
    append_all toy_crc toy_serialize 120 w0 evs = (w, ps) /\
    ew_open toy_crc toy_deserialize (file_append (ew_disk w) (ew_file_seq w) torn) = Some (Ok w') /\
    StronglySorted pos_lt ps /\
    forall i pos, ps !! i = Some pos ->
      exists p, read_events toy_crc toy_deserialize (ew_disk w') (read_fuel (ew_disk w')) (read_from pos)
        = Some (zip (drop i ps) (stored toy_serialize <$> drop i evs), None, p).
Proof.
  apply (event_wal_survives_crash toy_crc toy_serialize toy_deserialize toy_crc_range
    toy_deserialize_serialize 120 [sample_seal; sample_delete]
    (take 40 (to_record_bytes toy_crc toy_serialize sample_seal))).
  - constructor; [apply sample_seal_ok|]. constructor; [apply sample_delete_ok | constructor].
  - exists sample_seal, 40%nat. split; [apply sample_seal_ok|]. split; [vm_compute; lia | done].
  - by vm_compute.
  - by vm_compute.
Defined.

(** A writer that holds two files of one record each. *)
Definition sample_files : list (Z * list SegmentEvent) := [(0, [sample_seal]); (1, [sample_delete])].

Definition empty_wal : EventWal :=
  {| ew_disk := []; ew_file_seq := 0; ew_position := 0; ew_latest_packed := 0;
     ew_bytes_total := 0; ew_file_bases := []; ew_file_count := 0 |}.

Definition sample_wal : EventWal :=
  match ew_open toy_crc toy_deserialize (disk_of toy_crc toy_serialize sample_files) with
  | Some (Ok w) => w
  | _ => empty_wal
  end.

Lemma sample_wal_inv : wal_inv toy_crc toy_serialize sample_wal sample_files.
Proof.
  destruct (open_inv toy_crc toy_crc_range toy_serialize toy_deserialize toy_deserialize_serialize
    [(0, [sample_seal])] 1 [sample_delete] []) as (w & Ho & Hi).
  - split; [repeat constructor; cbn; lia|].
    constructor; [|constructor; [|constructor]]; (split; [by vm_compute|]; split; [|by vm_compute]);
      (constructor; [|constructor]); [apply sample_seal_ok | apply sample_delete_ok].
  - exists sample_delete, 0%nat. split; [done|]. split; [vm_compute; lia | done].
  - by vm_compute.
  - by vm_compute.
  - unfold sample_wal. rewrite app_nil_r in Ho.
    change (disk_of toy_crc toy_serialize sample_files)
      with (disk_of toy_crc toy_serialize [(0, [sample_seal])]
            ++ [(1, records toy_crc toy_serialize [sample_delete])]).
    by rewrite Ho.
Qed.

(** C30: Truncating the log after a checkpoint loses nothing that recovery
    needs. For a writer that holds the log [fs] and any covered position
    [pos], the writer still satisfies its invariant with the remaining files
    (write file included), every event at or after [pos] is kept at its
    position, and the reported number of removed bytes is exact. *)
Theorem checkpoint_truncation_safe (crc32 : bytes -> Z)
    (serialize : list ContainedObject -> option bytes) w fs pos :
  wal_inv crc32 serialize w fs -> total_size crc32 serialize fs <= u64_max ->
  let '(w', removed) := truncate_before w pos in
  exists fs', wal_inv crc32 serialize w' fs' /\
    filter (at_or_after pos) (log_of crc32 serialize fs')
      = filter (at_or_after pos) (log_of crc32 serialize fs) /\
    removed = total_size crc32 serialize fs - total_size crc32 serialize fs'.
Proof.
  intros Hinv Hmax. pose proof (truncate_before_inv crc32 serialize w fs pos Hinv Hmax) as Hinv'.
  pose proof (truncate_removed crc32 serialize w fs pos Hmax) as Hrem.
  unfold truncate_before in *. destruct (bases_from 0 _) as [bases total]. cbn [fst] in Hinv'.
  exists (filter (kept crc32 serialize w pos) fs). split_and!; [done| |].
  - apply truncate_keeps. by destruct (inv_files _ _ _ _ Hinv).
  - rewrite <- Hrem, (inv_disk _ _ _ _ Hinv). f_equal. apply list_filter_iff. by intros [s c].
Qed.

Lemma checkpoint_truncation_safe_witness :
  let pos := {| ep_file_seq := 1; ep_offset := 0 |} in
  let '(w', removed) := truncate_before sample_wal pos in
  exists fs', wal_inv toy_crc toy_serialize w' fs' /\
    filter (at_or_after pos) (log_of toy_crc toy_serialize fs')
      = filter (at_or_after pos) (log_of toy_crc toy_serialize sample_files) /\
    removed = total_size toy_crc toy_serialize sample_files - total_size toy_crc toy_serialize fs'.
Proof.
  apply (checkpoint_truncation_safe toy_crc toy_serialize sample_wal sample_files
    {| ep_file_seq := 1; ep_offset := 0 |}).
  - exact sample_wal_inv.
  - by vm_compute.
Defined.

(** The checkpoint trigger counts exactly the bytes of the log from a
    record boundary on: the records after it in its file and all later files. *)
Theorem bytes_since_counts (crc32 : bytes -> Z)
    (serialize : list ContainedObject -> option bytes) w fs1 s es1 es2 fs2 :
  wal_inv crc32 serialize w (fs1 ++ (s, es1 ++ es2) :: fs2) ->
  bytes_since w {| ep_file_seq := s; ep_offset := Z.of_nat (length (records crc32 serialize es1)) |}
  = Z.of_nat (length (records crc32 serialize es2)) + total_size crc32 serialize fs2.
Proof. apply bytes_since_exact. Qed.

Lemma bytes_since_counts_witness :
  bytes_since sample_wal {| ep_file_seq := 0; ep_offset := 0 |}
  = Z.of_nat (length (records toy_crc toy_serialize [sample_seal]))
    + total_size toy_crc toy_serialize [(1, [sample_delete])].
Proof.
  apply (bytes_since_counts toy_crc toy_serialize sample_wal [] 0 [] [sample_seal] [(1, [sample_delete])]).
  exact sample_wal_inv.
Defined.
