(* ===== verification/Lifecycle.v ===== *)
(** * The segment lifecycle registry (crates/oceanfs-storage/src/segment/lifecycle.rs)

    The in-memory state machine of segments: Reserved, Sealed, Deleted. The
    registry is the union of its shards, a map from segment ids to entries;
    the hash that picks the shard of an id is a parameter, since only the
    eviction of expired entries depends on it. An operation that reads the
    clock takes the time as an argument. *)

From Stdlib Require Import ZArith Lia Strings.Byte.
From stdpp Require Import base list gmap.
From S2P Require Import Prelude WalPos EventRecord.

Local Open Scope Z_scope.

(** ** Entries *)

Record SegmentMetadata := {
  sm_segment_id : SegmentId; sm_ec_k : byte; sm_ec_m : byte; sm_size_tier : SizeTier;
  sm_merkle_root : option HashOutput; sm_storage_locations : list NodeId;
  sm_sealed_at : option Z; sm_pool_id : Z; sm_total_bytes : Z }.

Inductive SegmentState := Reserved | Sealed | Deleted.

#[global] Instance SegmentState_eq_dec : EqDecision SegmentState.
Proof. solve_decision. Defined.

Record LifecycleEntry := {
  le_state : SegmentState; le_metadata : SegmentMetadata; le_data_wal_pos : option DataWalPos;
  le_repacked_from : option SegmentId; le_contained_objects : option (list ContainedObject);
  le_evict_at : Z; le_in_flight : option bytes; le_seal_queued : bool; le_writer_count : Z }.

Inductive SegmentReadSource :=
  | ActiveSlot
  | InFlight (data : bytes)
  | SealedOnDisk
  | MissingSource.

Inductive TransitionError :=
  | Missing | AlreadyReserved | AlreadySealed | AlreadyDeleted | NotReserved | DurableWriteFailed.

Notation Registry := (gmap bytes LifecycleEntry).
Notation transition := (Registry * outcome TransitionError unit)%type.

(** [LifecycleEntry::new]. *)
Definition entry_new (state : SegmentState) (meta : SegmentMetadata) (now : Z) : LifecycleEntry :=
  {| le_state := state; le_metadata := meta; le_data_wal_pos := None; le_repacked_from := None;
     le_contained_objects := None; le_evict_at := now; le_in_flight := None;
     le_seal_queued := false; le_writer_count := 0 |}.

(** The derived [Ord] of [DataWalPos]. *)
Definition data_pos_le (a b : DataWalPos) : bool :=
  (dp_file_seq a <? dp_file_seq b)
  || ((dp_file_seq a =? dp_file_seq b) && (dp_offset a <=? dp_offset b)).

(** [Ord::max], which returns its second argument when they are equal. *)
Definition data_pos_max (a b : DataWalPos) : DataWalPos := if data_pos_le a b then b else a.

Definition entry_is_garbage (entry : LifecycleEntry) (pos : DataWalPos) : bool :=
  match le_state entry with
  | Deleted => true
  | Sealed => match le_data_wal_pos entry with Some p => data_pos_le pos p | None => false end
  | Reserved => false
  end.

Definition deleted_expired (entry : LifecycleEntry) (now : Z) : bool :=
  bool_decide (le_state entry = Deleted) && (le_evict_at entry <=? now).

(** ** Transitions *)

Section registry.
(** The shard of an id; [delete_grace_ms]. *)
Context (shard_for : SegmentId -> Z).
Context (delete_grace : Z).

(** [evict_expired_locked] on the shard of [id]. *)
Definition evict_expired (id : SegmentId) (now : Z) (m : Registry) : Registry :=
  filter (fun kv => ~ (shard_for kv.1 = shard_for id /\ deleted_expired kv.2 now = true)) m.

Definition reserve (id : SegmentId) (meta : SegmentMetadata) (now : Z) (m : Registry) : transition :=
  let m := evict_expired id now m in
  match m !! id with
  | None => (<[id := entry_new Reserved meta now]> m, Ok ())
  | Some e =>
      match le_state e with
      | Reserved => (m, Ok ())
      | Sealed => (m, Err AlreadySealed)
      | Deleted => (m, Err AlreadyDeleted)
      end
  end.

Definition seal_entry (e : LifecycleEntry) (meta : SegmentMetadata) (repacked_from : option SegmentId)
    (contained : option (list ContainedObject)) : LifecycleEntry :=
  {| le_state := Sealed; le_metadata := meta; le_data_wal_pos := le_data_wal_pos e;
     le_repacked_from := repacked_from; le_contained_objects := contained;
     le_evict_at := le_evict_at e; le_in_flight := None; le_seal_queued := false;
     le_writer_count := le_writer_count e |}.

Definition seal_with (id : SegmentId) (meta : SegmentMetadata) (repacked_from : option SegmentId)
    (contained : option (list ContainedObject)) (now : Z) (m : Registry) : transition :=
  let m := evict_expired id now m in
  match m !! id with
  | Some e =>
      match le_state e with
      | Reserved => (<[id := seal_entry e meta repacked_from contained]> m, Ok ())
      | Sealed => (m, Err AlreadySealed)
      | Deleted => (m, Err NotReserved)
      end
  | None => (m, Err Missing)
  end.

Definition seal (id : SegmentId) (meta : SegmentMetadata) (now : Z) (m : Registry) : transition :=
  seal_with id meta None None now m.

Definition delete_entry (e : LifecycleEntry) (evict_at : Z) : LifecycleEntry :=
  {| le_state := Deleted; le_metadata := le_metadata e; le_data_wal_pos := le_data_wal_pos e;
     le_repacked_from := le_repacked_from e; le_contained_objects := le_contained_objects e;
     le_evict_at := evict_at; le_in_flight := le_in_flight e; le_seal_queued := le_seal_queued e;
     le_writer_count := le_writer_count e |}.

Definition delete_segment (id : SegmentId) (now : Z) (m : Registry) : transition :=
  let m := evict_expired id now m in
  match m !! id with
  | Some e =>
      match le_state e with
      | Deleted => (m, Err AlreadyDeleted)
      | _ =>
          if delete_grace =? 0 then (delete id m, Ok ())
          else (<[id := delete_entry e (now + delete_grace)]> m, Ok ())
      end
  | None => (m, Err Missing)
  end.

Definition refresh_entry (e : LifecycleEntry) (merkle_root : option HashOutput)
    (locations : option (list NodeId)) (pool_id : option Z) : LifecycleEntry :=
  let meta := le_metadata e in
  {| le_state := le_state e;
     le_metadata := {|
       sm_segment_id := sm_segment_id meta; sm_ec_k := sm_ec_k meta; sm_ec_m := sm_ec_m meta;
       sm_size_tier := sm_size_tier meta; sm_merkle_root := merkle_root;
       sm_storage_locations := default (sm_storage_locations meta) locations;
       sm_sealed_at := sm_sealed_at meta; sm_pool_id := default (sm_pool_id meta) pool_id;
       sm_total_bytes := sm_total_bytes meta |};
     le_data_wal_pos := le_data_wal_pos e; le_repacked_from := le_repacked_from e;
     le_contained_objects := le_contained_objects e; le_evict_at := le_evict_at e;
     le_in_flight := le_in_flight e; le_seal_queued := le_seal_queued e;
     le_writer_count := le_writer_count e |}.

Definition fold_refresh (id : SegmentId) (merkle_root : option HashOutput)
    (locations : option (list NodeId)) (pool_id : option Z) (now : Z) (m : Registry) : transition :=
  let m := evict_expired id now m in
  match m !! id with
  | Some e =>
      match le_state e with
      | Sealed => (<[id := refresh_entry e merkle_root locations pool_id]> m, Ok ())
      | Reserved => (m, Err NotReserved)
      | Deleted => (m, Err AlreadyDeleted)
      end
  | None => (m, Err Missing)
  end.

(** The folds of the coordinator repeat the bodies of the public transitions. *)
Definition fold_reserve := reserve.
Definition fold_seal := seal_with.
Definition fold_delete := delete_segment.

(** ** Reads *)

Definition get (id : SegmentId) (now : Z) (m : Registry) : option LifecycleEntry :=
  e ← m !! id; if deleted_expired e now then None else Some e.

Definition read_source (id : SegmentId) (now : Z) (m : Registry) : SegmentReadSource :=
  match m !! id with
  | None => MissingSource
  | Some e =>
      if deleted_expired e now then MissingSource else
      if bool_decide (le_state e = Deleted) then MissingSource else
      match le_in_flight e with
      | Some data => InFlight data
      | None => if bool_decide (le_state e = Sealed) then SealedOnDisk else ActiveSlot
      end
  end.

(** The entries that [for_each] visits. *)
Definition live (now : Z) (m : Registry) : Registry :=
  filter (fun kv => le_state kv.2 <> Deleted /\ deleted_expired kv.2 now = false) m.

Definition registry_len (m : Registry) : nat :=
  size (filter (fun kv => le_state kv.2 <> Deleted) m).

Definition in_flight_count (m : Registry) : nat :=
  size (filter (fun kv => is_Some (le_in_flight kv.2)) m).

Definition last_data_wal_pos (id : SegmentId) (m : Registry) : option DataWalPos :=
  e ← m !! id; le_data_wal_pos e.

Definition writer_count (id : SegmentId) (m : Registry) : Z :=
  default 0 (le_writer_count <$> m !! id).

Definition validate_reserve (id : SegmentId) (now : Z) (m : Registry) : outcome TransitionError unit :=
  match m !! id with
  | None => Ok ()
  | Some e =>
      match le_state e with
      | Reserved => Ok ()
      | Sealed => Err AlreadySealed
      | Deleted => if deleted_expired e now then Ok () else Err AlreadyDeleted
      end
  end.

Definition validate_seal (id : SegmentId) (now : Z) (m : Registry) : outcome TransitionError unit :=
  match m !! id with
  | Some e =>
      match le_state e with
      | Reserved => Ok ()
      | Sealed => Err AlreadySealed
      | Deleted => if deleted_expired e now then Err Missing else Err NotReserved
      end
  | None => Err Missing
  end.

Definition validate_delete (id : SegmentId) (now : Z) (m : Registry) : outcome TransitionError unit :=
  match m !! id with
  | Some e =>
      if bool_decide (le_state e = Deleted) && negb (deleted_expired e now)
      then Err AlreadyDeleted else Ok ()
  | None => Err Missing
  end.

(** ** Runtime fields *)

Definition set_in_flight (e : LifecycleEntry) (data : option bytes) (queued : bool) : LifecycleEntry :=
  {| le_state := le_state e; le_metadata := le_metadata e; le_data_wal_pos := le_data_wal_pos e;
     le_repacked_from := le_repacked_from e; le_contained_objects := le_contained_objects e;
     le_evict_at := le_evict_at e; le_in_flight := data; le_seal_queued := queued;
     le_writer_count := le_writer_count e |}.

Definition set_pos (e : LifecycleEntry) (pos : option DataWalPos) : LifecycleEntry :=
  {| le_state := le_state e; le_metadata := le_metadata e; le_data_wal_pos := pos;
     le_repacked_from := le_repacked_from e; le_contained_objects := le_contained_objects e;
     le_evict_at := le_evict_at e; le_in_flight := le_in_flight e; le_seal_queued := le_seal_queued e;
     le_writer_count := le_writer_count e |}.

Definition set_writers (e : LifecycleEntry) (n : Z) : LifecycleEntry :=
  {| le_state := le_state e; le_metadata := le_metadata e; le_data_wal_pos := le_data_wal_pos e;
     le_repacked_from := le_repacked_from e; le_contained_objects := le_contained_objects e;
     le_evict_at := le_evict_at e; le_in_flight := le_in_flight e; le_seal_queued := le_seal_queued e;
     le_writer_count := n |}.

(** The metadata of a reserved segment. *)
Definition reserved_meta (id : SegmentId) (tier : SizeTier) (ec_k ec_m : byte) : SegmentMetadata :=
  {| sm_segment_id := id; sm_ec_k := ec_k; sm_ec_m := ec_m; sm_size_tier := tier;
     sm_merkle_root := None; sm_storage_locations := []; sm_sealed_at := None;
     sm_pool_id := 0; sm_total_bytes := 0 |}.

Definition attach_in_flight (id : SegmentId) (tier : SizeTier) (ec_k ec_m : byte) (data : bytes)
    (now : Z) (m : Registry) : Registry * bool :=
  match m !! id with
  | Some e =>
      match le_state e with
      | Reserved => (<[id := set_in_flight e (Some data) true]> m, true)
      | _ => (m, false)
      end
  | None =>
      (<[id := set_in_flight (entry_new Reserved (reserved_meta id tier ec_k ec_m) now)
                 (Some data) true]> m, true)
  end.

Definition mark_seal_queued (id : SegmentId) (m : Registry) : Registry :=
  match m !! id with
  | Some e =>
      match le_in_flight e with
      | Some data => <[id := set_in_flight e (Some data) true]> m
      | None => m
      end
  | None => m
  end.

Definition mark_seal_unqueued (id : SegmentId) (m : Registry) : Registry :=
  match m !! id with
  | Some e => <[id := set_in_flight e (le_in_flight e) false]> m
  | None => m
  end.

Definition seed_entry (id : SegmentId) (state : SegmentState) (meta : SegmentMetadata)
    (pos : option DataWalPos) (repacked_from : option SegmentId) (now : Z) (m : Registry) : Registry :=
  let m := evict_expired id now m in
  match m !! id with
  | Some _ => m
  | None =>
      <[id := {| le_state := state; le_metadata := meta; le_data_wal_pos := pos;
                 le_repacked_from := repacked_from; le_contained_objects := None;
                 le_evict_at := now; le_in_flight := None; le_seal_queued := false;
                 le_writer_count := 0 |}]> m
  end.

Definition drop_reserve (id : SegmentId) (m : Registry) : Registry :=
  match m !! id with
  | Some e => if bool_decide (le_state e = Reserved) then delete id m else m
  | None => m
  end.

Definition writer_join (id : SegmentId) (m : Registry) : Registry :=
  match m !! id with
  | Some e => <[id := set_writers e (wrap64 (le_writer_count e + 1))]> m
  | None => m
  end.

(** [fetch_sub] returns the previous count and wraps around. *)
Definition writer_leave (id : SegmentId) (m : Registry) : Registry * bool :=
  match m !! id with
  | Some e =>
      if bool_decide (le_state e = Deleted) then (m, false)
      else (<[id := set_writers e (wrap64 (le_writer_count e - 1))]> m, le_writer_count e =? 1)
  | None => (m, false)
  end.

Definition record_data_wal_pos (id : SegmentId) (pos : DataWalPos) (m : Registry) : Registry :=
  match m !! id with
  | Some e =>
      if bool_decide (le_state e = Deleted) then m
      else <[id := set_pos e (Some match le_data_wal_pos e with
                                   | Some p => data_pos_max p pos
                                   | None => pos
                                   end)]> m
  | None => m
  end.
End registry.

(** ** What a transition can do *)

(** The state of a segment as readers see it at a time. *)
Definition state_at (id : SegmentId) (now : Z) (m : Registry) : option SegmentState :=
  le_state <$> get id now m.

(** All operations that change the registry while the node runs. *)
Inductive registry_op :=
  | OpReserve (id : SegmentId) (meta : SegmentMetadata)
  | OpSeal (id : SegmentId) (meta : SegmentMetadata) (repacked_from : option SegmentId)
      (contained : option (list ContainedObject))
  | OpDelete (id : SegmentId)
  | OpRefresh (id : SegmentId) (root : option HashOutput) (locations : option (list NodeId))
      (pool_id : option Z)
  | OpAttach (id : SegmentId) (tier : SizeTier) (ec_k ec_m : byte) (data : bytes)
  | OpQueued (id : SegmentId)
  | OpUnqueued (id : SegmentId)
  | OpRecord (id : SegmentId) (pos : DataWalPos)
  | OpJoin (id : SegmentId)
  | OpLeave (id : SegmentId).

Definition op_id (op : registry_op) : SegmentId :=
  match op with
  | OpReserve id _ | OpSeal id _ _ _ | OpDelete id | OpRefresh id _ _ _ | OpAttach id _ _ _ _
  | OpQueued id | OpUnqueued id | OpRecord id _ | OpJoin id | OpLeave id => id
  end.

Section transitions.
Context (shard_for : SegmentId -> Z).
Context (delete_grace : Z).

Notation evict := (evict_expired shard_for).

Definition apply_op (now : Z) (op : registry_op) (m : Registry) : Registry :=
  match op with
  | OpReserve id meta => (reserve shard_for id meta now m).1
  | OpSeal id meta rp co => (seal_with shard_for id meta rp co now m).1
  | OpDelete id => (delete_segment shard_for delete_grace id now m).1
  | OpRefresh id root locs pool => (fold_refresh shard_for id root locs pool now m).1
  | OpAttach id tier k m' data => (attach_in_flight id tier k m' data now m).1
  | OpQueued id => mark_seal_queued id m
  | OpUnqueued id => mark_seal_unqueued id m
  | OpRecord id pos => record_data_wal_pos id pos m
  | OpJoin id => writer_join id m
  | OpLeave id => (writer_leave id m).1
  end.

Lemma lookup_evict id now m : evict id now m !! id = get id now m.
Proof.
  unfold evict_expired, get. destruct (m !! id) as [e|] eqn:E; cbn [mbind option_bind].
  - destruct (deleted_expired e now) eqn:D.
    + apply map_lookup_filter_None. right. intros x Hx. rewrite E in Hx. simplify_eq. cbn. tauto.
    + apply map_lookup_filter_Some. split; [done|]. cbn. intros [_ H]. congruence.
  - apply map_lookup_filter_None. by left.
Qed.

Lemma get_evict id id' now m : get id' now (evict id now m) = get id' now m.
Proof.
  unfold evict_expired, get. destruct (m !! id') as [e|] eqn:E; cbn [mbind option_bind].
  - destruct (deleted_expired e now) eqn:D.
    + destruct (filter _ m !! id') as [e'|] eqn:F; [|done].
      apply map_lookup_filter_Some in F as [F _]. rewrite E in F. simplify_eq. cbn. by rewrite D.
    + assert (F : filter (fun kv => ~ (shard_for kv.1 = shard_for id /\ deleted_expired kv.2 now = true)) m
        !! id' = Some e) by (apply map_lookup_filter_Some; split; [done|]; cbn; intros [_ ?]; congruence).
      rewrite F. cbn. by rewrite D.
  - assert (F : filter (fun kv => ~ (shard_for kv.1 = shard_for id /\ deleted_expired kv.2 now = true)) m
        !! id' = None) by (apply map_lookup_filter_None; by left).
    by rewrite F.
Qed.

Lemma get_insert_ne id id' now e m : id <> id' -> get id' now (<[id := e]> m) = get id' now m.
Proof. intros H. unfold get. by rewrite lookup_insert_ne. Qed.

Lemma get_insert id now e m :
  get id now (<[id := e]> m) = if deleted_expired e now then None else Some e.
Proof. unfold get. by rewrite lookup_insert_eq. Qed.

Lemma get_delete id now m : get id now (delete id m) = None.
Proof. unfold get. by rewrite lookup_delete_eq. Qed.

Lemma get_delete_ne id id' now m : id <> id' -> get id' now (delete id m) = get id' now m.
Proof. intros H. unfold get. by rewrite lookup_delete_ne. Qed.

Lemma live_not_expired e now : le_state e <> Deleted -> deleted_expired e now = false.
Proof. intros H. unfold deleted_expired. by rewrite bool_decide_false. Qed.

Lemma get_Some_lookup id now m e :
  get id now m = Some e -> m !! id = Some e /\ deleted_expired e now = false.
Proof.
  unfold get. destruct (m !! id) as [e'|]; cbn; [|done].
  destruct (deleted_expired e' now) eqn:D; [done|]. by intros [= ->].
Qed.

(** Eviction keeps what has not expired. *)
Lemma lookup_evict_keep id id' now m e :
  m !! id' = Some e -> le_state e <> Deleted -> evict id now m !! id' = Some e.
Proof.
  intros H Hs. unfold evict_expired. apply map_lookup_filter_Some. split; [done|]. cbn.
  intros [_ D]. rewrite live_not_expired in D by done. discriminate.
Qed.

(** A state change by a transition, at the id it is for and elsewhere. *)
Ltac transition_cases id now m :=
  rewrite ?lookup_evict; unfold state_at; destruct (get id now m) as [?e|] eqn:?Hget; cbn [fmap option_fmap option_map];
  [match goal with e : LifecycleEntry |- _ => destruct (le_state e) eqn:?Hst end|].

Lemma reserve_table id meta now m :
  (reserve shard_for id meta now m).2
    = match state_at id now m with
      | None | Some Reserved => Ok ()
      | Some Sealed => Err AlreadySealed
      | Some Deleted => Err AlreadyDeleted
      end /\
  state_at id now (reserve shard_for id meta now m).1
    = match state_at id now m with None => Some Reserved | s => s end.
Proof.
  unfold reserve. transition_cases id now m; cbn [fst snd];
    rewrite ?get_evict, ?get_insert, ?Hget; cbn; rewrite ?Hst; done.
Qed.

Lemma seal_table id meta rp co now m :
  (seal_with shard_for id meta rp co now m).2
    = match state_at id now m with
      | Some Reserved => Ok ()
      | Some Sealed => Err AlreadySealed
      | Some Deleted => Err NotReserved
      | None => Err Missing
      end /\
  state_at id now (seal_with shard_for id meta rp co now m).1
    = match state_at id now m with Some Reserved => Some Sealed | s => s end.
Proof.
  unfold seal_with. transition_cases id now m; cbn [fst snd];
    rewrite ?get_evict, ?get_insert, ?Hget; cbn; rewrite ?Hst; done.
Qed.

Lemma delete_table id now m :
  0 <= delete_grace ->
  (delete_segment shard_for delete_grace id now m).2
    = match state_at id now m with
      | Some Reserved | Some Sealed => Ok ()
      | Some Deleted => Err AlreadyDeleted
      | None => Err Missing
      end /\
  state_at id now (delete_segment shard_for delete_grace id now m).1
    = match state_at id now m with
      | Some Reserved | Some Sealed => if delete_grace =? 0 then None else Some Deleted
      | s => s
      end.
Proof.
  intros Hg. unfold delete_segment. transition_cases id now m;
    try (destruct (Z.eqb_spec delete_grace 0)); cbn [fst snd];
    rewrite ?get_evict, ?get_insert, ?get_delete, ?Hget; cbn; rewrite ?Hst; try done;
    unfold deleted_expired; cbn; rewrite (proj2 (Z.leb_gt _ _)) by lia; done.
Qed.

(** No operation touches another segment. *)
Lemma op_other id' now op m : op_id op <> id' -> get id' now (apply_op now op m) = get id' now m.
Proof.
  intros Hne. destruct op as [id meta|id meta rp co|id|id root locs pool|id tier k m' data|id|id|id pos|id|id];
    cbn [op_id] in Hne; cbn [apply_op];
    unfold reserve, seal_with, delete_segment, fold_refresh, attach_in_flight, mark_seal_queued,
      mark_seal_unqueued, record_data_wal_pos, writer_join, writer_leave;
    repeat case_match; cbn [fst]; rewrite ?get_insert_ne, ?get_delete_ne, ?get_evict by done; done.
Qed.

(** A rejected transition changes nothing a reader can see. *)
Lemma error_no_change now op m id' :
  match op with
  | OpReserve id meta => (reserve shard_for id meta now m).2
  | OpSeal id meta rp co => (seal_with shard_for id meta rp co now m).2
  | OpDelete id => (delete_segment shard_for delete_grace id now m).2
  | OpRefresh id root locs pool => (fold_refresh shard_for id root locs pool now m).2
  | _ => Ok ()
  end <> Ok () ->
  get id' now (apply_op now op m) = get id' now m.
Proof.
  destruct op; cbn [apply_op]; try done;
    unfold reserve, seal_with, delete_segment, fold_refresh;
    repeat case_match; cbn [fst snd]; try done; intros _; by rewrite get_evict.
Qed.

(** ** Sealed segments *)

Definition sealed_as (rp : option SegmentId) (co : option (list ContainedObject))
    (oe : option LifecycleEntry) : Prop :=
  exists e, oe = Some e /\ le_state e = Sealed /\ le_repacked_from e = rp /\
            le_contained_objects e = co /\ le_in_flight e = None.

Lemma op_keeps_sealed now op id rp co m :
  sealed_as rp co (m !! id) -> op <> OpDelete id -> sealed_as rp co (apply_op now op m !! id).
Proof.
  intros (e & He & Hs & Hr & Hc & Hf) Hop.
  assert (Hev : forall id', evict id' now m !! id = Some e)
    by (intros; apply lookup_evict_keep; [done | by rewrite Hs]).
  assert (Hsame : sealed_as rp co (Some e)) by (by exists e).
  destruct (decide (op_id op = id)) as [<-|Hne].
  - destruct op; cbn [op_id apply_op] in *; try done;
      unfold reserve, seal_with, fold_refresh, attach_in_flight, mark_seal_queued, mark_seal_unqueued,
        record_data_wal_pos, writer_join, writer_leave;
      rewrite ?Hev, ?He, ?Hs, ?Hf; cbn [fst]; rewrite ?Hev, ?He, ?lookup_insert_eq; try done;
      rewrite ?bool_decide_false by done; cbn [fst]; rewrite ?lookup_insert_eq;
      (eexists; split; [done|]; cbn; done).
  - assert (Hlk : apply_op now op m !! id = Some e); [|by rewrite Hlk].
    destruct op; cbn [op_id apply_op] in *;
      unfold reserve, seal_with, delete_segment, fold_refresh, attach_in_flight, mark_seal_queued,
        mark_seal_unqueued, record_data_wal_pos, writer_join, writer_leave;
      repeat case_match; cbn [fst]; rewrite ?lookup_insert_ne, ?lookup_delete_ne, ?Hev, ?He by done; done.
Qed.

Fixpoint run_ops (ops : list (Z * registry_op)) (m : Registry) : Registry :=
  match ops with [] => m | (now, op) :: ops => run_ops ops (apply_op now op m) end.

Lemma run_keeps_sealed ops id rp co : forall m,
  sealed_as rp co (m !! id) -> Forall (fun o => o.2 <> OpDelete id) ops ->
  sealed_as rp co (run_ops ops m !! id).
Proof.
  induction ops as [|[now op] ops IH]; intros m Hm Hops; cbn [run_ops]; [done|].
  inversion Hops; subst. apply IH; [by apply op_keeps_sealed | done].
Qed.
End transitions.

#[export] Hint Rewrite lookup_evict get_evict get_insert get_delete : registry.

(** ** Retention *)

Lemma data_pos_le_spec a b :
  data_pos_le a b = true <->
  dp_file_seq a < dp_file_seq b \/ (dp_file_seq a = dp_file_seq b /\ dp_offset a <= dp_offset b).
Proof. unfold data_pos_le. rewrite orb_true_iff, andb_true_iff, Z.ltb_lt, Z.eqb_eq, Z.leb_le. done. Qed.

Lemma data_pos_le_max p a b :
  data_pos_le p (data_pos_max a b) = data_pos_le p a || data_pos_le p b.
Proof.
  unfold data_pos_max. apply Bool.eq_iff_eq_true.
  destruct (data_pos_le a b) eqn:E; rewrite orb_true_iff, !data_pos_le_spec;
    [apply data_pos_le_spec in E | apply not_true_iff_false in E; rewrite data_pos_le_spec in E]; lia.
Qed.

(** The write path records the position of every append, in any order. *)
Fixpoint record_all (id : SegmentId) (ps : list DataWalPos) (m : Registry) : Registry :=
  match ps with [] => m | p :: ps => record_all id ps (record_data_wal_pos id p m) end.

Definition covers (oq : option DataWalPos) (p : DataWalPos) : bool :=
  match oq with Some q => data_pos_le p q | None => false end.

Lemma record_all_lookup id ps : forall m e,
  m !! id = Some e -> le_state e <> Deleted ->
  exists q, record_all id ps m !! id = Some (set_pos e q) /\
    forall p, covers q p = covers (le_data_wal_pos e) p || existsb (data_pos_le p) ps.
Proof.
  induction ps as [|r ps IH]; intros m e He Hs; cbn [record_all existsb].
  - exists (le_data_wal_pos e). split; [|intros; by rewrite orb_false_r]. rewrite He. by destruct e.
  - unfold record_data_wal_pos. rewrite He, bool_decide_false by done.
    set (q := match le_data_wal_pos e with Some p => data_pos_max p r | None => r end).
    destruct (IH (<[id := set_pos e (Some q)]> m) (set_pos e (Some q))) as (q' & Hl & Hq);
      [by rewrite lookup_insert_eq | done |].
    exists q'. split; [by rewrite Hl|]. intros p. rewrite Hq. cbn [set_pos le_data_wal_pos covers].
    rewrite orb_assoc. f_equal. unfold q. destruct (le_data_wal_pos e); [apply data_pos_le_max | done].
Qed.

(** The lifecycle transitions behave as documented in every state. With
    the state as readers see it (an expired Deleted entry counts as absent):
    reserve succeeds on an absent or Reserved segment, seal on a Reserved
    one, delete on a Reserved or Sealed one, and each reports the documented
    error otherwise; a success moves the segment exactly one step; an error
    changes nothing for any segment, and a success nothing for the others. *)
Theorem lifecycle_transition_table (shard_for : SegmentId -> Z) (grace now : Z) (m : Registry)
    id meta rp co :
  0 <= grace ->
  let st := state_at id now m in
  let '(mr, r) := reserve shard_for id meta now m in
  let '(ms, s) := seal_with shard_for id meta rp co now m in
  let '(md, d) := delete_segment shard_for grace id now m in
  (r, state_at id now mr) =
    match st with
    | None => (Ok (), Some Reserved)
    | Some Reserved => (Ok (), st)
    | Some Sealed => (Err AlreadySealed, st)
    | Some Deleted => (Err AlreadyDeleted, st)
    end /\
  (s, state_at id now ms) =
    match st with
    | None => (Err Missing, st)
    | Some Reserved => (Ok (), Some Sealed)
    | Some Sealed => (Err AlreadySealed, st)
    | Some Deleted => (Err NotReserved, st)
    end /\
  (d, state_at id now md) =
    match st with
    | None => (Err Missing, st)
    | Some Deleted => (Err AlreadyDeleted, st)
    | Some _ => (Ok (), if grace =? 0 then None else Some Deleted)
    end /\
  (forall id', id' <> id -> get id' now mr = get id' now m /\ get id' now ms = get id' now m /\
                            get id' now md = get id' now m) /\
  (forall id', (r <> Ok () -> get id' now mr = get id' now m) /\
               (s <> Ok () -> get id' now ms = get id' now m) /\
               (d <> Ok () -> get id' now md = get id' now m)).
Proof.
  intros Hg st.
  destruct (reserve_table shard_for id meta now m) as [Hr1 Hr2].
  destruct (seal_table shard_for id meta rp co now m) as [Hs1 Hs2].
  destruct (delete_table shard_for grace id now m Hg) as [Hd1 Hd2].
  pose proof (fun id' => op_other shard_for grace id' now (OpReserve id meta) m) as Or.
  pose proof (fun id' => op_other shard_for grace id' now (OpSeal id meta rp co) m) as Os.
  pose proof (fun id' => op_other shard_for grace id' now (OpDelete id) m) as Od.
  pose proof (error_no_change shard_for grace now (OpReserve id meta) m) as Er.
  pose proof (error_no_change shard_for grace now (OpSeal id meta rp co) m) as Es.
  pose proof (error_no_change shard_for grace now (OpDelete id) m) as Ed.
  cbn [op_id apply_op] in *. fold st in Hr1, Hr2, Hs1, Hs2, Hd1, Hd2.
  destruct (reserve shard_for id meta now m) as [mr r].
  destruct (seal_with shard_for id meta rp co now m) as [ms s].
  destruct (delete_segment shard_for grace id now m) as [md d]. cbn [fst snd] in *.
  rewrite Hr1, Hr2, Hs1, Hs2, Hd1, Hd2.
  split_and!; try (by destruct st as [[]|]).
  - intros id' Hne. split_and!; [apply Or | apply Os | apply Od]; congruence.
  - intros id'. rewrite <- Hr1, <- Hs1, <- Hd1. split_and!; [apply Er | apply Es | apply Ed].
Qed.

(** A registry with one reserved, one sealed and one deleted segment. *)
Definition seg (b : byte) : SegmentId := replicate 16 b.

Definition sample_meta (b : byte) : SegmentMetadata := reserved_meta (seg b) Standard x04 x02.

Definition one_shard (id : SegmentId) : Z := 0.

Definition sample_registry : Registry :=
  run_ops one_shard 50
    [(1, OpReserve (seg x01) (sample_meta x01));
     (2, OpReserve (seg x02) (sample_meta x02));
     (3, OpSeal (seg x02) (sample_meta x02) None None);
     (4, OpReserve (seg x03) (sample_meta x03));
     (5, OpDelete (seg x03))] ∅.

Lemma lifecycle_transition_table_witness :
  let st := state_at (seg x02) 10 sample_registry in
  let '(mr, r) := reserve one_shard (seg x02) (sample_meta x02) 10 sample_registry in
  let '(ms, s) := seal_with one_shard (seg x02) (sample_meta x02) None None 10 sample_registry in
  let '(md, d) := delete_segment one_shard 50 (seg x02) 10 sample_registry in
  (r, state_at (seg x02) 10 mr) =
    match st with
    | None => (Ok (), Some Reserved)
    | Some Reserved => (Ok (), st)
    | Some Sealed => (Err AlreadySealed, st)
    | Some Deleted => (Err AlreadyDeleted, st)
    end /\
  (s, state_at (seg x02) 10 ms) =
    match st with
    | None => (Err Missing, st)
    | Some Reserved => (Ok (), Some Sealed)
    | Some Sealed => (Err AlreadySealed, st)
    | Some Deleted => (Err NotReserved, st)
    end /\
  (d, state_at (seg x02) 10 md) =
    match st with
    | None => (Err Missing, st)
    | Some Deleted => (Err AlreadyDeleted, st)
    | Some _ => (Ok (), if 50 =? 0 then None else Some Deleted)
    end /\
  (forall id', id' <> seg x02 ->
     get id' 10 mr = get id' 10 sample_registry /\ get id' 10 ms = get id' 10 sample_registry /\
     get id' 10 md = get id' 10 sample_registry) /\
  (forall id', (r <> Ok () -> get id' 10 mr = get id' 10 sample_registry) /\
               (s <> Ok () -> get id' 10 ms = get id' 10 sample_registry) /\
               (d <> Ok () -> get id' 10 md = get id' 10 sample_registry)).
Proof.
  apply (lifecycle_transition_table one_shard 50 10 sample_registry (seg x02) (sample_meta x02) None None).
  lia.
Defined.

(** A sealed segment is never downgraded. Through any sequence of registry
    operations at any times that does not delete it, it stays Sealed, keeps
    its compaction marker and its membership list, and stays readable from
    disk (no stale in-flight buffer). *)
Theorem sealed_never_downgraded (shard_for : SegmentId -> Z) (grace : Z) id rp co ops m :
  sealed_as rp co (m !! id) -> Forall (fun o => o.2 <> OpDelete id) ops ->
  sealed_as rp co (run_ops shard_for grace ops m !! id) /\
  forall now, read_source id now (run_ops shard_for grace ops m) = SealedOnDisk.
Proof.
  intros Hm Hops. pose proof (run_keeps_sealed shard_for grace ops id rp co m Hm Hops) as Hr.
  split; [done|]. intros now. destruct Hr as (e & He & Hs & _ & _ & Hf).
  unfold read_source. rewrite He, live_not_expired, Hs, Hf by (by rewrite Hs). done.
Qed.

Lemma sealed_never_downgraded_witness :
  let ops := [(11, OpReserve (seg x02) (sample_meta x02)); (12, OpDelete (seg x01));
              (13, OpAttach (seg x02) Standard x04 x02 [x61])] in
  sealed_as None None (run_ops one_shard 50 ops sample_registry !! seg x02) /\
  forall now, read_source (seg x02) now (run_ops one_shard 50 ops sample_registry) = SealedOnDisk.
Proof.
  apply (sealed_never_downgraded one_shard 50 (seg x02) None None
    [(11, OpReserve (seg x02) (sample_meta x02)); (12, OpDelete (seg x01));
     (13, OpAttach (seg x02) Standard x04 x02 [x61])] sample_registry).
  - eexists. vm_compute. by split_and!.
  - repeat constructor; discriminate.
Defined.

(** The read-only validations that run before the durable write predict
    the outcome of the fold after it: exactly for reserve and seal; for
    delete, except that an expired Deleted entry passes the validation and
    fails the fold with [Missing], so that its event is written for nothing. *)
Theorem validation_predicts_fold (shard_for : SegmentId -> Z) (grace now : Z) (m : Registry) id meta rp co :
  validate_reserve id now m = (fold_reserve shard_for id meta now m).2 /\
  validate_seal id now m = (fold_seal shard_for id meta rp co now m).2 /\
  (validate_delete id now m = (fold_delete shard_for grace id now m).2 <->
   ~ exists e, m !! id = Some e /\ deleted_expired e now = true).
Proof.
  unfold validate_reserve, validate_seal, validate_delete, fold_reserve, fold_seal, fold_delete,
    reserve, seal_with, delete_segment. rewrite !lookup_evict. unfold get.
  destruct (m !! id) as [e|]; cbn [mbind option_bind].
  2: { split_and!; [done..|]. split; [intros _ (e & He & _); done | done]. }
  unfold deleted_expired. destruct (le_state e) eqn:Hst.
  - rewrite bool_decide_false by done. cbn [andb negb]. rewrite Hst. split_and!; [done..|].
    split; [intros _ (e' & [= <-] & H); rewrite Hst in H; done|]. by destruct (grace =? 0).
  - rewrite bool_decide_false by done. cbn [andb negb]. rewrite Hst. split_and!; [done..|].
    split; [intros _ (e' & [= <-] & H); rewrite Hst in H; done|]. by destruct (grace =? 0).
  - rewrite bool_decide_true by done. cbn [andb]. destruct (le_evict_at e <=? now) eqn:Hev; cbn [negb].
    + split_and!; [done..|]. split; [done|]. intros H. exfalso. apply H. exists e. by rewrite Hst.
    + rewrite Hst. split_and!; [done..|]. split; [|done].
      intros _ (e' & [= <-] & H). rewrite Hst, Hev in H. done.
Qed.

(** The retention rule sweeps exactly what is safe. Whatever the order in
    which concurrent writers record the positions of a reserved segment's data
    entries, none of them is garbage before the seal; after the seal an entry
    at position [p] is garbage exactly when some recorded position is at or
    after [p], in particular every recorded one. *)
Theorem retention_rule_exact (shard_for : SegmentId -> Z) id meta rp co now ps m e :
  m !! id = Some e -> le_state e = Reserved -> le_data_wal_pos e = None ->
  let m1 := record_all id ps m in
  (exists e1, m1 !! id = Some e1 /\ forall p, entry_is_garbage e1 p = false) /\
  (exists e2, (seal_with shard_for id meta rp co now m1).1 !! id = Some e2 /\
     (forall p, entry_is_garbage e2 p = existsb (data_pos_le p) ps) /\
     (forall p, p ∈ ps -> entry_is_garbage e2 p = true)).
Proof.
  intros He Hs Hn m1.
  destruct (record_all_lookup id ps m e He) as (q & Hl & Hq); [by rewrite Hs|].
  assert (Hst : le_state (set_pos e q) = Reserved) by done. fold m1 in Hl. split.
  - exists (set_pos e q). split; [done|]. intros p. unfold entry_is_garbage. by rewrite Hst.
  - exists (seal_entry (set_pos e q) meta rp co). unfold seal_with.
    rewrite (lookup_evict_keep shard_for id id now m1 _ Hl), Hst by (by rewrite Hst). cbn [fst].
    split; [by rewrite lookup_insert_eq|].
    assert (Hg : forall p, entry_is_garbage (seal_entry (set_pos e q) meta rp co) p
      = existsb (data_pos_le p) ps)
      by (intros p; specialize (Hq p); rewrite Hn in Hq; exact Hq).
    split; [done|]. intros p Hp. rewrite Hg. apply existsb_exists. exists p.
    split; [by apply list_elem_of_In|]. apply data_pos_le_spec. lia.
Qed.

Lemma retention_rule_exact_witness :
  let ps := [{| dp_file_seq := 1; dp_offset := 0 |}; {| dp_file_seq := 0; dp_offset := 900 |}] in
  let m1 := record_all (seg x01) ps sample_registry in
  (exists e1, m1 !! seg x01 = Some e1 /\ forall p, entry_is_garbage e1 p = false) /\
  (exists e2, (seal_with one_shard (seg x01) (sample_meta x01) None None 20 m1).1 !! seg x01 = Some e2 /\
     (forall p, entry_is_garbage e2 p = existsb (data_pos_le p) ps) /\
     (forall p, p ∈ ps -> entry_is_garbage e2 p = true)).
Proof.
  apply (retention_rule_exact one_shard (seg x01) (sample_meta x01) None None 20
    [{| dp_file_seq := 1; dp_offset := 0 |}; {| dp_file_seq := 0; dp_offset := 900 |}]
    sample_registry (entry_new Reserved (sample_meta x01) 1)); by vm_compute.
Defined.
