(* ===== verification/Checkpoint.v ===== *)
(** * Checkpoints of the segment registry
      (crates/oceanfs-storage/src/segment/event_checkpoint.rs)

    The snapshot format byte by byte, its decoder, the file names, and the
    choice of the checkpoint that a restart loads. bincode and CRC-32 are
    parameters. The directory is a list of names with their contents; the
    temporary file and the rename are one atomic step, as the rename is. *)

From Stdlib Require Import ZArith Lia Strings.Byte Sorting.Sorted.
From stdpp Require Import base list gmap sorting.
From S2P Require Import Prelude WalPos EventRecord EventWal Lifecycle.

Local Open Scope Z_scope.

(** ** The format *)

Definition CHECKPOINT_MAGIC : bytes := [x43; x48; x4b; x01].
Definition CHECKPOINT_VERSION : byte := x01.
Definition CHECKPOINT_HEADER_SIZE : nat := 21.
Definition ENTRY_FIXED_SIZE : nat := 21.
Definition SEALED_EXTRA_SIZE : nat := 12.
Definition REPACKED_FLAG_SIZE : nat := 1.
Definition REPACKED_FROM_SIZE : nat := 16.
Definition CONTAINED_FLAG_SIZE : nat := 1.
Definition CONTAINED_LEN_SIZE : nat := 4.
Definition STATE_RESERVED : byte := x00.
Definition STATE_SEALED : byte := x01.

(** Why a snapshot cannot be written. *)
Inductive SnapshotError :=
  | DeletedInSnapshot
  | MetadataSerialization
  | ContainedSerialization
  | ContainedTooLarge.

Section codec.
Context (crc32 : bytes -> Z).
Context (ser_meta : SegmentMetadata -> option bytes).
Context (de_meta : bytes -> option SegmentMetadata).
Context (serialize : list ContainedObject -> option bytes).
Context (deserialize : bytes -> option (list ContainedObject)).

Definition state_byte (s : SegmentState) : outcome SnapshotError byte :=
  match s with
  | Reserved => Ok STATE_RESERVED
  | Sealed => Ok STATE_SEALED
  | Deleted => Err DeletedInSnapshot
  end.

Definition data_pos_bytes (pos : DataWalPos) : bytes :=
  to_le 4 (dp_file_seq pos) ++ to_le 8 (dp_offset pos).

Definition contained_section (co : option (list ContainedObject)) : outcome SnapshotError bytes :=
  match co with
  | Some (o :: objs) =>
      blob ← ok_or (serialize (o :: objs)) ContainedSerialization;
      if SEAL_MAX_CONTAINED_TAIL_BYTES <? Z.of_nat (length blob) then Err ContainedTooLarge
      else Ok ([x01] ++ to_le 4 (Z.of_nat (length blob)) ++ blob)
  | _ => Ok [x00]
  end.

Definition no_pos : DataWalPos := {| dp_file_seq := 0; dp_offset := 0 |}.

Definition repacked_section (rep : option SegmentId) : bytes :=
  match rep with Some old => [x01] ++ old | None => [x00] end.

Definition encode_entry (x : SegmentId * LifecycleEntry) : outcome SnapshotError bytes :=
  let '(id, e) := x in
  sb ← state_byte (le_state e);
  meta_bytes ← ok_or (ser_meta (le_metadata e)) MetadataSerialization;
  let fixed := id ++ [sb] ++ to_le 4 (Z.of_nat (length meta_bytes)) ++ meta_bytes in
  if bool_decide (le_state e = Sealed) then
    contained ← contained_section (le_contained_objects e);
    Ok (fixed ++ data_pos_bytes (default no_pos (le_data_wal_pos e))
        ++ repacked_section (le_repacked_from e) ++ contained)
  else Ok fixed.

Definition snapshot_header (up_to : EventWalPos) (count : nat) : bytes :=
  CHECKPOINT_MAGIC ++ [CHECKPOINT_VERSION] ++ to_le 4 (ep_file_seq up_to)
  ++ to_le 8 (ep_offset up_to) ++ to_le 4 (Z.of_nat count).

(** [entries] are the live entries in the order in which [for_each] visits them. *)
Definition encode_snapshot (entries : list (SegmentId * LifecycleEntry)) (up_to : EventWalPos)
    : outcome SnapshotError bytes :=
  body ← omapM encode_entry entries;
  let buf := snapshot_header up_to (length entries) ++ concat body in
  Ok (buf ++ to_le 4 (crc32 buf)).

(** The trailing checksum. *)
Definition crc_valid (bs : bytes) : bool :=
  from_le (field bs (length bs - 4) (length bs)) =? crc32 (take (length bs - 4) bs).

Definition is_pre_pool_checkpoint (bs : bytes) : bool :=
  negb (length bs <? CHECKPOINT_HEADER_SIZE + 4)%nat
  && bool_decide (field bs 0 4 = CHECKPOINT_MAGIC)
  && bool_decide (byte_at bs 4 = x02)
  && crc_valid bs.

(** A section that a flag byte announces. *)
Definition flagged {A} (flag : byte) (cursor : nat) (read : option (A * nat))
    : option (option A * nat) :=
  match flag with
  | x00 => Some (None, cursor)
  | x01 => '(a, cursor) ← read; Some (Some a, cursor)
  | _ => None
  end.

Definition ok {E A} (r : A * outcome E unit) : option A :=
  match r with (a, Ok _) => Some a | _ => None end.

(** The membership list of a sealed entry. *)
Definition decode_contained (body : bytes) (cursor : nat)
    : option (option (list ContainedObject) * nat) :=
  '(flag, cursor) ← read_section body cursor CONTAINED_FLAG_SIZE;
  flagged (byte_at flag 0) cursor
    ('(len, cursor) ← read_section body cursor CONTAINED_LEN_SIZE;
     let blob_len := from_le len in
     if SEAL_MAX_CONTAINED_TAIL_BYTES <? blob_len then None else
     '(blob, cursor) ← read_section body cursor (Z.to_nat blob_len);
     objects ← deserialize blob;
     Some (objects, cursor)).

(** The rest of an entry after its metadata. [body] is the snapshot without
    its checksum, which bounds every read; the registry is the one that is
    being filled. *)
Definition decode_state (shard_for : SegmentId -> Z) (now : Z) (body : bytes)
    (id : SegmentId) (state : byte) (meta : SegmentMetadata) (m : Registry) (cursor : nat)
    : option (Registry * nat) :=
  match state with
  | x00 => m ← ok (reserve shard_for id meta now m); Some (m, cursor)
  | x01 =>
      '(extra, cursor) ← read_section body cursor (SEALED_EXTRA_SIZE + REPACKED_FLAG_SIZE);
      let pos := {| dp_file_seq := from_le (field extra 0 4);
                    dp_offset := from_le (field extra 4 12) |} in
      '(rep, cursor) ← flagged (byte_at extra 12) cursor (read_section body cursor REPACKED_FROM_SIZE);
      '(contained, cursor) ← decode_contained body cursor;
      m ← ok (reserve shard_for id
            (reserved_meta id (sm_size_tier meta) (sm_ec_k meta) (sm_ec_m meta)) now m);
      let m := record_data_wal_pos id pos m in
      m ← ok (seal_with shard_for id meta rep contained now m);
      Some (m, cursor)
  | _ => None
  end.

Definition decode_entry (shard_for : SegmentId -> Z) (now : Z) (body : bytes)
    (st : Registry * nat) : option (Registry * nat) :=
  let '(m, cursor) := st in
  '(fixed, cursor) ← read_section body cursor ENTRY_FIXED_SIZE;
  '(meta_bytes, cursor) ← read_section body cursor (Z.to_nat (from_le (field fixed 17 21)));
  meta ← de_meta meta_bytes;
  decode_state shard_for now body (field fixed 0 16) (byte_at fixed 16) meta m cursor.

Fixpoint decode_entries (shard_for : SegmentId -> Z) (now : Z) (body : bytes) (count : nat)
    (st : Registry * nat) : option (Registry * nat) :=
  match count with
  | O => Some st
  | S count => st ← decode_entry shard_for now body st; decode_entries shard_for now body count st
  end.

Definition decode_snapshot (shard_for : SegmentId -> Z) (now : Z) (bs : bytes)
    : option (EventWalPos * Registry) :=
  if (length bs <? CHECKPOINT_HEADER_SIZE + 4)%nat then None else
  if negb (bool_decide (field bs 0 4 = CHECKPOINT_MAGIC)) then None else
  if negb (bool_decide (byte_at bs 4 = CHECKPOINT_VERSION)) then None else
  if negb (crc_valid bs) then None else
  let covered := {| ep_file_seq := from_le (field bs 5 9); ep_offset := from_le (field bs 9 17) |} in
  let count := Z.to_nat (from_le (field bs 17 21)) in
  '(m, _) ← decode_entries shard_for now (take (length bs - 4) bs) count (∅, CHECKPOINT_HEADER_SIZE);
  Some (covered, m).
End codec.

(** ** The directory of checkpoints *)

(** "checkpoint-" and ".tmp". *)
Definition checkpoint_prefix : bytes := [x63; x68; x65; x63; x6b; x70; x6f; x69; x6e; x74; x2d].
Definition tmp_suffix : bytes := [x2e; x74; x6d; x70].

Definition checkpoint_file_name (pos : EventWalPos) : bytes :=
  checkpoint_prefix ++ fmt08 (ep_file_seq pos) ++ [x2d] ++ fmt_u64 (ep_offset pos).

(** [str::split_once]: before and after the first separator. *)
Fixpoint split_once (sep : byte) (bs : bytes) : option (bytes * bytes) :=
  match bs with
  | [] => None
  | b :: bs =>
      if bool_decide (b = sep) then Some ([], bs)
      else '(l, r) ← split_once sep bs; Some (b :: l, r)
  end.

Definition parse_checkpoint_name (name : bytes) : option EventWalPos :=
  rest ← strip_prefix checkpoint_prefix name;
  '(seq, offset) ← split_once x2d rest;
  seq ← parse_u32 seq;
  offset ← parse_u64 offset;
  Some {| ep_file_seq := seq; ep_offset := offset |}.

(** The derived order of positions. *)
Definition pos_le (a b : EventWalPos) : Prop :=
  ep_file_seq a < ep_file_seq b \/ (ep_file_seq a = ep_file_seq b /\ ep_offset a <= ep_offset b).

#[export] Instance pos_le_dec : RelDecision pos_le.
Proof. intros a b. unfold pos_le. apply _. Defined.

#[export] Instance EventWalPos_eq_dec : EqDecision EventWalPos.
Proof. solve_decision. Defined.

(** The files of the directory, by name. *)
Notation Directory := (list (bytes * bytes)).

Fixpoint dir_read (dir : Directory) (name : bytes) : option bytes :=
  match dir with
  | [] => None
  | (n, c) :: dir => if bool_decide (n = name) then Some c else dir_read dir name
  end.

(** Creating or replacing a file. *)
Definition dir_write (dir : Directory) (name content : bytes) : Directory :=
  (name, content) :: filter (fun f => f.1 <> name) dir.

Definition is_orphan (name : bytes) : Prop :=
  is_Some (strip_prefix checkpoint_prefix name) /\ is_Some (strip_suffix tmp_suffix name).

Definition remove_orphan_tmp (dir : Directory) : Directory := filter (fun f => ~ is_orphan f.1) dir.

(** [reset_for_fresh]: no checkpoint file is left. *)
Definition reset_for_fresh (dir : Directory) : Directory :=
  filter (fun f => ~ is_Some (strip_prefix checkpoint_prefix f.1)) dir.

(** [scan_newest]: the greatest position among the names. *)
Definition scan_newest (dir : Directory) : option EventWalPos :=
  foldl (fun newest f =>
    match parse_checkpoint_name f.1, newest with
    | Some pos, Some n => if bool_decide (pos_le pos n) then newest else Some pos
    | Some pos, None => Some pos
    | None, _ => newest
    end) None dir.

Inductive LoadError := UnsupportedPrePoolDataDir (pos : EventWalPos).

Section store.
Context (crc32 : bytes -> Z).
Context (ser_meta : SegmentMetadata -> option bytes).
Context (de_meta : bytes -> option SegmentMetadata).
Context (serialize : list ContainedObject -> option bytes).
Context (deserialize : bytes -> option (list ContainedObject)).

(** [write_checkpoint]: the whole write, and the crash before its rename that
    leaves the first bytes of the temporary file. *)
Definition write_checkpoint (entries : list (SegmentId * LifecycleEntry)) (up_to : EventWalPos)
    (dir : Directory) : outcome SnapshotError Directory :=
  bs ← encode_snapshot crc32 ser_meta serialize entries up_to;
  let name := checkpoint_file_name up_to in
  let tmp := name ++ tmp_suffix in
  Ok (dir_write (filter (fun f => f.1 <> tmp) dir) name bs).

Definition crashed_write (up_to : EventWalPos) (written : bytes) (dir : Directory) : Directory :=
  dir_write dir (checkpoint_file_name up_to ++ tmp_suffix) written.

(** The loop of [load_checkpoint] over the candidates. *)
Fixpoint try_candidates (shard_for : SegmentId -> Z) (now : Z) (dir : Directory)
    (candidates : list EventWalPos) : outcome LoadError (option (Registry * EventWalPos)) :=
  match candidates with
  | [] => Ok None
  | pos :: candidates =>
      match dir_read dir (checkpoint_file_name pos) with
      | None => try_candidates shard_for now dir candidates
      | Some raw =>
          match decode_snapshot crc32 de_meta deserialize shard_for now raw with
          | Some (covered, m) =>
              if bool_decide (covered = pos) then Ok (Some (m, covered))
              else try_candidates shard_for now dir candidates
          | None =>
              if is_pre_pool_checkpoint crc32 raw then Err (UnsupportedPrePoolDataDir pos)
              else try_candidates shard_for now dir candidates
          end
      end
  end.

Definition load_checkpoint (shard_for : SegmentId -> Z) (now : Z) (dir : Directory)
    : outcome LoadError (option (Registry * EventWalPos)) :=
  let dir := remove_orphan_tmp dir in
  let candidates := merge_sort (flip pos_le) (omap parse_checkpoint_name dir.*1) in
  try_candidates shard_for now dir candidates.
End store.

(** The cached position of the newest checkpoint, and the trigger. *)
Definition last_checkpoint_pos (last_covered : Z) : option EventWalPos :=
  if last_covered =? 0 then None else Some (from_packed last_covered).

Definition needs_checkpoint (w : EventWal) (last_covered threshold : Z) : bool :=
  threshold <=? bytes_since w
    (default {| ep_file_seq := 0; ep_offset := 0 |} (last_checkpoint_pos last_covered)).

(** ** What a snapshot preserves *)

(** The entry that a snapshot holds for a live entry. *)
Definition snapshot_entry (now : Z) (e : LifecycleEntry) : LifecycleEntry :=
  match le_state e with
  | Sealed =>
      {| le_state := Sealed; le_metadata := le_metadata e;
         le_data_wal_pos := Some (default no_pos (le_data_wal_pos e));
         le_repacked_from := le_repacked_from e;
         le_contained_objects := match le_contained_objects e with Some [] => None | co => co end;
         le_evict_at := now; le_in_flight := None; le_seal_queued := false; le_writer_count := 0 |}
  | s => entry_new s (le_metadata e) now
  end.

Definition no_deleted (m : Registry) : Prop :=
  forall id e, m !! id = Some e -> le_state e <> Deleted.

Lemma no_deleted_insert m id e : no_deleted m -> le_state e <> Deleted -> no_deleted (<[id := e]> m).
Proof. intros H He id' e'. rewrite lookup_insert_Some. intros [[_ <-]|[_ Hl]]; [done | by eapply H]. Qed.

Lemma no_deleted_delete m id : no_deleted m -> no_deleted (delete id m).
Proof. intros H id' e'. rewrite lookup_delete_Some. intros [_ Hl]. by eapply H. Qed.

Lemma evict_no_deleted shard_for id now m : no_deleted m -> evict_expired shard_for id now m = m.
Proof.
  intros H. unfold evict_expired. apply map_filter_id. intros id' e He [_ D].
  rewrite live_not_expired in D by (by eapply H). discriminate.
Qed.

Lemma live_lookup now m id e :
  live now m !! id = Some e <-> m !! id = Some e /\ le_state e <> Deleted.
Proof.
  unfold live. rewrite map_lookup_filter_Some. cbn [snd]. split; [naive_solver|].
  intros [He Hs]. split_and!; [done..|]. by apply live_not_expired.
Qed.

(** Re-creating a sealed entry through the transitions of the registry. *)
Lemma recreate_reserved shard_for now id meta m :
  no_deleted m -> m !! id = None ->
  ok (reserve shard_for id meta now m) = Some (<[id := entry_new Reserved meta now]> m).
Proof. intros Hm Hid. unfold reserve. by rewrite evict_no_deleted, Hid. Qed.

Lemma recreate_sealed shard_for now id meta0 meta pos rep co m :
  no_deleted m ->
  ok (seal_with shard_for id meta rep co now
        (record_data_wal_pos id pos (<[id := entry_new Reserved meta0 now]> m)))
  = Some (<[id := {| le_state := Sealed; le_metadata := meta; le_data_wal_pos := Some pos;
                     le_repacked_from := rep; le_contained_objects := co; le_evict_at := now;
                     le_in_flight := None; le_seal_queued := false; le_writer_count := 0 |}]> m).
Proof.
  intros Hm. unfold record_data_wal_pos. rewrite lookup_insert_eq.
  cbn [entry_new le_state bool_decide le_data_wal_pos]. rewrite bool_decide_false by done.
  rewrite insert_insert_eq. unfold seal_with. rewrite evict_no_deleted by (by apply no_deleted_insert).
  rewrite lookup_insert_eq. cbn [le_state set_pos entry_new ok]. by rewrite insert_insert_eq.
Qed.

(** ** Round trip *)

(** Sections at known places of a byte string. *)
Lemma read_at body pre s post n :
  body = pre ++ s ++ post -> length s = n ->
  read_section body (length pre) n = Some (s, length (pre ++ s)).
Proof. intros -> Hn. rewrite read_section_at by done. by rewrite length_app, Hn. Qed.

Ltac section_length :=
  unfold ENTRY_FIXED_SIZE, SEALED_EXTRA_SIZE, REPACKED_FLAG_SIZE, REPACKED_FROM_SIZE,
    CONTAINED_FLAG_SIZE, CONTAINED_LEN_SIZE;
  rewrite ?length_app, ?length_to_le; cbn [length]; lia.

Ltac next_section pre s post :=
  rewrite (read_at _ pre s post) by (first [section_length | by list_simplifier]);
  cbn [mbind option_bind].

Section roundtrip.
Context (crc32 : bytes -> Z) (crc32_range : forall bs, is_u32 (crc32 bs)).
Context (ser_meta : SegmentMetadata -> option bytes).
Context (de_meta : bytes -> option SegmentMetadata).
Context (de_ser_meta : forall meta b, ser_meta meta = Some b -> de_meta b = Some meta).
Context (serialize : list ContainedObject -> option bytes).
Context (deserialize : bytes -> option (list ContainedObject)).
Context (deserialize_serialize : forall l b, serialize l = Some b -> deserialize b = Some l).
Context (shard_for : SegmentId -> Z) (now : Z).

Notation encode := (encode_entry ser_meta serialize).
Notation decode := (decode_entry de_meta deserialize shard_for now).

(** The types of the Rust fields; a metadata payload is below 4 GiB. *)
Definition entry_ok (x : SegmentId * LifecycleEntry) : Prop :=
  let '(id, e) := x in
  length id = 16%nat /\ le_state e <> Deleted /\
  (forall p, le_data_wal_pos e = Some p -> is_u32 (dp_file_seq p) /\ is_u64 (dp_offset p)) /\
  (forall old, le_repacked_from e = Some old -> length old = 16%nat) /\
  (forall b, ser_meta (le_metadata e) = Some b -> Z.of_nat (length b) <= u32_max).

Lemma contained_section_spec co sec :
  contained_section serialize co = Ok sec ->
  (sec = [x00] /\ match co with Some [] => None | co => co end = None) \/
  exists objs blob, sec = [x01] ++ to_le 4 (Z.of_nat (length blob)) ++ blob /\
    match co with Some [] => None | co => co end = Some objs /\ deserialize blob = Some objs /\
    Z.of_nat (length blob) <= SEAL_MAX_CONTAINED_TAIL_BYTES.
Proof.
  unfold contained_section. destruct co as [[|o objs]|]; [intros [= <-]; by left| |intros [= <-]; by left].
  destruct (serialize (o :: objs)) as [blob|] eqn:Es; cbn [ok_or mbind outcome_bind]; [|done].
  destruct (Z.ltb_spec SEAL_MAX_CONTAINED_TAIL_BYTES (Z.of_nat (length blob))); [done|].
  intros [= <-]. right. exists (o :: objs), blob. split_and!; try done. by apply deserialize_serialize.
Qed.

(** The tail of a sealed entry: the membership list at the cursor. *)
Lemma read_contained body pre sec post co :
  contained_section serialize co = Ok sec -> body = pre ++ sec ++ post ->
  decode_contained deserialize body (length pre)
  = Some (match co with Some [] => None | co => co end, length (pre ++ sec)).
Proof.
  intros [[-> ->]|(objs & blob & -> & -> & Hde & Hle)]%contained_section_spec Hbody;
    unfold decode_contained.
  - by next_section pre [x00] post.
  - assert (Hlen : from_le (to_le 4 (Z.of_nat (length blob))) = Z.of_nat (length blob))
      by (apply from_to_le_small; unfold SEAL_MAX_CONTAINED_TAIL_BYTES in Hle; simpl; lia).
    subst body. next_section pre [x01] (to_le 4 (Z.of_nat (length blob)) ++ blob ++ post).
    unfold flagged. cbn [byte_at lookup list_lookup default].
    next_section (pre ++ [x01]) (to_le 4 (Z.of_nat (length blob))) (blob ++ post).
    rewrite Hlen, (proj2 (Z.ltb_ge _ _)), Nat2Z.id by done.
    next_section ((pre ++ [x01]) ++ to_le 4 (Z.of_nat (length blob))) blob post.
    rewrite Hde. cbn [mbind option_bind]. do 2 f_equal. by rewrite <- !app_assoc.
Qed.

(** The fixed part of an entry and its metadata. *)
Lemma decode_fixed pre rest m id sb meta mb :
  length id = 16%nat -> ser_meta meta = Some mb -> Z.of_nat (length mb) <= u32_max ->
  let fixed := id ++ [sb] ++ to_le 4 (Z.of_nat (length mb)) ++ mb in
  decode (pre ++ fixed ++ rest) (m, length pre)
  = decode_state deserialize shard_for now (pre ++ fixed ++ rest) id sb meta m (length (pre ++ fixed)).
Proof.
  intros Hid Emb%de_ser_meta Hmeta. cbn zeta. unfold decode_entry.
  assert (Hml : from_le (to_le 4 (Z.of_nat (length mb))) = Z.of_nat (length mb))
    by (apply from_to_le_small; unfold u32_max in Hmeta; simpl; lia).
  next_section pre (id ++ [sb] ++ to_le 4 (Z.of_nat (length mb))) (mb ++ rest).
  set (fixed := id ++ [sb] ++ to_le 4 (Z.of_nat (length mb))).
  assert (F0 : field fixed 0 16 = id) by (subst fixed; by field_norm).
  assert (F1 : byte_at fixed 16 = sb).
  { subst fixed. unfold byte_at. rewrite lookup_app_r, Hid by lia. done. }
  assert (F2 : field fixed 17 21 = to_le 4 (Z.of_nat (length mb))) by (subst fixed; by repeat field_norm).
  rewrite F0, F1, F2, Hml, Nat2Z.id.
  rewrite (read_at _ (pre ++ fixed) mb rest) by (first [done | subst fixed; by list_simplifier]).
  cbn [mbind option_bind]. rewrite Emb. cbn [mbind option_bind]. f_equal. subst fixed. by rewrite <- !app_assoc.
Qed.

(** The compaction marker at the cursor, after the 12 bytes of the position. *)
Lemma read_repacked body pre pos rep post :
  (forall old, rep = Some old -> length old = 16%nat) ->
  is_u32 (dp_file_seq pos) -> is_u64 (dp_offset pos) ->
  body = pre ++ data_pos_bytes pos ++ repacked_section rep ++ post ->
  exists extra, read_section body (length pre) (SEALED_EXTRA_SIZE + REPACKED_FLAG_SIZE)
      = Some (extra, length (pre ++ extra)) /\
    from_le (field extra 0 4) = dp_file_seq pos /\ from_le (field extra 4 12) = dp_offset pos /\
    flagged (byte_at extra 12) (length (pre ++ extra))
      (read_section body (length (pre ++ extra)) REPACKED_FROM_SIZE)
    = Some (rep, length (pre ++ data_pos_bytes pos ++ repacked_section rep)).
Proof.
  intros Hrep Hs Ho ->. unfold is_u32, is_u64, u32_max, u64_max in *.
  set (flag := match rep with Some _ => x01 | None => x00 end).
  assert (Hsec : repacked_section rep = [flag] ++ default [] rep) by (by destruct rep).
  exists (data_pos_bytes pos ++ [flag]). unfold data_pos_bytes. rewrite Hsec.
  split_and!.
  - apply (read_at _ pre _ (default [] rep ++ post)); [by list_simplifier | section_length].
  - rewrite <- app_assoc. repeat field_norm. apply from_to_le_small. simpl. lia.
  - rewrite <- app_assoc. repeat field_norm. apply from_to_le_small. simpl. lia.
  - assert (Hb : byte_at ((to_le 4 (dp_file_seq pos) ++ to_le 8 (dp_offset pos)) ++ [flag]) 12 = flag).
    { unfold byte_at. rewrite lookup_app_r by (rewrite length_app, !length_to_le; lia).
      rewrite length_app, !length_to_le. done. }
    rewrite Hb. unfold flagged. subst flag. destruct rep as [old|]; cbn [default].
    + rewrite (read_at _ _ old post) by (first [by apply Hrep | by list_simplifier]).
      cbn [mbind option_bind]. do 2 f_equal. by list_simplifier.
    + done.
Qed.

Lemma decode_encode_entry body pre post m id e enc :
  entry_ok (id, e) -> encode (id, e) = Ok enc -> body = pre ++ enc ++ post ->
  no_deleted m -> m !! id = None ->
  decode body (m, length pre) = Some (<[id := snapshot_entry now e]> m, length (pre ++ enc)).
Proof.
  intros (Hid & Hnd & Hpos & Hrep & Hmeta) Henc -> Hm Hnew. unfold encode_entry in Henc.
  destruct (ser_meta (le_metadata e)) as [mb|] eqn:Emb; [|by destruct (le_state e)].
  specialize (Hmeta mb eq_refl). unfold snapshot_entry.
  destruct (le_state e) eqn:Es; cbn [state_byte ok_or mbind outcome_bind] in Henc.
  - rewrite bool_decide_false in Henc by done.
    assert (enc = id ++ [STATE_RESERVED] ++ to_le 4 (Z.of_nat (length mb)) ++ mb) as -> by congruence.
    rewrite decode_fixed with (meta := le_metadata e) by done.
    cbn [decode_state STATE_RESERVED]. by rewrite recreate_reserved.
  - rewrite bool_decide_true in Henc by done.
    destruct (contained_section serialize (le_contained_objects e)) as [sec|err|] eqn:Esec; try done.
    cbn [mbind outcome_bind] in Henc.
    set (fixed := id ++ [STATE_SEALED] ++ to_le 4 (Z.of_nat (length mb)) ++ mb).
    set (pos := default no_pos (le_data_wal_pos e)).
    assert (enc = fixed ++ data_pos_bytes pos ++ repacked_section (le_repacked_from e) ++ sec) as ->
      by (subst fixed pos; congruence).
    replace ((fixed ++ data_pos_bytes pos ++ repacked_section (le_repacked_from e) ++ sec) ++ post)
      with (fixed ++ data_pos_bytes pos ++ repacked_section (le_repacked_from e) ++ sec ++ post)
      by (by list_simplifier).
    subst fixed. rewrite decode_fixed with (meta := le_metadata e) by done.
    set (fixed := id ++ [STATE_SEALED] ++ to_le 4 (Z.of_nat (length mb)) ++ mb).
    assert (Hp : is_u32 (dp_file_seq pos) /\ is_u64 (dp_offset pos))
      by (subst pos; destruct (le_data_wal_pos e); [by apply Hpos | done]).
    destruct (read_repacked (pre ++ fixed ++ data_pos_bytes pos ++ repacked_section (le_repacked_from e)
      ++ sec ++ post) (pre ++ fixed) pos (le_repacked_from e) (sec ++ post))
      as (extra & H1 & H2 & H3 & H4); [apply Hrep|apply Hp..|by list_simplifier|].
    cbn [decode_state STATE_SEALED]. rewrite H1. cbn [mbind option_bind]. rewrite H2, H3, H4.
    cbn [mbind option_bind].
    rewrite (read_contained _ _ sec post (le_contained_objects e)) by (done || by list_simplifier).
    cbn [mbind option_bind]. rewrite recreate_reserved by done. cbn [mbind option_bind].
    replace {| dp_file_seq := dp_file_seq pos; dp_offset := dp_offset pos |} with pos by (by destruct pos).
    rewrite recreate_sealed by done. cbn [mbind option_bind]. do 2 f_equal; [|by rewrite <- !app_assoc].
    by destruct (le_contained_objects e) as [[]|].
  - done.
Qed.

Definition restored (x : SegmentId * LifecycleEntry) : SegmentId * LifecycleEntry :=
  (x.1, snapshot_entry now x.2).

Lemma snapshot_entry_live e : le_state e <> Deleted -> le_state (snapshot_entry now e) <> Deleted.
Proof. unfold snapshot_entry. by destruct (le_state e) eqn:E; cbn; rewrite ?E. Qed.

Lemma decode_encode_entries entries : forall encs pre post m,
  Forall entry_ok entries -> NoDup entries.*1 ->
  Forall2 (fun x enc => encode x = Ok enc) entries encs ->
  no_deleted m -> (forall id, id ∈ entries.*1 -> m !! id = None) ->
  decode_entries de_meta deserialize shard_for now (pre ++ concat encs ++ post) (length entries)
    (m, length pre)
  = Some (list_to_map (restored <$> entries) ∪ m, length (pre ++ concat encs)).
Proof.
  induction entries as [|[id e] entries IH]; intros encs pre post m Hok Hdup Henc Hm Hnew.
  - inversion Henc; subst. cbn. by rewrite (left_id_L ∅ (∪)), app_nil_r.
  - inversion Henc as [|? enc ? encs' He Hencs]; subst. clear Henc.
    apply Forall_cons in Hok as [Hx Hok]. cbn [fmap list_fmap fst] in Hdup, Hnew.
    apply NoDup_cons in Hdup as [Hnot Hdup]. cbn [length decode_entries concat].
    rewrite (decode_encode_entry _ pre (concat encs' ++ post) m id e enc); try done.
    2: by list_simplifier. 2: apply Hnew; left.
    cbn [mbind option_bind]. replace (pre ++ (enc ++ concat encs') ++ post)
      with ((pre ++ enc) ++ concat encs' ++ post) by (by list_simplifier).
    rewrite IH; try done.
    + cbn [fmap list_fmap restored fst snd list_to_map foldr uncurry]. do 2 f_equal; [|by list_simplifier].
      rewrite <- insert_union_r; [by rewrite insert_union_l|].
      apply not_elem_of_list_to_map_1. rewrite <- list_fmap_compose. done.
    + apply no_deleted_insert; [done|]. apply snapshot_entry_live. apply Hx.
    + intros id' Hid'. rewrite lookup_insert_ne by (intros ->; done). apply Hnew. by right.
Qed.

Lemma crc_valid_app buf : crc_valid crc32 (buf ++ to_le 4 (crc32 buf)) = true.
Proof.
  unfold crc_valid. rewrite length_app, length_to_le, Nat.add_sub, take_app_length.
  rewrite (field_skip (length buf) 0 4), field_all by (rewrite ?length_to_le; lia).
  apply Z.eqb_eq, from_to_le_small. pose proof (crc32_range buf) as H. unfold is_u32, u32_max in H.
  simpl. lia.
Qed.

Lemma restored_map t m entries :
  entries ≡ₚ map_to_list (live t m) ->
  list_to_map (restored <$> entries) = snapshot_entry now <$> live t m.
Proof.
  intros Hperm.
  assert (Hdup : NoDup entries.*1) by (rewrite Hperm; apply NoDup_fst_map_to_list).
  transitivity (snapshot_entry now <$> (list_to_map entries : Registry)).
  - by rewrite <- list_to_map_fmap.
  - f_equal. rewrite (list_to_map_proper _ (map_to_list (live t m)) Hdup Hperm). apply list_to_map_to_list.
Qed.

Lemma decode_encode_snapshot t m entries up_to bs :
  entries ≡ₚ map_to_list (live t m) ->
  Forall entry_ok entries -> Z.of_nat (length entries) <= u32_max ->
  is_u32 (ep_file_seq up_to) -> is_u64 (ep_offset up_to) ->
  encode_snapshot crc32 ser_meta serialize entries up_to = Ok bs ->
  decode_snapshot crc32 de_meta deserialize shard_for now bs
  = Some (up_to, snapshot_entry now <$> live t m).
Proof.
  intros Hperm Hok Hcount Hseq Hoff Henc. unfold encode_snapshot in Henc.
  destruct (omapM encode entries) as [encs|e|] eqn:Ebody; try done. apply omapM_Ok in Ebody.
  cbn [mbind outcome_bind] in Henc.
  set (hdr := snapshot_header up_to (length entries)).
  assert (bs = (hdr ++ concat encs) ++ to_le 4 (crc32 (hdr ++ concat encs))) as ->
    by (subst hdr; congruence).
  assert (Hh : length hdr = 21%nat) by (subst hdr; unfold snapshot_header; by rewrite !length_app, !length_to_le).
  unfold decode_snapshot. rewrite crc_valid_app.
  rewrite (proj2 (Nat.ltb_ge _ _)) by (rewrite !length_app, Hh, length_to_le; unfold CHECKPOINT_HEADER_SIZE; lia).
  rewrite length_app, length_to_le, Nat.add_sub, take_app_length, <- app_assoc.
  assert (Hf : forall a b, (b <= 21)%nat -> field (hdr ++ concat encs ++ to_le 4 (crc32 (hdr ++ concat encs))) a b
    = field hdr a b) by (intros a b Hb; apply field_prefix; lia).
  rewrite !Hf by lia.
  assert (Hv : byte_at (hdr ++ concat encs ++ to_le 4 (crc32 (hdr ++ concat encs))) 4 = CHECKPOINT_VERSION)
    by done.
  rewrite Hv. clear Hf Hv. subst hdr. unfold snapshot_header. repeat field_norm.
  unfold is_u32, is_u64, u32_max, u64_max in *.
  rewrite !from_to_le_small, Nat2Z.id by (simpl; lia). rewrite !bool_decide_true by done. cbn [negb].
  fold (snapshot_header up_to (length entries)).
  change CHECKPOINT_HEADER_SIZE with 21%nat. rewrite <- Hh.
  pose proof (decode_encode_entries entries encs (snapshot_header up_to (length entries)) [] ∅ Hok) as Hd.
  rewrite app_nil_r in Hd. rewrite Hd; try done.
  - cbn [mbind option_bind]. rewrite (right_id_L ∅ (∪)), (restored_map t m) by done. by destruct up_to.
  - rewrite Hperm. apply NoDup_fst_map_to_list.
Qed.
End roundtrip.

(** ** Choosing the checkpoint *)

Lemma split_once_app sep l r : sep ∉ l -> split_once sep (l ++ sep :: r) = Some (l, r).
Proof.
  induction l as [|b l IH]; intros Hn; cbn [app split_once].
  - by rewrite bool_decide_true.
  - apply not_elem_of_cons in Hn as [Hb Hl]. rewrite bool_decide_false by congruence. by rewrite IH.
Qed.

Lemma digits_no_dash ds : Forall is_dec ds -> x2d ∉ digit <$> ds.
Proof.
  intros Hds (d & Hd & Hin)%list_elem_of_fmap. rewrite Forall_forall in Hds.
  pose proof (digit_is_digit d (Hds d Hin)) as H. by rewrite <- Hd in H.
Qed.

Lemma parse_checkpoint_file_name pos :
  is_u32 (ep_file_seq pos) -> is_u64 (ep_offset pos) ->
  parse_checkpoint_name (checkpoint_file_name pos) = Some pos.
Proof.
  intros Hs Ho. unfold parse_checkpoint_name, checkpoint_file_name.
  rewrite strip_prefix_app. cbn [mbind option_bind].
  change ([x2d] ++ fmt_u64 (ep_offset pos)) with (x2d :: fmt_u64 (ep_offset pos)).
  rewrite split_once_app.
  - cbn [mbind option_bind]. rewrite parse_fmt08, parse_fmt_u64 by done. cbn [mbind option_bind].
    by destruct pos.
  - apply digits_no_dash. apply Forall_rev, padded_dec.
Qed.

#[export] Instance pos_le_trans : Transitive pos_le.
Proof. intros a b c. unfold pos_le. lia. Qed.

#[export] Instance pos_le_total : Total pos_le.
Proof. intros a b. unfold pos_le. lia. Qed.

Lemma pos_le_antisym a b : pos_le a b -> pos_le b a -> a = b.
Proof. destruct a, b. unfold pos_le. cbn. intros. f_equal; lia. Qed.

#[export] Instance flip_pos_le_trans : Transitive (flip pos_le).
Proof. intros a b c. unfold flip. intros. by transitivity b. Qed.

#[export] Instance flip_pos_le_total : Total (flip pos_le).
Proof. intros a b. unfold flip. apply (total pos_le). Qed.

(** The newest position comes first. *)
Lemma newest_first l pos :
  pos ∈ l -> (forall p, p ∈ l -> pos_le p pos) ->
  exists l', merge_sort (flip pos_le) l = pos :: l'.
Proof.
  intros Hin Hmax.
  pose proof (merge_sort_Permutation (flip pos_le) l) as Hperm.
  pose proof (StronglySorted_merge_sort (flip pos_le) l) as Hs.
  destruct (merge_sort (flip pos_le) l) as [|p l'] eqn:E.
  - apply Permutation_nil in Hperm as ->. by apply elem_of_nil in Hin.
  - exists l'. f_equal. rewrite <- Hperm in Hin. inversion Hs as [|? ? _ Hall]; subst.
    apply elem_of_cons in Hin as [->|Hin]; [done|]. rewrite Forall_forall in Hall.
    apply pos_le_antisym; [|by apply (Hall pos)]. apply Hmax. rewrite <- Hperm. left.
Qed.

Lemma digits_last ds : Forall is_dec ds -> forall b, last (digit <$> ds) = Some b -> is_digit b = true.
Proof.
  intros Hds b Hb. rewrite fmap_last in Hb. destruct (last ds) as [d|] eqn:E; [|done].
  injection Hb as <-. apply digit_is_digit. rewrite Forall_forall in Hds. apply Hds.
  by apply last_Some_elem_of.
Qed.

Lemma last_of_drop {A} (l : list A) n : (n < length l)%nat -> last (drop n l) = last l.
Proof. intros H. rewrite !last_lookup, lookup_drop, length_drop. f_equal. lia. Qed.

Lemma checkpoint_name_not_orphan pos : ~ is_orphan (checkpoint_file_name pos).
Proof.
  intros [_ [s Hs]]. unfold strip_suffix in Hs. destruct (_ && _) eqn:E; [|done]. clear Hs.
  apply andb_true_iff in E as [Hl%Nat.leb_le He%bool_decide_eq_true].
  apply (f_equal last) in He. rewrite last_of_drop in He.
  2: { cbn [length tmp_suffix] in Hl |- *. lia. }
  unfold checkpoint_file_name, fmt_u64 in He. rewrite !app_assoc, last_app in He.
  destruct (last (digit <$> rev (digits_le 20 (ep_offset pos)))) as [b|] eqn:Eb.
  - apply digits_last in Eb; [|apply Forall_rev, digits_le_dec]. by injection He as ->.
  - apply last_None, fmap_nil_inv, (f_equal length) in Eb. rewrite length_rev in Eb. done.
Qed.

Lemma tmp_name_orphan pos : is_orphan (checkpoint_file_name pos ++ tmp_suffix).
Proof.
  split; [|by rewrite strip_suffix_app].
  unfold checkpoint_file_name. rewrite <- app_assoc, strip_prefix_app. done.
Qed.

(** A crash during the write is invisible to the next load. *)
Lemma crashed_write_invisible pos written dir :
  remove_orphan_tmp (crashed_write pos written dir) = remove_orphan_tmp dir.
Proof.
  unfold crashed_write, dir_write, remove_orphan_tmp. rewrite filter_cons, decide_False.
  2: { cbn [fst]. intros H. apply H, tmp_name_orphan. }
  rewrite list_filter_filter. apply list_filter_iff. intros [n c]. cbn [fst]. split; [naive_solver|].
  intros H. split; [done|]. intros ->. apply H, tmp_name_orphan.
Qed.

Lemma dir_write_candidates dir pos bs p :
  is_u32 (ep_file_seq pos) -> is_u64 (ep_offset pos) ->
  let dir' := remove_orphan_tmp (dir_write dir (checkpoint_file_name pos) bs) in
  dir_read dir' (checkpoint_file_name pos) = Some bs /\
  pos ∈ omap parse_checkpoint_name dir'.*1 /\
  (p ∈ omap parse_checkpoint_name dir'.*1 ->
   p = pos \/ exists f, f ∈ dir /\ parse_checkpoint_name f.1 = Some p).
Proof.
  intros Hs Ho. cbn zeta. unfold dir_write, remove_orphan_tmp.
  rewrite filter_cons, decide_True by apply checkpoint_name_not_orphan.
  cbn [dir_read fmap list_fmap fst omap list_omap]. rewrite bool_decide_true by done.
  rewrite parse_checkpoint_file_name by done. split_and!; [done|left|].
  intros [->|Hin]%elem_of_cons; [by left|]. right.
  apply list_elem_of_omap in Hin as (n & (f & -> & Hf)%list_elem_of_fmap & Hp).
  exists f. split; [|done]. rewrite !list_elem_of_filter in Hf. apply Hf.
Qed.

(** C29: Checkpoints are durable and atomic. Write a checkpoint of a registry
    into a directory whose other checkpoints, valid or corrupt, are not newer.
    If the write completes, the next load finds exactly this checkpoint: it
    decodes to the covered position and to every live entry of the registry
    with its metadata, and for sealed ones their data-WAL position (0, 0 if
    none was recorded), compaction marker and non-empty membership list, and
    nothing else. If it crashes before the rename, whatever part of the
    temporary file was written, the next load behaves as if no checkpoint had
    been attempted. *)
Theorem checkpoint_write_load (crc32 : bytes -> Z)
    (ser_meta : SegmentMetadata -> option bytes) (de_meta : bytes -> option SegmentMetadata)
    (serialize : list ContainedObject -> option bytes)
    (deserialize : bytes -> option (list ContainedObject))
    (crc32_range : forall bs, is_u32 (crc32 bs))
    (de_ser_meta : forall meta b, ser_meta meta = Some b -> de_meta b = Some meta)
    (deserialize_serialize : forall l b, serialize l = Some b -> deserialize b = Some l)
    (shard_for : SegmentId -> Z) (t now : Z) (m : Registry)
    (entries : list (SegmentId * LifecycleEntry)) (up_to : EventWalPos) (dir dir' : list (bytes * bytes)) :
  entries ≡ₚ map_to_list (live t m) ->
  Forall (entry_ok ser_meta) entries -> Z.of_nat (length entries) <= u32_max ->
  is_u32 (ep_file_seq up_to) -> is_u64 (ep_offset up_to) ->
  (forall f pos, f ∈ dir -> parse_checkpoint_name f.1 = Some pos -> pos_le pos up_to) ->
  write_checkpoint crc32 ser_meta serialize entries up_to dir = Ok dir' ->
  load_checkpoint crc32 de_meta deserialize shard_for now dir'
    = Ok (Some (snapshot_entry now <$> live t m, up_to)) /\
  forall written,
    load_checkpoint crc32 de_meta deserialize shard_for now (crashed_write up_to written dir)
    = load_checkpoint crc32 de_meta deserialize shard_for now dir.
Proof.
  intros Hperm Hok Hcount Hs Ho Hnewest Hwrite. split.
  2: { intros written. unfold load_checkpoint. by rewrite crashed_write_invisible. }
  unfold write_checkpoint in Hwrite.
  destruct (encode_snapshot crc32 ser_meta serialize entries up_to) as [bs|e|] eqn:Eenc; try done.
  injection Hwrite as <-.
  pose proof (decode_encode_snapshot crc32 crc32_range ser_meta de_meta de_ser_meta serialize deserialize
    deserialize_serialize shard_for now t m entries up_to bs Hperm Hok Hcount Hs Ho Eenc) as Hdec.
  set (old := filter _ dir).
  assert (Hold : forall f, f ∈ old -> f ∈ dir) by (intros f Hf; by apply list_elem_of_filter in Hf as [_ ?]).
  destruct (dir_write_candidates old up_to bs up_to Hs Ho) as (Hread & Hin & _).
  unfold load_checkpoint. cbv zeta in *.
  set (dir' := remove_orphan_tmp _) in *.
  destruct (newest_first (omap parse_checkpoint_name dir'.*1) up_to Hin) as [l' Hl'].
  { intros p Hp. destruct (dir_write_candidates old up_to bs p Hs Ho) as (_ & _ & Hc).
    destruct (Hc Hp) as [->|(f & Hf & Hpf)]; [by right | by eapply Hnewest; [apply Hold|]]. }
  rewrite Hl'. cbn [try_candidates]. rewrite Hread, Hdec. by rewrite bool_decide_true.
Qed.

(** A serializer that only knows one metadata value. *)
#[export] Instance SizeTier_eq_dec : EqDecision SizeTier.
Proof. solve_decision. Defined.

#[export] Instance SegmentMetadata_eq_dec : EqDecision SegmentMetadata.
Proof. solve_decision. Defined.

Definition toy_ser_meta (meta : SegmentMetadata) : option bytes :=
  if bool_decide (meta = sample_meta x02) then Some [x2a] else None.

Definition toy_de_meta (bs : bytes) : option SegmentMetadata :=
  if bool_decide (bs = [x2a]) then Some (sample_meta x02) else None.

Lemma toy_de_ser_meta meta b : toy_ser_meta meta = Some b -> toy_de_meta b = Some meta.
Proof. unfold toy_ser_meta. case_bool_decide; [|done]. by intros [= <-]; subst. Qed.

Definition member : ContainedObject := {| co_bucket := [x62]; co_key := [x6b] |}.

Definition sealed_member : LifecycleEntry :=
  {| le_state := Sealed; le_metadata := sample_meta x02;
     le_data_wal_pos := Some {| dp_file_seq := 3; dp_offset := 4096 |};
     le_repacked_from := Some (seg x01); le_contained_objects := Some [member];
     le_evict_at := 0; le_in_flight := None; le_seal_queued := false; le_writer_count := 0 |}.

Definition one_sealed : Registry := {[ seg x02 := sealed_member ]}.

(** A checkpoint next to an older, corrupt one. *)
Lemma checkpoint_write_load_witness :
  let older := (checkpoint_file_name {| ep_file_seq := 0; ep_offset := 92 |}, [x00]) in
  let up_to := {| ep_file_seq := 1; ep_offset := 64 |} in
  let dir' := match write_checkpoint toy_crc toy_ser_meta toy_serialize
                      (map_to_list (live 5 one_sealed)) up_to [older] with Ok d => d | _ => [] end in
  load_checkpoint toy_crc toy_de_meta toy_deserialize one_shard 9 dir'
    = Ok (Some (snapshot_entry 9 <$> live 5 one_sealed, up_to)) /\
  forall written,
    load_checkpoint toy_crc toy_de_meta toy_deserialize one_shard 9 (crashed_write up_to written [older])
    = load_checkpoint toy_crc toy_de_meta toy_deserialize one_shard 9 [older].
Proof.
  cbv zeta.
  apply (checkpoint_write_load toy_crc toy_ser_meta toy_de_meta toy_serialize toy_deserialize toy_crc_range
    toy_de_ser_meta toy_deserialize_serialize one_shard 5 9 one_sealed (map_to_list (live 5 one_sealed))
    {| ep_file_seq := 1; ep_offset := 64 |}
    [(checkpoint_file_name {| ep_file_seq := 0; ep_offset := 92 |}, [x00])]).
  - done.
  - apply Forall_forall. intros [id e] Hin%elem_of_map_to_list%live_lookup.
    destruct Hin as [Hin Hs]. unfold one_sealed in Hin. apply lookup_singleton_Some in Hin as [<- <-]. split_and!; try done.
    + by intros p [= <-].
    + by intros old [= <-].
    + intros b Hb. vm_compute in Hb. by injection Hb as <-.
  - by vm_compute.
  - done.
  - done.
  - intros f pos ->%list_elem_of_singleton Hp. vm_compute in Hp. injection Hp as <-. by left.
  - vm_compute. reflexivity.
Defined.

(** One oversized membership list stops every checkpoint. A sealed entry
    whose serialized membership list exceeds the 4 MiB cap makes the snapshot
    fail, whatever the rest of the registry is, so nothing is ever covered and
    the event log is never truncated; the seal record of the same entry was
    accepted without its list. *)
Theorem oversized_membership_blocks_checkpoint (crc32 : bytes -> Z)
    (ser_meta : SegmentMetadata -> option bytes)
    (serialize : list ContainedObject -> option bytes)
    (entries : list (SegmentId * LifecycleEntry)) (up_to : EventWalPos) (dir : list (bytes * bytes))
    (id : SegmentId) (e : LifecycleEntry) (objs : list ContainedObject) (blob : bytes) :
  (id, e) ∈ entries -> le_state e = Sealed -> le_contained_objects e = Some objs ->
  serialize objs = Some blob -> objs <> [] ->
  SEAL_MAX_CONTAINED_TAIL_BYTES < Z.of_nat (length blob) ->
  membership_blob serialize (le_contained_objects e) = None /\
  forall dir', write_checkpoint crc32 ser_meta serialize entries up_to dir <> Ok dir'.
Proof.
  intros Hin Hs Hco Hser Hne Hbig. destruct objs as [|o objs]; [done|]. split.
  - unfold membership_blob. rewrite Hco. cbn [mbind option_bind]. rewrite Hser. cbn [mbind option_bind].
    by rewrite (proj2 (Z.leb_gt _ _)).
  - intros dir' Hw. unfold write_checkpoint, encode_snapshot in Hw.
    destruct (omapM (encode_entry ser_meta serialize) entries) as [encs| |] eqn:Em; try done.
    apply omapM_Ok in Em. apply list_elem_of_lookup in Hin as [i Hi].
    destruct (Forall2_lookup_l _ _ _ _ _ Em Hi) as (enc & _ & He).
    unfold encode_entry in He. rewrite Hs in He.
    destruct (ser_meta (le_metadata e)); [|done]. cbn [state_byte ok_or mbind outcome_bind] in He.
    rewrite bool_decide_true, Hco in He by done. unfold contained_section in He. rewrite Hser in He.
    cbn [ok_or mbind outcome_bind] in He. by rewrite (proj2 (Z.ltb_lt _ _)) in He.
Qed.

Definition zeros : bytes := replicate (Z.to_nat (SEAL_MAX_CONTAINED_TAIL_BYTES + 1)) x00.

Definition huge_blob (l : list ContainedObject) : option bytes := Some zeros.

Lemma oversized_membership_blocks_checkpoint_witness :
  membership_blob huge_blob (le_contained_objects sealed_member) = None /\
  forall dir', write_checkpoint toy_crc toy_ser_meta huge_blob [(seg x02, sealed_member)]
    {| ep_file_seq := 1; ep_offset := 64 |} [] <> Ok dir'.
Proof.
  apply (oversized_membership_blocks_checkpoint toy_crc toy_ser_meta huge_blob
    [(seg x02, sealed_member)] {| ep_file_seq := 1; ep_offset := 64 |} [] (seg x02) sealed_member
    [member] zeros); [left | exact eq_refl | exact eq_refl | exact eq_refl | discriminate |].
  unfold zeros. rewrite length_replicate, Z2Nat.id by (unfold SEAL_MAX_CONTAINED_TAIL_BYTES; lia). lia.
Defined.
