(* ===== verification/Recovery.v ===== *)
(** * Durable transitions and crash recovery
      (crates/oceanfs-storage/src/segment/lifecycle.rs, event_checkpoint.rs)

    The coordinator, the only writer of the registry and of the event log:
    every request validates against the registry, appends an event to the log
    and folds the transition into the registry. Recovery folds the log into a
    registry, seeded from a checkpoint if there is one. The stages of a request
    are separate definitions, so that requests can be interleaved. Gauges, the
    notifier and the data-WAL pass of the recovery are not modelled. *)

From Stdlib Require Import ZArith Lia Strings.Byte Sorting.Sorted.
From stdpp Require Import base list gmap.
From S2P Require Import Prelude WalPos EventRecord EventWal Lifecycle Checkpoint.

Local Open Scope Z_scope.

(** ** The coordinator *)

Record Coordinator := {
  co_registry : Registry;
  co_wal : option EventWal;
  co_last_folded : Z }.

Definition with_registry (c : Coordinator) (m : Registry) : Coordinator :=
  {| co_registry := m; co_wal := co_wal c; co_last_folded := co_last_folded c |}.

Definition with_wal (c : Coordinator) (w : EventWal) : Coordinator :=
  {| co_registry := co_registry c; co_wal := Some w; co_last_folded := co_last_folded c |}.

(** How the I/O of an append ends: a rotation that was due fails, the write
    fails after [kept] bytes, the record is written but its sync is not
    acknowledged, or it is durable. *)
Inductive append_io := RotateFailed | WriteFailed (kept : nat) | SyncFailed | Durable.

#[export] Instance append_io_eq_dec : EqDecision append_io.
Proof. solve_decision. Defined.

Section coordinator.
Context (crc32 : bytes -> Z).
Context (serialize : list ContainedObject -> option bytes).
Context (file_size_limit : Z).
Context (shard_for : SegmentId -> Z).
Context (delete_grace : Z).

(** The durable side effect. A failed write leaves the bytes that were written,
    a failed sync the record, in the file. *)
Definition append_event (c : Coordinator) (evt : SegmentEvent) (io : append_io)
    : Coordinator * outcome TransitionError EventWalPos :=
  match co_wal c with
  | None => (c, Err DurableWriteFailed)
  | Some w0 =>
      let '(w, pos) := ew_append crc32 serialize file_size_limit w0 evt in
      let written := with_wal c w in
      match io with
      | RotateFailed => (c, Err DurableWriteFailed)
      | WriteFailed kept => (with_wal c (ew_append_failed crc32 serialize file_size_limit w0 evt kept), Err DurableWriteFailed)
      | SyncFailed => (written, Err DurableWriteFailed)
      | Durable => (written, Ok pos)
      end
  end.

(** The fold after the append, and the published position. *)
Definition finish (c : Coordinator) (t : transition) (pos : EventWalPos)
    : Coordinator * outcome TransitionError unit :=
  match t with
  | (m, Ok _) => ({| co_registry := m; co_wal := co_wal c; co_last_folded := packed pos |}, Ok ())
  | (m, r) => (with_registry c m, r)
  end.

(** Validate, append, fold. The clock is read before the append and after it. *)
Definition durable_transition (c : Coordinator) (valid : outcome TransitionError unit)
    (evt : SegmentEvent) (io : append_io) (fold : Registry -> transition)
    : Coordinator * outcome TransitionError unit :=
  match valid with
  | Ok _ =>
      match append_event c evt io with
      | (c, Ok pos) => finish c (fold (co_registry c)) pos
      | (c, Err e) => (c, Err e)
      | (c, Panic) => (c, Panic)
      end
  | Err e => (c, Err e)
  | Panic => (c, Panic)
  end.

Definition request_reserve (id : SegmentId) (tier : SizeTier) (ec_k ec_m : byte)
    (t1 t2 : Z) (io : append_io) (c : Coordinator) : Coordinator * outcome TransitionError unit :=
  durable_transition c (validate_reserve id t1 (co_registry c))
    (Reserve {| rs_segment_id := id; rs_tier := tier; rs_ec_k := ec_k; rs_ec_m := ec_m |}) io
    (fold_reserve shard_for id (reserved_meta id tier ec_k ec_m) t2).

(** A repack never changes the storage shape. *)
Definition shape_mismatch (a b : SegmentMetadata) : bool :=
  negb (bool_decide (tier_to_u8 (sm_size_tier a) = tier_to_u8 (sm_size_tier b)))
  || negb (bool_decide (sm_ec_k a = sm_ec_k b)) || negb (bool_decide (sm_ec_m a = sm_ec_m b)).

Definition check_shape (meta : SegmentMetadata) (repacked_from : option SegmentId) (now : Z)
    (m : Registry) : outcome TransitionError unit :=
  match repacked_from with
  | Some old =>
      match get old now m with
      | Some e => if shape_mismatch (le_metadata e) meta then Err DurableWriteFailed else Ok ()
      | None => Ok ()
      end
  | None => Ok ()
  end.

Definition seal_event (id : SegmentId) (meta : SegmentMetadata) (root : HashOutput)
    (repacked_from : option SegmentId) (contained : option (list ContainedObject)) (m : Registry)
    : SegmentEvent :=
  Seal {| sl_segment_id := id; sl_tier := sm_size_tier meta; sl_ec_k := sm_ec_k meta;
          sl_ec_m := sm_ec_m meta; sl_merkle_root := root;
          sl_data_wal_pos :=
            default {| dp_file_seq := 0; dp_offset := 0 |} (last_data_wal_pos id m);
          sl_total_bytes := sm_total_bytes meta; sl_repacked_from := repacked_from;
          sl_pool_id := sm_pool_id meta; sl_contained_objects := contained |}.

Definition request_seal_with_contained (id : SegmentId) (meta : SegmentMetadata)
    (repacked_from : option SegmentId) (contained : option (list ContainedObject))
    (t1 t2 : Z) (io : append_io) (c : Coordinator) : Coordinator * outcome TransitionError unit :=
  let m := co_registry c in
  match validate_seal id t1 m, check_shape meta repacked_from t1 m, co_wal c with
  | Ok _, Ok _, Some _ =>
      match sm_merkle_root meta with
      | None => (c, Err DurableWriteFailed)
      | Some root =>
          durable_transition c (Ok ()) (seal_event id meta root repacked_from contained m) io
            (fold_seal shard_for id meta repacked_from contained t2)
      end
  | Ok _, Ok _, None => (c, Err DurableWriteFailed)
  | Ok _, r, _ => (c, r)
  | r, _, _ => (c, r)
  end.

Definition request_delete (id : SegmentId) (t1 t2 : Z) (io : append_io) (c : Coordinator)
    : Coordinator * outcome TransitionError unit :=
  durable_transition c (validate_delete id t1 (co_registry c))
    (Delete {| dl_segment_id := id |}) io (fold_delete shard_for delete_grace id t2).

Definition request_refresh_metadata (id : SegmentId) (root : option HashOutput)
    (locations : option (list NodeId)) (pool_id : option Z) (t1 t2 : Z) (io : append_io)
    (c : Coordinator) : Coordinator * outcome TransitionError unit :=
  match co_wal c with
  | None => (c, Err DurableWriteFailed)
  | Some _ =>
      durable_transition c
        (match get id t1 (co_registry c) with
         | None => Err Missing
         | Some e =>
             match le_state e with
             | Sealed => Ok ()
             | Reserved => Err NotReserved
             | Deleted => Err AlreadyDeleted
             end
         end)
        (MetadataRefresh {| rf_segment_id := id; rf_merkle_root := root;
                            rf_storage_locations := locations; rf_pool_id := pool_id |}) io
        (fold_refresh shard_for id root locations pool_id t2)
  end.

(** [persist_storage_locations] without the notifier. *)
Definition persist_storage_locations (id : SegmentId) (locations : list NodeId) (t0 t1 t2 : Z)
    (io : append_io) (c : Coordinator) : Coordinator * outcome TransitionError unit :=
  let root := e ← get id t0 (co_registry c); sm_merkle_root (le_metadata e) in
  request_refresh_metadata id root (Some locations) None t1 t2 io c.
End coordinator.

(** ** Recovery *)

Section recovery.
Context (shard_for : SegmentId -> Z).
Context (delete_grace : Z).

(** The metadata a Seal event is folded with. *)
Definition sealed_meta (evt : SealEvent) : SegmentMetadata :=
  {| sm_segment_id := sl_segment_id evt; sm_ec_k := sl_ec_k evt; sm_ec_m := sl_ec_m evt;
     sm_size_tier := sl_tier evt; sm_merkle_root := Some (sl_merkle_root evt);
     sm_storage_locations := []; sm_sealed_at := Some 0;
     sm_pool_id := sl_pool_id evt; sm_total_bytes := sl_total_bytes evt |}.

Definition fold_event (now : Z) (evt : SegmentEvent) (m : Registry) : transition :=
  match evt with
  | Reserve e =>
      reserve shard_for (rs_segment_id e)
        (reserved_meta (rs_segment_id e) (rs_tier e) (rs_ec_k e) (rs_ec_m e)) now m
  | Seal e =>
      seal_with shard_for (sl_segment_id e) (sealed_meta e) (sl_repacked_from e)
        (sl_contained_objects e) now
        (record_data_wal_pos (sl_segment_id e) (sl_data_wal_pos e) m)
  | Delete e => delete_segment shard_for delete_grace (dl_segment_id e) now m
  | MetadataRefresh e =>
      fold_refresh shard_for (rf_segment_id e) (rf_merkle_root e) (rf_storage_locations e)
        (rf_pool_id e) now m
  end.

(** The outcomes that the fold treats as the residue of a race. *)
Definition tolerated (e : TransitionError) : bool :=
  match e with AlreadySealed | AlreadyDeleted | Missing => true | _ => false end.

(** [Error::EventFoldError]: the position and the reason. *)
Definition EventFoldError : Type := EventWalPos * TransitionError.

(** The loop of [rebuild_from_events] over the events read, each with the time
    of its fold; the set collects the segments whose state was established. *)
Fixpoint rebuild_loop (items : list (Z * (EventWalPos * SegmentEvent))) (m : Registry)
    (folded : gset bytes) : outcome EventFoldError (Registry * gset bytes) :=
  match items with
  | [] => Ok (m, folded)
  | (now, (pos, evt)) :: items =>
      let '(m, r) := fold_event now evt m in
      match r with
      | Ok _ => rebuild_loop items m ({[event_segment_id evt]} ∪ folded)
      | Err e => if tolerated e then rebuild_loop items m folded else Err (pos, e)
      | Panic => Panic
      end
  end.

(** How the iteration over the log can end a rebuild. *)
Inductive RebuildError :=
  | FoldRejected (e : EventFoldError)
  | LogUnreadable (e : EventError).

(** [rebuild_from_events] on what the reader yields: the events, then the
    error that ended the iteration, if any. A torn tail ends the fold. *)
Definition rebuild_from_events (items : list (Z * (EventWalPos * SegmentEvent)))
    (log_error : option EventError) (m : Registry) : outcome RebuildError (Registry * nat) :=
  match rebuild_loop items m ∅ with
  | Ok (m, folded) =>
      match log_error with
      | None | Some (TornEventRecord _ _) => Ok (m, size folded)
      | Some e => Err (LogUnreadable e)
      end
  | Err e => Err (FoldRejected e)
  | Panic => Panic
  end.

(** [seed_from_checkpoint], which visits the entries in no particular order. *)
Definition seed_from_checkpoint (snapshot : Registry) (now : Z) (m : Registry) : Registry :=
  map_fold (fun id e m =>
    seed_entry shard_for id (le_state e) (le_metadata e) (le_data_wal_pos e) (le_repacked_from e) now m)
    m (live now snapshot).
End recovery.

(** ** What the log preserves *)

(** The part of an entry that survives a restart: the state, the storage
    shape, the Merkle root, the pool, the total, the compaction marker and the
    membership list, unless it was too large for its record. *)
Record DurableView := {
  dv_state : SegmentState; dv_ec_k : byte; dv_ec_m : byte; dv_tier : SizeTier;
  dv_root : option HashOutput; dv_pool : Z; dv_total : Z; dv_repacked : option SegmentId;
  dv_contained : option (list ContainedObject) }.

Section views.
Context (serialize : list ContainedObject -> option bytes).

Definition kept_membership (co : option (list ContainedObject)) : option (list ContainedObject) :=
  match membership_blob serialize co with Some _ => co | None => None end.

Definition durable_view (e : LifecycleEntry) : DurableView :=
  let meta := le_metadata e in
  {| dv_state := le_state e; dv_ec_k := sm_ec_k meta; dv_ec_m := sm_ec_m meta;
     dv_tier := sm_size_tier meta; dv_root := sm_merkle_root meta; dv_pool := sm_pool_id meta;
     dv_total := sm_total_bytes meta; dv_repacked := le_repacked_from e;
     dv_contained := kept_membership (le_contained_objects e) |}.

Definition views_agree (m m' : Registry) : Prop :=
  forall id, durable_view <$> m !! id = durable_view <$> m' !! id.

Lemma kept_membership_idem co : kept_membership (kept_membership co) = kept_membership co.
Proof. unfold kept_membership. by destruct (membership_blob serialize co) eqn:E; [rewrite E|]. Qed.

Lemma views_agree_insert m m' id e e' :
  views_agree m m' -> durable_view e = durable_view e' ->
  views_agree (<[id := e]> m) (<[id := e']> m').
Proof.
  intros H He id'. destruct (decide (id = id')) as [<-|Hne].
  - rewrite !lookup_insert_eq. cbn. by rewrite He.
  - by rewrite !lookup_insert_ne.
Qed.

Lemma views_agree_delete m m' id : views_agree m m' -> views_agree (delete id m) (delete id m').
Proof.
  intros H id'. destruct (decide (id = id')) as [<-|Hne];
    [by rewrite !lookup_delete_eq | by rewrite !lookup_delete_ne].
Qed.

Lemma views_agree_same_r m m' id e e' :
  views_agree m m' -> m' !! id = Some e -> durable_view e' = durable_view e ->
  views_agree m (<[id := e']> m').
Proof.
  intros H Hl He id'. rewrite H. destruct (decide (id = id')) as [<-|Hne].
  - rewrite lookup_insert_eq, Hl. cbn. by rewrite He.
  - by rewrite lookup_insert_ne.
Qed.

Lemma views_agree_lookup m m' id :
  views_agree m m' ->
  match m !! id, m' !! id with
  | Some e, Some e' => durable_view e = durable_view e'
  | None, None => True
  | _, _ => False
  end.
Proof. intros H. specialize (H id). destruct (m !! id), (m' !! id); try done. by apply (inj Some) in H. Qed.

Lemma durable_state e e' : durable_view e = durable_view e' -> le_state e = le_state e'.
Proof. intros H. by apply (f_equal dv_state) in H. Qed.
End views.

(** ** Folding an event mirrors the live transition *)

Section mirror.
Context (serialize : list ContainedObject -> option bytes).
Context (shard_for : SegmentId -> Z).

Notation agree := (views_agree serialize).
Notation view := (durable_view serialize).

(** [m] is the live registry, [m'] the one rebuilt so far. *)
Context (m m' : Registry).
Context (Hm : no_deleted m) (Hm' : no_deleted m') (Hagree : agree m m').

(** Both sides see the segment in the same state. *)
Ltac mirror id :=
  rewrite !evict_no_deleted by done;
  pose proof (views_agree_lookup serialize m m' id Hagree) as Hid;
  destruct (m !! id) as [e|] eqn:He, (m' !! id) as [e'|] eqn:He'; try contradiction;
  [pose proof (durable_state serialize e e' Hid) as Hst; rewrite <- ?Hst;
   pose proof (Hm id e He) as Hnd; destruct (le_state e) eqn:Hs; try (by destruct Hnd)|].

Definition mirrors (live rebuilt : transition) : Prop :=
  no_deleted live.1 /\ no_deleted rebuilt.1 /\ agree live.1 rebuilt.1 /\
  match rebuilt.2 with Ok _ => True | Err e => tolerated e = true | Panic => False end.

Lemma mirror_reserve id tier k km t t' :
  mirrors (fold_reserve shard_for id (reserved_meta id tier k km) t m)
    (fold_event shard_for 0 t' (Reserve {| rs_segment_id := id; rs_tier := tier; rs_ec_k := k; rs_ec_m := km |}) m').
Proof.
  unfold mirrors, fold_reserve, fold_event, reserve. cbn [rs_segment_id rs_tier rs_ec_k rs_ec_m].
  mirror id; cbn [fst snd]; split_and!; try done; try (by apply no_deleted_insert).
  by apply views_agree_insert.
Qed.

Lemma mirror_delete id t t' :
  mirrors (fold_delete shard_for 0 id t m)
    (fold_event shard_for 0 t' (Delete {| dl_segment_id := id |}) m').
Proof.
  unfold mirrors, fold_delete, fold_event, delete_segment. cbn [dl_segment_id Z.eqb].
  mirror id; cbn [fst snd]; split_and!; try done; try (by apply no_deleted_delete);
    by apply views_agree_delete.
Qed.

Lemma mirror_refresh id root locs pool t t' :
  (exists e, m !! id = Some e /\ le_state e = Sealed) ->
  mirrors (fold_refresh shard_for id root locs pool t m)
    (fold_event shard_for 0 t' (MetadataRefresh {| rf_segment_id := id; rf_merkle_root := root;
       rf_storage_locations := locs; rf_pool_id := pool |}) m').
Proof.
  intros (e0 & He0 & Hs0). unfold mirrors, fold_event, fold_refresh.
  cbn [rf_segment_id rf_merkle_root rf_storage_locations rf_pool_id].
  mirror id; simplify_eq; cbn [fst snd]; try congruence.
  split_and!; try done; try (apply no_deleted_insert; [done|]; cbn; congruence).
  apply views_agree_insert; [done|]. unfold durable_view, refresh_entry in *. cbn.
  f_equal; congruence.
Qed.

Lemma record_pos_view id pos :
  no_deleted (record_data_wal_pos id pos m') /\ agree m (record_data_wal_pos id pos m').
Proof.
  unfold record_data_wal_pos. destruct (m' !! id) as [e'|] eqn:He'; [|done].
  pose proof (Hm' id e' He'). rewrite bool_decide_false by done. split.
  - by apply no_deleted_insert.
  - by eapply views_agree_same_r.
Qed.
End mirror.

Lemma mirror_seal serialize shard_for m m' id meta root repacked contained t t' :
  no_deleted m -> no_deleted m' -> views_agree serialize m m' ->
  sm_merkle_root meta = Some root ->
  mirrors serialize (fold_seal shard_for id meta repacked contained t m)
    (fold_event shard_for 0 t' (stored serialize (seal_event id meta root repacked contained m)) m').
Proof.
  intros Hm Hm' Hagree Hroot. unfold stored, seal_event, fold_event. 
  cbn [sl_segment_id sl_data_wal_pos sl_repacked_from sl_contained_objects].
  destruct (record_pos_view serialize m m' Hm' Hagree id
    (default {| dp_file_seq := 0; dp_offset := 0 |} (last_data_wal_pos id m))) as [Hd Ha].
  set (m1 := record_data_wal_pos _ _ m') in *. clearbody m1. clear m' Hm' Hagree.
  unfold mirrors, fold_seal, seal_with. rewrite !evict_no_deleted by done.
  pose proof (views_agree_lookup serialize m m1 id Ha) as Hid.
  destruct (m !! id) as [e|] eqn:He, (m1 !! id) as [e'|] eqn:He'; try contradiction; [|done].
  rewrite <- (durable_state serialize e e' Hid). pose proof (Hm id e He) as Hnd.
  destruct (le_state e); cbn [fst snd]; [|done|done].
  split_and!; try done; try (by apply no_deleted_insert).
  apply views_agree_insert; [done|]. unfold durable_view, seal_entry, sealed_meta. cbn.
  rewrite Hroot. f_equal. symmetry. apply kept_membership_idem.
Qed.

(** The recorded data-WAL positions are within their integer types. *)
Definition positions_typed (m : Registry) : Prop :=
  forall id e p, m !! id = Some e -> le_data_wal_pos e = Some p ->
    is_u32 (dp_file_seq p) /\ is_u64 (dp_offset p).

Lemma positions_typed_insert m id e :
  positions_typed m ->
  (forall p, le_data_wal_pos e = Some p -> is_u32 (dp_file_seq p) /\ is_u64 (dp_offset p)) ->
  positions_typed (<[id := e]> m).
Proof. intros H He id' e' p. rewrite lookup_insert_Some. intros [[_ <-]|[_ Hl]]; [apply He | by eapply H]. Qed.

Lemma positions_typed_delete m id : positions_typed m -> positions_typed (delete id m).
Proof. intros H id' e' p. rewrite lookup_delete_Some. intros [_ Hl]. by eapply H. Qed.

(** No transition changes a recorded position. *)
Lemma transitions_typed shard_for m id t :
  no_deleted m -> positions_typed m ->
  (forall meta, positions_typed (reserve shard_for id meta t m).1) /\
  (forall meta rep cont, positions_typed (seal_with shard_for id meta rep cont t m).1) /\
  positions_typed (delete_segment shard_for 0 id t m).1 /\
  (forall root locs pool, positions_typed (fold_refresh shard_for id root locs pool t m).1).
Proof.
  intros Hnd Hty.
  assert (Hins : forall e e', m !! id = Some e -> le_data_wal_pos e' = le_data_wal_pos e ->
    positions_typed (<[id := e']> m)).
  { intros e e' He Hp. apply positions_typed_insert; [done|]. intros p. rewrite Hp. by eapply Hty. }
  unfold reserve, seal_with, delete_segment, fold_refresh. rewrite evict_no_deleted by done.
  destruct (m !! id) as [e|] eqn:He; [destruct (le_state e)|]; cbn [fst Z.eqb];
    split_and!; intros; try done; try (by apply Hins with e); try (by apply positions_typed_delete).
  by apply positions_typed_insert.
Qed.

(** ** Runs of requests *)

(** What the rest of the node asks of the coordinator. *)
Inductive request :=
  | RqReserve (id : SegmentId) (tier : SizeTier) (ec_k ec_m : byte)
  | RqSeal (id : SegmentId) (meta : SegmentMetadata) (repacked_from : option SegmentId)
      (contained : option (list ContainedObject))
  | RqDelete (id : SegmentId)
  | RqRefresh (id : SegmentId) (root : option HashOutput) (locations : option (list NodeId))
      (pool_id : option Z)
  | RqDataPos (id : SegmentId) (pos : DataWalPos).

(** A request with the clock at its validation and its fold, and the I/O of
    its append. *)
Record call := { cl_request : request; cl_t1 : Z; cl_t2 : Z; cl_io : append_io }.

(** The types of the Rust arguments, and the bounds of a refresh record. *)
Definition request_ok (rq : request) : Prop :=
  match rq with
  | RqReserve id _ _ _ | RqDelete id => length id = 16%nat
  | RqSeal id meta rep _ =>
      length id = 16%nat /\ (forall r, sm_merkle_root meta = Some r -> length r = 32%nat) /\
      is_u64 (sm_total_bytes meta) /\ is_u32 (sm_pool_id meta) /\
      (forall old, rep = Some old -> length old = 16%nat)
  | RqRefresh id root locs pool =>
      event_ok (MetadataRefresh {| rf_segment_id := id; rf_merkle_root := root;
                                   rf_storage_locations := locs; rf_pool_id := pool |})
  | RqDataPos _ pos => is_u32 (dp_file_seq pos) /\ is_u64 (dp_offset pos)
  end.

(** The append is durable, or fails with none of its bytes in the file. *)
Definition clean_io (io : append_io) : Prop :=
  match io with RotateFailed | WriteFailed O | Durable => True | WriteFailed (S _) | SyncFailed => False end.

(** A well-typed call whose append, if any of it is written, is acknowledged. *)
Definition call_ok (cl : call) : Prop := request_ok (cl_request cl) /\ clean_io (cl_io cl).

Section runs.
Context (crc32 : bytes -> Z) (crc32_range : forall bs, is_u32 (crc32 bs)).
Context (serialize : list ContainedObject -> option bytes).
Context (deserialize : bytes -> option (list ContainedObject)).
Context (deserialize_serialize : forall l b, serialize l = Some b -> deserialize b = Some l).
Context (file_size_limit : Z).
Context (shard_for : SegmentId -> Z).

Definition run_call (delete_grace : Z) (cl : call) (c : Coordinator)
    : Coordinator * outcome TransitionError unit :=
  let t1 := cl_t1 cl in let t2 := cl_t2 cl in let io := cl_io cl in
  match cl_request cl with
  | RqReserve id tier k m =>
      request_reserve crc32 serialize file_size_limit shard_for id tier k m t1 t2 io c
  | RqSeal id meta rep cont =>
      request_seal_with_contained crc32 serialize file_size_limit shard_for id meta rep cont t1 t2 io c
  | RqDelete id =>
      request_delete crc32 serialize file_size_limit shard_for delete_grace id t1 t2 io c
  | RqRefresh id root locs pool =>
      request_refresh_metadata crc32 serialize file_size_limit shard_for id root locs pool t1 t2 io c
  | RqDataPos id pos => (with_registry c (record_data_wal_pos id pos (co_registry c)), Ok ())
  end.

Fixpoint run_calls (delete_grace : Z) (cls : list call) (c : Coordinator) : Coordinator :=
  match cls with
  | [] => c
  | cl :: cls => run_calls delete_grace cls (run_call delete_grace cl c).1
  end.

(** Whatever the clock reads at each fold, the log [log] rebuilds [m]. *)
Definition rebuilds (log : list (EventWalPos * SegmentEvent)) (m : Registry) : Prop :=
  forall ts, length ts = length log ->
    exists m' folded, rebuild_loop shard_for 0 (zip ts log) ∅ ∅ = Ok (m', folded) /\
      no_deleted m' /\ views_agree serialize m m'.

Definition record_max : Z := 32 + MAX_PAYLOAD_SIZE.

(** The invariant of a run of [n] requests with no retention of deleted entries. *)
Definition coord_inv (n : Z) (c : Coordinator) : Prop :=
  exists w fs, co_wal c = Some w /\ wal_inv crc32 serialize w fs /\
    ew_file_seq w <= n /\ total_size crc32 serialize fs <= n * record_max /\
    head (fst <$> fs) = Some 0 /\
    no_deleted (co_registry c) /\ positions_typed (co_registry c) /\
    rebuilds (log_of crc32 serialize fs) (co_registry c).

Lemma rebuild_loop_snoc l x : forall m folded m1 folded1,
  rebuild_loop shard_for 0 l m folded = Ok (m1, folded1) ->
  rebuild_loop shard_for 0 (l ++ [x]) m folded = rebuild_loop shard_for 0 [x] m1 folded1.
Proof.
  induction l as [|[now [pos evt]] l IH]; intros m folded m1 folded1; cbn [rebuild_loop app].
  - by intros [= -> ->].
  - destruct (fold_event _ _ _ _ _) as [m2 [v|e|]]; [by apply IH| |done].
    destruct (tolerated e); [by apply IH | done].
Qed.

Lemma rebuilds_snoc log m pos evt live :
  rebuilds log m ->
  (forall t' m', no_deleted m' -> views_agree serialize m m' ->
     mirrors serialize live (fold_event shard_for 0 t' evt m')) ->
  rebuilds (log ++ [(pos, evt)]) live.1.
Proof.
  intros Hlog Hmir ts Hts. rewrite length_app in Hts.
  destruct ts as [|t' ts0 _] using rev_ind; [cbn in Hts; lia|].
  rewrite length_app in Hts. cbn in Hts.
  destruct (Hlog ts0 ltac:(lia)) as (m1 & f1 & Hl & Hnd & Hag).
  rewrite zip_with_app by lia. cbn [zip_with]. rewrite (rebuild_loop_snoc _ _ _ _ _ _ Hl).
  cbn [rebuild_loop]. destruct (Hmir t' m1 Hnd Hag) as (_ & Hnd' & Hag' & Hres).
  destruct (fold_event _ _ _ _ _) as [m2 [v|e|]]; cbn [fst snd] in *; [by eauto| |done].
  rewrite Hres. by eauto.
Qed.

Lemma coord_inv_mono n n' c : n <= n' -> coord_inv n c -> coord_inv n' c.
Proof.
  intros Hle (w & fs & Hw & Hinv & Hseq & Htot & H). exists w, fs.
  assert (0 < record_max) by (by vm_compute). split_and!; [done|done|lia|nia|apply H..].
Qed.

Lemma failed_write_inv n c w evt :
  coord_inv n c -> co_wal c = Some w -> n + 1 <= u32_max ->
  coord_inv (n + 1) (with_wal c (ew_append_failed crc32 serialize file_size_limit w evt 0)).
Proof.
  intros (w1 & fs & Hw & Hinv & Hseq & Htot & Hhd & Hnd & Hty & Hreb) Hw1 Hn. assert (w1 = w) as -> by congruence.
  destruct (append_failed_inv crc32 serialize file_size_limit w fs evt Hinv ltac:(lia))
    as (fs' & Hinv' & Hlog & Ht & Hs & Hh).
  assert (0 < record_max) by (by vm_compute).
  eexists _, fs'. rewrite Hlog, Ht, Hh. cbn [with_wal co_wal co_registry]. split_and!; done || nia.
Qed.

(** A durable transition whose fold the recovery mirrors keeps the invariant,
    whether it is accepted, refused or not written. *)
Lemma durable_step n c valid evt io fold :
  coord_inv n c -> n + 1 <= u32_max -> clean_io io ->
  (valid = Ok () -> event_ok evt /\ positions_typed (fold (co_registry c)).1 /\
     forall t' m', no_deleted m' -> views_agree serialize (co_registry c) m' ->
       mirrors serialize (fold (co_registry c)) (fold_event shard_for 0 t' (stored serialize evt) m')) ->
  coord_inv (n + 1) (durable_transition crc32 serialize file_size_limit c valid evt io fold).1.
Proof.
  intros Hc Hn Hio Hvalid. unfold durable_transition.
  destruct valid as [[]|e|]; [|apply (coord_inv_mono n); [lia|done]..].
  unfold append_event. pose proof Hc as (w & fs & Hw & Hinv & Hseq & Htot & Hhd & Hnd & Hty & Hreb).
  rewrite Hw. destruct (ew_append crc32 serialize file_size_limit w evt) as [w' pos] eqn:Ew.
  destruct io as [|[|kept]| |]; [apply (coord_inv_mono n); [lia|done]| |done|done|].
  { by apply failed_write_inv. }
  destruct (Hvalid eq_refl) as (Hok & Hty' & Hmir).
  destruct (Hmir 0 (co_registry c) Hnd ltac:(done)) as (Hnd' & _).
  assert (Hlen : Z.of_nat (length (to_record_bytes crc32 serialize evt)) <= record_max).
  { rewrite length_record by done. unfold record_max.
    pose proof (payload_bound serialize deserialize deserialize_serialize evt Hok). lia. }
  assert (Hbig : (n + 1) * record_max <= u64_max).
  { transitivity (u32_max * record_max); [|by vm_compute]. assert (0 < record_max) by (by vm_compute). nia. }
  pose proof (append_inv crc32 serialize file_size_limit w fs evt Hinv Hok ltac:(lia) ltac:(lia)) as Happ.
  rewrite Ew in Happ. destruct Happ as (fs' & Hinv' & Hlog & Ht & Hseq' & Hhd'). cbn [with_wal co_registry].
  assert (Hreb' : rebuilds (log_of crc32 serialize fs') (fold (co_registry c)).1)
    by (rewrite Hlog; by apply rebuilds_snoc with (co_registry c)).
  destruct (fold (co_registry c)) as [m r]. cbn [fst] in *. unfold finish.
  exists w', fs'. destruct r; cbn [fst with_registry with_wal co_wal co_registry]; rewrite Hhd'; split_and!; done || lia.
Qed.

Lemma record_pos_inv n c id pos :
  coord_inv n c -> is_u32 (dp_file_seq pos) -> is_u64 (dp_offset pos) ->
  coord_inv n (with_registry c (record_data_wal_pos id pos (co_registry c))).
Proof.
  intros (w & fs & Hw & Hinv & Hseq & Htot & Hhd & Hnd & Hty & Hreb) H1 H2.
  exists w, fs. cbn [with_registry co_wal co_registry].
  destruct (record_pos_view serialize (co_registry c) (co_registry c) Hnd ltac:(done) id pos) as [Hnd' Hag].
  split_and!; try done.
  - unfold record_data_wal_pos. destruct (co_registry c !! id) as [e|] eqn:He; [|done].
    case_bool_decide; [done|]. apply positions_typed_insert; [done|]. intros p [= <-].
    destruct (le_data_wal_pos e) as [q|] eqn:Hq; [|done].
    unfold data_pos_max. destruct (data_pos_le q pos); [done|]. by eapply Hty.
  - intros ts Hts. destruct (Hreb ts Hts) as (m' & f & Hl & Hn' & Ha). exists m', f.
    split_and!; [done..|]. intros id'. by rewrite <- Hag.
Qed.

Lemma reserve_inv n c id tier k km t1 t2 io :
  coord_inv n c -> n + 1 <= u32_max -> clean_io io -> length id = 16%nat ->
  coord_inv (n + 1) (request_reserve crc32 serialize file_size_limit shard_for id tier k km t1 t2 io c).1.
Proof.
  intros Hc Hn Hio Hid. pose proof Hc as (w & fs & _ & _ & _ & _ & _ & Hnd & Hty & _).
  apply durable_step; [done..|]. intros _. split_and!; [done..|by apply transitions_typed|].
  intros t' m' Hnd' Hag. by apply mirror_reserve.
Qed.

Lemma delete_inv n c id t1 t2 io :
  coord_inv n c -> n + 1 <= u32_max -> clean_io io -> length id = 16%nat ->
  coord_inv (n + 1) (request_delete crc32 serialize file_size_limit shard_for 0 id t1 t2 io c).1.
Proof.
  intros Hc Hn Hio Hid. pose proof Hc as (w & fs & _ & _ & _ & _ & _ & Hnd & Hty & _).
  apply durable_step; [done..|]. intros _. split_and!; [done..|by apply transitions_typed|].
  intros t' m' Hnd' Hag. by apply mirror_delete.
Qed.

Lemma refresh_inv n c id root locs pool t1 t2 io :
  coord_inv n c -> n + 1 <= u32_max -> clean_io io -> request_ok (RqRefresh id root locs pool) ->
  coord_inv (n + 1) (request_refresh_metadata crc32 serialize file_size_limit shard_for
    id root locs pool t1 t2 io c).1.
Proof.
  intros Hc Hn Hio Hok. pose proof Hc as (w & fs & Hw & _ & _ & _ & _ & Hnd & Hty & _).
  unfold request_refresh_metadata. rewrite Hw. apply durable_step; [done..|]. intros Hv.
  split_and!; [apply Hok.. |by apply transitions_typed|].
  intros t' m' Hnd' Hag. apply mirror_refresh; [done..|].
  unfold get in Hv. destruct (co_registry c !! id) as [e|]; [|done]. cbn [mbind option_bind] in Hv.
  destruct (deleted_expired e t1); [done|]. exists e. by destruct (le_state e).
Qed.

Lemma seal_inv n c id meta rep cont t1 t2 io :
  coord_inv n c -> n + 1 <= u32_max -> clean_io io -> request_ok (RqSeal id meta rep cont) ->
  coord_inv (n + 1) (request_seal_with_contained crc32 serialize file_size_limit shard_for
    id meta rep cont t1 t2 io c).1.
Proof.
  intros Hc Hn Hio (Hid & Hroot & Htot & Hpool & Hrep).
  assert (Hc' : coord_inv (n + 1) c) by (apply (coord_inv_mono n); [lia|done]).
  pose proof Hc as (w & fs & Hw & _ & _ & _ & _ & Hnd & Hty & _).
  unfold request_seal_with_contained. rewrite Hw.
  destruct (validate_seal _ _ _); [|done..]. destruct (check_shape _ _ _ _); [|done..].
  destruct (sm_merkle_root meta) as [root|] eqn:Er; [|done].
  apply durable_step; [done..|]. intros _. split_and!; [|by apply transitions_typed|].
  - assert (Hp : forall p, last_data_wal_pos id (co_registry c) = Some p ->
      is_u32 (dp_file_seq p) /\ is_u64 (dp_offset p)).
    { unfold last_data_wal_pos. intros p. destruct (co_registry c !! id) eqn:E; [|done]. by apply Hty with id. }
    split; [done|]. cbn. destruct (last_data_wal_pos _ _) as [p|]; cbn [default].
    + destruct (Hp p eq_refl). split_and!; try done. by apply Hroot.
    + split_and!; try done. by apply Hroot.
  - intros t' m' Hnd' Hag. by apply mirror_seal.
Qed.

Lemma run_calls_inv cls : forall n c,
  coord_inv n c -> Forall call_ok cls ->
  n + Z.of_nat (length cls) <= u32_max ->
  coord_inv (n + Z.of_nat (length cls)) (run_calls 0 cls c).
Proof.
  induction cls as [|cl cls IH]; intros n c Hc Hall Hn; cbn [run_calls length] in *.
  - by rewrite Z.add_0_r.
  - inversion Hall as [|? ? [Hok Hio] Hall']; subst.
    replace (n + Z.of_nat (S (length cls))) with ((n + 1) + Z.of_nat (length cls)) by lia.
    apply IH; [|done|lia]. unfold run_call. destruct (cl_request cl).
    + apply reserve_inv; [done|lia|done..].
    + apply seal_inv; [done|lia|done..].
    + apply delete_inv; [done|lia|done..].
    + apply refresh_inv; [done|lia|done..].
    + apply (coord_inv_mono n); [lia|]. by apply record_pos_inv; [|apply Hok..].
Qed.

Lemma recover_inv n c torn :
  coord_inv n c -> n + 1 <= u32_max -> torn_record crc32 serialize torn ->
  exists w w', co_wal c = Some w /\
    ew_open crc32 deserialize (file_append (ew_disk w) (ew_file_seq w) torn) = Some (Ok w') /\
    exists log p,
      read_events crc32 deserialize (ew_disk w') (read_fuel (ew_disk w'))
        (read_from {| ep_file_seq := 0; ep_offset := 0 |}) = Some (log, None, p) /\
      rebuilds log (co_registry c).
Proof.
  intros (w & fs & Hw & Hinv & Hseq & Htot & Hhd & Hnd & Hty & Hreb) Hn Htorn.
  assert (Hlen : Z.of_nat (length torn) <= record_max).
  { destruct Htorn as (e & k & He & Hk & ->). rewrite length_take, length_record by done.
    rewrite length_record in Hk by done. unfold record_max.
    pose proof (payload_bound serialize deserialize deserialize_serialize e He). lia. }
  assert (Hbig : (n + 1) * record_max <= u64_max).
  { transitivity (u32_max * record_max); [|by vm_compute]. assert (0 < record_max) by (by vm_compute). nia. }
  destruct (reopen_after_crash crc32 crc32_range serialize deserialize deserialize_serialize w fs torn)
    as (w' & Hopen & Hinv'); [done..|lia|].
  exists w, w'. split_and!; [done..|]. rewrite (inv_disk _ _ _ _ Hinv').
  destruct fs as [|[s es] fs]; [done|]. injection Hhd as ->.
  exists (log_of crc32 serialize ((0, es) :: fs)). eexists. split; [|done].
  apply (read_from_boundary crc32 crc32_range serialize deserialize deserialize_serialize [] 0 [] es fs).
  apply Hinv.
Qed.
End runs.

Definition fresh_coordinator (w : EventWal) : Coordinator :=
  {| co_registry := ∅; co_wal := Some w; co_last_folded := 0 |}.


Definition sample_sealed (b : byte) : SegmentMetadata :=
  {| sm_segment_id := seg b; sm_ec_k := x04; sm_ec_m := x02; sm_size_tier := Standard;
     sm_merkle_root := Some (replicate 32 b); sm_storage_locations := []; sm_sealed_at := Some 7;
     sm_pool_id := 1; sm_total_bytes := 4096 |}.

Definition call_at (t : Z) (rq : request) : call :=
  {| cl_request := rq; cl_t1 := t; cl_t2 := t; cl_io := Durable |}.

(** Two segments: one sealed and refreshed, one deleted; a refused seal; a
    reserve that is not written. *)
Definition sample_calls : list call :=
  [call_at 1 (RqReserve (seg x01) Standard x04 x02);
   call_at 2 (RqReserve (seg x02) Standard x04 x02);
   call_at 3 (RqDataPos (seg x01) {| dp_file_seq := 0; dp_offset := 512 |});
   call_at 4 (RqSeal (seg x01) (sample_sealed x01) None None);
   call_at 5 (RqRefresh (seg x01) (Some (replicate 32 x09)) None (Some 2));
   call_at 6 (RqDelete (seg x02));
   call_at 7 (RqSeal (seg x02) (sample_sealed x02) None None);
   {| cl_request := RqReserve (seg x03) Standard x04 x02; cl_t1 := 8; cl_t2 := 8; cl_io := WriteFailed 0 |}].


(** ** Seeding from a checkpoint *)

(** What a restart that finds a checkpoint restores of an entry. *)
Definition seeded (now : Z) (e : LifecycleEntry) : LifecycleEntry :=
  {| le_state := le_state e; le_metadata := le_metadata e;
     le_data_wal_pos := le_data_wal_pos e; le_repacked_from := le_repacked_from e;
     le_contained_objects := None; le_evict_at := now; le_in_flight := None;
     le_seal_queued := false; le_writer_count := 0 |}.

Lemma seed_into_empty shard_for snapshot now :
  seed_from_checkpoint shard_for snapshot now ∅ = seeded now <$> live now snapshot.
Proof.
  unfold seed_from_checkpoint.
  assert (Hnd : no_deleted (live now snapshot)) by (intros id e He; by apply live_lookup in He as [_ ?]).
  revert Hnd. generalize (live now snapshot). intros s.
  apply (map_fold_weak_ind (fun (r : Registry) (s : Registry) => no_deleted s -> r = seeded now <$> s)).
  - intros _. by rewrite fmap_empty.
  - intros id e s' r Hid IH Hnd.
    assert (Hnd' : no_deleted s').
    { intros id' e' He'. apply (Hnd id'). rewrite lookup_insert_ne; [done|]. intros ->. congruence. }
    rewrite (IH Hnd'). unfold seed_entry. rewrite evict_no_deleted.
    + rewrite lookup_fmap, Hid, fmap_insert. done.
    + intros id' e'. rewrite lookup_fmap_Some. intros (e0 & <- & He0). exact (Hnd' id' e0 He0).
Qed.

(** A restart from a checkpoint restores exactly the live entries of the
    registry [m] at the checkpoint: the deleted ones are absent, a sealed one
    gets back its metadata, data-WAL position and compaction marker, a reserved
    one its metadata. But no entry gets back its membership list, although the
    loaded snapshot has it: [seed_entry] has no argument for it. *)
Theorem checkpoint_restores_all_but_membership (shard_for : SegmentId -> Z) (m : Registry)
    (t t' now : Z) (id : SegmentId) :
  let snapshot := snapshot_entry t' <$> live t m in
  match seed_from_checkpoint shard_for snapshot now ∅ !! id, m !! id with
  | None, e => e = None \/ le_state <$> e = Some Deleted
  | Some r, Some e =>
      le_state r = le_state e /\ le_state e <> Deleted /\ le_metadata r = le_metadata e /\
      (le_state e = Sealed ->
         le_data_wal_pos r = Some (default no_pos (le_data_wal_pos e)) /\
         le_repacked_from r = le_repacked_from e /\
         le_contained_objects <$> snapshot !! id
           = Some match le_contained_objects e with Some [] => None | co => co end) /\
      le_contained_objects r = None
  | Some _, None => False
  end.
Proof.
  cbn zeta. rewrite seed_into_empty, lookup_fmap.
  set (snap := _ <$> live t m).
  assert (Hsnap : snap !! id = snapshot_entry t' <$> (live t m !! id)) by apply lookup_fmap.
  destruct (live t m !! id) as [e|] eqn:He; cbn [fmap option_fmap option_map] in Hsnap.
  - apply live_lookup in He as [He Hs]. rewrite He, Hsnap.
    assert (Hl : live now snap !! id = Some (snapshot_entry t' e))
      by (apply live_lookup; split; [done | by apply snapshot_entry_live]).
    rewrite Hl. cbn. unfold snapshot_entry. by destruct (le_state e) eqn:E; split_and!.
  - destruct (live now snap !! id) as [r|] eqn:Hr; [apply live_lookup in Hr as [Hr _]; congruence|].
    cbn. destruct (m !! id) as [e|] eqn:Hc; [right|by left].
    destruct (decide (le_state e = Deleted)) as [E|E]; [cbn; by rewrite E|].
    assert (live t m !! id = Some e) by (by apply live_lookup). congruence.
Qed.

(** ** Races between requests *)

Inductive BootError :=
  | CheckpointUnsupported (e : LoadError)
  | RecoveryFailed (e : RebuildError).

Section races.
Context (crc32 : bytes -> Z).
Context (serialize : list ContainedObject -> option bytes).
Context (deserialize : bytes -> option (list ContainedObject)).
Context (ser_meta : SegmentMetadata -> option bytes) (de_meta : bytes -> option SegmentMetadata).
Context (limit : Z) (shard_for : SegmentId -> Z).

Definition reserve_record (id : SegmentId) : SegmentEvent :=
  Reserve {| rs_segment_id := id; rs_tier := Standard; rs_ec_k := x04; rs_ec_m := x02 |}.

Definition fold_reserved (id : SegmentId) (now : Z) : Registry -> transition :=
  fold_reserve shard_for id (reserved_meta id Standard x04 x02) now.

(** The checkpoint that [maybe_checkpoint] writes: it covers the position
    published last. *)
Definition maybe_checkpoint (now : Z) (c : Coordinator) (dir : Directory)
    : outcome SnapshotError Directory :=
  write_checkpoint crc32 ser_meta serialize (map_to_list (live now (co_registry c)))
    (from_packed (co_last_folded c)) dir.

(** Two reserves run concurrently: both append, the second folds first and
    publishes its position, a checkpoint is taken there, and only then does
    the first one fold and return. It is sealed next, before the crash. *)
Definition overlapping_reserves (a b : SegmentId) (c : Coordinator)
    : outcome TransitionError (Coordinator * outcome SnapshotError Directory) :=
  match append_event crc32 serialize limit c (reserve_record a) Durable with
  | (c, Ok pos_a) =>
      match append_event crc32 serialize limit c (reserve_record b) Durable with
      | (c, Ok pos_b) =>
          let c := (finish c (fold_reserved b 1 (co_registry c)) pos_b).1 in
          let checkpoint := maybe_checkpoint 2 c [] in
          let c := (finish c (fold_reserved a 3 (co_registry c)) pos_a).1 in
          let c := (request_seal_with_contained crc32 serialize limit shard_for a
                      (sample_sealed x01) None None 4 4 Durable c).1 in
          Ok (c, checkpoint)
      | (_, Err e) => Err e
      | (_, Panic) => Panic
      end
  | (_, Err e) => Err e
  | (_, Panic) => Panic
  end.

(** A restart, as [StorageModule::run_startup_recovery] begins: seed from the
    newest checkpoint, if there is one, and fold the log from its position. *)
Definition restart (delete_grace now : Z) (dir : Directory) (d : Disk)
    : option (outcome BootError (Registry * nat)) :=
  let fold_from m pos :=
    '(log, err, _) ← read_events crc32 deserialize d (read_fuel d) (read_from pos);
    Some (match rebuild_from_events shard_for delete_grace ((fun x => (now, x)) <$> log) err m with
          | Ok r => Ok r
          | Err e => Err (RecoveryFailed e)
          | Panic => Panic
          end) in
  match load_checkpoint crc32 de_meta deserialize shard_for now dir with
  | Ok (Some (snapshot, covered)) => fold_from (seed_from_checkpoint shard_for snapshot now ∅) covered
  | Ok None => fold_from ∅ {| ep_file_seq := 0; ep_offset := 0 |}
  | Err e => Some (Err (CheckpointUnsupported e))
  | Panic => Some Panic
  end.

(** A seal that is validated before a delete of the same segment and appended
    after it; its fold is refused, but its record is in the log. *)
Definition seal_after_delete (delete_grace : Z) (id : SegmentId) (c : Coordinator)
    : Coordinator * outcome TransitionError unit :=
  let c := (request_reserve crc32 serialize limit shard_for id Standard x04 x02 1 1 Durable c).1 in
  let valid := validate_seal id 2 (co_registry c) in
  let evt := seal_event id (sample_sealed x01) (replicate 32 x01) None None (co_registry c) in
  let c := (request_delete crc32 serialize limit shard_for delete_grace id 3 3 Durable c).1 in
  durable_transition crc32 serialize limit c valid evt Durable
    (fold_seal shard_for id (sample_sealed x01) None None 4).
End races.

Definition state_of (m : Registry) (id : SegmentId) : option SegmentState := le_state <$> m !! id.

Definition fresh_wal : EventWal :=
  match ew_open toy_crc toy_deserialize [] with Some (Ok w) => w | _ => empty_wal end.

(** A checkpoint can lose a sealed segment. Two overlapping reserves fold
    in the other order than they were appended; the checkpoint taken between
    the two folds covers the position of the later one. The first segment is
    then reserved, sealed and acknowledged, yet after a restart from that
    checkpoint the fold succeeds and the segment is absent: its reserve lies
    before the covered position and its seal is skipped as a race residue. *)
Theorem checkpoint_race_loses_sealed_segment :
  match overlapping_reserves toy_crc toy_serialize toy_ser_meta 4096 one_shard (seg x01) (seg x02)
          (fresh_coordinator fresh_wal) with
  | Ok (c, Ok dir) =>
      state_of (co_registry c) (seg x01) = Some Sealed /\
      state_of (co_registry c) (seg x02) = Some Reserved /\
      match w ← co_wal c; restart toy_crc toy_deserialize toy_de_meta one_shard 0 9 dir (ew_disk w) with
      | Some (Ok (m, _)) => state_of m (seg x01) = None /\ state_of m (seg x02) = Some Reserved
      | _ => False
      end
  | _ => False
  end.
Proof. vm_compute. by split_and!. Qed.

(** With a positive retention of deleted entries, one refused request
    stops the next recovery. A seal validated before a delete of its segment
    and appended after it is refused by the registry, but its record stays in
    the log, and a recovery that folds it within the retention period aborts
    with [NotReserved]; without retention the same requests leave a log that
    folds. *)
Theorem seal_delete_race_aborts_recovery :
  let run grace := seal_after_delete toy_crc toy_serialize 4096 one_shard grace (seg x01)
                     (fresh_coordinator fresh_wal) in
  let recover grace := w ← co_wal (run grace).1;
    restart toy_crc toy_deserialize toy_de_meta one_shard grace 9 [] (ew_disk w) in
  (run 50).2 = Err NotReserved /\
  match recover 50 with Some (Err (RecoveryFailed (FoldRejected (_, e)))) => e = NotReserved | _ => False end /\
  (run 0).2 = Err Missing /\
  match recover 0 with Some (Ok (m, _)) => state_of m (seg x01) = None | _ => False end.
Proof. vm_compute. by split_and!. Qed.

(** A reserve whose write fails after [kept] bytes, then one that succeeds. *)
Definition reserve_after_failed_write (kept : nat) : Coordinator * outcome TransitionError unit :=
  let reserve id io c := request_reserve toy_crc toy_serialize 4096 one_shard id Standard x04 x02 1 1 io c in
  reserve (seg x02) Durable (reserve (seg x01) (WriteFailed kept) (fresh_coordinator fresh_wal)).1.

(** A write that fails half-way stops the recovery for good. Its bytes stay
    in the file, the next record is appended after them and acknowledged, and
    a restart finds a damaged record that is not at the end of the log: the
    fold is refused and the acknowledged segment is not restored. Had the
    write failed before its first byte, the segment would be restored. *)
Theorem partial_write_stops_recovery :
  let recover kept := w ← co_wal (reserve_after_failed_write kept).1;
    restart toy_crc toy_deserialize toy_de_meta one_shard 0 9 [] (ew_disk w) in
  (reserve_after_failed_write 10).2 = Ok () /\
  match recover 10%nat with
  | Some (Err (RecoveryFailed (LogUnreadable (CorruptEventLog pos _)))) => ep_offset pos = 0
  | _ => False
  end /\
  match recover 0%nat with Some (Ok (m, _)) => state_of m (seg x02) = Some Reserved | _ => False end.
Proof. vm_compute. by split_and!. Qed.
