(* ===== verification/Merkle.v ===== *)
(** * Merkle trees over segment data
      (crates/oceanfs-durability/src/anti_entropy/merkle_tree.rs,
       merkle_proof.rs, merkle_root.rs)

    Construction, the two ways to find diverged leaves, proofs and their
    verification. A hash value is an abstract type with decidable equality;
    BLAKE3 of a leaf and of two concatenated hashes are parameters. Indexing
    out of range panics, as in the code. *)

From Stdlib Require Import ZArith Lia Strings.Byte Sorting.Sorted.
From stdpp Require Import base list sorting.
From S2P Require Import Prelude.

(** A computation that cannot fail but can panic. *)
Notation panics A := (outcome Empty_set A).

Record LeafRange := { lr_start : nat; lr_end : nat }.

Record MerkleRoot {H : Type} := { mr_hash : H; mr_leaf_count : nat; mr_total_size : nat }.
Arguments MerkleRoot H : clear implicits.

Record MerkleProof {H : Type} := {
  mp_leaf_index : nat; mp_leaf_hash : H; mp_siblings : list H; mp_root_hash : H }.
Arguments MerkleProof H : clear implicits.

Record MerkleTree {H : Type} := {
  mt_root : MerkleRoot H; mt_leaf_hashes : list H; mt_tree_levels : list (list H) }.
Arguments MerkleTree H : clear implicits.

Definition DEFAULT_LEAF_SIZE : nat := 64 * 1024.

(** [<[T]>::chunks]. *)
Fixpoint chunks {A} (fuel size : nat) (l : list A) : list (list A) :=
  match fuel, l with
  | S fuel, _ :: _ => take size l :: chunks fuel size (drop size l)
  | _, _ => []
  end.

(** ** Ranges *)

Definition single (i : nat) : LeafRange := {| lr_start := i; lr_end := S i |}.

(** The merging loop of [coalesce_ranges]; [current] is the open range. *)
Fixpoint merge_ranges (current : LeafRange) (rs : list LeafRange) : list LeafRange :=
  match rs with
  | [] => [current]
  | r :: rs =>
      if lr_start r =? lr_end current
      then merge_ranges {| lr_start := lr_start current; lr_end := lr_end r |} rs
      else current :: merge_ranges r rs
  end.

Definition start_le (a b : LeafRange) : Prop := lr_start a <= lr_start b.

#[export] Instance start_le_dec : RelDecision start_le.
Proof. intros a b. unfold start_le. apply _. Defined.

Definition coalesce_ranges (rs : list LeafRange) : list LeafRange :=
  match merge_sort start_le rs with
  | [] => []
  | r :: rs => merge_ranges r rs
  end.

Section merkle.
Context {H : Type} `{!EqDecision H}.
Context (hash_leaf : bytes -> H) (hash_pair : H -> H -> H).

(** ** Construction *)

(** One level from the one below: pairs, the last node duplicated if odd. *)
Fixpoint next_level (l : list H) : list H :=
  match l with
  | [] => []
  | [a] => [hash_pair a a]
  | a :: b :: l => hash_pair a b :: next_level l
  end.

(** The levels from [current] up, while it has more than one node. *)
Fixpoint levels_from (fuel : nat) (current : list H) : list (list H) :=
  current ::
  match fuel with
  | S fuel => if 1 <? length current then levels_from fuel (next_level current) else []
  | O => []
  end.

Definition build_tree_from_leaves (leaf_hashes : list H) : panics (list (list H) * H) :=
  let tree_levels := levels_from (length leaf_hashes) leaf_hashes in
  root ← expect (last tree_levels ≫= head);
  Ok (tree_levels, root).

Definition build_from_hashes (leaf_hashes : list H) : panics (option (MerkleTree H)) :=
  match leaf_hashes with
  | [] => Ok None
  | _ =>
      '(levels, root_hash) ← build_tree_from_leaves leaf_hashes;
      Ok (Some {| mt_root := {| mr_hash := root_hash; mr_leaf_count := length leaf_hashes;
                                mr_total_size := 0 |};
                  mt_leaf_hashes := default [] (head levels); mt_tree_levels := levels |})
  end.

Definition build (data : bytes) (leaf_size : nat) : panics (option (MerkleTree H)) :=
  let leaf_size := if leaf_size =? 0 then DEFAULT_LEAF_SIZE else leaf_size in
  match data with
  | [] => Ok None
  | _ =>
      let leaf_hashes := hash_leaf <$> chunks (length data) leaf_size data in
      '(levels, root_hash) ← build_tree_from_leaves leaf_hashes;
      Ok (Some {| mt_root := {| mr_hash := root_hash; mr_leaf_count := length leaf_hashes;
                                mr_total_size := length data |};
                  mt_leaf_hashes := leaf_hashes; mt_tree_levels := levels |})
  end.

(** ** Comparison leaf by leaf *)

Definition differs (l1 l2 : list H) (i : nat) : bool := negb (bool_decide (l1 !! i = l2 !! i)).

(** The end of a run of diverged leaves. *)
Fixpoint run_end (l1 l2 : list H) (fuel i max : nat) : nat :=
  match fuel with
  | S fuel => if (i <? max) && differs l1 l2 i then run_end l1 l2 fuel (S i) max else i
  | O => i
  end.

(** The loop for small trees, from leaf [i]. *)
Fixpoint diff_small (l1 l2 : list H) (fuel i max : nat) : list LeafRange :=
  match fuel with
  | S fuel =>
      if i <? max then
        if differs l1 l2 i then
          let j := run_end l1 l2 max (S i) max in
          {| lr_start := i; lr_end := j |} :: diff_small l1 l2 fuel j max
        else diff_small l1 l2 fuel (S i) max
      else []
  | O => []
  end.

Definition diff (self other : MerkleTree H) : list LeafRange :=
  if bool_decide (mr_hash (mt_root self) = mr_hash (mt_root other)) then [] else
  let l1 := mt_leaf_hashes self in
  let l2 := mt_leaf_hashes other in
  let max_leaves := length l1 `min` length l2 in
  if 4 <? max_leaves then
    coalesce_ranges (single <$> filter (fun i => differs l1 l2 i) (seq 0 max_leaves))
  else
    diff_small l1 l2 (S max_leaves) 0 max_leaves
    ++ (single <$> seq max_leaves (length l1 - max_leaves)).

(** ** Binary descent *)

(** [node_idx < self[level].len() && node_idx < other[level].len() && p]
    where [p] compares the two nodes. *)
Definition both_nodes (self other : list (list H)) (level node_idx : nat) (p : H -> H -> bool)
    : panics bool :=
  s ← expect (self !! level);
  match s !! node_idx with
  | None => Ok false
  | Some a =>
      o ← expect (other !! level);
      match o !! node_idx with None => Ok false | Some b => Ok (p a b) end
  end.

Fixpoint descend_diff_inner (self other : list (list H)) (level node_idx leaf_count : nat)
    (divergences : list LeafRange) : panics (list LeafRange) :=
  match level with
  | O =>
      d ← both_nodes self other 0 node_idx (fun a b => negb (bool_decide (a = b)));
      Ok (if (d : bool) then divergences ++ [single node_idx] else divergences)
  | S below =>
      same ← both_nodes self other level node_idx (fun a b => bool_decide (a = b));
      if (same : bool) then Ok divergences else
      let left_leaf_count := 2 ^ below `min` leaf_count in
      divergences ← descend_diff_inner self other below (node_idx * 2) left_leaf_count divergences;
      if left_leaf_count <? leaf_count then
        descend_diff_inner self other below (node_idx * 2 + 1) (leaf_count - left_leaf_count) divergences
      else Ok divergences
  end.

Definition descend_diff (self other : MerkleTree H) : panics (list LeafRange) :=
  if bool_decide (mr_hash (mt_root self) = mr_hash (mt_root other)) then Ok [] else
  let l1 := mt_leaf_hashes self in
  let l2 := mt_leaf_hashes other in
  let max_level := length (mt_tree_levels self) - 1 in
  divergences ←
    (if 0 <? max_level
     then descend_diff_inner (mt_tree_levels self) (mt_tree_levels other) max_level 0 (length l1) []
     else Ok []);
  let at_leaves :=
    if (max_level =? 0) && negb (length l1 =? 0)
    then single <$> filter (fun i => differs l1 l2 i) (seq 0 (length l1 `min` length l2))
    else [] in
  Ok (coalesce_ranges (divergences ++ at_leaves)).

(** ** Proofs *)

(** The siblings on the way up from node [idx], lowest level first; every
    level but the last has one, if it is in range. *)
Fixpoint siblings_from (levels : list (list H)) (idx : nat) : list H :=
  match levels with
  | level :: ((_ :: _) as above) =>
      let sibling_idx := if Nat.even idx then idx + 1 else idx - 1 in
      option_list (level !! sibling_idx) ++ siblings_from above (idx / 2)
  | _ => []
  end.

Definition generate_proof (t : MerkleTree H) (leaf_index : nat) : option (MerkleProof H) :=
  h ← mt_leaf_hashes t !! leaf_index;
  Some {| mp_leaf_index := leaf_index; mp_leaf_hash := h;
          mp_siblings := siblings_from (mt_tree_levels t) leaf_index;
          mp_root_hash := mr_hash (mt_root t) |}.

Fixpoint fold_proof (current : H) (idx : nat) (siblings : list H) : H :=
  match siblings with
  | [] => current
  | s :: siblings =>
      let current := if Nat.even idx then hash_pair current s else hash_pair s current in
      fold_proof current (idx / 2) siblings
  end.

Definition verify_proof (t : MerkleTree H) (proof : MerkleProof H) : bool :=
  if negb (bool_decide (mp_root_hash proof = mr_hash (mt_root t))) then false else
  if length (mt_leaf_hashes t) <=? mp_leaf_index proof then false else
  bool_decide (fold_proof (mp_leaf_hash proof) (mp_leaf_index proof) (mp_siblings proof)
               = mr_hash (mt_root t)).
End merkle.

(** ** The shape of the levels *)

(** The size of the next level, and the number of levels above the leaves. *)
Definition up (n : nat) : nat := (n + 1) / 2.

Fixpoint depth (fuel n : nat) : nat :=
  match fuel with
  | S fuel => if 1 <? n then S (depth fuel (up n)) else 0
  | O => 0
  end.

Lemma up_lt n : 1 < n -> up n < n.
Proof. intros Hn. unfold up. apply Nat.Div0.div_lt_upper_bound. lia. Qed.

Lemma lt_up m j : j < up m <-> 2 * j < m.
Proof.
  unfold up. pose proof (Nat.div_mod (m + 1) 2 ltac:(lia)).
  pose proof (Nat.mod_upper_bound (m + 1) 2 ltac:(lia)). lia.
Qed.

Lemma lt_iter_up k n j : j < Nat.iter k up n <-> j * 2 ^ k < n.
Proof.
  revert j; induction k as [|k IH]; intros j; cbn [Nat.iter nat_rect].
  - rewrite Nat.pow_0_r. lia.
  - rewrite lt_up, IH. rewrite Nat.pow_succ_r'. nia.
Qed.

Lemma depth_covers fuel n : n <= fuel -> n <= 2 ^ depth fuel n.
Proof.
  revert n; induction fuel as [|fuel IH]; intros n Hn; cbn [depth]; [lia|].
  destruct (Nat.ltb_spec 1 n) as [H1|H1]; [|cbn; lia].
  pose proof (up_lt n H1). specialize (IH (up n) ltac:(lia)).
  rewrite Nat.pow_succ_r'. unfold up in *.
  pose proof (Nat.div_mod (n + 1) 2 ltac:(lia)). pose proof (Nat.mod_upper_bound (n + 1) 2 ltac:(lia)). lia.
Qed.

Lemma iter_S_r {A} (f : A -> A) k x : Nat.iter (S k) f x = Nat.iter k f (f x).
Proof. induction k as [|k IH]; [done|]. cbn [Nat.iter nat_rect] in *. by rewrite IH. Qed.

Section levels.
Context {H : Type} `{!EqDecision H}.
Context (hash_leaf : bytes -> H) (hash_pair : H -> H -> H).

Notation next := (next_level hash_pair).
Notation levels l := (levels_from hash_pair (length l) l).

Lemma next_level_lookup (l : list H) : forall j,
  next l !! j = a ← l !! (2 * j); Some (hash_pair a (default a (l !! (2 * j + 1)))).
Proof.
  enough (Hs : forall n (l : list H), length l <= n -> forall j,
    next l !! j = a ← l !! (2 * j); Some (hash_pair a (default a (l !! (2 * j + 1))))) by (by eapply Hs).
  clear l. induction n as [|n IH]; intros [|a [|b l]] Hl [|j]; cbn [length] in Hl; try done; try lia.
  replace (2 * S j) with (S (S (2 * j))) by lia.
  replace (S (S (2 * j)) + 1) with (S (S (2 * j + 1))) by lia. apply (IH l). lia.
Qed.

Lemma length_next_level (l : list H) : length (next l) = up (length l).
Proof.
  enough (Hs : forall n (l : list H), length l <= n -> length (next l) = up (length l)) by (by eapply Hs).
  clear l. induction n as [|n IH]; intros [|a [|b l]] Hl; cbn [length] in Hl; try done; try lia.
  cbn [next_level length]. rewrite IH by lia. unfold up.
  replace (S (S (length l)) + 1) with (length l + 1 + 1 * 2) by lia. rewrite Nat.div_add by lia. lia.
Qed.

(** The nodes of a level. *)
Definition level (l : list H) (k : nat) : list H := Nat.iter k next l.
Definition node (l : list H) (k j : nat) : option H := level l k !! j.

Lemma length_level l k : length (level l k) = Nat.iter k up (length l).
Proof.
  induction k as [|k IH]; [done|]. change (level l (S k)) with (next (level l k)).
  by rewrite length_next_level, IH.
Qed.

Lemma node_up l k j :
  node l (S k) j = a ← node l k (2 * j); Some (hash_pair a (default a (node l k (2 * j + 1)))).
Proof. unfold node, level. cbn [Nat.iter nat_rect]. apply next_level_lookup. Qed.

Lemma node_Some l k j : is_Some (node l k j) <-> j * 2 ^ k < length l.
Proof. unfold node. by rewrite lookup_lt_is_Some, length_level, lt_iter_up. Qed.

Lemma levels_from_lookup fuel : forall (l : list H) k,
  levels_from hash_pair fuel l !! k
  = if k <=? depth fuel (length l) then Some (level l k) else None.
Proof.
  induction fuel as [|fuel IH]; intros l [|k]; cbn [levels_from depth]; try done.
  destruct (1 <? length l) eqn:E; cbn [lookup list_lookup]; [|done].
  rewrite IH, length_next_level. unfold level. rewrite iter_S_r. done.
Qed.

Lemma length_levels_from fuel l :
  length (levels_from hash_pair fuel l) = S (depth fuel (length l)).
Proof.
  revert l; induction fuel as [|fuel IH]; intros l; cbn [levels_from depth length]; [done|].
  destruct (1 <? length l); cbn [length]; [|done]. by rewrite IH, length_next_level.
Qed.

(** The number of levels above the leaves. *)
Definition height (l : list H) : nat := depth (length l) (length l).

Lemma height_covers l : length l <= 2 ^ height l.
Proof. by apply depth_covers. Qed.

Lemma levels_lookup l k : k <= height l -> levels l !! k = Some (level l k).
Proof. intros Hk. rewrite levels_from_lookup. by rewrite (proj2 (Nat.leb_le _ _)). Qed.

Lemma length_levels l : length (levels l) = S (height l).
Proof. apply length_levels_from. Qed.

Lemma root_node l : l <> [] -> last (levels l) ≫= head = node l (height l) 0.
Proof.
  intros Hl. rewrite last_lookup, length_levels. cbn [Nat.pred].
  rewrite levels_lookup by done. cbn [mbind option_bind]. unfold node. by destruct (level l (height l)).
Qed.

Lemma root_exists l : l <> [] -> exists r, node l (height l) 0 = Some r.
Proof. intros Hl. apply node_Some. destruct l; [done|]. cbn [length]. lia. Qed.

(** The levels end with the root: the fuel of [levels_from] is enough. *)
Lemma top_level_single l : l <> [] -> length (level l (height l)) = 1.
Proof.
  intros Hl. pose proof (height_covers l). rewrite length_level.
  pose proof (lt_iter_up (height l) (length l) 0). pose proof (lt_iter_up (height l) (length l) 1).
  destruct l; [done|]. cbn [length] in *. lia.
Qed.

(** What a tree over the leaves [l] is. *)
Definition tree_of (t : MerkleTree H) (l : list H) : Prop :=
  mt_leaf_hashes t = l /\ mt_tree_levels t = levels l /\
  node l (height l) 0 = Some (mr_hash (mt_root t)) /\ mr_leaf_count (mt_root t) = length l.

Lemma build_tree_from_leaves_ok l :
  l <> [] -> exists r, node l (height l) 0 = Some r /\
    build_tree_from_leaves hash_pair l = Ok (levels l, r).
Proof.
  intros Hl. destruct (root_exists l Hl) as [r Hr]. exists r. split; [done|].
  unfold build_tree_from_leaves. rewrite root_node, Hr by done. done.
Qed.

Lemma build_from_hashes_ok l :
  l <> [] -> exists t, build_from_hashes hash_pair l = Ok (Some t) /\ tree_of t l.
Proof.
  intros Hl. destruct (build_tree_from_leaves_ok l Hl) as (r & Hr & Hb).
  unfold build_from_hashes. destruct l as [|a l]; [done|]. rewrite Hb. cbn [mbind outcome_bind].
  eexists. split; [done|]. split_and!; done.
Qed.

(** The pairs that are hashed for the tree over [l], and the assumption that
    BLAKE3 does not collide between the nodes of two trees. *)
Definition hashed (l : list H) (a b : H) : Prop :=
  exists k j, k < height l /\ node l k (2 * j) = Some a /\ b = default a (node l k (2 * j + 1)).

Definition collision_free (l1 l2 : list H) : Prop :=
  forall a b c d, hashed l1 a b -> hashed l2 c d ->
    hash_pair a b = hash_pair c d -> a = c /\ b = d.

Lemma children_agree l1 l2 k j :
  collision_free l1 l2 -> length l1 = length l2 -> k < height l1 ->
  node l1 (S k) j = node l2 (S k) j ->
  node l1 k (2 * j) = node l2 k (2 * j) /\ node l1 k (2 * j + 1) = node l2 k (2 * j + 1).
Proof.
  intros Hcf Hlen Hk Heq. assert (Hh : height l1 = height l2) by (unfold height; by rewrite Hlen).
  assert (Hsome : forall i, is_Some (node l1 k i) <-> is_Some (node l2 k i))
    by (intros i; by rewrite !node_Some, Hlen).
  rewrite !node_up in Heq.
  destruct (node l1 k (2 * j)) as [a|] eqn:Ha, (node l2 k (2 * j)) as [c|] eqn:Hc;
    cbn [mbind option_bind] in Heq; try done.
  - apply (inj Some) in Heq. apply Hcf in Heq as [-> Hb]; [|by exists k, j|exists k, j; rewrite <- Hh; done].
    split; [done|]. specialize (Hsome (2 * j + 1)).
    destruct (node l1 k (2 * j + 1)), (node l2 k (2 * j + 1)); cbn in Hb; subst; try done.
    + exfalso. apply (is_Some_None (A:=H)). apply Hsome. by eexists.
    + exfalso. apply (is_Some_None (A:=H)). apply Hsome. by eexists.
  - split; [done|].
    assert (Hn1 : node l1 k (2 * j + 1) = None).
    { apply eq_None_not_Some. rewrite node_Some. apply eq_None_not_Some in Ha. rewrite node_Some in Ha. nia. }
    assert (Hn2 : node l2 k (2 * j + 1) = None).
    { apply eq_None_not_Some. rewrite node_Some. apply eq_None_not_Some in Hc. rewrite node_Some in Hc. nia. }
    by rewrite Hn1, Hn2.
Qed.

(** Equal nodes have equal leaves below them. *)
Lemma same_node l1 l2 k : forall j,
  collision_free l1 l2 -> length l1 = length l2 -> k <= height l1 ->
  node l1 k j = node l2 k j ->
  forall i, j * 2 ^ k <= i < (j + 1) * 2 ^ k -> l1 !! i = l2 !! i.
Proof.
  induction k as [|k IH]; intros j Hcf Hlen Hk Heq i Hi.
  - rewrite Nat.pow_0_r in Hi. replace i with j by lia. exact Heq.
  - rewrite Nat.pow_succ_r' in Hi.
    destruct (children_agree l1 l2 k j) as [Hl Hr]; [done|done|lia|done|].
    destruct (decide (i < (2 * j + 1) * 2 ^ k)).
    + apply (IH (2 * j)); [done|done|lia|done|nia].
    + apply (IH (2 * j + 1)); [done|done|lia|done|nia].
Qed.

Notation diverged l1 l2 a n := (filter (fun i => Is_true (differs l1 l2 i)) (seq a n)).

Lemma diverged_none (l1 l2 : list H) a n :
  (forall i, a <= i < a + n -> l1 !! i = l2 !! i) -> diverged l1 l2 a n = [].
Proof.
  intros Hall. apply filter_false_in. intros i Hi%elem_of_seq. unfold differs.
  rewrite bool_decide_true by (by apply Hall). by intros [].
Qed.

Lemma diverged_app (l1 l2 : list H) a n m :
  diverged l1 l2 a (n + m) = diverged l1 l2 a n ++ diverged l1 l2 (a + n) m.
Proof. by rewrite seq_app, filter_app. Qed.

Lemma both_nodes_ok l1 l2 k j p :
  k <= height l1 -> length l1 = length l2 -> j * 2 ^ k < length l1 ->
  exists a b, node l1 k j = Some a /\ node l2 k j = Some b /\
    both_nodes (levels l1) (levels l2) k j p = Ok (p a b).
Proof.
  intros Hk Hlen Hj. assert (Hh : height l1 = height l2) by (unfold height; by rewrite Hlen).
  destruct (proj2 (node_Some l1 k j)) as [a Ha]; [done|].
  destruct (proj2 (node_Some l2 k j)) as [b Hb]; [by rewrite <- Hlen|]. exists a, b.
  split_and!; [done..|]. unfold both_nodes. rewrite !levels_lookup by (rewrite <- ?Hh; done).
  cbn [expect mbind outcome_bind]. unfold node in Ha, Hb. rewrite Ha. cbn [mbind outcome_bind]. by rewrite Hb.
Qed.

(** The descent from a node finds the diverged leaves below it, in order. *)
Lemma descend_inner_ok l1 l2 k : forall j n acc,
  collision_free l1 l2 -> length l1 = length l2 -> k <= height l1 ->
  j * 2 ^ k < length l1 -> n = 2 ^ k `min` (length l1 - j * 2 ^ k) ->
  descend_diff_inner (levels l1) (levels l2) k j n acc
  = Ok (acc ++ (single <$> diverged l1 l2 (j * 2 ^ k) n)).
Proof.
  induction k as [|k IH]; intros j n acc Hcf Hlen Hk Hj Hn.
  - rewrite Nat.pow_0_r, Nat.mul_1_r in *. cbn [descend_diff_inner].
    destruct (both_nodes_ok l1 l2 0 j (fun a b => negb (bool_decide (a = b)))) as (a & b & Ha & Hb & ->);
      [done|done|by rewrite Nat.pow_0_r, Nat.mul_1_r|].
    cbn [mbind outcome_bind]. replace n with 1 by lia. cbn [seq]. rewrite filter_cons, filter_nil.
    unfold differs. change (l1 !! j) with (node l1 0 j). change (l2 !! j) with (node l2 0 j). rewrite Ha, Hb.
    destruct (decide (a = b)) as [->|Hab].
    + rewrite !bool_decide_true by done. cbn. by rewrite app_nil_r.
    + rewrite (bool_decide_false (a = b)), (bool_decide_false (Some a = Some b)) by congruence. done.
  - cbn [descend_diff_inner]. rewrite Nat.pow_succ_r' in *.
    destruct (both_nodes_ok l1 l2 (S k) j (fun a b => bool_decide (a = b))) as (a & b & Ha & Hb & ->);
      [done|done|by rewrite Nat.pow_succ_r'|].
    cbn [mbind outcome_bind]. destruct (decide (a = b)) as [->|Hab].
    + rewrite bool_decide_true by done. rewrite diverged_none; [by rewrite app_nil_r|].
      intros i Hi. apply (same_node l1 l2 (S k) j); try done; [by rewrite Ha, Hb|].
      rewrite Nat.pow_succ_r'. lia.
    + rewrite bool_decide_false by done. set (nl := 2 ^ k `min` n).
      rewrite (IH (j * 2) nl); try done; [|lia|nia|subst nl; nia]. cbn [mbind outcome_bind].
      replace (j * (2 * 2 ^ k)) with (j * 2 * 2 ^ k) by lia.
      destruct (Nat.ltb_spec nl n) as [Hlt|Hge].
      * rewrite (IH (j * 2 + 1) (n - nl)); try done; [|lia|subst nl; nia|subst nl; nia].
        rewrite <- app_assoc, <- fmap_app.
        replace ((j * 2 + 1) * 2 ^ k) with (j * 2 * 2 ^ k + nl) by (subst nl; nia).
        rewrite <- diverged_app. by replace (nl + (n - nl)) with n by lia.
      * by replace nl with n by lia.
Qed.
End levels.

(** ** Coalesced ranges *)

Definition indices (r : LeafRange) : list nat := seq (lr_start r) (lr_end r - lr_start r).

(** The maximal ranges of the indices [l]. *)
Definition canonical (rs : list LeafRange) (l : list nat) : Prop :=
  concat (indices <$> rs) = l /\ Forall (fun r => lr_start r < lr_end r) rs /\
  StronglySorted (fun a b => lr_end a < lr_start b) rs.

Lemma canonical_nil_inv rs : canonical rs [] -> rs = [].
Proof.
  intros (Hc & Hne & _). destruct rs as [|r rs]; [done|]. apply Forall_cons in Hne as [Hr _].
  cbn [fmap list_fmap concat] in Hc. apply app_eq_nil in Hc as [Hc _]. apply (f_equal length) in Hc.
  unfold indices in Hc. rewrite length_seq in Hc. cbn in Hc. lia.
Qed.

Lemma elem_of_ranges rs i :
  i ∈ concat (indices <$> rs) <-> exists r, r ∈ rs /\ lr_start r <= i < lr_end r.
Proof.
  rewrite list_elem_of_In, in_concat. split.
  - intros (x & Hx%list_elem_of_In & Hi%list_elem_of_In).
    apply list_elem_of_fmap in Hx as (r & -> & Hr). exists r. split; [done|].
    unfold indices in Hi. rewrite elem_of_seq in Hi. lia.
  - intros (r & Hr & Hi). exists (indices r). rewrite <- !list_elem_of_In. split.
    + by apply list_elem_of_fmap_2.
    + unfold indices. rewrite elem_of_seq. lia.
Qed.

(** The indices determine the ranges. *)
Lemma canonical_unique rs1 : forall rs2 l, canonical rs1 l -> canonical rs2 l -> rs1 = rs2.
Proof.
  induction rs1 as [|r1 rs1 IH]; intros rs2 l H1 H2.
  - destruct H1 as (<- & _). symmetry. by apply canonical_nil_inv.
  - destruct rs2 as [|r2 rs2]; [destruct H2 as (<- & _); by apply canonical_nil_inv in H1|].
    destruct H1 as (E1 & N1 & S1), H2 as (E2 & N2 & S2).
    apply Forall_cons in N1 as [N1 N1']. apply Forall_cons in N2 as [N2 N2'].
    inversion S1 as [|? ? S1' A1]; inversion S2 as [|? ? S2' A2]; subst.
    assert (Hin : forall i, i ∈ concat (indices <$> r1 :: rs1) <-> i ∈ concat (indices <$> r2 :: rs2))
      by (intros i; by rewrite E2).
    assert (Hst : lr_start r1 = lr_start r2).
    { apply (f_equal head) in E2. cbn [fmap list_fmap concat] in E2. unfold indices in E2.
      destruct (lr_end r1 - lr_start r1) eqn:D1; [lia|]. destruct (lr_end r2 - lr_start r2) eqn:D2; [lia|].
      cbn in E2. congruence. }
    assert (Hen : lr_end r1 = lr_end r2).
    { rewrite Forall_forall in A1, A2.
      destruct (Nat.lt_trichotomy (lr_end r1) (lr_end r2)) as [L|[?|L]]; [|done|].
      - destruct (proj1 (elem_of_ranges (r1 :: rs1) (lr_end r1))) as (r & Hr & Hi).
        { apply Hin, elem_of_ranges. exists r2. split; [left | lia]. }
        apply elem_of_cons in Hr as [->|Hr]; [lia|]. specialize (A1 r Hr). lia.
      - destruct (proj1 (elem_of_ranges (r2 :: rs2) (lr_end r2))) as (r & Hr & Hi).
        { apply Hin, elem_of_ranges. exists r1. split; [left | lia]. }
        apply elem_of_cons in Hr as [->|Hr]; [lia|]. specialize (A2 r Hr). lia. }
    destruct r1 as [s1 e1], r2 as [s2 e2]; cbn [lr_start lr_end] in *; subst. f_equal.
    cbn [fmap list_fmap concat] in E2. apply app_inv_head in E2. apply (IH rs2 (concat (indices <$> rs1))).
    + by split_and!.
    + split_and!; [|done..]. congruence.
Qed.

Lemma indices_single i : indices (single i) = [i].
Proof. unfold indices. cbn [single lr_start lr_end]. by replace (S i - i) with 1 by lia. Qed.

Lemma merge_ranges_canonical l : forall current,
  lr_start current < lr_end current -> StronglySorted lt l -> Forall (fun i => lr_end current <= i) l ->
  canonical (merge_ranges current (single <$> l)) (indices current ++ l) /\
  exists e rs, merge_ranges current (single <$> l) = {| lr_start := lr_start current; lr_end := e |} :: rs.
Proof.
  induction l as [|i l IH]; intros current Hc Hs Hge; cbn [fmap list_fmap merge_ranges].
  - split; [|exists (lr_end current), []; by destruct current]. split_and!; [done|by constructor|repeat constructor].
  - inversion Hs as [|? ? Hs' Hlt]; subst. apply Forall_cons in Hge as [Hi Hge].
    rewrite Forall_forall in Hlt. cbn [single lr_start lr_end].
    destruct (Nat.eqb_spec i (lr_end current)) as [E|E].
    + destruct (IH {| lr_start := lr_start current; lr_end := S i |}) as [Hcan Hfirst]; [cbn; lia|done| |].
      { apply Forall_forall. intros x Hx. specialize (Hlt x Hx). cbn. lia. }
      split; [|done]. replace (indices current ++ i :: l)
        with (indices {| lr_start := lr_start current; lr_end := S i |} ++ l); [done|].
      unfold indices. cbn [lr_start lr_end]. replace (S i - lr_start current) with (lr_end current - lr_start current + 1) by lia.
      rewrite seq_app, <- app_assoc. cbn. do 2 f_equal. lia.
    + destruct (IH (single i)) as [(Hcat & Hne & Hss) (e & rs & Efirst)]; [cbn; lia|done| |].
      { apply Forall_forall. intros x Hx. specialize (Hlt x Hx). cbn. lia. }
      split; [|exists (lr_end current); eexists; by destruct current]. split_and!.
      * cbn [fmap list_fmap concat]. f_equal. etransitivity; [exact Hcat|].
        by rewrite indices_single.
      * by constructor.
      * rewrite Efirst in *. inversion Hss as [|? ? Hss' Hall]; subst. constructor; [by constructor|].
        apply Forall_cons in Hne as [Hne0 Hne]. cbn [lr_start lr_end single] in *.
        rewrite Forall_forall in Hall, Hne. apply Forall_cons. split; [cbn; lia|].
        apply Forall_forall. intros r Hr. specialize (Hall r Hr). cbn in Hall. lia.
Qed.

#[export] Instance start_le_trans : Transitive start_le.
Proof. intros a b c. unfold start_le. lia. Qed.

#[export] Instance start_le_total : Total start_le.
Proof. intros a b. unfold start_le. lia. Qed.

Lemma sort_singles l : StronglySorted lt l -> merge_sort start_le (single <$> l) = single <$> l.
Proof.
  intros Hl. pose proof (merge_sort_Permutation start_le (single <$> l)) as Hp.
  pose proof (Sorted_merge_sort start_le (single <$> l)) as Hs.
  destruct (Permutation_map_inv _ _ Hp) as (l' & E & Hp'). rewrite E in *. f_equal.
  apply (Sorted_unique le); [| |done].
  - clear -Hs. induction l' as [|i [|j l'] IH]; [constructor|repeat constructor|].
    inversion Hs as [|? ? Hs' Hr]; subst. constructor; [by apply IH|]. inversion Hr; subst. by constructor.
  - apply StronglySorted_Sorted. clear -Hl. induction Hl as [|i l Hl IH Hall]; constructor; [done|].
    eapply Forall_impl; [exact Hall|]. intros; lia.
Qed.

Lemma coalesce_canonical l : StronglySorted lt l -> canonical (coalesce_ranges (single <$> l)) l.
Proof.
  intros Hl. unfold coalesce_ranges. rewrite sort_singles by done.
  destruct l as [|i l]; [repeat constructor|]. inversion Hl as [|? ? Hl' Hall]; subst.
  destruct (merge_ranges_canonical l (single i)) as [Hc _]; [cbn; lia|done| |].
  - eapply Forall_impl; [exact Hall|]. cbn. lia.
  - by rewrite indices_single in Hc.
Qed.

Lemma filter_sorted (P : nat -> Prop) `{!forall i, Decision (P i)} l :
  StronglySorted lt l -> StronglySorted lt (filter P l).
Proof.
  induction 1 as [|i l Hl IH Hall]; [constructor|]. rewrite filter_cons. case_decide; [|done].
  constructor; [done|]. rewrite Forall_forall in *. intros x [_ Hx]%list_elem_of_filter. by apply Hall.
Qed.

Lemma seq_sorted n : forall a, StronglySorted lt (seq a n).
Proof.
  induction n as [|n IH]; intros a; cbn [seq]; constructor; [done|].
  apply Forall_forall. intros x Hx%elem_of_seq. lia.
Qed.

(** The sequential loop of [diff] yields the maximal ranges directly. *)
Section small.
Context {H : Type} `{!EqDecision H}.
Context (l1 l2 : list H).

Notation diverged a n := (filter (fun i => Is_true (differs l1 l2 i)) (seq a n)).

Lemma diff_run_end_spec fuel max : forall i,
  i <= max -> max - i <= fuel ->
  let j := run_end l1 l2 fuel i max in
  i <= j <= max /\ diverged i (j - i) = seq i (j - i) /\ (j < max -> differs l1 l2 j = false).
Proof.
  induction fuel as [|fuel IH]; intros i Hi Hf; cbn [run_end].
  - replace (i - i) with 0 by lia. split_and!; [lia|lia|done|lia].
  - destruct (Nat.ltb_spec i max) as [Hlt|Hge]; cbn [andb].
    + destruct (differs l1 l2 i) eqn:Ed.
      * destruct (IH (S i)) as (Hb & Hall & Hend); [lia..|].
        set (j := run_end l1 l2 fuel (S i) max) in *. split_and!; [lia|lia| |done].
        replace (j - i) with (S (j - S i)) by lia. cbn [seq]. rewrite filter_cons_True by (by rewrite Ed).
        by rewrite Hall.
      * replace (i - i) with 0 by lia. split_and!; [lia|lia|done|done].
    + replace (i - i) with 0 by lia. split_and!; [lia|lia|done|lia].
Qed.

Lemma diff_small_canonical max fuel : forall i,
  i <= max -> max - i <= fuel ->
  canonical (diff_small l1 l2 fuel i max) (diverged i (max - i)) /\
  Forall (fun r => i <= lr_start r) (diff_small l1 l2 fuel i max).
Proof.
  induction fuel as [|fuel IH]; intros i Hi Hf; cbn [diff_small].
  { replace (max - i) with 0 by lia. repeat constructor. }
  destruct (Nat.ltb_spec i max) as [Hlt|Hge].
  2:{ replace (max - i) with 0 by lia. repeat constructor. }
  destruct (differs l1 l2 i) eqn:Ed.
  - destruct (diff_run_end_spec max max (S i)) as (Hb & Hall & Hend); [lia..|].
    set (j := run_end l1 l2 max (S i) max) in *. destruct (IH j) as [(Hc & Hne & Hs) Hge]; [lia..|].
    assert (Hstart : Forall (fun r => j < lr_start r) (diff_small l1 l2 fuel j max)).
    { apply Forall_forall. intros r Hr. rewrite Forall_forall in Hge, Hne.
      specialize (Hge r Hr). specialize (Hne r Hr). destruct (decide (j = lr_start r)) as [->|]; [|lia].
      assert (Hin : lr_start r ∈ concat (indices <$> diff_small l1 l2 fuel (lr_start r) max))
        by (apply elem_of_ranges; exists r; split; [done|lia]).
      rewrite Hc in Hin. apply list_elem_of_filter in Hin as [Hd Hin%elem_of_seq].
      rewrite Hend in Hd by lia. done. }
    split.
    + split_and!; [|constructor; [cbn; lia|done]|constructor; [done|exact Hstart]].
      cbn [fmap list_fmap concat]. rewrite Hc. unfold indices. cbn [lr_start lr_end].
      replace (max - i) with (1 + (j - S i) + (max - j)) by lia. rewrite seq_app, filter_app.
      replace (i + (1 + (j - S i))) with j by lia. f_equal. cbn [Nat.add seq].
      rewrite filter_cons_True by (by rewrite Ed). rewrite Hall. by replace (j - i) with (S (j - S i)) by lia.
    + constructor; [cbn; lia|]. eapply Forall_impl; [exact Hstart|]. cbn. intros; lia.
  - destruct (IH (S i)) as [Hc Hge]; [lia..|]. split.
    + replace (max - i) with (S (max - S i)) by lia. cbn [seq].
      rewrite filter_cons_False by (rewrite Ed; by intros []). done.
    + eapply Forall_impl; [exact Hge|]. cbn. intros; lia.
Qed.
End small.

Section exact.
Context {H : Type} `{!EqDecision H}.
Context (hash_leaf : bytes -> H) (hash_pair : H -> H -> H).

Notation build_from_hashes := (build_from_hashes hash_pair).
Notation diverged l1 l2 := (filter (fun i => Is_true (differs l1 l2 i)) (seq 0 (length l1))).

Lemma build_from_hashes_tree l t : build_from_hashes l = Ok (Some t) -> l <> [] /\ tree_of hash_pair t l.
Proof.
  intros Hb. destruct (decide (l = [])) as [->|Hl]; [done|]. split; [done|].
  destruct (build_from_hashes_ok hash_pair l Hl) as (t' & Hb' & Ht'). congruence.
Qed.

Lemma same_root_same_leaves l1 l2 :
  collision_free hash_pair l1 l2 -> length l1 = length l2 ->
  node hash_pair l1 (height l1) 0 = node hash_pair l2 (height l2) 0 -> diverged l1 l2 = [].
Proof.
  intros Hcf Hlen Hr. apply diverged_none. intros i Hi.
  assert (Hh : height l1 = height l2) by (unfold height; by rewrite Hlen). rewrite <- Hh in Hr.
  apply (same_node hash_pair l1 l2 (height l1) 0); try done. pose proof (height_covers l1). lia.
Qed.

Lemma diff_canonical l1 l2 t1 t2 :
  build_from_hashes l1 = Ok (Some t1) -> build_from_hashes l2 = Ok (Some t2) ->
  length l1 = length l2 -> collision_free hash_pair l1 l2 ->
  canonical (diff t1 t2) (diverged l1 l2).
Proof.
  intros [Hn1 (L1 & _ & R1 & _)]%build_from_hashes_tree [Hn2 (L2 & _ & R2 & _)]%build_from_hashes_tree Hlen Hcf.
  unfold diff. rewrite L1, L2. destruct (decide (mr_hash (mt_root t1) = mr_hash (mt_root t2))) as [E|E].
  { rewrite bool_decide_true, same_root_same_leaves by (done || congruence). repeat constructor. }
  rewrite bool_decide_false by done. rewrite <- Hlen, Nat.min_id. destruct (4 <? length l1).
  - apply coalesce_canonical, filter_sorted, seq_sorted.
  - replace (length l1 - length l1) with 0 by lia. cbn [seq fmap list_fmap]. rewrite app_nil_r.
    destruct (diff_small_canonical l1 l2 (length l1) (S (length l1)) 0) as [Hc _]; [lia..|].
    by rewrite Nat.sub_0_r in Hc.
Qed.

(** C16: For two segments of the same number of leaves whose node hashes do
    not collide, the binary descent does not panic, finds exactly the leaves
    that differ, as maximal ranges in increasing order, and returns what the
    leaf by leaf comparison [diff] returns. *)
Theorem descend_diff_exact l1 l2 t1 t2 :
  build_from_hashes l1 = Ok (Some t1) -> build_from_hashes l2 = Ok (Some t2) ->
  length l1 = length l2 -> collision_free hash_pair l1 l2 ->
  descend_diff t1 t2 = Ok (diff t1 t2) /\
  concat (indices <$> diff t1 t2) = filter (fun i => l1 !! i <> l2 !! i) (seq 0 (length l1)) /\
  StronglySorted (fun a b => lr_end a < lr_start b) (diff t1 t2).
Proof.
  intros B1 B2 Hlen Hcf. pose proof (diff_canonical l1 l2 t1 t2 B1 B2 Hlen Hcf) as Hd.
  destruct (build_from_hashes_tree l1 t1 B1) as [Hn1 (L1 & T1 & R1 & _)].
  destruct (build_from_hashes_tree l2 t2 B2) as [Hn2 (L2 & T2 & R2 & _)]. split.
  - unfold descend_diff. rewrite L1, L2, T1, T2, length_levels.
    destruct (decide (mr_hash (mt_root t1) = mr_hash (mt_root t2))) as [E|E].
    { unfold diff. by rewrite !bool_decide_true by done. }
    rewrite bool_decide_false by done. cbn [Nat.sub]. rewrite Nat.sub_0_r.
    enough (Hc : canonical (coalesce_ranges (single <$> diverged l1 l2)) (diverged l1 l2)).
    { destruct (Nat.ltb_spec 0 (height l1)) as [Hh|Hh].
      - rewrite (descend_inner_ok hash_pair l1 l2) by (done || (pose proof (height_covers l1); destruct l1; cbn in *; lia)).
        cbn [mbind outcome_bind]. destruct (Nat.eqb_spec (height l1) 0) as [?|_]; [lia|]. cbn [andb].
        rewrite app_nil_l, app_nil_r. f_equal. by apply (canonical_unique _ _ (diverged l1 l2)).
      - cbn [mbind outcome_bind]. rewrite (proj2 (Nat.eqb_eq _ _)) by lia.
        rewrite (proj2 (Nat.eqb_neq _ _)) by (by destruct l1). cbn [andb negb].
        rewrite app_nil_l, <- Hlen, Nat.min_id. f_equal. by apply (canonical_unique _ _ (diverged l1 l2)). }
    apply coalesce_canonical, filter_sorted, seq_sorted.
  - destruct Hd as (Hc & _ & Hs). split; [|done]. rewrite Hc. apply list_filter_iff. intros i. unfold differs.
    destruct (decide (l1 !! i = l2 !! i)); [rewrite bool_decide_true by done|rewrite bool_decide_false by done]; naive_solver.
Qed.
End exact.

(** ** Proofs: completeness and soundness *)

Section proofs.
Context {H : Type} `{!EqDecision H}.
Context (hash_pair : H -> H -> H).

Notation build_from_hashes := (build_from_hashes hash_pair).
Notation fold_proof := (fold_proof hash_pair).
Notation verify_proof := (verify_proof hash_pair).
Notation node := (node hash_pair).
Notation level := (level hash_pair).

Definition sibling (idx : nat) : nat := if Nat.even idx then idx + 1 else idx - 1.

(** The step from a node and its sibling to their parent. *)
Lemma node_parent l k idx a s :
  node l k idx = Some a -> node l k (sibling idx) = Some s ->
  node l (S k) (idx / 2) = Some (if Nat.even idx then hash_pair a s else hash_pair s a).
Proof.
  intros Ha Hs. rewrite node_up. unfold sibling in Hs. pose proof (Nat.div_mod idx 2 ltac:(lia)) as D.
  destruct (Nat.even idx) eqn:E.
  - apply Nat.even_spec in E as [q ->]. replace (2 * q / 2) with q by (rewrite Nat.mul_comm, Nat.div_mul by lia; done).
    by rewrite Ha, Hs.
  - assert (Ho : Nat.odd idx) by (unfold Nat.odd; by rewrite E). apply Is_true_eq_true, Nat.odd_spec in Ho as [q ->].
    replace ((2 * q + 1) / 2) with q by (rewrite Nat.mul_comm, Nat.div_add_l by lia; cbn; lia).
    replace (2 * q + 1 - 1) with (2 * q) in Hs by lia. by rewrite Hs, Ha.
Qed.

Lemma levels_drop l k :
  let ls := levels_from hash_pair (length l) l in
  k < height l -> drop k ls = level l k :: drop (S k) ls /\ drop (S k) ls <> [].
Proof.
  intros ls Hk. split; [by apply drop_S, levels_lookup; lia|].
  intros E. apply (f_equal length) in E. unfold ls in E. rewrite length_drop, length_levels in E. cbn in E. lia.
Qed.

(** Where every level has the sibling, folding the collected siblings from
    a node gives the root. *)
Lemma fold_siblings l n : forall k idx a,
  k + n = height l -> node l k idx = Some a ->
  (forall j, j < n -> is_Some (node l (k + j) (sibling (idx / 2 ^ j)))) ->
  node l (k + n) (idx / 2 ^ n)
  = Some (fold_proof a idx (siblings_from (drop k (levels_from hash_pair (length l) l)) idx)).
Proof.
  induction n as [|n IH]; intros k idx a Hk Ha Hsib.
  - rewrite Nat.add_0_r in Hk. subst k. rewrite Nat.add_0_r, Nat.pow_0_r, Nat.div_1_r, Ha.
    rewrite (drop_S _ _ _ (levels_lookup hash_pair l (height l) ltac:(lia))), drop_ge;
      [done|]. by rewrite length_levels.
  - destruct (levels_drop l k ltac:(lia)) as [Ed Hne].
    destruct (Hsib 0 ltac:(lia)) as [s Hs]. rewrite Nat.add_0_r, Nat.pow_0_r, Nat.div_1_r in Hs.
    pose proof (node_parent l k idx a s Ha Hs) as Hp.
    rewrite Ed. cbn [siblings_from]. unfold Merkle.node in Hs. fold (sibling idx). rewrite Hs.
    destruct (drop (S k) _) as [|l1 ls] eqn:Ed'; [done|].
    cbn [option_list app Merkle.fold_proof]. rewrite Nat.add_succ_r, <- Nat.add_succ_l, Nat.pow_succ_r', <- Nat.Div0.div_div.
    rewrite (IH (S k) (idx / 2) _ ltac:(lia) Hp).
    + by rewrite Ed'.
    + intros j Hj. rewrite Nat.Div0.div_div, <- Nat.pow_succ_r', Nat.add_succ_comm. apply Hsib. lia.
Qed.

Lemma height_pow2 (l : list H) d : length l = 2 ^ d -> height l = d.
Proof.
  unfold height. intros ->. assert (Hf : forall fuel, 2 ^ d <= fuel -> depth fuel (2 ^ d) = d).
  2:{ by apply Hf. }
  induction d as [|d IH]; intros [|fuel] Hle; cbn [depth]; try done.
  - pose proof (Nat.pow_nonzero 2 (S d) ltac:(lia)). lia.
  - rewrite Nat.pow_succ_r' in *. pose proof (Nat.pow_nonzero 2 d ltac:(lia)).
    rewrite (proj2 (Nat.ltb_lt _ _)) by lia. unfold up.
    replace ((2 * 2 ^ d + 1) / 2) with (2 ^ d) by (rewrite Nat.mul_comm, Nat.div_add_l by lia; cbn; lia).
    rewrite IH by lia. done.
Qed.

Lemma sibling_in_range d k i :
  k < d -> i < 2 ^ d -> sibling (i / 2 ^ k) * 2 ^ k < 2 ^ d.
Proof.
  intros Hk Hi. replace d with (S (d - S k) + k) by lia. rewrite Nat.pow_add_r.
  apply Nat.mul_lt_mono_pos_r; [pose proof (Nat.pow_nonzero 2 k); lia|].
  assert (Hq : i / 2 ^ k < 2 ^ S (d - S k)).
  { apply Nat.Div0.div_lt_upper_bound. rewrite <- Nat.pow_add_r. by replace (k + S (d - S k)) with d by lia. }
  unfold sibling. destruct (Nat.even (i / 2 ^ k)) eqn:E; [|lia].
  apply Nat.even_spec in E as [q Eq]. rewrite Nat.pow_succ_r' in *. lia.
Qed.

(** In a tree over a power of two of leaves, a proof can be generated for
    every leaf, it carries that leaf's hash and one sibling per level, and it
    verifies. *)
Theorem merkle_proof_complete l t d i h :
  build_from_hashes l = Ok (Some t) -> length l = 2 ^ d -> l !! i = Some h ->
  exists p, generate_proof t i = Some p /\ mp_leaf_hash p = h /\ verify_proof t p = true.
Proof.
  intros Hb Hd Hi. destruct (build_from_hashes_tree hash_pair l t Hb) as [_ (L & T & R & _)].
  unfold generate_proof. rewrite L, Hi. cbn [mbind option_bind]. eexists. split; [done|]. split; [done|].
  pose proof (lookup_lt_Some _ _ _ Hi) as Hlt. unfold verify_proof, Merkle.verify_proof.
  cbn [mp_root_hash mp_leaf_index mp_leaf_hash mp_siblings]. rewrite bool_decide_true by done. cbn [negb].
  rewrite L, (proj2 (Nat.leb_gt _ _)) by done. rewrite bool_decide_true; [done|].
  pose proof (height_pow2 l d Hd) as Hh.
  assert (Hf : node l (0 + height l) (i / 2 ^ height l) = Some (fold_proof h i (siblings_from (mt_tree_levels t) i))).
  { rewrite T. apply (fold_siblings l (height l) 0 i h); [done|done|]. intros j Hj.
    apply node_Some. rewrite Hd. apply sibling_in_range; lia. }
  rewrite Hh, Nat.div_small in Hf by lia. rewrite Hh in R. unfold node in *. cbn [Nat.add] in Hf. congruence.
Qed.

(** The pairs hashed while a proof is checked. *)
Fixpoint proof_pairs (current : H) (idx : nat) (siblings : list H) : list (H * H) :=
  match siblings with
  | [] => []
  | s :: siblings =>
      let p := if Nat.even idx then (current, s) else (s, current) in
      p :: proof_pairs (hash_pair p.1 p.2) (idx / 2) siblings
  end.

Lemma fold_proof_sound l siblings : forall k idx current r,
  (forall a b c d, hashed hash_pair l a b -> (c, d) ∈ proof_pairs current idx siblings ->
     hash_pair a b = hash_pair c d -> a = c /\ b = d) ->
  k + length siblings = height l -> is_Some (node l k idx) ->
  node l (height l) (idx / 2 ^ length siblings) = Some r ->
  fold_proof current idx siblings = r -> node l k idx = Some current.
Proof.
  induction siblings as [|s siblings IH]; intros k idx current r Hcf Hk Hex Hr Hf; cbn [length] in *.
  - rewrite Nat.add_0_r in Hk. subst k. rewrite Nat.pow_0_r, Nat.div_1_r in Hr. cbn in Hf. congruence.
  - cbn [fold_proof proof_pairs] in *. rewrite Nat.pow_succ_r', <- Nat.Div0.div_div in Hr.
    set (p := if Nat.even idx then (current, s) else (s, current)) in *.
    assert (Hp : (if Nat.even idx then hash_pair current s else hash_pair s current) = hash_pair p.1 p.2)
      by (subst p; by destruct (Nat.even idx)).
    rewrite Hp in Hf. apply IH with (k := S k) in Hf; [|by intros ???? ? ?; apply Hcf; [|right]|lia| |done].
    2:{ apply node_Some. apply node_Some in Hex. pose proof (Nat.Div0.mul_div_le idx 2).
        rewrite Nat.pow_succ_r'. nia. }
    rewrite node_up in Hf. pose proof (Nat.div_mod idx 2 ltac:(lia)) as D.
    destruct (node l k (2 * (idx / 2))) as [a|] eqn:Ea; cbn [mbind option_bind] in Hf; [|done].
    apply (inj Some) in Hf. apply Hcf in Hf as [E1 E2]; [|exists k, (idx / 2); split_and!; [lia|done..]|subst p; destruct (Nat.even idx); left].
    subst p. destruct (Nat.even idx) eqn:E; cbn [fst snd] in E1, E2.
    + apply Nat.even_spec in E as [q ->]. replace (2 * q / 2) with q in Ea by (rewrite Nat.mul_comm, Nat.div_mul by lia; done). congruence.
    + assert (Ho : Nat.odd idx) by (unfold Nat.odd; by rewrite E). apply Is_true_eq_true, Nat.odd_spec in Ho as [q ->].
      replace ((2 * q + 1) / 2) with q in E2 by (rewrite Nat.mul_comm, Nat.div_add_l by lia; cbn; lia).
      destruct Hex as [b Hb]. rewrite Hb in *. cbn in E2. congruence.
Qed.

(** A proof with one sibling per level that [verify_proof] accepts shows
    its leaf: the leaf hash it carries is the hash at its index, unless a pair
    hashed by the check collides with one of the tree. *)
Theorem merkle_proof_sound l t (p : MerkleProof H) :
  build_from_hashes l = Ok (Some t) -> S (length (mp_siblings p)) = length (mt_tree_levels t) ->
  (forall a b c d, hashed hash_pair l a b ->
     (c, d) ∈ proof_pairs (mp_leaf_hash p) (mp_leaf_index p) (mp_siblings p) ->
     hash_pair a b = hash_pair c d -> a = c /\ b = d) ->
  verify_proof t p = true -> l !! mp_leaf_index p = Some (mp_leaf_hash p).
Proof.
  intros Hb Hlen Hcf Hv. destruct (build_from_hashes_tree hash_pair l t Hb) as [_ (L & T & R & _)].
  rewrite T, length_levels in Hlen. apply (inj S) in Hlen.
  unfold verify_proof, Merkle.verify_proof in Hv. destruct (bool_decide _); [|done]. cbn [negb] in Hv.
  rewrite L in Hv. destruct (Nat.leb_spec (length l) (mp_leaf_index p)) as [?|Hlt]; [done|].
  apply bool_decide_eq_true in Hv.
  apply (fold_proof_sound l (mp_siblings p) 0 (mp_leaf_index p) (mp_leaf_hash p) (mr_hash (mt_root t)) Hcf); [done| | |done].
  - apply node_Some. rewrite Nat.pow_0_r. lia.
  - rewrite Hlen, Nat.div_small; [done|]. pose proof (height_covers l). lia.
Qed.

(** A proof without siblings that presents the root as a leaf is accepted,
    for every index: [verify_proof] does not count the siblings. *)
Lemma root_as_leaf_accepted l t i :
  build_from_hashes l = Ok (Some t) -> i < length l ->
  verify_proof t {| mp_leaf_index := i; mp_leaf_hash := mr_hash (mt_root t);
                    mp_siblings := []; mp_root_hash := mr_hash (mt_root t) |} = true.
Proof.
  intros Hb Hi. destruct (build_from_hashes_tree hash_pair l t Hb) as [_ (L & _)].
  unfold verify_proof, Merkle.verify_proof. cbn. rewrite !bool_decide_true by done.
  by rewrite L, (proj2 (Nat.leb_gt _ _)).
Qed.
End proofs.

(** ** Peers with other leaf counts *)

(** When the roots differ and the peer's tree has fewer levels, the
    descent indexes the peer's levels out of range and panics: the local tree
    of any two leaves against a peer that sent a single other leaf hash. *)
Theorem shorter_peer_tree_panics {H} `{!EqDecision H} (hash_pair : H -> H -> H) l1 l2 t1 t2 :
  build_from_hashes hash_pair l1 = Ok (Some t1) -> build_from_hashes hash_pair l2 = Ok (Some t2) ->
  mr_hash (mt_root t1) <> mr_hash (mt_root t2) ->
  length (mt_tree_levels t2) < length (mt_tree_levels t1) ->
  descend_diff t1 t2 = Panic.
Proof.
  intros [Hn1 (_ & T1 & R1 & _)]%build_from_hashes_tree [Hn2 (_ & T2 & R2 & _)]%build_from_hashes_tree Hr Hlt.
  unfold descend_diff. rewrite bool_decide_false by done. rewrite T1, T2 in *. rewrite !length_levels in *.
  replace (S (height l1) - 1) with (height l1) by lia. rewrite (proj2 (Nat.ltb_lt _ _)) by lia.
  destruct (height l1) as [|k] eqn:Eh; [lia|]. cbn [descend_diff_inner]. unfold both_nodes.
  rewrite (levels_lookup hash_pair l1) by (rewrite Eh; lia). cbn [expect mbind outcome_bind].
  unfold node in R1. rewrite R1. rewrite (lookup_ge_None_2 (levels_from hash_pair (length l2) l2)); [done|].
  rewrite length_levels. lia.
Qed.

(** An odd last leaf is hashed with itself, so that repeating it does not
    change the root: neither comparison sees the difference. *)
Lemma repeated_last_leaf_undetected {H} `{!EqDecision H} (hash_pair : H -> H -> H) a b c :
  match build_from_hashes hash_pair [a; b; c], build_from_hashes hash_pair [a; b; c; c] with
  | Ok (Some t1), Ok (Some t2) => diff t2 t1 = [] /\ descend_diff t2 t1 = Ok []
  | _, _ => False
  end.
Proof. cbn. unfold diff, descend_diff. cbn. by rewrite bool_decide_true. Qed.

(** ** A hash without collisions *)

(** Hash values as terms: the leaves and the pairs hashed. *)
Inductive term := Leaf (n : nat) | Pair (a b : term).

#[export] Instance term_eq_dec : EqDecision term.
Proof. solve_decision. Defined.

Lemma term_collision_free l1 l2 : collision_free Pair l1 l2.
Proof. intros a b c d _ _ [= -> ->]. done. Qed.

Definition term_tree (l : list term) : option (MerkleTree term) :=
  match build_from_hashes Pair l with Ok t => t | _ => None end.

Definition leaves (l : list nat) : list term := Leaf <$> l.

(** The only proof of the unpaired last leaf of three does not verify: the
    level without a sibling is skipped instead of hashed with itself. *)
Lemma unpaired_leaf_proof_rejected :
  match term_tree (leaves [1; 2; 3]) with
  | Some t => match generate_proof t 2 with Some p => verify_proof Pair t p = false | None => False end
  | None => False
  end.
Proof. by vm_compute. Qed.

Lemma descend_diff_exact_witness :
  match term_tree (leaves [1; 2; 3; 4; 5; 6; 7]), term_tree (leaves [1; 9; 8; 4; 5; 6; 0]) with
  | Some t1, Some t2 =>
      descend_diff t1 t2 = Ok (diff t1 t2) /\
      diff t1 t2 = [{| lr_start := 1; lr_end := 3 |}; {| lr_start := 6; lr_end := 7 |}]
  | _, _ => False
  end.
Proof.
  destruct (term_tree (leaves [1; 2; 3; 4; 5; 6; 7])) as [t1|] eqn:E1; [|done].
  destruct (term_tree (leaves [1; 9; 8; 4; 5; 6; 0])) as [t2|] eqn:E2; [|done].
  unfold term_tree in E1, E2.
  split; [|vm_compute in E1, E2; injection E1 as <-; injection E2 as <-; by vm_compute].
  eapply (descend_diff_exact Pair (leaves [1; 2; 3; 4; 5; 6; 7]) (leaves [1; 9; 8; 4; 5; 6; 0])); [..|apply term_collision_free].
  - vm_compute in E1. injection E1 as <-. by vm_compute.
  - vm_compute in E2. injection E2 as <-. by vm_compute.
  - done.
Defined.

Lemma merkle_proof_complete_witness :
  match term_tree (leaves [1; 2; 3; 4]) with
  | Some t => exists p, generate_proof t 2 = Some p /\ mp_leaf_hash p = Leaf 3 /\ verify_proof Pair t p = true
  | None => False
  end.
Proof.
  destruct (term_tree (leaves [1; 2; 3; 4])) as [t|] eqn:E; [|done]. unfold term_tree in E.
  apply (merkle_proof_complete Pair (leaves [1; 2; 3; 4]) t 2 2 (Leaf 3)).
  - vm_compute in E. injection E as <-. by vm_compute.
  - done.
  - done.
Defined.

Lemma merkle_proof_sound_witness :
  match term_tree (leaves [1; 2; 3]) with
  | Some t =>
      match generate_proof t 1 with
      | Some p => leaves [1; 2; 3] !! mp_leaf_index p = Some (mp_leaf_hash p)
      | None => False
      end
  | None => False
  end.
Proof.
  destruct (term_tree (leaves [1; 2; 3])) as [t|] eqn:E; [|done]. unfold term_tree in E.
  destruct (generate_proof t 1) as [p|] eqn:Ep;
    [|vm_compute in E; injection E as <-; by vm_compute in Ep].
  apply (merkle_proof_sound Pair (leaves [1; 2; 3]) t p).
  - vm_compute in E. injection E as <-. by vm_compute.
  - vm_compute in E. injection E as <-. vm_compute in Ep. injection Ep as <-. by vm_compute.
  - intros a b c d _ _ [= -> ->]. done.
  - vm_compute in E. injection E as <-. vm_compute in Ep. injection Ep as <-. by vm_compute.
Defined.

Lemma shorter_peer_tree_panics_witness :
  match term_tree (leaves [1; 2; 3]), term_tree (leaves [4]) with
  | Some t1, Some t2 => descend_diff t1 t2 = Panic
  | _, _ => False
  end.
Proof.
  destruct (term_tree (leaves [1; 2; 3])) as [t1|] eqn:E1; [|done].
  destruct (term_tree (leaves [4])) as [t2|] eqn:E2; [|done]. unfold term_tree in E1, E2.
  apply (shorter_peer_tree_panics Pair (leaves [1; 2; 3]) (leaves [4])).
  - vm_compute in E1. injection E1 as <-. by vm_compute.
  - vm_compute in E2. injection E2 as <-. by vm_compute.
  - vm_compute in E1, E2. injection E1 as <-. injection E2 as <-. by vm_compute.
  - vm_compute in E1, E2. injection E1 as <-. injection E2 as <-. vm_compute. lia.
Defined.
