(* ===== verification/IncMerkle.v ===== *)
(** * The incremental Merkle tree of continuous anti-entropy
      (crates/oceanfs-durability/src/merkle/incremental_tree.rs)

    Per segment a heap-ordered array of node hashes, the leaf count, and the
    order in which segments were first inserted, bounded by
    [continuous_max_segments]. Operations are taken one at a time. Hashes are
    abstract; BLAKE3 of two hashes is a parameter, as is the all-zero hash. *)

From Stdlib Require Import ZArith Lia Strings.Byte.
From stdpp Require Import base list gmap fin_maps.
From S2P Require Import Prelude.

Set Default Proof Using "Type".

Inductive tree_error := SegmentNotFound | LeafCountMissing.

Record TreeNode {H : Type} := { tn_node_index : nat; tn_hash : H; tn_children : list nat }.
Arguments TreeNode H : clear implicits.

Definition DEFAULT_CONTINUOUS_MAX_SEGMENTS : nat := 100 * 100.

(** [usize::next_power_of_two]. *)
Definition next_power_of_two (n : nat) : nat := 2 ^ Nat.log2_up n.

Definition tree_size_for_leaves (num_leaves : nat) : nat :=
  if num_leaves =? 0 then 0 else 2 * next_power_of_two num_leaves - 1.

Definition leaf_position (leaf_idx num_leaves : nat) : nat :=
  (next_power_of_two num_leaves - 1) + leaf_idx.

Section incremental.
Context {K H : Type} `{Countable K} `{!EqDecision H}.
Context (hash_pair : H -> H -> H) (zero : H).

Record IncrementalMerkleTree := {
  trees : gmap K (list H);
  leaf_counts : gmap K nat;
  insertion_order : list K;
  continuous_max_segments : nat }.

Definition new (max : nat) : IncrementalMerkleTree :=
  {| trees := ∅; leaf_counts := ∅; insertion_order := []; continuous_max_segments := max |}.

Definition root (t : IncrementalMerkleTree) (id : K) : outcome tree_error (option H) :=
  match trees t !! id with
  | None => Ok None
  | Some tree => h ← expect (head tree); Ok (Some h)
  end.

Definition leaf_count (t : IncrementalMerkleTree) (id : K) : option nat := leaf_counts t !! id.

Definition segment_count (t : IncrementalMerkleTree) : nat := size (trees t).

(** ** Eviction *)

Fixpoint evict_oldest (t : IncrementalMerkleTree) (count : nat) : IncrementalMerkleTree :=
  match count, insertion_order t with
  | S count, id :: order =>
      evict_oldest {| trees := delete id (trees t); leaf_counts := delete id (leaf_counts t);
                      insertion_order := order;
                      continuous_max_segments := continuous_max_segments t |} count
  | _, _ => t
  end.

Definition maybe_evict (t : IncrementalMerkleTree) : IncrementalMerkleTree :=
  let count := segment_count t in
  if continuous_max_segments t <? count
  then evict_oldest t (count - continuous_max_segments t) else t.

(** ** Leaf insertion *)

(** The loop up the path; [tree[parent] = ...] panics out of range. *)
Fixpoint recompute_loop (fuel : nat) (tree : list H) (current : nat) : outcome tree_error (list H) :=
  match fuel with
  | O => Ok tree
  | S fuel =>
      if current =? 0 then Ok tree else
      let parent := (current - 1) / 2 in
      let left_hash := default zero (tree !! (2 * parent + 1)) in
      let right_hash := default zero (tree !! (2 * parent + 2)) in
      if parent <? length tree
      then recompute_loop fuel (<[parent := hash_pair left_hash right_hash]> tree) parent
      else Panic
  end.

Definition recompute_path_to_root (tree : list H) (start_idx : nat) : outcome tree_error (list H) :=
  recompute_loop start_idx tree start_idx.

(** [Vec::resize] to a larger size. *)
Definition grow (tree : list H) (new_size : nat) : list H :=
  if length tree <? new_size then tree ++ replicate (new_size - length tree) zero else tree.

(** The tree of a segment with [leaf_idx] leaves after one more. *)
Definition add_leaf (tree : list H) (leaf_idx : nat) (leaf_hash : H) : outcome tree_error (list H) :=
  let tree := grow tree (tree_size_for_leaves (leaf_idx + 1)) in
  let leaf_pos := leaf_position leaf_idx (leaf_idx + 1) in
  if leaf_pos <? length tree
  then recompute_path_to_root (<[leaf_pos := leaf_hash]> tree) leaf_pos
  else Panic.

Definition insert_leaf (t : IncrementalMerkleTree) (id : K) (leaf_hash : H)
    : outcome tree_error IncrementalMerkleTree :=
  match trees t !! id with
  | None =>
      Ok (maybe_evict {| trees := <[id := [leaf_hash]]> (trees t);
                         leaf_counts := <[id := 1]> (leaf_counts t);
                         insertion_order := insertion_order t ++ [id];
                         continuous_max_segments := continuous_max_segments t |})
  | Some tree =>
      leaf_idx ← ok_or (leaf_counts t !! id) LeafCountMissing;
      tree' ← add_leaf tree leaf_idx leaf_hash;
      Ok (maybe_evict {| trees := <[id := tree']> (trees t);
                         leaf_counts := <[id := S leaf_idx]> (leaf_counts t);
                         insertion_order := insertion_order t;
                         continuous_max_segments := continuous_max_segments t |})
  end.

Definition clear (t : IncrementalMerkleTree) : IncrementalMerkleTree := new (continuous_max_segments t).

(** [rebuild_from_registry] over the sealed entries of the registry in the
    order it yields them, each with the Merkle root of its metadata; a failed
    insertion is ignored. *)
Fixpoint rebuild_entries (t : IncrementalMerkleTree) (entries : list (K * option H))
    : outcome tree_error IncrementalMerkleTree :=
  match entries with
  | [] => Ok t
  | (_, None) :: entries => rebuild_entries t entries
  | (id, Some h) :: entries =>
      match insert_leaf t id h with
      | Ok t => rebuild_entries t entries
      | Err _ => rebuild_entries t entries
      | Panic => Panic
      end
  end.

Definition rebuild_from_registry (t : IncrementalMerkleTree) (entries : list (K * option H)) :=
  rebuild_entries (clear t) entries.

(** ** Exchange and comparison *)

(** A child slot is present when it is in range and not the zero hash. *)
Definition child (tree : list H) (i : nat) : list nat :=
  match tree !! i with
  | Some h => if bool_decide (h = zero) then [] else [i]
  | None => []
  end.

Definition serialize_tree (t : IncrementalMerkleTree) (id : K) : outcome tree_error (list (TreeNode H)) :=
  tree ← ok_or (trees t !! id) SegmentNotFound;
  let total_leaves := default 0 (leaf_counts t !! id) in
  if total_leaves =? 0 then Ok [] else
  let max_idx := tree_size_for_leaves total_leaves in
  Ok (imap (fun i h => {| tn_node_index := i; tn_hash := h;
                          tn_children := child tree (2 * i + 1) ++ child tree (2 * i + 2) |})
           (take max_idx tree)).

(** [fuel] bounds the depth; the indices more than double. *)
Fixpoint descend_diff (local : list H) (peer_hashes : gmap nat H) (fuel node_idx : nat) : list nat :=
  match fuel with
  | O => []
  | S fuel =>
      let left := child local (2 * node_idx + 1) in
      let right := child local (2 * node_idx + 2) in
      match left ++ right with
      | [] =>
          match peer_hashes !! node_idx with
          | Some h => if bool_decide (local !! node_idx = Some h) then [] else [node_idx]
          | None => []
          end
      | children =>
          concat ((fun c => if bool_decide (peer_hashes !! c = local !! c) then []
                            else descend_diff local peer_hashes fuel c) <$> children)
      end
  end.

Definition compare_and_find_divergence (t : IncrementalMerkleTree) (id : K) (peer_tree : list (TreeNode H))
    : outcome tree_error (list nat) :=
  local ← ok_or (trees t !! id) SegmentNotFound;
  match peer_tree with
  | [] => Ok []
  | n :: _ =>
      h ← expect (head local);
      if bool_decide (h = tn_hash n) then Ok [] else
      let peer_hashes := foldl (fun m n => <[tn_node_index n := tn_hash n]> m) ∅ peer_tree in
      Ok (descend_diff local peer_hashes (length local) 0)
  end.
End incremental.

Arguments IncrementalMerkleTree K H {_ _}.

(** ** Sizes *)

Lemma next_power_of_two_ge n : n <= next_power_of_two n.
Proof.
  unfold next_power_of_two. destruct (decide (n <= 1)).
  - pose proof (Nat.pow_nonzero 2 (Nat.log2_up n)). lia.
  - apply Nat.log2_up_spec. lia.
Qed.

Lemma tree_size_mono n m : n <= m -> tree_size_for_leaves n <= tree_size_for_leaves m.
Proof.
  intros Hnm. unfold tree_size_for_leaves, next_power_of_two.
  destruct (Nat.eqb_spec n 0) as [?|?], (Nat.eqb_spec m 0) as [?|?]; try lia.
  pose proof (Nat.log2_up_le_mono n m Hnm). pose proof (Nat.pow_le_mono_r 2 _ _ ltac:(lia) H). lia.
Qed.

Lemma leaf_position_lt n : leaf_position n (n + 1) < tree_size_for_leaves (n + 1).
Proof.
  unfold leaf_position, tree_size_for_leaves. rewrite (proj2 (Nat.eqb_neq _ _)) by lia.
  pose proof (next_power_of_two_ge (n + 1)). lia.
Qed.

(** ** The invariant *)

Section invariant.
Context {K H : Type} `{Countable K}.

Notation tree_t := (IncrementalMerkleTree K H).

Record tree_inv (t : tree_t) : Prop := {
  ti_nodup : NoDup (insertion_order t);
  ti_order : list_to_set (insertion_order t) =@{gset K} dom (trees t);
  ti_counts : dom (leaf_counts t) = dom (trees t);
  ti_shape : forall id tree n, trees t !! id = Some tree -> leaf_counts t !! id = Some n ->
    1 <= n /\ length tree = tree_size_for_leaves n }.

Lemma tree_inv_size t : tree_inv t -> segment_count t = length (insertion_order t).
Proof.
  intros Ht. unfold segment_count. rewrite <- size_dom, <- (ti_order t Ht).
  apply size_list_to_set, Ht.
Qed.

Lemma evict_oldest_inv count : forall t,
  tree_inv t -> tree_inv (evict_oldest t count) /\
    insertion_order (evict_oldest t count) = drop count (insertion_order t) /\
    continuous_max_segments (evict_oldest t count) = continuous_max_segments t.
Proof.
  induction count as [|count IH]; intros t Ht; cbn [evict_oldest]; [done|].
  destruct (insertion_order t) as [|id order] eqn:Eo; [by rewrite Eo|].
  destruct (IH {| trees := delete id (trees t); leaf_counts := delete id (leaf_counts t);
                  insertion_order := order; continuous_max_segments := continuous_max_segments t |})
    as (Hi & Ho & Hm).
  - destruct Ht as [Hn Ho Hc Hsh]. rewrite Eo in Hn, Ho. apply NoDup_cons in Hn as [Hn1 Hn2].
    split; cbn [trees leaf_counts insertion_order]; [done|..].
    + rewrite dom_delete_L, <- Ho. set_solver.
    + by rewrite !dom_delete_L, Hc.
    + intros id' tree n [_ H1]%lookup_delete_Some [_ H2]%lookup_delete_Some. by apply (Hsh id').
  - done.
Qed.

Lemma maybe_evict_inv t :
  tree_inv t -> tree_inv (maybe_evict t) /\
    segment_count (maybe_evict t) <= continuous_max_segments t /\
    insertion_order (maybe_evict t)
    = drop (length (insertion_order t) - continuous_max_segments t) (insertion_order t) /\
    continuous_max_segments (maybe_evict t) = continuous_max_segments t.
Proof.
  intros Ht. unfold maybe_evict. pose proof (tree_inv_size t Ht) as Hs.
  destruct (Nat.ltb_spec (continuous_max_segments t) (segment_count t)) as [Hlt|Hge].
  - destruct (evict_oldest_inv (segment_count t - continuous_max_segments t) t Ht) as (Hi & Ho & Hm).
    split_and!; try done; [|by rewrite <- Hs]. rewrite tree_inv_size, Ho, length_drop by done. lia.
  - replace (length (insertion_order t) - continuous_max_segments t) with 0 by lia. done.
Qed.

End invariant.

Section incremental_lemmas.
Context {K H : Type} `{Countable K} `{!EqDecision H}.
Context (hash_pair : H -> H -> H) (zero : H).

Notation tree_t := (IncrementalMerkleTree K H).
Notation insert_leaf := (insert_leaf hash_pair zero).
Notation add_leaf := (add_leaf hash_pair zero).

Lemma recompute_loop_ok fuel : forall (tree : list H) current,
  current < length tree -> exists tree',
    recompute_loop hash_pair zero fuel tree current = Ok tree' /\ length tree' = length tree.
Proof.
  induction fuel as [|fuel IH]; intros tree current Hc; cbn [recompute_loop]; [by eexists|].
  destruct (Nat.eqb_spec current 0) as [_|Hc0]; [by eexists|].
  assert (Hp : (current - 1) / 2 < current) by (apply Nat.Div0.div_lt_upper_bound; lia).
  rewrite (proj2 (Nat.ltb_lt _ _)) by lia.
  edestruct IH as (tree' & -> & Hl); [|exists tree'; split; [done|by rewrite Hl, length_insert]].
  rewrite length_insert. lia.
Qed.

Lemma add_leaf_ok (tree : list H) n h :
  length tree = tree_size_for_leaves n -> exists tree',
    add_leaf tree n h = Ok tree' /\ length tree' = tree_size_for_leaves (S n).
Proof.
  intros Hl. unfold add_leaf, IncMerkle.add_leaf, recompute_path_to_root.
  assert (Hg : length (grow zero tree (tree_size_for_leaves (n + 1))) = tree_size_for_leaves (n + 1)).
  { unfold grow. pose proof (tree_size_mono n (n + 1) ltac:(lia)).
    destruct (Nat.ltb_spec (length tree) (tree_size_for_leaves (n + 1))); [|lia].
    rewrite length_app, length_replicate. lia. }
  pose proof (leaf_position_lt n). rewrite (proj2 (Nat.ltb_lt _ _)) by lia.
  destruct (recompute_loop_ok (leaf_position n (n + 1))
    (<[leaf_position n (n + 1) := h]> (grow zero tree (tree_size_for_leaves (n + 1)))) (leaf_position n (n + 1)))
    as (tree' & -> & Hl'); [rewrite length_insert; lia|].
  exists tree'. split; [done|]. rewrite Hl', length_insert, Hg. f_equal. lia.
Qed.

(** The order after a leaf of [id]: a new segment is the youngest. *)
Definition touched (t : tree_t) (id : K) : list K :=
  if decide (id ∈ insertion_order t) then insertion_order t else insertion_order t ++ [id].

Lemma insert_leaf_ok t id h :
  tree_inv t -> exists t', insert_leaf t id h = Ok t' /\ tree_inv t' /\
    segment_count t' <= continuous_max_segments t /\
    insertion_order t' = drop (length (touched t id) - continuous_max_segments t) (touched t id) /\
    continuous_max_segments t' = continuous_max_segments t.
Proof.
  intros Ht. pose proof Ht as [Hn Ho Hc Hsh]. unfold insert_leaf, IncMerkle.insert_leaf, touched.
  assert (Hin : id ∈ insertion_order t <-> is_Some (trees t !! id)).
  { rewrite <- elem_of_dom, <- Ho. set_solver. }
  destruct (trees t !! id) as [tree|] eqn:Et.
  - destruct (decide (id ∈ insertion_order t)) as [_|Hno]; [|exfalso; apply Hno, Hin; by eexists].
    assert (is_Some (leaf_counts t !! id)) as [n En].
    { apply elem_of_dom. rewrite Hc. by apply elem_of_dom. }
    rewrite En. cbn [ok_or mbind outcome_bind].
    destruct (Hsh id tree n Et En) as [Hn1 Hl].
    destruct (add_leaf_ok tree n h Hl) as (tree' & -> & Hl'). cbn [mbind outcome_bind].
    eexists. split; [done|]. apply (maybe_evict_inv {| trees := _; leaf_counts := _; insertion_order := _; continuous_max_segments := _ |}). split; cbn [trees leaf_counts insertion_order]; [done|..].
    + rewrite dom_insert_lookup_L by (by eexists). done.
    + rewrite !dom_insert_L. set_solver.
    + intros id' tr m. destruct (decide (id' = id)) as [->|Hne].
      * rewrite !lookup_insert_eq. intros [= <-] [= <-]. split; [lia|done].
      * rewrite !lookup_insert_ne by done. apply Hsh.
  - destruct (decide (id ∈ insertion_order t)) as [Hyes|Hno]; [apply Hin in Hyes as [? [=]]|].
    eexists. split; [done|]. apply (maybe_evict_inv {| trees := _; leaf_counts := _; insertion_order := _; continuous_max_segments := _ |}). split; cbn [trees leaf_counts insertion_order].
    + apply NoDup_app. split_and!; [done| |apply NoDup_singleton]. set_solver.
    + rewrite dom_insert_L. set_solver.
    + rewrite !dom_insert_L. set_solver.
    + intros id' tr m. destruct (decide (id' = id)) as [->|Hne].
      * rewrite !lookup_insert_eq. intros [= <-] [= <-]. by split.
      * rewrite !lookup_insert_ne by done. apply Hsh.
Qed.
End incremental_lemmas.

(** ** Histories *)

Inductive tree_op (K H : Type) :=
| InsertLeaf (id : K) (h : H)
| EvictOldest (count : nat)
| Rebuild (entries : list (K * option H)).
Arguments InsertLeaf {K H} _ _.
Arguments EvictOldest {K H} _.
Arguments Rebuild {K H} _.

Section histories.
Context {K H : Type} `{Countable K} `{!EqDecision H}.
Context (hash_pair : H -> H -> H) (zero : H).

Notation tree_t := (IncrementalMerkleTree K H).
Notation insert_leaf := (insert_leaf hash_pair zero).

Definition step (t : tree_t) (op : tree_op K H) : outcome tree_error tree_t :=
  match op with
  | InsertLeaf id h => insert_leaf t id h
  | EvictOldest count => Ok (evict_oldest t count)
  | Rebuild entries => rebuild_from_registry hash_pair zero t entries
  end.

Definition bounded (t : tree_t) : Prop := tree_inv t /\ segment_count t <= continuous_max_segments t.

Lemma new_inv max : bounded (new max).
Proof.
  split; [split; cbn [new trees leaf_counts insertion_order]|].
  - apply NoDup_nil_2.
  - by rewrite dom_empty_L.
  - by rewrite !dom_empty_L.
  - intros id tree n. by rewrite lookup_empty.
  - unfold segment_count, new. cbn [trees continuous_max_segments]. rewrite map_size_empty. lia.
Qed.

Lemma insert_leaf_bounded t id h :
  bounded t -> exists t', insert_leaf t id h = Ok t' /\ bounded t' /\
    continuous_max_segments t' = continuous_max_segments t.
Proof.
  intros [Ht _]. destruct (insert_leaf_ok hash_pair zero t id h Ht) as (t' & -> & Hi & Hs & _ & Hm).
  exists t'. split; [done|]. split; [split; [done|lia]|done].
Qed.

Lemma rebuild_entries_bounded entries : forall t,
  bounded t -> exists t', rebuild_entries hash_pair zero t entries = Ok t' /\ bounded t' /\
    continuous_max_segments t' = continuous_max_segments t.
Proof.
  induction entries as [|[id [h|]] entries IH]; intros t Ht; cbn [rebuild_entries]; [by eexists| |by apply IH].
  destruct (insert_leaf_bounded t id h Ht) as (t' & -> & Hi & Hm).
  destruct (IH t' Hi) as (t'' & -> & Hi' & Hm'). exists t''. split_and!; [done..|]. congruence.
Qed.

Lemma step_bounded t op :
  bounded t -> exists t', step t op = Ok t' /\ bounded t' /\ continuous_max_segments t' = continuous_max_segments t.
Proof.
  intros Ht. destruct op as [id h|count|entries]; cbn [step].
  - by apply insert_leaf_bounded.
  - eexists. split; [done|]. destruct Ht as [Ht Hs].
    destruct (evict_oldest_inv count t Ht) as (Hi & Ho & Hm). rewrite Hm.
    split_and!; [|done]. split; [done|]. rewrite Hm, tree_inv_size, Ho, length_drop by done.
    rewrite tree_inv_size in Hs by done. lia.
  - unfold rebuild_from_registry. destruct (rebuild_entries_bounded entries (clear t)) as (t' & -> & Hi & Hm).
    + apply new_inv.
    + by exists t'.
Qed.

(** Whatever leaves are inserted, segments evicted and rebuilds run from
    an empty tree, no operation fails or panics, every tracked segment has an
    array of exactly the size its leaf count calls for, the three tables
    track the same segments, and never more than the configured number. *)
Theorem incremental_tree_bounded max (ops : list (tree_op K H)) :
  exists t, ofoldM step (new max) ops = Ok t /\ tree_inv t /\ segment_count t <= max.
Proof.
  enough (Hg : forall t, bounded t -> exists t', ofoldM step t ops = Ok t' /\ bounded t' /\
                continuous_max_segments t' = continuous_max_segments t).
  { destruct (Hg (new max) (new_inv max)) as (t & -> & [Hi Hs] & Hm). exists t. rewrite Hm in Hs. done. }
  induction ops as [|op ops IH]; intros t Ht; cbn [ofoldM]; [by eexists|].
  destruct (step_bounded t op Ht) as (t' & -> & Hi & Hm). cbn [mbind outcome_bind].
  destruct (IH t' Hi) as (t'' & -> & Hi' & Hm'). exists t''. split_and!; [done..|]. congruence.
Qed.

(** The tree of a segment after a list of leaves. *)
Definition leaves_tree (id : K) (hs : list H) : outcome tree_error tree_t :=
  ofoldM (fun t h => insert_leaf t id h) (new 1) hs.

Lemma two_leaves_tree (a b : H) : add_leaf hash_pair zero [a] 1 b = Ok [hash_pair zero b; zero; b].
Proof. done. Qed.

(** The second leaf of a segment overwrites the first: the array grows
    from one node to three with the first leaf left at the root position, so
    the tree and its root are the same whatever the first leaf was. *)
Theorem incremental_root_forgets_first_leaf id a a' b rest :
  leaves_tree id (a :: b :: rest) = leaves_tree id (a' :: b :: rest) /\
  exists t, leaves_tree id [a; b] = Ok t /\ root t id = Ok (Some (hash_pair zero b)).
Proof.
  assert (Hone : forall x, insert_leaf (new 1) id x =
    Ok {| trees := {[id := [x]]}; leaf_counts := {[id := 1]}; insertion_order := [id];
          continuous_max_segments := 1 |}).
  { intros x. unfold insert_leaf, IncMerkle.insert_leaf, new. cbn [trees leaf_counts insertion_order continuous_max_segments].
    rewrite lookup_empty. unfold maybe_evict, segment_count. cbn [trees continuous_max_segments].
    by rewrite !insert_empty, map_size_singleton. }
  assert (Htwo : forall x, insert_leaf
      {| trees := {[id := [x]]}; leaf_counts := {[id := 1]}; insertion_order := [id]; continuous_max_segments := 1 |} id b =
    Ok {| trees := {[id := [hash_pair zero b; zero; b]]}; leaf_counts := {[id := 2]}; insertion_order := [id];
          continuous_max_segments := 1 |}).
  { intros x. unfold insert_leaf, IncMerkle.insert_leaf. cbn [trees leaf_counts insertion_order continuous_max_segments].
    rewrite !lookup_singleton_eq. cbn [ok_or mbind outcome_bind]. rewrite two_leaves_tree. cbn [mbind outcome_bind].
    unfold maybe_evict, segment_count. cbn [trees continuous_max_segments].
    by rewrite !insert_singleton_eq, map_size_singleton. }
  unfold leaves_tree. cbn [ofoldM]. rewrite !Hone. cbn [mbind outcome_bind]. rewrite !Htwo. cbn [mbind outcome_bind].
  split; [done|]. eexists. split; [done|]. unfold root. cbn [trees]. by rewrite lookup_singleton_eq.
Qed.
End histories.
