(* ===== verification/Gossip.v ===== *)
(** * The gossip protocol of cluster membership
      (crates/oceanfs-membership/src/gossip.rs, membership/mod.rs,
       membership/state.rs, membership/manager.rs, membership/accessors.rs,
       grpc/gossip_service.rs; [NodeState] of crates/oceanfs-core/src/types/node.rs)

    Two views of the cluster are kept on a node: the gossip state, changed by
    deltas of peers, and the membership table, changed by events; the two
    feed each other through channels. A handler takes its state and gives the
    new state and what it sends. Peers chosen at random are arguments.
    Channels are taken to be open and not full, and the background tasks to
    have been started. The storage-pool manifest, which the code never
    interprets here, is a type parameter. *)

From Stdlib Require Import ZArith Lia Strings.Byte.
From stdpp Require Import base list gmap fin_maps.
From S2P Require Import Prelude Ring.

Set Default Proof Using "Type".
Local Open Scope Z_scope.

Inductive NodeState := Alive | Suspect | Dead | Leaving | Left.

#[export] Instance NodeState_eq_dec : EqDecision NodeState.
Proof. solve_decision. Defined.

(** An IPv4 or IPv6 address as a number, and the port. *)
Abbreviation SocketAddr := (Z * Z)%type.
Abbreviation Incarnation := Z.

(** [127.0.0.1:9001] and [127.0.0.1:1]. *)
Definition fallback_addr : SocketAddr := (2130706433, 9001).
Definition null_addr : SocketAddr := (2130706433, 1).

(** Node, origin, version. *)
Abbreviation version_vector := (gmap NodeId (gmap NodeId Z)).

(** ** Authority *)

Definition authority_class (target origin : NodeId) (state : NodeState) (self_id : NodeId) : Z :=
  if bool_decide (target = self_id) then (if bool_decide (origin = self_id) then 4 else 0) else
  match state with
  | Leaving | Left =>
      if bool_decide (origin = target) then 4 else if bool_decide (origin = self_id) then 3 else 2
  | Suspect | Dead | Alive =>
      if bool_decide (origin = self_id) then 3 else if bool_decide (origin = target) then 1 else 2
  end.

(** The decision at equal incarnation, shared in form by [merge_delta] and
    [upsert_node_attributed_inner]: whether an incoming fact about [node]
    replaces the local one. *)
Definition supersedes (self_id node : NodeId)
    (origin : NodeId) (state : NodeState) (version : Z)
    (local_origin : NodeId) (local_state : NodeState) (local_version : Z) : bool :=
  let incoming_class := authority_class node origin state self_id in
  let local_class := authority_class node local_origin local_state self_id in
  if incoming_class <? local_class then false else
  if incoming_class =? local_class then
    if bool_decide (origin = local_origin) then negb (version <=? local_version) else false
  else true.

Section membership.
Context {M : Type} `{!EqDecision M}.

Record NodeEntry := {
  ne_node_id : NodeId; ne_incarnation : Incarnation; ne_state : NodeState;
  ne_address : SocketAddr; ne_grpc_address : SocketAddr;
  ne_version : Z; ne_origin : NodeId; ne_manifest : option M }.

Record MembershipEvent := {
  ev_node_id : NodeId; ev_old_state : NodeState; ev_new_state : NodeState;
  ev_incarnation : Incarnation; ev_address : option SocketAddr;
  ev_version : Z; ev_origin : NodeId;
  ev_membership_address : option SocketAddr; ev_manifest : option M }.

(** ** The gossip protocol *)

Record GossipProtocol := {
  gp_node_id : NodeId;
  gp_nodes : gmap NodeId NodeEntry;
  gp_incarnations : gmap NodeId Incarnation;
  gp_watermarks : gmap NodeId version_vector;
  gp_fanout_k : Z }.

Definition gossip_new (node_id : NodeId) (fanout_k : Z) : GossipProtocol :=
  {| gp_node_id := node_id; gp_nodes := ∅; gp_incarnations := ∅; gp_watermarks := ∅; gp_fanout_k := fanout_k |}.

Definition set_entry (g : GossipProtocol) (id : NodeId) (e : NodeEntry) (inc : Incarnation) : GossipProtocol :=
  {| gp_node_id := gp_node_id g; gp_nodes := <[id := e]> (gp_nodes g);
     gp_incarnations := <[id := inc]> (gp_incarnations g);
     gp_watermarks := gp_watermarks g; gp_fanout_k := gp_fanout_k g |}.

(** Whether [merge_delta] goes past its [continue]s for an entry. *)
Definition merge_accepts (g : GossipProtocol) (e : NodeEntry) : bool :=
  let current := default 0 (gp_incarnations g !! ne_node_id e) in
  if ne_incarnation e <? current then false else
  if ne_incarnation e =? current then
    match gp_nodes g !! ne_node_id e with
    | None => negb (0 <? current)
    | Some local =>
        supersedes (gp_node_id g) (ne_node_id e) (ne_origin e) (ne_state e) (ne_version e)
          (ne_origin local) (ne_state local) (ne_version local)
    end
  else true.

(** One turn of the loop of [merge_delta]. *)
Definition merge_entry (g : GossipProtocol) (e : NodeEntry) : GossipProtocol * list MembershipEvent :=
  if merge_accepts g e then
    let local := gp_nodes g !! ne_node_id e in
    let old_state := from_option ne_state Alive local in
    let manifest := match ne_manifest e with Some m => Some m | None => local ≫= ne_manifest end in
    let accepted := {| ne_node_id := ne_node_id e; ne_incarnation := ne_incarnation e;
      ne_state := ne_state e; ne_address := ne_address e; ne_grpc_address := ne_grpc_address e;
      ne_version := ne_version e; ne_origin := ne_origin e; ne_manifest := manifest |} in
    let changed := bool_decide (old_state <> ne_state e) ||
      match local with
      | None => true
      | Some l => bool_decide (ne_address l <> ne_address e) ||
                  bool_decide (ne_incarnation l <> ne_incarnation e) ||
                  bool_decide (ne_manifest l <> manifest)
      end in
    (set_entry g (ne_node_id e) accepted (ne_incarnation e),
     if changed then
       [{| ev_node_id := ne_node_id e; ev_old_state := old_state; ev_new_state := ne_state e;
           ev_incarnation := ne_incarnation e; ev_address := Some (ne_grpc_address e);
           ev_version := ne_version e; ev_origin := ne_origin e;
           ev_membership_address := Some (ne_address e); ev_manifest := ne_manifest e |}]
     else [])
  else (g, []).

Fixpoint merge_delta (g : GossipProtocol) (delta : list NodeEntry) : GossipProtocol * list MembershipEvent :=
  match delta with
  | [] => (g, [])
  | e :: delta =>
      let '(g, evs) := merge_entry g e in
      let '(g, evs') := merge_delta g delta in (g, evs ++ evs')
  end.

Definition add_node (g : GossipProtocol) (e : NodeEntry) : GossipProtocol :=
  let recorded := default 0 (gp_incarnations g !! ne_node_id e) in
  if ne_incarnation e <? recorded then g else
  if (ne_incarnation e =? recorded) && (0 <? recorded) &&
     bool_decide (gp_nodes g !! ne_node_id e = None) then g
  else set_entry g (ne_node_id e) e (ne_incarnation e).

Definition nodes_values (nodes : gmap NodeId NodeEntry) : list NodeEntry := (map_to_list nodes).*2.

Definition build_delta (g : GossipProtocol) : list NodeEntry := nodes_values (gp_nodes g).

(** Whether a version vector does not cover an attributed version. *)
Definition newer_than (vv : option version_vector) (node origin : NodeId) (version : Z) : bool :=
  match (v ← vv; origins ← v !! node; origins !! origin) with
  | None => true
  | Some known => known <? version
  end.

Definition build_delta_for (g : GossipProtocol) (peer : NodeId) : list NodeEntry :=
  filter (fun e => newer_than (gp_watermarks g !! peer) (ne_node_id e) (ne_origin e) (ne_version e))
    (build_delta g).

(** [version_vector_proto]: node, origin, version. *)
Definition vector_add (vv : version_vector) (node origin : NodeId) (version : Z) : version_vector :=
  <[node := <[origin := version]> (default ∅ (vv !! node))]> vv.

Definition version_vector_of (g : GossipProtocol) : version_vector :=
  foldr (fun e vv => vector_add vv (ne_node_id e) (ne_origin e) (ne_version e)) ∅ (build_delta g).

Inductive GossipCommand :=
| Push (peer : NodeId) (delta : list NodeEntry)
| ReceiveDelta (from : NodeId) (delta : list NodeEntry)
| Ack (peer : NodeId) (delta : list NodeEntry) (vv : version_vector)
| AddNode (entry : NodeEntry).

(** What the protocol task sends: events, and pushes over the network to the
    address of a peer. *)
Record gossip_out := {
  out_events : list MembershipEvent;
  out_push : option (SocketAddr * list NodeEntry * version_vector) }.

Definition handle_command (g : GossipProtocol) (cmd : GossipCommand) : GossipProtocol * gossip_out :=
  match cmd with
  | Push peer delta =>
      let '(g, evs) := merge_delta g delta in
      (g, {| out_events := evs;
             out_push := e ← gp_nodes g !! peer; Some (ne_address e, delta, version_vector_of g) |})
  | Ack peer delta vv =>
      let '(g, evs) := merge_delta g delta in
      ({| gp_node_id := gp_node_id g; gp_nodes := gp_nodes g; gp_incarnations := gp_incarnations g;
          gp_watermarks := <[peer := vv]> (gp_watermarks g); gp_fanout_k := gp_fanout_k g |},
       {| out_events := evs; out_push := None |})
  | ReceiveDelta _ delta =>
      let '(g, evs) := merge_delta g delta in (g, {| out_events := evs; out_push := None |})
  | AddNode e => (add_node g e, {| out_events := []; out_push := None |})
  end.

(** ** Entries on the wire *)

(** The protobuf entry; an address is what parsing its text gives, and the
    manifest, converted field by field, is carried as it is. *)
Record MembershipEntry := {
  pe_node_id : option NodeId; pe_state : Z; pe_incarnation : Z;
  pe_address : option SocketAddr; pe_grpc_address : option SocketAddr;
  pe_version : Z; pe_origin : NodeId; pe_manifest : option M }.

Definition state_code (s : NodeState) : Z :=
  match s with Alive => 0 | Suspect => 1 | Dead => 2 | Leaving => 3 | Left => 4 end.

Definition state_of_code (c : Z) : option NodeState :=
  if c =? 0 then Some Alive else if c =? 1 then Some Suspect else if c =? 2 then Some Dead
  else if c =? 3 then Some Leaving else if c =? 4 then Some Left else None.

(** The name used when a node id is missing. *)
Definition unknown_id : NodeId := [x75; x6e; x6b; x6e; x6f; x77; x6e].

Definition entry_to_proto (e : NodeEntry) : MembershipEntry :=
  {| pe_node_id := Some (ne_node_id e); pe_state := state_code (ne_state e);
     pe_incarnation := ne_incarnation e; pe_address := Some (ne_address e);
     pe_grpc_address := Some (ne_grpc_address e); pe_version := ne_version e;
     pe_origin := ne_origin e; pe_manifest := ne_manifest e |}.

Definition entry_from_proto (e : MembershipEntry) : NodeEntry :=
  {| ne_node_id := default unknown_id (pe_node_id e); ne_incarnation := pe_incarnation e;
     ne_state := default Alive (state_of_code (pe_state e));
     ne_address := default fallback_addr (pe_address e);
     ne_grpc_address := default fallback_addr (pe_grpc_address e);
     ne_version := pe_version e; ne_origin := pe_origin e; ne_manifest := pe_manifest e |}.

(** The peers of a round: [k] of the other nodes that are alive or suspect,
    where the number of candidates is cast to a byte. *)
Definition gossip_candidates (g : GossipProtocol) : list NodeId :=
  (filter (fun p => (p.2.(ne_state) = Alive \/ p.2.(ne_state) = Suspect) /\ p.1 <> gp_node_id g)
     (map_to_list (gp_nodes g))).*1.

Definition fanout (g : GossipProtocol) : Z :=
  Z.min (gp_fanout_k g) (wrap8 (Z.of_nat (length (gossip_candidates g)))).

(** A round over the [peers] the random choice gave. *)
Fixpoint on_gossip_tick (g : GossipProtocol) (peers : list NodeId)
    : GossipProtocol * list gossip_out :=
  match peers with
  | [] => (g, [])
  | peer :: peers =>
      match build_delta_for g peer with
      | [] => on_gossip_tick g peers
      | delta =>
          let '(g, out) := handle_command g (Push peer delta) in
          let '(g, outs) := on_gossip_tick g peers in (g, out :: outs)
      end
  end.
End membership.
Arguments NodeEntry M : clear implicits.
Arguments MembershipEvent M : clear implicits.
Arguments GossipProtocol M : clear implicits.
Arguments GossipCommand M : clear implicits.
Arguments gossip_out M : clear implicits.
Arguments MembershipEntry M : clear implicits.

Lemma entry_proto_roundtrip {M} (e : NodeEntry M) : entry_from_proto (entry_to_proto e) = e.
Proof. by destruct e as [? ? []]. Qed.

(** ** Invariant of the gossip state *)

Section gossip_lemmas.
Context {M : Type} `{!EqDecision M}.
Implicit Types (g : GossipProtocol M) (e : NodeEntry M).

Record gossip_inv g : Prop := {
  gi_key : forall id e, gp_nodes g !! id = Some e -> ne_node_id e = id;
  gi_inc : forall id e, gp_nodes g !! id = Some e -> gp_incarnations g !! id = Some (ne_incarnation e);
  gi_dom : forall id n, gp_incarnations g !! id = Some n -> is_Some (gp_nodes g !! id) }.

Lemma gossip_new_inv self k : gossip_inv (gossip_new (M:=M) self k).
Proof. split; cbn [gossip_new gp_nodes gp_incarnations]; intros id x; by rewrite lookup_empty. Qed.

Lemma set_entry_inv g e :
  gossip_inv g -> gossip_inv (set_entry g (ne_node_id e) e (ne_incarnation e)).
Proof.
  intros [Hk Hi Hd]. split; cbn [set_entry gp_nodes gp_incarnations]; intros id x;
    (destruct (decide (id = ne_node_id e)) as [->|Hne];
     [rewrite ?lookup_insert_eq | rewrite ?lookup_insert_ne by done]).
  - by intros [= <-].
  - apply Hk.
  - by intros [= <-].
  - apply Hi.
  - intros _. by eexists.
  - apply Hd.
Qed.

(** The local entry is at the recorded incarnation. *)
Lemma merge_accepts_rejects_own g e :
  gossip_inv g -> gp_nodes g !! ne_node_id e = Some e -> merge_accepts g e = false.
Proof.
  intros Hg He. unfold merge_accepts. rewrite (gi_inc g Hg _ _ He). cbn [default from_option].
  rewrite Z.ltb_irrefl, Z.eqb_refl, He. unfold supersedes.
  rewrite Z.ltb_irrefl, Z.eqb_refl, bool_decide_true by done. by rewrite Z.leb_refl.
Qed.

Definition accepted_entry g e : NodeEntry M :=
  {| ne_node_id := ne_node_id e; ne_incarnation := ne_incarnation e; ne_state := ne_state e;
     ne_address := ne_address e; ne_grpc_address := ne_grpc_address e; ne_version := ne_version e;
     ne_origin := ne_origin e;
     ne_manifest := match ne_manifest e with Some m => Some m
                    | None => gp_nodes g !! ne_node_id e ≫= ne_manifest end |}.

Lemma merge_entry_state g e :
  (merge_entry g e).1
  = if merge_accepts g e then set_entry g (ne_node_id e) (accepted_entry g e) (ne_incarnation e) else g.
Proof. unfold merge_entry. by destruct (merge_accepts g e). Qed.

Lemma merge_accepts_inc g e :
  merge_accepts g e = true -> default 0 (gp_incarnations g !! ne_node_id e) <= ne_incarnation e.
Proof. unfold merge_accepts. destruct (Z.ltb_spec (ne_incarnation e) (default 0 (gp_incarnations g !! ne_node_id e))); [done|lia]. Qed.

Lemma merge_entry_inv g e : gossip_inv g -> gossip_inv (merge_entry g e).1.
Proof.
  intros Hg. rewrite merge_entry_state. destruct (merge_accepts g e); [|done].
  by apply (set_entry_inv g (accepted_entry g e)).
Qed.

Lemma merge_delta_cons g e delta :
  (merge_delta g (e :: delta)).1 = (merge_delta (merge_entry g e).1 delta).1.
Proof. cbn [merge_delta]. destruct (merge_entry g e) as [g' evs]. cbn [fst]. by destruct (merge_delta g' delta). Qed.

Lemma merge_delta_inv delta : forall g, gossip_inv g -> gossip_inv (merge_delta g delta).1.
Proof.
  induction delta as [|e delta IH]; intros g Hg; [done|].
  rewrite merge_delta_cons. by apply IH, merge_entry_inv.
Qed.

Lemma gossip_add_node_inv g e : gossip_inv g -> gossip_inv (add_node g e).
Proof.
  intros Hg. unfold add_node. destruct (_ <? _); [done|]. destruct (_ && _); [done|]. by apply set_entry_inv.
Qed.

Lemma handle_command_state g cmd :
  gp_nodes (handle_command g cmd).1 = gp_nodes (match cmd with AddNode e => add_node g e
     | Push _ d | ReceiveDelta _ d | Ack _ d _ => (merge_delta g d).1 end) /\
  gp_incarnations (handle_command g cmd).1 = gp_incarnations (match cmd with AddNode e => add_node g e
     | Push _ d | ReceiveDelta _ d | Ack _ d _ => (merge_delta g d).1 end).
Proof. destruct cmd as [p d|f d|p d vv|e]; cbn [handle_command]; try done; by destruct (merge_delta g d) as [g' evs]. Qed.

Lemma handle_command_inv g cmd : gossip_inv g -> gossip_inv (handle_command g cmd).1.
Proof.
  intros Hg. destruct (handle_command_state g cmd) as [Hn Hi].
  enough (Hx : gossip_inv (match cmd with AddNode e => add_node g e
     | Push _ d | ReceiveDelta _ d | Ack _ d _ => (merge_delta g d).1 end))
    by (destruct Hx as [Hx1 Hx2 Hx3]; split; rewrite ?Hn, ?Hi; done).
  destruct cmd; (by apply gossip_add_node_inv) || (by apply merge_delta_inv).
Qed.

(** ** Incarnations never go back *)

Lemma set_entry_inc g id e inc i n :
  default 0 (gp_incarnations g !! id) <= inc -> gp_incarnations g !! i = Some n ->
  exists n', gp_incarnations (set_entry g id e inc) !! i = Some n' /\ n <= n'.
Proof.
  intros Hle Hn. cbn [set_entry gp_incarnations]. destruct (decide (i = id)) as [->|Hne].
  - rewrite lookup_insert_eq. rewrite Hn in Hle. by eexists.
  - rewrite lookup_insert_ne by done. exists n. split; [done|lia].
Qed.

Lemma merge_delta_inc delta : forall g i n,
  gp_incarnations g !! i = Some n ->
  exists n', gp_incarnations (merge_delta g delta).1 !! i = Some n' /\ n <= n'.
Proof.
  induction delta as [|e delta IH]; intros g i n Hn; [exists n; split; [done|lia]|].
  rewrite merge_delta_cons, merge_entry_state.
  destruct (merge_accepts g e) eqn:Ea; [|by apply IH].
  destruct (set_entry_inc g (ne_node_id e) (accepted_entry g e) (ne_incarnation e) i n) as (n' & Hn' & Hle);
    [by apply merge_accepts_inc|done|].
  destruct (IH _ i n' Hn') as (n'' & -> & Hle'). exists n''. split; [done|lia].
Qed.

Lemma handle_command_inc g cmd i n :
  gp_incarnations g !! i = Some n ->
  exists n', gp_incarnations (handle_command g cmd).1 !! i = Some n' /\ n <= n'.
Proof.
  intros Hn. rewrite (proj2 (handle_command_state g cmd)).
  destruct cmd as [p d|f d|p d vv|e]; try by apply merge_delta_inc.
  unfold add_node. destruct (Z.ltb_spec (ne_incarnation e) (default 0 (gp_incarnations g !! ne_node_id e))).
  - exists n. split; [done|lia].
  - destruct (_ && _); [exists n; split; [done|lia]|]. by apply set_entry_inc.
Qed.

(** C33: From an empty gossip state, whatever commands are handled, every
    entry sits under its own node id at the incarnation recorded for it, every
    recorded node keeps an entry, and no command lowers the recorded
    incarnation of a node. *)
Theorem gossip_state_invariant self k (cmds more : list (GossipCommand M)) :
  let g := foldl (fun g c => (handle_command g c).1) (gossip_new self k) cmds in
  gossip_inv g /\
  forall id n, gp_incarnations g !! id = Some n ->
    exists n', gp_incarnations (foldl (fun g c => (handle_command g c).1) g more) !! id = Some n' /\ n <= n'.
Proof.
  intros g. split.
  - subst g. generalize (gossip_new_inv self k). generalize (gossip_new (M:=M) self k).
    induction cmds as [|c cmds IH]; intros g Hg; [done|]. cbn [foldl]. by apply IH, handle_command_inv.
  - clearbody g. clear cmds. revert g. induction more as [|c more IH]; intros g id n Hn; cbn [foldl].
    + exists n. split; [done|lia].
    + destruct (handle_command_inc g c id n Hn) as (n' & Hn' & Hle).
      destruct (IH _ id n' Hn') as (n'' & -> & Hle'). exists n''. split; [done|lia].
Qed.
(** ** Redelivery and own deltas *)

Lemma merge_entry_rejected g e : merge_accepts g e = false -> merge_entry g e = (g, []).
Proof. unfold merge_entry. by intros ->. Qed.

Lemma merge_delta_rejected delta : forall g,
  (forall e, e ∈ delta -> merge_accepts g e = false) -> merge_delta g delta = (g, []).
Proof.
  induction delta as [|e delta IH]; intros g Hall; [done|]. cbn [merge_delta].
  rewrite merge_entry_rejected by (apply Hall; left). rewrite IH; [done|]. intros e' He'. apply Hall. by right.
Qed.

(** Merging entries of other nodes does not change the decision for [e]. *)
Lemma merge_accepts_local g g' e :
  gp_node_id g = gp_node_id g' ->
  gp_nodes g !! ne_node_id e = gp_nodes g' !! ne_node_id e ->
  gp_incarnations g !! ne_node_id e = gp_incarnations g' !! ne_node_id e ->
  merge_accepts g e = merge_accepts g' e.
Proof. intros H1 H2 H3. unfold merge_accepts. by rewrite H1, H2, H3. Qed.

Lemma merge_delta_frame delta : forall g id,
  id ∉ ne_node_id <$> delta ->
  gp_node_id (merge_delta g delta).1 = gp_node_id g /\
  gp_nodes (merge_delta g delta).1 !! id = gp_nodes g !! id /\
  gp_incarnations (merge_delta g delta).1 !! id = gp_incarnations g !! id.
Proof.
  induction delta as [|e delta IH]; intros g id Hid; [done|].
  rewrite fmap_cons, not_elem_of_cons in Hid. destruct Hid as [Hne Hid].
  rewrite merge_delta_cons. destruct (IH (merge_entry g e).1 id Hid) as (-> & -> & ->).
  rewrite merge_entry_state. destruct (merge_accepts g e); [|done].
  cbn [set_entry gp_node_id gp_nodes gp_incarnations]. by rewrite !lookup_insert_ne by done.
Qed.

Lemma merge_entry_settles g e : merge_accepts (merge_entry g e).1 e = false.
Proof.
  rewrite merge_entry_state. destruct (merge_accepts g e) eqn:Ea; [|done].
  unfold merge_accepts. cbn [set_entry gp_node_id gp_nodes gp_incarnations].
  rewrite !lookup_insert_eq. cbn [default from_option accepted_entry ne_origin ne_state ne_version].
  rewrite Z.ltb_irrefl, Z.eqb_refl. unfold supersedes.
  rewrite Z.ltb_irrefl, Z.eqb_refl, bool_decide_true by done. by rewrite Z.leb_refl.
Qed.

Lemma merge_delta_settles delta : forall g,
  NoDup (ne_node_id <$> delta) -> forall e, e ∈ delta -> merge_accepts (merge_delta g delta).1 e = false.
Proof.
  induction delta as [|e0 delta IH]; intros g Hnd e He; [by apply not_elem_of_nil in He|].
  rewrite fmap_cons in Hnd. apply NoDup_cons in Hnd as [Hnew Hnd]. rewrite merge_delta_cons.
  apply elem_of_cons in He as [->|He]; [|by apply IH].
  destruct (merge_delta_frame delta (merge_entry g e0).1 (ne_node_id e0) Hnew) as (E1 & E2 & E3).
  rewrite (merge_accepts_local _ (merge_entry g e0).1) by done. apply merge_entry_settles.
Qed.

(** A delta that arrives again changes nothing and raises no event. *)
Theorem merge_delta_idempotent g delta :
  NoDup (ne_node_id <$> delta) ->
  merge_delta (merge_delta g delta).1 delta = ((merge_delta g delta).1, []).
Proof. intros Hnd. apply merge_delta_rejected. intros e He. by apply merge_delta_settles. Qed.

Lemma elem_of_build_delta g e :
  gossip_inv g -> e ∈ build_delta g <-> gp_nodes g !! ne_node_id e = Some e.
Proof.
  intros Hg. unfold build_delta, nodes_values. rewrite list_elem_of_fmap. split.
  - intros ([id e'] & -> & Hin%elem_of_map_to_list). cbn [snd]. by rewrite (gi_key g Hg _ _ Hin).
  - intros He. exists (ne_node_id e, e). split; [done|]. by apply elem_of_map_to_list.
Qed.

Lemma elem_of_build_delta_for g peer e :
  gossip_inv g -> e ∈ build_delta_for g peer <->
    gp_nodes g !! ne_node_id e = Some e /\
    newer_than (gp_watermarks g !! peer) (ne_node_id e) (ne_origin e) (ne_version e) = true.
Proof.
  intros Hg. unfold build_delta_for. rewrite list_elem_of_filter, elem_of_build_delta by done.
  rewrite Is_true_true. tauto.
Qed.

Lemma push_own_delta g peer :
  gossip_inv g -> (handle_command g (Push peer (build_delta_for g peer))).1 = g.
Proof.
  intros Hg. cbn [handle_command]. rewrite merge_delta_rejected; [done|].
  intros e [He _]%elem_of_build_delta_for; [|done]. by apply merge_accepts_rejects_own.
Qed.

(** A gossip round, to whatever peers the random choice gives, leaves the
    local state as it is, raises no event, and pushes to each peer with
    something to learn the entries its watermark does not cover. *)
Theorem gossip_round_pushes_news g peers :
  gossip_inv g ->
  (on_gossip_tick g peers).1 = g /\
  forall out, out ∈ (on_gossip_tick g peers).2 -> out_events out = [] /\
    exists peer, peer ∈ peers /\ build_delta_for g peer <> [] /\
      out_push out = e ← gp_nodes g !! peer; Some (ne_address e, build_delta_for g peer, version_vector_of g).
Proof.
  intros Hg. induction peers as [|peer peers IH]; cbn [on_gossip_tick].
  - split; [done|]. intros out Hin. by apply not_elem_of_nil in Hin.
  - destruct IH as [IH1 IH2]. destruct (build_delta_for g peer) as [|e0 delta] eqn:Ed.
    { split; [done|]. intros out Hout. destruct (IH2 out Hout) as (He & p & Hp & Hx). split; [done|].
      exists p. split; [by right|done]. }
    assert (Hrej : merge_delta g (e0 :: delta) = (g, [])).
    { apply merge_delta_rejected. intros e He. apply merge_accepts_rejects_own; [done|].
      rewrite <- Ed in He. by apply elem_of_build_delta_for in He as [? _]. }
    cbn [handle_command]. rewrite Hrej. destruct (on_gossip_tick g peers) as [g' outs]. cbn [fst snd] in *.
    split; [done|]. intros out [->|Hout]%elem_of_cons.
    + split; [done|]. exists peer. rewrite Ed. split; [left|done].
    + destruct (IH2 out Hout) as (He & p & Hp & Hx). split; [done|]. exists p. split; [by right|done].
Qed.

(** A rejoin can be hidden from a peer. The watermark compares versions
    only, and a restarted node counts its versions from zero again: an entry
    accepted because of its higher incarnation is left out of every delta for
    a peer that acknowledged a version of the earlier incarnation at least as
    high. *)
Theorem rejoin_hidden_by_watermark g from peer wm origins known e local :
  gossip_inv g -> gp_nodes g !! ne_node_id e = Some local ->
  ne_incarnation local < ne_incarnation e ->
  gp_watermarks g !! peer = Some wm -> wm !! ne_node_id e = Some origins ->
  origins !! ne_origin e = Some known -> ne_version e <= known ->
  let g' := (handle_command g (ReceiveDelta from [e])).1 in
  gp_incarnations g' !! ne_node_id e = Some (ne_incarnation e) /\
  ne_node_id e ∉ ne_node_id <$> build_delta_for g' peer.
Proof.
  intros Hg Hl Hinc Hwm Ho Hk Hv g'.
  assert (Ha : merge_accepts g e = true).
  { unfold merge_accepts. rewrite (gi_inc g Hg _ _ Hl). cbn [default from_option id].
    destruct (Z.ltb_spec (ne_incarnation e) (ne_incarnation local)); [lia|].
    destruct (Z.eqb_spec (ne_incarnation e) (ne_incarnation local)); [lia|done]. }
  assert (Eg : g' = set_entry g (ne_node_id e) (accepted_entry g e) (ne_incarnation e)).
  { subst g'. cbn [handle_command merge_delta]. destruct (merge_entry g e) as [g1 evs] eqn:E1. cbn [fst].
    apply (f_equal fst) in E1. rewrite merge_entry_state, Ha in E1. cbn [fst] in E1. congruence. }
  clearbody g'. subst g'. assert (Hg' : gossip_inv (set_entry g (ne_node_id e) (accepted_entry g e) (ne_incarnation e)))
    by (by apply (set_entry_inv g (accepted_entry g e))).
  split; [by cbn [set_entry gp_incarnations]; rewrite lookup_insert_eq|].
  intros (e' & Eid & He')%list_elem_of_fmap. apply elem_of_build_delta_for in He' as [Hin Hnew]; [|done].
  rewrite <- Eid in Hin, Hnew. cbn [set_entry gp_nodes gp_watermarks] in Hin, Hnew.
  rewrite lookup_insert_eq in Hin. apply (inj Some) in Hin. subst e'.
  cbn [accepted_entry ne_origin ne_version] in Hnew. unfold newer_than in Hnew.
  rewrite Hwm in Hnew. cbn [mbind option_bind] in Hnew. rewrite Ho in Hnew. cbn [mbind option_bind] in Hnew.
  rewrite Hk in Hnew. apply Z.ltb_lt in Hnew. lia.
Qed.

(** The size of a round is computed with the number of candidate peers
    cast to a byte: a node with 256 candidates, or any multiple, pushes to
    nobody, whatever the configured fan-out; below 256 it is the smaller of
    the two numbers. *)
Theorem gossip_fanout_wraps g :
  0 <= gp_fanout_k g ->
  (Z.of_nat (length (gossip_candidates g)) < 256 ->
     fanout g = Z.min (gp_fanout_k g) (Z.of_nat (length (gossip_candidates g)))) /\
  (forall n, length (gossip_candidates g) = (256 * n)%nat -> fanout g = 0).
Proof.
  intros Hk. unfold fanout, wrap8. split.
  - intros Hlt. rewrite Z.mod_small by lia. done.
  - intros n ->. replace (Z.of_nat (256 * n)) with (Z.of_nat n * 2 ^ 8) by lia.
    rewrite Z.mod_mul by lia. lia.
Qed.
End gossip_lemmas.

(** ** Witnesses *)

Definition entry_of (id origin : NodeId) (inc version : Z) (s : NodeState) : NodeEntry unit :=
  {| ne_node_id := id; ne_incarnation := inc; ne_state := s; ne_address := (1, 1); ne_grpc_address := (1, 2);
     ne_version := version; ne_origin := origin; ne_manifest := None |}.

(** Node [a] knows node [b] at version 7, which node [c] has acknowledged. *)
Definition gossip_of_a : GossipProtocol unit :=
  foldl (fun g c => (handle_command g c).1) (gossip_new [x61] 3)
    [AddNode (entry_of [x62] [x62] 1 7 Alive);
     Ack [x63] [] {[ [x62] := {[ [x62] := 7 ]} ]}].

Lemma gossip_of_a_inv : gossip_inv gossip_of_a.
Proof. apply handle_command_inv, handle_command_inv, gossip_new_inv. Qed.

Lemma merge_delta_idempotent_witness :
  let delta := [entry_of [x62] [x62] 2 1 Alive; entry_of [x63] [x61] 1 1 Suspect] in
  merge_delta (merge_delta gossip_of_a delta).1 delta = ((merge_delta gossip_of_a delta).1, []).
Proof.
  intros delta. apply (merge_delta_idempotent gossip_of_a delta).
  apply NoDup_cons. split; [|apply NoDup_singleton]. by apply (bool_decide_unpack _).
Defined.

Lemma gossip_round_pushes_news_witness : (on_gossip_tick gossip_of_a [[x62]; [x63]]).1 = gossip_of_a.
Proof. apply (gossip_round_pushes_news gossip_of_a [[x62]; [x63]] gossip_of_a_inv). Defined.

Lemma rejoin_hidden_by_watermark_witness :
  [x62] ∉ ne_node_id <$> build_delta_for
    (handle_command gossip_of_a (ReceiveDelta [x62] [entry_of [x62] [x62] 2 1 Alive])).1 [x63].
Proof.
  apply (rejoin_hidden_by_watermark gossip_of_a [x62] [x63] {[ [x62] := {[ [x62] := 7 ]} ]} {[ [x62] := 7 ]} 7
    (entry_of [x62] [x62] 2 1 Alive) (entry_of [x62] [x62] 1 7 Alive)).
  - apply gossip_of_a_inv.
  - exact_eval.
  - cbn. lia.
  - exact_eval.
  - exact_eval.
  - exact_eval.
  - cbn. lia.
Defined.

Lemma gossip_fanout_wraps_witness : fanout gossip_of_a = 1.
Proof.
  destruct (gossip_fanout_wraps gossip_of_a) as [Hf _]; [by vm_compute|].
  rewrite Hf; by vm_compute.
Defined.
