(* ===== verification/Membership.v ===== *)
(** * The membership table and its events
      (crates/oceanfs-membership/src/membership/manager.rs,
       membership/state.rs, membership/accessors.rs)

    The table is changed by [upsert_node_attributed_inner] alone: events of
    the failure detector and of the gossip protocol, the node's own
    announcements and the entries pulled from a seed all end there. It sends
    events, which come back to the same handler, commands for the gossip
    protocol and for the detector, and changes the ring. What the table needs
    of the ring is the interface [Topology]. *)

From Stdlib Require Import ZArith Lia Strings.Byte.
From stdpp Require Import base list gmap fin_maps.
From S2P Require Import Prelude Ring Gossip.

Set Default Proof Using "Type".
Local Open Scope Z_scope.

(** ** The ring as the table sees it *)

(** [top_fits r n] says that [n] can take its place without taking one of
    another member. *)
Class Topology (R : Type) := {
  top_ok : R -> Prop;
  top_fits : R -> NodeId -> Prop;
  top_members : R -> list NodeId;
  top_add : R -> NodeId -> R;
  top_remove : R -> NodeId -> option R;
  top_add_ok r n : top_ok r -> top_fits r n -> top_ok (top_add r n);
  top_add_members r n m : top_ok r -> m ∈ top_members (top_add r n) <-> m = n \/ m ∈ top_members r;
  top_remove_ok r r' n : top_ok r -> top_remove r n = Some r' -> top_ok r';
  top_remove_members r n m : top_ok r ->
    m ∈ top_members (default r (top_remove r n)) <-> m <> n /\ m ∈ top_members r }.

Section table.
Context {M R : Type} `{!EqDecision M} `{!Topology R}.

Record StoredEntry := {
  se_state : NodeState; se_incarnation : Incarnation;
  se_address : SocketAddr; se_membership_address : SocketAddr;
  se_version : Z; se_origin : NodeId; se_manifest : option M }.

Record MembershipState := {
  ms_nodes : gmap NodeId StoredEntry;
  ms_incarnations : gmap NodeId Incarnation }.

Record Membership := {
  m_node_id : NodeId; m_address : SocketAddr; m_grpc_address : SocketAddr;
  m_state : MembershipState; m_ring : R; m_ring_version : Z;
  m_self_version : Z; m_self_manifest : option M }.

Definition membership_new (node_id : NodeId) (address grpc_address : SocketAddr) (ring : R) : Membership :=
  {| m_node_id := node_id; m_address := address; m_grpc_address := grpc_address;
     m_state := {| ms_nodes := ∅; ms_incarnations := ∅ |}; m_ring := ring; m_ring_version := 0;
     m_self_version := 0; m_self_manifest := None |}.

(** What is sent: an event, [AddNode] to the gossip protocol, [RemoveNode]
    to the failure detector. *)
Inductive message := Event (ev : MembershipEvent M) | ToGossip (e : NodeEntry M) | ToDetector (n : NodeId).

(** The arguments of an upsert; an event gives them. *)
Record update := {
  u_node_id : NodeId; u_state : NodeState; u_incarnation : Incarnation;
  u_address : option SocketAddr; u_version : Z; u_origin : NodeId;
  u_membership_address : option SocketAddr; u_manifest : option M }.

Definition update_of_event (ev : MembershipEvent M) : update :=
  {| u_node_id := ev_node_id ev; u_state := ev_new_state ev; u_incarnation := ev_incarnation ev;
     u_address := ev_address ev; u_version := ev_version ev; u_origin := ev_origin ev;
     u_membership_address := ev_membership_address ev; u_manifest := ev_manifest ev |}.

(** The four early returns of [upsert_node_attributed_inner], in order. *)
Definition upsert_accepts (self_id : NodeId) (st : MembershipState) (u : update) : bool :=
  let local := ms_nodes st !! u_node_id u in
  let recorded := ms_incarnations st !! u_node_id u in
  let readmission_gated :=
    match local with None => true | Some e => bool_decide (se_state e = Dead \/ se_state e = Left) end in
  if readmission_gated && from_option (fun last => u_incarnation u <=? last) false recorded then false else
  if from_option (fun last => u_incarnation u <? last) false recorded then false else
  if bool_decide (u_node_id u = self_id /\ u_origin u <> self_id) then false else
  match local with
  | Some e =>
      if u_incarnation u =? se_incarnation e
      then supersedes self_id (u_node_id u) (u_origin u) (u_state u) (u_version u)
             (se_origin e) (se_state e) (se_version e)
      else true
  | None => true
  end.

Definition or_else {A} (a b : option A) : option A := match a with Some x => Some x | None => b end.

(** The address after the update; without one a new entry that is neither
    dead nor gone is dropped. *)
Definition effective_address (st : MembershipState) (u : update) : option SocketAddr :=
  let known := or_else (u_address u) (se_address <$> ms_nodes st !! u_node_id u) in
  match u_state u with
  | Left => known
  | Dead => Some (default null_addr known)
  | _ => known
  end.

Definition effective_incarnation (st : MembershipState) (u : update) : Incarnation :=
  match ms_incarnations st !! u_node_id u with
  | None => u_incarnation u
  | Some last => Z.max last (u_incarnation u)
  end.

Definition effective_manifest (st : MembershipState) (u : update) : option M :=
  or_else (u_manifest u) (ms_nodes st !! u_node_id u ≫= se_manifest).

(** The transition of the state, without the notifications. *)
Definition apply_update (st : MembershipState) (u : update) : option MembershipState :=
  let inc := effective_incarnation st u in
  let stored addr :=
    {| se_state := u_state u; se_incarnation := inc; se_address := addr;
       se_membership_address := default (default addr (se_membership_address <$> ms_nodes st !! u_node_id u))
                                  (u_membership_address u);
       se_version := u_version u; se_origin := u_origin u; se_manifest := effective_manifest st u |} in
  let incs := <[u_node_id u := inc]> (ms_incarnations st) in
  if bool_decide (u_state u = Left)
  then Some {| ms_nodes := delete (u_node_id u) (ms_nodes st); ms_incarnations := incs |}
  else addr ← effective_address st u;
       Some {| ms_nodes := <[u_node_id u := stored addr]> (ms_nodes st); ms_incarnations := incs |}.

(** The change of the ring for a node that is new or changes state. *)
Definition update_ring (r : R) (is_new : bool) (u : update) : R :=
  if is_new then top_add r (u_node_id u)
  else if bool_decide (u_state u = Left) then default r (top_remove r (u_node_id u))
  else r.

Definition notifications (st : MembershipState) (old : option NodeState) (u : update) : list message :=
  let inc := effective_incarnation st u in
  let addr := effective_address st u in
  [Event {| ev_node_id := u_node_id u; ev_old_state := default Alive old; ev_new_state := u_state u;
            ev_incarnation := inc; ev_address := addr; ev_version := u_version u;
            ev_origin := u_origin u; ev_membership_address := u_membership_address u;
            ev_manifest := effective_manifest st u |}]
  ++ (if bool_decide (u_state u = Dead \/ u_state u = Left) then [ToDetector (u_node_id u)] else [])
  ++ [ToGossip {| ne_node_id := u_node_id u; ne_incarnation := inc; ne_state := u_state u;
                  ne_address := default (default fallback_addr
                    (se_membership_address <$> ms_nodes st !! u_node_id u)) (u_membership_address u);
                  ne_grpc_address := default fallback_addr addr;
                  ne_version := u_version u; ne_origin := u_origin u;
                  ne_manifest := effective_manifest st u |}].

Definition with_state (m : Membership) (st : MembershipState) (r : R) (rv : Z) : Membership :=
  {| m_node_id := m_node_id m; m_address := m_address m; m_grpc_address := m_grpc_address m;
     m_state := st; m_ring := r; m_ring_version := rv;
     m_self_version := m_self_version m; m_self_manifest := m_self_manifest m |}.

(** [upsert_node_attributed_inner] up to [drop(inner)], under the lock of the
    table. What is left to do is [Some] when the node is new, or changes state:
    whether it is new, and the messages to send. *)
Definition upsert_table (m : Membership) (u : update) : Membership * option (bool * list message) :=
  let st := m_state m in
  if upsert_accepts (m_node_id m) st u then
    match apply_update st u with
    | None => (m, None)
    | Some st' =>
        let old := se_state <$> ms_nodes st !! u_node_id u in
        let is_new := bool_decide (old = None) in
        (with_state m st' (m_ring m) (m_ring_version m),
         if is_new || bool_decide (default Alive old <> u_state u) then Some (is_new, notifications st old u) else None)
    end
  else (m, None).

(** The rest runs without a lock: the ring is read ([snapshot]), the copy is
    changed, and the copy becomes the ring. *)
Definition store_ring (m : Membership) (snapshot : R) (is_new : bool) (u : update) : Membership :=
  with_state m (m_state m) (update_ring snapshot is_new u) (m_ring_version m + 1).

(** The whole upsert, when no other task changes the ring between the read
    and the store. *)
Definition upsert_node_attributed_inner (m : Membership) (u : update) : Membership * list message :=
  match upsert_table m u with
  | (m, Some (is_new, out)) => (store_ring m (m_ring m) is_new u, out)
  | (m, None) => (m, [])
  end.

(** [upsert_node]: a local observation, at version 0. *)
Definition upsert_node (m : Membership) (node_id : NodeId) (state : NodeState) (inc : Incarnation)
    (address : option SocketAddr) : Membership * list message :=
  upsert_node_attributed_inner m
    {| u_node_id := node_id; u_state := state; u_incarnation := inc; u_address := address;
       u_version := 0; u_origin := m_node_id m; u_membership_address := None; u_manifest := None |}.

(** The event handler task. *)
Definition handle_event (m : Membership) (ev : MembershipEvent M) : Membership * list message :=
  upsert_node_attributed_inner m (update_of_event ev).

Fixpoint handle_events (m : Membership) (evs : list (MembershipEvent M)) : Membership * list message :=
  match evs with
  | [] => (m, [])
  | ev :: evs =>
      let '(m, out) := handle_event m ev in
      let '(m, outs) := handle_events m evs in (m, out ++ outs)
  end.

(** ** The node's own announcements *)

(** [self_version.fetch_add(1) + 1]. *)
Definition next_self_version (m : Membership) : Membership * Z :=
  let v := m_self_version m + 1 in
  ({| m_node_id := m_node_id m; m_address := m_address m; m_grpc_address := m_grpc_address m;
      m_state := m_state m; m_ring := m_ring m; m_ring_version := m_ring_version m;
      m_self_version := v; m_self_manifest := m_self_manifest m |}, v).

Definition self_update (m : Membership) (inc : Incarnation) (addr maddr : SocketAddr) (v : Z)
    (manifest : option M) : update :=
  {| u_node_id := m_node_id m; u_state := Alive; u_incarnation := inc; u_address := Some addr;
     u_version := v; u_origin := m_node_id m; u_membership_address := Some maddr; u_manifest := manifest |}.

(** The end of [join]: the node enters its own table. *)
Definition join_self (m : Membership) (inc : Incarnation) : Membership * list message :=
  let '(m, v) := next_self_version m in
  upsert_node_attributed_inner m (self_update m inc (m_grpc_address m) (m_address m) v (m_self_manifest m)).

(** The incarnation of the leave events and of a manifest change. *)
Definition self_incarnation (m : Membership) : Incarnation :=
  default 1 (or_else (ms_incarnations (m_state m) !! m_node_id m)
               (se_incarnation <$> ms_nodes (m_state m) !! m_node_id m)).

Definition leave_event (m : Membership) (old new : NodeState) (v : Z) : MembershipEvent M :=
  {| ev_node_id := m_node_id m; ev_old_state := old; ev_new_state := new;
     ev_incarnation := self_incarnation m; ev_address := Some (m_address m); ev_version := v;
     ev_origin := m_node_id m; ev_membership_address := Some (m_address m); ev_manifest := None |}.

(** [leave] of a started node, with the outcome of the two handoffs of the
    leave handler; the events it sends, and its result. *)
Definition leave (m : Membership) (handoff : option (bool * bool)) : Membership * list (MembershipEvent M) * bool :=
  let '(m, v) := next_self_version m in
  let leaving := leave_event m Alive Leaving v in
  let left := leave_event m Leaving Left v in
  match handoff with
  | Some (wal, shards) =>
      if wal && shards then
        (with_state m (m_state m) (default (m_ring m) (top_remove (m_ring m) (m_node_id m))) (m_ring_version m + 1),
         [leaving; left], true)
      else (m, [leaving], false)
  | None =>
      (with_state m (m_state m) (default (m_ring m) (top_remove (m_ring m) (m_node_id m))) (m_ring_version m + 1),
       [leaving; left], true)
  end.

Definition set_self_manifest (m : Membership) (manifest : M) : Membership * list message :=
  let '(m, v) := next_self_version m in
  let entry := ms_nodes (m_state m) !! m_node_id m in
  let inc := self_incarnation m in
  let addr := default (m_grpc_address m) (se_address <$> entry) in
  let maddr := default (m_address m) (se_membership_address <$> entry) in
  let m := {| m_node_id := m_node_id m; m_address := m_address m; m_grpc_address := m_grpc_address m;
              m_state := m_state m; m_ring := m_ring m; m_ring_version := m_ring_version m;
              m_self_version := m_self_version m; m_self_manifest := Some manifest |} in
  let '(m, out) := upsert_node_attributed_inner m (self_update m inc addr maddr v (Some manifest)) in
  (m, out ++ [ToGossip {| ne_node_id := m_node_id m; ne_incarnation := inc; ne_state := Alive;
                          ne_address := maddr; ne_grpc_address := addr; ne_version := v;
                          ne_origin := m_node_id m; ne_manifest := Some manifest |}]).

(** ** Exchange with peers *)

(** [nodes_full], filtered by the version vector of the requester: the answer
    of the [Pull] service, and the pull that rides on the answer to a push. *)
Definition stored_to_proto (id : NodeId) (e : StoredEntry) : MembershipEntry M :=
  {| pe_node_id := Some id; pe_state := state_code (se_state e); pe_incarnation := se_incarnation e;
     pe_address := Some (se_membership_address e); pe_grpc_address := Some (se_address e);
     pe_version := se_version e; pe_origin := se_origin e; pe_manifest := se_manifest e |}.

Definition pull_delta (m : Membership) (vv : version_vector) : list (MembershipEntry M) :=
  (fun p => stored_to_proto p.1 p.2) <$>
    filter (fun p : NodeId * StoredEntry => newer_than (Some vv) p.1 (se_origin p.2) (se_version p.2))
      (map_to_list (ms_nodes (m_state m))).

(** The version vector of the answer to a push. *)
Definition ack_vector (m : Membership) : version_vector :=
  foldr (fun p vv => vector_add vv p.1 (se_origin p.2) (se_version p.2)) ∅ (map_to_list (ms_nodes (m_state m))).

(** One entry of the list pulled from a seed. *)
Definition pull_entry (m : Membership) (e : MembershipEntry M) : Membership * list message :=
  match state_of_code (pe_state e), pe_node_id e with
  | Some s, Some id =>
      upsert_node_attributed_inner m
        {| u_node_id := id; u_state := s; u_incarnation := pe_incarnation e;
           u_address := Some (default fallback_addr (pe_grpc_address e)); u_version := pe_version e;
           u_origin := pe_origin e;
           u_membership_address := Some (default fallback_addr (pe_address e)); u_manifest := pe_manifest e |}
  | _, _ => (m, [])
  end.

Fixpoint pull_entries (m : Membership) (es : list (MembershipEntry M)) : Membership * list message :=
  match es with
  | [] => (m, [])
  | e :: es =>
      let '(m, out) := pull_entry m e in
      let '(m, outs) := pull_entries m es in (m, out ++ outs)
  end.

(** ** Accessors *)

Definition state_of (m : Membership) (n : NodeId) : option NodeState := se_state <$> ms_nodes (m_state m) !! n.
Definition incarnation_of (m : Membership) (n : NodeId) : option Incarnation :=
  se_incarnation <$> ms_nodes (m_state m) !! n.
Definition address_of (m : Membership) (n : NodeId) : option SocketAddr := se_address <$> ms_nodes (m_state m) !! n.
End table.
Arguments StoredEntry M : clear implicits.
Arguments MembershipState M : clear implicits.
Arguments Membership M R : clear implicits.
Arguments message M : clear implicits.
Arguments update M : clear implicits.

(** ** Invariant of the table *)

Section table_lemmas.
Context {M R : Type} `{!EqDecision M} `{!Topology R}.
Implicit Types (m : Membership M R) (st : MembershipState M) (u : update M).

Lemma upsert_eq m u :
  upsert_node_attributed_inner m u =
  let st := m_state m in
  if upsert_accepts (m_node_id m) st u then
    match apply_update st u with
    | None => (m, [])
    | Some st' =>
        let old := se_state <$> ms_nodes st !! u_node_id u in
        let is_new := bool_decide (old = None) in
        if is_new || bool_decide (default Alive old <> u_state u)
        then (with_state m st' (update_ring (m_ring m) is_new u) (m_ring_version m + 1), notifications st old u)
        else (with_state m st' (m_ring m) (m_ring_version m), [])
    end
  else (m, []).
Proof.
  unfold upsert_node_attributed_inner, upsert_table. cbv zeta. destruct (upsert_accepts _ _ _); [|done].
  destruct (apply_update _ _); [|done]. by destruct (_ || _).
Qed.

(** Every entry is at the recorded incarnation, and no entry is [Left]. *)
Definition table_inv st : Prop :=
  forall id e, ms_nodes st !! id = Some e ->
    ms_incarnations st !! id = Some (se_incarnation e) /\ se_state e <> Left.

Lemma upsert_accepts_inc self st u :
  upsert_accepts self st u = true -> effective_incarnation st u = u_incarnation u.
Proof.
  unfold upsert_accepts, effective_incarnation.
  destruct (ms_incarnations st !! u_node_id u) as [last|]; [|done]. cbn [from_option].
  destruct (_ && _); [done|]. destruct (Z.ltb_spec (u_incarnation u) last); [done|]. lia.
Qed.

(** What an applied update leaves at its own node, and elsewhere. *)
Lemma apply_update_spec st u st' :
  apply_update st u = Some st' ->
  ms_incarnations st' = <[u_node_id u := effective_incarnation st u]> (ms_incarnations st) /\
  (forall id, id <> u_node_id u -> ms_nodes st' !! id = ms_nodes st !! id) /\
  if decide (u_state u = Left) then ms_nodes st' !! u_node_id u = None else
  exists e, ms_nodes st' !! u_node_id u = Some e /\ se_state e = u_state u /\
    se_incarnation e = effective_incarnation st u /\ se_version e = u_version u /\ se_origin e = u_origin u.
Proof.
  unfold apply_update. destruct (decide (u_state u = Left)) as [El|El].
  - rewrite bool_decide_true by done. intros [= <-]. cbn [ms_incarnations ms_nodes].
    split_and!; [done| |apply lookup_delete_eq]. intros id Hid. by rewrite lookup_delete_ne.
  - rewrite bool_decide_false by done. destruct (effective_address st u) as [addr|]; cbn [mbind option_bind]; [|done].
    intros [= <-]. cbn [ms_incarnations ms_nodes].
    split_and!; [done| |]. { intros id Hid. by rewrite lookup_insert_ne. }
    rewrite lookup_insert_eq. by eexists.
Qed.

(** An upsert either leaves everything as it is or applies the update. *)
Lemma upsert_cases m u :
  upsert_node_attributed_inner m u = (m, []) \/
  exists st', upsert_accepts (m_node_id m) (m_state m) u = true /\ apply_update (m_state m) u = Some st' /\
    m_state (upsert_node_attributed_inner m u).1 = st' /\
    m_node_id (upsert_node_attributed_inner m u).1 = m_node_id m /\
    m_self_version (upsert_node_attributed_inner m u).1 = m_self_version m.
Proof.
  rewrite upsert_eq; cbv zeta. destruct (upsert_accepts _ _ _) eqn:Ea; [|by left].
  destruct (apply_update _ _) as [st'|] eqn:Eu; [|by left]. right. exists st'.
  by destruct (_ || _).
Qed.

Lemma upsert_table_inv m u :
  table_inv (m_state m) -> table_inv (m_state (upsert_node_attributed_inner m u).1).
Proof.
  intros Hm. destruct (upsert_cases m u) as [->|(st' & Ha & Hu & -> & _)]; [done|].
  destruct (apply_update_spec _ _ _ Hu) as (Hi & Ho & Hself). intros id e He. rewrite Hi.
  destruct (decide (id = u_node_id u)) as [->|Hne].
  - rewrite lookup_insert_eq. destruct (decide (u_state u = Left)); [congruence|].
    destruct Hself as (e' & He' & Es & Ei & _). assert (e' = e) as -> by congruence.
    by rewrite Ei, Es.
  - rewrite lookup_insert_ne by done. apply Hm. by rewrite <- Ho.
Qed.

Definition upserts m (us : list (update M)) : Membership M R :=
  foldl (fun m u => (upsert_node_attributed_inner m u).1) m us.

(** An update about [d] that the incarnation gate turns away. *)
Lemma upsert_gated m u e :
  table_inv (m_state m) -> ms_nodes (m_state m) !! u_node_id u = Some e -> se_state e = Dead ->
  u_incarnation u <= se_incarnation e -> upsert_node_attributed_inner m u = (m, []).
Proof.
  intros Hm He Hd Hle. rewrite upsert_eq. cbv zeta. unfold upsert_accepts.
  rewrite He. destruct (Hm _ _ He) as [-> _]. cbn [from_option].
  rewrite bool_decide_true by (by left). by rewrite (proj2 (Z.leb_le _ _)).
Qed.

Lemma upsert_other m u id :
  id <> u_node_id u ->
  ms_nodes (m_state (upsert_node_attributed_inner m u).1) !! id = ms_nodes (m_state m) !! id.
Proof.
  intros Hid. destruct (upsert_cases m u) as [->|(st' & _ & Hu & -> & _)]; [done|].
  by apply (apply_update_spec _ _ _ Hu).
Qed.

(** A node that is recorded dead stays exactly as recorded, whoever
    reports whatever about it, as long as no report has a higher incarnation;
    a report that it is alive at a higher incarnation, with an address,
    readmits it (the node being another one than this one). *)
Theorem dead_until_higher_incarnation m us d e :
  table_inv (m_state m) -> ms_nodes (m_state m) !! d = Some e -> se_state e = Dead ->
  Forall (fun u => u_node_id u = d -> u_incarnation u <= se_incarnation e) us ->
  ms_nodes (m_state (upserts m us)) !! d = Some e /\
  forall u, u_node_id u = d -> d <> m_node_id m -> u_state u = Alive -> is_Some (u_address u) ->
    se_incarnation e < u_incarnation u ->
    state_of (upsert_node_attributed_inner (upserts m us) u).1 d = Some Alive /\
    incarnation_of (upsert_node_attributed_inner (upserts m us) u).1 d = Some (u_incarnation u).
Proof.
  intros Hm He Hd Hall.
  assert (Hkeep : ms_nodes (m_state (upserts m us)) !! d = Some e /\ table_inv (m_state (upserts m us)) /\
                  m_node_id (upserts m us) = m_node_id m).
  { clear -Hm He Hd Hall. revert m Hm He. induction Hall as [|u us Hu Hall IH]; intros m Hm He; [done|].
    cbn [upserts foldl]. fold (upserts (upsert_node_attributed_inner m u).1 us).
    destruct (decide (u_node_id u = d)) as [Ed|Ed].
    - rewrite (upsert_gated m u e); [by apply IH|done|by rewrite Ed|done|by apply Hu].
    - destruct (IH (upsert_node_attributed_inner m u).1) as (H1 & H2 & H3).
      + by apply upsert_table_inv.
      + rewrite upsert_other; [done|]. congruence.
      + split_and!; [done..|]. rewrite H3. by destruct (upsert_cases m u) as [->|(? & _ & _ & _ & -> & _)]. }
  destruct Hkeep as (Hk & Hi & Hid). split; [done|]. generalize (upserts m us) Hk Hi Hid. clear -Hd.
  intros m' Hk Hi Hid u Eu Hns Es [addr Ha] Hlt.
  assert (Hacc : upsert_accepts (m_node_id m') (m_state m') u = true).
  { unfold upsert_accepts. rewrite Eu, Hk. destruct (Hi _ _ Hk) as [-> _]. cbn [from_option].
    rewrite (proj2 (Z.leb_gt _ _)), (proj2 (Z.ltb_ge _ _)), andb_false_r by lia.
    rewrite bool_decide_false by (rewrite Hid; naive_solver).
    by rewrite (proj2 (Z.eqb_neq _ _)) by lia. }
  assert (Haddr : effective_address (m_state m') u = Some addr) by (unfold effective_address; by rewrite Es, Ha).
  assert (exists st', apply_update (m_state m') u = Some st') as [st' Hst].
  { unfold apply_update. rewrite bool_decide_false by (rewrite Es; done). rewrite Haddr. by eexists. }
  assert (Hst' : m_state (upsert_node_attributed_inner m' u).1 = st').
  { rewrite upsert_eq; cbv zeta. rewrite Hacc, Hst. by destruct (_ || _). }
  destruct (apply_update_spec _ _ _ Hst) as (_ & _ & Hself). rewrite decide_False in Hself by (rewrite Es; done).
  destruct Hself as (e' & He' & Hs' & Hi' & _). unfold state_of, incarnation_of. rewrite Hst', <- Eu, He'.
  cbn [fmap option_fmap option_map]. by rewrite Hs', Es, Hi', (upsert_accepts_inc (m_node_id m')).
Qed.

(** What a node records about itself is changed only by reports that
    originate from itself. *)
Theorem self_authority m us :
  Forall (fun u => u_node_id u = m_node_id m -> u_origin u <> m_node_id m) us ->
  ms_nodes (m_state (upserts m us)) !! m_node_id m = ms_nodes (m_state m) !! m_node_id m.
Proof.
  intros Hall. enough (Hx : forall m', m_node_id m' = m_node_id m ->
    ms_nodes (m_state (upserts m' us)) !! m_node_id m = ms_nodes (m_state m') !! m_node_id m) by (by apply Hx).
  induction Hall as [|u us Hu Hall IH]; intros m' Hid; [done|].
  cbn [upserts foldl]. fold (upserts (upsert_node_attributed_inner m' u).1 us).
  assert (Hid' : m_node_id (upsert_node_attributed_inner m' u).1 = m_node_id m).
  { by destruct (upsert_cases m' u) as [->|(? & _ & _ & _ & -> & _)]. }
  rewrite (IH _ Hid'). destruct (decide (u_node_id u = m_node_id m)) as [Eu|Eu].
  - destruct (upsert_cases m' u) as [->|(st' & Ha & _)]; [done|]. exfalso.
    unfold upsert_accepts in Ha. destruct (_ && _); [done|]. destruct (from_option _ _ _); [done|].
    rewrite bool_decide_true in Ha; [done|]. rewrite Hid. by split; [|apply Hu].
  - apply upsert_other. congruence.
Qed.
(** ** The event loop *)

Lemma upsert_messages m u msg :
  msg ∈ (upsert_node_attributed_inner m u).2 ->
  msg ∈ notifications (m_state m) (se_state <$> ms_nodes (m_state m) !! u_node_id u) u.
Proof.
  rewrite upsert_eq; cbv zeta. destruct (upsert_accepts _ _ _); [|by intros ?%not_elem_of_nil].
  destruct (apply_update _ _); [|by intros ?%not_elem_of_nil].
  destruct (_ || _); [done|by intros ?%not_elem_of_nil].
Qed.

Lemma notified_event st old u ev :
  Event ev ∈ notifications st old u ->
  ev_node_id ev = u_node_id u /\ ev_new_state ev = u_state u /\ ev_origin ev = u_origin u /\
  ev_version ev = u_version u /\ ev_incarnation ev = effective_incarnation st u.
Proof.
  unfold notifications. rewrite !elem_of_app, !list_elem_of_singleton.
  intros [[= ->]|[H|[=]]]; [done|]. destruct (bool_decide _); [|by apply not_elem_of_nil in H].
  by apply list_elem_of_singleton in H.
Qed.

Lemma supersedes_irrefl self n o s v : supersedes self n o s v o s v = false.
Proof. unfold supersedes. by rewrite Z.ltb_irrefl, Z.eqb_refl, bool_decide_true, Z.leb_refl by done. Qed.

(** The events an upsert sends come back to the handler that called it;
    handling one changes nothing and sends nothing, so the loop between the
    table and its event channel ends after one turn. *)
Theorem upsert_feedback_settles m u ev :
  Event ev ∈ (upsert_node_attributed_inner m u).2 ->
  handle_event (upsert_node_attributed_inner m u).1 ev = ((upsert_node_attributed_inner m u).1, []).
Proof.
  intros Hev. pose proof (upsert_messages _ _ _ Hev) as Hn.
  destruct (notified_event _ _ _ _ Hn) as (E1 & E2 & E3 & E4 & E5).
  destruct (upsert_cases m u) as [Hu|(st' & Ha & Hu & Hst & Hid & _)];
    [rewrite Hu in Hev; by apply not_elem_of_nil in Hev|].
  set (m' := (upsert_node_attributed_inner m u).1) in *. clearbody m'. clear Hev Hn.
  unfold handle_event. rewrite upsert_eq; cbv zeta.
  enough (upsert_accepts (m_node_id m') (m_state m') (update_of_event ev) = false) as -> by done.
  destruct (apply_update_spec _ _ _ Hu) as (Hi & _ & Hself). rewrite Hid, Hst.
  unfold upsert_accepts, update_of_event. cbn [u_node_id u_incarnation u_origin u_state u_version].
  rewrite E1, E2, E3, E4, E5, Hi, lookup_insert_eq. cbn [from_option].
  destruct (decide (u_state u = Left)) as [El|El].
  - rewrite Hself. cbn [andb]. by rewrite Z.leb_refl.
  - destruct Hself as (e & -> & Es & Ei & Ev & Eo). rewrite Es, Ei, Ev, Eo, Z.leb_refl, Z.ltb_irrefl, Z.eqb_refl.
    destruct (bool_decide (u_state u = Dead \/ u_state u = Left)); [done|]. cbn [andb].
    destruct (bool_decide _); [done|]. apply supersedes_irrefl.
Qed.

(** ** Joining *)

(** A pulled entry about an unknown node is stored as it was at the seed. *)
Lemma pull_entry_stores m n (e : StoredEntry M) :
  n <> m_node_id m -> se_state e <> Left ->
  ms_nodes (m_state m) !! n = None -> ms_incarnations (m_state m) !! n = None ->
  m_state (pull_entry m (stored_to_proto n e)).1
  = {| ms_nodes := <[n := e]> (ms_nodes (m_state m));
       ms_incarnations := <[n := se_incarnation e]> (ms_incarnations (m_state m)) |} /\
  m_node_id (pull_entry m (stored_to_proto n e)).1 = m_node_id m.
Proof.
  intros Hid Hs Hn Hi. unfold pull_entry, stored_to_proto. cbn [pe_state pe_node_id pe_incarnation pe_grpc_address
    pe_version pe_origin pe_address pe_manifest default from_option id].
  assert (Hc : state_of_code (state_code (se_state e)) = Some (se_state e)) by (by destruct (se_state e)).
  rewrite Hc, upsert_eq. cbv zeta. unfold upsert_accepts, apply_update, effective_address,
    effective_incarnation, effective_manifest.
  cbn [u_node_id u_incarnation u_origin u_state u_version u_address u_manifest u_membership_address].
  rewrite Hn, Hi. cbn [from_option andb fmap option_fmap option_map]. rewrite bool_decide_false by naive_solver.
  rewrite bool_decide_false by done. rewrite (bool_decide_true (None = None)) by done.
  destruct e as [es ei ea ema ev eo emf]; cbn [se_state se_incarnation se_address se_membership_address se_version
    se_origin se_manifest] in *.
  destruct es, emf; try done.
Qed.

Lemma pull_entries_cons m e es :
  (pull_entries m (e :: es)).1 = (pull_entries (pull_entry m e).1 es).1.
Proof. cbn [pull_entries]. destruct (pull_entry m e) as [m' o]. cbn [fst]. by destruct (pull_entries m' es). Qed.

(** Entries about the joiner itself are stored only under its own id. *)
Lemma pull_entry_self m (e : StoredEntry M) id :
  id <> m_node_id m ->
  ms_nodes (m_state (pull_entry m (stored_to_proto (m_node_id m) e)).1) !! id = ms_nodes (m_state m) !! id /\
  ms_incarnations (m_state (pull_entry m (stored_to_proto (m_node_id m) e)).1) !! id = ms_incarnations (m_state m) !! id /\
  m_node_id (pull_entry m (stored_to_proto (m_node_id m) e)).1 = m_node_id m.
Proof.
  intros Hid. unfold pull_entry. destruct (state_of_code _); [|done]. cbn [stored_to_proto pe_node_id].
  match goal with |- context [upsert_node_attributed_inner m ?u] => destruct (upsert_cases m u) as
    [->|(st' & _ & Hu & -> & -> & _)] end; [done|].
  destruct (apply_update_spec _ _ _ Hu) as (Hi & Ho & _). cbn [u_node_id] in *.
  rewrite Ho, Hi, lookup_insert_ne by done. done.
Qed.

Lemma pull_entries_copy (l : list (NodeId * StoredEntry M)) : forall m id,
  NoDup l.*1 -> (forall i e, (i, e) ∈ l -> se_state e <> Left) ->
  (forall i, i ∈ l.*1 -> i <> m_node_id m -> ms_nodes (m_state m) !! i = None /\ ms_incarnations (m_state m) !! i = None) ->
  id <> m_node_id m ->
  ms_nodes (m_state (pull_entries m ((fun p => stored_to_proto p.1 p.2) <$> l)).1) !! id
  = match list_to_map (M := gmap NodeId (StoredEntry M)) l !! id with Some e => Some e | None => ms_nodes (m_state m) !! id end.
Proof.
  induction l as [|[i e] l IH]; intros m id Hnd Hleft Hfresh Hid; [done|].
  rewrite fmap_cons in *. apply NoDup_cons in Hnd as [Hni Hnd]. rewrite pull_entries_cons, list_to_map_cons. cbn [fst snd].
  cbn [fst] in Hni. rewrite fmap_cons in Hfresh. cbn [fst] in Hfresh.
  destruct (decide (i = m_node_id m)) as [->|Hi].
  - assert (Hself := fun id => pull_entry_self m e id).
    rewrite IH; [|done|by intros; eapply Hleft; right| |by rewrite (proj2 (proj2 (Hself id Hid)))].
    + rewrite lookup_insert_ne by done. by rewrite (proj1 (Hself id Hid)).
    + intros j Hj Hne. rewrite (proj2 (proj2 (Hself id Hid))) in Hne.
      destruct (Hself j Hne) as (-> & -> & _). apply Hfresh; [by right|done].
  - destruct (Hfresh i) as [Hn Hc]; [left|done|].
    destruct (pull_entry_stores m i e Hi) as [Est Eid]; [by eapply Hleft; left|done|done|].
    rewrite IH, Est; [|done|by intros; eapply Hleft; right| |by rewrite Eid].
    + cbn [ms_nodes]. destruct (decide (id = i)) as [->|Hne].
      * rewrite !lookup_insert_eq. by rewrite not_elem_of_list_to_map_1.
      * by rewrite !lookup_insert_ne by done.
    + intros j Hj Hne. rewrite Eid in Hne. rewrite Est. cbn [ms_nodes ms_incarnations].
      rewrite !lookup_insert_ne by (by intros ->). apply Hfresh; [by right|done].
Qed.

(** A node that joins with an empty table and pulls from a seed, with an
    empty version vector, ends with the seed's entry for every other node:
    state, incarnation, both addresses, attribution and manifest. *)
Theorem join_copies_seed_table (seed : Membership M R) node_id address grpc_address (ring : R) id :
  table_inv (m_state seed) -> id <> node_id ->
  ms_nodes (m_state (pull_entries (membership_new node_id address grpc_address ring) (pull_delta seed ∅)).1) !! id
  = ms_nodes (m_state seed) !! id.
Proof.
  intros Hinv Hid. unfold pull_delta. rewrite filter_true_in.
  2:{ intros p _. unfold newer_than. cbn [mbind option_bind]. by rewrite lookup_empty. }
  rewrite pull_entries_copy.
  - rewrite list_to_map_to_list. cbn [membership_new m_state ms_nodes]. rewrite lookup_empty.
    by destruct (ms_nodes (m_state seed) !! id).
  - apply NoDup_fst_map_to_list.
  - intros i e Hin%elem_of_map_to_list. by apply (Hinv i e).
  - intros i _ _. cbn [membership_new m_state ms_nodes ms_incarnations]. by rewrite !lookup_empty.
  - done.
Qed.

(** ** The ring *)

Definition ring_matches m : Prop :=
  top_ok (m_ring m) /\ forall n, n ∈ top_members (m_ring m) <-> is_Some (ms_nodes (m_state m) !! n).

Lemma upsert_ring m u st' :
  table_inv (m_state m) -> upsert_accepts (m_node_id m) (m_state m) u = true ->
  apply_update (m_state m) u = Some st' ->
  m_state (upsert_node_attributed_inner m u).1 = st' /\
  m_ring (upsert_node_attributed_inner m u).1
  = update_ring (m_ring m) (bool_decide (ms_nodes (m_state m) !! u_node_id u = None)) u.
Proof.
  intros Hm Ha Hu. rewrite upsert_eq; cbv zeta. rewrite Ha, Hu.
  destruct (ms_nodes (m_state m) !! u_node_id u) as [e|] eqn:El; cbn [fmap option_fmap option_map].
  - rewrite !(bool_decide_false (Some _ = None)) by done. cbn [orb default from_option id].
    destruct (decide (se_state e = u_state u)) as [Es|Es].
    + rewrite bool_decide_false by (by intros []). split; [done|]. unfold update_ring.
      rewrite bool_decide_false; [done|]. rewrite <- Es. by apply (Hm _ _ El).
    + by rewrite bool_decide_true.
  - by rewrite !bool_decide_true by done.
Qed.


(** ** Overlapping upserts *)

(** An upsert between its two parts, before and after it read the ring. *)
Inductive ring_task := NeedsRing (is_new : bool) (u : update M) | HoldsRing (snapshot : R) (is_new : bool) (u : update M).

(** The steps of upserts that run at the same time. *)
Inductive upsert_step : Membership M R * list ring_task -> Membership M R * list ring_task -> Prop :=
| TableOnly m ts u m' :
    upsert_table m u = (m', None) -> upsert_step (m, ts) (m', ts)
| TableChanged m ts u m' is_new out :
    upsert_table m u = (m', Some (is_new, out)) -> upsert_step (m, ts) (m', ts ++ [NeedsRing is_new u])
| ReadRing m ts1 ts2 is_new u :
    upsert_step (m, ts1 ++ NeedsRing is_new u :: ts2) (m, ts1 ++ HoldsRing (m_ring m) is_new u :: ts2)
| StoreRing m ts1 ts2 r is_new u :
    upsert_step (m, ts1 ++ HoldsRing r is_new u :: ts2) (store_ring m r is_new u, ts1 ++ ts2).

(** An upsert that runs alone takes these steps one after the other. *)
Lemma upsert_alone m u : rtc upsert_step (m, []) ((upsert_node_attributed_inner m u).1, []).
Proof.
  unfold upsert_node_attributed_inner. destruct (upsert_table m u) as [m' [[is_new out]|]] eqn:E.
  - eapply rtc_l; [by eapply TableChanged|]. eapply rtc_l; [apply (ReadRing _ [] [])|]. apply rtc_once, (StoreRing _ [] []).
  - by apply rtc_once, (TableOnly _ _ u).
Qed.

(** The report of a node that the table can add. *)
Definition admits m u : Prop :=
  ms_nodes (m_state m) !! u_node_id u = None /\ upsert_accepts (m_node_id m) (m_state m) u = true /\
  u_state u <> Left /\ is_Some (u_address u).

Lemma upsert_table_new m u :
  admits m u -> exists st' out, upsert_table m u = (with_state m st' (m_ring m) (m_ring_version m), Some (true, out)) /\
    is_Some (ms_nodes st' !! u_node_id u) /\
    forall n, n <> u_node_id u -> ms_nodes st' !! n = ms_nodes (m_state m) !! n /\
      ms_incarnations st' !! n = ms_incarnations (m_state m) !! n.
Proof.
  intros (Hn & Ha & Hl & [addr Haddr]). destruct (apply_update (m_state m) u) as [st'|] eqn:Hu.
  - exists st'. eexists. split; [|destruct (apply_update_spec _ _ _ Hu) as (Hi & Ho & Hself)].
    + unfold upsert_table. rewrite Ha, Hu, Hn. cbn. done.
    + rewrite decide_False in Hself by done. destruct Hself as (e & He & _). split; [by eexists|].
      intros n Hne. by rewrite Ho, Hi, lookup_insert_ne by done.
  - unfold apply_update, effective_address in Hu. rewrite Haddr, bool_decide_false in Hu by done. by destruct (u_state u).
Qed.

Lemma admits_other m st' u :
  ms_nodes st' !! u_node_id u = ms_nodes (m_state m) !! u_node_id u ->
  ms_incarnations st' !! u_node_id u = ms_incarnations (m_state m) !! u_node_id u ->
  admits m u -> admits (with_state m st' (m_ring m) (m_ring_version m)) u.
Proof. unfold admits, upsert_accepts. cbn [with_state m_state m_node_id]. by intros -> ->. Qed.

(** Reports about a known node that do not say it left leave the ring alone. *)
Lemma upserts_known_ring us : forall m n,
  is_Some (ms_nodes (m_state m) !! n) -> Forall (fun u => u_node_id u = n /\ u_state u <> Left) us ->
  m_ring (upserts m us) = m_ring m /\ is_Some (ms_nodes (m_state (upserts m us)) !! n).
Proof.
  induction us as [|u us IH]; intros m n [e He] Hus; [by split|]. apply Forall_cons in Hus as [[<- Hl] Hus].
  change (upserts m (u :: us)) with (upserts (upsert_node_attributed_inner m u).1 us).
  assert (G : m_ring (upsert_node_attributed_inner m u).1 = m_ring m /\
    is_Some (ms_nodes (m_state (upsert_node_attributed_inner m u).1) !! u_node_id u)).
  { rewrite upsert_eq; cbv zeta. destruct (upsert_accepts _ _ _); [|cbn [fst]; by rewrite He].
    destruct (apply_update _ _) as [st'|] eqn:Hu; [|cbn [fst]; by rewrite He].
    destruct (apply_update_spec _ _ _ Hu) as (_ & _ & Hself). rewrite decide_False in Hself by done.
    destruct Hself as (e' & He' & _). rewrite He. cbn [fmap option_fmap option_map].
    unfold update_ring. rewrite (bool_decide_false (Some (se_state e) = None)), (bool_decide_false (u_state u = Left)) by done.
    cbn [orb]. destruct (bool_decide _); cbn [fst with_state m_ring m_state]; by rewrite He'. }
  destruct G as [G1 G2]. destruct (IH _ _ G2 Hus) as [-> ?]. by split.
Qed.

(** overlapping upserts lose a node of the ring. Two reports of new nodes are
    handled at the same time: each enters its node into the table, both read
    the ring, and each stores its own copy. The node of the first store is in
    the table and not in the ring, and no later report about it puts it there,
    unless it says that the node left. *)
Theorem overlapping_upserts_lose_node m ua ub :
  ring_matches m -> u_node_id ua <> u_node_id ub -> admits m ua -> admits m ub ->
  exists m', rtc upsert_step (m, []) (m', []) /\
    is_Some (ms_nodes (m_state m') !! u_node_id ua) /\ is_Some (ms_nodes (m_state m') !! u_node_id ub) /\
    u_node_id ub ∈ top_members (m_ring m') /\
    forall us, Forall (fun u => u_node_id u = u_node_id ua /\ u_state u <> Left) us ->
      u_node_id ua ∉ top_members (m_ring (upserts m' us)) /\ is_Some (ms_nodes (m_state (upserts m' us)) !! u_node_id ua).
Proof.
  intros [Hok Hmem] Hne Ha Hb. destruct (upsert_table_new m ua Ha) as (st1 & out1 & E1 & Hin1 & Ho1).
  destruct (Ho1 (u_node_id ub)) as [Hn1 Hi1]; [done|].
  destruct (upsert_table_new _ ub (admits_other m st1 ub Hn1 Hi1 Hb)) as (st2 & out2 & E2 & Hin2 & Ho2).
  cbn [with_state m_state m_ring m_ring_version] in E2, Ho2. destruct (Ho2 (u_node_id ua) Hne) as [Hn2 _].
  set (m2 := with_state (with_state m st1 (m_ring m) (m_ring_version m)) st2 (m_ring m) (m_ring_version m)) in *.
  set (m' := store_ring (store_ring m2 (m_ring m) true ua) (m_ring m) true ub).
  assert (Hta : is_Some (ms_nodes (m_state m') !! u_node_id ua)) by (cbn; by rewrite Hn2).
  assert (Hnot : u_node_id ua ∉ top_members (m_ring m')).
  { cbn [m' store_ring with_state m_ring update_ring]. rewrite top_add_members, Hmem by done. destruct Ha as [Hna _].
    rewrite Hna. intros [?|[? [=]]]. done. }
  exists m'. split_and!; [|done|done| |].
  - eapply rtc_l; [by eapply TableChanged|]. eapply rtc_l; [by eapply TableChanged|]. cbn [app].
    eapply rtc_l; [apply (ReadRing _ [] [_])|]. eapply rtc_l; [apply (ReadRing _ [_] [])|]. cbn [app].
    eapply rtc_l; [apply (StoreRing _ [] [_])|]. apply rtc_once, (StoreRing _ [] []).
  - cbn [m' store_ring with_state m_ring update_ring]. rewrite top_add_members by done. by left.
  - intros us Hus. destruct (upserts_known_ring us m' _ Hta Hus) as [-> ?]. by split.
Qed.

(** ** Leaving *)

Lemma leave_success m handoff m1 evs :
  leave m handoff = (m1, evs, true) ->
  m_node_id m1 = m_node_id m /\ m_state m1 = m_state m /\
  evs = [leave_event m Alive Leaving (m_self_version m + 1); leave_event m Leaving Left (m_self_version m + 1)].
Proof.
  unfold leave, next_self_version. destruct handoff as [[[] []]|]; cbn [andb]; try done; by intros [= <- <-].
Qed.

Lemma leave_update m old new v :
  update_of_event (leave_event m old new v)
  = {| u_node_id := m_node_id m; u_state := new; u_incarnation := self_incarnation m;
       u_address := Some (m_address m); u_version := v; u_origin := m_node_id m;
       u_membership_address := Some (m_address m); u_manifest := None |}.
Proof. done. Qed.

(** A self-origin report about a live self is decided by its version. *)
Lemma self_report_accepts m e u :
  table_inv (m_state m) -> ms_nodes (m_state m) !! m_node_id m = Some e ->
  se_state e <> Dead -> se_origin e = m_node_id m ->
  u_node_id u = m_node_id m -> u_origin u = m_node_id m -> u_incarnation u = se_incarnation e ->
  upsert_accepts (m_node_id m) (m_state m) u = negb (u_version u <=? se_version e).
Proof.
  intros Hm He Hs Ho E1 E2 E3. unfold upsert_accepts. rewrite E1, E2, E3, He.
  destruct (Hm _ _ He) as [-> Hl]. cbn [from_option].
  rewrite bool_decide_false by naive_solver. cbn [andb]. rewrite Z.ltb_irrefl, Z.eqb_refl.
  rewrite bool_decide_false by naive_solver. unfold supersedes, authority_class. rewrite Ho, !bool_decide_true by done.
  done.
Qed.

(** A node that leaves gracefully never announces that it has left: the
    [Leaving] and the [Left] event of [leave] carry the same version, so the
    handler applies the first and rejects the second. The node stays
    [Leaving] in its own table, and [Left] is never handed to the gossip
    protocol. *)
Theorem graceful_leave_stops_at_leaving m e handoff m1 evs :
  table_inv (m_state m) -> ms_nodes (m_state m) !! m_node_id m = Some e ->
  se_state e = Alive -> se_origin e = m_node_id m -> se_version e <= m_self_version m ->
  leave m handoff = (m1, evs, true) ->
  map ev_new_state evs = [Leaving; Left] /\
  state_of (handle_events m1 evs).1 (m_node_id m) = Some Leaving /\
  forall ne, ToGossip ne ∈ (handle_events m1 evs).2 -> ne_state ne = Leaving.
Proof.
  intros Hm He Hs Ho Hv (Hid & Hst & ->)%leave_success. split; [done|].
  assert (Hinc : self_incarnation m = se_incarnation e).
  { unfold self_incarnation. by destruct (Hm _ _ He) as [-> _]. }
  set (u1 := update_of_event (leave_event m Alive Leaving (m_self_version m + 1))).
  set (u2 := update_of_event (leave_event m Leaving Left (m_self_version m + 1))).
  assert (Ha1 : upsert_accepts (m_node_id m1) (m_state m1) u1 = true).
  { rewrite (self_report_accepts m1 e); rewrite ?Hid, ?Hst, ?Hs; try done.
    apply negb_true_iff, Z.leb_gt. cbn. lia. }
  assert (exists st', apply_update (m_state m1) u1 = Some st') as [st' Hu1] by (by eexists).
  assert (Hm1 : table_inv (m_state m1)) by (by rewrite Hst).
  destruct (upsert_ring m1 u1 st' Hm1 Ha1 Hu1) as (Hst' & _).
  destruct (apply_update_spec _ _ _ Hu1) as (_ & _ & e' & He' & Es' & Ei' & Ev' & Eo').
  set (m2 := (upsert_node_attributed_inner m1 u1).1) in *.
  assert (Hid2 : m_node_id m2 = m_node_id m).
  { subst m2. rewrite <- Hid. by destruct (upsert_cases m1 u1) as [->|(? & _ & _ & _ & -> & _)]. }
  assert (Hr2 : upsert_node_attributed_inner m2 u2 = (m2, [])).
  { rewrite upsert_eq; cbv zeta. rewrite (self_report_accepts m2 e').
    - rewrite Ev'. cbn. by rewrite Z.leb_refl.
    - by apply upsert_table_inv.
    - by rewrite Hid2, Hst'.
    - by rewrite Es'.
    - by rewrite Eo', Hid2.
    - by rewrite Hid2.
    - by rewrite Hid2.
    - rewrite Ei', (upsert_accepts_inc (m_node_id m1)) by done. done. }
  assert (Hevs : handle_events m1 [leave_event m Alive Leaving (m_self_version m + 1);
                   leave_event m Leaving Left (m_self_version m + 1)]
                 = (m2, (upsert_node_attributed_inner m1 u1).2)).
  { cbn [handle_events]. unfold handle_event. fold u1 u2.
    rewrite (surjective_pairing (upsert_node_attributed_inner m1 u1)). fold m2. rewrite Hr2. by rewrite app_nil_r. }
  rewrite Hevs. cbn [fst snd]. split.
  - unfold state_of. rewrite Hst'. change (m_node_id m) with (u_node_id u1). rewrite He'. cbn. by rewrite Es'.
  - intros ne Hne%upsert_messages. unfold notifications in Hne.
    rewrite !elem_of_app, !list_elem_of_singleton in Hne. destruct Hne as [[=]|[Hne|[= ->]]]; [|done].
    by apply not_elem_of_nil in Hne.
Qed.
End table_lemmas.

(** ** The consistent hashing ring is such a topology *)

Section ring_topology.
Context (sha256 : bytes -> bytes).

Definition ring_ok (r : Ring) : Prop :=
  ring_inv r /\ generated sha256 r /\ (0 < vnodes_per_node (ring_config r))%nat.

Definition ring_without (r : Ring) (n : NodeId) : option Ring :=
  match remove_node r n with Ok (r', _) => Some r' | _ => None end.

(** No vnode of the node falls on one of a member. *)
Definition ring_fits (r : Ring) (n : NodeId) : Prop :=
  vnodes_distinct sha256 (vnodes_per_node (ring_config r)) (n :: node_ids r).

Lemma ring_add_ok r n : ring_ok r -> ring_fits r n -> ring_ok (Ring.add_node sha256 r n).1.
Proof.
  intros (Hi & Hg & Hv) Hd. destruct (Ring.add_node_inv sha256 r n Hv Hd Hi Hg). by split_and!.
Qed.

Lemma ring_add_members r n m :
  ring_ok r -> m ∈ node_ids (Ring.add_node sha256 r n).1 <-> m = n \/ m ∈ node_ids r.
Proof.
  intros _. cbn [Ring.add_node node_ids fst]. case_decide; set_solver.
Qed.

Lemma ring_remove_ok r r' n : ring_ok r -> ring_without r n = Some r' -> ring_ok r'.
Proof.
  intros (Hi & Hg & Hv). unfold ring_without.
  destruct (remove_node r n) as [[r1 ranges]| |] eqn:E; [|done..]. intros [= <-].
  destruct (remove_node_inv sha256 _ _ _ _ E Hi Hg) as [Hi' Hg'].
  split_and!; [done..|]. by destruct (remove_node_positions _ _ _ _ (proj1 Hi) E) as (_ & _ & ->).
Qed.

Lemma ring_remove_members r n m :
  ring_ok r -> m ∈ node_ids (default r (ring_without r n)) <-> m <> n /\ m ∈ node_ids r.
Proof.
  intros (Hi & _). unfold ring_without. destruct (decide (n ∈ node_ids r)) as [Hn|Hn].
  - destruct (remove_node_member r n) as (r' & ranges & E); [by apply Hi|]. rewrite E. cbn [default from_option id].
    destruct (remove_node_positions _ _ _ _ (proj1 Hi) E) as (_ & -> & _). rewrite list_elem_of_filter. done.
  - assert (E : remove_node r n = Err (NodeNotFound n)).
    { unfold remove_node. destruct (filter _ _).*1 as [|p ps] eqn:Ef; [done|]. exfalso. apply Hn, Hi.
      assert (Hp : p ∈ (filter (fun e => e.2 = n) (positions r)).*1) by (rewrite Ef; left).
      apply list_elem_of_fmap in Hp as (x & _ & Hx). apply list_elem_of_filter in Hx as [<- Hx].
      by apply list_elem_of_fmap_2. }
    rewrite E. cbn [default from_option id]. split; [|by intros []]. intros Hm. split; [congruence|done].
Qed.

#[export] Instance ring_topology : Topology Ring :=
  {| top_ok := ring_ok; top_fits := ring_fits; top_members := node_ids; top_add r n := (Ring.add_node sha256 r n).1;
     top_remove := ring_without; top_add_ok := ring_add_ok; top_add_members := ring_add_members;
     top_remove_ok := ring_remove_ok; top_remove_members := ring_remove_members |}.
End ring_topology.

(** ** Witnesses *)

Definition node_a : NodeId := [x61].
Definition node_b : NodeId := [x62].

#[local] Instance toy_topology : Topology Ring := ring_topology toy_digest.

Definition table_at (e : StoredEntry unit) (ring : Ring) : Membership unit Ring :=
  {| m_node_id := node_a; m_address := (1, 1); m_grpc_address := (1, 2);
     m_state := {| ms_nodes := {[node_b := e]}; ms_incarnations := {[node_b := se_incarnation e]} |};
     m_ring := ring; m_ring_version := 0; m_self_version := 0; m_self_manifest := None |}.

Definition dead_b : StoredEntry unit :=
  {| se_state := Dead; se_incarnation := 3; se_address := (2, 2); se_membership_address := (2, 1);
     se_version := 5; se_origin := node_a; se_manifest := None |}.

Definition report_b (s : NodeState) (inc : Z) : update unit :=
  {| u_node_id := node_b; u_state := s; u_incarnation := inc; u_address := Some (2, 2); u_version := 9;
     u_origin := node_b; u_membership_address := None; u_manifest := None |}.

Lemma table_at_inv e ring : se_state e <> Left -> table_inv (m_state (table_at e ring)).
Proof.
  intros Hs id e' He. cbn [table_at m_state ms_nodes ms_incarnations] in *.
  apply lookup_singleton_Some in He as [<- <-]. by rewrite lookup_singleton_eq.
Qed.

Definition ring_b : Ring := (Ring.add_node toy_digest (ring_new {| vnodes_per_node := 1; replication_factor := 1 |}) node_b).1.

Lemma ring_b_ok : ring_ok toy_digest ring_b.
Proof.
  apply ring_add_ok; [split_and!; [split_and!| |cbn; lia]|].
  - constructor.
  - constructor.
  - done.
  - intros e He. by apply not_elem_of_nil in He.
  - apply vnodes_distinct_check. vm_compute. reflexivity.
Qed.

Lemma dead_until_higher_incarnation_witness :
  ms_nodes (m_state (upserts (table_at dead_b ring_b) [report_b Alive 3; report_b Alive 1])) !! node_b = Some dead_b /\
  state_of (upsert_node_attributed_inner (upserts (table_at dead_b ring_b) [report_b Alive 3; report_b Alive 1])
              (report_b Alive 4)).1 node_b = Some Alive.
Proof.
  destruct (dead_until_higher_incarnation (table_at dead_b ring_b) [report_b Alive 3; report_b Alive 1] node_b dead_b)
    as [H1 H2].
  - by apply table_at_inv.
  - apply lookup_singleton_eq.
  - done.
  - repeat constructor; cbn; lia.
  - split; [exact H1|]. apply (H2 (report_b Alive 4)); [done|done|done|by eexists|cbn; lia].
Defined.

Lemma self_authority_witness :
  ms_nodes (m_state (upserts (table_at dead_b ring_b)
    [{| u_node_id := node_a; u_state := Dead; u_incarnation := 7; u_address := None; u_version := 1;
        u_origin := node_b; u_membership_address := None; u_manifest := None |}])) !! node_a = None.
Proof.
  etransitivity; [apply (self_authority (table_at dead_b ring_b))|].
  - apply Forall_singleton. done.
  - by apply lookup_singleton_ne.
Defined.

Lemma upsert_feedback_settles_witness :
  exists ev, Event ev ∈ (upsert_node_attributed_inner (table_at dead_b ring_b) (report_b Alive 4)).2 /\
    (handle_event (upsert_node_attributed_inner (table_at dead_b ring_b) (report_b Alive 4)).1 ev).2 = [].
Proof.
  eexists. assert (Hin : Event _ ∈ (upsert_node_attributed_inner (table_at dead_b ring_b) (report_b Alive 4)).2)
    by (vm_compute; left).
  split; [exact Hin|]. by rewrite (upsert_feedback_settles _ _ _ Hin).
Defined.

Lemma table_at_matches : ring_matches (table_at dead_b ring_b).
Proof.
  split; [apply ring_b_ok|]. intros n. cbn [table_at m_state ms_nodes].
  change (n ∈ [node_b] <-> is_Some (({[node_b := dead_b]} : gmap NodeId (StoredEntry unit)) !! n)).
  rewrite list_elem_of_singleton, lookup_singleton_is_Some. done.
Qed.

Definition report_of (n : NodeId) (s : NodeState) (inc : Z) : update unit :=
  {| u_node_id := n; u_state := s; u_incarnation := inc; u_address := Some (3, 2); u_version := 9;
     u_origin := n; u_membership_address := None; u_manifest := None |}.

Definition node_c : NodeId := [x63].
Definition node_d : NodeId := [x64].


Lemma overlapping_upserts_lose_node_witness :
  exists m', rtc upsert_step (table_at dead_b ring_b, []) (m', []) /\
    is_Some (ms_nodes (m_state m') !! node_c) /\ is_Some (ms_nodes (m_state m') !! node_d) /\
    node_d ∈ node_ids (m_ring m') /\
    forall us, Forall (fun u => u_node_id u = node_c /\ u_state u <> Left) us ->
      node_c ∉ node_ids (m_ring (upserts m' us)) /\ is_Some (ms_nodes (m_state (upserts m' us)) !! node_c).
Proof.
  destruct (overlapping_upserts_lose_node (table_at dead_b ring_b) (report_of node_c Alive 1) (report_of node_d Alive 1))
    as (m' & H1 & H2 & H3 & H4 & H5).
  - apply table_at_matches.
  - done.
  - split_and!; [by vm_compute|by vm_compute|done|by eexists].
  - split_and!; [by vm_compute|by vm_compute|done|by eexists].
  - exists m'. split_and!; [exact H1|exact H2|exact H3|exact H4|exact H5].
Defined.

Definition alive_a : StoredEntry unit :=
  {| se_state := Alive; se_incarnation := 1; se_address := (1, 2); se_membership_address := (1, 1);
     se_version := 2; se_origin := node_b; se_manifest := None |}.

Lemma graceful_leave_stops_at_leaving_witness :
  let m := {| m_node_id := node_b; m_address := (1, 1); m_grpc_address := (1, 2);
     m_state := {| ms_nodes := {[node_b := alive_a]}; ms_incarnations := {[node_b := 1]} |};
     m_ring := ring_b; m_ring_version := 0; m_self_version := 2; m_self_manifest := None |} in
  state_of (handle_events (leave m None).1.1 (leave m None).1.2).1 node_b = Some Leaving.
Proof.
  intros m. apply (graceful_leave_stops_at_leaving m alive_a None).
  - by apply (table_at_inv alive_a ring_b).
  - apply lookup_singleton_eq.
  - done.
  - done.
  - cbn. lia.
  - done.
Defined.

Lemma join_copies_seed_table_witness :
  ms_nodes (m_state (pull_entries (membership_new [x63] (3, 1) (3, 2) ring_b)
    (pull_delta (table_at dead_b ring_b) ∅)).1) !! node_b = Some dead_b.
Proof.
  etransitivity; [apply (join_copies_seed_table (table_at dead_b ring_b) [x63] (3, 1) (3, 2) ring_b node_b)|].
  - by apply table_at_inv.
  - done.
  - apply lookup_singleton_eq.
Defined.
