(* ===== verification/Detector.v ===== *)
(** * The SWIM failure detector
      (crates/oceanfs-membership/src/failure_detector/mod.rs, types.rs,
       ping.rs, suspicion.rs, and grpc/probe_service.rs)

    The detector task: its commands, the interval tick, the suspicion timers
    and the events it sends. Time is an argument of each step, as is the
    random choice of the peer to probe; the network's answers to probes are
    arguments of the probe cycle. *)

From Stdlib Require Import ZArith Lia Strings.Byte.
From stdpp Require Import base list gmap fin_maps.
From S2P Require Import Prelude Gossip.

Set Default Proof Using "Type".
Local Open Scope Z_scope.

(** An entry of [alive_nodes]. *)
Record peer := { p_id : NodeId; p_state : NodeState; p_address : SocketAddr; p_incarnation : Incarnation }.

Record FailureDetector := {
  fd_node_id : NodeId;
  fd_suspicion_timeout : Z;
  fd_indirect_ping_count : nat;
  fd_timers : gmap NodeId (Incarnation * Z);
  fd_alive : list peer;
  fd_pending : gmap NodeId Z;
  fd_versions : gmap NodeId Z }.

Definition detector_new (node_id : NodeId) (suspicion_timeout : Z) (indirect : nat) : FailureDetector :=
  {| fd_node_id := node_id; fd_suspicion_timeout := suspicion_timeout; fd_indirect_ping_count := indirect;
     fd_timers := ∅; fd_alive := []; fd_pending := ∅; fd_versions := ∅ |}.

Definition incarnation_for (d : FailureDetector) (n : NodeId) : option Incarnation :=
  p_incarnation <$> find (fun p => bool_decide (p_id p = n)) (fd_alive d).

Section detector.
(** The type of the manifest, which the detector's events leave empty. *)
Context {M : Type}.
Notation event := (MembershipEvent M).

Definition with_timers (d : FailureDetector) (timers : gmap NodeId (Incarnation * Z)) : FailureDetector :=
  {| fd_node_id := fd_node_id d; fd_suspicion_timeout := fd_suspicion_timeout d;
     fd_indirect_ping_count := fd_indirect_ping_count d; fd_timers := timers; fd_alive := fd_alive d;
     fd_pending := fd_pending d; fd_versions := fd_versions d |}.

(** [retain] of the other nodes, and their removal from the pending probes. *)
Definition drop_peer (d : FailureDetector) (n : NodeId) : FailureDetector :=
  {| fd_node_id := fd_node_id d; fd_suspicion_timeout := fd_suspicion_timeout d;
     fd_indirect_ping_count := fd_indirect_ping_count d; fd_timers := delete n (fd_timers d);
     fd_alive := filter (fun p => p_id p <> n) (fd_alive d);
     fd_pending := delete n (fd_pending d); fd_versions := fd_versions d |}.

Definition next_version (d : FailureDetector) (n : NodeId) : FailureDetector * Z :=
  let next := default 0 (fd_versions d !! n) + 1 in
  ({| fd_node_id := fd_node_id d; fd_suspicion_timeout := fd_suspicion_timeout d;
      fd_indirect_ping_count := fd_indirect_ping_count d; fd_timers := fd_timers d; fd_alive := fd_alive d;
      fd_pending := fd_pending d; fd_versions := <[n := next]> (fd_versions d) |}, next).

Definition detector_event (d : FailureDetector) (n : NodeId) (old new : NodeState) (inc version : Z) : event :=
  {| ev_node_id := n; ev_old_state := old; ev_new_state := new; ev_incarnation := inc; ev_address := None;
     ev_version := version; ev_origin := fd_node_id d; ev_membership_address := None; ev_manifest := None |}.

(** Takes the next version of [n] for an event about it. *)
Definition emit (d : FailureDetector) (n : NodeId) (old new : NodeState) (inc : Z) : FailureDetector * list event :=
  let '(d, version) := next_version d n in (d, [detector_event d n old new inc version]).

(** ** Suspicion *)

Definition mark_suspect (d : FailureDetector) (now : Z) (n : NodeId) : FailureDetector * list event :=
  match fd_timers d !! n with
  | Some _ => (d, [])
  | None =>
      match incarnation_for d n with
      | None => (d, [])
      | Some inc => emit (with_timers d (<[n := (inc, now)]> (fd_timers d))) n Alive Suspect inc
      end
  end.

Definition recover_suspect (d : FailureDetector) (n : NodeId) : FailureDetector * list event :=
  let is_suspect := bool_decide (is_Some (fd_timers d !! n)) ||
    existsb (fun p => bool_decide (p_id p = n) && bool_decide (p_state p = Suspect)) (fd_alive d) in
  if negb is_suspect then (d, []) else
  let timer := fd_timers d !! n in
  let d' := with_timers d (delete n (fd_timers d)) in
  match (match timer with Some (inc, _) => Some inc | None => incarnation_for d n end) with
  | Some inc => emit d' n Suspect Alive inc
  | None => (d', [])
  end.

(** One expired timer: cancelled when the node is known at a higher
    incarnation, otherwise the node is declared dead. *)
Definition expire (d : FailureDetector) (n : NodeId) : FailureDetector * list event :=
  match fd_timers d !! n, incarnation_for d n with
  | Some (timer_inc, _), Some current_inc =>
      if timer_inc <? current_inc then recover_suspect d n
      else emit (drop_peer d n) n Suspect Dead timer_inc
  | Some (timer_inc, _), None => emit (drop_peer d n) n Suspect Dead timer_inc
  | None, _ => emit (drop_peer d n) n Suspect Dead 1
  end.

Definition expired (d : FailureDetector) (now : Z) : list NodeId :=
  (filter (fun t => fd_suspicion_timeout d <= saturating_sub now t.2.2) (map_to_list (fd_timers d))).*1.

Fixpoint expire_all (d : FailureDetector) (ns : list NodeId) : FailureDetector * list event :=
  match ns with
  | [] => (d, [])
  | n :: ns =>
      let '(d, evs) := expire d n in
      let '(d, evs') := expire_all d ns in (d, evs ++ evs')
  end.

Definition check_suspicion_timers (d : FailureDetector) (now : Z) : FailureDetector * list event :=
  expire_all d (expired d now).

(** ** Probes *)

Definition probe_candidates (d : FailureDetector) : list peer :=
  filter (fun p => (p_state p = Alive \/ p_state p = Suspect) /\ p_id p <> fd_node_id d /\
                   fd_pending d !! p_id p = None) (fd_alive d).

Definition relay_candidates (d : FailureDetector) (target : NodeId) : list peer :=
  filter (fun p => p_state p = Alive /\ p_id p <> fd_node_id d /\ p_id p <> target) (fd_alive d).

(** The tick with the position of the random choice among the candidates;
    the target it probes. *)
Definition on_ping_tick (d : FailureDetector) (now : Z) (choice : nat) : FailureDetector * option peer :=
  match probe_candidates d !! choice with
  | None => (d, None)
  | Some p =>
      ({| fd_node_id := fd_node_id d; fd_suspicion_timeout := fd_suspicion_timeout d;
          fd_indirect_ping_count := fd_indirect_ping_count d; fd_timers := fd_timers d; fd_alive := fd_alive d;
          fd_pending := <[p_id p := now]> (fd_pending d); fd_versions := fd_versions d |}, Some p)
  end.

(** [run_probe_cycle]: the direct probe, then one through each relay. *)
Definition run_probe_cycle (direct_ack : bool) (relay_acks : list bool) : bool :=
  if direct_ack then true else existsb id relay_acks.

(** [ProbeGrpcService::probe]: the answer of the node [self] to a probe of
    [target]; [forward] is the answer of the target when this node relays. *)
Definition probe (self : NodeId) (self_incarnation : option Incarnation) (target : option NodeId)
    (is_indirect : bool) (forward : NodeId -> bool * Incarnation) : bool * Incarnation :=
  match target with
  | None => (false, 0)
  | Some target =>
      if bool_decide (target = self) then (true, default 1 self_incarnation)
      else if is_indirect then forward target else (false, 0)
  end.

(** ** Commands and the loop *)

Inductive input :=
| PingResponse (now : Z) (target : NodeId) (success : bool)
| UpdateAliveNodes (nodes : list peer)
| RemoveNode (n : NodeId)
| Tick (now : Z) (choice : nat).

Definition clear_pending (d : FailureDetector) (n : NodeId) : FailureDetector :=
  {| fd_node_id := fd_node_id d; fd_suspicion_timeout := fd_suspicion_timeout d;
     fd_indirect_ping_count := fd_indirect_ping_count d; fd_timers := fd_timers d; fd_alive := fd_alive d;
     fd_pending := delete n (fd_pending d); fd_versions := fd_versions d |}.

Definition set_alive (d : FailureDetector) (nodes : list peer) : FailureDetector :=
  {| fd_node_id := fd_node_id d; fd_suspicion_timeout := fd_suspicion_timeout d;
     fd_indirect_ping_count := fd_indirect_ping_count d; fd_timers := fd_timers d; fd_alive := nodes;
     fd_pending := fd_pending d; fd_versions := fd_versions d |}.

Definition step (d : FailureDetector) (i : input) : FailureDetector * list event :=
  match i with
  | PingResponse now target success =>
      let d := clear_pending d target in
      if success then recover_suspect d target else mark_suspect d now target
  | UpdateAliveNodes nodes => (set_alive d nodes, [])
  | RemoveNode n => (drop_peer d n, [])
  | Tick now choice => check_suspicion_timers (on_ping_tick d now choice).1 now
  end.

Fixpoint run (d : FailureDetector) (ins : list input) : FailureDetector * list event :=
  match ins with
  | [] => (d, [])
  | i :: ins =>
      let '(d, evs) := step d i in
      let '(d, evs') := run d ins in (d, evs ++ evs')
  end.
End detector.

(** ** Timers and known incarnations *)

Section detector_lemmas.
Context {M : Type}.
Notation step := (step (M:=M)).
Notation run := (run (M:=M)).
Notation expire := (expire (M:=M)).
Notation expire_all := (expire_all (M:=M)).

Lemma emit_frame d n old new inc :
  fd_timers (emit (M:=M) d n old new inc).1 = fd_timers d /\ fd_alive (emit (M:=M) d n old new inc).1 = fd_alive d /\
  fd_suspicion_timeout (emit (M:=M) d n old new inc).1 = fd_suspicion_timeout d.
Proof. done. Qed.

Lemma recover_timers d n : fd_timers (recover_suspect (M:=M) d n).1 = delete n (fd_timers d).
Proof.
  unfold recover_suspect. destruct (negb _) eqn:Es.
  - apply negb_true_iff, orb_false_iff in Es as [Es _]. apply bool_decide_eq_false in Es.
    cbn [fst]. rewrite delete_id; [done|]. by apply eq_None_not_Some.
  - by destruct (match fd_timers d !! n with Some _ => _ | None => _ end).
Qed.

Lemma recover_alive d n :
  fd_alive (recover_suspect (M:=M) d n).1 = fd_alive d /\
  fd_suspicion_timeout (recover_suspect (M:=M) d n).1 = fd_suspicion_timeout d.
Proof.
  unfold recover_suspect. destruct (negb _); [done|].
  by destruct (match fd_timers d !! n with Some _ => _ | None => _ end).
Qed.

Lemma recover_not_dead d n ev : ev ∈ (recover_suspect (M:=M) d n).2 -> ev_new_state ev <> Dead.
Proof.
  unfold recover_suspect. destruct (negb _); [by intros ?%not_elem_of_nil|].
  destruct (match fd_timers d !! n with Some _ => _ | None => _ end); [|by intros ?%not_elem_of_nil].
  by intros ->%list_elem_of_singleton.
Qed.

Lemma drop_peer_find d n n' :
  n' <> n -> incarnation_for (drop_peer d n) n' = incarnation_for d n'.
Proof.
  intros Hne. unfold incarnation_for, drop_peer. cbn [fd_alive]. f_equal.
  induction (fd_alive d) as [|p ps IH]; [done|]. rewrite filter_cons. destruct (decide (p_id p <> n)) as [Hp|Hp].
  - cbn [find]. by rewrite IH.
  - cbn [find]. rewrite IH. apply dec_stable in Hp. by rewrite bool_decide_false by congruence.
Qed.

Lemma expire_timers d n : fd_timers (expire d n).1 = delete n (fd_timers d).
Proof.
  unfold expire, Detector.expire. destruct (fd_timers d !! n) as [[ti t0]|] eqn:Et; [|done].
  destruct (incarnation_for d n) as [c|]; [|done]. destruct (ti <? c); [|done]. apply recover_timers.
Qed.

Lemma expire_other d n n' :
  n' <> n -> incarnation_for (expire d n).1 n' = incarnation_for d n'.
Proof.
  intros Hne. unfold expire, Detector.expire.
  assert (Hd : forall old new inc, incarnation_for (emit (M:=M) (drop_peer d n) n old new inc).1 n' = incarnation_for d n')
    by (intros; by apply drop_peer_find).
  destruct (fd_timers d !! n) as [[ti t0]|]; [|apply Hd].
  destruct (incarnation_for d n) as [c|]; [|apply Hd]. destruct (ti <? c); [|apply Hd].
  unfold incarnation_for. by rewrite (proj1 (recover_alive d n)).
Qed.

Lemma expire_events d n ev : ev ∈ (expire d n).2 -> ev_new_state ev = Dead -> ev_node_id ev = n.
Proof.
  unfold expire, Detector.expire.
  destruct (fd_timers d !! n) as [[ti t0]|]; [|by intros ->%list_elem_of_singleton].
  destruct (incarnation_for d n) as [c|]; [|by intros ->%list_elem_of_singleton].
  destruct (ti <? c); [|by intros ->%list_elem_of_singleton]. by intros ?%recover_not_dead.
Qed.

Lemma expire_dead d n inc t0 :
  fd_timers d !! n = Some (inc, t0) -> (forall c, incarnation_for d n = Some c -> c <= inc) ->
  exists ev, ev ∈ (expire d n).2 /\ ev_node_id ev = n /\ ev_new_state ev = Dead /\ ev_incarnation ev = inc.
Proof.
  intros Ht Hc. unfold expire, Detector.expire. rewrite Ht. destruct (incarnation_for d n) as [c|].
  - rewrite (proj2 (Z.ltb_ge _ _)) by (by apply Hc). eexists. split; [left|done].
  - eexists. split; [left|done].
Qed.

Lemma expire_all_events ns : forall d ev,
  ev ∈ (expire_all d ns).2 -> ev_new_state ev = Dead -> ev_node_id ev ∈ ns.
Proof.
  induction ns as [|n ns IH]; intros d ev Hev Hd; cbn [expire_all] in Hev; [by apply not_elem_of_nil in Hev|].
  destruct (expire d n) as [d' evs] eqn:E1. destruct (expire_all d' ns) as [d'' evs'] eqn:E2.
  cbn [snd] in Hev. apply elem_of_app in Hev as [Hev|Hev].
  - apply elem_of_cons. left. apply (expire_events d n); [by rewrite E1|done].
  - right. apply (IH d'); [by rewrite E2|done].
Qed.

Lemma expire_all_timers ns : forall d n inc,
  fd_timers (expire_all d ns).1 !! n = Some inc -> fd_timers d !! n = Some inc.
Proof.
  induction ns as [|m ns IH]; intros d n inc; cbn [expire_all]; [done|].
  destruct (expire d m) as [d' evs] eqn:E1. destruct (expire_all d' ns) as [d'' evs'] eqn:E2. cbn [fst].
  intros Hn. assert (Hn' : fd_timers d' !! n = Some inc) by (apply IH; by rewrite E2).
  assert (Ed : d' = (expire d m).1) by (by rewrite E1).
  rewrite Ed, expire_timers in Hn'. by apply lookup_delete_Some in Hn' as [_ ?].
Qed.

(** Other nodes' expiries leave the timer of [n] alone. *)
Lemma expire_all_other ns : forall d n,
  n ∉ ns -> fd_timers (expire_all d ns).1 !! n = fd_timers d !! n /\
            incarnation_for (expire_all d ns).1 n = incarnation_for d n.
Proof.
  induction ns as [|m ns IH]; intros d n Hn; cbn [expire_all]; [done|].
  apply not_elem_of_cons in Hn as [Hne Hn].
  destruct (expire d m) as [d' evs] eqn:E1. destruct (expire_all d' ns) as [d'' evs'] eqn:E2. cbn [fst].
  destruct (IH d' n Hn) as [H1 H2]. rewrite E2 in H1, H2. cbn [fst] in H1, H2. rewrite H1, H2.
  assert (Ed : d' = (expire d m).1) by (by rewrite E1).
  rewrite Ed, expire_timers, lookup_delete_ne, expire_other by done. done.
Qed.

Lemma expire_all_dead ns d n inc t0 :
  n ∈ ns -> fd_timers d !! n = Some (inc, t0) -> (forall c, incarnation_for d n = Some c -> c <= inc) ->
  exists ev, ev ∈ (expire_all d ns).2 /\ ev_node_id ev = n /\ ev_new_state ev = Dead /\ ev_incarnation ev = inc.
Proof.
  revert d; induction ns as [|m ns IH]; intros d Hn Ht Hc; [by apply not_elem_of_nil in Hn|]. cbn [expire_all].
  destruct (expire d m) as [d' evs] eqn:E1. destruct (expire_all d' ns) as [d'' evs'] eqn:E2. cbn [snd].
  assert (Ed : d' = (expire d m).1) by (by rewrite E1).
  destruct (decide (n = m)) as [->|Hne].
  - destruct (expire_dead d m inc t0 Ht Hc) as (ev & Hev & Hx). exists ev. split; [|done].
    rewrite E1 in Hev. apply elem_of_app. by left.
  - apply elem_of_cons in Hn as [?|Hn]; [done|].
    destruct (IH d') as (ev & Hev & Hx); [done|..].
    + by rewrite Ed, expire_timers, lookup_delete_ne.
    + by rewrite Ed, expire_other.
    + exists ev. split; [|done]. rewrite E2 in Hev. apply elem_of_app. by right.
Qed.

Lemma elem_of_expired d now n :
  n ∈ expired d now <-> exists inc t0, fd_timers d !! n = Some (inc, t0) /\
    fd_suspicion_timeout d <= saturating_sub now t0.
Proof.
  unfold expired. rewrite list_elem_of_fmap. split.
  - intros ([n' [inc t0]] & -> & [Hle Hin]%list_elem_of_filter). apply elem_of_map_to_list in Hin. by exists inc, t0.
  - intros (inc & t0 & Ht & Hle). exists (n, (inc, t0)). split; [done|]. apply list_elem_of_filter.
    split; [done|]. by apply elem_of_map_to_list.
Qed.

Lemma on_ping_tick_frame d now choice :
  fd_timers (on_ping_tick d now choice).1 = fd_timers d /\ fd_alive (on_ping_tick d now choice).1 = fd_alive d /\
  fd_suspicion_timeout (on_ping_tick d now choice).1 = fd_suspicion_timeout d.
Proof. unfold on_ping_tick. by destruct (probe_candidates d !! choice). Qed.

(** ** Death only after a full suspicion, and always after one *)

(** An input after which a suspicion of [n] does not go on. *)
Definition clears (n : NodeId) (i : input) : Prop :=
  match i with
  | PingResponse _ target true => target = n
  | RemoveNode m => m = n
  | _ => False
  end.

Definition suspected_since (ins : list input) (n : NodeId) (t0 : Z) : Prop :=
  exists before after, ins = before ++ PingResponse t0 n false :: after /\ Forall (fun i => ~ clears n i) after.

Lemma suspected_since_snoc ins n t0 i :
  suspected_since ins n t0 -> ~ clears n i -> suspected_since (ins ++ [i]) n t0.
Proof.
  intros (before & after & -> & Hall) Hi. exists before, (after ++ [i]). split; [by rewrite <- app_assoc|].
  apply Forall_app. by split; [|apply Forall_singleton].
Qed.

Lemma mark_suspect_timers d now n n' inc t0 :
  fd_timers (mark_suspect (M:=M) d now n).1 !! n' = Some (inc, t0) ->
  fd_timers d !! n' = Some (inc, t0) \/ n' = n /\ t0 = now.
Proof.
  unfold mark_suspect. destruct (fd_timers d !! n) eqn:Et; [by left|].
  destruct (incarnation_for d n); [|by left]. rewrite (proj1 (emit_frame _ _ _ _ _)).
  cbn [with_timers fd_timers]. destruct (decide (n' = n)) as [->|Hne].
  - rewrite lookup_insert_eq. intros [= <- <-]. by right.
  - rewrite lookup_insert_ne by done. by left.
Qed.

Lemma step_timers d i n inc t0 :
  fd_timers (step d i).1 !! n = Some (inc, t0) ->
  (fd_timers d !! n = Some (inc, t0) /\ ~ clears n i) \/ i = PingResponse t0 n false.
Proof.
  destruct i as [now target []|nodes|m|now choice]; cbn [Detector.step clears].
  - rewrite recover_timers. intros [Hne Ht]%lookup_delete_Some. left. done.
  - intros [Ht|[-> ->]]%mark_suspect_timers; [left; split; [done|tauto]|by right].
  - intros Ht. left. split; [done|tauto].
  - cbn [drop_peer fst fd_timers]. intros [Hne Ht]%lookup_delete_Some. left. split; [done|congruence].
  - intros Ht%expire_all_timers. rewrite (proj1 (on_ping_tick_frame d now choice)) in Ht.
    left. split; [done|tauto].
Qed.

Lemma run_snoc ins : forall d i, (run d (ins ++ [i])).1 = (step (run d ins).1 i).1.
Proof.
  induction ins as [|i0 ins IH]; intros d i; cbn [app Detector.run].
  - cbn [fst]. by destruct (step d i).
  - destruct (step d i0) as [d' evs]. specialize (IH d' i).
    destruct (run d' (ins ++ [i])) as [d1 ?], (run d' ins) as [d2 ?]. cbn [fst] in *. done.
Qed.

Lemma timers_are_suspicions self timeout k ins n inc t0 :
  fd_timers (run (detector_new self timeout k) ins).1 !! n = Some (inc, t0) -> suspected_since ins n t0.
Proof.
  revert n inc t0. induction ins as [|i ins IH] using rev_ind; intros n inc t0.
  - cbn. by rewrite lookup_empty.
  - rewrite run_snoc. intros [[Ht Hc]| ->]%step_timers.
    + apply suspected_since_snoc; [by eapply IH|done].
    + exists ins, []. split; [done|constructor].
Qed.

Lemma step_timeout d i : fd_suspicion_timeout (step d i).1 = fd_suspicion_timeout d.
Proof.
  destruct i as [now target []|nodes|m|now choice]; cbn [Detector.step]; try done.
  - by rewrite (proj2 (recover_alive _ _)).
  - unfold mark_suspect. destruct (fd_timers _ !! target); [done|]. by destruct (incarnation_for _ target).
  - unfold check_suspicion_timers. rewrite <- (proj2 (proj2 (on_ping_tick_frame d now choice))).
    generalize (on_ping_tick d now choice).1. intros d0. generalize (expired d0 now). intros ns.
    revert d0. induction ns as [|n ns IH]; intros d0; [done|]. cbn [Detector.expire_all].
    destruct (expire d0 n) as [d' evs] eqn:E1. destruct (expire_all d' ns) as [d'' evs'] eqn:E2. cbn [fst].
    specialize (IH d'). rewrite E2 in IH. cbn [fst] in IH. rewrite IH.
    assert (Ed : d' = (expire d0 n).1) by (by rewrite E1). rewrite Ed. unfold Detector.expire.
    destruct (fd_timers d0 !! n) as [[ti t0]|]; [|done]. destruct (incarnation_for d0 n) as [c|]; [|done].
    destruct (ti <? c); [apply recover_alive|done].
Qed.

Lemma run_timeout ins : forall d, fd_suspicion_timeout (run d ins).1 = fd_suspicion_timeout d.
Proof.
  induction ins as [|i ins IH] using rev_ind; intros d; [done|]. by rewrite run_snoc, step_timeout, IH.
Qed.

(** The detector declares a node dead only on a tick, after a probe of it
    failed at least the suspicion timeout ago and no probe of it has succeeded
    and it has not been removed since. *)
Theorem dead_only_after_suspicion self timeout k ins i ev :
  ev ∈ (step (run (detector_new self timeout k) ins).1 i).2 -> ev_new_state ev = Dead ->
  exists now choice t0, i = Tick now choice /\ suspected_since ins (ev_node_id ev) t0 /\
    timeout <= saturating_sub now t0.
Proof.
  intros Hev Hd. set (d := (run (detector_new self timeout k) ins).1) in *.
  destruct i as [now target []|nodes|m|now choice]; cbn [Detector.step] in Hev.
  - by apply recover_not_dead in Hev.
  - exfalso. unfold mark_suspect in Hev. destruct (fd_timers _ !! target); [by apply not_elem_of_nil in Hev|].
    destruct (incarnation_for _ target); [|by apply not_elem_of_nil in Hev].
    by apply list_elem_of_singleton in Hev as ->.
  - by apply not_elem_of_nil in Hev.
  - by apply not_elem_of_nil in Hev.
  - exists now, choice. apply expire_all_events in Hev as (inc & t0 & Ht & Hle)%elem_of_expired; [|done].
    destruct (on_ping_tick_frame d now choice) as (Et & _ & Eo). rewrite Et in Ht. rewrite Eo in Hle.
    exists t0. split; [done|]. split; [by eapply timers_are_suspicions|].
    subst d. by rewrite run_timeout in Hle.
Qed.

(** An input that neither clears the suspicion of [n] nor makes it known at a
    higher incarnation than [inc]. *)
Definition quiet (n : NodeId) (inc : Incarnation) (i : input) : Prop :=
  ~ clears n i /\
  match i with UpdateAliveNodes nodes => Forall (fun p => p_id p = n -> p_incarnation p <= inc) nodes | _ => True end.

Definition known_below (d : FailureDetector) (n : NodeId) (inc : Incarnation) : Prop :=
  forall c, incarnation_for d n = Some c -> c <= inc.

Lemma find_below nodes n inc c :
  Forall (fun p => p_id p = n -> p_incarnation p <= inc) nodes ->
  p_incarnation <$> find (fun p => bool_decide (p_id p = n)) nodes = Some c -> c <= inc.
Proof.
  intros Hall. destruct (find _ nodes) as [p|] eqn:Ef; [|done]. intros [= <-].
  apply find_some in Ef as [Hin Hp%bool_decide_eq_true]. rewrite <- list_elem_of_In in Hin.
  rewrite Forall_forall in Hall. by apply Hall.
Qed.

(** A quiet step keeps the timer, or declares the node dead. *)
Lemma quiet_step d n inc t0 i :
  fd_timers d !! n = Some (inc, t0) -> known_below d n inc -> quiet n inc i ->
  (fd_timers (step d i).1 !! n = Some (inc, t0) /\ known_below (step d i).1 n inc /\
     forall now choice, i = Tick now choice -> saturating_sub now t0 < fd_suspicion_timeout d) \/
  exists ev, ev ∈ (step d i).2 /\ ev_node_id ev = n /\ ev_new_state ev = Dead.
Proof.
  intros Ht Hk [Hc Hq]. destruct i as [now target []|nodes|m|now choice]; cbn [Detector.step clears] in *.
  - left. rewrite recover_timers, lookup_delete_ne by done. split_and!; [done| |done].
    intros c. unfold incarnation_for. rewrite (proj1 (recover_alive _ _)). apply Hk.
  - left. unfold mark_suspect. cbn [clear_pending fd_timers].
    destruct (decide (target = n)) as [->|Hne]; [by rewrite Ht|].
    destruct (fd_timers d !! target); [done|]. destruct (incarnation_for _ target); [|done].
    rewrite (proj1 (emit_frame _ _ _ _ _)). cbn [with_timers fd_timers].
    by rewrite lookup_insert_ne by done.
  - left. split_and!; [done| |done]. intros c. unfold incarnation_for. cbn [fst set_alive fd_alive]. by apply find_below.
  - left. cbn [fst drop_peer fd_timers]. rewrite lookup_delete_ne by done. split_and!; [done| |done].
    intros c. rewrite drop_peer_find by congruence. apply Hk.
  - destruct (on_ping_tick_frame d now choice) as (Et & Ea & Eo). unfold check_suspicion_timers.
    set (d0 := (on_ping_tick d now choice).1) in *. rewrite <- Et in Ht.
    assert (Hk0 : known_below d0 n inc) by (intros c; unfold incarnation_for; rewrite Ea; apply Hk).
    destruct (decide (n ∈ expired d0 now)) as [Hin|Hin].
    + right. destruct (expire_all_dead (expired d0 now) d0 n inc t0 Hin Ht Hk0) as (ev & Hev & Hn & Hd & _).
      by exists ev.
    + left. destruct (expire_all_other (expired d0 now) d0 n Hin) as [H1 H2]. rewrite H1. split_and!; [done| |].
      * intros c. rewrite H2. apply Hk0.
      * intros now' choice' [= <- <-]. rewrite elem_of_expired in Hin. rewrite <- Eo.
        apply Z.nle_gt. intros Hle. apply Hin. by exists inc, t0.
Qed.

(** C31: A suspected node that no probe reaches again is declared dead. Take
    any run in which no probe of the node is answered, the node is not
    removed ([RemoveNode]), and no list of alive nodes has it at a higher
    incarnation than the suspected one. Whatever else the run contains,
    failed probes of the node and events of other nodes included, the timer
    is not restarted, and the first tick after the suspicion timeout has the
    event of its death sent at the latest. *)
Theorem unreachable_node_declared_dead d n inc t0 ins now choice :
  fd_timers d !! n = Some (inc, t0) -> known_below d n inc -> Forall (quiet n inc) ins ->
  fd_suspicion_timeout d <= saturating_sub now t0 ->
  exists ev, ev ∈ (run d (ins ++ [Tick now choice])).2 /\ ev_node_id ev = n /\ ev_new_state ev = Dead.
Proof.
  intros Ht Hk Hq Hle. revert d Ht Hk Hle.
  induction Hq as [|i ins Hi Hq IH]; intros d Ht Hk Hle; cbn [app Detector.run].
  - destruct (quiet_step d n inc t0 (Tick now choice) Ht Hk) as [(_ & _ & Hlt)|(ev & Hev & Hx)]; [by split; [intros []|]|..].
    + specialize (Hlt now choice eq_refl). lia.
    + exists ev. destruct (step d (Tick now choice)) as [d' evs]. cbn [snd] in *. by rewrite app_nil_r.
  - destruct (quiet_step d n inc t0 i Ht Hk Hi) as [(Ht' & Hk' & _)|(ev & Hev & Hx)].
    + pose proof (step_timeout d i) as Eo. destruct (step d i) as [d' evs]. cbn [fst snd] in *.
      destruct (IH d' Ht' Hk') as (ev & Hev & Hx); [by rewrite Eo|]. exists ev. split; [|done].
      destruct (run d' (ins ++ [Tick now choice])). cbn [snd] in *. apply elem_of_app. by right.
    + exists ev. split; [|done]. destruct (step d i) as [d' evs]. cbn [snd] in *.
      destruct (run d' (ins ++ [Tick now choice])). cbn [snd]. apply elem_of_app. by left.
Qed.
End detector_lemmas.

(** A node is probed only while it is alive or suspect, and never twice at
    once; a node that is leaving is not probed. *)
Lemma probed_peer_live d now choice p :
  (on_ping_tick d now choice).2 = Some p ->
  (p_state p = Alive \/ p_state p = Suspect) /\ p_id p <> fd_node_id d /\ fd_pending d !! p_id p = None.
Proof.
  unfold on_ping_tick. destruct (probe_candidates d !! choice) as [q|] eqn:E; [|done]. intros [= <-].
  apply list_elem_of_lookup_2 in E. by apply list_elem_of_filter in E as [? _].
Qed.

(** ** Witnesses *)

Definition suspect_inputs : list input :=
  [UpdateAliveNodes [{| p_id := [x62]; p_state := Alive; p_address := (1, 1); p_incarnation := 4 |}];
   PingResponse 10 [x62] false].

Definition suspicious : FailureDetector := (run (M:=unit) (detector_new [x61] 50 3) suspect_inputs).1.

Lemma dead_only_after_suspicion_witness :
  exists t0, suspected_since suspect_inputs [x62] t0 /\ 50 <= saturating_sub 60 t0.
Proof.
  assert (Hev : exists ev, ev ∈ (step (M:=unit) suspicious (Tick 60 0)).2 /\ ev_new_state ev = Dead /\ ev_node_id ev = [x62]).
  { vm_compute. eexists. split; [left|done]. }
  destruct Hev as (ev & Hev & Hd & Hn).
  destruct (dead_only_after_suspicion [x61] 50 3 suspect_inputs (Tick 60 0) ev Hev Hd)
    as (now & choice & t0 & E & Hs & Hle).
  exists t0. rewrite Hn in Hs. split; [done|]. injection E as -> _. done.
Defined.

Lemma unreachable_node_declared_dead_witness :
  exists ev, ev ∈ (run (M:=unit) suspicious ([PingResponse 20 [x62] false; Tick 30 0] ++ [Tick 70 0])).2 /\
    ev_node_id ev = [x62] /\ ev_new_state ev = Dead.
Proof.
  apply (unreachable_node_declared_dead suspicious [x62] 4 10 [PingResponse 20 [x62] false; Tick 30 0] 70 0).
  - by vm_compute.
  - intros c Hc. vm_compute in Hc. by injection Hc as <-.
  - repeat (apply Forall_cons; split); [by split; [intros []|]..|constructor].
  - by vm_compute.
Defined.
