(* ===== verification/MetaKey.v ===== *)
(** * Keys of the metadata store (crates/oceanfs-storage/src/metadata/cf.rs)

    Row keys of the [objects] and [deletions] column families as bytes: the
    object key [{bucket}\0{key}], and the supersede key, which appends a
    self-describing tail. Whether bytes are valid UTF-8 is a parameter. *)

From Stdlib Require Import ZArith Lia Strings.Byte Sorting.Sorted.
From stdpp Require Import base list sorting.
From S2P Require Import Prelude Hlc WalPos.

Set Default Proof Using "Type".

Definition SUPERSEDE_KIND : byte := x02.

Definition SUPERSEDE_TAIL_SIZE : nat := 1 + 1 + 2 + 8 + 4.

Inductive DeletionsKey :=
| Plain (bucket key : bytes)
| Supersede (bucket key : bytes) (version : Hlc).

Definition encode_object_key (bucket key : bytes) : bytes := bucket ++ [x00] ++ key.

(** The bytes before and after the first NUL. *)
Fixpoint split_nul (data : bytes) : option (bytes * bytes) :=
  match data with
  | [] => None
  | b :: data =>
      if bool_decide (b = x00) then Some ([], data)
      else '(before, after) ← split_nul data; Some (b :: before, after)
  end.

(** [u16::to_be_bytes], the length truncated to 16 bits. *)
Definition to_be16 (n : nat) : bytes := rev (to_le 2 (Z.of_nat n)).
Definition from_be16 (l : bytes) : nat := Z.to_nat (from_le (rev l)).

Definition encode_supersede_key (bucket key : bytes) (version : Hlc) : bytes :=
  encode_object_key bucket key ++ [x00; SUPERSEDE_KIND] ++ to_be16 (length key)
  ++ to_le 8 (wall_time version) ++ to_le 4 (logical version).

Section keys.
Context (utf8 : bytes -> bool).

Definition decode_object_key (data : bytes) : option (bytes * bytes) :=
  '(bucket, key) ← split_nul data;
  if utf8 bucket && utf8 key then Some (bucket, key) else None.

Definition decode_deletions_key (data : bytes) : option DeletionsKey :=
  let n := length data - SUPERSEDE_TAIL_SIZE in
  let head := take n data in
  let tail := drop n data in
  if (SUPERSEDE_TAIL_SIZE <=? length data) && bool_decide (tail !! 0 = Some x00)
     && bool_decide (tail !! 1 = Some SUPERSEDE_KIND)
  then
    '(bucket, key) ← split_nul head;
    if negb (length key =? from_be16 (field tail 2 4)) then None else
    if utf8 bucket && utf8 key
    then Some (Supersede bucket key {| wall_time := from_le (field tail 4 12); logical := from_le (field tail 12 16) |})
    else None
  else '(bucket, key) ← decode_object_key data; Some (Plain bucket key).
End keys.

(** ** Round trips *)

Definition nul_free (l : bytes) : Prop := x00 ∉ l.

Lemma split_nul_app bucket rest : nul_free bucket -> split_nul (bucket ++ [x00] ++ rest) = Some (bucket, rest).
Proof.
  unfold nul_free. induction bucket as [|b bucket IH]; intros Hb; cbn [split_nul app].
  - by rewrite bool_decide_true.
  - apply not_elem_of_cons in Hb as [Hb0 Hb]. rewrite bool_decide_false by congruence.
    cbn [app] in IH. by rewrite IH.
Qed.

Lemma split_nul_none l : nul_free l -> split_nul l = None.
Proof.
  unfold nul_free. induction l as [|b l IH]; intros Hl; cbn [split_nul]; [done|].
  apply not_elem_of_cons in Hl as [Hb Hl]. rewrite bool_decide_false by congruence. by rewrite IH.
Qed.

Lemma encode_object_key_inj b1 k1 b2 k2 :
  nul_free b1 -> nul_free b2 -> encode_object_key b1 k1 = encode_object_key b2 k2 -> b1 = b2 /\ k1 = k2.
Proof.
  intros H1 H2 E. pose proof (split_nul_app b1 k1 H1) as E1. unfold encode_object_key in E.
  rewrite E, split_nul_app in E1 by done. naive_solver.
Qed.

Lemma to_be16_length n : length (to_be16 n) = 2.
Proof. done. Qed.

Lemma from_to_be16 n : (Z.of_nat n < 65536)%Z -> from_be16 (to_be16 n) = n.
Proof.
  intros Hn. unfold from_be16, to_be16. rewrite rev_involutive, from_to_le_small, Nat2Z.id; [done|].
  change (256 ^ Z.of_nat 2)%Z with 65536%Z. lia.
Qed.

Lemma supersede_key_split bucket key v :
  exists tail, encode_supersede_key bucket key v = encode_object_key bucket key ++ tail /\
    length tail = SUPERSEDE_TAIL_SIZE /\ tail !! 0 = Some x00 /\ tail !! 1 = Some SUPERSEDE_KIND /\
    field tail 2 4 = to_be16 (length key) /\ field tail 4 12 = to_le 8 (wall_time v) /\
    field tail 12 16 = to_le 4 (logical v).
Proof.
  eexists. split; [reflexivity|]. unfold SUPERSEDE_TAIL_SIZE, field.
  rewrite !length_app, !length_to_le, to_be16_length.
  split; [done|]. split; [done|]. split; [done|].
  assert (E : forall a b c : bytes, length a = 2 -> length b = 8 -> length c = 4 ->
    take 2 (drop 2 ([x00; SUPERSEDE_KIND] ++ a ++ b ++ c)) = a /\
    take 8 (drop 4 ([x00; SUPERSEDE_KIND] ++ a ++ b ++ c)) = b /\
    take 4 (drop 12 ([x00; SUPERSEDE_KIND] ++ a ++ b ++ c)) = c).
  { intros a b c Ha Hb Hc. split_and!.
    - change (drop 2 ([x00; SUPERSEDE_KIND] ++ a ++ b ++ c)) with (a ++ b ++ c). by rewrite take_app_length'.
    - change (drop 4 ([x00; SUPERSEDE_KIND] ++ a ++ b ++ c)) with (drop 2 (a ++ b ++ c)).
      rewrite drop_app_length' by done. by rewrite take_app_length'.
    - change (drop 12 ([x00; SUPERSEDE_KIND] ++ a ++ b ++ c)) with (drop 10 (a ++ b ++ c)).
      rewrite app_assoc, drop_app_length' by (rewrite length_app; lia). by apply take_ge; lia. }
  apply E; [apply to_be16_length|apply length_to_le..].
Qed.

(** ** Classification of keys *)

Section classification.
Context (utf8 : bytes -> bool).

Lemma encode_object_key_length bucket key : length (encode_object_key bucket key) = length bucket + S (length key).
Proof. unfold encode_object_key. rewrite !length_app. cbn. lia. Qed.

Lemma nul_lookup l i : nul_free l -> l !! i <> Some x00.
Proof. intros Hl E. by apply Hl, (list_elem_of_lookup_2 l i). Qed.

(** The only NUL of an object key is the separator. *)
Lemma object_key_nul bucket key i :
  nul_free bucket -> nul_free key -> encode_object_key bucket key !! i = Some x00 -> i = length bucket.
Proof.
  intros Hb Hk E. unfold encode_object_key in E. destruct (Nat.lt_trichotomy i (length bucket)) as [L|[?|L]]; [|done|].
  - rewrite lookup_app_l in E by done. by apply nul_lookup in E.
  - rewrite lookup_app_r in E by lia. destruct (i - length bucket) as [|j] eqn:Ej; [lia|].
    cbn [app] in E. change ((x00 :: key) !! S j) with (key !! j) in E. by apply nul_lookup in E.
Qed.

Lemma supersede_key_decodes bucket key version :
  nul_free bucket -> utf8 bucket = true -> utf8 key = true ->
  (Z.of_nat (length key) < 65536)%Z -> hlc_wf version ->
  decode_deletions_key utf8 (encode_supersede_key bucket key version) = Some (Supersede bucket key version).
Proof.
  intros Hb Ub Uk Hl [Hw Hlog]. destruct (supersede_key_split bucket key version) as (tail & E & Ht & T0 & T1 & F1 & F2 & F3).
  unfold decode_deletions_key. rewrite E, length_app, Ht, Nat.add_sub, take_app_length, drop_app_length.
  rewrite (proj2 (Nat.leb_le _ _)) by lia. rewrite !bool_decide_true by done. cbn [andb].
  unfold encode_object_key. rewrite split_nul_app by done. cbn [mbind option_bind].
  rewrite F1, from_to_be16, Nat.eqb_refl, Ub, Uk, F2, F3 by done. cbn [negb andb].
  rewrite !from_to_le_small by (unfold is_u64, is_u32, u64_max, u32_max in *; cbn; lia). by destruct version.
Qed.

(** A tombstone key is never taken for a supersede record. *)
Lemma plain_key_not_decoded_supersede bucket key b k v :
  nul_free bucket -> nul_free key -> decode_deletions_key utf8 (encode_object_key bucket key) <> Some (Supersede b k v).
Proof.
  intros Hb Hk. unfold decode_deletions_key.
  set (data := encode_object_key bucket key). set (n := length data - SUPERSEDE_TAIL_SIZE).
  rewrite !lookup_drop, Nat.add_0_r. destruct (SUPERSEDE_TAIL_SIZE <=? length data); cbn [andb].
  2: { destruct (decode_object_key utf8 data) as [[? ?]|]; done. }
  destruct (bool_decide (data !! n = Some x00)) eqn:E0; cbn [andb].
  2: { destruct (decode_object_key utf8 data) as [[? ?]|]; done. }
  destruct (bool_decide (data !! (n + 1) = Some SUPERSEDE_KIND)).
  2: { destruct (decode_object_key utf8 data) as [[? ?]|]; done. }
  apply bool_decide_eq_true, object_key_nul in E0; [|done..]. rewrite E0. unfold data, encode_object_key.
  rewrite take_app_length, split_nul_none by done. done.
Qed.

(** Keys of the [deletions] column family are classified as they were
    written. A supersede key decodes to its bucket, key and version; the
    tombstone key of an object key without NUL decodes to its bucket and key,
    unless that object key is 15 bytes long and starts with byte 2: then the
    key takes the shape of a supersede tail and decodes to nothing. *)
Theorem deletions_key_roundtrip bucket key version :
  nul_free bucket -> utf8 bucket = true -> utf8 key = true ->
  ((Z.of_nat (length key) < 65536)%Z -> hlc_wf version ->
     decode_deletions_key utf8 (encode_supersede_key bucket key version) = Some (Supersede bucket key version)) /\
  (nul_free key ->
     decode_deletions_key utf8 (encode_object_key bucket key)
     = if decide (length key = 15 /\ head key = Some SUPERSEDE_KIND) then None else Some (Plain bucket key)).
Proof.
  intros Hb Ub Uk. split.
  - by apply supersede_key_decodes.
  - intros Hk. assert (Hplain : decode_object_key utf8 (encode_object_key bucket key) = Some (bucket, key)).
    { unfold decode_object_key, encode_object_key. rewrite split_nul_app by done. cbn. by rewrite Ub, Uk. }
    unfold decode_deletions_key. pose proof (encode_object_key_length bucket key) as El.
    set (data := encode_object_key bucket key) in *. set (n := length data - SUPERSEDE_TAIL_SIZE).
    destruct (SUPERSEDE_TAIL_SIZE <=? length data) eqn:Es; cbn [andb].
    2:{ rewrite Hplain. cbn. rewrite decide_False; [done|]. intros [Hl _].
        apply Nat.leb_gt in Es. unfold SUPERSEDE_TAIL_SIZE in Es. lia. }
    apply Nat.leb_le in Es. rewrite !lookup_drop, Nat.add_0_r.
    destruct (decide (length key = 15 /\ head key = Some SUPERSEDE_KIND)) as [[Hl Hh]|Hno].
    + assert (Hn : n = length bucket) by (unfold n, SUPERSEDE_TAIL_SIZE; lia).
      rewrite Hn. subst data. unfold encode_object_key. rewrite take_app_length.
      rewrite !bool_decide_true; [cbn [andb]; by rewrite split_nul_none|..].
      * rewrite lookup_app_r by lia. replace (length bucket + 1 - length bucket) with 1 by lia. by destruct key.
      * rewrite lookup_app_r, Nat.sub_diag by lia. done.
    + rewrite Hplain. cbn [mbind option_bind]. destruct (bool_decide (data !! n = Some x00)) eqn:E0; [|done].
      destruct (bool_decide (data !! (n + 1) = Some SUPERSEDE_KIND)) eqn:E1; [|done]. exfalso.
      apply bool_decide_eq_true in E0, E1. apply object_key_nul in E0; [|done..].
      apply Hno. split; [unfold n, SUPERSEDE_TAIL_SIZE in *; lia|].
      rewrite E0 in E1. subst data. unfold encode_object_key in E1. rewrite lookup_app_r in E1 by lia.
      replace (length bucket + 1 - length bucket) with 1 in E1 by lia. by destruct key.
Qed.

(** A supersede record is never found under a plain key. *)
Lemma supersede_key_not_plain b k v b' k' :
  nul_free b -> nul_free b' -> nul_free k' -> encode_supersede_key b k v <> encode_object_key b' k'.
Proof.
  intros Hb Hb' Hk' E. unfold encode_supersede_key, encode_object_key in E.
  rewrite <- !app_assoc in E. pose proof (split_nul_app b (k ++ [x00; SUPERSEDE_KIND] ++ to_be16 (length k)
    ++ to_le 8 (wall_time v) ++ to_le 4 (logical v)) Hb) as E1.
  rewrite E, split_nul_app in E1 by done. apply (inj Some) in E1. assert (Ek : k' = k ++ x00 :: SUPERSEDE_KIND :: to_be16 (length k)
    ++ to_le 8 (wall_time v) ++ to_le 4 (logical v)) by (by injection E1).
  apply Hk'. rewrite Ek. apply elem_of_app. right. left.
Qed.

Lemma supersede_key_inj b k v b' k' v' :
  nul_free b -> nul_free b' -> utf8 b = true -> utf8 k = true -> utf8 b' = true -> utf8 k' = true ->
  (Z.of_nat (length k) < 65536)%Z -> (Z.of_nat (length k') < 65536)%Z -> hlc_wf v -> hlc_wf v' ->
  encode_supersede_key b k v = encode_supersede_key b' k' v' -> b = b' /\ k = k' /\ v = v'.
Proof.
  intros ?????????? E. pose proof (supersede_key_decodes b k v) as E1.
  rewrite E, supersede_key_decodes in E1 by done. naive_solver.
Qed.
End classification.

Lemma deletions_key_roundtrip_witness :
  decode_deletions_key (fun _ => true) (encode_object_key [x62] (x02 :: replicate 14 x61)) = None.
Proof.
  etransitivity; [apply (deletions_key_roundtrip (fun _ => true) [x62] (x02 :: replicate 14 x61) hlc_zero)|].
  - unfold nul_free. by apply (bool_decide_unpack _).
  - done.
  - done.
  - unfold nul_free. by apply (bool_decide_unpack _).
  - by rewrite decide_True.
Defined.
