(* ===== verification/MetaStore.v ===== *)
(** * The metadata store
      (crates/oceanfs-storage/src/metadata/store.rs; [ObjectMetadata],
       [Tombstone], [ChunkRef] of crates/oceanfs-core/src/types/metadata.rs)

    The two column families of the RocksDB database as maps from row keys,
    and the change journal as the list of its records. A write batch is
    atomic; each operation is one critical section of its key's lock. What
    the journal append and the batch write return is an argument, as is the
    time. Values are kept decoded: the serialisation is a third-party one.
    BLAKE3 is a parameter whose digests are ordered as numbers. *)

From Stdlib Require Import ZArith Lia Strings.Byte Strings.String Sorting.Sorted.
From stdpp Require Import base list gmap fin_maps sorting.
From S2P Require Import Prelude Hlc WalPos MetaKey.

Set Default Proof Using "Type".
Local Open Scope Z_scope.

Record ChunkRef := {
  cr_segment_id : bytes; cr_offset : Z; cr_length : Z; cr_compressed : bool; cr_logical_length : Z }.

Record ObjectMetadata := {
  om_object_key : bytes; om_size : Z; om_blake3_hash : option bytes; om_chunks : list ChunkRef;
  om_inline_data : option bytes; om_created_at : Z; om_hlc : Hlc }.

Definition is_segment_stored (m : ObjectMetadata) : bool :=
  match om_chunks m with [] => false | _ => true end.

Record Tombstone := { ts_deletion_time : Z; ts_hlc : Hlc; ts_chunks : list ChunkRef }.

Inductive JournalOp := JPut | JDelete.

Record Store := {
  st_objects : gmap bytes ObjectMetadata;
  st_deletions : gmap bytes Tombstone;
  st_journal : list (JournalOp * bytes * Hlc) }.

Definition empty_store : Store := {| st_objects := ∅; st_deletions := ∅; st_journal := [] |}.

(** How the journal append and the batch write of an operation end. *)
Inductive commit_io := JournalFails | WriteFails | Committed.

(** The journal records first, then the batch. *)
Definition commit (st : Store) (io : commit_io) (recs : list (JournalOp * bytes * Hlc))
    (objects : gmap bytes ObjectMetadata) (deletions : gmap bytes Tombstone) : Store * bool :=
  match io with
  | JournalFails => (st, false)
  | WriteFails =>
      ({| st_objects := st_objects st; st_deletions := st_deletions st; st_journal := st_journal st ++ recs |}, false)
  | Committed =>
      ({| st_objects := objects; st_deletions := deletions; st_journal := st_journal st ++ recs |}, true)
  end.

Definition get_object (st : Store) (bucket key : bytes) : option ObjectMetadata :=
  st_objects st !! encode_object_key bucket key.

Definition get_tombstone (st : Store) (bucket key : bytes) : option Tombstone :=
  st_deletions st !! encode_object_key bucket key.

Definition has_tombstone (st : Store) (bucket key : bytes) : bool :=
  bool_decide (is_Some (get_tombstone st bucket key)).

Definition hlc_ltb (a b : Hlc) : bool := match hlc_cmp a b with Lt => true | _ => false end.

(** ** Writes of clients *)

(** The chunks that a put takes out of the live row or the tombstone, with
    the version and time of the record that keeps them. *)
Definition capture (existing : option ObjectMetadata) (tombstone : option Tombstone)
    (meta : ObjectMetadata) (now : Z) : option (list ChunkRef * Hlc * Z) :=
  match existing, tombstone with
  | Some prev, _ =>
      if is_segment_stored prev && hlc_ltb (om_hlc prev) (om_hlc meta)
      then Some (om_chunks prev, om_hlc prev, now) else None
  | None, Some ts =>
      match ts_chunks ts with [] => None | chunks => Some (chunks, ts_hlc ts, ts_deletion_time ts) end
  | None, None => None
  end.

Definition record_capture (deletions : gmap bytes Tombstone) (bucket key : bytes)
    (c : option (list ChunkRef * Hlc * Z)) : gmap bytes Tombstone :=
  match c with
  | Some (chunks, hlc, captured_at) =>
      <[encode_supersede_key bucket key hlc :=
          {| ts_deletion_time := captured_at; ts_hlc := hlc; ts_chunks := chunks |}]> deletions
  | None => deletions
  end.

Definition put_object_in_bucket (st : Store) (io : commit_io) (now : Z) (bucket : bytes)
    (meta : ObjectMetadata) : Store * bool :=
  let key := om_object_key meta in
  let row_key := encode_object_key bucket key in
  let c := capture (get_object st bucket key) (get_tombstone st bucket key) meta now in
  commit st io [(JPut, row_key, om_hlc meta)]
    (<[row_key := meta]> (st_objects st))
    (delete row_key (record_capture (st_deletions st) bucket key c)).

Definition delete_object (st : Store) (io : commit_io) (now : Z) (bucket key : bytes) (hlc : Hlc) : Store * bool :=
  let row_key := encode_object_key bucket key in
  let chunks := from_option om_chunks [] (get_object st bucket key) in
  commit st io [(JDelete, row_key, hlc)]
    (delete row_key (st_objects st))
    (<[row_key := {| ts_deletion_time := now; ts_hlc := hlc; ts_chunks := chunks |}]> (st_deletions st)).

(** ** Last writer wins between replicas *)

Inductive LwwDecision := Apply | AlreadyCurrent | LocalWins.
Inductive SyncApplyOutcome := Applied | OutAlreadyCurrent | OutLocalWins.

Section lww.
Context (blake3 : bytes -> Z).

Definition hlc_bytes (h : Hlc) : bytes := to_le 8 (wall_time h) ++ to_le 4 (logical h).

Definition object_identity_bytes (m : ObjectMetadata) : bytes :=
  list_byte_of_string "oceanfs-meta-object-row-v1" ++ to_le 8 (om_size m)
  ++ (match om_blake3_hash m with Some h => x01 :: h | None => [x00] end)
  ++ (match om_inline_data m with Some d => x01 :: to_le 8 (Z.of_nat (length d)) ++ d | None => [x00] end)
  ++ hlc_bytes (om_hlc m).

Definition tombstone_identity_bytes (h : Hlc) : bytes :=
  list_byte_of_string "oceanfs-meta-tombstone-v1" ++ hlc_bytes h.

Definition object_identity_hash (m : ObjectMetadata) : Z := blake3 (object_identity_bytes m).
Definition tombstone_identity_hash (t : Tombstone) : Z := blake3 (tombstone_identity_bytes (ts_hlc t)).

Definition object_logically_equal (a b : ObjectMetadata) : bool :=
  (om_size a =? om_size b) && bool_decide (om_blake3_hash a = om_blake3_hash b)
  && bool_decide (om_inline_data a = om_inline_data b) && bool_decide (om_hlc a = om_hlc b).

Definition decide_object (pulled : ObjectMetadata) (local_row : option ObjectMetadata)
    (local_tombstone : option Tombstone) : LwwDecision :=
  let against_row :=
    match local_row with
    | None => Apply
    | Some row =>
        match hlc_cmp (om_hlc pulled) (om_hlc row) with
        | Lt => LocalWins
        | Gt => Apply
        | Eq =>
            if object_logically_equal pulled row then AlreadyCurrent
            else if object_identity_hash pulled <=? object_identity_hash row then LocalWins else Apply
        end
    end in
  match local_tombstone with
  | None => against_row
  | Some ts =>
      match hlc_cmp (om_hlc pulled) (ts_hlc ts) with
      | Lt => LocalWins
      | Eq => if object_identity_hash pulled <=? tombstone_identity_hash ts then LocalWins else against_row
      | Gt => against_row
      end
  end.

Definition apply_after_row_check (pulled : Tombstone) (local_row : option ObjectMetadata) : LwwDecision :=
  match local_row with
  | None => Apply
  | Some row =>
      match hlc_cmp (ts_hlc pulled) (om_hlc row) with
      | Lt => LocalWins
      | Eq => if tombstone_identity_hash pulled <=? object_identity_hash row then LocalWins else Apply
      | Gt => Apply
      end
  end.

Definition decide_tombstone (pulled : Tombstone) (local_row : option ObjectMetadata)
    (local_tombstone : option Tombstone) : LwwDecision :=
  match local_tombstone with
  | Some ts =>
      match hlc_cmp (ts_hlc pulled) (ts_hlc ts) with
      | Lt => LocalWins
      | Eq => AlreadyCurrent
      | Gt => apply_after_row_check pulled local_row
      end
  | None => apply_after_row_check pulled local_row
  end.

Definition sync_apply_object (st : Store) (io : commit_io) (now : Z) (bucket : bytes) (meta : ObjectMetadata)
    : Store * option SyncApplyOutcome :=
  let key := om_object_key meta in
  match decide_object meta (get_object st bucket key) (get_tombstone st bucket key) with
  | Apply =>
      let '(st, ok) := put_object_in_bucket st io now bucket meta in
      (st, if (ok : bool) then Some Applied else None)
  | AlreadyCurrent => (st, Some OutAlreadyCurrent)
  | LocalWins => (st, Some OutLocalWins)
  end.

Definition apply_tombstone_row (st : Store) (io : commit_io) (now : Z) (bucket key : bytes) (t : Tombstone)
    (local_row : option ObjectMetadata) : Store * bool :=
  let row_key := encode_object_key bucket key in
  let c := match local_row with
           | Some row => if is_segment_stored row then Some (om_chunks row, om_hlc row, now) else None
           | None => None
           end in
  commit st io [(JDelete, row_key, ts_hlc t)]
    (delete row_key (st_objects st))
    (<[row_key := t]> (record_capture (st_deletions st) bucket key c)).

Definition sync_apply_tombstone (st : Store) (io : commit_io) (now : Z) (bucket key : bytes) (t : Tombstone)
    : Store * option SyncApplyOutcome :=
  let local_row := get_object st bucket key in
  match decide_tombstone t local_row (get_tombstone st bucket key) with
  | Apply =>
      let '(st, ok) := apply_tombstone_row st io now bucket key t local_row in
      (st, if (ok : bool) then Some Applied else None)
  | AlreadyCurrent => (st, Some OutAlreadyCurrent)
  | LocalWins => (st, Some OutLocalWins)
  end.
End lww.

(** ** Rebuilding a replaced store from a peer *)

Definition rebuild_apply_object_row (st : Store) (io : commit_io) (row_key : bytes) (meta : ObjectMetadata)
    : Store * option bool :=
  let shadowed_by_delete :=
    match st_deletions st !! row_key with
    | Some ts => negb (hlc_ltb (ts_hlc ts) (om_hlc meta))
    | None => false
    end in
  let shadowed_by_row :=
    match st_objects st !! row_key with
    | Some e => negb (hlc_ltb (om_hlc e) (om_hlc meta))
    | None => false
    end in
  if shadowed_by_delete || shadowed_by_row then (st, Some false) else
  let '(st, ok) := commit st io [(JPut, row_key, om_hlc meta)]
    (<[row_key := meta]> (st_objects st)) (delete row_key (st_deletions st)) in
  (st, if (ok : bool) then Some true else None).

(** The branch of a plain tombstone. *)
Definition rebuild_apply_tombstone (st : Store) (io : commit_io) (row_key : bytes) (deleted : Tombstone)
    : Store * option bool :=
  let newer_row :=
    match st_objects st !! row_key with
    | Some e => negb (hlc_ltb (om_hlc e) (ts_hlc deleted))
    | None => false
    end in
  if newer_row then (st, Some false) else
  let '(st, ok) := commit st io [(JDelete, row_key, ts_hlc deleted)]
    (delete row_key (st_objects st)) (<[row_key := deleted]> (st_deletions st)) in
  (st, if (ok : bool) then Some true else None).

Definition rebuild_apply_deletion_row (utf8 : bytes -> bool) (st : Store) (io : commit_io) (row_key : bytes)
    (deleted : Tombstone) : Store * option bool :=
  match decode_deletions_key utf8 row_key with
  | Some (Supersede _ _ _) =>
      (* written without a journal record *)
      match io with
      | Committed => ({| st_objects := st_objects st; st_deletions := <[row_key := deleted]> (st_deletions st);
                         st_journal := st_journal st |}, Some true)
      | _ => (st, None)
      end
  | _ => rebuild_apply_tombstone st io row_key deleted
  end.

(** ** Batches *)

Inductive BatchOp :=
| BPutObject (bucket key : bytes) (value : ObjectMetadata)
| BDeleteObject (bucket key : bytes)
| BPutTombstone (bucket key : bytes) (t : Tombstone)
| BDeleteTombstone (bucket key : bytes).

(** The journal records of a batch, decided on the rows before it. *)
Definition batch_record (st : Store) (op : BatchOp) : list (JournalOp * bytes * Hlc) :=
  match op with
  | BPutObject b k v =>
      if from_option (fun prev => negb (object_logically_equal prev v)) true (get_object st b k)
      then [(JPut, encode_object_key b k, om_hlc v)] else []
  | BDeleteObject b k =>
      from_option (fun prev => [(JDelete, encode_object_key b k, om_hlc prev)]) [] (get_object st b k)
  | BPutTombstone b k t =>
      if from_option (fun prev => bool_decide (ts_hlc prev <> ts_hlc t)) true (get_tombstone st b k)
      then [(JDelete, encode_object_key b k, ts_hlc t)] else []
  | BDeleteTombstone b k => []
  end.

Definition batch_apply (m : gmap bytes ObjectMetadata * gmap bytes Tombstone) (op : BatchOp) :=
  match op with
  | BPutObject b k v => (<[encode_object_key b k := v]> m.1, m.2)
  | BDeleteObject b k => (delete (encode_object_key b k) m.1, m.2)
  | BPutTombstone b k t => (m.1, <[encode_object_key b k := t]> m.2)
  | BDeleteTombstone b k => (m.1, delete (encode_object_key b k) m.2)
  end.

Definition batch_write (st : Store) (io : commit_io) (ops : list BatchOp) : Store * bool :=
  let recs := concat (batch_record st <$> ops) in
  (* without records the journal is not called *)
  let io := match recs, io with [], JournalFails => WriteFails | _, _ => io end in
  let '(objects, deletions) := foldl batch_apply (st_objects st, st_deletions st) ops in
  commit st io recs objects deletions.

(** ** Listing *)

Fixpoint starts_with (prefix l : bytes) : bool :=
  match prefix, l with
  | [], _ => true
  | x :: prefix, y :: l => bool_decide (x = y) && starts_with prefix l
  | _ :: _, [] => false
  end.

Fixpoint take_while {A} (f : A -> bool) (l : list A) : list A :=
  match l with [] => [] | x :: l => if f x then x :: take_while f l else [] end.

Fixpoint skip_while {A} (f : A -> bool) (l : list A) : list A :=
  match l with [] => [] | x :: l => if f x then skip_while f l else x :: l end.

Definition row_le {A} (a b : bytes * A) : Prop := lex_le a.1 b.1 = true.

#[export] Instance row_le_dec {A} : RelDecision (row_le (A:=A)).
Proof. intros a b. unfold row_le. apply _. Defined.

(** A database iterator: the rows in the order of their keys. *)
Definition rows {A} (m : gmap bytes A) : list (bytes * A) := merge_sort row_le (map_to_list m).

(** [IteratorMode::From(key, Forward)]. *)
Definition rows_from {A} (m : gmap bytes A) (from : bytes) : list (bytes * A) :=
  skip_while (fun r => negb (lex_le from r.1)) (rows m).

Definition list_objects (st : Store) (bucket prefix : bytes) : list ObjectMetadata :=
  let prefix_key := encode_object_key bucket prefix in
  (take_while (fun r => starts_with prefix_key r.1) (rows_from (st_objects st) prefix_key)).*2.

Definition list_tombstones (utf8 : bytes -> bool) (st : Store) (bucket : bytes) : list (bytes * Tombstone) :=
  let prefix := encode_object_key bucket [] in
  omap (fun r => match decode_deletions_key utf8 r.1 with
                 | Some (Plain b k) => if bool_decide (b = bucket) then Some (k, r.2) else None
                 | _ => None
                 end)
    (take_while (fun r => starts_with prefix r.1) (rows_from (st_deletions st) prefix)).

(** ** The records of dead chunks *)

Inductive DeadChunkKind := KTombstone | KSupersede.

Record DeadChunkRecord := {
  dc_kind : DeadChunkKind; dc_captured_at : Z; dc_hlc : Hlc; dc_chunks : list ChunkRef }.

(** The kind of a record is read off its key. *)
Definition list_dead_chunk_records_all (utf8 : bytes -> bool) (st : Store) : list (bytes * bytes * DeadChunkRecord) :=
  omap (fun r =>
    let record kind t := {| dc_kind := kind; dc_captured_at := ts_deletion_time t; dc_hlc := ts_hlc t;
                            dc_chunks := ts_chunks t |} in
    match decode_deletions_key utf8 r.1 with
    | Some (Plain b k) => Some (b, k, record KTombstone r.2)
    | Some (Supersede b k _) => Some (b, k, record KSupersede r.2)
    | None => None
    end) (rows (st_deletions st)).

Definition with_deletions (st : Store) (d : gmap bytes Tombstone) : Store :=
  {| st_objects := st_objects st; st_deletions := d; st_journal := st_journal st |}.

(** Neither is journaled; the result is whether the database accepted it. *)
Definition delete_tombstone (st : Store) (ok : bool) (bucket key : bytes) : Store * bool :=
  (if ok then with_deletions st (delete (encode_object_key bucket key) (st_deletions st)) else st, ok).

Definition delete_dead_chunk_record (st : Store) (ok : bool) (bucket key : bytes) (version : Hlc) : Store * bool :=
  (if ok then with_deletions st (delete (encode_supersede_key bucket key version) (st_deletions st)) else st, ok).

(** ** The logical state of a key *)

(** What replicas compare: chunk references and times are not part of it. *)
Inductive view :=
| VAbsent
| VLive (size : Z) (hash inline : option bytes) (hlc : Hlc)
| VGone (hlc : Hlc).

Definition object_view (m : ObjectMetadata) : view :=
  VLive (om_size m) (om_blake3_hash m) (om_inline_data m) (om_hlc m).

Definition view_of (row : option ObjectMetadata) (ts : option Tombstone) : view :=
  match row, ts with
  | Some m, _ => object_view m
  | None, Some t => VGone (ts_hlc t)
  | None, None => VAbsent
  end.

Definition view_at (st : Store) (row_key : bytes) : view := view_of (st_objects st !! row_key) (st_deletions st !! row_key).

(** Sizes of the fields as the types of the code have them. *)
Definition view_wf (v : view) : Prop :=
  match v with
  | VAbsent => True
  | VLive size hash inline hlc =>
      is_u64 size /\ from_option (fun h => length h = 32%nat) True hash /\
      from_option (fun d => Z.of_nat (length d) <= u64_max) True inline /\ hlc_wf hlc
  | VGone hlc => hlc_wf hlc
  end.

Definition view_hlc (v : view) : option Hlc :=
  match v with VAbsent => None | VLive _ _ _ h => Some h | VGone h => Some h end.

Definition view_bytes (v : view) : bytes :=
  match v with
  | VAbsent => []
  | VLive size hash inline hlc =>
      object_identity_bytes {| om_object_key := []; om_size := size; om_blake3_hash := hash; om_chunks := [];
                               om_inline_data := inline; om_created_at := 0; om_hlc := hlc |}
  | VGone hlc => tombstone_identity_bytes hlc
  end.

Lemma hlc_bytes_length h : length (hlc_bytes h) = 12%nat.
Proof. unfold hlc_bytes. by rewrite length_app, !length_to_le. Qed.

Lemma hlc_bytes_inj a b : hlc_wf a -> hlc_wf b -> hlc_bytes a = hlc_bytes b -> a = b.
Proof.
  intros [Ha1 Ha2] [Hb1 Hb2] E. unfold hlc_bytes in E. apply app_inj_1 in E as [E1 E2]; [|by rewrite !length_to_le].
  apply (f_equal from_le) in E1, E2. rewrite !from_to_le_small in E1, E2 by (unfold is_u64, is_u32, u64_max, u32_max in *; cbn; lia).
  destruct a, b; cbn in *; congruence.
Qed.

Lemma view_bytes_inj v w : view_wf v -> view_wf w -> view_bytes v = view_bytes w -> v = w.
Proof.
  destruct v as [|sz h i t|t], w as [|sz' h' i' t'|t']; cbn [view_wf view_bytes]; intros Hv Hw E; try done;
    try (apply (f_equal (.!! 13%nat)) in E; cbn in E; discriminate).
  - unfold object_identity_bytes in E. cbn [om_size om_blake3_hash om_inline_data om_hlc] in E.
    destruct Hv as (Hsz & Hh & Hi & Ht), Hw as (Hsz' & Hh' & Hi' & Ht').
    apply app_inv_head in E. apply app_inj_1 in E as [Es E]; [|by rewrite !length_to_le].
    apply (f_equal from_le) in Es. rewrite !from_to_le_small in Es by (unfold is_u64, u64_max in *; cbn; lia). subst sz'.
    assert (h = h' /\ (match i with Some d => x01 :: to_le 8 (Z.of_nat (length d)) ++ d | None => [x00] end) ++ hlc_bytes t
            = (match i' with Some d => x01 :: to_le 8 (Z.of_nat (length d)) ++ d | None => [x00] end) ++ hlc_bytes t') as [<- E'].
    { destruct h as [h|], h' as [h'|]; cbn [from_option] in Hh, Hh'; cbn [app] in E; try discriminate.
      - apply (f_equal tail) in E. cbn [tail] in E. apply app_inj_1 in E as [-> E]; [done|congruence].
      - apply (f_equal tail) in E. done. }
    assert (i = i' /\ hlc_bytes t = hlc_bytes t') as [<- E''].
    { destruct i as [d|], i' as [d'|]; cbn [from_option] in Hi, Hi'; cbn [app] in E'; try discriminate.
      - apply (f_equal tail) in E'. cbn [tail] in E'. rewrite <- !app_assoc in E'. apply app_inj_1 in E' as [El E']; [|by rewrite !length_to_le].
        apply (f_equal from_le) in El. rewrite !from_to_le_small in El by (unfold u64_max in *; cbn; lia).
        apply app_inj_1 in E' as [-> E']; [done|lia].
      - apply (f_equal tail) in E'. done. }
    by rewrite (hlc_bytes_inj t t').
  - unfold tombstone_identity_bytes in E. apply app_inv_head in E. by rewrite (hlc_bytes_inj t t').
Qed.

(** ** Replicas converge *)

(** The row keys of objects whose bucket and key contain no NUL. *)
Definition row_key_ok (rk : bytes) : Prop :=
  exists b k, nul_free b /\ nul_free k /\ rk = encode_object_key b k.

(** No key is both live and deleted. *)
Record store_ok (st : Store) : Prop := {
  so_rows : forall rk, is_Some (st_objects st !! rk) -> row_key_ok rk /\ st_deletions st !! rk = None;
  so_wf : forall rk, row_key_ok rk -> view_wf (view_at st rk) }.

Lemma empty_store_ok : store_ok empty_store.
Proof.
  split; intros rk; cbn [empty_store st_objects st_deletions].
  - rewrite lookup_empty. by intros [].
  - intros _. unfold view_at. cbn [empty_store st_objects st_deletions]. by rewrite !lookup_empty.
Qed.

(** A state a replica pulls from another one. *)
Inductive record := RObject (bucket : bytes) (meta : ObjectMetadata) | RTombstone (bucket key : bytes) (t : Tombstone).

Definition record_key (r : record) : bytes :=
  match r with RObject b m => encode_object_key b (om_object_key m) | RTombstone b k _ => encode_object_key b k end.

Definition record_view (r : record) : view :=
  match r with RObject _ m => object_view m | RTombstone _ _ t => VGone (ts_hlc t) end.

Definition record_ok (r : record) : Prop :=
  match r with
  | RObject b m => nul_free b /\ nul_free (om_object_key m)
  | RTombstone b k _ => nul_free b /\ nul_free k
  end /\ view_wf (record_view r).

Section convergence.
Context (blake3 : bytes -> Z).

Definition rank_ltb (v w : view) : bool :=
  match view_hlc v, view_hlc w with
  | None, Some _ => true
  | _, None => false
  | Some a, Some b =>
      match hlc_cmp a b with Lt => true | Eq => blake3 (view_bytes v) <? blake3 (view_bytes w) | Gt => false end
  end.

Definition merge (v w : view) : view := if rank_ltb v w then w else v.

Definition apply_record (now : Z) (st : Store) (r : record) : Store :=
  match r with
  | RObject b m => (sync_apply_object blake3 st Committed now b m).1
  | RTombstone b k t => (sync_apply_tombstone blake3 st Committed now b k t).1
  end.

Lemma rank_irrefl v : rank_ltb v v = false.
Proof. unfold rank_ltb. destruct (view_hlc v) as [h|]; [|done]. by rewrite hlc_cmp_refl, Z.ltb_irrefl. Qed.

Lemma rank_ltb_trans u v w : rank_ltb u v = true -> rank_ltb v w = true -> rank_ltb u w = true.
Proof.
  unfold rank_ltb. destruct (view_hlc u) as [a|], (view_hlc v) as [b|], (view_hlc w) as [c|]; try done.
  destruct (hlc_cmp a b) eqn:E1; [|intros _|done].
  - apply hlc_cmp_eq in E1 as ->. intros L1. destruct (hlc_cmp b c) eqn:E2; [|done|done].
    intros L2. apply Z.ltb_lt in L1, L2. apply Z.ltb_lt. lia.
  - destruct (hlc_cmp b c) eqn:E2; [|intros _|done].
    + intros _. apply hlc_cmp_eq in E2 as ->. by rewrite E1.
    + pose proof (hlc_lt_trans a b c E1 E2) as E3. unfold hlc_lt in E3. by rewrite E3.
Qed.

Lemma rank_total v w :
  (blake3 (view_bytes v) = blake3 (view_bytes w) -> view_bytes v = view_bytes w) -> view_wf v -> view_wf w ->
  rank_ltb v w = false -> rank_ltb w v = false -> v = w.
Proof.
  intros Hcf Hv Hw L1 L2. unfold rank_ltb in *.
  destruct (view_hlc v) as [a|] eqn:Ea, (view_hlc w) as [b|] eqn:Eb; try done.
  - rewrite hlc_cmp_antisym in L2. destruct (hlc_cmp a b) eqn:E; cbn [CompOpp] in L2; try done.
    apply Z.ltb_ge in L1, L2. apply view_bytes_inj; [done..|]. apply Hcf. lia.
  - by destruct v, w.
Qed.

Lemma merge_upper v w : rank_ltb (merge v w) v = false /\ rank_ltb (merge v w) w = false.
Proof.
  unfold merge. destruct (rank_ltb v w) eqn:E; [|by rewrite rank_irrefl].
  rewrite rank_irrefl. split; [|done]. destruct (rank_ltb w v) eqn:E'; [|done].
  pose proof (rank_ltb_trans _ _ _ E E') as E2. by rewrite rank_irrefl in E2.
Qed.

Lemma rank_nlt_trans u v w :
  rank_ltb u v = false -> rank_ltb v w = false -> rank_ltb u w = false.
Proof.
  intros H1 H2. destruct (rank_ltb u w) eqn:E; [|done]. unfold rank_ltb in *.
  destruct (view_hlc u) as [a|], (view_hlc v) as [b|], (view_hlc w) as [c|]; try done.
  destruct (hlc_cmp a c) eqn:Eac; [| |done].
  - apply hlc_cmp_eq in Eac as ->. rewrite (hlc_cmp_antisym c b) in H2. destruct (hlc_cmp c b) eqn:Ecb; cbn [CompOpp] in H2; try done.
    apply Z.ltb_lt in E. apply Z.ltb_ge in H1, H2. lia.
  - destruct (hlc_cmp a b) eqn:Eab; [|done|].
    + apply hlc_cmp_eq in Eab as ->. by rewrite Eac in H2.
    + assert (Eba : hlc_lt b a) by (unfold hlc_lt; rewrite (hlc_cmp_antisym a b); by rewrite Eab).
      pose proof (hlc_lt_trans b a c Eba Eac) as Ebc. unfold hlc_lt in Ebc. by rewrite Ebc in H2.
Qed.

Lemma logically_equal_view a b : object_logically_equal a b = true -> object_view a = object_view b.
Proof.
  unfold object_logically_equal. rewrite !andb_true_iff, Z.eqb_eq, !bool_decide_eq_true.
  intros [[[E1 E2] E3] E4]. unfold object_view. congruence.
Qed.

(** The decisions compare ranks. *)
Lemma hash_tie_break a b :
  match (if a <=? b then LocalWins else Apply) with Apply => true | _ => false end = (b <? a).
Proof. destruct (Z.leb_spec a b); symmetry; [by apply Z.ltb_ge|by apply Z.ltb_lt]. Qed.

Lemma decide_object_rank m row ts :
  (row = None \/ ts = None) ->
  (match decide_object blake3 m row ts with Apply => true | _ => false end) = rank_ltb (view_of row ts) (object_view m).
Proof.
  intros Hor. unfold decide_object, rank_ltb.
  destruct row as [row|], ts as [ts|]; cbn [view_of]; try (by destruct Hor);
    change (view_hlc (object_view m)) with (Some (om_hlc m)).
  - change (view_hlc (object_view row)) with (Some (om_hlc row)). cbv iota. rewrite (hlc_cmp_antisym (om_hlc m) (om_hlc row)).
    destruct (hlc_cmp (om_hlc m) (om_hlc row)) eqn:E; cbn [CompOpp]; [|done..].
    apply hlc_cmp_eq in E. destruct (object_logically_equal m row) eqn:El; [|exact (hash_tie_break _ _)].
    rewrite (logically_equal_view _ _ El). symmetry. apply Z.ltb_irrefl.
  - cbn [view_hlc]. rewrite (hlc_cmp_antisym (om_hlc m) (ts_hlc ts)).
    destruct (hlc_cmp (om_hlc m) (ts_hlc ts)) eqn:E; cbn [CompOpp]; [exact (hash_tie_break _ _)|done..].
Qed.

Lemma decide_tombstone_rank t row ts :
  (row = None \/ ts = None) ->
  (match decide_tombstone blake3 t row ts with Apply => true | _ => false end)
  = rank_ltb (view_of row ts) (VGone (ts_hlc t)).
Proof.
  intros Hor. unfold decide_tombstone, apply_after_row_check, rank_ltb.
  destruct row as [row|], ts as [ts|]; cbn [view_of]; try (by destruct Hor); cbn [view_hlc].
  - change (view_hlc (object_view row)) with (Some (om_hlc row)). cbv iota. rewrite (hlc_cmp_antisym (ts_hlc t) (om_hlc row)).
    destruct (hlc_cmp (ts_hlc t) (om_hlc row)) eqn:E; cbn [CompOpp]; [exact (hash_tie_break _ _)|done..].
  - rewrite (hlc_cmp_antisym (ts_hlc t) (ts_hlc ts)). destruct (hlc_cmp (ts_hlc t) (ts_hlc ts)) eqn:E; cbn [CompOpp]; [|done..].
    apply hlc_cmp_eq in E. cbn [view_bytes]. rewrite E. symmetry. apply Z.ltb_irrefl.
Qed.

(** A write of a live row or of a plain tombstone changes the view of its key only. *)
Lemma record_capture_plain d b k c rk :
  nul_free b -> row_key_ok rk -> record_capture d b k c !! rk = d !! rk.
Proof.
  intros Hb (b' & k' & Hb' & Hk' & ->). destruct c as [[[chunks h] at_]|]; cbn [record_capture]; [|done].
  apply lookup_insert_ne. by apply supersede_key_not_plain.
Qed.

Lemma put_object_views st now b m :
  store_ok st -> record_ok (RObject b m) ->
  let st' := (put_object_in_bucket st Committed now b m).1 in
  store_ok st' /\ forall rk, row_key_ok rk ->
    view_at st' rk = if decide (rk = encode_object_key b (om_object_key m)) then object_view m else view_at st rk.
Proof.
  intros [Hr Hwf] [[Hb Hk] Hm]. unfold put_object_in_bucket. cbn [commit fst].
  set (k := encode_object_key b (om_object_key m)). set (c := capture _ _ _ _).
  set (st' := {| st_objects := _ |}).
  assert (Hk' : row_key_ok k) by (by exists b, (om_object_key m)).
  assert (V : forall rk, row_key_ok rk -> view_at st' rk = if decide (rk = k) then object_view m else view_at st rk).
  { intros rk Hrk. unfold view_at, st'; cbn [st_objects st_deletions]. destruct (decide (rk = k)) as [->|Hne].
    - by rewrite lookup_insert_eq.
    - by rewrite lookup_insert_ne, lookup_delete_ne, record_capture_plain by done. }
  split; [|done]. split.
  - intros rk. unfold st'; cbn [st_objects st_deletions]. destruct (decide (rk = k)) as [->|Hne].
    + intros _. split; [done|apply lookup_delete_eq].
    + rewrite lookup_insert_ne by done. intros H. destruct (Hr rk H) as [Hok Hn]. split; [done|].
      by rewrite lookup_delete_ne, record_capture_plain by done.
  - intros rk Hrk. rewrite V by done. case_decide; [done|by apply Hwf].
Qed.

Lemma apply_tombstone_views st now b k t row :
  store_ok st -> record_ok (RTombstone b k t) ->
  let st' := (apply_tombstone_row st Committed now b k t row).1 in
  store_ok st' /\ forall rk, row_key_ok rk ->
    view_at st' rk = if decide (rk = encode_object_key b k) then VGone (ts_hlc t) else view_at st rk.
Proof.
  intros [Hr Hwf] [[Hb Hk] Ht]. unfold apply_tombstone_row. cbn [commit fst].
  set (rk0 := encode_object_key b k). set (c := match row with Some _ => _ | None => _ end).
  set (st' := {| st_objects := _ |}).
  assert (V : forall rk, row_key_ok rk -> view_at st' rk = if decide (rk = rk0) then VGone (ts_hlc t) else view_at st rk).
  { intros rk Hrk. unfold view_at, st'; cbn [st_objects st_deletions]. destruct (decide (rk = rk0)) as [->|Hne].
    - by rewrite lookup_delete_eq, lookup_insert_eq.
    - by rewrite lookup_insert_ne, lookup_delete_ne, record_capture_plain by done. }
  split; [|done]. split.
  - intros rk. unfold st'; cbn [st_objects st_deletions]. destruct (decide (rk = rk0)) as [->|Hne].
    + rewrite lookup_delete_eq. by intros [].
    + rewrite lookup_delete_ne by done. intros H. destruct (Hr rk H) as [Hok Hn]. split; [done|].
      by rewrite lookup_insert_ne, record_capture_plain by done.
  - intros rk Hrk. rewrite V by done. case_decide; [done|by apply Hwf].
Qed.

Lemma store_ok_excl st rk : store_ok st -> st_objects st !! rk = None \/ st_deletions st !! rk = None.
Proof. intros Hst. destruct (st_objects st !! rk) eqn:E; [|by left]. right. apply Hst. by rewrite E. Qed.

Lemma apply_record_views now st r :
  store_ok st -> record_ok r ->
  store_ok (apply_record now st r) /\ forall rk, row_key_ok rk ->
    view_at (apply_record now st r) rk =
      if decide (rk = record_key r) then merge (view_at st rk) (record_view r) else view_at st rk.
Proof.
  intros Hst Hr. unfold merge. destruct r as [b m|b k t]; cbn [apply_record record_key record_view].
  - unfold sync_apply_object, get_object, get_tombstone.
    pose proof (decide_object_rank m _ _ (store_ok_excl st (encode_object_key b (om_object_key m)) Hst)) as D.
    destruct (decide_object _ _ _ _).
    + destruct (put_object_views st now b m Hst Hr) as [H1 H2]. destruct (put_object_in_bucket _ _ _ _ _) as [st' ok].
      split; [done|]. intros rk Hrk. rewrite H2 by done. case_decide as Ed; [|done]. subst rk. unfold view_at. by rewrite <- D.
    + split; [done|]. intros rk _. case_decide as Ed; [|done]. subst rk. unfold view_at. by rewrite <- D.
    + split; [done|]. intros rk _. case_decide as Ed; [|done]. subst rk. unfold view_at. by rewrite <- D.
  - unfold sync_apply_tombstone, get_object, get_tombstone.
    pose proof (decide_tombstone_rank t _ _ (store_ok_excl st (encode_object_key b k) Hst)) as D.
    destruct (decide_tombstone _ _ _ _).
    + destruct (apply_tombstone_views st now b k t (st_objects st !! encode_object_key b k) Hst Hr) as [H1 H2].
      destruct (apply_tombstone_row _ _ _ _ _ _ _) as [st' ok].
      split; [done|]. intros rk Hrk. rewrite H2 by done. case_decide as Ed; [|done]. subst rk. unfold view_at. by rewrite <- D.
    + split; [done|]. intros rk _. case_decide as Ed; [|done]. subst rk. unfold view_at. by rewrite <- D.
    + split; [done|]. intros rk _. case_decide as Ed; [|done]. subst rk. unfold view_at. by rewrite <- D.
Qed.

(** The states of a key that a replica has seen: its own and those it pulled. *)
Definition seen (st : Store) (rs : list record) (rk : bytes) : list view :=
  view_at st rk :: (record_view <$> filter (fun r => record_key r = rk) rs).

Lemma apply_records_max now rs st rk :
  store_ok st -> Forall record_ok rs -> row_key_ok rk ->
  let v := view_at (foldl (apply_record now) st rs) rk in
  view_wf v /\ v ∈ seen st rs rk /\ Forall (fun w => rank_ltb v w = false) (seen st rs rk).
Proof.
  intros Hst Hrs Hrk. revert st Hst. induction Hrs as [|r rs Hr _ IH]; intros st Hst; cbn [foldl].
  - split; [by apply Hst|]. unfold seen; cbn [filter list_filter fmap list_fmap].
    split; [left|]. constructor; [apply rank_irrefl|constructor].
  - destruct (apply_record_views now st r Hst Hr) as [Hst' Hv]. destruct (IH _ Hst') as (W & Hin & Hmax).
    split; [done|]. set (v := view_at _ rk) in *. specialize (Hv rk Hrk). unfold seen in *.
    apply Forall_cons in Hmax as [Hm0 Hm]. rewrite Hv in Hin, Hm0. destruct (decide (rk = record_key r)) as [->|Hne].
    + rewrite filter_cons_True by done. cbn [fmap list_fmap].
      destruct (merge_upper (view_at st (record_key r)) (record_view r)) as [U1 U2].
      split; [|repeat constructor; [eapply rank_nlt_trans; eassumption..|exact Hm]].
      unfold merge in Hin. destruct (rank_ltb _ _); set_solver.
    + rewrite filter_cons_False by congruence. split; [done|]. by constructor.
Qed.

(** [v] is at least as great as [w]: by the version, wall time first, and among
    equal versions by the identity hash. An absent state is the least. *)
Definition no_less (v w : view) : Prop :=
  match view_hlc w, view_hlc v with
  | None, _ => True
  | Some _, None => False
  | Some h, Some h' =>
      wall_time h < wall_time h' \/ wall_time h = wall_time h' /\
      (logical h < logical h' \/ logical h = logical h' /\ blake3 (view_bytes w) <= blake3 (view_bytes v))
  end.

Lemma rank_no_less v w : rank_ltb v w = false -> no_less v w.
Proof.
  unfold rank_ltb, no_less. destruct (view_hlc w) as [h|]; [|done]. destruct (view_hlc v) as [h'|]; [|done].
  destruct (hlc_cmp h' h) eqn:E; [|done|intros _].
  - apply hlc_cmp_eq in E as ->. rewrite Z.ltb_ge. lia.
  - assert (L : hlc_lt h h') by (unfold hlc_lt; rewrite hlc_cmp_antisym, E; done). apply hlc_lt_iff in L. lia.
Qed.

(** C6: replicas converge to the greatest state. Two replicas start from stores
    in which no key is both live and deleted, each applies a sequence of pulled
    states one at a time and every commit succeeds, and both have then seen the
    same states of a key, in any order and any number of times. Then both end
    with the same logical state of that key: it is one of the states seen, and
    no state seen is greater by version (wall time, then logical counter) and,
    among equal versions, by the identity hash. This needs that the hash has no
    collision among these states. *)
Theorem replicas_converge now1 now2 st1 st2 rs1 rs2 rk :
  (forall v w, v ∈ seen st1 rs1 rk -> w ∈ seen st1 rs1 rk ->
     blake3 (view_bytes v) = blake3 (view_bytes w) -> view_bytes v = view_bytes w) ->
  store_ok st1 -> store_ok st2 -> Forall record_ok rs1 -> Forall record_ok rs2 -> row_key_ok rk ->
  (forall v, v ∈ seen st1 rs1 rk <-> v ∈ seen st2 rs2 rk) ->
  let v := view_at (foldl (apply_record now1) st1 rs1) rk in
  view_at (foldl (apply_record now2) st2 rs2) rk = v /\
  v ∈ seen st1 rs1 rk /\ forall w, w ∈ seen st1 rs1 rk -> no_less v w.
Proof.
  intros Hcf H1 H2 Hr1 Hr2 Hrk Hseen.
  destruct (apply_records_max now1 rs1 st1 rk H1 Hr1 Hrk) as (W1 & I1 & M1).
  destruct (apply_records_max now2 rs2 st2 rk H2 Hr2 Hrk) as (W2 & I2 & M2).
  rewrite Forall_forall in M1, M2. cbn zeta.
  split; [|split; [done|intros w Hw; by apply rank_no_less, M1]].
  symmetry. apply rank_total; [|done|done|apply M1|apply M2]; [|by apply Hseen..].
  apply Hcf; [done|by apply Hseen].
Qed.
End convergence.

Definition sample_row (h : Z) : ObjectMetadata :=
  {| om_object_key := [x6b]; om_size := 3; om_blake3_hash := None;
     om_chunks := [{| cr_segment_id := to_le 16 h; cr_offset := 0; cr_length := 3; cr_compressed := false; cr_logical_length := 3 |}];
     om_inline_data := None; om_created_at := 0; om_hlc := {| wall_time := h; logical := 0 |} |}.

Definition sample_tombstone (h : Z) : Tombstone :=
  {| ts_deletion_time := 0; ts_hlc := {| wall_time := h; logical := 0 |}; ts_chunks := [] |}.

Lemma nul_free_letters l : forallb (fun b => negb (Byte.eqb b x00)) l = true -> nul_free l.
Proof.
  intros H Hin. apply list_elem_of_In in Hin. rewrite forallb_forall in H. specialize (H _ Hin). done.
Qed.

Lemma replicas_converge_witness :
  let o := RObject [x62] (sample_row 5) in
  let t := RTombstone [x62] [x6b] (sample_tombstone 5) in
  let rk := encode_object_key [x62] [x6b] in
  let v := view_at (foldl (apply_record from_le 1) empty_store [o; t]) rk in
  view_at (foldl (apply_record from_le 2) empty_store [t; o; t]) rk = v /\
  v ∈ seen empty_store [o; t] rk /\ forall w, w ∈ seen empty_store [o; t] rk -> no_less from_le v w.
Proof.
  apply (replicas_converge from_le).
  - intros v w Hv Hw. vm_compute in Hv, Hw.
    repeat (apply elem_of_cons in Hv as [->|Hv]); [..|by apply elem_of_nil in Hv];
    repeat (apply elem_of_cons in Hw as [->|Hw]); try (by apply elem_of_nil in Hw); vm_compute; congruence.
  - apply empty_store_ok.
  - apply empty_store_ok.
  - repeat constructor; try (by apply nul_free_letters); vm_compute; congruence.
  - repeat constructor; try (by apply nul_free_letters); vm_compute; congruence.
  - exists [x62], [x6b]. split_and!; [by apply nul_free_letters..|done].
  - intros v. vm_compute. set_solver.
Defined.

(** ** Chunks stay accounted for *)

(** A chunk is accounted for when a live row or a record of a deletion names it:
    the collector finds dead bytes through these records only. *)
Definition accounted (st : Store) (c : ChunkRef) : Prop :=
  (exists rk m, st_objects st !! rk = Some m /\ c ∈ om_chunks m) \/
  (exists rk t, st_deletions st !! rk = Some t /\ c ∈ ts_chunks t).

(** The record a put writes takes no existing record's place. *)
Definition capture_fresh (st : Store) (bucket key : bytes) : Prop :=
  forall h, (om_hlc <$> get_object st bucket key = Some h \/ ts_hlc <$> get_tombstone st bucket key = Some h) ->
    st_deletions st !! encode_supersede_key bucket key h = None.

Lemma record_capture_accounted st b k c x rk t :
  (forall chunks h now, c = Some (chunks, h, now) -> st_deletions st !! encode_supersede_key b k h = None) ->
  st_deletions st !! rk = Some t -> x ∈ ts_chunks t ->
  record_capture (st_deletions st) b k c !! rk = Some t.
Proof.
  intros Hf Ht Hx. destruct c as [[[chunks h] now]|]; cbn [record_capture]; [|done].
  rewrite lookup_insert_ne; [done|]. intros E. rewrite <- E, (Hf _ _ _ eq_refl) in Ht. done.
Qed.

Lemma capture_version row ts m now chunks h at_ :
  capture row ts m now = Some (chunks, h, at_) ->
  om_hlc <$> row = Some h \/ ts_hlc <$> ts = Some h.
Proof.
  unfold capture. destruct row as [row|], ts as [ts|]; cbn [fmap option_fmap option_map].
  - destruct (is_segment_stored row && _); [|done]. intros [= _ -> _]. by left.
  - destruct (is_segment_stored row && _); [|done]. intros [= _ -> _]. by left.
  - destruct (ts_chunks ts); [done|]. intros [= _ -> _]. by right.
  - done.
Qed.

(** an overwrite loses no chunk: after a put of a newer version every chunk
    that a live row or a deletion record named is still named by one, so the
    collector can find the dead bytes of the replaced version, and of a
    deleted one that the put revives. *)
Theorem put_keeps_chunks st now b m c :
  store_ok st -> nul_free b -> nul_free (om_object_key m) ->
  (forall prev, get_object st b (om_object_key m) = Some prev -> hlc_lt (om_hlc prev) (om_hlc m)) ->
  capture_fresh st b (om_object_key m) ->
  accounted st c -> accounted (put_object_in_bucket st Committed now b m).1 c.
Proof.
  intros Hst Hb Hk Hnew Hfresh Hacc. unfold put_object_in_bucket. cbn [commit fst].
  set (rk := encode_object_key b (om_object_key m)). set (cp := capture _ _ _ _).
  assert (Hcp : forall chunks h at_, cp = Some (chunks, h, at_) ->
    st_deletions st !! encode_supersede_key b (om_object_key m) h = None)
    by (intros * E; apply Hfresh; by eapply capture_version).
  assert (Hsk : forall h, encode_supersede_key b (om_object_key m) h <> rk) by (intros h; by apply supersede_key_not_plain).
  assert (Hcap : forall chunks h at_, cp = Some (chunks, h, at_) -> c ∈ chunks ->
    accounted {| st_objects := <[rk:=m]> (st_objects st);
                 st_deletions := delete rk (record_capture (st_deletions st) b (om_object_key m) cp);
                 st_journal := st_journal st ++ [(JPut, rk, om_hlc m)] |} c).
  { intros chunks h at_ E Hc. right. exists (encode_supersede_key b (om_object_key m) h). eexists.
    cbn [st_deletions]. rewrite lookup_delete_ne by (intros E'; by apply (Hsk h)).
    rewrite E. cbn [record_capture]. by rewrite lookup_insert_eq. }
  destruct Hacc as [(rk' & m' & Hm' & Hc)|(rk' & t & Ht & Hc)]; destruct (decide (rk' = rk)) as [->|Hne].
  - eapply Hcap; [|exact Hc]. unfold cp, get_object. fold rk. rewrite Hm'. cbn [capture].
    specialize (Hnew m' Hm'). unfold hlc_ltb. rewrite Hnew. unfold is_segment_stored.
    destruct (om_chunks m') eqn:E; [by apply elem_of_nil in Hc|]. rewrite <- E. done.
  - left. exists rk', m'. cbn [st_objects]. by rewrite lookup_insert_ne.
  - eapply Hcap; [|exact Hc]. unfold cp, get_object, get_tombstone. fold rk. rewrite Ht.
    destruct (store_ok_excl st rk Hst) as [E|E]; [rewrite E|congruence]. cbn [capture].
    destruct (ts_chunks t) eqn:E'; [by apply elem_of_nil in Hc|done].
  - right. exists rk', t. cbn [st_deletions]. rewrite lookup_delete_ne by done.
    split; [|done]. by eapply record_capture_accounted.
Qed.

(** deleting twice loses the chunks: the second delete of a key replaces
    the tombstone that names the object's chunks by one that names none. A
    chunk that only this tombstone accounted for is lost to the collector. *)
Theorem second_delete_loses_chunks st now1 now2 b m h1 h2 c :
  nul_free b -> nul_free (om_object_key m) ->
  get_object st b (om_object_key m) = Some m -> c ∈ om_chunks m ->
  (forall rk' m', st_objects st !! rk' = Some m' -> c ∈ om_chunks m' -> rk' = encode_object_key b (om_object_key m)) ->
  (forall rk' t, st_deletions st !! rk' = Some t -> c ∉ ts_chunks t) ->
  let st1 := (delete_object st Committed now1 b (om_object_key m) h1).1 in
  accounted st1 c /\ ~ accounted (delete_object st1 Committed now2 b (om_object_key m) h2).1 c.
Proof.
  intros Hb Hk Hm Hc Hone Hnone. unfold delete_object, get_object in *. set (rk := encode_object_key b (om_object_key m)) in *.
  rewrite Hm. cbn [from_option commit fst st_objects st_deletions].
  rewrite lookup_delete_eq. cbn [from_option]. split.
  - right. exists rk. eexists. cbn [st_deletions]. by rewrite lookup_insert_eq.
  - intros [(rk' & m' & Hm' & Hc')|(rk' & t & Ht & Hc')]; cbn [st_objects st_deletions] in *.
    + apply lookup_delete_Some in Hm' as [Hne1 Hm']. apply lookup_delete_Some in Hm' as [_ Hm'].
      apply Hne1. symmetry. by apply (Hone rk' m').
    + destruct (decide (rk' = rk)) as [->|Hne].
      * rewrite lookup_insert_eq in Ht. injection Ht as <-. cbn [ts_chunks] in Hc'. by apply elem_of_nil in Hc'.
      * rewrite !lookup_insert_ne in Ht by done. by apply (Hnone rk' t).
Qed.

(** ** Rebuilding *)

(** a rebuild that folds rows of several peers can revive a deleted object: an
    older tombstone of a lagging peer takes the place of a newer one, and then
    a row of a version in between, which the newer delete had removed, is
    taken for live. *)
Theorem rebuild_revives_deleted utf8 b k older newer m :
  nul_free b -> nul_free k -> om_object_key m = k ->
  hlc_lt (ts_hlc older) (om_hlc m) -> hlc_lt (om_hlc m) (ts_hlc newer) ->
  let rk := encode_object_key b k in
  let st1 := (rebuild_apply_deletion_row utf8 empty_store Committed rk newer).1 in
  let st2 := (rebuild_apply_deletion_row utf8 st1 Committed rk older).1 in
  (rebuild_apply_object_row st1 Committed rk m) = (st1, Some false) /\
  view_at (rebuild_apply_object_row st2 Committed rk m).1 rk = object_view m.
Proof.
  intros Hb Hk Hkey Hlo Hhi rk. unfold rebuild_apply_deletion_row, rebuild_apply_tombstone, rebuild_apply_object_row, hlc_ltb.
  destruct (decode_deletions_key utf8 rk) as [[b' k'|b' k' v]|] eqn:E;
    [|by apply plain_key_not_decoded_supersede in E|];
    cbn [empty_store st_objects st_deletions]; rewrite lookup_empty; cbn [commit fst st_objects st_deletions];
    rewrite lookup_insert_eq, lookup_delete_eq; cbn [commit fst st_objects st_deletions];
    rewrite lookup_insert_eq, lookup_delete_eq, Hlo, (hlc_cmp_antisym (om_hlc m)), Hhi; cbn [CompOpp negb orb commit fst];
    (split; [done|]); unfold view_at; cbn [st_objects]; by rewrite lookup_insert_eq.
Qed.

Definition sample_chunk (h : Z) : ChunkRef :=
  {| cr_segment_id := to_le 16 h; cr_offset := 0; cr_length := 3; cr_compressed := false; cr_logical_length := 3 |}.

Definition sample_store : Store := (put_object_in_bucket empty_store Committed 1 [x62] (sample_row 5)).1.

Lemma sample_store_ok : store_ok sample_store.
Proof.
  apply put_object_views; [apply empty_store_ok|]. split; [split; by apply nul_free_letters|].
  vm_compute. repeat split; congruence.
Qed.

Lemma sample_store_rows rk m : st_objects sample_store !! rk = Some m -> rk = encode_object_key [x62] [x6b] /\ m = sample_row 5.
Proof.
  unfold sample_store, put_object_in_bucket. cbn [commit fst st_objects empty_store].
  destruct (decide (rk = encode_object_key [x62] (om_object_key (sample_row 5)))) as [->|Hne].
  - rewrite lookup_insert_eq. by intros [= <-].
  - by rewrite lookup_insert_ne, lookup_empty.
Qed.

Lemma sample_store_deletions rk : st_deletions sample_store !! rk = None.
Proof.
  unfold sample_store, put_object_in_bucket, get_object, get_tombstone.
  cbn [commit fst st_deletions st_objects empty_store]. rewrite !lookup_empty. cbn [capture record_capture].
  rewrite delete_id; apply lookup_empty.
Qed.

Lemma put_keeps_chunks_witness :
  accounted (put_object_in_bucket sample_store Committed 2 [x62] (sample_row 9)).1 (sample_chunk 5).
Proof.
  apply put_keeps_chunks.
  - apply sample_store_ok.
  - by apply nul_free_letters.
  - by apply nul_free_letters.
  - intros prev E. apply sample_store_rows in E as [_ ->]. reflexivity.
  - intros h _. apply sample_store_deletions.
  - left. exists (encode_object_key [x62] [x6b]), (sample_row 5). split; [vm_compute; reflexivity|left].
Defined.

Lemma second_delete_loses_chunks_witness :
  let st1 := (delete_object sample_store Committed 2 [x62] [x6b] {| wall_time := 6; logical := 0 |}).1 in
  accounted st1 (sample_chunk 5) /\
  ~ accounted (delete_object st1 Committed 3 [x62] [x6b] {| wall_time := 7; logical := 0 |}).1 (sample_chunk 5).
Proof.
  apply (second_delete_loses_chunks sample_store 2 3 [x62] (sample_row 5)).
  - by apply nul_free_letters.
  - by apply nul_free_letters.
  - vm_compute; reflexivity.
  - left.
  - intros rk' m' E _. by apply sample_store_rows in E as [-> _].
  - intros rk' t E. by rewrite sample_store_deletions in E.
Defined.

Lemma rebuild_revives_deleted_witness :
  let rk := encode_object_key [x62] [x6b] in
  let st1 := (rebuild_apply_deletion_row (fun _ => true) empty_store Committed rk (sample_tombstone 9)).1 in
  let st2 := (rebuild_apply_deletion_row (fun _ => true) st1 Committed rk (sample_tombstone 3)).1 in
  rebuild_apply_object_row st1 Committed rk (sample_row 5) = (st1, Some false) /\
  view_at (rebuild_apply_object_row st2 Committed rk (sample_row 5)).1 rk = object_view (sample_row 5).
Proof.
  apply (rebuild_revives_deleted (fun _ => true) [x62] [x6b] (sample_tombstone 3) (sample_tombstone 9) (sample_row 5));
    try (by apply nul_free_letters); reflexivity.
Defined.

(** ** The journal *)

Inductive store_op :=
| OPut (bucket : bytes) (m : ObjectMetadata)
| ODelete (bucket key : bytes) (hlc : Hlc)
| OSyncObject (bucket : bytes) (m : ObjectMetadata)
| OSyncTombstone (bucket key : bytes) (t : Tombstone)
| ORebuildObject (row_key : bytes) (m : ObjectMetadata)
| ORebuildDeletion (row_key : bytes) (t : Tombstone)
| OBatch (ops : list BatchOp).

(** Buckets have no NUL; removing a tombstone is the collector's business and is not replicated. *)
Definition op_ok (o : store_op) : Prop :=
  match o with
  | OPut b _ | ODelete b _ _ | OSyncObject b _ | OSyncTombstone b _ _ => nul_free b
  | OBatch ops => Forall (fun op => match op with BDeleteTombstone _ _ => False | _ => True end) ops
  | _ => True
  end.

Definition journaled (st st' : Store) (io : commit_io) : Prop :=
  exists recs, st_journal st' = st_journal st ++ recs /\
    forall rk, row_key_ok rk -> view_at st' rk <> view_at st rk -> io = Committed /\ rk ∈ (recs.*1).*2.

Lemma journaled_refl st io : journaled st st io.
Proof. exists []. by rewrite app_nil_r. Qed.

(** A commit is journaled when each key whose view changes is in its records. *)
Lemma commit_journaled st io recs objects deletions :
  (forall rk, row_key_ok rk ->
     view_of (objects !! rk) (deletions !! rk) <> view_at st rk -> rk ∈ (recs.*1).*2) ->
  journaled st (commit st io recs objects deletions).1 io.
Proof.
  intros H. destruct io; cbn [commit fst]; [apply journaled_refl|exists recs; by split..|].
  exists recs. split; [done|]. intros rk Hrk Hv. split; [done|]. by apply H.
Qed.

Lemma put_journaled st io now b m :
  nul_free b -> journaled st (put_object_in_bucket st io now b m).1 io.
Proof.
  intros Hb. apply commit_journaled. intros rk Hrk Hv. destruct (decide (rk = encode_object_key b (om_object_key m))) as [->|Hne]; [left|].
  by rewrite lookup_insert_ne, lookup_delete_ne, record_capture_plain in Hv by done.
Qed.

Lemma tombstone_journaled st io now b k t row :
  nul_free b -> journaled st (apply_tombstone_row st io now b k t row).1 io.
Proof.
  intros Hb. apply commit_journaled. intros rk Hrk Hv. destruct (decide (rk = encode_object_key b k)) as [->|Hne]; [left|].
  by rewrite lookup_insert_ne, lookup_delete_ne, record_capture_plain in Hv by done.
Qed.

Lemma rebuild_deletion_journaled utf8 st io rk t : journaled st (rebuild_apply_deletion_row utf8 st io rk t).1 io.
Proof.
  unfold rebuild_apply_deletion_row.
  assert (J : journaled st (rebuild_apply_tombstone st io rk t).1 io).
  { unfold rebuild_apply_tombstone. destruct (match st_objects st !! rk with Some _ => _ | None => _ end); [apply journaled_refl|].
    match goal with |- context [commit st io ?r ?a ?d] => assert (J : journaled st (commit st io r a d).1 io) end;
      [|by destruct (commit _ _ _ _ _)]. apply commit_journaled. intros rk' Hrk Hv.
    destruct (decide (rk' = rk)) as [->|Hne]; [left|]. by rewrite lookup_insert_ne, lookup_delete_ne in Hv by done. }
  destruct (decode_deletions_key utf8 rk) as [[b k|b k v]|] eqn:E; [done| |done].
  destruct io; [apply journaled_refl..|]. exists []. cbn [fst st_journal]. rewrite app_nil_r. split; [done|].
  intros rk' Hrk' []. unfold view_at; cbn [st_objects st_deletions]. rewrite lookup_insert_ne; [done|].
  intros <-. destruct Hrk' as (b' & k' & Hb & Hk & ->). by apply plain_key_not_decoded_supersede in E.
Qed.

(** A batch without a record for a key leaves its logical state. *)
Lemma batch_unrecorded st ops rk m :
  Forall (fun op => match op with BDeleteTombstone _ _ => False | _ => True end) ops ->
  rk ∉ ((concat (batch_record st <$> ops)).*1).*2 ->
  object_view <$> m.1 !! rk = object_view <$> st_objects st !! rk ->
  ts_hlc <$> m.2 !! rk = ts_hlc <$> st_deletions st !! rk ->
  let m' := foldl batch_apply m ops in
  object_view <$> m'.1 !! rk = object_view <$> st_objects st !! rk /\
  ts_hlc <$> m'.2 !! rk = ts_hlc <$> st_deletions st !! rk.
Proof.
  intros Hops. revert m. induction Hops as [|op ops Hop _ IH]; intros m Hn Ho Ht; [done|].
  cbn [foldl fmap list_fmap concat] in *. rewrite !fmap_app, elem_of_app in Hn.
  apply Decidable.not_or in Hn as [Hn1 Hn]. apply IH; [done|..]; clear IH Hn.
  - destruct op as [b k v|b k|b k t|b k]; cbn [batch_apply batch_record fst snd] in *; try done;
      unfold get_object in Hn1; destruct (decide (encode_object_key b k = rk)) as [<-|Hne];
      rewrite ?lookup_insert_eq, ?lookup_delete_eq, ?lookup_insert_ne, ?lookup_delete_ne by done; try done.
    + destruct (st_objects st !! _) as [prev|]; cbn [from_option] in Hn1; [|set_solver].
      destruct (object_logically_equal prev v) eqn:E; [|set_solver]. cbn. f_equal. symmetry. by apply logically_equal_view.
    + destruct (st_objects st !! _) as [prev|]; cbn [from_option] in Hn1; [set_solver|done].
  - destruct op as [b k v|b k|b k t|b k]; cbn [batch_apply batch_record fst snd] in *; try done.
    unfold get_tombstone in Hn1. destruct (decide (encode_object_key b k = rk)) as [<-|Hne];
      rewrite ?lookup_insert_eq, ?lookup_insert_ne by done; [|done].
    destruct (st_deletions st !! _) as [prev|]; cbn [from_option] in Hn1; [|set_solver].
    case_bool_decide as E; [set_solver|]. cbn. f_equal. apply dec_stable. naive_solver.
Qed.

Lemma view_of_eq row ts row' ts' :
  object_view <$> row = object_view <$> row' -> ts_hlc <$> ts = ts_hlc <$> ts' -> view_of row ts = view_of row' ts'.
Proof.
  destruct row as [row|], row' as [row'|], ts as [ts|], ts' as [ts'|]; cbn; intros E1 E2; try done; try congruence;
    apply (inj Some) in E1; done.
Qed.

Lemma batch_journaled st io ops : op_ok (OBatch ops) -> journaled st (batch_write st io ops).1 io.
Proof.
  intros Hops. unfold batch_write. set (recs := concat _).
  pose proof (fun rk Hrk => batch_unrecorded st ops rk (st_objects st, st_deletions st) Hops Hrk eq_refl eq_refl) as H.
  destruct (foldl batch_apply _ ops) as [objects deletions]. cbn [fst snd] in H.
  set (io' := match recs, io with [], JournalFails => WriteFails | _, _ => io end).
  assert (J : journaled st (commit st io' recs objects deletions).1 io').
  { apply commit_journaled. intros rk Hrk Hv. destruct (decide (rk ∈ (recs.*1).*2)) as [|Hn]; [done|].
    destruct (H rk Hn) as [H1 H2]. exfalso. apply Hv. by apply view_of_eq. }
  destruct J as (rs & E & Hrs). exists rs. split; [done|]. intros rk Hrk Hv. destruct (Hrs rk Hrk Hv) as [Ec Hin].
  split; [|done]. subst io'. by destruct recs, io.
Qed.

Section journal.
Context (blake3 : bytes -> Z) (utf8 : bytes -> bool).

Definition run_op (st : Store) (io : commit_io) (now : Z) (o : store_op) : Store :=
  match o with
  | OPut b m => (put_object_in_bucket st io now b m).1
  | ODelete b k h => (delete_object st io now b k h).1
  | OSyncObject b m => (sync_apply_object blake3 st io now b m).1
  | OSyncTombstone b k t => (sync_apply_tombstone blake3 st io now b k t).1
  | ORebuildObject rk m => (rebuild_apply_object_row st io rk m).1
  | ORebuildDeletion rk t => (rebuild_apply_deletion_row utf8 st io rk t).1
  | OBatch ops => (batch_write st io ops).1
  end.

(** the journal is written first: whatever operation runs and however its
    journal append and its batch write end, records are only added to the
    journal, and the logical state of an object changes only in a committed
    operation, of which a record names the key. A peer that reads the journal
    misses no change. *)
Theorem changes_are_journaled st io now o :
  op_ok o ->
  exists recs, st_journal (run_op st io now o) = st_journal st ++ recs /\
    forall rk, row_key_ok rk -> view_at (run_op st io now o) rk <> view_at st rk ->
      io = Committed /\ rk ∈ (recs.*1).*2.
Proof.
  intros Ho. change (journaled st (run_op st io now o) io). destruct o as [b m|b k h|b m|b k t|rk m|rk t|ops]; cbn [run_op op_ok] in *.
  - by apply put_journaled.
  - apply commit_journaled. intros rk Hrk Hv. destruct (decide (rk = encode_object_key b k)) as [->|Hne]; [left|].
    by rewrite lookup_insert_ne, lookup_delete_ne in Hv by done.
  - unfold sync_apply_object. pose proof (put_journaled st io now b m Ho) as J.
    destruct (decide_object _ _ _ _); [|apply journaled_refl..]. by destruct (put_object_in_bucket _ _ _ _ _).
  - unfold sync_apply_tombstone. pose proof (tombstone_journaled st io now b k t (get_object st b k) Ho) as J.
    destruct (decide_tombstone _ _ _ _); [|apply journaled_refl..]. by destruct (apply_tombstone_row _ _ _ _ _ _ _).
  - unfold rebuild_apply_object_row. destruct (_ || _); [apply journaled_refl|].
    match goal with |- context [commit st io ?r ?a ?d] => assert (J : journaled st (commit st io r a d).1 io) end.
    { apply commit_journaled. intros rk' Hrk Hv. destruct (decide (rk' = rk)) as [->|Hne]; [left|].
      by rewrite lookup_insert_ne, lookup_delete_ne in Hv by done. }
    by destruct (commit _ _ _ _ _).
  - by apply rebuild_deletion_journaled.
  - by apply batch_journaled.
Qed.
End journal.

Lemma changes_are_journaled_witness :
  exists recs, st_journal (run_op from_le (fun _ => true) sample_store Committed 2 (OPut [x62] (sample_row 9)))
    = st_journal sample_store ++ recs /\
    forall rk, row_key_ok rk ->
      view_at (run_op from_le (fun _ => true) sample_store Committed 2 (OPut [x62] (sample_row 9))) rk
      <> view_at sample_store rk -> Committed = Committed /\ rk ∈ (recs.*1).*2.
Proof. apply changes_are_journaled. by apply nul_free_letters. Defined.

(** ** Listings are complete *)

Lemma starts_with_prefix p l : starts_with p l = true <-> p `prefix_of` l.
Proof.
  revert l. induction p as [|x p IH]; intros l; cbn [starts_with]; [split; [intros _; apply prefix_nil|done]|].
  destruct l as [|y l]; [split; [done|by intros ?%prefix_nil_not]|].
  rewrite andb_true_iff, bool_decide_eq_true, IH. split.
  - intros [-> H]. by apply prefix_cons.
  - intros H. split; [by eapply prefix_cons_inv_1|by eapply prefix_cons_inv_2].
Qed.

Lemma lex_le_trans a b c : lex_le a b = true -> lex_le b c = true -> lex_le a c = true.
Proof.
  revert b c. induction a as [|x a IH]; intros [|y b] [|z c]; cbn [lex_le]; try done.
  rewrite !orb_true_iff, !andb_true_iff, !Z.ltb_lt, !Z.eqb_eq.
  intros [?|[E1 H1]] [?|[E2 H2]]; [left; lia..|right; split; [lia|by eapply IH]].
Qed.

Lemma lex_le_total a b : lex_le a b = true \/ lex_le b a = true.
Proof.
  revert b. induction a as [|x a IH]; intros [|y b]; cbn [lex_le]; auto.
  rewrite !orb_true_iff, !andb_true_iff, !Z.ltb_lt, !Z.eqb_eq.
  destruct (Z.lt_trichotomy (Z_of_byte x) (Z_of_byte y)) as [|[E|]]; [by auto| |by auto].
  destruct (IH b); [left|right]; auto.
Qed.

Lemma lex_le_of_prefix p l : starts_with p l = true -> lex_le p l = true.
Proof.
  revert l. induction p as [|x p IH]; intros [|y l]; cbn [starts_with lex_le]; try done.
  intros [->%bool_decide_eq_true H]%andb_true_iff. rewrite IH, Z.eqb_refl by done. apply orb_true_r.
Qed.

(** The keys with a prefix are consecutive. *)
Lemma prefix_run_ends p b c :
  lex_le p b = true -> starts_with p b = false -> lex_le b c = true -> starts_with p c = false.
Proof.
  revert b c. induction p as [|x p IH]; intros [|y b] [|z c]; cbn [starts_with lex_le]; try done.
  rewrite !orb_true_iff, !andb_true_iff, !andb_false_iff, !Z.ltb_lt, !Z.eqb_eq, !bool_decide_eq_false.
  intros H1 H2 H3. destruct (decide (x = z)) as [->|]; [right|by left].
  destruct H1 as [|[E1 H1]], H3 as [|[E3 H3]]; try lia.
  destruct H2 as [H2|H2]; [|by apply (IH b)]. by apply Z_of_byte_inj in E1.
Qed.

#[export] Instance row_le_trans {A} : Transitive (row_le (A:=A)).
Proof. intros a b c. apply lex_le_trans. Qed.

#[export] Instance row_le_total {A} : Total (row_le (A:=A)).
Proof. intros a b. apply lex_le_total. Qed.

Lemma rows_sorted {A} (m : gmap bytes A) : StronglySorted row_le (rows m).
Proof. apply StronglySorted_merge_sort; apply _. Qed.

Lemma rows_perm {A} (m : gmap bytes A) : rows m ≡ₚ map_to_list m.
Proof. apply merge_sort_Permutation. Qed.

Lemma filter_none {A} (P : A -> Prop) `{!forall x, Decision (P x)} l : Forall (fun x => ~ P x) l -> filter P l = [].
Proof. induction 1; [done|]. by rewrite filter_cons_False. Qed.

Lemma take_prefix_run {A} p (l : list (bytes * A)) :
  StronglySorted row_le l -> Forall (fun r => lex_le p r.1 = true) l ->
  take_while (fun r => starts_with p r.1) l = filter (fun r => starts_with p r.1 = true) l.
Proof.
  induction 1 as [|r l Hs IH Hall]; intros Hge; [done|]. apply Forall_cons in Hge as [Hr Hge].
  cbn [take_while]. destruct (starts_with p r.1) eqn:Es; [rewrite filter_cons_True by done; f_equal; by apply IH|].
  rewrite filter_cons_False by congruence. symmetry. apply filter_none. eapply Forall_impl; [exact Hall|].
  intros r' H'. cbn beta. by rewrite (prefix_run_ends p r.1 r'.1).
Qed.

Lemma scan_is_filter {A} p (l : list (bytes * A)) :
  StronglySorted row_le l ->
  take_while (fun r => starts_with p r.1) (skip_while (fun r => negb (lex_le p r.1)) l)
  = filter (fun r => starts_with p r.1 = true) l.
Proof.
  induction 1 as [|r l Hs IH Hall]; [done|]. cbn [skip_while]. destruct (lex_le p r.1) eqn:Ele; cbn [negb].
  - apply take_prefix_run; [by constructor|]. constructor; [done|].
    eapply Forall_impl; [exact Hall|]. intros r' H'. by eapply lex_le_trans.
  - rewrite IH, filter_cons_False; [done|]. intros E%lex_le_of_prefix. congruence.
Qed.

Lemma starts_with_app p l l' : starts_with (p ++ l) (p ++ l') = starts_with l l'.
Proof. induction p as [|x p IH]; [done|]. cbn [app starts_with]. by rewrite IH, bool_decide_true. Qed.

(** A row key carries the prefix of a listing when it is of the bucket and its
    object key starts as asked. *)
Lemma row_key_starts_with b p b' k :
  nul_free b -> nul_free b' ->
  starts_with (encode_object_key b p) (encode_object_key b' k) = true <-> b = b' /\ starts_with p k = true.
Proof.
  intros Hb Hb'. split.
  - intros [l E]%starts_with_prefix. unfold encode_object_key in E. rewrite <- !app_assoc in E.
    pose proof (split_nul_app b' k Hb') as S. rewrite E, split_nul_app in S by done.
    apply (inj Some) in S. assert (E' : b = b' /\ p ++ l = k) by (by injection S). destruct E' as [-> <-].
    split; [done|]. apply starts_with_prefix. by eexists.
  - intros [-> H]. unfold encode_object_key. by rewrite starts_with_app; cbn.
Qed.

(** C34: a listing is complete and ordered: the scan from the prefix key to the
    first key without the prefix returns the rows of the bucket whose object key
    starts with the prefix, all of them, once each, in the order of their keys. *)
Theorem list_objects_exact st b p :
  store_ok st -> nul_free b ->
  exists rs, list_objects st b p = rs.*2 /\ StronglySorted (fun x y => lex_le x y = true) rs.*1 /\ NoDup rs.*1 /\
    forall rk m, (rk, m) ∈ rs <->
      exists k, rk = encode_object_key b k /\ starts_with p k = true /\ get_object st b k = Some m.
Proof.
  intros Hst Hb. exists (filter (fun r => starts_with (encode_object_key b p) r.1 = true) (rows (st_objects st))).
  split_and!.
  - unfold list_objects, rows_from. by rewrite scan_is_filter by apply rows_sorted.
  - pose proof (rows_sorted (st_objects st)) as S. clear Hst. induction S as [|r l _ IH Hall]; [constructor|].
    destruct (decide (starts_with (encode_object_key b p) r.1 = true)) as [E|E];
      [rewrite filter_cons_True by done|by rewrite filter_cons_False by done].
    cbn [fmap list_fmap]. constructor; [done|]. apply Forall_fmap, Forall_forall.
    intros r' [_ Hr']%list_elem_of_filter. rewrite Forall_forall in Hall. by apply Hall.
  - eapply sublist_NoDup; [|apply fmap_sublist, sublist_filter]. rewrite (rows_perm (st_objects st)).
    apply NoDup_fst_map_to_list.
  - intros rk m. rewrite list_elem_of_filter, rows_perm, elem_of_map_to_list. cbn [fst]. split.
    + intros [E Hm]. destruct (so_rows st Hst rk) as [(b' & k & Hb' & Hk & ->) _]; [by rewrite Hm|].
      apply row_key_starts_with in E as [<- E]; [|done..]. by exists k.
    + intros (k & -> & E & Hm). split; [by apply row_key_starts_with|done].
Qed.

Lemma list_objects_exact_witness :
  list_objects sample_store [x62] [] = [sample_row 5] /\
  exists rs, list_objects sample_store [x62] [] = rs.*2 /\ StronglySorted (fun x y => lex_le x y = true) rs.*1 /\
    NoDup rs.*1 /\
    forall rk m, (rk, m) ∈ rs <->
      exists k, rk = encode_object_key [x62] k /\ starts_with [] k = true /\ get_object sample_store [x62] k = Some m.
Proof.
  split; [vm_compute; reflexivity|].
  apply (list_objects_exact sample_store [x62] []); [apply sample_store_ok|by apply nul_free_letters].
Defined.
