(* ===== verification/Gc.v ===== *)
(** * Garbage accounting
      (crates/oceanfs-durability/src/gc: liveness_tracker.rs,
       garbage_collector.rs, orphan_reaper.rs, config.rs)

    What is dead is read off the records of the deletions column family that
    are older than a time to live. The collector moves the bytes of these
    records from live to dead and picks the segments below a liveness ratio;
    the reaper picks the segments whose dead bytes reach their size. Ratios
    are IEEE doubles, in the specification of the standard library. Metrics
    and the scheduling of the background tasks are not modelled. *)

From Stdlib Require Import ZArith Lia Strings.Byte Floats.SpecFloat.
From stdpp Require Import base list gmap fin_maps sorting.
From S2P Require Import Prelude Hlc WalPos EventRecord Lifecycle MetaKey MetaStore.

Set Default Proof Using "Type".
Local Open Scope Z_scope.

(** ** Configuration *)

Record GcConfig := {
  gc_interval_sec : Z; gc_tombstone_ttl_sec : Z; gc_compact_threshold : spec_float;
  gc_max_concurrent_compactions : nat; gc_compaction_queue_capacity : nat }.

Definition tier_target_size (tier : SizeTier) : Z :=
  match tier with Small => 65536 | Standard => 4194304 | Multi => 4194304 | Inline => 0 end.

(** [x as i64] of a 64-bit word. *)
Definition as_i64 (x : Z) : Z := let w := x mod 2 ^ 64 in if w <? 2 ^ 63 then w else w - 2 ^ 64.

(** [(tombstone_ttl_sec * 1000) as i64], the product wrapping. *)
Definition ttl_ms (c : GcConfig) : Z := as_i64 (gc_tombstone_ttl_sec c * 1000).

Notation chunk_key := (bytes * Z * Z)%type.

(** ** Aged records *)

Section collector.
Context (utf8 : bytes -> bool).

Definition aged (now ttl : Z) (r : bytes * bytes * DeadChunkRecord) : bool := ttl <? now - dc_captured_at r.2.

Definition collect_aged_dead_chunk_records (st : Store) (now ttl : Z) : list (bytes * bytes * DeadChunkRecord) :=
  filter (fun r => aged now ttl r = true) (list_dead_chunk_records_all utf8 st).

(** ** The liveness tracker *)

Record LivenessTracker := {
  lt_live_bytes : gmap bytes Z; lt_dead_bytes : gmap bytes Z; lt_known_segments : gset bytes }.

Definition tracker_new : LivenessTracker :=
  {| lt_live_bytes := ∅; lt_dead_bytes := ∅; lt_known_segments := ∅ |}.

Definition register_segment (t : LivenessTracker) (id : bytes) (total_size : Z) : LivenessTracker :=
  {| lt_live_bytes := <[id := default 0 (lt_live_bytes t !! id) + total_size]> (lt_live_bytes t);
     lt_dead_bytes := lt_dead_bytes t; lt_known_segments := {[id]} ∪ lt_known_segments t |}.

Definition mark_dead (t : LivenessTracker) (c : ChunkRef) : LivenessTracker :=
  let id := cr_segment_id c in
  {| lt_live_bytes := match lt_live_bytes t !! id with
                      | Some live => <[id := saturating_sub live (cr_length c)]> (lt_live_bytes t)
                      | None => lt_live_bytes t
                      end;
     lt_dead_bytes := <[id := default 0 (lt_dead_bytes t !! id) + cr_length c]> (lt_dead_bytes t);
     lt_known_segments := lt_known_segments t |}.

(** [u64 as f64], rounding to nearest even. *)
Definition f64_of_u64 (x : Z) : spec_float := binary_normalize 53 1024 x 0 false.

Definition f64_one : spec_float := f64_of_u64 1.

Definition liveness_ratio (t : LivenessTracker) (id : bytes) : option spec_float :=
  live ← lt_live_bytes t !! id;
  let dead := default 0 (lt_dead_bytes t !! id) in
  let total := live + dead in
  Some (if total =? 0 then f64_one else SFdiv 53 1024 (f64_of_u64 live) (f64_of_u64 total)).

Definition compaction_candidates (t : LivenessTracker) (threshold : spec_float) : list bytes :=
  filter (fun id => match liveness_ratio t id with Some r => SFltb r threshold | None => false end = true)
    (elements (lt_known_segments t)).

Definition dead_bytes_for (t : LivenessTracker) (id : bytes) : Z := default 0 (lt_dead_bytes t !! id).

(** ** Processing the records *)

Record TombstoneResult := {
  tr_eligible_keys : gset (bytes * bytes);
  tr_tombstone_keys : gmap bytes (list (bytes * bytes));
  tr_supersedes : gmap bytes (list (bytes * bytes * Hlc)) }.

Definition push_at {A} (m : gmap bytes (list A)) (id : bytes) (a : A) : gmap bytes (list A) :=
  <[id := default [] (m !! id) ++ [a]]> m.

Definition process_record (s : LivenessTracker * TombstoneResult) (r : bytes * bytes * DeadChunkRecord)
    : LivenessTracker * TombstoneResult :=
  let '(t, res) := s in
  let '(b, k, rec) := r in
  let t := foldl mark_dead t (dc_chunks rec) in
  match dc_kind rec with
  | KTombstone =>
      (t, {| tr_eligible_keys := {[(b, k)]} ∪ tr_eligible_keys res;
             tr_tombstone_keys := foldl (fun m c => push_at m (cr_segment_id c) (b, k)) (tr_tombstone_keys res) (dc_chunks rec);
             tr_supersedes := tr_supersedes res |})
  | KSupersede =>
      (t, {| tr_eligible_keys := tr_eligible_keys res; tr_tombstone_keys := tr_tombstone_keys res;
             tr_supersedes := foldl (fun m c => push_at m (cr_segment_id c) (b, k, dc_hlc rec)) (tr_supersedes res) (dc_chunks rec) |})
  end.

(** The entries that [for_each] visits, in no particular order. *)
Definition register_all (now : Z) (reg : Registry) (t : LivenessTracker) : LivenessTracker :=
  map_fold (fun id e t => register_segment t id (sm_total_bytes (le_metadata e))) t (live now reg).

Definition process_tombstones (cfg : GcConfig) (st : Store) (reg : Registry) (now reg_now : Z)
    : LivenessTracker * TombstoneResult :=
  foldl process_record
    (register_all reg_now reg tracker_new, {| tr_eligible_keys := ∅; tr_tombstone_keys := ∅; tr_supersedes := ∅ |})
    (collect_aged_dead_chunk_records st now (ttl_ms cfg)).

(** The candidates that a cycle compacts. *)
Definition compactable (reg_now : Z) (reg : Registry) (id : bytes) : bool :=
  match get id reg_now reg with
  | Some e => bool_decide (is_Some (le_contained_objects e)) && negb (sm_total_bytes (le_metadata e) =? 0)
  | None => false
  end.

Definition cycle_candidates (cfg : GcConfig) (st : Store) (reg : Registry) (now reg_now : Z) : list bytes :=
  filter (fun id => compactable reg_now reg id = true)
    (compaction_candidates (process_tombstones cfg st reg now reg_now).1 (gc_compact_threshold cfg)).

(** ** Cleaning up after a compaction *)

(** How the three database writes of a record's cleanup end. *)
Definition cleanup_tombstone (now : Z) (st : Store) (io : bool * commit_io) (bk : bytes * bytes) : Store :=
  let '(st, _) := delete_tombstone st io.1 bk.1 bk.2 in
  (delete_object st io.2 now bk.1 bk.2 {| wall_time := 0; logical := 0 |}).1.

Definition cleanup_supersede (st : Store) (ok : bool) (bkv : bytes * bytes * Hlc) : Store :=
  (delete_dead_chunk_record st ok bkv.1.1 bkv.1.2 bkv.2).1.

Definition cleanup (now : Z) (st : Store) (res : TombstoneResult) (id : bytes) (tio : bool * commit_io) (sio : bool) : Store :=
  let st := foldl (fun st bk => cleanup_tombstone now st tio bk) st (default [] (tr_tombstone_keys res !! id)) in
  foldl (fun st bkv => cleanup_supersede st sio bkv) st (default [] (tr_supersedes res !! id)).

(** ** The orphan reaper *)

Definition key_of (c : ChunkRef) : chunk_key := (cr_segment_id c, cr_offset c, cr_length c).

(** Every physical chunk is counted once. *)
Definition count_dead (s : gmap bytes Z * gset chunk_key) (c : ChunkRef) : gmap bytes Z * gset chunk_key :=
  let '(dead, seen) := s in
  if decide (key_of c ∈ seen) then (dead, seen)
  else (<[cr_segment_id c := default 0 (dead !! cr_segment_id c) + cr_length c]> dead, {[key_of c]} ∪ seen).

Definition reaper_dead_bytes (records : list (bytes * bytes * DeadChunkRecord)) : gmap bytes Z :=
  (foldl count_dead (∅, ∅) (records ≫= fun r => dc_chunks r.2)).1.

Definition fully_dead (dead : gmap bytes Z) (now ttl : Z) (id : bytes) (e : LifecycleEntry) : bool :=
  let total := sm_total_bytes (le_metadata e) in
  if total =? 0 then false else
  match sm_sealed_at (le_metadata e) with
  | None => false
  | Some sealed_at => if now - sealed_at <=? ttl then false else total <=? default 0 (dead !! id)
  end.

Definition orphan_ids (cfg : GcConfig) (st : Store) (reg : Registry) (now reg_now : Z) : list bytes :=
  let dead := reaper_dead_bytes (collect_aged_dead_chunk_records st now (ttl_ms cfg)) in
  (filter (fun r => fully_dead dead now (ttl_ms cfg) r.1 r.2 = true) (map_to_list (live reg_now reg))).*1.
End collector.

(** ** What the passes count *)

Fixpoint bytes_of (id : bytes) (cs : list ChunkRef) : Z :=
  match cs with [] => 0 | c :: cs => (if decide (cr_segment_id c = id) then cr_length c else 0) + bytes_of id cs end.

Fixpoint key_bytes (id : bytes) (ks : list chunk_key) : Z :=
  match ks with [] => 0 | k :: ks => (if decide (k.1.1 = id) then k.2 else 0) + key_bytes id ks end.

Lemma key_bytes_keys id cs : key_bytes id (key_of <$> cs) = bytes_of id cs.
Proof. induction cs as [|c cs IH]; [done|]. cbn [fmap list_fmap key_bytes bytes_of]. by rewrite IH. Qed.

Lemma key_bytes_perm id : Proper ((≡ₚ) ==> (=)) (key_bytes id).
Proof. induction 1; cbn [key_bytes]; lia. Qed.

Lemma key_bytes_app id ks ks' : key_bytes id (ks ++ ks') = key_bytes id ks + key_bytes id ks'.
Proof. induction ks as [|k ks IH]; [done|]. cbn [app key_bytes]. lia. Qed.

Lemma default_add (m : gmap bytes Z) id x j :
  default 0 (<[id := default 0 (m !! id) + x]> m !! j) = (if decide (id = j) then x else 0) + default 0 (m !! j).
Proof.
  destruct (decide (id = j)) as [->|Hne].
  - rewrite lookup_insert_eq. cbn [default from_option id]. unfold default, from_option, id. lia.
  - by rewrite lookup_insert_ne.
Qed.

(** The reaper counts the distinct chunks of the records. *)
Lemma count_dead_spec cs :
  exists ks, NoDup ks /\ (forall k, k ∈ ks <-> k ∈ key_of <$> cs) /\
    forall id, default 0 ((foldl count_dead (∅, ∅) cs).1 !! id) = key_bytes id ks.
Proof.
  enough (G : forall cs dead seen ks, NoDup ks -> (forall k, k ∈ ks <-> k ∈ seen) ->
    (forall id, default 0 (dead !! id) = key_bytes id ks) ->
    exists ks', NoDup ks' /\ (forall k, k ∈ ks' <-> k ∈ ks \/ k ∈ key_of <$> cs) /\
      forall id, default 0 ((foldl count_dead (dead, seen) cs).1 !! id) = key_bytes id ks').
  { destruct (G cs ∅ ∅ []) as (ks & H1 & H2 & H3); [constructor|set_solver|done|].
    exists ks. split_and!; [done|set_solver|done]. }
  clear cs. induction cs as [|c cs IH]; intros dead seen ks Hnd Hks Hsum; cbn [foldl].
  - exists ks. split_and!; [done|set_solver|done].
  - unfold count_dead at 2. case_decide as Hin.
    + destruct (IH dead seen ks Hnd Hks Hsum) as (ks' & H1 & H2 & H3). exists ks'. split_and!; [done| |done].
      intros k. rewrite H2. cbn [fmap list_fmap]. rewrite elem_of_cons. rewrite <- Hks in Hin. naive_solver.
    + destruct (IH (<[cr_segment_id c:=default 0 (dead !! cr_segment_id c) + cr_length c]> dead) ({[key_of c]} ∪ seen)
                  (key_of c :: ks)) as (ks' & H1 & H2 & H3).
      * constructor; [by rewrite Hks|done].
      * intros k. rewrite elem_of_cons, Hks. set_solver.
      * intros id. rewrite default_add, Hsum. done.
      * exists ks'. split_and!; [done| |done]. intros k. rewrite H2. cbn [fmap list_fmap]. rewrite !elem_of_cons. tauto.
Qed.

(** The collector counts every capture. *)
Lemma mark_dead_bytes cs t id :
  dead_bytes_for (foldl mark_dead t cs) id = dead_bytes_for t id + bytes_of id cs.
Proof.
  revert t. induction cs as [|c cs IH]; intros t; cbn [foldl bytes_of]; [lia|].
  rewrite IH. unfold dead_bytes_for at 1, mark_dead. cbn [lt_dead_bytes]. rewrite default_add.
  unfold dead_bytes_for. lia.
Qed.

Lemma process_record_dead records s id :
  dead_bytes_for (foldl process_record s records).1 id
  = dead_bytes_for s.1 id + bytes_of id (records ≫= fun r => dc_chunks r.2).
Proof.
  revert s. induction records as [|[[b k] r] records IH]; intros [t res]; cbn [foldl]; [cbn; lia|].
  rewrite IH. assert (E : (process_record (t, res) (b, k, r)).1 = foldl mark_dead t (dc_chunks r))
    by (unfold process_record; by destruct (dc_kind r)).
  rewrite E, mark_dead_bytes. cbn [mbind list_bind fst snd]. rewrite <- !key_bytes_keys, fmap_app, key_bytes_app. lia.
Qed.

Lemma register_all_dead now reg t id : dead_bytes_for (register_all now reg t) id = dead_bytes_for t id.
Proof.
  unfold register_all. apply (map_fold_weak_ind (fun t' _ => dead_bytes_for t' id = dead_bytes_for t id)); [done|].
  intros i e m t' _ E. exact E.
Qed.

Lemma key_bytes_nonneg id ks : Forall (fun k : chunk_key => 0 <= k.2) ks -> 0 <= key_bytes id ks.
Proof. induction 1; cbn [key_bytes]; [lia|]. destruct (decide _); lia. Qed.

Lemma key_bytes_subset id ks ks' :
  NoDup ks -> ks ⊆ ks' -> Forall (fun k : chunk_key => 0 <= k.2) ks' -> key_bytes id ks <= key_bytes id ks'.
Proof.
  intros Hnd Hsub Hpos. apply NoDup_submseteq in Hsub as [rest E]%submseteq_Permutation; [|done].
  rewrite (key_bytes_perm id _ _ E), key_bytes_app. rewrite E in Hpos. apply Forall_app in Hpos as [_ Hr].
  pose proof (key_bytes_nonneg id rest Hr). lia.
Qed.

Definition range_of (k : chunk_key) : list Z := seqZ k.1.2 k.2.

Lemma apart_ranges_fit id total (ks : list chunk_key) :
  0 <= total -> NoDup ks ->
  Forall (fun k => k.1.1 = id -> 0 <= k.1.2 /\ 0 <= k.2 /\ k.1.2 + k.2 <= total) ks ->
  (forall k k', k ∈ ks -> k' ∈ ks -> k.1.1 = id -> k'.1.1 = id -> k <> k' ->
     k.1.2 + k.2 <= k'.1.2 \/ k'.1.2 + k'.2 <= k.1.2) ->
  key_bytes id ks <= total.
Proof.
  intros Ht Hnd Hin Hap. set (xs := filter (fun k => k.1.1 = id) ks).
  assert (L : key_bytes id ks = Z.of_nat (length (xs ≫= range_of))).
  { subst xs. clear Hnd Hap. induction Hin as [|k ks Hk _ IH]; [done|]. cbn [key_bytes]. destruct (decide (k.1.1 = id)) as [E|E].
    - rewrite filter_cons_True by done. cbn [mbind list_bind]. rewrite length_app, IH. unfold range_of at 2. rewrite length_seqZ.
      specialize (Hk E). lia.
    - rewrite filter_cons_False by done. lia. }
  assert (N : NoDup (xs ≫= range_of)).
  { assert (Hxs : NoDup xs) by (by apply NoDup_filter).
    assert (Hxin : forall k, k ∈ xs -> k ∈ ks /\ k.1.1 = id) by (intros k; unfold xs; rewrite list_elem_of_filter; naive_solver).
    clear L. clearbody xs. induction Hxs as [|k xs Hk _ IH]; [constructor|]. cbn [mbind list_bind].
    apply NoDup_app. split_and!; [apply NoDup_seqZ| |apply IH; intros; apply Hxin; by right].
    intros x Hx (k' & Hx' & Hk')%list_elem_of_bind. unfold range_of in *. apply elem_of_seqZ in Hx, Hx'.
    destruct (Hxin k ltac:(left)) as [? ?], (Hxin k' ltac:(by right)) as [? ?].
    destruct (Hap k k'); [done..|congruence|lia|lia]. }
  assert (S : (xs ≫= range_of) ⊆ seqZ 0 total).
  { intros x (k & Hx & [Hid Hk]%list_elem_of_filter)%list_elem_of_bind. rewrite Forall_forall in Hin.
    specialize (Hin k Hk Hid). unfold range_of in Hx. apply elem_of_seqZ in Hx. apply elem_of_seqZ. lia. }
  apply (NoDup_submseteq _ _ N) in S. apply submseteq_length in S. rewrite length_seqZ in S. rewrite L. lia.
Qed.

Section accounting.
Context (utf8 : bytes -> bool).

Definition aged_chunks (cfg : GcConfig) (st : Store) (now : Z) : list ChunkRef :=
  collect_aged_dead_chunk_records utf8 st now (ttl_ms cfg) ≫= fun r => dc_chunks r.2.

(** the collector and the reaper read the same records; the dead bytes the
    reaper finds in a segment are at most those of the collector, and they are
    equal when no chunk is captured by two records. *)
Theorem accounting_agrees cfg st reg now reg_now id :
  Forall (fun c => 0 <= cr_length c) (aged_chunks cfg st now) ->
  let dead := reaper_dead_bytes (collect_aged_dead_chunk_records utf8 st now (ttl_ms cfg)) in
  let t := (process_tombstones utf8 cfg st reg now reg_now).1 in
  default 0 (dead !! id) <= dead_bytes_for t id /\
  (NoDup (key_of <$> aged_chunks cfg st now) -> default 0 (dead !! id) = dead_bytes_for t id).
Proof.
  intros Hpos. cbv zeta. unfold process_tombstones, reaper_dead_bytes. fold (aged_chunks cfg st now).
  rewrite process_record_dead. fold (aged_chunks cfg st now). cbn [fst]. rewrite register_all_dead.
  change (dead_bytes_for tracker_new id) with 0. rewrite Z.add_0_l, <- key_bytes_keys.
  destruct (count_dead_spec (aged_chunks cfg st now)) as (ks & Hnd & Hks & ->). split.
  - apply key_bytes_subset; [done|intros k; apply Hks|]. by apply Forall_fmap.
  - intros Hnd'. apply key_bytes_perm. by apply NoDup_Permutation.
Qed.

(** ** The reaper and live data *)

Definition live_chunk (st : Store) (c : ChunkRef) : Prop :=
  exists rk m, st_objects st !! rk = Some m /\ c ∈ om_chunks m.

Definition recorded_chunk (st : Store) (c : ChunkRef) : Prop :=
  exists rk t, st_deletions st !! rk = Some t /\ c ∈ ts_chunks t.

(** The row brings chunks that no row and no record has: their bytes were
    just written. *)
Definition fresh_chunks (st : Store) (m : ObjectMetadata) : Prop :=
  forall c c', c ∈ om_chunks m -> live_chunk st c' \/ recorded_chunk st c' -> key_of c <> key_of c'.

(** The stores that come about by puts of freshly written chunks, deletes,
    pulled tombstones whose chunks are not live here, and removals of records,
    each of which may fail. *)
Inductive ledger : Store -> Prop :=
| LEmpty : ledger empty_store
| LPut st io now b m : ledger st -> fresh_chunks st m -> ledger (put_object_in_bucket st io now b m).1
| LDelete st io now b k h : ledger st -> ledger (delete_object st io now b k h).1
| LPulled st blake3 io now b k t :
    ledger st -> (forall c c', c ∈ ts_chunks t -> live_chunk st c' -> key_of c <> key_of c') ->
    ledger (sync_apply_tombstone blake3 st io now b k t).1
| LForget st d : ledger st -> d ⊆ st_deletions st -> ledger (with_deletions st d).

(** A chunk belongs to one row, and no recorded chunk is live. *)
Record ledger_ok (st : Store) : Prop := {
  lo_once rk rk' m m' c c' : st_objects st !! rk = Some m -> st_objects st !! rk' = Some m' ->
    c ∈ om_chunks m -> c' ∈ om_chunks m' -> key_of c = key_of c' -> rk = rk';
  lo_dead c c' : recorded_chunk st c -> live_chunk st c' -> key_of c <> key_of c' }.

Lemma ledger_ok_commit st io recs o d :
  ledger_ok st ->
  ledger_ok {| st_objects := o; st_deletions := d; st_journal := st_journal st ++ recs |} -> ledger_ok (commit st io recs o d).1.
Proof. intros [H1 H2] Hok. by destruct io. Qed.

(** The rows after a row was removed, with the chunks that a record may take. *)
Lemma ledger_ok_remove st rk d j :
  ledger_ok st ->
  (forall c, (exists rk' t, d !! rk' = Some t /\ c ∈ ts_chunks t) ->
     recorded_chunk st c \/ (exists m, st_objects st !! rk = Some m /\ c ∈ om_chunks m) \/
     forall c', live_chunk st c' -> key_of c <> key_of c') ->
  ledger_ok {| st_objects := delete rk (st_objects st); st_deletions := d; st_journal := j |}.
Proof.
  intros [Ho Hd] Hsrc. split; cbn [st_objects st_deletions].
  - intros r r' m m' c c' [_ Hm]%lookup_delete_Some [_ Hm']%lookup_delete_Some. by apply Ho.
  - intros c c' Hc (r & m & Hm & Hc'). cbn [st_objects] in Hm. apply lookup_delete_Some in Hm as [Hne Hm].
    destruct (Hsrc c Hc) as [Hr|[(m0 & Hm0 & Hc0)|Hx]]; [apply Hd; [done|by exists r, m]| |apply Hx; by exists r, m].
    intros E. by apply Hne, (Ho rk r m0 m c c').
Qed.

Lemma captured_source existing ts m now chunks h at_ c :
  capture existing ts m now = Some (chunks, h, at_) -> c ∈ chunks ->
  (exists prev, existing = Some prev /\ c ∈ om_chunks prev) \/ exists t, ts = Some t /\ c ∈ ts_chunks t.
Proof.
  unfold capture. destruct existing as [prev|]; [|destruct ts as [t|]; [|done]].
  - destruct (_ && _); [|done]. intros [= <- _ _] Hc. left. by exists prev.
  - destruct (ts_chunks t) as [|x l] eqn:E; [done|]. intros [= <- _ _] Hc. right. exists t. by rewrite E.
Qed.

Lemma record_capture_source d b k cp c :
  (exists rk t, record_capture d b k cp !! rk = Some t /\ c ∈ ts_chunks t) ->
  (exists rk t, d !! rk = Some t /\ c ∈ ts_chunks t) \/ exists chunks h at_, cp = Some (chunks, h, at_) /\ c ∈ chunks.
Proof.
  intros (rk & t & Ht & Hc). destruct cp as [[[chunks h] at_]|]; cbn [record_capture] in Ht; [|left; by exists rk, t].
  apply lookup_insert_Some in Ht as [[_ <-]|[_ Ht]]; [right; by exists chunks, h, at_|left; by exists rk, t].
Qed.

Lemma ledger_ok_put st io now b m : ledger_ok st -> fresh_chunks st m -> ledger_ok (put_object_in_bucket st io now b m).1.
Proof.
  intros Hok Hf. unfold put_object_in_bucket. apply ledger_ok_commit; [done|].
  set (rk := encode_object_key b (om_object_key m)). set (cp := capture _ _ _ _).
  assert (Hrec : forall c, (exists r t, delete rk (record_capture (st_deletions st) b (om_object_key m) cp) !! r = Some t /\ c ∈ ts_chunks t) ->
    recorded_chunk st c \/ exists prev, st_objects st !! rk = Some prev /\ c ∈ om_chunks prev).
  { intros c (r & t & Ht & Hc). apply lookup_delete_Some in Ht as [_ Ht].
    destruct (record_capture_source (st_deletions st) b (om_object_key m) cp c) as [H|(chunks & h & at_ & E & Hin)]; [by exists r, t|by left|].
    destruct (captured_source _ _ _ _ _ _ _ c E Hin) as [?|(t' & Ht' & Hc')]; [by right|left; by exists rk, t']. }
  destruct Hok as [Ho Hd]. split; cbn [st_objects st_deletions].
  - intros r r' x x' c c' Hx Hx' Hc Hc' E. apply lookup_insert_Some in Hx as [[<- <-]|[Hr Hx]], Hx' as [[<- <-]|[Hr' Hx']]; [done| | |by eapply Ho].
    + exfalso. apply (Hf c c'); [done|left; by exists r', x'|done].
    + exfalso. apply (Hf c' c); [done|left; by exists r, x|done].
  - intros c c' Hc (r & x & Hx & Hc'). cbn [st_objects] in Hx. specialize (Hrec c Hc).
    apply lookup_insert_Some in Hx as [[<- <-]|[Hr Hx]]; intros E.
    + apply (Hf c' c); [done| |done]. destruct Hrec as [?|(p & Hp & ?)]; [by right|left; by exists rk, p].
    + destruct Hrec as [Hrec|(p & Hp & Hcp)]; [apply (Hd c c'); [done|by exists r, x|done]|]. by apply Hr, (Ho rk r p x c c').
Qed.

Lemma ledger_inv st : ledger st -> ledger_ok st.
Proof.
  induction 1 as [|st io now b m _ IH Hf|st io now b k h _ IH|st blake3 io now b k t _ IH Ht|st d _ [Ho Hd] Hsub].
  - split; [by intros ?????? H|]. intros c c' (rk & t & H & _). done.
  - by apply ledger_ok_put.
  - unfold delete_object. apply ledger_ok_commit; [done|]. apply ledger_ok_remove; [done|].
    intros c (r & t & Ht & Hc). apply lookup_insert_Some in Ht as [[_ <-]|[_ Ht]]; [|left; by exists r, t].
    cbn [ts_chunks] in Hc. unfold get_object in Hc. destruct (st_objects st !! _) as [m|] eqn:Em; [|by apply elem_of_nil in Hc].
    right. left. by exists m.
  - unfold sync_apply_tombstone. destruct (decide_tombstone _ _ _ _); [|done..].
    unfold apply_tombstone_row. set (cp := match get_object st b k with Some _ => _ | None => None end).
    match goal with |- context [commit st io ?r ?o ?d] => pose proof (ledger_ok_commit st io r o d IH) as G;
      destruct (commit st io r o d) as [st' ok] end.
    cbn [fst] in *. apply G. apply ledger_ok_remove; [done|]. intros c (r & t' & Ht' & Hc).
    apply lookup_insert_Some in Ht' as [[_ <-]|[_ Ht']]; [right; right; intros c' Hc'; by apply Ht|].
    destruct (record_capture_source (st_deletions st) b k cp c) as [?|(chunks & h & at_ & E & Hin)]; [by exists r, t'|by left|].
    right. left. unfold cp, get_object in E. destruct (st_objects st !! _) as [row|]; [|done].
    destruct (is_segment_stored row); [|done]. injection E as <- _ _. by exists row.
  - split; cbn [with_deletions st_objects]; [exact Ho|]. intros c c' (r & t & Ht & Hc) Hl. apply Hd; [|done].
    exists r, t. split; [|done]. by eapply lookup_weaken.
Qed.

(** The chunks of a segment as the write path lays them out: within the
    segment, and different ones apart from each other. *)
Record segment_layout (st : Store) (dead : list ChunkRef) (id : bytes) (total : Z) : Prop := {
  sl_inside : forall c, c ∈ dead \/ live_chunk st c -> cr_segment_id c = id ->
    0 <= cr_offset c /\ 0 <= cr_length c /\ cr_offset c + cr_length c <= total;
  sl_apart : forall c c', c ∈ dead \/ live_chunk st c -> c' ∈ dead \/ live_chunk st c' ->
    cr_segment_id c = id -> cr_segment_id c' = id -> key_of c <> key_of c' ->
    cr_offset c + cr_length c <= cr_offset c' \/ cr_offset c' + cr_length c' <= cr_offset c }.

Lemma aged_recorded cfg st now c : c ∈ aged_chunks cfg st now -> recorded_chunk st c.
Proof.
  unfold aged_chunks, collect_aged_dead_chunk_records, list_dead_chunk_records_all.
  intros ([[b k] r] & Hc & Hr)%list_elem_of_bind. apply list_elem_of_filter in Hr as [_ Hr].
  apply list_elem_of_omap in Hr as ([rk t] & Hin & Hx). rewrite rows_perm in Hin. apply elem_of_map_to_list in Hin.
  exists rk, t. split; [done|]. cbn [fst snd] in *. by destruct (decode_deletions_key _ _) as [[]|]; simplify_eq.
Qed.

End accounting.

(** ** The cleanup and concurrent writes *)

Lemma push_at_keeps {A} (m : gmap bytes (list A)) id a j x :
  x ∈ default [] (m !! j) -> x ∈ default [] (push_at m id a !! j).
Proof.
  unfold push_at. destruct (decide (id = j)) as [->|Hne]; [|by rewrite lookup_insert_ne].
  rewrite lookup_insert_eq. intros H. apply elem_of_app. by left.
Qed.

Lemma push_all_keeps {A} (a : A) cs m j x :
  x ∈ default [] (m !! j) -> x ∈ default [] (foldl (fun m c => push_at m (cr_segment_id c) a) m cs !! j).
Proof. revert m. induction cs as [|c cs IH]; intros m H; [done|]. apply IH. by apply push_at_keeps. Qed.

Lemma push_all_pushes {A} (a : A) cs m c :
  c ∈ cs -> a ∈ default [] (foldl (fun m c => push_at m (cr_segment_id c) a) m cs !! cr_segment_id c).
Proof.
  revert m. induction cs as [|c' cs IH]; intros m Hc; [by apply elem_of_nil in Hc|].
  cbn [foldl]. apply elem_of_cons in Hc as [->|Hc]; [|by apply IH].
  apply push_all_keeps. unfold push_at. rewrite lookup_insert_eq. apply elem_of_app. right. left.
Qed.

(** The key of an aged tombstone is listed for the segment of each of its chunks. *)
Lemma process_lists records s b k r c :
  (b, k, r) ∈ records -> dc_kind r = KTombstone -> c ∈ dc_chunks r ->
  (b, k) ∈ default [] (tr_tombstone_keys (foldl process_record s records).2 !! cr_segment_id c).
Proof.
  intros Hr Hk Hc.
  assert (M : forall records s, (b, k) ∈ default [] (tr_tombstone_keys s.2 !! cr_segment_id c) ->
    (b, k) ∈ default [] (tr_tombstone_keys (foldl process_record s records).2 !! cr_segment_id c)).
  { clear. induction records as [|[[b' k'] r'] records IH]; intros [t res] H; [done|]. apply IH. unfold process_record.
    destruct (dc_kind r'); cbn [snd tr_tombstone_keys] in *; [by apply push_all_keeps|done]. }
  revert s. induction records as [|r' records IH]; intros s; [by apply elem_of_nil in Hr|].
  cbn [foldl]. apply elem_of_cons in Hr as [<-|Hr]; [|by apply IH]. apply M.
  destruct s as [t res]. unfold process_record. rewrite Hk. cbn [snd tr_tombstone_keys]. by apply push_all_pushes.
Qed.

Lemma cleanup_removes_row now st ok bks b k :
  (b, k) ∈ bks \/ get_object st b k = None ->
  get_object (foldl (fun st bk => cleanup_tombstone now st (ok, Committed) bk) st bks) b k = None.
Proof.
  revert st. induction bks as [|[b' k'] bks IH]; intros st H; cbn [foldl].
  - destruct H as [H|H]; [by apply elem_of_nil in H|done].
  - apply IH. destruct H as [[H|H]%elem_of_cons|H]; [right|by left|right].
    + injection H as -> ->. unfold cleanup_tombstone, delete_tombstone, delete_object, get_object, with_deletions.
      destruct ok; cbn [fst snd commit st_objects]; apply lookup_delete_eq.
    + unfold cleanup_tombstone, delete_tombstone, delete_object, get_object, with_deletions in *.
      destruct ok; cbn [fst snd commit st_objects]; by apply lookup_delete_None; right.
Qed.

Lemma cleanup_supersede_rows sio bkvs st : st_objects (foldl (fun st bkv => cleanup_supersede st sio bkv) st bkvs) = st_objects st.
Proof. revert st. induction bkvs as [|bkv bkvs IH]; intros st; [done|]. cbn [foldl]. rewrite IH. by destruct sio. Qed.

Lemma dead_record_listed utf8 st b k t :
  decode_deletions_key utf8 (encode_object_key b k) = Some (Plain b k) -> get_tombstone st b k = Some t ->
  (b, k, {| dc_kind := KTombstone; dc_captured_at := ts_deletion_time t; dc_hlc := ts_hlc t; dc_chunks := ts_chunks t |})
    ∈ list_dead_chunk_records_all utf8 st.
Proof.
  intros Hd Ht. unfold list_dead_chunk_records_all. apply list_elem_of_omap. exists (encode_object_key b k, t). split.
  - rewrite rows_perm. by apply elem_of_map_to_list.
  - cbn [fst snd]. by rewrite Hd.
Qed.

(** the cleanup deletes an object that was written again. The keys to clean
    are read before the compaction; a client that writes such a key while its
    segment is being compacted is told that the object is stored, and then the
    collector deletes the row of the key without looking at its version. *)
Theorem cleanup_deletes_new_put utf8 cfg st reg now reg_now b k t c m t1 t2 ok sio :
  decode_deletions_key utf8 (encode_object_key b k) = Some (Plain b k) ->
  get_tombstone st b k = Some t -> ttl_ms cfg < now - ts_deletion_time t -> c ∈ ts_chunks t ->
  om_object_key m = k ->
  let res := (process_tombstones utf8 cfg st reg now reg_now).2 in
  let st1 := (put_object_in_bucket st Committed t1 b m).1 in
  get_object st1 b k = Some m /\
  get_object (cleanup t2 st1 res (cr_segment_id c) (ok, Committed) sio) b k = None.
Proof.
  intros Hd Ht Hage Hc <- res st1. split.
  - unfold st1, put_object_in_bucket, get_object. cbn [commit fst st_objects]. apply lookup_insert_eq.
  - unfold cleanup. unfold get_object. rewrite cleanup_supersede_rows. apply cleanup_removes_row. left.
    unfold res, process_tombstones.
    apply (process_lists _ _ b (om_object_key m) {| dc_kind := KTombstone; dc_captured_at := ts_deletion_time t;
      dc_hlc := ts_hlc t; dc_chunks := ts_chunks t |}); [|done|exact Hc].
    unfold collect_aged_dead_chunk_records. apply list_elem_of_filter. split; [|by apply dead_record_listed].
    unfold aged. cbn [snd dc_captured_at]. by apply Z.ltb_lt.
Qed.

(** the cleanup forgets the version of a delete. It removes the tombstone and
    then deletes the row at version zero, which writes a tombstone of version
    zero: an older copy of the object that the tombstone had kept out is
    accepted from a lagging replica, and the object is back. *)
Theorem cleanup_revives_deleted blake3 st b t m now now' :
  get_object st b (om_object_key m) = None -> get_tombstone st b (om_object_key m) = Some t ->
  hlc_lt (om_hlc m) (ts_hlc t) -> hlc_lt {| wall_time := 0; logical := 0 |} (om_hlc m) ->
  sync_apply_object blake3 st Committed now' b m = (st, Some OutLocalWins) /\
  let st' := cleanup_tombstone now st (true, Committed) (b, om_object_key m) in
  let '(st'', r) := sync_apply_object blake3 st' Committed now' b m in
  r = Some Applied /\ get_object st'' b (om_object_key m) = Some m.
Proof.
  intros Ho Ht Hlt Hz. split.
  - unfold sync_apply_object. rewrite Ho, Ht. cbn [decide_object]. by rewrite Hlt.
  - unfold cleanup_tombstone, delete_tombstone, delete_object, with_deletions. cbn [fst snd commit].
    set (st' := {| st_objects := _ |}).
    assert (Ho' : get_object st' b (om_object_key m) = None)
      by (unfold get_object, st'; cbn [st_objects]; apply lookup_delete_eq).
    assert (Ht' : exists t', get_tombstone st' b (om_object_key m) = Some t' /\ ts_hlc t' = {| wall_time := 0; logical := 0 |})
      by (eexists; unfold get_tombstone, st'; cbn [st_deletions]; by rewrite lookup_insert_eq).
    destruct Ht' as (t' & Ht' & Et'). unfold sync_apply_object. rewrite Ho', Ht'. cbn [decide_object].
    rewrite Et', (hlc_cmp_antisym {| wall_time := 0; logical := 0 |}), Hz. cbn [CompOpp].
    unfold put_object_in_bucket. cbn [commit]. split; [done|]. unfold get_object. cbn [st_objects]. apply lookup_insert_eq.
Qed.

(** ** Examples *)

Definition sample_config : GcConfig :=
  {| gc_interval_sec := 3600; gc_tombstone_ttl_sec := 1; gc_compact_threshold := f64_one;
     gc_max_concurrent_compactions := 4; gc_compaction_queue_capacity := 64 |}.

(** The object of [sample_store] deleted at time 2, with version 6. *)
Definition deleted_store : Store :=
  (delete_object sample_store Committed 2 [x62] [x6b] {| wall_time := 6; logical := 0 |}).1.

Definition sample_segment : Registry :=
  {[ to_le 16 5 := entry_new Sealed
       {| sm_segment_id := to_le 16 5; sm_ec_k := x04; sm_ec_m := x02; sm_size_tier := Standard; sm_merkle_root := None;
          sm_storage_locations := []; sm_sealed_at := Some 0; sm_pool_id := 0; sm_total_bytes := 3 |} 0 ]}.

Lemma deleted_store_rows rk m : st_objects deleted_store !! rk = Some m -> False.
Proof.
  unfold deleted_store, delete_object. cbn [commit fst st_objects]. intros [Hne Hm]%lookup_delete_Some.
  apply sample_store_rows in Hm as [-> _]. by apply Hne.
Qed.

Lemma deleted_store_chunks : aged_chunks (fun _ => true) sample_config deleted_store 5000 = [sample_chunk 5].
Proof. vm_compute. reflexivity. Qed.

Lemma accounting_agrees_witness :
  let dead := reaper_dead_bytes (collect_aged_dead_chunk_records (fun _ => true) deleted_store 5000 (ttl_ms sample_config)) in
  let t := (process_tombstones (fun _ => true) sample_config deleted_store sample_segment 5000 0).1 in
  default 0 (dead !! to_le 16 5) <= dead_bytes_for t (to_le 16 5) /\
  (NoDup (key_of <$> aged_chunks (fun _ => true) sample_config deleted_store 5000) ->
     default 0 (dead !! to_le 16 5) = dead_bytes_for t (to_le 16 5)).
Proof.
  apply (accounting_agrees (fun _ => true) sample_config deleted_store sample_segment 5000 0).
  rewrite deleted_store_chunks. repeat constructor. cbn. lia.
Defined.

(** The key is written again, into segment 9. *)
Definition rewritten_store : Store := (put_object_in_bucket deleted_store Committed 3 [x62] (sample_row 9)).1.

Lemma sample_row_chunk n c : c ∈ om_chunks (sample_row n) -> c = sample_chunk n.
Proof. by intros ->%list_elem_of_singleton. Qed.

Lemma rewritten_live c : live_chunk rewritten_store c -> c = sample_chunk 9.
Proof.
  intros (rk & m & Hm & Hc). unfold rewritten_store, put_object_in_bucket in Hm. cbn [commit fst st_objects] in Hm.
  apply lookup_insert_Some in Hm as [[_ <-]|[_ Hm]]; [by apply sample_row_chunk|by apply deleted_store_rows in Hm].
Qed.

Lemma deleted_store_recorded c : recorded_chunk deleted_store c -> c = sample_chunk 5.
Proof.
  intros (rk & t & Ht & Hc). assert (E : map_to_list (st_deletions deleted_store) = [(encode_object_key [x62] [x6b],
    {| ts_deletion_time := 2; ts_hlc := {| wall_time := 6; logical := 0 |}; ts_chunks := [sample_chunk 5] |})]) by (vm_compute; reflexivity).
  apply elem_of_map_to_list in Ht. rewrite E in Ht. apply list_elem_of_singleton in Ht as [= -> ->].
  by apply list_elem_of_singleton in Hc.
Qed.

Lemma rewritten_ledger : ledger rewritten_store.
Proof.
  apply LPut; [apply LDelete, LPut; [apply LEmpty|]|].
  - intros c c' _ [(rk & m & H & _)|(rk & t & H & _)]; done.
  - intros c c' ->%sample_row_chunk [(rk & m & H & _)| ->%deleted_store_recorded]; [by apply deleted_store_rows in H|].
    vm_compute. discriminate.
Qed.

Lemma rewritten_chunks : aged_chunks (fun _ => true) sample_config rewritten_store 5000 = [sample_chunk 5].
Proof. vm_compute. reflexivity. Qed.


Lemma cleanup_deletes_new_put_witness :
  let res := (process_tombstones (fun _ => true) sample_config deleted_store sample_segment 5000 0).2 in
  let st1 := (put_object_in_bucket deleted_store Committed 5001 [x62] (sample_row 9)).1 in
  get_object st1 [x62] [x6b] = Some (sample_row 9) /\
  get_object (cleanup 5002 st1 res (cr_segment_id (sample_chunk 5)) (true, Committed) true) [x62] [x6b] = None.
Proof.
  apply (cleanup_deletes_new_put (fun _ => true) sample_config deleted_store sample_segment 5000 0 [x62] [x6b]
    {| ts_deletion_time := 2; ts_hlc := {| wall_time := 6; logical := 0 |}; ts_chunks := [sample_chunk 5] |});
    try (vm_compute; reflexivity). left.
Defined.

Lemma cleanup_revives_deleted_witness :
  sync_apply_object from_le deleted_store Committed 9 [x62] (sample_row 5) = (deleted_store, Some OutLocalWins) /\
  let st' := cleanup_tombstone 8 deleted_store (true, Committed) ([x62], [x6b]) in
  let '(st'', r) := sync_apply_object from_le st' Committed 9 [x62] (sample_row 5) in
  r = Some Applied /\ get_object st'' [x62] [x6b] = Some (sample_row 5).
Proof.
  apply (cleanup_revives_deleted from_le deleted_store [x62]
    {| ts_deletion_time := 2; ts_hlc := {| wall_time := 6; logical := 0 |}; ts_chunks := [sample_chunk 5] |} (sample_row 5) 8 9);
    vm_compute; reflexivity.
Defined.
