(* ===== verification/Compactor.v ===== *)
(** * Compaction
      (crates/oceanfs-durability/src/gc: segment_compactor.rs,
       compaction_recovery.rs; the startup dispatcher of
       crates/oceanfs-node/src/modules/storage.rs)

    The compactor copies the live chunks of a segment into a new one, seals
    it, moves the object rows and deletes the old segment. It runs against an
    interface of the lifecycle machine. A run is the list of the states it
    passes through, one per effect, so that a crash is a prefix of the list;
    how each effect ends is an argument. BLAKE3 is a parameter. The notifiers
    and the storage pools are not modelled. *)

From Stdlib Require Import ZArith Lia Strings.Byte.
From stdpp Require Import base list gmap fin_maps sorting.
From S2P Require Import Prelude Hlc WalPos EventRecord EventWal Lifecycle Checkpoint Recovery Merkle MetaKey MetaStore Gc.

Set Default Proof Using "Type".
Local Open Scope Z_scope.

(** ** What the compactor needs of the lifecycle machine *)

Class LifecycleMachine (C : Type) := {
  lm_reserve : SegmentId -> SizeTier -> byte -> byte -> Z * Z -> append_io -> C -> C * outcome TransitionError unit;
  lm_seal : SegmentId -> SegmentMetadata -> option SegmentId -> option (list ContainedObject) -> Z * Z -> append_io ->
    C -> C * outcome TransitionError unit;
  lm_delete : SegmentId -> Z * Z -> append_io -> C -> C * outcome TransitionError unit;
  (** the entry of a segment that is not deleted *)
  lm_entry : C -> SegmentId -> option LifecycleEntry;
  (** the entries that are not deleted, in no particular order *)
  lm_entries : C -> list (SegmentId * LifecycleEntry);
  (** whether the registry still has an entry, deleted ones in their grace included *)
  lm_known : C -> Z -> SegmentId -> bool }.

(** A request concerns its segment only; it takes effect when it succeeds. *)
Class LifecycleLaws (C : Type) `{!LifecycleMachine C} := {
  lm_entries_spec : forall c id e, (id, e) ∈ lm_entries c <-> lm_entry c id = Some e;
  lm_reserve_other : forall id tier k m t io c s, s <> id -> lm_entry (lm_reserve id tier k m t io c).1 s = lm_entry c s;
  lm_reserve_own : forall id tier k m t io c e, lm_entry c id = None ->
    lm_entry (lm_reserve id tier k m t io c).1 id = Some e -> le_repacked_from e = None /\ le_state e = Reserved;
  lm_seal_other : forall id meta rp co t io c s, s <> id -> lm_entry (lm_seal id meta rp co t io c).1 s = lm_entry c s;
  lm_seal_ok : forall id meta rp co t io c, (lm_seal id meta rp co t io c).2 = Ok () ->
    exists e, lm_entry (lm_seal id meta rp co t io c).1 id = Some e /\ le_state e = Sealed /\ le_in_flight e = None /\
      le_repacked_from e = rp /\ le_contained_objects e = co;
  lm_seal_err : forall id meta rp co t io c, (lm_seal id meta rp co t io c).2 <> Ok () ->
    lm_entry (lm_seal id meta rp co t io c).1 id = lm_entry c id;
  lm_delete_other : forall id t io c s, s <> id -> lm_entry (lm_delete id t io c).1 s = lm_entry c s;
  lm_delete_own : forall id t io c, lm_entry (lm_delete id t io c).1 id = lm_entry c id \/ lm_entry (lm_delete id t io c).1 id = None }.

(** ** Data of the compactor *)

Inductive CompactionState := Copying | NewSealed | ObjectsMoved | OldDeleted | OldRemoved.

Record CompactionUnit := {
  cu_old_segment_id : SegmentId; cu_new_segment_id : SegmentId; cu_tier : SizeTier; cu_ec_k : byte; cu_ec_m : byte }.

Record RemappedChunk := { rc_old_offset : Z; rc_length : Z; rc_new_offset : Z }.

(** The metadata store, the lifecycle machine and the data sections of the
    segment files. *)
Record World (C : Type) := { w_meta : Store; w_machine : C; w_files : gmap bytes bytes }.
Arguments w_meta {C}. Arguments w_machine {C}. Arguments w_files {C}.

Inductive CompactError := NoMembership | DataMissing | LifecycleError (e : TransitionError) | StoreError | NoMerkleRoot.

Definition references (id : SegmentId) (m : ObjectMetadata) : bool :=
  existsb (fun c => bool_decide (cr_segment_id c = id)) (om_chunks m).

(** [if let Ok(Some(obj)) = get_object_metadata(..)]: a read that fails counts
    as an absent row. *)
Definition read_object (read_ok : bytes -> bytes -> bool) (st : Store) (bucket key : bytes) : option ObjectMetadata :=
  if read_ok bucket key then get_object st bucket key else None.

(** The rows of the membership list that are read, not dead and reference
    the segment. *)
Definition find_live (st : Store) (read_ok : bytes -> bytes -> bool) (id : SegmentId) (contained : list ContainedObject)
    (dead : gset (bytes * bytes)) : list (bytes * ObjectMetadata) :=
  omap (fun co =>
    if decide ((co_bucket co, co_key co) ∈ dead) then None else
    match read_object read_ok st (co_bucket co) (co_key co) with
    | Some obj => if references id obj then Some (co_bucket co, obj) else None
    | None => None
    end) contained.

(** ** Repacking *)

Record Repacked := { rp_offset : Z; rp_remap : gmap chunk_key ChunkRef; rp_data : bytes }.

(** [old_data[start..end]] with the end cut at the length of the data. *)
Definition copy_live_range (data : bytes) (offset len : Z) : outcome CompactError bytes :=
  let start := Z.to_nat offset in
  let stop := Nat.min (start + Z.to_nat len) (length data) in
  if decide (start <= stop)%nat then Ok (take (stop - start) (drop start data)) else Panic.

Definition repack_chunk (id new : SegmentId) (data : bytes) (s : outcome CompactError Repacked) (c : ChunkRef)
    : outcome CompactError Repacked :=
  match s with
  | Ok s =>
      if decide (cr_segment_id c = id) then
        copied ← copy_live_range data (cr_offset c) (cr_length c);
        let new_chunk := {| cr_segment_id := new; cr_offset := rp_offset s; cr_length := cr_length c;
                            cr_compressed := cr_compressed c; cr_logical_length := cr_logical_length c |} in
        Ok {| rp_offset := rp_offset s + cr_length c; rp_remap := <[key_of c := new_chunk]> (rp_remap s);
              rp_data := rp_data s ++ copied |}
      else Ok s
  | r => r
  end.

Definition repack (id new : SegmentId) (data : bytes) (objs : list (bytes * ObjectMetadata)) : outcome CompactError Repacked :=
  foldl (fun s o => foldl (repack_chunk id new data) s (om_chunks o.2))
    (Ok {| rp_offset := 0; rp_remap := ∅; rp_data := [] |}) objs.

Definition move_chunks (id : SegmentId) (remap : gmap chunk_key ChunkRef) (cs : list ChunkRef) : list ChunkRef :=
  omap (fun c => if decide (cr_segment_id c = id) then remap !! key_of c else Some c) cs.

Lemma move_chunks_cons id remap c cs :
  move_chunks id remap (c :: cs) =
  match (if decide (cr_segment_id c = id) then remap !! key_of c else Some c) with
  | Some c' => c' :: move_chunks id remap cs
  | None => move_chunks id remap cs
  end.
Proof. reflexivity. Qed.

Definition move_object (id : SegmentId) (remap : gmap chunk_key ChunkRef) (m : ObjectMetadata) : ObjectMetadata :=
  {| om_object_key := om_object_key m; om_size := om_size m; om_blake3_hash := om_blake3_hash m;
     om_chunks := move_chunks id remap (om_chunks m); om_inline_data := om_inline_data m;
     om_created_at := om_created_at m; om_hlc := om_hlc m |}.

Definition move_ops (id : SegmentId) (remap : gmap chunk_key ChunkRef) (objs : list (bytes * ObjectMetadata)) : list BatchOp :=
  (fun o => BPutObject o.1 (om_object_key o.2) (move_object id remap o.2)) <$> objs.

(** The table sent to the peers, in no particular order. *)
Definition chunk_table (remap : gmap chunk_key ChunkRef) : list RemappedChunk :=
  (fun kv => {| rc_old_offset := kv.1.1.2; rc_length := kv.1.2; rc_new_offset := cr_offset kv.2 |}) <$> map_to_list remap.

(** ** Membership lists *)

Definition contained_le (a b : ContainedObject) : Prop :=
  (if bool_decide (co_bucket a = co_bucket b) then lex_le (co_key a) (co_key b) else lex_le (co_bucket a) (co_bucket b)) = true.

#[export] Instance contained_le_dec : RelDecision contained_le.
Proof. intros a b. unfold contained_le. apply _. Defined.

#[export] Instance ContainedObject_eq_dec : EqDecision ContainedObject.
Proof. solve_decision. Defined.

(** [Vec::dedup]: consecutive duplicates. *)
Fixpoint dedup (l : list ContainedObject) : list ContainedObject :=
  match l with
  | [] => []
  | a :: l' => match l' with
               | b :: _ => if decide (a = b) then dedup l' else a :: dedup l'
               | [] => [a]
               end
  end.

Definition sorted_dedup (l : list ContainedObject) : list ContainedObject := dedup (merge_sort contained_le l).

(** ** A run of the compactor *)

(** A write that fails may leave a part of the file. *)
Inductive write_io := Written | WriteError (left : option bytes).

(** The clock readings and the outcomes of the reads and effects of a run. *)
Record compact_io := {
  ci_times : Z * Z; ci_now : Z; ci_reads : bytes -> bytes -> bool;
  ci_reserve : append_io; ci_write : write_io; ci_seal : append_io;
  ci_cleanup_delete : append_io; ci_cleanup_unlink : bool;
  ci_meta : commit_io; ci_delete : append_io; ci_unlink : bool }.

Section compactor.
Context {C : Type} `{!LifecycleMachine C}.
Context (hash_leaf : bytes -> HashOutput) (hash_pair : HashOutput -> HashOutput -> HashOutput).

Definition set_machine (w : World C) (c : C) : World C :=
  {| w_meta := w_meta w; w_machine := c; w_files := w_files w |}.
Definition set_files (w : World C) (f : gmap bytes bytes) : World C :=
  {| w_meta := w_meta w; w_machine := w_machine w; w_files := f |}.
Definition set_meta (w : World C) (st : Store) : World C :=
  {| w_meta := st; w_machine := w_machine w; w_files := w_files w |}.

(** [write_segment_data]. *)
Definition write_file (w : World C) (id : SegmentId) (data : bytes) (io : write_io) : World C * bool :=
  match io with
  | Written => (set_files w (<[id := data]> (w_files w)), true)
  | WriteError (Some part) => (set_files w (<[id := part]> (w_files w)), false)
  | WriteError None => (w, false)
  end.

(** [delete_shards_with_pool]. *)
Definition unlink (w : World C) (id : SegmentId) (ok : bool) : World C * bool :=
  (if ok then set_files w (delete id (w_files w)) else w, ok).

(** A segment that is already deleted or gone is as good as deleted. *)
Definition request_old_deletion (w : World C) (id : SegmentId) (io : compact_io) : World C * outcome CompactError unit :=
  let '(c, r) := lm_delete id (ci_times io) (ci_delete io) (w_machine w) in
  (set_machine w c,
   match r with
   | Ok _ => Ok ()
   | Err Missing | Err AlreadyDeleted => Ok ()
   | Err e => Err (LifecycleError e)
   | Panic => Panic
   end).

(** The states of the cleanup; its errors are ignored. *)
Definition cleanup_reserved_new (w : World C) (new : SegmentId) (io : compact_io) : list (World C) :=
  let w1 := set_machine w (lm_delete new (ci_times io) (ci_cleanup_delete io) (w_machine w)).1 in
  [w1; (unlink w1 new (ci_cleanup_unlink io)).1].

Definition as_compact_error {A} (r : outcome TransitionError unit) : outcome CompactError A :=
  match r with Err e => Err (LifecycleError e) | _ => Panic end.

(** The last two steps: the durable delete, then the unlink. *)
Definition remove_old (w : World C) (id : SegmentId) (size : Z) (io : compact_io) : list (World C) * outcome CompactError Z :=
  let '(w1, r) := request_old_deletion w id io in
  match r with
  | Ok _ => let '(w2, ok) := unlink w1 id (ci_unlink io) in ([w1; w2], if (ok : bool) then Ok size else Err StoreError)
  | Err e => ([w1], Err e)
  | Panic => ([w1], Panic)
  end.

(** The new segment's metadata. *)
Definition repacked_meta (new : SegmentId) (meta : SegmentMetadata) (data : bytes) (root : HashOutput) (now : Z) : SegmentMetadata :=
  {| sm_segment_id := new; sm_ec_k := sm_ec_k meta; sm_ec_m := sm_ec_m meta; sm_size_tier := sm_size_tier meta;
     sm_merkle_root := Some root; sm_storage_locations := []; sm_sealed_at := Some now; sm_pool_id := 0;
     sm_total_bytes := Z.of_nat (length data) |}.

Definition live_membership (objs : list (bytes * ObjectMetadata)) : list ContainedObject :=
  sorted_dedup ((fun o => {| co_bucket := o.1; co_key := om_object_key o.2 |}) <$> objs).

(** From the seal on: seal the new segment, move the rows, remove the old one. *)
Definition seal_and_move (w : World C) (id new : SegmentId) (meta : SegmentMetadata) (objs : list (bytes * ObjectMetadata))
    (rp : Repacked) (root : HashOutput) (io : compact_io) : list (World C) * outcome CompactError Z :=
  let '(c, r) := lm_seal new (repacked_meta new meta (rp_data rp) root (ci_now io)) (Some id) (Some (live_membership objs))
                   (ci_times io) (ci_seal io) (w_machine w) in
  let w1 := set_machine w c in
  match r with
  | Ok _ =>
      let '(st, ok) := batch_write (w_meta w1) (ci_meta io) (move_ops id (rp_remap rp) objs) in
      let w2 := set_meta w1 st in
      if (ok : bool) then
        let '(ws, r) := remove_old w2 id (tier_target_size (sm_size_tier meta)) io in (w1 :: w2 :: ws, r)
      else ([w1; w2], Err StoreError)
  | _ => (w1 :: cleanup_reserved_new w1 new io, as_compact_error r)
  end.

Definition compact_segment (w : World C) (id : SegmentId) (meta : SegmentMetadata) (contained : option (list ContainedObject))
    (dead : gset (bytes * bytes)) (new : SegmentId) (io : compact_io) : list (World C) * outcome CompactError Z :=
  match contained with
  | None => ([], Err NoMembership)
  | Some contained =>
      match find_live (w_meta w) (ci_reads io) id contained dead with
      | [] => remove_old w id (tier_target_size (sm_size_tier meta)) io
      | objs =>
          match w_files w !! id with
          | None => ([], Err DataMissing)
          | Some data =>
              match repack id new data objs with
              | Ok rp =>
                  let '(c, r) := lm_reserve new (sm_size_tier meta) (sm_ec_k meta) (sm_ec_m meta) (ci_times io)
                                   (ci_reserve io) (w_machine w) in
                  let w1 := set_machine w c in
                  match r with
                  | Ok _ =>
                      let '(w2, ok) := write_file w1 new (rp_data rp) (ci_write io) in
                      if (ok : bool) then
                        match build hash_leaf hash_pair (rp_data rp) 0 with
                        | Ok (Some tree) =>
                            let '(ws, r) := seal_and_move w2 id new meta objs rp (mr_hash (mt_root tree)) io in (w1 :: w2 :: ws, r)
                        | Ok None => ([w1; w2], Err NoMerkleRoot)
                        | _ => ([w1; w2], Panic)
                        end
                      else (w1 :: w2 :: cleanup_reserved_new w2 new io, Err StoreError)
                  | _ => ([w1], as_compact_error r)
                  end
              | Err e => ([], Err e)
              | Panic => ([], Panic)
              end
          end
      end
  end.

(** ** Recovery of incomplete compactions *)

Inductive CompactionRecoveryAction :=
| FinishOldDeletion (id : SegmentId) | SweepNewOrphan (id : SegmentId) | SweepOldDat (id : SegmentId).

Definition is_referenced (read_ok : bytes -> bytes -> bool) (w : World C) (id : SegmentId) : bool :=
  match lm_entry (w_machine w) id with
  | None => false
  | Some e =>
      match le_contained_objects e with
      | None => false
      | Some contained =>
          existsb (fun co => match read_object read_ok (w_meta w) (co_bucket co) (co_key co) with
                             | Some obj => references id obj
                             | None => false
                             end) contained
      end
  end.

Definition unit_action (read_ok : bytes -> bytes -> bool) (w : World C) (new old : SegmentId) : list CompactionRecoveryAction :=
  if is_referenced read_ok w new then
    match le_state <$> lm_entry (w_machine w) old with
    | Some Sealed => [FinishOldDeletion old]
    | Some Reserved => []
    | _ => [SweepOldDat old]
    end
  else [SweepNewOrphan new].

Definition recover_incomplete_compactions (read_ok : bytes -> bytes -> bool) (w : World C) : list CompactionRecoveryAction :=
  lm_entries (w_machine w) ≫= fun e => match le_repacked_from e.2 with Some old => unit_action read_ok w e.1 old | None => [] end.

Definition action_id (a : CompactionRecoveryAction) : SegmentId :=
  match a with FinishOldDeletion id | SweepNewOrphan id | SweepOldDat id => id end.

(** The dispatcher: delete unless only the file is left, then sweep the file of
    a segment that had an entry. Failures are logged. *)
Definition apply_action (io : Z * (Z * Z) * append_io * bool) (w : World C) (a : CompactionRecoveryAction) : World C :=
  let '(now, times, delete_io, unlink_ok) := io in
  let id := action_id a in
  let known := lm_known (w_machine w) now id in
  let w := match a with
           | SweepOldDat _ => w
           | _ => set_machine w (lm_delete id times delete_io (w_machine w)).1
           end in
  if known then (unlink w id unlink_ok).1 else w.

(** The recovery runs on the world as the restart found it, with the registry
    that was rebuilt from the event log. *)
Definition run_recovery (read_ok : bytes -> bytes -> bool) (io : Z * (Z * Z) * append_io * bool) (w : World C) : World C :=
  foldl (apply_action io) w (recover_incomplete_compactions read_ok w).
End compactor.

(** ** What readers get *)

Section reads.
Context {C : Type} `{!LifecycleMachine C}.

Definition on_disk (w : World C) (id : SegmentId) : bool :=
  match lm_entry (w_machine w) id with
  | Some e => bool_decide (le_state e = Sealed) && bool_decide (le_in_flight e = None)
  | None => false
  end.

(** The stored bytes of a chunk and how to decode them. *)
Definition read_chunk (w : World C) (c : ChunkRef) : option (bytes * bool * Z) :=
  if on_disk w (cr_segment_id c) then
    data ← w_files w !! cr_segment_id c;
    if decide (0 <= cr_offset c /\ 0 <= cr_length c /\ cr_offset c + cr_length c <= Z.of_nat (length data))
    then Some (take (Z.to_nat (cr_length c)) (drop (Z.to_nat (cr_offset c)) data), cr_compressed c, cr_logical_length c)
    else None
  else None.

Definition read_row (w : World C) (rk : bytes) : option (view * option (list (bytes * bool * Z))) :=
  m ← st_objects (w_meta w) !! rk; Some (object_view m, mapM (read_chunk w) (om_chunks m)).

Lemma references_spec id m : references id m = true <-> exists c, c ∈ om_chunks m /\ cr_segment_id c = id.
Proof.
  unfold references. rewrite existsb_exists. setoid_rewrite <- list_elem_of_In. setoid_rewrite bool_decide_eq_true. done.
Qed.

(** Two worlds that agree on a segment give the same chunks. *)
Definition agree_on (w w' : World C) (id : SegmentId) : Prop :=
  lm_entry (w_machine w') id = lm_entry (w_machine w) id /\ w_files w' !! id = w_files w !! id.

Lemma read_chunk_agree w w' c : agree_on w w' (cr_segment_id c) -> read_chunk w' c = read_chunk w c.
Proof. intros [E1 E2]. unfold read_chunk, on_disk. by rewrite E1, E2. Qed.

Lemma mapM_ext_in {A B} (f g : A -> option B) l : (forall x, x ∈ l -> f x = g x) -> mapM f l = mapM g l.
Proof.
  induction l as [|x l IH]; intros H; [done|]. cbn [mapM]. rewrite H by left. rewrite IH; [done|].
  intros y Hy. apply H. by right.
Qed.

Lemma read_row_agree w w' rk :
  st_objects (w_meta w') = st_objects (w_meta w) ->
  (forall m c, st_objects (w_meta w) !! rk = Some m -> c ∈ om_chunks m -> agree_on w w' (cr_segment_id c)) ->
  read_row w' rk = read_row w rk.
Proof.
  intros Eo Ha. unfold read_row. rewrite Eo. destruct (st_objects (w_meta w) !! rk) as [m|] eqn:Em; [|done].
  cbn [mbind option_bind]. do 2 f_equal. apply mapM_ext_in. intros c Hc. apply read_chunk_agree. by eapply Ha.
Qed.

(** Whether some row references a segment. *)
Definition unreferenced (w : World C) (id : SegmentId) : Prop :=
  forall rk m, st_objects (w_meta w) !! rk = Some m -> references id m = false.

Lemma unreferenced_chunk w id rk m c :
  unreferenced w id -> st_objects (w_meta w) !! rk = Some m -> c ∈ om_chunks m -> cr_segment_id c <> id.
Proof.
  intros Hu Hm Hc E. specialize (Hu rk m Hm). apply not_true_iff_false in Hu. apply Hu, references_spec. eauto.
Qed.

(** ** Recovery deletes nothing that is referenced *)

Context `{!LifecycleLaws C}.

(** A marked segment has the membership list of all its rows, and once a row
    references it none references the segment it replaces. *)
Definition units_ok (w : World C) : Prop :=
  forall new e old, lm_entry (w_machine w) new = Some e -> le_repacked_from e = Some old ->
  (exists l, le_contained_objects e = Some l /\
     forall rk m, st_objects (w_meta w) !! rk = Some m -> references new m = true ->
       exists co, co ∈ l /\ rk = encode_object_key (co_bucket co) (co_key co)) /\
  (unreferenced w new \/ unreferenced w old).

Lemma is_referenced_spec ok w new e l :
  (forall b k, ok b k = true) -> lm_entry (w_machine w) new = Some e -> le_contained_objects e = Some l ->
  (forall rk m, st_objects (w_meta w) !! rk = Some m -> references new m = true ->
     exists co, co ∈ l /\ rk = encode_object_key (co_bucket co) (co_key co)) ->
  (is_referenced ok w new = false -> unreferenced w new) /\ (is_referenced ok w new = true -> ~ unreferenced w new).
Proof.
  intros Hok He Hl Hm. unfold is_referenced, read_object. rewrite He, Hl. split.
  - intros Hx rk m Hrow. destruct (references new m) eqn:Hr; [|done]. destruct (Hm rk m Hrow Hr) as (co & Hco & ->).
    rewrite <- not_true_iff_false, existsb_exists in Hx. exfalso. apply Hx. exists co. split; [by apply list_elem_of_In|].
    unfold get_object. by rewrite Hok, Hrow.
  - rewrite existsb_exists. intros (co & _ & Hx) Hu. rewrite Hok in Hx. destruct (get_object _ _ _) as [m|] eqn:Hg; [|done].
    rewrite (Hu _ m Hg) in Hx. done.
Qed.

Lemma recovery_targets_unreferenced ok w a :
  (forall b k, ok b k = true) -> units_ok w -> a ∈ recover_incomplete_compactions ok w -> unreferenced w (action_id a).
Proof using LifecycleLaws0.
  intros Hok Hu ([new e] & Ha & Hin)%list_elem_of_bind. cbn [fst snd] in Ha.
  apply lm_entries_spec in Hin. destruct (le_repacked_from e) as [old|] eqn:Er; [|by apply elem_of_nil in Ha].
  destruct (Hu new e old Hin Er) as [(l & Hl & Hm) Hor]. destruct (is_referenced_spec ok w new e l Hok Hin Hl Hm) as [H1 H2].
  unfold unit_action in Ha. destruct (is_referenced ok w new).
  - assert (Hold : unreferenced w old) by (destruct Hor; [by apply H2 in H|done]).
    destruct (le_state <$> lm_entry (w_machine w) old) as [[]|]; try (by apply elem_of_nil in Ha);
      apply list_elem_of_singleton in Ha as ->; done.
  - apply list_elem_of_singleton in Ha as ->. by apply H1.
Qed.

Lemma apply_action_other io w a s :
  s <> action_id a -> agree_on w (apply_action io w a) s /\ st_objects (w_meta (apply_action io w a)) = st_objects (w_meta w).
Proof using LifecycleLaws0.
  intros Hs. destruct io as [[[now times] dio] ok]. unfold apply_action.
  set (w1 := match a with SweepOldDat _ => w | _ => _ end).
  assert (A1 : agree_on w w1 s /\ w_meta w1 = w_meta w).
  { unfold w1, agree_on. destruct a; cbn [set_machine w_machine w_files w_meta action_id] in *; split; try done;
      (split; [by apply lm_delete_other|done]). }
  destruct A1 as [[E1 E2] E3]. destruct (lm_known _ _ _); [|by rewrite E3].
  unfold unlink. destruct ok; cbn [fst set_files w_machine w_files w_meta]; [|by rewrite E3].
  split; [|by rewrite E3]. split; [done|]. unfold set_files; cbn [w_files]. by rewrite lookup_delete_ne.
Qed.

Lemma run_recovery_reads ok io w rk :
  (forall b k, ok b k = true) -> units_ok w -> read_row (run_recovery ok io w) rk = read_row w rk.
Proof using LifecycleLaws0.
  intros Hok Hu. pose proof (fun a => recovery_targets_unreferenced ok w a Hok Hu) as Ht. unfold run_recovery.
  enough (G : st_objects (w_meta (foldl (apply_action io) w (recover_incomplete_compactions ok w))) = st_objects (w_meta w) /\
    forall s, (forall a, a ∈ recover_incomplete_compactions ok w -> action_id a <> s) ->
      agree_on w (foldl (apply_action io) w (recover_incomplete_compactions ok w)) s).
  { destruct G as [G1 G2]. apply read_row_agree; [done|]. intros m c Hm Hc. apply G2. intros a Ha E.
    by eapply (unreferenced_chunk w (action_id a)); [apply Ht|..]. }
  clear Ht Hu Hok. generalize (recover_incomplete_compactions ok w). intros l. induction l as [|a l IH] using rev_ind.
  - split; [done|]. intros s _. by split.
  - rewrite foldl_app. cbn [foldl]. destruct IH as [IH1 IH2]. split.
    + destruct (apply_action_other io (foldl (apply_action io) w l) a (x00 :: action_id a)) as [_ E]; [|by rewrite E].
      intros E. apply (f_equal length) in E. cbn in E. lia.
    + intros s Hs. destruct (apply_action_other io (foldl (apply_action io) w l) a s) as [[E1 E2] _].
      { intros ->. apply (Hs a); [|done]. apply elem_of_app. right. left. }
      destruct (IH2 s) as [F1 F2]; [intros a' Ha'; apply Hs; apply elem_of_app; by left|]. split; congruence.
Qed.

(** What of an entry the event log gives back. *)
Definition entry_view (e : LifecycleEntry) : SegmentState * option SegmentId * option (list ContainedObject) * bool :=
  (le_state e, le_repacked_from e, le_contained_objects e, bool_decide (le_state e = Sealed) && bool_decide (le_in_flight e = None)).

(** The world a restart finds: the same rows and files, and a registry that
    agrees on the segments. *)
Definition restored (w w' : World C) : Prop :=
  w_meta w' = w_meta w /\ w_files w' = w_files w /\
  forall id, entry_view <$> lm_entry (w_machine w') id = entry_view <$> lm_entry (w_machine w) id.

Lemma restored_entry w w' id e :
  restored w w' -> lm_entry (w_machine w') id = Some e ->
  exists e0, lm_entry (w_machine w) id = Some e0 /\ entry_view e = entry_view e0.
Proof.
  intros (_ & _ & H) He. specialize (H id). rewrite He in H. destruct (lm_entry (w_machine w) id) as [e0|]; [|done].
  exists e0. split; [done|]. cbn in H. congruence.
Qed.

Lemma restored_reads w w' rk : restored w w' -> read_row w' rk = read_row w rk.
Proof.
  intros (Em & Ef & H). unfold read_row. rewrite Em. destruct (st_objects (w_meta w) !! rk) as [m|]; [|done]. cbn [mbind option_bind].
  do 2 f_equal. apply mapM_ext_in. intros c _. unfold read_chunk, on_disk. rewrite Ef. specialize (H (cr_segment_id c)).
  destruct (lm_entry (w_machine w') _) as [e'|], (lm_entry (w_machine w) _) as [e|]; try done.
  cbn in H. assert (Ev : entry_view e' = entry_view e) by congruence. injection Ev as _ _ _ Ei. by rewrite Ei.
Qed.

Lemma restored_units w w' : restored w w' -> units_ok w -> units_ok w'.
Proof.
  intros Hr Hu new e old He Hm. destruct (restored_entry w w' new e Hr He) as (e0 & He0 & Ev). injection Ev as _ Erp Eco _.
  destruct Hr as (Em & _ & _). unfold unreferenced. rewrite Em, Eco. apply (Hu new e0 old); [done|congruence].
Qed.
End reads.

(** ** Repacking copies the bytes *)

Definition fits (data : bytes) (c : ChunkRef) : Prop :=
  0 <= cr_offset c /\ 0 <= cr_length c /\ cr_offset c + cr_length c <= Z.of_nat (length data).

Definition chunk_bytes (data : bytes) (c : ChunkRef) : bytes :=
  take (Z.to_nat (cr_length c)) (drop (Z.to_nat (cr_offset c)) data).

(** [nc] is [c] in the repacked data. *)
Record moved_to (new : SegmentId) (data packed : bytes) (c nc : ChunkRef) : Prop := {
  mv_segment : cr_segment_id nc = new;
  mv_length : cr_length nc = cr_length c;
  mv_compressed : cr_compressed nc = cr_compressed c;
  mv_logical : cr_logical_length nc = cr_logical_length c;
  mv_fits : fits packed nc;
  mv_bytes : chunk_bytes packed nc = chunk_bytes data c }.

Lemma copy_live_range_fits data c : fits data c -> copy_live_range data (cr_offset c) (cr_length c) = Ok (chunk_bytes data c).
Proof.
  intros (H1 & H2 & H3). unfold copy_live_range, chunk_bytes. rewrite decide_True by lia. do 2 f_equal. lia.
Qed.

Lemma chunk_bytes_length data c : fits data c -> length (chunk_bytes data c) = Z.to_nat (cr_length c).
Proof. intros (H1 & H2 & H3). unfold chunk_bytes. rewrite length_take, length_drop. lia. Qed.

Lemma moved_to_extend new data packed more c nc : moved_to new data packed c nc -> moved_to new data (packed ++ more) c nc.
Proof.
  intros [E1 E2 E3 E4 (F1 & F2 & F3) Eb]. split; try done.
  - split_and!; [done..|]. rewrite length_app. lia.
  - rewrite <- Eb. unfold chunk_bytes. rewrite drop_app_le by lia. apply take_app_le. rewrite length_drop. lia.
Qed.

Lemma repack_chunks_ok id new data cs rp done_ :
  (forall c, c ∈ cs -> cr_segment_id c = id -> fits data c) ->
  (forall c c', c ∈ done_ ++ cs -> c' ∈ done_ ++ cs -> cr_segment_id c = id -> key_of c = key_of c' -> c = c') ->
  rp_offset rp = Z.of_nat (length (rp_data rp)) ->
  (forall c, c ∈ done_ -> cr_segment_id c = id ->
     exists nc, rp_remap rp !! key_of c = Some nc /\ moved_to new data (rp_data rp) c nc) ->
  exists rp', foldl (repack_chunk id new data) (Ok rp) cs = Ok rp' /\
    forall c, c ∈ done_ ++ cs -> cr_segment_id c = id ->
      exists nc, rp_remap rp' !! key_of c = Some nc /\ moved_to new data (rp_data rp') c nc.
Proof.
  revert rp done_. induction cs as [|c cs IH]; intros rp done_ Hfit Hsame Hoff Hdone.
  { exists rp. split; [done|]. intros c. rewrite app_nil_r. apply Hdone. }
  assert (Hassoc : done_ ++ c :: cs = (done_ ++ [c]) ++ cs) by (by rewrite <- app_assoc).
  rewrite Hassoc in *. cbn [foldl repack_chunk]. destruct (decide (cr_segment_id c = id)) as [E|E].
  - specialize (Hfit c ltac:(left) E) as Hc. rewrite (copy_live_range_fits _ _ Hc). cbn [mbind outcome_bind].
    apply IH; [intros; apply Hfit; [by right|done]|done| |]; cbn [rp_offset rp_remap rp_data].
    + rewrite length_app, chunk_bytes_length, Hoff by done. destruct Hc as (_ & ? & _). lia.
    + intros c' Hc' Ec'. destruct (decide (key_of c' = key_of c)) as [Ek|Ek].
      * assert (c' = c) as ->.
        { apply (Hsame c' c); [apply elem_of_app; by left| |done|done]. apply elem_of_app. left. apply elem_of_app. right. left. }
        rewrite lookup_insert_eq. eexists. split; [done|]. pose proof Hc as (P1 & P2 & P3).
        split; cbn [cr_segment_id cr_length cr_compressed cr_logical_length]; try done.
        -- split_and!; cbn [cr_offset cr_length]; [lia|done|]. rewrite length_app, chunk_bytes_length, Hoff by done. lia.
        -- unfold chunk_bytes at 1. cbn [cr_length cr_offset]. rewrite Hoff, Nat2Z.id, drop_app_length.
           apply take_ge. rewrite chunk_bytes_length by done. done.
      * rewrite lookup_insert_ne by done. apply elem_of_app in Hc' as [Hc'| ->%list_elem_of_singleton]; [|done].
        destruct (Hdone c' Hc' Ec') as (nc & Hn & Hm). exists nc. split; [done|]. by apply moved_to_extend.
  - apply IH; [intros; apply Hfit; [by right|done]|done|done|].
    intros c' [Hc'| ->%list_elem_of_singleton]%elem_of_app Ec'; [by apply Hdone|done].
Qed.

Lemma foldl_bind {A B S} (f : S -> B -> S) (g : A -> list B) l s :
  foldl (fun s a => foldl f s (g a)) s l = foldl f s (l ≫= g).
Proof. revert s. induction l as [|a l IH]; intros s; [done|]. cbn [foldl mbind list_bind]. by rewrite foldl_app, IH. Qed.

Lemma repack_ok id new data objs :
  (forall c, c ∈ objs ≫= (fun o => om_chunks o.2) -> cr_segment_id c = id -> fits data c) ->
  (forall c c', c ∈ objs ≫= (fun o => om_chunks o.2) -> c' ∈ objs ≫= (fun o => om_chunks o.2) ->
     cr_segment_id c = id -> key_of c = key_of c' -> c = c') ->
  exists rp, repack id new data objs = Ok rp /\
    forall c, c ∈ objs ≫= (fun o => om_chunks o.2) -> cr_segment_id c = id ->
      exists nc, rp_remap rp !! key_of c = Some nc /\ moved_to new data (rp_data rp) c nc.
Proof.
  intros Hfit Hsame. unfold repack. rewrite (foldl_bind (repack_chunk id new data) (fun o => om_chunks o.2)).
  apply (repack_chunks_ok id new data _ _ []); [done|done|done|]. intros c Hc. by apply elem_of_nil in Hc.
Qed.

(** ** Moving the rows *)

Lemma move_ops_rows (id : SegmentId) (remap : gmap chunk_key ChunkRef) (objs : list (bytes * ObjectMetadata)) (o : gmap bytes ObjectMetadata) (d : gmap bytes Tombstone) (rk : bytes) :
  (forall x, x ∈ objs -> o !! encode_object_key x.1 (om_object_key x.2) = Some x.2) ->
  (foldl batch_apply (o, d) (move_ops id remap objs)).1 !! rk
  = if decide (rk ∈ (fun x => encode_object_key x.1 (om_object_key x.2)) <$> objs)
    then move_object id remap <$> o !! rk else o !! rk.
Proof.
  induction objs as [|x objs IH] using rev_ind; intros Hin; [done|].
  unfold move_ops. rewrite fmap_app, foldl_app. cbn [fmap list_fmap foldl batch_apply].
  fold (move_ops id remap objs). cbn [fst].
  set (rx := encode_object_key x.1 (om_object_key x.2)). destruct (decide (rx = rk)) as [<-|Hne].
  - rewrite lookup_insert_eq, decide_True by (rewrite fmap_app; apply elem_of_app; right; left). unfold rx. rewrite Hin by (apply elem_of_app; right; left). done.
  - rewrite lookup_insert_ne, IH by (done || (intros; apply Hin; apply elem_of_app; by left)).
    assert (E : rk ∈ ((fun x => encode_object_key x.1 (om_object_key x.2)) <$> objs ++ [x])
      <-> rk ∈ (fun x => encode_object_key x.1 (om_object_key x.2)) <$> objs).
    { rewrite fmap_app, elem_of_app. cbn [fmap list_fmap]. rewrite list_elem_of_singleton. naive_solver. }
    by destruct (decide (rk ∈ _ <$> objs)), (decide (rk ∈ _ <$> objs ++ [x])); try tauto.
Qed.

Lemma batch_write_rows st io ops :
  st_objects (batch_write st io ops).1
  = if (batch_write st io ops).2 then (foldl batch_apply (st_objects st, st_deletions st) ops).1 else st_objects st.
Proof.
  unfold batch_write. destruct (foldl batch_apply _ ops) as [objects deletions]. cbn [fst].
  destruct (concat _), io; done.
Qed.

(** ** Compaction loses nothing *)

(** The states of a list one by one. *)
Ltac all_states := cbn [fst]; repeat (apply Forall_cons; split; [done|]); try apply Forall_nil_2.

Lemma elem_of_dedup x l : x ∈ dedup l <-> x ∈ l.
Proof.
  induction l as [|a l IH]; [done|]. cbn [dedup]. destruct l as [|b l]; [done|].
  destruct (decide (a = b)) as [->|Hne]; rewrite ?elem_of_cons, IH, ?elem_of_cons; tauto.
Qed.

Lemma elem_of_live_membership b m (objs : list (bytes * ObjectMetadata)) :
  (b, m) ∈ objs -> {| co_bucket := b; co_key := om_object_key m |} ∈ live_membership objs.
Proof.
  intros H. unfold live_membership, sorted_dedup. rewrite elem_of_dedup, merge_sort_Permutation.
  apply list_elem_of_fmap. by exists (b, m).
Qed.

(** The reads of the membership list succeed. *)
Definition reads_succeed (contained : list ContainedObject) (read_ok : bytes -> bytes -> bool) : Prop :=
  forall co, co ∈ contained -> read_ok (co_bucket co) (co_key co) = true.

Lemma find_live_reads st read_ok id contained dead :
  reads_succeed contained read_ok -> find_live st read_ok id contained dead = find_live st (fun _ _ => true) id contained dead.
Proof.
  unfold reads_succeed, find_live, read_object. induction contained as [|co l IH]; intros Hok; [done|]. cbn [omap list_omap].
  rewrite (Hok co) by left. by rewrite IH by (intros co' Hco'; apply Hok; by right).
Qed.

Section crash_safety.
Context {C : Type} `{!LifecycleMachine C, !LifecycleLaws C}.

(** What the compactor starts from: the segment is on disk, the new identifier
    is fresh, every row that references the segment is in its membership list
    and not dead, and its chunks lie within the data, each stored one way. *)
Record compact_pre (w : World C) (id new : SegmentId) (contained : list ContainedObject) (dead : gset (bytes * bytes)) : Prop := {
  cp_distinct : new <> id;
  cp_unused : unreferenced w new;
  cp_no_entry : lm_entry (w_machine w) new = None;
  cp_no_marker : forall s e, lm_entry (w_machine w) s = Some e -> le_repacked_from e <> Some new;
  cp_on_disk : on_disk w id = true;
  cp_members : forall rk m, st_objects (w_meta w) !! rk = Some m -> references id m = true ->
    exists co, co ∈ contained /\ rk = encode_object_key (co_bucket co) (co_key co) /\ (co_bucket co, co_key co) ∉ dead;
  cp_keys : forall co m, co ∈ contained -> get_object (w_meta w) (co_bucket co) (co_key co) = Some m -> om_object_key m = co_key co;
  cp_fits : forall data rk m c, w_files w !! id = Some data -> st_objects (w_meta w) !! rk = Some m -> c ∈ om_chunks m ->
    cr_segment_id c = id -> fits data c;
  cp_same : forall rk m c rk' m' c', st_objects (w_meta w) !! rk = Some m -> c ∈ om_chunks m ->
    st_objects (w_meta w) !! rk' = Some m' -> c' ∈ om_chunks m' ->
    cr_segment_id c = id -> key_of c = key_of c' -> c = c' }.

Context (w0 : World C) (id new : SegmentId) (contained : list ContainedObject) (dead : gset (bytes * bytes)).
Hypothesis Hpre : compact_pre w0 id new contained dead.
Hypothesis Hunits : units_ok w0.

Notation objs := (find_live (w_meta w0) (fun _ _ => true) id contained dead).

Lemma find_live_spec b m :
  (b, m) ∈ objs -> exists co, co ∈ contained /\ b = co_bucket co /\ om_object_key m = co_key co /\
    get_object (w_meta w0) b (om_object_key m) = Some m /\ references id m = true.
Proof using Hpre.
  unfold find_live, read_object. intros (co & Hco & Hx)%list_elem_of_omap. exists co. destruct (decide _) as [|_]; [done|].
  destruct (get_object _ _ _) as [obj|] eqn:Hg; [|done]. destruct (references id obj) eqn:Hr; [|done].
  injection Hx as <- <-. pose proof (cp_keys _ _ _ _ _ Hpre co obj Hco Hg) as Ek. rewrite Ek. done.
Qed.

Lemma find_live_complete rk m :
  st_objects (w_meta w0) !! rk = Some m -> references id m = true ->
  exists b, (b, m) ∈ objs /\ rk = encode_object_key b (om_object_key m).
Proof using Hpre.
  intros Hm Hr. destruct (cp_members _ _ _ _ _ Hpre rk m Hm Hr) as (co & Hco & -> & Hd). exists (co_bucket co).
  pose proof (cp_keys _ _ _ _ _ Hpre co m Hco Hm) as Ek. rewrite Ek. split; [|done].
  unfold find_live, read_object. apply list_elem_of_omap. exists co. split; [done|]. rewrite decide_False by done.
  unfold get_object. by rewrite Hm, Hr.
Qed.

Lemma find_live_chunk c :
  c ∈ objs ≫= (fun o => om_chunks o.2) -> exists rk m, st_objects (w_meta w0) !! rk = Some m /\ c ∈ om_chunks m.
Proof using Hpre. intros ([b m] & Hc & Ho)%list_elem_of_bind. apply find_live_spec in Ho as (co & _ & _ & _ & Hg & _). by exists (encode_object_key b (om_object_key m)), m. Qed.

(** Before the rows move: nothing changed but the new segment. *)
Definition copying (w : World C) : Prop :=
  st_objects (w_meta w) = st_objects (w_meta w0) /\ (forall s, s <> new -> agree_on w0 w s) /\
  forall e old, lm_entry (w_machine w) new = Some e -> le_repacked_from e = Some old ->
    old = id /\ is_Some (le_contained_objects e).

Lemma copying_reads w rk : copying w -> read_row w rk = read_row w0 rk.
Proof using Hpre.
  intros (Ho & Ha & _). apply read_row_agree; [done|]. intros m c Hm Hc. apply Ha.
  by eapply unreferenced_chunk; [apply Hpre|..].
Qed.

Lemma copying_units w : copying w -> units_ok w.
Proof using Hpre Hunits.
  intros (Ho & Ha & Hn) s e old He Hr. assert (Hun : unreferenced w new).
  { intros rk m. rewrite Ho. apply Hpre. }
  destruct (decide (s = new)) as [->|Hs].
  - destruct (Hn e old He Hr) as [_ [l Hl]]. split; [exists l; split; [done|]|by left].
    intros rk m Hm Hx. by rewrite (Hun rk m Hm) in Hx.
  - destruct (Ha s Hs) as [E _]. rewrite E in He. destruct (Hunits s e old He Hr) as [(l & Hl & Hm) Hor]. split.
    + exists l. split; [done|]. intros rk m. rewrite Ho. apply Hm.
    + unfold unreferenced in *. by rewrite Ho.
Qed.

(** After the move. *)
Definition moved (remap : gmap chunk_key ChunkRef) (packed : bytes) (w : World C) : Prop :=
  (forall rk, st_objects (w_meta w) !! rk
     = (fun m => if references id m then move_object id remap m else m) <$> st_objects (w_meta w0) !! rk) /\
  (forall s, s <> new -> s <> id -> agree_on w0 w s) /\
  on_disk w new = true /\ w_files w !! new = Some packed /\
  (exists e, lm_entry (w_machine w) new = Some e /\ le_contained_objects e = Some (live_membership objs) /\ le_repacked_from e = Some id) /\
  (lm_entry (w_machine w) id = lm_entry (w_machine w0) id \/ lm_entry (w_machine w) id = None).

(** The remap table has an image of each chunk of the segment. *)
Definition remap_covers (remap : gmap chunk_key ChunkRef) (packed : bytes) : Prop :=
  exists data, w_files w0 !! id = Some data /\
  forall rk m c, st_objects (w_meta w0) !! rk = Some m -> c ∈ om_chunks m -> cr_segment_id c = id ->
    exists nc, remap !! key_of c = Some nc /\ moved_to new data packed c nc.

Lemma moved_references remap packed rk m x :
  remap_covers remap packed -> st_objects (w_meta w0) !! rk = Some m -> x <> new ->
  references x (if references id m then move_object id remap m else m) = true ->
  references x m = true /\ x <> id.
Proof using Hpre.
  intros (data & _ & Hc) Hm Hx Hr. destruct (references id m) eqn:Hid.
  - apply references_spec in Hr as (c' & Hin & Ec'). cbn [om_chunks move_object] in Hin.
    apply list_elem_of_omap in Hin as (c & Hin & Hmap). destruct (decide (cr_segment_id c = id)) as [E|E].
    + destruct (Hc rk m c Hm Hin E) as (nc & Hnc & [Hseg _ _ _ _ _]). congruence.
    + injection Hmap as <-. split; [apply references_spec; eauto|congruence].
  - split; [done|]. intros ->. congruence.
Qed.

Lemma moved_units remap packed w : remap_covers remap packed -> moved remap packed w -> units_ok w.
Proof using Hpre Hunits.
  intros Hcov (Ho & Ha & _ & _ & (en & Hen & Hl & Hmk) & Hid) s e old He Hr.
  assert (Hmono : forall rk m' x, st_objects (w_meta w) !! rk = Some m' -> x <> new -> references x m' = true ->
    exists m, st_objects (w_meta w0) !! rk = Some m /\ references x m = true /\ x <> id).
  { intros rk m' x. rewrite Ho. destruct (st_objects (w_meta w0) !! rk) as [m|] eqn:Em; [|done].
    intros [= <-] Hx Href. exists m. split; [done|]. by eapply moved_references. }
  assert (Hund : forall x, x <> new -> unreferenced w0 x -> unreferenced w x).
  { intros x Hx Hux rk m' Hm'. destruct (references x m') eqn:E; [|done].
    destruct (Hmono rk m' x Hm' Hx E) as (m & Hm & Hxr & _). by rewrite (Hux rk m Hm) in Hxr. }
  destruct (decide (s = new)) as [->|Hs].
  - rewrite Hen in He. injection He as <-. rewrite Hmk in Hr. injection Hr as <-. split.
    + exists (live_membership objs). split; [done|]. intros rk m'. rewrite Ho.
      destruct (st_objects (w_meta w0) !! rk) as [m|] eqn:Em; [|done]. intros [= <-] Hx.
      destruct (references id m) eqn:Hrid; [|by rewrite (cp_unused _ _ _ _ _ Hpre rk m Em) in Hx].
      destruct (find_live_complete rk m Em Hrid) as (b & Hb & ->).
      exists {| co_bucket := b; co_key := om_object_key m |}. split; [by apply elem_of_live_membership|done].
    + right. intros rk m' Hm'. destruct (references id m') eqn:E; [|done].
      destruct (Hmono rk m' id Hm' (not_eq_sym (cp_distinct _ _ _ _ _ Hpre)) E) as (_ & _ & _ & Hno). done.
  - assert (He0 : lm_entry (w_machine w0) s = Some e).
    { destruct (decide (s = id)) as [->|Hsi]; [destruct Hid as [E|E]; congruence|]. destruct (Ha s Hs Hsi) as [E _]. congruence. }
    destruct (Hunits s e old He0 Hr) as [(l & Hl' & Hm) Hor]. split.
    + exists l. split; [done|]. intros rk m' Hm' Hx. destruct (Hmono rk m' s Hm' Hs Hx) as (m & Hm0 & Hx0 & _). by eapply Hm.
    + destruct Hor as [Hor|Hor]; [left|right]; apply Hund; try done. intros ->. by apply (cp_no_marker _ _ _ _ _ Hpre s e).
Qed.

Lemma moved_chunk_reads remap packed w rk m c :
  remap_covers remap packed -> moved remap packed w -> st_objects (w_meta w0) !! rk = Some m -> c ∈ om_chunks m ->
  exists c', (if decide (cr_segment_id c = id) then remap !! key_of c else Some c) = Some c' /\ read_chunk w c' = read_chunk w0 c.
Proof using Hpre.
  intros (data & Hdata & Hc) (Ho & Ha & Hdisk & Hpk & _ & _) Hm Hin. destruct (decide (cr_segment_id c = id)) as [E|E].
  - destruct (Hc rk m c Hm Hin E) as (nc & Hnc & [M1 M2 M3 M4 M5 M6]). exists nc. split; [done|].
    unfold read_chunk. rewrite M1, E, Hdisk, (cp_on_disk _ _ _ _ _ Hpre), Hpk, Hdata. cbn [mbind option_bind].
    pose proof (cp_fits _ _ _ _ _ Hpre data rk m c Hdata Hm Hin E) as Hf.
    unfold fits in *. rewrite !decide_True by done. fold (chunk_bytes packed nc) (chunk_bytes data c).
    by rewrite M6, M3, M4.
  - exists c. split; [done|]. apply read_chunk_agree, Ha; [|done]. by eapply unreferenced_chunk; [apply Hpre|..].
Qed.

Lemma moved_reads remap packed w rk : remap_covers remap packed -> moved remap packed w -> read_row w rk = read_row w0 rk.
Proof using Hpre.
  intros Hcov Hmv. unfold read_row. rewrite (proj1 Hmv). destruct (st_objects (w_meta w0) !! rk) as [m|] eqn:Em; [|done].
  cbn [fmap option_fmap option_map mbind option_bind].
  assert (G : forall cs, (forall c, c ∈ cs -> c ∈ om_chunks m) -> mapM (read_chunk w) (move_chunks id remap cs) = mapM (read_chunk w0) cs).
  { induction cs as [|c cs IH]; intros Hcs; [done|]. rewrite move_chunks_cons.
    destruct (moved_chunk_reads remap packed w rk m c Hcov Hmv Em (Hcs c ltac:(left))) as (c' & -> & E).
    cbn [mapM]. rewrite E, IH; [done|]. intros c1 H1. apply Hcs. by right. }
  destruct (references id m) eqn:Hr; cbn [om_chunks move_object]; [by rewrite G|].
  do 2 f_equal. apply mapM_ext_in. intros c Hc.
  destruct (moved_chunk_reads remap packed w rk m c Hcov Hmv Em Hc) as (c' & Hc' & E).
  rewrite decide_False in Hc'; [by injection Hc' as ->|].
  intros Eid. rewrite <- not_true_iff_false, references_spec in Hr. apply Hr. eauto.
Qed.

(** Readers get what they got before, and so they do after a recovery. *)
Definition safe (w : World C) : Prop :=
  (forall rk, read_row w rk = read_row w0 rk) /\ units_ok w.

Lemma copying_safe w : copying w -> safe w.
Proof using Hpre Hunits. intros H. split; [intros rk; by apply copying_reads|by apply copying_units]. Qed.

Lemma moved_safe remap packed w : remap_covers remap packed -> moved remap packed w -> safe w.
Proof using Hpre Hunits. intros Hc H. split; [intros rk; by eapply moved_reads|by eapply moved_units]. Qed.

(** *** The deletion of the old segment *)

Lemma remove_old_states w size io :
  let w1 := set_machine w (lm_delete id (ci_times io) (ci_delete io) (w_machine w)).1 in
  Forall (fun w' => w' = w1 \/ w' = set_files w1 (delete id (w_files w1))) (remove_old w id size io).1.
Proof.
  unfold remove_old, request_old_deletion, unlink. destruct (lm_delete _ _ _ _) as [c r]. cbn [fst].
  destruct r as [[]|[]|], (ci_unlink io); cbn [fst]; rewrite ?Forall_cons; split_and?; auto.
Qed.

Lemma delete_old_agree w io s :
  s <> id -> let w1 := set_machine w (lm_delete id (ci_times io) (ci_delete io) (w_machine w)).1 in
  agree_on w w1 s /\ agree_on w (set_files w1 (delete id (w_files w1))) s.
Proof using LifecycleLaws0.
  intros Hs. unfold agree_on, set_machine, set_files; cbn [w_machine w_files].
  rewrite lm_delete_other, lookup_delete_ne by done. done.
Qed.

Lemma remove_old_moved remap packed w size io :
  moved remap packed w -> Forall (moved remap packed) (remove_old w id size io).1.
Proof using Hpre LifecycleLaws0.
  intros (Ho & Ha & Hd & Hf & He & Hi). eapply Forall_impl; [apply remove_old_states|]. cbn beta. intros w' Hw'.
  pose proof (cp_distinct _ _ _ _ _ Hpre) as Hne.
  assert (A : forall s, s <> id -> agree_on w w' s) by (intros s Hs; destruct (delete_old_agree w io s Hs); by destruct Hw'; subst w').
  assert (Hm : w_meta w' = w_meta w) by (by destruct Hw'; subst w').
  assert (Hid : lm_entry (w_machine w') id = lm_entry (w_machine w) id \/ lm_entry (w_machine w') id = None)
    by (destruct Hw'; subst w'; apply lm_delete_own).
  destruct (A new Hne) as [An1 An2]. unfold moved, on_disk in *. rewrite Hm, An1, An2. split_and!; try done.
  - intros s H1 H2. destruct (A s H2), (Ha s H1 H2). split; congruence.
  - destruct Hid as [E|E]; rewrite E; [done|by right].
Qed.

Lemma remove_old_unreferenced size io : unreferenced w0 id -> Forall safe (remove_old w0 id size io).1.
Proof using Hunits LifecycleLaws0.
  intros Hun. eapply Forall_impl; [apply remove_old_states|]. cbn beta. intros w' Hw'.
  assert (A : forall s, s <> id -> agree_on w0 w' s) by (intros s Hs; destruct (delete_old_agree w0 io s Hs); by destruct Hw'; subst w').
  assert (Hm : w_meta w' = w_meta w0) by (by destruct Hw'; subst w').
  assert (Hid : lm_entry (w_machine w') id = lm_entry (w_machine w0) id \/ lm_entry (w_machine w') id = None)
    by (destruct Hw'; subst w'; apply lm_delete_own).
  split.
  - intros rk. apply read_row_agree; [by rewrite Hm|]. intros m c Hr Hc. apply A. by eapply unreferenced_chunk.
  - intros s e old He Hr. unfold unreferenced. rewrite Hm. apply (Hunits s e old); [|done].
    destruct (decide (s = id)) as [->|Hs]; [destruct Hid; congruence|]. destruct (A s Hs). congruence.
Qed.

(** *** The effects on the new segment *)

Lemma machine_copying w c :
  copying w -> (forall s, s <> new -> lm_entry c s = lm_entry (w_machine w) s) ->
  (forall e old, lm_entry c new = Some e -> le_repacked_from e = Some old -> old = id /\ is_Some (le_contained_objects e)) ->
  copying (set_machine w c).
Proof.
  intros (Ho & Ha & _) Hs Hn. split_and!; [done| |done]. intros s Hne. destruct (Ha s Hne) as [E1 E2].
  split; [|done]. cbn [set_machine w_machine]. by rewrite Hs.
Qed.

Lemma files_copying w f : copying w -> (forall s, s <> new -> f !! s = w_files w !! s) -> copying (set_files w f).
Proof.
  intros (Ho & Ha & Hn) Hf. split_and!; [done| |done]. intros s Hne. destruct (Ha s Hne) as [E1 E2].
  split; [done|]. cbn [set_files w_files]. by rewrite Hf.
Qed.

Lemma cleanup_copying w io : copying w -> Forall copying (cleanup_reserved_new w new io).
Proof using LifecycleLaws0.
  intros Hc. unfold cleanup_reserved_new. set (w1 := set_machine w _).
  assert (H1 : copying w1).
  { apply machine_copying; [done|intros; by apply lm_delete_other|]. intros e old He.
    destruct Hc as (_ & _ & Hn). destruct (lm_delete_own new (ci_times io) (ci_cleanup_delete io) (w_machine w)) as [E|E];
      rewrite E in He; [by apply Hn|done]. }
  apply Forall_cons; split; [done|]. apply Forall_cons; split; [|constructor].
  unfold unlink. destruct (ci_cleanup_unlink io); cbn [fst]; [|done].
  apply files_copying; [done|]. intros s Hs. by apply lookup_delete_ne.
Qed.

Lemma seal_copying w meta times io c r :
  copying w -> lm_seal new meta (Some id) (Some (live_membership objs)) times io (w_machine w) = (c, r) ->
  copying (set_machine w c) /\
  (r = Ok () -> on_disk (set_machine w c) new = true /\
     exists e, lm_entry c new = Some e /\ le_contained_objects e = Some (live_membership objs) /\ le_repacked_from e = Some id).
Proof using LifecycleLaws0.
  intros Hc E. pose proof (lm_seal_ok new meta (Some id) (Some (live_membership objs)) times io (w_machine w)) as Hok.
  pose proof (lm_seal_err new meta (Some id) (Some (live_membership objs)) times io (w_machine w)) as Herr.
  pose proof (fun s => lm_seal_other new meta (Some id) (Some (live_membership objs)) times io (w_machine w) s) as Hoth.
  rewrite E in Hok, Herr, Hoth. cbn [fst snd] in *. split.
  - apply machine_copying; [done|done|]. intros e old He Hr. destruct r as [[]|x|].
    + destruct (Hok eq_refl) as (e' & He' & _ & _ & Hr' & Hco'). rewrite He' in He. injection He as <-.
      rewrite Hr' in Hr. injection Hr as <-. by rewrite Hco'.
    + destruct Hc as (_ & _ & Hn). rewrite Herr in He by done. by apply Hn.
    + destruct Hc as (_ & _ & Hn). rewrite Herr in He by done. by apply Hn.
  - intros ->. destruct (Hok eq_refl) as (e & He & Hst & Hfl & Hr & Hco). split; [|by exists e].
    unfold on_disk. cbn [set_machine w_machine]. by rewrite He, Hst, Hfl.
Qed.

Lemma move_rows_moved w remap packed io st :
  copying w -> on_disk w new = true -> w_files w !! new = Some packed ->
  (exists e, lm_entry (w_machine w) new = Some e /\ le_contained_objects e = Some (live_membership objs) /\ le_repacked_from e = Some id) ->
  batch_write (w_meta w) io (move_ops id remap objs) = (st, true) -> moved remap packed (set_meta w st).
Proof using Hpre.
  intros (Ho & Ha & _) Hd Hf He E. split_and!; cbn [set_meta w_meta w_machine w_files]; try done.
  - intros rk. pose proof (batch_write_rows (w_meta w) io (move_ops id remap objs)) as R. rewrite E in R. cbn [fst snd] in R.
    rewrite R, Ho, move_ops_rows.
    + destruct (decide _) as [Hin|Hin].
      * apply list_elem_of_fmap in Hin as ([b m] & -> & Hin). cbn [fst snd].
        apply find_live_spec in Hin as (co & _ & _ & _ & Hg & Hr). unfold get_object in Hg. rewrite Hg. cbn. by rewrite Hr.
      * destruct (st_objects (w_meta w0) !! rk) as [m|] eqn:Em; [|done]. cbn. destruct (references id m) eqn:Hr; [|done].
        exfalso. apply Hin. destruct (find_live_complete rk m Em Hr) as (b & Hb & ->). apply list_elem_of_fmap. by exists (b, m).
    + intros [b m] Hin. apply find_live_spec in Hin as (co & _ & _ & _ & Hg & _). exact Hg.
  - intros s H1 H2. by apply Ha.
  - left. apply Ha. intros Eq. by apply (cp_distinct _ _ _ _ _ Hpre).
Qed.

Lemma seal_and_move_safe w meta rp root io :
  copying w -> w_files w !! new = Some (rp_data rp) -> remap_covers (rp_remap rp) (rp_data rp) ->
  Forall safe (seal_and_move w id new meta objs rp root io).1.
Proof using Hpre Hunits LifecycleLaws0.
  intros Hc Hf Hcov. unfold seal_and_move. destruct (lm_seal _ _ _ _ _ _ _) as [c r] eqn:E.
  destruct (seal_copying w _ _ _ c r Hc E) as [H1 Hok].
  assert (Hcl : Forall safe (set_machine w c :: cleanup_reserved_new (set_machine w c) new io)).
  { apply Forall_cons. split; [by apply copying_safe|]. eapply Forall_impl; [by apply cleanup_copying|]. intros w' Hw'. by apply copying_safe. }
  destruct r as [[]|x|]; [|done|done]. destruct (Hok eq_refl) as [Hd He].
  destruct (batch_write _ _ _) as [st ok] eqn:Eb. destruct ok.
  - pose proof (move_rows_moved (set_machine w c) (rp_remap rp) (rp_data rp) (ci_meta io) st H1 Hd Hf He Eb) as Hmv.
    pose proof (remove_old_moved _ _ _ (tier_target_size (sm_size_tier meta)) io Hmv) as Hrm.
    destruct (remove_old _ _ _ _) as [ws r']. cbn [fst] in *. apply Forall_cons. split; [by apply copying_safe|].
    apply Forall_cons. split; [by eapply moved_safe|]. eapply Forall_impl; [exact Hrm|]. intros w' Hw'. by eapply moved_safe.
  - cbn [fst]. apply Forall_cons. split; [by apply copying_safe|]. apply Forall_cons. split; [|constructor]. apply copying_safe.
    destruct H1 as (Ho & Ha & Hn). split_and!; [|done|done]. cbn [set_meta w_meta].
    pose proof (batch_write_rows (w_meta (set_machine w c)) (ci_meta io) (move_ops id (rp_remap rp) objs)) as R.
    rewrite Eb in R. cbn [fst snd] in R. by rewrite R.
Qed.

Lemma repack_covers data rp :
  w_files w0 !! id = Some data -> repack id new data objs = Ok rp -> remap_covers (rp_remap rp) (rp_data rp).
Proof using Hpre.
  intros Hd Hr. destruct (repack_ok id new data objs) as (rp' & Hr' & Hc).
  - intros c (rk & m & Hm & Hin)%find_live_chunk E. by apply (cp_fits _ _ _ _ _ Hpre data rk m).
  - intros c c' (rk & m & Hm & Hin)%find_live_chunk (rk' & m' & Hm' & Hin')%find_live_chunk E Ek.
    by apply (cp_same _ _ _ _ _ Hpre rk m c rk' m' c').
  - rewrite Hr in Hr'. injection Hr' as <-. exists data. split; [done|]. intros rk m c Hm Hin E. apply Hc; [|done].
    apply list_elem_of_bind. assert (Href : references id m = true) by (apply references_spec; eauto).
    destruct (find_live_complete rk m Hm Href) as (b & Hb & _). by exists (b, m).
Qed.

Lemma w0_copying : copying w0.
Proof using Hpre. split_and!; [done|done|]. intros e old He. by rewrite (cp_no_entry _ _ _ _ _ Hpre) in He. Qed.

Lemma compact_segment_safe hash_leaf hash_pair meta io :
  reads_succeed contained (ci_reads io) ->
  Forall safe (w0 :: (compact_segment hash_leaf hash_pair w0 id meta (Some contained) dead new io).1).
Proof using Hpre Hunits LifecycleLaws0.
  intros Hreads. apply Forall_cons. split; [by split|]. unfold compact_segment. rewrite (find_live_reads _ _ _ _ _ Hreads).
  assert (Hnil : objs = [] -> unreferenced w0 id).
  { intros E rk m Hm. destruct (references id m) eqn:Hr; [|done].
    destruct (find_live_complete rk m Hm Hr) as (b & Hb & _). rewrite E in Hb. by apply elem_of_nil in Hb. }
  destruct objs as [|o l] eqn:Eobjs; [by apply remove_old_unreferenced, Hnil|]. rewrite <- Eobjs.
  destruct (w_files w0 !! id) as [data|] eqn:Ed; [|constructor].
  destruct (repack id new data objs) as [rp| |] eqn:Er; [|constructor..].
  destruct (lm_reserve _ _ _ _ _ _ _) as [c r] eqn:E1.
  assert (H1 : copying (set_machine w0 c)).
  { replace c with (lm_reserve new (sm_size_tier meta) (sm_ec_k meta) (sm_ec_m meta) (ci_times io) (ci_reserve io) (w_machine w0)).1
      by (by rewrite E1). apply machine_copying; [apply w0_copying|intros; by apply lm_reserve_other|]. intros e old He Hr.
    destruct (lm_reserve_own _ _ _ _ _ _ _ _ (cp_no_entry _ _ _ _ _ Hpre) He) as [Hno _]. congruence. }
  assert (Hs1 : safe (set_machine w0 c)) by (by apply copying_safe).
  destruct r as [[]|x|]; [|by all_states..].
  destruct (write_file (set_machine w0 c) new (rp_data rp) (ci_write io)) as [w2 ok] eqn:E2.
  assert (H2 : copying w2 /\ (ok = true -> w_files w2 !! new = Some (rp_data rp))).
  { unfold write_file in E2. destruct (ci_write io) as [|[part|]]; injection E2 as <- <-; split; try done.
    - apply files_copying; [done|]. intros s Hs. by apply lookup_insert_ne.
    - intros _. cbn [set_files w_files]. apply lookup_insert_eq.
    - apply files_copying; [done|]. intros s Hs. by apply lookup_insert_ne. }
  destruct H2 as [H2 Hf]. assert (Hs2 : safe w2) by (by apply copying_safe).
  destruct ok.
  - destruct (build _ _ _ _) as [[tree|]| |]; [|by all_states..].
    pose proof (seal_and_move_safe w2 meta rp (mr_hash (mt_root tree)) io H2 (Hf eq_refl) (repack_covers data rp Ed Er)) as Hsm.
    destruct (seal_and_move _ _ _ _ _ _ _ _) as [ws r']. cbn [fst] in *. by apply Forall_cons; split; [|apply Forall_cons].
  - cbn [fst]. apply Forall_cons. split; [done|]. apply Forall_cons. split; [done|].
    eapply Forall_impl; [by apply cleanup_copying|]. intros w' Hw'. by apply copying_safe.
Qed.
End crash_safety.

(** C4: compaction is crash-safe when it runs alone and its metadata reads
    succeed. Take a segment whose membership list names every row that
    references it (the further conditions on the start are [compact_pre] and
    [units_ok]) and a run whose reads of those rows succeed. Whatever other
    effect of the run fails and wherever the run is cut off, every object reads
    as before the run, chunk by chunk, as long as no other request changes the
    rows or segments meanwhile. And when a restart finds the rows and files that
    were left, with a registry that agrees on the segments with the one before
    the crash, membership lists included, then the recovery of incomplete
    compactions, whose own reads succeed, leaves every object readable as
    before, whatever of its own effects fail. This holds for every lifecycle
    machine with the laws above. *)
Theorem compaction_crash_safe {C} `{!LifecycleMachine C, !LifecycleLaws C} hash_leaf hash_pair (w : World C) id new meta
    contained dead io w' w'' read_ok rio rk :
  compact_pre w id new contained dead -> units_ok w -> reads_succeed contained (ci_reads io) ->
  w' ∈ w :: (compact_segment hash_leaf hash_pair w id meta (Some contained) dead new io).1 ->
  restored w' w'' -> (forall b k, read_ok b k = true) ->
  read_row w' rk = read_row w rk /\ read_row (run_recovery read_ok rio w'') rk = read_row w rk.
Proof.
  intros Hpre Hu Hreads Hin Hrest Hok.
  pose proof (compact_segment_safe w id new contained dead Hpre Hu hash_leaf hash_pair meta io Hreads) as Hs.
  rewrite Forall_forall in Hs. destruct (Hs w' Hin) as [Hr Hu']. split; [done|].
  rewrite run_recovery_reads; [|done|by eapply restored_units]. by rewrite (restored_reads w').
Qed.

(** ** A metadata read that fails *)

Lemma find_live_failed st read_ok id contained dead :
  (forall co, co ∈ contained -> read_ok (co_bucket co) (co_key co) = false) -> find_live st read_ok id contained dead = [].
Proof.
  intros Hf. unfold find_live, read_object. induction contained as [|co l IH]; [done|]. cbn [omap list_omap].
  rewrite (Hf co) by left. rewrite IH by (intros co' Hco'; apply Hf; by right). by destruct (decide _).
Qed.

(** a compaction destroys the objects whose rows it cannot read. A metadata read
    that fails is taken for an absent row: when the reads fail the segment looks
    empty, the run deletes it with its file and reports success, and the rows
    that reference it are left without data. *)
Theorem failed_read_destroys_object {C} `{!LifecycleMachine C} hash_leaf hash_pair (w : World C) id new meta contained dead io size
    rk m c :
  (forall co, co ∈ contained -> ci_reads io (co_bucket co) (co_key co) = false) ->
  (compact_segment hash_leaf hash_pair w id meta (Some contained) dead new io).2 = Ok size ->
  st_objects (w_meta w) !! rk = Some m -> c ∈ om_chunks m -> cr_segment_id c = id ->
  exists w', last (compact_segment hash_leaf hash_pair w id meta (Some contained) dead new io).1 = Some w' /\
    read_row w' rk = Some (object_view m, None).
Proof.
  intros Hf Hok Hm Hc Hseg. unfold compact_segment in *. rewrite find_live_failed in * by done.
  unfold remove_old, request_old_deletion, unlink in *. destruct (lm_delete _ _ _ _) as [c1 r].
  assert (G : forall w', w_meta w' = w_meta w -> w_files w' !! id = None -> read_row w' rk = Some (object_view m, None)).
  { intros w' Em Ef. unfold read_row. rewrite Em, Hm. cbn [mbind option_bind]. do 2 f_equal.
    apply mapM_None, Exists_exists. exists c. split; [done|]. unfold read_chunk. rewrite Hseg, Ef. by destruct (on_disk _ _). }
  destruct r as [[]|[]|], (ci_unlink io); try discriminate; (eexists; split; [reflexivity|]; apply G; [done|apply lookup_delete_eq]).
Qed.

(** ** The coordinator is such a machine *)

Section coordinator_machine.
Context (crc32 : bytes -> Z) (serialize : list ContainedObject -> option bytes) (file_size_limit : Z).
Context (shard_for : SegmentId -> Z) (delete_grace : Z).

Definition live_entry (m : Registry) (id : SegmentId) : option LifecycleEntry :=
  e ← m !! id; if decide (le_state e = Deleted) then None else Some e.

Instance coordinator_machine : LifecycleMachine Coordinator := {|
  lm_reserve id tier k m t io c := request_reserve crc32 serialize file_size_limit shard_for id tier k m t.1 t.2 io c;
  lm_seal id meta rp co t io c :=
    request_seal_with_contained crc32 serialize file_size_limit shard_for id meta rp co t.1 t.2 io c;
  lm_delete id t io c := request_delete crc32 serialize file_size_limit shard_for delete_grace id t.1 t.2 io c;
  lm_entry c id := live_entry (co_registry c) id;
  lm_entries c := filter (fun kv => le_state kv.2 <> Deleted) (map_to_list (co_registry c));
  lm_known c now id := bool_decide (is_Some (get id now (co_registry c))) |}.

Lemma live_entry_evict id now m s : live_entry (evict_expired shard_for id now m) s = live_entry m s.
Proof.
  unfold live_entry, evict_expired. rewrite map_lookup_filter. destruct (m !! s) as [e|]; [|done]. cbn [mbind option_bind].
  case_guard as Hg; [done|]. cbn. destruct (decide (le_state e = Deleted)) as [|Hne]; [done|].
  destruct Hg as [_ Hd]. cbn [snd] in Hd. unfold deleted_expired in Hd. by rewrite bool_decide_false in Hd.
Qed.

Lemma live_entry_insert_ne m id e s : s <> id -> live_entry (<[id := e]> m) s = live_entry m s.
Proof. intros Hs. unfold live_entry. by rewrite lookup_insert_ne. Qed.

Lemma durable_transition_spec c valid evt io fold :
  let '(c', r) := durable_transition crc32 serialize file_size_limit c valid evt io fold in
  (co_registry c' = co_registry c /\ r <> Ok ()) \/
  (co_registry c' = (fold (co_registry c)).1 /\ r = (fold (co_registry c)).2).
Proof.
  unfold durable_transition, append_event, finish. destruct valid as [[]|e|]; [|by left..].
  destruct (co_wal c) as [wal|]; [|by left]. destruct (ew_append _ _ _ _ _) as [wal' pos].
  destruct io; [by left..|]. cbn [with_wal co_registry]. destruct (fold (co_registry c)) as [m [[]|e|]]; by right.
Qed.

(** The folds change their own segment only. *)
Lemma reserve_other id meta now m s : s <> id -> live_entry (reserve shard_for id meta now m).1 s = live_entry m s.
Proof.
  intros Hs. unfold reserve. rewrite <- (live_entry_evict id now m s). set (m' := evict_expired _ _ _ _).
  destruct (m' !! id) as [e|]; [destruct (le_state e)|]; cbn [fst]; try done. by apply live_entry_insert_ne.
Qed.

Lemma seal_with_other id meta rp co now m s : s <> id -> live_entry (seal_with shard_for id meta rp co now m).1 s = live_entry m s.
Proof.
  intros Hs. unfold seal_with. rewrite <- (live_entry_evict id now m s). set (m' := evict_expired _ _ _ _).
  destruct (m' !! id) as [e|]; [destruct (le_state e)|]; cbn [fst]; try done. by apply live_entry_insert_ne.
Qed.

Lemma delete_segment_other id now m s : s <> id -> live_entry (delete_segment shard_for delete_grace id now m).1 s = live_entry m s.
Proof.
  intros Hs. unfold delete_segment. rewrite <- (live_entry_evict id now m s). set (m' := evict_expired _ _ _ _).
  destruct (m' !! id) as [e|]; [|done]. destruct (le_state e); try done;
    (destruct (delete_grace =? 0); cbn [fst]; [unfold live_entry; by rewrite lookup_delete_ne|by apply live_entry_insert_ne]).
Qed.

Lemma seal_with_own id meta rp co now m :
  ((seal_with shard_for id meta rp co now m).2 <> Ok () /\ live_entry (seal_with shard_for id meta rp co now m).1 id = live_entry m id) \/
  (seal_with shard_for id meta rp co now m).2 = Ok () /\
  exists e, live_entry (seal_with shard_for id meta rp co now m).1 id = Some e /\ le_state e = Sealed /\ le_in_flight e = None /\
    le_repacked_from e = rp /\ le_contained_objects e = co.
Proof.
  unfold seal_with. rewrite <- (live_entry_evict id now m id). set (m' := evict_expired _ _ _ _).
  destruct (m' !! id) as [e|]; [destruct (le_state e)|]; cbn [fst snd]; [right|by left..].
  unfold live_entry. rewrite lookup_insert_eq. cbn [mbind option_bind]. split; [done|by eexists].
Qed.

Lemma reserve_own id meta now m e :
  live_entry m id = None -> live_entry (reserve shard_for id meta now m).1 id = Some e ->
  le_repacked_from e = None /\ le_state e = Reserved.
Proof.
  unfold reserve. rewrite <- (live_entry_evict id now m id). set (m' := evict_expired _ _ _ _). unfold live_entry.
  destruct (m' !! id) as [e'|] eqn:Em; cbn [mbind option_bind].
  - destruct (decide (le_state e' = Deleted)) as [E|E]; [|done]. intros _. rewrite E. cbn [fst]. rewrite Em. cbn. by rewrite decide_True.
  - intros _. cbn [fst]. rewrite lookup_insert_eq. cbn. by intros [= <-].
Qed.

Lemma delete_segment_own id now m :
  live_entry (delete_segment shard_for delete_grace id now m).1 id = live_entry m id \/
  live_entry (delete_segment shard_for delete_grace id now m).1 id = None.
Proof.
  unfold delete_segment. rewrite <- (live_entry_evict id now m id). set (m' := evict_expired _ _ _ _).
  destruct (m' !! id) as [e|] eqn:Em; [|by left]. unfold live_entry. destruct (le_state e); try (by left);
    (right; destruct (delete_grace =? 0); cbn [fst]; [by rewrite lookup_delete_eq|by rewrite lookup_insert_eq]).
Qed.

Lemma request_reserve_spec id tier k m t1 t2 io c :
  let c' := (request_reserve crc32 serialize file_size_limit shard_for id tier k m t1 t2 io c).1 in
  co_registry c' = co_registry c \/ co_registry c' = (reserve shard_for id (reserved_meta id tier k m) t2 (co_registry c)).1.
Proof.
  unfold request_reserve. pose proof (durable_transition_spec c (validate_reserve id t1 (co_registry c)) (Reserve {| rs_segment_id := id;
    rs_tier := tier; rs_ec_k := k; rs_ec_m := m |}) io (fold_reserve shard_for id (reserved_meta id tier k m) t2)) as H.
  destruct (durable_transition _ _ _ _ _ _ _ _) as [c' r]. cbn [fst]. destruct H as [[H _]|[H _]]; auto.
Qed.

Lemma request_delete_spec id t1 t2 io c :
  let c' := (request_delete crc32 serialize file_size_limit shard_for delete_grace id t1 t2 io c).1 in
  co_registry c' = co_registry c \/ co_registry c' = (delete_segment shard_for delete_grace id t2 (co_registry c)).1.
Proof.
  unfold request_delete. pose proof (durable_transition_spec c (validate_delete id t1 (co_registry c))
    (Delete {| dl_segment_id := id |}) io (fold_delete shard_for delete_grace id t2)) as H.
  destruct (durable_transition _ _ _ _ _ _ _ _) as [c' r]. cbn [fst]. destruct H as [[H _]|[H _]]; auto.
Qed.

Lemma request_seal_spec id meta rp co t1 t2 io c :
  let '(c', r) := request_seal_with_contained crc32 serialize file_size_limit shard_for id meta rp co t1 t2 io c in
  (co_registry c' = co_registry c /\ r <> Ok ()) \/
  (co_registry c' = (seal_with shard_for id meta rp co t2 (co_registry c)).1 /\
   r = (seal_with shard_for id meta rp co t2 (co_registry c)).2).
Proof.
  unfold request_seal_with_contained. destruct (validate_seal _ _ _) as [[]|e|]; [|by left..].
  destruct (check_shape _ _ _ _) as [[]|e|]; [|by left..]. destruct (co_wal c); [|by left].
  destruct (sm_merkle_root meta); [|by left]. apply durable_transition_spec.
Qed.

#[export] Instance coordinator_laws : LifecycleLaws Coordinator.
Proof.
  split; cbn [lm_reserve lm_seal lm_delete lm_entry lm_entries coordinator_machine].
  - intros c id e. rewrite list_elem_of_filter, elem_of_map_to_list. unfold live_entry. cbn [snd].
    destruct (co_registry c !! id) as [e'|]; cbn [mbind option_bind]; [|naive_solver]. destruct (decide _); naive_solver.
  - intros id tier k m t io c s Hs. destruct (request_reserve_spec id tier k m t.1 t.2 io c) as [->| ->]; [done|by apply reserve_other].
  - intros id tier k m t io c e Hn. destruct (request_reserve_spec id tier k m t.1 t.2 io c) as [->| ->]; [congruence|].
    by apply reserve_own.
  - intros id meta rp co t io c s Hs. pose proof (request_seal_spec id meta rp co t.1 t.2 io c) as H.
    destruct (request_seal_with_contained _ _ _ _ _ _ _ _ _ _ _ _) as [c' r]. cbn [fst].
    destruct H as [[-> _]|[-> _]]; [done|by apply seal_with_other].
  - intros id meta rp co t io c. pose proof (request_seal_spec id meta rp co t.1 t.2 io c) as H.
    destruct (request_seal_with_contained _ _ _ _ _ _ _ _ _ _ _ _) as [c' r]. cbn [fst snd]. intros ->.
    destruct H as [[_ H]|[-> H]]; [done|]. by destruct (seal_with_own id meta rp co t.2 (co_registry c)) as [[Hne _]|[_ Hx]].
  - intros id meta rp co t io c. pose proof (request_seal_spec id meta rp co t.1 t.2 io c) as H.
    destruct (request_seal_with_contained _ _ _ _ _ _ _ _ _ _ _ _) as [c' r]. cbn [fst snd]. intros Hr.
    destruct H as [[-> _]|[-> ->]]; [done|]. by destruct (seal_with_own id meta rp co t.2 (co_registry c)) as [[_ E]|[Hx _]].
  - intros id t io c s Hs. destruct (request_delete_spec id t.1 t.2 io c) as [->| ->]; [done|by apply delete_segment_other].
  - intros id t io c. destruct (request_delete_spec id t.1 t.2 io c) as [->| ->]; [by left|by apply delete_segment_own].
Qed.

(** ** A restart from the event log *)

(** The membership lists fit their records, and a sealed segment has no bytes
    in flight. *)
Definition registry_kept (m : Registry) : Prop :=
  forall id e, m !! id = Some e ->
    kept_membership serialize (le_contained_objects e) = le_contained_objects e /\ (le_state e = Sealed -> le_in_flight e = None).

(** A registry rebuilt from the log, which agrees on the durable part of each
    entry, is one that [compaction_crash_safe] asks for. *)
Lemma rebuilt_restored (w : World Coordinator) c :
  views_agree serialize (co_registry (w_machine w)) (co_registry c) ->
  registry_kept (co_registry (w_machine w)) -> registry_kept (co_registry c) -> restored w (set_machine w c).
Proof.
  intros Hv Hk Hk'. split_and!; [done..|]. intros id. cbn [lm_entry coordinator_machine set_machine w_machine].
  unfold live_entry. pose proof (views_agree_lookup serialize _ _ id Hv) as Hid.
  destruct (co_registry (w_machine w) !! id) as [e|] eqn:E, (co_registry c !! id) as [e'|] eqn:E'; try done. cbn [mbind option_bind].
  destruct (Hk id e E) as [Hco Hfl], (Hk' id e' E') as [Hco' Hfl']. injection Hid as Est _ _ _ _ _ _ Erp Eco.
  rewrite <- Est in *. destruct (decide (le_state e = Deleted)); [done|]. cbn. f_equal. unfold entry_view.
  rewrite <- Est, <- Erp, <- Hco, <- Hco', <- Eco. f_equal. destruct (decide (le_state e = Sealed)) as [Es|Es].
  - by rewrite Hfl, Hfl'.
  - by rewrite (bool_decide_eq_false_2 (le_state e = Sealed)).
Qed.

(** ** A restart from a checkpoint *)

(** The registry a restart seeds from the checkpoint that was written at [t] and
    loaded at [t'], when no event follows it. *)
Definition restart_from_checkpoint (t t' now : Z) (w : World Coordinator) : World Coordinator :=
  set_machine w (with_registry (w_machine w)
    (seed_from_checkpoint shard_for (snapshot_entry t' <$> live t (co_registry (w_machine w))) now ∅)).

Lemma restart_entry t t' now w id e :
  co_registry (w_machine w) !! id = Some e -> le_state e = Sealed ->
  exists e', lm_entry (w_machine (restart_from_checkpoint t t' now w)) id = Some e' /\
    le_repacked_from e' = le_repacked_from e.
Proof.
  intros He Hs. cbn [lm_entry coordinator_machine restart_from_checkpoint set_machine w_machine with_registry co_registry].
  unfold live_entry. rewrite seed_into_empty, lookup_fmap.
  assert (Hl : live now (snapshot_entry t' <$> live t (co_registry (w_machine w))) !! id = Some (snapshot_entry t' e)).
  { apply live_lookup. rewrite lookup_fmap. assert (H : live t (co_registry (w_machine w)) !! id = Some e)
      by (apply live_lookup; split; [done|congruence]). rewrite H. split; [done|]. apply snapshot_entry_live. congruence. }
  rewrite Hl. cbn [fmap option_fmap option_map mbind option_bind seeded le_state].
  eexists. split; [rewrite decide_False; [done|]|]; unfold snapshot_entry; by rewrite Hs.
Qed.

Lemma restart_no_membership t t' now w id e :
  lm_entry (w_machine (restart_from_checkpoint t t' now w)) id = Some e -> le_contained_objects e = None.
Proof.
  cbn [lm_entry coordinator_machine restart_from_checkpoint set_machine w_machine with_registry co_registry].
  unfold live_entry. rewrite seed_into_empty, lookup_fmap.
  destruct (live now _ !! id) as [e0|]; cbn [fmap option_fmap option_map mbind option_bind]; [|done].
  destruct (decide _); [done|]. by intros [= <-].
Qed.

Lemma recovery_unlinks rnow times dio l (w : World Coordinator) new :
  SweepNewOrphan new ∈ l \/ w_files w !! new = None -> is_Some (lm_entry (w_machine w) new) \/ w_files w !! new = None ->
  w_files (foldl (apply_action (rnow, times, dio, true)) w l) !! new = None.
Proof.
  revert w. induction l as [|a l IH]; intros w Hin Hw; cbn [foldl].
  { destruct Hin as [Hin|Hin]; [by apply elem_of_nil in Hin|done]. }
  assert (Hstep : forall w, w_files w !! new = None -> w_files (apply_action (rnow, times, dio, true) w a) !! new = None).
  { intros w1 H1. unfold apply_action. set (w2 := match a with SweepOldDat _ => w1 | _ => _ end).
    assert (E : w_files w2 = w_files w1) by (unfold w2; by destruct a). destruct (lm_known _ _ _); [|by rewrite E].
    unfold unlink, set_files. cbn [fst w_files]. rewrite E. apply lookup_delete_None. by right. }
  destruct (decide (w_files w !! new = None)) as [Hn|Hn]; [by apply IH; right; apply Hstep|].
  destruct Hw as [[e He]|]; [|done]. destruct Hin as [Hin|]; [|done].
  destruct (decide (action_id a = new)) as [E|E].
  - assert (Hd : w_files (apply_action (rnow, times, dio, true) w a) !! new = None); [|by apply IH; right].
    unfold apply_action. rewrite E. assert (Hk : lm_known (w_machine w) rnow new = true).
    { cbn [lm_known lm_entry coordinator_machine] in *. apply bool_decide_eq_true. unfold live_entry in He. unfold get, deleted_expired.
      destruct (co_registry (w_machine w) !! new) as [e'|]; [|done]. cbn [mbind option_bind] in *.
      destruct (decide (le_state e' = Deleted)) as [|Hne]; [done|]. by rewrite bool_decide_false. }
    rewrite Hk. unfold unlink, set_files. cbn [fst w_files]. apply lookup_delete_eq.
  - destruct (apply_action_other (rnow, times, dio, true) w a new (not_eq_sym E)) as [[E1 E2] _].
    apply IH; left; [|by rewrite E1, He]. by apply elem_of_cons in Hin as [<-|Hin].
Qed.

(** a restart from a checkpoint destroys compacted segments. The checkpoint
    brings back the marker of a compacted segment but not its membership list,
    and the recovery takes a marked segment without a list for an orphan: it
    deletes the segment and its file although live rows reference it. *)
Theorem checkpoint_restart_destroys_compacted t t' now (w : World Coordinator) new e old rk m c read_ok rnow times dio :
  co_registry (w_machine w) !! new = Some e -> le_state e = Sealed -> le_repacked_from e = Some old ->
  st_objects (w_meta w) !! rk = Some m -> c ∈ om_chunks m -> cr_segment_id c = new ->
  let w' := restart_from_checkpoint t t' now w in
  SweepNewOrphan new ∈ recover_incomplete_compactions read_ok w' /\
  read_row (run_recovery read_ok (rnow, times, dio, true) w') rk = Some (object_view m, None).
Proof.
  intros He Hs Hr Hm Hc Hseg w'. destruct (restart_entry t t' now w new e He Hs) as (e' & He' & Hr'). fold w' in He'.
  assert (Hin : SweepNewOrphan new ∈ recover_incomplete_compactions read_ok w').
  { unfold recover_incomplete_compactions. apply list_elem_of_bind. exists (new, e'). cbn [fst snd].
    split; [|by apply lm_entries_spec]. rewrite Hr', Hr. unfold unit_action, is_referenced.
    rewrite He', (restart_no_membership t t' now w new e' He'). left. }
  split; [done|].
  assert (Hf : w_files (run_recovery read_ok (rnow, times, dio, true) w') !! new = None)
    by (apply recovery_unlinks; left; [done|by rewrite He']).
  assert (Ho : st_objects (w_meta (run_recovery read_ok (rnow, times, dio, true) w')) = st_objects (w_meta w)).
  { unfold run_recovery. change (st_objects (w_meta w)) with (st_objects (w_meta w')). generalize (recover_incomplete_compactions read_ok w').
    intros l. generalize w'. induction l as [|a l IH]; intros w1; [done|]. cbn [foldl]. rewrite IH.
    destruct (apply_action_other (rnow, times, dio, true) w1 a (x00 :: action_id a)) as [_ E]; [|done].
    intros E. apply (f_equal length) in E. cbn in E. lia. }
  unfold read_row. rewrite Ho, Hm. cbn [mbind option_bind]. do 2 f_equal. apply mapM_None, Exists_exists. exists c. split; [done|].
  unfold read_chunk. rewrite Hseg, Hf. by destruct (on_disk _ _).
Qed.
End coordinator_machine.

(** ** A write during the compaction *)

Lemma move_ops_own (id : SegmentId) (remap : gmap chunk_key ChunkRef) (objs : list (bytes * ObjectMetadata))
    (o : gmap bytes ObjectMetadata) (d : gmap bytes Tombstone) b m :
  (b, m) ∈ objs ->
  (forall b' m', (b', m') ∈ objs -> encode_object_key b' (om_object_key m') = encode_object_key b (om_object_key m) -> m' = m) ->
  (foldl batch_apply (o, d) (move_ops id remap objs)).1 !! encode_object_key b (om_object_key m) = Some (move_object id remap m).
Proof.
  induction objs as [|[b1 m1] objs IH] using rev_ind; intros Hin Hun; [by apply elem_of_nil in Hin|].
  unfold move_ops. rewrite fmap_app, foldl_app. cbn [fmap list_fmap foldl batch_apply fst snd]. fold (move_ops id remap objs).
  destruct (decide (encode_object_key b1 (om_object_key m1) = encode_object_key b (om_object_key m))) as [E|E].
  - rewrite E, lookup_insert_eq. do 2 f_equal. apply (Hun b1 m1); [|done]. apply elem_of_app. right. left.
  - rewrite lookup_insert_ne by done. apply elem_of_app in Hin as [Hin|Hin].
    + apply IH; [done|]. intros b' m' H'. apply Hun. apply elem_of_app. by left.
    + apply list_elem_of_singleton in Hin. by injection Hin as -> ->.
Qed.

(** a compaction can undo a write. The rows are read when the compaction
    starts and written back when it moves them, without looking again: a newer
    version that a client stored in between is replaced by the older one. *)
Theorem compaction_undoes_put st read_ok id contained dead b m0 m1 remap now io :
  (b, m0) ∈ find_live st read_ok id contained dead ->
  (forall co m, co ∈ contained -> get_object st (co_bucket co) (co_key co) = Some m -> om_object_key m = co_key co) ->
  om_object_key m1 = om_object_key m0 -> hlc_lt (om_hlc m0) (om_hlc m1) -> io = Committed ->
  let st1 := (put_object_in_bucket st Committed now b m1).1 in
  let st2 := (batch_write st1 io (move_ops id remap (find_live st read_ok id contained dead))).1 in
  get_object st1 b (om_object_key m0) = Some m1 /\
  get_object st2 b (om_object_key m0) = Some (move_object id remap m0) /\
  om_hlc (move_object id remap m0) = om_hlc m0.
Proof.
  intros Hin Hkeys Hk Hlt -> st1 st2. split_and!; [..|done].
  - unfold st1, put_object_in_bucket, get_object. cbn [commit fst st_objects]. rewrite Hk. apply lookup_insert_eq.
  - unfold st2, get_object. rewrite batch_write_rows.
    replace (batch_write st1 Committed _).2 with true
      by (unfold batch_write; destruct (foldl _ _ _); by destruct (concat _)).
    assert (Hrow : forall b m, (b, m) ∈ find_live st read_ok id contained dead -> get_object st b (om_object_key m) = Some m).
    { intros b' m' (co & Hco & Hx)%list_elem_of_omap. destruct (decide _); [done|].
      unfold read_object in Hx. destruct (read_ok _ _); [|done].
      destruct (get_object _ _ _) as [obj|] eqn:Hg; [|done]. destruct (references id obj); [|done].
      injection Hx as <- <-. by rewrite (Hkeys co obj Hco Hg). }
    apply move_ops_own; [done|]. intros b' m' Hin' E. apply Hrow in Hin, Hin'. unfold get_object in *. rewrite E in Hin'. congruence.
Qed.

(** ** Examples *)

Definition sample_machine : LifecycleMachine Coordinator := coordinator_machine toy_crc toy_serialize 1000000 one_shard 0.

Definition sample_world : World Coordinator :=
  {| w_meta := sample_store;
     w_machine := {| co_registry := sample_segment; co_wal := Some fresh_wal; co_last_folded := 0 |};
     w_files := {[ to_le 16 5 := [x61; x62; x63] ]} |}.

Definition sample_contained : list ContainedObject := [ {| co_bucket := [x62]; co_key := [x6b] |} ].

Definition reads_ok : bytes -> bytes -> bool := fun _ _ => true.

Definition sample_io : compact_io :=
  {| ci_times := (1, 2); ci_now := 3; ci_reads := reads_ok; ci_reserve := Durable; ci_write := Written; ci_seal := Durable;
     ci_cleanup_delete := Durable; ci_cleanup_unlink := true; ci_meta := Committed; ci_delete := Durable; ci_unlink := true |}.

(** A stand-in for the hash, of the hash's size. *)
Definition pad_hash (d : bytes) : bytes := take 32 (d ++ replicate 32 x00).

Definition sample_run : list (World Coordinator) * outcome CompactError Z :=
  compact_segment (LifecycleMachine0 := sample_machine) pad_hash (fun a b => pad_hash (a ++ b)) sample_world (to_le 16 5)
    (reserved_meta (to_le 16 5) Standard x04 x02) (Some sample_contained) ∅ (to_le 16 7) sample_io.

Definition sample_last : World Coordinator := default sample_world (last sample_run.1).

Lemma sample_run_complete : sample_run.2 = Ok 4194304 /\ length sample_run.1 = 6%nat.
Proof. vm_compute. done. Qed.

Lemma sample_segment_lookup id e : sample_segment !! id = Some e -> id = to_le 16 5 /\ le_repacked_from e = None.
Proof. unfold sample_segment. intros [-> <-]%lookup_singleton_Some. done. Qed.

Lemma sample_world_entry id e : lm_entry (LifecycleMachine := sample_machine) (w_machine sample_world) id = Some e -> sample_segment !! id = Some e.
Proof.
  cbn [lm_entry sample_machine coordinator_machine sample_world w_machine co_registry]. unfold live_entry.
  destruct (sample_segment !! id) as [e'|]; [|done]. cbn [mbind option_bind]. destruct (decide _); [done|]. by intros [= <-].
Qed.

Lemma sample_world_pre : compact_pre (LifecycleMachine0 := sample_machine) sample_world (to_le 16 5) (to_le 16 7) sample_contained ∅.
Proof.
  split.
  - vm_compute. congruence.
  - intros rk m Hm. apply sample_store_rows in Hm as [_ ->]. vm_compute. reflexivity.
  - vm_compute. reflexivity.
  - intros s e He. apply sample_world_entry, sample_segment_lookup in He as [_ Hr]. by rewrite Hr.
  - vm_compute. reflexivity.
  - intros rk m Hm _. apply sample_store_rows in Hm as [-> _]. eexists. split; [left|]. split; [done|set_solver].
  - intros co m Hco Hg. apply list_elem_of_singleton in Hco as ->. apply sample_store_rows in Hg as [_ ->]. done.
  - intros data rk m c Hd Hm Hc _. vm_compute in Hd. injection Hd as <-. apply sample_store_rows in Hm as [_ ->].
    apply list_elem_of_singleton in Hc as ->. vm_compute. repeat split; congruence.
  - intros rk m c rk' m' c' Hm Hc Hm' Hc' _ _. apply sample_store_rows in Hm as [_ ->], Hm' as [_ ->].
    apply list_elem_of_singleton in Hc as ->, Hc' as ->. done.
Qed.

(** The registry a restart rebuilds from the event log of the run. *)
Definition sample_rebuilt : Registry :=
  match co_wal (w_machine sample_last) with
  | Some w =>
      match read_events toy_crc toy_deserialize (ew_disk w) (read_fuel (ew_disk w)) (read_from {| ep_file_seq := 0; ep_offset := 0 |}) with
      | Some (log, None, _) =>
          match rebuild_from_events one_shard 0 ((fun x => (77, x)) <$> log) None sample_segment with Ok (m, _) => m | _ => ∅ end
      | _ => ∅
      end
  | None => ∅
  end.

Definition sample_restart : World Coordinator := set_machine sample_last (with_registry (w_machine sample_last) sample_rebuilt).

Definition entry_keptb (e : LifecycleEntry) : bool :=
  bool_decide (kept_membership toy_serialize (le_contained_objects e) = le_contained_objects e) && bool_decide (le_in_flight e = None).

Lemma registry_kept_check m : forallb (fun kv => entry_keptb kv.2) (map_to_list m) = true -> registry_kept toy_serialize m.
Proof.
  intros H id e He. apply elem_of_map_to_list, list_elem_of_In in He. rewrite forallb_forall in H. specialize (H _ He).
  apply andb_true_iff in H as [H1 H2]. apply bool_decide_eq_true in H1, H2. by split.
Qed.

Lemma sample_restart_restored : restored (LifecycleMachine0 := sample_machine) sample_last sample_restart.
Proof.
  apply rebuilt_restored; [|apply registry_kept_check; vm_compute; reflexivity..].
  intros id. rewrite <- !lookup_fmap. apply (f_equal (.!! id)). vm_compute. reflexivity.
Qed.

(** The rebuilt registry is another one. *)
Lemma sample_rebuilt_differs : (le_evict_at <$> sample_rebuilt) !! to_le 16 7 = Some 77 /\
  (le_evict_at <$> co_registry (w_machine sample_last)) !! to_le 16 7 = Some 2.
Proof. vm_compute. done. Qed.

Lemma compaction_crash_safe_witness :
  read_row (LifecycleMachine0 := sample_machine) sample_last (encode_object_key [x62] [x6b])
  = read_row (LifecycleMachine0 := sample_machine) sample_world (encode_object_key [x62] [x6b]) /\
  read_row (LifecycleMachine0 := sample_machine)
    (run_recovery (LifecycleMachine0 := sample_machine) reads_ok (9, (9, 9), Durable, true) sample_restart) (encode_object_key [x62] [x6b])
  = read_row (LifecycleMachine0 := sample_machine) sample_world (encode_object_key [x62] [x6b]).
Proof.
  apply (compaction_crash_safe (LifecycleMachine0 := sample_machine) pad_hash (fun a b => pad_hash (a ++ b)) sample_world (to_le 16 5) (to_le 16 7)
    (reserved_meta (to_le 16 5) Standard x04 x02) sample_contained ∅ sample_io sample_last sample_restart).
  - apply sample_world_pre.
  - intros new e old He Hr. apply sample_world_entry, sample_segment_lookup in He as [_ Hn]. congruence.
  - by intros co _.
  - change (sample_last ∈ sample_world :: sample_run.1). right. unfold sample_last.
    assert (E : (if last sample_run.1 then true else false) = true) by (vm_compute; reflexivity).
    destruct (last sample_run.1) eqn:El; [by apply last_Some_elem_of|done].
  - apply sample_restart_restored.
  - done.
Defined.

Definition unread_io : compact_io :=
  {| ci_times := (1, 2); ci_now := 3; ci_reads := fun _ _ => false; ci_reserve := Durable; ci_write := Written; ci_seal := Durable;
     ci_cleanup_delete := Durable; ci_cleanup_unlink := true; ci_meta := Committed; ci_delete := Durable; ci_unlink := true |}.

Lemma failed_read_destroys_object_witness :
  exists w', last (compact_segment (LifecycleMachine0 := sample_machine) pad_hash (fun a b => pad_hash (a ++ b)) sample_world (to_le 16 5)
      (reserved_meta (to_le 16 5) Standard x04 x02) (Some sample_contained) ∅ (to_le 16 7) unread_io).1 = Some w' /\
    read_row (LifecycleMachine0 := sample_machine) w' (encode_object_key [x62] [x6b]) = Some (object_view (sample_row 5), None).
Proof.
  apply (failed_read_destroys_object pad_hash (fun a b => pad_hash (a ++ b)) sample_world (to_le 16 5) (to_le 16 7)
    (reserved_meta (to_le 16 5) Standard x04 x02) sample_contained ∅ unread_io 4194304 _ _ (sample_chunk 5));
    [done|vm_compute; reflexivity..|left|vm_compute; reflexivity].
Defined.

(** A world in which the object's segment came out of a compaction. *)
Definition compacted_entry : LifecycleEntry :=
  {| le_state := Sealed; le_metadata := reserved_meta (to_le 16 5) Standard x04 x02; le_data_wal_pos := None;
     le_repacked_from := Some (to_le 16 4); le_contained_objects := Some sample_contained; le_evict_at := 0;
     le_in_flight := None; le_seal_queued := false; le_writer_count := 0 |}.

Definition compacted_world : World Coordinator :=
  {| w_meta := sample_store;
     w_machine := {| co_registry := {[ to_le 16 5 := compacted_entry ]}; co_wal := Some fresh_wal; co_last_folded := 0 |};
     w_files := {[ to_le 16 5 := [x61; x62; x63] ]} |}.

Lemma checkpoint_restart_destroys_compacted_witness :
  read_row (LifecycleMachine0 := sample_machine) compacted_world (encode_object_key [x62] [x6b])
    = Some (object_view (sample_row 5), Some [([x61; x62; x63], false, 3)]) /\
  let w' := restart_from_checkpoint one_shard 1 2 3 compacted_world in
  SweepNewOrphan (to_le 16 5) ∈ recover_incomplete_compactions (LifecycleMachine0 := sample_machine) reads_ok w' /\
  read_row (LifecycleMachine0 := sample_machine)
    (run_recovery (LifecycleMachine0 := sample_machine) reads_ok (9, (9, 9), Durable, true) w') (encode_object_key [x62] [x6b])
    = Some (object_view (sample_row 5), None).
Proof.
  split; [vm_compute; reflexivity|].
  apply (checkpoint_restart_destroys_compacted toy_crc toy_serialize 1000000 one_shard 0 1 2 3 compacted_world (to_le 16 5)
    compacted_entry (to_le 16 4) (encode_object_key [x62] [x6b]) (sample_row 5) (sample_chunk 5));
    try (vm_compute; reflexivity). left.
Defined.

Lemma compaction_undoes_put_witness :
  let objs := find_live sample_store reads_ok (to_le 16 5) sample_contained ∅ in
  let st1 := (put_object_in_bucket sample_store Committed 8 [x62] (sample_row 9)).1 in
  let st2 := (batch_write st1 Committed (move_ops (to_le 16 5) ∅ objs)).1 in
  get_object st1 [x62] [x6b] = Some (sample_row 9) /\
  get_object st2 [x62] [x6b] = Some (move_object (to_le 16 5) ∅ (sample_row 5)) /\
  om_hlc (move_object (to_le 16 5) ∅ (sample_row 5)) = om_hlc (sample_row 5).
Proof.
  apply (compaction_undoes_put sample_store reads_ok (to_le 16 5) sample_contained ∅ [x62] (sample_row 5) (sample_row 9) ∅ 8 Committed);
    try reflexivity.
  - vm_compute. left.
  - intros co m Hco Hg. apply list_elem_of_singleton in Hco as ->. apply sample_store_rows in Hg as [_ ->]. done.
Defined.
