(* ===== verification/Journal.v ===== *)
(** * The metadata change journal (crates/oceanfs-storage/src/metadata/journal.rs)

    The segment files of the journal with their header and record framing, the
    manifest, [append_batch] with its rotation, the bounded read [read_range],
    retention, and recovery at [open] (torn tail, power-loss hole, new epoch).
    The directory maps file numbers to bytes in ascending order, next to the
    bytes of the manifest; an append is one flush of its own batch, whose
    outcome the caller chooses, since the group commit only merges the batches
    of concurrent callers. CRC-32 is the argument [crc32], the random epoch and
    the clock are arguments of the operations that draw them. *)

From Stdlib Require Import ZArith Lia Strings.Byte.
From stdpp Require Import base list.
From S2P Require Import Prelude Hlc WalPos EventWal MetaStore.

Set Default Proof Using "Type".
Local Open Scope Z_scope.

(** ** Constants and records *)

Definition SEGMENT_TARGET_BYTES : Z := 64 * 1024 * 1024.
Definition CHECKPOINT_INTERVAL : Z := 256.
Definition MAX_JOURNAL_KEY_BYTES : Z := 4096.
Definition MAGIC : bytes := [x4f; x46; x53; x4d; x4a; x52; x4e; x31].
Definition VERSION : Z := 1.
Definition MANIFEST_MAGIC : bytes := [x4f; x46; x53; x4d; x4d; x41; x4e; x31].
Definition MANIFEST_VERSION : Z := 1.

Definition op_as_u8 (op : JournalOp) : byte :=
  match op with JPut => x01 | JDelete => x02 end.

Definition op_from_u8 (value : byte) : option JournalOp :=
  match value with x01 => Some JPut | x02 => Some JDelete | _ => None end.

Record JournalEntry := { je_seq : Z; je_op : JournalOp; je_key : bytes; je_hlc : Hlc }.

Inductive JournalRead :=
  | Entries (entries : list JournalEntry) (next_seq : Z)
  | Gap (oldest_seq : Z).

Inductive JournalError :=
  | KeyTooLong | JournalFailed | JournalIo | CorruptRecord (file_no : Z) | BadHeader
  | EpochMismatch | NonMonotonic.

Record TrimReport := {
  tr_segments_removed : Z; tr_bytes_removed : Z; tr_base_seq : Z; tr_cap_forced : bool }.

Record FileMeta := {
  fm_no : Z; fm_first : option Z; fm_last : option Z; fm_size : Z; fm_modified : option Z }.

Record Checkpoint := { cp_seq : Z; cp_file : Z; cp_offset : Z }.

Record Manifest := {
  mf_epoch : bytes; mf_base_seq : Z; mf_gap_floor : Z; mf_active : Z; mf_generation : Z }.

(** The directory: the [.jrn] files and the manifest. *)
Record Dir := { d_files : Disk; d_manifest : option bytes }.

Record Journal := {
  j_node : NodeId; j_epoch : bytes; j_target : Z;
  j_active : Z; j_active_size : Z; j_synced : Z; j_next : Z; j_failed : bool;
  j_files : list FileMeta; j_checkpoints : list Checkpoint;
  j_gap_floor : Z; j_generation : Z }.

Definition u64_succ (x : Z) : Z := wrap64 (x + 1).
Definition u64_pred (x : Z) : Z := wrap64 (x - 1).

(** ** Framing *)

Definition record_payload (e : JournalEntry) : bytes :=
  to_le 8 (je_seq e) ++ [op_as_u8 (je_op e)] ++ to_le 4 (Z.of_nat (length (je_key e)))
  ++ je_key e ++ to_le 8 (wall_time (je_hlc e)) ++ to_le 4 (logical (je_hlc e)).

Inductive decoded :=
  | Incomplete
  | BadRecord
  | Decoded (e : JournalEntry) (consumed : nat).

Section framing.
Context (crc32 : bytes -> Z).

Definition encode_record (e : JournalEntry) : bytes :=
  to_le 4 (8 + 1 + 4 + Z.of_nat (length (je_key e)) + 8 + 4)
  ++ record_payload e ++ to_le 4 (crc32 (record_payload e)).

Definition decode_record (buf : bytes) : decoded :=
  if (length buf <? 8)%nat then Incomplete else
  let payload_len := from_le (field buf 0 4) in
  if Z.of_nat (length buf) <? 4 + payload_len + 4 then Incomplete else
  let payload_len := Z.to_nat payload_len in
  let total := (4 + payload_len + 4)%nat in
  let payload := field buf 4 (4 + payload_len) in
  let stored_crc := from_le (field buf (4 + payload_len) total) in
  if negb (crc32 payload =? stored_crc) then BadRecord else
  if (length payload <? 17)%nat then BadRecord else
  let seq := from_le (field payload 0 8) in
  match op_from_u8 (default x00 (payload !! 8%nat)) with
  | None => BadRecord
  | Some op =>
      let key_len := from_le (field payload 9 13) in
      if MAX_JOURNAL_KEY_BYTES <? key_len then BadRecord else
      let key_len := Z.to_nat key_len in
      if (length payload <? 13 + key_len + 12)%nat then BadRecord else
      let offset := (13 + key_len)%nat in
      Decoded {| je_seq := seq; je_op := op; je_key := field payload 13 (13 + key_len);
                 je_hlc := {| wall_time := from_le (field payload offset (offset + 8));
                              logical := from_le (field payload (offset + 8) (offset + 12)) |} |}
        total
  end.

(** ** Segment header and manifest *)

Definition segment_header_body (node_id : NodeId) (epoch : bytes) (first_seq : Z) : bytes :=
  MAGIC ++ to_le 4 VERSION ++ to_le 2 (wrap16 (Z.of_nat (length node_id))) ++ node_id ++ epoch
  ++ to_le 8 first_seq ++ to_le 8 0.

Definition encode_segment_header (node_id : NodeId) (epoch : bytes) (first_seq : Z) : bytes :=
  let out := segment_header_body node_id epoch first_seq in
  out ++ to_le 4 (crc32 out).

(** [parse_segment_header]: the epoch and the length of the header. *)
Definition parse_segment_header (buf : bytes) : option (bytes * nat) :=
  if (length buf <? 14)%nat || negb (bool_decide (field buf 0 8 = MAGIC)) then None else
  if negb (from_le (field buf 8 12) =? VERSION) then None else
  let id_len := Z.to_nat (from_le (field buf 12 14)) in
  let fixed := (8 + 4 + 2 + id_len + 16 + 8 + 8 + 4)%nat in
  if (length buf <? fixed)%nat then None else
  let stored_crc := from_le (field buf (fixed - 4) fixed) in
  if negb (crc32 (take (fixed - 4) buf) =? stored_crc) then None else
  Some (field buf (14 + id_len) (30 + id_len), fixed).

(** [segment_header_len]: reads exactly the header and compares its epoch. *)
Definition segment_header_len (content epoch : bytes) : JournalError + nat :=
  if (length content <? 14)%nat then inl JournalIo else
  let id_len := Z.to_nat (from_le (field content 12 14)) in
  let fixed := (8 + 4 + 2 + id_len + 16 + 8 + 8 + 4)%nat in
  if (length content <? fixed)%nat then inl JournalIo else
  match parse_segment_header (take fixed content) with
  | None => inl BadHeader
  | Some (e, total_len) => if bool_decide (e = epoch) then inr total_len else inl EpochMismatch
  end.

Definition manifest_body (m : Manifest) : bytes :=
  MANIFEST_MAGIC ++ to_le 4 MANIFEST_VERSION ++ to_le 8 (mf_generation m) ++ mf_epoch m
  ++ to_le 8 (mf_base_seq m) ++ to_le 8 (mf_gap_floor m) ++ to_le 8 (mf_active m).

Definition write_manifest (d : Dir) (m : Manifest) : Dir :=
  {| d_files := d_files d; d_manifest := Some (manifest_body m ++ to_le 4 (crc32 (manifest_body m))) |}.

Definition read_manifest (d : Dir) : option Manifest :=
  match d_manifest d with
  | None => None
  | Some bs =>
      if (length bs <? 64)%nat || negb (bool_decide (field bs 0 8 = MANIFEST_MAGIC)) then None else
      let n := length bs in
      if negb (crc32 (take (n - 4) bs) =? from_le (field bs (n - 4) n)) then None else
      Some {| mf_epoch := field bs 20 36; mf_base_seq := from_le (field bs 36 44);
              mf_gap_floor := from_le (field bs 44 52); mf_active := from_le (field bs 52 60);
              mf_generation := from_le (field bs 12 20) |}
  end.

(** ** The open journal *)

Definition write_manifest_now (j : Journal) (d : Dir) (base_seq active_file : Z) : Journal * Dir :=
  let generation := u64_succ (j_generation j) in
  ({| j_node := j_node j; j_epoch := j_epoch j; j_target := j_target j; j_active := j_active j;
      j_active_size := j_active_size j; j_synced := j_synced j; j_next := j_next j;
      j_failed := j_failed j; j_files := j_files j; j_checkpoints := j_checkpoints j;
      j_gap_floor := j_gap_floor j; j_generation := generation |},
   write_manifest d {| mf_epoch := j_epoch j; mf_base_seq := base_seq;
                       mf_gap_floor := j_gap_floor j; mf_active := active_file;
                       mf_generation := generation |}).

Definition oldest_seq (j : Journal) : Z :=
  let physical_floor :=
    match j_files j with
    | f :: _ => match fm_first f with Some first => saturating_sub first 1 | None => 0 end
    | [] => 0
    end in
  Z.max physical_floor (j_gap_floor j).

Definition last_seq (j : Journal) : Z := u64_pred (j_next j).

Definition on_disk_bytes (j : Journal) : Z := foldr Z.add 0 (fm_size <$> j_files j).

(** [sort_by_key] on the checkpoints: a stable insertion. *)
Fixpoint insert_checkpoint (cp : Checkpoint) (cps : list Checkpoint) : list Checkpoint :=
  match cps with
  | [] => [cp]
  | c :: cps => if cp_seq c <=? cp_seq cp then c :: insert_checkpoint cp cps else cp :: c :: cps
  end.

(** [rotate_locked] with no record pending, as it is after a flush of every
    batch appended so far. *)
Definition rotate_locked (j : Journal) (d : Dir) (now : Z) : Journal * Dir :=
  let new_no := u64_succ (j_active j) in
  let first_seq := j_next j in
  let header := encode_segment_header (j_node j) (j_epoch j) first_seq in
  let size := Z.of_nat (length header) in
  let d := {| d_files := file_put (d_files d) new_no header; d_manifest := d_manifest d |} in
  let files := filter (fun f => fm_no f <> new_no) (j_files j)
    ++ [{| fm_no := new_no; fm_first := Some first_seq; fm_last := None; fm_size := size;
           fm_modified := Some now |}] in
  let cps := insert_checkpoint {| cp_seq := first_seq; cp_file := new_no; cp_offset := size |}
    (filter (fun cp => cp_file cp <> new_no) (j_checkpoints j)) in
  let j := {| j_node := j_node j; j_epoch := j_epoch j; j_target := j_target j;
              j_active := new_no; j_active_size := size; j_synced := j_synced j;
              j_next := j_next j; j_failed := j_failed j; j_files := files;
              j_checkpoints := cps; j_gap_floor := j_gap_floor j;
              j_generation := j_generation j |} in
  write_manifest_now j d (oldest_seq j) new_no.

(** What the write and the fsync of a flush do: both succeed, or one of them
    fails, or the node stops, and the file holds [remains buf] in place of the
    buffer: a prefix of it, or what a power loss made of its pages. *)
Inductive Flush := FlushOk | FlushFails (remains : bytes -> bytes).

Fixpoint assign (next : Z) (items : list (JournalOp * bytes * Hlc)) : list JournalEntry :=
  match items with
  | [] => []
  | (op, key, hlc) :: items =>
      {| je_seq := next; je_op := op; je_key := key; je_hlc := hlc |}
      :: assign (u64_succ next) items
  end.

Definition seq_after (next : Z) (items : list (JournalOp * bytes * Hlc)) : Z :=
  Nat.iter (length items) u64_succ next.

(** The update of the file index after a flush. *)
Definition flushed_meta (size last now : Z) (f : FileMeta) : FileMeta :=
  {| fm_no := fm_no f; fm_first := fm_first f;
     fm_last := Some (match fm_last f with Some s => Z.max s last | None => last end);
     fm_size := size; fm_modified := Some now |}.

(** [iter_mut().find(..)]: only the first match is updated. *)
Fixpoint update_first (p : FileMeta -> bool) (g : FileMeta -> FileMeta) (l : list FileMeta) :
    list FileMeta :=
  match l with
  | [] => []
  | f :: l => if p f then g f :: l else f :: update_first p g l
  end.

(** The state after a flush whose write and fsync succeeded. *)
Definition complete_flush (j : Journal) (d : Dir) (buf : bytes) (next now : Z) : Journal * Dir :=
  let flush_last_seq := u64_pred next in
  let size := j_active_size j + Z.of_nat (length buf) in
  ({| j_node := j_node j; j_epoch := j_epoch j; j_target := j_target j; j_active := j_active j;
      j_active_size := size; j_synced := Z.max (j_synced j) flush_last_seq; j_next := next;
      j_failed := j_failed j;
      j_files := update_first (fun f => fm_no f =? j_active j)
                   (flushed_meta size flush_last_seq now) (j_files j);
      j_checkpoints := j_checkpoints j; j_gap_floor := j_gap_floor j;
      j_generation := j_generation j |},
   {| d_files := file_append (d_files d) (j_active j) buf; d_manifest := d_manifest d |}).

(** [append_batch] up to the flush that covers it. Callers that arrive while
    another flush is running put their records into the pending buffer in
    order and one of them flushes them together: [items] are those of the whole
    buffer. *)
Definition append_batch (j : Journal) (d : Dir) (items : list (JournalOp * bytes * Hlc))
    (io : Flush) (now : Z) : Journal * Dir * (JournalError + list Z) :=
  match items with
  | [] => (j, d, inr [])
  | _ =>
      if existsb (fun '(_, key, _) => MAX_JOURNAL_KEY_BYTES <? Z.of_nat (length key)) items
      then (j, d, inl KeyTooLong) else
      if j_failed j then (j, d, inl JournalFailed) else
      let entries := assign (j_next j) items in
      let next := seq_after (j_next j) items in
      let buf := mjoin (encode_record <$> entries) in
      match io with
      | FlushFails remains =>
          ({| j_node := j_node j; j_epoch := j_epoch j; j_target := j_target j;
              j_active := j_active j; j_active_size := j_active_size j; j_synced := j_synced j;
              j_next := next; j_failed := true; j_files := j_files j;
              j_checkpoints := j_checkpoints j; j_gap_floor := j_gap_floor j;
              j_generation := j_generation j |},
           {| d_files := file_append (d_files d) (j_active j) (remains buf);
              d_manifest := d_manifest d |}, inl JournalIo)
      | FlushOk =>
          let '(j, d) := complete_flush j d buf next now in
          let '(j, d) := if j_target j <=? j_active_size j then rotate_locked j d now else (j, d) in
          (j, d, inr (je_seq <$> entries))
      end
  end.

(** ** Bounded read *)

Record ReadState := { rs_entries : list JournalEntry; rs_bytes : Z; rs_next : Z }.

Inductive buffer_end :=
  | NextFile (st : ReadState)
  | Stop (st : ReadState)
  | Corrupt.

(** The loop over the bytes read from one file; each turn consumes a record,
    so the number of bytes is enough fuel. *)
Fixpoint read_buffer (fuel : nat) (from_seq : Z) (max_entries : nat) (max_bytes : Z) (buf : bytes)
    (st : ReadState) : buffer_end :=
  match fuel, buf with
  | _, [] | O, _ => NextFile st
  | S fuel, _ =>
      match decode_record buf with
      | Decoded entry consumed =>
          let buf := drop consumed buf in
          if je_seq entry <=? from_seq
          then read_buffer fuel from_seq max_entries max_bytes buf st
          else
            let st := {| rs_entries := rs_entries st ++ [entry];
                         rs_bytes := rs_bytes st + Z.of_nat consumed; rs_next := je_seq entry |} in
            if (max_entries <=? length (rs_entries st))%nat || (max_bytes <=? rs_bytes st)
            then Stop st
            else read_buffer fuel from_seq max_entries max_bytes buf st
      | Incomplete => Stop st
      | BadRecord => Corrupt
      end
  end.

Definition checkpoint_offset (cps : list Checkpoint) (file_no from_seq : Z) (header_len : nat) : nat :=
  match find (fun cp => (cp_file cp =? file_no) && (cp_seq cp <=? from_seq)) (rev cps) with
  | Some cp => Z.to_nat (cp_offset cp)
  | None => header_len
  end.

(** The bytes of one file that a read looks at. *)
Definition read_window (content : bytes) (start_offset : nat) (max_bytes : Z) : bytes :=
  let remaining := saturating_sub (Z.of_nat (length content)) (Z.of_nat start_offset) in
  let limit := Z.min (saturating_add64 max_bytes (MAX_JOURNAL_KEY_BYTES + 128)) remaining in
  take (Z.to_nat limit) (drop start_offset content).

Fixpoint read_files (j : Journal) (d : Dir) (from_seq : Z) (max_entries : nat) (max_bytes : Z)
    (files : list Z) (st : ReadState) : JournalError + ReadState :=
  match files with
  | [] => inr st
  | file_no :: files =>
      match file_get (d_files d) file_no with
      | None => inl JournalIo
      | Some content =>
          match segment_header_len content (j_epoch j) with
          | inl e => inl e
          | inr header_len =>
              let start_offset := checkpoint_offset (j_checkpoints j) file_no from_seq header_len in
              let buf := read_window content start_offset max_bytes in
              match read_buffer (length buf) from_seq max_entries max_bytes buf st with
              | NextFile st => read_files j d from_seq max_entries max_bytes files st
              | Stop st => inr st
              | Corrupt => inl (CorruptRecord file_no)
              end
          end
      end
  end.

Definition ends_after (from_seq : Z) (f : FileMeta) : bool :=
  match fm_last f with Some s => from_seq <? s | None => false end.

Definition read_range (j : Journal) (d : Dir) (from_seq : Z) (max_entries : nat) (max_bytes : Z) :
    JournalError + JournalRead :=
  let oldest := oldest_seq j in
  if from_seq <? oldest then inr (Gap oldest) else
  let files_snapshot := fm_no <$> filter (fun f => ends_after from_seq f = true) (j_files j) in
  match read_files j d from_seq max_entries max_bytes files_snapshot
          {| rs_entries := []; rs_bytes := 0; rs_next := from_seq |} with
  | inl e => inl e
  | inr st => inr (Entries (rs_entries st) (rs_next st))
  end.

(** ** Retention *)

Definition trimmable (active : Z) (f : FileMeta) : bool :=
  negb (fm_no f =? active) && match fm_last f with Some _ => true | None => false end.

Definition acked_by (frontier : Z) (f : FileMeta) : bool :=
  match fm_last f with Some s => s <=? frontier | None => false end.

Definition older_than (now max_age : Z) (f : FileMeta) : bool :=
  match fm_modified f with
  | Some m => (m <=? now) && (max_age <? now - m)
  | None => false
  end.

(** [min_by_key(|f| f.file_no)]: the first of the files with the least number. *)
Definition min_by_no (l : list FileMeta) : option FileMeta :=
  foldl (fun best f =>
    match best with
    | Some b => if fm_no f <? fm_no b then Some f else Some b
    | None => Some f
    end) None l.

Definition pick_victim (j : Journal) (frontier max_bytes now max_age : Z) :
    option (FileMeta * bool) :=
  let candidates := filter (fun f => trimmable (j_active j) f = true) (j_files j) in
  match find (acked_by frontier) candidates with
  | Some f => Some (f, false)
  | None =>
      if max_bytes <? on_disk_bytes j then (fun f => (f, true)) <$> min_by_no candidates
      else (fun f => (f, true)) <$> find (older_than now max_age) candidates
  end.

(** [remove_file]: a file that is not there is not an error. *)
Definition file_remove (files : Disk) (no : Z) : Disk := filter (fun '(s, _) => s <> no) files.

Definition remove_segment (j : Journal) (d : Dir) (no : Z) : Journal * Dir :=
  let files := filter (fun f => fm_no f <> no) (j_files j) in
  ({| j_node := j_node j; j_epoch := j_epoch j; j_target := j_target j; j_active := j_active j;
      j_active_size := j_active_size j; j_synced := j_synced j; j_next := j_next j;
      j_failed := j_failed j; j_files := files;
      j_checkpoints := filter (fun cp => cp_file cp ∈ fm_no <$> files) (j_checkpoints j);
      j_gap_floor := j_gap_floor j; j_generation := j_generation j |},
   {| d_files := file_remove (d_files d) no; d_manifest := d_manifest d |}).

Record Trim := { t_removed : Z; t_bytes : Z; t_forced : bool }.

(** The victim loop; each turn removes a file of the index, so its length is
    enough fuel. *)
Fixpoint trim_loop (fuel : nat) (frontier max_bytes now max_age : Z) (j : Journal) (d : Dir)
    (t : Trim) : Journal * Dir * Trim :=
  match fuel, pick_victim j frontier max_bytes now max_age with
  | S fuel, Some (victim, forced) =>
      let '(j, d) := remove_segment j d (fm_no victim) in
      trim_loop fuel frontier max_bytes now max_age j d
        {| t_removed := t_removed t + 1; t_bytes := t_bytes t + fm_size victim;
           t_forced := t_forced t || (forced && negb (acked_by frontier victim)) |}
  | _, _ => (j, d, t)
  end.

Definition enforce_retention (j : Journal) (d : Dir) (frontier max_bytes now max_age : Z) :
    Journal * Dir * TrimReport :=
  let active := j_active j in
  let '(j, d, t) := trim_loop (length (j_files j)) frontier max_bytes now max_age j d
    {| t_removed := 0; t_bytes := 0; t_forced := false |} in
  let base_seq := oldest_seq j in
  let '(j, d) := write_manifest_now j d base_seq active in
  (j, d, {| tr_segments_removed := t_removed t; tr_bytes_removed := t_bytes t;
            tr_base_seq := base_seq; tr_cap_forced := t_forced t |}).

(** ** Recovery *)

Record Scan := {
  sc_first : option Z; sc_last : option Z; sc_gap : Z; sc_seen : Z; sc_cps : list Checkpoint }.

Inductive scan_result :=
  | Scanned (sc : Scan) (content : bytes)
  | NewEpoch
  | ScanError.

(** [find_resync]: the offsets from [offset] on, [n] of them. *)
Fixpoint find_resync (n : nat) (content : bytes) (offset : nat) (last_in_file : option Z) :
    option (nat * Z) :=
  match n with
  | O => None
  | S n =>
      if (offset + 8 <=? length content)%nat then
        match decode_record (drop offset content) with
        | Decoded entry _ =>
            if match last_in_file with Some s => s <? je_seq entry | None => true end
            then Some (offset, je_seq entry)
            else find_resync n content (S offset) last_in_file
        | _ => find_resync n content (S offset) last_in_file
        end
      else None
  end.

(** A record taken into the index: the range of the file, the count and, every
    256 records, a read checkpoint. *)
Definition take_record (file_no : Z) (cursor : nat) (gap seq : Z) (sc : Scan) : Scan :=
  let seen := sc_seen sc + 1 in
  {| sc_first := match sc_first sc with Some s => Some s | None => Some seq end;
     sc_last := Some seq; sc_gap := gap; sc_seen := seen;
     sc_cps := if seen mod CHECKPOINT_INTERVAL =? 0
               then sc_cps sc ++ [{| cp_seq := seq; cp_file := file_no;
                                     cp_offset := Z.of_nat cursor |}]
               else sc_cps sc |}.

(** The second scan, of the suffix behind a compacted hole. *)
Fixpoint rescan (fuel : nat) (file_no : Z) (content : bytes) (scan : nat) (sc : Scan) : Scan :=
  match fuel with
  | O => sc
  | S fuel =>
      if (scan <? length content)%nat then
        match decode_record (drop scan content) with
        | Decoded entry consumed =>
            rescan fuel file_no content (scan + consumed)
              (take_record file_no scan (sc_gap sc) (je_seq entry) sc)
        | _ => sc
        end
      else sc
  end.

(** The loop over the records of one file; a turn advances the cursor, so the
    length of the file is enough fuel. *)
Fixpoint scan_file (fuel : nat) (is_last : bool) (previous_last : option Z) (file_no : Z)
    (content : bytes) (cursor : nat) (sc : Scan) : scan_result :=
  match fuel with
  | O => Scanned sc content
  | S fuel =>
      if (cursor <? length content)%nat then
        match decode_record (drop cursor content) with
        | Decoded entry consumed =>
            let seq := je_seq entry in
            if match sc_last sc with Some prev => seq <=? prev | None => false end
            then ScanError else
            let gap := match sc_last sc with
                       | Some prev => if u64_succ prev <? seq then Z.max (sc_gap sc) (u64_pred seq)
                                      else sc_gap sc
                       | None => sc_gap sc
                       end in
            if match sc_first sc, previous_last with
               | None, Some prev => negb (seq =? u64_succ prev)
               | _, _ => false
               end
            then NewEpoch else
            scan_file fuel is_last previous_last file_no content (cursor + consumed)
              (take_record file_no cursor gap seq sc)
        | _ =>
            if negb is_last then NewEpoch else
            match find_resync (length content) content (S cursor) (sc_last sc) with
            | Some (offset, resumed_seq) =>
                let gap := Z.max (sc_gap sc) (u64_pred resumed_seq) in
                let compacted := take cursor content ++ drop offset content in
                Scanned (rescan (length compacted) file_no compacted cursor
                  {| sc_first := sc_first sc; sc_last := sc_last sc; sc_gap := gap;
                     sc_seen := sc_seen sc; sc_cps := sc_cps sc |}) compacted
            | None => Scanned sc (take cursor content)
            end
        end
      else Scanned sc content
  end.

Record Recovering := {
  rv_epoch : option bytes; rv_gap : Z; rv_files : list FileMeta; rv_cps : list Checkpoint;
  rv_last : Z; rv_seen : Z; rv_previous : option Z; rv_disk : Disk }.

Inductive recover_result {A : Type} :=
  | Recovered (a : A)
  | FreshEpoch
  | RecoverError (e : JournalError).
#[global] Arguments recover_result : clear implicits.

(** One turn of the loop over the segment files. *)
Definition recover_file (mtime : Z -> option Z) (is_last : bool) (file_no : Z) (r : Recovering) :
    recover_result Recovering :=
  match file_get (rv_disk r) file_no with
  | None => Recovered r
  | Some content =>
      match parse_segment_header content with
      | None =>
          if is_last then
            Recovered {| rv_epoch := rv_epoch r; rv_gap := rv_gap r; rv_files := rv_files r;
                         rv_cps := rv_cps r; rv_last := rv_last r; rv_seen := rv_seen r;
                         rv_previous := rv_previous r;
                         rv_disk := file_remove (rv_disk r) file_no |}
          else FreshEpoch
      | Some (epoch, total_len) =>
          if match rv_epoch r with Some e => negb (bool_decide (e = epoch)) | None => false end
          then FreshEpoch else
          match scan_file (S (length content)) is_last (rv_previous r) file_no content total_len
                  {| sc_first := None; sc_last := None; sc_gap := rv_gap r;
                     sc_seen := rv_seen r; sc_cps := rv_cps r |} with
          | NewEpoch => FreshEpoch
          | ScanError => RecoverError NonMonotonic
          | Scanned sc content' =>
              Recovered {| rv_epoch := Some (default epoch (rv_epoch r));
                           rv_gap := sc_gap sc;
                           rv_files := rv_files r
                             ++ [{| fm_no := file_no; fm_first := sc_first sc;
                                    fm_last := sc_last sc;
                                    fm_size := Z.of_nat (length content');
                                    fm_modified := mtime file_no |}];
                           rv_cps := sc_cps sc;
                           rv_last := match sc_last sc with Some s => s | None => rv_last r end;
                           rv_seen := sc_seen sc;
                           rv_previous := match sc_last sc with Some s => Some s
                                          | None => rv_previous r end;
                           rv_disk := file_put (rv_disk r) file_no content' |}
          end
      end
  end.

Fixpoint recover_files (mtime : Z -> option Z) (numbers : list Z) (r : Recovering) :
    recover_result Recovering :=
  match numbers with
  | [] => Recovered r
  | no :: numbers =>
      match recover_file mtime (bool_decide (numbers = [])) no r with
      | Recovered r => recover_files mtime numbers r
      | FreshEpoch => FreshEpoch
      | RecoverError e => RecoverError e
      end
  end.

Record Outcome := {
  o_files : list FileMeta; o_cps : list Checkpoint; o_last : Z; o_epoch : bytes;
  o_base : Z; o_gap : Z; o_dir : Dir }.

(** [recover], with [fresh] for the epoch it may draw. A recovery that starts
    a new epoch leaves its caller to move the directory aside. *)
Definition recover (mtime : Z -> option Z) (fresh : bytes) (d : Dir) : recover_result Outcome :=
  let numbers := fst <$> d_files d in
  match numbers with
  | [] => Recovered {| o_files := []; o_cps := []; o_last := 0; o_epoch := fresh; o_base := 0;
                       o_gap := 0; o_dir := d |}
  | _ =>
      let manifest := read_manifest d in
      let initial_gap := match manifest with Some m => mf_gap_floor m | None => 0 end in
      match recover_files mtime numbers
              {| rv_epoch := mf_epoch <$> manifest; rv_gap := initial_gap; rv_files := [];
                 rv_cps := []; rv_last := 0; rv_seen := 0; rv_previous := None;
                 rv_disk := d_files d |} with
      | FreshEpoch => FreshEpoch
      | RecoverError e => RecoverError e
      | Recovered r =>
          let d := {| d_files := rv_disk r; d_manifest := d_manifest d |} in
          let epoch := default fresh (rv_epoch r) in
          match rv_files r with
          | [] => Recovered {| o_files := []; o_cps := rv_cps r; o_last := 0; o_epoch := epoch;
                               o_base := 0; o_gap := 0; o_dir := d |}
          | f :: _ =>
              let base := match manifest with
                          | Some m => mf_base_seq m
                          | None => match fm_first f with Some s => u64_pred s | None => 0 end
                          end in
              let d :=
                if (initial_gap <? rv_gap r) && match rv_epoch r with Some _ => true | None => false end
                then write_manifest d
                       {| mf_epoch := epoch; mf_base_seq := base; mf_gap_floor := rv_gap r;
                          mf_active := default 1 (last numbers);
                          mf_generation := match manifest with
                                           | Some m => u64_succ (mf_generation m)
                                           | None => 1 end |}
                else d in
              Recovered {| o_files := rv_files r; o_cps := rv_cps r; o_last := rv_last r;
                           o_epoch := epoch; o_base := base; o_gap := rv_gap r; o_dir := d |}
          end
      end
  end.

(** [ensure_segment]. *)
Definition ensure_segment (files : Disk) (no : Z) (node_id : NodeId) (epoch : bytes)
    (first_seq : Z) : Disk :=
  match file_get files no with
  | Some (_ :: _) => files
  | _ => file_put files no (encode_segment_header node_id epoch first_seq)
  end.

(** The part of [open_inner] behind the recovery. *)
Definition open_recovered (node_id : NodeId) (target : Z) (mtime : Z -> option Z) (o : Outcome) :
    Journal * Dir :=
  let files := o_files o in
  let active := match last files with Some f => fm_no f | None => 1 end in
  let first_seq := match last files with
                   | Some f => default (u64_succ (o_last o)) (fm_first f)
                   | None => u64_succ (o_last o) end in
  let disk := ensure_segment (d_files (o_dir o)) active node_id (o_epoch o) first_seq in
  let active_size := Z.of_nat (length (default [] (file_get disk active))) in
  let modified := mtime active in
  let files :=
    match last files with
    | Some f => take (length files - 1) files
        ++ [{| fm_no := fm_no f; fm_first := Some (default first_seq (fm_first f));
               fm_last := fm_last f; fm_size := active_size; fm_modified := modified |}]
    | None => [{| fm_no := active; fm_first := Some first_seq; fm_last := None;
                  fm_size := active_size; fm_modified := modified |}]
    end in
  let j := {| j_node := node_id; j_epoch := o_epoch o; j_target := target; j_active := active;
              j_active_size := active_size; j_synced := o_last o; j_next := u64_succ (o_last o);
              j_failed := false; j_files := files; j_checkpoints := o_cps o;
              j_gap_floor := o_gap o; j_generation := 1 |} in
  write_manifest_now j {| d_files := disk; d_manifest := d_manifest (o_dir o) |}
    (Z.max (o_base o) (oldest_seq j)) active.

Definition open_inner (node_id : NodeId) (target : Z) (mtime : Z -> option Z) (fresh : bytes)
    (d : Dir) : JournalError + (Journal * Dir) :=
  match recover mtime fresh d with
  | Recovered o => inr (open_recovered node_id target mtime o)
  | FreshEpoch =>
      inr (open_recovered node_id target mtime
             {| o_files := []; o_cps := []; o_last := 0; o_epoch := fresh; o_base := 0; o_gap := 0;
                o_dir := {| d_files := []; d_manifest := None |} |})
  | RecoverError e => inl e
  end.

(** ** Properties of the framing *)

Definition entry_wf (e : JournalEntry) : Prop :=
  is_u64 (je_seq e) /\ hlc_wf (je_hlc e) /\ Z.of_nat (length (je_key e)) <= MAX_JOURNAL_KEY_BYTES.

Lemma op_from_as_u8 op : op_from_u8 (op_as_u8 op) = Some op.
Proof. by destruct op. Qed.

Lemma length_record_payload e : length (record_payload e) = (25 + length (je_key e))%nat.
Proof. unfold record_payload. rewrite !length_app, !length_to_le. simpl. lia. Qed.

Lemma length_encode_record e : length (encode_record e) = (33 + length (je_key e))%nat.
Proof.
  unfold encode_record. rewrite !length_app, !length_to_le, length_record_payload. lia.
Qed.

(** The fields of the payload of a record. *)
Lemma payload_fields e :
  let p := record_payload e in
  let k := length (je_key e) in
  field p 0 8 = to_le 8 (je_seq e) /\ p !! 8%nat = Some (op_as_u8 (je_op e)) /\
  field p 9 13 = to_le 4 (Z.of_nat k) /\ field p 13 (13 + k) = je_key e /\
  field p (13 + k) (13 + k + 8) = to_le 8 (wall_time (je_hlc e)) /\
  field p (13 + k + 8) (13 + k + 12) = to_le 4 (logical (je_hlc e)).
Proof.
  cbv zeta. unfold record_payload. split_and!.
  - by field_norm.
  - rewrite lookup_app_r, length_to_le by (rewrite length_to_le; lia). done.
  - by do 3 field_norm.
  - rewrite (field_skip 8 5 (5 + length (je_key e))) by (rewrite ?length_to_le; lia).
    rewrite (field_skip 1 4 (4 + length (je_key e))) by (simpl; lia).
    rewrite (field_skip 4 0 (length (je_key e))) by (rewrite ?length_to_le; lia).
    by rewrite (field_here (length (je_key e))).
  - rewrite !app_assoc. rewrite <- (app_assoc _ (to_le 8 _)).
    rewrite (field_skip (13 + length (je_key e)) 0 8)
      by (rewrite ?length_app, ?length_to_le; simpl; lia).
    by rewrite (field_here 8) by (rewrite ?length_to_le; lia).
  - rewrite !app_assoc.
    rewrite (field_skip (21 + length (je_key e)) 0 4)
      by (rewrite ?length_app, ?length_to_le; simpl; lia).
    by apply field_all; rewrite length_to_le.
Qed.

(** The fields of a framed record. *)
Lemma frame_fields e rest :
  let buf := encode_record e ++ rest in
  let n := (25 + length (je_key e))%nat in
  field buf 0 4 = to_le 4 (8 + 1 + 4 + Z.of_nat (length (je_key e)) + 8 + 4) /\
  field buf 4 (4 + n) = record_payload e /\
  field buf (4 + n) (4 + n + 4) = to_le 4 (crc32 (record_payload e)).
Proof.
  pose proof (length_record_payload e) as Hp. pose proof (length_encode_record e) as He.
  cbv zeta. rewrite !field_prefix by lia. unfold encode_record. split_and!.
  - by field_norm.
  - rewrite (field_skip 4 0 (25 + length (je_key e))) by (rewrite ?length_to_le; lia).
    by rewrite (field_here (25 + length (je_key e))).
  - rewrite app_assoc, (field_skip (29 + length (je_key e)) 0 4)
      by (rewrite ?length_app, ?length_to_le, ?Hp; lia).
    by apply field_all; rewrite length_to_le.
Qed.

Lemma le4 z : 0 <= z <= u32_max -> from_le (to_le 4 z) = z.
Proof. intros H. apply from_to_le_small. change (256 ^ Z.of_nat 4) with (u32_max + 1). lia. Qed.

Lemma le8 z : is_u64 z -> from_le (to_le 8 z) = z.
Proof.
  intros H. apply from_to_le_small. change (256 ^ Z.of_nat 8) with (u64_max + 1).
  unfold is_u64 in H. lia.
Qed.

Context (crc32_range : forall bs, is_u32 (crc32 bs)).

Lemma decode_encode_record e rest :
  entry_wf e -> decode_record (encode_record e ++ rest) = Decoded e (length (encode_record e)).
Proof using crc32_range.
  intros (Hseq & [Hw Hl] & Hkey). pose proof (crc32_range (record_payload e)) as Hcrc.
  pose proof (length_record_payload e) as Hp. pose proof (length_encode_record e) as He.
  destruct (payload_fields e) as (F1 & F2 & F3 & F4 & F5 & F6).
  destruct (frame_fields e rest) as (G1 & G2 & G3). unfold MAX_JOURNAL_KEY_BYTES in Hkey.
  unfold decode_record. rewrite length_app, He, G1, le4 by (unfold_ints; lia).
  rewrite (proj2 (Nat.ltb_ge _ _)), (proj2 (Z.ltb_ge _ _)) by lia.
  replace (Z.to_nat (8 + 1 + 4 + Z.of_nat (length (je_key e)) + 8 + 4))
    with (25 + length (je_key e))%nat by lia.
  cbv zeta. rewrite G2, G3, le4 by done. rewrite Z.eqb_refl. cbn [negb].
  rewrite Hp, (proj2 (Nat.ltb_ge _ _)) by lia. rewrite F1, F2, F3. cbn [default from_option id].
  rewrite op_from_as_u8, (le4 (Z.of_nat _)) by (unfold_ints; lia).
  unfold MAX_JOURNAL_KEY_BYTES. rewrite (proj2 (Z.ltb_ge _ _)) by lia. rewrite Nat2Z.id.
  rewrite (proj2 (Nat.ltb_ge _ _)) by lia. rewrite F4, F5, F6, !le8, le4 by done.
  destruct e as [? ? ? []]; cbn. f_equal; lia.
Qed.

(** A frame cut short is reported as incomplete. *)
Lemma decode_truncated e n :
  entry_wf e -> (n < length (encode_record e))%nat -> decode_record (take n (encode_record e)) = Incomplete.
Proof using Type.
  intros (Hseq & _ & Hkey) Hn. rewrite length_encode_record in Hn. unfold MAX_JOURNAL_KEY_BYTES in Hkey.
  unfold decode_record. rewrite length_take, length_encode_record.
  destruct (_ <? 8)%nat eqn:H8; [done|]. apply Nat.ltb_ge in H8.
  assert (field (take n (encode_record e)) 0 4 = to_le 4 (8 + 1 + 4 + Z.of_nat (length (je_key e)) + 8 + 4)) as ->.
  { rewrite <- (field_prefix _ (drop n (encode_record e))), take_drop
      by (rewrite length_take, length_encode_record; lia).
    unfold encode_record. by field_norm. }
  rewrite from_to_le_small by (change (256 ^ Z.of_nat 4) with 4294967296; lia).
  by rewrite (proj2 (Z.ltb_lt _ _)) by lia.
Qed.

Lemma decode_nil : decode_record [] = Incomplete.
Proof. done. Qed.

Lemma decode_consumes buf e n :
  decode_record buf = Decoded e n -> (8 <= n <= length buf)%nat.
Proof.
  unfold decode_record. destruct (_ <? 8)%nat eqn:H8; [done|]. apply Nat.ltb_ge in H8.
  destruct (_ <? _) eqn:Ht; [done|]. apply Z.ltb_ge in Ht. cbv zeta.
  pose proof (from_le_range (field buf 0 4)) as Hr.
  repeat case_match; try done. intros [= <- <-]. lia.
Qed.

End framing.
