(* ===== verification/JournalLog.v ===== *)
(** * What the metadata change journal promises

    An undamaged journal is the sequence of its segments; [represents] ties it
    to the open journal and to its directory. Appends, rotation and retention
    keep it undamaged; a crash in an append and the next [open] do too, with a
    prefix of the batch; a bounded read returns the next entries. The last
    theorems show where the journal falls short: a read of a position deep in
    a segment returns nothing, and a restart after a full trim numbers its
    entries from one again. *)

From Stdlib Require Import ZArith Lia Strings.Byte.
From stdpp Require Import base list.
From S2P Require Import Prelude Hlc WalPos EventWal MetaStore Journal.

Set Default Proof Using "Type".
Local Open Scope Z_scope.

(** ** Journals without damage

    A journal as the sequence of its segments: the records of a segment are
    numbered from its first sequence on, each segment continues the previous
    one, and only the last one, the active segment, may be empty. *)

Record Seg := { sg_no : Z; sg_first : Z; sg_entries : list JournalEntry }.

Fixpoint consecutive (a : Z) (es : list JournalEntry) : Prop :=
  match es with
  | [] => True
  | e :: es => je_seq e = a /\ consecutive (a + 1) es
  end.

Definition seg_end (s : Seg) : Z := sg_first s + Z.of_nat (length (sg_entries s)).

Definition seg_wf (s : Seg) : Prop :=
  Forall entry_wf (sg_entries s) /\ consecutive (sg_first s) (sg_entries s) /\
  1 <= sg_first s /\ seg_end s <= u64_max.

Fixpoint segs_ok (segs : list Seg) : Prop :=
  match segs with
  | [] => True
  | s :: rest =>
      seg_wf s /\ segs_ok rest /\
      match rest with
      | [] => True
      | s' :: _ => sg_no s < sg_no s' /\ sg_first s' = seg_end s /\ sg_entries s <> []
      end
  end.

Definition entries_of (segs : list Seg) : list JournalEntry := mjoin (sg_entries <$> segs).

Definition seg_last (s : Seg) : option Z :=
  match sg_entries s with [] => None | _ => Some (seg_end s - 1) end.

Lemma consecutive_app a es es' :
  consecutive a (es ++ es') <-> consecutive a es /\ consecutive (a + Z.of_nat (length es)) es'.
Proof.
  revert a. induction es as [|e es IH]; intros a; cbn [app consecutive length].
  - replace (a + Z.of_nat 0) with a by lia. tauto.
  - rewrite IH. replace (a + 1 + Z.of_nat (length es)) with (a + Z.of_nat (S (length es))) by lia.
    tauto.
Qed.

Lemma consecutive_range a es e :
  consecutive a es -> e ∈ es -> a <= je_seq e < a + Z.of_nat (length es).
Proof.
  revert a. induction es as [|e' es IH]; intros a; cbn [consecutive length]; [by rewrite elem_of_nil|].
  intros [Ha Hc] [->|Hin]%elem_of_cons; [lia|]. specialize (IH _ Hc Hin). lia.
Qed.

Lemma segs_ok_app segs segs' : segs_ok (segs ++ segs') -> segs_ok segs /\ segs_ok segs'.
Proof.
  induction segs as [|s segs IH]; [done|]. cbn [app segs_ok]. intros (Hs & Hok & Hnext).
  destruct (IH Hok) as [H1 H2]. split_and!; try done.
  destruct segs as [|s' segs]; [done|]. done.
Qed.

(** The segments of a journal follow each other. *)
Lemma segs_ok_consecutive s segs :
  segs_ok (s :: segs) -> consecutive (sg_first s) (entries_of (s :: segs)).
Proof.
  revert s. induction segs as [|s' segs IH]; intros s ((_ & Hc & _) & Hok & Hnext);
    unfold entries_of; cbn [fmap list_fmap mjoin list_join].
  - by rewrite app_nil_r.
  - apply consecutive_app. split; [done|]. destruct Hnext as (_ & Hf & _).
    change (sg_first s + Z.of_nat (length (sg_entries s))) with (seg_end s).
    rewrite <- Hf. by apply IH.
Qed.

Lemma segs_ok_wf segs s : segs_ok segs -> s ∈ segs -> seg_wf s.
Proof.
  induction segs as [|s' segs IH]; [by rewrite elem_of_nil|].
  intros (Hw & Hok & _) [->|Hin]%elem_of_cons; auto.
Qed.

Lemma segs_ok_numbers s segs s' : segs_ok (s :: segs) -> s' ∈ segs -> sg_no s < sg_no s'.
Proof.
  revert s. induction segs as [|s1 segs IH]; intros s; [by rewrite elem_of_nil|].
  intros (_ & Hok & Hlt & _) [->|Hin]%elem_of_cons; [done|].
  specialize (IH _ Hok Hin). lia.
Qed.

Lemma active_in (segs : list Seg) s : s ∈ segs ++ [s].
Proof. set_solver. Qed.

Section journals.
Context (crc32 : bytes -> Z).

Definition records (es : list JournalEntry) : bytes := mjoin (encode_record crc32 <$> es).

Definition header_of (node_id : NodeId) (epoch : bytes) (s : Seg) : bytes :=
  encode_segment_header crc32 node_id epoch (sg_first s).

Definition seg_bytes (node_id : NodeId) (epoch : bytes) (s : Seg) : bytes :=
  header_of node_id epoch s ++ records (sg_entries s).

Definition disk_of (node_id : NodeId) (epoch : bytes) (segs : list Seg) : Disk :=
  (fun s => (sg_no s, seg_bytes node_id epoch s)) <$> segs.

Definition meta_ok (node_id : NodeId) (epoch : bytes) (f : FileMeta) (s : Seg) : Prop :=
  fm_no f = sg_no s /\ fm_first f = Some (sg_first s) /\ fm_last f = seg_last s /\
  fm_size f = Z.of_nat (length (seg_bytes node_id epoch s)).

(** A read checkpoint names the offset of a record, or the end of the file. *)
Definition checkpoint_ok (node_id : NodeId) (epoch : bytes) (segs : list Seg) (cp : Checkpoint) : Prop :=
  exists s i, s ∈ segs /\ cp_file cp = sg_no s /\ (i <= length (sg_entries s))%nat /\
    cp_seq cp = sg_first s + Z.of_nat i /\
    cp_offset cp = Z.of_nat (length (header_of node_id epoch s)
                             + length (records (take i (sg_entries s)))).

Definition ids_ok (node_id : NodeId) (epoch : bytes) : Prop :=
  Z.of_nat (length node_id) < 65536 /\ length epoch = 16%nat.

(** [holds j d segs s]: the open journal [j] on the directory [d] has the
    segments [segs] and the active segment [s]. *)
Record holds (j : Journal) (d : Dir) (segs : list Seg) (s : Seg) : Prop := {
  rp_ids : ids_ok (j_node j) (j_epoch j);
  rp_segs : segs_ok (segs ++ [s]);
  rp_disk : d_files d = disk_of (j_node j) (j_epoch j) (segs ++ [s]);
  rp_files : Forall2 (meta_ok (j_node j) (j_epoch j)) (j_files j) (segs ++ [s]);
  rp_active : j_active j = sg_no s;
  rp_size : j_active_size j = Z.of_nat (length (seg_bytes (j_node j) (j_epoch j) s));
  rp_next : j_next j = seg_end s;
  rp_synced : j_synced j = seg_end s - 1;
  rp_failed : j_failed j = false;
  rp_cps : Forall (checkpoint_ok (j_node j) (j_epoch j) (segs ++ [s])) (j_checkpoints j);
  rp_gap : is_u64 (j_gap_floor j) }.

(** The manifest on disk is one of this journal. *)
Definition manifest_ok (j : Journal) (d : Dir) : Prop :=
  exists m, read_manifest crc32 d = Some m /\ mf_epoch m = j_epoch j /\
    mf_gap_floor m = j_gap_floor j.

Definition represents (j : Journal) (d : Dir) (segs : list Seg) (s : Seg) : Prop :=
  holds j d segs s /\ manifest_ok j d.

Lemma journal_records_app es es' : records (es ++ es') = records es ++ records es'.
Proof. unfold records. by rewrite fmap_app, join_app. Qed.

Lemma records_cons e es : records (e :: es) = encode_record crc32 e ++ records es.
Proof. done. Qed.

Lemma length_header node_id epoch first :
  length epoch = 16%nat ->
  length (encode_segment_header crc32 node_id epoch first) = (50 + length node_id)%nat.
Proof.
  intros He. unfold encode_segment_header, segment_header_body.
  rewrite !length_app, !length_to_le, He. simpl. lia.
Qed.

Context (crc32_range : forall bs, is_u32 (crc32 bs)).

(** The fields of a segment header. *)
Lemma header_fields node_id epoch first rest :
  length epoch = 16%nat ->
  let buf := encode_segment_header crc32 node_id epoch first ++ rest in
  let n := length node_id in
  field buf 0 8 = MAGIC /\ field buf 8 12 = to_le 4 VERSION /\
  field buf 12 14 = to_le 2 (wrap16 (Z.of_nat n)) /\ field buf (14 + n) (30 + n) = epoch /\
  take (46 + n) buf = segment_header_body node_id epoch first /\
  field buf (46 + n) (50 + n) = to_le 4 (crc32 (segment_header_body node_id epoch first)).
Proof.
  intros He. cbv zeta. pose proof (length_header node_id epoch first He) as Hl.
  assert (length (segment_header_body node_id epoch first) = (46 + length node_id)%nat) as Hb.
  { unfold segment_header_body. rewrite !length_app, !length_to_le, He. simpl. lia. }
  rewrite !field_prefix by lia. unfold encode_segment_header.
  rewrite <- app_assoc, take_app_length' by done.
  rewrite (field_skip (46 + length node_id) 0 4 _ _ (46 + length node_id) (50 + length node_id)) by lia.
  rewrite (field_all (to_le 4 (crc32 _))) by apply length_to_le.
  rewrite !field_prefix by lia. unfold segment_header_body. split_and!; try done.
  rewrite (field_skip 8 (6 + length node_id) (22 + length node_id)) by (simpl; lia).
  rewrite (field_skip 4 (2 + length node_id) (18 + length node_id)) by (rewrite ?length_to_le; lia).
  rewrite (field_skip 2 (length node_id) (16 + length node_id)) by (rewrite ?length_to_le; lia).
  rewrite (field_skip (length node_id) 0 16) by lia.
  by rewrite (field_here 16).
Qed.

Lemma parse_encode_header node_id epoch first rest :
  ids_ok node_id epoch ->
  parse_segment_header crc32 (encode_segment_header crc32 node_id epoch first ++ rest)
  = Some (epoch, (50 + length node_id)%nat).
Proof using crc32_range.
  intros [Hn He]. pose proof (length_header node_id epoch first He) as Hl.
  destruct (header_fields node_id epoch first rest He) as (F1 & F2 & F3 & F4 & F5 & F6).
  unfold parse_segment_header. rewrite F1, F2, F3, length_app, Hl.
  rewrite (proj2 (Nat.ltb_ge _ 14)) by lia. rewrite bool_decide_true by done. cbn [orb negb].
  rewrite le4 by (unfold_ints; unfold VERSION; lia). rewrite Z.eqb_refl. cbn [negb].
  unfold wrap16. rewrite Z.mod_small by lia.
  rewrite from_to_le_small by (change (256 ^ Z.of_nat 2) with 65536; lia). rewrite Nat2Z.id.
  replace (8 + 4 + 2 + length node_id + 16 + 8 + 8 + 4)%nat with (50 + length node_id)%nat by lia.
  rewrite (proj2 (Nat.ltb_ge _ _)) by lia. cbv zeta.
  replace (50 + length node_id - 4)%nat with (46 + length node_id)%nat by lia.
  rewrite F4, F5, F6, le4 by apply crc32_range. by rewrite Z.eqb_refl.
Qed.

Lemma header_len_encode node_id epoch first rest :
  ids_ok node_id epoch ->
  segment_header_len crc32 (encode_segment_header crc32 node_id epoch first ++ rest) epoch
  = inr (length (encode_segment_header crc32 node_id epoch first)).
Proof using crc32_range.
  intros [Hn He]. pose proof (length_header node_id epoch first He) as Hl.
  destruct (header_fields node_id epoch first rest He) as (F1 & F2 & F3 & F4 & F5 & F6).
  unfold segment_header_len. rewrite F3, length_app, Hl.
  rewrite (proj2 (Nat.ltb_ge _ 14)) by lia.
  unfold wrap16. rewrite Z.mod_small by lia.
  rewrite from_to_le_small by (change (256 ^ Z.of_nat 2) with 65536; lia). rewrite Nat2Z.id.
  cbv zeta. rewrite (proj2 (Nat.ltb_ge _ _)) by lia. rewrite take_app_length' by lia.
  rewrite <- (app_nil_r (encode_segment_header _ _ _ _)), parse_encode_header by done.
  by rewrite bool_decide_true.
Qed.

(** ** The bounded read of an undamaged journal *)

(** What [read_buffer] does on the records themselves. *)
Fixpoint read_entries (from_seq : Z) (max_entries : nat) (max_bytes : Z) (es : list JournalEntry)
    (st : ReadState) : buffer_end :=
  match es with
  | [] => NextFile st
  | e :: es =>
      if je_seq e <=? from_seq then read_entries from_seq max_entries max_bytes es st
      else
        let st := {| rs_entries := rs_entries st ++ [e];
                     rs_bytes := rs_bytes st + Z.of_nat (length (encode_record crc32 e));
                     rs_next := je_seq e |} in
        if (max_entries <=? length (rs_entries st))%nat || (max_bytes <=? rs_bytes st)
        then Stop st
        else read_entries from_seq max_entries max_bytes es st
  end.

Lemma encode_record_nonempty e rest : exists b bs, encode_record crc32 e ++ rest = b :: bs.
Proof.
  pose proof (length_encode_record crc32 e).
  destruct (encode_record crc32 e); [simpl in *; lia|]. simpl. eauto.
Qed.

Lemma read_buffer_nil fuel from n m st : read_buffer crc32 fuel from n m [] st = NextFile st.
Proof. by destruct fuel. Qed.

Lemma read_buffer_records fuel from n m es st :
  Forall entry_wf es -> (length (records es) <= fuel)%nat ->
  read_buffer crc32 fuel from n m (records es) st = read_entries from n m es st.
Proof using crc32_range.
  intros Hwf. revert fuel st. induction Hwf as [|e es He Hwf IH]; intros fuel st Hf.
  - apply read_buffer_nil.
  - rewrite records_cons in *. rewrite length_app in Hf.
    pose proof (length_encode_record crc32 e).
    destruct (encode_record_nonempty e (records es)) as (b & bs & Hb).
    destruct fuel as [|fuel]; [lia|]. cbn [read_buffer]. rewrite Hb, <- Hb.
    rewrite decode_encode_record, drop_app_length by done. cbn [read_entries].
    by rewrite !IH by lia.
Qed.

Lemma read_entries_app from n m es es' st :
  read_entries from n m (es ++ es') st =
  match read_entries from n m es st with
  | NextFile st => read_entries from n m es' st
  | r => r
  end.
Proof.
  revert st. induction es as [|e es IH]; intros st; [done|]. cbn [app read_entries].
  destruct (_ <=? _); [apply IH|]. cbv zeta. destruct (_ || _); [done|]. apply IH.
Qed.

Lemma read_entries_skip from n m es st :
  Forall (fun e => je_seq e <= from) es -> read_entries from n m es st = NextFile st.
Proof.
  induction 1 as [|e es He _ IH]; [done|]. cbn [read_entries].
  by rewrite (proj2 (Z.leb_le _ _)).
Qed.

Definition end_state (b : buffer_end) : option ReadState :=
  match b with NextFile st | Stop st => Some st | Corrupt => None end.

(** The entries read are the next ones after the position, and the read only
    stops short of the rest when a limit is reached. *)
Lemma read_entries_spec from n m es st :
  exists es' rest,
    filter (fun e => from < je_seq e) es = es' ++ rest /\
    end_state (read_entries from n m es st)
    = Some {| rs_entries := rs_entries st ++ es';
              rs_bytes := rs_bytes st + Z.of_nat (length (records es'));
              rs_next := match last es' with Some e => je_seq e | None => rs_next st end |} /\
    (es' = [] -> rest = []) /\
    (rest <> [] -> (n <= length (rs_entries st ++ es'))%nat \/
                   m <= rs_bytes st + Z.of_nat (length (records es'))).
Proof.
  revert st. induction es as [|e es IH]; intros st.
  { exists [], []. split_and!; try done. cbn. by rewrite app_nil_r, Z.add_0_r; destruct st. }
  cbn [read_entries]. destruct (Z.leb_spec (je_seq e) from) as [Hle|Hgt].
  { rewrite filter_cons_False by lia. apply IH. }
  rewrite filter_cons_True by lia. cbv zeta. cbn [rs_entries rs_bytes].
  set (st' := {| rs_entries := rs_entries st ++ [e]; rs_bytes := _; rs_next := _ |}).
  assert (records [e] = encode_record crc32 e) as Hone by (unfold records; simpl; by rewrite app_nil_r).
  destruct (_ || _) eqn:Hlim.
  - exists [e], (filter (fun e => from < je_seq e) es). split_and!; try done.
    + by rewrite Hone.
    + intros _. rewrite Hone. apply orb_true_iff in Hlim as [H|H]; [left|right].
      * by apply Nat.leb_le.
      * by apply Z.leb_le.
  - destruct (IH st') as (es' & rest & Hf & Hend & Hnil & Hrest).
    assert (length (records (e :: es')) = length (encode_record crc32 e) + length (records es'))%nat as Hlen.
    { by rewrite records_cons, length_app. }
    exists (e :: es'), rest. split_and!; [by rewrite Hf| |done|].
    + rewrite Hend. do 2 f_equal; cbn [rs_entries rs_bytes rs_next st'].
      * by rewrite <- app_assoc.
      * lia.
      * destruct es' as [|e' es']; [done|]. rewrite last_cons_cons.
        destruct (last (e' :: es')) eqn:El; [done|]. by apply last_None in El.
    + intros Hr. destruct (Hrest Hr) as [H|H]; cbn [rs_entries rs_bytes st'] in H.
      * left. by rewrite <- app_assoc in H.
      * right. lia.
Qed.

Lemma file_get_disk_of node_id epoch segs s :
  segs_ok segs -> s ∈ segs ->
  file_get (disk_of node_id epoch segs) (sg_no s) = Some (seg_bytes node_id epoch s).
Proof.
  induction segs as [|s' segs IH]; [by rewrite elem_of_nil|]. intros Hok.
  pose proof Hok as (_ & Hok' & _). unfold disk_of. cbn [fmap list_fmap file_get].
  intros [->|Hin]%elem_of_cons; [by rewrite Z.eqb_refl|].
  pose proof (segs_ok_numbers _ _ _ Hok Hin). rewrite (proj2 (Z.eqb_neq _ _)) by lia. auto.
Qed.

Lemma segs_ok_no_inj segs s s' :
  segs_ok segs -> s ∈ segs -> s' ∈ segs -> sg_no s = sg_no s' -> s = s'.
Proof.
  induction segs as [|s1 segs IH]; [by rewrite elem_of_nil|]. intros Hok.
  pose proof Hok as (_ & Hok' & _).
  intros [->|H1]%elem_of_cons [->|H2]%elem_of_cons Heq; auto.
  - pose proof (segs_ok_numbers _ _ _ Hok H2). lia.
  - pose proof (segs_ok_numbers _ _ _ Hok H1). lia.
Qed.

(** The read starts at a record no later than the first one it has to return. *)
Lemma checkpoint_offset_ok node_id epoch segs cps s from :
  segs_ok segs -> s ∈ segs -> Forall (checkpoint_ok node_id epoch segs) cps ->
  exists i, checkpoint_offset cps (sg_no s) from (length (header_of node_id epoch s))
            = (length (header_of node_id epoch s) + length (records (take i (sg_entries s))))%nat /\
            Forall (fun e => je_seq e <= from) (take i (sg_entries s)).
Proof.
  intros Hok Hs Hcps. unfold checkpoint_offset.
  destruct (find _ (rev cps)) as [cp|] eqn:Hfind; [|exists 0%nat; by rewrite Nat.add_0_r].
  apply find_some in Hfind as [Hin [Hno%Z.eqb_eq Hseq%Z.leb_le]%andb_true_iff].
  apply in_rev, list_elem_of_In in Hin.
  rewrite Forall_forall in Hcps. destruct (Hcps _ Hin) as (s' & i & Hs' & Hf & Hi & Hcs & Hoff).
  assert (s' = s) as -> by (eapply segs_ok_no_inj; eauto; congruence).
  exists i. split; [lia|]. apply Forall_forall. intros e He.
  destruct (segs_ok_wf _ _ Hok Hs) as (_ & Hc & _).
  rewrite <- (take_drop i (sg_entries s)) in Hc. apply consecutive_app in Hc as [Hc _].
  pose proof (consecutive_range _ _ _ Hc He) as Hr. rewrite length_take in Hr. lia.
Qed.

Lemma read_window_all content start m :
  Z.of_nat (length content) <= saturating_add64 m (MAX_JOURNAL_KEY_BYTES + 128) ->
  read_window content start m = drop start content.
Proof.
  intros H. unfold read_window. apply take_ge. rewrite length_drop. unfold saturating_sub. lia.
Qed.

(** Every file fits in what one read looks at. *)
Definition window_fits (j : Journal) (segs : list Seg) (m : Z) : Prop :=
  Forall (fun s => Z.of_nat (length (seg_bytes (j_node j) (j_epoch j) s))
                   <= saturating_add64 m (MAX_JOURNAL_KEY_BYTES + 128)) segs.

Lemma drop_seg_bytes node_id epoch s i :
  drop (length (header_of node_id epoch s) + length (records (take i (sg_entries s))))
    (seg_bytes node_id epoch s) = records (drop i (sg_entries s)).
Proof.
  unfold seg_bytes. rewrite <- drop_drop, drop_app_length.
  rewrite <- (take_drop i (sg_entries s)) at 2. by rewrite journal_records_app, drop_app_length.
Qed.

Lemma read_files_entries j d segs from n m sub st :
  segs_ok segs -> ids_ok (j_node j) (j_epoch j) ->
  d_files d = disk_of (j_node j) (j_epoch j) segs ->
  Forall (checkpoint_ok (j_node j) (j_epoch j) segs) (j_checkpoints j) ->
  window_fits j segs m -> Forall (.∈ segs) sub ->
  exists st', end_state (read_entries from n m (entries_of sub) st) = Some st' /\
    read_files crc32 j d from n m (sg_no <$> sub) st = inr st'.
Proof using crc32_range.
  intros Hok Hids Hd Hcps Hwin Hsub. revert st.
  induction Hsub as [|s sub Hs Hsub IH]; intros st; [by eexists|].
  change (entries_of (s :: sub)) with (sg_entries s ++ entries_of sub).
  cbn [fmap list_fmap read_files]. rewrite Hd, (file_get_disk_of _ _ _ _ Hok Hs).
  unfold seg_bytes at 1, header_of at 1. rewrite header_len_encode by done. cbv zeta.
  destruct (checkpoint_offset_ok _ _ _ _ s from Hok Hs Hcps) as (i & Hoff & Hskip).
  unfold header_of in Hoff at 1. rewrite Hoff.
  rewrite read_window_all by (by eapply Forall_forall in Hwin; eauto).
  destruct (segs_ok_wf _ _ Hok Hs) as (Hwf & _).
  rewrite drop_seg_bytes, read_buffer_records by (done || by apply Forall_drop).
  assert (read_entries from n m (sg_entries s) st
          = read_entries from n m (drop i (sg_entries s)) st) as Heq.
  { rewrite <- (take_drop i (sg_entries s)) at 1.
    by rewrite read_entries_app, (read_entries_skip _ _ _ _ _ Hskip). }
  rewrite read_entries_app, Heq.
  destruct (read_entries from n m (drop i (sg_entries s)) st) as [st'|st'|] eqn:Hr; eauto.
  destruct (read_entries_spec from n m (drop i (sg_entries s)) st) as (? & ? & _ & Hend & _).
  by rewrite Hr in Hend.
Qed.

Definition seg_ends_after (from : Z) (s : Seg) : bool :=
  match seg_last s with Some l => from <? l | None => false end.

(** The files a read opens are those with an entry to return. *)
Lemma read_entries_filter segs from n m st :
  segs_ok segs ->
  read_entries from n m (entries_of (filter (fun s => seg_ends_after from s = true) segs)) st
  = read_entries from n m (entries_of segs) st.
Proof.
  intros Hok. revert st. induction segs as [|s segs IH]; intros st; [done|].
  pose proof Hok as ((Hwf & Hc & _) & Hok' & _).
  change (entries_of (s :: segs)) with (sg_entries s ++ entries_of segs).
  rewrite read_entries_app. destruct (decide (seg_ends_after from s = true)) as [He|He].
  - rewrite filter_cons_True by done.
    change (entries_of (s :: filter _ segs)) with (sg_entries s ++ entries_of (filter (fun s => seg_ends_after from s = true) segs)).
    rewrite read_entries_app. destruct (read_entries _ _ _ _ st); auto.
  - rewrite filter_cons_False by done. rewrite (read_entries_skip from n m (sg_entries s)); [by apply IH|].
    apply Forall_forall. intros e Hin. pose proof (consecutive_range _ _ _ Hc Hin).
    unfold seg_ends_after, seg_last in He.
    destruct (sg_entries s) eqn:Es; [by apply elem_of_nil in Hin|].
    apply not_true_iff_false, Z.ltb_ge in He. unfold seg_end in He. rewrite Es in He. lia.
Qed.

Lemma filter_files node_id epoch files segs from :
  Forall2 (meta_ok node_id epoch) files segs ->
  fm_no <$> filter (fun f => ends_after from f = true) files
  = sg_no <$> filter (fun s => seg_ends_after from s = true) segs.
Proof.
  induction 1 as [|f s files segs (Hno & _ & Hl & _) _ IH]; [done|].
  assert (ends_after from f = seg_ends_after from s) as Heq
    by (unfold ends_after, seg_ends_after; by rewrite Hl).
  destruct (decide (seg_ends_after from s = true)).
  - rewrite !filter_cons_True by congruence. cbn [fmap list_fmap]. by rewrite Hno, IH.
  - by rewrite !filter_cons_False by congruence.
Qed.

(** A read of an undamaged journal, from a position it can serve and with a
    window that covers its files, is the read of its entries. *)
Lemma read_range_spec j d segs s from n m :
  represents j d segs s -> oldest_seq j <= from -> window_fits j (segs ++ [s]) m ->
  exists es rest,
    filter (fun e => from < je_seq e) (entries_of (segs ++ [s])) = es ++ rest /\
    read_range crc32 j d from n m
    = inr (Entries es (match last es with Some e => je_seq e | None => from end)) /\
    (es = [] -> rest = []) /\
    (rest <> [] -> (n <= length es)%nat \/ m <= Z.of_nat (length (records es))).
Proof using crc32_range.
  intros [[] _] Hold Hwin. unfold read_range. rewrite (proj2 (Z.ltb_ge _ _)) by done. cbv zeta.
  rewrite (filter_files _ _ _ _ _ rp_files0).
  set (st := {| rs_entries := []; rs_bytes := 0; rs_next := from |}).
  destruct (read_files_entries j d (segs ++ [s]) from n m
    (filter (fun s => seg_ends_after from s = true) (segs ++ [s])) st) as (st' & Hend & ->); try done.
  { apply Forall_forall. intros s' Hs'. by apply list_elem_of_filter in Hs' as [_ ?]. }
  rewrite read_entries_filter in Hend by done.
  destruct (read_entries_spec from n m (entries_of (segs ++ [s])) st)
    as (es & rest & Hf & Hend' & Hnil & Hrest).
  rewrite Hend in Hend'. apply (inj Some) in Hend' as ->. exists es, rest. by split_and!.
Qed.

(** ** The read of a position deep in a segment *)

(** The read checkpoints a running journal has for its active segment. *)
Definition live_checkpoints (j : Journal) (s : Seg) : Prop :=
  Forall (fun cp => cp_file cp = sg_no s -> cp_seq cp = sg_first s) (j_checkpoints j).

Lemma read_buffer_cut fuel from n m es k st :
  Forall entry_wf es -> Forall (fun e => je_seq e <= from) es ->
  end_state (read_buffer crc32 fuel from n m (take k (records es)) st) = Some st.
Proof using crc32_range.
  intros Hwf Hle. revert fuel k. induction Hwf as [|e es He Hwf IH]; intros fuel k.
  { change (records []) with (@nil byte). by rewrite take_nil, read_buffer_nil. }
  apply Forall_cons in Hle as [Hse Hle]. rewrite records_cons.
  destruct (decide (k < length (encode_record crc32 e))%nat) as [Hk|Hk].
  - rewrite take_app_le by lia.
    destruct fuel as [|fuel]; [by destruct (take k _)|]. cbn [read_buffer].
    rewrite decode_truncated by done. by destruct (take k _).
  - rewrite take_app_ge by lia.
    destruct (encode_record_nonempty e (take (k - length (encode_record crc32 e)) (records es)))
      as (b & bs & Hb).
    destruct fuel as [|fuel]; [by rewrite Hb|]. cbn [read_buffer]. rewrite Hb, <- Hb.
    rewrite decode_encode_record, drop_app_length, (proj2 (Z.leb_le _ _)) by done. by apply IH.
Qed.

Lemma checkpoint_offset_live j segs s from :
  segs_ok (segs ++ [s]) -> Forall (checkpoint_ok (j_node j) (j_epoch j) (segs ++ [s])) (j_checkpoints j) ->
  live_checkpoints j s ->
  checkpoint_offset (j_checkpoints j) (sg_no s) from (length (header_of (j_node j) (j_epoch j) s))
  = length (header_of (j_node j) (j_epoch j) s).
Proof.
  intros Hok Hcps Hlive. unfold checkpoint_offset.
  destruct (find _ _) as [cp|] eqn:Hfind; [|done].
  apply find_some in Hfind as [Hin [Hno%Z.eqb_eq Hseq%Z.leb_le]%andb_true_iff].
  apply in_rev, list_elem_of_In in Hin. unfold live_checkpoints in Hlive.
  rewrite Forall_forall in Hcps, Hlive.
  destruct (Hcps _ Hin) as (s' & i & Hs' & Hf & Hi & Hcs & Hoff). specialize (Hlive _ Hin Hno).
  assert (s' = s) as -> by (eapply segs_ok_no_inj; eauto using active_in; congruence).
  assert (i = 0%nat) as -> by lia. rewrite Hoff, Nat2Z.id, take_0. by rewrite Nat.add_0_r.
Qed.

(** The segments before one end before its first sequence. *)
Lemma earlier_segments segs s s' :
  segs_ok (segs ++ [s]) -> s' ∈ segs -> seg_end s' <= sg_first s.
Proof.
  revert s'. induction segs as [|s1 segs IH]; intros s'; [by rewrite elem_of_nil|].
  cbn [app segs_ok]. intros (Hw & Hok & Hnext) [->|Hin]%elem_of_cons; [|by apply IH].
  destruct segs as [|s2 segs]; cbn [app] in Hnext; destruct Hnext as (_ & Hf & _); [lia|].
  assert (seg_end s2 <= sg_first s) by (apply IH; [done|constructor]). unfold seg_end in *. lia.
Qed.

Lemma only_active_after segs s from :
  segs_ok (segs ++ [s]) -> sg_first s - 1 <= from < seg_end s - 1 ->
  filter (fun s => seg_ends_after from s = true) (segs ++ [s]) = [s].
Proof.
  intros Hok Hfrom. rewrite filter_app. rewrite filter_false_in.
  - rewrite filter_cons_True; [done|]. unfold seg_ends_after, seg_last.
    unfold seg_end in Hfrom. destruct (sg_entries s) eqn:Es; [cbn in Hfrom; lia|].
    apply Z.ltb_lt. unfold seg_end. rewrite Es. lia.
  - intros s' Hs' He. pose proof (earlier_segments _ _ _ Hok Hs').
    unfold seg_ends_after, seg_last in He. destruct (sg_entries s'); [done|].
    apply Z.ltb_lt in He. lia.
Qed.

Lemma read_deep_in_segment j d segs s from n m i :
  represents j d segs s -> oldest_seq j <= from -> 0 <= m -> live_checkpoints j s ->
  from = sg_first s + Z.of_nat i - 1 -> (i < length (sg_entries s))%nat ->
  m + MAX_JOURNAL_KEY_BYTES + 128 <= Z.of_nat (length (records (take i (sg_entries s)))) ->
  read_range crc32 j d from n m = inr (Entries [] from).
Proof using crc32_range.
  intros [[] _] Hold Hm Hlive Hfrom Hi Hdeep. unfold read_range.
  rewrite (proj2 (Z.ltb_ge _ _)) by done. cbv zeta. rewrite (filter_files _ _ _ _ _ rp_files0).
  rewrite only_active_after by (done || unfold seg_end; lia). cbn [fmap list_fmap read_files].
  pose proof (active_in segs s) as Hs.
  rewrite rp_disk0, (file_get_disk_of _ _ _ _ rp_segs0 Hs).
  unfold seg_bytes at 1, header_of at 1. rewrite header_len_encode by done.
  change (encode_segment_header crc32 (j_node j) (j_epoch j) (sg_first s))
    with (header_of (j_node j) (j_epoch j) s).
  rewrite (checkpoint_offset_live _ _ _ _ rp_segs0 rp_cps0 Hlive). cbv zeta.
  destruct (segs_ok_wf _ _ rp_segs0 Hs) as (Hwf & Hc & _).
  assert (exists k, read_window (seg_bytes (j_node j) (j_epoch j) s)
      (length (header_of (j_node j) (j_epoch j) s)) m = take k (records (take i (sg_entries s)))) as [k ->].
  { unfold read_window. eexists. unfold seg_bytes at 2. rewrite drop_app_length.
    rewrite <- (take_drop i (sg_entries s)) at 1. rewrite journal_records_app, take_app_le; [done|].
    unfold saturating_add64. lia. }
  rewrite <- (take_drop i (sg_entries s)) in Hc. apply consecutive_app in Hc as [Hc _].
  assert (Forall (fun e => je_seq e <= from) (take i (sg_entries s))) as Hle.
  { apply Forall_forall. intros e He. pose proof (consecutive_range _ _ _ Hc He) as Hr.
    rewrite length_take in Hr. lia. }
  pose proof (read_buffer_cut (length (take k (records (take i (sg_entries s))))) from n m
    (take i (sg_entries s)) k {| rs_entries := []; rs_bytes := 0; rs_next := from |}
    (Forall_take _ _ _ Hwf) Hle) as Hend.
  by destruct (read_buffer _ _ _ _ _ _ _); cbn in Hend; simplify_eq/=.
Qed.

(** ** Appending keeps the journal undamaged *)

Lemma read_write_manifest d m :
  length (mf_epoch m) = 16%nat -> is_u64 (mf_base_seq m) -> is_u64 (mf_gap_floor m) ->
  is_u64 (mf_active m) -> is_u64 (mf_generation m) ->
  read_manifest crc32 (write_manifest crc32 d m) = Some m.
Proof using crc32_range.
  intros He Hb Hg Ha Hgen. pose proof (crc32_range (manifest_body m)) as Hc.
  assert (length (manifest_body m) = 60%nat) as Hl.
  { unfold manifest_body. by rewrite !length_app, !length_to_le, He. }
  unfold read_manifest, write_manifest. cbn [d_manifest].
  rewrite length_app, length_to_le, Hl. cbn [Nat.add Nat.ltb Nat.leb orb Nat.sub].
  rewrite take_app_length' by done. rewrite (field_skip 60 0 4 _ _ 60 64) by (done || lia).
  rewrite (field_all (to_le 4 _)) by apply length_to_le. rewrite le4, Z.eqb_refl by done.
  rewrite !field_prefix by (rewrite Hl; lia). unfold manifest_body.
  repeat field_norm. rewrite bool_decide_true by done. cbn [negb].
  rewrite !le8 by done. by destruct m.
Qed.

Lemma u64_wrap z : is_u64 (wrap64 z).
Proof.
  unfold is_u64, wrap64, u64_max. pose proof (Z.mod_pos_bound z (2 ^ 64) ltac:(lia)). lia.
Qed.

Lemma u64_succ_small x : 0 <= x < u64_max -> u64_succ x = x + 1.
Proof. intros H. unfold u64_succ, wrap64. apply Z.mod_small. unfold u64_max in H. lia. Qed.

Lemma u64_pred_small x : 0 < x <= u64_max -> u64_pred x = x - 1.
Proof. intros H. unfold u64_pred, wrap64. apply Z.mod_small. unfold u64_max in H. lia. Qed.

Lemma oldest_seq_holds j d segs s :
  holds j d segs s ->
  oldest_seq j = Z.max (match segs with s' :: _ => sg_first s' | [] => sg_first s end - 1) (j_gap_floor j)
  /\ is_u64 (oldest_seq j).
Proof.
  intros []. unfold oldest_seq.
  assert (exists f fs s', j_files j = f :: fs /\ fm_first f = Some (sg_first s') /\ s' ∈ segs ++ [s] /\
    sg_first s' = match segs with s' :: _ => sg_first s' | [] => sg_first s end)
    as (f & fs & s' & -> & -> & Hin & <-).
  { destruct segs as [|s' segs]; inversion rp_files0 as [|f ? fs ? (_ & Hf & _)];
      do 3 eexists; (split; [done|split; [done|split; [constructor|done]]]). }
  destruct (segs_ok_wf _ _ rp_segs0 Hin) as (_ & _ & H1 & H2).
  unfold seg_end in H2. unfold is_u64, saturating_sub in *. split; lia.
Qed.

Lemma write_manifest_represents j d segs s base active :
  holds j d segs s -> is_u64 base -> is_u64 active ->
  let '(j', d') := write_manifest_now crc32 j d base active in
  represents j' d' segs s /\ j_checkpoints j' = j_checkpoints j.
Proof using crc32_range.
  intros Hh Hb Ha. destruct Hh. cbn. split; [split; [by constructor|]|done].
  eexists. rewrite read_write_manifest; cbn; try done; [apply rp_ids0|apply u64_wrap].
Qed.

Definition extend (s : Seg) (es : list JournalEntry) : Seg :=
  {| sg_no := sg_no s; sg_first := sg_first s; sg_entries := sg_entries s ++ es |}.

Lemma seg_end_extend s es : seg_end (extend s es) = seg_end s + Z.of_nat (length es).
Proof. unfold seg_end, extend. cbn [sg_entries sg_first]. rewrite length_app. lia. Qed.

Lemma seg_bytes_extend node_id epoch s es :
  seg_bytes node_id epoch (extend s es) = seg_bytes node_id epoch s ++ records es.
Proof. unfold seg_bytes. cbn [extend sg_entries]. by rewrite journal_records_app, app_assoc. Qed.

(** Replacing the active segment, and adding one. *)
Lemma segs_ok_replace segs s s' :
  segs_ok (segs ++ [s]) -> seg_wf s' -> sg_no s' = sg_no s -> sg_first s' = sg_first s ->
  segs_ok (segs ++ [s']).
Proof.
  intros Hok Hw Hno Hf. induction segs as [|s1 segs IH]; [done|].
  cbn [app segs_ok] in *. destruct Hok as (H1 & H2 & H3). split_and!; auto.
  destruct segs as [|s2 segs]; cbn [app] in *; [|done]. by rewrite Hno, Hf.
Qed.

Lemma segs_ok_snoc segs s s' :
  segs_ok (segs ++ [s]) -> seg_wf s' -> sg_no s < sg_no s' -> sg_first s' = seg_end s ->
  sg_entries s <> [] -> segs_ok ((segs ++ [s]) ++ [s']).
Proof.
  intros Hok Hw Hno Hf Hne. induction segs as [|s1 segs IH]; [by destruct Hok as (?&?&?)|].
  cbn [app segs_ok] in *. destruct Hok as (H1 & H2 & H3). split_and!; auto.
  by destruct segs as [|s2 segs]; cbn [app] in *.
Qed.

Lemma earlier_numbers segs s s' : segs_ok (segs ++ [s]) -> s' ∈ segs -> sg_no s' < sg_no s.
Proof.
  induction segs as [|s1 segs IH]; [by rewrite elem_of_nil|]. intros Hok.
  intros [->|Hin]%elem_of_cons.
  - apply (segs_ok_numbers s1 (segs ++ [s])); [done|apply active_in].
  - apply IH; [by destruct Hok as (_ & ? & _)|done].
Qed.

Lemma file_put_active node_id epoch segs s no c :
  Forall (fun s' => sg_no s' < no) segs -> sg_no s = no ->
  file_put (disk_of node_id epoch (segs ++ [s])) no c
  = disk_of node_id epoch segs ++ [(no, c)].
Proof.
  intros Hlt Hno. induction Hlt as [|s1 segs H1 _ IH]; unfold disk_of; cbn [app fmap list_fmap file_put].
  - by rewrite Hno, Z.eqb_refl.
  - rewrite (proj2 (Z.eqb_neq _ _)), (proj2 (Z.ltb_ge _ _)) by lia. f_equal. apply IH.
Qed.

Lemma new_segment_disk node_id epoch segs no c :
  Forall (fun s' => sg_no s' < no) segs ->
  file_put (disk_of node_id epoch segs) no c = disk_of node_id epoch segs ++ [(no, c)].
Proof.
  induction 1 as [|s1 segs H1 _ IH]; [done|]. unfold disk_of; cbn [app fmap list_fmap file_put].
  rewrite (proj2 (Z.eqb_neq _ _)), (proj2 (Z.ltb_ge _ _)) by lia. f_equal. apply IH.
Qed.

Lemma disk_of_snoc node_id epoch segs s :
  disk_of node_id epoch (segs ++ [s]) = disk_of node_id epoch segs ++ [(sg_no s, seg_bytes node_id epoch s)].
Proof. unfold disk_of. by rewrite fmap_app. Qed.

Lemma file_append_active node_id epoch segs s es :
  segs_ok (segs ++ [s]) ->
  file_append (disk_of node_id epoch (segs ++ [s])) (sg_no s) (records es)
  = disk_of node_id epoch (segs ++ [extend s es]).
Proof.
  intros Hok. unfold file_append.
  rewrite (file_get_disk_of _ _ _ _ Hok (active_in segs s)). cbn [default from_option id].
  rewrite file_put_active, disk_of_snoc, seg_bytes_extend; [done| |done].
  apply Forall_forall. intros s' Hs'. by apply earlier_numbers with segs.
Qed.

Lemma update_first_active node_id epoch files segs s g s' :
  Forall2 (meta_ok node_id epoch) files (segs ++ [s]) -> Forall (fun s' => sg_no s' < sg_no s) segs ->
  (forall f, meta_ok node_id epoch f s -> meta_ok node_id epoch (g f) s') ->
  Forall2 (meta_ok node_id epoch) (update_first (fun f => fm_no f =? sg_no s) g files) (segs ++ [s']).
Proof.
  intros HF Hlt Hg. revert files HF. induction Hlt as [|s1 segs H1 _ IH]; intros files HF.
  - inversion HF as [|f ? fs ? Hf Hnil]; subst. inversion Hnil; subst.
    cbn [update_first]. pose proof Hf as (-> & _). rewrite Z.eqb_refl. constructor; auto.
  - inversion HF as [|f ? fs ? Hf HF']; subst. cbn [update_first]. pose proof Hf as (-> & _).
    rewrite (proj2 (Z.eqb_neq _ _)) by lia. constructor; auto.
Qed.

(** The numbers a batch gets. *)
Lemma assign_consecutive next items :
  0 <= next -> next + Z.of_nat (length items) <= u64_max ->
  consecutive next (assign next items) /\ seq_after next items = next + Z.of_nat (length items).
Proof.
  unfold seq_after. revert next. induction items as [|[[op key] hlc] items IH]; intros next H0 Hmax.
  { cbn. split; [done|lia]. }
  cbn [length] in Hmax. cbn [assign consecutive]. rewrite u64_succ_small by lia.
  destruct (IH (next + 1)) as [Hc Hn]; [lia|lia|]. split; [done|].
  cbn [length]. rewrite Nat.iter_succ_r, u64_succ_small, Hn by lia. lia.
Qed.

Lemma assign_length next items : length (assign next items) = length items.
Proof. revert next. induction items as [|[[op key] hlc] items IH]; intros next; simpl; auto. Qed.

Lemma checkpoint_ok_extend node_id epoch segs s es cp :
  checkpoint_ok node_id epoch (segs ++ [s]) cp ->
  checkpoint_ok node_id epoch (segs ++ [extend s es]) cp.
Proof.
  intros (s' & i & Hin & Hf & Hi & Hseq & Hoff). apply elem_of_app in Hin as [Hin|Hin].
  - exists s', i. split_and!; try done. apply elem_of_app. by left.
  - apply list_elem_of_singleton in Hin as ->. exists (extend s es), i.
    cbn [extend sg_no sg_first sg_entries]. rewrite length_app, take_app_le by lia.
    split_and!; try done; [apply active_in|lia].
Qed.

Definition items_wf (items : list (JournalOp * bytes * Hlc)) : Prop :=
  Forall (fun '(_, key, hlc) => Z.of_nat (length key) <= MAX_JOURNAL_KEY_BYTES /\ hlc_wf hlc) items.

Lemma keys_accepted items :
  items_wf items ->
  existsb (fun '(_, key, _) => MAX_JOURNAL_KEY_BYTES <? Z.of_nat (length key)) items = false.
Proof.
  intros Hi. apply not_true_iff_false. intros Hx.
  apply existsb_exists in Hx as ([[op key] hlc] & Hin & Hlt). apply list_elem_of_In in Hin.
  unfold items_wf in Hi. rewrite Forall_forall in Hi. destruct (Hi _ Hin) as [Hk _].
  apply Z.ltb_lt in Hlt. lia.
Qed.

Lemma assign_wf next items :
  items_wf items -> 0 <= next -> next + Z.of_nat (length items) <= u64_max ->
  Forall entry_wf (assign next items).
Proof.
  intros Hw. revert next. induction Hw as [|[[op key] hlc] items [Hk Hh] _ IH]; intros next H0 Hmax.
  { by constructor. }
  cbn [assign]. cbn [length] in Hmax. rewrite u64_succ_small by lia.
  constructor; [split_and!; [split; cbn; lia|done|done]|apply IH; lia].
Qed.

Lemma extend_wf s items :
  seg_wf s -> items_wf items -> seg_end s + Z.of_nat (length items) <= u64_max ->
  seg_wf (extend s (assign (seg_end s) items)).
Proof.
  intros (Hw & Hc & H1 & Hend) Hi Hmax. unfold seg_end in *.
  destruct (assign_consecutive (sg_first s + Z.of_nat (length (sg_entries s))) items) as [Hc' _]; [lia|done|].
  repeat split; cbn [extend sg_entries sg_first].
  - apply Forall_app. split; [done|]. apply assign_wf; [done|lia|done].
  - by apply consecutive_app.
  - done.
  - fold (seg_end (extend s (assign (sg_first s + Z.of_nat (length (sg_entries s))) items))).
    rewrite seg_end_extend, assign_length. unfold seg_end. lia.
Qed.

Lemma flush_holds j d segs s items now :
  holds j d segs s -> items <> [] -> items_wf items ->
  seg_end s + Z.of_nat (length items) <= u64_max ->
  let es := assign (seg_end s) items in
  let '(j', d') := complete_flush j d (records es) (seg_end s + Z.of_nat (length items)) now in
  holds j' d' segs (extend s es).
Proof.
  intros [] Hne Hi Hmax. pose proof (segs_ok_wf _ _ rp_segs0 (active_in _ _)) as Hws.
  pose proof (extend_wf s items Hws Hi Hmax) as Hwe. destruct Hws as (_ & _ & H1 & _).
  assert (0 < Z.of_nat (length items)) as Hpos by (destruct items; [done|cbn [length]; lia]).
  assert (1 <= seg_end s) as Hend by (unfold seg_end; lia).
  cbv zeta. unfold complete_flush. rewrite u64_pred_small by lia.
  set (es := assign (seg_end s) items) in *.
  assert (length es = length items) as Hlen by apply assign_length.
  constructor; cbn [j_node j_epoch d_files j_files j_active j_active_size j_next j_synced j_failed
    j_checkpoints j_gap_floor]; try done.
  - by apply segs_ok_replace with s.
  - by rewrite rp_disk0, rp_active0, file_append_active.
  - rewrite rp_active0. apply update_first_active; [done| |].
    + apply Forall_forall. intros s' Hs'. by apply earlier_numbers with segs.
    + intros f (Hno & Hf & Hl & Hs). unfold flushed_meta, meta_ok. cbn [fm_no fm_first fm_last fm_size].
      split_and!; try done.
      * unfold seg_last in *. cbn [extend sg_entries]. rewrite seg_end_extend, Hlen, Hl.
        destruct (sg_entries s ++ es) as [|e0 es0] eqn:E.
        { apply app_eq_nil in E as [_ E]. rewrite E in Hlen. cbn in Hlen. lia. }
        destruct (sg_entries s); f_equal; lia.
      * rewrite rp_size0, seg_bytes_extend, length_app. lia.
  - rewrite rp_size0, seg_bytes_extend, length_app. lia.
  - by rewrite seg_end_extend, Hlen.
  - rewrite rp_synced0, seg_end_extend, Hlen. lia.
  - eapply Forall_impl; [done|]. intros cp. apply checkpoint_ok_extend.
Qed.

(** The segment a rotation opens. *)
Definition fresh_seg (s : Seg) : Seg :=
  {| sg_no := sg_no s + 1; sg_first := seg_end s; sg_entries := [] |}.

Lemma insert_checkpoint_elem cp cps c : c ∈ insert_checkpoint cp cps <-> c = cp \/ c ∈ cps.
Proof.
  induction cps as [|c' cps IH]; cbn [insert_checkpoint].
  - by rewrite list_elem_of_singleton, elem_of_nil; tauto.
  - destruct (_ <=? _); rewrite ?elem_of_cons, ?IH; tauto.
Qed.

Lemma seg_bytes_empty node_id epoch s :
  sg_entries s = [] -> seg_bytes node_id epoch s = header_of node_id epoch s.
Proof. intros H. unfold seg_bytes. rewrite H. apply app_nil_r. Qed.

Lemma seg_end_fresh s : seg_end (fresh_seg s) = seg_end s.
Proof. unfold seg_end at 1. cbn [fresh_seg sg_entries sg_first length]. lia. Qed.

Lemma fresh_seg_wf s : seg_wf s -> seg_wf (fresh_seg s).
Proof.
  intros (_ & _ & H1 & H2). unfold seg_wf. rewrite seg_end_fresh. cbn [fresh_seg sg_entries sg_first].
  split_and!; try done. unfold seg_end. lia.
Qed.

(** The checkpoints after a rotation. *)
Lemma rotated_checkpoints node_id epoch segs s cps :
  Forall (checkpoint_ok node_id epoch (segs ++ [s])) cps ->
  let cps' := insert_checkpoint
    {| cp_seq := seg_end s; cp_file := sg_no s + 1;
       cp_offset := Z.of_nat (length (header_of node_id epoch (fresh_seg s))) |}
    (filter (fun cp => cp_file cp <> sg_no s + 1) cps) in
  Forall (checkpoint_ok node_id epoch ((segs ++ [s]) ++ [fresh_seg s])) cps' /\
  Forall (fun cp => cp_file cp = sg_no (fresh_seg s) -> cp_seq cp = sg_first (fresh_seg s)) cps'.
Proof.
  intros Hcps. cbv zeta. rewrite Forall_forall in Hcps.
  split; apply Forall_forall; intros cp [->|[Hf Hcp]%list_elem_of_filter]%insert_checkpoint_elem; try done.
  - exists (fresh_seg s), 0%nat. cbn [cp_file cp_seq cp_offset fresh_seg sg_no sg_first sg_entries take].
    split_and!; try done; [apply active_in|lia|by rewrite Nat.add_0_r].
  - destruct (Hcps _ Hcp) as (s' & i & Hin & ?). exists s', i. split; [|done].
    apply elem_of_app. by left.
Qed.

Lemma rotate_holds j d segs s now :
  holds j d segs s -> sg_entries s <> [] -> 0 <= sg_no s < u64_max ->
  let '(j', d') := rotate_locked crc32 j d now in
  represents j' d' (segs ++ [s]) (fresh_seg s) /\ live_checkpoints j' (fresh_seg s).
Proof using crc32_range.
  intros Hh Hne Hno. pose proof Hh as [].
  pose proof (segs_ok_wf _ _ rp_segs0 (active_in _ _)) as Hws.
  assert (Forall (fun s' => sg_no s' < sg_no s + 1) (segs ++ [s])) as Hlt.
  { apply Forall_app. split; [|repeat constructor; lia]. apply Forall_forall. intros s' Hs'.
    pose proof (earlier_numbers _ _ _ rp_segs0 Hs'). lia. }
  destruct (rotated_checkpoints _ _ _ _ _ rp_cps0) as [Hcps Hlive].
  unfold rotate_locked. rewrite rp_active0, rp_next0, u64_succ_small by lia. cbv zeta.
  change (encode_segment_header crc32 (j_node j) (j_epoch j) (seg_end s))
    with (header_of (j_node j) (j_epoch j) (fresh_seg s)).
  match goal with |- context [write_manifest_now crc32 ?j1 ?d1] => set (j' := j1); set (d' := d1) end.
  assert (holds j' d' (segs ++ [s]) (fresh_seg s)) as Hh'.
  { constructor; unfold j', d'; cbn [j_node j_epoch d_files j_files j_active j_active_size j_next
      j_synced j_failed j_checkpoints j_gap_floor]; rewrite ?seg_end_fresh; try done.
    - apply segs_ok_snoc; try done; [by apply fresh_seg_wf|cbn [fresh_seg sg_no]; lia].
    - by rewrite rp_disk0, new_segment_disk, (disk_of_snoc _ _ (segs ++ [s])), seg_bytes_empty.
    - apply Forall2_app; [|repeat constructor; by rewrite seg_bytes_empty].
      rewrite filter_true_in; [done|]. intros f Hf. apply list_elem_of_lookup in Hf as [i Hi].
      destruct (Forall2_lookup_l _ _ _ _ _ rp_files0 Hi) as (s' & Hs' & Hm & _).
      apply list_elem_of_lookup_2 in Hs'. rewrite Forall_forall in Hlt. specialize (Hlt _ Hs'). lia.
    - by rewrite seg_bytes_empty. }
  destruct (oldest_seq_holds _ _ _ _ Hh') as [_ Hold].
  pose proof (write_manifest_represents j' d' _ _ (oldest_seq j') (sg_no s + 1) Hh' Hold ltac:(split; lia)) as Hw.
  destruct (write_manifest_now _ _ _ _ _) as [j2 d2]. destruct Hw as [Hw Heq]. split; [done|].
  unfold live_checkpoints. by rewrite Heq.
Qed.

(** An append of an accepted batch extends the journal by its entries, in a
    segment that may have been closed behind them. *)
Lemma append_represents j d segs s items now :
  represents j d segs s -> items <> [] -> items_wf items ->
  seg_end s + Z.of_nat (length items) <= u64_max -> 0 <= sg_no s < u64_max ->
  let es := assign (seg_end s) items in
  exists j' d' segs' s', append_batch crc32 j d items FlushOk now = (j', d', inr (je_seq <$> es)) /\
    represents j' d' segs' s' /\
    ((segs', s') = (segs, extend s es) /\ j_checkpoints j' = j_checkpoints j \/
     (segs', s') = (segs ++ [extend s es], fresh_seg (extend s es)) /\ live_checkpoints j' s').
Proof using crc32_range.
  intros [Hh (m & Hm & Hme & Hmg)] Hne Hi Hmax Hno. cbv zeta.
  pose proof (segs_ok_wf _ _ (rp_segs _ _ _ _ Hh) (active_in _ _)) as (_ & _ & H1 & _).
  assert (1 <= seg_end s) as Hend by (unfold seg_end; lia).
  destruct (assign_consecutive (seg_end s) items) as [_ Hseq]; [lia|done|].
  pose proof (flush_holds j d segs s items now Hh Hne Hi Hmax) as Hf. cbv zeta in Hf.
  unfold append_batch. destruct items as [|i0 items0] eqn:Ei; [done|]. rewrite <- Ei in *.
  rewrite (keys_accepted _ Hi), (rp_failed _ _ _ _ Hh), (rp_next _ _ _ _ Hh), Hseq. cbv zeta.
  change (mjoin (encode_record crc32 <$> assign (seg_end s) items)) with (records (assign (seg_end s) items)).
  destruct (complete_flush j d _ _ now) as [j1 d1] eqn:Hcf.
  assert (j_checkpoints j1 = j_checkpoints j /\ manifest_ok j1 d1) as [Hcps Hmf].
  { injection Hcf as <- <-. split; [done|]. by exists m. }
  assert (sg_entries (extend s (assign (seg_end s) items)) <> []) as Hene.
  { cbn [extend sg_entries]. intros E%app_eq_nil. destruct E as [_ E].
    pose proof (assign_length (seg_end s) items) as Hl. rewrite E, Ei in Hl. done. }
  destruct (_ <=? _).
  - pose proof (rotate_holds j1 d1 _ _ now Hf Hene Hno) as Hr.
    destruct (rotate_locked crc32 j1 d1 now) as [j2 d2]. destruct Hr as [Hr Hl].
    do 4 eexists. split; [done|]. split; [done|]. by right.
  - do 4 eexists. split; [done|]. split; [by split|]. by left.
Qed.

(** ** Recovery of an undamaged journal with a torn tail *)

(** What [scan_file] collects from the records themselves. *)
Fixpoint scan_entries (file_no : Z) (cursor : nat) (es : list JournalEntry) (sc : Scan) : Scan :=
  match es with
  | [] => sc
  | e :: es =>
      scan_entries file_no (cursor + length (encode_record crc32 e)) es
        (take_record file_no cursor (sc_gap sc) (je_seq e) sc)
  end.

(** The scan is in front of the record numbered [a]. *)
Definition scan_at (a : Z) (previous : option Z) (sc : Scan) : Prop :=
  (exists f, sc_first sc = Some f /\ sc_last sc = Some (a - 1)) \/
  (sc_first sc = None /\ sc_last sc = None /\ (previous = None \/ previous = Some (a - 1))).

Lemma scan_at_step file_no cursor a previous sc :
  scan_at a previous sc -> scan_at (a + 1) previous (take_record file_no cursor (sc_gap sc) a sc).
Proof.
  intros H. left. unfold take_record. cbn [sc_first sc_last].
  replace (a + 1 - 1) with a by lia. destruct (sc_first sc); eauto.
Qed.

Lemma scan_file_step fuel is_last previous file_no content cursor e rest sc :
  drop cursor content = encode_record crc32 e ++ rest -> entry_wf e ->
  1 <= je_seq e <= u64_max -> scan_at (je_seq e) previous sc ->
  scan_file crc32 (S fuel) is_last previous file_no content cursor sc
  = scan_file crc32 fuel is_last previous file_no content (cursor + length (encode_record crc32 e))
      (take_record file_no cursor (sc_gap sc) (je_seq e) sc).
Proof using crc32_range.
  intros Hd He Hseq Hat. cbn [scan_file].
  assert (cursor < length content)%nat as Hc.
  { pose proof (length_encode_record crc32 e). apply (f_equal length) in Hd.
    rewrite length_drop, length_app in Hd. lia. }
  rewrite (proj2 (Nat.ltb_lt _ _) Hc), Hd, decode_encode_record by done. cbv zeta.
  destruct Hat as [(f & -> & ->)|(-> & -> & Hp)].
  - rewrite (proj2 (Z.leb_gt _ _)), u64_succ_small, (proj2 (Z.ltb_ge _ _)) by lia. done.
  - destruct Hp as [->| ->]; [done|]. rewrite u64_succ_small by lia.
    replace (je_seq e - 1 + 1) with (je_seq e) by lia. by rewrite Z.eqb_refl.
Qed.

Lemma scan_file_records fuel is_last previous file_no pre es tail a sc :
  Forall entry_wf es -> consecutive a es -> 1 <= a -> a + Z.of_nat (length es) <= u64_max ->
  scan_at a previous sc -> (length (records es ++ tail) < fuel)%nat ->
  exists fuel', (length tail < fuel')%nat /\
    scan_file crc32 fuel is_last previous file_no (pre ++ records es ++ tail) (length pre) sc
    = scan_file crc32 fuel' is_last previous file_no (pre ++ records es ++ tail)
        (length pre + length (records es)) (scan_entries file_no (length pre) es sc).
Proof using crc32_range.
  intros Hwf. revert fuel pre a sc.
  induction Hwf as [|e es He Hwf IH]; intros fuel pre a sc Hc Ha Hmax Hat Hfuel.
  { exists fuel. by rewrite Nat.add_0_r. }
  destruct Hc as [<- Hc]. cbn [length] in Hmax. rewrite records_cons in *.
  pose proof (length_encode_record crc32 e) as Hl. rewrite !length_app in Hfuel.
  destruct fuel as [|fuel]; [lia|].
  rewrite (scan_file_step fuel is_last previous file_no _ _ e (records es ++ tail));
    [|by rewrite drop_app_length, <- app_assoc|done|lia|done].
  destruct (IH fuel (pre ++ encode_record crc32 e) (je_seq e + 1)
    (take_record file_no (length pre) (sc_gap sc) (je_seq e) sc)) as (fuel' & Hf' & Heq);
    [done|lia|lia|by apply scan_at_step|rewrite length_app; lia|].
  exists fuel'. split; [done|].
  assert (pre ++ (encode_record crc32 e ++ records es) ++ tail
          = (pre ++ encode_record crc32 e) ++ records es ++ tail) as -> by (by rewrite <- !app_assoc).
  rewrite length_app in Heq. rewrite Heq, length_app, Nat.add_assoc. cbn [scan_entries]. done.
Qed.

(** No offset inside a tail starts a whole record: the search for a later
    record, after the bad one at its start, finds nothing. *)
Definition no_hidden_frame (tail : bytes) : Prop :=
  forall o e n, (0 < o)%nat -> decode_record crc32 (drop o tail) <> Decoded e n.

Lemma find_resync_none n pre tail o last :
  no_hidden_frame tail -> (0 < o)%nat ->
  find_resync crc32 n (pre ++ tail) (length pre + o) last = None.
Proof.
  intros Hno. revert o. induction n as [|n IH]; intros o Ho; [done|]. cbn [find_resync].
  destruct (_ <=? _)%nat; [|done]. rewrite <- drop_drop, drop_app_length.
  replace (S (length pre + o)) with (length pre + S o)%nat by lia. specialize (Hno o).
  destruct (decode_record crc32 (drop o tail)) as [| |e k]; [apply IH; lia|apply IH; lia|].
  exfalso. by eapply Hno.
Qed.

(** The end of the scan: nothing is left, or a torn record that is cut off. *)
Lemma scan_file_tail fuel previous file_no pre tail sc is_last :
  (0 < fuel)%nat -> no_hidden_frame tail -> (forall e n, decode_record crc32 tail <> Decoded e n) ->
  tail = [] \/ is_last = true ->
  scan_file crc32 fuel is_last previous file_no (pre ++ tail) (length pre) sc = Scanned sc pre.
Proof.
  intros Hf Hno Hbad Htail. destruct fuel as [|fuel]; [lia|]. cbn [scan_file]. rewrite length_app.
  destruct tail as [|b tail].
  { rewrite (proj2 (Nat.ltb_ge _ _)) by (cbn; lia). by rewrite app_nil_r. }
  destruct Htail as [?| ->]; [done|]. rewrite (proj2 (Nat.ltb_lt _ _)) by (cbn; lia).
  rewrite drop_app_length, take_app_length. cbn [negb].
  replace (S (length pre)) with (length pre + 1)%nat by lia.
  rewrite find_resync_none by (done || lia).
  destruct (decode_record crc32 (b :: tail)) as [| |e n]; [done|done|]. by destruct (Hbad e n).
Qed.

Lemma scan_entries_spec file_no cursor es sc :
  let sc' := scan_entries file_no cursor es sc in
  sc_gap sc' = sc_gap sc /\
  sc_first sc' = match sc_first sc with Some f => Some f | None => je_seq <$> head es end /\
  sc_last sc' = match last es with Some e => Some (je_seq e) | None => sc_last sc end.
Proof.
  cbv zeta. revert cursor sc. induction es as [|e es IH]; intros cursor sc.
  { cbn [scan_entries]. split_and!; try done. by destruct (sc_first sc). }
  cbn [scan_entries]. destruct (IH (cursor + length (encode_record crc32 e))%nat
    (take_record file_no cursor (sc_gap sc) (je_seq e) sc)) as (-> & -> & ->).
  cbn [take_record sc_gap sc_first sc_last head fmap option_fmap option_map].
  split_and!; [done|by destruct (sc_first sc)|].
  destruct es as [|e' es]; [done|]. rewrite last_cons_cons.
  destruct (last (e' :: es)) eqn:El; [done|]. by apply last_None in El.
Qed.

Lemma scan_entries_cps node_id epoch segs x es1 es2 sc :
  seg_wf x -> x ∈ segs -> sg_entries x = es1 ++ es2 ->
  Forall (checkpoint_ok node_id epoch segs) (sc_cps sc) ->
  Forall (checkpoint_ok node_id epoch segs) (sc_cps (scan_entries (sg_no x)
    (length (header_of node_id epoch x) + length (records es1)) es2 sc)).
Proof.
  intros (_ & Hc & _) Hx. revert es1 sc. induction es2 as [|e es2 IH]; intros es1 sc Hes Hcps; [done|].
  cbn [scan_entries].
  replace (length (header_of node_id epoch x) + length (records es1) + length (encode_record crc32 e))%nat
    with (length (header_of node_id epoch x) + length (records (es1 ++ [e])))%nat
    by (rewrite journal_records_app, length_app; unfold records at 2; cbn; rewrite app_nil_r; lia).
  apply IH; [by rewrite <- app_assoc|]. cbn [take_record sc_cps].
  destruct (_ =? 0); [|done]. apply Forall_app. split; [done|]. repeat constructor.
  exists x, (length es1). cbn [cp_file cp_seq cp_offset]. rewrite Hes, take_app_length, length_app.
  split_and!; try done; [lia|]. rewrite Hes in Hc. apply consecutive_app in Hc as [_ Hc].
  cbn [consecutive] in Hc. lia.
Qed.

(** The index entry recovery makes for a segment. *)
Definition rec_meta (node_id : NodeId) (epoch : bytes) (mtime : Z -> option Z) (x : Seg) : FileMeta :=
  {| fm_no := sg_no x;
     fm_first := match sg_entries x with [] => None | _ => Some (sg_first x) end;
     fm_last := seg_last x; fm_size := Z.of_nat (length (seg_bytes node_id epoch x));
     fm_modified := mtime (sg_no x) |}.

Lemma file_get_here (X Y : Disk) no c :
  Forall (fun p => p.1 < no) X -> file_get (X ++ (no, c) :: Y) no = Some c.
Proof.
  induction 1 as [|[n' c'] X Hlt _ IH]; cbn [app file_get]; [by rewrite Z.eqb_refl|].
  cbn in Hlt. by rewrite (proj2 (Z.eqb_neq _ _)) by lia.
Qed.

Lemma file_put_here (X Y : Disk) no c c' :
  Forall (fun p => p.1 < no) X -> file_put (X ++ (no, c) :: Y) no c' = X ++ (no, c') :: Y.
Proof.
  induction 1 as [|[n' c0] X Hlt _ IH]; cbn [app file_put]; [by rewrite Z.eqb_refl|].
  cbn in Hlt. rewrite (proj2 (Z.eqb_neq _ _)), (proj2 (Z.ltb_ge _ _)) by lia. by rewrite IH.
Qed.

(** The records of a segment, scanned from its header on. *)
Lemma scan_seg node_id epoch is_last previous x tail gap seen cps :
  seg_wf x -> previous = None \/ previous = Some (sg_first x - 1) ->
  no_hidden_frame tail -> (forall e n, decode_record crc32 tail <> Decoded e n) ->
  tail = [] \/ is_last = true ->
  let sc := {| sc_first := None; sc_last := None; sc_gap := gap; sc_seen := seen; sc_cps := cps |} in
  let header := header_of node_id epoch x in
  scan_file crc32 (S (length (seg_bytes node_id epoch x ++ tail))) is_last previous (sg_no x)
    (seg_bytes node_id epoch x ++ tail) (length header) sc
  = Scanned (scan_entries (sg_no x) (length header) (sg_entries x) sc) (seg_bytes node_id epoch x).
Proof using crc32_range.
  intros (Hwf & Hc & H1 & Hmax) Hp Hno Hbad Htail. cbv zeta. unfold seg_bytes. rewrite <- app_assoc.
  destruct (scan_file_records
    (S (length (header_of node_id epoch x ++ records (sg_entries x) ++ tail))) is_last previous (sg_no x)
    (header_of node_id epoch x) (sg_entries x) tail (sg_first x)
    {| sc_first := None; sc_last := None; sc_gap := gap; sc_seen := seen; sc_cps := cps |})
    as (fuel' & Hf & ->); try done.
  - by right.
  - rewrite (length_app (header_of node_id epoch x)). lia.
  - rewrite app_assoc, <- length_app. apply scan_file_tail; try done. lia.
Qed.

Lemma seg_last_spec x :
  seg_wf x ->
  seg_last x = match last (sg_entries x) with Some e => Some (je_seq e) | None => None end /\
  je_seq <$> head (sg_entries x) = match sg_entries x with [] => None | _ => Some (sg_first x) end.
Proof.
  intros (_ & Hc & _). unfold seg_last, seg_end.
  destruct (sg_entries x) as [|e es] eqn:Ex; [done|]. split; [|by destruct Hc as [<- _]].
  destruct (exists_last (l := e :: es)) as (es' & e' & Heq); [done|]. rewrite Heq in *.
  rewrite last_snoc. apply consecutive_app in Hc as [_ [-> _]]. f_equal. rewrite length_app. cbn. lia.
Qed.

Definition tail_ok (is_last : bool) (tail : bytes) : Prop :=
  no_hidden_frame tail /\ (forall e n, decode_record crc32 tail <> Decoded e n) /\
  (tail = [] \/ is_last = true).

Lemma tail_ok_nil is_last : tail_ok is_last [].
Proof. split_and!; [|done|by left]. intros o e n _. by rewrite drop_nil. Qed.

(** One turn of the recovery on an undamaged segment. *)
Lemma recover_file_seg mtime node_id epoch is_last x tail X Y r :
  ids_ok node_id epoch -> seg_wf x -> tail_ok is_last tail ->
  Forall (fun p => p.1 < sg_no x) X ->
  rv_disk r = X ++ (sg_no x, seg_bytes node_id epoch x ++ tail) :: Y ->
  rv_epoch r = Some epoch -> rv_previous r = None \/ rv_previous r = Some (sg_first x - 1) ->
  exists c n,
    recover_file crc32 mtime is_last (sg_no x) r
    = Recovered {| rv_epoch := Some epoch; rv_gap := rv_gap r;
                   rv_files := rv_files r ++ [rec_meta node_id epoch mtime x]; rv_cps := c;
                   rv_last := match seg_last x with Some l => l | None => rv_last r end;
                   rv_seen := n;
                   rv_previous := match seg_last x with Some l => Some l | None => rv_previous r end;
                   rv_disk := X ++ (sg_no x, seg_bytes node_id epoch x) :: Y |} /\
    (forall segs, x ∈ segs -> Forall (checkpoint_ok node_id epoch segs) (rv_cps r) ->
                  Forall (checkpoint_ok node_id epoch segs) c).
Proof using crc32_range.
  intros Hids Hx (Hno & Hbad & Htail) HX Hd He Hp. unfold recover_file. rewrite Hd, file_get_here by done.
  unfold seg_bytes at 1, header_of at 1. rewrite <- app_assoc, parse_encode_header by done.
  rewrite He, bool_decide_true by done. cbn [negb].
  replace (50 + length node_id)%nat with (length (header_of node_id epoch x))
    by (unfold header_of; apply length_header, Hids).
  rewrite scan_seg by done. set (sc := scan_entries _ _ _ _).
  destruct (scan_entries_spec (sg_no x) (length (header_of node_id epoch x)) (sg_entries x)
    {| sc_first := None; sc_last := None; sc_gap := rv_gap r; sc_seen := rv_seen r; sc_cps := rv_cps r |})
    as (Hg & Hf & Hl). fold sc in Hg, Hf, Hl. cbn [sc_first sc_last sc_gap] in Hg, Hf, Hl.
  destruct (seg_last_spec x Hx) as [Hl' Hf']. rewrite <- Hl' in Hl. rewrite Hf' in Hf.
  exists (sc_cps sc), (sc_seen sc). rewrite Hg, Hf, Hl, file_put_here by done. cbn [default from_option id].
  split; [done|]. intros segs Hin Hcps. unfold sc.
  rewrite <- (Nat.add_0_r (length (header_of node_id epoch x))).
  by apply (scan_entries_cps node_id epoch segs x []).
Qed.

(** What a recovery has when it is behind the segments [done]. *)
Record recovering (node_id : NodeId) (epoch : bytes) (mtime : Z -> option Z) (gap : Z)
    (all done : list Seg) (r : Recovering) : Prop := {
  rg_epoch : rv_epoch r = Some epoch;
  rg_gap : rv_gap r = gap;
  rg_files : rv_files r = rec_meta node_id epoch mtime <$> done;
  rg_cps : Forall (checkpoint_ok node_id epoch all) (rv_cps r);
  rg_previous : rv_previous r = match last done with Some x => Some (seg_end x - 1) | None => None end;
  rg_last : rv_last r = match last done with Some x => seg_end x - 1 | None => 0 end }.

Lemma disk_below node_id epoch segs no :
  Forall (fun s => sg_no s < no) segs -> Forall (fun p => p.1 < no) (disk_of node_id epoch segs).
Proof. intros H. unfold disk_of. apply Forall_fmap. done. Qed.

(** Facts about the segment in the middle of a journal. *)
Lemma segs_ok_middle done x y todo :
  segs_ok (done ++ x :: y :: todo) ->
  Forall (fun s => sg_no s < sg_no x) done /\ seg_wf x /\ seg_last x = Some (seg_end x - 1) /\
  match last done with Some w => seg_end w = sg_first x | None => True end.
Proof.
  intros Hok. pose proof (segs_ok_app _ _ Hok) as [_ (Hx & _ & _ & _ & Hne)].
  assert (segs_ok (done ++ [x])) as Hok'.
  { rewrite cons_middle, app_assoc in Hok. by apply segs_ok_app in Hok as [? _]. }
  split_and!; [|done|unfold seg_last; by destruct (sg_entries x)|].
  - apply Forall_forall. intros s Hs. by apply earlier_numbers with done.
  - destruct (last done) as [w|] eqn:El; [|done]. apply last_Some in El as [done' ->].
    rewrite <- app_assoc in Hok'. apply segs_ok_app in Hok' as [_ (_ & _ & _ & Hf & _)]. done.
Qed.

Lemma recover_files_segs mtime node_id epoch gap todo s c : forall done r,
  ids_ok node_id epoch -> segs_ok (done ++ todo ++ [s]) ->
  recovering node_id epoch mtime gap (done ++ todo ++ [s]) done r ->
  rv_disk r = disk_of node_id epoch done ++ disk_of node_id epoch todo ++ [(sg_no s, c)] ->
  exists r', recover_files crc32 mtime (sg_no <$> todo ++ [s]) r = recover_files crc32 mtime [sg_no s] r' /\
    recovering node_id epoch mtime gap (done ++ todo ++ [s]) (done ++ todo) r' /\
    rv_disk r' = disk_of node_id epoch (done ++ todo) ++ [(sg_no s, c)].
Proof using crc32_range.
  induction todo as [|x todo IH]; intros done r Hids Hok Hr Hd.
  { exists r. by rewrite app_nil_r. }
  assert (exists y ys, todo ++ [s] = y :: ys) as (y & ys & Hys) by (destruct todo; eauto).
  assert (segs_ok (done ++ x :: y :: ys)) as Hok2 by (by rewrite <- Hys).
  destruct (segs_ok_middle _ _ _ _ Hok2) as (Hlt & Hx & Hlast & Hprev). pose proof Hr as [].
  destruct (recover_file_seg mtime node_id epoch false x [] (disk_of node_id epoch done)
    (disk_of node_id epoch todo ++ [(sg_no s, c)]) r) as (cps & n & Heq & Hcps);
    [done|done|apply tail_ok_nil|by apply disk_below|by rewrite app_nil_r|done| |].
  { rewrite rg_previous0. destruct (last done); [right; by rewrite Hprev|by left]. }
  change (sg_no <$> (x :: todo) ++ [s]) with (sg_no x :: (sg_no <$> todo ++ [s])).
  cbn [recover_files]. rewrite bool_decide_false by (rewrite Hys; done). rewrite Heq, Hlast.
  replace (done ++ (x :: todo) ++ [s]) with ((done ++ [x]) ++ todo ++ [s]) in * by (by rewrite <- app_assoc).
  replace (done ++ x :: todo) with ((done ++ [x]) ++ todo) by (by rewrite <- app_assoc).
  apply IH; [done|done| |].
  - constructor; cbn [rv_epoch rv_gap rv_files rv_cps rv_previous rv_last]; rewrite ?last_snoc; try done.
    + by rewrite rg_files0, fmap_app.
    + apply Hcps; [|done]. rewrite <- app_assoc. apply elem_of_app. right. by left.
  - cbn [rv_disk]. by rewrite disk_of_snoc, <- app_assoc.
Qed.

Lemma recover_files_all mtime node_id epoch gap segs s tail r :
  ids_ok node_id epoch -> segs_ok (segs ++ [s]) -> tail_ok true tail ->
  recovering node_id epoch mtime gap (segs ++ [s]) [] r ->
  rv_disk r = disk_of node_id epoch segs ++ [(sg_no s, seg_bytes node_id epoch s ++ tail)] ->
  exists r', recover_files crc32 mtime (sg_no <$> segs ++ [s]) r = Recovered r' /\
    rv_epoch r' = Some epoch /\ rv_gap r' = gap /\
    rv_files r' = rec_meta node_id epoch mtime <$> segs ++ [s] /\
    Forall (checkpoint_ok node_id epoch (segs ++ [s])) (rv_cps r') /\
    rv_last r' = match entries_of (segs ++ [s]) with [] => 0 | _ => seg_end s - 1 end /\
    rv_disk r' = disk_of node_id epoch (segs ++ [s]).
Proof using crc32_range.
  intros Hids Hok Htail Hr Hd.
  destruct (recover_files_segs mtime node_id epoch gap segs s _ [] r Hids Hok Hr Hd)
    as (r1 & -> & [] & Hd1). cbn [app] in Hd1, rg_cps0, rg_files0, rg_previous0, rg_last0.
  pose proof (segs_ok_wf _ _ Hok (active_in _ _)) as Hs.
  assert (match last segs with Some w => seg_end w = sg_first s /\ sg_entries w <> [] | None => True end) as Hprev.
  { destruct (last segs) as [w|] eqn:El; [|done]. apply last_Some in El as [segs' ->].
    rewrite <- app_assoc in Hok. apply segs_ok_app in Hok as [_ (_ & _ & _ & Hf & Hne)]. done. }
  destruct (recover_file_seg mtime node_id epoch true s tail (disk_of node_id epoch segs) [] r1)
    as (cps & n & Heq & Hcps); try done.
  - apply disk_below, Forall_forall. intros s' Hs'. by apply earlier_numbers with segs.
  - rewrite rg_previous0. destruct (last segs); [right; by destruct Hprev as [-> _]|by left].
  - cbn [recover_files]. rewrite bool_decide_true by done. rewrite Heq.
    eexists. split; [done|]. cbn [rv_epoch rv_gap rv_files rv_cps rv_last rv_disk].
    split_and!; try done.
    + by rewrite rg_files0, fmap_app.
    + apply Hcps; [apply active_in|done].
    + unfold entries_of. rewrite fmap_app, join_app. cbn [fmap list_fmap mjoin list_join].
      rewrite app_nil_r. unfold seg_last. destruct (sg_entries s) as [|e es] eqn:Es.
      * rewrite rg_last0, app_nil_r. destruct (last segs) as [w|] eqn:El.
        -- destruct Hprev as [Hf Hne]. apply last_Some in El as [segs' ->].
           rewrite fmap_app, join_app. cbn [fmap list_fmap mjoin list_join]. rewrite app_nil_r.
           destruct (_ ++ sg_entries w) eqn:E; [by apply app_eq_nil in E as [_ ?]|].
           unfold seg_end at 2. rewrite Es, Hf. cbn. lia.
        -- by apply last_None in El as ->.
      * by destruct (mjoin _ ++ e :: es) eqn:E; [apply app_eq_nil in E as [_ ?]|].
    + by rewrite disk_of_snoc.
Qed.

Lemma read_manifest_u64 d m :
  read_manifest crc32 d = Some m -> is_u64 (mf_base_seq m) /\ is_u64 (mf_gap_floor m).
Proof.
  unfold read_manifest. destruct (d_manifest d) as [bs|]; [|done].
  destruct (length bs <? 64)%nat eqn:Hl; [done|]. apply Nat.ltb_ge in Hl. cbn [orb].
  destruct (negb _); [done|]. destruct (negb _); [done|]. intros [= <-]. cbn.
  split; apply from_le_u64, length_field; lia.
Qed.

(** A directory an undamaged journal leaves behind, the active file followed by
    the bytes [tail] of an append that was cut short. *)
Definition left_behind (node_id : NodeId) (d : Dir) (m : Manifest) (segs : list Seg) (s : Seg)
    (tail : bytes) : Prop :=
  ids_ok node_id (mf_epoch m) /\ segs_ok (segs ++ [s]) /\ tail_ok true tail /\
  read_manifest crc32 d = Some m /\
  d_files d = disk_of node_id (mf_epoch m) segs
              ++ [(sg_no s, seg_bytes node_id (mf_epoch m) s ++ tail)].

Lemma recover_spec node_id mtime fresh d m segs s tail :
  left_behind node_id d m segs s tail ->
  exists o, recover crc32 mtime fresh d = Recovered o /\ o_epoch o = mf_epoch m /\
    o_gap o = mf_gap_floor m /\ o_base o = mf_base_seq m /\
    o_files o = rec_meta node_id (mf_epoch m) mtime <$> segs ++ [s] /\
    Forall (checkpoint_ok node_id (mf_epoch m) (segs ++ [s])) (o_cps o) /\
    o_last o = match entries_of (segs ++ [s]) with [] => 0 | _ => seg_end s - 1 end /\
    o_dir o = {| d_files := disk_of node_id (mf_epoch m) (segs ++ [s]); d_manifest := d_manifest d |}.
Proof using crc32_range.
  intros (Hids & Hok & Htail & Hm & Hd).
  assert (fst <$> d_files d = sg_no <$> segs ++ [s]) as Hnum.
  { rewrite Hd, !fmap_app. unfold disk_of. by rewrite <- list_fmap_compose. }
  destruct (recover_files_all mtime node_id (mf_epoch m) (mf_gap_floor m) segs s tail
    {| rv_epoch := Some (mf_epoch m); rv_gap := mf_gap_floor m; rv_files := []; rv_cps := [];
       rv_last := 0; rv_seen := 0; rv_previous := None; rv_disk := d_files d |})
    as (r & Hr & He & Hg & Hf & Hc & Hl & Hdisk); try done.
  unfold recover. rewrite Hnum. cbv zeta. rewrite Hm. cbn [fmap option_fmap option_map]. rewrite Hr.
  destruct (sg_no <$> segs ++ [s]) as [|n0 ns] eqn:Hns.
  { by apply fmap_nil_inv, app_eq_nil in Hns as [_ ?]. }
  rewrite Hf. destruct (rec_meta node_id (mf_epoch m) mtime <$> segs ++ [s]) as [|f fs] eqn:Hfs.
  { by apply fmap_nil_inv, app_eq_nil in Hfs as [_ ?]. }
  rewrite He, Hg, Z.ltb_irrefl. cbn [andb default from_option id].
  eexists. split; [done|]. cbn. by rewrite Hdisk.
Qed.

(** The index entries of a reopened journal. *)
Lemma reopened_files node_id epoch mtime segs s modified :
  segs_ok (segs ++ [s]) ->
  Forall2 (meta_ok node_id epoch)
    ((rec_meta node_id epoch mtime <$> segs)
     ++ [{| fm_no := sg_no s; fm_first := Some (sg_first s); fm_last := seg_last s;
            fm_size := Z.of_nat (length (seg_bytes node_id epoch s)); fm_modified := modified |}])
    (segs ++ [s]).
Proof.
  intros Hok. apply Forall2_app; [|by repeat constructor].
  induction segs as [|x segs IH]; [constructor|]. cbn [fmap list_fmap].
  destruct Hok as (Hx & Hok & Hnext). constructor; [|by apply IH].
  assert (sg_entries x <> []) as Hne by (destruct segs; by destruct Hnext as (_ & _ & ?)).
  repeat split. cbn [rec_meta fm_first]. by destruct (sg_entries x).
Qed.

Lemma ensure_segment_kept node_id epoch segs s first :
  segs_ok (segs ++ [s]) -> length epoch = 16%nat ->
  ensure_segment crc32 (disk_of node_id epoch (segs ++ [s])) (sg_no s) node_id epoch first
  = disk_of node_id epoch (segs ++ [s]) /\
  default [] (file_get (disk_of node_id epoch (segs ++ [s])) (sg_no s)) = seg_bytes node_id epoch s.
Proof.
  intros Hok He. unfold ensure_segment. rewrite (file_get_disk_of _ _ _ _ Hok (active_in _ _)).
  split; [|done]. destruct (seg_bytes node_id epoch s) eqn:E; [|done].
  apply (f_equal length) in E. unfold seg_bytes, header_of in E.
  rewrite length_app, length_header in E by done. cbn in E. lia.
Qed.

(** The sequence numbering continues where the journal ended, as long as the
    directory still has a record or never had one. *)
Lemma open_continues node_id target mtime fresh d m segs s tail :
  left_behind node_id d m segs s tail -> is_u64 (sg_no s) ->
  entries_of (segs ++ [s]) <> [] \/ sg_first s = 1 ->
  exists j' d', open_inner crc32 node_id target mtime fresh d = inr (j', d') /\
    represents j' d' segs s /\ j_epoch j' = mf_epoch m /\ j_node j' = node_id.
Proof using crc32_range.
  intros Hlb Hno Hne. destruct (recover_spec node_id mtime fresh d m segs s tail Hlb)
    as (o & Ho & He & Hg & Hb & Hf & Hc & Hl & Hd).
  destruct Hlb as (Hids & Hok & _ & Hm & _). destruct (read_manifest_u64 _ _ Hm) as [Hmb Hmg].
  pose proof (segs_ok_wf _ _ Hok (active_in _ _)) as (_ & _ & H1 & Hmax).
  assert (u64_succ (o_last o) = seg_end s) as Hnext.
  { rewrite Hl. destruct (entries_of (segs ++ [s])) eqn:Een.
    - destruct Hne as [?|Hf1]; [done|]. unfold entries_of in Een. rewrite fmap_app, join_app in Een.
      apply app_eq_nil in Een as [_ Een]. cbn in Een. rewrite app_nil_r in Een.
      unfold seg_end. by rewrite Hf1, Een.
    - rewrite u64_succ_small by (unfold seg_end in *; lia). lia. }
  assert (default (u64_succ (o_last o)) (fm_first (rec_meta node_id (mf_epoch m) mtime s)) = sg_first s) as Hfirst.
  { cbn [rec_meta fm_first]. destruct (sg_entries s) eqn:Es; [|done]. cbn. rewrite Hnext.
    unfold seg_end. rewrite Es. cbn. lia. }
  unfold open_inner. rewrite Ho. unfold open_recovered. rewrite Hf, fmap_app, last_app. cbn [fmap list_fmap last].
  assert (default (sg_first s) (fm_first (rec_meta node_id (mf_epoch m) mtime s)) = sg_first s) as Hfirst'
    by (cbn; by destruct (sg_entries s)).
  rewrite Hfirst, Hfirst', Hd, He. cbn [d_files d_manifest rec_meta fm_no fm_last].
  destruct (ensure_segment_kept node_id (mf_epoch m) segs s (sg_first s) Hok (proj2 Hids)) as [-> ->].
  rewrite length_app, take_app_length' by (cbn; lia). cbv zeta. rewrite Hnext.
  match goal with |- context [write_manifest_now crc32 ?j1 ?d1] => set (j' := j1); set (d' := d1) end.
  assert (holds j' d' segs s) as Hh.
  { constructor; unfold j', d'; cbn [j_node j_epoch d_files j_files j_active j_active_size j_next
      j_synced j_failed j_checkpoints j_gap_floor]; try done; [by apply reopened_files| |by rewrite Hg].
    rewrite Hl in Hnext |- *. destruct (entries_of (segs ++ [s])); [|done].
    rewrite <- Hnext. done. }
  destruct (oldest_seq_holds _ _ _ _ Hh) as [_ Hold].
  pose proof (write_manifest_represents j' d' segs s (Z.max (o_base o) (oldest_seq j')) (sg_no s) Hh
    ltac:(rewrite Hb; unfold is_u64 in *; lia) Hno) as Hw.
  destruct (write_manifest_now _ _ _ _ _) as [j2 d2] eqn:Hj2. exists j2, d2.
  split; [done|]. split; [apply Hw|]. by injection Hj2 as <- <-.
Qed.

(** A directory whose only segment is empty restarts the numbering. *)
Lemma open_restarts node_id target mtime fresh d m s :
  left_behind node_id d m [] s [] -> sg_entries s = [] ->
  exists j' d', open_inner crc32 node_id target mtime fresh d = inr (j', d') /\
    j_epoch j' = mf_epoch m /\ j_next j' = 1 /\ oldest_seq j' = mf_gap_floor m.
Proof using crc32_range.
  intros Hlb Hs. destruct (recover_spec node_id mtime fresh d m [] s [] Hlb)
    as (o & Ho & He & Hg & Hb & Hf & Hc & Hl & Hd).
  destruct Hlb as (_ & _ & _ & Hm & _). destruct (read_manifest_u64 _ _ Hm) as [_ Hmg].
  unfold entries_of in Hl. cbn in Hl. rewrite Hs in Hl. cbn in Hl.
  unfold open_inner. rewrite Ho. unfold open_recovered. rewrite Hf, Hl. cbn.
  eexists _, _. split; [done|]. cbn. rewrite Hs. cbn. split_and!; [done|done|].
  unfold oldest_seq. cbn [j_files j_gap_floor fm_first]. change (saturating_sub (u64_succ 0) 1) with 0.
  rewrite ?Hg. unfold is_u64 in Hmg. lia.
Qed.

(** ** Retention removes the oldest segments *)

Lemma candidates_of node_id epoch files segs s :
  segs_ok (segs ++ [s]) -> Forall2 (meta_ok node_id epoch) files (segs ++ [s]) ->
  exists fs f, files = fs ++ [f] /\ filter (fun f => trimmable (sg_no s) f = true) files = fs /\
    Forall2 (meta_ok node_id epoch) fs segs.
Proof.
  revert files. induction segs as [|x segs IH]; intros files Hok HF.
  - inversion HF as [|f ? fs ? (Hno & _) Hnil]; subst. inversion Hnil; subst. exists [], f.
    split_and!; [done| |constructor]. rewrite filter_cons_False; [done|].
    unfold trimmable. by rewrite Hno, Z.eqb_refl.
  - inversion HF as [|f ? fs ? Hf HF']; subst. pose proof Hok as (_ & Hok' & Hnext).
    destruct (IH _ Hok' HF') as (fs' & f' & -> & Hfil & HF2). exists (f :: fs'), f'.
    split_and!; [done| |by constructor]. rewrite filter_cons_True; [by rewrite Hfil|].
    destruct Hf as (Hno & _ & Hl & _). unfold trimmable. rewrite Hno, Hl.
    pose proof (earlier_numbers (x :: segs) s x Hok ltac:(by left)).
    rewrite (proj2 (Z.eqb_neq _ _)) by lia.
    assert (sg_entries x <> []) as Hne by (destruct segs; by destruct Hnext as (_ & _ & ?)).
    unfold seg_last. by destruct (sg_entries x).
Qed.

Lemma later_segments x segs y : segs_ok (x :: segs) -> y ∈ segs -> seg_end x <= sg_first y.
Proof.
  revert x. induction segs as [|z segs IH]; intros x; [by rewrite elem_of_nil|].
  intros (_ & Hok & _ & Hf & _) [->|Hin]%elem_of_cons; [lia|].
  specialize (IH z Hok Hin). unfold seg_end in *. lia.
Qed.

Lemma meta_of_file node_id epoch fs segs g :
  Forall2 (meta_ok node_id epoch) fs segs -> g ∈ fs -> exists y, y ∈ segs /\ meta_ok node_id epoch g y.
Proof.
  intros HF [i Hi]%list_elem_of_lookup. destruct (Forall2_lookup_l _ _ _ _ _ HF Hi) as (y & Hy & ?).
  exists y. split; [by eapply list_elem_of_lookup_2|done].
Qed.

(** The first segment is acknowledged before the later ones. *)
Lemma find_acked node_id epoch f fs x segs s frontier :
  segs_ok (x :: segs ++ [s]) -> meta_ok node_id epoch f x -> Forall2 (meta_ok node_id epoch) fs segs ->
  acked_by frontier f = (seg_end x - 1 <=? frontier) /\
  find (acked_by frontier) (f :: fs) = if seg_end x - 1 <=? frontier then Some f else None.
Proof.
  intros Hok (_ & _ & Hl & _) HF. pose proof Hok as (_ & _ & Hnext).
  assert (sg_entries x <> []) as Hne by (destruct segs; by destruct Hnext as (_ & _ & ?)).
  assert (acked_by frontier f = (seg_end x - 1 <=? frontier)) as Hack.
  { unfold acked_by. rewrite Hl. unfold seg_last. by destruct (sg_entries x). }
  split; [done|]. cbn [find]. rewrite Hack. destruct (Z.leb_spec (seg_end x - 1) frontier) as [|Hgt]; [done|].
  destruct (find (acked_by frontier) fs) as [g|] eqn:E; [|done]. exfalso.
  apply find_some in E as [Hin%list_elem_of_In Hg].
  destruct (meta_of_file _ _ _ _ _ HF Hin) as (y & Hy & _ & _ & Hly & _).
  assert (seg_end x <= sg_first y) as Hxy by (eapply later_segments; [done|apply elem_of_app; by left]).
  unfold acked_by in Hg. rewrite Hly in Hg. unfold seg_last, seg_end in *.
  destruct (sg_entries y); [done|]. apply Z.leb_le in Hg. cbn [length] in Hg. lia.
Qed.

Lemma min_by_no_head f fs :
  Forall (fun g => fm_no f < fm_no g) fs -> min_by_no (f :: fs) = Some f.
Proof.
  unfold min_by_no. cbn [foldl]. induction 1 as [|g fs Hg _ IH]; [done|]. cbn [foldl].
  rewrite (proj2 (Z.ltb_ge _ _)) by lia. done.
Qed.

(** The victim is the oldest segment, and it is given up before the frontier
    has passed it only for the byte cap. *)
Lemma pick_victim_oldest j d segs s frontier max_bytes now max_age f forced :
  holds j d segs s -> Forall (fun f => older_than now max_age f = false) (j_files j) ->
  pick_victim j frontier max_bytes now max_age = Some (f, forced) ->
  exists x segs' fs, segs = x :: segs' /\ j_files j = f :: fs /\ fm_no f = sg_no x /\
    (forced = false -> seg_end x - 1 <= frontier) /\
    acked_by frontier f = (seg_end x - 1 <=? frontier).
Proof.
  intros [] Hage. unfold pick_victim. rewrite rp_active0.
  destruct (candidates_of _ _ _ _ _ rp_segs0 rp_files0) as (fs & fa & Hfiles & -> & HF).
  assert (find (older_than now max_age) fs = None) as ->.
  { destruct (find _ fs) as [g|] eqn:E; [|done]. apply find_some in E as [Hin%list_elem_of_In Hg].
    rewrite Hfiles, Forall_app in Hage. destruct Hage as [Hage _]. rewrite Forall_forall in Hage.
    by rewrite Hage in Hg. }
  inversion HF as [|f0 x fs' segs' Hf0 HF']; subst.
  { cbn. by destruct (_ <? _). }
  destruct (find_acked _ _ _ _ _ _ _ frontier rp_segs0 Hf0 HF') as [Hack ->].
  rewrite min_by_no_head.
  - intros Hpick. exists x, segs', (fs' ++ [fa]). rewrite Hfiles.
    destruct (Z.leb_spec (seg_end x - 1) frontier); [by simplify_eq/=; destruct Hf0|].
    destruct (_ <? _); [|done]. simplify_eq/=. split_and!; try done. apply Hf0.
  - apply Forall_forall. intros g Hg. destruct (meta_of_file _ _ _ _ _ HF' Hg) as (y & Hy & -> & _).
    destruct Hf0 as (-> & _). apply segs_ok_numbers with (segs' ++ [s]); [done|].
    apply elem_of_app. by left.
Qed.

Lemma pick_victim_none j d segs s frontier max_bytes now max_age :
  holds j d segs s -> pick_victim j frontier max_bytes now max_age = None ->
  match segs with x :: _ => frontier < seg_end x - 1 | [] => True end.
Proof.
  intros []. unfold pick_victim. rewrite rp_active0.
  destruct (candidates_of _ _ _ _ _ rp_segs0 rp_files0) as (fs & fa & Hfiles & -> & HF).
  inversion HF as [|f0 x fs' segs' Hf0 HF']; subst; [done|].
  destruct (find_acked _ _ _ _ _ _ _ frontier rp_segs0 Hf0 HF') as [Hack ->].
  by destruct (Z.leb_spec (seg_end x - 1) frontier); [|intros _; lia].
Qed.

Lemma file_numbers node_id epoch fs segs :
  Forall2 (meta_ok node_id epoch) fs segs -> fm_no <$> fs = sg_no <$> segs.
Proof. induction 1 as [|f x fs segs (Hno & _) _ IH]; [done|]. cbn. by rewrite Hno, IH. Qed.

Lemma remove_oldest j d x segs s :
  holds j d (x :: segs) s ->
  let '(j', d') := remove_segment j d (sg_no x) in
  holds j' d' segs s /\ j_files j' = tail (j_files j).
Proof.
  intros []. unfold remove_segment. cbv zeta. cbn [app] in *.
  inversion rp_files0 as [|f ? fs ? Hf HF Hfiles]; subst.
  assert (Forall (fun y => sg_no x < sg_no y) (segs ++ [s])) as Hlt.
  { apply Forall_forall. intros y Hy. by apply segs_ok_numbers with (segs ++ [s]). }
  assert (filter (fun f => fm_no f <> sg_no x) (f :: fs) = fs) as Hfil.
  { destruct Hf as (Hno & _). rewrite filter_cons_False by (by intros []).
    apply filter_true_in. intros g Hg. destruct (meta_of_file _ _ _ _ _ HF Hg) as (y & Hy & -> & _).
    rewrite Forall_forall in Hlt. specialize (Hlt y Hy). lia. }
  rewrite Hfil. split; [|done].
  constructor; cbn [j_node j_epoch d_files j_files j_active j_active_size j_next j_synced j_failed
    j_checkpoints j_gap_floor]; try done.
  - by destruct rp_segs0 as (_ & ? & _).
  - rewrite rp_disk0. unfold file_remove, disk_of. cbn [fmap list_fmap].
    rewrite filter_cons_False by (by intros []). apply filter_true_in.
    intros [n c] (y & [= -> ->] & Hy)%list_elem_of_fmap.
    rewrite Forall_forall in Hlt. specialize (Hlt y Hy). lia.
  - apply Forall_forall. intros cp [Hin Hcp]%list_elem_of_filter.
    rewrite (file_numbers _ _ _ _ HF) in Hin. apply list_elem_of_fmap in Hin as (y & Hcy & Hy).
    rewrite Forall_forall in rp_cps0. destruct (rp_cps0 _ Hcp) as (z & i & Hz & Hcz & Hrest).
    exists z, i. split; [|done].
    assert (z = y) as ->; [|done].
    apply segs_ok_no_inj with (x :: segs ++ [s]); [done|done|by right|congruence].
Qed.

Lemma trim_forced_mono fuel frontier max_bytes now max_age j d t :
  t_forced t = true -> t_forced (trim_loop fuel frontier max_bytes now max_age j d t).2 = true.
Proof.
  revert j d t. induction fuel as [|fuel IH]; intros j d t Ht; [done|]. cbn [trim_loop].
  destruct (pick_victim _ _ _ _ _) as [[f forced]|]; [|done].
  destruct (remove_segment _ _ _). apply IH. cbn. by rewrite Ht.
Qed.

Lemma trim_loop_suffix fuel frontier max_bytes now max_age j d t segs s :
  holds j d segs s -> Forall (fun f => older_than now max_age f = false) (j_files j) ->
  exists j' d' t' removed kept,
    trim_loop fuel frontier max_bytes now max_age j d t = (j', d', t') /\ segs = removed ++ kept /\
    holds j' d' kept s /\ (j_active j', j_node j', j_epoch j') = (j_active j, j_node j, j_epoch j) /\
    t_removed t' = t_removed t + Z.of_nat (length removed) /\
    (t_forced t' = false -> Forall (fun x => seg_end x - 1 <= frontier) removed) /\
    ((length segs <= fuel)%nat -> match kept with x :: _ => frontier < seg_end x - 1 | [] => True end).
Proof.
  revert j d t segs. induction fuel as [|fuel IH]; intros j d t segs Hh Hage.
  { exists j, d, t, [], segs. split_and!; try done; [cbn; lia|]. by destruct segs; cbn; [|lia]. }
  cbn [trim_loop]. destruct (pick_victim j frontier max_bytes now max_age) as [[f forced]|] eqn:Hp.
  2: { exists j, d, t, [], segs. split_and!; try done; [cbn; lia|]. intros _.
       by eapply pick_victim_none. }
  destruct (pick_victim_oldest _ _ _ _ _ _ _ _ _ _ Hh Hage Hp)
    as (x & segs' & fs & -> & Hfs & Hno & Hforced & Hack).
  pose proof (remove_oldest _ _ _ _ _ Hh) as Hrm. rewrite Hno.
  destruct (remove_segment j d (sg_no x)) as [j1 d1] eqn:Hr. destruct Hrm as [Hh1 Hf1].
  assert ((j_active j1, j_node j1, j_epoch j1) = (j_active j, j_node j, j_epoch j)) as Ha1
    by (by injection Hr as <- <-).
  match goal with |- context [trim_loop fuel _ _ _ _ _ _ ?t1] => set (t1' := t1) end.
  destruct (IH j1 d1 t1' segs' Hh1) as 
    (j' & d' & t' & removed & kept & Heq & -> & Hh' & Ha & Hn & Hfr & Hmax).
  { rewrite Hf1, Hfs. rewrite Hfs in Hage. by apply Forall_cons in Hage as [_ ?]. }
  exists j', d', t', (x :: removed), kept.
  pose proof (trim_forced_mono fuel frontier max_bytes now max_age j1 d1 t1') as Hmono.
  rewrite Heq in Hmono. cbn [snd] in Hmono.
  split_and!; try done; try congruence.
  - rewrite Hn. unfold t1'. cbn [t_removed length]. lia.
  - intros Hf. constructor; [|by apply Hfr].
    destruct forced; [|by apply Hforced]. apply Z.leb_le. rewrite <- Hack.
    destruct (acked_by frontier f) eqn:Hab; [done|]. rewrite Hmono in Hf; [done|].
    unfold t1'. cbn [t_forced]. by rewrite ?Hab, orb_true_r.
  - cbn [length]. intros Hlen. apply Hmax. lia.
Qed.

(** ** Crashes during an append *)

Lemma take_records k es :
  exists done rest tail, es = done ++ rest /\ take k (records es) = records done ++ tail /\
    (tail = [] \/ exists e n, e ∈ es /\ (n < length (encode_record crc32 e))%nat /\
                              tail = take n (encode_record crc32 e)) /\
    ((length (records es) <= k)%nat -> rest = []).
Proof.
  revert k. induction es as [|e es IH]; intros k.
  { exists [], [], []. split_and!; try done; [by change (records []) with (@nil byte); rewrite take_nil|by left]. }
  rewrite records_cons, length_app. destruct (decide (k < length (encode_record crc32 e))%nat) as [Hk|Hk].
  - exists [], (e :: es), (take k (encode_record crc32 e)). split_and!; [done| | |lia].
    + rewrite take_app_le by lia. done.
    + right. exists e, k. split_and!; [by left|done|done].
  - destruct (IH (k - length (encode_record crc32 e))%nat) as (done & rest & tl & -> & Ht & Htail & Hall).
    exists (e :: done), rest, tl. split_and!; [done| | |intros; apply Hall; lia].
    + rewrite take_app_ge by lia. rewrite Ht, records_cons. by rewrite app_assoc.
    + destruct Htail as [->|(e' & n & He' & ?)]; [by left|]. right. exists e', n. split; [by right|done].
Qed.

(** No key of the batch contains a whole record of its own. *)
Definition no_frames_in_keys (es : list JournalEntry) : Prop :=
  forall e n, e ∈ es -> no_hidden_frame (take n (encode_record crc32 e)).

Lemma seg_wf_shorter s done rest : seg_wf (extend s (done ++ rest)) -> seg_wf (extend s done).
Proof.
  intros (Hw & Hc & H1 & Hmax). unfold seg_wf. rewrite seg_end_extend in *.
  cbn [extend sg_entries sg_first] in *. rewrite app_assoc in Hw, Hc.
  apply Forall_app in Hw as [Hw _]. apply consecutive_app in Hc as [Hc _].
  rewrite length_app in Hmax. split_and!; try done. lia.
Qed.

(** The directory a failed or interrupted append leaves behind. *)
Lemma torn_append_left_behind j d segs s items k now :
  represents j d segs s -> items <> [] -> items_wf items ->
  seg_end s + Z.of_nat (length items) <= u64_max ->
  no_frames_in_keys (assign (seg_end s) items) ->
  exists m done rest tail, assign (seg_end s) items = done ++ rest /\ mf_epoch m = j_epoch j /\
    left_behind (j_node j) (append_batch crc32 j d items (FlushFails (take k)) now).1.2 m segs
      (extend s done) tail /\
    ((length (records (assign (seg_end s) items)) <= k)%nat -> rest = []).
Proof.
  intros [[] (m & Hm & Hme & Hmg)] Hne Hi Hmax Hframes.
  pose proof (segs_ok_wf _ _ rp_segs0 (active_in _ _)) as Hs.
  pose proof (extend_wf s items Hs Hi Hmax) as Hwe.
  destruct (take_records k (assign (seg_end s) items)) as (done & rest & tl & Heq & Htake & Htail & Hall).
  exists m, done, rest, tl. split_and!; try done. rewrite Heq in Hwe. unfold left_behind. rewrite Hme.
  assert (d_files (append_batch crc32 j d items (FlushFails (take k)) now).1.2
    = file_append (d_files d) (j_active j) (take k (records (assign (seg_end s) items))) /\
    d_manifest (append_batch crc32 j d items (FlushFails (take k)) now).1.2 = d_manifest d) as [Hfiles Hman].
  { unfold append_batch. destruct items as [|i0 items0]; [done|].
    by rewrite (keys_accepted _ Hi), rp_failed0, rp_next0. }
  split_and!.
  - done.
  - apply segs_ok_replace with s; try done. by eapply seg_wf_shorter.
  - destruct Htail as [->|(e & n & He & Hn & ->)]; [apply tail_ok_nil|].
    split_and!; [by apply Hframes| |by right]. intros e' n'.
    assert (entry_wf e) as Hwf.
    { destruct Hwe as (Hw & _). cbn [extend sg_entries] in Hw. rewrite <- Heq in Hw.
      apply Forall_app in Hw as [_ Hw]. rewrite Forall_forall in Hw. by apply Hw. }
    by rewrite decode_truncated.
  - unfold read_manifest in *. by rewrite Hman.
  - rewrite Hfiles, rp_disk0, rp_active0, Htake. unfold file_append.
    rewrite (file_get_disk_of _ _ _ _ rp_segs0 (active_in _ _)). cbn [default from_option id].
    rewrite file_put_active; [|apply Forall_forall; intros s' Hs'; by apply earlier_numbers with segs|done].
    by rewrite app_assoc, <- seg_bytes_extend.
Qed.

(** Within the byte cap retention is never forced. *)
Lemma trim_not_forced fuel frontier max_bytes now max_age j d t segs s :
  holds j d segs s -> Forall (fun f => older_than now max_age f = false) (j_files j) ->
  on_disk_bytes j <= max_bytes -> t_forced t = false ->
  t_forced (trim_loop fuel frontier max_bytes now max_age j d t).2 = false.
Proof.
  revert j d t segs. induction fuel as [|fuel IH]; intros j d t segs Hh Hage Hcap Ht; [done|]. cbn [trim_loop].
  destruct (pick_victim j frontier max_bytes now max_age) as [[f forced]|] eqn:Hp; [|done].
  assert (forced = false) as ->.
  { unfold pick_victim in Hp. destruct (find (acked_by frontier) _); [by simplify_eq/=|].
    rewrite (proj2 (Z.ltb_ge _ _)) in Hp by done.
    destruct (find (older_than now max_age) _) as [g|] eqn:E; [|done].
    apply find_some in E as [Hin%list_elem_of_In Hg]. apply list_elem_of_filter in Hin as [_ Hin].
    rewrite Forall_forall in Hage. by rewrite Hage in Hg. }
  destruct (pick_victim_oldest _ _ _ _ _ _ _ _ _ _ Hh Hage Hp) as (x & segs' & fs & -> & Hfs & Hno & _ & _).
  pose proof (remove_oldest _ _ _ _ _ Hh) as Hrm. rewrite Hno.
  destruct (remove_segment j d (sg_no x)) as [j1 d1]. destruct Hrm as [Hh1 Hf1].
  pose proof (rp_files _ _ _ _ Hh) as HF. rewrite Hfs in HF, Hage, Hf1. cbn [tail] in Hf1.
  apply (IH j1 d1 _ segs'); [done| | |].
  - rewrite Hf1. by apply Forall_cons in Hage as [_ ?].
  - unfold on_disk_bytes in *. rewrite Hf1. rewrite Hfs in Hcap. cbn in Hcap.
    inversion HF as [|? ? ? ? (_ & _ & _ & Hsz) _]; subst. lia.
  - cbn. by rewrite Ht.
Qed.

Lemma represents_left_behind j d segs s :
  represents j d segs s ->
  exists m, mf_epoch m = j_epoch j /\ left_behind (j_node j) d m segs s [].
Proof.
  intros [[] (m & Hm & He & _)]. exists m. unfold left_behind. rewrite He, app_nil_r.
  split_and!; try done. { apply tail_ok_nil. } by rewrite rp_disk0, disk_of_snoc.
Qed.

(** Retention keeps a suffix of the segments; the manifest it writes is of the
    same journal. *)
Lemma enforce_retention_suffix j d segs s frontier max_bytes now max_age :
  represents j d segs s -> is_u64 (sg_no s) ->
  Forall (fun f => older_than now max_age f = false) (j_files j) ->
  exists j' d' report removed kept,
    enforce_retention crc32 j d frontier max_bytes now max_age = (j', d', report) /\
    segs = removed ++ kept /\ represents j' d' kept s /\
    j_node j' = j_node j /\ j_epoch j' = j_epoch j /\
    tr_segments_removed report = Z.of_nat (length removed) /\
    (tr_cap_forced report = false -> Forall (fun x => seg_end x - 1 <= frontier) removed) /\
    match kept with x :: _ => frontier < seg_end x - 1 | [] => True end /\
    (on_disk_bytes j <= max_bytes -> tr_cap_forced report = false).
Proof using crc32_range.
  intros [Hh _] Hno Hage. unfold enforce_retention.
  pose proof (trim_not_forced (length (j_files j)) frontier max_bytes now max_age j d
    {| t_removed := 0; t_bytes := 0; t_forced := false |} segs s Hh Hage) as Hunforced.
  assert (length segs <= length (j_files j))%nat as Hlen.
  { rewrite (Forall2_length _ _ _ (rp_files _ _ _ _ Hh)), length_app. lia. }
  destruct (trim_loop_suffix (length (j_files j)) frontier max_bytes now max_age j d
    {| t_removed := 0; t_bytes := 0; t_forced := false |} segs s Hh Hage)
    as (j1 & d1 & t & removed & kept & Htrim & Heq & Hh1 & [= Ha Hn He] & Hcount & Hfr & Hmax).
  rewrite Htrim in *. cbn [snd] in Hunforced.
  destruct (oldest_seq_holds _ _ _ _ Hh1) as [_ Hold].
  pose proof (write_manifest_represents j1 d1 kept s (oldest_seq j1) (j_active j) Hh1 Hold
    ltac:(by rewrite (rp_active _ _ _ _ Hh))) as Hw.
  destruct (write_manifest_now crc32 j1 d1 (oldest_seq j1) (j_active j)) as [j2 d2] eqn:Hj2.
  destruct Hw as [Hw _]. do 3 eexists. exists removed, kept. split; [done|]. split_and!; try done.
  - by injection Hj2 as <- <-.
  - by injection Hj2 as <- <-.
  - by apply Hmax.
  - intros Hcap. by apply Hunforced.
Qed.

(** A node that opens its first journal. *)
Definition first_seg : Seg := {| sg_no := 1; sg_first := 1; sg_entries := [] |}.

Lemma open_fresh node_id target mtime fresh :
  ids_ok node_id fresh ->
  exists j d, open_inner crc32 node_id target mtime fresh {| d_files := []; d_manifest := None |} = inr (j, d) /\
    represents j d [] first_seg /\ j_checkpoints j = [].
Proof using crc32_range.
  intros Hids. unfold open_inner. cbn [recover d_files fmap list_fmap]. unfold open_recovered.
  cbn [o_files o_last o_epoch o_dir o_cps o_gap o_base last d_files d_manifest].
  change (u64_succ 0) with 1. cbv zeta.
  match goal with |- context [write_manifest_now crc32 ?j1 ?d1] => set (j' := j1); set (d' := d1) end.
  assert (holds j' d' [] first_seg) as Hh.
  { constructor; unfold j', d'; cbn [j_node j_epoch d_files j_files j_active j_active_size j_next
      j_synced j_failed j_checkpoints j_gap_floor]; try done.
    - unfold disk_of. cbn [app fmap list_fmap]. by rewrite seg_bytes_empty.
    - repeat constructor. by rewrite seg_bytes_empty.
    - by rewrite seg_bytes_empty. }
  destruct (oldest_seq_holds _ _ _ _ Hh) as [_ Hold].
  pose proof (write_manifest_represents j' d' [] first_seg (Z.max 0 (oldest_seq j')) 1 Hh
    ltac:(unfold is_u64 in *; lia) ltac:(done)) as Hw.
  destruct (write_manifest_now _ _ _ _ _) as [j2 d2]. by exists j2, d2.
Qed.
End journals.

Lemma entries_end s segs :
  forall x, segs_ok (x :: segs ++ [s]) ->
  sg_first x + Z.of_nat (length (entries_of (x :: segs ++ [s]))) = seg_end s.
Proof.
  induction segs as [|y segs IH]; intros x Hok; cbn [app] in *;
    change (entries_of (?a :: ?l)) with (sg_entries a ++ entries_of l);
    destruct Hok as (_ & Hok & _ & Hf & _); rewrite length_app.
  - change (entries_of [s]) with (sg_entries s ++ []). rewrite app_nil_r. unfold seg_end in *. lia.
  - specialize (IH y Hok). unfold seg_end in Hf. lia.
Qed.

Lemma last_of_consecutive a es e : consecutive a (es ++ [e]) -> je_seq e = a + Z.of_nat (length es).
Proof. intros [_ [He _]]%consecutive_app. done. Qed.

(** The entries after a position that is behind end with the last sequence. *)
Lemma lag_ends_at_last_seq (crc32 : bytes -> Z) j d segs s from :
  represents crc32 j d segs s -> oldest_seq j <= from < last_seq j ->
  match last (filter (fun e => from < je_seq e) (entries_of (segs ++ [s]))) with
  | Some e => je_seq e | None => from end = last_seq j.
Proof.
  intros [Hh _] [Hold Hlt]. destruct (oldest_seq_holds _ _ _ _ _ Hh) as [Ho _]. destruct Hh.
  destruct (segs_ok_wf _ _ rp_segs0 (active_in _ _)) as (_ & _ & H1 & Hmax).
  assert (last_seq j = seg_end s - 1) as Hlast.
  { unfold last_seq. rewrite rp_next0, u64_pred_small; [done|]. unfold seg_end in *. lia. }
  assert (exists a, consecutive a (entries_of (segs ++ [s])) /\ a - 1 <= from /\
    a + Z.of_nat (length (entries_of (segs ++ [s]))) = seg_end s) as (a & Hc & Ha & Hend).
  { destruct segs as [|x segs]; cbn [app] in *.
    - exists (sg_first s). split; [by apply segs_ok_consecutive|]. split; [lia|].
      unfold entries_of, seg_end. cbn. by rewrite app_nil_r.
    - exists (sg_first x). split; [by apply segs_ok_consecutive|]. split; [lia|]. by apply entries_end. }
  destruct (entries_of (segs ++ [s])) as [|e0 es0] eqn:Hes; [cbn in Hend; lia|].
  destruct (exists_last (l := e0 :: es0)) as (es & e & Heq); [done|]. rewrite Heq in *.
  pose proof (last_of_consecutive _ _ _ Hc) as He. rewrite length_app in Hend. cbn [length] in Hend.
  rewrite filter_app, filter_cons_True by lia. cbn [filter list_filter]. rewrite last_snoc. lia.
Qed.

(** Dropping segments that end at [a] drops no entry above [a]. *)
Lemma trimmed_entries removed kept s a :
  segs_ok ((removed ++ kept) ++ [s]) -> Forall (fun x => seg_end x - 1 <= a) removed ->
  filter (fun e => a < je_seq e) (entries_of (kept ++ [s]))
  = filter (fun e => a < je_seq e) (entries_of ((removed ++ kept) ++ [s])).
Proof.
  intros Hok Hr. unfold entries_of. rewrite <- app_assoc, (fmap_app sg_entries removed), join_app, filter_app.
  rewrite (filter_false_in _ (mjoin (sg_entries <$> removed))); [done|].
  intros e (es & He & (x & -> & Hx)%list_elem_of_fmap)%list_elem_of_join Hlt.
  rewrite Forall_forall in Hr. specialize (Hr x Hx).
  destruct (segs_ok_wf _ x Hok ltac:(do 2 (apply elem_of_app; left); exact Hx)) as (_ & Hc & _).
  pose proof (consecutive_range _ _ _ Hc He). unfold seg_end in Hr. lia.
Qed.

(** ** The promises *)

(** C11: an append that is cut off loses nothing that was durable. Take an
    undamaged journal with at least one entry, a batch of which a prefix
    reached the active file, of any number of bytes, and keys that do not
    themselves contain a whole record. The journal then reopens under the same
    epoch with every earlier entry and a prefix of the batch, the torn record
    behind it is cut off, and the numbering continues. *)
Theorem journal_survives_torn_append (crc32 : bytes -> Z) j d segs s items k now target mtime fresh :
  (forall bs, is_u32 (crc32 bs)) ->
  represents crc32 j d segs s -> items <> [] -> items_wf items ->
  seg_end s + Z.of_nat (length items) <= u64_max -> is_u64 (sg_no s) ->
  no_frames_in_keys crc32 (assign (seg_end s) items) ->
  entries_of (segs ++ [s]) <> [] ->
  let torn := (append_batch crc32 j d items (FlushFails (take k)) now).1.2 in
  exists done rest j' d', assign (seg_end s) items = done ++ rest /\
    open_inner crc32 (j_node j) target mtime fresh torn = inr (j', d') /\
    j_epoch j' = j_epoch j /\ represents crc32 j' d' segs (extend s done) /\
    last_seq j' = seg_end s + Z.of_nat (length done) - 1 /\
    ((length (records crc32 (assign (seg_end s) items)) <= k)%nat -> rest = []).
Proof.
  intros Hcrc Hrep Hne Hi Hmax Hno Hframes Hent. cbv zeta.
  destruct (torn_append_left_behind crc32 j d segs s items k now Hrep Hne Hi Hmax Hframes)
    as (m & done & rest & tl & Heq & He & Hlb & Hall).
  destruct (open_continues crc32 Hcrc (j_node j) target mtime fresh _ m segs (extend s done) tl Hlb Hno)
    as (j' & d' & Ho & Hrep' & He' & _).
  { left. unfold entries_of in *. rewrite fmap_app, join_app in *. cbn in *. rewrite app_nil_r in *.
    intros [H1 [H2 _]%app_eq_nil]%app_eq_nil. apply Hent. by rewrite H1, H2. }
  exists done, rest, j', d'. split_and!; try done; [congruence|].
  destruct Hrep' as [[] _]. unfold last_seq. rewrite rp_next0, seg_end_extend.
  pose proof (segs_ok_wf _ _ rp_segs0 (active_in _ _)) as (_ & _ & H1 & H2).
  rewrite seg_end_extend in H2. cbn [extend sg_first] in H1.
  rewrite u64_pred_small; unfold seg_end in *; lia.
Qed.

(** A read of an undamaged journal whose files fit the window of the read
    returns exactly the next entries after the position, in order and without
    a hole; it returns none only when there is none, and stops before the last
    one only when a limit is reached. *)
Theorem journal_read_exact (crc32 : bytes -> Z) j d segs s from n m :
  (forall bs, is_u32 (crc32 bs)) ->
  represents crc32 j d segs s -> oldest_seq j <= from -> window_fits crc32 j (segs ++ [s]) m ->
  exists es rest,
    filter (fun e => from < je_seq e) (entries_of (segs ++ [s])) = es ++ rest /\
    read_range crc32 j d from n m
    = inr (Entries es (match last es with Some e => je_seq e | None => from end)) /\
    (es = [] -> rest = []) /\
    (rest <> [] -> (n <= length es)%nat \/ m <= Z.of_nat (length (records crc32 es))).
Proof. intros Hcrc. by apply read_range_spec. Qed.

(** A read of a position deep in the active segment of a running journal
    returns no entry, however many follow it: the window starts at the first
    record of the file, and ends before the position. *)
Theorem journal_read_stalls (crc32 : bytes -> Z) j d segs s n m i :
  (forall bs, is_u32 (crc32 bs)) ->
  represents crc32 j d segs s -> 0 <= m -> live_checkpoints j s ->
  (i < length (sg_entries s))%nat -> oldest_seq j <= sg_first s + Z.of_nat i - 1 ->
  m + MAX_JOURNAL_KEY_BYTES + 128 <= Z.of_nat (length (records crc32 (take i (sg_entries s)))) ->
  let from := sg_first s + Z.of_nat i - 1 in
  read_range crc32 j d from n m = inr (Entries [] from) /\
  filter (fun e => from < je_seq e) (entries_of (segs ++ [s])) <> [].
Proof.
  intros Hcrc Hrep Hm Hlive Hi Hold Hdeep. cbv zeta.
  split; [by apply (read_deep_in_segment crc32 Hcrc j d segs s _ n m i)|].
  destruct Hrep as [[] _]. pose proof (segs_ok_wf _ _ rp_segs0 (active_in _ _)) as (_ & Hc & _).
  destruct (lookup_lt_is_Some_2 (sg_entries s) i Hi) as [e He].
  assert (je_seq e = sg_first s + Z.of_nat i) as Hseq.
  { rewrite <- (take_drop_middle _ _ _ He) in Hc. apply consecutive_app in Hc as [_ [-> _]].
    rewrite length_take. lia. }
  intros Hnil. assert (e ∈ filter (fun e => sg_first s + Z.of_nat i - 1 < je_seq e) (entries_of (segs ++ [s]))).
  { apply list_elem_of_filter. split; [lia|]. unfold entries_of. rewrite fmap_app, join_app. cbn.
    rewrite app_nil_r. apply elem_of_app. right. by eapply list_elem_of_lookup_2. }
  rewrite Hnil in H. by apply elem_of_nil in H.
Qed.

(** Retention removes the oldest segments only and, when it was not forced
    by the byte cap, keeps every entry above the frontier; the journal stays
    undamaged. Files past the age cap are excluded. *)
Theorem retention_keeps_unacked (crc32 : bytes -> Z) j d segs s frontier max_bytes now max_age :
  (forall bs, is_u32 (crc32 bs)) ->
  represents crc32 j d segs s -> is_u64 (sg_no s) ->
  Forall (fun f => older_than now max_age f = false) (j_files j) ->
  exists j' d' report removed kept,
    enforce_retention crc32 j d frontier max_bytes now max_age = (j', d', report) /\
    segs = removed ++ kept /\ represents crc32 j' d' kept s /\
    tr_segments_removed report = Z.of_nat (length removed) /\
    (tr_cap_forced report = false ->
     filter (fun e => frontier < je_seq e) (entries_of (kept ++ [s]))
     = filter (fun e => frontier < je_seq e) (entries_of (segs ++ [s]))).
Proof.
  intros Hcrc Hrep Hno Hage.
  destruct (enforce_retention_suffix crc32 Hcrc j d segs s frontier max_bytes now max_age Hrep Hno Hage)
    as (j' & d' & report & removed & kept & Heq & -> & Hrep' & _ & _ & Hcount & Hfr & _ & _).
  exists j', d', report, removed, kept. split_and!; try done. intros Hforced.
  apply trimmed_entries; [apply (rp_segs _ _ _ _ _ (proj1 Hrep))|by apply Hfr].
Qed.

(** When every segment but the empty active one has been trimmed, the next
    start numbers the entries from one again under the same epoch, so a peer
    that has consumed the old entries does not see the new ones as a gap. *)
Theorem restart_reuses_sequence (crc32 : bytes -> Z) j d segs s frontier max_bytes now max_age target
    mtime fresh :
  (forall bs, is_u32 (crc32 bs)) ->
  represents crc32 j d segs s -> is_u64 (sg_no s) ->
  Forall (fun f => older_than now max_age f = false) (j_files j) ->
  sg_entries s = [] -> seg_end s - 1 <= frontier ->
  let '(j1, d1, _) := enforce_retention crc32 j d frontier max_bytes now max_age in
  exists j2 d2, open_inner crc32 (j_node j1) target mtime fresh d1 = inr (j2, d2) /\
    last_seq j1 = seg_end s - 1 /\ last_seq j2 = 0 /\ j_epoch j2 = j_epoch j1.
Proof.
  intros Hcrc Hrep Hno Hage Hs Hfront.
  destruct (enforce_retention_suffix crc32 Hcrc j d segs s frontier max_bytes now max_age Hrep Hno Hage)
    as (j1 & d1 & report & removed & kept & -> & -> & Hrep1 & _ & _ & _ & _ & Hmax & _).
  assert (kept = []) as ->.
  { destruct kept as [|x kept]; [done|]. destruct Hrep1 as [[] _]. exfalso.
    pose proof (earlier_segments _ _ x rp_segs0 ltac:(by left)). unfold seg_end in *.
    rewrite Hs in Hfront. cbn in Hfront. lia. }
  destruct (represents_left_behind crc32 j1 d1 [] s Hrep1) as (m & He & Hlb).
  destruct (open_restarts crc32 Hcrc (j_node j1) target mtime fresh d1 m s Hlb Hs)
    as (j2 & d2 & Ho & He2 & Hn2 & _).
  exists j2, d2. split_and!; [done| | |congruence].
  - destruct Hrep1 as [[] _]. unfold last_seq. rewrite rp_next0.
    pose proof (segs_ok_wf _ _ rp_segs0 (active_in _ _)) as (_ & _ & H1 & H2).
    rewrite u64_pred_small; unfold seg_end in *; lia.
  - unfold last_seq. by rewrite Hn2.
Qed.

(** ** Examples *)

(** A node that opens a new journal and appends batches, with segments of
    [target] bytes. *)
Definition sample_run (target : Z) (batches : list (list (JournalOp * bytes * Hlc))) : Journal * Dir :=
  match open_inner toy_crc [x6e] target (fun _ => None) (replicate 16 x07)
          {| d_files := []; d_manifest := None |} with
  | inr (j, d) => foldl (fun '(j, d) items => (append_batch toy_crc j d items FlushOk 0).1) (j, d) batches
  | inl _ => ({| j_node := []; j_epoch := []; j_target := 0; j_active := 0; j_active_size := 0;
                 j_synced := 0; j_next := 0; j_failed := true; j_files := []; j_checkpoints := [];
                 j_gap_floor := 0; j_generation := 0 |}, {| d_files := []; d_manifest := None |})
  end.

Definition sample_item (op : JournalOp) (key : bytes) (t : Z) : JournalOp * bytes * Hlc :=
  (op, key, {| wall_time := t; logical := 0 |}).

Definition sample_entry (seq : Z) (op : JournalOp) (key : bytes) (t : Z) : JournalEntry :=
  {| je_seq := seq; je_op := op; je_key := key; je_hlc := {| wall_time := t; logical := 0 |} |}.

(** Evaluates a closed term in the statement. *)
Ltac evaluated t :=
  let v := eval vm_compute in t in
  replace t with v by (vm_compute; reflexivity).

Definition entry_wfb (e : JournalEntry) : bool :=
  (0 <=? je_seq e) && (je_seq e <=? u64_max) && (0 <=? wall_time (je_hlc e)) &&
  (wall_time (je_hlc e) <=? u64_max) && (0 <=? logical (je_hlc e)) &&
  (logical (je_hlc e) <=? u32_max) && (Z.of_nat (length (je_key e)) <=? MAX_JOURNAL_KEY_BYTES).

Lemma seg_wf_check s :
  forallb entry_wfb (sg_entries s) && (1 <=? sg_first s) && (seg_end s <=? u64_max) = true ->
  consecutive (sg_first s) (sg_entries s) -> seg_wf s.
Proof.
  rewrite !andb_true_iff, !Z.leb_le. intros [[Hall H1] H2] Hc. split_and!; try done.
  apply Forall_forall. intros e He%list_elem_of_In.
  pose proof (proj1 (forallb_forall _ _) Hall e He) as Hb. unfold entry_wfb in Hb.
  rewrite !andb_true_iff, !Z.leb_le in Hb. unfold entry_wf, is_u64, hlc_wf, is_u32, is_u64. tauto.
Qed.

(** Checks that a concrete run has the segments [segs ++ [s]]; the checkpoints
    of a run that rotated are left. *)
Ltac check_sample j :=
  split;
  [ constructor;
    [ split; by vm_compute
    | cbn [app segs_ok]; split_and!; try done;
      (apply seg_wf_check; [by vm_compute|cbn; by split_and!])
    | vm_compute; reflexivity
    | evaluated (j_files j); cbn [app]; repeat (constructor; [split_and!; vm_compute; reflexivity|]);
      constructor
    | by vm_compute | by vm_compute | by vm_compute | by vm_compute | by vm_compute
    | evaluated (j_checkpoints j); try by apply Forall_nil
    | by vm_compute ]
  | eexists; split; [vm_compute; reflexivity|split; vm_compute; reflexivity] ].

(** Two objects written, one deleted, in one segment. *)
Definition small_run := sample_run SEGMENT_TARGET_BYTES
  [[sample_item JPut [x61] 5; sample_item JPut [x62] 6]; [sample_item JDelete [x61] 7]].

Definition small_seg : Seg :=
  {| sg_no := 1; sg_first := 1;
     sg_entries := [sample_entry 1 JPut [x61] 5; sample_entry 2 JPut [x62] 6;
                    sample_entry 3 JDelete [x61] 7] |}.

Lemma small_run_represents : represents toy_crc small_run.1 small_run.2 [] small_seg.
Proof. check_sample (small_run.1). Qed.

Lemma no_frames_check (crc32 : bytes -> Z) es :
  forallb (fun e => forallb (fun n => forallb (fun o =>
    match decode_record crc32 (drop o (take n (encode_record crc32 e))) with
    | Decoded _ _ => false | _ => true end)
    (seq 1 (length (encode_record crc32 e)))) (seq 0 (S (length (encode_record crc32 e))))) es = true ->
  no_frames_in_keys crc32 es.
Proof.
  intros Hall e n He%list_elem_of_In o e' n' Ho Hdec.
  pose proof (proj1 (forallb_forall _ _) Hall e He) as H1. cbv beta in H1.
  set (len := length (encode_record crc32 e)) in *.
  destruct (decide (o < len)%nat) as [Hlt|Hge].
  - pose proof (proj1 (forallb_forall _ _) H1 (Nat.min n len) ltac:(apply in_seq; lia)) as H2.
    pose proof (proj1 (forallb_forall _ _) H2 o ltac:(apply in_seq; lia)) as H3.
    replace (take (Nat.min n len) (encode_record crc32 e)) with (take n (encode_record crc32 e)) in H3.
    + by rewrite Hdec in H3.
    + destruct (decide (n <= len)%nat); [by rewrite Nat.min_l|].
      rewrite Nat.min_r by lia. unfold len. by rewrite firstn_all, take_ge by (unfold len in *; lia).
  - rewrite drop_ge in Hdec; [done|]. rewrite length_take. fold len. lia.
Qed.

Definition torn_items := [sample_item JPut [x63] 8; sample_item JPut [x64] 9].

Lemma journal_survives_torn_append_witness :
  let torn := (append_batch toy_crc small_run.1 small_run.2 torn_items (FlushFails (take 40)) 0).1.2 in
  exists done rest j' d', assign (seg_end small_seg) torn_items = done ++ rest /\
    open_inner toy_crc (j_node small_run.1) 100 (fun _ => None) [] torn = inr (j', d') /\
    j_epoch j' = j_epoch small_run.1 /\ represents toy_crc j' d' [] (extend small_seg done) /\
    last_seq j' = seg_end small_seg + Z.of_nat (length done) - 1 /\
    ((length (records toy_crc (assign (seg_end small_seg) torn_items)) <= 40)%nat -> rest = []).
Proof.
  apply (journal_survives_torn_append toy_crc small_run.1 small_run.2 [] small_seg torn_items 40 0 100
    (fun _ => None) []).
  - apply toy_crc_range.
  - apply small_run_represents.
  - done.
  - repeat constructor; by vm_compute.
  - by vm_compute.
  - by vm_compute.
  - apply no_frames_check. by vm_compute.
  - done.
Defined.

Lemma journal_read_exact_witness :
  read_range toy_crc small_run.1 small_run.2 1 10 1000
  = inr (Entries (drop 1 (sg_entries small_seg)) 3) /\
  exists es rest,
    filter (fun e => 1 < je_seq e) (entries_of ([] ++ [small_seg])) = es ++ rest /\
    read_range toy_crc small_run.1 small_run.2 1 10 1000
    = inr (Entries es (match last es with Some e => je_seq e | None => 1 end)) /\
    (es = [] -> rest = []) /\
    (rest <> [] -> (10 <= length es)%nat \/ 1000 <= Z.of_nat (length (records toy_crc es))).
Proof.
  split; [vm_compute; reflexivity|].
  apply (journal_read_exact toy_crc small_run.1 small_run.2 [] small_seg 1 10 1000).
  - apply toy_crc_range.
  - apply small_run_represents.
  - by vm_compute.
  - constructor; [by vm_compute|constructor].
Defined.

(** Three objects with the longest keys the journal accepts. *)
Definition long_key (b : byte) : bytes := replicate 4096 b.

Definition long_run := sample_run SEGMENT_TARGET_BYTES
  [[sample_item JPut (long_key x61) 5]; [sample_item JPut (long_key x62) 6];
   [sample_item JPut (long_key x63) 7]].

Definition long_seg : Seg :=
  {| sg_no := 1; sg_first := 1;
     sg_entries := [sample_entry 1 JPut (long_key x61) 5; sample_entry 2 JPut (long_key x62) 6;
                    sample_entry 3 JPut (long_key x63) 7] |}.

Lemma long_run_represents : represents toy_crc long_run.1 long_run.2 [] long_seg.
Proof. check_sample (long_run.1). Qed.

Lemma journal_read_stalls_witness :
  read_range toy_crc long_run.1 long_run.2 2 10 4000 = inr (Entries [] 2) /\
  filter (fun e => 2 < je_seq e) (entries_of ([] ++ [long_seg])) <> [].
Proof.
  apply (journal_read_stalls toy_crc long_run.1 long_run.2 [] long_seg 10 4000 2).
  - apply toy_crc_range.
  - apply long_run_represents.
  - done.
  - unfold live_checkpoints. evaluated (j_checkpoints long_run.1). constructor.
  - cbn; lia.
  - by vm_compute.
  - by vm_compute.
Defined.

(** Two appends, each of which fills its segment. *)
Definition rotated_run := sample_run 60 [[sample_item JPut [x61] 5]; [sample_item JPut [x62] 6]].

Definition rotated_segs : list Seg :=
  [{| sg_no := 1; sg_first := 1; sg_entries := [sample_entry 1 JPut [x61] 5] |};
   {| sg_no := 2; sg_first := 2; sg_entries := [sample_entry 2 JPut [x62] 6] |}].

Definition rotated_active : Seg := {| sg_no := 3; sg_first := 3; sg_entries := [] |}.

Lemma rotated_run_represents :
  represents toy_crc rotated_run.1 rotated_run.2 rotated_segs rotated_active.
Proof.
  unfold rotated_segs. check_sample (rotated_run.1). cbn [app].
  constructor; [|constructor; [|constructor]].
  - exists {| sg_no := 2; sg_first := 2; sg_entries := [sample_entry 2 JPut [x62] 6] |}, 0%nat.
    split_and!; [right; left|first [by vm_compute | cbn; lia]..].
  - exists rotated_active, 0%nat. split_and!; [right; right; left|first [by vm_compute | cbn; lia]..].
Qed.

Lemma rotated_run_young : Forall (fun f => older_than 0 100 f = false) (j_files rotated_run.1).
Proof. evaluated (j_files rotated_run.1). by repeat constructor. Qed.

Lemma retention_keeps_unacked_witness :
  exists j' d' report removed kept,
    enforce_retention toy_crc rotated_run.1 rotated_run.2 1 100000 0 100 = (j', d', report) /\
    rotated_segs = removed ++ kept /\ represents toy_crc j' d' kept rotated_active /\
    tr_segments_removed report = Z.of_nat (length removed) /\
    (tr_cap_forced report = false ->
     filter (fun e => 1 < je_seq e) (entries_of (kept ++ [rotated_active]))
     = filter (fun e => 1 < je_seq e) (entries_of (rotated_segs ++ [rotated_active]))).
Proof.
  apply (retention_keeps_unacked toy_crc rotated_run.1 rotated_run.2 rotated_segs rotated_active 1 100000 0 100).
  - apply toy_crc_range.
  - apply rotated_run_represents.
  - by vm_compute.
  - apply rotated_run_young.
Defined.

(** After the restart, a new entry is not in the read of a peer that consumed
    the two old ones. *)
Lemma restart_reuses_sequence_witness :
  (let '(j1, d1, _) := enforce_retention toy_crc rotated_run.1 rotated_run.2 2 100000 0 100 in
   exists j2 d2, open_inner toy_crc (j_node j1) 1000 (fun _ => None) [] d1 = inr (j2, d2) /\
     last_seq j1 = seg_end rotated_active - 1 /\ last_seq j2 = 0 /\ j_epoch j2 = j_epoch j1) /\
  (let '(j1, d1, _) := enforce_retention toy_crc rotated_run.1 rotated_run.2 2 100000 0 100 in
   match open_inner toy_crc (j_node j1) 1000 (fun _ => None) [] d1 with
   | inr (j2, d2) =>
       let '(j3, d3, seqs) := append_batch toy_crc j2 d2 [sample_item JPut [x63] 9] FlushOk 0 in
       seqs = inr [1] /\ read_range toy_crc j3 d3 2 10 1000 = inr (Entries [] 2)
   | inl _ => False
   end).
Proof.
  split.
  - apply (restart_reuses_sequence toy_crc rotated_run.1 rotated_run.2 rotated_segs rotated_active 2
      100000 0 100 1000 (fun _ => None) []).
    + apply toy_crc_range.
    + apply rotated_run_represents.
    + by vm_compute.
    + apply rotated_run_young.
    + done.
    + by vm_compute.
  - vm_compute. split; reflexivity.
Defined.
