(* ===== verification/JournalHole.v ===== *)
(** * A power loss inside a batch of the metadata journal
      (crates/oceanfs-storage/src/metadata/journal.rs: [append_batch],
       [recover], [find_resync], [open_inner])

    A power loss can lose pages in the middle of a batch that was not yet
    synced and keep later ones. The recovery then finds the records behind the
    hole, moves them up, and marks everything below them as a gap, so that a
    peer that is behind the hole is told to bootstrap. *)

From Stdlib Require Import ZArith Lia Strings.Byte.
From stdpp Require Import base list.
From S2P Require Import Prelude Hlc WalPos EventWal MetaStore Journal JournalLog.

Set Default Proof Using "Type".
Local Open Scope Z_scope.

Section holes.
Context (crc32 : bytes -> Z).
Hypothesis crc32_range : forall bs, is_u32 (crc32 bs).

Notation records := (records crc32).
Notation seg_bytes := (seg_bytes crc32).
Notation disk_of := (disk_of crc32).

(** No record starts inside [junk] when [rest] follows it. *)
Definition no_record_in (junk rest : bytes) : Prop :=
  forall o e n, (o < length junk)%nat -> decode_record crc32 (drop o (junk ++ rest)) <> Decoded e n.

Lemma find_resync_junk n pre junk rest e k last : forall o,
  no_record_in junk rest -> decode_record crc32 rest = Decoded e k -> (8 <= length rest)%nat ->
  match last with Some l => l < je_seq e | None => True end ->
  (o <= length junk)%nat -> (length junk - o < n)%nat ->
  find_resync crc32 n (pre ++ junk ++ rest) (length pre + o) last = Some ((length pre + length junk)%nat, je_seq e).
Proof.
  induction n as [|n IH]; intros o Hj Hd Hl Hlast Ho Hn; [lia|]. cbn [find_resync].
  rewrite !length_app, (proj2 (Nat.leb_le _ _)) by lia. rewrite <- drop_drop, drop_app_length.
  destruct (decide (o = length junk)) as [->|Hne].
  - rewrite drop_app_length, Hd. replace (match last with Some s => s <? je_seq e | None => true end) with true; [done|].
    destruct last; [|done]. symmetry. by apply Z.ltb_lt.
  - replace (S (length pre + o)) with (length pre + S o)%nat by lia. specialize (Hj o) as Ho'.
    destruct (decode_record crc32 (drop o (junk ++ rest))) as [| |e' k']; [apply IH; try done; lia..|].
    destruct (Ho' e' k'); [lia|done].
Qed.

Lemma rescan_records file_no es : forall fuel pre sc,
  Forall entry_wf es -> (length (records es) <= fuel)%nat ->
  rescan crc32 fuel file_no (pre ++ records es) (length pre) sc = scan_entries crc32 file_no (length pre) es sc.
Proof using crc32_range.
  induction es as [|e es IH]; intros fuel pre sc Hwf Hfuel; cbn [scan_entries].
  - change (records []) with (@nil byte). rewrite app_nil_r. destruct fuel; [done|]. cbn [rescan].
    by rewrite (proj2 (Nat.ltb_ge _ _)) by lia.
  - apply Forall_cons in Hwf as [He Hwf]. rewrite records_cons in *. pose proof (length_encode_record crc32 e) as Hl.
    rewrite length_app in Hfuel. destruct fuel as [|fuel]; [lia|]. cbn [rescan].
    rewrite (proj2 (Nat.ltb_lt _ _)) by (rewrite !length_app; lia). rewrite drop_app_length, decode_encode_record by done.
    rewrite app_assoc, <- (length_app pre). apply IH; [done|lia].
Qed.

Definition with_gap (sc : Scan) (gap : Z) : Scan :=
  {| sc_first := sc_first sc; sc_last := sc_last sc; sc_gap := gap; sc_seen := sc_seen sc; sc_cps := sc_cps sc |}.

Lemma scan_file_hole fuel previous file_no pre junk e kept sc :
  (0 < fuel)%nat -> junk <> [] -> no_record_in junk (records (e :: kept)) -> Forall entry_wf (e :: kept) ->
  match sc_last sc with Some l => l < je_seq e | None => True end ->
  scan_file crc32 fuel true previous file_no (pre ++ junk ++ records (e :: kept)) (length pre) sc
  = Scanned (scan_entries crc32 file_no (length pre) (e :: kept) (with_gap sc (Z.max (sc_gap sc) (u64_pred (je_seq e)))))
      (pre ++ records (e :: kept)).
Proof using crc32_range.
  intros Hf Hne Hj Hwf Hlast. destruct fuel as [|fuel]; [lia|]. cbn [scan_file].
  assert (0 < length junk)%nat as Hjl by (destruct junk; [done|cbn; lia]).
  rewrite (proj2 (Nat.ltb_lt _ _)) by (rewrite !length_app; lia). rewrite drop_app_length.
  pose proof (Hj 0%nat) as H0. rewrite drop_0 in H0. cbn [negb].
  pose proof (length_encode_record crc32 e) as Hl.
  assert (Hrs : find_resync crc32 (length (pre ++ junk ++ records (e :: kept))) (pre ++ junk ++ records (e :: kept))
    (S (length pre)) (sc_last sc) = Some ((length pre + length junk)%nat, je_seq e)).
  { replace (S (length pre)) with (length pre + 1)%nat by lia. apply Forall_cons in Hwf as [He _].
    eapply find_resync_junk; [done|rewrite records_cons; by apply decode_encode_record| |done|lia|].
    - rewrite records_cons, length_app. lia.
    - rewrite !length_app, records_cons, length_app. lia. }
  rewrite Hrs. replace (drop (length pre + length junk) (pre ++ junk ++ records (e :: kept))) with (records (e :: kept))
    by (by rewrite <- drop_drop, !drop_app_length).
  rewrite take_app_length. destruct (decode_record crc32 (junk ++ records (e :: kept))) as [| |e' k'].
  3: { destruct (H0 e' k'); [done|done]. }
  all: f_equal; apply rescan_records; [done|rewrite length_app; lia].
Qed.

(** The active segment [x], a hole, and the records [e :: kept] behind it. *)
Lemma scan_seg_hole node_id epoch previous x junk e kept gap seen cps :
  seg_wf x -> previous = None \/ previous = Some (sg_first x - 1) ->
  junk <> [] -> no_record_in junk (records (e :: kept)) -> Forall entry_wf (e :: kept) -> seg_end x <= je_seq e ->
  let sc := {| sc_first := None; sc_last := None; sc_gap := gap; sc_seen := seen; sc_cps := cps |} in
  let content := seg_bytes node_id epoch x ++ junk ++ records (e :: kept) in
  exists sc', scan_file crc32 (S (length content)) true previous (sg_no x) content (length (header_of crc32 node_id epoch x)) sc
    = Scanned sc' (seg_bytes node_id epoch x ++ records (e :: kept)) /\
    sc_gap sc' = Z.max gap (u64_pred (je_seq e)) /\ is_Some (sc_first sc') /\
    sc_last sc' = je_seq <$> last (e :: kept).
Proof using crc32_range.
  intros Hx Hp Hne Hj Hk Hseq sc content. destruct (seg_last_spec x Hx) as [Hl _]. destruct Hx as (Hwf & Hc & H1 & Hmax).
  unfold content, JournalLog.seg_bytes. rewrite <- app_assoc.
  destruct (scan_file_records crc32 crc32_range
    (S (length (header_of crc32 node_id epoch x ++ records (sg_entries x) ++ junk ++ records (e :: kept)))) true previous (sg_no x)
    (header_of crc32 node_id epoch x) (sg_entries x) (junk ++ records (e :: kept)) (sg_first x) sc) as (fuel' & Hf & ->);
    [done|done|done|done|by right|rewrite (length_app (header_of crc32 node_id epoch x)); lia|].
  destruct (scan_entries_spec crc32 (sg_no x) (length (header_of crc32 node_id epoch x)) (sg_entries x) sc) as (Hg1 & Hf1 & Hl1).
  rewrite app_assoc, <- length_app. rewrite scan_file_hole; [|lia|done|done|done|].
  2: { rewrite Hl1. cbn [sc sc_last]. rewrite <- Hl. unfold seg_last. destruct (sg_entries x); [done|]. lia. }
  eexists. split; [reflexivity|].
  match goal with |- sc_gap (scan_entries _ ?f ?c ?l ?sc) = _ /\ _ =>
    destruct (scan_entries_spec crc32 f c l sc) as (Hg2 & Hf2 & Hl2) end.
  rewrite Hg2, Hf2, Hl2. cbn [with_gap sc_gap sc_first sc_last]. rewrite Hg1. split; [done|]. split.
  - by destruct (sc_first (scan_entries crc32 _ _ (sg_entries x) sc)).
  - destruct (last (e :: kept)) eqn:E; [done|]. by apply last_None in E.
Qed.

(** The turn of the recovery on that segment. *)
Lemma recover_file_hole mtime node_id epoch x junk e kept X r :
  ids_ok node_id epoch -> seg_wf x -> junk <> [] -> no_record_in junk (records (e :: kept)) ->
  Forall entry_wf (e :: kept) -> seg_end x <= je_seq e ->
  Forall (fun p => p.1 < sg_no x) X ->
  rv_disk r = X ++ [(sg_no x, seg_bytes node_id epoch x ++ junk ++ records (e :: kept))] ->
  rv_epoch r = Some epoch -> rv_previous r = None \/ rv_previous r = Some (sg_first x - 1) ->
  exists r' f, recover_file crc32 mtime true (sg_no x) r = Recovered r' /\
    rv_epoch r' = Some epoch /\ rv_gap r' = Z.max (rv_gap r) (u64_pred (je_seq e)) /\
    rv_files r' = rv_files r ++ [f] /\ fm_no f = sg_no x /\ is_Some (fm_first f) /\
    Some (rv_last r') = je_seq <$> last (e :: kept) /\
    rv_disk r' = X ++ [(sg_no x, seg_bytes node_id epoch x ++ records (e :: kept))].
Proof using crc32_range.
  intros Hids Hx Hne Hj Hk Hseq HX Hd He Hp. unfold recover_file. rewrite Hd, file_get_here by done.
  unfold JournalLog.seg_bytes at 1, header_of at 1. rewrite <- app_assoc, parse_encode_header by done.
  rewrite He, bool_decide_true by done. cbn [negb].
  replace (50 + length node_id)%nat with (length (header_of crc32 node_id epoch x))
    by (unfold header_of; apply length_header, Hids).
  destruct (scan_seg_hole node_id epoch (rv_previous r) x junk e kept (rv_gap r) (rv_seen r) (rv_cps r)) as (sc' & -> & Hg & Hf & Hl);
    [done..|]. do 2 eexists. split; [reflexivity|]. cbn [rv_epoch rv_gap rv_files rv_last rv_disk fm_no fm_first].
  rewrite Hg, Hl, file_put_here by done. split_and!; try done.
  destruct (last (e :: kept)) eqn:E; [done|]. by apply last_None in E.
Qed.

(** A directory with a hole in the active file. *)
Definition holed (node_id : NodeId) (d : Dir) (m : Manifest) (segs : list Seg) (s : Seg) (junk : bytes)
    (kept : list JournalEntry) : Prop :=
  ids_ok node_id (mf_epoch m) /\ segs_ok (segs ++ [s]) /\ junk <> [] /\ no_record_in junk (records kept) /\
  Forall entry_wf kept /\ read_manifest crc32 d = Some m /\
  d_files d = disk_of node_id (mf_epoch m) segs ++ [(sg_no s, seg_bytes node_id (mf_epoch m) s ++ junk ++ records kept)].

Lemma recover_hole node_id mtime fresh d m segs s junk e kept :
  holed node_id d m segs s junk (e :: kept) -> seg_end s <= je_seq e ->
  exists o fs f, recover crc32 mtime fresh d = Recovered o /\ o_epoch o = mf_epoch m /\
    o_gap o = Z.max (mf_gap_floor m) (u64_pred (je_seq e)) /\
    o_files o = fs ++ [f] /\ fm_no f = sg_no s /\ is_Some (fm_first f) /\
    Some (o_last o) = je_seq <$> last (e :: kept) /\
    d_files (o_dir o) = disk_of node_id (mf_epoch m) segs ++ [(sg_no s, seg_bytes node_id (mf_epoch m) s ++ records (e :: kept))].
Proof using crc32_range.
  intros (Hids & Hok & Hne & Hj & Hk & Hm & Hd) Hseq.
  assert (fst <$> d_files d = sg_no <$> segs ++ [s]) as Hnum.
  { rewrite Hd, !fmap_app. unfold JournalLog.disk_of. by rewrite <- list_fmap_compose. }
  unfold recover. rewrite Hnum. cbv zeta. rewrite Hm. cbn [fmap option_fmap option_map].
  set (r0 := {| rv_epoch := Some (mf_epoch m) |}).
  destruct (recover_files_segs crc32 crc32_range mtime node_id (mf_epoch m) (mf_gap_floor m) segs s
    (seg_bytes node_id (mf_epoch m) s ++ junk ++ records (e :: kept)) [] r0 Hids Hok) as (r1 & Hr1 & [] & Hd1);
    [by constructor|exact Hd|].
  destruct (recover_file_hole mtime node_id (mf_epoch m) s junk e kept (disk_of node_id (mf_epoch m) segs) r1)
    as (r' & f & Hr' & He & Hg & Hfs & Hfn & Hff & Hl & Hdisk); try done.
  - by apply (segs_ok_wf _ _ Hok), active_in.
  - apply disk_below, Forall_forall. intros s' Hs'. by apply earlier_numbers with segs.
  - rewrite rg_previous. destruct (last ([] ++ segs)) as [w|] eqn:El; [|by left]. right. cbn [app] in El.
    apply last_Some in El as [segs' ->]. rewrite <- app_assoc in Hok.
    apply segs_ok_app in Hok as [_ (_ & _ & _ & -> & _)]. done.
  - cbn [app] in Hr1. change (sg_no <$> [] ++ segs ++ [s]) with (sg_no <$> segs ++ [s]) in Hr1. rewrite Hr1.
    cbn [recover_files]. rewrite bool_decide_true by done. rewrite Hr'.
    destruct (sg_no <$> segs ++ [s]) as [|n0 ns] eqn:Hns; [by apply fmap_nil_inv, app_eq_nil in Hns as [_ ?]|].
    rewrite Hfs. destruct (rv_files r1 ++ [f]) as [|f0 fs0] eqn:Ef; [by apply app_eq_nil in Ef as [_ ?]|].
    eexists _, (rv_files r1), f. split; [reflexivity|]. cbn [o_epoch o_gap o_files o_last o_dir].
    rewrite He, Hg, rg_gap. split_and!; try done.
    by destruct (_ && _); cbn [write_manifest d_files].
Qed.

Lemma open_hole node_id target mtime fresh d m segs s junk e kept :
  holed node_id d m segs s junk (e :: kept) -> seg_end s <= je_seq e ->
  exists j' d', open_inner crc32 node_id target mtime fresh d = inr (j', d') /\ j_epoch j' = mf_epoch m /\
    j_gap_floor j' = Z.max (mf_gap_floor m) (u64_pred (je_seq e)) /\
    Some (j_synced j') = je_seq <$> last (e :: kept) /\ j_next j' = u64_succ (j_synced j') /\
    d_files d' = disk_of node_id (mf_epoch m) segs ++ [(sg_no s, seg_bytes node_id (mf_epoch m) s ++ records (e :: kept))].
Proof using crc32_range.
  intros Hh Hseq. destruct (recover_hole node_id mtime fresh d m segs s junk e kept Hh Hseq)
    as (o & fs & f & Ho & He & Hg & Hfs & Hfn & [first Hff] & Hl & Hd). destruct Hh as (Hids & Hok & _).
  unfold open_inner. rewrite Ho. unfold open_recovered. rewrite Hfs, last_snoc, Hfn, Hff, Hd. cbn [default from_option id].
  assert (Hget : file_get (disk_of node_id (mf_epoch m) segs ++ [(sg_no s, seg_bytes node_id (mf_epoch m) s ++ records (e :: kept))])
    (sg_no s) = Some (seg_bytes node_id (mf_epoch m) s ++ records (e :: kept))).
  { apply file_get_here, disk_below, Forall_forall. intros s' Hs'. by apply earlier_numbers with segs. }
  unfold ensure_segment. rewrite Hget. destruct (seg_bytes node_id (mf_epoch m) s ++ records (e :: kept)) as [|b bs] eqn:Eb.
  { apply (f_equal length) in Eb. rewrite records_cons, !length_app, (length_encode_record crc32 e) in Eb. cbn in Eb. lia. }
  cbv zeta. destruct (write_manifest_now _ _ _ _ _) as [j2 d2] eqn:Hw. injection Hw as <- <-.
  do 2 eexists. split; [reflexivity|]. cbn [j_epoch j_gap_floor j_synced j_next write_manifest d_files].
  by rewrite He, Hg.
Qed.
End holes.

Lemma failed_append_files (crc32 : bytes -> Z) j d segs s items remains now :
  represents crc32 j d segs s -> items <> [] -> items_wf items ->
  let d' := (append_batch crc32 j d items (FlushFails remains) now).1.2 in
  d_manifest d' = d_manifest d /\
  d_files d' = disk_of crc32 (j_node j) (j_epoch j) segs
    ++ [(sg_no s, seg_bytes crc32 (j_node j) (j_epoch j) s ++ remains (records crc32 (assign (seg_end s) items)))].
Proof.
  intros [[] _] Hne Hi. cbv zeta. unfold append_batch. destruct items as [|i0 items0]; [done|].
  rewrite (keys_accepted _ Hi), rp_failed, rp_next. cbn [fst snd d_manifest d_files]. split; [done|].
  rewrite rp_disk, rp_active. unfold file_append. rewrite (file_get_disk_of _ _ _ _ _ rp_segs (active_in _ _)). cbn [default from_option id].
  rewrite file_put_active; [done|apply Forall_forall; intros s' Hs'; by apply earlier_numbers with segs|done].
Qed.

(** C37: a hole that a power loss leaves in the middle of an unsynced batch
    becomes a gap. Of the records of the batch the file holds the first ones,
    then bytes in which no record starts, then the last ones. The journal
    reopens under the same epoch with every earlier entry and the records on
    both sides of the hole moved together, the numbering goes on after the last
    record, and the floor is at the hole: a reader whose position is below it
    is told that there is a gap and is never handed the records behind the
    hole as if nothing were missing. The journal is undamaged before the batch,
    and one batch is written at a time. *)
Theorem hole_becomes_gap (crc32 : bytes -> Z) j d segs s items done lost e kept junk now target mtime fresh :
  (forall bs, is_u32 (crc32 bs)) ->
  represents crc32 j d segs s -> items_wf items -> seg_end s + Z.of_nat (length items) <= u64_max ->
  assign (seg_end s) items = done ++ lost ++ e :: kept -> junk <> [] -> no_record_in crc32 junk (records crc32 (e :: kept)) ->
  let torn := (append_batch crc32 j d items
    (FlushFails (fun _ => records crc32 done ++ junk ++ records crc32 (e :: kept))) now).1.2 in
  let floor := seg_end s + Z.of_nat (length done) + Z.of_nat (length lost) - 1 in
  exists j' d', open_inner crc32 (j_node j) target mtime fresh torn = inr (j', d') /\ j_epoch j' = j_epoch j /\
    d_files d' = disk_of crc32 (j_node j) (j_epoch j) segs
      ++ [(sg_no s, seg_bytes crc32 (j_node j) (j_epoch j) (extend s done) ++ records crc32 (e :: kept))] /\
    last_seq j' = seg_end s + Z.of_nat (length items) - 1 /\ floor <= oldest_seq j' /\
    forall from n m, from < floor -> read_range crc32 j' d' from n m = inr (Gap (oldest_seq j')).
Proof.
  intros Hcrc Hrep Hi Hmax Heq Hne Hj torn floor. pose proof Hrep as [Hh (m & Hm & Hme & Hmg)].
  pose proof (segs_ok_wf _ _ (rp_segs _ _ _ _ _ Hh) (active_in _ _)) as Hs. pose proof (extend_wf s items Hs Hi Hmax) as Hwe.
  assert (Hne' : items <> []) by (intros ->; by destruct done, lost).
  destruct (failed_append_files crc32 j d segs s items (fun _ => records crc32 done ++ junk ++ records crc32 (e :: kept)) now
    Hrep Hne' Hi) as [Hman Hfiles]. fold torn in Hman, Hfiles.
  pose proof (assign_consecutive (seg_end s) items) as Hcons. pose proof (assign_length (seg_end s) items) as Hlen.
  destruct Hs as (_ & _ & H1 & _). rewrite Heq in Hwe, Hcons, Hlen. rewrite !length_app in Hlen. cbn [length] in Hlen.
  assert (Hcons' : consecutive (seg_end s) (done ++ lost ++ e :: kept)) by (apply Hcons; unfold seg_end in *; lia).
  pose proof Hcons' as [_ [_ [Hseq Hck]]%consecutive_app]%consecutive_app.
  destruct (open_hole crc32 Hcrc (j_node j) target mtime fresh torn m segs (extend s done) junk e kept)
    as (j' & d' & Ho & He & Hg & Hsy & Hnx & Hd).
  - rewrite <- Hme in Hfiles. split_and!; try done.
    + rewrite Hme. apply Hh.
    + apply segs_ok_replace with s; [apply Hh|by eapply seg_wf_shorter|done|done].
    + destruct Hwe as [Hw _]. cbn [extend sg_entries] in Hw. by apply Forall_app in Hw as [_ [_ [_ ?]%Forall_app]%Forall_app].
    + unfold read_manifest in *. by rewrite Hman.
    + rewrite Hfiles, seg_bytes_extend. by rewrite <- app_assoc.
  - rewrite seg_end_extend. lia.
  - assert (Hlast : j_synced j' = seg_end s + Z.of_nat (length items) - 1).
    { destruct (exists_last (l := e :: kept)) as (l & x & El); [done|]. rewrite El, last_snoc in Hsy. injection Hsy as ->.
      rewrite El, !app_assoc in Hcons'. apply last_of_consecutive in Hcons'. rewrite Hcons'.
      apply (f_equal length) in El. rewrite length_app in El. cbn in El. rewrite !length_app. lia. }
    assert (Hfl : floor <= oldest_seq j').
    { unfold oldest_seq. rewrite Hg, u64_pred_small by (unfold seg_end in *; lia). unfold floor. lia. }
    exists j', d'. rewrite <- Hme. split_and!; try done.
    + unfold last_seq. rewrite Hnx, u64_succ_small, u64_pred_small by (unfold seg_end in *; lia). lia.
    + intros from n k Hfrom. unfold read_range. by rewrite (proj2 (Z.ltb_lt _ _)) by lia.
Qed.

(** ** An example *)

Definition hole_items := [sample_item JPut [x63] 8; sample_item JPut [x64] 9; sample_item JDelete [x65] 10].
Definition junk_bytes : bytes := [x50; x4f; x57; x45; x52; x4c; x4f; x53; x53].

Lemma hole_becomes_gap_witness :
  let torn := (append_batch toy_crc small_run.1 small_run.2 hole_items
    (FlushFails (fun _ => records toy_crc [sample_entry 4 JPut [x63] 8] ++ junk_bytes
                          ++ records toy_crc [sample_entry 6 JDelete [x65] 10])) 0).1.2 in
  exists j' d', open_inner toy_crc (j_node small_run.1) 100 (fun _ => None) [] torn = inr (j', d') /\
    j_epoch j' = j_epoch small_run.1 /\
    d_files d' = disk_of toy_crc (j_node small_run.1) (j_epoch small_run.1) []
      ++ [(sg_no small_seg, seg_bytes toy_crc (j_node small_run.1) (j_epoch small_run.1)
             (extend small_seg [sample_entry 4 JPut [x63] 8]) ++ records toy_crc [sample_entry 6 JDelete [x65] 10])] /\
    last_seq j' = 6 /\ 5 <= oldest_seq j' /\
    forall from n m, from < 5 -> read_range toy_crc j' d' from n m = inr (Gap (oldest_seq j')).
Proof.
  apply (hole_becomes_gap toy_crc small_run.1 small_run.2 [] small_seg hole_items [sample_entry 4 JPut [x63] 8]
    [sample_entry 5 JPut [x64] 9] (sample_entry 6 JDelete [x65] 10) [] junk_bytes 0 100 (fun _ => None) []).
  - apply toy_crc_range.
  - apply small_run_represents.
  - repeat constructor; by vm_compute.
  - by vm_compute.
  - by vm_compute.
  - done.
  - intros o e n Ho. do 9 (destruct o as [|o]; [vm_compute; discriminate|]). cbn in Ho. lia.
Defined.
