(* ===== verification/MetaSync.v ===== *)
(** * Pull-based metadata catch-up (crates/oceanfs-durability/src/metadata_sync)

    The per-peer watermarks ([watermark.rs]), the server side of a pull
    ([service.rs]) and the worker ([worker.rs]): it pulls a peer's journal,
    keeps the keys this node owns and is not ahead of, fetches their current
    rows from other holders, applies them to the metadata store, and advances
    the watermark. The journal and the store are the models of their files; a
    remote call is a function argument that gives the reply, or none when the
    call fails. Replies of one round arrive in the order of their requests:
    the code takes them as they complete, which is not observable, since every
    key is asked of one holder per round. Metrics, the semaphore that bounds
    the calls in flight and the files of the watermarks are not modelled. *)

From Stdlib Require Import ZArith Lia Strings.Byte.
From stdpp Require Import base list gmap.
From S2P Require Import Prelude Hlc Ring EventWal EventRecord Gossip MetaKey MetaStore Journal JournalLog.

Set Default Proof Using "Type".
Local Open Scope Z_scope.

(** ** Watermarks *)

Record PeerWatermark := {
  pw_epoch : option bytes; pw_consumed : Z; pw_acked : Z; pw_acked_epoch : option bytes }.

Definition zero_watermark : PeerWatermark :=
  {| pw_epoch := None; pw_consumed := 0; pw_acked := 0; pw_acked_epoch := None |}.

Record WatermarkStore := {
  ws_records : gmap bytes PeerWatermark; ws_non_consuming : gset bytes }.

Definition wm_get (ws : WatermarkStore) (peer : NodeId) : PeerWatermark :=
  default zero_watermark (ws_records ws !! peer).

Definition wm_put (ws : WatermarkStore) (peer : NodeId) (r : PeerWatermark) : WatermarkStore :=
  {| ws_records := <[peer := r]> (ws_records ws); ws_non_consuming := ws_non_consuming ws |}.

Definition set_consumed (ws : WatermarkStore) (peer : NodeId) (epoch : bytes) (seq : Z) : WatermarkStore :=
  let r := wm_get ws peer in
  wm_put ws peer
    (if bool_decide (pw_epoch r = Some epoch)
     then {| pw_epoch := pw_epoch r; pw_consumed := Z.max (pw_consumed r) seq;
             pw_acked := pw_acked r; pw_acked_epoch := pw_acked_epoch r |}
     else {| pw_epoch := Some epoch; pw_consumed := seq;
             pw_acked := pw_acked r; pw_acked_epoch := pw_acked_epoch r |}).

Definition set_acked (ws : WatermarkStore) (peer : NodeId) (own_epoch : bytes) (seq : Z) : WatermarkStore :=
  let r := wm_get ws peer in
  wm_put ws peer
    (if bool_decide (pw_acked_epoch r = Some own_epoch)
     then {| pw_epoch := pw_epoch r; pw_consumed := pw_consumed r;
             pw_acked := Z.max (pw_acked r) seq; pw_acked_epoch := pw_acked_epoch r |}
     else {| pw_epoch := pw_epoch r; pw_consumed := pw_consumed r;
             pw_acked := seq; pw_acked_epoch := Some own_epoch |}).

Definition mark_non_consuming (ws : WatermarkStore) (peer : NodeId) : WatermarkStore :=
  {| ws_records := ws_records ws; ws_non_consuming := {[ peer ]} ∪ ws_non_consuming ws |}.

Definition mark_consuming (ws : WatermarkStore) (peer : NodeId) : WatermarkStore :=
  {| ws_records := ws_records ws; ws_non_consuming := ws_non_consuming ws ∖ {[ peer ]} |}.

Definition is_consuming (ws : WatermarkStore) (peer : NodeId) : bool :=
  negb (bool_decide (peer ∈ ws_non_consuming ws)).

Definition min_of (l : list Z) : option Z :=
  match l with [] => None | x :: l => Some (foldl Z.min x l) end.

Definition acked_in (ws : WatermarkStore) (own_epoch : bytes) (peer : NodeId) : Z :=
  let r := wm_get ws peer in
  if bool_decide (pw_acked_epoch r = Some own_epoch) then pw_acked r else 0.

Definition frontier (ws : WatermarkStore) (retained : list NodeId) (own_epoch : bytes) : option Z :=
  min_of (acked_in ws own_epoch <$> filter (fun p => is_consuming ws p = true) retained).

(** The durable form of a record. *)
Definition WATERMARK_MAGIC : bytes := [x4f; x46; x53; x4d; x57; x4d; x30; x31].

Definition flag (o : option bytes) : byte := match o with Some _ => x01 | None => x00 end.

Definition watermark_body (r : PeerWatermark) : bytes :=
  WATERMARK_MAGIC ++ [flag (pw_epoch r)] ++ default (replicate 16 x00) (pw_epoch r)
  ++ to_le 8 (pw_consumed r) ++ to_le 8 (pw_acked r)
  ++ [flag (pw_acked_epoch r)] ++ default (replicate 16 x00) (pw_acked_epoch r).

Definition encode_watermark (crc32 : bytes -> Z) (r : PeerWatermark) : bytes :=
  watermark_body r ++ to_le 4 (crc32 (watermark_body r)).

Definition RECORD_LEN : nat := 8 + 1 + 16 + 8 + 8 + 1 + 16 + 4.

Definition decode_watermark (crc32 : bytes -> Z) (bs : bytes) : option PeerWatermark :=
  if negb (length bs =? RECORD_LEN)%nat || negb (bool_decide (field bs 0 8 = WATERMARK_MAGIC)) then None else
  if negb (crc32 (take (length bs - 4) bs) =? from_le (field bs (length bs - 4) (length bs))) then None else
  Some {| pw_epoch := if bool_decide (bs !! 8%nat = Some x01) then Some (field bs 9 25) else None;
          pw_consumed := from_le (field bs 25 33); pw_acked := from_le (field bs 33 41);
          pw_acked_epoch := if bool_decide (bs !! 41%nat = Some x01) then Some (field bs 42 58) else None |}.

(** ** The server side *)

Record FetchRequest := {
  rq_epoch : bytes; rq_from_seq : Z; rq_max_entries : Z; rq_max_bytes : Z; rq_requester : bytes }.

Record WireEntry := { we_seq : Z; we_op : Z; we_key : bytes; we_hlc : option Hlc }.

Record FetchResponse := {
  fr_epoch : bytes; fr_oldest_seq : Z; fr_entries : list WireEntry; fr_next_seq : Z;
  fr_acknowledged_seq : Z; fr_acknowledged_epoch : bytes }.

Definition MAX_SERVER_ENTRIES : Z := 65536.
Definition MAX_SERVER_BYTES : Z := 16 * 1024 * 1024.

Definition clamp (lo hi x : Z) : Z := if x <? lo then lo else if hi <? x then hi else x.

Definition to_wire (e : JournalEntry) : WireEntry :=
  {| we_seq := je_seq e; we_op := Z_of_byte (op_as_u8 (je_op e)); we_key := je_key e;
     we_hlc := Some (je_hlc e) |}.

(** The ack a pull carries: the requester has consumed up to [from_seq]. *)
Definition record_ack (ws : WatermarkStore) (epoch : bytes) (req : FetchRequest) (requester : option NodeId) :
    WatermarkStore :=
  match requester with
  | Some peer =>
      if (0 <? rq_from_seq req) && bool_decide (rq_epoch req = epoch)
      then set_acked ws peer epoch (rq_from_seq req) else ws
  | None => ws
  end.

Definition requester_of (req : FetchRequest) : option NodeId :=
  if utf8_valid (rq_requester req) && negb (bool_decide (rq_requester req = []))
  then Some (rq_requester req) else None.

Definition fetch_journal (crc32 : bytes -> Z) (j : Journal) (d : Dir) (ws : WatermarkStore)
    (req : FetchRequest) : (JournalError + FetchResponse) * WatermarkStore :=
  let epoch := j_epoch j in
  let epoch_matches := bool_decide (rq_epoch req = epoch) in
  let requester := requester_of req in
  let ws := record_ack ws epoch req requester in
  let acknowledged_epoch :=
    default [] (match requester with Some peer => pw_epoch (wm_get ws peer) | None => None end) in
  let oldest := oldest_seq j in
  let acknowledged_seq := match requester with Some peer => pw_consumed (wm_get ws peer) | None => 0 end in
  let reply oldest entries next_seq :=
    {| fr_epoch := epoch; fr_oldest_seq := oldest; fr_entries := entries; fr_next_seq := next_seq;
       fr_acknowledged_seq := acknowledged_seq; fr_acknowledged_epoch := acknowledged_epoch |} in
  (if negb epoch_matches && (0 <? rq_from_seq req) then inr (reply oldest [] (rq_from_seq req)) else
   if rq_from_seq req <? oldest then inr (reply oldest [] (rq_from_seq req)) else
   match read_range crc32 j d (rq_from_seq req)
           (Z.to_nat (clamp 1 MAX_SERVER_ENTRIES (rq_max_entries req)))
           (clamp 1 MAX_SERVER_BYTES (rq_max_bytes req)) with
   | inl e => inl e
   | inr (Gap oldest) => inr (reply oldest [] (rq_from_seq req))
   | inr (Entries entries next_seq) => inr (reply oldest (to_wire <$> entries) next_seq)
   end, ws).

(** A row on the wire; a value that does not deserialise is [None]. *)
Inductive MetadataRow :=
  | ObjectRow (key : bytes) (value : option ObjectMetadata) (size : Z)
  | DeletionRow (key : bytes) (value : option Tombstone) (size : Z)
  | EmptyRow.

Definition split_object_row_key (row_key : bytes) : option (bytes * bytes) :=
  match decode_deletions_key utf8_valid row_key with
  | Some (Plain _ _) => decode_object_key utf8_valid row_key
  | _ => None
  end.

(** [metadata_rows]: the current row of each key; [object_size] and
    [tombstone_size] are the lengths of the serialised values. The code stops
    after thirty seconds: [n] is the number of keys it gets to. *)
Definition metadata_rows (object_size : ObjectMetadata -> Z) (tombstone_size : Tombstone -> Z)
    (st : Store) (n : nat) (keys : list bytes) : list MetadataRow :=
  omap (fun key =>
    '(bucket, object_key) ← split_object_row_key key;
    match get_object st bucket object_key with
    | Some meta => Some (ObjectRow key (Some meta) (object_size meta))
    | None => (fun t => DeletionRow key (Some t) (tombstone_size t)) <$> get_tombstone st bucket object_key
    end) (take n keys).

(** ** The worker *)

Record CycleBudget := { entries_left : Z; bytes_left : Z }.

Definition exhausted (b : CycleBudget) : bool := (entries_left b =? 0) || (bytes_left b =? 0).

Definition consume_entries (b : CycleBudget) (count : Z) : CycleBudget :=
  {| entries_left := saturating_sub (entries_left b) count; bytes_left := bytes_left b |}.

Definition consume_bytes (b : CycleBudget) (n : Z) : CycleBudget :=
  {| entries_left := entries_left b; bytes_left := saturating_sub (bytes_left b) n |}.

(** [decode_entry]; the discriminant is truncated to a byte. *)
Definition decode_entry (w : WireEntry) : option JournalEntry :=
  op ← op_from_u8 (byte_of_Z (we_op w));
  hlc ← we_hlc w;
  Some {| je_seq := we_seq w; je_op := op; je_key := we_key w; je_hlc := hlc |}.

(** [decode_epoch]. *)
Definition decode_epoch (bs : bytes) : option bytes := if (length bs =? 16)%nat then Some bs else None.

Definition coalesce_insert (latest : gmap bytes JournalEntry) (e : JournalEntry) : gmap bytes JournalEntry :=
  match latest !! je_key e with
  | Some existing => if je_seq e <=? je_seq existing then latest else <[je_key e := e]> latest
  | None => <[je_key e := e]> latest
  end.

(** [coalesce_latest]: the values of the ordered map, by ascending key. *)
Definition coalesce_latest (entries : list JournalEntry) : list JournalEntry :=
  (rows (foldl coalesce_insert ∅ entries)).*2.

Definition advance_watermark (current next_seq : Z) (unresolved_min : option Z) : Z :=
  match unresolved_min with
  | Some seq => Z.max (saturating_sub seq 1) current
  | None => Z.max next_seq current
  end.

Definition local_skip_is_current (e : JournalEntry) (local_row : option ObjectMetadata)
    (local_tombstone : option Tombstone) : bool :=
  match (match je_op e with JPut => om_hlc <$> local_row | JDelete => ts_hlc <$> local_tombstone end) with
  | Some version => hlc_ltb (je_hlc e) version
  | None => false
  end.

Record FetchKey := { fk_key : bytes; fk_holders : list NodeId; fk_seq : Z }.

(** The turn of the filter loop of [pull_peer] on one coalesced entry; [lookup]
    is the ring lookup of the hash of the object key. *)
Definition plan_entry (node_id : NodeId) (lookup : bytes -> list NodeId) (st : Store) (e : JournalEntry) :
    option FetchKey :=
  '(bucket, key) ← split_object_row_key (je_key e);
  let holders := lookup key in
  if negb (bool_decide (node_id ∈ holders)) then None else
  if local_skip_is_current e (get_object st bucket key) (get_tombstone st bucket key) then None else
  Some {| fk_key := je_key e; fk_holders := filter (fun h => h <> node_id) holders; fk_seq := je_seq e |}.

Definition row_key (r : MetadataRow) : option bytes :=
  match r with ObjectRow k _ _ | DeletionRow k _ _ => Some k | EmptyRow => None end.

Definition row_bytes (r : MetadataRow) : Z :=
  match r with
  | ObjectRow k _ n | DeletionRow k _ n => Z.of_nat (length k) + n + 16
  | EmptyRow => 0
  end.

(** The bounded drain of the stream in [fetch_rows_raw]. *)
Fixpoint drain_rows (cap received : Z) (stream : list MetadataRow) : list MetadataRow * bool :=
  match stream with
  | [] => ([], false)
  | row :: stream =>
      let received := saturating_add64 received (row_bytes row) in
      if cap <=? received then ([row], true)
      else let '(rows, truncated) := drain_rows cap received stream in (row :: rows, truncated)
  end.

Definition fetch_rows_raw (reply : option (list MetadataRow)) (max_bytes : Z) :
    option (list MetadataRow * bool) :=
  drain_rows (Z.max max_bytes (64 * 1024)) 0 <$> reply.

Inductive AppliedRow := RowApplied | RowAlreadyCurrent | RowLocalLww | RowLocalTombstone | RowHashMismatch.

Section worker.
Context (blake3 : bytes -> Z).

Definition apply_row (st : Store) (io : commit_io) (now : Z) (r : MetadataRow) : Store * AppliedRow :=
  match r with
  | ObjectRow row_key value _ =>
      match split_object_row_key row_key, value with
      | Some (bucket, key), Some meta =>
          if negb (bool_decide (om_object_key meta = key)) then (st, RowHashMismatch) else
          let '(st, out) := sync_apply_object blake3 st io now bucket meta in
          (st, match out with
               | Some Applied => RowApplied
               | Some OutAlreadyCurrent => RowAlreadyCurrent
               | Some OutLocalWins => RowLocalLww
               | None => RowHashMismatch
               end)
      | _, _ => (st, RowHashMismatch)
      end
  | DeletionRow row_key value _ =>
      match split_object_row_key row_key, value with
      | Some (bucket, key), Some tombstone =>
          let '(st, out) := sync_apply_tombstone blake3 st io now bucket key tombstone in
          (st, match out with
               | Some Applied => RowApplied
               | Some OutAlreadyCurrent => RowAlreadyCurrent
               | Some OutLocalWins => RowLocalTombstone
               | None => RowHashMismatch
               end)
      | _, _ => (st, RowHashMismatch)
      end
  | EmptyRow => (st, RowHashMismatch)
  end.

(** The requests of one round: each pending key goes to the [attempt]-th of its
    eligible holders. *)
Fixpoint add_to_group (holder : NodeId) (k : FetchKey) (groups : list (NodeId * list FetchKey)) :
    list (NodeId * list FetchKey) :=
  match groups with
  | [] => [(holder, [k])]
  | (h, ks) :: groups =>
      if bool_decide (h = holder) then (h, ks ++ [k]) :: groups else (h, ks) :: add_to_group holder k groups
  end.

Definition round_groups (eligible : NodeId -> bool) (attempt : nat) (pending : list FetchKey) :
    list (NodeId * list FetchKey) :=
  foldl (fun groups k =>
    match filter (fun h => eligible h = true) (fk_holders k) !! attempt with
    | Some holder => add_to_group holder k groups
    | None => groups
    end) [] pending.

(** What is left of the keys of a pull: the ones without a row so far, the keys
    some holder answered for, the budget and the store. *)
Record Pulling := {
  pl_pending : list FetchKey; pl_answered : gset bytes; pl_budget : CycleBudget; pl_store : Store }.

(** The keys a reply answers: all that were asked when it is complete, else
    those it has a row for. *)
Definition answers (ks : list FetchKey) (rows : list MetadataRow) (truncated : bool) : gset bytes :=
  list_to_set (if truncated
               then filter (fun k => k ∈ omap row_key rows) (fk_key <$> ks)
               else fk_key <$> ks).

(** The turn of the loop over the rows of a reply. *)
Definition insert_row (acc : gset bytes * gmap bytes MetadataRow * CycleBudget) (row : MetadataRow) :
    gset bytes * gmap bytes MetadataRow * CycleBudget :=
  let '(answered, returned, budget) := acc in
  match row_key row with
  | Some key => (answered, <[key := row]> returned, consume_bytes budget (row_bytes row))
  | None => (answered, returned, budget)
  end.

(** The replies of a round. *)
Definition collect (fetch : NodeId -> list bytes -> option (list MetadataRow)) (max_bytes : Z)
    (acc : gset bytes * gmap bytes MetadataRow * CycleBudget) (g : NodeId * list FetchKey) :
    gset bytes * gmap bytes MetadataRow * CycleBudget :=
  let '(answered, returned, budget) := acc in
  let '(holder, ks) := g in
  match fetch_rows_raw (fetch holder (fk_key <$> ks)) max_bytes with
  | None => acc
  | Some (rows, truncated) =>
      foldl insert_row (answered ∪ answers ks rows truncated, returned, budget) rows
  end.

(** The application of the rows to the pending keys. *)
Definition apply_returned (io : bytes -> commit_io) (now : Z) (returned : gmap bytes MetadataRow)
    (st : Store) (pending : list FetchKey) : Store :=
  foldl (fun st k =>
    match returned !! fk_key k with
    | Some row => (apply_row st (io (fk_key k)) now row).1
    | None => st
    end) st pending.

(** One round; [None] ends the loop. *)
Definition fetch_round (eligible : nat -> NodeId -> bool)
    (fetch : nat -> NodeId -> list bytes -> option (list MetadataRow)) (io : bytes -> commit_io) (now : Z)
    (attempt : nat) (p : Pulling) : option Pulling :=
  if bool_decide (pl_pending p = []) || exhausted (pl_budget p) then None else
  match round_groups (eligible attempt) attempt (pl_pending p) with
  | [] => None
  | groups =>
      let '(answered, returned, budget) :=
        foldl (collect (fetch attempt) (bytes_left (pl_budget p))) (pl_answered p, ∅, pl_budget p) groups in
      Some {| pl_pending := filter (fun k => returned !! fk_key k = None) (pl_pending p);
              pl_answered := answered; pl_budget := budget;
              pl_store := apply_returned io now returned (pl_store p) (pl_pending p) |}
  end.

Fixpoint fetch_rounds (eligible : nat -> NodeId -> bool)
    (fetch : nat -> NodeId -> list bytes -> option (list MetadataRow)) (io : bytes -> commit_io) (now : Z)
    (attempts : list nat) (p : Pulling) : Pulling :=
  match attempts with
  | [] => p
  | attempt :: attempts =>
      match fetch_round eligible fetch io now attempt p with
      | Some p => fetch_rounds eligible fetch io now attempts p
      | None => p
      end
  end.

(** [point_fetch_and_apply]: the store, the budget and the least sequence of a
    key no holder answered for. *)
Definition point_fetch_and_apply (eligible : nat -> NodeId -> bool)
    (fetch : nat -> NodeId -> list bytes -> option (list MetadataRow)) (io : bytes -> commit_io) (now : Z)
    (keys : list FetchKey) (budget : CycleBudget) (st : Store) : Store * CycleBudget * option Z :=
  let p := fetch_rounds eligible fetch io now [0; 1; 2]%nat
    {| pl_pending := keys; pl_answered := ∅; pl_budget := budget; pl_store := st |} in
  (pl_store p, pl_budget p,
   min_of (fk_seq <$> filter (fun k => fk_key k ∉ pl_answered p) keys)).

(** How the [FetchJournal] call of a pull ends. *)
Inductive JournalReply := NoReply | ReplyUnavailable | Replied (response : FetchResponse).

Inductive BootstrapReason := EpochChange | GapDetected | CapTrim.

Record PullResult := {
  pr_watermarks : WatermarkStore; pr_store : Store; pr_budget : CycleBudget;
  pr_bootstrap : option BootstrapReason }.

(** The request of [pull_peer]. *)
Definition pull_request (node_id : NodeId) (w : PeerWatermark) (budget : CycleBudget) : FetchRequest :=
  {| rq_epoch := default [] (pw_epoch w); rq_from_seq := pw_consumed w;
     rq_max_entries := Z.min (entries_left budget) u32_max; rq_max_bytes := bytes_left budget;
     rq_requester := node_id |}.

Definition accept_ack (ws : WatermarkStore) (peer : NodeId) (own_epoch : bytes) (r : FetchResponse) :
    WatermarkStore :=
  if (0 <? fr_acknowledged_seq r) && bool_decide (decode_epoch (fr_acknowledged_epoch r) = Some own_epoch)
  then set_acked ws peer own_epoch (fr_acknowledged_seq r) else ws.

(** The keys of a pull that have to be fetched. *)
Definition plan (node_id : NodeId) (lookup : bytes -> list NodeId) (st : Store) (entries : list WireEntry) :
    list FetchKey :=
  omap (plan_entry node_id lookup st) (coalesce_latest (omap decode_entry entries)).

(** The point fetches of a pull, when it has keys to fetch. *)
Definition resolve (eligible : nat -> NodeId -> bool)
    (fetch : nat -> NodeId -> list bytes -> option (list MetadataRow)) (io : bytes -> commit_io) (now : Z)
    (keys : list FetchKey) (budget : CycleBudget) (st : Store) : Store * CycleBudget * option Z :=
  match keys with
  | [] => (st, budget, None)
  | _ => point_fetch_and_apply eligible fetch io now keys budget st
  end.

Definition pull_peer (node_id : NodeId) (own_epoch : bytes) (lookup : bytes -> list NodeId)
    (eligible : nat -> NodeId -> bool) (fetch : nat -> NodeId -> list bytes -> option (list MetadataRow))
    (io : bytes -> commit_io) (now : Z) (peer : NodeId) (reply : JournalReply)
    (ws : WatermarkStore) (st : Store) (budget : CycleBudget) : PullResult :=
  let watermark := wm_get ws peer in
  let done ws := {| pr_watermarks := ws; pr_store := st; pr_budget := budget; pr_bootstrap := None |} in
  match reply with
  | NoReply => done ws
  | ReplyUnavailable => done (mark_non_consuming ws peer)
  | Replied r =>
      let ws := mark_consuming ws peer in
      match decode_epoch (fr_epoch r) with
      | None => done ws
      | Some epoch =>
          let ws := accept_ack ws peer own_epoch r in
          if negb (bool_decide (pw_epoch watermark = Some epoch)) && (0 <? pw_consumed watermark) then
            {| pr_watermarks := set_consumed ws peer epoch 0; pr_store := st; pr_budget := budget;
               pr_bootstrap := Some EpochChange |}
          else if pw_consumed watermark <? fr_oldest_seq r then
            {| pr_watermarks := set_consumed ws peer epoch (fr_oldest_seq r); pr_store := st;
               pr_budget := budget; pr_bootstrap := Some GapDetected |}
          else
            let ws := if bool_decide (pw_epoch watermark = Some epoch) then ws
                      else set_consumed ws peer epoch (pw_consumed watermark) in
            let budget := consume_entries budget (Z.of_nat (length (fr_entries r))) in
            let to_fetch := plan node_id lookup st (fr_entries r) in
            let '(st, budget, unresolved_min) := resolve eligible fetch io now to_fetch budget st in
            {| pr_watermarks := set_consumed ws peer epoch
                 (advance_watermark (pw_consumed watermark) (fr_next_seq r) unresolved_min);
               pr_store := st; pr_budget := budget; pr_bootstrap := None |}
      end
  end.

End worker.

(** [trim]: the frontier over the retained peers drives the retention of this
    node's journal; the peers that a forced trim has passed are returned. *)
Definition trim (crc32 : bytes -> Z) (node_id : NodeId) (nodes : list (NodeId * NodeState))
    (journal_max_bytes journal_max_age now : Z) (ws : WatermarkStore) (j : Journal) (d : Dir) :
    Journal * Dir * list NodeId :=
  let retained := omap (fun '(id, state) =>
    if negb (bool_decide (id = node_id)) &&
       match state with Alive | Suspect | Dead => true | _ => false end
    then Some id else None) nodes in
  let fr := default (last_seq j) (frontier ws retained (j_epoch j)) in
  let '(j', d', report) := enforce_retention crc32 j d fr journal_max_bytes now journal_max_age in
  (j', d',
   if tr_cap_forced report then
     filter (fun p => is_consuming ws p &&
       (negb (bool_decide (pw_acked_epoch (wm_get ws p) = Some (j_epoch j)))
        || (pw_acked (wm_get ws p) <? tr_base_seq report)) = true) retained
   else []).

(** [holder_eligible]: a node that is up and, when its manifest is known, able to
    accept writes. *)
Definition holder_eligible (state : option NodeState) (accepts_writes : option bool) : bool :=
  match state with
  | Some Alive | Some Suspect => default true accepts_writes
  | _ => false
  end.

Definition pull_candidates (node_id : NodeId) (nodes : list (NodeId * NodeState)) : list NodeId :=
  omap (fun '(id, state) =>
    if negb (bool_decide (id = node_id)) && match state with Alive | Suspect => true | _ => false end
    then Some id else None) nodes.

(** The loop of [cycle_locked] over the peers; [call] is the [FetchJournal] call
    to a peer, [fetch] the row fetches of its pull. *)
Fixpoint pull_all (blake3 : bytes -> Z) (node_id : NodeId) (own_epoch : bytes) (lookup : bytes -> list NodeId)
    (eligible : nat -> NodeId -> bool) (call : NodeId -> FetchRequest -> JournalReply)
    (fetch : NodeId -> nat -> NodeId -> list bytes -> option (list MetadataRow))
    (io : bytes -> commit_io) (now : Z) (peers : list NodeId)
    (ws : WatermarkStore) (st : Store) (budget : CycleBudget) (contacted : nat) : WatermarkStore * Store * nat :=
  match peers with
  | [] => (ws, st, contacted)
  | peer :: peers =>
      if exhausted budget then (ws, st, contacted) else
      let r := pull_peer blake3 node_id own_epoch lookup eligible (fetch peer) io now peer
                 (call peer (pull_request node_id (wm_get ws peer) budget)) ws st budget in
      pull_all blake3 node_id own_epoch lookup eligible call fetch io now peers
        (pr_watermarks r) (pr_store r) (pr_budget r) (S contacted)
  end.

(** [cycle_locked]. *)
Definition cycle_locked (crc32 blake3 : bytes -> Z) (node_id : NodeId) (nodes : list (NodeId * NodeState))
    (lookup : bytes -> list NodeId) (eligible : nat -> NodeId -> bool)
    (call : NodeId -> FetchRequest -> JournalReply)
    (fetch : NodeId -> nat -> NodeId -> list bytes -> option (list MetadataRow))
    (io : bytes -> commit_io) (now max_entries max_bytes journal_max_bytes journal_max_age : Z)
    (ws : WatermarkStore) (st : Store) (j : Journal) (d : Dir) :
    WatermarkStore * Store * (Journal * Dir * list NodeId) * nat :=
  let '(ws, st, contacted) :=
    pull_all blake3 node_id (j_epoch j) lookup eligible call fetch io now (pull_candidates node_id nodes)
      ws st {| entries_left := max_entries; bytes_left := max_bytes |} 0 in
  (ws, st, trim crc32 node_id nodes journal_max_bytes journal_max_age now ws j d, contacted).

(** ** Applying rows never takes a key back *)

Lemma split_nul_inv data b k : split_nul data = Some (b, k) -> data = encode_object_key b k /\ nul_free b.
Proof.
  unfold encode_object_key, nul_free. revert b. induction data as [|x data IH]; intros b; [done|].
  cbn [split_nul]. case_bool_decide as Hx.
  - intros [= <- <-]. subst x. split; [done|]. apply not_elem_of_nil.
  - destruct (split_nul data) as [[b' k']|]; [|done]. cbn. intros [= <- <-].
    destruct (IH b' eq_refl) as [-> Hb]. split; [done|]. apply not_elem_of_cons. by split.
Qed.

Lemma split_row_key_inv rk b k : split_object_row_key rk = Some (b, k) -> rk = encode_object_key b k /\ nul_free b.
Proof.
  unfold split_object_row_key, decode_object_key. destruct (decode_deletions_key _ _) as [[]|]; try done.
  destruct (split_nul rk) as [[b' k']|] eqn:Hs; [|done]. cbn. destruct (_ && _); [|done].
  intros [= <- <-]. by apply split_nul_inv.
Qed.

(** The state a row carries. *)
Definition row_record (r : MetadataRow) : option record :=
  match r with
  | ObjectRow rk (Some meta) _ =>
      '(b, k) ← split_object_row_key rk; if bool_decide (om_object_key meta = k) then Some (RObject b meta) else None
  | DeletionRow rk (Some t) _ => '(b, k) ← split_object_row_key rk; Some (RTombstone b k t)
  | _ => None
  end.

(** The key is at version [h] or later. *)
Definition at_least (v : view) (h : Hlc) : Prop :=
  exists h', view_hlc v = Some h' /\ hlc_cmp h' h <> Lt.

Section applying.
Context (blake3 : bytes -> Z).

Lemma row_record_key row r rk :
  row_record row = Some r -> row_key row = Some rk -> record_key r = rk.
Proof.
  destruct row as [rk' [m|] n|rk' [t|] n|]; cbn; try done;
    destruct (split_object_row_key rk') as [[b k]|] eqn:Hs; try done; cbn;
    destruct (split_row_key_inv _ _ _ Hs) as [-> _].
  - case_bool_decide as Hk; [|done]. intros [= <-] [= <-]. cbn. by rewrite Hk.
  - by intros [= <-] [= <-].
Qed.

Lemma apply_row_record st now row r :
  row_record row = Some r -> (apply_row blake3 st Committed now row).1 = apply_record blake3 now st r.
Proof.
  destruct row as [rk [m|] n|rk [t|] n|]; cbn; try done;
    destruct (split_object_row_key rk) as [[b k]|]; try done; cbn.
  - case_bool_decide; [|done]. intros [= <-]. cbn. by destruct (sync_apply_object _ _ _ _ _ _).
  - intros [= <-]. cbn. by destruct (sync_apply_tombstone _ _ _ _ _ _ _).
Qed.

Lemma merge_at_least_l v w h : at_least v h -> at_least (merge blake3 v w) h.
Proof.
  intros (h' & Hv & Hle). unfold merge, rank_ltb. rewrite Hv.
  destruct (view_hlc w) as [hw|] eqn:Hw; [|by exists h'].
  destruct (hlc_cmp h' hw) eqn:Hc.
  - apply hlc_cmp_eq in Hc as ->. destruct (_ <? _); [by exists hw|by exists hw].
  - exists hw. split; [done|]. intros Hlt. apply Hle. by apply (hlc_lt_trans h' hw h).
  - by exists h'.
Qed.

Lemma merge_at_least_r v w h : at_least w h -> at_least (merge blake3 v w) h.
Proof.
  intros (hw & Hw & Hle). unfold merge, rank_ltb. rewrite Hw.
  destruct (view_hlc v) as [hv|] eqn:Hv; [|by exists hw].
  destruct (hlc_cmp hv hw) eqn:Hc.
  - apply hlc_cmp_eq in Hc as ->. destruct (_ <? _); [by exists hw|by exists hw].
  - by exists hw.
  - exists hv. split; [done|]. intros Hlt. apply Hle. apply (hlc_lt_trans hw hv h); [|done].
    unfold hlc_lt. by rewrite hlc_cmp_antisym, Hc.
Qed.

(** A row that brings its key to version [h]. *)
Definition row_current (h : Hlc) (row : MetadataRow) : Prop :=
  exists r, row_record row = Some r /\ record_ok r /\ at_least (record_view r) h.

Lemma apply_row_current st now row rk h :
  store_ok st -> row_key row = Some rk -> row_current h row -> row_key_ok rk ->
  let st' := (apply_row blake3 st Committed now row).1 in
  store_ok st' /\ at_least (view_at st' rk) h /\
  (forall rk' h', row_key_ok rk' -> at_least (view_at st rk') h' -> at_least (view_at st' rk') h').
Proof.
  intros Hst Hrk (r & Hr & Hok & Hat) Hkey. cbv zeta. rewrite (apply_row_record _ _ _ _ Hr).
  destruct (apply_record_views blake3 now st r Hst Hok) as [Hst' Hv].
  pose proof (row_record_key _ _ _ Hr Hrk) as Hk. split_and!; [done| |].
  - rewrite Hv, decide_True by done. by apply merge_at_least_r.
  - intros rk' h' Hok' Hat'. rewrite Hv by done. destruct (decide _); [|done]. by apply merge_at_least_l.
Qed.

End applying.

(** ** Rounds of point fetches *)

Definition grouped (groups : list (NodeId * list FetchKey)) : list FetchKey := mjoin groups.*2.

Lemma elem_of_add_to_group holder k groups x :
  x ∈ grouped (add_to_group holder k groups) <-> x = k \/ x ∈ grouped groups.
Proof.
  unfold grouped. induction groups as [|[h ks] groups IH]; cbn [add_to_group fmap list_fmap mjoin list_join snd].
  - rewrite app_nil_r, list_elem_of_singleton, elem_of_nil. tauto.
  - destruct (bool_decide (h = holder)); cbn [fmap list_fmap mjoin list_join snd];
      rewrite !elem_of_app, ?list_elem_of_singleton, ?IH; tauto.
Qed.

Lemma elem_of_round_groups eligible attempt pending x :
  x ∈ grouped (round_groups eligible attempt pending) <->
  x ∈ pending /\ is_Some (filter (fun h => eligible h = true) (fk_holders x) !! attempt).
Proof.
  unfold round_groups.
  set (f := fun (groups : list (NodeId * list FetchKey)) k => match filter (fun h => eligible h = true) (fk_holders k) !! attempt with
            | Some holder => add_to_group holder k groups | None => groups end).
  assert (forall l groups, x ∈ grouped (foldl f groups l) <-> x ∈ grouped groups \/
    (x ∈ l /\ is_Some (filter (fun h => eligible h = true) (fk_holders x) !! attempt))) as H.
  { induction l as [|k l IH]; intros groups; cbn [foldl]; [rewrite elem_of_nil; tauto|].
    rewrite IH, elem_of_cons. unfold f at 1.
    destruct (filter _ (fk_holders k) !! attempt) as [holder|] eqn:Hh.
    - rewrite elem_of_add_to_group. split; [|naive_solver].
      intros [[->|?]|?]; [right; split; [by left|]; by rewrite Hh|tauto|tauto].
    - split; [tauto|]. intros [?|[[->|?] Hs]]; [tauto| |tauto]. rewrite Hh in Hs. by destruct Hs. }
  rewrite H. unfold grouped. cbn. rewrite elem_of_nil. tauto.
Qed.

Lemma drain_rows_spec cap received stream :
  let '(rs, truncated) := drain_rows cap received stream in
  (forall row, row ∈ rs -> row ∈ stream) /\ (truncated = false -> rs = stream).
Proof.
  revert received. induction stream as [|row stream IH]; intros received; cbn [drain_rows]; [done|].
  cbv zeta. destruct (cap <=? _).
  - split; [|done]. intros r ->%list_elem_of_singleton. by left.
  - specialize (IH (saturating_add64 received (row_bytes row))).
    destruct (drain_rows _ _ stream) as [rs truncated]. destruct IH as [H1 H2]. split.
    + intros r [->|Hr]%elem_of_cons; [by left|right; auto].
    + intros Ht. by rewrite H2.
Qed.

Lemma insert_rows_spec (rs : list MetadataRow) (answered : gset bytes) (returned : gmap bytes MetadataRow)
    (budget : CycleBudget) :
  let '(answered', returned', _) := foldl insert_row (answered, returned, budget) rs in
  answered' = answered /\
  (forall key, key ∈ omap row_key rs \/ is_Some (returned !! key) -> is_Some (returned' !! key)) /\
  (forall key row, returned' !! key = Some row ->
     (row ∈ rs /\ row_key row = Some key) \/ returned !! key = Some row).
Proof.
  revert returned budget. induction rs as [|row rs IH]; intros returned budget; cbn [foldl].
  - split_and!; [done| |by right]. intros key [Hk|Hk]; [by apply elem_of_nil in Hk|done].
  - unfold insert_row at 2. destruct (row_key row) as [k|] eqn:Hk.
    + specialize (IH (<[k := row]> returned) (consume_bytes budget (row_bytes row))).
      destruct (foldl _ _ rs) as [[a' r'] b']. destruct IH as (-> & H1 & H2). split_and!; [done| |].
      * intros key Hin. apply H1. cbn [omap list_omap] in Hin. rewrite Hk in Hin.
        destruct (decide (key = k)) as [->|Hne]; [right; rewrite lookup_insert_eq; eauto|].
        rewrite lookup_insert_ne by done. destruct Hin as [[->|Hin]%elem_of_cons|?]; [done|by left|by right].
      * intros key r Hr. destruct (H2 key r Hr) as [[Hin Hkr]|Hl]; [left; split; [by right|done]|].
        destruct (decide (key = k)) as [->|Hne].
        -- rewrite lookup_insert_eq in Hl. injection Hl as <-. left. split; [by left|done].
        -- rewrite lookup_insert_ne in Hl by done. by right.
    + specialize (IH returned budget). destruct (foldl _ _ rs) as [[a' r'] b'].
      destruct IH as (-> & H1 & H2). split_and!; [done| |].
      * intros key Hin. apply H1. cbn [omap list_omap] in Hin. by rewrite Hk in Hin.
      * intros key r Hr. destruct (H2 key r Hr) as [[Hin Hkr]|Hl]; [left; split; [by right|done]|by right].
Qed.

(** A holder that answers gives a row for every key asked. *)
Definition complete_replies (fetch : NodeId -> list bytes -> option (list MetadataRow)) : Prop :=
  forall holder ks stream, fetch holder ks = Some stream -> forall key, key ∈ ks -> key ∈ omap row_key stream.

Definition from_reply (fetch : NodeId -> list bytes -> option (list MetadataRow)) (row : MetadataRow) : Prop :=
  exists holder ks stream, fetch holder ks = Some stream /\ row ∈ stream.

Lemma collect_spec (fetch : NodeId -> list bytes -> option (list MetadataRow)) (max_bytes : Z)
    (groups : list (NodeId * list FetchKey)) (answered : gset bytes) (returned : gmap bytes MetadataRow)
    (budget : CycleBudget) :
  complete_replies fetch ->
  let '(answered', returned', _) := foldl (collect fetch max_bytes) (answered, returned, budget) groups in
  (forall key, key ∈ answered' -> key ∈ answered \/
     (is_Some (returned' !! key) /\ key ∈ fk_key <$> grouped groups)) /\
  (forall key, is_Some (returned !! key) -> is_Some (returned' !! key)) /\
  (forall key row, returned' !! key = Some row ->
     (from_reply fetch row /\ row_key row = Some key) \/ returned !! key = Some row).
Proof.
  intros Hc. revert answered returned budget.
  induction groups as [|[holder ks] groups IH]; intros answered returned budget; cbn [foldl].
  { split_and!; [by left|done|by right]. }
  unfold grouped. cbn [fmap list_fmap mjoin list_join snd].
  change (mjoin groups.*2) with (grouped groups). rewrite fmap_app.
  unfold collect at 2. unfold fetch_rows_raw.
  destruct (fetch holder (fk_key <$> ks)) as [stream|] eqn:Hf; cbn [fmap option_fmap option_map].
  - pose proof (drain_rows_spec (Z.max max_bytes (64 * 1024)) 0 stream) as Hd.
    destruct (drain_rows _ _ stream) as [rs truncated]. destruct Hd as [Hsub Hall].
    pose proof (insert_rows_spec rs (answered ∪ answers ks rs truncated) returned budget) as Hi.
    destruct (foldl insert_row _ rs) as [[a1 r1] b1]. destruct Hi as (-> & H1 & H2).
    specialize (IH (answered ∪ answers ks rs truncated) r1 b1).
    destruct (foldl (collect fetch max_bytes) _ groups) as [[a2 r2] b2]. destruct IH as (I1 & I2 & I3).
    split_and!; [|naive_solver|].
    + intros key Hkey. destruct (I1 key Hkey) as [Hin|[Hs Hg]]; [|right; split; [done|apply elem_of_app; by right]].
      apply elem_of_union in Hin as [Hin|Hin]; [by left|]. right.
      unfold answers in Hin. apply elem_of_list_to_set in Hin. destruct truncated.
      * apply list_elem_of_filter in Hin as [Hin Hks]. split; [apply I2, H1; by left|apply elem_of_app; by left].
      * split; [|apply elem_of_app; by left]. apply I2, H1. left. rewrite Hall by done. by eapply Hc.
    + intros key row Hr. destruct (I3 key row Hr) as [?|Hr1]; [by left|].
      destruct (H2 key row Hr1) as [[Hin Hk]|?]; [|by right]. left. split; [|done].
      exists holder, (fk_key <$> ks), stream. split; [done|auto].
  - specialize (IH answered returned budget).
    destruct (foldl (collect fetch max_bytes) _ groups) as [[a2 r2] b2]. destruct IH as (I1 & I2 & I3).
    split_and!; [|done|done]. intros key Hkey. destruct (I1 key Hkey) as [?|[? ?]]; [by left|].
    right. split; [done|]. apply elem_of_app. by right.
Qed.

Section rounds.
Context (blake3 : bytes -> Z) (want : bytes -> Hlc) (keys : list FetchKey).

(** The rows that come back for the keys are well formed and not older than
    the changes that asked for them. *)
Definition current_replies (fetch : NodeId -> list bytes -> option (list MetadataRow)) : Prop :=
  complete_replies fetch /\
  forall row key, from_reply fetch row -> row_key row = Some key -> key ∈ fk_key <$> keys ->
    row_current (want key) row.

Definition keeps (st st' : Store) : Prop :=
  forall rk h, row_key_ok rk -> at_least (view_at st rk) h -> at_least (view_at st' rk) h.

Lemma apply_returned_spec (now : Z) (returned : gmap bytes MetadataRow) (st : Store) (pending : list FetchKey) :
  store_ok st -> (forall k, k ∈ pending -> row_key_ok (fk_key k)) ->
  (forall k row, k ∈ pending -> returned !! fk_key k = Some row ->
     row_key row = Some (fk_key k) /\ row_current (want (fk_key k)) row) ->
  let st' := apply_returned blake3 (fun _ => Committed) now returned st pending in
  store_ok st' /\ keeps st st' /\
  (forall k, k ∈ pending -> is_Some (returned !! fk_key k) -> at_least (view_at st' (fk_key k)) (want (fk_key k))).
Proof.
  unfold apply_returned. revert st. induction pending as [|k pending IH]; intros st Hst Hok Hret; cbn [foldl].
  { split_and!; [done|by intros ??|]. intros k Hk. by apply elem_of_nil in Hk. }
  assert (exists st1, match returned !! fk_key k with
                      | Some row => (apply_row blake3 st Committed now row).1 | None => st end = st1 /\
    store_ok st1 /\ keeps st st1 /\
    (is_Some (returned !! fk_key k) -> at_least (view_at st1 (fk_key k)) (want (fk_key k))))
    as (st1 & -> & Hst1 & Hk1 & Hat1).
  { eexists. split; [done|]. destruct (returned !! fk_key k) as [row|] eqn:Hr.
    - destruct (Hret k row ltac:(by left) Hr) as [Hrk Hcur].
      destruct (apply_row_current blake3 st now row (fk_key k) _ Hst Hrk Hcur ltac:(apply Hok; by left))
        as (H1 & H2 & H3). split_and!; [done|by intros ?? ; apply H3|done].
    - split_and!; [done|by intros ??|by intros []]. }
  destruct (IH st1 Hst1) as (H1 & H2 & H3).
  { intros k' Hk'. apply Hok. by right. }
  { intros k' row Hk'. apply Hret. by right. }
  split_and!; [done| |].
  - intros rk h Hrk Hat. apply H2; [done|]. by apply Hk1.
  - intros k' [->|Hk']%elem_of_cons Hs; [|by apply H3]. apply H2; [apply Hok; by left|]. by apply Hat1.
Qed.

(** The invariant of the rounds: a key that was answered is up to date. *)
Record rounds_inv (st0 : Store) (p : Pulling) : Prop := {
  ri_store : store_ok (pl_store p);
  ri_keeps : keeps st0 (pl_store p);
  ri_pending : forall k, k ∈ pl_pending p -> k ∈ keys;
  ri_answered : forall key, key ∈ pl_answered p ->
    row_key_ok key /\ at_least (view_at (pl_store p) key) (want key) }.

Lemma fetch_round_inv eligible fetch (now : Z) attempt st0 p p' :
  (forall k, k ∈ keys -> row_key_ok (fk_key k)) -> current_replies (fetch attempt) ->
  rounds_inv st0 p ->
  fetch_round blake3 eligible fetch (fun _ => Committed) now attempt p = Some p' -> rounds_inv st0 p'.
Proof.
  intros Hok [Hcomplete Hcur] []. unfold fetch_round. destruct (_ || _); [done|].
  destruct (round_groups (eligible attempt) attempt (pl_pending p)) as [|g groups] eqn:Hg; [done|].
  rewrite <- Hg. clear g groups Hg.
  set (groups := round_groups (eligible attempt) attempt (pl_pending p)).
  pose proof (collect_spec (fetch attempt) (bytes_left (pl_budget p)) groups (pl_answered p) ∅ (pl_budget p)
    Hcomplete) as Hc.
  destruct (foldl (collect (fetch attempt) (bytes_left (pl_budget p))) _ groups) as [[answered returned] budget].
  destruct Hc as (Ha & _ & Hr). intros [= <-].
  destruct (apply_returned_spec now returned (pl_store p) (pl_pending p)) as (H1 & H2 & H3); [done| | |].
  { intros k Hk. by apply Hok, ri_pending0. }
  { intros k row Hk Hrow. destruct (Hr _ _ Hrow) as [[Hfrom Hrk]|He]; [|by rewrite lookup_empty in He].
    split; [done|]. eapply Hcur; [done|done|]. apply list_elem_of_fmap. eauto. }
  constructor; cbn [pl_store pl_pending pl_answered].
  - done.
  - intros rk h Hrk Hat. by apply H2, ri_keeps0.
  - intros k Hk. apply list_elem_of_filter in Hk as [_ Hk]. by apply ri_pending0.
  - intros key Hkey. destruct (Ha key Hkey) as [Hin|[Hs Hin]].
    + destruct (ri_answered0 key Hin) as [Hrk Hat]. split; [done|]. by apply H2.
    + apply list_elem_of_fmap in Hin as (k & -> & Hk). apply elem_of_round_groups in Hk as [Hk _].
      split; [by apply Hok, ri_pending0|by apply H3].
Qed.

Lemma fetch_rounds_inv eligible fetch now attempts st0 p :
  (forall k, k ∈ keys -> row_key_ok (fk_key k)) -> (forall attempt, current_replies (fetch attempt)) ->
  rounds_inv st0 p ->
  rounds_inv st0 (fetch_rounds blake3 eligible fetch (fun _ => Committed) now attempts p).
Proof.
  intros Hok Hcur. revert p. induction attempts as [|attempt attempts IH]; intros p Hp; cbn [fetch_rounds]; [done|].
  destruct (fetch_round _ _ _ _ _ attempt p) as [p'|] eqn:Hr; [|done].
  apply IH. by eapply fetch_round_inv.
Qed.

End rounds.

(** ** What a pull leaves behind *)

(** The change a batch of entries asks for, per key. *)
Definition latest (entries : list JournalEntry) (key : bytes) : option JournalEntry :=
  foldl coalesce_insert ∅ entries !! key.

Definition wanted (entries : list JournalEntry) (key : bytes) : Hlc :=
  match latest entries key with Some e => je_hlc e | None => hlc_zero end.

Definition last_of_key (e : JournalEntry) (l : list JournalEntry) : Prop :=
  forall e', e' ∈ l -> je_key e' = je_key e -> e' = e \/ je_seq e' < je_seq e.

Lemma coalesce_fold (e : JournalEntry) (l : list JournalEntry) (m : gmap bytes JournalEntry) :
  last_of_key e l -> (forall x, m !! je_key e = Some x -> x = e \/ je_seq x < je_seq e) ->
  e ∈ l \/ m !! je_key e = Some e -> foldl coalesce_insert m l !! je_key e = Some e.
Proof.
  revert m. induction l as [|x l IH]; intros m Hlast Hm Hin; cbn [foldl].
  { destruct Hin as [Hin|Hin]; [by apply elem_of_nil in Hin|done]. }
  assert (last_of_key e l) as Hlast' by (intros e' He'; apply Hlast; by right).
  assert (forall y, coalesce_insert m x !! je_key e = Some y ->
    m !! je_key e = Some y \/ (y = x /\ je_key x = je_key e)) as Hcases.
  { intros y Hy. unfold coalesce_insert in Hy.
    destruct (decide (je_key x = je_key e)) as [Hk|Hk].
    - rewrite Hk in Hy. destruct (m !! je_key e) as [z|] eqn:Hz; [destruct (_ <=? _)|];
        rewrite ?lookup_insert_eq in Hy; by simplify_eq; auto.
    - left. destruct (m !! je_key x); [destruct (_ <=? _)|]; by rewrite ?lookup_insert_ne in Hy. }
  apply IH; [done| |].
  - intros y Hy. destruct (Hcases y Hy) as [?|[-> Hk]]; [by apply Hm|]. apply Hlast; [by left|done].
  - destruct Hin as [[->|Hin]%elem_of_cons|Hin]; [|by left|]; right.
    + unfold coalesce_insert. destruct (m !! je_key x) as [z|] eqn:Hz; [|by rewrite lookup_insert_eq].
      destruct (Hm z eq_refl) as [->|Hlt]; [destruct (_ <=? _); [done|by rewrite lookup_insert_eq]|].
      rewrite (proj2 (Z.leb_gt _ _)) by lia. by rewrite lookup_insert_eq.
    + unfold coalesce_insert. destruct (decide (je_key x = je_key e)) as [Hk|Hk].
      * rewrite Hk, Hin. destruct (Hlast x ltac:(by left) Hk) as [->|Hlt].
        -- by rewrite Z.leb_refl.
        -- by rewrite (proj2 (Z.leb_le _ _)) by lia.
      * destruct (m !! je_key x); [destruct (_ <=? _)|]; by rewrite ?lookup_insert_ne.
Qed.

Lemma elem_of_coalesce_latest l e : e ∈ coalesce_latest l <-> exists key, latest l key = Some e.
Proof.
  unfold coalesce_latest, latest. rewrite list_elem_of_fmap. split.
  - intros ([key e'] & -> & Hin). rewrite rows_perm in Hin. apply elem_of_map_to_list in Hin. by exists key.
  - intros [key Hk]. exists (key, e). split; [done|]. rewrite rows_perm. by apply elem_of_map_to_list.
Qed.

Lemma latest_key l key e : latest l key = Some e -> je_key e = key /\ e ∈ l.
Proof.
  unfold latest.
  assert (forall (m : gmap bytes JournalEntry), (forall key e, m !! key = Some e -> je_key e = key) ->
    foldl coalesce_insert m l !! key = Some e -> je_key e = key /\ (e ∈ l \/ m !! key = Some e)) as H.
  { induction l as [|x l IH]; intros m Hm He; cbn [foldl] in He; [auto|].
    assert (forall k y, coalesce_insert m x !! k = Some y -> (k = je_key x /\ y = x) \/ m !! k = Some y) as Hc.
    { intros k y. unfold coalesce_insert.
      destruct (m !! je_key x); [destruct (_ <=? _)|]; rewrite ?lookup_insert_Some; naive_solver. }
    destruct (IH (coalesce_insert m x)) as [Hk Hin]; [|done|].
    - intros k y Hy. destruct (Hc k y Hy) as [[-> ->]|?]; auto.
    - split; [done|]. destruct Hin as [?|Hin]; [left; by right|].
      destruct (Hc _ _ Hin) as [[_ ->]|?]; [left; by left|by right]. }
  intros He. destruct (H ∅) as [Hk [Hin|Hin]]; [by intros ??; rewrite lookup_empty|done|done|].
  by rewrite lookup_empty in Hin.
Qed.

Lemma min_of_le l x : x ∈ l -> exists m, min_of l = Some m /\ m <= x.
Proof.
  destruct l as [|y l]; [by rewrite elem_of_nil|]. cbn [min_of]. intros Hx. eexists. split; [done|].
  assert (forall l a, foldl Z.min a l <= a /\ forall x, x ∈ l -> foldl Z.min a l <= x) as H.
  { clear. induction l as [|y l IH]; intros a; cbn [foldl].
    - split; [lia|]. intros x Hx. by apply elem_of_nil in Hx.
    - destruct (IH (Z.min a y)) as [H1 H2]. split; [lia|].
      intros x [->|Hx]%elem_of_cons; [lia|auto]. }
  destruct (H l y) as [H1 H2]. apply elem_of_cons in Hx as [->|Hx]; auto.
Qed.

Lemma skip_is_current st e b k :
  store_ok st -> je_key e = encode_object_key b k ->
  local_skip_is_current e (get_object st b k) (get_tombstone st b k) = true ->
  at_least (view_at st (je_key e)) (je_hlc e).
Proof.
  intros Hst Hk. unfold local_skip_is_current, get_object, get_tombstone, view_at. rewrite <- Hk.
  pose proof (store_ok_excl st (je_key e) Hst) as Hex. unfold hlc_ltb.
  destruct (je_op e).
  - destruct (st_objects st !! je_key e) as [m|]; cbn; [|done].
    destruct (hlc_cmp (je_hlc e) (om_hlc m)) eqn:Hc; try done. intros _.
    exists (om_hlc m). split; [done|]. rewrite hlc_cmp_antisym, Hc. done.
  - destruct (st_deletions st !! je_key e) as [t|]; cbn; [|done].
    destruct (hlc_cmp (je_hlc e) (ts_hlc t)) eqn:Hc; try done. intros _.
    destruct Hex as [-> |?]; [|done]. exists (ts_hlc t). split; [done|]. rewrite hlc_cmp_antisym, Hc. done.
Qed.

Lemma accept_ack_watermark ws peer own_epoch r :
  let w := wm_get ws peer in
  let w' := wm_get (accept_ack (mark_consuming ws peer) peer own_epoch r) peer in
  pw_epoch w' = pw_epoch w /\ pw_consumed w' = pw_consumed w.
Proof.
  cbv zeta. unfold accept_ack, set_acked, wm_put, wm_get, mark_consuming. cbn [ws_records].
  destruct (_ && _); [|done]. cbn [ws_records]. rewrite lookup_insert_eq. cbn. by destruct (bool_decide _).
Qed.

Lemma set_consumed_same ws peer epoch seq :
  pw_epoch (wm_get ws peer) = Some epoch ->
  pw_consumed (wm_get (set_consumed ws peer epoch seq) peer) = Z.max (pw_consumed (wm_get ws peer)) seq.
Proof.
  intros He. unfold set_consumed, wm_put. rewrite bool_decide_true by done.
  unfold wm_get at 1. cbn [ws_records]. by rewrite lookup_insert_eq.
Qed.

Section pull.
Context (blake3 : bytes -> Z) (node_id : NodeId) (own_epoch : bytes) (lookup : bytes -> list NodeId).
Context (eligible : nat -> NodeId -> bool) (fetch : nat -> NodeId -> list bytes -> option (list MetadataRow)).
Context (io : bytes -> commit_io) (now : Z).

(** A pull from a peer whose epoch is the known one and whose journal still
    has the position. *)
Lemma pull_peer_known peer r ws st budget :
  length (fr_epoch r) = 16%nat -> pw_epoch (wm_get ws peer) = Some (fr_epoch r) ->
  fr_oldest_seq r <= pw_consumed (wm_get ws peer) ->
  let res := pull_peer blake3 node_id own_epoch lookup eligible fetch io now peer (Replied r) ws st budget in
  let '(st', budget', unresolved) :=
    resolve blake3 eligible fetch io now (plan node_id lookup st (fr_entries r))
      (consume_entries budget (Z.of_nat (length (fr_entries r)))) st in
  pr_store res = st' /\ pr_bootstrap res = None /\
  pw_consumed (wm_get (pr_watermarks res) peer)
  = Z.max (pw_consumed (wm_get ws peer))
      (advance_watermark (pw_consumed (wm_get ws peer)) (fr_next_seq r) unresolved).
Proof.
  intros Hlen He Hold. cbv zeta. unfold pull_peer, decode_epoch. rewrite Hlen. cbn [Nat.eqb].
  rewrite He, bool_decide_true by done. cbn [negb andb]. rewrite (proj2 (Z.ltb_ge _ _)) by done. cbv zeta.
  destruct (accept_ack_watermark ws peer own_epoch r) as [H1 H2].
  destruct (resolve _ _ _ _ _ _ _ _) as [[st' budget'] unresolved].
  cbn [pr_store pr_bootstrap pr_watermarks]. split_and!; [done|done|].
  rewrite set_consumed_same by congruence. by rewrite H2.
Qed.

End pull.

(** C14: when the holders are up to date and no local write fails, the
    watermark only passes changes that have reached the store. In a pull from
    a peer whose epoch is the known one and whose journal still reaches back
    to the watermark, suppose that every local commit succeeds, and that a
    holder which answers sends a row for every key it is asked for, well
    formed and not older than the change that asked for it
    ([current_replies]; holders may still fail to answer, and a reply may be
    cut at the byte limit). Then every
    change of the batch up to the new position, of a key without a zero byte
    that this node holds and that the batch does not change again later, is
    in the local store at its version or a newer one. Without the two
    suppositions it is false: [unapplied_change_is_consumed]. *)
Theorem consumed_changes_are_applied (blake3 : bytes -> Z) node_id own_epoch lookup eligible fetch now peer r ws
    st budget e b k :
  let w := wm_get ws peer in
  let entries := omap decode_entry (fr_entries r) in
  let keys := plan node_id lookup st (fr_entries r) in
  let res := pull_peer blake3 node_id own_epoch lookup eligible fetch (fun _ => Committed) now peer (Replied r)
               ws st budget in
  store_ok st -> length (fr_epoch r) = 16%nat -> pw_epoch w = Some (fr_epoch r) ->
  fr_oldest_seq r <= pw_consumed w -> (forall k, k ∈ keys -> row_key_ok (fk_key k)) ->
  (forall attempt, current_replies (wanted entries) keys (fetch attempt)) ->
  e ∈ entries -> last_of_key e entries -> split_object_row_key (je_key e) = Some (b, k) ->
  node_id ∈ lookup k -> row_key_ok (je_key e) -> 0 <= pw_consumed w < je_seq e ->
  je_seq e <= pw_consumed (wm_get (pr_watermarks res) peer) ->
  at_least (view_at (pr_store res) (je_key e)) (je_hlc e).
Proof.
  intros w entries keys res Hst Hlen He Hold Hkeys Hcur Hin Hlast Hsplit Hheld Hrk Hnew Hcons.
  pose proof (pull_peer_known blake3 node_id own_epoch lookup eligible fetch (fun _ => Committed) now peer r ws
    st budget Hlen He Hold) as Hpull. cbv zeta in Hpull. fold res keys w in Hpull.
  assert (latest entries (je_key e) = Some e) as Hlatest.
  { apply coalesce_fold; [done| |by left]. intros x. by rewrite lookup_empty. }
  assert (wanted entries (je_key e) = je_hlc e) as Hwant by (unfold wanted; by rewrite Hlatest).
  assert (local_skip_is_current e (get_object st b k) (get_tombstone st b k) = true \/
    exists fk, fk ∈ keys /\ fk_key fk = je_key e /\ fk_seq fk = je_seq e) as Hplan.
  { destruct (local_skip_is_current _ _ _) eqn:Hs; [by left|]. right.
    exists {| fk_key := je_key e; fk_holders := filter (fun h => h <> node_id) (lookup k); fk_seq := je_seq e |}.
    split; [|done]. apply list_elem_of_omap. exists e. split; [apply elem_of_coalesce_latest; eauto|].
    unfold plan_entry. rewrite Hsplit. cbn. rewrite bool_decide_true by done. cbn. by rewrite Hs. }
  unfold resolve in Hpull. destruct keys as [|fk0 keys0] eqn:Hk0.
  { destruct Hpull as (-> & _). destruct Hplan as [Hskip|(fk & Hfk & _)]; [|by apply elem_of_nil in Hfk].
    eapply skip_is_current; [done|by apply split_row_key_inv|done]. }
  rewrite <- Hk0 in *. clear Hk0.
  set (budget' := consume_entries budget (Z.of_nat (length (fr_entries r)))) in Hpull.
  unfold point_fetch_and_apply in Hpull.
  set (p := fetch_rounds _ _ _ _ _ _ _) in Hpull.
  assert (rounds_inv (wanted entries) keys st p) as [].
  { apply fetch_rounds_inv; [done|done|]. constructor; cbn; [done|by intros ??|done|set_solver]. }
  destruct Hpull as (-> & _ & Hconsumed).
  destruct Hplan as [Hskip|(fk & Hfk & Hfkk & Hfks)].
  { apply ri_keeps0; [done|]. eapply skip_is_current; [done|by apply split_row_key_inv|done]. }
  destruct (decide (je_key e ∈ pl_answered p)) as [Ha|Ha].
  { destruct (ri_answered0 _ Ha) as [_ Hat]. by rewrite Hwant in Hat. }
  exfalso. destruct (min_of_le (fk_seq <$> filter (fun k => fk_key k ∉ pl_answered p) keys) (je_seq e))
    as (m & Hm & Hle).
  { apply list_elem_of_fmap. exists fk. split; [done|]. apply list_elem_of_filter. split; [by rewrite Hfkk|done]. }
  rewrite Hm in Hconsumed. cbn [advance_watermark] in Hconsumed. unfold saturating_sub in Hconsumed. lia.
Qed.

(** ** A batch as large as the entry budget *)

(** Fetching starts with an exhausted budget when the batch has used up the
    entries of the cycle. *)
Lemma point_fetch_exhausted (blake3 : bytes -> Z) eligible fetch io now keys budget st :
  exhausted budget = true ->
  point_fetch_and_apply blake3 eligible fetch io now keys budget st = (st, budget, min_of (fk_seq <$> keys)).
Proof.
  intros Hex. unfold point_fetch_and_apply. cbn [fetch_rounds]. unfold fetch_round. cbn [pl_budget].
  rewrite Hex, orb_true_r. cbn [pl_store pl_budget pl_answered]. do 2 f_equal.
  rewrite filter_true_in; [done|]. intros k _. set_solver.
Qed.

(** The server's answer to a pull within the journal. *)
Lemma fetch_journal_entries (crc32 : bytes -> Z) j d segs s ws req from n m :
  (forall bs, is_u32 (crc32 bs)) -> represents crc32 j d segs s ->
  rq_epoch req = j_epoch j -> rq_from_seq req = from -> oldest_seq j <= from ->
  clamp 1 MAX_SERVER_ENTRIES (rq_max_entries req) = n -> clamp 1 MAX_SERVER_BYTES (rq_max_bytes req) = m ->
  window_fits crc32 j (segs ++ [s]) m ->
  exists es rest r,
    filter (fun e => from < je_seq e) (entries_of (segs ++ [s])) = es ++ rest /\
    (fetch_journal crc32 j d ws req).1 = inr r /\
    fr_epoch r = j_epoch j /\ fr_oldest_seq r = oldest_seq j /\ fr_entries r = to_wire <$> es /\
    fr_next_seq r = match last es with Some e => je_seq e | None => from end /\
    (rest <> [] -> (Z.to_nat n <= length es)%nat \/ m <= Z.of_nat (length (records crc32 es))).
Proof.
  intros Hcrc Hrep He Hfrom Hold Hn Hm Hwin.
  destruct (read_range_spec crc32 Hcrc j d segs s from (Z.to_nat n) m Hrep Hold Hwin)
    as (es & rest & Hf & Hr & _ & Hrest).
  unfold fetch_journal. rewrite (bool_decide_true (rq_epoch req = j_epoch j)) by done. cbn [negb andb fst].
  rewrite Hfrom, Hn, Hm, (proj2 (Z.ltb_ge _ _)) by done. rewrite Hr.
  exists es, rest. eexists. by split_and!.
Qed.

Lemma entry_limit budget :
  1 <= entries_left budget <= MAX_SERVER_ENTRIES ->
  clamp 1 MAX_SERVER_ENTRIES (Z.min (entries_left budget) u32_max) = entries_left budget.
Proof.
  intros H. unfold clamp, MAX_SERVER_ENTRIES, u32_max in *. rewrite Z.min_l by lia.
  by rewrite (proj2 (Z.ltb_ge _ _)), (proj2 (Z.ltb_ge _ _)) by lia.
Qed.

(** The answer to a pull, in terms of the budget of the puller. *)
Lemma pull_request_entries (crc32 : bytes -> Z) j d segs s ws node_id w budget r :
  (forall bs, is_u32 (crc32 bs)) -> represents crc32 j d segs s ->
  pw_epoch w = Some (j_epoch j) -> oldest_seq j <= pw_consumed w ->
  1 <= entries_left budget <= MAX_SERVER_ENTRIES ->
  window_fits crc32 j (segs ++ [s]) (clamp 1 MAX_SERVER_BYTES (bytes_left budget)) ->
  (fetch_journal crc32 j d ws (pull_request node_id w budget)).1 = inr r ->
  let lag := filter (fun e => pw_consumed w < je_seq e) (entries_of (segs ++ [s])) in
  Z.of_nat (length (records crc32 lag)) < clamp 1 MAX_SERVER_BYTES (bytes_left budget) ->
  exists es rest, lag = es ++ rest /\ fr_entries r = to_wire <$> es /\
    fr_epoch r = j_epoch j /\ length (fr_epoch r) = 16%nat /\ fr_oldest_seq r = oldest_seq j /\
    fr_next_seq r = match last es with Some e => je_seq e | None => pw_consumed w end /\
    (rest = [] \/ entries_left budget <= Z.of_nat (length es)).
Proof.
  intros Hcrc Hrep He Hold Hbud Hwin Hreply. cbv zeta. intros Hbytes.
  destruct (fetch_journal_entries crc32 j d segs s ws (pull_request node_id w budget) (pw_consumed w)
    (entries_left budget) (clamp 1 MAX_SERVER_BYTES (bytes_left budget)) Hcrc Hrep)
    as (es & rest & r' & Hsplit & Hr & Hep & Hol & Hen & Hnext & Hrest);
    [by cbn; rewrite He|done|done|by apply entry_limit|done|done|].
  rewrite Hreply in Hr. injection Hr as <-. exists es, rest. split_and!; try done.
  - rewrite Hep. apply (rp_ids _ _ _ _ _ (proj1 Hrep)).
  - destruct rest as [|x rest]; [by left|]. right. destruct Hrest as [Hn|Hb]; [done|lia|].
    rewrite Hsplit, journal_records_app, length_app in Hbytes. lia.
Qed.

(** a node that lags by at least the entry budget of a cycle does not catch
    up: the batch exhausts the budget before the rows are fetched, so a pull
    whose first change is needed leaves the store and the position as they
    were, and the next one finds the same batch. *)
Theorem full_batch_makes_no_progress (crc32 blake3 : bytes -> Z) j d segs s ws_peer node_id own_epoch lookup
    eligible fetch io now peer ws st budget r fk :
  let w := wm_get ws peer in
  let lag := filter (fun e => pw_consumed w < je_seq e) (entries_of (segs ++ [s])) in
  let res := pull_peer blake3 node_id own_epoch lookup eligible fetch io now peer (Replied r) ws st budget in
  (forall bs, is_u32 (crc32 bs)) -> represents crc32 j d segs s ->
  pw_epoch w = Some (j_epoch j) -> oldest_seq j <= pw_consumed w -> 0 <= pw_consumed w ->
  1 <= entries_left budget <= MAX_SERVER_ENTRIES ->
  window_fits crc32 j (segs ++ [s]) (clamp 1 MAX_SERVER_BYTES (bytes_left budget)) ->
  entries_left budget <= Z.of_nat (length lag) ->
  Z.of_nat (length (records crc32 lag)) < clamp 1 MAX_SERVER_BYTES (bytes_left budget) ->
  (fetch_journal crc32 j d ws_peer (pull_request node_id w budget)).1 = inr r ->
  fk ∈ plan node_id lookup st (fr_entries r) -> fk_seq fk = pw_consumed w + 1 ->
  pr_store res = st /\ pw_consumed (wm_get (pr_watermarks res) peer) = pw_consumed w.
Proof.
  intros w lag res Hcrc Hrep He Hold H0 Hbud Hwin Hlag Hbytes Hreply Hfk Hseq.
  destruct (pull_request_entries crc32 j d segs s ws_peer node_id w budget r Hcrc Hrep He Hold Hbud Hwin Hreply Hbytes)
    as (es & rest & Hsplit & Hen & Hep & Hlen & Hol & _ & Hrest). fold lag in Hsplit.
  assert (entries_left budget <= Z.of_nat (length (fr_entries r))) as Hfull.
  { rewrite Hen, length_fmap. destruct Hrest as [->|?]; [|done]. rewrite app_nil_r in Hsplit. by rewrite <- Hsplit. }
  pose proof (pull_peer_known blake3 node_id own_epoch lookup eligible fetch io now peer r ws st budget Hlen) as Hpull.
  fold w in Hpull. rewrite Hep, Hol in Hpull. specialize (Hpull He Hold). cbv zeta in Hpull. fold res in Hpull.
  unfold resolve in Hpull. destruct (plan node_id lookup st (fr_entries r)) as [|fk0 keys0] eqn:Hplan;
    [by apply elem_of_nil in Hfk|]. rewrite <- Hplan in *.
  rewrite point_fetch_exhausted in Hpull.
  - destruct Hpull as (Hst & _ & Hc). split; [done|]. rewrite Hc.
    destruct (min_of_le (fk_seq <$> plan node_id lookup st (fr_entries r)) (fk_seq fk)) as (m & Hm & Hle).
    { apply list_elem_of_fmap. eauto. }
    rewrite Hm. cbn [advance_watermark]. unfold saturating_sub. lia.
  - unfold exhausted, consume_entries. cbn [entries_left]. apply orb_true_iff. left. apply Z.eqb_eq.
    unfold saturating_sub. lia.
Qed.

(** ** Catching up *)

(** Every call is answered in full. *)
Definition responsive (fetch : NodeId -> list bytes -> option (list MetadataRow)) (max_bytes : Z) : Prop :=
  forall holder ks, exists rs, fetch_rows_raw (fetch holder ks) max_bytes = Some (rs, false).

Lemma collect_answered (fetch : NodeId -> list bytes -> option (list MetadataRow)) (max_bytes : Z)
    (groups : list (NodeId * list FetchKey)) (answered : gset bytes) (returned : gmap bytes MetadataRow)
    (budget : CycleBudget) :
  let '(answered', _, _) := foldl (collect fetch max_bytes) (answered, returned, budget) groups in
  answered ⊆ answered' /\
  (responsive fetch max_bytes -> forall k, k ∈ grouped groups -> fk_key k ∈ answered').
Proof.
  revert answered returned budget.
  induction groups as [|[holder ks] groups IH]; intros answered returned budget; cbn [foldl].
  { split; [done|]. intros _ k Hk. by apply elem_of_nil in Hk. }
  unfold collect at 2. destruct (fetch_rows_raw (fetch holder (fk_key <$> ks)) max_bytes) as [[rs truncated]|] eqn:Hf.
  - pose proof (insert_rows_spec rs (answered ∪ answers ks rs truncated) returned budget) as Hi.
    destruct (foldl insert_row _ rs) as [[a1 r1] b1]. destruct Hi as (-> & _ & _).
    specialize (IH (answered ∪ answers ks rs truncated) r1 b1).
    destruct (foldl (collect fetch max_bytes) _ groups) as [[a2 r2] b2]. destruct IH as [I1 I2].
    split; [set_solver|]. intros Hresp k. unfold grouped. cbn [fmap list_fmap mjoin list_join snd].
    rewrite elem_of_app. intros [Hk|Hk]; [|by apply I2].
    destruct (Hresp holder (fk_key <$> ks)) as [rs' Hrs]. rewrite Hf in Hrs. simplify_eq.
    apply I1, elem_of_union. right. unfold answers. apply elem_of_list_to_set, list_elem_of_fmap. eauto.
  - specialize (IH answered returned budget).
    destruct (foldl (collect fetch max_bytes) _ groups) as [[a2 r2] b2]. destruct IH as [I1 I2].
    split; [done|]. intros Hresp k Hk. destruct (Hresp holder (fk_key <$> ks)) as [rs' Hrs].
    by rewrite Hf in Hrs.
Qed.

Section answered.
Context (blake3 : bytes -> Z) (eligible : nat -> NodeId -> bool).
Context (fetch : nat -> NodeId -> list bytes -> option (list MetadataRow)) (io : bytes -> commit_io) (now : Z).

Lemma fetch_round_answered attempt p p' :
  fetch_round blake3 eligible fetch io now attempt p = Some p' -> pl_answered p ⊆ pl_answered p'.
Proof.
  unfold fetch_round. destruct (_ || _); [done|].
  destruct (round_groups (eligible attempt) attempt (pl_pending p)) as [|g groups]; [done|].
  pose proof (collect_answered (fetch attempt) (bytes_left (pl_budget p)) (g :: groups) (pl_answered p) ∅ (pl_budget p)) as Hc.
  destruct (foldl _ _ (g :: groups)) as [[a r] b]. intros [= <-]. by destruct Hc.
Qed.

Lemma fetch_rounds_answered attempts p :
  pl_answered p ⊆ pl_answered (fetch_rounds blake3 eligible fetch io now attempts p).
Proof.
  revert p. induction attempts as [|attempt attempts IH]; intros p; cbn [fetch_rounds]; [done|].
  destruct (fetch_round _ _ _ _ _ attempt p) as [p'|] eqn:Hr; [|done].
  etrans; [by eapply fetch_round_answered|apply IH].
Qed.

(** When the first holder of every key answers, every key is resolved. *)
Lemma point_fetch_resolves keys budget st :
  exhausted budget = false -> responsive (fetch 0) (bytes_left budget) ->
  (forall k, k ∈ keys -> exists h, h ∈ fk_holders k /\ eligible 0%nat h = true) ->
  (point_fetch_and_apply blake3 eligible fetch io now keys budget st).2 = None.
Proof.
  intros Hex Hresp Helig. unfold point_fetch_and_apply. cbn [snd].
  set (p0 := {| pl_pending := keys; pl_answered := ∅; pl_budget := budget; pl_store := st |}).
  destruct (filter (fun k => fk_key k ∉ pl_answered (fetch_rounds blake3 eligible fetch io now [0; 1; 2]%nat p0)) keys)
    as [|k0 ks0] eqn:Hfil; [done|]. exfalso.
  assert (k0 ∈ filter (fun k => fk_key k ∉ pl_answered (fetch_rounds blake3 eligible fetch io now [0; 1; 2]%nat p0)) keys) as Hk0
    by (rewrite Hfil; by left).
  apply list_elem_of_filter in Hk0 as [Hun Hk0]. apply Hun. clear Hun Hfil.
  assert (k0 ∈ grouped (round_groups (eligible 0%nat) 0 keys)) as Hgrp.
  { apply elem_of_round_groups. split; [done|]. destruct (Helig k0 Hk0) as (h & Hh & He).
    apply lookup_lt_is_Some. assert (h ∈ filter (fun h => eligible 0%nat h = true) (fk_holders k0)) as Hin
      by (by apply list_elem_of_filter).
    destruct (filter _ (fk_holders k0)); [by apply elem_of_nil in Hin|cbn; lia]. }
  cbn [fetch_rounds]. unfold fetch_round at 1. cbn [pl_pending pl_budget p0].
  rewrite bool_decide_false by (intros ->; by apply elem_of_nil in Hk0). rewrite Hex. cbn [orb].
  destruct (round_groups (eligible 0%nat) 0 keys) as [|g groups]; [by apply elem_of_nil in Hgrp|].
  cbn [pl_answered p0].
  pose proof (collect_answered (fetch 0) (bytes_left budget) (g :: groups) ∅ ∅ budget) as Hc.
  destruct (foldl _ _ (g :: groups)) as [[a r] b]. destruct Hc as [_ Hc].
  specialize (Hc Hresp k0 Hgrp).
  set (p1 := {| pl_pending := _; pl_answered := a; pl_budget := b; pl_store := _ |}).
  change (fk_key k0 ∈ pl_answered p1) in Hc.
  pose proof (fetch_rounds_answered [1; 2]%nat p1) as Hmono. cbn [fetch_rounds] in Hmono. by apply Hmono.
Qed.
End answered.


(** ** What counts as an answer *)

Lemma decode_to_wire e : decode_entry (to_wire e) = Some e.
Proof. destruct e as [seq [] key hlc]; reflexivity. Qed.

Lemma coalesce_singleton e : coalesce_latest [e] = [e].
Proof.
  unfold coalesce_latest. cbn [foldl]. unfold coalesce_insert. rewrite lookup_empty.
  assert (rows (<[je_key e := e]> (∅ : gmap bytes JournalEntry)) = [(je_key e, e)]) as ->; [|done].
  apply Permutation_singleton_r. rewrite rows_perm. rewrite map_to_list_insert by apply lookup_empty.
  by rewrite map_to_list_empty.
Qed.

(** A write that is not committed changes no row. *)
Lemma apply_row_uncommitted (blake3 : bytes -> Z) st io now row rk :
  io <> Committed -> view_at (apply_row blake3 st io now row).1 rk = view_at st rk.
Proof.
  intros Hio. unfold apply_row, sync_apply_object, sync_apply_tombstone, put_object_in_bucket, apply_tombstone_row, commit.
  destruct row as [key [m|] n|key [t|] n|]; cbn; try done;
    destruct (split_object_row_key key) as [[b k]|]; cbn; try done.
  - destruct (negb _); [done|]. destruct (decide_object _ _ _ _); cbn; [|done..]. by destruct io.
  - destruct (decide_tombstone _ _ _ _); cbn; [|done..]. by destruct io.
Qed.

(** The rows that do not bring a key to version [h]. *)
Definition row_stale (h : Hlc) (row : MetadataRow) : Prop :=
  match row_record row with Some r => record_ok r /\ ~ at_least (record_view r) h | None => True end.

Lemma apply_row_stale (blake3 : bytes -> Z) st now row rk h :
  store_ok st -> row_key row = Some rk -> row_key_ok rk -> row_stale h row -> ~ at_least (view_at st rk) h ->
  ~ at_least (view_at (apply_row blake3 st Committed now row).1 rk) h.
Proof.
  intros Hst Hkey Hrk Hstale Hnot. unfold row_stale in Hstale.
  destruct (row_record row) as [r|] eqn:Hr.
  - destruct Hstale as [Hok Hn]. rewrite (apply_row_record blake3 _ _ _ _ Hr).
    destruct (apply_record_views blake3 now st r Hst Hok) as [_ ->]; [|done].
    destruct (decide _); [|done]. unfold merge. by destruct (rank_ltb _ _ _).
  - revert Hr. unfold apply_row, row_record. destruct row as [key [m|] n|key [t|] n|]; cbn; try done;
      destruct (split_object_row_key key) as [[b k]|]; cbn; try done.
    by case_bool_decide.
Qed.

(** The rounds on one key whose first holder answers with a row. *)
Lemma point_fetch_single (blake3 : bytes -> Z) eligible fetch io now fk budget st h hs row truncated :
  exhausted budget = false ->
  filter (fun x => eligible 0%nat x = true) (fk_holders fk) = h :: hs ->
  fetch_rows_raw (fetch 0%nat h [fk_key fk]) (bytes_left budget) = Some ([row], truncated) ->
  row_key row = Some (fk_key fk) ->
  point_fetch_and_apply blake3 eligible fetch io now [fk] budget st
  = ((apply_row blake3 st (io (fk_key fk)) now row).1, consume_bytes budget (row_bytes row), None).
Proof.
  intros Hex Helig Hraw Hrow.
  set (p0 := {| pl_pending := [fk]; pl_answered := ∅; pl_budget := budget; pl_store := st |}).
  set (p1 := {| pl_pending := []; pl_answered := ∅ ∪ answers [fk] [row] truncated;
                pl_budget := consume_bytes budget (row_bytes row);
                pl_store := (apply_row blake3 st (io (fk_key fk)) now row).1 |}).
  assert (fetch_round blake3 eligible fetch io now 0 p0 = Some p1) as H0.
  { unfold fetch_round, p0. cbn [pl_pending pl_budget pl_answered pl_store].
    rewrite bool_decide_false by done. rewrite Hex. cbn [orb].
    unfold round_groups. cbn [foldl]. rewrite Helig. cbn [lookup list_lookup add_to_group foldl].
    unfold collect. cbn [fmap list_fmap]. rewrite Hraw. cbn [foldl]. unfold insert_row. rewrite Hrow.
    unfold apply_returned. cbn [foldl]. rewrite lookup_insert_eq.
    by rewrite filter_cons_False by (by rewrite lookup_insert_eq). }
  assert (fetch_round blake3 eligible fetch io now 1 p1 = None) as H1 by done.
  unfold point_fetch_and_apply. fold p0. cbn [fetch_rounds]. rewrite H0, H1. cbn [p1 pl_store pl_budget pl_answered].
  do 2 f_equal. rewrite filter_cons_False; [done|]. intros Hn. apply Hn, elem_of_union. right.
  unfold answers. apply elem_of_list_to_set. destruct truncated; [|by left].
  apply list_elem_of_filter. split; [|by left]. cbn. rewrite Hrow. by left.
Qed.

(** an answer is taken for the change whatever it brings: when the first
    holder asked returns a row that is older than the change, or the write of
    the row to the local store fails, the watermark passes the change all the
    same and the store does not have it. *)
Theorem unapplied_change_is_consumed (blake3 : bytes -> Z) node_id own_epoch lookup eligible fetch io now peer r ws
    st budget e b k h hs row :
  let w := wm_get ws peer in
  let res := pull_peer blake3 node_id own_epoch lookup eligible fetch io now peer (Replied r) ws st budget in
  length (fr_epoch r) = 16%nat -> pw_epoch w = Some (fr_epoch r) -> fr_oldest_seq r <= pw_consumed w ->
  fr_entries r = [to_wire e] -> fr_next_seq r = je_seq e -> 1 < entries_left budget -> 0 < bytes_left budget ->
  store_ok st -> row_key_ok (je_key e) -> split_object_row_key (je_key e) = Some (b, k) ->
  ~ at_least (view_at st (je_key e)) (je_hlc e) ->
  node_id ∈ lookup k -> filter (fun x => eligible 0%nat x = true) (filter (fun x => x <> node_id) (lookup k)) = h :: hs ->
  fetch 0%nat h [je_key e] = Some [row] -> row_key row = Some (je_key e) ->
  io (je_key e) <> Committed \/ (io (je_key e) = Committed /\ row_stale (je_hlc e) row) ->
  je_seq e <= pw_consumed (wm_get (pr_watermarks res) peer) /\
  ~ at_least (view_at (pr_store res) (je_key e)) (je_hlc e).
Proof.
  intros w res Hlen He Hold Hen Hnext Hbe Hbb Hst Hrk Hsplit Hnot Hheld Helig Hfetch Hrow Hbad.
  pose proof (pull_peer_known blake3 node_id own_epoch lookup eligible fetch io now peer r ws st budget Hlen He Hold) as Hpull.
  cbv zeta in Hpull. fold w res in Hpull. rewrite Hen in Hpull.
  set (fk := {| fk_key := je_key e; fk_holders := filter (fun x => x <> node_id) (lookup k); fk_seq := je_seq e |}).
  assert (plan node_id lookup st [to_wire e] = [fk]) as Hplan.
  { unfold plan. cbn [omap list_omap]. rewrite decode_to_wire, coalesce_singleton. cbn [omap list_omap].
    unfold plan_entry. rewrite Hsplit. cbn. rewrite bool_decide_true by done. cbn.
    destruct (local_skip_is_current _ _ _) eqn:Hs; [|done]. exfalso. apply Hnot.
    eapply skip_is_current; [done|by apply split_row_key_inv|done]. }
  rewrite Hplan in Hpull. cbn [resolve length] in Hpull.
  set (budget' := consume_entries budget (Z.of_nat 1)) in Hpull.
  assert (exhausted budget' = false) as Hex.
  { unfold exhausted, budget', consume_entries, saturating_sub. cbn [entries_left bytes_left].
    apply orb_false_iff. split; apply Z.eqb_neq; lia. }
  assert (exists truncated, fetch_rows_raw (fetch 0%nat h [je_key e]) (bytes_left budget') = Some ([row], truncated)) as [tr Hraw].
  { rewrite Hfetch. unfold fetch_rows_raw. cbn. destruct (_ <=? _); eauto. }
  assert (point_fetch_and_apply blake3 eligible fetch io now [fk] budget' st
    = ((apply_row blake3 st (io (je_key e)) now row).1, consume_bytes budget' (row_bytes row), None)) as Hp.
  { by apply (point_fetch_single blake3 eligible fetch io now fk budget' st h hs row tr). }
  rewrite Hp in Hpull. destruct Hpull as (-> & _ & ->). cbn [advance_watermark]. split; [lia|].
  destruct Hbad as [Hio|[-> Hstale]]; [by rewrite apply_row_uncommitted|by apply apply_row_stale].
Qed.

(** ** Retention and acknowledgements *)

(** the trim of a node's journal does not take from a peer what it has not
    acknowledged: as long as the journal is within its byte and age caps, every
    entry above the position a retained, consuming peer has confirmed under the
    current epoch is still there. *)
Theorem trim_keeps_unacked (crc32 : bytes -> Z) node_id nodes max_bytes max_age now ws j d segs s peer state :
  (forall bs, is_u32 (crc32 bs)) -> represents crc32 j d segs s -> is_u64 (sg_no s) ->
  Forall (fun f => older_than now max_age f = false) (j_files j) -> on_disk_bytes j <= max_bytes ->
  (peer, state) ∈ nodes -> peer <> node_id -> state = Alive \/ state = Suspect \/ state = Dead ->
  is_consuming ws peer = true ->
  let '(j', d', _) := trim crc32 node_id nodes max_bytes max_age now ws j d in
  exists kept, represents crc32 j' d' kept s /\
    filter (fun e => acked_in ws (j_epoch j) peer < je_seq e) (entries_of (kept ++ [s]))
    = filter (fun e => acked_in ws (j_epoch j) peer < je_seq e) (entries_of (segs ++ [s])).
Proof.
  intros Hcrc Hrep Hno Hage Hcap Hin Hne Hstate Hcons. unfold trim.
  set (retained := omap _ nodes).
  assert (peer ∈ retained) as Hret.
  { apply list_elem_of_omap. exists (peer, state). split; [done|]. rewrite bool_decide_false by done.
    by destruct Hstate as [->|[->| ->]]. }
  destruct (min_of_le (acked_in ws (j_epoch j) <$> filter (fun p => is_consuming ws p = true) retained)
    (acked_in ws (j_epoch j) peer)) as (fr & Hfr & Hle).
  { apply list_elem_of_fmap. exists peer. split; [done|]. by apply list_elem_of_filter. }
  unfold frontier. rewrite Hfr. cbn [default from_option id].
  destruct (enforce_retention_suffix crc32 Hcrc j d segs s fr max_bytes now max_age Hrep Hno Hage)
    as (j' & d' & report & removed & kept & -> & -> & Hrep' & _ & _ & _ & Hremoved & _ & Hforced).
  exists kept. split; [done|].
  apply trimmed_entries; [apply (rp_segs _ _ _ _ _ (proj1 Hrep))|].
  eapply Forall_impl; [by apply Hremoved, Hforced|]. cbn. lia.
Qed.

(** ** Examples *)

Definition sample_key : bytes := encode_object_key [x62] [x6b].

(** The peer has journaled one object. *)
Definition peer_run := sample_run SEGMENT_TARGET_BYTES [[sample_item JPut sample_key 5]].

Definition peer_seg : Seg :=
  {| sg_no := 1; sg_first := 1; sg_entries := [sample_entry 1 JPut sample_key 5] |}.

Lemma peer_run_represents : represents toy_crc peer_run.1 peer_run.2 [] peer_seg.
Proof. check_sample (peer_run.1). Qed.

Definition sample_watermarks : WatermarkStore :=
  {| ws_records := {[ [x70] := {| pw_epoch := Some (replicate 16 x07); pw_consumed := 0; pw_acked := 0;
                                  pw_acked_epoch := None |} ]};
     ws_non_consuming := ∅ |}.

Definition sample_holders (key : bytes) : list NodeId := [[x6e]; [x70]].

Definition sample_reply : FetchResponse :=
  {| fr_epoch := replicate 16 x07; fr_oldest_seq := 0;
     fr_entries := [to_wire (sample_entry 1 JPut sample_key 5)]; fr_next_seq := 1;
     fr_acknowledged_seq := 0; fr_acknowledged_epoch := [] |}.

(** Every holder answers every key with the row of version [h]. *)
Definition sample_fetch (h : Z) (attempt : nat) (holder : NodeId) (ks : list bytes) : option (list MetadataRow) :=
  Some ((fun k => ObjectRow k (Some (sample_row h)) 10) <$> ks).

Lemma sample_key_ok : row_key_ok sample_key.
Proof. exists [x62], [x6b]. split_and!; [by apply nul_free_letters..|done]. Qed.

Lemma sample_row_ok h : 0 <= h <= u64_max -> record_ok (RObject [x62] (sample_row h)).
Proof.
  intros Hh. split; [split; by apply nul_free_letters|]. cbn. split_and!; try done; by unfold u64_max.
Qed.

Lemma sample_plan :
  plan [x6e] sample_holders empty_store (fr_entries sample_reply)
  = [{| fk_key := sample_key; fk_holders := [[x70]]; fk_seq := 1 |}].
Proof. vm_compute. reflexivity. Qed.

Lemma sample_row_record h :
  row_record (ObjectRow sample_key (Some (sample_row h)) 10) = Some (RObject [x62] (sample_row h)).
Proof. reflexivity. Qed.

Lemma consumed_changes_are_applied_witness :
  let res := pull_peer from_le [x6e] [] sample_holders (fun _ _ => true) (sample_fetch 6) (fun _ => Committed) 0
    [x70] (Replied sample_reply) sample_watermarks empty_store {| entries_left := 10; bytes_left := 1000 |} in
  pw_consumed (wm_get (pr_watermarks res) [x70]) = 1 /\
  at_least (view_at (pr_store res) sample_key) {| wall_time := 5; logical := 0 |}.
Proof.
  split; [vm_compute; reflexivity|].
  apply (consumed_changes_are_applied from_le [x6e] [] sample_holders (fun _ _ => true) (sample_fetch 6) 0 [x70]
    sample_reply sample_watermarks empty_store {| entries_left := 10; bytes_left := 1000 |}
    (sample_entry 1 JPut sample_key 5) [x62] [x6b]).
  - apply empty_store_ok.
  - done.
  - done.
  - by vm_compute.
  - rewrite sample_plan. intros k ->%list_elem_of_singleton. apply sample_key_ok.
  - rewrite sample_plan. intros attempt. split.
    + intros holder ks stream [= <-] key Hk. apply list_elem_of_omap.
      exists (ObjectRow key (Some (sample_row 6)) 10). split; [|done]. apply list_elem_of_fmap. eauto.
    + intros row key (holder & ks & stream & [= <-] & Hrow) Hk Hkey.
      apply list_elem_of_singleton in Hkey as ->. apply list_elem_of_fmap in Hrow as (k & -> & _).
      injection Hk as ->. exists (RObject [x62] (sample_row 6)). split_and!; [apply sample_row_record| |].
      * apply sample_row_ok. by unfold u64_max.
      * eexists. split; [done|]. by vm_compute.
  - by left.
  - intros e' ->%list_elem_of_singleton _. by left.
  - reflexivity.
  - by left.
  - apply sample_key_ok.
  - by vm_compute.
  - by vm_compute.
Defined.

Lemma full_batch_makes_no_progress_witness :
  let res := pull_peer from_le [x6e] [] sample_holders (fun _ _ => true) (sample_fetch 5) (fun _ => Committed) 0
    [x70] (Replied sample_reply) sample_watermarks empty_store {| entries_left := 1; bytes_left := 1000 |} in
  pr_store res = empty_store /\
  pw_consumed (wm_get (pr_watermarks res) [x70]) = pw_consumed (wm_get sample_watermarks [x70]).
Proof.
  apply (full_batch_makes_no_progress toy_crc from_le peer_run.1 peer_run.2 [] peer_seg
    {| ws_records := ∅; ws_non_consuming := ∅ |} [x6e] [] sample_holders (fun _ _ => true) (sample_fetch 5)
    (fun _ => Committed) 0 [x70] sample_watermarks empty_store {| entries_left := 1; bytes_left := 1000 |}
    sample_reply {| fk_key := sample_key; fk_holders := [[x70]]; fk_seq := 1 |}).
  - apply toy_crc_range.
  - apply peer_run_represents.
  - vm_compute. reflexivity.
  - by vm_compute.
  - by vm_compute.
  - by vm_compute.
  - constructor; [by vm_compute|constructor].
  - by vm_compute.
  - by vm_compute.
  - vm_compute. reflexivity.
  - rewrite sample_plan. by left.
  - vm_compute. reflexivity.
Defined.


(** The holder still has version 4 of an object whose version 5 the peer
    journaled, and a holder has version 5 but the local write fails. *)
Lemma unapplied_change_is_consumed_witness :
  let pull fetch io := pull_peer from_le [x6e] [] sample_holders (fun _ _ => true) fetch (fun _ => io) 0
    [x70] (Replied sample_reply) sample_watermarks empty_store {| entries_left := 10; bytes_left := 1000 |} in
  (1 <= pw_consumed (wm_get (pr_watermarks (pull (sample_fetch 4) Committed)) [x70]) /\
   ~ at_least (view_at (pr_store (pull (sample_fetch 4) Committed)) sample_key) {| wall_time := 5; logical := 0 |}) /\
  (1 <= pw_consumed (wm_get (pr_watermarks (pull (sample_fetch 5) WriteFails)) [x70]) /\
   ~ at_least (view_at (pr_store (pull (sample_fetch 5) WriteFails)) sample_key) {| wall_time := 5; logical := 0 |}).
Proof.
  cbv zeta. split.
  - apply (unapplied_change_is_consumed from_le [x6e] [] sample_holders (fun _ _ => true) (sample_fetch 4)
      (fun _ => Committed) 0 [x70] sample_reply sample_watermarks empty_store
      {| entries_left := 10; bytes_left := 1000 |} (sample_entry 1 JPut sample_key 5) [x62] [x6b] [x70] []
      (ObjectRow sample_key (Some (sample_row 4)) 10)); try done; try apply sample_key_ok; try apply empty_store_ok.
    + intros (h & Hh & _). vm_compute in Hh. done.
    + by left.
    + right. split; [done|]. unfold row_stale. rewrite sample_row_record. split; [by apply sample_row_ok|].
      intros (h & [= <-] & Hle). by apply Hle.
  - apply (unapplied_change_is_consumed from_le [x6e] [] sample_holders (fun _ _ => true) (sample_fetch 5)
      (fun _ => WriteFails) 0 [x70] sample_reply sample_watermarks empty_store
      {| entries_left := 10; bytes_left := 1000 |} (sample_entry 1 JPut sample_key 5) [x62] [x6b] [x70] []
      (ObjectRow sample_key (Some (sample_row 5)) 10)); try done; try apply sample_key_ok; try apply empty_store_ok.
    + intros (h & Hh & _). vm_compute in Hh. done.
    + by left.
    + by left.
Defined.

(** The peer [p] has confirmed the first of two entries. *)
Definition acked_watermarks : WatermarkStore :=
  {| ws_records := {[ [x70] := {| pw_epoch := None; pw_consumed := 0; pw_acked := 1;
                                  pw_acked_epoch := Some (replicate 16 x07) |} ]};
     ws_non_consuming := ∅ |}.

Lemma trim_keeps_unacked_witness :
  let '(j', d', _) := trim toy_crc [x6e] [([x70], Alive)] 100000 100 0 acked_watermarks rotated_run.1 rotated_run.2 in
  exists kept, represents toy_crc j' d' kept rotated_active /\
    filter (fun e => acked_in acked_watermarks (j_epoch rotated_run.1) [x70] < je_seq e) (entries_of (kept ++ [rotated_active]))
    = filter (fun e => acked_in acked_watermarks (j_epoch rotated_run.1) [x70] < je_seq e)
        (entries_of (rotated_segs ++ [rotated_active])).
Proof.
  apply (trim_keeps_unacked toy_crc [x6e] [([x70], Alive)] 100000 100 0 acked_watermarks rotated_run.1 rotated_run.2
    rotated_segs rotated_active [x70] Alive).
  - apply toy_crc_range.
  - apply rotated_run_represents.
  - by vm_compute.
  - apply rotated_run_young.
  - by vm_compute.
  - by left.
  - done.
  - by left.
  - by vm_compute.
Defined.
