(* ===== verification/HintWal.v ===== *)
(** * The log of hinted writes
      (crates/oceanfs-durability/src/hinted_handoff/hint_wal.rs)

    A hint is a write that a replica has missed, kept until the replica is
    back. The log of one replica is a single append-only file of frames: the
    length of the record, the record, its CRC-32. The model has the file byte
    by byte; prost's encoding of a record and CRC-32 are arguments. An append
    may fail after any number of its bytes has reached the file, and a replay
    may fail to shorten the file.

    A replay after a crash in an append returns every record written before
    ([hint_wal_survives_torn_append]); but a tail of fewer than eight bytes is
    left in the file, and hides everything that is appended after it
    ([short_tail_hides_hints]). *)

From Stdlib Require Import ZArith Lia Strings.Byte.
From stdpp Require Import base list.
From S2P Require Import Prelude Hlc.

Set Default Proof Using "Type".
Local Open Scope Z_scope.

(** ** Records *)

Record HintInline := {
  hi_intended_for : option NodeId; hi_bucket_id : option bytes; hi_object_key : bytes;
  hi_data : bytes; hi_hlc : option Hlc }.

Record HintSegmentRef := {
  hs_intended_for : option NodeId; hs_bucket_id : option bytes; hs_object_key : bytes;
  hs_segment_id : option bytes; hs_offset : Z; hs_length : Z; hs_hlc : option Hlc }.

Record HintDelete := {
  hd_intended_for : option NodeId; hd_bucket_id : option bytes; hd_object_key : bytes;
  hd_hlc : option Hlc }.

(** [hint_record::Record]. *)
Inductive HintKind :=
  | RecInline (h : HintInline)
  | RecSegmentRef (h : HintSegmentRef)
  | RecDelete (h : HintDelete).

Record HintRecord := {
  hr_record : option HintKind;
  hr_stored_at_secs : Z;
  hr_attempts : Z }.

#[export] Instance HintInline_eq_dec : EqDecision HintInline.
Proof. solve_decision. Defined.
#[export] Instance HintSegmentRef_eq_dec : EqDecision HintSegmentRef.
Proof. solve_decision. Defined.
#[export] Instance HintDelete_eq_dec : EqDecision HintDelete.
Proof. solve_decision. Defined.
#[export] Instance HintKind_eq_dec : EqDecision HintKind.
Proof. solve_decision. Defined.
#[export] Instance HintRecord_eq_dec : EqDecision HintRecord.
Proof. solve_decision. Defined.

Definition new_hint (k : HintKind) : HintRecord :=
  {| hr_record := Some k; hr_stored_at_secs := 0; hr_attempts := 0 |}.

Definition new_inline (intended_for : NodeId) (bucket_id object_key data : bytes) (hlc : Hlc) : HintRecord :=
  new_hint (RecInline {| hi_intended_for := Some intended_for; hi_bucket_id := Some bucket_id;
    hi_object_key := object_key; hi_data := data; hi_hlc := Some hlc |}).

Definition new_segment_ref (intended_for : NodeId) (bucket_id object_key segment_id : bytes)
    (offset length : Z) (hlc : Hlc) : HintRecord :=
  new_hint (RecSegmentRef {| hs_intended_for := Some intended_for; hs_bucket_id := Some bucket_id;
    hs_object_key := object_key; hs_segment_id := Some segment_id; hs_offset := offset;
    hs_length := length; hs_hlc := Some hlc |}).

Definition new_delete (intended_for : NodeId) (bucket_id object_key : bytes) (hlc : Hlc) : HintRecord :=
  new_hint (RecDelete {| hd_intended_for := Some intended_for; hd_bucket_id := Some bucket_id;
    hd_object_key := object_key; hd_hlc := Some hlc |}).

Definition intended_for (r : HintRecord) : option NodeId :=
  match hr_record r with
  | Some (RecInline h) => hi_intended_for h
  | Some (RecSegmentRef h) => hs_intended_for h
  | Some (RecDelete h) => hd_intended_for h
  | None => None
  end.

(** ** The file *)

(** The content of the file and the position after the last append. *)
Record HintWal := { hw_file : bytes; hw_position : Z }.

(** An entry of a replay: where its frame starts and ends, and the record. *)
Abbreviation Item := (Z * Z * HintRecord)%type.

(** How an append ends: it is on disk, or it fails after [n] bytes of the frame
    have reached the file. *)
Inductive write_io := Written | WriteFails (n : nat).

Definition wal_open (file : bytes) : HintWal :=
  {| hw_file := file; hw_position := Z.of_nat (length file) |}.

(** How the frames of a replayed file end: at the end of the file or a tail too
    short for a frame, at a frame from which the file is cut off, or at a
    record that does not decode. *)
Inductive replay_end := AtEnd | CutAt (position : Z) | DecodeError (position : Z).

Inductive parsed :=
  | TooShort
  | Broken
  | Undecodable
  | Frame (frame_total : Z) (record : HintRecord).

Section wal.
Context (encode : HintRecord -> bytes) (decode : bytes -> option HintRecord) (crc32 : bytes -> Z).

Definition build_frame (payload : bytes) : bytes :=
  to_le 4 (Z.of_nat (length payload)) ++ payload ++ to_le 4 (crc32 payload).

(** The file is open for appending: a write goes to its end, wherever the
    position is. *)
Definition write_hint (w : HintWal) (record : HintRecord) (io : write_io) : option (Z * Z) * HintWal :=
  let frame := build_frame (encode record) in
  match io with
  | Written =>
      let end_pos := hw_position w + Z.of_nat (length frame) in
      (Some (hw_position w, end_pos), {| hw_file := hw_file w ++ frame; hw_position := end_pos |})
  | WriteFails n => (None, {| hw_file := hw_file w ++ take n frame; hw_position := hw_position w |})
  end.

(** One turn of the loop of [replay]. *)
Definition parse_frame (remaining : bytes) : parsed :=
  if Z.of_nat (length remaining) <? 8 then TooShort else
  let payload_len := from_le (take 4 remaining) in
  let frame_total := 4 + payload_len + 4 in
  if Z.of_nat (length remaining) <? frame_total then Broken else
  let payload := take (Z.to_nat payload_len) (drop 4 remaining) in
  let expected_crc := from_le (take 4 (drop (4 + Z.to_nat payload_len) remaining)) in
  if negb (crc32 payload =? expected_crc) then Broken else
  match decode payload with
  | None => Undecodable
  | Some record => Frame frame_total record
  end.

Fixpoint replay_loop (fuel : nat) (cursor : Z) (remaining : bytes) : list Item * replay_end :=
  match fuel, remaining with
  | O, _ | _, [] => ([], AtEnd)
  | S fuel, _ =>
      match parse_frame remaining with
      | TooShort => ([], AtEnd)
      | Broken => ([], CutAt cursor)
      | Undecodable => ([], DecodeError cursor)
      | Frame frame_total record =>
          let end_position := cursor + frame_total in
          let '(items, e) := replay_loop fuel end_position (drop (Z.to_nat frame_total) remaining) in
          ((cursor, end_position, record) :: items, e)
      end
  end.

(** [File::set_len]. *)
Definition set_len (file : bytes) (n : Z) : bytes :=
  take (Z.to_nat n) file ++ replicate (Z.to_nat n - length file) x00.

Definition truncate_to (w : HintWal) (position : Z) : HintWal :=
  {| hw_file := set_len (hw_file w) position; hw_position := position |}.

(** [truncates] is whether the file system shortens the file. A frame has at
    least eight bytes, so the length of the file bounds the number of turns. *)
Definition replay (truncates : bool) (w : HintWal) : option (list Item) * HintWal :=
  match replay_loop (length (hw_file w)) 0 (hw_file w) with
  | (items, AtEnd) => (Some items, w)
  | (items, CutAt position) => if truncates then (Some items, truncate_to w position) else (None, w)
  | (_, DecodeError _) => (None, w)
  end.

Definition truncate_after (truncates : bool) (w : HintWal) (position : Z) : bool * HintWal :=
  if truncates then (true, truncate_to w position) else (false, w).

Definition hint_expired (ttl_secs now_secs : Z) (r : HintRecord) : bool :=
  (0 <? hr_stored_at_secs r) && (ttl_secs <=? saturating_sub now_secs (hr_stored_at_secs r)).

(** The loop that writes the surviving records again; the first failure ends
    it. [ios] are the outcomes of the writes. *)
Fixpoint write_all_hints (w : HintWal) (records : list HintRecord) (ios : nat -> write_io) : bool * HintWal :=
  match records with
  | [] => (true, w)
  | r :: records =>
      match write_hint w r (ios O) with
      | (None, w) => (false, w)
      | (Some _, w) => write_all_hints w records (fun i => ios (S i))
      end
  end.

Definition prune_expired (truncates : bool) (w : HintWal) (ttl_secs now_secs : Z) (ios : nat -> write_io) :
    option (nat * list HintRecord) * HintWal :=
  match replay truncates w with
  | (None, w) => (None, w)
  | (Some records, w) =>
      let survivors := filter (fun i => hint_expired ttl_secs now_secs i.2 = false) records in
      let expired := filter (fun i => hint_expired ttl_secs now_secs i.2 = true) records in
      match expired with
      | [] => (Some (O, []), w)
      | _ =>
          match truncate_after truncates w 0 with
          | (false, w) => (None, w)
          | (true, w) =>
              match write_all_hints w (snd <$> survivors) ios with
              | (false, w) => (None, w)
              | (true, w) => (Some (length expired, snd <$> expired), w)
              end
          end
      end
  end.
End wal.

(** ** Files of whole frames *)

Section frames.
Context (encode : HintRecord -> bytes) (decode : bytes -> option HintRecord) (crc32 : bytes -> Z).
Hypothesis crc32_range : forall bs, is_u32 (crc32 bs).

Definition frame (r : HintRecord) : bytes := build_frame crc32 (encode r).
Definition frames (rs : list HintRecord) : bytes := mjoin (frame <$> rs).

(** A record that prost decodes to itself and that fits the length field. *)
Definition hint_ok (r : HintRecord) : Prop :=
  decode (encode r) = Some r /\ Z.of_nat (length (encode r)) <= u32_max.

(** The entries of a replay of the frames of [rs] from [start] on. *)
Fixpoint spans (start : Z) (rs : list HintRecord) : list Item :=
  match rs with
  | [] => []
  | r :: rs =>
      let end_position := start + Z.of_nat (length (frame r)) in
      (start, end_position, r) :: spans end_position rs
  end.

Lemma length_frame r : length (frame r) = (8 + length (encode r))%nat.
Proof. unfold frame, build_frame. rewrite !length_app, !length_to_le. lia. Qed.

Lemma frames_app rs rs' : frames (rs ++ rs') = frames rs ++ frames rs'.
Proof. unfold frames. by rewrite fmap_app, join_app. Qed.

Lemma frames_single r : frames [r] = frame r.
Proof. unfold frames. cbn. by rewrite app_nil_r. Qed.

Lemma spans_app start rs rs' :
  spans start (rs ++ rs') = spans start rs ++ spans (start + Z.of_nat (length (frames rs))) rs'.
Proof.
  revert start. induction rs as [|r rs IH]; intros start; cbn [app spans].
  - unfold frames. cbn. by rewrite Z.add_0_r.
  - rewrite IH. do 2 f_equal. change (r :: rs) with ([r] ++ rs).
    rewrite frames_app, frames_single, length_app. f_equal. lia.
Qed.

Lemma spans_records start rs : snd <$> spans start rs = rs.
Proof. revert start. induction rs as [|r rs IH]; intros start; cbn; [done|]. by rewrite IH. Qed.

Lemma length_spans start rs : length (spans start rs) = length rs.
Proof. by rewrite <- (spans_records start rs) at 2; rewrite length_fmap. Qed.

Lemma spans_end start rs i : i ∈ spans start rs -> start < i.1.2 <= start + Z.of_nat (length (frames rs)).
Proof.
  revert start. induction rs as [|r rs IH]; intros start; cbn [spans]; [by rewrite elem_of_nil|].
  change (r :: rs) with ([r] ++ rs). rewrite frames_app, frames_single, length_app, length_frame.
  intros [->|Hin]%elem_of_cons; [cbn; lia|]. specialize (IH _ Hin). lia.
Qed.

Lemma parse_frame_here r rest :
  hint_ok r -> parse_frame decode crc32 (frame r ++ rest) = Frame (Z.of_nat (length (frame r))) r.
Proof using crc32_range.
  intros [Hdec Hr]. unfold parse_frame. rewrite length_app, length_frame.
  rewrite (proj2 (Z.ltb_ge _ _)) by lia.
  unfold frame, build_frame. rewrite <- !app_assoc, take_app_length' by (by rewrite length_to_le).
  rewrite from_to_le_small by (unfold_ints; cbn; lia). rewrite (proj2 (Z.ltb_ge _ _)) by lia. rewrite Nat2Z.id.
  rewrite (drop_app_length' _ _ 4) by (by rewrite length_to_le). rewrite take_app_length.
  rewrite app_assoc, drop_app_length' by (rewrite length_app, length_to_le; lia).
  rewrite take_app_length' by (by rewrite length_to_le).
  pose proof (crc32_range (encode r)) as Hc. rewrite from_to_le_small by (unfold_ints; cbn; lia).
  rewrite Z.eqb_refl. cbn [negb]. rewrite Hdec. f_equal. lia.
Qed.

(** Where a replay of a tail that does not start with a frame ends. *)
Definition tail_end (cursor : Z) (tail : bytes) : replay_end :=
  match tail with
  | [] => AtEnd
  | _ =>
      match parse_frame decode crc32 tail with
      | Broken => CutAt cursor
      | Undecodable => DecodeError cursor
      | _ => AtEnd
      end
  end.

Definition no_frame (tail : bytes) : Prop :=
  match parse_frame decode crc32 tail with Frame _ _ => False | _ => True end.

Lemma replay_loop_frames fuel cursor rs tail :
  Forall hint_ok rs -> no_frame tail -> (length (frames rs ++ tail) <= fuel)%nat ->
  replay_loop decode crc32 fuel cursor (frames rs ++ tail)
  = (spans cursor rs, tail_end (cursor + Z.of_nat (length (frames rs))) tail).
Proof using crc32_range.
  intros Hrs Htail. revert fuel cursor. induction Hrs as [|r rs Hr Hrs IH]; intros fuel cursor Hfuel.
  - cbn [frames fmap list_fmap mjoin list_join app length spans]. unfold frames. cbn. rewrite Z.add_0_r.
    destruct fuel as [|fuel]; destruct tail as [|b tail]; cbn in Hfuel; try done; [lia|].
    cbn [replay_loop]. unfold no_frame in Htail. unfold tail_end.
    by destruct (parse_frame decode crc32 (b :: tail)).
  - change (r :: rs) with ([r] ++ rs) in *. rewrite frames_app, frames_single, <- app_assoc in *.
    rewrite length_app, length_frame in Hfuel. destruct fuel as [|fuel]; [lia|].
    pose proof (parse_frame_here r (frames rs ++ tail) Hr) as Hp.
    destruct (frame r ++ frames rs ++ tail) as [|b l] eqn:Hl.
    { apply (f_equal length) in Hl. rewrite length_app, length_frame in Hl. cbn in Hl. lia. }
    cbn [replay_loop]. rewrite Hp, <- Hl, Nat2Z.id, drop_app_length, IH by lia.
    cbn [app spans]. do 2 f_equal. rewrite length_app. lia.
Qed.

Lemma no_frame_nil : no_frame [].
Proof. done. Qed.

Lemma replay_frames b rs :
  Forall hint_ok rs -> replay decode crc32 b (wal_open (frames rs)) = (Some (spans 0 rs), wal_open (frames rs)).
Proof using crc32_range.
  intros Hrs. unfold replay. cbn [wal_open hw_file]. pose proof (replay_loop_frames (length (frames rs)) 0 rs [] Hrs no_frame_nil) as H.
  rewrite app_nil_r in H. rewrite H by lia. done.
Qed.

Lemma write_hint_open rs r :
  write_hint encode crc32 (wal_open (frames rs)) r Written
  = (Some (Z.of_nat (length (frames rs)), Z.of_nat (length (frames (rs ++ [r])))), wal_open (frames (rs ++ [r]))).
Proof.
  unfold write_hint, wal_open. cbn [hw_position hw_file]. rewrite frames_app, frames_single, length_app, Nat2Z.inj_add.
  done.
Qed.

Lemma truncate_open rs rs' :
  truncate_to (wal_open (frames rs ++ rs')) (Z.of_nat (length (frames rs))) = wal_open (frames rs).
Proof.
  unfold truncate_to, wal_open, set_len. cbn [hw_file]. rewrite Nat2Z.id, take_app_length, length_app.
  replace (length (frames rs) - (length (frames rs) + length rs'))%nat with 0%nat by lia.
  cbn [replicate]. by rewrite app_nil_r.
Qed.

(** A proper prefix of a frame is not a frame, and from eight bytes on it is
    recognised as a broken one. *)
Lemma torn_frame r n :
  hint_ok r -> (n < length (frame r))%nat ->
  parse_frame decode crc32 (take n (frame r)) = if decide (n < 8)%nat then TooShort else Broken.
Proof.
  intros [_ Hr] Hn. unfold parse_frame. rewrite length_take. rewrite length_frame in *.
  case_decide as H8; [by rewrite (proj2 (Z.ltb_lt _ _)) by lia|].
  rewrite (proj2 (Z.ltb_ge _ _)) by lia. rewrite take_take, (Nat.min_l 4 n) by lia.
  unfold frame, build_frame. rewrite (take_app_length' (to_le 4 _) _ 4) by (by rewrite length_to_le).
  rewrite from_to_le_small by (unfold_ints; cbn; lia). by rewrite (proj2 (Z.ltb_lt _ _)) by lia.
Qed.
(** What a replay finds after an append that left [n] bytes of its frame. *)
Lemma replay_torn rs r n :
  Forall hint_ok rs -> hint_ok r ->
  let w := (write_hint encode crc32 (wal_open (frames rs)) r (WriteFails n)).2 in
  ((length (frame r) <= n)%nat /\
   replay decode crc32 true (wal_open (hw_file w)) = (Some (spans 0 (rs ++ [r])), wal_open (frames (rs ++ [r])))) \/
  ((n < length (frame r))%nat /\
   replay decode crc32 true (wal_open (hw_file w))
   = (Some (spans 0 rs), wal_open (frames rs ++ if decide (n < 8)%nat then take n (frame r) else []))).
Proof using crc32_range.
  intros Hrs Hr w. subst w. cbn [write_hint snd wal_open hw_file]. fold (frame r).
  destruct (decide (length (frame r) <= n)%nat) as [Hn|Hn]; [left|right]; (split; [lia|]).
  - rewrite take_ge, <- frames_single, <- frames_app by done.
    apply replay_frames. by apply Forall_app_2, Forall_singleton.
  - pose proof (torn_frame r n Hr ltac:(lia)) as Ht. unfold replay. cbn [wal_open hw_file].
    rewrite replay_loop_frames; [|done|unfold no_frame; rewrite Ht; by case_decide|lia].
    unfold tail_end. destruct (take n (frame r)) as [|b tl] eqn:Htl.
    { rewrite app_nil_r. by case_decide; rewrite app_nil_r. }
    rewrite Ht. case_decide as H8; [done|]. rewrite Z.add_0_l, app_nil_r.
    by rewrite truncate_open.
Qed.
Lemma write_all_hints_open rs rs' ios :
  (forall i, ios i = Written) ->
  write_all_hints encode crc32 (wal_open (frames rs)) rs' ios = (true, wal_open (frames (rs ++ rs'))).
Proof.
  revert rs ios. induction rs' as [|r rs' IH]; intros rs ios Hio; cbn [write_all_hints]; [by rewrite app_nil_r|].
  rewrite Hio, write_hint_open, IH by done. by rewrite <- app_assoc.
Qed.

Lemma frames_nil : frames [] = [].
Proof. done. Qed.

Lemma truncate_empty w : truncate_to w 0 = wal_open (frames []).
Proof. unfold truncate_to, set_len, wal_open. cbn. by rewrite take_0. Qed.

Lemma spans_survivors rs k :
  filter (fun i : Item => Z.of_nat (length (frames (take k rs))) < i.1.2) (spans 0 rs)
  = spans (Z.of_nat (length (frames (take k rs)))) (drop k rs).
Proof.
  replace (spans 0 rs) with (spans 0 (take k rs ++ drop k rs)) by (by rewrite take_drop).
  rewrite spans_app, filter_app, Z.add_0_l.
  rewrite filter_false_in, filter_true_in; [done| |].
  - intros i Hi%spans_end. lia.
  - intros i Hi%spans_end. lia.
Qed.

Lemma spans_filter (P : HintRecord -> Prop) `{!forall r, Decision (P r)} start rs :
  snd <$> filter (fun i : Item => P i.2) (spans start rs) = filter P rs.
Proof.
  revert start. induction rs as [|r rs IH]; intros start; cbn [spans]; [done|].
  rewrite !filter_cons. cbn [snd]. case_decide; cbn [fmap list_fmap snd]; by rewrite IH.
Qed.

(** A prune of undamaged frames keeps the hints that have not expired. *)
Lemma prune_expired_frames b rs ttl_secs now_secs ios :
  Forall hint_ok rs -> (forall i, ios i = Written) ->
  let expired := filter (fun r => hint_expired ttl_secs now_secs r = true) rs in
  prune_expired encode decode crc32 b (wal_open (frames rs)) ttl_secs now_secs ios
  = (if decide (expired = []) then Some (0%nat, []) else if b then Some (length expired, expired) else None,
     if b then wal_open (frames (filter (fun r => hint_expired ttl_secs now_secs r = false) rs))
     else wal_open (frames rs)).
Proof using crc32_range.
  intros Hrs Hio expired. unfold prune_expired. rewrite replay_frames by done.
  pose proof (spans_filter (fun r => hint_expired ttl_secs now_secs r = true) 0 rs) as He.
  pose proof (spans_filter (fun r => hint_expired ttl_secs now_secs r = false) 0 rs) as Hs.
  fold expired in He. cbn zeta in *.
  destruct (filter (fun i : Item => hint_expired ttl_secs now_secs i.2 = true) (spans 0 rs)) as [|i items] eqn:Hf.
  - cbn in He. rewrite decide_True by done. rewrite filter_true_in; [by destruct b|].
    intros r Hr. destruct (hint_expired ttl_secs now_secs r) eqn:E; [|done].
    assert (r ∈ expired) as Hin by (by apply list_elem_of_filter). rewrite <- He in Hin. by apply elem_of_nil in Hin.
  - rewrite decide_False by (by rewrite <- He). destruct b; cbn [truncate_after]; [|done].
    rewrite truncate_empty, Hs, write_all_hints_open by done. rewrite He.
    by rewrite <- He, length_fmap.
Qed.

(** The fuel of [replay] is enough for every file. *)
Lemma replay_loop_fuel fuel fuel' cursor remaining :
  (length remaining <= fuel)%nat -> (length remaining <= fuel')%nat ->
  replay_loop decode crc32 fuel cursor remaining = replay_loop decode crc32 fuel' cursor remaining.
Proof.
  revert fuel' cursor remaining. induction fuel as [|fuel IH]; intros fuel' cursor remaining Hf Hf'.
  - destruct remaining; [|cbn in Hf; lia]. by destruct fuel'.
  - destruct remaining as [|b l]; [by destruct fuel'|]. destruct fuel' as [|fuel']; [cbn in Hf'; lia|].
    cbn [replay_loop]. set (remaining := b :: l) in *. clearbody remaining. destruct (parse_frame decode crc32 remaining) as [| | |t r] eqn:Hp; try done.
    assert (8 <= t) as Ht.
    { unfold parse_frame in Hp. destruct (Z.of_nat (length remaining) <? 8); [done|].
      pose proof (from_le_range (take 4 remaining)).
      repeat (case_match; try done); simplify_eq; lia. }
    rewrite (IH fuel'); [done| |]; rewrite length_drop; lia.
Qed.
End frames.

(** a crash during an append loses nothing that was durable: whatever part
    of the frame reached the file, the replay after the restart returns every
    hint written before, and the last one when its frame is complete. When the
    part has at least eight bytes, or none, the file then holds whole frames
    only, and the next hint is durable too. *)
Theorem hint_wal_survives_torn_append (encode : HintRecord -> bytes) (decode : bytes -> option HintRecord)
    (crc32 : bytes -> Z) rs r n :
  (forall bs, is_u32 (crc32 bs)) -> Forall (hint_ok encode decode) (rs ++ [r]) ->
  let w := (write_hint encode crc32 (wal_open (frames encode crc32 rs)) r (WriteFails n)).2 in
  let kept := if decide (length (frame encode crc32 r) <= n)%nat then rs ++ [r] else rs in
  exists w', replay decode crc32 true (wal_open (hw_file w)) = (Some (spans encode crc32 0 kept), w') /\
    (n = 0%nat \/ (8 <= n)%nat -> w' = wal_open (frames encode crc32 kept) /\
     forall b r', hint_ok encode decode r' ->
       (replay decode crc32 b (wal_open (hw_file (write_hint encode crc32 w' r' Written).2))).1
       = Some (spans encode crc32 0 (kept ++ [r']))).
Proof.
  intros Hcrc Hok w kept. apply Forall_app in Hok as [Hrs Hr]. rewrite Forall_singleton in Hr.
  assert (Forall (hint_ok encode decode) kept) as Hkept.
  { subst kept. case_decide; [|done]. by apply Forall_app_2, Forall_singleton. }
  assert (forall b r', hint_ok encode decode r' ->
    (replay decode crc32 b (wal_open (hw_file (write_hint encode crc32 (wal_open (frames encode crc32 kept)) r' Written).2))).1
    = Some (spans encode crc32 0 (kept ++ [r']))) as Hnext.
  { intros b r' Hr'. rewrite write_hint_open. cbn [snd wal_open hw_file].
    rewrite replay_frames; [done|done|]. by apply Forall_app_2, Forall_singleton. }
  destruct (replay_torn encode decode crc32 Hcrc rs r n Hrs Hr) as [(Hn & Hrep)|(Hn & Hrep)]; fold w in Hrep; clearbody w.
  - assert (kept = rs ++ [r]) as -> by (subst kept; by rewrite decide_True). eauto.
  - assert (kept = rs) as -> by (subst kept; by rewrite decide_False by lia). eexists. split; [exact Hrep|].
    intros H8. assert ((if decide (n < 8)%nat then take n (frame encode crc32 r) else []) = []) as ->.
    { case_decide; [|done]. by destruct H8 as [->|]; [|lia]. }
    rewrite app_nil_r. eauto.
Qed.

(** a torn append of fewer than eight bytes is not repaired: the replay
    leaves the bytes in the file, and a hint that is appended and acknowledged
    afterwards is cut off by the next replay, as soon as the bytes that are
    then taken for its frame do not happen to be one. *)
Theorem short_tail_hides_hints (encode : HintRecord -> bytes) (decode : bytes -> option HintRecord)
    (crc32 : bytes -> Z) rs r n r' :
  (forall bs, is_u32 (crc32 bs)) -> Forall (hint_ok encode decode) (rs ++ [r]) -> (0 < n < 8)%nat ->
  parse_frame decode crc32 (take n (frame encode crc32 r) ++ frame encode crc32 r') = Broken ->
  let torn := (write_hint encode crc32 (wal_open (frames encode crc32 rs)) r (WriteFails n)).2 in
  let reopened := (replay decode crc32 true (wal_open (hw_file torn))).2 in
  exists w, write_hint encode crc32 reopened r' Written = (Some (hw_position reopened, hw_position w), w) /\
    replay decode crc32 true (wal_open (hw_file w))
    = (Some (spans encode crc32 0 rs), wal_open (frames encode crc32 rs)).
Proof.
  intros Hcrc Hok Hn Hbroken torn reopened. apply Forall_app in Hok as [Hrs Hr]. rewrite Forall_singleton in Hr.
  assert (reopened = wal_open (frames encode crc32 rs ++ take n (frame encode crc32 r))) as Hre.
  { subst reopened torn. pose proof (length_frame encode crc32 r).
    destruct (replay_torn encode decode crc32 Hcrc rs r n Hrs Hr) as [(Hl & _)|(_ & ->)]; [lia|].
    by rewrite decide_True by lia. }
  exists (write_hint encode crc32 reopened r' Written).2. split; [done|]. clearbody reopened. subst reopened.
  cbn [write_hint snd wal_open hw_file hw_position]. rewrite <- app_assoc.
  unfold replay. cbn [wal_open hw_file]. fold (frame encode crc32 r').
  rewrite (replay_loop_frames encode decode); [|done|done|unfold no_frame; by rewrite Hbroken|lia].
  unfold tail_end. rewrite Hbroken. destruct (take n (frame encode crc32 r) ++ frame encode crc32 r') eqn:Ht.
  { apply (f_equal length) in Ht. rewrite length_app, (length_frame _ _ r') in Ht. cbn in Ht. lia. }
  rewrite <- Ht, Z.add_0_l. f_equal. apply truncate_open.
Qed.

(** ** Witnesses *)

(** A codec for the examples: it knows the tombstones with a node, bucket and
    key of one byte and no timestamp. *)
Definition toy_encode (r : HintRecord) : bytes :=
  match r with
  | {| hr_record := Some (RecDelete {| hd_intended_for := Some [n]; hd_bucket_id := Some [b];
         hd_object_key := [k]; hd_hlc := None |}); hr_stored_at_secs := s; hr_attempts := a |} =>
      [n; b; k; byte_of_Z s] ++ to_le 4 a
  | _ => []
  end.

Definition toy_hint (n k : byte) (stored attempts : Z) : HintRecord :=
  {| hr_record := Some (RecDelete {| hd_intended_for := Some [n]; hd_bucket_id := Some [x62];
       hd_object_key := [k]; hd_hlc := None |}); hr_stored_at_secs := stored; hr_attempts := attempts |}.

Definition toy_decode (bs : bytes) : option HintRecord :=
  match bs with
  | n :: b :: k :: s :: a => Some
      {| hr_record := Some (RecDelete {| hd_intended_for := Some [n]; hd_bucket_id := Some [b];
           hd_object_key := [k]; hd_hlc := None |});
         hr_stored_at_secs := Z_of_byte s; hr_attempts := from_le a |}
  | _ => None
  end.

Lemma toy_hint_ok n k s a : is_u8 s -> is_u32 a -> hint_ok toy_encode toy_decode (toy_hint n k s a).
Proof.
  intros Hs Ha. split; [|cbn; unfold_ints; lia]. cbn [toy_encode toy_hint hr_record toy_decode app].
  rewrite Z_of_byte_of_Z, Z.mod_small, from_to_le_small by (unfold_ints; cbn; lia). done.
Qed.

Lemma hint_wal_survives_torn_append_witness :
  exists w', replay toy_decode toy_crc true (wal_open (hw_file (write_hint toy_encode toy_crc
      (wal_open (frames toy_encode toy_crc [toy_hint x61 x01 5 0])) (toy_hint x61 x02 6 0) (WriteFails 10)).2))
    = (Some (spans toy_encode toy_crc 0 [toy_hint x61 x01 5 0]), w') /\
    w' = wal_open (frames toy_encode toy_crc [toy_hint x61 x01 5 0]).
Proof.
  destruct (hint_wal_survives_torn_append toy_encode toy_decode toy_crc [toy_hint x61 x01 5 0] (toy_hint x61 x02 6 0) 10)
    as (w' & H1 & H2).
  - apply toy_crc_range.
  - repeat (apply Forall_cons; split; [apply toy_hint_ok; unfold_ints; lia|]). done.
  - exists w'. split; [exact H1|]. apply H2. right. lia.
Defined.

Lemma short_tail_hides_hints_witness :
  let torn := (write_hint toy_encode toy_crc (wal_open (frames toy_encode toy_crc [toy_hint x61 x01 5 0]))
    (toy_hint x61 x02 6 0) (WriteFails 4)).2 in
  let reopened := (replay toy_decode toy_crc true (wal_open (hw_file torn))).2 in
  exists w, write_hint toy_encode toy_crc reopened (toy_hint x61 x03 7 0) Written
      = (Some (hw_position reopened, hw_position w), w) /\
    replay toy_decode toy_crc true (wal_open (hw_file w))
    = (Some (spans toy_encode toy_crc 0 [toy_hint x61 x01 5 0]), wal_open (frames toy_encode toy_crc [toy_hint x61 x01 5 0])).
Proof.
  apply (short_tail_hides_hints toy_encode toy_decode toy_crc [toy_hint x61 x01 5 0] (toy_hint x61 x02 6 0) 4
    (toy_hint x61 x03 7 0)).
  - apply toy_crc_range.
  - repeat (apply Forall_cons; split; [apply toy_hint_ok; unfold_ints; lia|]). done.
  - lia.
  - vm_compute. reflexivity.
Defined.
