(* ===== verification/HintManager.v ===== *)
(** * Hinted handoff
      (crates/oceanfs-durability/src/hinted_handoff/hint_delivery.rs)

    The manager keeps one queue of hints and one log per unreachable replica:
    enqueueing, the batched delivery with the receiver's list of hints to
    retry, the rewriting of the log after a delivery, pruning by age and of
    replicas that have left, the bounded set of open logs, and the replay at
    startup. The state of a replica is a [Target]; tokio tasks interleave
    between the steps of a delivery, so these are definitions of their own.
    The outcome of each file operation, the answer of the receiver, the
    membership and the clocks are arguments. The gauges are not modelled.

    [handoff_refines] relates the manager to plain lists of pending hints;
    [hints_are_conserved] is what it means for the hints: none is lost without
    having been confirmed, or given up and counted. The remaining theorems show
    what happens outside its hypotheses: a crash or a concurrent operation
    during a rewrite, and a hint that does not fit a batch. *)

From Stdlib Require Import ZArith Lia Strings.Byte.
From stdpp Require Import base list gmap sorting functions.
From S2P Require Import Prelude Hlc WalPos HintWal.

Set Default Proof Using "Type".
Local Open Scope Z_scope.

(** ** State *)

Record HintedHandoffConfig := {
  max_batch_size : nat;
  max_batch_bytes : Z;
  max_delivery_attempts : Z }.

(** What the maps of the manager and the directory hold for one replica: the
    queue, the file, the position of the log when it is open, when it was used
    last (in milliseconds) and the bytes owed. *)
Record Target := {
  tg_queue : list Item;
  tg_file : option bytes;
  tg_open : option Z;
  tg_access : option Z;
  tg_bytes : option Z }.

Definition no_target : Target :=
  {| tg_queue := []; tg_file := None; tg_open := None; tg_access := None; tg_bytes := None |}.

Record Manager := {
  mg_targets : gmap NodeId Target;
  mg_stored : Z;
  mg_delivered : Z;
  mg_expired : Z;
  mg_enqueue_failed : Z;
  mg_dropped : Z }.

Definition target_of (mg : Manager) (n : NodeId) : Target := default no_target (mg_targets mg !! n).

Definition set_target (mg : Manager) (n : NodeId) (t : Target) : Manager :=
  {| mg_targets := <[n := t]> (mg_targets mg); mg_stored := mg_stored mg; mg_delivered := mg_delivered mg;
     mg_expired := mg_expired mg; mg_enqueue_failed := mg_enqueue_failed mg; mg_dropped := mg_dropped mg |}.

(** The counters after [stored], [delivered], [expired], [failed] and [dropped]
    more of each. *)
Definition count (stored delivered expired failed dropped : Z) (mg : Manager) : Manager :=
  {| mg_targets := mg_targets mg; mg_stored := mg_stored mg + stored; mg_delivered := mg_delivered mg + delivered;
     mg_expired := mg_expired mg + expired; mg_enqueue_failed := mg_enqueue_failed mg + failed;
     mg_dropped := mg_dropped mg + dropped |}.

Definition set_queue (t : Target) (queue : list Item) : Target :=
  {| tg_queue := queue; tg_file := tg_file t; tg_open := tg_open t; tg_access := tg_access t; tg_bytes := tg_bytes t |}.

Definition set_bytes (t : Target) (b : Z) : Target :=
  {| tg_queue := tg_queue t; tg_file := tg_file t; tg_open := tg_open t; tg_access := tg_access t; tg_bytes := Some b |}.

Definition set_access (t : Target) (now : Z) : Target :=
  {| tg_queue := tg_queue t; tg_file := tg_file t; tg_open := tg_open t; tg_access := Some now; tg_bytes := tg_bytes t |}.

(** The log of a replica after an operation on its open handle. *)
Definition put_wal (t : Target) (w : HintWal) : Target :=
  {| tg_queue := tg_queue t; tg_file := Some (hw_file w); tg_open := Some (hw_position w);
     tg_access := tg_access t; tg_bytes := tg_bytes t |}.

Definition close_wal (t : Target) : Target :=
  {| tg_queue := tg_queue t; tg_file := tg_file t; tg_open := None; tg_access := None; tg_bytes := tg_bytes t |}.

(** The replica after its log is reclaimed: closed, not accounted, the file
    removed. *)
Definition without_wal (t : Target) : Target :=
  {| tg_queue := tg_queue t; tg_file := None; tg_open := None; tg_access := None; tg_bytes := None |}.

Inductive hint_error :=
  | NoIntendedFor
  | WalUnavailable
  | WalWriteFailed
  | AddressNotFound
  | DeliveryFailed.

(** ** Accounting *)

Definition record_payload_bytes (r : HintRecord) : Z :=
  match hr_record r with
  | Some (RecInline h) => Z.of_nat (length (hi_data h)) + 128
  | Some (RecSegmentRef _) => 256
  | Some (RecDelete _) => 128
  | None => 128
  end.

Definition refresh_target_debt (t : Target) : Target :=
  set_bytes t (foldr Z.add 0 ((fun i => record_payload_bytes i.2) <$> tg_queue t)).

Record HintDropRecord := { dr_segment_id : bytes; dr_intended_for : NodeId }.

(** [SegmentId::try_from] accepts sixteen bytes. *)
Definition hint_drop_record (r : HintRecord) : option HintDropRecord :=
  match hr_record r with
  | Some (RecSegmentRef seg) =>
      id ← hs_segment_id seg;
      if (length id =? 16)%nat then
        n ← hs_intended_for seg; Some {| dr_segment_id := id; dr_intended_for := n |}
      else None
  | _ => None
  end.

(** What is handed to the sink of dropped hints, with the segments it names. *)
Record Drops := { drops : list HintDropRecord; drop_segments : gset bytes }.

Definition no_drops : Drops := {| drops := []; drop_segments := ∅ |}.

Definition collect_drop_record (ds : Drops) (r : HintRecord) : Drops :=
  match hint_drop_record r with
  | Some d =>
      if decide (dr_segment_id d ∈ drop_segments ds) then ds
      else {| drops := drops ds ++ [d]; drop_segments := {[ dr_segment_id d ]} ∪ drop_segments ds |}
  | None => ds
  end.

Definition nodes_with_pending (mg : Manager) : list NodeId :=
  merge_sort lex_le (map_to_list (filter (fun nt : NodeId * Target => tg_queue nt.2 <> []) (mg_targets mg))).*1.

Definition hint_pending_count (mg : Manager) (n : NodeId) : nat := length (tg_queue (target_of mg n)).

(** ** Open logs *)

(** The loop of [evict_least_recently_used] over the access times: the oldest
    one that is at least sixty seconds old. *)
Definition older_access (now : Z) (oldest : option (NodeId * Z)) (nt : NodeId * Target) : option (NodeId * Z) :=
  match tg_access nt.2 with
  | Some at_ =>
      if (60 <=? saturating_sub now at_ / 1000) &&
         match oldest with None => true | Some (_, t) => at_ <? t end
      then Some (nt.1, at_) else oldest
  | None => oldest
  end.

Definition evict_least_recently_used (mg : Manager) (now : Z) : Manager :=
  match foldl (older_access now) None (map_to_list (mg_targets mg)) with
  | Some (n, _) => set_target mg n (close_wal (target_of mg n))
  | None => mg
  end.

Definition open_count (mg : Manager) : nat :=
  size (filter (fun nt : NodeId * Target => is_Some (tg_open nt.2)) (mg_targets mg)).

(** [opens] is whether the directory and the file can be opened. *)
Definition get_or_open_node_wal (mg : Manager) (n : NodeId) (now : Z) (opens : bool) : option HintWal * Manager :=
  let t := target_of mg n in
  match tg_open t with
  | Some position =>
      (Some {| hw_file := default [] (tg_file t); hw_position := position |}, set_target mg n (set_access t now))
  | None =>
      let mg := if (16 <=? open_count mg)%nat then evict_least_recently_used mg now else mg in
      let t := target_of mg n in
      if opens then
        let w := wal_open (default [] (tg_file t)) in
        (Some w, set_target mg n (set_access (put_wal t w) now))
      else (None, mg)
  end.

(** ** Enqueueing *)

Section manager.
Context (encode : HintRecord -> bytes) (decode : bytes -> option HintRecord) (crc32 : bytes -> Z).
Context (cfg : HintedHandoffConfig).

Definition stamp (r : HintRecord) (now_secs : Z) : HintRecord :=
  if hr_stored_at_secs r =? 0
  then {| hr_record := hr_record r; hr_stored_at_secs := now_secs; hr_attempts := hr_attempts r |} else r.

Definition enqueue (mg : Manager) (r : HintRecord) (now now_secs : Z) (opens : bool) (io : write_io) :
    outcome hint_error () * Manager :=
  match intended_for r with
  | None => (Err NoIntendedFor, mg)
  | Some target =>
      match get_or_open_node_wal mg target now opens with
      | (None, mg) => (Err WalUnavailable, count 0 0 0 1 0 mg)
      | (Some w, mg) =>
          let r := stamp r now_secs in
          match write_hint encode crc32 w r io with
          | (None, w) => (Err WalWriteFailed, count 0 0 0 1 0 (set_target mg target (put_wal (target_of mg target) w)))
          | (Some (position, end_position), w) =>
              let t := put_wal (target_of mg target) w in
              let owed := default 0 (tg_bytes t) + record_payload_bytes r in
              let t := set_bytes (set_queue t (tg_queue t ++ [(position, end_position, r)])) owed in
              (Ok (), count 1 0 0 0 0 (set_target mg target t))
          end
      end
  end.

(** ** Delivery *)

(** The number of entries at the front of the queue that make up a batch. *)
Fixpoint batch_len (size : nat) (batch : Z) (queue : list Item) : nat :=
  match queue with
  | [] => size
  | i :: queue =>
      if (max_batch_size cfg <=? size)%nat then size else
      let payload := record_payload_bytes i.2 in
      if max_batch_bytes cfg <? batch + payload then size
      else batch_len (S size) (batch + payload) queue
  end.

(** The first step of a delivery, under the lock of the queue. *)
Definition drain_batch (mg : Manager) (target : NodeId) : list Item * Manager :=
  let t := target_of mg target in
  let n := batch_len 0 0 (tg_queue t) in
  (take n (tg_queue t), set_target mg target (set_queue t (drop n (tg_queue t)))).

Definition reenqueue_front (mg : Manager) (target : NodeId) (items : list Item) : Manager :=
  let t := target_of mg target in set_target mg target (set_queue t (items ++ tg_queue t)).

(** The loop over the delivered batch. *)
Record Settled := { sd_requeue : list Item; sd_dropped : nat; sd_drops : Drops }.

Definition settle_item (retry : gset Z) (s : Settled) (ii : nat * Item) : Settled :=
  let '(i, (start, end_, r)) := ii in
  if decide (wrap32 (Z.of_nat i) ∈ retry) then
    let attempts := Z.min (hr_attempts r + 1) u32_max in
    if max_delivery_attempts cfg <? attempts then
      {| sd_requeue := sd_requeue s; sd_dropped := S (sd_dropped s); sd_drops := collect_drop_record (sd_drops s) r |}
    else
      let r := {| hr_record := hr_record r; hr_stored_at_secs := hr_stored_at_secs r; hr_attempts := attempts |} in
      {| sd_requeue := sd_requeue s ++ [(start, end_, r)]; sd_dropped := sd_dropped s; sd_drops := sd_drops s |}
  else s.

Definition settle (retry : gset Z) (drained : list Item) : Settled :=
  foldl (settle_item retry) {| sd_requeue := []; sd_dropped := 0; sd_drops := no_drops |}
    (imap pair drained).

(** The loop that writes the remaining hints: one whose write fails is skipped. *)
Fixpoint rebuild (w : HintWal) (records : list HintRecord) (ios : nat -> write_io) : list Item * HintWal :=
  match records with
  | [] => ([], w)
  | r :: records =>
      match write_hint encode crc32 w r (ios O) with
      | (None, w) => rebuild w records (fun i => ios (S i))
      | (Some (start, end_), w) =>
          let '(items, w) := rebuild w records (fun i => ios (S i)) in ((start, end_, r) :: items, w)
      end
  end.

(** The outcome of the file operations of a rewrite: opening the log, cutting a
    broken tail off, clearing the file, and the writes. *)
Record rewrite_io := { rw_opens : bool; rw_heals : bool; rw_clears : bool; rw_writes : nat -> write_io }.

(** [rewrite_after_partial] under the lock of the queue; whether the log is
    empty and its file is to be reclaimed. *)
Definition rewrite_locked (mg : Manager) (target : NodeId) (drained_end : Z) (requeue : list Item) (now : Z)
    (io : rewrite_io) : bool * Manager :=
  match get_or_open_node_wal mg target now (rw_opens io) with
  | (None, mg) =>
      let mg := reenqueue_front mg target requeue in
      (false, set_target mg target (refresh_target_debt (target_of mg target)))
  | (Some w, mg) =>
      let '(replayed, w) := replay decode crc32 (rw_heals io) w in
      let survivors := match replayed with
        | Some items => snd <$> filter (fun i => drained_end < i.1.2) items
        | None => []
        end in
      let '(_, w) := truncate_after (rw_clears io) w 0 in
      let '(rebuilt, w) := rebuild w (survivors ++ (snd <$> requeue)) (rw_writes io) in
      let t := set_queue (put_wal (target_of mg target) w) rebuilt in
      match rebuilt with
      | [] => (true, set_target mg target t)
      | _ => (false, set_target mg target (set_access (refresh_target_debt t) now))
      end
  end.

(** The rest of [rewrite_after_partial], after the lock is released. *)
Definition reclaim (mg : Manager) (target : NodeId) : Manager :=
  set_target mg target (without_wal (target_of mg target)).

Definition rewrite_after_partial (mg : Manager) (target : NodeId) (drained_end : Z) (requeue : list Item)
    (now : Z) (io : rewrite_io) : Manager :=
  match rewrite_locked mg target drained_end requeue now io with
  | (true, mg) => reclaim mg target
  | (false, mg) => mg
  end.

(** The end of a delivery the receiver has answered, with the indices it could
    not confirm. The subtraction is on machine integers. *)
Definition complete_delivery (mg : Manager) (target : NodeId) (drained : list Item) (retry_indices : list Z)
    (now : Z) (io : rewrite_io) : Z * Drops * Manager :=
  let retry : gset Z := list_to_set retry_indices in
  let drained_end := match last drained with Some i => i.1.2 | None => 0 end in
  let s := settle retry drained in
  let delivered := wrap64 (Z.of_nat (length drained) - Z.of_nat (size retry)) in
  let mg := rewrite_after_partial mg target drained_end (sd_requeue s) now io in
  (delivered, sd_drops s, count 0 delivered 0 0 (Z.of_nat (sd_dropped s)) mg).

(** [address] is what the membership knows of the replica, [answer] what the
    receiver returns: [None] when the call fails or times out. *)
Definition drain_and_deliver (mg : Manager) (target : NodeId) (address : bool)
    (answer : list HintRecord -> option (list Z)) (now : Z) (io : rewrite_io) :
    outcome hint_error Z * Drops * Manager :=
  match drain_batch mg target with
  | ([], mg) => (Ok 0, no_drops, mg)
  | (drained, mg) =>
      if address then
        match answer (snd <$> drained) with
        | Some retry_indices =>
            let '(delivered, ds, mg) := complete_delivery mg target drained retry_indices now io in
            (Ok delivered, ds, mg)
        | None => (Err DeliveryFailed, no_drops, reenqueue_front mg target drained)
        end
      else (Err AddressNotFound, no_drops, reenqueue_front mg target drained)
  end.

(** ** Pruning *)

(** The outcome of the file operations of a prune: cutting a broken tail off in
    each of the two replays, clearing the file, and the writes. *)
Record prune_io := { pn_heals : bool; pn_writes : nat -> write_io; pn_heals_again : bool }.

(** The log after an operation on a handle that is the map's only when the log
    is open. *)
Definition store_wal (t : Target) (w : HintWal) : Target :=
  match tg_open t with
  | Some _ => put_wal t w
  | None => {| tg_queue := tg_queue t; tg_file := Some (hw_file w); tg_open := None;
               tg_access := tg_access t; tg_bytes := tg_bytes t |}
  end.

(** [prune_target_wal] on the log [w]; [retained] is whether the membership has
    the replica. Returns the number of expired hints and the drops. *)
Definition prune_target_wal (mg : Manager) (target : NodeId) (w : HintWal) (retained : bool)
    (ttl_secs now_secs : Z) (ds : Drops) (io : prune_io) : nat * Drops * Manager :=
  let with_wal (w : HintWal) := set_target mg target (store_wal (target_of mg target) w) in
  if retained then
    match prune_expired encode decode crc32 (pn_heals io) w ttl_secs now_secs (pn_writes io) with
    | (None, w) => (O, ds, with_wal w)
    | (Some (O, _), w) => (O, ds, with_wal w)
    | (Some (n, expired), w) =>
        let ds := foldl collect_drop_record ds expired in
        match replay decode crc32 (pn_heals_again io) w with
        | (Some items, w) =>
            let mg := with_wal w in
            (n, ds, set_target mg target (refresh_target_debt (set_queue (target_of mg target) items)))
        | (None, w) => (n, ds, with_wal w)
        end
    end
  else
    match replay decode crc32 (pn_heals io) w with
    | (None, w) => (O, ds, with_wal w)
    | (Some items, w) =>
        let ds := foldl collect_drop_record ds (snd <$> items) in
        (O, ds, count 0 0 0 0 (Z.of_nat (length items)) (set_target mg target no_target))
    end.

(** The log that [prune_all_expired] prunes for a replica: the open one, or the
    file opened for the purpose. *)
Definition prune_handle (t : Target) : option HintWal :=
  match tg_open t with
  | Some position => Some {| hw_file := default [] (tg_file t); hw_position := position |}
  | None => wal_open <$> tg_file t
  end.

Definition prune_one (retained : NodeId -> bool) (ttl_secs now_secs : Z) (io : NodeId -> prune_io)
    (acc : nat * Drops * Manager) (n : NodeId) : nat * Drops * Manager :=
  let '(total, ds, mg) := acc in
  match prune_handle (target_of mg n) with
  | Some w =>
      let '(k, ds, mg) := prune_target_wal mg n w (retained n) ttl_secs now_secs ds (io n) in
      ((total + k)%nat, ds, mg)
  | None => acc
  end.

(** The open logs first, then the files of the directory that are not open. *)
Definition prune_order (mg : Manager) : list NodeId :=
  (map_to_list (filter (fun nt : NodeId * Target => is_Some (tg_open nt.2)) (mg_targets mg))).*1 ++
  (map_to_list (filter (fun nt : NodeId * Target => tg_open nt.2 = None /\ is_Some (tg_file nt.2)) (mg_targets mg))).*1.

Definition prune_all_expired (mg : Manager) (retained : NodeId -> bool) (ttl_secs now_secs : Z)
    (io : NodeId -> prune_io) : nat * Drops * Manager :=
  let '(total, ds, mg) :=
    foldl (prune_one retained ttl_secs now_secs io) (O, no_drops, mg) (prune_order mg) in
  (total, ds, count 0 0 (Z.of_nat total) 0 0 mg).

(** ** Startup *)

(** A restart leaves the files. *)
Definition crash (mg : Manager) : Manager :=
  {| mg_targets := (fun t => {| tg_queue := []; tg_file := tg_file t; tg_open := None; tg_access := None;
       tg_bytes := None |}) <$> mg_targets mg;
     mg_stored := 0; mg_delivered := 0; mg_expired := 0; mg_enqueue_failed := 0; mg_dropped := 0 |}.

(** The body of the loop over the files; an error ends the startup. *)
Definition replay_file (heals : NodeId -> bool) (acc : option (nat * Manager)) (nt : NodeId * Target) :
    option (nat * Manager) :=
  '(total, mg) ← acc;
  match tg_file nt.2 with
  | None => acc
  | Some file =>
      match replay decode crc32 (heals nt.1) (wal_open file) with
      | (None, _) => None
      | (Some items, w) =>
          let t := target_of mg nt.1 in
          let t := refresh_target_debt (set_queue t (tg_queue t ++ items)) in
          Some ((total + length items)%nat, set_target mg nt.1 (put_wal t w))
      end
  end.

Definition replay_and_enqueue (mg : Manager) (heals : NodeId -> bool) : option (nat * Manager) :=
  foldl (replay_file heals) (Some (O, mg)) (map_to_list (mg_targets mg)).
End manager.

(** ** The pending hints

    The abstract state is the list of pending hints of each replica; [synced]
    ties it to the queue and to the log. *)

Section pending.
Context (encode : HintRecord -> bytes) (decode : bytes -> option HintRecord) (crc32 : bytes -> Z).
Context (cfg : HintedHandoffConfig).
Hypothesis crc32_range : forall bs, is_u32 (crc32 bs).

Notation hint_ok := (hint_ok encode decode).
Notation frames := (frames encode crc32).
Notation spans := (spans encode crc32).

Definition with_attempts (r : HintRecord) (a : Z) : HintRecord :=
  {| hr_record := hr_record r; hr_stored_at_secs := hr_stored_at_secs r; hr_attempts := a |}.

(** A record that its log can hold, whatever its attempt count becomes. *)
Definition hint_good (r : HintRecord) : Prop :=
  is_u32 (hr_attempts r) /\ forall a, is_u32 a -> hint_ok (with_attempts r a).

Lemma hint_good_ok r : hint_good r -> hint_ok r.
Proof. intros [Ha H]. specialize (H _ Ha). by destruct r. Qed.

Lemma hints_good_ok rs : Forall hint_good rs -> Forall hint_ok rs.
Proof. intros H. eapply Forall_impl; [exact H|]. apply hint_good_ok. Qed.

Record file_ok (t : Target) (rs : list HintRecord) : Prop := {
  fo_records : Forall hint_good rs;
  fo_file : default [] (tg_file t) = frames rs;
  fo_position : forall p, tg_open t = Some p -> p = Z.of_nat (length (frames rs));
  fo_closed : tg_file t = None -> tg_open t = None }.

Definition synced (mg : Manager) (pending : NodeId -> list HintRecord) : Prop :=
  forall n, file_ok (target_of mg n) (pending n) /\ tg_queue (target_of mg n) = spans 0 (pending n).

Definition all_files (mg : Manager) (pending : NodeId -> list HintRecord) : Prop :=
  forall n, file_ok (target_of mg n) (pending n).

Lemma target_of_set mg n t m :
  target_of (set_target mg n t) m = if decide (m = n) then t else target_of mg m.
Proof.
  unfold target_of, set_target. cbn [mg_targets]. case_decide as Hmn.
  - subst. by rewrite lookup_insert_eq.
  - by rewrite lookup_insert_ne.
Qed.

Lemma target_of_count a b c e f mg n : target_of (count a b c e f mg) n = target_of mg n.
Proof. done. Qed.

Lemma all_files_set mg pending n t rs :
  all_files mg pending -> file_ok t rs -> all_files (set_target mg n t) (<[n := rs]> pending).
Proof.
  intros Hmg Ht m. rewrite target_of_set. case_decide as Hmn.
  - subst. by rewrite fn_lookup_insert.
  - by rewrite fn_lookup_insert_ne.
Qed.

Lemma all_files_ext mg pending pending' :
  (forall n, pending n = pending' n) -> all_files mg pending -> all_files mg pending'.
Proof. intros He Hmg n. rewrite <- He. apply Hmg. Qed.

Lemma file_ok_close t rs : file_ok t rs -> file_ok (close_wal t) rs.
Proof. intros []. by split. Qed.

Lemma file_ok_queue t rs q : file_ok t rs -> file_ok (set_queue t q) rs.
Proof. intros []. by split. Qed.

Lemma file_ok_put t rs : Forall hint_good rs -> file_ok (put_wal t (wal_open (frames rs))) rs.
Proof. intros H. split; [done|done| |done]. intros p. cbn. by intros [= <-]. Qed.

Lemma file_ok_same t t' rs :
  tg_file t = tg_file t' -> tg_open t = tg_open t' -> file_ok t rs -> file_ok t' rs.
Proof. intros Hf Ho []. split; by rewrite <- ?Hf, <- ?Ho. Qed.

Lemma evict_files mg pending now :
  all_files mg pending ->
  all_files (evict_least_recently_used mg now) pending /\
  forall n, tg_queue (target_of (evict_least_recently_used mg now) n) = tg_queue (target_of mg n).
Proof.
  intros Hmg. unfold evict_least_recently_used. destruct (foldl _ _ _) as [[n at_]|]; [|done]. split.
  - intros m. rewrite target_of_set. case_decide; [subst; by apply file_ok_close|done].
  - intros m. rewrite target_of_set. by case_decide; subst.
Qed.

(** Opening the log of a replica gives its frames and changes no queue. *)
Lemma get_or_open_files mg pending n now :
  all_files mg pending ->
  exists mg', get_or_open_node_wal mg n now true = (Some (wal_open (frames (pending n))), mg') /\
    all_files mg' pending /\ forall m, tg_queue (target_of mg' m) = tg_queue (target_of mg m).
Proof.
  intros Hmg. unfold get_or_open_node_wal. destruct (tg_open (target_of mg n)) as [p|] eqn:Ho.
  - destruct (Hmg n) as [Hr Hf Hp Hc]. rewrite Hf, (Hp p Ho). eexists. split; [done|]. split.
    + intros m. rewrite target_of_set. case_decide; [subst|done]. by split.
    + intros m. rewrite target_of_set. by case_decide; subst.
  - set (mg1 := if (16 <=? open_count mg)%nat then _ else _).
    assert (all_files mg1 pending /\ forall m, tg_queue (target_of mg1 m) = tg_queue (target_of mg m)) as [H1 H2].
    { subst mg1. case_match; [by apply evict_files|done]. }
    clearbody mg1. rewrite (fo_file _ _ (H1 n)). eexists. split; [done|]. split.
    + intros m. rewrite target_of_set. case_decide; [subst|done].
      eapply (file_ok_same (put_wal (target_of mg1 n) _)); [done|done|]. apply file_ok_put, (fo_records _ _ (H1 n)).
    + intros m. rewrite target_of_set. case_decide; [subst|done]. apply H2.
Qed.

(** The hint that an enqueue stores. *)
Lemma enqueue_synced mg pending r n now now_secs :
  synced mg pending -> intended_for r = Some n -> hint_good (stamp r now_secs) ->
  exists mg', enqueue encode crc32 mg r now now_secs true Written = (Ok (), mg') /\
    synced mg' (<[n := pending n ++ [stamp r now_secs]]> pending).
Proof.
  intros Hs Hn Hr. assert (all_files mg pending) as Hf by (intros m; apply Hs).
  destruct (get_or_open_files mg pending n now Hf) as (mg1 & Hopen & Hf1 & Hq1).
  unfold enqueue. rewrite Hn, Hopen, write_hint_open. eexists. split; [done|]. intros m.
  rewrite target_of_count, target_of_set. case_decide as Hmn.
  - subst. rewrite fn_lookup_insert. destruct (Hs n) as [Hfo Hq]. split.
    + eapply (file_ok_same (put_wal (target_of mg1 n) _)); [done|done|]. apply file_ok_put.
      apply Forall_app_2, Forall_singleton; [apply (fo_records _ _ Hfo)|done].
    + cbn [tg_queue set_bytes set_queue put_wal]. rewrite Hq1, Hq, spans_app. cbn [HintWal.spans].
      rewrite Z.add_0_l. do 4 f_equal. rewrite frames_app, length_app, frames_single. lia.
  - rewrite fn_lookup_insert_ne by done. rewrite Hq1. split; [apply Hf1|apply Hs].
Qed.

(** ** Deliveries *)

(** Of the batch [rs], the hints to retry with their new attempt count, the
    ones given up, and the ones the receiver has confirmed. *)
Definition bump (r : HintRecord) : HintRecord := with_attempts r (Z.min (hr_attempts r + 1) u32_max).

Definition exhausted (r : HintRecord) : bool := max_delivery_attempts cfg <? hr_attempts (bump r).

Definition in_retry (retry : gset Z) (i : nat) : bool := bool_decide (wrap32 (Z.of_nat i) ∈ retry).

(** The values of [f] on the elements of the list and their indices from [k] on. *)
Definition select {A B} (f : nat -> A -> option B) (k : nat) (l : list A) : list B :=
  omap id (imap (fun i => f (k + i)%nat) l).

Definition retried (retry : gset Z) : nat -> list HintRecord -> list HintRecord :=
  select (fun i r => if in_retry retry i && negb (exhausted r) then Some (bump r) else None).

Definition given_up (retry : gset Z) : nat -> list HintRecord -> list HintRecord :=
  select (fun i r => if in_retry retry i && exhausted r then Some r else None).

Definition confirmed (retry : gset Z) : nat -> list HintRecord -> list HintRecord :=
  select (fun i r => if in_retry retry i then None else Some r).

Lemma select_cons {A B} (f : nat -> A -> option B) k a l :
  select f k (a :: l) = match f k a with Some b => [b] | None => [] end ++ select f (S k) l.
Proof.
  unfold select. cbn [imap omap list_omap]. rewrite Nat.add_0_r. cbn [id].
  rewrite (imap_ext _ (fun i => f (S k + i)%nat)) by (intros; cbn; f_equal; lia). by destruct (f k a).
Qed.

Lemma settle_spec retry k (items : list Item) s :
  let s' := foldl (settle_item cfg retry) s (imap (fun i x => ((k + i)%nat, x)) items) in
  snd <$> sd_requeue s' = (snd <$> sd_requeue s) ++ retried retry k (snd <$> items) /\
  sd_dropped s' = (sd_dropped s + length (given_up retry k (snd <$> items)))%nat /\
  sd_drops s' = foldl collect_drop_record (sd_drops s) (given_up retry k (snd <$> items)).
Proof.
  revert k s. induction items as [|[[a b] r] items IH]; intros k s; cbn [imap fmap list_fmap snd].
  - cbn. rewrite app_nil_r. split_and!; [done|lia|done].
  - unfold retried, given_up. rewrite !select_cons. cbn [foldl].
    rewrite (imap_ext _ (fun i x => ((S k + i)%nat, x))) by (intros; cbn; f_equal; lia).
    destruct (IH (S k) (settle_item cfg retry s (k + 0, (a, b, r))%nat)) as (H1 & H2 & H3).
    cbv zeta in *. unfold retried, given_up in H1, H2, H3. rewrite H1, H2, H3. clear IH H1 H2 H3. rewrite Nat.add_0_r.
    cbn [settle_item]. unfold in_retry, exhausted, bump, with_attempts. cbn [hr_attempts].
    case_decide as Hin; [rewrite bool_decide_true by done|rewrite bool_decide_false by done];
      cbn [andb app foldl length]; [|done].
    destruct (max_delivery_attempts cfg <? _); cbn [negb andb sd_requeue sd_dropped sd_drops app foldl length].
    + split_and!; [done|lia|done].
    + rewrite fmap_app. cbn. rewrite <- app_assoc. split_and!; [done|lia|done].
Qed.

(** ** Rewriting the log *)

Record good_rewrite (io : rewrite_io) : Prop := {
  gr_opens : rw_opens io = true;
  gr_clears : rw_clears io = true;
  gr_writes : forall i, rw_writes io i = Written }.

Lemma rebuild_open rs rs' ios :
  (forall i, ios i = Written) ->
  rebuild encode crc32 (wal_open (frames rs)) rs' ios
  = (spans (Z.of_nat (length (frames rs))) rs', wal_open (frames (rs ++ rs'))).
Proof.
  revert rs ios. induction rs' as [|r rs' IH]; intros rs ios Hio; cbn [rebuild]; [by rewrite app_nil_r|].
  rewrite Hio, write_hint_open, IH by done. cbn [HintWal.spans].
  rewrite frames_app, frames_single, length_app, Nat2Z.inj_add, <- app_assoc. done.
Qed.

(** After a delivery of the first [k] hints of a replica, its queue and its log
    hold the others and the hints to retry. *)
Lemma rewrite_files mg pending n k requeue now io :
  all_files mg pending -> (0 < k)%nat -> Forall hint_good (snd <$> requeue) -> good_rewrite io ->
  let rest := drop k (pending n) ++ (snd <$> requeue) in
  let mg' := rewrite_after_partial encode decode crc32 mg n (Z.of_nat (length (frames (take k (pending n))))) requeue now io in
  all_files mg' (<[n := rest]> pending) /\ tg_queue (target_of mg' n) = spans 0 rest /\
  forall m, m <> n -> tg_queue (target_of mg' m) = tg_queue (target_of mg m).
Proof using crc32_range.
  intros Hf Hk Hreq [Ho Hc Hw] rest. destruct (get_or_open_files mg pending n now Hf) as (mg1 & Hopen & Hf1 & Hq1).
  assert (Forall hint_good rest) as Hrest.
  { apply Forall_app_2; [|done]. apply Forall_drop, (fo_records _ _ (Hf n)). }
  unfold rewrite_after_partial, rewrite_locked. rewrite Ho, Hopen, (replay_frames encode decode);
    [|done|apply hints_good_ok, (fo_records _ _ (Hf n))].
  rewrite spans_survivors, spans_records, Hc. cbn [truncate_after]. rewrite (truncate_empty encode crc32), rebuild_open by done.
  fold rest. clearbody rest. rewrite frames_nil. change ([] ++ rest) with rest. cbn [length]. change (Z.of_nat 0) with 0.
  destruct rest as [|r rest']; cbn [HintWal.spans].
  - cbv zeta. unfold reclaim. split_and!.
    + apply all_files_ext with (<[n := []]> (<[n := []]> pending)); [by intros m; destruct (decide (m = n)) as [->|]; rewrite ?fn_lookup_insert, ?fn_lookup_insert_ne|].
      apply all_files_set; [|by split]. apply all_files_set; [done|]. apply file_ok_queue, file_ok_put. done.
    + by rewrite !target_of_set, !decide_True.
    + intros m Hm. rewrite !target_of_set, !decide_False by done. apply Hq1.
  - cbv zeta. split_and!.
    + apply all_files_set; [done|].
      eapply (file_ok_same (put_wal (target_of mg1 n) (wal_open (frames (r :: rest'))))); [done|done|]. by apply file_ok_put.
    + by rewrite target_of_set, decide_True.
    + intros m Hm. rewrite !target_of_set, !decide_False by done. apply Hq1.
Qed.

(** ** One delivery *)

(** The size of the next batch. *)
Definition batch_of (rs : list HintRecord) : nat := batch_len cfg 0 0 ((fun r => (0, 0, r)) <$> rs).

Lemma batch_len_records size batch (queue : list Item) :
  batch_len cfg size batch queue = batch_len cfg size batch ((fun r => (0, 0, r)) <$> (snd <$> queue)).
Proof.
  revert size batch. induction queue as [|i queue IH]; intros size batch; cbn [batch_len fmap list_fmap snd]; [done|].
  by rewrite <- IH.
Qed.

Lemma retried_good retry k rs : Forall hint_good rs -> Forall hint_good (retried retry k rs).
Proof.
  intros H. revert k. induction H as [|r rs [Ha Hr] _ IH]; intros k; unfold retried; [by constructor|].
  rewrite select_cons. apply Forall_app_2; [|apply IH].
  destruct (_ && _); [|done]. apply Forall_singleton. unfold hint_good, bump. cbn [with_attempts hr_attempts].
  split; [unfold_ints; lia|]. intros a Hu. by apply (Hr a).
Qed.

Lemma take_spans start rs k :
  take k (spans start rs) = spans start (take k rs).
Proof.
  rewrite <- (take_drop k rs) at 1. rewrite spans_app. destruct (decide (k <= length rs)%nat).
  - rewrite take_app_length'; [done|]. rewrite length_spans, length_take. lia.
  - rewrite drop_ge by lia. cbn [HintWal.spans]. rewrite app_nil_r, !take_ge; rewrite ?length_spans, ?length_take; try lia; done.
Qed.

Lemma last_span start rs :
  rs <> [] -> (match last (spans start rs) with Some i => i.1.2 | None => 0 end) = start + Z.of_nat (length (frames rs)).
Proof.
  induction rs as [|r rs IH] using rev_ind; [done|]. intros _.
  rewrite spans_app. cbn [HintWal.spans]. rewrite last_snoc. cbn [fst snd].
  rewrite frames_app, frames_single, length_app. lia.
Qed.

(** What a delivery does to the pending hints when the receiver answers. *)
Definition delivered_pending (pending : NodeId -> list HintRecord) (n : NodeId) (retry : gset Z) :
    NodeId -> list HintRecord :=
  let k := batch_of (pending n) in
  <[n := drop k (pending n) ++ retried retry 0 (take k (pending n))]> pending.

Lemma reenqueue_synced mg pending n k :
  synced mg pending ->
  let t := target_of mg n in
  synced (reenqueue_front (set_target mg n (set_queue t (drop k (tg_queue t)))) n (take k (tg_queue t))) pending.
Proof.
  intros Hs t m. unfold reenqueue_front. rewrite !target_of_set. case_decide as Hmn; [subst|apply Hs].
  rewrite decide_True by done. cbn [set_queue tg_queue]. rewrite take_drop. destruct (Hs n) as [Hf Hq].
  split; [|done]. eapply file_ok_same; [..|exact Hf]; done.
Qed.

Lemma drain_batch_synced mg pending n :
  synced mg pending ->
  let k := batch_of (pending n) in
  drain_batch cfg mg n
  = (spans 0 (take k (pending n)), set_target mg n (set_queue (target_of mg n) (drop k (tg_queue (target_of mg n))))).
Proof.
  intros Hs k. unfold drain_batch. destruct (Hs n) as [_ Hq]. rewrite batch_len_records, Hq, spans_records.
  fold (batch_of (pending n)). fold k. by rewrite take_spans.
Qed.

Lemma deliver_empty mg pending n address answer now io :
  synced mg pending -> take (batch_of (pending n)) (pending n) = [] ->
  exists mg', drain_and_deliver encode decode crc32 cfg mg n address answer now io = (Ok 0, no_drops, mg') /\
    synced mg' pending.
Proof.
  intros Hs Hb. unfold drain_and_deliver. rewrite (drain_batch_synced mg pending n Hs), Hb.
  eexists. split; [done|]. pose proof (reenqueue_synced mg pending n (batch_of (pending n)) Hs) as Hr.
  destruct (Hs n) as [_ Hq]. cbv zeta in Hr. rewrite Hq, take_spans, Hb in Hr.
  intros m. specialize (Hr m). unfold reenqueue_front in Hr. rewrite Hq. rewrite !target_of_set in *.
  case_decide; [|done]. by rewrite decide_True in Hr.
Qed.

Lemma deliver_failed mg pending n address answer now io :
  let batch := take (batch_of (pending n)) (pending n) in
  synced mg pending -> batch <> [] -> address = false \/ answer batch = None ->
  exists e mg', drain_and_deliver encode decode crc32 cfg mg n address answer now io = (Err e, no_drops, mg') /\
    synced mg' pending.
Proof.
  intros batch Hs Hb Hno. unfold drain_and_deliver. rewrite (drain_batch_synced mg pending n Hs). fold batch.
  pose proof (reenqueue_synced mg pending n (batch_of (pending n)) Hs) as Hr. cbv zeta in Hr.
  destruct (Hs n) as [_ Hq]. rewrite Hq, take_spans in Hr. fold batch in Hr. rewrite Hq.
  destruct (spans 0 batch) as [|i items] eqn:Hi; [by destruct batch|]. rewrite <- Hi in *.
  destruct address; [|by do 2 eexists]. destruct Hno as [|Hno]; [done|]. rewrite spans_records, Hno. by do 2 eexists.
Qed.

Lemma get_or_open_dropped mg n now opens : mg_dropped (get_or_open_node_wal mg n now opens).2 = mg_dropped mg.
Proof.
  unfold get_or_open_node_wal, evict_least_recently_used. repeat case_match; done.
Qed.

Lemma rewrite_dropped mg n drained_end requeue now io :
  mg_dropped (rewrite_after_partial encode decode crc32 mg n drained_end requeue now io) = mg_dropped mg.
Proof.
  unfold rewrite_after_partial, rewrite_locked.
  pose proof (get_or_open_dropped mg n now (rw_opens io)) as H.
  destruct (get_or_open_node_wal mg n now (rw_opens io)) as [[w|] mg1]; cbn [snd] in H; [|done].
  destruct (replay _ _ _ _) as [? ?]. destruct (truncate_after _ _ _) as [? ?]. destruct (rebuild _ _ _ _ _) as [[|] ?]; done.
Qed.

Lemma deliver_answered mg pending n answer retry_indices now io :
  let batch := take (batch_of (pending n)) (pending n) in
  let retry : gset Z := list_to_set retry_indices in
  synced mg pending -> good_rewrite io -> batch <> [] -> answer batch = Some retry_indices ->
  exists mg', drain_and_deliver encode decode crc32 cfg mg n true answer now io
      = (Ok (wrap64 (Z.of_nat (length batch) - Z.of_nat (size retry))),
         foldl collect_drop_record no_drops (given_up retry 0 batch), mg') /\
    synced mg' (delivered_pending pending n retry) /\
    mg_dropped mg' = mg_dropped mg + Z.of_nat (length (given_up retry 0 batch)).
Proof using crc32_range.
  intros batch retry Hs Hio Hb Ha. unfold drain_and_deliver. rewrite (drain_batch_synced mg pending n Hs). fold batch.
  destruct (spans 0 batch) as [|i items] eqn:Hi; [by destruct batch|]. rewrite <- Hi, spans_records, Ha.
  unfold complete_delivery. fold retry. rewrite last_span, Z.add_0_l, length_spans by done.
  unfold settle. rewrite (imap_ext pair (fun i x => ((0 + i)%nat, x))) by done.
  destruct (settle_spec retry 0 (spans 0 batch) {| sd_requeue := []; sd_dropped := 0; sd_drops := no_drops |})
    as (H1 & H2 & H3). cbv zeta in *. rewrite spans_records in *. cbn [sd_requeue sd_dropped sd_drops fmap list_fmap app] in *.
  set (sd := foldl _ _ _) in *. set (mg1 := set_target _ _ _).
  assert (all_files mg1 pending) as Hf1.
  { subst mg1. intros m. rewrite target_of_set. case_decide; [subst; apply file_ok_queue|]; apply Hs. }
  assert (0 < batch_of (pending n))%nat as Hk by (destruct (batch_of (pending n)); [done|lia]).
  destruct (rewrite_files mg1 pending n (batch_of (pending n)) (sd_requeue sd) now io Hf1 Hk) as (HF & HQ & HO); [|done|].
  { rewrite H1. apply retried_good, Forall_take, (fo_records _ _ (proj1 (Hs n))). }
  fold batch in HF, HQ, HO. rewrite H1 in HF, HQ. eexists. split; [by rewrite H3|]. split.
  - intros m. rewrite target_of_count. split; [apply HF|]. unfold delivered_pending.
    destruct (decide (m = n)) as [->|Hm]; [by rewrite fn_lookup_insert|].
    rewrite fn_lookup_insert_ne, HO by done. subst mg1. rewrite target_of_set, decide_False by done. apply Hs.
  - cbn [count mg_dropped]. by rewrite H2, rewrite_dropped.
Qed.

(** ** Pruning and startup *)

Definition pruned (retained : NodeId -> bool) (ttl_secs now_secs : Z) (n : NodeId) (rs : list HintRecord) :
    list HintRecord :=
  if retained n then filter (fun r => hint_expired ttl_secs now_secs r = false) rs else [].

Record good_prune (io : prune_io) : Prop := {
  gp_heals : pn_heals io = true;
  gp_writes : forall i, pn_writes io i = Written }.

Lemma prune_handle_files t rs :
  file_ok t rs -> prune_handle t = None /\ rs = [] \/ prune_handle t = Some (wal_open (frames rs)).
Proof.
  intros [Hr Hf Hp Hc]. unfold prune_handle. destruct (tg_open t) as [p|] eqn:Ho.
  - right. by rewrite Hf, (Hp p eq_refl).
  - destruct (tg_file t) as [c|]; [right; cbn in *; by rewrite Hf|left].
    cbn in Hf. split; [done|]. destruct rs as [|r rs]; [done|].
    apply (f_equal length) in Hf. change (r :: rs) with ([r] ++ rs) in Hf.
    rewrite frames_app, frames_single, length_app, length_frame in Hf. cbn in Hf. lia.
Qed.

Lemma store_wal_ok t rs : Forall hint_good rs -> file_ok (store_wal t (wal_open (frames rs))) rs.
Proof. intros H. unfold store_wal. destruct (tg_open t); [by apply file_ok_put|]. by split. Qed.

Lemma store_wal_queue t w : tg_queue (store_wal t w) = tg_queue t.
Proof. unfold store_wal. by destruct (tg_open t). Qed.

Lemma synced_set mg pending n t rs :
  synced mg pending -> file_ok t rs -> tg_queue t = spans 0 rs -> synced (set_target mg n t) (<[n := rs]> pending).
Proof.
  intros Hs Hf Hq m. rewrite target_of_set. case_decide; [subst; by rewrite fn_lookup_insert|].
  rewrite fn_lookup_insert_ne by done. apply Hs.
Qed.

Lemma synced_set_twice mg pending n t0 t rs :
  synced mg pending -> file_ok t rs -> tg_queue t = spans 0 rs ->
  synced (set_target (set_target mg n t0) n t) (<[n := rs]> pending).
Proof.
  intros Hs Hf Hq m. rewrite !target_of_set. case_decide; [subst; by rewrite fn_lookup_insert|].
  rewrite fn_lookup_insert_ne by done. apply Hs.
Qed.

Lemma prune_one_synced mg pending retained ttl_secs now_secs io total ds n :
  synced mg pending -> good_prune (io n) ->
  synced (prune_one encode decode crc32 retained ttl_secs now_secs io (total, ds, mg) n).2
    (<[n := pruned retained ttl_secs now_secs n (pending n)]> pending).
Proof using crc32_range.
  intros Hs [Hh Hw]. destruct (Hs n) as [Hf Hq]. unfold prune_one.
  destruct (prune_handle_files _ _ Hf) as [[-> Hnil]| ->].
  { intros m. cbn [snd]. destruct (decide (m = n)) as [->|]; [|by rewrite fn_lookup_insert_ne].
    rewrite fn_lookup_insert. specialize (Hs n). rewrite Hnil in *. unfold pruned. by destruct (retained n). }
  assert (Forall hint_ok (pending n)) as Hok by apply hints_good_ok, (fo_records _ _ Hf).
  unfold prune_target_wal, pruned. rewrite Hh. destruct (retained n).
  - set (survivors := filter (fun r => hint_expired ttl_secs now_secs r = false) (pending n)).
    assert (Forall hint_good survivors) as Hsv.
    { apply Forall_forall. intros r [_ Hr]%list_elem_of_filter. revert r Hr. apply Forall_forall, (fo_records _ _ Hf). }
    rewrite (prune_expired_frames encode decode) by done. fold survivors.
    set (expired := filter (fun r => hint_expired ttl_secs now_secs r = true) (pending n)). cbv zeta.
    case_decide as He.
    + cbn [snd]. apply synced_set; [done|by apply store_wal_ok|]. rewrite store_wal_queue, Hq. f_equal.
      symmetry. apply filter_true_in. intros r Hr. destruct (hint_expired ttl_secs now_secs r) eqn:E; [|done].
      assert (r ∈ expired) as Hin by (by apply list_elem_of_filter). rewrite He in Hin. by apply elem_of_nil in Hin.
    + destruct (length expired) as [|k] eqn:Hl; [by apply nil_length_inv in Hl|].
      rewrite (replay_frames encode decode) by (done || by apply hints_good_ok). cbn [snd].
      apply synced_set_twice; [done| |done]. rewrite target_of_set, decide_True by done.
      eapply file_ok_same; [..|by apply (store_wal_ok (target_of mg n))]; done.
  - rewrite (replay_frames encode decode) by done. cbn [snd]. intros m. rewrite target_of_count.
    revert m. apply synced_set; [done|by split|done].
Qed.

Lemma synced_ext mg pending pending' :
  (forall n, pending n = pending' n) -> synced mg pending -> synced mg pending'.
Proof. intros He Hmg n. rewrite <- He. apply Hmg. Qed.

Lemma pruned_idemp retained ttl_secs now_secs n rs :
  pruned retained ttl_secs now_secs n (pruned retained ttl_secs now_secs n rs) = pruned retained ttl_secs now_secs n rs.
Proof.
  unfold pruned. destruct (retained n); [|done]. apply filter_true_in. by intros r [? _]%list_elem_of_filter.
Qed.

Lemma prune_loop_synced retained ttl_secs now_secs io ns acc pending :
  synced acc.2 pending -> (forall n, good_prune (io n)) ->
  synced (foldl (prune_one encode decode crc32 retained ttl_secs now_secs io) acc ns).2
    (fun n => if decide (n ∈ ns) then pruned retained ttl_secs now_secs n (pending n) else pending n).
Proof using crc32_range.
  intros Hs Hio. revert acc pending Hs. induction ns as [|n ns IH]; intros acc pending Hs; cbn [foldl].
  - eapply synced_ext; [|exact Hs]. intros n. rewrite decide_False; [done|apply not_elem_of_nil].
  - destruct acc as [[total ds] mg]. eapply synced_ext; [|apply IH, (prune_one_synced mg pending); [exact Hs|apply Hio]].
    intros m. cbn beta. destruct (decide (m = n)) as [->|Hm].
    + rewrite fn_lookup_insert, (decide_True (P:=n ∈ n :: ns)) by left. case_decide; [apply pruned_idemp|done].
    + rewrite fn_lookup_insert_ne by done. do 2 case_decide; set_solver.
Qed.

(** Pruning keeps, of the replicas of the membership, what has not expired. *)
Lemma prune_all_synced mg pending retained ttl_secs now_secs io :
  synced mg pending -> (forall n, good_prune (io n)) ->
  synced (prune_all_expired encode decode crc32 mg retained ttl_secs now_secs io).2
    (fun n => pruned retained ttl_secs now_secs n (pending n)).
Proof using crc32_range.
  intros Hs Hio. unfold prune_all_expired.
  pose proof (prune_loop_synced retained ttl_secs now_secs io (prune_order mg) (O, no_drops, mg) pending Hs Hio) as H.
  destruct (foldl _ _ _) as [[total ds] mg']. cbn [snd] in *. intros n. rewrite target_of_count. revert n.
  eapply synced_ext; [|exact H]. intros n. cbn beta. case_decide as Hn; [done|].
  enough (pending n = []) as -> by (unfold pruned; by destruct (retained n)).
  destruct (prune_handle_files _ _ (proj1 (Hs n))) as [[_ ?]|Hh]; [done|exfalso]. apply Hn.
  unfold prune_order, prune_handle, target_of in *. destruct (mg_targets mg !! n) as [t|] eqn:Ht; [|done].
  cbn [default from_option id] in Hh. apply elem_of_app. destruct (tg_open t) as [p|] eqn:Ho; [left|right];
    (apply list_elem_of_fmap; exists (n, t); split; [done|]; apply elem_of_map_to_list, map_lookup_filter_Some;
     split; [done|]); cbn [snd]; rewrite Ho; [done|]. split; [done|]. destruct (tg_file t); [eauto|done].
Qed.

Lemma replay_loop_synced heals pending l total mg :
  NoDup l.*1 ->
  (forall n t, (n, t) ∈ l -> file_ok t (pending n) /\ target_of mg n = t /\ tg_queue t = []) ->
  exists total' mg', foldl (replay_file decode crc32 heals) (Some (total, mg)) l = Some (total', mg') /\
    (forall n, n ∈ l.*1 -> file_ok (target_of mg' n) (pending n) /\ tg_queue (target_of mg' n) = spans 0 (pending n)) /\
    (forall n, n ∉ l.*1 -> target_of mg' n = target_of mg n).
Proof using crc32_range.
  revert total mg. induction l as [|[n t] l IH]; intros total mg Hnd Hl; cbn [foldl fmap list_fmap fst] in *.
  - do 2 eexists. split; [done|]. split; [by intros ? ?%elem_of_nil|done].
  - apply NoDup_cons in Hnd as [Hn Hnd]. destruct (Hl n t ltac:(left)) as (Hf & Ht & Hq).
    assert (exists total1 mg1, replay_file decode crc32 heals (Some (total, mg)) (n, t) = Some (total1, mg1) /\
      file_ok (target_of mg1 n) (pending n) /\ tg_queue (target_of mg1 n) = spans 0 (pending n) /\
      forall m, m <> n -> target_of mg1 m = target_of mg m) as (total1 & mg1 & -> & Hf1 & Hq1 & Ho1).
    { cbn [replay_file fst snd mbind option_bind]. destruct (tg_file t) as [file|] eqn:Hfile.
      - pose proof (fo_file _ _ Hf) as Hff. rewrite Hfile in Hff. cbn in Hff. rewrite Hff.
        pose proof (fo_records _ _ Hf) as Hr. rewrite (replay_frames encode decode) by (done || by apply hints_good_ok).
        do 2 eexists. split; [done|]. rewrite target_of_set, decide_True by done. split; [by apply file_ok_put|].
        cbn. rewrite Ht, Hq. split; [done|]. intros m Hm. by rewrite target_of_set, decide_False.
      - do 2 eexists. split; [done|]. rewrite Ht. split; [done|]. split; [|done].
        destruct (prune_handle_files _ _ Hf) as [[_ ->]|Hh]; [done|]. unfold prune_handle in Hh.
        by rewrite (fo_closed _ _ Hf Hfile), Hfile in Hh. }
    destruct (IH total1 mg1 Hnd) as (total' & mg' & -> & Hin & Hout).
    { intros m t' Hm. assert (m <> n) by (intros ->; apply Hn, list_elem_of_fmap; by exists (n, t')).
      rewrite Ho1 by done. apply Hl. by right. }
    do 2 eexists. split; [done|]. split.
    + intros m [->|Hm]%elem_of_cons; [|by apply Hin]. by rewrite (Hout n Hn).
    + intros m [Hm1 Hm2]%not_elem_of_cons. by rewrite (Hout m Hm2), Ho1.
Qed.

(** A restart finds the pending hints in the files. *)
Lemma restart_synced mg pending heals :
  all_files mg pending ->
  exists total mg', replay_and_enqueue decode crc32 (crash mg) heals = Some (total, mg') /\ synced mg' pending.
Proof using crc32_range.
  intros Hs. unfold replay_and_enqueue.
  assert (forall n, target_of (crash mg) n = let t := target_of mg n in
    {| tg_queue := []; tg_file := tg_file t; tg_open := None; tg_access := None; tg_bytes := None |}) as Hc.
  { intros n. unfold target_of, crash. cbn [mg_targets]. rewrite lookup_fmap. by destruct (mg_targets mg !! n). }
  assert (forall n, file_ok (target_of (crash mg) n) (pending n)) as Hcf.
  { intros n. rewrite Hc. destruct (Hs n) as []. by split. }
  destruct (replay_loop_synced heals pending (map_to_list (mg_targets (crash mg))) 0 (crash mg)) as (total & mg' & -> & Hin & Hout).
  { apply NoDup_fst_map_to_list. }
  { intros n t Ht%elem_of_map_to_list. assert (target_of (crash mg) n = t) as <- by (unfold target_of; by rewrite Ht).
    split; [done|]. split; [done|]. by rewrite Hc. }
  do 2 eexists. split; [done|]. intros n. destruct (decide (n ∈ (map_to_list (mg_targets (crash mg))).*1)) as [H|H]; [by apply Hin|].
  rewrite Hout by done. split; [done|].
  destruct (prune_handle_files _ _ (Hcf n)) as [[_ ->]|Hh]; [by rewrite Hc|]. exfalso. apply H.
  unfold prune_handle, target_of in Hh. destruct (mg_targets (crash mg) !! n) as [t|] eqn:Ht; [|done].
  apply list_elem_of_fmap. exists (n, t). split; [done|]. by apply elem_of_map_to_list.
Qed.

(** ** Runs *)

Inductive handoff_op :=
  | OpEnqueue (r : HintRecord) (now now_secs : Z)
  | OpDeliver (n : NodeId) (address : bool) (answer : list HintRecord -> option (list Z)) (now : Z) (io : rewrite_io)
  | OpPrune (retained : NodeId -> bool) (ttl_secs now_secs : Z) (io : NodeId -> prune_io)
  | OpRestart (heals : NodeId -> bool).

Definition run_op (mg : Manager) (op : handoff_op) : Manager :=
  match op with
  | OpEnqueue r now now_secs => (enqueue encode crc32 mg r now now_secs true Written).2
  | OpDeliver n address answer now io => (drain_and_deliver encode decode crc32 cfg mg n address answer now io).2
  | OpPrune retained ttl_secs now_secs io => (prune_all_expired encode decode crc32 mg retained ttl_secs now_secs io).2
  | OpRestart heals => from_option snd (crash mg) (replay_and_enqueue decode crc32 (crash mg) heals)
  end.

(** The file operations succeed, and the records can be stored. *)
Definition op_ok (op : handoff_op) : Prop :=
  match op with
  | OpEnqueue r _ now_secs => hint_good (stamp r now_secs)
  | OpDeliver _ _ _ _ io => good_rewrite io
  | OpPrune _ _ _ io => forall n, good_prune (io n)
  | OpRestart _ => True
  end.

(** The answer of the receiver to the next batch of a replica. *)
Definition answered (pending : NodeId -> list HintRecord) (n : NodeId) (address : bool)
    (answer : list HintRecord -> option (list Z)) : option (gset Z) :=
  if address then list_to_set <$> answer (take (batch_of (pending n)) (pending n)) else None.

Definition spec_op (pending : NodeId -> list HintRecord) (op : handoff_op) : NodeId -> list HintRecord :=
  match op with
  | OpEnqueue r _ now_secs =>
      match intended_for r with
      | Some n => <[n := pending n ++ [stamp r now_secs]]> pending
      | None => pending
      end
  | OpDeliver n address answer _ _ =>
      match answered pending n address answer with
      | Some retry => delivered_pending pending n retry
      | None => pending
      end
  | OpPrune retained ttl_secs now_secs _ => fun n => pruned retained ttl_secs now_secs n (pending n)
  | OpRestart _ => pending
  end.

Lemma delivered_pending_empty pending n retry m :
  take (batch_of (pending n)) (pending n) = [] -> delivered_pending pending n retry m = pending m.
Proof.
  intros Hb. unfold delivered_pending. rewrite Hb. cbn. rewrite app_nil_r.
  destruct (decide (m = n)) as [->|]; [|by rewrite fn_lookup_insert_ne]. rewrite fn_lookup_insert.
  by rewrite <- (take_drop (batch_of (pending n)) (pending n)) at 3; rewrite Hb.
Qed.

Lemma run_op_synced mg pending op : synced mg pending -> op_ok op -> synced (run_op mg op) (spec_op pending op).
Proof using crc32_range.
  intros Hs Hok. destruct op as [r now now_secs|n address answer now io|retained ttl_secs now_secs io|heals]; cbn [run_op spec_op op_ok] in *.
  - destruct (intended_for r) as [n|] eqn:Hn; [|by unfold enqueue; rewrite Hn].
    destruct (enqueue_synced mg pending r n now now_secs Hs Hn Hok) as (mg' & -> & H). exact H.
  - destruct (decide (take (batch_of (pending n)) (pending n) = [])) as [Hb|Hb].
    { destruct (deliver_empty mg pending n address answer now io Hs Hb) as (mg' & -> & H). cbn [snd].
      destruct (answered _ _ _ _); [|done]. eapply synced_ext; [|exact H]. intros m. by rewrite delivered_pending_empty. }
    unfold answered. destruct address; [destruct (answer _) as [retry|] eqn:Ha|]; cbn [fmap option_fmap option_map].
    + destruct (deliver_answered mg pending n answer retry now io Hs Hok Hb Ha) as (mg' & -> & H & _). exact H.
    + destruct (deliver_failed mg pending n true answer now io Hs Hb ltac:(by right)) as (e & mg' & -> & H). exact H.
    + destruct (deliver_failed mg pending n false answer now io Hs Hb ltac:(by left)) as (e & mg' & -> & H). exact H.
  - by apply prune_all_synced.
  - destruct (restart_synced mg pending heals) as (total & mg' & -> & H); [intros n; apply Hs|exact H].
Qed.

Definition new_manager : Manager :=
  {| mg_targets := ∅; mg_stored := 0; mg_delivered := 0; mg_expired := 0; mg_enqueue_failed := 0; mg_dropped := 0 |}.

Lemma new_manager_synced : synced new_manager (fun _ => []).
Proof. intros n. unfold target_of. cbn. rewrite lookup_empty. cbn. split; [by split|done]. Qed.

Lemma run_synced ops mg pending :
  synced mg pending -> Forall op_ok ops -> synced (foldl run_op mg ops) (foldl spec_op pending ops).
Proof using crc32_range.
  intros Hs Hok. revert mg pending Hs. induction Hok as [|op ops Hop _ IH]; intros mg pending Hs; cbn [foldl]; [done|].
  by apply IH, run_op_synced.
Qed.

(** ** Where the hints go *)

Definition hints (mg : Manager) (n : NodeId) : list HintRecord := snd <$> tg_queue (target_of mg n).

Lemma synced_hints mg pending n : synced mg pending -> hints mg n = pending n.
Proof. intros Hs. unfold hints. rewrite (proj2 (Hs n)). apply spans_records. Qed.

(** A hint up to its attempt count. *)
Definition forget (r : HintRecord) : HintRecord := with_attempts r 0.

(** The hints for [n] that an operation adds, and those that it takes away:
    confirmed by the receiver, given up after the last attempt, expired, or of
    a replica that is no longer a member. *)
Definition added_by (op : handoff_op) (n : NodeId) : list HintRecord :=
  match op with
  | OpEnqueue r _ now_secs => if decide (intended_for r = Some n) then [stamp r now_secs] else []
  | _ => []
  end.

Definition settled_by (pending : NodeId -> list HintRecord) (op : handoff_op) (n : NodeId) : list HintRecord :=
  match op with
  | OpDeliver m address answer _ _ =>
      match answered pending m address answer with
      | Some retry =>
          if decide (m = n) then
            let batch := take (batch_of (pending n)) (pending n) in confirmed retry 0 batch ++ given_up retry 0 batch
          else []
      | None => []
      end
  | OpPrune retained ttl_secs now_secs _ =>
      if retained n then filter (fun r => hint_expired ttl_secs now_secs r = true) (pending n) else pending n
  | _ => []
  end.

Fixpoint settled (mg : Manager) (ops : list handoff_op) (n : NodeId) : list HintRecord :=
  match ops with
  | [] => []
  | op :: ops => settled_by (hints mg) op n ++ settled (run_op mg op) ops n
  end.

Lemma batch_split retry k rs :
  forget <$> rs ≡ₚ (forget <$> retried retry k rs) ++ (forget <$> (confirmed retry k rs ++ given_up retry k rs)).
Proof.
  revert k. induction rs as [|r rs IH]; intros k; [done|]. unfold retried, confirmed, given_up in *.
  rewrite !select_cons. cbn [fmap list_fmap]. rewrite (IH (S k)).
  destruct (in_retry retry k); [destruct (exhausted r)|]; cbn [andb negb app]; rewrite !fmap_app;
    cbn [app fmap list_fmap]; rewrite ?fmap_app, <- ?Permutation_middle; reflexivity.
Qed.

Lemma settled_by_ext pending pending' op n :
  (forall m, pending m = pending' m) -> settled_by pending op n = settled_by pending' op n.
Proof.
  intros He. destruct op as [?|m address answer ? ?|?|?]; cbn [settled_by]; unfold answered; rewrite ?He; try done.
Qed.

Lemma op_conserves pending op n :
  forget <$> (pending n ++ added_by op n) ≡ₚ forget <$> (spec_op pending op n ++ settled_by pending op n).
Proof.
  destruct op as [r now now_secs|m address answer now io|retained ttl_secs now_secs io|heals];
    cbn [added_by spec_op settled_by]; rewrite ?app_nil_r.
  - destruct (intended_for r) as [m|] eqn:Hm; [|by rewrite decide_False, app_nil_r].
    destruct (decide (m = n)) as [->|Hmn].
    + by rewrite fn_lookup_insert, decide_True.
    + by rewrite fn_lookup_insert_ne, decide_False, app_nil_r by congruence.
  - destruct (answered pending m address answer) as [retry|]; [|by rewrite app_nil_r]. unfold delivered_pending.
    case_decide as Hmn; [subst m; rewrite fn_lookup_insert|by rewrite fn_lookup_insert_ne, app_nil_r].
    set (k := batch_of (pending n)). cbv zeta. rewrite <- (take_drop k (pending n)) at 1.
    rewrite fmap_app, (batch_split retry 0 (take k (pending n))), Permutation_app_comm, !fmap_app, <- app_assoc. done.
  - unfold pruned. destruct (retained n); [|done]. rewrite !fmap_app, <- fmap_app. apply fmap_Permutation.
    induction (pending n) as [|r rs IH]; [done|]. destruct (hint_expired ttl_secs now_secs r) eqn:E.
    + rewrite filter_cons_False, filter_cons_True by congruence. rewrite <- Permutation_middle. by constructor.
    + rewrite filter_cons_True, filter_cons_False by congruence. by constructor.
  - done.
Qed.

Lemma run_conserves ops mg pending n :
  synced mg pending -> Forall op_ok ops ->
  forget <$> (pending n ++ (ops ≫= fun op => added_by op n))
  ≡ₚ forget <$> (hints (foldl run_op mg ops) n ++ settled mg ops n).
Proof using crc32_range.
  intros Hs Hok. revert mg pending Hs. induction Hok as [|op ops Hop _ IH]; intros mg pending Hs;
    cbn [foldl settled mbind list_bind].
  - by rewrite (synced_hints mg pending n Hs).
  - rewrite app_assoc, fmap_app, (op_conserves pending op n), !fmap_app.
    rewrite (settled_by_ext (hints mg) pending op n) by (intros m; by apply synced_hints).
    specialize (IH (run_op mg op) (spec_op pending op) (run_op_synced mg pending op Hs Hop)).
    rewrite !fmap_app in IH. rewrite <- app_assoc, (Permutation_app_comm (forget <$> settled_by _ _ _)), app_assoc, IH.
    rewrite <- app_assoc. apply Permutation_app_head, Permutation_app_comm.
Qed.

(** ** Retries end *)

Definition weight (r : HintRecord) : nat := Z.to_nat (max_delivery_attempts cfg + 1 - hr_attempts r).
Definition weights (rs : list HintRecord) : nat := foldr plus 0%nat (weight <$> rs).

(** Every hint fits a batch and has not been tried too often. *)
Definition deliverable (r : HintRecord) : Prop :=
  record_payload_bytes r <= max_batch_bytes cfg /\ 0 <= hr_attempts r <= max_delivery_attempts cfg.

Lemma weights_app rs rs' : weights (rs ++ rs') = (weights rs + weights rs')%nat.
Proof. unfold weights. induction rs as [|r rs IH]; cbn in *; [done|]. rewrite IH. lia. Qed.

Lemma batch_len_le size batch (queue : list Item) : (size <= batch_len cfg size batch queue)%nat.
Proof.
  revert size batch. induction queue as [|i queue IH]; intros size batch; cbn [batch_len]; [done|].
  destruct (_ <=? _)%nat; [done|]. destruct (_ <? _); [done|]. specialize (IH (S size) (batch + record_payload_bytes i.2)). lia.
Qed.

Lemma batch_nonempty rs :
  (0 < max_batch_size cfg)%nat -> rs <> [] -> Forall deliverable rs -> take (batch_of rs) rs <> [].
Proof.
  intros Hsz Hne Hd. destruct rs as [|r rs]; [done|]. apply Forall_cons in Hd as [[Hp _] _].
  unfold batch_of. cbn [fmap list_fmap batch_len snd]. destruct (Nat.leb_spec (max_batch_size cfg) 0); [lia|].
  rewrite (proj2 (Z.ltb_ge _ _)) by lia.
  match goal with |- context [batch_len cfg ?s ?b ?q] =>
    pose proof (batch_len_le s b q); by destruct (batch_len cfg s b q); [lia|] end.
Qed.

Lemma retried_weights retry k rs :
  max_delivery_attempts cfg < u32_max -> Forall deliverable rs -> 
  (weights (retried retry k rs) + length rs <= weights rs)%nat /\ Forall deliverable (retried retry k rs).
Proof.
  intros Hmax Hd. revert k. induction Hd as [|r rs [Hp Ha] _ IH]; intros k; [done|]. unfold retried in *.
  rewrite select_cons, weights_app. destruct (IH (S k)) as [H1 H2]. cbn [length].
  change (r :: rs) with ([r] ++ rs). rewrite weights_app.
  assert (1 <= weights [r])%nat as Hw by (unfold weights, weight; cbn; lia).
  destruct (in_retry retry k && negb (exhausted r)) eqn:E; [|change (weights []) with 0%nat; split; [lia|done]].
  apply andb_true_iff in E as [_ E%negb_true_iff]. unfold exhausted, bump in E. cbn [with_attempts hr_attempts] in E.
  apply Z.ltb_ge in E. split.
  - assert (weights [bump r] + 1 <= weights [r])%nat; [|lia]. unfold weights, weight, bump. cbn. unfold_ints. lia.
  - apply Forall_app_2; [|done]. apply Forall_singleton. split; [done|]. unfold bump. cbn. unfold_ints. lia.
Qed.

(** A delivery that the receiver answers takes at least one attempt. *)
Lemma delivery_progress mg pending n answer now io :
  synced mg pending -> good_rewrite io -> (0 < max_batch_size cfg)%nat -> max_delivery_attempts cfg < u32_max ->
  Forall deliverable (pending n) -> (forall b, is_Some (answer b)) ->
  exists pending', synced (run_op mg (OpDeliver n true answer now io)) pending' /\ Forall deliverable (pending' n) /\
    (weights (pending' n) <= weights (pending n) - 1)%nat.
Proof using crc32_range.
  intros Hs Hio Hsz Hmax Hd Hans. exists (spec_op pending (OpDeliver n true answer now io)).
  split; [by apply run_op_synced|]. cbn [spec_op]. unfold answered, delivered_pending.
  destruct (Hans (take (batch_of (pending n)) (pending n))) as [retry ->]. cbn [fmap option_fmap option_map].
  rewrite fn_lookup_insert. set (k := batch_of (pending n)).
  destruct (retried_weights (list_to_set retry) 0 (take k (pending n)) Hmax) as [Hw Hr]; [by apply Forall_take|].
  split; [apply Forall_app_2; [by apply Forall_drop|done]|]. rewrite weights_app.
  rewrite <- (take_drop k (pending n)) at 3. rewrite weights_app.
  destruct (decide (pending n = [])) as [He|He]; [rewrite He in *; destruct k; cbn in *; lia|].
  pose proof (batch_nonempty (pending n) Hsz He Hd) as Hb. fold k in Hb.
  destruct (take k (pending n)); [done|]. cbn [length] in Hw. lia.
Qed.

(** ** Concurrent tasks *)

Lemma drop_spans start rs k :
  drop k (spans start rs) = spans (start + Z.of_nat (length (frames (take k rs)))) (drop k rs).
Proof.
  assert (spans start rs = spans start (take k rs) ++ spans (start + Z.of_nat (length (frames (take k rs)))) (drop k rs)) as H
    by (by rewrite <- spans_app, take_drop).
  rewrite H, <- take_spans, drop_app_ge; rewrite length_take, length_spans; [|lia].
  destruct (decide (k <= length rs)%nat); [by replace (k - k `min` length rs)%nat with 0%nat by lia|].
  rewrite (drop_ge rs) by lia. cbn. by rewrite drop_nil.
Qed.

(** The second batch of a replica while the first is on its way. *)
Lemma second_batch mg pending n :
  synced mg pending ->
  let k1 := batch_of (pending n) in let k2 := batch_of (drop k1 (pending n)) in
  exists mg2, drain_batch cfg (drain_batch cfg mg n).2 n
    = (spans (Z.of_nat (length (frames (take k1 (pending n))))) (take k2 (drop k1 (pending n))), mg2) /\
    all_files mg2 pending.
Proof.
  intros Hs k1 k2. rewrite (drain_batch_synced mg pending n Hs). cbn [snd]. destruct (Hs n) as [Hf Hq].
  unfold drain_batch. rewrite target_of_set, decide_True by done. cbn [set_queue tg_queue].
  rewrite batch_len_records, Hq, drop_spans, spans_records, Z.add_0_l. fold k1. fold (batch_of (drop k1 (pending n))). fold k2.
  rewrite take_spans. eexists. split; [done|]. intros m. rewrite !target_of_set.
  case_decide; [subst|apply Hs]. do 2 apply file_ok_queue. apply Hs.
Qed.

(** Nothing is left to do for a batch that is confirmed. *)
Lemma settle_none (items : list Item) :
  settle cfg ∅ items = {| sd_requeue := []; sd_dropped := 0; sd_drops := no_drops |}.
Proof.
  unfold settle. induction (imap pair items) as [|[j [[a b] r]] l IH]; [done|]. cbn [foldl settle_item].
  by rewrite decide_False by apply not_elem_of_empty.
Qed.

Lemma rebuild_fails w rs ios :
  (forall i, exists j, ios i = WriteFails j) -> exists w', rebuild encode crc32 w rs ios = ([], w').
Proof.
  revert w ios. induction rs as [|r rs IH]; intros w ios Hio; cbn [rebuild]; [by eexists|].
  destruct (Hio O) as [j ->]. cbn [write_hint]. apply IH. intros i. apply Hio.
Qed.
End pending.

(** ** The promises *)

(** C5: the manager is a durable queue of hints per replica, for operations
    that run one at a time and whose file operations succeed. After every
    sequence of enqueues, deliveries (whatever the receiver answers, or none),
    prunes and crashes followed by a restart, each of which starts when the one
    before is complete and whose writes to the log all succeed, the queue of
    each replica and the frames of its log are exactly the hints pending in the
    abstract queue. What happens outside these conditions is in
    [failed_rewrite_loses_hints], [overlapping_deliveries_lose_hints] and
    [reclaim_race_loses_hint]. *)
Theorem handoff_refines (encode : HintRecord -> bytes) (decode : bytes -> option HintRecord) (crc32 : bytes -> Z)
    cfg (ops : list handoff_op) (n : NodeId) :
  (forall bs, is_u32 (crc32 bs)) -> Forall (op_ok encode decode) ops ->
  let mg := foldl (run_op encode decode crc32 cfg) new_manager ops in
  let pending := foldl (spec_op cfg) (fun _ => []) ops in
  tg_queue (target_of mg n) = spans encode crc32 0 (pending n) /\
  default [] (tg_file (target_of mg n)) = frames encode crc32 (pending n).
Proof.
  intros Hcrc Hok mg pending.
  destruct (run_synced encode decode crc32 cfg Hcrc ops new_manager (fun _ => []) (new_manager_synced _ _ _) Hok n)
    as [[] Hq]. done.
Qed.

(** C13: no hint is lost by operations that run one at a time and whose writes
    to the log succeed: in every run of enqueues, deliveries, prunes and crashes
    between them, what was enqueued for a replica is, up to order and attempt
    counts, what is still pending for it together with what a receiver
    confirmed, what was given up after the last attempt, what expired, and what
    was owed to a replica that left. *)
Theorem hints_are_conserved (encode : HintRecord -> bytes) (decode : bytes -> option HintRecord) (crc32 : bytes -> Z)
    cfg (ops : list handoff_op) (n : NodeId) :
  (forall bs, is_u32 (crc32 bs)) -> Forall (op_ok encode decode) ops ->
  let mg := foldl (run_op encode decode crc32 cfg) new_manager ops in
  forget <$> (ops ≫= fun op => added_by op n)
  ≡ₚ forget <$> (hints mg n ++ settled encode decode crc32 cfg new_manager ops n).
Proof.
  intros Hcrc Hok mg. apply (run_conserves encode decode crc32 cfg Hcrc ops new_manager (fun _ => []) n
    (new_manager_synced _ _ _) Hok).
Qed.

(** C20: deliveries to a replica come to an end whatever it answers. When the
    replica answers every call, every pending hint fits a batch by its size and
    has an attempt left, and the rewrites of the log succeed, the number of
    attempts left bounds the number of deliveries after which nothing is
    pending, nothing being enqueued meanwhile. A hint that does not fit a batch
    is the case of [large_hint_blocks_queue]. *)
Theorem deliveries_end (encode : HintRecord -> bytes) (decode : bytes -> option HintRecord) (crc32 : bytes -> Z)
    cfg mg pending n (ds : list ((list HintRecord -> option (list Z)) * Z * rewrite_io)) :
  (forall bs, is_u32 (crc32 bs)) -> synced encode decode crc32 mg pending ->
  (0 < max_batch_size cfg)%nat -> max_delivery_attempts cfg < u32_max -> Forall (deliverable cfg) (pending n) ->
  Forall (fun d => (forall b, is_Some (d.1.1 b)) /\ good_rewrite d.2) ds -> (weights cfg (pending n) <= length ds)%nat ->
  hints (foldl (fun mg d => run_op encode decode crc32 cfg mg (OpDeliver n true d.1.1 d.1.2 d.2)) mg ds) n = [].
Proof.
  intros Hcrc Hs Hsz Hmax Hd Hds. revert mg pending Hs Hd.
  induction Hds as [|[[answer now] io] ds [Ha Hio] _ IH]; intros mg pending Hs Hd Hlen; cbn [foldl].
  - rewrite (synced_hints _ _ _ mg pending n Hs). destruct (pending n) as [|r rs]; [done|].
    apply Forall_cons in Hd as [[_ Hr] _]. unfold weights, weight in Hlen. cbn in Hlen. lia.
  - destruct (delivery_progress encode decode crc32 cfg Hcrc mg pending n answer now io Hs Hio Hsz Hmax Hd Ha)
      as (pending' & Hs' & Hd' & Hw). cbn [fst snd length] in *. apply (IH _ pending'); [done|done|lia].
Qed.

(** a hint that alone exceeds the byte limit of a batch blocks the queue of
    its replica: every delivery succeeds with nothing delivered and leaves the
    hint, and all those behind it, where they are. *)
Theorem large_hint_blocks_queue (encode : HintRecord -> bytes) (decode : bytes -> option HintRecord)
    (crc32 : bytes -> Z) cfg mg pending n r rs address answer now io :
  synced encode decode crc32 mg pending -> pending n = r :: rs -> max_batch_bytes cfg < record_payload_bytes r ->
  let '(res, ds, mg') := drain_and_deliver encode decode crc32 cfg mg n address answer now io in
  res = Ok 0 /\ ds = no_drops /\ hints mg' n = r :: rs.
Proof.
  intros Hs Hn Hbig. destruct (deliver_empty encode decode crc32 cfg mg pending n address answer now io Hs) as (mg' & -> & H).
  { rewrite Hn. unfold batch_of. cbn [fmap list_fmap batch_len snd]. rewrite (proj2 (Z.ltb_lt _ _)) by lia. by case_match. }
  split_and!; [done|done|]. by rewrite (synced_hints _ _ _ mg' pending n H).
Qed.

(** when the disk refuses the writes of the rewrite that follows a
    delivery, every hint that was still pending for the replica is gone, from
    the queue and from the disk; none is counted as dropped. *)
Theorem failed_rewrite_loses_hints (encode : HintRecord -> bytes) (decode : bytes -> option HintRecord)
    (crc32 : bytes -> Z) cfg mg pending n answer now io :
  let batch := take (batch_of cfg (pending n)) (pending n) in
  (forall bs, is_u32 (crc32 bs)) -> synced encode decode crc32 mg pending -> batch <> [] -> answer batch = Some [] ->
  rw_opens io = true -> rw_clears io = true -> (forall i, exists j, rw_writes io i = WriteFails j) ->
  let '(res, ds, mg') := drain_and_deliver encode decode crc32 cfg mg n true answer now io in
  res = Ok (wrap64 (Z.of_nat (length batch))) /\ hints mg' n = [] /\ tg_file (target_of mg' n) = None /\
  ds = no_drops /\ mg_dropped mg' = mg_dropped mg.
Proof.
  intros batch Hcrc Hs Hb Ha Ho Hc Hw. unfold drain_and_deliver. rewrite (drain_batch_synced encode decode crc32 cfg mg pending n Hs).
  fold batch. destruct (spans encode crc32 0 batch) as [|i items] eqn:Hi; [by destruct batch|].
  rewrite <- Hi, spans_records, Ha. unfold complete_delivery. cbn [list_to_set]. rewrite size_empty, Z.sub_0_r, length_spans.
  rewrite settle_none. cbn [sd_requeue sd_dropped sd_drops]. set (mg1 := set_target _ _ _).
  assert (all_files encode decode crc32 mg1 pending) as Hf1.
  { subst mg1. intros m. rewrite target_of_set. case_decide; [subst; apply file_ok_queue|]; apply Hs. }
  pose proof (rewrite_dropped encode decode crc32 mg1 n
    (match last (spans encode crc32 0 batch) with Some i => i.1.2 | None => 0 end) [] now io) as Hd.
  unfold rewrite_after_partial, rewrite_locked in *.
  destruct (get_or_open_files encode decode crc32 mg1 pending n now Hf1) as (mg2 & Hopen & Hf2 & Hq2).
  rewrite Ho, Hopen in *. rewrite (replay_frames encode decode) in * by (done || apply hints_good_ok, (fo_records _ _ _ _ _ (Hf2 n))).
  rewrite Hc in *. cbn [truncate_after] in *.
  match goal with |- context [rebuild ?e ?c ?w ?rs ?ios] => destruct (rebuild_fails e c w rs ios Hw) as [w' Hr] end.
  rewrite Hr in *. cbn [fst snd]. unfold hints, reclaim in *. rewrite target_of_count, !target_of_set, !decide_True by done.
  split_and!; try done. subst mg1. cbn [count set_target mg_dropped] in *. lia.
Qed.

(** two deliveries to one replica that overlap lose hints: when the second
    batch is confirmed while the first is still on its way, the rewrite drops
    both from the log, so a crash at that moment loses the first batch. *)
Theorem overlapping_deliveries_lose_hints (encode : HintRecord -> bytes) (decode : bytes -> option HintRecord)
    (crc32 : bytes -> Z) cfg mg pending n now io heals :
  let first := take (batch_of cfg (pending n)) (pending n) in
  let rest := drop (batch_of cfg (pending n)) (pending n) in
  let second := take (batch_of cfg rest) rest in
  (forall bs, is_u32 (crc32 bs)) -> synced encode decode crc32 mg pending -> good_rewrite io -> second <> [] ->
  let '(batch1, mg1) := drain_batch cfg mg n in
  let '(batch2, mg2) := drain_batch cfg mg1 n in
  let '(_, _, mg3) := complete_delivery encode decode crc32 cfg mg2 n batch2 [] now io in
  exists total mg4, replay_and_enqueue decode crc32 (crash mg3) heals = Some (total, mg4) /\
    snd <$> batch1 = first /\ snd <$> batch2 = second /\ pending n = first ++ second ++ hints mg4 n.
Proof.
  intros first rest second Hcrc Hs Hio Hb'. subst rest second.
  destruct (second_batch encode decode crc32 cfg mg pending n Hs) as (mg2 & H2 & Hf2).
  pose proof (drain_batch_synced encode decode crc32 cfg mg pending n Hs) as H1. cbv zeta in *.
  destruct (drain_batch cfg mg n) as [batch1 mg1]. injection H1 as -> ->. cbn [snd] in H2. rewrite H2.
  fold first in H2 |- *. set (k1 := batch_of cfg (pending n)) in *. set (k2 := batch_of cfg (drop k1 (pending n))) in *.
  unfold complete_delivery. cbn [list_to_set]. rewrite settle_none.
  rewrite last_span by done. cbn [sd_requeue sd_dropped sd_drops].
  assert (take (k1 + k2) (pending n) = first ++ take k2 (drop k1 (pending n))) as Htk.
  { by rewrite <- take_take_drop. }
  destruct (rewrite_files encode decode crc32 Hcrc mg2 pending n (k1 + k2) [] now io Hf2) as (HF & HQ & _); [|done|done|].
  { destruct k2; [done|lia]. }
  rewrite Htk, frames_app, length_app, Nat2Z.inj_add in HF. set (mg3 := rewrite_after_partial _ _ _ _ _ _ _ _ _) in *.
  destruct (restart_synced encode decode crc32 Hcrc (count 0 (wrap64 (Z.of_nat (length
      (spans encode crc32 (Z.of_nat (length (frames encode crc32 first))) (take k2 (drop k1 (pending n)))))
      - Z.of_nat (size (∅ : gset Z)))) 0 0 (Z.of_nat 0) mg3) _ heals HF) as (total & mg4 & -> & H4).
  do 2 eexists. do 2 (split; [done || apply spans_records|]). split; [apply spans_records|].
  rewrite (synced_hints _ _ _ mg4 _ n H4), fn_lookup_insert. cbn [fmap list_fmap].
  rewrite app_nil_r, app_assoc, <- Htk. by rewrite take_drop.
Qed.

(** the file of a log that has become empty is removed after the lock is
    released: a hint that is enqueued in between is acknowledged, but its log
    is removed with it, and a restart does not find it. *)
Theorem reclaim_race_loses_hint (encode : HintRecord -> bytes) (decode : bytes -> option HintRecord)
    (crc32 : bytes -> Z) mg pending n r now now_secs io heals :
  (forall bs, is_u32 (crc32 bs)) -> all_files encode decode crc32 mg pending -> good_rewrite io ->
  intended_for r = Some n ->
  let drained_end := Z.of_nat (length (frames encode crc32 (pending n))) in
  let '(empty, mg1) := rewrite_locked encode decode crc32 mg n drained_end [] now io in
  let '(res, mg2) := enqueue encode crc32 mg1 r now now_secs true Written in
  empty = true /\ res = Ok () /\ hints (reclaim mg2 n) n = [stamp r now_secs] /\
  exists total mg3, replay_and_enqueue decode crc32 (crash (reclaim mg2 n)) heals = Some (total, mg3) /\ hints mg3 n = [].
Proof.
  intros Hcrc Hf [Ho Hc Hw] Hr drained_end. subst drained_end. unfold rewrite_locked.
  destruct (get_or_open_files encode decode crc32 mg pending n now Hf) as (mg1 & Hopen & Hf1 & Hq1).
  rewrite Ho, Hopen, (replay_frames encode decode); [|done|apply hints_good_ok, (fo_records _ _ _ _ _ (Hf n))].
  pose proof (spans_survivors encode crc32 (pending n) (length (pending n))) as Hsv.
  rewrite take_ge, drop_ge in Hsv by done. rewrite Hsv, Hc. cbn [truncate_after fmap list_fmap HintWal.spans app rebuild].
  rewrite (truncate_empty encode crc32). unfold enqueue, get_or_open_node_wal. rewrite Hr.
  rewrite !target_of_set, !decide_True by done. cbn [set_queue put_wal wal_open hw_file hw_position tg_open tg_file default write_hint].
  rewrite !target_of_set, !decide_True by done. set (mg2 := count _ _ _ _ _ _).
  assert (all_files encode decode crc32 (reclaim mg2 n) (<[n := []]> pending)) as Hfr.
  { intros m. unfold reclaim. rewrite target_of_set. case_decide as Hm; [subst m; rewrite fn_lookup_insert; by split|].
    rewrite fn_lookup_insert_ne by done. subst mg2. rewrite target_of_count, !target_of_set, !decide_False by done. apply Hf1. }
  split_and!; [done|done| |].
  - unfold hints, reclaim. rewrite target_of_set, decide_True by done. subst mg2.
    by rewrite target_of_count, target_of_set, decide_True.
  - destruct (restart_synced encode decode crc32 Hcrc _ _ heals Hfr) as (total & mg3 & -> & H3).
    do 2 eexists. split; [done|]. by rewrite (synced_hints _ _ _ mg3 _ n H3), fn_lookup_insert.
Qed.

(** ** Witnesses *)

Definition sample_cfg : HintedHandoffConfig :=
  {| max_batch_size := 1; max_batch_bytes := 300; max_delivery_attempts := 1 |}.

Definition all_good : rewrite_io :=
  {| rw_opens := true; rw_heals := true; rw_clears := true; rw_writes := fun _ => Written |}.

Definition disk_full : rewrite_io :=
  {| rw_opens := true; rw_heals := true; rw_clears := true; rw_writes := fun _ => WriteFails 0 |}.

(** Two hints for node [a]. *)
Definition two_hints : list handoff_op :=
  [OpEnqueue (toy_hint x61 x01 0 0) 0 5; OpEnqueue (toy_hint x61 x02 0 0) 0 6].

(** One is delivered, one is refused; then a restart, and all expires. *)
Definition sample_handoff : list handoff_op :=
  two_hints ++ [OpDeliver [x61] true (fun _ => Some []) 0 all_good; OpDeliver [x61] true (fun _ => Some [0]) 0 all_good;
    OpRestart (fun _ => true);
    OpPrune (fun _ => true) 10 50 (fun _ => {| pn_heals := true; pn_writes := fun _ => Written; pn_heals_again := true |})].

Lemma toy_hint_good n k s a : is_u8 s -> is_u32 a -> hint_good toy_encode toy_decode (toy_hint n k s a).
Proof. intros Hs Ha. split; [done|]. intros a' Ha'. by apply (toy_hint_ok n k s a'). Qed.

Lemma all_good_ok : good_rewrite all_good.
Proof. by split. Qed.

Lemma two_hints_ok : Forall (op_ok toy_encode toy_decode) two_hints.
Proof. repeat constructor; cbn; try (unfold_ints; lia); intros; by apply (toy_hint_ok x61). Qed.

Lemma sample_handoff_ok : Forall (op_ok toy_encode toy_decode) sample_handoff.
Proof. apply Forall_app_2; [apply two_hints_ok|]. repeat constructor. Qed.

Abbreviation sample_run ops := (foldl (run_op toy_encode toy_decode toy_crc sample_cfg) new_manager ops).
Abbreviation sample_spec ops := (foldl (spec_op sample_cfg) (fun _ => []) ops).

Lemma two_hints_synced : synced toy_encode toy_decode toy_crc (sample_run two_hints) (sample_spec two_hints).
Proof. apply run_synced; [apply toy_crc_range|apply new_manager_synced|apply two_hints_ok]. Qed.

(** Of two hints the first is confirmed and the second refused; then a crash,
    and another hint after the restart. *)
Definition patient_cfg : HintedHandoffConfig :=
  {| max_batch_size := 1; max_batch_bytes := 300; max_delivery_attempts := 5 |}.

Definition crash_between : list handoff_op :=
  two_hints ++ [OpDeliver [x61] true (fun _ => Some []) 0 all_good; OpDeliver [x61] true (fun _ => Some [0]) 0 all_good;
    OpRestart (fun _ => true); OpEnqueue (toy_hint x61 x03 0 0) 0 7].

Lemma crash_between_ok : Forall (op_ok toy_encode toy_decode) crash_between.
Proof.
  apply Forall_app_2; [apply two_hints_ok|]. repeat constructor; cbn; try (unfold_ints; lia); intros; by apply (toy_hint_ok x61).
Qed.

Lemma handoff_refines_witness :
  let mg := foldl (run_op toy_encode toy_decode toy_crc patient_cfg) new_manager crash_between in
  let pending := foldl (spec_op patient_cfg) (fun _ => []) crash_between in
  pending [x61] = [toy_hint x61 x02 6 1; toy_hint x61 x03 7 0] /\
  tg_queue (target_of mg [x61]) = spans toy_encode toy_crc 0 (pending [x61]) /\
  default [] (tg_file (target_of mg [x61])) = frames toy_encode toy_crc (pending [x61]).
Proof.
  split; [vm_compute; reflexivity|].
  apply (handoff_refines toy_encode toy_decode toy_crc patient_cfg crash_between [x61] toy_crc_range crash_between_ok).
Defined.

Lemma hints_are_conserved_witness :
  forget <$> (sample_handoff ≫= fun op => added_by op [x61])
  ≡ₚ forget <$> (hints (sample_run sample_handoff) [x61]
       ++ settled toy_encode toy_decode toy_crc sample_cfg new_manager sample_handoff [x61]).
Proof.
  apply (hints_are_conserved toy_encode toy_decode toy_crc sample_cfg sample_handoff [x61] toy_crc_range sample_handoff_ok).
Defined.

Lemma two_hints_pending : sample_spec two_hints [x61] = [toy_hint x61 x01 5 0; toy_hint x61 x02 6 0].
Proof. vm_compute. reflexivity. Qed.

Lemma deliveries_end_witness :
  hints (foldl (fun mg d => run_op toy_encode toy_decode toy_crc sample_cfg mg (OpDeliver [x61] true d.1.1 d.1.2 d.2))
    (sample_run two_hints) (replicate 4 ((fun _ => Some [0; 1]), 0, all_good))) [x61] = [].
Proof.
  apply (deliveries_end toy_encode toy_decode toy_crc sample_cfg (sample_run two_hints) (sample_spec two_hints) [x61]
    (replicate 4 ((fun _ => Some [0; 1]), 0, all_good))).
  - apply toy_crc_range.
  - apply two_hints_synced.
  - cbn. lia.
  - cbn. unfold_ints. lia.
  - rewrite two_hints_pending. repeat constructor; cbn; lia.
  - apply Forall_replicate. split; [by eexists|apply all_good_ok].
  - rewrite two_hints_pending. vm_compute. lia.
Defined.

Lemma large_hint_blocks_queue_witness :
  let cfg := {| max_batch_size := 1; max_batch_bytes := 100; max_delivery_attempts := 1 |} in
  let '(res, ds, mg') := drain_and_deliver toy_encode toy_decode toy_crc cfg (sample_run two_hints) [x61] true
    (fun _ => Some []) 0 all_good in
  res = Ok 0 /\ ds = no_drops /\ hints mg' [x61] = [toy_hint x61 x01 5 0; toy_hint x61 x02 6 0].
Proof.
  apply (large_hint_blocks_queue toy_encode toy_decode toy_crc
    {| max_batch_size := 1; max_batch_bytes := 100; max_delivery_attempts := 1 |} (sample_run two_hints)
    (sample_spec two_hints) [x61] (toy_hint x61 x01 5 0) [toy_hint x61 x02 6 0]).
  - apply two_hints_synced.
  - apply two_hints_pending.
  - cbn. lia.
Defined.

Lemma failed_rewrite_loses_hints_witness :
  let '(res, ds, mg') := drain_and_deliver toy_encode toy_decode toy_crc sample_cfg (sample_run two_hints) [x61] true
    (fun _ => Some []) 0 disk_full in
  res = Ok (wrap64 (Z.of_nat (length (take (batch_of sample_cfg (sample_spec two_hints [x61])) (sample_spec two_hints [x61]))))) /\
  hints mg' [x61] = [] /\ tg_file (target_of mg' [x61]) = None /\ ds = no_drops /\
  mg_dropped mg' = mg_dropped (sample_run two_hints).
Proof.
  apply (failed_rewrite_loses_hints toy_encode toy_decode toy_crc sample_cfg (sample_run two_hints)
    (sample_spec two_hints) [x61] (fun _ => Some []) 0 disk_full).
  - apply toy_crc_range.
  - apply two_hints_synced.
  - by rewrite two_hints_pending.
  - done.
  - done.
  - done.
  - intros i. by exists 0%nat.
Defined.

Lemma overlapping_deliveries_lose_hints_witness :
  let '(batch1, mg1) := drain_batch sample_cfg (sample_run two_hints) [x61] in
  let '(batch2, mg2) := drain_batch sample_cfg mg1 [x61] in
  let '(_, _, mg3) := complete_delivery toy_encode toy_decode toy_crc sample_cfg mg2 [x61] batch2 [] 0 all_good in
  exists total mg4, replay_and_enqueue toy_decode toy_crc (crash mg3) (fun _ => true) = Some (total, mg4) /\
    snd <$> batch1 = [toy_hint x61 x01 5 0] /\ snd <$> batch2 = [toy_hint x61 x02 6 0] /\
    [toy_hint x61 x01 5 0; toy_hint x61 x02 6 0] = [toy_hint x61 x01 5 0] ++ [toy_hint x61 x02 6 0] ++ hints mg4 [x61].
Proof.
  apply (overlapping_deliveries_lose_hints toy_encode toy_decode toy_crc sample_cfg (sample_run two_hints)
    (sample_spec two_hints) [x61] 0 all_good (fun _ => true)).
  - apply toy_crc_range.
  - apply two_hints_synced.
  - apply all_good_ok.
  - by rewrite two_hints_pending.
Defined.

Lemma reclaim_race_loses_hint_witness :
  let '(empty, mg1) := rewrite_locked toy_encode toy_decode toy_crc new_manager [x61]
    (Z.of_nat (length (frames toy_encode toy_crc []))) [] 0 all_good in
  let '(res, mg2) := enqueue toy_encode toy_crc mg1 (toy_hint x61 x01 0 0) 0 5 true Written in
  empty = true /\ res = Ok () /\ hints (reclaim mg2 [x61]) [x61] = [stamp (toy_hint x61 x01 0 0) 5] /\
  exists total mg3, replay_and_enqueue toy_decode toy_crc (crash (reclaim mg2 [x61])) (fun _ => true)
    = Some (total, mg3) /\ hints mg3 [x61] = [].
Proof.
  apply (reclaim_race_loses_hint toy_encode toy_decode toy_crc new_manager (fun _ => []) [x61] (toy_hint x61 x01 0 0) 0 5
    all_good (fun _ => true)).
  - apply toy_crc_range.
  - intros n. apply (new_manager_synced toy_encode toy_decode toy_crc n).
  - apply all_good_ok.
  - done.
Defined.
