(* ===== verification/HintBuffer.v ===== *)
(** * The in-memory buffer of hints
      (crates/oceanfs-durability/src/hinted_handoff/mod.rs)

    The older form of hinted handoff keeps the hints, with their data, in a map
    from the unreachable replica to a vector. A handoff looks at the limits and
    stores the hint in two critical sections, so the buffer exceeds its limits
    by the handoffs in progress, and by no more ([hint_buffer_bounded],
    [overlapping_handoffs_exceed_limit]); a delivery that fails for some of the
    hints removes the wrong ones ([partial_delivery_drops_hints]). The outcome
    of each call to the replica and the clock are arguments; the counters are
    not modelled. *)

From Stdlib Require Import ZArith Lia Strings.Byte.
From stdpp Require Import base list gmap.
From S2P Require Import Prelude Hlc.

Set Default Proof Using "Type".
Local Open Scope Z_scope.

Definition MAX_PENDING_HINTS : nat := 100 * 100.
Definition MAX_HINTS_PER_NODE : nat := 10 * 100.

Record BufferedHint := {
  bh_intended_for : NodeId; bh_segment_id : bytes; bh_offset : Z; bh_length : Z; bh_timestamp : Hlc;
  bh_data : bytes; bh_stored_at_secs : Z }.

Record HintedHandoff := { hh_hints : gmap NodeId (list BufferedHint); hh_ttl_secs : Z }.

Definition set_hints (hh : HintedHandoff) (m : gmap NodeId (list BufferedHint)) : HintedHandoff :=
  {| hh_hints := m; hh_ttl_secs := hh_ttl_secs hh |}.

Definition buffered (hh : HintedHandoff) (n : NodeId) : list BufferedHint := default [] (hh_hints hh !! n).

Definition total_pending_count (hh : HintedHandoff) : nat :=
  foldr plus 0%nat (length <$> (map_to_list (hh_hints hh)).*2).

Definition unexpired (hh : HintedHandoff) (now_secs : Z) (h : BufferedHint) : bool :=
  saturating_sub now_secs (bh_stored_at_secs h) <? hh_ttl_secs hh.

(** The entries whose vector becomes empty are removed. *)
Definition expire_old_hints (hh : HintedHandoff) (now_secs : Z) : HintedHandoff :=
  if hh_ttl_secs hh =? 0 then hh else
  set_hints hh (omap (fun l =>
    match filter (fun h => unexpired hh now_secs h = true) l with [] => None | l => Some l end) (hh_hints hh)).

Inductive handoff_error := NodeFull | BufferFull.

(** The look at the limits, under the read lock. *)
Definition check_room (hh : HintedHandoff) (n : NodeId) : outcome handoff_error () :=
  if (MAX_HINTS_PER_NODE <=? length (buffered hh n))%nat then Err NodeFull
  else if (MAX_PENDING_HINTS <=? total_pending_count hh)%nat then Err BufferFull
  else Ok ().

(** The push, under the write lock. *)
Definition push_hint (hh : HintedHandoff) (n : NodeId) (entry : BufferedHint) : HintedHandoff :=
  set_hints hh (<[n := buffered hh n ++ [entry]]> (hh_hints hh)).

(** A handoff that has the buffer to itself. *)
Definition handoff (hh : HintedHandoff) (n : NodeId) (entry : BufferedHint) (now_secs : Z) :
    outcome handoff_error () * HintedHandoff :=
  let hh := expire_old_hints hh now_secs in
  match check_room hh n with
  | Ok _ => (Ok (), push_hint hh n entry)
  | Err e => (Err e, hh)
  | Panic => (Panic, hh)
  end.

(** [calls] are the outcomes of [deliver_single] for the hints in order. *)
Definition count_delivered (calls : list bool) : nat := length (filter (fun ok => ok = true) calls).

(** The removal at the end of a delivery, under the write lock. *)
Definition remove_delivered (hh : HintedHandoff) (n : NodeId) (delivered : nat) : HintedHandoff :=
  match delivered, hh_hints hh !! n with
  | O, _ | _, None => hh
  | _, Some pending =>
      match drop (Nat.min delivered (length pending)) pending with
      | [] => set_hints hh (delete n (hh_hints hh))
      | rest => set_hints hh (<[n := rest]> (hh_hints hh))
      end
  end.

(** A delivery that has the buffer to itself. *)
Definition deliver_buffered (hh : HintedHandoff) (n : NodeId) (now_secs : Z) (calls : BufferedHint -> bool) :
    nat * HintedHandoff :=
  let hh := expire_old_hints hh now_secs in
  let hints_to_deliver := buffered hh n in
  let delivered := count_delivered (calls <$> hints_to_deliver) in
  (delivered, remove_delivered hh n delivered).

(** ** Calls that overlap *)

(** The buffer, and the handoffs that found room and have not pushed yet. *)
Definition shared : Type := HintedHandoff * list (NodeId * BufferedHint).

(** The critical sections of calls that run at the same time, with at most
    [most] handoffs in progress. *)
Inductive buffer_step (most : nat) : shared -> shared -> Prop :=
| Expires hh w now_secs : buffer_step most (hh, w) (expire_old_hints hh now_secs, w)
| FindsRoom hh w n entry :
    check_room hh n = Ok () -> (length w < most)%nat -> buffer_step most (hh, w) (hh, w ++ [(n, entry)])
| Pushes hh w1 w2 n entry : buffer_step most (hh, w1 ++ (n, entry) :: w2) (push_hint hh n entry, w1 ++ w2)
| Removes hh w n delivered : buffer_step most (hh, w) (remove_delivered hh n delivered, w).

(** ** Limits *)

(** The limits, with [extra] hints more. *)
Record within_limits (extra : nat) (hh : HintedHandoff) : Prop := {
  wl_node : forall n, (length (buffered hh n) <= MAX_HINTS_PER_NODE + extra)%nat;
  wl_total : (total_pending_count hh <= MAX_PENDING_HINTS + extra)%nat }.

Definition sizes (m : gmap NodeId (list BufferedHint)) : nat := foldr plus 0%nat (length <$> (map_to_list m).*2).

Lemma sum_Permutation (l l' : list nat) : l ≡ₚ l' -> foldr plus 0%nat l = foldr plus 0%nat l'.
Proof. induction 1; cbn; lia. Qed.

Lemma sizes_insert_fresh m n l : m !! n = None -> sizes (<[n := l]> m) = (length l + sizes m)%nat.
Proof.
  intros Hn. unfold sizes. rewrite (sum_Permutation _ (length <$> ((n, l) :: map_to_list m).*2)); [done|].
  by rewrite map_to_list_insert.
Qed.

Lemma sizes_delete m n : (sizes (delete n m) + length (default [] (m !! n)) = sizes m)%nat.
Proof.
  destruct (m !! n) as [l|] eqn:Hn; [|by rewrite delete_id, Nat.add_0_r].
  rewrite <- (insert_delete_id m n l Hn) at 2. rewrite sizes_insert_fresh by apply lookup_delete_eq.
  cbn [default from_option id]. lia.
Qed.

Lemma sizes_insert m n l : (sizes (<[n := l]> m) + length (default [] (m !! n)) = sizes m + length l)%nat.
Proof.
  rewrite <- insert_delete_eq, sizes_insert_fresh by apply lookup_delete_eq. pose proof (sizes_delete m n). lia.
Qed.

Lemma sizes_omap (f : list BufferedHint -> option (list BufferedHint)) m :
  (forall l, (length (default [] (f l)) <= length l)%nat) -> (sizes (omap f m) <= sizes m)%nat.
Proof.
  intros Hf. induction m as [|n l m Hn IH] using map_ind; [by rewrite omap_empty|].
  rewrite sizes_insert_fresh by done. destruct (f l) as [l'|] eqn:E.
  - rewrite (omap_insert_Some _ _ _ _ l') by done.
    assert (omap f m !! n = None) as Ho by (by rewrite lookup_omap, Hn).
    rewrite sizes_insert_fresh by done. specialize (Hf l). rewrite E in Hf. cbn in Hf. lia.
  - rewrite omap_insert_None by done. pose proof (sizes_delete (omap f m) n). lia.
Qed.

Lemma kept_shorter hh now_secs l :
  (length (default [] (match filter (fun h => unexpired hh now_secs h = true) l with [] => None | l => Some l end))
   <= length l)%nat.
Proof.
  pose proof (length_filter (fun h => unexpired hh now_secs h = true) l). by destruct (filter _ l).
Qed.

(** [hh'] has at most the hints of [hh]. *)
Definition shrinks (hh hh' : HintedHandoff) : Prop :=
  (forall n, (length (buffered hh' n) <= length (buffered hh n))%nat) /\ (total_pending_count hh' <= total_pending_count hh)%nat.

Lemma shrinks_refl hh : shrinks hh hh.
Proof. by split. Qed.

Lemma expire_shrinks hh now_secs : shrinks hh (expire_old_hints hh now_secs).
Proof.
  unfold expire_old_hints. destruct (_ =? 0); [apply shrinks_refl|]. split.
  - intros n. unfold buffered. cbn [set_hints hh_hints]. rewrite lookup_omap.
    destruct (hh_hints hh !! n) as [l|]; cbn [mbind option_bind default from_option id]; [|done]. apply kept_shorter.
  - apply sizes_omap. intros l. apply kept_shorter.
Qed.

Lemma remove_shrinks hh n delivered : shrinks hh (remove_delivered hh n delivered).
Proof.
  unfold remove_delivered. destruct delivered as [|k]; [apply shrinks_refl|].
  destruct (hh_hints hh !! n) as [l|] eqn:El; [|apply shrinks_refl].
  set (rest := drop _ l). assert (length rest <= length l)%nat as Hr by (subst rest; rewrite length_drop; lia).
  clearbody rest. unfold shrinks, buffered, total_pending_count.
  destruct rest as [|h rest]; cbn [set_hints hh_hints]; split.
  - intros m. destruct (decide (m = n)) as [->|Hm]; [rewrite lookup_delete_eq; cbn; lia|by rewrite lookup_delete_ne].
  - pose proof (sizes_delete (hh_hints hh) n). unfold sizes in *. lia.
  - intros m. destruct (decide (m = n)) as [->|Hm]; [|by rewrite lookup_insert_ne]. by rewrite lookup_insert_eq, El.
  - pose proof (sizes_insert (hh_hints hh) n (h :: rest)) as H. rewrite El in H. cbn [default from_option id] in H. unfold sizes in *. lia.
Qed.

Lemma push_grows hh n entry :
  (forall m, length (buffered (push_hint hh n entry) m) = length (buffered hh m) + if decide (m = n) then 1 else 0)%nat /\
  (total_pending_count (push_hint hh n entry) = total_pending_count hh + 1)%nat.
Proof.
  unfold push_hint, buffered, total_pending_count. cbn [set_hints hh_hints]. split.
  - intros m. case_decide as Em; [subst m; rewrite lookup_insert_eq; cbn [default from_option id]; by rewrite length_app|].
    rewrite lookup_insert_ne by done. lia.
  - pose proof (sizes_insert (hh_hints hh) n (default [] (hh_hints hh !! n) ++ [entry])) as H. rewrite length_app in H.
    cbn [length] in H. unfold sizes in *. lia.
Qed.

(** The handoffs in progress for a replica. *)
Definition waiting (w : list (NodeId * BufferedHint)) (n : NodeId) : nat := length (filter (fun x => x.1 = n) w).

Lemma waiting_le w n : (waiting w n <= length w)%nat.
Proof. apply length_filter. Qed.

Lemma waiting_push w1 w2 n entry m :
  waiting (w1 ++ (n, entry) :: w2) m = (waiting (w1 ++ w2) m + if decide (m = n) then 1 else 0)%nat.
Proof.
  unfold waiting. rewrite !filter_app, filter_cons. cbn [fst].
  rewrite (decide_ext (n = m) (m = n)) by (split; congruence). case_decide; rewrite !length_app; cbn [length]; lia.
Qed.

(** Counted with the handoffs in progress the buffer exceeds its limits by less
    than the greatest number of them. *)
Record bounded_with (most : nat) (s : shared) : Prop := {
  bw_progress : (length s.2 <= most)%nat;
  bw_node n : (length (buffered s.1 n) + waiting s.2 n <= MAX_HINTS_PER_NODE + (most - 1))%nat;
  bw_total : (total_pending_count s.1 + length s.2 <= MAX_PENDING_HINTS + (most - 1))%nat }.

Lemma check_room_ok hh n :
  check_room hh n = Ok () -> (length (buffered hh n) < MAX_HINTS_PER_NODE /\ total_pending_count hh < MAX_PENDING_HINTS)%nat.
Proof.
  unfold check_room. destruct (Nat.leb_spec MAX_HINTS_PER_NODE (length (buffered hh n))); [done|].
  by destruct (Nat.leb_spec MAX_PENDING_HINTS (total_pending_count hh)).
Qed.

Lemma shrinks_bounded most hh hh' w : shrinks hh hh' -> bounded_with most (hh, w) -> bounded_with most (hh', w).
Proof.
  intros [Hn Ht] [Hl Hb Hs]. cbn [fst snd] in *. split; cbn [fst snd]; [done| |lia].
  intros n. specialize (Hn n). specialize (Hb n). lia.
Qed.

Lemma buffer_step_bounded most s s' :
  (1 <= most)%nat -> buffer_step most s s' -> bounded_with most s -> bounded_with most s'.
Proof.
  intros Hmost Hstep. destruct Hstep as [hh w now_secs|hh w n entry Hroom Hlt|hh w1 w2 n entry|hh w n delivered].
  - apply shrinks_bounded, expire_shrinks.
  - apply check_room_ok in Hroom as [Hr1 Hr2]. intros [Hl Hb Hs]. cbn [fst snd] in *.
    split; cbn [fst snd]; rewrite ?length_app; cbn [length]; [lia| |lia]. intros m. rewrite waiting_push, app_nil_r.
    specialize (Hb m). pose proof (waiting_le w m). case_decide as Em; [subst m|]; lia.
  - intros [Hl Hb Hs]. destruct (push_grows hh n entry) as [G1 G2]. cbn [fst snd] in *. rewrite length_app in *. cbn [length] in *.
    split; cbn [fst snd]; rewrite ?length_app, ?G2; [lia| |lia]. intros m. specialize (Hb m). rewrite waiting_push in Hb. rewrite G1. lia.
  - apply shrinks_bounded, remove_shrinks.
Qed.

(** C36: the buffer exceeds its limits by less than the number of handoffs that
    run at the same time. The check of the limits and the push are two critical
    sections, and so are the snapshot and the removal of a delivery; in every
    interleaving of them with expiry, with at most [most] handoffs between
    check and push at a time, a buffer that starts within its limits keeps at
    most a thousand hints per replica and ten thousand in all, plus [most - 1]:
    handoffs that come one at a time never exceed the limits. *)
Theorem hint_buffer_bounded most hh hh' w :
  (1 <= most)%nat -> within_limits 0 hh -> rtc (buffer_step most) (hh, []) (hh', w) -> within_limits (most - 1) hh'.
Proof.
  intros Hmost [Hn Ht] Hrun. assert (H : bounded_with most (hh', w)).
  { assert (H0 : bounded_with most (hh, [])).
    { split; cbn [fst snd length]; [lia| |lia]. intros n. specialize (Hn n). change (waiting [] n) with 0%nat. lia. }
    revert H0. generalize (hh, @nil (NodeId * BufferedHint)), (hh', w), Hrun. clear -Hmost. intros s s' Hrun.
    induction Hrun as [|s1 s2 s3 Hs _ IH]; [done|]. intros H. by eapply IH, buffer_step_bounded. }
  destruct H as [_ Hb Hs]. cbn [fst snd] in *. split; [|lia]. intros n. specialize (Hb n). lia.
Qed.

Lemma waves_push most hh n w : rtc (buffer_step most) (hh, (fun e => (n, e)) <$> w) (foldl (fun hh e => push_hint hh n e) hh w, []).
Proof.
  revert hh. induction w as [|e w IH]; intros hh; [done|]. eapply rtc_l; [apply (Pushes _ hh [] _ n e)|]. apply IH.
Qed.

Lemma waves_enter most hh n w w0 :
  check_room hh n = Ok () -> (length w0 + length w <= most)%nat ->
  rtc (buffer_step most) (hh, w0) (hh, w0 ++ ((fun e => (n, e)) <$> w)).
Proof.
  intros Hr. revert w0. induction w as [|e w IH]; intros w0 Hl; [by rewrite app_nil_r|]. cbn [length] in Hl.
  eapply rtc_l; [apply (FindsRoom _ hh w0 n e Hr); lia|]. cbn [fmap list_fmap].
  replace (w0 ++ (n, e) :: ((fun e => (n, e)) <$> w)) with ((w0 ++ [(n, e)]) ++ ((fun e => (n, e)) <$> w)) by (by rewrite <- app_assoc).
  apply IH. rewrite length_app. cbn. lia.
Qed.

Lemma pushes_length n w : forall hh, length (buffered (foldl (fun hh e => push_hint hh n e) hh w) n) = (length (buffered hh n) + length w)%nat.
Proof.
  induction w as [|e w IH]; intros hh; cbn [foldl length]; [lia|]. rewrite IH. destruct (push_grows hh n e) as [-> _].
  rewrite decide_True by done. lia.
Qed.

(** overlapping handoffs exceed the limit. One place is left for a replica:
    handoffs that all look before the first of them pushes all store their
    hint, so the bound above is reached. *)
Theorem overlapping_handoffs_exceed_limit hh n (entries : list BufferedHint) :
  length (buffered hh n) = (MAX_HINTS_PER_NODE - 1)%nat -> (total_pending_count hh < MAX_PENDING_HINTS)%nat -> entries <> [] ->
  exists hh', rtc (buffer_step (length entries)) (hh, []) (hh', []) /\
    length (buffered hh' n) = (MAX_HINTS_PER_NODE + (length entries - 1))%nat.
Proof.
  intros Hn Ht Hne. assert (Hroom : check_room hh n = Ok ()).
  { unfold check_room. rewrite Hn, (proj2 (Nat.leb_gt _ _)) by (vm_compute; lia). by rewrite (proj2 (Nat.leb_gt _ _)). }
  eexists. split; [etrans; [by apply (waves_enter _ hh n entries [])|apply waves_push]|].
  rewrite pushes_length, Hn. destruct entries; [done|]. unfold MAX_HINTS_PER_NODE. cbn [length]. lia.
Qed.

(** after a delivery that failed for some hints, the buffer removes as many
    hints from the front as were delivered, not those that were: a hint whose
    call failed is lost when enough others were delivered, although the code
    logs that it will be retried. *)
Theorem partial_delivery_drops_hints hh n now_secs calls l i h :
  hh_ttl_secs hh = 0 -> hh_hints hh !! n = Some l -> NoDup l -> l !! i = Some h -> calls h = false ->
  (i < count_delivered (calls <$> l))%nat ->
  let '(delivered, hh') := deliver_buffered hh n now_secs calls in
  buffered hh' n = drop delivered l /\ h ∉ buffered hh' n.
Proof.
  intros Httl Hl Hnd Hi Hcall Hlt.
  assert (h ∉ drop (count_delivered (calls <$> l)) l) as Hh.
  { intros (j & Hj)%list_elem_of_lookup. rewrite lookup_drop in Hj.
    pose proof (NoDup_lookup _ _ _ _ Hnd Hi Hj). lia. }
  unfold deliver_buffered, expire_old_hints. rewrite Httl, Z.eqb_refl.
  assert (buffered hh n = l) as -> by (unfold buffered; by rewrite Hl).
  assert (count_delivered (calls <$> l) <= length l)%nat as Hle.
  { unfold count_delivered. etransitivity; [apply length_filter|]. by rewrite length_fmap. }
  destruct (count_delivered (calls <$> l)) as [|k] eqn:Hk; [lia|].
  unfold remove_delivered. rewrite Hl, Nat.min_l by lia.
  destruct (drop (S k) l) as [|r rest] eqn:Hd; unfold buffered; cbn [set_hints hh_hints].
  - by rewrite lookup_delete_eq.
  - by rewrite lookup_insert_eq.
Qed.

(** ** Witnesses *)

Definition sample_buffered (k : byte) : BufferedHint :=
  {| bh_intended_for := [x61]; bh_segment_id := [k]; bh_offset := 0; bh_length := 1;
     bh_timestamp := {| wall_time := 1; logical := 0 |}; bh_data := [k]; bh_stored_at_secs := 1 |}.

Definition sample_buffer : HintedHandoff :=
  {| hh_hints := {[ [x61] := [sample_buffered x01; sample_buffered x02] ]}; hh_ttl_secs := 0 |}.

(** A buffer with one place left for the replica. *)
Definition almost_full : HintedHandoff :=
  {| hh_hints := {[ [x61] := replicate 999 (sample_buffered x01) ]}; hh_ttl_secs := 0 |}.

Lemma almost_full_count : length (buffered almost_full [x61]) = 999%nat /\ total_pending_count almost_full = 999%nat.
Proof. vm_compute. done. Qed.

Lemma almost_full_within : within_limits 0 almost_full.
Proof.
  destruct almost_full_count as [H1 H2]. split; [|rewrite H2; vm_compute; lia]. intros n.
  destruct (decide (n = [x61])) as [->|Hn]; [rewrite H1; vm_compute; lia|].
  unfold buffered, almost_full. cbn [hh_hints]. rewrite lookup_singleton_ne by done. cbn. lia.
Qed.

(** Two handoffs that overlap on it. *)
Definition overfull : HintedHandoff :=
  push_hint (push_hint almost_full [x61] (sample_buffered x02)) [x61] (sample_buffered x03).

Lemma hint_buffer_bounded_witness :
  length (buffered overfull [x61]) = 1001%nat /\ within_limits 1 overfull.
Proof.
  split; [vm_compute; reflexivity|]. apply (hint_buffer_bounded 2 almost_full overfull []); [lia|apply almost_full_within|].
  eapply rtc_l; [apply (FindsRoom _ _ [] [x61] (sample_buffered x02)); [vm_compute; reflexivity|cbn; lia]|].
  eapply rtc_l; [apply (FindsRoom _ _ [_] [x61] (sample_buffered x03)); [vm_compute; reflexivity|cbn; lia]|].
  eapply rtc_l; [apply (Pushes _ _ [] [_])|]. apply rtc_once, (Pushes _ _ [] []).
Defined.

Lemma overlapping_handoffs_exceed_limit_witness :
  exists hh', rtc (buffer_step 2) (almost_full, []) (hh', []) /\ length (buffered hh' [x61]) = 1001%nat.
Proof.
  apply (overlapping_handoffs_exceed_limit almost_full [x61] [sample_buffered x02; sample_buffered x03]); [done| |done].
  rewrite (proj2 almost_full_count). vm_compute. lia.
Defined.

Lemma partial_delivery_drops_hints_witness :
  let '(delivered, hh') := deliver_buffered sample_buffer [x61] 2 (fun h => bool_decide (bh_data h = [x02])) in
  buffered hh' [x61] = drop delivered [sample_buffered x01; sample_buffered x02] /\
  sample_buffered x01 ∉ buffered hh' [x61].
Proof.
  apply (partial_delivery_drops_hints sample_buffer [x61] 2 (fun h => bool_decide (bh_data h = [x02]))
    [sample_buffered x01; sample_buffered x02] 0 (sample_buffered x01)); try done.
  - apply NoDup_cons. split; [|apply NoDup_singleton]. intros ?%list_elem_of_singleton. done.
  - vm_compute. lia.
Defined.
