(* ===== verification/SegmentPool.v ===== *)
(** * The segment pool
      (crates/oceanfs-storage/src/segment/pool.rs, buffer.rs, tier.rs and splitter.rs)

    The pool of active segments of a tier: the slots, the recorded index
    entries and object keys, and the bounded queue of the seal worker. The
    lifecycle registry is shared with the other components and passed along.
    The identifiers of new segments come from a generator, a parameter. What
    the seal worker receives while a sender waits is an argument of the send,
    and what other tasks do while an append waits is an argument of the
    append. The synchronous append, which only the tests call, and the
    recycling of buffers are left out. *)

From Stdlib Require Import ZArith Lia Strings.Byte.
From stdpp Require Import base list gmap relations.
From S2P Require Import Prelude WalPos EventRecord Lifecycle.

Set Default Proof Using "Type".
Local Open Scope Z_scope.

(** ** Tiers and splitting *)

Record SegmentSizeConfig := {
  inline_threshold_bytes : Z; small_threshold_bytes : Z;
  small_target_size : Z; default_target_size : Z }.

Definition classify (cfg : SegmentSizeConfig) (blob_size : Z) : SizeTier :=
  if blob_size <=? inline_threshold_bytes cfg then Inline
  else if blob_size <=? small_threshold_bytes cfg then Small
  else if blob_size <=? default_target_size cfg then Standard
  else Multi.

(** [slice::chunks], for a positive size; the pieces with their offsets. *)
Fixpoint split_at (fuel : nat) (chunk_size : nat) (offset : Z) (data : bytes) : list (Z * bytes) :=
  match fuel, data with
  | S fuel, _ :: _ =>
      let chunk := take chunk_size data in
      (offset, chunk) :: split_at fuel chunk_size (offset + Z.of_nat (length chunk)) (drop chunk_size data)
  | _, _ => []
  end.

Definition split (chunk_size : Z) (data : bytes) : list (Z * bytes) :=
  split_at (length data) (Z.to_nat chunk_size) 0 data.

(** ** Active segments *)

Record ActiveSegment := {
  as_id : SegmentId; as_tier : SizeTier; as_buffer : bytes; as_cursor : Z; as_target_size : Z }.

Definition active_new (cfg : SegmentSizeConfig) (tier : SizeTier) (id : SegmentId) : option ActiveSegment :=
  match tier with
  | Inline => None
  | Small => Some {| as_id := id; as_tier := tier; as_buffer := []; as_cursor := 0;
                     as_target_size := small_target_size cfg |}
  | _ => Some {| as_id := id; as_tier := tier; as_buffer := []; as_cursor := 0;
                 as_target_size := default_target_size cfg |}
  end.

Definition is_full (s : ActiveSegment) : bool := as_target_size s <=? as_cursor s.

Definition is_empty (s : ActiveSegment) : bool := as_cursor s =? 0.

(** [None] is [SegmentFull]. *)
Definition active_append (s : ActiveSegment) (data : bytes) : option (Z * Z * ActiveSegment) :=
  if is_full s then None
  else Some (as_cursor s, Z.of_nat (length data),
             {| as_id := as_id s; as_tier := as_tier s; as_buffer := as_buffer s ++ data;
                as_cursor := as_cursor s + Z.of_nat (length data); as_target_size := as_target_size s |}).

Record SealedSegment := { ss_segment_id : SegmentId; ss_tier : SizeTier; ss_data : bytes }.

Definition active_seal (s : ActiveSegment) : SealedSegment :=
  {| ss_segment_id := as_id s; ss_tier := as_tier s; ss_data := as_buffer s |}.

(** ** Slots *)

Definition IN_FLIGHT_CAP : nat := 16.

Inductive SlotState :=
  | Appending (s : ActiveSegment)
  | Sealing (id : SegmentId) (data : bytes)
  | Idle.

Definition needs_segment (slot : SlotState) : bool :=
  match slot with Appending _ => false | _ => true end.

(** [u32::try_from(length).unwrap_or(u32::MAX)]. *)
Definition as_u32 (n : Z) : Z := Z.min n u32_max.

(** The object a write appends: the hook of the write path records its hash
    and its key. *)
Record Blob := { bl_bucket : bytes; bl_key : bytes; bl_hash : bytes }.

Record SegmentIndexEntry := { ix_offset : Z; ix_length : Z; ix_blob_key_hash : bytes }.

Record SealingWork := {
  sw_segment_id : SegmentId; sw_segment_data : bytes; sw_tier : SizeTier;
  sw_ec_k : byte; sw_ec_m : byte; sw_strip_size_bytes : Z;
  sw_entries : list SegmentIndexEntry; sw_object_keys : list (bytes * bytes) }.

(** What does not change while the pool runs. *)
Record PoolParams := {
  pp_tier : SizeTier; pp_size_config : SegmentSizeConfig;
  pp_ec_config : option (byte * byte * Z); pp_queue_capacity : nat }.

(** [sp_queue] are the work items in the channel, [sp_received] those the seal
    worker took; [sp_next] counts the identifiers handed out. *)
Record SegmentPool := {
  sp_slots : list SlotState; sp_current_index : nat;
  sp_queue : list SealingWork; sp_received : list SealingWork; sp_closed : bool;
  sp_blob_entries : gmap bytes (list SegmentIndexEntry);
  sp_object_keys : gmap bytes (list (bytes * bytes));
  sp_next : nat }.

Inductive PoolError := InvalidConfig | WriteBackpressureTimeout.

Record AppendOutcome := {
  ao_segment_id : SegmentId; ao_offset : Z; ao_length : Z; ao_sealed : option SealedSegment }.

Definition set_slots (p : SegmentPool) (slots : list SlotState) (next : nat) : SegmentPool :=
  {| sp_slots := slots; sp_current_index := sp_current_index p; sp_queue := sp_queue p;
     sp_received := sp_received p; sp_closed := sp_closed p; sp_blob_entries := sp_blob_entries p;
     sp_object_keys := sp_object_keys p; sp_next := next |}.

Definition set_slot (p : SegmentPool) (i : nat) (slot : SlotState) : SegmentPool :=
  set_slots p (<[i := slot]> (sp_slots p)) (sp_next p).

Definition set_index (p : SegmentPool) (i : nat) : SegmentPool :=
  {| sp_slots := sp_slots p; sp_current_index := i; sp_queue := sp_queue p;
     sp_received := sp_received p; sp_closed := sp_closed p; sp_blob_entries := sp_blob_entries p;
     sp_object_keys := sp_object_keys p; sp_next := sp_next p |}.

Definition set_queue (p : SegmentPool) (queue received : list SealingWork) : SegmentPool :=
  {| sp_slots := sp_slots p; sp_current_index := sp_current_index p; sp_queue := queue;
     sp_received := received; sp_closed := sp_closed p; sp_blob_entries := sp_blob_entries p;
     sp_object_keys := sp_object_keys p; sp_next := sp_next p |}.

Definition set_recorded (p : SegmentPool) (entries : gmap bytes (list SegmentIndexEntry))
    (keys : gmap bytes (list (bytes * bytes))) : SegmentPool :=
  {| sp_slots := sp_slots p; sp_current_index := sp_current_index p; sp_queue := sp_queue p;
     sp_received := sp_received p; sp_closed := sp_closed p; sp_blob_entries := entries;
     sp_object_keys := keys; sp_next := sp_next p |}.

Section pool.
(** The generator of segment identifiers. *)
Context (new_id : nat -> SegmentId).
Context (pp : PoolParams).

Definition ec_params : byte * byte * Z := default (x00, x00, 0) (pp_ec_config pp).
Definition ec_k : byte := ec_params.1.1.
Definition ec_m : byte := ec_params.1.2.

Fixpoint new_slots (n : nat) (next : nat) : option (list SlotState) :=
  match n with
  | O => Some []
  | S n =>
      s ← active_new (pp_size_config pp) (pp_tier pp) (new_id next);
      rest ← new_slots n (S next);
      Some (Appending s :: rest)
  end.

Definition pool_new (active_pool_size : nat) : option SegmentPool :=
  slots ← new_slots active_pool_size 0;
  Some {| sp_slots := slots; sp_current_index := 0; sp_queue := []; sp_received := [];
          sp_closed := false; sp_blob_entries := ∅; sp_object_keys := ∅; sp_next := active_pool_size |}.

(** ** Critical sections *)

(** [PoolSlot::transition_to_sealing], under the lock of the slot. *)
Definition transition_to_sealing (ignore_cap : bool) (now : Z) (slot : SlotState) (m : Registry)
    : SlotState * Registry * option SealedSegment :=
  if negb ignore_cap && bool_decide (IN_FLIGHT_CAP <= in_flight_count m)%nat then (slot, m, None)
  else match slot with
       | Appending s =>
           let sealed := active_seal s in
           (Sealing (ss_segment_id sealed) (ss_data sealed),
            (attach_in_flight (ss_segment_id sealed) (pp_tier pp) ec_k ec_m (ss_data sealed) now m).1,
            Some sealed)
       | other => (other, m, None)
       end.

Definition record_blob_entry (p : SegmentPool) (id : SegmentId) (offset length : Z) (hash : bytes) : SegmentPool :=
  set_recorded p
    (<[id := default [] (sp_blob_entries p !! id)
               ++ [{| ix_offset := offset; ix_length := length; ix_blob_key_hash := hash |}]]> (sp_blob_entries p))
    (sp_object_keys p).

Definition record_object_key (p : SegmentPool) (id : SegmentId) (bucket key : bytes) : SegmentPool :=
  set_recorded p (sp_blob_entries p)
    (<[id := default [] (sp_object_keys p !! id) ++ [(bucket, key)]]> (sp_object_keys p)).

(** The hook of the write path. *)
Definition append_hook (p : SegmentPool) (blob : Blob) (id : SegmentId) (offset length : Z) : SegmentPool :=
  record_object_key (record_blob_entry p id offset length (bl_hash blob)) id (bl_bucket blob) (bl_key blob).

(** [PoolSlot::try_append_with_hook]: append, hook and fill transition in one
    critical section. [None]: the slot is not appending, or is full. *)
Definition slot_append (p : SegmentPool) (m : Registry) (i : nat) (data : bytes) (blob : Blob) (now : Z)
    : SegmentPool * Registry * option AppendOutcome :=
  match sp_slots p !! i with
  | Some (Appending s) =>
      match active_append s data with
      | None => (p, m, None)
      | Some (offset, len, s) =>
          let p := append_hook (set_slot p i (Appending s)) blob (as_id s) offset (as_u32 len) in
          let outcome sealed := Some {| ao_segment_id := as_id s; ao_offset := offset;
                                        ao_length := as_u32 len; ao_sealed := sealed |} in
          if is_full s then
            let '(slot, m, sealed) := transition_to_sealing false now (Appending s) m in
            (set_slot p i slot, m, outcome sealed)
          else (p, m, outcome None)
      end
  | _ => (p, m, None)
  end.

(** [PoolSlot::install_replacement]. *)
Definition install_replacement (p : SegmentPool) (i : nat) (s : ActiveSegment) : SegmentPool * bool :=
  match sp_slots p !! i with
  | Some (Sealing _ _) | Some Idle => (set_slot p i (Appending s), true)
  | _ => (p, false)
  end.

(** ** The pool *)

Definition try_activate_slot (p : SegmentPool) : SegmentPool * bool :=
  match list_find (fun slot => needs_segment slot = true) (sp_slots p) with
  | None => (p, false)
  | Some (i, _) =>
      match active_new (pp_size_config pp) (pp_tier pp) (new_id (sp_next p)) with
      | None => (p, false)
      | Some s => install_replacement (set_slots p (sp_slots p) (S (sp_next p))) i s
      end
  end.

Fixpoint append_scan (p : SegmentPool) (m : Registry) (order : list nat) (data : bytes) (blob : Blob) (now : Z)
    : SegmentPool * Registry * option AppendOutcome :=
  match order with
  | [] => (p, m, None)
  | i :: order =>
      match slot_append p m i data blob now with
      | (p, m, Some outcome) => (p, m, Some outcome)
      | (p, m, None) => append_scan p m order data blob now
      end
  end.

(** One pass over the slots from the round-robin index; the remainder by an
    empty pool panics. *)
Definition try_append_single_pass (p : SegmentPool) (m : Registry) (data : bytes) (blob : Blob) (now : Z)
    : SegmentPool * Registry * outcome PoolError (option AppendOutcome) :=
  let n := length (sp_slots p) in
  if (n =? 0)%nat then (p, m, Panic)
  else
    let start := sp_current_index p in
    let p := set_index p ((start + 1) mod n)%nat in
    let '(p, m, r) := append_scan p m ((fun off => (start + off) mod n)%nat <$> seq 0 n) data blob now in
    (p, m, Ok r).

(** ** The seal queue *)

Definition seal_work (p : SegmentPool) (id : SegmentId) (data : bytes) (tier : SizeTier) : SealingWork :=
  {| sw_segment_id := id; sw_segment_data := data; sw_tier := tier; sw_ec_k := ec_k; sw_ec_m := ec_m;
     sw_strip_size_bytes := ec_params.2; sw_entries := default [] (sp_blob_entries p !! id);
     sw_object_keys := default [] (sp_object_keys p !! id) |}.

Definition clear_entries (p : SegmentPool) (id : SegmentId) : SegmentPool :=
  set_recorded p (delete id (sp_blob_entries p)) (delete id (sp_object_keys p)).

(** The seal worker receives [n] items. *)
Definition receive (p : SegmentPool) (n : nat) : SegmentPool :=
  set_queue p (drop n (sp_queue p)) (sp_received p ++ take n (sp_queue p)).

Definition capacity (p : SegmentPool) : nat := pp_queue_capacity pp - length (sp_queue p).

(** [mpsc::Sender::send] once the wait is over: [None] when the queue is
    closed or still full. *)
Definition send (p : SegmentPool) (w : SealingWork) : option SegmentPool :=
  if sp_closed p then None
  else if (capacity p =? 0)%nat then None
  else Some (set_queue p (sp_queue p ++ [w]) (sp_received p)).

(** The deadline has passed already, or the sender waits while the worker
    receives [n] items. *)
Inductive send_io := NoTime | Waits (n : nat).

Definition finish_seal_handoff_async (p : SegmentPool) (m : Registry) (sealed : option SealedSegment) (io : send_io)
    : SegmentPool * Registry * outcome PoolError unit :=
  match sealed with
  | None => (p, m, Ok ())
  | Some payload =>
      let id := ss_segment_id payload in
      let p := (try_activate_slot p).1 in
      match io with
      | NoTime => (p, mark_seal_unqueued id m, Err WriteBackpressureTimeout)
      | Waits n =>
          let work := seal_work p id (ss_data payload) (ss_tier payload) in
          let p := receive p n in
          match send p work with
          | Some p => (clear_entries p id, mark_seal_queued id m, Ok ())
          | None => (p, mark_seal_unqueued id m, Err WriteBackpressureTimeout)
          end
      end
  end.

Definition enqueue_seal_handoff := finish_seal_handoff_async.

(** Freezing the full slots, past the cap. *)
Definition freeze_full (now : Z) (st : SegmentPool * Registry * list SealedSegment) (i : nat)
    : SegmentPool * Registry * list SealedSegment :=
  let '(p, m, sealed) := st in
  match sp_slots p !! i with
  | Some (Appending s) =>
      if is_full s then
        let '(slot, m, payload) := transition_to_sealing true now (Appending s) m in
        (set_slot p i slot, m, sealed ++ option_list payload)
      else st
  | _ => st
  end.

Definition hand_off (ios : nat -> send_io) (st : SegmentPool * Registry) (x : nat * SealedSegment) : SegmentPool * Registry :=
  (finish_seal_handoff_async st.1 st.2 (Some x.2) (ios x.1)).1.

Definition recover_full_slots_async (p : SegmentPool) (m : Registry) (now : Z) (ios : nat -> send_io)
    : SegmentPool * Registry :=
  if (capacity p =? 0)%nat then (p, m)
  else
    let '(p, m, sealed) := foldl (freeze_full now) (p, m, []) (seq 0 (length (sp_slots p))) in
    foldl (hand_off ios) (p, m) (imap pair sealed).

(** The append of the write path. [waits] are the waits before the deadline,
    each with what the other tasks do meanwhile; [fuel] bounds the passes
    ([None] when it runs out). *)
Fixpoint append_with_hook_async (fuel : nat) (waits : list (SegmentPool * Registry -> SegmentPool * Registry))
    (p : SegmentPool) (m : Registry) (data : bytes) (blob : Blob) (now : Z) (ios : nat -> send_io)
    : option (SegmentPool * Registry * outcome PoolError AppendOutcome) :=
  match fuel with
  | O => None
  | S fuel =>
      match try_append_single_pass p m data blob now with
      | (p, m, Ok (Some outcome)) => Some (p, m, Ok outcome)
      | (p, m, Ok None) =>
          let '(p, m) := recover_full_slots_async p m now ios in
          match try_activate_slot p with
          | (p, true) => append_with_hook_async fuel waits p m data blob now ios
          | (p, false) =>
              match waits with
              | [] => Some (p, m, Err WriteBackpressureTimeout)
              | others :: waits =>
                  let '(p, m) := others (p, m) in
                  append_with_hook_async fuel waits p m data blob now ios
              end
          end
      | (p, m, Err e) => Some (p, m, Err e)
      | (p, m, Panic) => Some (p, m, Panic)
      end
  end.

Definition holds_segment (id : SegmentId) (slot : SlotState) : bool :=
  match slot with Appending s => bool_decide (as_id s = id) | _ => false end.

Definition is_fresh (slot : SlotState) : bool :=
  match slot with Appending s => is_empty s | _ => false end.

(** The first slot that still appends to the segment and can be frozen. *)
Fixpoint freeze_partial_from (p : SegmentPool) (m : Registry) (id : SegmentId) (now : Z) (order : list nat)
    : SegmentPool * Registry * option SealedSegment :=
  match order with
  | [] => (p, m, None)
  | i :: order =>
      match sp_slots p !! i with
      | Some slot =>
          if holds_segment id slot then
            match transition_to_sealing false now slot m with
            | (slot, m, Some payload) => (set_slot p i slot, m, Some payload)
            | (_, m, None) => freeze_partial_from p m id now order
            end
          else freeze_partial_from p m id now order
      | None => freeze_partial_from p m id now order
      end
  end.

Definition freeze_partial_for_seal (p : SegmentPool) (m : Registry) (id : SegmentId) (now : Z)
    : SegmentPool * Registry * option SealedSegment :=
  freeze_partial_from p m id now (seq 0 (length (sp_slots p))).

(** The timeout of the send is an [Err], a closed queue an [Ok(Err)], and the
    code tests the outer one. *)
Definition enqueue_inflight_work (p : SegmentPool) (id : SegmentId) (tier : SizeTier) (data : bytes) (n : nat)
    : SegmentPool * bool :=
  let work := seal_work p id data tier in
  let p := receive p n in
  if sp_closed p then (clear_entries p id, true)
  else match send p work with
       | Some p => (clear_entries p id, true)
       | None => (p, false)
       end.

(** ** Replay *)

Definition seal_replayed_partial (p : SegmentPool) (m : Registry) (id : SegmentId) (now : Z) (io : send_io)
    : SegmentPool * Registry * outcome PoolError unit :=
  match freeze_partial_for_seal p m id now with
  | (p, m, Some sealed) => finish_seal_handoff_async p m (Some sealed) io
  | (p, m, None) => (p, m, Ok ())
  end.

Definition append_replayed (p : SegmentPool) (m : Registry) (id : SegmentId) (data : bytes) (now : Z) (io : send_io)
    : SegmentPool * Registry * outcome PoolError unit :=
  match list_find (fun slot => holds_segment id slot = true) (sp_slots p) with
  | Some (i, Appending s) =>
      match active_append s data with
      | None => (p, m, Err InvalidConfig)
      | Some (_, _, s) =>
          if is_full s then
            let '(slot, m, sealed) := transition_to_sealing false now (Appending s) m in
            finish_seal_handoff_async (set_slot p i slot) m sealed io
          else (set_slot p i (Appending s), m, Ok ())
      end
  | Some (_, _) => (p, m, Ok ())
  | None =>
      let p := (try_activate_slot p).1 in
      match list_find (fun slot => is_fresh slot = true) (sp_slots p) with
      | Some (i, _) =>
          match (s ← active_new (pp_size_config pp) (pp_tier pp) id; active_append s data) with
          | None => (p, m, Err InvalidConfig)
          | Some (_, _, s) =>
              if is_full s then
                let sealed := active_seal s in
                finish_seal_handoff_async (set_slot p i (Sealing (ss_segment_id sealed) (ss_data sealed)))
                  (attach_in_flight (ss_segment_id sealed) (pp_tier pp) ec_k ec_m (ss_data sealed) now m).1
                  (Some sealed) io
              else (set_slot p i (Appending s), m, Ok ())
          end
      | None => (p, m, Err InvalidConfig)
      end
  end.
End pool.

(** ** Reads *)

(** [slice_range] and [slice_bytes]. *)
Definition slice_range (data : bytes) (offset length : Z) : option bytes :=
  if offset <? Z.of_nat (List.length data)
  then Some (take (Z.to_nat length) (drop (Z.to_nat offset) data))
  else None.

Fixpoint scan_slots (slots : list SlotState) (id : SegmentId) : option bytes :=
  match slots with
  | [] => None
  | Appending s :: slots => if bool_decide (as_id s = id) then Some (as_buffer s) else scan_slots slots id
  | _ :: slots => scan_slots slots id
  end.

(** [SegmentPool::try_read]. The registry is read at the start and, when the
    scan finds nothing, once more; each slot is locked in turn. The three are
    arguments, since other tasks run in between. *)
Definition try_read (id : SegmentId) (offset length : Z) (now1 : Z) (m1 : Registry) (slots : list SlotState)
    (now2 : Z) (m2 : Registry) : option bytes :=
  match read_source id now1 m1 with
  | InFlight data => slice_range data offset length
  | ActiveSlot =>
      match scan_slots slots id with
      | Some data => slice_range data offset length
      | None =>
          match read_source id now2 m2 with
          | InFlight data => slice_range data offset length
          | _ => None
          end
      end
  | _ => None
  end.

(** ** Interleavings

    A step is one critical section of a task: an append to a slot, a freeze,
    the installation of a new segment, an operation on the registry, or a
    move on the seal queue. Any sequence of steps is an interleaving of the
    tasks. *)

Definition closes (id : SegmentId) (op : registry_op) : Prop :=
  match op with
  | OpSeal i _ _ _ | OpDelete i | OpAttach i _ _ _ _ => i = id
  | _ => False
  end.

Section steps.
Context (new_id : nat -> SegmentId).
Context (pp : PoolParams).
Context (shard_for : SegmentId -> Z).
Context (delete_grace : Z).

(** [watched] is a segment that the step does not seal or delete. *)
Inductive pool_step (watched : SegmentId) : SegmentPool * Registry -> SegmentPool * Registry -> Prop :=
  | step_append p m i data blob now :
      pool_step watched (p, m) (slot_append pp p m i data blob now).1
  | step_freeze p m i slot ignore_cap now :
      sp_slots p !! i = Some slot ->
      pool_step watched (p, m)
        (set_slot p i (transition_to_sealing pp ignore_cap now slot m).1.1,
         (transition_to_sealing pp ignore_cap now slot m).1.2)
  | step_install p m i s :
      active_new (pp_size_config pp) (pp_tier pp) (new_id (sp_next p)) = Some s ->
      pool_step watched (p, m) ((install_replacement (set_slots p (sp_slots p) (S (sp_next p))) i s).1, m)
  | step_registry p m op now :
      (* the segments in the slots are neither sealed nor deleted, and no
         operation names a segment that does not exist yet *)
      (forall s, Appending s ∈ sp_slots p -> ~ closes (as_id s) op) ->
      (forall n, (sp_next p <= n)%nat -> op_id op <> new_id n) ->
      ~ closes watched op ->
      pool_step watched (p, m) (p, apply_op shard_for delete_grace now op m)
  | step_send p m w p' :
      send pp p w = Some p' -> pool_step watched (p, m) (p', m)
  | step_receive p m n : pool_step watched (p, m) (receive p n, m)
  | step_clear p m id : pool_step watched (p, m) (clear_entries p id, m)
  | step_index p m i : pool_step watched (p, m) (set_index p i, m).

Record pool_inv (st : SegmentPool * Registry) : Prop := {
  pi_cursor s : Appending s ∈ sp_slots st.1 -> as_cursor s = Z.of_nat (length (as_buffer s));
  pi_unique i j s t :
    sp_slots st.1 !! i = Some (Appending s) -> sp_slots st.1 !! j = Some (Appending t) ->
    as_id s = as_id t -> i = j;
  pi_entry s e :
    Appending s ∈ sp_slots st.1 -> st.2 !! as_id s = Some e ->
    le_state e = Reserved /\ le_in_flight e = None;
  pi_known s n : Appending s ∈ sp_slots st.1 -> (sp_next st.1 <= n)%nat -> as_id s <> new_id n;
  pi_new n : (sp_next st.1 <= n)%nat -> st.2 !! new_id n = None }.

(** The bytes of a segment that is not sealed yet: in a slot, or frozen in
    the registry. *)
Definition in_slot (st : SegmentPool * Registry) (i : nat) (id : SegmentId) (d : bytes) : Prop :=
  exists s, sp_slots st.1 !! i = Some (Appending s) /\ as_id s = id /\ as_buffer s = d.

Definition frozen (st : SegmentPool * Registry) (id : SegmentId) (d : bytes) : Prop :=
  exists e, st.2 !! id = Some e /\ le_state e = Reserved /\ le_in_flight e = Some d.

(** *** Operations on the registry *)

Lemma op_keeps_reserved now op m id e :
  ~ closes id op -> m !! id = Some e -> le_state e = Reserved ->
  exists e', apply_op shard_for delete_grace now op m !! id = Some e' /\
             le_state e' = Reserved /\ le_in_flight e' = le_in_flight e.
Proof.
  intros Hc He Hs.
  assert (Hk : forall i, evict_expired shard_for i now m !! id = Some e)
    by (intros i; apply lookup_evict_keep; [done|by rewrite Hs]).
  destruct (decide (op_id op = id)) as [<-|Hne].
  - destruct op; cbn [op_id apply_op closes] in *; try done;
      unfold reserve, fold_refresh, mark_seal_queued, mark_seal_unqueued, record_data_wal_pos, writer_join, writer_leave;
      rewrite ?Hk, ?He, ?Hs; cbn [fst]; rewrite ?bool_decide_false by done; cbn [fst]; rewrite ?Hk, ?lookup_insert_eq; eauto.
    destruct (le_in_flight e) eqn:F; rewrite ?lookup_insert_eq, ?He; eauto.
  - assert (Hlk : apply_op shard_for delete_grace now op m !! id = Some e); [|eauto].
    destruct op; cbn [op_id apply_op] in *;
      unfold reserve, seal_with, delete_segment, fold_refresh, attach_in_flight, mark_seal_queued,
        mark_seal_unqueued, record_data_wal_pos, writer_join, writer_leave;
      repeat case_match; cbn [fst]; rewrite ?lookup_insert_ne, ?lookup_delete_ne, ?Hk, ?He by done; done.
Qed.

Lemma op_new_entry now op m id e' :
  ~ closes id op -> m !! id = None -> apply_op shard_for delete_grace now op m !! id = Some e' ->
  op_id op = id /\ le_state e' = Reserved /\ le_in_flight e' = None.
Proof.
  intros Hc He.
  assert (Hk : forall i, evict_expired shard_for i now m !! id = None)
    by (intros i; apply map_lookup_filter_None; by left).
  destruct (decide (op_id op = id)) as [<-|Hne].
  - destruct op; cbn [op_id apply_op closes] in *; try done;
      unfold reserve, fold_refresh, mark_seal_queued, mark_seal_unqueued, record_data_wal_pos, writer_join, writer_leave;
      rewrite ?Hk, ?He; cbn [fst]; rewrite ?Hk, ?He, ?lookup_insert_eq; try done. by intros [= <-].
  - intros Hlk. exfalso. revert Hlk.
    destruct op; cbn [op_id apply_op] in *;
      unfold reserve, seal_with, delete_segment, fold_refresh, attach_in_flight, mark_seal_queued,
        mark_seal_unqueued, record_data_wal_pos, writer_join, writer_leave;
      repeat case_match; cbn [fst]; rewrite ?lookup_insert_ne, ?lookup_delete_ne, ?Hk, ?He by done; done.
Qed.

Lemma attach_lookup id tier k m' data now m id' :
  (attach_in_flight id tier k m' data now m).1 !! id' =
    (if bool_decide (id = id')
     then match m !! id with
          | Some e => match le_state e with
                      | Reserved => Some (set_in_flight e (Some data) true)
                      | _ => Some e
                      end
          | None => Some (set_in_flight (entry_new Reserved (reserved_meta id tier k m') now) (Some data) true)
          end
     else m !! id').
Proof.
  unfold attach_in_flight. case_bool_decide as Hid; [subst id'|];
    destruct (m !! id) as [e|] eqn:E; try destruct (le_state e); cbn [fst];
    rewrite ?lookup_insert_eq, ?lookup_insert_ne by done; rewrite ?E; done.
Qed.

(** *** The invariant *)

Lemma inv_same p p' m :
  sp_slots p' = sp_slots p -> sp_next p' = sp_next p -> pool_inv (p, m) -> pool_inv (p', m).
Proof. intros Hs Hn [Hc Hu He Hk Hf]. constructor; cbn in *; rewrite ?Hs, ?Hn; eauto. Qed.

Lemma elem_of_insert_slot (slots : list SlotState) i x s :
  Appending s ∈ <[i := x]> slots -> x = Appending s \/ Appending s ∈ slots.
Proof.
  intros [j Hj]%list_elem_of_lookup. destruct (decide (i = j)) as [<-|Hne].
  - apply list_lookup_insert_Some in Hj as [(_ & -> & _)|[? _]]; [by left|done].
  - rewrite list_lookup_insert_ne in Hj by done. right. by eapply list_elem_of_lookup_2.
Qed.

(** A slot takes a segment that has the id of the segment before it. *)
Lemma inv_append p m i s s' :
  pool_inv (p, m) -> sp_slots p !! i = Some (Appending s) -> as_id s' = as_id s ->
  as_cursor s' = Z.of_nat (length (as_buffer s')) -> pool_inv (set_slot p i (Appending s'), m).
Proof.
  intros [Hc Hu He Hk Hf] Hi Hid Hcur. cbn in *.
  assert (Hin : Appending s ∈ sp_slots p) by (by eapply list_elem_of_lookup_2).
  assert (Hold : forall j t, <[i := Appending s']> (sp_slots p) !! j = Some (Appending t) ->
            exists t', sp_slots p !! j = Some (Appending t') /\ as_id t' = as_id t).
  { intros j t Ht. apply list_lookup_insert_Some in Ht as [(-> & [= ->] & _)|[Hne Ht]]; eauto. }
  constructor; cbn.
  - intros t [[= ->]|Ht]%elem_of_insert_slot; auto.
  - intros j k t u (t' & Ht & Eq)%Hold (u' & Hu' & Eq')%Hold E. eapply Hu; eauto. congruence.
  - intros t e [[= ->]|Ht]%elem_of_insert_slot; [rewrite Hid|]; eauto.
  - intros t n [[= ->]|Ht]%elem_of_insert_slot; [rewrite Hid|]; eauto.
  - done.
Qed.

(** Filling a slot with something that is not appended to, in a registry that
    differs at one segment. *)
Lemma inv_vacate p m m' i s x :
  pool_inv (p, m) -> sp_slots p !! i = Some (Appending s) -> (forall t, x <> Appending t) ->
  (forall id, id <> as_id s -> m' !! id = m !! id) -> pool_inv (set_slot p i x, m').
Proof.
  intros [Hc Hu He Hk Hf] Hi Hx Hm. cbn in *.
  assert (Hin : Appending s ∈ sp_slots p) by (by eapply list_elem_of_lookup_2).
  assert (Hold : forall j t, <[i := x]> (sp_slots p) !! j = Some (Appending t) ->
            j <> i /\ sp_slots p !! j = Some (Appending t)).
  { intros j t Ht. apply list_lookup_insert_Some in Ht as [(-> & ? & _)|[Hne Ht]]; [by destruct (Hx t)|done]. }
  constructor; cbn.
  - intros t [->|Ht]%elem_of_insert_slot; [by destruct (Hx t)|auto].
  - intros j k t u [_ Ht]%Hold [_ Hu']%Hold E. eauto.
  - intros t e [j [Hj Ht]%Hold]%list_elem_of_lookup. rewrite Hm.
    + eapply He, list_elem_of_lookup_2; done.
    + intros E. apply Hj. eauto.
  - intros t n [->|Ht]%elem_of_insert_slot; [by destruct (Hx t)|eauto].
  - intros n Hn. rewrite Hm; [by apply Hf|]. intros E. by apply (Hk s n Hin Hn).
Qed.

Lemma attach_other id tier k m' data now m id' :
  id' <> id -> (attach_in_flight id tier k m' data now m).1 !! id' = m !! id'.
Proof. intros H. rewrite attach_lookup. by rewrite bool_decide_false by done. Qed.

Lemma inv_transition p m i slot ignore_cap now :
  pool_inv (p, m) -> sp_slots p !! i = Some slot ->
  pool_inv (set_slot p i (transition_to_sealing pp ignore_cap now slot m).1.1,
            (transition_to_sealing pp ignore_cap now slot m).1.2).
Proof.
  intros Hinv Hi.
  assert (Hsame : pool_inv (set_slot p i slot, m)).
  { apply (inv_same p); [cbn; by apply list_insert_id|done|done]. }
  unfold transition_to_sealing. destruct (negb ignore_cap && _); [done|].
  destruct slot as [s|id d|]; [|done..]. cbn [fst snd active_seal ss_segment_id ss_data].
  eapply inv_vacate; [done..|]. intros id Hid. by apply attach_other.
Qed.

Lemma slot_append_spec p m i data blob now p' m' r :
  slot_append pp p m i data blob now = (p', m', r) ->
  (p' = p /\ m' = m /\ r = None) \/
  exists s s' len x sealed,
    sp_slots p !! i = Some (Appending s) /\ active_append s data = Some (as_cursor s, len, s') /\
    sp_slots p' = <[i := x]> (sp_slots p) /\ sp_next p' = sp_next p /\
    ((x, m', sealed) = (Appending s', m, None) \/
     (x, m', sealed) = transition_to_sealing pp false now (Appending s') m) /\
    r = Some {| ao_segment_id := as_id s; ao_offset := as_cursor s; ao_length := as_u32 len; ao_sealed := sealed |}.
Proof.
  unfold slot_append. destruct (sp_slots p !! i) as [[s| |]|] eqn:Hi; try (intros [= <- <- <-]; by left).
  destruct (active_append s data) as [[[off len] s']|] eqn:Ha; [|intros [= <- <- <-]; by left].
  assert (Hs : off = as_cursor s /\ as_id s' = as_id s)
    by (unfold active_append in Ha; destruct (is_full s); by simplify_eq).
  destruct Hs as [-> Hid]. intros Hr. right. exists s, s', len. revert Hr. destruct (is_full s') eqn:Hfull'.
  - destruct (transition_to_sealing pp false now (Appending s') m) as [[x m1] sealed] eqn:Ht.
    intros [= <- <- <-]. exists x, sealed. rewrite Hid.
    split_and!; [done|done| |done|by right|done]. cbn. by rewrite list_insert_insert_eq.
  - intros [= <- <- <-]. exists (Appending s'), None. rewrite Hid. split_and!; [done..|by left|done].
Qed.

Lemma inv_slot_append p m i data blob now :
  pool_inv (p, m) -> pool_inv (slot_append pp p m i data blob now).1.
Proof.
  intros Hinv. destruct (slot_append pp p m i data blob now) as [[p' m'] r] eqn:Hr. cbn [fst].
  apply slot_append_spec in Hr as [(-> & -> & _)|(s & s' & len & x & sealed & Hi & Ha & Hsl & Hn & Hx & _)]; [done|].
  assert (Hs : pool_inv (set_slot p i (Appending s'), m)).
  { unfold active_append in Ha. destruct (is_full s); [done|]. simplify_eq.
    eapply inv_append; [done..|]. cbn. rewrite length_app, Nat2Z.inj_add, (pi_cursor _ Hinv s); [lia|].
    by eapply list_elem_of_lookup_2. }
  destruct Hx as [[= -> -> _]|Hx]; [by apply (inv_same (set_slot p i (Appending s')))|].
  assert (Hi' : sp_slots (set_slot p i (Appending s')) !! i = Some (Appending s'))
    by (cbn; apply list_lookup_insert_eq; by eapply lookup_lt_Some).
  pose proof (inv_transition _ _ _ _ false now Hs Hi') as Ht. rewrite <- Hx in Ht. cbn [fst snd] in Ht.
  eapply inv_same; [| |exact Ht]; cbn; [|done]. by rewrite Hsl, list_insert_insert_eq.
Qed.

Context `{!Inj (=) (=) new_id}.

Lemma inv_install p m i s :
  pool_inv (p, m) -> active_new (pp_size_config pp) (pp_tier pp) (new_id (sp_next p)) = Some s ->
  pool_inv ((install_replacement (set_slots p (sp_slots p) (S (sp_next p))) i s).1, m).
Proof using Inj0.
  intros [Hc Hu He Hk Hf] Hs. cbn in *.
  assert (Hid : as_id s = new_id (sp_next p) /\ as_cursor s = 0 /\ as_buffer s = [])
    by (unfold active_new in Hs; destruct (pp_tier pp); simplify_eq; done).
  destruct Hid as (Hid & Hcur & Hbuf).
  assert (Hbase : pool_inv (set_slots p (sp_slots p) (S (sp_next p)), m)).
  { constructor; cbn; eauto.
    - intros t n Ht Hn. apply Hk; [done|lia].
    - intros n Hn. apply Hf. lia. }
  assert (Hnew : pool_inv (set_slot (set_slots p (sp_slots p) (S (sp_next p))) i (Appending s), m)).
  { constructor; cbn.
    - intros t [[= ->]|Ht]%elem_of_insert_slot; [by rewrite Hcur, Hbuf|auto].
    - intros j k t u Ht Hu' E.
      apply list_lookup_insert_Some in Ht as [(-> & [= ->] & _)|[Hne Ht]];
        apply list_lookup_insert_Some in Hu' as [(-> & [= ->] & _)|[Hne' Hu']]; [done|..].
      + exfalso. apply (Hk u (sp_next p)); [by eapply list_elem_of_lookup_2|done|congruence].
      + exfalso. apply (Hk t (sp_next p)); [by eapply list_elem_of_lookup_2|done|congruence].
      + eauto.
    - intros t e [[= ->]|Ht]%elem_of_insert_slot; [|eauto]. rewrite Hid, Hf by done. done.
    - intros t n [[= ->]|Ht]%elem_of_insert_slot Hn; [|apply Hk; [done|lia]].
      rewrite Hid. intros E%(inj new_id). lia.
    - intros n Hn. apply Hf. lia. }
  unfold install_replacement. cbn [sp_slots set_slots]. destruct (sp_slots p !! i) as [[]|]; done.
Qed.

Lemma inv_registry p m op now :
  pool_inv (p, m) -> (forall s, Appending s ∈ sp_slots p -> ~ closes (as_id s) op) ->
  (forall n, (sp_next p <= n)%nat -> op_id op <> new_id n) ->
  pool_inv (p, apply_op shard_for delete_grace now op m).
Proof.
  intros [Hc Hu He Hk Hf] Hcl Hop. cbn in *. constructor; cbn; eauto.
  - intros s e Hs Hlk. destruct (m !! as_id s) as [e0|] eqn:E0.
    + destruct (He s e0 Hs E0) as [Hr Hfl].
      destruct (op_keeps_reserved now op m _ e0 (Hcl s Hs) E0 Hr) as (e' & Hlk' & ? & ?). simplify_eq.
      split; congruence.
    + eapply op_new_entry in Hlk as (_ & ? & ?); eauto.
  - intros n Hn. destruct (apply_op _ _ _ _ _ !! new_id n) as [e|] eqn:E; [|done].
    assert (Hcn : ~ closes (new_id n) op).
    { intros Hcn. apply (Hop n Hn). by destruct op. }
    eapply op_new_entry in E as (Hid & _); [|done|by apply Hf]. by destruct (Hop n Hn).
Qed.

Lemma inv_step watched st st' :
  pool_inv st -> pool_step watched st st' -> pool_inv st'.
Proof using Inj0.
  intros Hinv Hstep. destruct Hstep as [p m i data blob now|p m i slot cap now Hi|p m i s Hs|p m op now H1 H2 H3|p m w p' Hw|p m n|p m id|p m i].
  - by apply inv_slot_append.
  - by apply inv_transition.
  - by apply inv_install.
  - by apply inv_registry.
  - apply (inv_same p); [..|done]; unfold send in Hw; repeat case_match; by simplify_eq.
  - by apply (inv_same p).
  - by apply (inv_same p).
  - by apply (inv_same p).
Qed.

(** *** The read window *)

(** What an unsealed segment holds only grows, and a frozen one stays. *)
Definition kept (id : SegmentId) (st st' : SegmentPool * Registry) : Prop :=
  (forall i d, in_slot st i id d ->
     exists d', d `prefix_of` d' /\ (in_slot st' i id d' \/ frozen st' id d')) /\
  (forall d, frozen st id d -> frozen st' id d).

Lemma kept_same p p' m id : sp_slots p' = sp_slots p -> kept id (p, m) (p', m).
Proof.
  intros Hs. split; [|done]. intros i d Hi. exists d. split; [done|]. left. unfold in_slot in *. cbn in *. by rewrite Hs.
Qed.

Lemma frozen_same p p' m m' id d : m' !! id = m !! id -> frozen (p, m) id d -> frozen (p', m') id d.
Proof. unfold frozen. cbn. by intros ->. Qed.

Lemma in_slot_other p m p' m' i x j id d :
  in_slot (p, m) j id d -> sp_slots p' = <[i := x]> (sp_slots p) -> i <> j -> in_slot (p', m') j id d.
Proof. intros (s & Hs & Hd) Hsl Hne. exists s. cbn in *. by rewrite Hsl, list_lookup_insert_ne. Qed.

Lemma kept_append p m i s s' p' id :
  sp_slots p !! i = Some (Appending s) -> as_id s' = as_id s -> as_buffer s `prefix_of` as_buffer s' ->
  sp_slots p' = <[i := Appending s']> (sp_slots p) -> kept id (p, m) (p', m).
Proof.
  intros Hi Hid Hpre Hsl. split; [|by intros d; apply frozen_same].
  intros j d Hj. destruct (decide (i = j)) as [<-|Hne].
  - destruct Hj as (t & Ht & Hid' & <-). cbn in Ht. simplify_eq. exists (as_buffer s'). split; [done|]. left.
    exists s'. cbn. rewrite Hsl, list_lookup_insert_eq by (by eapply lookup_lt_Some). done.
  - exists d. split; [done|]. left. by eapply in_slot_other.
Qed.

Lemma kept_transition p m i slot cap now p' id :
  pool_inv (p, m) -> sp_slots p !! i = Some slot ->
  sp_slots p' = <[i := (transition_to_sealing pp cap now slot m).1.1]> (sp_slots p) ->
  kept id (p, m) (p', (transition_to_sealing pp cap now slot m).1.2).
Proof.
  intros Hinv Hi. unfold transition_to_sealing. destruct (negb cap && _).
  { cbn [fst snd]. rewrite list_insert_id by done. intros H. by apply kept_same. }
  destruct slot as [s|id' d'|]; cbn [fst snd]; [|intros H; apply kept_same; by rewrite H, list_insert_id..].
  intros Hsl. cbn [active_seal ss_segment_id ss_data] in *.
  assert (Hin : Appending s ∈ sp_slots p) by (by eapply list_elem_of_lookup_2).
  split.
  - intros j d Hj. exists d. split; [done|]. destruct (decide (i = j)) as [<-|Hne].
    + destruct Hj as (t & Ht & Hid & <-). cbn in Ht. simplify_eq. right. unfold frozen. cbn.
      rewrite attach_lookup, bool_decide_true by done. destruct (m !! as_id s) as [e|] eqn:E; [|by eexists; split_and!].
      destruct (pi_entry _ Hinv s e Hin E) as [Hr _]. rewrite Hr. by eexists; split_and!.
    + left. by eapply in_slot_other.
  - intros d (e & He & Hst & Hfl). cbn in He. apply (frozen_same p _ m); [|by exists e].
    apply attach_other. intros ->. destruct (pi_entry _ Hinv s e Hin He). congruence.
Qed.

Lemma kept_trans id a b c : kept id a b -> kept id b c -> kept id a c.
Proof.
  intros [H1 F1] [H2 F2]. split; [|auto]. intros i d (d' & Hd & [Hi|Hf])%H1.
  - apply H2 in Hi as (d2 & Hd2 & Hor). exists d2. split; [by etrans|done].
  - exists d'. split; [done|]. right. auto.
Qed.

Lemma kept_step watched st st' : pool_inv st -> pool_step watched st st' -> kept watched st st'.
Proof.
  intros Hinv Hstep. destruct Hstep as [p m i data blob now|p m i slot cap now Hi|p m i s Hs|p m op now H1 H2 H3|p m w p' Hw|p m n|p m id|p m i].
  - destruct (slot_append pp p m i data blob now) as [[p' m'] r] eqn:Hr. cbn [fst].
    apply slot_append_spec in Hr as [(-> & -> & _)|(s & s' & len & x & sealed & Hi & Ha & Hsl & Hn & Hx & _)];
      [by apply kept_same|].
    unfold active_append in Ha. destruct (is_full s); [done|]. injection Ha as _ Hs'.
    assert (Hk : kept watched (p, m) (set_slot p i (Appending s'), m))
      by (apply (kept_append p m i s s'); [done|subst s'; done|subst s'; cbn; by apply prefix_app_r|done]).
    destruct Hx as [[= -> -> _]|Hx]; [eapply kept_trans; [exact Hk|by apply kept_same]|].
    eapply kept_trans; [exact Hk|].
    replace m' with (transition_to_sealing pp false now (Appending s') m).1.2 by (by rewrite <- Hx).
    apply (kept_transition _ _ i).
    + eapply inv_append; [done|done|subst s'; done|]. subst s'. cbn.
      rewrite length_app, Nat2Z.inj_add, (pi_cursor _ Hinv s); [lia|]. by eapply list_elem_of_lookup_2.
    + cbn. apply list_lookup_insert_eq. by eapply lookup_lt_Some.
    + rewrite <- Hx. cbn. by rewrite Hsl, list_insert_insert_eq.
  - by apply (kept_transition _ _ i).
  - unfold install_replacement. cbn [sp_slots set_slots].
    destruct (sp_slots p !! i) as [[t|id d|]|] eqn:Hi; cbn [fst]; try by apply kept_same.
    all: split; [|done]; intros j dd Hj; exists dd; split; [done|]; left;
      (eapply in_slot_other; [done|done|]; intros <-; destruct Hj as (t & Ht & _); cbn in Ht; congruence).
  - split.
    + intros i d Hi. exists d. split; [done|]. by left.
    + intros d (e & He & Hst & Hfl).
      destruct (op_keeps_reserved now op m watched e H3 He Hst) as (e' & ? & ? & Hfl'). exists e'. by rewrite Hfl'.
  - apply kept_same. unfold send in Hw. repeat case_match; by simplify_eq.
  - by apply kept_same.
  - by apply kept_same.
  - by apply kept_same.
Qed.

Lemma kept_steps watched st st' :
  pool_inv st -> rtc (pool_step watched) st st' -> pool_inv st' /\ kept watched st st'.
Proof using Inj0.
  intros Hinv Hsteps. induction Hsteps as [st|a b c Hab Hbc IH].
  - split; [done|]. split; [|done]. intros i d Hi. exists d. split; [done|]. by left.
  - destruct IH as [Hc Hk]; [by eapply inv_step|]. split; [done|]. eapply kept_trans; [by apply kept_step|done].
Qed.

(** The segment holds at least these bytes. *)
Definition holds (st : SegmentPool * Registry) (id : SegmentId) (d : bytes) : Prop :=
  exists i d', d `prefix_of` d' /\ (in_slot st i id d' \/ frozen st id d').

Lemma holds_kept id a b d : kept id a b -> holds a id d -> holds b id d.
Proof.
  intros [Hk Hf] (i & d1 & Hd & [Hi|Hi]).
  - destruct (Hk i d1 Hi) as (d2 & Hd2 & Hor). exists i, d2. split; [by etrans|done].
  - exists i, d1. eauto.
Qed.

Lemma slot_append_holds p m i data blob now p1 m1 out :
  pool_inv (p, m) -> slot_append pp p m i data blob now = (p1, m1, Some out) ->
  exists before, ao_offset out = Z.of_nat (length before) /\ ao_length out = as_u32 (Z.of_nat (length data)) /\
    holds (p1, m1) (ao_segment_id out) (before ++ data).
Proof.
  intros Hinv Happ.
  apply slot_append_spec in Happ as [(_ & _ & ?)|(s & s' & len & x & sealed & Hi & Hap & Hsl & _ & Hx & [= ->])]; [done|].
  unfold active_append in Hap. destruct (is_full s); [done|]. injection Hap as <- Hs'.
  assert (Hcur : as_cursor s = Z.of_nat (length (as_buffer s)))
    by (apply (pi_cursor _ Hinv); by eapply list_elem_of_lookup_2).
  exists (as_buffer s). cbn [ao_offset ao_length ao_segment_id]. split_and!; [done..|].
  assert (Hslot : sp_slots (set_slot p i (Appending s')) !! i = Some (Appending s'))
    by (cbn; apply list_lookup_insert_eq; by eapply lookup_lt_Some).
  assert (Hin : holds (set_slot p i (Appending s'), m) (as_id s) (as_buffer s ++ data)).
  { exists i, (as_buffer s ++ data). split; [done|]. left. exists s'. by rewrite <- Hs' in *. }
  destruct Hx as [[= -> -> _]|Hx]; [eapply holds_kept; [|exact Hin]; by apply kept_same|].
  replace m1 with (transition_to_sealing pp false now (Appending s') m).1.2 by (by rewrite <- Hx).
  eapply holds_kept; [|exact Hin]. apply (kept_transition _ _ i); [|done|].
  - eapply inv_append; [done|done|by rewrite <- Hs'|]. rewrite <- Hs'. cbn.
    rewrite length_app, Nat2Z.inj_add, Hcur. lia.
  - rewrite <- Hx. cbn. by rewrite Hsl, list_insert_insert_eq.
Qed.

Lemma scan_slots_Some slots id d :
  scan_slots slots id = Some d -> exists i s, slots !! i = Some (Appending s) /\ as_id s = id /\ as_buffer s = d.
Proof.
  induction slots as [|[s|id' d'|] slots IH]; cbn [scan_slots]; [done| |intros (i & H)%IH; by exists (S i)..].
  case_bool_decide; [intros [= <-]; by exists 0%nat, s|]. intros (i & H')%IH. by exists (S i).
Qed.

Lemma scan_slots_None slots id i s :
  scan_slots slots id = None -> slots !! i = Some (Appending s) -> as_id s <> id.
Proof.
  revert i. induction slots as [|[t|id' d'|] slots IH]; intros [|i]; cbn [scan_slots]; try done; try (by apply IH).
  - case_bool_decide; [done|]. by intros _ [= ->].
  - case_bool_decide; [done|]. apply IH.
Qed.

Lemma slice_of_prefix (before data d : bytes) :
  data <> [] -> before ++ data `prefix_of` d ->
  slice_range d (Z.of_nat (length before)) (Z.of_nat (length data)) = Some data.
Proof.
  intros Hne [rest ->]. unfold slice_range.
  assert (0 < length data)%nat by (destruct data; [done|cbn; lia]).
  rewrite (proj2 (Z.ltb_lt _ _)) by (rewrite !length_app; lia).
  rewrite !Nat2Z.id, <- app_assoc, drop_app_length, take_app_length. done.
Qed.

Lemma read_source_reserved id now m e :
  m !! id = Some e -> le_state e = Reserved ->
  read_source id now m = match le_in_flight e with Some d => InFlight d | None => ActiveSlot end.
Proof.
  intros He Hst. unfold read_source. rewrite He. unfold deleted_expired. rewrite Hst. done.
Qed.

(** A read that starts in [a], looks at each slot at a moment of its own and
    ends in [c]. *)
Lemma racy_read id before data a c slots now1 now2 :
  pool_inv a -> holds a id (before ++ data) -> data <> [] -> is_Some (a.2 !! id) ->
  (forall k, exists b, rtc (pool_step id) a b /\ rtc (pool_step id) b c /\ slots !! k = sp_slots b.1 !! k) ->
  try_read id (Z.of_nat (length before)) (Z.of_nat (length data)) now1 a.2 slots now2 c.2 = Some data.
Proof using Inj0.
  intros Hinv (i & d & Hd & Hor) Hne [e He] Hslots.
  assert (Hread : forall d', before ++ data `prefix_of` d' ->
            slice_range d' (Z.of_nat (length before)) (Z.of_nat (length data)) = Some data)
    by (intros; by apply slice_of_prefix).
  unfold try_read. destruct Hor as [Hi|(e' & He' & Hst & Hfl)].
  2: { rewrite (read_source_reserved _ _ _ e') by done. rewrite Hfl. auto. }
  destruct (Hi) as (s & Hs & <- & _). destruct (pi_entry _ Hinv s e) as [Hst Hfl]; [by eapply list_elem_of_lookup_2|done|].
  rewrite (read_source_reserved _ _ _ e) by done. rewrite Hfl.
  destruct (scan_slots slots (as_id s)) as [d'|] eqn:Hscan.
  - apply Hread. apply scan_slots_Some in Hscan as (k & t & Ht & Hid & <-).
    destruct (Hslots k) as (b & Hab & Hbc & Hk). rewrite Ht in Hk.
    destruct (kept_steps _ _ _ Hinv Hab) as [Hinvb [Hkb _]].
    destruct (Hkb i d Hi) as (d1 & Hd1 & [(u & Hu & Hidu & <-)|(e' & He' & _ & Hfl')]).
    + assert (i = k) as -> by (eapply (pi_unique _ Hinvb); [done|done|congruence]). rewrite Hu in Hk. simplify_eq. by etrans.
    + destruct (pi_entry _ Hinvb t e') as [_ ?]; [by eapply list_elem_of_lookup_2|by rewrite Hid|]. congruence.
  - destruct (Hslots i) as (b & Hab & Hbc & Hk).
    destruct (kept_steps _ _ _ Hinv Hab) as [Hinvb [Hkb _]].
    destruct (Hkb i d Hi) as (d1 & Hd1 & [(u & Hu & Hidu & <-)|Hfr]).
    + exfalso. rewrite Hu in Hk. by eapply scan_slots_None.
    + destruct (kept_steps _ _ _ Hinvb Hbc) as [_ [_ Hkc]]. destruct (Hkc d1 Hfr) as (e' & He' & Hst' & Hfl').
      rewrite (read_source_reserved _ _ _ e') by done. rewrite Hfl'. apply Hread. by etrans.
Qed.
End steps.

(** *** A new pool *)

Lemma new_slots_lookup new_id pp n next slots i slot :
  new_slots new_id pp n next = Some slots -> slots !! i = Some slot ->
  exists s, slot = Appending s /\ as_id s = new_id (next + i)%nat /\ as_cursor s = 0 /\ as_buffer s = [] /\ (i < n)%nat.
Proof.
  revert next slots i. induction n as [|n IH]; intros next slots i; cbn [new_slots]; [by intros [= <-]|].
  destruct (active_new _ _ _) as [s|] eqn:Hs; cbn [mbind option_bind]; [|done].
  destruct (new_slots new_id pp n (S next)) as [rest|] eqn:Hr; cbn [mbind option_bind]; [|done].
  intros [= <-]. destruct i as [|i]; cbn [lookup list_lookup].
  - intros [= <-]. exists s. rewrite Nat.add_0_r.
    unfold active_new in Hs. destruct (pp_tier pp); simplify_eq; split_and!; (done || lia).
  - intros Hi. destruct (IH _ _ _ Hr Hi) as (t & -> & Ht & Hc & Hb & Hn). exists t.
    rewrite Ht, Nat.add_succ_r. split_and!; (done || lia).
Qed.

Lemma pool_new_inv new_id `{!Inj (=) (=) new_id} pp n p m :
  pool_new new_id pp n = Some p -> (forall k, m !! new_id k = None) -> pool_inv new_id (p, m).
Proof.
  unfold pool_new. destruct (new_slots new_id pp n 0) as [slots|] eqn:Hn; [|done]. intros [= <-] Hm.
  assert (Hs : forall i t, slots !! i = Some (Appending t) ->
            as_id t = new_id i /\ as_cursor t = 0 /\ as_buffer t = [] /\ (i < n)%nat).
  { intros i t Ht. destruct (new_slots_lookup _ _ _ _ _ _ _ Hn Ht) as (s & [= ->] & Hr). done. }
  constructor; cbn [fst snd sp_slots sp_next].
  - intros s [i Hi]%list_elem_of_lookup. destruct (Hs i s Hi) as (_ & -> & -> & _). done.
  - intros i j s t Hi Hj E. destruct (Hs i s Hi) as (Ei & _), (Hs j t Hj) as (Ej & _).
    apply (inj new_id). congruence.
  - intros s e [i Hi]%list_elem_of_lookup. destruct (Hs i s Hi) as (-> & _). by rewrite Hm.
  - intros s k [i Hi]%list_elem_of_lookup Hk. destruct (Hs i s Hi) as (-> & _ & _ & ?).
    intros E%(inj new_id). lia.
  - intros k _. apply Hm.
Qed.

(** C8: The read window is continuous. Whatever critical sections of other
    tasks run before, during and after the read, a chunk that was appended to
    a segment is returned by [try_read] from the moment the segment is
    registered until it is sealed or deleted: the scan of the slots may miss
    a segment that is frozen meanwhile, but then the second look at the
    registry finds its bytes. *)
Theorem unsealed_data_readable (new_id : nat -> SegmentId) (pp : PoolParams) (shard_for : SegmentId -> Z)
    (delete_grace : Z) n p0 m0 p m i data blob now p1 m1 out a c slots now1 now2 :
  let steps := rtc (pool_step new_id pp shard_for delete_grace (ao_segment_id out)) in
  Inj (=) (=) new_id -> pool_new new_id pp n = Some p0 -> (forall k, m0 !! new_id k = None) ->
  steps (p0, m0) (p, m) ->
  slot_append pp p m i data blob now = (p1, m1, Some out) ->
  data <> [] -> Z.of_nat (length data) <= u32_max ->
  steps (p1, m1) a -> (forall k, exists b, steps a b /\ steps b c /\ slots !! k = sp_slots b.1 !! k) ->
  is_Some (a.2 !! ao_segment_id out) ->
  try_read (ao_segment_id out) (ao_offset out) (ao_length out) now1 a.2 slots now2 c.2 = Some data.
Proof.
  intros steps Hinj Hnew Hm0 Hstart Happ Hne Hlen Ha Hslots He.
  destruct (kept_steps new_id pp shard_for delete_grace _ _ _ (pool_new_inv _ _ _ _ _ Hnew Hm0) Hstart) as [Hinv _].
  pose proof (inv_slot_append new_id pp p m i data blob now Hinv) as Hinv1. rewrite Happ in Hinv1.
  destruct (slot_append_holds new_id pp _ _ _ _ _ _ _ _ _ Hinv Happ) as (before & -> & -> & Hholds).
  destruct (kept_steps new_id pp shard_for delete_grace _ _ _ Hinv1 Ha) as [Hinva Hka].
  replace (as_u32 _) with (Z.of_nat (length data)) by (unfold as_u32; lia).
  apply (racy_read new_id pp shard_for delete_grace); [exact Hinva|by eapply holds_kept|done|done|exact Hslots].
Qed.

(** ** Progress *)

Section progress.
Context (new_id : nat -> SegmentId).
Context (pp : PoolParams).

Definition pool_target : Z :=
  match pp_tier pp with
  | Inline => 0
  | Small => small_target_size (pp_size_config pp)
  | _ => default_target_size (pp_size_config pp)
  end.

Definition writable (slot : SlotState) : bool :=
  match slot with Appending s => negb (is_full s) | _ => false end.

(** Writable, or ready for a new segment. *)
Definition usable (slot : SlotState) : bool := writable slot || needs_segment slot.

Definition all_usable (p : SegmentPool) : Prop := Forall (fun slot => usable slot = true) (sp_slots p).

Context (Htarget : 0 < pool_target).

Lemma active_new_writable id :
  exists s, active_new (pp_size_config pp) (pp_tier pp) id = Some s /\ writable (Appending s) = true.
Proof using Htarget.
  unfold pool_target, active_new in *. destruct (pp_tier pp); [lia|..]; eexists; (split; [done|]);
    cbn; unfold is_full; cbn; apply negb_true_iff, Z.leb_gt; lia.
Qed.

Lemma scan_writable p m order i slot data blob now :
  i ∈ order -> sp_slots p !! i = Some slot -> writable slot = true ->
  exists p' m' out, append_scan pp p m order data blob now = (p', m', Some out).
Proof using Type.
  intros Hi Hslot Hw. induction order as [|j order IH]; [by apply not_elem_of_nil in Hi|].
  cbn [append_scan]. destruct (slot_append pp p m j data blob now) as [[p' m'] r] eqn:Hr.
  destruct r as [out|]; [by eauto|].
  assert (p' = p /\ m' = m) as [-> ->]
    by (apply slot_append_spec in Hr as [(? & ? & _)|(s & s' & len & x & sealed & _ & _ & _ & _ & _ & ?)]; done).
  apply elem_of_cons in Hi as [<-|Hi]; [|auto].
  unfold slot_append, active_append in Hr. rewrite Hslot in Hr. destruct slot as [s| |]; try done. cbn in Hw.
  apply negb_true_iff in Hw. rewrite Hw in Hr. repeat case_match; simplify_eq.
Qed.

Lemma round_robin_covers start n i : (i < n)%nat -> i ∈ ((fun off => (start + off) mod n)%nat <$> seq 0 n).
Proof using Type.
  intros Hi. apply list_elem_of_fmap. exists ((i + (n - start mod n)) mod n)%nat.
  pose proof (Nat.mod_upper_bound start n). split; [|apply elem_of_seq; pose proof (Nat.mod_upper_bound (i + (n - start mod n)) n); lia].
  rewrite Nat.Div0.add_mod_idemp_r, <- Nat.Div0.add_mod_idemp_l.
  replace (start mod n + (i + (n - start mod n)))%nat with (i + 1 * n)%nat by lia.
  rewrite Nat.Div0.mod_add. symmetry. by apply Nat.mod_small.
Qed.

Lemma pass_writable p m i slot data blob now :
  sp_slots p !! i = Some slot -> writable slot = true ->
  exists p' m' out, try_append_single_pass pp p m data blob now = (p', m', Ok (Some out)).
Proof using Type.
  intros Hi Hw. unfold try_append_single_pass. pose proof (lookup_lt_Some _ _ _ Hi) as Hlt.
  rewrite (proj2 (Nat.eqb_neq _ _)) by lia.
  destruct (scan_writable (set_index p ((sp_current_index p + 1) mod length (sp_slots p))) m
              ((fun off => (sp_current_index p + off) mod length (sp_slots p))%nat <$> seq 0 (length (sp_slots p)))
              i slot data blob now) as (p' & m' & out & ->); [by apply round_robin_covers|done|done|eauto].
Qed.

(** A pass that finds nothing changes only the index. *)
Lemma pass_none p m data blob now :
  sp_slots p <> [] -> (forall i slot, sp_slots p !! i = Some slot -> writable slot = false) ->
  exists k, try_append_single_pass pp p m data blob now = (set_index p k, m, Ok None).
Proof using Type.
  intros Hne Hno. unfold try_append_single_pass. rewrite (proj2 (Nat.eqb_neq _ _)) by (by destruct (sp_slots p)).
  eexists. set (p1 := set_index _ _). set (order := _ <$> _).
  assert (Hs : append_scan pp p1 m order data blob now = (p1, m, None)); [|by rewrite Hs].
  induction order as [|j order IH]; [done|]. cbn [append_scan].
  assert (Hj : slot_append pp p1 m j data blob now = (p1, m, None)); [|by rewrite Hj].
  unfold slot_append, active_append. cbn [p1 set_index sp_slots]. destruct (sp_slots p !! j) as [[s| |]|] eqn:Hj; try done.
  specialize (Hno _ _ Hj). cbn in Hno. apply negb_false_iff in Hno. by rewrite Hno.
Qed.

Lemma activate_writable p :
  Exists (fun slot => usable slot = true) (sp_slots p) ->
  exists i slot, sp_slots (try_activate_slot new_id pp p).1 !! i = Some slot /\ writable slot = true.
Proof using Htarget.
  intros (slot & [j Hj]%list_elem_of_lookup & Hu)%Exists_exists. unfold try_activate_slot.
  destruct (list_find _ (sp_slots p)) as [[i slot']|] eqn:Hf.
  - apply list_find_Some in Hf as (Hi & Hn & _). destruct (active_new_writable (new_id (sp_next p))) as (s & -> & Hw).
    exists i, (Appending s). unfold install_replacement. cbn [sp_slots set_slots]. rewrite Hi.
    destruct slot'; [done|..]; cbn; rewrite list_lookup_insert_eq by (by eapply lookup_lt_Some); done.
  - exists j, slot. split; [done|]. apply list_find_None in Hf. rewrite Forall_lookup in Hf.
    apply orb_true_iff in Hu as [|Hn]; [done|]. by destruct (Hf j slot Hj).
Qed.

Lemma activate_usable p : all_usable p -> all_usable (try_activate_slot new_id pp p).1.
Proof using Htarget.
  intros Hall. unfold try_activate_slot. destruct (list_find _ (sp_slots p)) as [[i slot]|]; [|done].
  destruct (active_new_writable (new_id (sp_next p))) as (s & -> & Hw).
  unfold install_replacement. cbn [sp_slots set_slots]. destruct (sp_slots p !! i) as [[]|]; cbn [fst]; try done.
  all: apply Forall_insert; [done|]; unfold usable; by rewrite Hw.
Qed.

(** Freezing the slots up to [k] leaves them usable, and the others as they are. *)
Lemma freeze_full_usable p m now k p' m' sealed :
  foldl (freeze_full pp now) (p, m, []) (seq 0 k) = (p', m', sealed) ->
  length (sp_slots p') = length (sp_slots p) /\
  (forall i slot, (i < k)%nat -> sp_slots p' !! i = Some slot -> usable slot = true).
Proof using Type.
  revert p' m' sealed. induction k as [|k IH]; intros p' m' sealed; [intros [= <- <- <-]; split; [done|lia]|].
  rewrite seq_S, foldl_app. cbn [foldl Nat.add]. destruct (foldl _ _ (seq 0 k)) as [[p1 m1] sealed1] eqn:H1.
  destruct (IH _ _ _ eq_refl) as [Hlen Huse]. cbn [freeze_full].
  assert (Hsame : (forall slot, sp_slots p1 !! k = Some slot -> usable slot = true) -> (p1, m1, sealed1) = (p', m', sealed) ->
    length (sp_slots p') = length (sp_slots p) /\
    (forall i slot, (i < S k)%nat -> sp_slots p' !! i = Some slot -> usable slot = true)).
  { intros Hk [= <- <- <-]. split; [done|]. intros i slot Hi Hs.
    destruct (decide (i = k)) as [->|]; [by apply Hk|]. apply (Huse i); [lia|done]. }
  destruct (sp_slots p1 !! k) as [[s|id d|]|] eqn:Hk; try (apply Hsame; by intros slot [= <-]).
  destruct (is_full s) eqn:Hfull; [|apply Hsame; intros slot [= <-]; unfold usable; cbn; by rewrite Hfull].
  cbn [transition_to_sealing negb andb]. intros [= <- <- <-]. cbn. split; [by rewrite length_insert|].
  intros i slot Hi Hs. destruct (decide (i = k)) as [->|Hne].
  - rewrite list_lookup_insert_eq in Hs by (by eapply lookup_lt_Some). by simplify_eq.
  - rewrite list_lookup_insert_ne in Hs by done. apply (Huse i); [lia|done].
Qed.

Lemma activate_slots_ne p : sp_slots p <> [] -> sp_slots (try_activate_slot new_id pp p).1 <> [].
Proof using Type.
  intros Hne. unfold try_activate_slot, install_replacement. repeat case_match; cbn; try done;
    intros H'%(f_equal length); rewrite length_insert in H'; by destruct (sp_slots p).
Qed.

Lemma hand_off_usable ios p m x :
  all_usable p -> sp_slots p <> [] ->
  all_usable (hand_off new_id pp ios (p, m) x).1 /\ sp_slots (hand_off new_id pp ios (p, m) x).1 <> [].
Proof using Htarget.
  intros Hall Hne. pose proof (activate_usable p Hall) as Hu. pose proof (activate_slots_ne p Hne) as Hn.
  unfold hand_off, finish_seal_handoff_async. cbn [fst snd]. destruct (ios x.1); [done|].
  unfold send. repeat case_match; simplify_eq; done.
Qed.

Lemma recover_usable p m now ios :
  sp_slots p <> [] -> (0 < capacity pp p)%nat ->
  all_usable (recover_full_slots_async new_id pp p m now ios).1 /\
  sp_slots (recover_full_slots_async new_id pp p m now ios).1 <> [].
Proof using Htarget.
  intros Hne Hcap. unfold recover_full_slots_async. rewrite (proj2 (Nat.eqb_neq _ _)) by lia.
  destruct (foldl _ _ _) as [[p1 m1] sealed] eqn:Hf. apply freeze_full_usable in Hf as [Hlen Huse].
  assert (Hu : all_usable p1).
  { apply Forall_lookup. intros i slot Hi. apply (Huse i); [|done]. rewrite <- Hlen. by eapply lookup_lt_Some. }
  assert (Hn : sp_slots p1 <> []) by (intros E; rewrite E in Hlen; by destruct (sp_slots p)).
  clear Huse Hlen. generalize (imap pair sealed). intros l. revert p1 m1 Hu Hn.
  induction l as [|x l IH]; intros p1 m1 Hu Hn; cbn [foldl]; [done|].
  destruct (hand_off_usable ios p1 m1 x Hu Hn) as [Hu' Hn'].
  destruct (hand_off new_id pp ios (p1, m1) x) as [p2 m2]. by apply IH.
Qed.
End progress.

(** C23: A pool whose seal queue has room, or with a slot that is writable or
    ready for a new segment, accepts a write: the append returns after at most
    one wait, during which nothing else needs to happen. *)
Theorem append_makes_progress (new_id : nat -> SegmentId) (pp : PoolParams) p m data blob now ios :
  0 < pool_target pp -> sp_slots p <> [] ->
  (0 < capacity pp p)%nat \/ Exists (fun slot => usable slot = true) (sp_slots p) ->
  exists p' m' out, append_with_hook_async new_id pp 2 [id] p m data blob now ios = Some (p', m', Ok out).
Proof.
  intros Ht Hne Hroom. cbn [append_with_hook_async].
  destruct (decide (Exists (fun slot => writable slot = true) (sp_slots p))) as [Hw|Hw].
  { apply Exists_exists in Hw as (slot & [i Hi]%list_elem_of_lookup & Hw).
    destruct (pass_writable pp p m i slot data blob now Hi Hw) as (p' & m' & out & ->). eauto. }
  destruct (pass_none pp p m data blob now Hne) as [k ->].
  { intros i slot Hi. apply not_true_iff_false. intros Hs. apply Hw, Exists_exists. exists slot.
    split; [by eapply list_elem_of_lookup_2|done]. }
  destruct (recover_full_slots_async new_id pp (set_index p k) m now ios) as [q mq] eqn:Hq.
  assert (Huse : Exists (fun slot => usable slot = true) (sp_slots q)).
  { destruct (decide (0 < capacity pp p)%nat) as [Hcap|Hcap].
    - destruct (recover_usable new_id pp Ht (set_index p k) m now ios Hne Hcap) as [Hu Hn]. rewrite Hq in Hu, Hn.
      unfold all_usable in Hu. cbn [fst] in *. destruct (sp_slots q); [done|]. apply Forall_cons in Hu as [? _]. by left.
    - unfold recover_full_slots_async in Hq. replace (capacity pp (set_index p k) =? 0)%nat with true in Hq
        by (symmetry; apply Nat.eqb_eq; unfold capacity in *; cbn; lia).
      simplify_eq. by destruct Hroom. }
  destruct (activate_writable new_id pp Ht q Huse) as (i & slot & Hi & Hs).
  destruct (try_activate_slot new_id pp q) as [q1 b]. cbn [fst] in Hi.
  destruct (pass_writable pp q1 mq i slot data blob now Hi Hs) as (p' & m' & out & Hp).
  destruct b; cbn [id append_with_hook_async]; rewrite Hp; eauto.
Qed.

(** ** Witnesses *)

Definition sample_params : PoolParams :=
  {| pp_tier := Small;
     pp_size_config := {| inline_threshold_bytes := 1; small_threshold_bytes := 8;
                          small_target_size := 4; default_target_size := 8 |};
     pp_ec_config := None; pp_queue_capacity := 2 |}.

Definition sample_id (n : nat) : SegmentId := replicate n x01.

#[export] Instance sample_id_inj : Inj (=) (=) sample_id.
Proof. intros a b H%(f_equal length). unfold sample_id in H. by rewrite !length_replicate in H. Qed.

Definition sample_blob : Blob := {| bl_bucket := [x62]; bl_key := [x6b]; bl_hash := [] |}.

Definition sample_pool : SegmentPool := default
  {| sp_slots := []; sp_current_index := 0; sp_queue := []; sp_received := []; sp_closed := false;
     sp_blob_entries := ∅; sp_object_keys := ∅; sp_next := 0 |} (pool_new sample_id sample_params 2).

(** A chunk is appended and its segment reserved; the read starts, another
    task fills the segment, which freezes it, and the scan misses it. *)
Lemma unsealed_data_readable_witness :
  exists out (a c : SegmentPool * Registry) slots,
    a.2 !! ao_segment_id out <> None /\ scan_slots slots (ao_segment_id out) = None /\
    try_read (ao_segment_id out) (ao_offset out) (ao_length out) 3 a.2 slots 4 c.2 = Some [x0a; x0b].
Proof.
  set (first := slot_append sample_params sample_pool ∅ 0 [x0a; x0b] sample_blob 1).
  set (out := default {| ao_segment_id := []; ao_offset := 0; ao_length := 0; ao_sealed := None |} first.2).
  set (a := (first.1.1, apply_op (fun _ => 0) 0 2 (OpReserve (ao_segment_id out) (sample_meta x00)) first.1.2)).
  set (c := (slot_append sample_params a.1 a.2 0 [x0c; x0d] sample_blob 3).1).
  exists out, a, c, (sp_slots c.1).
  assert (Hac : rtc (pool_step sample_id sample_params (fun _ => 0) 0 (ao_segment_id out)) a c).
  { apply rtc_once. destruct a as [pa ma]. apply step_append. }
  split; [vm_compute; discriminate|]. split; [vm_compute; reflexivity|].
  apply (unsealed_data_readable sample_id sample_params (fun _ => 0) 0 2 sample_pool ∅ sample_pool ∅ 0
           [x0a; x0b] sample_blob 1 first.1.1 first.1.2 out a c (sp_slots c.1) 3 4).
  - apply _.
  - reflexivity.
  - intros k. apply lookup_empty.
  - apply rtc_refl.
  - vm_compute. reflexivity.
  - discriminate.
  - vm_compute. discriminate.
  - apply rtc_once. apply step_registry; [intros s Hs []| |intros []].
    intros k Hk E. apply (f_equal length) in E. unfold sample_id in E. rewrite length_replicate in E.
    revert E Hk. vm_compute. intros <-. lia.
  - intros k. exists c. split; [exact Hac|]. split; [apply rtc_refl|done].
  - vm_compute. eauto.
Defined.

(** Both slots are full and frozen buffers fill the registry's allowance: the
    append freezes them past the cap and goes on. *)
Definition full_slot (n : nat) : SlotState :=
  Appending {| as_id := sample_id n; as_tier := Small; as_buffer := [x0a; x0b; x0c; x0d]; as_cursor := 4;
               as_target_size := 4 |}.

Lemma append_makes_progress_witness :
  exists p' m' out,
    append_with_hook_async sample_id sample_params 2 [id]
      (set_slots sample_pool [full_slot 0; full_slot 1] 2) ∅ [x0e] sample_blob 1 (fun _ => Waits 0)
    = Some (p', m', Ok out).
Proof.
  apply append_makes_progress; [vm_compute; reflexivity|discriminate|]. left. vm_compute. lia.
Defined.
