(* ===== verification/LocalWrite.v ===== *)
(** * The local write path and the replay of the data log
      (crates/oceanfs-server/src/write/coordinator.rs: [put] step 4,
       [request_reserve_before_wal], [write_wal_entry];
       crates/oceanfs-storage/src/segment/sealer.rs: [append_wal_entry];
       crates/oceanfs-storage/src/segment/lifecycle.rs: [drain_pending_seals],
       [recover_reserved_unsealed], [drain_replay_group])

    A chunk is appended to an active segment, its segment is reserved, the
    writer joins it, the entry goes to the data log, and a segment that the
    append filled is handed to the seal worker. The data log is the list of
    its entries, as the reader of [WalReader] returns them. After a crash the
    log is replayed into fresh pools. The outcome of each I/O is an argument. *)

From Stdlib Require Import ZArith Lia Strings.Byte.
From stdpp Require Import base list gmap relations.
From S2P Require Import Prelude Hlc WalPos WalEntry EventRecord Lifecycle EventWal Recovery MetaStore SegmentPool.

Set Default Proof Using "Type".
Local Open Scope Z_scope.

(** ** Data *)

(** The registry, the two pools, the data log and [pending_seals]. *)
Record DataNode := {
  dn_registry : Registry; dn_small : SegmentPool; dn_standard : SegmentPool;
  dn_wal : list (DataWalPos * WalEntry); dn_pending : list SegmentId }.

Definition set_registry (nd : DataNode) (m : Registry) : DataNode :=
  {| dn_registry := m; dn_small := dn_small nd; dn_standard := dn_standard nd; dn_wal := dn_wal nd;
     dn_pending := dn_pending nd |}.
Definition set_wal (nd : DataNode) (wal : list (DataWalPos * WalEntry)) : DataNode :=
  {| dn_registry := dn_registry nd; dn_small := dn_small nd; dn_standard := dn_standard nd; dn_wal := wal;
     dn_pending := dn_pending nd |}.
Definition set_pending (nd : DataNode) (ids : list SegmentId) : DataNode :=
  {| dn_registry := dn_registry nd; dn_small := dn_small nd; dn_standard := dn_standard nd; dn_wal := dn_wal nd;
     dn_pending := ids |}.

(** The pool a tier is stored in: small objects in one, all others in the other. *)
Definition pool_of (nd : DataNode) (small : bool) : SegmentPool := if small then dn_small nd else dn_standard nd.

Definition set_pool (nd : DataNode) (small : bool) (p : SegmentPool) (m : Registry) : DataNode :=
  {| dn_registry := m; dn_small := if small then p else dn_small nd;
     dn_standard := if small then dn_standard nd else p; dn_wal := dn_wal nd; dn_pending := dn_pending nd |}.

Inductive WriteError :=
  | WriteOverloaded | StorageError | InvalidRequest.

(** [map_append_error]. *)
Definition map_append_error (e : PoolError) : WriteError :=
  match e with WriteBackpressureTimeout => WriteOverloaded | InvalidConfig => StorageError end.

(** What a request has reserved and joined. *)
Record Leases := { ls_registered : gset bytes; ls_counts : gmap bytes nat }.

Definition no_leases : Leases := {| ls_registered := ∅; ls_counts := ∅ |}.

(** The environment of one chunk: clocks, waits and the outcomes of the I/O
    ([ce_wal] is the position of the entry, [None] when the append fails). *)
Record ChunkEnv := {
  ce_now : Z; ce_waits : list (SegmentPool * Registry -> SegmentPool * Registry); ce_recover : nat -> send_io;
  ce_t1 : Z; ce_t2 : Z; ce_reserve : append_io; ce_wal : option DataWalPos; ce_handoff : send_io }.

(** The number of passes an append can take, see [append_total]. *)
Definition append_fuel (waits : list (SegmentPool * Registry -> SegmentPool * Registry)) : nat :=
  2 * length waits + 2.

(** [WriteCompression::compress] and [compress_chunk]: the stored bytes, the
    logical length, and whether the chunk is compressed. [compressor] is
    [compress_into] at the level of the bucket. *)
Definition compress_chunk (ctx : option (Z * (bytes -> option bytes))) (data : bytes)
    : outcome WriteError (bytes * Z * bool) :=
  let logical := wrap32 (Z.of_nat (length data)) in
  match ctx with
  | None => Ok (data, logical, false)
  | Some (min_chunk_bytes, compressor) =>
      if Z.of_nat (length data) <? min_chunk_bytes then Ok (data, logical, false)
      else match compressor data with
           | None => Err StorageError
           | Some out => if (length data <=? length out)%nat then Ok (data, logical, false) else Ok (out, logical, true)
           end
  end.

(** The registry's side of [request_reserve] (see [request_reserve_registry]). *)
Definition durable_reserve (shard_for : SegmentId -> Z) (id : SegmentId) (tier : SizeTier) (k m' : byte) (t1 t2 : Z)
    (io : append_io) (m : Registry) : Registry * outcome TransitionError unit :=
  match validate_reserve id t1 m with
  | Ok _ =>
      match io with
      | Durable => reserve shard_for id (reserved_meta id tier k m') t2 m
      | _ => (m, Err DurableWriteFailed)
      end
  | r => (m, r)
  end.

Section local_write.
Context (crc32 : bytes -> Z) (blake3 : bytes -> bytes) (shard_for : SegmentId -> Z).
Context (new_small new_standard : nat -> SegmentId) (pp_small pp_standard : PoolParams).

Definition new_id_of (small : bool) : nat -> SegmentId := if small then new_small else new_standard.
Definition params_of (small : bool) : PoolParams := if small then pp_small else pp_standard.

(** ** One chunk *)

Definition append_chunk (small : bool) (blob : Blob) (stored : bytes) (env : ChunkEnv) (nd : DataNode)
    : DataNode * outcome WriteError AppendOutcome :=
  match append_with_hook_async (new_id_of small) (params_of small) (append_fuel (ce_waits env)) (ce_waits env)
          (pool_of nd small) (dn_registry nd) stored blob (ce_now env) (ce_recover env) with
  | Some (p, m, Ok out) => (set_pool nd small p m, Ok out)
  | Some (p, m, Err e) => (set_pool nd small p m, Err (map_append_error e))
  | Some (p, m, Panic) => (set_pool nd small p m, Panic)
  | None => (nd, Panic)
  end.

(** A segment that is sealed or deleted already needs no reservation. *)
Definition request_reserve_before_wal (small : bool) (id : SegmentId) (env : ChunkEnv) (nd : DataNode) (ls : Leases)
    : DataNode * Leases * outcome WriteError unit :=
  if bool_decide (id ∈ ls_registered ls) then (nd, ls, Ok ())
  else
    let ls := {| ls_registered := {[id]} ∪ ls_registered ls; ls_counts := ls_counts ls |} in
    let '(m, r) := durable_reserve shard_for id (if small then Small else Standard) (ec_k (params_of small))
                     (ec_m (params_of small)) (ce_t1 env) (ce_t2 env) (ce_reserve env) (dn_registry nd) in
    let nd := set_registry nd m in
    match r with
    | Ok _ | Err AlreadySealed | Err AlreadyDeleted => (nd, ls, Ok ())
    | Err _ => (nd, ls, Err StorageError)
    | Panic => (nd, ls, Panic)
    end.

Definition join (id : SegmentId) (nd : DataNode) (ls : Leases) : DataNode * Leases :=
  (set_registry nd (writer_join id (dn_registry nd)),
   {| ls_registered := ls_registered ls; ls_counts := <[id := S (default O (ls_counts ls !! id))]> (ls_counts ls) |}).

(** [write_wal_entry] and [SegmentSealer::append_wal_entry]: the entry, then
    its position. *)
Definition write_wal_entry (id : SegmentId) (offset : Z) (data : bytes) (length logical_length : Z) (tier : byte)
    (hlc : Hlc) (io : option DataWalPos) (nd : DataNode) : DataNode * outcome WriteError unit :=
  match io with
  | None => (nd, Err StorageError)
  | Some pos =>
      let entry := WalEntry.entry_new crc32 id offset length logical_length tier (wall_time hlc) (logical hlc)
                     (blake3 data) data in
      (set_registry (set_wal nd (dn_wal nd ++ [(pos, entry)])) (record_data_wal_pos id pos (dn_registry nd)), Ok ())
  end.

Definition hand_off_chunk (small : bool) (sealed : option SealedSegment) (io : send_io) (nd : DataNode)
    : DataNode * outcome WriteError unit :=
  match enqueue_seal_handoff (new_id_of small) (params_of small) (pool_of nd small) (dn_registry nd) sealed io with
  | (p, m, Ok _) => (set_pool nd small p m, Ok ())
  | (p, m, Err e) => (set_pool nd small p m, Err (map_append_error e))
  | (p, m, Panic) => (set_pool nd small p m, Panic)
  end.

(** What follows the append of a chunk. *)
Definition commit_chunk (small : bool) (stored : bytes) (logical_length : Z) (compressed : bool) (hlc : Hlc)
    (env : ChunkEnv) (out : AppendOutcome) (nd : DataNode) (ls : Leases)
    : DataNode * Leases * outcome WriteError ChunkRef :=
  let id := ao_segment_id out in
  match request_reserve_before_wal small id env nd ls with
  | (nd, ls, Ok _) =>
      let '(nd, ls) := join id nd ls in
      match write_wal_entry id (ao_offset out) stored (ao_length out) logical_length (if small then x00 else x01) hlc
              (ce_wal env) nd with
      | (nd, Ok _) =>
          match hand_off_chunk small (ao_sealed out) (ce_handoff env) nd with
          | (nd, Ok _) =>
              (nd, ls, Ok {| cr_segment_id := id; cr_offset := ao_offset out; cr_length := ao_length out;
                             cr_compressed := compressed; cr_logical_length := logical_length |})
          | (nd, Err e) => (nd, ls, Err e)
          | (nd, Panic) => (nd, ls, Panic)
          end
      | (nd, Err e) => (nd, ls, Err e)
      | (nd, Panic) => (nd, ls, Panic)
      end
  | (nd, ls, Err e) => (nd, ls, Err e)
  | (nd, ls, Panic) => (nd, ls, Panic)
  end.

Definition write_chunk (small : bool) (blob : Blob) (ctx : option (Z * (bytes -> option bytes))) (data : bytes)
    (hlc : Hlc) (env : ChunkEnv) (nd : DataNode) (ls : Leases) : DataNode * Leases * outcome WriteError ChunkRef :=
  match compress_chunk ctx data with
  | Ok (stored, logical_length, compressed) =>
      match append_chunk small blob stored env nd with
      | (nd, Ok out) => commit_chunk small stored logical_length compressed hlc env out nd ls
      | (nd, Err e) => (nd, ls, Err e)
      | (nd, Panic) => (nd, ls, Panic)
      end
  | Err e => (nd, ls, Err e)
  | Panic => (nd, ls, Panic)
  end.

(** ** A whole object *)

Fixpoint write_chunks (small : bool) (blob : Blob) (ctx : option (Z * (bytes -> option bytes)))
    (pieces : list (bytes * ChunkEnv)) (hlc : Hlc) (nd : DataNode) (ls : Leases)
    : DataNode * Leases * outcome WriteError (list ChunkRef) :=
  match pieces with
  | [] => (nd, ls, Ok [])
  | (data, env) :: pieces =>
      match write_chunk small blob ctx data hlc env nd ls with
      | (nd, ls, Ok c) =>
          match write_chunks small blob ctx pieces hlc nd ls with
          | (nd, ls, Ok cs) => (nd, ls, Ok (c :: cs))
          | r => r
          end
      | (nd, ls, Err e) => (nd, ls, Err e)
      | (nd, ls, Panic) => (nd, ls, Panic)
      end
  end.

(** One [writer_leave]; a segment whose last writer left is noted. *)
Definition leave (nd : DataNode) (id : SegmentId) : DataNode :=
  let '(m, zero) := writer_leave id (dn_registry nd) in
  let nd := set_registry nd m in
  if zero then set_pending nd (dn_pending nd ++ [id]) else nd.

(** The leave loop, and [WriterLeaseGuard::drop]. *)
Definition leave_all (nd : DataNode) (ls : Leases) : DataNode :=
  foldl (fun nd '(id, n) => foldl leave nd (replicate n id)) nd (map_to_list (ls_counts ls)).

(** The first pool whose tier is [tier]. *)
Definition pool_of_tier (tier : SizeTier) : option bool :=
  if bool_decide (tier_to_u8 (pp_tier pp_small) = tier_to_u8 tier) then Some true
  else if bool_decide (tier_to_u8 (pp_tier pp_standard) = tier_to_u8 tier) then Some false
  else None.

(** Phase 1 for one noted segment. *)
Definition drain_noted (now : Z) (io : SegmentId -> send_io) (nd : DataNode) (id : SegmentId) : DataNode :=
  match get id now (dn_registry nd) with
  | None => nd
  | Some e =>
      if negb (bool_decide (le_state e = Reserved)) then nd
      else match pool_of_tier (sm_size_tier (le_metadata e)) with
           | None => nd
           | Some small =>
               match freeze_partial_for_seal (params_of small) (pool_of nd small) (dn_registry nd) id now with
               | (p, m, Some payload) => (hand_off_chunk small (Some payload) (io id) (set_pool nd small p m)).1
               | (p, m, None) =>
                   let nd := set_pool nd small p m in
                   match get id now m with
                   | Some e =>
                       if bool_decide (le_state e = Reserved) && bool_decide (le_in_flight e = None)
                       then set_pending nd (dn_pending nd ++ [id]) else nd
                   | None => nd
                   end
               end
           end
  end.

(** Phase 2 for one frozen segment that is not queued. *)
Definition drain_frozen (io : SegmentId -> nat) (nd : DataNode) (x : SegmentId * (SizeTier * bytes)) : DataNode :=
  let '(id, (tier, data)) := x in
  match pool_of_tier tier with
  | None => nd
  | Some small =>
      let '(p, accepted) := enqueue_inflight_work (params_of small) (pool_of nd small) id tier data (io id) in
      set_pool nd small p (if accepted then mark_seal_queued id (dn_registry nd) else dn_registry nd)
  end.

Definition frozen_unqueued (now : Z) (m : Registry) : list (SegmentId * (SizeTier * bytes)) :=
  omap (fun '(id, e) =>
          if bool_decide (le_state e = Reserved) && negb (le_seal_queued e)
          then data ← le_in_flight e; Some (id, (sm_size_tier (le_metadata e), data))
          else None) (map_to_list (live now m)).

Definition drain_pending_seals (now : Z) (io1 : SegmentId -> send_io) (io2 : SegmentId -> nat) (nd : DataNode) : DataNode :=
  let pending := dn_pending nd in
  let nd := foldl (drain_noted now io1) (set_pending nd []) pending in
  foldl (drain_frozen io2) nd (frozen_unqueued now (dn_registry nd)).

(** The pieces of an object and the pool they go to; [None] for the tier that
    is stored with the metadata. *)
Definition pieces_of (cfg : SegmentSizeConfig) (data : bytes) : option (bool * list bytes) :=
  match classify cfg (Z.of_nat (length data)) with
  | Inline => None
  | Small => Some (true, [data])
  | Standard => Some (false, [data])
  | Multi => Some (false, snd <$> split (default_target_size cfg) data)
  end.

(** Step 4 of [put] for an object that goes to segments. *)
Definition store_object (small : bool) (pieces : list bytes) (blob : Blob) (ctx : option (Z * (bytes -> option bytes)))
    (hlc : Hlc) (envs : nat -> ChunkEnv) (now : Z) (io1 : SegmentId -> send_io) (io2 : SegmentId -> nat) (nd : DataNode)
    : DataNode * outcome WriteError (list ChunkRef) :=
  match write_chunks small blob ctx (imap (fun i d => (d, envs i)) pieces) hlc nd no_leases with
  | (nd, ls, Ok cs) => (drain_pending_seals now io1 io2 (leave_all nd ls), Ok cs)
  | (nd, ls, r) => (leave_all nd ls, r)
  end.

(** ** Recovery *)

(** The data of the entries of a segment, in the order of the log. *)
Definition wal_entries_of (id : SegmentId) (wal : list (DataWalPos * WalEntry)) : list bytes :=
  omap (fun x : DataWalPos * WalEntry => if bool_decide (we_segment_id x.2 = id) then Some (we_data x.2) else None) wal.

(** The segments with entries, and the position of the last one. *)
Definition last_positions (wal : list (DataWalPos * WalEntry)) : gmap bytes DataWalPos :=
  foldl (fun acc (x : DataWalPos * WalEntry) => <[we_segment_id x.2 := x.1]> acc) ∅ wal.

Definition replay_group (small : bool) (id : SegmentId) (now : Z) (ios : nat -> send_io) (nd : DataNode) (data : list bytes)
    : DataNode * outcome PoolError unit :=
  let step (st : DataNode * outcome PoolError unit) (x : nat * bytes) :=
    match st with
    | (nd, Ok _) =>
        let '(p, m, r) := append_replayed (new_id_of small) (params_of small) (pool_of nd small) (dn_registry nd) id x.2
                            now (ios x.1) in
        (set_pool nd small p m, r)
    | st => st
    end in
  match foldl step (nd, Ok ()) (imap pair data) with
  | (nd, Ok _) =>
      let '(p, m, r) := seal_replayed_partial (new_id_of small) (params_of small) (pool_of nd small) (dn_registry nd) id
                          now (ios (length data)) in
      (set_pool nd small p m, r)
  | st => st
  end.

(** [drain_replay_group]; a segment without a pool is an error. *)
Definition drain_replay_group (now : Z) (ios : nat -> send_io) (nd : DataNode) (id : SegmentId) (tier : SizeTier)
    (data : list bytes) : DataNode * outcome PoolError unit :=
  match pool_of_tier tier with
  | None => (nd, Err InvalidConfig)
  | Some small => replay_group small id now ios nd data
  end.

(** The reserved segments that the replay rebuilds: [adopted] are those whose
    file is already complete. *)
Definition to_replay (nd : DataNode) (now : Z) (adopted : gset bytes) : list (SegmentId * SizeTier) :=
  omap (fun '(id, e) =>
          if bool_decide (le_state e = Reserved) && negb (bool_decide (id ∈ adopted))
             && negb (bool_decide (wal_entries_of id (dn_wal nd) = []))
          then Some (id, sm_size_tier (le_metadata e)) else None) (map_to_list (live now (dn_registry nd))).

(** Steps 3, 4, 6 and 8 of [recover_reserved_unsealed]: record the positions,
    replay the groups, drop the empty reservations, truncate the log. The
    adoption of the files of interrupted seals (step 5) is left out. *)
Definition record_positions (nd : DataNode) : DataNode :=
  set_registry nd (map_fold (fun id pos m => record_data_wal_pos id pos m) (dn_registry nd) (last_positions (dn_wal nd))).

Definition drop_empty (now : Z) (adopted : gset bytes) (nd : DataNode) : DataNode :=
  set_registry nd
    (foldl (fun m '(id, e) =>
       if bool_decide (le_state e = Reserved) && bool_decide (last_positions (dn_wal nd) !! id = None)
          && negb (bool_decide (id ∈ adopted))
       then drop_reserve id m else m) (dn_registry nd) (map_to_list (live now (dn_registry nd)))).

Definition replay_data_wal (now : Z) (ios : SegmentId -> nat -> send_io) (adopted : gset bytes) (nd : DataNode)
    : DataNode * outcome PoolError unit :=
  let groups := to_replay nd now adopted in
  let step (st : DataNode * outcome PoolError unit) (g : SegmentId * SizeTier) :=
    match st with
    | (nd, Ok _) => drain_replay_group now (ios g.1) nd g.1 g.2 (wal_entries_of g.1 (dn_wal nd))
    | st => st
    end in
  match foldl step (record_positions nd, Ok ()) groups with
  | (nd, Ok _) => (set_wal (drop_empty now adopted nd) [], Ok ())
  | st => st
  end.
End local_write.

(** ** The reserve of the coordinator *)

(** [durable_reserve] is what the coordinator's [request_reserve] does to the
    registry. *)
Lemma request_reserve_registry crc32 serialize limit shard_for id tier k m' t1 t2 io c w :
  co_wal c = Some w ->
  let r := request_reserve crc32 serialize limit shard_for id tier k m' t1 t2 io c in
  durable_reserve shard_for id tier k m' t1 t2 io (co_registry c) = (co_registry r.1, r.2).
Proof.
  intros Hw. cbn zeta. unfold request_reserve, durable_transition, durable_reserve.
  destruct (validate_reserve id t1 (co_registry c)) as [[]|e|]; [|done..].
  unfold append_event. rewrite Hw. destruct (ew_append _ _ _ _ _) as [w' pos]. destruct io; cbn; [done..|].
  unfold finish, fold_reserve. destruct (reserve shard_for id _ t2 (co_registry c)) as [m r]. by destruct r as [[]|e|].
Qed.

(** ** Replay of one segment *)

Lemma imap_snd_id {A} (f : nat -> A -> nat * A) (l : list A) :
  (forall i x, (f i x).2 = x) -> imap (fun i x => (f i x).2) l = l.
Proof.
  revert f. induction l as [|x l IH]; intros f Hf; [done|]. rewrite imap_cons, Hf. f_equal.
  apply (IH (fun i => f (S i))). intros i y. apply Hf.
Qed.

Section replay.
Context (new_id : nat -> SegmentId) (pp : PoolParams).
Context (Htarget : 0 < pool_target pp).

Definition frozen_in (m : Registry) (id : SegmentId) (d : bytes) : Prop :=
  exists e, m !! id = Some e /\ le_state e = Reserved /\ le_in_flight e = Some d.

Definition not_held (p : SegmentPool) (id : SegmentId) : Prop :=
  forall i slot, sp_slots p !! i = Some slot -> holds_segment id slot = false.

(** A slot rebuilds the segment, and no other does. *)
Definition rebuilding (p : SegmentPool) (i : nat) (id : SegmentId) (d : bytes) : Prop :=
  (exists s, sp_slots p !! i = Some (Appending s) /\ as_id s = id /\ as_buffer s = d /\
             as_cursor s = Z.of_nat (length d) /\ as_target_size s = pool_target pp /\
             as_tier s = pp_tier pp) /\
  (forall j slot, sp_slots p !! j = Some slot -> holds_segment id slot = true -> j = i).

(** A slot can take a segment of the log. *)
Definition ready (p : SegmentPool) : Prop :=
  Exists (fun slot => is_fresh slot || needs_segment slot = true) (sp_slots p).

(** The registry entry of a segment that is not frozen. *)
Definition open_entry (m : Registry) (id : SegmentId) : Prop :=
  forall e, m !! id = Some e -> le_state e = Reserved /\ le_in_flight e = None.

(** The queue is open and has room. *)
Definition accepting (p : SegmentPool) : Prop := sp_closed p = false /\ (0 < capacity pp p)%nat.

Lemma active_new_empty id :
  exists s, active_new (pp_size_config pp) (pp_tier pp) id = Some s /\ as_id s = id /\ as_buffer s = [] /\
            as_cursor s = 0 /\ as_target_size s = pool_target pp /\ as_tier s = pp_tier pp.
Proof using Htarget. unfold pool_target, active_new in *. destruct (pp_tier pp); [lia|..]; eexists; by split_and!. Qed.

Lemma attach_frozen id tier k m' d now m :
  open_entry m id -> frozen_in (attach_in_flight id tier k m' d now m).1 id d.
Proof using Type.
  intros Ho. unfold frozen_in. rewrite attach_lookup, bool_decide_true by done.
  destruct (m !! id) as [e|] eqn:E; [|by eexists; split_and!].
  destruct (Ho e E) as [Hst _]. rewrite Hst. by eexists; split_and!.
Qed.

Lemma mark_queued_frozen id m id' d : frozen_in m id' d -> frozen_in (mark_seal_queued id m) id' d.
Proof using Type.
  intros (e & He & Hst & Hfl). unfold mark_seal_queued, frozen_in.
  destruct (m !! id) as [e1|] eqn:E1; [|by exists e]. destruct (le_in_flight e1) as [d1|] eqn:F1; [|by exists e].
  destruct (decide (id = id')) as [->|Hne].
  - rewrite lookup_insert_eq. simplify_eq. eexists. split_and!; [done|done|]. cbn. congruence.
  - rewrite lookup_insert_ne by done. by exists e.
Qed.

(** A slot that takes a new segment, or nothing. *)
Definition activated (slots slots' : list SlotState) (next : nat) : Prop :=
  slots' = slots \/
  exists j slot s, slots !! j = Some slot /\ needs_segment slot = true /\ is_fresh (Appending s) = true /\
    as_id s = new_id next /\ slots' = <[j := Appending s]> slots.

Lemma activate_spec p :
  activated (sp_slots p) (sp_slots (try_activate_slot new_id pp p).1) (sp_next p) /\
  sp_queue (try_activate_slot new_id pp p).1 = sp_queue p /\ sp_closed (try_activate_slot new_id pp p).1 = sp_closed p.
Proof using Htarget.
  unfold try_activate_slot. destruct (list_find _ (sp_slots p)) as [[j slot]|] eqn:Hf; [|split_and!; [by left|done..]].
  apply list_find_Some in Hf as (Hj & Hn & _).
  destruct (active_new_empty (new_id (sp_next p))) as (s & -> & Hid & _ & Hc & _).
  unfold install_replacement. cbn [sp_slots set_slots]. rewrite Hj.
  assert (Ha : activated (sp_slots p) (<[j := Appending s]> (sp_slots p)) (sp_next p)).
  { right. exists j, slot, s. split_and!; [done|done|cbn; unfold is_empty; by rewrite Hc|done|done]. }
  destruct slot; [done|..]; by split_and!.
Qed.

Lemma activated_ready p :
  ready p -> Exists (fun slot => is_fresh slot = true) (sp_slots (try_activate_slot new_id pp p).1).
Proof using Htarget.
  intros (slot & [j Hj]%list_elem_of_lookup & Hs)%Exists_exists. unfold try_activate_slot.
  destruct (list_find _ (sp_slots p)) as [[i slot']|] eqn:Hf.
  - apply list_find_Some in Hf as (Hi & Hn & _).
    destruct (active_new_empty (new_id (sp_next p))) as (s & -> & _ & _ & Hc & _).
    unfold install_replacement. cbn [sp_slots set_slots]. rewrite Hi.
    apply Exists_exists. exists (Appending s). split; [|cbn; unfold is_empty; by rewrite Hc].
    apply list_elem_of_lookup_2 with i. destruct slot'; [done|..]; cbn; apply list_lookup_insert_eq; by eapply lookup_lt_Some.
  - apply Exists_exists. exists slot. split; [by eapply list_elem_of_lookup_2|]. apply list_find_None in Hf.
    rewrite Forall_lookup in Hf. specialize (Hf j slot Hj). apply orb_true_iff in Hs as [|]; [done|]. by destruct Hf.
Qed.

Lemma handoff_ok p m payload n :
  accepting p ->
  exists p', finish_seal_handoff_async new_id pp p m (Some payload) (Waits n)
             = (p', mark_seal_queued (ss_segment_id payload) m, Ok ()) /\
    sp_slots p' = sp_slots (try_activate_slot new_id pp p).1 /\
    (length (sp_queue p') <= S (length (sp_queue p)))%nat /\ sp_closed p' = false.
Proof using Htarget.
  intros [Hcl Hcap]. destruct (activate_spec p) as (_ & Hq & Hc). unfold finish_seal_handoff_async.
  set (q := (try_activate_slot new_id pp p).1) in *. unfold send. cbn [receive set_queue sp_closed]. rewrite Hc, Hcl.
  assert (Hnz : capacity pp (receive q n) <> 0%nat).
  { unfold capacity in *. cbn. rewrite length_drop, Hq. lia. }
  rewrite (proj2 (Nat.eqb_neq _ _)) by done. eexists. split_and!; [done|done| |].
  - cbn. rewrite length_app, length_drop, Hq. cbn. lia.
  - cbn. by rewrite Hc.
Qed.

Lemma not_held_activated p id slots' :
  not_held p id -> (forall k, new_id k <> id) -> activated (sp_slots p) slots' (sp_next p) ->
  forall i slot, slots' !! i = Some slot -> holds_segment id slot = false.
Proof using Type.
  intros Hn Hid [->|(j & sl & s & _ & _ & _ & Hs & ->)] i slot Hi; [by eapply Hn|].
  apply list_lookup_insert_Some in Hi as [(-> & <- & _)|[_ Hi]]; [|by eapply Hn].
  cbn. apply bool_decide_false. rewrite Hs. apply Hid.
Qed.

(** The segment is frozen with these bytes, and the pool can go on. *)
Record rebuilt (p : SegmentPool) (m : Registry) (id : SegmentId) (d : bytes) (p' : SegmentPool) (m' : Registry) : Prop := {
  rb_frozen : frozen_in m' id d;
  rb_other id' : id' <> id -> m' !! id' = m !! id';
  rb_ready : ready p';
  rb_held id' : (forall k, new_id k <> id') -> not_held p id' \/ id' = id -> not_held p' id';
  rb_queue : (length (sp_queue p') <= S (length (sp_queue p)))%nat /\ sp_closed p' = false }.

Lemma mark_queued_other id m id' : id' <> id -> mark_seal_queued id m !! id' = m !! id'.
Proof using Type. intros Hne. unfold mark_seal_queued. repeat case_match; by rewrite ?lookup_insert_ne. Qed.

Lemma seal_slot p m i id d tier now n :
  (i < length (sp_slots p))%nat -> (forall j slot, sp_slots p !! j = Some slot -> holds_segment id slot = true -> j = i) ->
  (forall k, new_id k <> id) -> open_entry m id -> accepting p ->
  exists p' m',
    finish_seal_handoff_async new_id pp (set_slot p i (Sealing id d))
      (attach_in_flight id (pp_tier pp) (ec_k pp) (ec_m pp) d now m).1
      (Some {| ss_segment_id := id; ss_tier := tier; ss_data := d |}) (Waits n) = (p', m', Ok ()) /\
    rebuilt p m id d p' m'.
Proof using Htarget.
  intros Hi Huniq Hid Hopen Hacc. set (p1 := set_slot p i (Sealing id d)).
  destruct (handoff_ok p1 (attach_in_flight id (pp_tier pp) (ec_k pp) (ec_m pp) d now m).1
              {| ss_segment_id := id; ss_tier := tier; ss_data := d |} n Hacc) as (p' & Hh & Hsl & Hq & Hc).
  eexists p', _. split; [exact Hh|].
  assert (Hready : ready p1).
  { apply Exists_exists. exists (Sealing id d). split; [|done]. apply list_elem_of_lookup_2 with i.
    cbn. by apply list_lookup_insert_eq. }
  assert (Hslot : forall j slot, sp_slots p1 !! j = Some slot -> slot = Sealing id d \/ (j <> i /\ sp_slots p !! j = Some slot)).
  { intros j slot Hj. cbn in Hj. apply list_lookup_insert_Some in Hj as [(-> & <- & _)|[Hne Hj]]; auto. }
  constructor.
  - by apply mark_queued_frozen, attach_frozen.
  - intros id' Hne. rewrite mark_queued_other by done. by apply attach_other.
  - pose proof (activated_ready p1 Hready) as Hf. unfold ready. rewrite Hsl. eapply Exists_impl; [exact Hf|].
    intros slot Hs. cbn beta in Hs. by rewrite Hs.
  - intros id' Hnew Hor j slot. rewrite Hsl. destruct (activate_spec p1) as [Hact _].
    revert j slot. apply (not_held_activated p1); [|done|exact Hact].
    intros j slot [->|[Hne Hj]]%Hslot; [done|]. destruct Hor as [Hn| ->]; [by eapply Hn|].
    destruct (holds_segment id slot) eqn:Hh'; [|done]. by destruct Hne; eapply Huniq.
  - done.
Qed.

(** Appending to a segment that is being rebuilt. *)
Lemma rebuild_next p m i id d x now n :
  rebuilding p i id d -> Z.of_nat (length d) < pool_target pp -> (forall k, new_id k <> id) ->
  open_entry m id -> accepting p -> (in_flight_count m < IN_FLIGHT_CAP)%nat ->
  exists p' m', append_replayed new_id pp p m id x now (Waits n) = (p', m', Ok ()) /\
    if Z.of_nat (length (d ++ x)) <? pool_target pp
    then rebuilding p' i id (d ++ x) /\ m' = m /\ p' = set_slots p (sp_slots p') (sp_next p) /\
         (forall id', id' <> id -> not_held p id' -> not_held p' id')
    else rebuilt p m id (d ++ x) p' m'.
Proof using Htarget.
  intros [(s & Hs & Hid & Hbuf & Hcur & Htgt & Htier) Huniq] Hlt Hnew Hopen Hacc Hcap.
  assert (Hheld : holds_segment id (Appending s) = true) by (cbn; by rewrite bool_decide_true).
  assert (Hf : list_find (fun slot => holds_segment id slot = true) (sp_slots p) = Some (i, Appending s)).
  { apply list_find_Some. split_and!; [done|done|]. intros j slot Hj Hji Hh.
    specialize (Huniq j slot Hj Hh). lia. }
  unfold append_replayed. rewrite Hf. unfold active_append, is_full. rewrite Hcur, Htgt.
  rewrite (proj2 (Z.leb_gt _ _)) by done. cbn [as_cursor as_target_size]. rewrite Hid, Hbuf, Htier.
  replace (Z.of_nat (length d) + Z.of_nat (length x)) with (Z.of_nat (length (d ++ x)))
    by (rewrite length_app; lia).
  destruct (Z.leb_spec (pool_target pp) (Z.of_nat (length (d ++ x)))) as [Hfull|Hroom].
  - unfold transition_to_sealing. rewrite bool_decide_false by lia. cbn [negb andb active_seal ss_segment_id ss_data as_id as_tier as_buffer].
    destruct (seal_slot p m i id (d ++ x) (pp_tier pp) now n) as (p' & m' & Hh & Hr); try done.
    { by eapply lookup_lt_Some. }
    exists p', m'. rewrite (proj2 (Z.ltb_ge _ _)) by done. split; [exact Hh|done].
  - eexists _, m. rewrite (proj2 (Z.ltb_lt _ _)) by done. split; [done|]. split_and!; [|done|done|].
    + split.
      * eexists. cbn. rewrite list_lookup_insert_eq by (by eapply lookup_lt_Some). split; [done|]. by split_and!.
      * intros j slot Hj Hh. cbn in Hj. apply list_lookup_insert_Some in Hj as [(-> & _)|[_ Hj]]; [done|]. by eapply Huniq.
    + intros id' Hne Hn j slot Hj. cbn in Hj. apply list_lookup_insert_Some in Hj as [(-> & <- & _)|[_ Hj]]; [|by eapply Hn].
      cbn. by apply bool_decide_false.
Qed.

(** The first entry of a segment. *)
Lemma rebuild_first p m id x now n :
  not_held p id -> ready p -> (forall k, new_id k <> id) -> open_entry m id -> accepting p ->
  exists p' m', append_replayed new_id pp p m id x now (Waits n) = (p', m', Ok ()) /\
    if Z.of_nat (length x) <? pool_target pp
    then (exists i, rebuilding p' i id x) /\ m' = m /\ accepting p' /\ length (sp_queue p') = length (sp_queue p) /\
         (forall id', id' <> id -> (forall k, new_id k <> id') -> not_held p id' -> not_held p' id')
    else rebuilt p m id x p' m'.
Proof using Htarget.
  intros Hnot Hready Hnew Hopen Hacc. unfold append_replayed.
  destruct (list_find (fun slot => holds_segment id slot = true) (sp_slots p)) as [[j sl]|] eqn:Hf.
  { apply list_find_Some in Hf as (Hj & Hh & _). rewrite (Hnot j sl Hj) in Hh. done. }
  clear Hf. destruct (activate_spec p) as (Hact & Hq & Hc). pose proof (activated_ready p Hready) as Hfresh.
  set (p1 := (try_activate_slot new_id pp p).1) in *.
  assert (Hnot1 : forall id', (forall k, new_id k <> id') -> not_held p id' -> not_held p1 id').
  { intros id' Hk Hn i slot. by apply (not_held_activated p id' (sp_slots p1)). }
  assert (Hacc1 : accepting p1) by (unfold accepting, capacity in *; by rewrite Hc, Hq).
  destruct (list_find (fun slot => is_fresh slot = true) (sp_slots p1)) as [[i sl]|] eqn:Hf.
  2: { apply list_find_None in Hf. apply Exists_exists in Hfresh as (sl & Hin & Hs).
       rewrite Forall_forall in Hf. by destruct (Hf sl Hin). }
  apply list_find_Some in Hf as (Hi & _). pose proof (lookup_lt_Some _ _ _ Hi) as Hlt.
  destruct (active_new_empty id) as (s0 & -> & Hid & Hbuf & Hcur & Htgt & Htier). cbn [mbind option_bind].
  unfold active_append, is_full. rewrite Hcur, Htgt, (proj2 (Z.leb_gt _ _)) by done. cbn [as_cursor as_target_size].
  rewrite Hid, Hbuf, Htier. cbn [app]. rewrite Z.add_0_l.
  destruct (Z.leb_spec (pool_target pp) (Z.of_nat (length x))) as [Hfull|Hroom].
  - cbn [active_seal ss_segment_id ss_data as_id as_tier as_buffer].
    destruct (seal_slot p1 m i id x (pp_tier pp) now n) as (p' & m' & Hh & Hr); try done.
    { intros j slot Hj Hh. by rewrite (Hnot1 id Hnew Hnot j slot Hj) in Hh. }
    exists p', m'. rewrite (proj2 (Z.ltb_ge _ _)) by done. split; [exact Hh|].
    destruct Hr as [H1 H2 H3 H4 H5]. constructor; [done..| |by rewrite <- Hq].
    intros id' Hk [Hn| ->]; apply H4; auto.
  - eexists _, m. rewrite (proj2 (Z.ltb_lt _ _)) by done. split; [done|]. split_and!; [|done| |by cbn; rewrite Hq|].
    + exists i. split.
      * eexists. cbn. rewrite list_lookup_insert_eq by done. split; [done|]. by split_and!.
      * intros j slot Hj Hh. cbn in Hj. apply list_lookup_insert_Some in Hj as [(-> & _)|[_ Hj]]; [done|].
        by rewrite (Hnot1 id Hnew Hnot j slot Hj) in Hh.
    + exact Hacc1.
    + intros id' Hne Hk Hn j slot Hj. cbn in Hj. apply list_lookup_insert_Some in Hj as [(-> & <- & _)|[_ Hj]].
      * cbn. by apply bool_decide_false.
      * by eapply (Hnot1 id').
Qed.

(** The seal at the end of the replay of a segment. *)
Lemma rebuild_last p m i id d now n :
  rebuilding p i id d -> (forall k, new_id k <> id) -> open_entry m id -> accepting p ->
  (in_flight_count m < IN_FLIGHT_CAP)%nat ->
  exists p' m', seal_replayed_partial new_id pp p m id now (Waits n) = (p', m', Ok ()) /\ rebuilt p m id d p' m'.
Proof using Htarget.
  intros [(s & Hs & Hid & Hbuf & Hcur & Htgt & Htier) Huniq] Hnew Hopen Hacc Hcap.
  unfold seal_replayed_partial, freeze_partial_for_seal. pose proof (lookup_lt_Some _ _ _ Hs) as Hlt.
  assert (Hscan : forall order, i ∈ order ->
    freeze_partial_from pp p m id now order
    = (set_slot p i (Sealing id d), (attach_in_flight id (pp_tier pp) (ec_k pp) (ec_m pp) d now m).1,
       Some {| ss_segment_id := id; ss_tier := pp_tier pp; ss_data := d |})).
  { intros order Hin. induction order as [|j order IH]; [by apply not_elem_of_nil in Hin|]. cbn [freeze_partial_from].
    destruct (decide (j = i)) as [->|Hne].
    - rewrite Hs. cbn [holds_segment]. rewrite bool_decide_true by done. unfold transition_to_sealing.
      rewrite bool_decide_false by lia. unfold active_seal. cbn [negb andb ss_segment_id ss_data]. by rewrite Hid, Hbuf, Htier.
    - apply elem_of_cons in Hin as [->|Hin]; [done|]. rewrite IH by done.
      destruct (sp_slots p !! j) as [slot|] eqn:Hj; [|done]. destruct (holds_segment id slot) eqn:Hh; [|done].
      by destruct Hne; eapply Huniq. }
  rewrite Hscan by (apply elem_of_seq; lia).
  destruct (seal_slot p m i id d (pp_tier pp) now n) as (p' & m' & Hh & Hr); try done.
  exists p', m'. split; [exact Hh|done].
Qed.

Lemma rebuild_none p m id now io :
  not_held p id -> seal_replayed_partial new_id pp p m id now io = (p, m, Ok ()).
Proof using Type.
  intros Hn. unfold seal_replayed_partial, freeze_partial_for_seal.
  assert (Hscan : forall order, freeze_partial_from pp p m id now order = (p, m, None)); [|by rewrite Hscan].
  induction order as [|j order IH]; [done|]. cbn [freeze_partial_from].
  destruct (sp_slots p !! j) as [slot|] eqn:Hj; [|done]. by rewrite (Hn j slot Hj).
Qed.

(** Between the entries of a segment the queue and the other segments stay. *)
Definition alike (id : SegmentId) (p p' : SegmentPool) : Prop :=
  length (sp_queue p') = length (sp_queue p) /\ sp_closed p' = sp_closed p /\
  (forall id', id' <> id -> (forall k, new_id k <> id') -> not_held p id' -> not_held p' id').

Lemma alike_accepting id p p' : alike id p p' -> accepting p -> accepting p'.
Proof using Type. intros (Hq & Hc & _). unfold accepting, capacity. by rewrite Hq, Hc. Qed.

Lemma alike_trans id p p1 p2 : alike id p p1 -> alike id p1 p2 -> alike id p p2.
Proof using Type. intros (Hq & Hc & Hn) (Hq' & Hc' & Hn'). split_and!; [congruence..|eauto]. Qed.

Lemma rebuilt_alike p p1 m id d p' m' : alike id p p1 -> rebuilt p1 m id d p' m' -> rebuilt p m id d p' m'.
Proof using Type.
  intros (Hq & Hc & Hn) [H1 H2 H3 H4 H5]. constructor; [done..| |by rewrite <- Hq].
  intros id' Hk [Hh| ->]; [|by apply H4; [|right]]. destruct (decide (id' = id)) as [->|Hne]; apply H4; auto.
Qed.

Definition replay_step (id : SegmentId) (now : Z) (ios : nat -> send_io)
    (st : SegmentPool * Registry * outcome PoolError unit) (x : nat * bytes) :=
  match st with
  | (p, m, Ok _) => append_replayed new_id pp p m id x.2 now (ios x.1)
  | st => st
  end.

Lemma rebuild_rest id now ios i m (l : list (nat * bytes)) : forall p d,
  (forall k, exists n, ios k = Waits n) -> (forall k, new_id k <> id) -> open_entry m id ->
  (in_flight_count m < IN_FLIGHT_CAP)%nat -> accepting p -> rebuilding p i id d ->
  (forall k, (k < length l)%nat -> Z.of_nat (length (d ++ concat (take k l.*2))) < pool_target pp) ->
  exists p' m', foldl (replay_step id now ios) (p, m, Ok ()) l = (p', m', Ok ()) /\
    ((rebuilding p' i id (d ++ concat l.*2) /\ m' = m /\ alike id p p') \/
     rebuilt p m id (d ++ concat l.*2) p' m').
Proof using Htarget.
  induction l as [|[j x] l IH]; intros p d Hio Hnew Hopen Hcap Hacc Hrb Hfit.
  { exists p, m. split; [done|]. left. cbn. rewrite app_nil_r. split_and!; [done..|]. by split_and!. }
  cbn [foldl replay_step fmap list_fmap snd fst]. destruct (Hio j) as [n ->].
  destruct (rebuild_next p m i id d x now n) as (p1 & m1 & -> & Hcase); try done.
  { specialize (Hfit 0%nat ltac:(cbn; lia)). cbn in Hfit. by rewrite app_nil_r in Hfit. }
  destruct (Z.ltb_spec (Z.of_nat (length (d ++ x))) (pool_target pp)) as [Hroom|Hfull].
  - destruct Hcase as (Hrb1 & -> & Hp1 & Hheld).
    assert (Hal : alike id p p1) by (rewrite Hp1; split_and!; [done..|]; intros; rewrite <- Hp1; auto).
    destruct (IH p1 (d ++ x)) as (p' & m' & Hf & Hor); try done; [by eapply alike_accepting|..].
    { intros k Hk. specialize (Hfit (S k) ltac:(cbn; lia)). cbn in Hfit. by rewrite <- app_assoc. }
    exists p', m'. split; [done|]. cbn [concat]. rewrite app_assoc.
    destruct Hor as [(? & ? & ?)|?]; [left|right]; [split_and!; [done..|by eapply alike_trans]|by eapply rebuilt_alike].
  - destruct l as [|[j2 x2] l].
    + exists p1, m1. split; [done|]. right. cbn. by rewrite app_nil_r.
    + exfalso. specialize (Hfit 1%nat ltac:(cbn; lia)). cbn in Hfit. rewrite app_nil_r in Hfit. lia.
Qed.

(** A segment is rebuilt from the entries of the log, in their order. *)
Lemma rebuild_group p m id now ios x (l : list bytes) :
  (forall k, exists n, ios k = Waits n) -> (forall k, new_id k <> id) -> open_entry m id ->
  (in_flight_count m < IN_FLIGHT_CAP)%nat -> accepting p -> not_held p id -> ready p ->
  (forall k, (k <= length l)%nat -> Z.of_nat (length (concat (take k (x :: l)))) < pool_target pp) ->
  exists p1 m1 p' m',
    foldl (replay_step id now ios) (p, m, Ok ()) (imap pair (x :: l)) = (p1, m1, Ok ()) /\
    seal_replayed_partial new_id pp p1 m1 id now (ios (length (x :: l))) = (p', m', Ok ()) /\
    rebuilt p m id (concat (x :: l)) p' m'.
Proof using Htarget.
  intros Hio Hnew Hopen Hcap Hacc Hnot Hready Hfit. rewrite imap_cons. cbn [foldl replay_step fst snd].
  destruct (Hio 0%nat) as [n0 ->]. destruct (Hio (length (x :: l))) as [n1 ->].
  destruct (rebuild_first p m id x now n0) as (p1 & m1 & -> & Hcase); try done.
  set (rest := imap _ l). assert (Hrest : rest.*2 = l) by (unfold rest; rewrite fmap_imap; by apply (imap_snd_id (fun i y => (S i, y)))).
  assert (Hlen : length rest = length l) by apply length_imap.
  destruct (Z.ltb_spec (Z.of_nat (length x)) (pool_target pp)) as [Hroom|Hfull].
  - destruct Hcase as ((i & Hrb) & -> & Hacc1 & Hq & Hheld).
    assert (Hal : alike id p p1) by (split_and!; [done|by rewrite (proj1 Hacc), (proj1 Hacc1)|done]).
    destruct (rebuild_rest id now ios i m rest p1 x) as (p2 & m2 & Hf & Hor); try done.
    { intros k Hk. rewrite Hrest. specialize (Hfit (S k) ltac:(lia)). exact Hfit. }
    rewrite Hrest in Hor. destruct Hor as [(Hrb2 & -> & Hal2)|Hr].
    + destruct (rebuild_last p2 m i id (x ++ concat l) now n1) as (p3 & m3 & Hs & Hr); try done.
      { eapply alike_accepting; [exact Hal2|done]. }
      exists p2, m, p3, m3. split_and!; [done..|]. eapply rebuilt_alike; [exact Hal|]. by eapply rebuilt_alike.
    + exists p2, m2, p2, m2. split_and!; [done| |by eapply rebuilt_alike].
      apply rebuild_none. apply (rb_held _ _ _ _ _ _ Hr); [done|by right].
  - destruct l as [|y l].
    + exists p1, m1, p1, m1. cbn [foldl]. cbn. rewrite app_nil_r. split_and!; [done| |done].
      apply rebuild_none. apply (rb_held _ _ _ _ _ _ Hcase); [done|by right].
    + exfalso. specialize (Hfit 1%nat ltac:(cbn; lia)). cbn in Hfit. rewrite app_nil_r in Hfit. lia.
Qed.
End replay.

(** ** Replay of the log *)

Lemma in_flight_count_change m m' id :
  (forall id', id' <> id -> m' !! id' = m !! id') -> (in_flight_count m' <= S (in_flight_count m))%nat.
Proof.
  intros Hm. unfold in_flight_count. assert (Hd : delete id m' = delete id m).
  { apply map_eq. intros i. destruct (decide (i = id)) as [->|Hne]; [by rewrite !lookup_delete_eq|].
    by rewrite !lookup_delete_ne, Hm by done. }
  set (P := fun kv : bytes * LifecycleEntry => is_Some (le_in_flight kv.2)).
  assert (H1 : (size (filter P m') <= S (size (filter P (delete id m'))))%nat).
  { rewrite map_filter_delete, map_size_delete. destruct (filter P m' !! id); unfold Datatypes.id in *; lia. }
  assert (H2 : (size (filter P (delete id m)) <= size (filter P m))%nat)
    by (rewrite map_filter_delete, map_size_delete; destruct (filter P m !! id); unfold Datatypes.id in *; lia).
  rewrite Hd in H1. lia.
Qed.

Section replay_log.
Context (new_small new_standard : nat -> SegmentId) (pp_small pp_standard : PoolParams).
Hypothesis Hsmall : 0 < pool_target pp_small.
Hypothesis Hstandard : 0 < pool_target pp_standard.

Notation new_id_of := (new_id_of new_small new_standard).
Notation params_of := (params_of pp_small pp_standard).
Notation pool_of_tier := (pool_of_tier pp_small pp_standard).
Notation drain_replay_group := (drain_replay_group new_small new_standard pp_small pp_standard).

Lemma target_pos small : 0 < pool_target (params_of small).
Proof using Hsmall Hstandard. by destruct small. Qed.

Lemma pool_of_set nd small p m : pool_of (set_pool nd small p m) small = p.
Proof using Type. by destruct small. Qed.

Lemma pool_of_set_other nd small p m : pool_of (set_pool nd small p m) (negb small) = pool_of nd (negb small).
Proof using Type. by destruct small. Qed.

Lemma set_pool_twice nd small p m p' m' : set_pool (set_pool nd small p m) small p' m' = set_pool nd small p' m'.
Proof using Type. by destruct small. Qed.

Lemma set_pool_id nd small : set_pool nd small (pool_of nd small) (dn_registry nd) = nd.
Proof using Type. by destruct nd, small. Qed.

(** The replay of a segment runs in its pool. *)
Lemma replay_group_pool small id now ios nd data p1 m1 p2 m2 :
  foldl (replay_step (new_id_of small) (params_of small) id now ios) (pool_of nd small, dn_registry nd, Ok ())
    (imap pair data) = (p1, m1, Ok ()) ->
  seal_replayed_partial (new_id_of small) (params_of small) p1 m1 id now (ios (length data)) = (p2, m2, Ok ()) ->
  replay_group new_small new_standard pp_small pp_standard small id now ios nd data = (set_pool nd small p2 m2, Ok ()).
Proof using Type.
  intros Hf Hs. unfold replay_group. set (step := fun st x => _).
  assert (Hlift : forall l p m r, exists p' m' r',
    foldl (replay_step (new_id_of small) (params_of small) id now ios) (p, m, r) l = (p', m', r') /\
    foldl step (set_pool nd small p m, r) l = (set_pool nd small p' m', r')).
  { induction l as [|x l IH]; intros p m r; [by exists p, m, r|]. cbn [foldl].
    destruct r as [[]|e|]; cbn [replay_step step]; [|apply IH..].
    rewrite pool_of_set. cbn [dn_registry set_pool].
    destruct (append_replayed _ _ p m id x.2 now (ios x.1)) as [[p' m'] r']. rewrite set_pool_twice. apply IH. }
  destruct (Hlift (imap pair data) (pool_of nd small) (dn_registry nd) (Ok ())) as (p' & m' & r' & H1 & H2).
  rewrite Hf in H1. simplify_eq. rewrite set_pool_id in H2. rewrite H2, pool_of_set. cbn [dn_registry set_pool].
  by rewrite Hs, set_pool_twice.
Qed.

(** The entries of a segment never exceed the target before the last one. *)
Definition entries_fit (pp : PoolParams) (data : list bytes) : Prop :=
  data <> [] /\ forall k, (k < length data)%nat -> Z.of_nat (length (concat (take k data))) < pool_target pp.

(** The node can replay [left] more segments. *)
Record can_replay (nd : DataNode) (ids : list SegmentId) (left : nat) : Prop := {
  cr_ready b : ready (pool_of nd b);
  cr_open b : sp_closed (pool_of nd b) = false;
  cr_queue b : (length (sp_queue (pool_of nd b)) + left <= pp_queue_capacity (params_of b))%nat;
  cr_held b id : id ∈ ids -> not_held (pool_of nd b) id;
  cr_new b k id : id ∈ ids -> new_id_of b k <> id;
  cr_entry id : id ∈ ids -> open_entry (dn_registry nd) id;
  cr_cap : (in_flight_count (dn_registry nd) + left <= IN_FLIGHT_CAP)%nat }.

Lemma replay_one nd id tier ids left now ios b :
  can_replay nd ids (S left) -> id ∈ ids -> (forall k, exists n, ios k = Waits n) ->
  pool_of_tier tier = Some b -> entries_fit (params_of b) (wal_entries_of id (dn_wal nd)) ->
  exists nd', drain_replay_group now ios nd id tier (wal_entries_of id (dn_wal nd)) = (nd', Ok ()) /\
    dn_wal nd' = dn_wal nd /\ frozen_in (dn_registry nd') id (concat (wal_entries_of id (dn_wal nd))) /\
    (forall id', id' <> id -> dn_registry nd' !! id' = dn_registry nd !! id') /\
    forall rest, (forall i, i ∈ rest -> i ∈ ids /\ i <> id) -> can_replay nd' rest left.
Proof using Hsmall Hstandard.
  intros Hc Hin Hio Htier [Hne Hfit]. destruct (wal_entries_of id (dn_wal nd)) as [|x l] eqn:Hdata; [done|].
  destruct (rebuild_group (new_id_of b) (params_of b) (target_pos b) (pool_of nd b) (dn_registry nd) id now ios x l)
    as (p1 & m1 & p' & m' & Hf & Hs & Hr); [done|by intros; eapply cr_new|by eapply cr_entry| | |by eapply cr_held|by eapply cr_ready| |].
  { pose proof (cr_cap _ _ _ Hc). lia. }
  { split; [by eapply cr_open|]. unfold capacity. pose proof (cr_queue _ _ _ Hc b). lia. }
  { intros k Hk. apply Hfit. cbn. lia. }
  eexists. unfold LocalWrite.drain_replay_group. rewrite Htier. split; [by eapply replay_group_pool|].
  destruct Hr as [Hfr Hoth Hrdy Hheld [Hq Hcl]].
  assert (Hp : forall b', pool_of (set_pool nd b p' m') b' = if bool_decide (b' = b) then p' else pool_of nd b')
    by (intros [|]; by destruct b).
  split_and!; [by destruct b|done|done|]. intros rest Hrest.
  pose proof (in_flight_count_change _ _ _ Hoth) as Hcnt. destruct Hc as [C1 C2 C3 C4 C5 C6 C7].
  constructor.
  - intros b'. rewrite Hp. case_bool_decide; auto.
  - intros b'. rewrite Hp. case_bool_decide; auto.
  - intros b'. rewrite Hp. case_bool_decide; [subst b'; pose proof (C3 b)|pose proof (C3 b')]; lia.
  - intros b' i Hi. destruct (Hrest i Hi) as [Hi' Hne']. rewrite Hp. case_bool_decide; [|by apply C4].
    apply Hheld; [by intros; apply C5|left; by apply C4].
  - intros b' k i Hi. apply C5. by apply Hrest.
  - intros i Hi. destruct (Hrest i Hi) as [Hi' Hne']. intros e. cbn. rewrite Hoth by done. by apply C6.
  - cbn. lia.
Qed.

Definition replay_groups (now : Z) (ios : SegmentId -> nat -> send_io) (st : DataNode * outcome PoolError unit)
    (g : SegmentId * SizeTier) : DataNode * outcome PoolError unit :=
  match st with
  | (nd, Ok _) => drain_replay_group now (ios g.1) nd g.1 g.2 (wal_entries_of g.1 (dn_wal nd))
  | st => st
  end.

Lemma replay_all now ios gs : forall nd,
  (forall id k, exists n, ios id k = Waits n) -> NoDup gs.*1 -> can_replay nd gs.*1 (length gs) ->
  (forall g, g ∈ gs -> exists b, pool_of_tier g.2 = Some b /\ entries_fit (params_of b) (wal_entries_of g.1 (dn_wal nd))) ->
  exists nd', foldl (replay_groups now ios) (nd, Ok ()) gs = (nd', Ok ()) /\ dn_wal nd' = dn_wal nd /\
    (forall id, id ∈ gs.*1 -> frozen_in (dn_registry nd') id (concat (wal_entries_of id (dn_wal nd)))) /\
    (forall id, id ∉ gs.*1 -> dn_registry nd' !! id = dn_registry nd !! id).
Proof using Hsmall Hstandard.
  induction gs as [|[id tier] gs IH]; intros nd Hio Hnd Hc Hfit.
  { exists nd. split_and!; [done|done| |done]. intros id H%not_elem_of_nil. done. }
  cbn [fmap list_fmap fst] in *. apply NoDup_cons in Hnd as [Hnot Hnd].
  destruct (Hfit (id, tier)) as (b & Hb & Hf); [by left|].
  destruct (replay_one nd id tier _ (length gs) now (ios id) b Hc) as (nd1 & H1 & Hw & Hfr & Hoth & Hc1); [by left|done..|].
  destruct (IH nd1) as (nd' & H2 & Hw' & Hfr' & Hoth'); [done|done| | |].
  { apply Hc1. intros i Hi. split; [by right|]. by intros ->. }
  { intros g Hg. rewrite Hw. apply Hfit. by right. }
  exists nd'. split_and!.
  - cbn [foldl replay_groups fst snd]. by rewrite H1.
  - congruence.
  - intros i [->|Hi]%elem_of_cons.
    + destruct Hfr as (e & He & ?). exists e. by rewrite Hoth'.
    + rewrite <- Hw. by apply Hfr'.
  - intros i [Hi1 Hi2]%not_elem_of_cons. by rewrite Hoth', Hoth.
Qed.

(** Recording positions changes nothing else. *)
Lemma record_pos_lookup id pos m id' :
  record_data_wal_pos id pos m !! id' = m !! id' \/
  exists e p, m !! id' = Some e /\ record_data_wal_pos id pos m !! id' = Some (set_pos e p).
Proof using Type.
  unfold record_data_wal_pos. destruct (m !! id) as [e|] eqn:E; [|by left]. case_bool_decide; [by left|].
  destruct (decide (id = id')) as [<-|Hne]; [right; rewrite lookup_insert_eq; eauto|left; by rewrite lookup_insert_ne].
Qed.

(** An entry up to its position. *)
Definition same_entry (oe oe' : option LifecycleEntry) : Prop :=
  match oe, oe' with
  | Some e, Some e' => exists p, e' = set_pos e p
  | None, None => True
  | _, _ => False
  end.

Lemma record_positions_same nd id :
  same_entry (dn_registry nd !! id) (dn_registry (record_positions nd) !! id).
Proof using Type.
  unfold record_positions. cbn [dn_registry set_registry].
  apply (map_fold_weak_ind (fun m _ => same_entry (dn_registry nd !! id) (m !! id))).
  - unfold same_entry. destruct (dn_registry nd !! id) as [e|]; [|done]. exists (le_data_wal_pos e). by destruct e.
  - intros i pos ps m _ IH. destruct (record_pos_lookup i pos m id) as [->|(e & p & He & ->)]; [done|].
    rewrite He in IH. unfold same_entry in *. destruct (dn_registry nd !! id) as [e0|]; [|done].
    destruct IH as [p0 ->]. exists p. by destruct e0.
Qed.

Lemma last_positions_Some id wal : wal_entries_of id wal <> [] -> is_Some (last_positions wal !! id).
Proof using Type.
  unfold last_positions, wal_entries_of. induction wal as [|x wal IH] using rev_ind; [done|].
  rewrite foldl_app, omap_app. cbn [foldl]. intros Hne.
  destruct (decide (we_segment_id x.2 = id)) as [<-|Hne']; [by rewrite lookup_insert_eq|].
  rewrite lookup_insert_ne by done. apply IH. intros E. apply Hne. rewrite E. cbn. by rewrite bool_decide_false.
Qed.

Lemma drop_empty_keeps now adopted nd id :
  is_Some (last_positions (dn_wal nd) !! id) -> dn_registry (drop_empty now adopted nd) !! id = dn_registry nd !! id.
Proof using Type.
  intros [pos Hpos]. unfold drop_empty. cbn [dn_registry set_registry]. generalize (map_to_list (live now (dn_registry nd))).
  generalize (dn_registry nd). intros m l. revert m. induction l as [|[i e] l IH]; intros m; [done|]. cbn [foldl].
  rewrite IH. destruct (_ && _) eqn:Hb; [|done]. apply andb_true_iff in Hb as [Hb _].
  apply andb_true_iff in Hb as [_ Hb]. apply bool_decide_eq_true in Hb.
  unfold drop_reserve. destruct (m !! i) as [e'|] eqn:E; [|done]. case_bool_decide; [|done].
  apply lookup_delete_ne. intros ->. congruence.
Qed.

Lemma no_in_flight m : (forall id e, m !! id = Some e -> le_in_flight e = None) -> in_flight_count m = 0%nat.
Proof using Type.
  intros Hm. unfold in_flight_count. apply map_size_empty_iff, map_eq. intros id.
  rewrite lookup_empty. apply map_lookup_filter_None. right. intros e He. cbn. rewrite (Hm id e He). by intros [? ?].
Qed.

(** A node after a restart: new pools, the rebuilt registry, and the log. *)
Record restarted (nd : DataNode) (now : Z) (adopted : gset bytes) : Prop := {
  rs_pool b : exists n, (0 < n)%nat /\ pool_new (new_id_of b) (params_of b) n = Some (pool_of nd b);
  rs_queue b : (length (to_replay nd now adopted) <= pp_queue_capacity (params_of b))%nat;
  rs_cap : (length (to_replay nd now adopted) <= IN_FLIGHT_CAP)%nat;
  rs_new b k : dn_registry nd !! new_id_of b k = None;
  rs_entry id e : dn_registry nd !! id = Some e -> le_in_flight e = None }.

(** The reserved segments belong to a pool and fit in it. *)
Definition log_fits (nd : DataNode) : Prop :=
  forall id e, dn_registry nd !! id = Some e -> le_state e = Reserved -> wal_entries_of id (dn_wal nd) <> [] ->
    exists b, pool_of_tier (sm_size_tier (le_metadata e)) = Some b /\
              entries_fit (params_of b) (wal_entries_of id (dn_wal nd)).

Lemma to_replay_elem nd now adopted id tier :
  (id, tier) ∈ to_replay nd now adopted <->
  exists e, dn_registry nd !! id = Some e /\ le_state e = Reserved /\ id ∉ adopted /\
    wal_entries_of id (dn_wal nd) <> [] /\ tier = sm_size_tier (le_metadata e).
Proof using Type.
  unfold to_replay. rewrite list_elem_of_omap. split.
  - intros ([i e] & Hin & Hf). apply elem_of_map_to_list in Hin. unfold live in Hin.
    apply map_lookup_filter_Some in Hin as [Hin _]. destruct (_ && _) eqn:Hb; [|done]. simplify_eq.
    rewrite !andb_true_iff, !negb_true_iff, !bool_decide_eq_true, !bool_decide_eq_false in Hb.
    destruct Hb as [[? ?] ?]. by exists e.
  - intros (e & He & Hst & Had & Hne & ->). exists (id, e). split.
    + apply elem_of_map_to_list, map_lookup_filter_Some. split; [done|]. cbn. rewrite Hst. split; [done|].
      by apply live_not_expired; rewrite Hst.
    + by rewrite !bool_decide_true, !bool_decide_false by done.
Qed.

Lemma to_replay_NoDup nd now adopted : NoDup (to_replay nd now adopted).*1.
Proof using Type.
  unfold to_replay. pose proof (NoDup_fst_map_to_list (live now (dn_registry nd))) as Hnd. revert Hnd.
  generalize (map_to_list (live now (dn_registry nd))). intros l. induction l as [|[i e] l IH]; cbn [fmap list_fmap fst omap list_omap]; [constructor|].
  intros [Hn Hnd]%NoDup_cons. destruct (_ && _); cbn [fmap list_fmap fst]; [|auto]. constructor; [|auto].
  intros ([i' t] & Hi & Hin)%list_elem_of_fmap. cbn in Hi. subst i'. apply list_elem_of_omap in Hin as ([i2 e2] & Hin & Hf).
  apply Hn. destruct (_ && _); [|done]. simplify_eq. apply list_elem_of_fmap. by exists (i, e2).
Qed.

(** A new pool: empty segments and an empty, open queue. *)
Lemma pool_new_fresh new_id pp n p :
  pool_new new_id pp n = Some p -> (0 < n)%nat ->
  ready p /\ sp_queue p = [] /\ sp_closed p = false /\ forall id, (forall k, new_id k <> id) -> not_held p id.
Proof using Type.
  unfold pool_new. destruct (new_slots new_id pp n 0) as [slots|] eqn:Hs; [|done]. intros [= <-] Hn. cbn [sp_queue sp_closed].
  assert (Hall : forall i slot, slots !! i = Some slot -> exists s k, slot = Appending s /\ as_id s = new_id k /\ as_cursor s = 0)
    by (intros i slot Hi; destruct (new_slots_lookup _ _ _ _ _ i slot Hs Hi) as (s & -> & ? & ? & Hid & _); eauto 10).
  split_and!; [|done|done|].
  - destruct slots as [|slot slots].
    + destruct n; [lia|]. cbn [new_slots] in Hs. destruct (active_new _ _ _); [|done]. cbn in Hs. by destruct (new_slots _ _ _ _).
    + destruct (Hall 0%nat slot) as (s & k & -> & _ & Hc); [done|]. left. cbn. unfold is_empty. by rewrite Hc.
  - intros id Hne i slot Hi. destruct (Hall i slot Hi) as (s & k & -> & He & _). cbn.
    apply bool_decide_false. rewrite He. apply Hne.
Qed.

Lemma restarted_can_replay nd now adopted :
  restarted nd now adopted ->
  can_replay (record_positions nd) (to_replay nd now adopted).*1 (length (to_replay nd now adopted)).
Proof using Hsmall Hstandard.
  intros [Hpool Hq Hcap Hnew Hent].
  assert (Hids : forall id, id ∈ (to_replay nd now adopted).*1 -> exists e, dn_registry nd !! id = Some e /\ le_state e = Reserved).
  { intros id ([i t] & -> & Hin)%list_elem_of_fmap. apply to_replay_elem in Hin as (e & ? & ? & _). by exists e. }
  assert (Hn : forall b k id, id ∈ (to_replay nd now adopted).*1 -> new_id_of b k <> id).
  { intros b k id (e & He & _)%Hids Eq. by rewrite <- Eq, Hnew in He. }
  assert (Hp : forall b, ready (pool_of nd b) /\ sp_queue (pool_of nd b) = [] /\ sp_closed (pool_of nd b) = false /\
                         forall id, (forall k, new_id_of b k <> id) -> not_held (pool_of nd b) id).
  { intros b. destruct (Hpool b) as (n & Hpos & Hnp). by eapply pool_new_fresh. }
  assert (Hsame := record_positions_same nd).
  constructor; try (intros b; replace (pool_of (record_positions nd) b) with (pool_of nd b) by (by destruct b);
                    destruct (Hp b) as (Hr & Hqe & Hcl & Hh)).
  - done.
  - done.
  - rewrite Hqe. apply Hq.
  - intros id Hid. apply Hh. intros k. by apply Hn.
  - intros k id Hid. by apply Hn.
  - intros id (e & He & Hst)%Hids e' He'. specialize (Hsame id). rewrite He, He' in Hsame. destruct Hsame as [p ->].
    cbn. split; [done|]. by eapply Hent.
  - rewrite no_in_flight; [done|]. intros id e' He'. specialize (Hsame id). rewrite He' in Hsame.
    destruct (dn_registry nd !! id) as [e|] eqn:He; [|done]. destruct Hsame as [p ->]. cbn. by eapply Hent.
Qed.

(** Every reserved segment with entries is rebuilt as their concatenation in
    the order of the log. *)
Lemma replay_rebuilds nd now adopted ios :
  restarted nd now adopted -> log_fits nd -> (forall id k, exists n, ios id k = Waits n) ->
  exists nd', replay_data_wal new_small new_standard pp_small pp_standard now ios adopted nd = (nd', Ok ()) /\
    dn_wal nd' = [] /\
    forall id e, dn_registry nd !! id = Some e -> le_state e = Reserved -> id ∉ adopted ->
      wal_entries_of id (dn_wal nd) <> [] ->
      frozen_in (dn_registry nd') id (concat (wal_entries_of id (dn_wal nd))).
Proof using Hsmall Hstandard.
  intros Hr Hfits Hio. destruct (replay_all now ios (to_replay nd now adopted) (record_positions nd)) as (nd1 & H1 & Hw & Hfr & _).
  - done.
  - apply to_replay_NoDup.
  - by apply restarted_can_replay.
  - intros [id tier] (e & He & Hst & Had & Hne & ->)%to_replay_elem. by apply Hfits.
  - exists (set_wal (drop_empty now adopted nd1) []). split_and!.
    + unfold replay_data_wal. change (foldl _ _ _) with
        (foldl (replay_groups now ios) (record_positions nd, Ok ()) (to_replay nd now adopted)). by rewrite H1.
    + done.
    + intros id e He Hst Had Hne. cbn [set_wal dn_registry].
      destruct (Hfr id) as (e' & He' & ?).
      { apply list_elem_of_fmap. exists (id, sm_size_tier (le_metadata e)). split; [done|]. apply to_replay_elem. by exists e. }
      exists e'. split; [|done]. rewrite drop_empty_keeps; [done|]. rewrite Hw. by apply last_positions_Some.
Qed.
End replay_log.
