(* ===== verification/WriteOrder.v ===== *)
(** * Acknowledged chunks after a crash
      (crates/oceanfs-server/src/write/coordinator.rs: [put] step 4;
       crates/oceanfs-storage/src/segment/lifecycle.rs: [recover_reserved_unsealed])

    The replay of [LocalWrite] concatenates the entries of a segment in the
    order of the log and does not look at their offsets. This file relates the
    log to the segments: when writes run one after the other, the entries of a
    segment are its buffer and every chunk is read back after a crash; when
    two writers reach the log in another order than the segment, the bytes
    that are read back are those of the other writer. *)

From Stdlib Require Import ZArith Lia Strings.Byte.
From stdpp Require Import base list gmap relations.
From S2P Require Import Prelude Hlc WalPos WalEntry EventRecord Lifecycle EventWal Recovery MetaStore SegmentPool LocalWrite.

Set Default Proof Using "Type".
Local Open Scope Z_scope.

(** ** The slots and what was written *)

Section pool_order.
Context (new_id : nat -> SegmentId) (pp : PoolParams).
Context (Htarget : 0 < pool_target pp).
Context `{!Inj (=) (=) new_id}.

(** [W] is the content of the segments. *)
Record slots_hold (p : SegmentPool) (W : SegmentId -> bytes) : Prop := {
  sh_slot i s : sp_slots p !! i = Some (Appending s) ->
    as_buffer s = W (as_id s) /\ as_cursor s = Z.of_nat (length (as_buffer s)) /\ as_target_size s = pool_target pp;
  sh_id i s : sp_slots p !! i = Some (Appending s) -> exists k, (k < sp_next p)%nat /\ as_id s = new_id k;
  sh_unique i j s t : sp_slots p !! i = Some (Appending s) -> sp_slots p !! j = Some (Appending t) ->
    as_id s = as_id t -> i = j;
  sh_new k : (sp_next p <= k)%nat -> W (new_id k) = [] }.

Lemma hold_same p p' W : sp_slots p' = sp_slots p -> sp_next p' = sp_next p -> slots_hold p W -> slots_hold p' W.
Proof using Type. intros Hs Hn [H1 H2 H3 H4]. constructor; rewrite ?Hs, ?Hn; eauto. Qed.

Lemma hold_content p W W' :
  (forall k, W' (new_id k) = W (new_id k)) -> slots_hold p W -> slots_hold p W'.
Proof using Type.
  intros HW [H1 H2 H3 H4]. constructor; [|done|done|intros k Hk; rewrite HW; auto].
  intros i s Hi. destruct (H2 i s Hi) as (k & _ & Hk). rewrite Hk, HW, <- Hk. by eapply H1.
Qed.

Lemma hold_vacate p W i x : slots_hold p W -> (forall t, x <> Appending t) -> slots_hold (set_slot p i x) W.
Proof using Type.
  intros [H1 H2 H3 H4] Hx.
  assert (Hold : forall j t, <[i := x]> (sp_slots p) !! j = Some (Appending t) -> sp_slots p !! j = Some (Appending t))
    by (intros j t Ht; apply list_lookup_insert_Some in Ht as [(-> & ? & _)|[_ Ht]]; [by destruct (Hx t)|done]).
  constructor; cbn; eauto.
Qed.

Lemma hold_transition p m W i slot cap now x m' r :
  slots_hold p W -> sp_slots p !! i = Some slot -> transition_to_sealing pp cap now slot m = (x, m', r) ->
  slots_hold (set_slot p i x) W.
Proof using Type.
  intros Hh Hi. unfold transition_to_sealing.
  assert (Hid : slots_hold (set_slot p i slot) W) by (eapply hold_same; [| |done]; [cbn; by apply list_insert_id|done]).
  destruct (negb cap && _); [by intros [= <- _ _]|]. destruct slot as [s|id d|]; [|by intros [= <- _ _]..].
  intros [= <- _ _]. by apply hold_vacate.
Qed.

Lemma hold_activate p W : slots_hold p W -> slots_hold (try_activate_slot new_id pp p).1 W.
Proof using Htarget Inj0.
  intros [H1 H2 H3 H4]. unfold try_activate_slot. destruct (list_find _ (sp_slots p)) as [[i slot]|]; [|done].
  destruct (active_new_empty pp Htarget (new_id (sp_next p))) as (s & -> & Hid & Hb & Hc & Ht & _).
  assert (Hn : forall i, slots_hold (set_slots p (<[i := Appending s]> (sp_slots p)) (S (sp_next p))) W).
  { intros j. assert (Hold : forall k t, <[j := Appending s]> (sp_slots p) !! k = Some (Appending t) ->
      (k = j /\ t = s) \/ sp_slots p !! k = Some (Appending t))
      by (intros k t Hk; apply list_lookup_insert_Some in Hk as [(-> & [= ->] & _)|[_ Hk]]; eauto).
    assert (Hnew : forall k t, sp_slots p !! k = Some (Appending t) -> as_id t <> as_id s)
      by (intros k t Hk E; destruct (H2 k t Hk) as (n & Hn & En); rewrite En, Hid in E; apply (inj new_id) in E; lia).
    constructor; cbn.
    - intros k t [[-> ->]|Hk]%Hold; [|eauto]. rewrite Hb, Hc, Ht, Hid, H4 by lia. done.
    - intros k t [[-> ->]|Hk]%Hold; [exists (sp_next p); split; [lia|done]|].
      destruct (H2 k t Hk) as (n & ? & ?). exists n. split; [lia|done].
    - intros k l t u [[-> ->]|Hk]%Hold [[-> ->]|Hl]%Hold E; [done| | |eauto]; exfalso; eapply Hnew; eauto.
    - intros k Hk. apply H4. lia. }
  unfold install_replacement. cbn [sp_slots set_slots].
  assert (Hskip : slots_hold (set_slots p (sp_slots p) (S (sp_next p))) W).
  { constructor; cbn; [done| |done|]; [|intros k Hk; apply H4; lia].
    intros k t Hk. destruct (H2 k t Hk) as (n & ? & ?). exists n. split; [lia|done]. }
  destruct (sp_slots p !! i) as [[]|]; cbn [fst]; try done; apply Hn.
Qed.

Lemma hold_handoff p m W sealed io :
  slots_hold p W -> slots_hold (finish_seal_handoff_async new_id pp p m sealed io).1.1 W.
Proof using Htarget Inj0.
  intros Hh. destruct sealed as [payload|]; [|done]. apply hold_activate in Hh. unfold finish_seal_handoff_async.
  destruct io as [|n]; [done|]. unfold send. destruct (sp_closed _); [|destruct (_ =? _)%nat];
    by apply (hold_same (try_activate_slot new_id pp p).1).
Qed.

Lemma hold_recover p m W now ios : slots_hold p W -> slots_hold (recover_full_slots_async new_id pp p m now ios).1 W.
Proof using Htarget Inj0.
  intros Hh. unfold recover_full_slots_async. destruct (_ =? _)%nat; [done|].
  assert (Hf : forall order st, slots_hold st.1.1 W -> slots_hold (foldl (freeze_full pp now) st order).1.1 W).
  { induction order as [|i order IH]; intros [[q mq] sealed] Hq; [done|]. apply IH. cbn [freeze_full].
    destruct (sp_slots q !! i) as [[s| |]|] eqn:Hi; try done. destruct (is_full s); [|done].
    destruct (transition_to_sealing pp true now (Appending s) mq) as [[x m1] r] eqn:Ht. cbn. by eapply hold_transition. }
  specialize (Hf (seq 0 (length (sp_slots p))) (p, m, []) Hh).
  destruct (foldl (freeze_full pp now) (p, m, []) _) as [[q mq] sealed]. cbn [fst] in Hf.
  assert (Hg : forall l st, slots_hold st.1 W -> slots_hold (foldl (hand_off new_id pp ios) st l).1 W).
  { induction l as [|x l IH]; intros st Hst; [done|]. apply IH. by apply hold_handoff. }
  by apply Hg.
Qed.

(** [data] is added to a segment. *)
Definition extend (W : SegmentId -> bytes) (id : SegmentId) (data : bytes) : SegmentId -> bytes :=
  fun id' => if bool_decide (id' = id) then W id' ++ data else W id'.

(** What an append reports, given the content before it. *)
Definition appended (W : SegmentId -> bytes) (data : bytes) (out : AppendOutcome) : Prop :=
  (exists k, ao_segment_id out = new_id k) /\ ao_offset out = Z.of_nat (length (W (ao_segment_id out))) /\
  ao_offset out < pool_target pp /\ ao_length out = as_u32 (Z.of_nat (length data)).

Lemma hold_slot_append p m W i data blob now p' m' out :
  slots_hold p W -> slot_append pp p m i data blob now = (p', m', Some out) ->
  slots_hold p' (extend W (ao_segment_id out) data) /\ appended W data out.
Proof using Inj0.
  intros Hh [(_ & _ & ?)|(s & s' & len & x & sealed & Hi & Ha & Hsl & Hn & Hx & [= ->])]%slot_append_spec; [done|].
  cbn [ao_segment_id]. destruct (sh_slot _ _ Hh i s Hi) as (Hb & Hc & Ht). destruct (sh_id _ _ Hh i s Hi) as (k & Hk & Hid).
  unfold active_append in Ha. destruct (is_full s) eqn:Hfull; [done|]. simplify_eq.
  assert (Happ : slots_hold (set_slot p i (Appending {| as_id := as_id s; as_tier := as_tier s; as_buffer := as_buffer s ++ data;
     as_cursor := as_cursor s + Z.of_nat (length data); as_target_size := as_target_size s |})) (extend W (as_id s) data)).
  { set (s1 := {| as_id := as_id s |}).
    assert (Hold : forall j t, <[i := Appending s1]> (sp_slots p) !! j = Some (Appending t) ->
      (j = i /\ t = s1) \/ (j <> i /\ sp_slots p !! j = Some (Appending t)))
      by (intros j t Hj; apply list_lookup_insert_Some in Hj as [(-> & [= ->] & _)|[? Hj]]; auto).
    destruct Hh as [H1 H2 H3 H4]. constructor; cbn.
    - intros j t [[-> ->]|[Hne Hj]]%Hold.
      + cbn. unfold extend. rewrite bool_decide_true by done. rewrite Hb, length_app, Hc, <- Hb. split_and!; [done|lia|done].
      + unfold extend. rewrite bool_decide_false by (intros E; apply Hne; eauto). eauto.
    - intros j t [[-> ->]|[Hne Hj]]%Hold; [by exists k|eauto].
    - intros j l t u [[-> ->]|[Hne Hj]]%Hold [[-> ->]|[Hne' Hl]]%Hold E; [done|eauto..].
    - intros n Hn'. unfold extend. rewrite bool_decide_false; [auto|]. rewrite Hid. intros E%(inj new_id). lia. }
  split.
  - destruct Hx as [[= -> -> ->]|Hx]; [eapply hold_same; [| |exact Happ]; done|].
    eapply hold_same; [| |eapply hold_transition; [exact Happ| |symmetry; exact Hx]]; [|done|].
    + cbn. by rewrite Hsl, list_insert_insert_eq.
    + cbn. apply list_lookup_insert_eq. by eapply lookup_lt_Some.
  - unfold appended. cbn. split_and!; [by exists k|by rewrite Hc, Hb| |done].
    unfold is_full in Hfull. apply Z.leb_gt in Hfull. lia.
Qed.

Lemma hold_pass p m W data blob now p' m' r :
  slots_hold p W -> try_append_single_pass pp p m data blob now = (p', m', Ok r) ->
  match r with
  | Some out => slots_hold p' (extend W (ao_segment_id out) data) /\ appended W data out
  | None => slots_hold p' W
  end.
Proof using Inj0.
  intros Hh. unfold try_append_single_pass. destruct (_ =? _)%nat; [done|].
  set (p0 := set_index _ _). assert (Hp : slots_hold p0 W) by (by apply (hold_same p)). clearbody p0. clear Hh.
  generalize ((fun off => (sp_current_index p + off) mod length (sp_slots p))%nat <$> seq 0 (length (sp_slots p))).
  intros order. induction order as [|i order IH]; cbn [append_scan]; [by intros [= <- _ <-]|].
  destruct (slot_append pp p0 m i data blob now) as [[p1 m1] r1] eqn:H1. destruct r1 as [out|].
  - intros [= <- _ <-]. by eapply hold_slot_append.
  - apply slot_append_spec in H1 as [(-> & -> & _)|(?&?&?&?&?&_&_&_&_&_&?)]; [apply IH|done].
Qed.

(** What other tasks do while an append waits. *)
Definition no_append (others : SegmentPool * Registry -> SegmentPool * Registry) : Prop :=
  forall p m W, slots_hold p W -> slots_hold (others (p, m)).1 W.

Lemma hold_append fuel data blob now ios : forall waits p m W p' m' out,
  slots_hold p W -> Forall no_append waits ->
  append_with_hook_async new_id pp fuel waits p m data blob now ios = Some (p', m', Ok out) ->
  slots_hold p' (extend W (ao_segment_id out) data) /\ appended W data out.
Proof using Htarget Inj0.
  induction fuel as [|fuel IH]; intros waits p m W p' m' out Hh Hw; [done|]. cbn [append_with_hook_async].
  destruct (try_append_single_pass pp p m data blob now) as [[p1 m1] [r|e|]] eqn:H1; [|done..].
  pose proof (hold_pass _ _ _ _ _ _ _ _ _ Hh H1) as Hp. destruct r as [o|]; [by intros [= <- _ <-]|].
  pose proof (hold_recover p1 m1 W now ios Hp) as Hr.
  destruct (recover_full_slots_async new_id pp p1 m1 now ios) as [p2 m2]. cbn [fst] in Hr. apply hold_activate in Hr.
  destruct (try_activate_slot new_id pp p2) as [p3 []]; cbn [fst] in Hr; [by apply IH|].
  destruct waits as [|others waits]; [done|]. apply Forall_cons in Hw as [Ho Hw].
  pose proof (Ho p3 m2 W Hr) as Ho'. destruct (others (p3, m2)) as [p4 m4]. by apply IH.
Qed.

Lemma activate_true p p' :
  try_activate_slot new_id pp p = (p', true) -> exists i slot, sp_slots p' !! i = Some slot /\ writable slot = true.
Proof using Htarget.
  intros Ha. destruct (activate_writable new_id pp Htarget p) as (i & slot & Hs); [|rewrite Ha in Hs; eauto].
  unfold try_activate_slot in Ha. destruct (list_find _ _) as [[i slot]|] eqn:Hf; [|done].
  apply list_find_Some in Hf as (Hi & Hn & _). apply Exists_exists. exists slot. split; [by eapply list_elem_of_lookup_2|].
  unfold usable. by rewrite Hn, orb_true_r.
Qed.

Lemma append_enough_fuel waits : forall fuel p m data blob now ios,
  (append_fuel waits <= fuel)%nat -> append_with_hook_async new_id pp fuel waits p m data blob now ios <> None.
Proof using Htarget.
  unfold append_fuel. induction waits as [|others waits IH]; intros [|[|fuel]] p m data blob now ios Hf; try (cbn in Hf; lia);
    cbn [append_with_hook_async];
    (destruct (try_append_single_pass pp p m data blob now) as [[p1 m1] [[o|]|e|]]; [done| |done|done]);
    (destruct (recover_full_slots_async new_id pp p1 m1 now ios) as [p2 m2]);
    (destruct (try_activate_slot new_id pp p2) as [p3 []] eqn:Ha;
      [apply activate_true in Ha as (i & slot & Hi & Hw);
       destruct (pass_writable pp p3 m2 i slot data blob now Hi Hw) as (p4 & m4 & out & ->); done|]); [done|].
  destruct (others (p3, m2)) as [p4 m4]. apply (IH (S fuel) p4 m4 data blob now ios). cbn in Hf. lia.
Qed.

(** The fuel of [append_chunk] is enough. *)
Lemma append_total waits p m data blob now ios :
  append_with_hook_async new_id pp (append_fuel waits) waits p m data blob now ios <> None.
Proof using Htarget. by apply append_enough_fuel. Qed.
End pool_order.

(** ** The log and the segments *)

Section node_order.
Context (crc32 : bytes -> Z) (blake3 : bytes -> bytes) (shard_for : SegmentId -> Z).
Context (new_small new_standard : nat -> SegmentId) (pp_small pp_standard : PoolParams).
Hypothesis Hsmall : 0 < pool_target pp_small.
Hypothesis Hstandard : 0 < pool_target pp_standard.
Context `{!Inj (=) (=) new_small, !Inj (=) (=) new_standard}.
Hypothesis Hdisj : forall j k, new_small j <> new_standard k.

Notation new_id_of := (new_id_of new_small new_standard).
Notation params_of := (params_of pp_small pp_standard).

Local Instance new_id_of_inj b : Inj (=) (=) (new_id_of b).
Proof using Inj0 Inj1. by destruct b. Qed.

Lemma new_id_of_disj b b' j k : new_id_of b j = new_id_of b' k -> b = b'.
Proof using Hdisj. destruct b, b'; cbn; try done; intros E; exfalso; by eapply Hdisj. Qed.

(** The content of the segments, according to the log. *)
Definition content (wal : list (DataWalPos * WalEntry)) (id : SegmentId) : bytes := concat (wal_entries_of id wal).

Definition holds_content (nd : DataNode) (W : SegmentId -> bytes) : Prop :=
  forall b, slots_hold (new_id_of b) (params_of b) (pool_of nd b) W.

(** Every entry has the offset at which the entries before it end. *)
Definition offsets_ok (wal : list (DataWalPos * WalEntry)) : Prop :=
  forall i pos e, wal !! i = Some (pos, e) ->
    we_offset e = Z.of_nat (length (content (take i wal) (we_segment_id e))) /\
    exists b k, we_segment_id e = new_id_of b k /\ we_offset e < pool_target (params_of b).

Definition in_order (nd : DataNode) : Prop := holds_content nd (content (dn_wal nd)) /\ offsets_ok (dn_wal nd).

Lemma content_snoc wal pos e id :
  content (wal ++ [(pos, e)]) id = extend (content wal) (we_segment_id e) (we_data e) id.
Proof using Type.
  unfold content, wal_entries_of, extend. rewrite omap_app, concat_app. cbn.
  repeat case_bool_decide; try congruence; cbn; by rewrite ?app_nil_r.
Qed.

Lemma holds_set_pool nd b p m W :
  holds_content nd W -> slots_hold (new_id_of b) (params_of b) p W -> holds_content (set_pool nd b p m) W.
Proof using Type. intros Hh Hp b'. specialize (Hh b'). by destruct b, b'. Qed.

(** The other pool does not see the append. *)
Lemma holds_extend nd b p m W k data :
  holds_content nd W -> slots_hold (new_id_of b) (params_of b) p (extend W (new_id_of b k) data) ->
  holds_content (set_pool nd b p m) (extend W (new_id_of b k) data).
Proof using Hdisj.
  intros Hh Hp b'. destruct (decide (b' = b)) as [->|Hne]; [by rewrite pool_of_set|].
  assert (b' = negb b) as -> by (by destruct b, b'). rewrite pool_of_set_other.
  eapply hold_content; [|apply Hh]. intros j. unfold extend. rewrite bool_decide_false; [done|].
  intros E%new_id_of_disj. by destruct b.
Qed.

(** A reference to an entry of the log. *)
Definition logged (wal : list (DataWalPos * WalEntry)) (c : ChunkRef) (stored : bytes) : Prop :=
  exists i pos e, wal !! i = Some (pos, e) /\ we_segment_id e = cr_segment_id c /\ we_offset e = cr_offset c /\
    we_data e = stored /\ cr_length c = as_u32 (Z.of_nat (length stored)).

Lemma logged_app wal wal' c stored : logged wal c stored -> logged (wal ++ wal') c stored.
Proof using Type. intros (i & pos & e & Hi & Hr). exists i, pos, e. split; [by apply lookup_app_l_Some|done]. Qed.

Lemma offsets_snoc wal pos e b k :
  offsets_ok wal -> we_offset e = Z.of_nat (length (content wal (we_segment_id e))) ->
  we_segment_id e = new_id_of b k -> we_offset e < pool_target (params_of b) -> offsets_ok (wal ++ [(pos, e)]).
Proof using Type.
  intros Hok Hoff Hid Hlt i pos' e' Hi. apply lookup_app_Some in Hi as [Hi|[Hge Hi]].
  - rewrite take_app_le by (by apply Nat.lt_le_incl, (lookup_lt_Some _ _ _ Hi)). by eapply Hok.
  - destruct (i - length wal)%nat as [|n] eqn:En; [|done]. simplify_eq/=.
    rewrite take_app_ge by lia. rewrite En, app_nil_r. split; [done|]. by exists b, k.
Qed.

Notation write_chunk := (write_chunk crc32 blake3 shard_for new_small new_standard pp_small pp_standard).

Definition quiet (small : bool) (env : ChunkEnv) : Prop :=
  Forall (no_append (new_id_of small) (params_of small)) (ce_waits env).

Lemma reserve_registry_only small id env nd ls nd' ls' r :
  request_reserve_before_wal shard_for pp_small pp_standard small id env nd ls = (nd', ls', r) ->
  exists m, nd' = set_registry nd m.
Proof using Type.
  unfold request_reserve_before_wal. case_bool_decide; [intros [= <- _ _]; exists (dn_registry nd); by destruct nd|].
  destruct (durable_reserve _ _ _ _ _ _ _ _ _) as [m r1]. exists m. by repeat case_match; simplify_eq.
Qed.

(** The log stays, and so does the content of the slots that remain. *)
Definition undisturbed (nd nd' : DataNode) : Prop :=
  dn_wal nd' = dn_wal nd /\ forall W, holds_content nd W -> holds_content nd' W.

Lemma undisturbed_refl nd : undisturbed nd nd.
Proof using Type. by split. Qed.

Lemma undisturbed_trans nd1 nd2 nd3 : undisturbed nd1 nd2 -> undisturbed nd2 nd3 -> undisturbed nd1 nd3.
Proof using Type. intros [? H1] [? H2]. split; [congruence|auto]. Qed.

Lemma undisturbed_in_order nd nd' : undisturbed nd nd' -> in_order nd -> in_order nd'.
Proof using Type. intros [Hw Hu] [Hh Hok]. split; rewrite Hw; auto. Qed.

Lemma undisturbed_foldl {A} (f : DataNode -> A -> DataNode) (l : list A) :
  (forall nd x, undisturbed nd (f nd x)) -> forall nd, undisturbed nd (foldl f nd l).
Proof using Type.
  intros Hf. induction l as [|x l IH]; intros nd; [apply undisturbed_refl|]. eapply undisturbed_trans; [apply Hf|apply IH].
Qed.

Lemma undisturbed_registry nd m ids : undisturbed nd (set_pending (set_registry nd m) ids).
Proof using Type. split; [done|]. intros W Hh b. specialize (Hh b). by destruct b. Qed.

Lemma undisturbed_pool nd b p m :
  (forall W, slots_hold (new_id_of b) (params_of b) (pool_of nd b) W -> slots_hold (new_id_of b) (params_of b) p W) ->
  undisturbed nd (set_pool nd b p m).
Proof using Type. intros Hp. split; [done|]. intros W Hh. apply holds_set_pool; [done|auto]. Qed.

Lemma undisturbed_hand_off small sealed io nd :
  undisturbed nd (hand_off_chunk new_small new_standard pp_small pp_standard small sealed io nd).1.
Proof using Hsmall Hstandard Inj0 Inj1.
  unfold hand_off_chunk, enqueue_seal_handoff.
  pose proof (fun W => hold_handoff (new_id_of small) (params_of small) (target_pos _ _ Hsmall Hstandard small) (pool_of nd small)
    (dn_registry nd) W sealed io) as Hp.
  destruct (finish_seal_handoff_async _ _ _ _ _ _) as [[p m] [[]| |]]; cbn [fst] in *; by apply undisturbed_pool.
Qed.

(** A commit adds one entry to the log, with what the append reported. *)
Lemma commit_logs small stored ll z hlc env out nd ls nd' ls' c :
  commit_chunk crc32 blake3 shard_for new_small new_standard pp_small pp_standard small stored ll z hlc env out nd ls
    = (nd', ls', Ok c) ->
  (exists pos e, dn_wal nd' = dn_wal nd ++ [(pos, e)] /\ we_segment_id e = ao_segment_id out /\
     we_offset e = ao_offset out /\ we_data e = stored) /\
  (forall W, holds_content nd W -> holds_content nd' W) /\
  c = {| cr_segment_id := ao_segment_id out; cr_offset := ao_offset out; cr_length := ao_length out;
         cr_compressed := z; cr_logical_length := ll |}.
Proof using Hsmall Hstandard Inj0 Inj1.
  unfold commit_chunk. destruct (request_reserve_before_wal _ _ _ _ _ _ _ _) as [[nd1 ls1] [[]| |]] eqn:Hr; [|done..].
  apply reserve_registry_only in Hr as [m ->]. unfold write_wal_entry. destruct (ce_wal env) as [pos|]; [|done].
  cbn [join dn_wal set_registry set_wal dn_registry]. set (e := WalEntry.entry_new _ _ _ _ _ _ _ _ _ _).
  set (nd2 := set_registry _ _).
  pose proof (undisturbed_hand_off small (ao_sealed out) (ce_handoff env) nd2) as [Hw Hh].
  destruct (hand_off_chunk _ _ _ _ _ _ _ nd2) as [nd3 [[]| |]]; [|done..]. cbn [fst] in *. intros [= <- <- <-].
  split_and!; [by exists pos, e| |done]. intros W HW. apply Hh. intros b. specialize (HW b). by destruct b.
Qed.

(** The commit of a chunk that was appended last. *)
Lemma commit_in_order small stored ll z hlc env out nd ls nd' ls' c :
  holds_content nd (extend (content (dn_wal nd)) (ao_segment_id out) stored) -> offsets_ok (dn_wal nd) ->
  appended (new_id_of small) (params_of small) (content (dn_wal nd)) stored out ->
  commit_chunk crc32 blake3 shard_for new_small new_standard pp_small pp_standard small stored ll z hlc env out nd ls
    = (nd', ls', Ok c) ->
  in_order nd' /\ (exists entry, dn_wal nd' = dn_wal nd ++ [entry]) /\ logged (dn_wal nd') c stored /\
  cr_logical_length c = ll /\ cr_compressed c = z.
Proof using Hsmall Hstandard Inj0 Inj1.
  intros Hh Hok ((k & Hk) & Hoff & Hlt & Hlen) ((pos & e & Hw & Hid & Ho & Hd) & Hh' & ->)%commit_logs.
  rewrite Hw. split_and!; [|by eexists| |done|done].
  - split; rewrite Hw; [|rewrite <- Ho, <- Hid in *; by eapply offsets_snoc].
    intros b. eapply hold_content; [|apply (Hh' _ Hh)]. intros j. by rewrite content_snoc, Hid, Hd.
  - exists (length (dn_wal nd)), pos, e. split_and!; [apply lookup_snoc_Some; by right|done..].
Qed.

Lemma append_chunk_holds small blob stored env nd W nd' out :
  holds_content nd W -> quiet small env ->
  append_chunk new_small new_standard pp_small pp_standard small blob stored env nd = (nd', Ok out) ->
  holds_content nd' (extend W (ao_segment_id out) stored) /\
  appended (new_id_of small) (params_of small) W stored out /\ dn_wal nd' = dn_wal nd.
Proof using Hsmall Hstandard Inj0 Inj1 Hdisj.
  intros Hh Hq. unfold append_chunk.
  destruct (append_with_hook_async _ _ _ _ _ _ _ _ _ _) as [[[p m] [o| |]]|] eqn:Ha; [|done..]. intros [= <- <-].
  eapply hold_append in Ha as [Hp Hout]; [|by apply target_pos|apply _|apply Hh|done].
  destruct (Hout) as ((k & Hk) & _). rewrite Hk in *. split_and!; [by eapply holds_extend|done|done].
Qed.

Lemma write_chunk_in_order small blob ctx data hlc env nd ls nd' ls' c :
  in_order nd -> quiet small env -> write_chunk small blob ctx data hlc env nd ls = (nd', ls', Ok c) ->
  in_order nd' /\ (exists entry, dn_wal nd' = dn_wal nd ++ [entry]) /\
  exists stored, compress_chunk ctx data = Ok (stored, cr_logical_length c, cr_compressed c) /\
    logged (dn_wal nd') c stored.
Proof using Hsmall Hstandard Inj0 Inj1 Hdisj.
  intros [Hh Hok] Hq. unfold LocalWrite.write_chunk.
  destruct (compress_chunk ctx data) as [[[stored ll] z]| |] eqn:Hz; [|done..].
  destruct (append_chunk _ _ _ _ _ _ _ _ _) as [nd1 [out| |]] eqn:Ha; [|done..].
  eapply append_chunk_holds in Ha as (Hh1 & Hout & Hw); [|done..]. rewrite <- Hw in Hh1, Hok, Hout |- *. intros Hc.
  apply commit_in_order in Hc as (? & ? & Hl & <- & <-); [|done..]. split_and!; [done|done|]. by exists stored.
Qed.

(** ** Objects *)

Notation write_chunks := (write_chunks crc32 blake3 shard_for new_small new_standard pp_small pp_standard).

Lemma write_chunks_in_order small blob ctx hlc pieces : forall nd ls nd' ls' cs,
  in_order nd -> Forall (fun x => quiet small x.2) pieces ->
  write_chunks small blob ctx pieces hlc nd ls = (nd', ls', Ok cs) ->
  in_order nd' /\ (exists entries, dn_wal nd' = dn_wal nd ++ entries) /\
  Forall2 (fun x c => exists stored, compress_chunk ctx x.1 = Ok (stored, cr_logical_length c, cr_compressed c) /\
    logged (dn_wal nd') c stored) pieces cs.
Proof using Hsmall Hstandard Inj0 Inj1 Hdisj.
  induction pieces as [|[data env] pieces IH]; intros nd ls nd' ls' cs Hin Hq; cbn [LocalWrite.write_chunks].
  { intros [= <- <- <-]. split_and!; [done|exists []; by rewrite app_nil_r|constructor]. }
  apply Forall_cons in Hq as [Hq1 Hq]. destruct (write_chunk _ _ _ _ _ _ _ _) as [[nd1 ls1] [c| |]] eqn:H1; [|done..].
  apply write_chunk_in_order in H1 as (Hin1 & [e1 He1] & stored & Hz & Hl); [|done..].
  destruct (write_chunks _ _ _ _ _ _ _) as [[nd2 ls2] [cs2| |]] eqn:H2; [|done..]. intros [= <- <- <-].
  apply IH in H2 as (Hin2 & [es Hes] & Hall); [|done..]. split_and!; [done| |].
  - exists (e1 :: es). by rewrite Hes, He1, <- app_assoc.
  - constructor; [|done]. exists stored. split; [done|]. rewrite Hes. by apply logged_app.
Qed.

#[local] Hint Resolve undisturbed_refl undisturbed_trans undisturbed_registry undisturbed_pool undisturbed_hand_off : ocean.

Lemma undisturbed_leave nd id : undisturbed nd (leave nd id).
Proof using Type.
  unfold leave. destruct (writer_leave id (dn_registry nd)) as [m []]; [apply undisturbed_registry|].
  apply (undisturbed_registry nd m (dn_pending nd)).
Qed.

Lemma undisturbed_leave_all nd ls : undisturbed nd (leave_all nd ls).
Proof using Type.
  apply undisturbed_foldl. intros nd1 [id n]. apply undisturbed_foldl. intros. apply undisturbed_leave.
Qed.

Lemma hold_freeze_partial b p m id now W order :
  slots_hold (new_id_of b) (params_of b) p W ->
  slots_hold (new_id_of b) (params_of b) (freeze_partial_from (params_of b) p m id now order).1.1 W.
Proof using Type.
  intros Hh. revert m. induction order as [|i order IH]; intros m; cbn [freeze_partial_from]; [done|].
  destruct (sp_slots p !! i) as [slot|] eqn:Hi; [|auto]. destruct (holds_segment id slot); [|auto].
  destruct (transition_to_sealing _ _ _ _ _) as [[x m1] [payload|]] eqn:Ht; [|auto]. by eapply hold_transition.
Qed.

Lemma undisturbed_drain_noted now io nd id :
  undisturbed nd (drain_noted new_small new_standard pp_small pp_standard now io nd id).
Proof using Hsmall Hstandard Inj0 Inj1.
  unfold drain_noted. destruct (get id now _) as [e|]; [|auto with ocean].
  destruct (negb _); [auto with ocean|]. destruct (pool_of_tier _ _ _) as [b|]; [|auto with ocean].
  unfold freeze_partial_for_seal. destruct (freeze_partial_from _ _ _ _ _ _) as [[p m] r] eqn:Hf.
  assert (Hp : undisturbed nd (set_pool nd b p m)).
  { apply undisturbed_pool. intros W Hh. eapply hold_freeze_partial in Hh. by rewrite Hf in Hh. }
  destruct r as [payload|].
  - eauto with ocean.
  - destruct (get id now m) as [e'|]; [|done]. destruct (_ && _); [|done].
    eapply undisturbed_trans; [exact Hp|]. apply (undisturbed_registry (set_pool nd b p m) m).
Qed.

Lemma undisturbed_drain_frozen io nd x :
  undisturbed nd (drain_frozen pp_small pp_standard io nd x).
Proof using Type.
  destruct x as [id [tier data]]. unfold drain_frozen. destruct (pool_of_tier _ _ _) as [b|]; [|auto with ocean].
  unfold enqueue_inflight_work, send. repeat case_match; simplify_eq; apply undisturbed_pool; intros W; by apply hold_same.
Qed.

Lemma undisturbed_drain now io1 io2 nd :
  undisturbed nd (drain_pending_seals new_small new_standard pp_small pp_standard now io1 io2 nd).
Proof using Hsmall Hstandard Inj0 Inj1.
  unfold drain_pending_seals. eapply undisturbed_trans; [|apply undisturbed_foldl; intros; apply undisturbed_drain_frozen].
  eapply undisturbed_trans; [|apply undisturbed_foldl; intros; apply undisturbed_drain_noted].
  apply (undisturbed_registry nd (dn_registry nd)).
Qed.

Notation store_object := (store_object crc32 blake3 shard_for new_small new_standard pp_small pp_standard).

Lemma store_in_order small pieces blob ctx hlc envs now io1 io2 nd nd' cs stored :
  in_order nd -> (forall i, quiet small (envs i)) ->
  store_object small pieces blob ctx hlc envs now io1 io2 nd = (nd', Ok cs) ->
  Forall2 (fun data d => exists n z, compress_chunk ctx data = Ok (d, n, z)) pieces stored ->
  in_order nd' /\ (exists entries, dn_wal nd' = dn_wal nd ++ entries) /\
  forall c d, (c, d) ∈ zip cs stored -> logged (dn_wal nd') c d.
Proof using Hsmall Hstandard Inj0 Inj1 Hdisj.
  intros Hin Hq. unfold LocalWrite.store_object.
  destruct (write_chunks _ _ _ _ _ _ _) as [[nd1 ls1] [cs1| |]] eqn:Hw; [|done..]. intros [= <- <-] Hst.
  set (nd2 := drain_pending_seals _ _ _ _ _ _ _ _).
  assert (Hu : undisturbed nd1 nd2) by (eapply undisturbed_trans; [apply undisturbed_leave_all|apply undisturbed_drain]).
  apply write_chunks_in_order in Hw as (Hin1 & Hext & Hall); [|done|].
  2: { apply Forall_forall. intros x [j Hj]%list_elem_of_lookup. rewrite list_lookup_imap in Hj.
       destruct (pieces !! j); [|done]. simplify_eq/=. apply Hq. }
  split_and!; [by eapply undisturbed_in_order|by rewrite (proj1 Hu)|]. rewrite (proj1 Hu).
  intros c d [j Hj]%list_elem_of_lookup. apply lookup_zip_Some in Hj as [Hc Hd].
  apply (Forall2_lookup_r _ _ _ _ _ Hall) in Hc as (x & Hx & d' & Hz & Hl).
  apply (Forall2_lookup_r _ _ _ _ _ Hst) in Hd as (data & Hdata & n & z & Hz').
  rewrite list_lookup_imap, Hdata in Hx. simplify_eq/=. congruence.
Qed.

(** Objects stored one after the other. The seal worker and the registry move
    at any time; [acked] are the references of the acknowledged chunks, with
    the stored bytes. *)
Inductive serial_writes (nd0 : DataNode) : DataNode -> list (ChunkRef * bytes) -> Prop :=
  | sw_none : serial_writes nd0 nd0 []
  | sw_store nd acked small pieces blob ctx hlc envs now io1 io2 nd' cs stored :
      serial_writes nd0 nd acked -> (forall i, quiet small (envs i)) ->
      store_object small pieces blob ctx hlc envs now io1 io2 nd = (nd', Ok cs) ->
      Forall2 (fun data d => exists n z, compress_chunk ctx data = Ok (d, n, z)) pieces stored ->
      serial_writes nd0 nd' (acked ++ zip cs stored)
  | sw_receive nd acked small n :
      serial_writes nd0 nd acked ->
      serial_writes nd0 (set_pool nd small (receive (pool_of nd small) n) (dn_registry nd)) acked
  | sw_registry nd acked m ids :
      serial_writes nd0 nd acked -> serial_writes nd0 (set_pending (set_registry nd m) ids) acked.

Lemma serial_in_order nd0 nd acked :
  in_order nd0 -> serial_writes nd0 nd acked ->
  in_order nd /\ forall c d, (c, d) ∈ acked -> logged (dn_wal nd) c d.
Proof using Hsmall Hstandard Inj0 Inj1 Hdisj.
  intros H0. induction 1 as [|nd acked small pieces blob ctx hlc envs now io1 io2 nd' cs stored _ [IH1 IH2] Hq Hs Hst
    |nd acked small n _ [IH1 IH2]|nd acked m ids _ [IH1 IH2]].
  - split; [done|]. intros c d H%not_elem_of_nil. done.
  - eapply store_in_order in Hs as (Hin & [es Hes] & Hl); [|done..]. split; [done|].
    intros c d [Hc|Hc]%elem_of_app; [|auto]. rewrite Hes. by apply logged_app, IH2.
  - split; [|done]. eapply undisturbed_in_order; [|done]. apply undisturbed_pool. intros W. by apply hold_same.
  - split; [|done]. eapply undisturbed_in_order; [|done]. apply undisturbed_registry.
Qed.

(** A node that starts. *)
Definition started (nd : DataNode) : Prop :=
  dn_wal nd = [] /\ forall b, exists n, pool_new (new_id_of b) (params_of b) n = Some (pool_of nd b).

Lemma new_slots_target new_id pp n : forall next slots i s,
  0 < pool_target pp -> new_slots new_id pp n next = Some slots -> slots !! i = Some (Appending s) ->
  as_target_size s = pool_target pp.
Proof using Type.
  induction n as [|n IH]; intros next slots i s Ht; cbn [new_slots]; [by intros [= <-]|].
  destruct (active_new_empty pp Ht (new_id next)) as (t & -> & _ & _ & _ & Hs & _). cbn [mbind option_bind].
  destruct (new_slots _ _ _ _) as [rest|] eqn:Hr; [|done]. intros [= <-]. destruct i as [|i]; [by intros [= <-]|]. intros Hi. by apply (IH (S next) rest i).
Qed.

Lemma started_in_order nd : started nd -> in_order nd.
Proof using Hsmall Hstandard Inj0 Inj1.
  intros [Hw Hp]. split; [|rewrite Hw; by intros i pos e]. rewrite Hw. intros b. destruct (Hp b) as [n Hn].
  unfold pool_new in Hn. destruct (new_slots _ _ n 0) as [slots|] eqn:Hs; [|done]. injection Hn as Hn. rewrite <- Hn.
  constructor; cbn; [| | |done].
  - intros i s Hi. rewrite (new_slots_target _ _ _ _ _ _ _ (target_pos _ _ Hsmall Hstandard b) Hs Hi).
    destruct (new_slots_lookup _ _ _ _ _ _ _ Hs Hi) as (t & [= <-] & _ & -> & -> & _). done.
  - intros i s Hi. destruct (new_slots_lookup _ _ _ _ _ _ _ Hs Hi) as (t & [= <-] & Hid & _ & _ & Hlt). by exists i.
  - intros i j s t Hi Hj E. destruct (new_slots_lookup _ _ _ _ _ _ _ Hs Hi) as (s' & [= <-] & Hi' & _).
    destruct (new_slots_lookup _ _ _ _ _ _ _ Hs Hj) as (t' & [= <-] & Hj' & _).
    rewrite Hi', Hj' in E. by apply (inj _) in E.
Qed.
End node_order.

(** ** After the crash *)

Lemma entry_at id wal : forall n x,
  wal_entries_of id wal !! n = Some x ->
  exists i pos e, wal !! i = Some (pos, e) /\ we_segment_id e = id /\ wal_entries_of id (take i wal) = take n (wal_entries_of id wal).
Proof.
  induction wal as [|[pos e] wal IH] using rev_ind; intros n x; [done|].
  unfold wal_entries_of at 1. rewrite omap_app. intros [Hn|[Hge Hn]]%lookup_app_Some.
  - destruct (IH n x Hn) as (i & pos' & e' & Hi & Hid & Htake). pose proof (lookup_lt_Some _ _ _ Hi).
    pose proof (lookup_lt_Some _ _ _ Hn). exists i, pos', e'. split_and!; [by apply lookup_app_l_Some|done|].
    rewrite take_app_le by lia. rewrite Htake. unfold wal_entries_of. rewrite omap_app, take_app_le; [done|]. unfold wal_entries_of in *. lia.
  - cbn in Hn. case_bool_decide as Hid; [|done]. destruct (n - _)%nat as [|k] eqn:En; [|done].
    exists (length wal), pos, e. split_and!; [apply lookup_snoc_Some; by right|done|].
    rewrite take_app_length. unfold wal_entries_of. rewrite omap_app, take_app_ge by lia.
    rewrite En. by rewrite app_nil_r.
Qed.

(** The reference of a chunk in the segment that the log describes. *)
Lemma logged_in_content new_small new_standard pp_small pp_standard wal c d :
  offsets_ok new_small new_standard pp_small pp_standard wal -> logged wal c d ->
  exists before, cr_offset c = Z.of_nat (length before) /\ before ++ d `prefix_of` content wal (cr_segment_id c).
Proof.
  intros Hok (i & pos & e & Hi & Hid & Hoff & Hd & _). destruct (Hok i pos e Hi) as [Ho _].
  exists (content (take i wal) (we_segment_id e)). rewrite <- Hoff, Ho, <- Hid. split; [done|].
  rewrite <- (take_drop_middle wal i (pos, e) Hi) at 2. unfold content, wal_entries_of.
  rewrite omap_app, concat_app. cbn. rewrite bool_decide_true by done. cbn. rewrite Hd, app_assoc. apply prefix_app_r. done.
Qed.

Lemma frozen_read m id d before data slots now1 now2 m2 len :
  frozen_in m id d -> before ++ data `prefix_of` d -> data <> [] -> len = Z.of_nat (length data) ->
  try_read id (Z.of_nat (length before)) len now1 m slots now2 m2 = Some data.
Proof.
  intros (e & He & Hst & Hfl) Hp Hne ->. unfold try_read. rewrite (read_source_reserved _ _ _ e) by done.
  rewrite Hfl. by apply slice_of_prefix.
Qed.

(** The tier of a segment in the registry is the one its pool reserves. *)
Definition tiers_kept (new_small new_standard : nat -> SegmentId) (pp_small pp_standard : PoolParams) (m : Registry) : Prop :=
  forall b k e, m !! new_id_of new_small new_standard b k = Some e ->
    pool_of_tier pp_small pp_standard (sm_size_tier (le_metadata e)) = Some b.

Lemma in_order_fits new_small new_standard pp_small pp_standard nd :
  (forall j k, new_small j <> new_standard k) ->
  offsets_ok new_small new_standard pp_small pp_standard (dn_wal nd) ->
  tiers_kept new_small new_standard pp_small pp_standard (dn_registry nd) -> log_fits pp_small pp_standard nd.
Proof.
  intros Hdisj Hok Htiers id e He _ Hne.
  assert (Hat : forall n, (n < length (wal_entries_of id (dn_wal nd)))%nat -> exists b k, id = new_id_of new_small new_standard b k /\
            Z.of_nat (length (concat (take n (wal_entries_of id (dn_wal nd))))) < pool_target (params_of pp_small pp_standard b)).
  { intros n [x Hx]%lookup_lt_is_Some. destruct (entry_at _ _ _ _ Hx) as (i & pos & e' & Hi & Hid & <-).
    destruct (Hok i pos e' Hi) as (Ho & b & k & Hb & Hlt). unfold content in Ho. rewrite Hid in *. exists b, k.
    split; [done|lia]. }
  destruct (wal_entries_of id (dn_wal nd)) as [|x l] eqn:E; [done|].
  destruct (Hat 0%nat) as (b & k & -> & _); [cbn; lia|]. exists b. split; [by eapply Htiers|]. split; [done|].
  intros n Hn. destruct (Hat n Hn) as (b' & k' & Eq & Hlt).
  by rewrite (new_id_of_disj _ _ Hdisj _ _ _ _ Eq).
Qed.

(** C7: acknowledged chunks survive a crash when objects are stored one after
    the other: after the restart, the replay of the data log succeeds and
    every acknowledged chunk of a segment that was still reserved reads back
    as the bytes that were stored. Segments fill, freeze and are handed to the
    seal worker on the way. *)
Theorem serial_writes_survive_crash (crc32 : bytes -> Z) (blake3 : bytes -> bytes) (shard_for : SegmentId -> Z)
    (new_small new_standard : nat -> SegmentId) (new_small' new_standard' : nat -> SegmentId)
    `{!Inj (=) (=) new_small, !Inj (=) (=) new_standard} (pp_small pp_standard : PoolParams)
    nd0 nd1 acked nd2 now adopted ios c d e :
  0 < pool_target pp_small -> 0 < pool_target pp_standard -> (forall j k, new_small j <> new_standard k) ->
  started new_small new_standard pp_small pp_standard nd0 ->
  serial_writes crc32 blake3 shard_for new_small new_standard pp_small pp_standard nd0 nd1 acked ->
  dn_wal nd2 = dn_wal nd1 -> restarted new_small' new_standard' pp_small pp_standard nd2 now adopted ->
  tiers_kept new_small new_standard pp_small pp_standard (dn_registry nd2) ->
  (forall id k, exists n, ios id k = Waits n) ->
  (c, d) ∈ acked -> d <> [] -> Z.of_nat (length d) <= u32_max ->
  dn_registry nd2 !! cr_segment_id c = Some e -> le_state e = Reserved -> cr_segment_id c ∉ adopted ->
  exists nd3, replay_data_wal new_small' new_standard' pp_small pp_standard now ios adopted nd2 = (nd3, Ok ()) /\
    dn_wal nd3 = [] /\
    forall slots now1 now2 m, try_read (cr_segment_id c) (cr_offset c) (cr_length c) now1 (dn_registry nd3) slots now2 m = Some d.
Proof.
  intros Hs Hl Hdisj H0 Hw Hwal Hr Ht Hio Hc Hne Hlen He Hst Had.
  apply started_in_order in H0; [|done..]. apply serial_in_order in Hw as [[_ Hok] Hlog]; [|done..].
  specialize (Hlog c d Hc). rewrite <- Hwal in Hok, Hlog.
  destruct (replay_rebuilds new_small' new_standard' pp_small pp_standard Hs Hl nd2 now adopted ios Hr) as (nd3 & Hrun & Hempty & Hfr);
    [by eapply in_order_fits|done|]. exists nd3. split_and!; [done|done|]. intros.
  destruct (logged_in_content _ _ _ _ _ _ _ Hok Hlog) as (before & -> & Hp). destruct Hlog as (i & pos & e' & Hi & Hid & _ & Hd & ->).
  eapply frozen_read; [eapply Hfr; [done..|]|exact Hp|done|unfold as_u32; lia].
  intros E. unfold content in Hp. rewrite E in Hp. apply prefix_nil_inv in Hp. by destruct before, d.
Qed.

(** ** Two writers *)

Section interleaved.
Context (crc32 : bytes -> Z) (blake3 : bytes -> bytes) (shard_for : SegmentId -> Z).
Context (new_small new_standard new_small' new_standard' : nat -> SegmentId).
Context `{!Inj (=) (=) new_small, !Inj (=) (=) new_standard} (pp_small pp_standard : PoolParams).
Context (Hsmall : 0 < pool_target pp_small) (Hstandard : 0 < pool_target pp_standard).
Context (Hdisj : forall j k, new_small j <> new_standard k).

(** Two writers append [a] and then [b] to one segment; the second one
    commits first. *)
Record interleaved (small : bool) (a b : bytes) (nd0 nd4 : DataNode) (ca cb : ChunkRef) : Prop := {
  il_start : started new_small new_standard pp_small pp_standard nd0;
  il_run : exists enva envb blob1 blob2 hlca hlcb nd1 nd2 nd3 outa outb lsa lsb,
    quiet new_small new_standard pp_small pp_standard small enva /\
    quiet new_small new_standard pp_small pp_standard small envb /\
    append_chunk new_small new_standard pp_small pp_standard small blob1 a enva nd0 = (nd1, Ok outa) /\
    append_chunk new_small new_standard pp_small pp_standard small blob2 b envb nd1 = (nd2, Ok outb) /\
    ao_segment_id outb = ao_segment_id outa /\
    commit_chunk crc32 blake3 shard_for new_small new_standard pp_small pp_standard small b
      (wrap32 (Z.of_nat (length b))) false hlcb envb outb nd2 no_leases = (nd3, lsb, Ok cb) /\
    commit_chunk crc32 blake3 shard_for new_small new_standard pp_small pp_standard small a
      (wrap32 (Z.of_nat (length a))) false hlca enva outa nd3 no_leases = (nd4, lsa, Ok ca) }.

Lemma interleaved_log small a b nd0 nd4 ca cb :
  interleaved small a b nd0 nd4 ca cb ->
  exists pos1 e1 pos2 e2 k, dn_wal nd4 = [(pos1, e1); (pos2, e2)] /\ we_data e1 = b /\ we_data e2 = a /\
    let id := new_id_of new_small new_standard small k in
    we_segment_id e1 = id /\ we_segment_id e2 = id /\ cr_segment_id ca = id /\ cr_segment_id cb = id /\
    cr_offset ca = 0 /\ cr_offset cb = Z.of_nat (length a) /\
    cr_length ca = as_u32 (Z.of_nat (length a)) /\ cr_length cb = as_u32 (Z.of_nat (length b)) /\
    Z.of_nat (length a) < pool_target (params_of pp_small pp_standard small).
Proof using Hsmall Hstandard Hdisj Inj0 Inj1.
  intros [H0 (enva & envb & blob1 & blob2 & hlca & hlcb & nd1 & nd2 & nd3 & outa & outb & lsa & lsb &
    Hqa & Hqb & Ha & Hb & Hid & Hcb & Hca)].
  destruct (H0) as [Hw0 _]. apply started_in_order in H0 as [Hh0 _]; [|done..]. rewrite Hw0 in Hh0.
  eapply append_chunk_holds in Ha as (Hh1 & ((k & Hk) & Hoffa & _ & Hlena) & Hw1); [|done..].
  eapply append_chunk_holds in Hb as (Hh2 & (_ & Hoffb & Hltb & Hlenb) & Hw2); [|done..].
  apply commit_logs in Hcb as ((pos1 & e1 & Hw3 & Hid1 & _ & Hd1) & _ & ->); [|done..].
  apply commit_logs in Hca as ((pos2 & e2 & Hw4 & Hid2 & _ & Hd2) & _ & ->); [|done..].
  exists pos1, e1, pos2, e2, k. cbn zeta. cbn [cr_segment_id cr_offset cr_length].
  rewrite Hw4, Hw3, Hw2, Hw1, Hw0, Hid1, Hid2, Hid, Hk, Hoffa. rewrite Hoffb in Hltb |- *.
  unfold extend in *. rewrite Hid in *. rewrite bool_decide_true in * by done. cbn in *. split_and!; done.
Qed.

(** two writers of one segment whose entries reach the data log in the
    other order than their bytes reached the segment: after a crash the replay
    succeeds, and the acknowledged chunk of each writer reads back as the
    bytes of the other one. The replay goes by the order of the log and does
    not look at the offset in the entries. *)
Theorem interleaved_commits_swap_bytes small a b nd0 nd4 ca cb nd5 now adopted ios e :
  interleaved small a b nd0 nd4 ca cb ->
  dn_wal nd5 = dn_wal nd4 -> restarted new_small' new_standard' pp_small pp_standard nd5 now adopted ->
  tiers_kept new_small new_standard pp_small pp_standard (dn_registry nd5) ->
  (forall id k, exists n, ios id k = Waits n) ->
  length a = length b -> a <> [] -> Z.of_nat (length a) <= u32_max ->
  dn_registry nd5 !! cr_segment_id ca = Some e -> le_state e = Reserved -> cr_segment_id ca ∉ adopted ->
  exists nd6, replay_data_wal new_small' new_standard' pp_small pp_standard now ios adopted nd5 = (nd6, Ok ()) /\
    forall slots now1 now2 m,
      try_read (cr_segment_id ca) (cr_offset ca) (cr_length ca) now1 (dn_registry nd6) slots now2 m = Some b /\
      try_read (cr_segment_id cb) (cr_offset cb) (cr_length cb) now1 (dn_registry nd6) slots now2 m = Some a.
Proof using Hsmall Hstandard Hdisj Inj0 Inj1.
  intros (pos1 & e1 & pos2 & e2 & k & Hw & Hd1 & Hd2 & Hid1 & Hid2 & Hca & Hcb & Hoa & Hob & Hla & Hlb & Hlt)%interleaved_log
    Hwal Hr Ht Hio Hlen Hne Hmax He Hst Had. rewrite Hw in Hwal.
  assert (Hent : forall id, wal_entries_of id (dn_wal nd5) = if bool_decide (id = cr_segment_id ca) then [b; a] else []).
  { intros id. rewrite Hwal, Hca. unfold wal_entries_of. cbn. rewrite Hid1, Hid2, Hd1, Hd2. by repeat case_bool_decide. }
  destruct (replay_rebuilds new_small' new_standard' pp_small pp_standard Hsmall Hstandard nd5 now adopted ios Hr)
    as (nd6 & Hrun & _ & Hfr); [|done|].
  { intros id e' He' _. rewrite Hent. case_bool_decide as Hid; [|done]. intros _. exists small. rewrite Hid, Hca in He'.
    split; [by eapply Ht|]. split; [done|]. intros [|[|n]] Hn; cbn in Hn |- *; [by apply target_pos|rewrite app_nil_r; lia|lia]. }
  exists nd6. split; [done|]. intros.
  assert (Hf : frozen_in (dn_registry nd6) (cr_segment_id ca) (b ++ a)).
  { specialize (Hfr (cr_segment_id ca) e He Hst Had). rewrite Hent, bool_decide_true in Hfr by done.
    rewrite <- (app_nil_r a). by apply Hfr. }
  rewrite Hcb, <- Hca, Hoa, Hob, Hla, Hlb, Hlen. unfold as_u32.
  split; [apply (frozen_read _ _ (b ++ a) [])|apply (frozen_read _ _ (b ++ a) b)]; try done; try lia.
  - by exists a.
  - by destruct a, b.
Qed.
End interleaved.

(** ** Witnesses *)

Definition tagged_id (tag : byte) (n : nat) : SegmentId := tag :: replicate n x01.

#[export] Instance tagged_id_inj tag : Inj (=) (=) (tagged_id tag).
Proof. intros a b H%(f_equal length). cbn in H. rewrite !length_replicate in H. lia. Qed.

Definition standard_params : PoolParams :=
  {| pp_tier := Standard; pp_size_config := pp_size_config sample_params; pp_ec_config := None; pp_queue_capacity := 2 |}.

Definition new_node (small standard : byte) (m : Registry) (wal : list (DataWalPos * WalEntry)) : DataNode :=
  {| dn_registry := m; dn_small := default sample_pool (pool_new (tagged_id small) sample_params 1);
     dn_standard := default sample_pool (pool_new (tagged_id standard) standard_params 1); dn_wal := wal; dn_pending := [] |}.

Definition sample_env (n : Z) : ChunkEnv :=
  {| ce_now := n; ce_waits := []; ce_recover := fun _ => Waits 0; ce_t1 := n; ce_t2 := n; ce_reserve := Durable;
     ce_wal := Some {| dp_file_seq := 1; dp_offset := n |}; ce_handoff := Waits 0 |}.

Definition sample_hlc : Hlc := {| wall_time := 1; logical := 0 |}.

(** The restart: one reserved segment in the rebuilt registry. *)
Definition restarted_node (id : SegmentId) (wal : list (DataWalPos * WalEntry)) : DataNode :=
  new_node x02 x03 {[id := entry_new Reserved (reserved_meta id Standard x00 x00) 0]} wal.

Lemma restarted_wal id wal : dn_wal (restarted_node id wal) = wal.
Proof. done. Qed.

Lemma restarted_entry id wal :
  dn_registry (restarted_node id wal) !! id = Some (entry_new Reserved (reserved_meta id Standard x00 x00) 0).
Proof. apply lookup_singleton_eq. Qed.

Lemma restarted_sample n wal :
  restarted (tagged_id x02) (tagged_id x03) sample_params standard_params (restarted_node (tagged_id x01 n) wal) 0 ∅.
Proof.
  assert (Hlen : (length (to_replay (restarted_node (tagged_id x01 n) wal) 0 ∅) <= 1)%nat).
  { unfold to_replay, restarted_node, live. cbn [dn_registry dn_wal new_node].
    rewrite map_filter_singleton_True by (by vm_compute). rewrite map_to_list_singleton. cbn [omap list_omap].
    destruct (_ && _); cbn; lia. }
  constructor.
  - intros []; exists 1%nat; (split; [lia|reflexivity]).
  - intros []; cbn [params_of sample_params standard_params pp_queue_capacity]; lia.
  - unfold IN_FLIGHT_CAP. lia.
  - intros [] k; apply lookup_singleton_ne; by intros [=].
  - intros id e He. cbn in He. apply lookup_singleton_Some in He as [<- <-]. done.
Qed.

Lemma tiers_sample n wal :
  tiers_kept (tagged_id x00) (tagged_id x01) sample_params standard_params (dn_registry (restarted_node (tagged_id x01 n) wal)).
Proof. intros [] k e He; cbn in He; apply lookup_singleton_Some in He as [Hid <-]; [done|reflexivity]. Qed.

(** An object of two chunks in one segment. *)
Definition stored_node : DataNode * outcome WriteError (list ChunkRef) :=
  store_object (fun _ => 0) (fun _ => []) (fun _ => 0) (tagged_id x00) (tagged_id x01) sample_params standard_params
    false [[x0a; x0b]; [x0c; x0d; x0e]] sample_blob None sample_hlc (fun i => sample_env (Z.of_nat i)) 5
    (fun _ => Waits 0) (fun _ => O) (new_node x00 x01 ∅ []).

Lemma serial_writes_survive_crash_witness :
  exists nd3, replay_data_wal (tagged_id x02) (tagged_id x03) sample_params standard_params 0 (fun _ _ => Waits 0) ∅
      (restarted_node (tagged_id x01 0) (dn_wal stored_node.1)) = (nd3, Ok ()) /\ dn_wal nd3 = [] /\
    forall slots now1 now2 m,
      try_read (tagged_id x01 0) 2 3 now1 (dn_registry nd3) slots now2 m = Some [x0c; x0d; x0e].
Proof.
  set (c := {| cr_segment_id := tagged_id x01 0; cr_offset := 2; cr_length := 3; cr_compressed := false; cr_logical_length := 3 |}).
  apply (serial_writes_survive_crash (fun _ => 0) (fun _ => []) (fun _ => 0) (tagged_id x00) (tagged_id x01) (tagged_id x02)
    (tagged_id x03) sample_params standard_params (new_node x00 x01 ∅ []) stored_node.1
    ([] ++ zip (match stored_node.2 with Ok cs => cs | _ => [] end) [[x0a; x0b]; [x0c; x0d; x0e]])
    (restarted_node (tagged_id x01 0) (dn_wal stored_node.1)) 0 ∅ (fun _ _ => Waits 0) c [x0c; x0d; x0e]
    (entry_new Reserved (reserved_meta (tagged_id x01 0) Standard x00 x00) 0)).
  - vm_compute. reflexivity.
  - vm_compute. reflexivity.
  - by intros j k [=].
  - split; [done|]. intros []; by exists 1%nat.
  - apply sw_store with (nd := new_node x00 x01 ∅ []) (small := false) (pieces := [[x0a; x0b]; [x0c; x0d; x0e]])
      (blob := sample_blob) (ctx := None) (hlc := sample_hlc) (envs := fun i => sample_env (Z.of_nat i)) (now := 5)
      (io1 := fun _ => Waits 0) (io2 := fun _ => O).
    + apply sw_none.
    + intros i. constructor.
    + vm_compute. reflexivity.
    + repeat constructor; by eexists _, _.
  - apply restarted_wal.
  - apply restarted_sample.
  - apply tiers_sample.
  - intros _ _. by exists O.
  - vm_compute. by right; left.
  - discriminate.
  - vm_compute. discriminate.
  - apply restarted_entry.
  - reflexivity.
  - apply not_elem_of_empty.
Defined.

(** The two appends and the two commits, in the other order. *)
Definition run_append (data : bytes) (n : Z) (nd : DataNode) : DataNode * AppendOutcome :=
  match append_chunk (tagged_id x00) (tagged_id x01) sample_params standard_params false sample_blob data (sample_env n) nd with
  | (nd, Ok out) => (nd, out)
  | (nd, _) => (nd, {| ao_segment_id := []; ao_offset := 0; ao_length := 0; ao_sealed := None |})
  end.

Definition run_commit (data : bytes) (n : Z) (out : AppendOutcome) (nd : DataNode) : DataNode * Leases :=
  (commit_chunk (fun _ => 0) (fun _ => []) (fun _ => 0) (tagged_id x00) (tagged_id x01) sample_params standard_params
    false data (wrap32 (Z.of_nat (length data))) false sample_hlc (sample_env n) out nd no_leases).1.

Definition run1 := Eval vm_compute in run_append [x0a; x0b] 1 (new_node x00 x01 ∅ []).
Definition run2 := Eval vm_compute in run_append [x0c; x0d] 2 run1.1.
Definition run3 := Eval vm_compute in run_commit [x0c; x0d] 2 run2.2 run2.1.
Definition run4 := Eval vm_compute in run_commit [x0a; x0b] 1 run1.2 run3.1.
Definition interleaved_run : DataNode := run4.1.

Lemma interleaved_commits_swap_bytes_witness :
  exists nd6, replay_data_wal (tagged_id x02) (tagged_id x03) sample_params standard_params 0 (fun _ _ => Waits 0) ∅
      (restarted_node (tagged_id x01 0) (dn_wal interleaved_run)) = (nd6, Ok ()) /\
    forall slots now1 now2 m,
      try_read (tagged_id x01 0) 0 2 now1 (dn_registry nd6) slots now2 m = Some [x0c; x0d] /\
      try_read (tagged_id x01 0) 2 2 now1 (dn_registry nd6) slots now2 m = Some [x0a; x0b].
Proof.
  set (ca := {| cr_segment_id := tagged_id x01 0; cr_offset := 0; cr_length := 2; cr_compressed := false; cr_logical_length := 2 |}).
  set (cb := {| cr_segment_id := tagged_id x01 0; cr_offset := 2; cr_length := 2; cr_compressed := false; cr_logical_length := 2 |}).
  apply (interleaved_commits_swap_bytes (fun _ => 0) (fun _ => []) (fun _ => 0) (tagged_id x00) (tagged_id x01) (tagged_id x02)
    (tagged_id x03) sample_params standard_params) with
    (small := false) (a := [x0a; x0b]) (b := [x0c; x0d]) (nd0 := new_node x00 x01 ∅ []) (nd4 := interleaved_run) (ca := ca) (cb := cb)
    (e := entry_new Reserved (reserved_meta (tagged_id x01 0) Standard x00 x00) 0).
  - vm_compute. reflexivity.
  - vm_compute. reflexivity.
  - by intros j k [=].
  - constructor; [split; [done|]; intros []; by exists 1%nat|].
    exists (sample_env 1), (sample_env 2), sample_blob, sample_blob, sample_hlc, sample_hlc.
    exists run1.1, run2.1, run3.1, run1.2, run2.2, run4.2, run3.2.
    split_and!; [constructor|constructor|vm_compute; reflexivity..].
  - apply restarted_wal.
  - apply restarted_sample.
  - apply tiers_sample.
  - intros _ _. by exists O.
  - reflexivity.
  - discriminate.
  - vm_compute. discriminate.
  - apply restarted_entry.
  - reflexivity.
  - apply not_elem_of_empty.
Defined.
