(* ===== verification/PoolRegistry.v ===== *)
(** * Storage pools
      (crates/oceanfs-storage/src/pool/mod.rs, placement.rs, drain.rs, health.rs,
       removed.rs; [StorageConfig] of crates/oceanfs-core/src/config/storage.rs)

    The registry of a node's storage pools: construction from the
    configuration, attachment and detachment at run time, the choice of the
    pool for a new segment, the drain of a pool, and the health monitor that
    degrades, buries and recovers pools. What probing a root and asking for
    its capacity return, the clock and the signals of the disk observer are
    arguments. Floating-point numbers are the doubles of the standard
    library's [SpecFloat]. A path is its components; names are ASCII. The
    monitor ticks pools that are registered at that moment: the tick of a pool
    that was detached in the middle of a pass is not modelled, nor are metrics. *)

From Stdlib Require Import ZArith Lia Strings.Byte SpecFloat.
From stdpp Require Import base list gmap.
From S2P Require Import Prelude Lifecycle.

Set Default Proof Using "Type".
Local Open Scope Z_scope.

(** ** Doubles *)

Notation f64 := spec_float.

Definition f64_mul : f64 -> f64 -> f64 := SFmul 53 1024.
Definition f64_of_Z (n : Z) : f64 := binary_normalize 53 1024 n 0 false.
Definition f64_zero : f64 := S754_zero false.
Definition is_finite (x : f64) : bool := match x with S754_zero _ | S754_finite _ _ _ => true | _ => false end.

(** ** Configuration *)

Inductive PoolRole := RoleData | RoleWal | RoleMetadata | RoleHints.
Inductive PoolStatus := Healthy | Degraded | PoolDead | Draining.
Inductive PoolTech := TechAuto | Hdd | Ssd | Nvme | CloudEphemeral.
Inductive MissingRootPolicy := Fatal | DegradedPolicy.
Inductive TrendPercentile := P50 | P99 | P999.
Inductive SmartCounter := ReallocatedSectors | PendingSectors | UncorrectableEcc | WearLevel.

#[export] Instance PoolRole_eq_dec : EqDecision PoolRole.
Proof. solve_decision. Defined.
#[export] Instance PoolStatus_eq_dec : EqDecision PoolStatus.
Proof. solve_decision. Defined.

Record SmartGrowthConfig := {
  sg_hdd : list SmartCounter; sg_ssd : list SmartCounter; sg_nvme : list SmartCounter;
  sg_cloud_ephemeral : list SmartCounter }.

Record PoolHealthConfig := {
  hc_error_rate_threshold : f64; hc_min_errors : Z; hc_latency_factor : f64; hc_trend_window_secs : Z;
  hc_detection_window_secs : Z; hc_recovery_window_secs : Z; hc_trend_doubling_factor : f64;
  hc_trend_min_windows : nat; hc_trend_latency_percentile : TrendPercentile; hc_history_max_windows : Z;
  hc_smart_growth : SmartGrowthConfig }.

Record PoolHealthOverride := {
  ho_error_rate_threshold : option f64; ho_min_errors : option Z; ho_latency_factor : option f64;
  ho_trend_window_secs : option Z; ho_detection_window_secs : option Z; ho_recovery_window_secs : option Z;
  ho_trend_doubling_factor : option f64; ho_trend_min_windows : option nat;
  ho_trend_latency_percentile : option TrendPercentile; ho_history_max_windows : option Z;
  ho_smart_growth : option SmartGrowthConfig; ho_monitor_tick_interval_secs : option Z;
  ho_event_capacity : option Z; ho_hints_probe_divisor : option Z }.

Definition resolve (o : PoolHealthOverride) (base : PoolHealthConfig) : PoolHealthConfig := {|
  hc_error_rate_threshold := default (hc_error_rate_threshold base) (ho_error_rate_threshold o);
  hc_min_errors := default (hc_min_errors base) (ho_min_errors o);
  hc_latency_factor := default (hc_latency_factor base) (ho_latency_factor o);
  hc_trend_window_secs := default (hc_trend_window_secs base) (ho_trend_window_secs o);
  hc_detection_window_secs := default (hc_detection_window_secs base) (ho_detection_window_secs o);
  hc_recovery_window_secs := default (hc_recovery_window_secs base) (ho_recovery_window_secs o);
  hc_trend_doubling_factor := default (hc_trend_doubling_factor base) (ho_trend_doubling_factor o);
  hc_trend_min_windows := default (hc_trend_min_windows base) (ho_trend_min_windows o);
  hc_trend_latency_percentile := default (hc_trend_latency_percentile base) (ho_trend_latency_percentile o);
  hc_history_max_windows := default (hc_history_max_windows base) (ho_history_max_windows o);
  hc_smart_growth := default (hc_smart_growth base) (ho_smart_growth o) |}.

(** [0.001] is the double nearest to it. *)
Definition default_health : PoolHealthConfig := {|
  hc_error_rate_threshold := S754_finite false 4611686018427388 (-62) ; hc_min_errors := 3; hc_latency_factor := f64_of_Z 5;
  hc_trend_window_secs := 300; hc_detection_window_secs := 30; hc_recovery_window_secs := 300;
  hc_trend_doubling_factor := f64_of_Z 2; hc_trend_min_windows := 3; hc_trend_latency_percentile := P99;
  hc_history_max_windows := 64;
  hc_smart_growth := {| sg_hdd := [ReallocatedSectors; PendingSectors]; sg_ssd := [UncorrectableEcc; WearLevel];
                        sg_nvme := [UncorrectableEcc; WearLevel]; sg_cloud_ephemeral := [] |} |}.

(** The components of a path; an absolute path begins with the root. *)
Notation Path := (list bytes).
Definition ROOT_DIR : bytes := [x2f].
Definition is_absolute (p : Path) : bool := bool_decide (head p = Some ROOT_DIR).
Definition starts_with (p q : Path) : bool := bool_decide (q `prefix_of` p).

Definition paths_overlap (a b : Path) : bool := bool_decide (a = b) || starts_with a b || starts_with b a.

Definition is_space (b : byte) : bool := let z := Z_of_byte b in (9 <=? z) && (z <=? 13) || (z =? 32).

Fixpoint trim_start (s : bytes) : bytes :=
  match s with [] => [] | b :: s' => if is_space b then trim_start s' else s end.

Definition trim (s : bytes) : bytes := rev (trim_start (rev (trim_start s))).

Record PoolConfig := {
  pc_name : bytes; pc_role : PoolRole; pc_root : Path; pc_weight : option Z; pc_tech : PoolTech;
  pc_health : PoolHealthOverride }.

Record StorageConfig := {
  sc_pools : list PoolConfig; sc_health : PoolHealthOverride; sc_missing_root_policy : MissingRootPolicy }.

Definition resolved_pool_health (sc : StorageConfig) (pool : PoolConfig) : PoolHealthConfig :=
  resolve (pc_health pool) (resolve (sc_health sc) default_health).

Inductive ConfigError :=
| PoolsMandatory
| ZeroMonitorTick
| ZeroEventCapacity
| ZeroProbeDivisor
| NoDataPool
| EmptyPoolName
| DuplicateName (name : bytes)
| RelativeRoot (name : bytes)
| DuplicateRoot (root : Path)
| ZeroWeight (name : bytes)
| MonitorFieldOnPool (name : bytes)
| BadErrorRate (name : bytes)
| ZeroWindow (name : bytes)
| BadDoublingFactor (name : bytes)
| TooFewTrendWindows (name : bytes)
| TooFewHistoryWindows (name : bytes)
| OverlapsDataDir (name : bytes)
| TooManyPools (role : PoolRole)
| MissingPool (role : PoolRole)
| RootProbeFailed (name : bytes)
| NoDataPoolRemains.

Definition refuse {E} (b : bool) (e : E) : outcome E unit := if b then Err e else Ok tt.

(** The checks of one pool's health knobs and of its distance from the data
    directory, which [validate] and [validate_attach] spell out alike. *)
Definition validate_knobs (data_dir : Path) (pool : PoolConfig) (health : PoolHealthConfig) : outcome ConfigError unit :=
  let name := pc_name pool in
  _ ← refuse (bool_decide (pc_weight pool = Some 0)) (ZeroWeight name);
  _ ← refuse (bool_decide (is_Some (ho_monitor_tick_interval_secs (pc_health pool)))
              || bool_decide (is_Some (ho_event_capacity (pc_health pool)))
              || bool_decide (is_Some (ho_hints_probe_divisor (pc_health pool)))) (MonitorFieldOnPool name);
  _ ← refuse (negb (SFltb f64_zero (hc_error_rate_threshold health)
                    && SFltb (hc_error_rate_threshold health) (f64_of_Z 1))) (BadErrorRate name);
  _ ← refuse ((hc_trend_window_secs health =? 0) || (hc_detection_window_secs health =? 0)
              || (hc_recovery_window_secs health =? 0)) (ZeroWindow name);
  _ ← refuse (negb (is_finite (hc_trend_doubling_factor health))
              || SFleb (hc_trend_doubling_factor health) (f64_of_Z 1)) (BadDoublingFactor name);
  _ ← refuse (hc_trend_min_windows health <? 3)%nat (TooFewTrendWindows name);
  _ ← refuse (hc_history_max_windows health <? 4) (TooFewHistoryWindows name);
  refuse (paths_overlap (pc_root pool) data_dir) (OverlapsDataDir name).

(** One turn of the loop of [validate]: the trimmed names and the roots seen
    so far. *)
Definition validate_pool (sc : StorageConfig) (data_dir : Path) (seen : list bytes * list Path) (pool : PoolConfig) :
    outcome ConfigError (list bytes * list Path) :=
  let '(names, roots) := seen in
  let name := trim (pc_name pool) in
  _ ← refuse (bool_decide (name = [])) EmptyPoolName;
  _ ← refuse (bool_decide (name ∈ names)) (DuplicateName (pc_name pool));
  _ ← refuse (negb (is_absolute (pc_root pool))) (RelativeRoot (pc_name pool));
  _ ← refuse (bool_decide (pc_root pool ∈ roots)) (DuplicateRoot (pc_root pool));
  _ ← validate_knobs data_dir pool (resolved_pool_health sc pool);
  Ok (name :: names, pc_root pool :: roots).

Definition count_role (role : PoolRole) (pools : list PoolConfig) : nat :=
  length (filter (fun p => pc_role p = role) pools).

Definition validate (sc : StorageConfig) (data_dir : Path) : outcome ConfigError unit :=
  let pools := sc_pools sc in
  _ ← refuse (bool_decide (pools = [])) PoolsMandatory;
  _ ← refuse (bool_decide (ho_monitor_tick_interval_secs (sc_health sc) = Some 0)) ZeroMonitorTick;
  _ ← refuse (bool_decide (ho_event_capacity (sc_health sc) = Some 0)) ZeroEventCapacity;
  _ ← refuse (bool_decide (ho_hints_probe_divisor (sc_health sc) = Some 0)) ZeroProbeDivisor;
  _ ← refuse (count_role RoleData pools =? 0)%nat NoDataPool;
  _ ← ofoldM (validate_pool sc data_dir) ([], []) pools;
  _ ← refuse (1 <? count_role RoleWal pools)%nat (TooManyPools RoleWal);
  _ ← refuse (1 <? count_role RoleMetadata pools)%nat (TooManyPools RoleMetadata);
  _ ← refuse (1 <? count_role RoleHints pools)%nat (TooManyPools RoleHints);
  _ ← refuse (count_role RoleWal pools =? 0)%nat (MissingPool RoleWal);
  _ ← refuse (count_role RoleMetadata pools =? 0)%nat (MissingPool RoleMetadata);
  refuse (count_role RoleHints pools =? 0)%nat (MissingPool RoleHints).

(** ** The registry *)

Record PoolCapacity := { cap_total : Z; cap_free : Z }.
Definition no_capacity : PoolCapacity := {| cap_total := 0; cap_free := 0 |}.

Record StoragePool := {
  pl_id : Z; pl_name : bytes; pl_role : PoolRole; pl_root : Path; pl_weight : Z; pl_tech : PoolTech;
  pl_status : PoolStatus; pl_write_degraded : bool; pl_health : PoolHealthConfig; pl_total_bytes : Z;
  pl_free_bytes : Z }.

Definition new_pool (id : Z) (config : PoolConfig) (weight : Z) (tech : PoolTech) (status : PoolStatus)
    (capacity : PoolCapacity) (health : PoolHealthConfig) : StoragePool := {|
  pl_id := id; pl_name := pc_name config; pl_role := pc_role config; pl_root := pc_root config; pl_weight := weight;
  pl_tech := tech; pl_status := status; pl_write_degraded := false; pl_health := health;
  pl_total_bytes := cap_total capacity; pl_free_bytes := cap_free capacity |}.

Inductive DrainState :=
| DrainIdle
| DrainRunning (blocked_reason : option bytes) (paused : bool)
| Detachable.
Inductive DrainMode := IntraNode | ClusterMode.

#[export] Instance DrainState_eq_dec : EqDecision DrainState.
Proof. solve_decision. Defined.

Record PoolRegistry := {
  rg_pools : list StoragePool; rg_missing_root_policy : MissingRootPolicy; rg_data_dir : Path;
  rg_drain : gmap Z DrainState; rg_global_health : PoolHealthConfig; rg_drain_mode : gmap Z DrainMode }.

Definition with_pools (r : PoolRegistry) (pools : list StoragePool) : PoolRegistry := {|
  rg_pools := pools; rg_missing_root_policy := rg_missing_root_policy r; rg_data_dir := rg_data_dir r;
  rg_drain := rg_drain r; rg_global_health := rg_global_health r; rg_drain_mode := rg_drain_mode r |}.

Definition with_drain (r : PoolRegistry) (drain : gmap Z DrainState) (mode : gmap Z DrainMode) : PoolRegistry := {|
  rg_pools := rg_pools r; rg_missing_root_policy := rg_missing_root_policy r; rg_data_dir := rg_data_dir r;
  rg_drain := drain; rg_global_health := rg_global_health r; rg_drain_mode := mode |}.

Definition GIB : Z := 1024 * 1024 * 1024.
Definition auto_weight (total_bytes : Z) : Z := Z.max (Z.min (total_bytes / GIB) u32_max) 1.
Definition resolve_tech (tech : PoolTech) : PoolTech := match tech with TechAuto => Nvme | other => other end.

Definition pool_by_id (pools : list StoragePool) (id : Z) : option StoragePool :=
  snd <$> list_find (fun p => pl_id p = id) pools.

Definition pool_by_role (pools : list StoragePool) (role : PoolRole) : option StoragePool :=
  snd <$> list_find (fun p => pl_role p = role) pools.

Definition data_pools (pools : list StoragePool) : list StoragePool := filter (fun p => pl_role p = RoleData) pools.

(** Stores to the atomics of the pool the registry finds under [id]. *)
Fixpoint update_pool (f : StoragePool -> StoragePool) (id : Z) (pools : list StoragePool) : list StoragePool :=
  match pools with
  | [] => []
  | p :: pools => if bool_decide (pl_id p = id) then f p :: pools else p :: update_pool f id pools
  end.

Definition store_status (status : PoolStatus) (p : StoragePool) : StoragePool := {|
  pl_id := pl_id p; pl_name := pl_name p; pl_role := pl_role p; pl_root := pl_root p; pl_weight := pl_weight p;
  pl_tech := pl_tech p; pl_status := status; pl_write_degraded := pl_write_degraded p; pl_health := pl_health p;
  pl_total_bytes := pl_total_bytes p; pl_free_bytes := pl_free_bytes p |}.

Definition store_write_degraded (b : bool) (p : StoragePool) : StoragePool := {|
  pl_id := pl_id p; pl_name := pl_name p; pl_role := pl_role p; pl_root := pl_root p; pl_weight := pl_weight p;
  pl_tech := pl_tech p; pl_status := pl_status p; pl_write_degraded := b; pl_health := pl_health p;
  pl_total_bytes := pl_total_bytes p; pl_free_bytes := pl_free_bytes p |}.

Definition store_capacity (c : PoolCapacity) (p : StoragePool) : StoragePool := {|
  pl_id := pl_id p; pl_name := pl_name p; pl_role := pl_role p; pl_root := pl_root p; pl_weight := pl_weight p;
  pl_tech := pl_tech p; pl_status := pl_status p; pl_write_degraded := pl_write_degraded p; pl_health := pl_health p;
  pl_total_bytes := cap_total c; pl_free_bytes := cap_free c |}.

Definition set_status (id : Z) (status : PoolStatus) (r : PoolRegistry) : PoolRegistry :=
  with_pools r (update_pool (store_status status) id (rg_pools r)).

Definition set_write_degraded (id : Z) (b : bool) (r : PoolRegistry) : PoolRegistry :=
  with_pools r (update_pool (store_write_degraded b) id (rg_pools r)).

Definition set_pool_capacity (id total free : Z) (r : PoolRegistry) : PoolRegistry :=
  with_pools r (update_pool (store_capacity {| cap_total := total; cap_free := free |}) id (rg_pools r)).

(** [statvfs] is what the system call returns for each root. *)
Definition refresh_capacity (statvfs : Path -> option PoolCapacity) (r : PoolRegistry) : PoolRegistry :=
  with_pools r ((fun p => match statvfs (pl_root p) with Some c => store_capacity c p | None => p end) <$> rg_pools r).

Definition node_serves_requests (pools : list StoragePool) : bool :=
  from_option (fun p => negb (bool_decide (pl_status p = PoolDead))) true (pool_by_role pools RoleMetadata).

Definition accepts_writes (pools : list StoragePool) : bool :=
  if negb (node_serves_requests pools) then false
  else from_option (fun p => negb (pl_write_degraded p)) true (pool_by_role pools RoleWal).

(** ** Construction, attachment, return of a dead pool *)

(** What the probe of a root and the capacity call return: [None] is a failed
    probe, the capacity is absent when [statvfs] fails. *)
Notation probe_result := (option (option PoolCapacity)).

Definition probe_outcome (policy : MissingRootPolicy) (name : bytes) (probe : probe_result) :
    outcome ConfigError (PoolStatus * PoolCapacity) :=
  match probe, policy with
  | Some capacity, _ => Ok (Healthy, default no_capacity capacity)
  | None, DegradedPolicy => Ok (Degraded, no_capacity)
  | None, Fatal => Err (RootProbeFailed name)
  end.

Record PoolRemovedRecord := { pr_name : bytes; pr_root : Path; pr_removed_at : Z }.
Definition matches (record : PoolRemovedRecord) (name : bytes) (root : Path) : bool :=
  bool_decide (pr_name record = name) && bool_decide (pr_root record = root).

(** One turn of the loop of [from_config_skipping]. *)
Definition register_config (probe : Path -> probe_result) (sc : StorageConfig) (removed : list PoolRemovedRecord)
    (pools : list StoragePool) (entry : nat * PoolConfig) : outcome ConfigError (list StoragePool) :=
  let '(index, config) := entry in
  if existsb (fun record => matches record (pc_name config) (pc_root config)) removed then Ok pools else
  let policy := if bool_decide (pc_role config = RoleHints) then DegradedPolicy else sc_missing_root_policy sc in
  '(status, capacity) ← probe_outcome policy (pc_name config) (probe (pc_root config));
  let weight := match pc_weight config with Some w => w | None => auto_weight (cap_total capacity) end in
  Ok (pools ++ [new_pool (wrap32 (Z.of_nat index)) config weight (resolve_tech (pc_tech config)) status capacity
                  (resolved_pool_health sc config)]).

Definition from_config_skipping (probe : Path -> probe_result) (sc : StorageConfig) (data_dir : Path)
    (removed : list PoolRemovedRecord) : outcome ConfigError PoolRegistry :=
  _ ← validate sc data_dir;
  pools ← ofoldM (register_config probe sc removed) [] (imap pair (sc_pools sc));
  _ ← refuse (bool_decide (data_pools pools = [])) NoDataPoolRemains;
  Ok {| rg_pools := pools; rg_missing_root_policy := sc_missing_root_policy sc; rg_data_dir := data_dir;
        rg_drain := ∅; rg_global_health := resolve (sc_health sc) default_health; rg_drain_mode := ∅ |}.

Definition from_config (probe : Path -> probe_result) (sc : StorageConfig) (data_dir : Path) : outcome ConfigError PoolRegistry :=
  from_config_skipping probe sc data_dir [].

Definition check_existing (pool : PoolConfig) (_ : unit) (current : StoragePool) : outcome ConfigError unit :=
  _ ← refuse (bool_decide (pl_name current = pc_name pool)) (DuplicateName (pc_name pool));
  refuse (bool_decide (pl_root current = pc_root pool)) (DuplicateRoot (pc_root pool)).

Definition validate_attach (r : PoolRegistry) (pool : PoolConfig) (existing : list StoragePool) : outcome ConfigError unit :=
  _ ← refuse (bool_decide (trim (pc_name pool) = [])) EmptyPoolName;
  _ ← refuse (negb (is_absolute (pc_root pool))) (RelativeRoot (pc_name pool));
  _ ← ofoldM (check_existing pool) tt existing;
  _ ← refuse (negb (bool_decide (pc_role pool = RoleData))
              && existsb (fun current => bool_decide (pl_role current = pc_role pool)) existing)
        (TooManyPools (pc_role pool));
  validate_knobs (rg_data_dir r) pool (resolve (pc_health pool) (rg_global_health r)).

(** The search of the lowest id no pool carries. *)
Fixpoint lowest_unused (fuel : nat) (id : Z) (ids : list Z) : Z :=
  match fuel with
  | O => id
  | S fuel => if bool_decide (id ∈ ids) then lowest_unused fuel (id + 1) ids else id
  end.

Definition free_id (pools : list StoragePool) : Z := lowest_unused (length pools) 0 (pl_id <$> pools).

(** [attach]: the registry is read before the root is probed and again under
    the write lock; [now] is the registry then. The drain record is stored
    after that lock is released; the model takes the registration and the
    record as one step. *)
Definition attach (pool : PoolConfig) (probe : probe_result) (before now : PoolRegistry) : outcome ConfigError (Z * PoolRegistry) :=
  _ ← validate_attach before pool (rg_pools before);
  '(status, capacity) ← probe_outcome (rg_missing_root_policy before) (pc_name pool) probe;
  let weight := match pc_weight pool with Some w => w | None => auto_weight (cap_total capacity) end in
  let health := resolve (pc_health pool) (rg_global_health before) in
  _ ← validate_attach now pool (rg_pools now);
  let id := free_id (rg_pools now) in
  let registered := new_pool id pool weight (resolve_tech (pc_tech pool)) status capacity health in
  Ok (id, with_drain (with_pools now (rg_pools now ++ [registered]))
            (<[id := DrainIdle]> (rg_drain now)) (rg_drain_mode now)).

Inductive PoolResetError := ResetUnknownPool (id : Z) | ResetNotDataPool (id : Z) | ResetNotDead (id : Z) | ProbeFailed.

Definition reset_dead_pool (id : Z) (probe : probe_result) (r : PoolRegistry) : outcome PoolResetError PoolRegistry :=
  pool ← ok_or (pool_by_id (rg_pools r) id) (ResetUnknownPool id);
  _ ← refuse (negb (bool_decide (pl_role pool = RoleData))) (ResetNotDataPool id);
  _ ← refuse (negb (bool_decide (pl_status pool = PoolDead))) (ResetNotDead id);
  capacity ← ok_or probe ProbeFailed;
  let c := default no_capacity capacity in
  Ok (set_write_degraded id false (set_status id Healthy (set_pool_capacity id (cap_total c) (cap_free c) r))).

(** ** Placement *)

Definition MIN_FREE_HEADROOM_BYTES : Z := 64 * 1024 * 1024.

Definition score (p : StoragePool) : Z := pl_free_bytes p / Z.max (pl_weight p) 1.

Definition replaces (best : option StoragePool) (p : StoragePool) : bool :=
  match best with
  | None => true
  | Some b => (score b <? score p) || ((score p =? score b) && (pl_id p <? pl_id b))
  end.

Definition best_weighted_least_free (pools : list StoragePool) : option StoragePool :=
  foldl (fun best p => if replaces best p then Some p else best) None pools.

Definition takes_segments (p : StoragePool) : bool := bool_decide (pl_status p = Healthy) && negb (pl_write_degraded p).

Definition select_from_pools (pools : list StoragePool) : option StoragePool :=
  best_weighted_least_free (filter (fun p => takes_segments p && (MIN_FREE_HEADROOM_BYTES <? pl_free_bytes p)) pools).

Definition select_data_pool (r : PoolRegistry) : option StoragePool := select_from_pools (data_pools (rg_pools r)).

Definition select_data_pool_with_headroom (r : PoolRegistry) (exclude : list Z) (required_free : Z) : option StoragePool :=
  let required := saturating_add64 required_free MIN_FREE_HEADROOM_BYTES in
  best_weighted_least_free
    (filter (fun p => negb (bool_decide (pl_id p ∈ exclude)) && (takes_segments p && (required <=? pl_free_bytes p)))
       (data_pools (rg_pools r))).

Definition select_pinned_pool (r : PoolRegistry) (role : PoolRole) : option StoragePool :=
  p ← pool_by_role (rg_pools r) role; if bool_decide (pl_status p = Healthy) then Some p else None.

(** ** Drain and detachment *)

Inductive DrainStateError :=
| DrainUnknownPool (id : Z) | DrainNotDataPool (id : Z) | DeadPool (id : Z) | AlreadyDraining (id : Z) | NotDraining (id : Z).

Inductive DetachError :=
| DetachUnknownPool (id : Z) | WrongRole (id : Z) (role : PoolRole) | NotDetachable (id : Z) | PoolNotEmpty (id : Z).

(** [begin_drain_with_mode] looks at the pool, then stores the drain record,
    the mode and the status, each under its own lock. The model takes the
    check and the three stores as one step, so runs have no operation on the
    same pool between them (another drain, or a status the monitor had
    decided on before). *)
Definition begin_drain_with_mode (id : Z) (mode : DrainMode) (r : PoolRegistry) : outcome DrainStateError PoolRegistry :=
  pool ← ok_or (pool_by_id (rg_pools r) id) (DrainUnknownPool id);
  _ ← refuse (negb (bool_decide (pl_role pool = RoleData))) (DrainNotDataPool id);
  match pl_status pool with
  | PoolDead => Err (DeadPool id)
  | Draining => Err (AlreadyDraining id)
  | Healthy | Degraded =>
      Ok (set_status id Draining
            (with_drain r (<[id := DrainRunning None false]> (rg_drain r)) (<[id := mode]> (rg_drain_mode r))))
  end.

Definition begin_drain (id : Z) (r : PoolRegistry) : outcome DrainStateError PoolRegistry :=
  begin_drain_with_mode id IntraNode r.

Definition drain_mode (r : PoolRegistry) (id : Z) : DrainMode := default IntraNode (rg_drain_mode r !! id).
Definition drain_state (r : PoolRegistry) (id : Z) : DrainState := default DrainIdle (rg_drain r !! id).

Definition is_draining (r : PoolRegistry) (id : Z) : bool :=
  from_option (fun p => bool_decide (pl_status p = Draining)) false (pool_by_id (rg_pools r) id).

Definition put_drain (id : Z) (state : DrainState) (r : PoolRegistry) : PoolRegistry :=
  with_drain r (<[id := state]> (rg_drain r)) (rg_drain_mode r).

Definition set_drain_blocked (id : Z) (reason : option bytes) (r : PoolRegistry) : outcome DrainStateError PoolRegistry :=
  _ ← ok_or (pool_by_id (rg_pools r) id) (DrainUnknownPool id);
  match rg_drain r !! id with
  | Some (DrainRunning _ paused) => Ok (put_drain id (DrainRunning reason paused) r)
  | _ => Err (NotDraining id)
  end.

Definition set_drain_paused (id : Z) (paused : bool) (r : PoolRegistry) : outcome DrainStateError PoolRegistry :=
  _ ← ok_or (pool_by_id (rg_pools r) id) (DrainUnknownPool id);
  match rg_drain r !! id with
  | Some (DrainRunning reason _) => Ok (put_drain id (DrainRunning reason paused) r)
  | _ => Err (NotDraining id)
  end.

Definition set_pool_empty (id : Z) (r : PoolRegistry) : outcome DrainStateError PoolRegistry :=
  pool ← ok_or (pool_by_id (rg_pools r) id) (DrainUnknownPool id);
  match pl_status pool with
  | Draining =>
      match rg_drain r !! id with
      | Some (DrainRunning _ _) => Ok (put_drain id Detachable r)
      | _ => Err (NotDraining id)
      end
  | PoolDead => Err (DeadPool id)
  | Healthy | Degraded => Err (NotDraining id)
  end.

(** [detach] reads the registry twice; [now] is the registry under the write
    lock. The drain record and the mode are removed under locks of their own
    after it; the model takes the three removals as one step. *)
Definition detach (id : Z) (before now : PoolRegistry) : outcome DetachError PoolRegistry :=
  pool ← ok_or (pool_by_id (rg_pools before) id) (DetachUnknownPool id);
  _ ← refuse (negb (bool_decide (pl_role pool = RoleData))) (WrongRole id (pl_role pool));
  _ ← refuse (negb (bool_decide (drain_state before id = Detachable))) (NotDetachable id);
  pool' ← ok_or (pool_by_id (rg_pools now) id) (DetachUnknownPool id);
  _ ← refuse (negb (bool_decide (pl_role pool' = RoleData))) (WrongRole id (pl_role pool'));
  Ok (with_drain (with_pools now (filter (fun p => pl_id p <> id) (rg_pools now)))
        (delete id (rg_drain now)) (delete id (rg_drain_mode now))).

Definition occupies (self : bytes) (pool_id : Z) (e : LifecycleEntry) : bool :=
  bool_decide (sm_pool_id (le_metadata e) = pool_id) &&
  match le_state e with
  | Reserved => true
  | Sealed => bool_decide (self ∈ sm_storage_locations (le_metadata e))
  | Deleted => false
  end.

(** [for_each] visits the live entries at [now]. *)
Definition pool_is_empty (now : Z) (lifecycle : gmap bytes LifecycleEntry) (self : bytes) (pool_id : Z) : bool :=
  negb (existsb (fun e => occupies self pool_id e.2) (map_to_list (live now lifecycle))).

(** The detachment the admin endpoint performs. *)
Definition try_detach_pool (t : Z) (lifecycle : gmap bytes LifecycleEntry) (self : bytes) (id : Z)
    (before now : PoolRegistry) :
    outcome DetachError (bytes * Path * PoolRegistry) :=
  pool ← ok_or (pool_by_id (rg_pools before) id) (DetachUnknownPool id);
  _ ← refuse (negb (bool_decide (pl_role pool = RoleData))) (WrongRole id (pl_role pool));
  _ ← refuse (negb (bool_decide (drain_state before id = Detachable))) (NotDetachable id);
  _ ← refuse (negb (pool_is_empty t lifecycle self id)) (PoolNotEmpty id);
  r ← detach id before now;
  Ok (pl_name pool, pl_root pool, r).

(** ** Health signals *)

Record Latency := { la_p50 : option Z; la_p99 : option Z; la_p999 : option Z }.
Record SmartCounters := {
  sm_reallocated : option Z; sm_pending : option Z; sm_uncorrectable_ecc : option Z; sm_wear_level : option Z }.

(** Durations are nanoseconds; [sg_latency] has an entry per kind of
    operation and [sg_error_kinds] a counter per kind of error. *)
Record PoolSignal := {
  sg_error_rate : f64; sg_ops : Z; sg_errors : Z; sg_latency : list Latency; sg_smart : SmartCounters;
  sg_error_kinds : list Z }.

Inductive IoErrorKind :=
| NotFound | PermissionDenied | ConnectionRefused | ConnectionReset | BrokenPipe | TimedOut | WriteZero | UnexpectedEof
| AlreadyExists | WouldBlock | InvalidData | OutOfMemory | Unsupported | StorageFull | NotADirectory | IsADirectory
| OtherKind.

Definition kind_index (k : IoErrorKind) : nat :=
  match k with
  | NotFound => 0 | PermissionDenied => 1 | ConnectionRefused => 2 | ConnectionReset => 3 | BrokenPipe => 4
  | TimedOut => 5 | WriteZero => 6 | UnexpectedEof => 7 | AlreadyExists => 8 | WouldBlock => 9 | InvalidData => 10
  | OutOfMemory => 11 | Unsupported => 12 | StorageFull => 13 | NotADirectory => 14 | IsADirectory => 15
  | OtherKind => 16
  end.

Definition IO_OP_COUNT : nat := 4.
Definition IO_ERROR_KIND_COUNT : nat := S (kind_index OtherKind).

Definition default_signal : PoolSignal := {|
  sg_error_rate := f64_zero; sg_ops := 0; sg_errors := 0;
  sg_latency := replicate IO_OP_COUNT {| la_p50 := None; la_p99 := None; la_p999 := None |};
  sg_smart := {| sm_reallocated := None; sm_pending := None; sm_uncorrectable_ecc := None; sm_wear_level := None |};
  sg_error_kinds := replicate IO_ERROR_KIND_COUNT 0 |}.

Definition percentile_of (percentile : TrendPercentile) (l : Latency) : option Z :=
  match percentile with P50 => la_p50 l | P99 => la_p99 l | P999 => la_p999 l end.

Definition worst_latency_nanos (percentile : TrendPercentile) (s : PoolSignal) : Z :=
  foldr Z.max 0 (wrap64 <$> omap (percentile_of percentile) (sg_latency s)).

Inductive TrendVerdict := Stable | Degrading.

#[export] Instance TrendVerdict_eq_dec : EqDecision TrendVerdict.
Proof. solve_decision. Defined.

(** [pair_doubles] at index [i] of the series; an index is always in range
    where it is called. *)
Definition pair_doubles (factor : f64) (series : list f64) (i : nat) : bool :=
  match series !! (i - 1)%nat, series !! i with
  | Some previous, Some x => SFltb f64_zero previous && SFleb (f64_mul factor previous) x
  | _, _ => false
  end.

Definition doubling (series : list f64) (factor : f64) (min_windows : nat) : bool :=
  let n := length series in
  if (n <? Nat.max min_windows 3)%nat then false
  else pair_doubles factor series (n - 1) && pair_doubles factor series (n - 2).

Definition smart_growth (series : list Z) : bool :=
  match reverse series with
  | x :: y :: z :: _ => (y <? x) || (z <? y)
  | x :: y :: _ => y <? x
  | _ => false
  end.

Definition smart_counters_for (config : SmartGrowthConfig) (tech : PoolTech) : list SmartCounter :=
  match tech with
  | Hdd => sg_hdd config | Ssd => sg_ssd config | Nvme => sg_nvme config
  | TechAuto | CloudEphemeral => sg_cloud_ephemeral config
  end.

Definition smart_counter_value (smart : SmartCounters) (counter : SmartCounter) : Z :=
  default 0 match counter with
            | ReallocatedSectors => sm_reallocated smart | PendingSectors => sm_pending smart
            | UncorrectableEcc => sm_uncorrectable_ecc smart | WearLevel => sm_wear_level smart
            end.

Definition evaluate_trend_with (history : list PoolSignal) (tech : PoolTech) (config : PoolHealthConfig) : TrendVerdict :=
  let factor := hc_trend_doubling_factor config in
  let min_windows := hc_trend_min_windows config in
  let latencies := (fun s => f64_of_Z (worst_latency_nanos (hc_trend_latency_percentile config) s)) <$> history in
  if doubling (sg_error_rate <$> history) factor min_windows || doubling latencies factor min_windows then Degrading else
  let counters := smart_counters_for (hc_smart_growth config) tech in
  let series := (fun s => foldl saturating_add64 0 (smart_counter_value (sg_smart s) <$> counters)) <$> history in
  if negb (bool_decide (length counters = 0%nat)) && smart_growth series then Degrading else Stable.

Inductive ConfirmedLoss := SegmentNotFound | FsyncIo | DeviceUnplug.

Definition kind_count (kinds : list Z) (k : IoErrorKind) : Z := default 0 (kinds !! kind_index k).

Definition from_kinds (kinds : list Z) : option ConfirmedLoss :=
  if 0 <? kind_count kinds NotFound then Some SegmentNotFound
  else if 0 <? kind_count kinds OtherKind then Some FsyncIo
  else if 0 <? kind_count kinds InvalidData then Some DeviceUnplug
  else None.

Definition f64_max (a b : f64) : f64 := if SFltb b a then a else b.

(** The maximum of the [total_cmp] order, on the non-negative doubles of
    durations. *)
Definition worst_f64 (l : list Z) : f64 := foldl f64_max f64_zero (f64_of_Z <$> l).

Definition latency_spike (s : PoolSignal) (config : PoolHealthConfig) : bool :=
  let p50 := worst_f64 (omap la_p50 (sg_latency s)) in
  let p99 := worst_f64 (omap la_p99 (sg_latency s)) in
  SFltb f64_zero p50 && SFltb (f64_mul (hc_latency_factor config) p50) p99.

Definition saturating_mul64 (a b : Z) : Z := Z.min (a * b) u64_max.

Definition decide_transition (current : PoolStatus) (s : PoolSignal) (verdict : TrendVerdict) (config : PoolHealthConfig)
    (clean_windows tick_secs : Z) : PoolStatus * Z :=
  let degrading := bool_decide (verdict = Degrading)
    || ((hc_min_errors config <=? sg_errors s) && SFltb (hc_error_rate_threshold config) (sg_error_rate s))
    || latency_spike s config in
  match current with
  | Healthy => if degrading then (Degraded, 0) else (Healthy, clean_windows)
  | Degraded =>
      match from_kinds (sg_error_kinds s) with
      | Some _ => (PoolDead, 0)
      | None =>
          if sg_errors s =? 0 then
            let cleaned := saturating_add64 clean_windows 1 in
            if hc_recovery_window_secs config <=? saturating_mul64 cleaned tick_secs then (Healthy, 0)
            else (Degraded, cleaned)
          else (Degraded, 0)
      end
  | PoolDead => (PoolDead, clean_windows)
  | Draining =>
      match from_kinds (sg_error_kinds s) with
      | Some _ => (PoolDead, 0)
      | None => (Draining, clean_windows)
      end
  end.

(** ** The health monitor *)

(** Instants are nanoseconds. *)
Record PoolState := { ms_status : PoolStatus; ms_clean_windows : Z; ms_history : list PoolSignal; ms_next_tick : Z }.

Definition new_state (status : PoolStatus) (now : Z) : PoolState :=
  {| ms_status := status; ms_clean_windows := 0; ms_history := []; ms_next_tick := now |}.

Definition tick_secs (interval : option Z) (config : PoolHealthConfig) : Z :=
  Z.max (default (hc_detection_window_secs config) interval) 1.

Definition history_len (config : PoolHealthConfig) (secs : Z) : nat :=
  Z.to_nat (Z.min (Z.max (hc_trend_window_secs config / secs) 4) (Z.max (hc_history_max_windows config) 4)).

(** The entry of the monitor after it adopts a drain the operator began. *)
Definition reconcile (pool : StoragePool) (entry : PoolState) : PoolState :=
  if bool_decide (pl_status pool = Draining)
  then {| ms_status := Draining; ms_clean_windows := ms_clean_windows entry; ms_history := ms_history entry;
          ms_next_tick := ms_next_tick entry |}
  else entry.

Definition tick_entry (interval : option Z) (now : Z) (signal : PoolSignal) (pool : StoragePool) (entry : PoolState) : PoolState :=
  let config := pl_health pool in
  let secs := tick_secs interval config in
  let pushed := ms_history entry ++ [signal] in
  let history := drop (length pushed - history_len config secs) pushed in
  let verdict := evaluate_trend_with history (pl_tech pool) config in
  let '(status, clean) := decide_transition (ms_status entry) signal verdict config (ms_clean_windows entry) secs in
  {| ms_status := status; ms_clean_windows := clean; ms_history := history; ms_next_tick := now + secs * 1000000000 |}.

(** The part of [tick_pool] under the monitor's lock, with the status the
    registry is to be given when it changed; [snapshot] is the observer's
    window. *)
Definition tick_decide (interval : option Z) (now : Z) (snapshot : option PoolSignal) (pool : StoragePool)
    (mon : gmap Z PoolState) : gmap Z PoolState * option PoolStatus :=
  let id := pl_id pool in
  let entry := reconcile pool (default (new_state (pl_status pool) now) (mon !! id)) in
  if now <? ms_next_tick entry then (<[id := entry]> mon, None) else
  let entry' := tick_entry interval now (default default_signal snapshot) pool entry in
  (<[id := entry']> mon,
   if bool_decide (ms_status entry' = ms_status entry) then None else Some (ms_status entry')).

Definition apply_role_consequences (id : Z) (status : PoolStatus) (r : PoolRegistry) : PoolRegistry :=
  match pool_by_id (rg_pools r) id with
  | Some pool =>
      if bool_decide (pl_role pool = RoleWal) then set_write_degraded id (bool_decide (status = PoolDead)) r else r
  | None => r
  end.

(** The part after the lock is released. *)
Definition apply_status (id : Z) (status : PoolStatus) (r : PoolRegistry) : PoolRegistry :=
  apply_role_consequences id status (set_status id status r).

Definition report_confirmed_loss (id now : Z) (r : PoolRegistry) (mon : gmap Z PoolState) : gmap Z PoolState * option PoolStatus :=
  let entry := default (new_state (from_option pl_status Healthy (pool_by_id (rg_pools r) id)) now) (mon !! id) in
  (<[id := {| ms_status := PoolDead; ms_clean_windows := ms_clean_windows entry; ms_history := ms_history entry;
              ms_next_tick := ms_next_tick entry |}]> mon,
   if bool_decide (ms_status entry = PoolDead) then None else Some PoolDead).

Definition reset_pool (id : Z) (status : PoolStatus) (now : Z) (mon : gmap Z PoolState) : gmap Z PoolState :=
  <[id := new_state status now]> mon.

(** ** The registry and its monitor together *)

(** [sy_pending] holds the decisions made under the monitor's lock and not yet
    stored in the registry. *)
Record System := {
  sy_registry : PoolRegistry; sy_monitor : gmap Z PoolState; sy_pending : list (Z * PoolStatus) }.

(** [before] is the registry as an attachment or a detachment first read it,
    while others still change it. *)
Inductive op :=
| Tick (id now : Z) (snapshot : option PoolSignal)
| Loss (id now : Z)
| Apply (i : nat)
| BeginDrain (id : Z) (mode : DrainMode)
| Blocked (id : Z) (reason : option bytes)
| Paused (id : Z) (paused : bool)
| Empty (id : Z)
| Detach (before : PoolRegistry) (id t : Z) (lifecycle : gmap bytes LifecycleEntry) (self : bytes)
| Attach (before : PoolRegistry) (pool : PoolConfig) (probe : probe_result)
| ResetDead (id now : Z) (probe : probe_result)
| Refresh (statvfs : Path -> option PoolCapacity).

Definition ok_else {E A} (d : A) (o : outcome E A) : A := match o with Ok a => a | _ => d end.

Definition on_registry (s : System) (r : PoolRegistry) : System :=
  {| sy_registry := r; sy_monitor := sy_monitor s; sy_pending := sy_pending s |}.

Definition decided (s : System) (id : Z) (d : gmap Z PoolState * option PoolStatus) : System :=
  {| sy_registry := sy_registry s; sy_monitor := d.1;
     sy_pending := sy_pending s ++ match d.2 with Some status => [(id, status)] | None => [] end |}.

Definition exec (interval : option Z) (s : System) (o : op) : System :=
  let r := sy_registry s in
  match o with
  | Tick id now snapshot =>
      match pool_by_id (rg_pools r) id with
      | Some pool => decided s id (tick_decide interval now snapshot pool (sy_monitor s))
      | None => s
      end
  | Loss id now => decided s id (report_confirmed_loss id now r (sy_monitor s))
  | Apply i =>
      match sy_pending s !! i with
      | Some (id, status) =>
          {| sy_registry := apply_status id status r; sy_monitor := sy_monitor s; sy_pending := delete i (sy_pending s) |}
      | None => s
      end
  | BeginDrain id mode => on_registry s (ok_else r (begin_drain_with_mode id mode r))
  | Blocked id reason => on_registry s (ok_else r (set_drain_blocked id reason r))
  | Paused id paused => on_registry s (ok_else r (set_drain_paused id paused r))
  | Empty id => on_registry s (ok_else r (set_pool_empty id r))
  | Detach before id t lifecycle self =>
      on_registry s (ok_else r (d ← try_detach_pool t lifecycle self id before r; Ok d.2))
  | Attach before pool probe => on_registry s (ok_else r (d ← attach pool probe before r; Ok d.2))
  | ResetDead id now probe =>
      match reset_dead_pool id probe r with
      | Ok r => {| sy_registry := r; sy_monitor := reset_pool id Healthy now (sy_monitor s); sy_pending := sy_pending s |}
      | _ => s
      end
  | Refresh statvfs => on_registry s (refresh_capacity statvfs r)
  end.

Definition exec_all (interval : option Z) : System -> list op -> System := foldl (exec interval).

(** ** Lookups and stores *)

Lemma pool_by_id_Some pools id p : pool_by_id pools id = Some p -> p ∈ pools /\ pl_id p = id.
Proof.
  unfold pool_by_id. rewrite fmap_Some. intros ([i q] & Hf & ->).
  apply list_find_Some in Hf as (Hl & Hid & _). split; [by eapply list_elem_of_lookup_2|done].
Qed.

Lemma pool_by_id_None pools id : pool_by_id pools id = None -> id ∉ (pl_id <$> pools).
Proof.
  unfold pool_by_id. rewrite fmap_None, list_find_None, Forall_forall.
  intros H (p & -> & Hp)%list_elem_of_fmap. by eapply H.
Qed.

Lemma pool_by_id_cons p pools id :
  pool_by_id (p :: pools) id = if bool_decide (pl_id p = id) then Some p else pool_by_id pools id.
Proof.
  unfold pool_by_id. cbn [list_find]. case_bool_decide as H.
  - by rewrite decide_True.
  - rewrite decide_False by done. by destruct (list_find _ pools) as [[i q]|].
Qed.

Lemma pool_by_id_app pools pools' id :
  pool_by_id (pools ++ pools') id = match pool_by_id pools id with Some p => Some p | None => pool_by_id pools' id end.
Proof.
  induction pools as [|p pools IH]; [done|]. cbn [app]. rewrite !pool_by_id_cons. by case_bool_decide.
Qed.

(** A store keeps what identifies a pool. *)
Definition keeps_identity (f : StoragePool -> StoragePool) : Prop :=
  forall p, pl_id (f p) = pl_id p /\ pl_name (f p) = pl_name p /\ pl_role (f p) = pl_role p /\
            pl_root (f p) = pl_root p /\ pl_weight (f p) = pl_weight p.

Lemma store_status_identity status : keeps_identity (store_status status).
Proof. done. Qed.
Lemma store_write_degraded_identity b : keeps_identity (store_write_degraded b).
Proof. done. Qed.
Lemma store_capacity_identity c : keeps_identity (store_capacity c).
Proof. done. Qed.

Lemma update_pool_lookup f id id' pools :
  keeps_identity f ->
  pool_by_id (update_pool f id pools) id' = if bool_decide (id = id') then f <$> pool_by_id pools id' else pool_by_id pools id'.
Proof.
  intros Hf. induction pools as [|p pools IH]; cbn [update_pool]; [by case_bool_decide|].
  destruct (Hf p) as (Hid & _).
  destruct (bool_decide_reflect (pl_id p = id)) as [Hp|Hp]; rewrite !pool_by_id_cons; [rewrite Hid|rewrite IH];
    repeat case_bool_decide; (done || congruence).
Qed.

Lemma update_pool_fmap {A} (g : StoragePool -> A) f id pools :
  (forall p, g (f p) = g p) -> g <$> update_pool f id pools = g <$> pools.
Proof.
  intros Hg. induction pools as [|p pools IH]; [done|]. cbn [update_pool]. case_bool_decide; cbn; by rewrite ?Hg, ?IH.
Qed.

(** ** The registry invariant *)

(** What a registry promises: pools are told apart by id, name and root, the
    pinned roles have one pool at most, weights are positive, a pool is
    registered under an absolute root outside the data directory, and only
    data pools have a drain record other than [DrainIdle]. *)
Record registry_ok (r : PoolRegistry) : Prop := {
  ro_ids : NoDup (pl_id <$> rg_pools r);
  ro_names : NoDup (pl_name <$> rg_pools r);
  ro_roots : NoDup (pl_root <$> rg_pools r);
  ro_roles : forall role, role <> RoleData -> (length (filter (fun x => x = role) (pl_role <$> rg_pools r)) <= 1)%nat;
  ro_weights : Forall (fun w => w <> 0) (pl_weight <$> rg_pools r);
  ro_absolute : Forall (fun root => is_absolute root = true /\ paths_overlap root (rg_data_dir r) = false)
                  (pl_root <$> rg_pools r);
  ro_drain : forall id state, rg_drain r !! id = Some state ->
               state = DrainIdle \/ exists p, pool_by_id (rg_pools r) id = Some p /\ pl_role p = RoleData;
  ro_drain_ids : forall id, is_Some (rg_drain r !! id) -> id ∈ (pl_id <$> rg_pools r) }.

Lemma refuse_Ok {E} (b : bool) (e : E) u : refuse b e = Ok u -> b = false.
Proof. by destruct b. Qed.

(** Takes apart a sequence of checks that succeeded. *)
Ltac checks H :=
  repeat match type of H with
  | mbind _ ?x = Ok _ =>
      let E := fresh "E" in
      destruct x as [?|?|] eqn:E; cbn [mbind outcome_bind] in H; [|discriminate H|discriminate H];
      try (apply refuse_Ok in E)
  end.

Lemma update_ok f id r :
  keeps_identity f -> registry_ok r -> registry_ok (with_pools r (update_pool f id (rg_pools r))).
Proof.
  intros Hf []. constructor; cbn [with_pools rg_pools rg_data_dir rg_drain];
    rewrite ?update_pool_fmap by (intros p; by destruct (Hf p) as (?&?&?&?&?)); try done.
  intros id' state Hs. destruct (ro_drain0 id' state Hs) as [?|(p & Hp & Hr)]; [by left|right].
  rewrite update_pool_lookup by done. rewrite Hp. case_bool_decide; [|by eauto].
  exists (f p). split; [done|]. destruct (Hf p) as (_&_&->&_). done.
Qed.

Lemma put_drain_ok r id p state mode :
  pool_by_id (rg_pools r) id = Some p -> pl_role p = RoleData -> registry_ok r ->
  registry_ok (with_drain r (<[id := state]> (rg_drain r)) mode).
Proof.
  intros Hp Hr []. constructor; try done; cbn [with_drain rg_pools rg_drain].
  - intros id' st'. rewrite lookup_insert_Some. intros [[<- <-]|[_ H]]; [right; eauto|eauto].
  - intros id' H. destruct (decide (id = id')) as [<-|Hne].
    + apply pool_by_id_Some in Hp as [Hp <-]. by apply list_elem_of_fmap_2.
    + apply ro_drain_ids0. by rewrite lookup_insert_ne in H.
Qed.

Lemma running_data r id reason paused :
  registry_ok r -> rg_drain r !! id = Some (DrainRunning reason paused) ->
  exists p, pool_by_id (rg_pools r) id = Some p /\ pl_role p = RoleData.
Proof. intros Hok H. by destruct (ro_drain r Hok id _ H). Qed.

(** ** Attachment and detachment keep the invariant *)

Lemma lowest_unused_spec fuel id ids :
  (forall i, 0 <= i < id -> i ∈ ids) ->
  let n := lowest_unused fuel id ids in
  (id <= n /\ forall i, 0 <= i < n -> i ∈ ids) /\ (n ∉ ids \/ n = id + Z.of_nat fuel).
Proof.
  revert id. induction fuel as [|fuel IH]; intros id Hid; cbn [lowest_unused].
  - split; [split; [lia|done]|right; lia].
  - case_bool_decide as Hin; [|split; [split; [lia|done]|by left]].
    destruct (IH (id + 1)) as [[H1 H2] H3].
    { intros i Hi. destruct (decide (i = id)) as [->|]; [done|]. apply Hid. lia. }
    split; [split; [lia|done]|]. destruct H3 as [H3|H3]; [by left|right; lia].
Qed.

Lemma below_length (ids : list Z) n : 0 <= n -> (forall i, 0 <= i < n -> i ∈ ids) -> n <= Z.of_nat (length ids).
Proof.
  intros Hn H. assert (seqZ 0 n ⊆+ ids) as Hs.
  { apply NoDup_submseteq; [apply NoDup_seqZ|]. intros i. rewrite elem_of_seqZ. intros ?. apply H. lia. }
  apply submseteq_length in Hs. rewrite length_seqZ in Hs. lia.
Qed.

(** The id an attachment takes is free, and every lower id is taken. *)
Lemma free_id_spec pools :
  free_id pools ∉ (pl_id <$> pools) /\ 0 <= free_id pools /\ forall i, 0 <= i < free_id pools -> i ∈ (pl_id <$> pools).
Proof.
  unfold free_id. destruct (lowest_unused_spec (length pools) 0 (pl_id <$> pools)) as [[H1 H2] H3]; [lia|].
  split; [|done]. destruct H3 as [H3|H3]; [done|]. intros Hin.
  assert (Z.of_nat (length pools) + 1 <= Z.of_nat (length (pl_id <$> pools))) as Hlen; [|rewrite length_fmap in Hlen; lia].
  apply below_length; [lia|]. intros i Hi. destruct (decide (i = lowest_unused (length pools) 0 (pl_id <$> pools))) as [->|];
    [done|apply H2; lia].
Qed.

Lemma auto_weight_positive total : auto_weight total <> 0.
Proof. unfold auto_weight. lia. Qed.

Lemma validate_knobs_Ok dir pool health u :
  validate_knobs dir pool health = Ok u -> pc_weight pool <> Some 0 /\ paths_overlap (pc_root pool) dir = false.
Proof. unfold validate_knobs. intros H. checks H. apply refuse_Ok in H. by apply bool_decide_eq_false in E. Qed.

Lemma chosen_weight pool total :
  pc_weight pool <> Some 0 -> match pc_weight pool with Some w => w | None => auto_weight total end <> 0.
Proof. destruct (pc_weight pool); [congruence|intros _; apply auto_weight_positive]. Qed.

Lemma check_existing_Ok pool existing u u' :
  ofoldM (check_existing pool) u existing = Ok u' ->
  pc_name pool ∉ (pl_name <$> existing) /\ pc_root pool ∉ (pl_root <$> existing).
Proof.
  revert u. induction existing as [|c existing IH]; intros u; cbn [ofoldM]; [by split; apply not_elem_of_nil|].
  destruct (check_existing pool u c) as [v| |] eqn:Hc; [|done..]. intros [H1 H2]%IH.
  unfold check_existing in Hc. checks Hc. apply refuse_Ok in Hc. apply bool_decide_eq_false in E, Hc.
  cbn [fmap list_fmap]. rewrite !not_elem_of_cons. naive_solver.
Qed.

Lemma role_free (role : PoolRole) pools :
  existsb (fun c => bool_decide (pl_role c = role)) pools = false ->
  length (filter (fun x => x = role) (pl_role <$> pools)) = 0%nat.
Proof.
  induction pools as [|p pools IH]; [done|]. cbn [existsb]. intros [H1 H2]%orb_false_iff.
  apply bool_decide_eq_false in H1. cbn [fmap list_fmap]. rewrite filter_cons_False by done. auto.
Qed.

Lemma validate_attach_Ok r pool existing u :
  validate_attach r pool existing = Ok u ->
  is_absolute (pc_root pool) = true /\ pc_name pool ∉ (pl_name <$> existing) /\ pc_root pool ∉ (pl_root <$> existing) /\
  (pc_role pool <> RoleData -> length (filter (fun x => x = pc_role pool) (pl_role <$> existing)) = 0%nat) /\
  pc_weight pool <> Some 0 /\ paths_overlap (pc_root pool) (rg_data_dir r) = false.
Proof.
  unfold validate_attach. intros H. checks H.
  match goal with Hf : ofoldM _ _ _ = _ |- _ => apply check_existing_Ok in Hf as [Hname Hroot] end.
  match goal with Ha : negb (is_absolute _) = false |- _ => apply negb_false_iff in Ha end.
  apply validate_knobs_Ok in H as [Hw Hover]. split_and!; try done.
  intros Hr. match goal with Hx : _ && _ = false |- _ => rewrite bool_decide_eq_false_2 in Hx by done; by apply role_free in Hx end.
Qed.

Lemma attach_ok pool probe before now id r :
  attach pool probe before now = Ok (id, r) -> registry_ok now -> registry_ok r.
Proof.
  unfold attach. intros H Hok. checks H. destruct a0 as [status capacity]. checks H. injection H as <- <-.
  match goal with Hv : validate_attach now _ _ = _ |- _ =>
    apply validate_attach_Ok in Hv as (Habs & Hname & Hroot & Hrole & Hw & Hover) end.
  destruct (free_id_spec (rg_pools now)) as [Hid _].
  destruct Hok. constructor; cbn [with_drain with_pools rg_pools rg_data_dir rg_drain];
    rewrite ?fmap_app; cbn [fmap list_fmap new_pool pl_id pl_name pl_root pl_weight pl_role].
  1-3: apply NoDup_app; (split; [done|split; [|apply NoDup_singleton]]);
       intros x Hx ->%list_elem_of_singleton; done.
  - intros role Hr. rewrite filter_app, length_app. specialize (ro_roles0 role Hr).
    destruct (decide (pc_role pool = role)) as [<-|Hne].
    + rewrite Hrole by done. rewrite filter_cons_True by done. cbn. lia.
    + rewrite filter_cons_False by done. cbn. lia.
  - apply Forall_app. split; [done|]. apply Forall_singleton. by apply chosen_weight.
  - apply Forall_app. split; [done|]. by apply Forall_singleton.
  - intros i st. rewrite lookup_insert_Some. intros [[_ <-]|[_ Hi]]; [by left|].
    destruct (ro_drain0 i st Hi) as [?|(p & Hp & Hr)]; [by left|right]. exists p. by rewrite pool_by_id_app, Hp.
  - intros i Hi. rewrite elem_of_app, list_elem_of_singleton. destruct (decide (i = free_id (rg_pools now))) as [->|Hne];
      [by right|left]. apply ro_drain_ids0. by rewrite lookup_insert_ne in Hi.
Qed.

Lemma filter_fmap_sublist {A} (g : StoragePool -> A) (P : StoragePool -> Prop) `{!forall p, Decision (P p)} pools :
  sublist (g <$> filter P pools) (g <$> pools).
Proof.
  induction pools as [|p pools IH]; [done|]. destruct (decide (P p)).
  - rewrite filter_cons_True by done. by apply sublist_skip.
  - rewrite filter_cons_False by done. by apply sublist_cons.
Qed.

Lemma NoDup_sublist {A} (l k : list A) : sublist l k -> NoDup k -> NoDup l.
Proof.
  induction 1 as [|x l k H IH|x l k H IH]; rewrite ?NoDup_cons; [done| |naive_solver].
  intros [Hx Hk]. split; [|auto]. intros Hin. apply Hx. eapply elem_of_submseteq; [done|by apply sublist_submseteq].
Qed.

Lemma Forall_sublist {A} (P : A -> Prop) l k : sublist l k -> Forall P k -> Forall P l.
Proof. induction 1; rewrite ?Forall_cons; naive_solver. Qed.

Lemma count_sublist {A} (P : A -> Prop) `{!forall x, Decision (P x)} l k :
  sublist l k -> (length (filter P l) <= length (filter P k))%nat.
Proof. induction 1 as [|x l k Hs IH|x l k Hs IH]; rewrite ?filter_cons; repeat case_decide; cbn; lia. Qed.

Lemma pool_by_id_filter pools id id' :
  id <> id' -> pool_by_id (filter (fun p => pl_id p <> id) pools) id' = pool_by_id pools id'.
Proof.
  intros Hne. induction pools as [|p pools IH]; [done|]. rewrite filter_cons.
  case_decide as Hp; rewrite !pool_by_id_cons, IH; [done|]. rewrite bool_decide_eq_false_2; [done|].
  naive_solver.
Qed.

Lemma detach_ok id before now r : detach id before now = Ok r -> registry_ok now -> registry_ok r.
Proof.
  unfold detach. intros H []. checks H. injection H as <-.
  pose proof (fun A (g : StoragePool -> A) => filter_fmap_sublist g (fun p => pl_id p <> id) (rg_pools now)) as Hs.
  constructor; cbn [with_drain with_pools rg_pools rg_data_dir rg_drain].
  1-3: eapply NoDup_sublist; [apply Hs|done].
  - intros role Hr. etrans; [apply count_sublist, Hs|auto].
  - eapply Forall_sublist; [apply Hs|done].
  - eapply Forall_sublist; [apply Hs|done].
  - intros i st [Hi Hst]%lookup_delete_Some. destruct (ro_drain0 i st Hst) as [?|(p & Hp & Hr)]; [by left|right].
    exists p. by rewrite pool_by_id_filter.
  - intros i [st [Hi Hst]%lookup_delete_Some]. assert (is_Some (rg_drain now !! i)) as His by eauto.
    apply ro_drain_ids0, list_elem_of_fmap in His as (p & -> & Hp).
    apply list_elem_of_fmap_2, list_elem_of_filter. split; [congruence|done].
Qed.

(** ** Every operation keeps the invariant *)

Lemma set_status_ok id status r : registry_ok r -> registry_ok (set_status id status r).
Proof. apply update_ok, store_status_identity. Qed.

Lemma set_write_degraded_ok id b r : registry_ok r -> registry_ok (set_write_degraded id b r).
Proof. apply update_ok, store_write_degraded_identity. Qed.

Lemma set_pool_capacity_ok id total free r : registry_ok r -> registry_ok (set_pool_capacity id total free r).
Proof. apply update_ok, store_capacity_identity. Qed.

Create HintDb pools.
#[export] Hint Resolve set_status_ok set_write_degraded_ok set_pool_capacity_ok : pools.

Lemma apply_status_ok id status r : registry_ok r -> registry_ok (apply_status id status r).
Proof.
  intros H. unfold apply_status, apply_role_consequences. destruct (pool_by_id _ _); [case_bool_decide|]; auto with pools.
Qed.

Lemma begin_drain_ok id mode r r' : begin_drain_with_mode id mode r = Ok r' -> registry_ok r -> registry_ok r'.
Proof.
  unfold begin_drain_with_mode. intros H Hok. destruct (pool_by_id (rg_pools r) id) as [p|] eqn:Hp; [|done].
  cbn [ok_or mbind outcome_bind] in H. checks H. apply negb_false_iff, bool_decide_eq_true in E.
  destruct (pl_status p); simplify_eq; by apply set_status_ok, (put_drain_ok r id p).
Qed.

Lemma running_drain_ok id reason paused state r :
  rg_drain r !! id = Some (DrainRunning reason paused) -> registry_ok r -> registry_ok (put_drain id state r).
Proof. intros Hd Hok. destruct (running_data r id _ _ Hok Hd) as (p & Hp & Hr). by apply (put_drain_ok r id p). Qed.

Lemma set_drain_blocked_ok id reason r r' : set_drain_blocked id reason r = Ok r' -> registry_ok r -> registry_ok r'.
Proof.
  unfold set_drain_blocked. intros H. checks H. destruct (rg_drain r !! id) as [[]|] eqn:Hd; simplify_eq.
  by eapply running_drain_ok.
Qed.

Lemma set_drain_paused_ok id paused r r' : set_drain_paused id paused r = Ok r' -> registry_ok r -> registry_ok r'.
Proof.
  unfold set_drain_paused. intros H. checks H. destruct (rg_drain r !! id) as [[]|] eqn:Hd; simplify_eq.
  by eapply running_drain_ok.
Qed.

Lemma set_pool_empty_ok id r r' : set_pool_empty id r = Ok r' -> registry_ok r -> registry_ok r'.
Proof.
  unfold set_pool_empty. intros H. checks H. destruct (pl_status _); try done.
  destruct (rg_drain r !! id) as [[]|] eqn:Hd; simplify_eq. by eapply running_drain_ok.
Qed.

Lemma reset_dead_pool_ok id probe r r' : reset_dead_pool id probe r = Ok r' -> registry_ok r -> registry_ok r'.
Proof. unfold reset_dead_pool. intros H. checks H. simplify_eq. auto with pools. Qed.

Lemma refresh_fmap {A} (g : StoragePool -> A) statvfs r :
  (forall c p, g (store_capacity c p) = g p) -> g <$> rg_pools (refresh_capacity statvfs r) = g <$> rg_pools r.
Proof.
  intros Hg. cbn [refresh_capacity with_pools rg_pools]. rewrite <- list_fmap_compose. apply list_fmap_ext.
  intros i p _. cbn. by destruct (statvfs (pl_root p)).
Qed.

Lemma refresh_lookup statvfs r id :
  pool_by_id (rg_pools (refresh_capacity statvfs r)) id =
  (fun p => match statvfs (pl_root p) with Some c => store_capacity c p | None => p end) <$> pool_by_id (rg_pools r) id.
Proof.
  cbn [refresh_capacity with_pools rg_pools]. induction (rg_pools r) as [|p pools IH]; [done|].
  cbn [fmap list_fmap]. rewrite !pool_by_id_cons, IH.
  replace (pl_id _) with (pl_id p) by (by destruct (statvfs (pl_root p))). by case_bool_decide.
Qed.

Lemma refresh_capacity_ok statvfs r : registry_ok r -> registry_ok (refresh_capacity statvfs r).
Proof.
  intros []. constructor; rewrite ?refresh_fmap by done; try done.
  intros id state Hs. destruct (ro_drain0 id state Hs) as [?|(p & Hp & Hr)]; [by left|right].
  rewrite refresh_lookup, Hp. eexists. split; [done|]. by destruct (statvfs (pl_root p)).
Qed.

Lemma try_detach_ok t lifecycle self id before now x :
  try_detach_pool t lifecycle self id before now = Ok x -> registry_ok now -> registry_ok x.2.
Proof. unfold try_detach_pool. intros H. checks H. simplify_eq. by eapply detach_ok. Qed.

Lemma exec_ok interval s o : registry_ok (sy_registry s) -> registry_ok (sy_registry (exec interval s o)).
Proof.
  intros Hok. destruct o; cbn [exec on_registry sy_registry].
  - by destruct (pool_by_id _ _).
  - done.
  - destruct (sy_pending s !! i) as [[id status]|]; [|done]. by apply apply_status_ok.
  - destruct (begin_drain_with_mode _ _ _) eqn:E; [by eapply begin_drain_ok|done..].
  - destruct (set_drain_blocked _ _ _) eqn:E; [by eapply set_drain_blocked_ok|done..].
  - destruct (set_drain_paused _ _ _) eqn:E; [by eapply set_drain_paused_ok|done..].
  - destruct (set_pool_empty _ _) eqn:E; [by eapply set_pool_empty_ok|done..].
  - destruct (try_detach_pool _ _ _ _ _ _) eqn:E; [by eapply try_detach_ok in E|done..].
  - destruct (attach _ _ _ _) as [[? ?]| |] eqn:E; [by eapply attach_ok in E|done..].
  - destruct (reset_dead_pool _ _ _) eqn:E; [by eapply reset_dead_pool_ok|done..].
  - by apply refresh_capacity_ok.
Qed.

Lemma exec_all_ok interval ops s : registry_ok (sy_registry s) -> registry_ok (sy_registry (exec_all interval s ops)).
Proof. revert s. induction ops as [|o ops IH]; intros s H; [done|]. by apply IH, exec_ok. Qed.

(** ** Construction establishes the invariant *)

Lemma validate_pools_Ok sc dir pools names roots names' roots' :
  ofoldM (validate_pool sc dir) (names, roots) pools = Ok (names', roots') -> NoDup names -> NoDup roots ->
  names' = reverse ((trim ∘ pc_name) <$> pools) ++ names /\ NoDup names' /\
  roots' = reverse (pc_root <$> pools) ++ roots /\ NoDup roots' /\
  Forall (fun c => pc_weight c <> Some 0 /\ is_absolute (pc_root c) = true /\ paths_overlap (pc_root c) dir = false) pools.
Proof.
  revert names roots. induction pools as [|c pools IH]; intros names roots; cbn [ofoldM].
  { intros [= -> ->]. done. }
  destruct (validate_pool sc dir (names, roots) c) as [[n' r']| |] eqn:Hv; [|done..]. intros H Hn Hr.
  unfold validate_pool in Hv. checks Hv. injection Hv as <- <-.
  match goal with Hk : validate_knobs _ _ _ = _ |- _ => apply validate_knobs_Ok in Hk as [Hw Ho] end.
  repeat match goal with Hb : bool_decide _ = false |- _ => apply bool_decide_eq_false in Hb end.
  match goal with Ha : negb _ = false |- _ => apply negb_false_iff in Ha end.
  apply IH in H as (-> & ? & -> & ? & ?); [|by apply NoDup_cons..].
  cbn [fmap list_fmap]. rewrite !reverse_cons, <- !(assoc_L (++)). cbn [app]. split_and!; try done. by apply Forall_cons.
Qed.

(** A registered pool and the entry of the configuration it comes from. *)
Definition comes_from (entry : nat * PoolConfig) (p : StoragePool) : Prop :=
  pl_id p = wrap32 (Z.of_nat entry.1) /\ pl_name p = pc_name entry.2 /\ pl_role p = pc_role entry.2 /\
  pl_root p = pc_root entry.2 /\ (pc_weight entry.2 <> Some 0 -> pl_weight p <> 0).

Lemma register_all_Ok probe sc removed entries acc pools :
  ofoldM (register_config probe sc removed) acc entries = Ok pools ->
  exists kept ps, sublist kept entries /\ pools = acc ++ ps /\ Forall2 comes_from kept ps.
Proof.
  revert acc. induction entries as [|[i c] entries IH]; intros acc; cbn [ofoldM].
  { intros [= <-]. exists [], []. by rewrite app_nil_r. }
  destruct (register_config probe sc removed acc (i, c)) as [acc'| |] eqn:Hr; [|done..].
  intros (kept & ps & Hs & -> & Hf)%IH. unfold register_config in Hr.
  destruct (existsb _ removed).
  { injection Hr as <-. exists kept, ps. split_and!; [by apply sublist_cons|done..]. }
  destruct (probe_outcome _ _ _) as [[status capacity]| |]; [|done..]. injection Hr as <-.
  eexists ((i, c) :: kept), (_ :: ps). rewrite <- (assoc_L (++)). split_and!; [by apply sublist_skip|done|].
  constructor; [|done]. repeat split. cbn. apply chosen_weight.
Qed.

Lemma comes_from_fmap {A} (g : StoragePool -> A) (h : nat * PoolConfig -> A) kept ps :
  (forall e p, comes_from e p -> g p = h e) -> Forall2 comes_from kept ps -> g <$> ps = h <$> kept.
Proof. intros Hgh. induction 1 as [|e p kept ps He Hf IH]; [done|]. cbn. by rewrite (Hgh e p), IH. Qed.

Lemma sublist_map {A B} (f : A -> B) l k : sublist l k -> sublist (f <$> l) (f <$> k).
Proof. induction 1; cbn; by constructor. Qed.

Lemma entries_snd (l : list PoolConfig) : snd <$> imap pair l = l.
Proof. rewrite fmap_imap. transitivity (id <$> l); [|apply list_fmap_id]. rewrite <- (imap_const id l). by apply imap_ext. Qed.

Lemma entries_index (l : list PoolConfig) : NoDup (fst <$> imap pair l).
Proof.
  apply NoDup_alt. intros i j x. rewrite !list_lookup_fmap, !list_lookup_imap.
  destruct (l !! i), (l !! j); cbn; congruence.
Qed.

Lemma entries_below (l : list PoolConfig) e : e ∈ imap pair l -> (e.1 < length l)%nat.
Proof. intros (i & c & -> & Hc)%elem_of_lookup_imap_1. by eapply lookup_lt_Some. Qed.

Lemma config_ids_distinct (l : list PoolConfig) kept :
  Z.of_nat (length l) <= 2 ^ 32 -> sublist kept (imap pair l) -> NoDup ((fun e => wrap32 (Z.of_nat e.1)) <$> kept).
Proof.
  intros Hlen Hs. assert (NoDup (fst <$> kept)) as Hnd.
  { eapply NoDup_sublist; [by apply sublist_map|apply entries_index]. }
  assert (forall e, e ∈ kept -> Z.of_nat e.1 < 2 ^ 32) as Hlt.
  { intros e He. eapply elem_of_submseteq in He; [|by apply sublist_submseteq]. apply entries_below in He. lia. }
  clear Hs Hlen. induction kept as [|e kept IH]; [apply NoDup_nil_2|]. cbn in Hnd |- *.
  apply NoDup_cons in Hnd as [Hni Hnd]. apply NoDup_cons. split.
  - intros (e' & Heq & He')%list_elem_of_fmap. apply Hni. apply list_elem_of_fmap. exists e'. split; [|done].
    pose proof (Hlt e (list_elem_of_here _ _)). pose proof (Hlt e' (list_elem_of_further _ _ _ He')).
    unfold wrap32 in Heq. rewrite !Z.mod_small in Heq by lia. lia.
  - apply IH; [done|]. intros e' He'. apply Hlt. by right.
Qed.

Lemma roles_counted (role : PoolRole) pools :
  length (filter (fun x => x = role) (pc_role <$> pools)) = count_role role pools.
Proof. unfold count_role. induction pools as [|p pools IH]; [done|]. cbn [fmap list_fmap]. rewrite !filter_cons. case_decide; cbn; lia. Qed.

Lemma validate_Ok sc dir u :
  validate sc dir = Ok u ->
  NoDup (pc_name <$> sc_pools sc) /\ NoDup (pc_root <$> sc_pools sc) /\
  (forall role, role <> RoleData -> count_role role (sc_pools sc) = 1%nat) /\
  Forall (fun c => pc_weight c <> Some 0 /\ is_absolute (pc_root c) = true /\ paths_overlap (pc_root c) dir = false)
    (sc_pools sc).
Proof.
  unfold validate. intros H. checks H. apply refuse_Ok in H.
  match goal with Hf : ofoldM _ _ _ = Ok ?x |- _ => destruct x as [names roots];
    apply validate_pools_Ok in Hf as (-> & Hn & -> & Hr & Hall); [|apply NoDup_nil_2..] end.
  rewrite app_nil_r in Hn. rewrite app_nil_r in Hr. rewrite reverse_Permutation in Hn. rewrite reverse_Permutation in Hr. rewrite list_fmap_compose in Hn. apply NoDup_fmap_1 in Hn.
  split_and!; try done. intros [] Hne; [done|..];
    repeat match goal with
    | Hx : (1 <? _)%nat = false |- _ => apply Nat.ltb_ge in Hx
    | Hx : (_ =? 0)%nat = false |- _ => apply Nat.eqb_neq in Hx
    end; lia.
Qed.

Lemma from_config_ok probe sc dir removed r :
  Z.of_nat (length (sc_pools sc)) <= 2 ^ 32 -> from_config_skipping probe sc dir removed = Ok r -> registry_ok r.
Proof.
  unfold from_config_skipping. intros Hlen H. checks H. injection H as <-.
  match goal with Hv : validate _ _ = _ |- _ => apply validate_Ok in Hv as (Hn & Hr & Hc & Hall) end.
  match goal with Hx : ofoldM _ _ _ = _ |- _ => apply register_all_Ok in Hx as (kept & ps & Hs & -> & Hf) end.
  pose proof (sublist_map snd _ _ Hs) as Hcfg. rewrite entries_snd in Hcfg.
  assert (forall {A} (g : StoragePool -> A) (h : PoolConfig -> A),
    (forall e p, comes_from e p -> g p = h e.2) -> g <$> ps = h <$> (snd <$> kept)) as Hg.
  { intros A g h Hgh. rewrite (comes_from_fmap g (h ∘ snd) kept ps Hgh Hf). by rewrite list_fmap_compose. }
  constructor; cbn [rg_pools rg_data_dir rg_drain app].
  - rewrite (comes_from_fmap pl_id (fun e => wrap32 (Z.of_nat e.1)) kept) by (done || by intros ?? (?&?)).
    by eapply config_ids_distinct.
  - rewrite (Hg _ pl_name pc_name) by (by intros ?? (?&?&?)). eapply NoDup_sublist; [by apply sublist_map|done].
  - rewrite (Hg _ pl_root pc_root) by (by intros ?? (?&?&?&?&?)). eapply NoDup_sublist; [by apply sublist_map|done].
  - intros role Hne. rewrite (Hg _ pl_role pc_role) by (by intros ?? (?&?&?&?)).
    etrans; [by apply count_sublist, sublist_map|]. rewrite roles_counted, Hc by done. done.
  - apply (Forall_sublist _ _ _ Hcfg) in Hall. clear -Hf Hall. induction Hf as [|e p kept ps He Hf IH]; [by constructor|].
    cbn in Hall |- *. apply Forall_cons in Hall as [(Hw & _) Hall]. apply Forall_cons. split; [by apply He|auto].
  - rewrite (Hg _ pl_root pc_root) by (by intros ?? (?&?&?&?&?)). apply Forall_fmap.
    eapply Forall_impl; [eapply Forall_sublist; [exact Hcfg|exact Hall]|]. by intros c (_ & ? & ?).
  - intros id state Hd. by rewrite lookup_empty in Hd.
  - intros id [state Hd]. by rewrite lookup_empty in Hd.
Qed.

Definition boot (r : PoolRegistry) : System := {| sy_registry := r; sy_monitor := ∅; sy_pending := [] |}.

(** C24: Every registry the node can hold is well formed. After construction
    from an accepted configuration, with any pools suppressed as removed, and
    any sequence of attachments, detachments, drains, returns, capacity
    refreshes and monitor decisions, concurrent changes included, pools differ
    by id, name and root, a pinned role has one pool at most, weights are not
    zero, roots are absolute and disjoint from the data directory, and only
    registered data pools have a running or finished drain. *)
Theorem registry_well_formed probe sc dir removed r interval ops :
  Z.of_nat (length (sc_pools sc)) <= 2 ^ 32 -> from_config_skipping probe sc dir removed = Ok r ->
  registry_ok (sy_registry (exec_all interval (boot r) ops)).
Proof. intros Hlen H. apply exec_all_ok. by eapply from_config_ok. Qed.

(** ** Placement *)

(** [p] is at least as good a home as [q]: more free bytes per unit of weight,
    the lower id among equals. *)
Definition beats (p q : StoragePool) : Prop := score q < score p \/ score q = score p /\ pl_id p <= pl_id q.

Definition is_best (P : StoragePool -> Prop) (best : option StoragePool) : Prop :=
  match best with
  | Some p => P p /\ forall q, P q -> beats p q
  | None => forall q, ~ P q
  end.

Lemma best_from pools best (seen : list StoragePool) :
  is_best (fun p => p ∈ seen) best ->
  is_best (fun p => p ∈ seen ++ pools) (foldl (fun best p => if replaces best p then Some p else best) best pools).
Proof.
  revert best seen. induction pools as [|p pools IH]; intros best seen Hb; [by rewrite app_nil_r|].
  cbn [foldl]. replace (seen ++ p :: pools) with ((seen ++ [p]) ++ pools) by (by rewrite <- (assoc_L (++))).
  apply IH. clear IH. unfold replaces. destruct best as [b|]; cbn [is_best] in Hb |- *.
  - destruct Hb as [Hin Hb]. destruct (_ || _) eqn:E; cbn [is_best].
    + split; [set_solver|]. intros q [Hq| ->%list_elem_of_singleton]%elem_of_app; [|right; lia].
      specialize (Hb q Hq). unfold beats in *. lia.
    + split; [set_solver|]. intros q [Hq| ->%list_elem_of_singleton]%elem_of_app; [auto|]. unfold beats. lia.
  - split; [set_solver|]. intros q [Hq| ->%list_elem_of_singleton]%elem_of_app; [by apply Hb in Hq|right; lia].
Qed.

Lemma best_weighted_least_free_spec pools : is_best (fun p => p ∈ pools) (best_weighted_least_free pools).
Proof. apply (best_from pools None []). intros q. apply not_elem_of_nil. Qed.

Lemma is_best_iff (P Q : StoragePool -> Prop) best : (forall p, P p <-> Q p) -> is_best P best -> is_best Q best.
Proof. intros H. destruct best; cbn; naive_solver. Qed.

(** A data pool that takes new segments and has [P] of its free bytes. *)
Definition eligible (r : PoolRegistry) (exclude : list Z) (P : Z -> Prop) (p : StoragePool) : Prop :=
  p ∈ rg_pools r /\ pl_role p = RoleData /\ pl_status p = Healthy /\ pl_write_degraded p = false /\ pl_id p ∉ exclude /\
  P (pl_free_bytes p).

Lemma takes_segments_iff p : takes_segments p = true <-> pl_status p = Healthy /\ pl_write_degraded p = false.
Proof. unfold takes_segments. by rewrite andb_true_iff, bool_decide_eq_true, negb_true_iff. Qed.

Lemma placement_best r exclude required :
  is_best (eligible r [] (fun free => MIN_FREE_HEADROOM_BYTES < free)) (select_data_pool r) /\
  is_best (eligible r exclude (fun free => saturating_add64 required MIN_FREE_HEADROOM_BYTES <= free))
    (select_data_pool_with_headroom r exclude required).
Proof.
  split; (eapply is_best_iff; [|apply best_weighted_least_free_spec]); intros p; unfold eligible, data_pools;
    rewrite !list_elem_of_filter, ?Is_true_true, !andb_true_iff, ?negb_true_iff, ?bool_decide_eq_false, takes_segments_iff.
  - rewrite Z.ltb_lt. set_solver.
  - rewrite Z.leb_le. tauto.
Qed.

(** C25: Placement picks the best pool there is. A new segment goes to a
    registered data pool that is healthy, not write-degraded and has more than
    the headroom free, of the highest free space per weight among those and of
    the lowest id among equals; no pool is picked only when none qualifies. With
    a required size and excluded pools the same holds of the pools not
    excluded with the size and the headroom free. *)
Theorem placement_picks_best r exclude required :
  is_best (eligible r [] (fun free => MIN_FREE_HEADROOM_BYTES < free)) (select_data_pool r) /\
  is_best (eligible r exclude (fun free => saturating_add64 required MIN_FREE_HEADROOM_BYTES <= free))
    (select_data_pool_with_headroom r exclude required).
Proof. apply placement_best. Qed.

(** ** The monitor and a drain *)

Definition status_of (r : PoolRegistry) (id : Z) : option PoolStatus := pl_status <$> pool_by_id (rg_pools r) id.

Lemma status_of_pool r id p : pool_by_id (rg_pools r) id = Some p -> status_of r id = Some (pl_status p).
Proof. unfold status_of. by intros ->. Qed.

Lemma status_of_update f id id' r :
  keeps_identity f -> id <> id' -> status_of (with_pools r (update_pool f id (rg_pools r))) id' = status_of r id'.
Proof.
  intros Hf Hne. unfold status_of. cbn [with_pools rg_pools]. rewrite update_pool_lookup by done.
  by rewrite bool_decide_eq_false_2.
Qed.

Lemma status_of_set_status id id' status r :
  status_of (set_status id status r) id' =
  if bool_decide (id = id') then (fun _ => status) <$> status_of r id' else status_of r id'.
Proof.
  unfold status_of, set_status. cbn [with_pools rg_pools]. rewrite update_pool_lookup by apply store_status_identity.
  case_bool_decide; [|done]. by destruct (pool_by_id _ _).
Qed.

Lemma status_of_set_write_degraded id b id' r : status_of (set_write_degraded id b r) id' = status_of r id'.
Proof.
  unfold status_of, set_write_degraded. cbn [with_pools rg_pools].
  rewrite update_pool_lookup by apply store_write_degraded_identity. case_bool_decide; [|done]. by destruct (pool_by_id _ _).
Qed.

Lemma status_of_apply id id' status r :
  status_of (apply_status id status r) id' =
  if bool_decide (id = id') then (fun _ => status) <$> status_of r id' else status_of r id'.
Proof.
  unfold apply_status, apply_role_consequences.
  destruct (pool_by_id _ _); [case_match|]; by rewrite ?status_of_set_write_degraded, status_of_set_status.
Qed.

Lemma status_of_refresh statvfs r id : status_of (refresh_capacity statvfs r) id = status_of r id.
Proof.
  unfold status_of. rewrite refresh_lookup. destruct (pool_by_id _ _) as [p|]; [|done]. cbn.
  by destruct (statvfs (pl_root p)).
Qed.

Lemma status_of_attach pool probe before now id r id' :
  attach pool probe before now = Ok (id, r) -> is_Some (status_of now id') -> status_of r id' = status_of now id'.
Proof.
  unfold attach. intros H Hs. checks H. destruct a0. checks H. injection H as <- <-.
  unfold status_of in *. cbn [with_drain with_pools rg_pools]. rewrite pool_by_id_app.
  destruct (pool_by_id (rg_pools now) id'); [done|by destruct Hs].
Qed.

Lemma status_of_detach t lifecycle self id before now x id' :
  try_detach_pool t lifecycle self id before now = Ok x -> id <> id' -> status_of x.2 id' = status_of now id'.
Proof.
  unfold try_detach_pool. intros H Hne. checks H. injection H as <-. cbn [snd].
  match goal with Hd : detach _ _ _ = _ |- _ => unfold detach in Hd; checks Hd; injection Hd as <- end.
  unfold status_of. cbn [with_drain with_pools rg_pools]. by rewrite pool_by_id_filter.
Qed.

Lemma status_of_reset id probe r r' id' :
  reset_dead_pool id probe r = Ok r' -> id <> id' -> status_of r' id' = status_of r id'.
Proof.
  unfold reset_dead_pool. intros H Hne. checks H. injection H as <-.
  rewrite status_of_set_write_degraded, status_of_set_status, bool_decide_eq_false_2 by done.
  by apply status_of_update.
Qed.

(** Once a drain began, the pool is draining or dead and the monitor has
    nothing else to say of it. *)
Definition settled (status : PoolStatus) : Prop := status = Draining \/ status = PoolDead.

Definition mirror_settled (s : System) (id : Z) : Prop :=
  forall e, sy_monitor s !! id = Some e -> settled (ms_status e).

Record drained (id : Z) (s : System) : Prop := {
  dr_status : exists status, status_of (sy_registry s) id = Some status /\ settled status;
  dr_dead : status_of (sy_registry s) id = Some PoolDead -> mirror_settled s id;
  dr_pending : forall status, (id, status) ∈ sy_pending s -> status = PoolDead /\ mirror_settled s id }.

Definition spares (id : Z) (o : op) : Prop :=
  match o with
  | Detach _ id' _ _ _ | ResetDead id' _ _ => id' <> id
  | _ => True
  end.

Lemma decide_settled current signal verdict config clean secs :
  settled current ->
  settled (decide_transition current signal verdict config clean secs).1 /\
  ((decide_transition current signal verdict config clean secs).1 = current \/
   (decide_transition current signal verdict config clean secs).1 = PoolDead).
Proof. unfold settled. intros [-> | ->]; cbn; [|by eauto]. destruct (from_kinds _); cbn; eauto. Qed.

Lemma tick_entry_status interval now signal pool entry :
  exists verdict, ms_status (tick_entry interval now signal pool entry) =
    (decide_transition (ms_status entry) signal verdict (pl_health pool) (ms_clean_windows entry)
       (tick_secs interval (pl_health pool))).1.
Proof. unfold tick_entry. set (v := evaluate_trend_with _ _ _). exists v. by destruct (decide_transition _ _ v _ _ _). Qed.

Lemma tick_decide_settled interval now snapshot pool mon :
  let entry := reconcile pool (default (new_state (pl_status pool) now) (mon !! pl_id pool)) in
  settled (ms_status entry) ->
  exists e, (tick_decide interval now snapshot pool mon).1 = <[pl_id pool := e]> mon /\ settled (ms_status e) /\
    (forall status, (tick_decide interval now snapshot pool mon).2 = Some status -> status = PoolDead).
Proof.
  intros entry He. unfold tick_decide. fold entry. destruct (now <? ms_next_tick entry).
  { exists entry. by split_and!. }
  set (e' := tick_entry interval now (default default_signal snapshot) pool entry). exists e'.
  destruct (tick_entry_status interval now (default default_signal snapshot) pool entry) as [verdict Hv]. fold e' in Hv.
  destruct (decide_settled (ms_status entry) (default default_signal snapshot) verdict (pl_health pool)
    (ms_clean_windows entry) (tick_secs interval (pl_health pool)) He) as [H1 H2]. rewrite <- Hv in H1, H2.
  split_and!; [done..|]. intros status. cbn [snd]. case_bool_decide; [done|]. intros [= <-]. by destruct H2.
Qed.

Lemma tick_decide_other interval now snapshot pool mon id :
  pl_id pool <> id -> (tick_decide interval now snapshot pool mon).1 !! id = mon !! id.
Proof. intros Hne. unfold tick_decide. destruct (_ <? _); cbn; by rewrite lookup_insert_ne. Qed.

Lemma reconcile_settled s id pool now :
  drained id s -> pool_by_id (rg_pools (sy_registry s)) id = Some pool ->
  settled (ms_status (reconcile pool (default (new_state (pl_status pool) now) (sy_monitor s !! id)))).
Proof.
  intros [(st & Hst & Hset) Hdead _] Hp. rewrite (status_of_pool _ _ _ Hp) in Hst, Hdead. injection Hst as <-.
  unfold reconcile. case_bool_decide as Hd; [by left|].
  destruct Hset as [?|Hset]; [done|]. destruct (sy_monitor s !! id) as [e|] eqn:He; cbn; [|by right].
  apply Hdead; [by rewrite Hset|done].
Qed.

(** A decision about some pool keeps a drained pool drained. *)
Lemma decided_drained s id id' d :
  drained id s ->
  (id' <> id -> d.1 !! id = sy_monitor s !! id) ->
  (id' = id -> exists e, d.1 !! id = Some e /\ settled (ms_status e) /\ forall status, d.2 = Some status -> status = PoolDead) ->
  drained id (decided s id' d).
Proof.
  intros [Hst Hdead Hpend] Hother Hsame.
  assert (mirror_settled s id -> mirror_settled (decided s id' d) id) as Hm.
  { intros Hm e He. cbn in He. destruct (decide (id' = id)) as [Heq|Hne].
    - destruct (Hsame Heq) as (e' & He' & ? & _). by simplify_eq.
    - rewrite Hother in He by done. by apply Hm. }
  constructor; [done|by auto|]. cbn [decided sy_pending]. intros status [H|H]%elem_of_app.
  { destruct (Hpend _ H). auto. }
  destruct d.2 as [status'|] eqn:Hd; [|by apply not_elem_of_nil in H]. apply list_elem_of_singleton in H. simplify_eq.
  destruct (Hsame eq_refl) as (e' & He' & Hse & Hall). split; [by apply Hall|]. intros e He. cbn in He. by simplify_eq.
Qed.

(** A change of the registry alone that keeps the pool's status. *)
Lemma on_registry_drained s id r :
  drained id s -> status_of r id = status_of (sy_registry s) id -> drained id (on_registry s r).
Proof. intros [] Hr. constructor; cbn [on_registry sy_registry]; rewrite ?Hr; done. Qed.

Lemma begin_drain_other id' mode r r' id :
  begin_drain_with_mode id' mode r = Ok r' ->
  (exists status, status_of r id = Some status /\ settled status) -> status_of r' id = status_of r id.
Proof.
  unfold begin_drain_with_mode. intros H (st & Hst & Hset). destruct (pool_by_id (rg_pools r) id') as [p|] eqn:Hp; [|done].
  cbn [ok_or mbind outcome_bind] in H. checks H. destruct (decide (id' = id)) as [->|Hne].
  { rewrite (status_of_pool _ _ _ Hp) in Hst. injection Hst as <-. destruct Hset as [Hs|Hs]; by rewrite Hs in H. }
  destruct (pl_status p); simplify_eq; rewrite status_of_set_status, bool_decide_eq_false_2 by done; done.
Qed.

Lemma tick_drained interval s id id' now snapshot : drained id s -> drained id (exec interval s (Tick id' now snapshot)).
Proof.
  intros Hd. cbn [exec]. destruct (pool_by_id _ id') as [pool|] eqn:Hp; [|done].
  destruct (pool_by_id_Some _ _ _ Hp) as [_ Hid]. apply decided_drained; [done|..].
  - intros Hne. apply tick_decide_other. congruence.
  - intros ->. destruct (tick_decide_settled interval now snapshot pool (sy_monitor s)) as (e & He & Hse & Hall).
    { rewrite Hid. by apply reconcile_settled. }
    exists e. rewrite He, Hid. by rewrite lookup_insert_eq.
Qed.

Lemma loss_drained interval s id id' now : drained id s -> drained id (exec interval s (Loss id' now)).
Proof.
  intros Hd. cbn [exec]. apply decided_drained; [done|..].
  - intros Hne. cbn. by rewrite lookup_insert_ne.
  - intros ->. eexists. cbn [report_confirmed_loss fst snd]. rewrite lookup_insert_eq. split_and!; [done|by right|].
    intros status. case_bool_decide; congruence.
Qed.

Lemma apply_drained interval s id i : drained id s -> drained id (exec interval s (Apply i)).
Proof.
  intros Hd. cbn [exec]. destruct (sy_pending s !! i) as [[id' status]|] eqn:Hi; [|done].
  destruct Hd as [(st & Hst & Hset) Hdead Hpend]. pose proof (list_elem_of_lookup_2 _ _ _ Hi) as Hin.
  assert (forall x, x ∈ delete i (sy_pending s) -> x ∈ sy_pending s) as Hsub.
  { intros x Hx. eapply elem_of_submseteq; [done|]. apply sublist_submseteq, sublist_delete. }
  constructor; cbn [sy_registry sy_pending].
  - rewrite status_of_apply, Hst. case_bool_decide as Heq; [|by eauto]. subst id'.
    destruct (Hpend _ Hin) as [-> _]. exists PoolDead. split; [done|by right].
  - rewrite status_of_apply. case_bool_decide as Heq; [subst id'; by destruct (Hpend _ Hin)|done].
  - intros status' H. exact (Hpend status' (Hsub _ H)).
Qed.

Lemma exec_drained interval s id o : spares id o -> drained id s -> drained id (exec interval s o).
Proof.
  intros Ho Hd. pose proof (dr_status id s Hd) as Hst.
  destruct o; [by apply tick_drained|by apply loss_drained|by apply apply_drained|..];
    try (apply on_registry_drained; [done|]).
  - destruct (begin_drain_with_mode _ _ _) eqn:E; [by eapply begin_drain_other|done..].
  - unfold set_drain_blocked. destruct (pool_by_id _ _); [|done]. cbn. by repeat case_match.
  - unfold set_drain_paused. destruct (pool_by_id _ _); [|done]. cbn. by repeat case_match.
  - unfold set_pool_empty. destruct (pool_by_id _ _); [|done]. cbn. by repeat case_match.
  - destruct (try_detach_pool _ _ _ _ _ _) eqn:E; [by eapply status_of_detach in E|done..].
  - destruct (attach _ _ _ _) as [[? ?]| |] eqn:E; [|done..]. eapply status_of_attach in E; [done|].
    destruct Hst as (? & -> & _). done.
  - cbn [exec]. destruct (reset_dead_pool _ _ _) as [r'| |] eqn:E; [|done..]. cbn in Ho.
    pose proof (status_of_reset _ _ _ _ id E Ho) as Hr. destruct Hd as [_ Hdead Hpend].
    assert (forall e, reset_pool id0 Healthy now (sy_monitor s) !! id = Some e -> sy_monitor s !! id = Some e) as Hm.
    { intros e. unfold reset_pool. by rewrite lookup_insert_ne. }
    constructor; cbn [sy_registry sy_pending]; rewrite ?Hr; [done|..].
    + intros H e He. apply (Hdead H). by apply Hm.
    + intros status H. destruct (Hpend _ H) as [? Hs]. split; [done|]. intros e He. apply Hs. by apply Hm.
  - apply status_of_refresh.
Qed.

Lemma exec_all_drained interval ops s id : Forall (spares id) ops -> drained id s -> drained id (exec_all interval s ops).
Proof.
  revert s. induction ops as [|o ops IH]; intros s; [done|]. intros [Ho H]%Forall_cons Hd. by apply IH, exec_drained.
Qed.

Lemma begin_drain_drained s id mode r :
  begin_drain_with_mode id mode (sy_registry s) = Ok r -> (forall status, (id, status) ∉ sy_pending s) ->
  drained id (on_registry s r).
Proof.
  unfold begin_drain_with_mode. intros H Hp. destruct (pool_by_id (rg_pools (sy_registry s)) id) as [p|] eqn:Hl; [|done].
  cbn [ok_or mbind outcome_bind] in H. checks H.
  assert (status_of r id = Some Draining) as Hr.
  { destruct (pl_status p); simplify_eq; rewrite status_of_set_status, bool_decide_eq_true_2 by done;
      unfold status_of; cbn [with_drain rg_pools]; by rewrite Hl. }
  constructor; cbn [on_registry sy_registry sy_pending]; [exists Draining; split; [done|by left]|by rewrite Hr|].
  intros status Hin. by destruct (Hp status).
Qed.

Lemma NoDup_pool_by_id pools p : NoDup (pl_id <$> pools) -> p ∈ pools -> pool_by_id pools (pl_id p) = Some p.
Proof.
  induction pools as [|q pools IH]; [by intros _ ?%not_elem_of_nil|]. cbn [fmap list_fmap].
  intros [Hq Hnd]%NoDup_cons [->|Hp]%elem_of_cons; rewrite pool_by_id_cons; [by rewrite bool_decide_eq_true_2|].
  rewrite bool_decide_eq_false_2; [auto|]. intros Heq. apply Hq. rewrite Heq. by apply list_elem_of_fmap_2.
Qed.

(** C22: A pool that drains gets no new segment. From the moment a drain begins
    with no decision of the monitor about the pool in flight, through any
    operations but the return or the detachment of that pool, its status is
    draining or dead, whatever the monitor sees of it, and no placement
    decision names it. *)
Theorem draining_pool_gets_no_segment interval s id mode r ops exclude required :
  registry_ok (sy_registry s) -> begin_drain_with_mode id mode (sy_registry s) = Ok r ->
  (forall status, (id, status) ∉ sy_pending s) -> Forall (spares id) ops ->
  let r' := sy_registry (exec_all interval (on_registry s r) ops) in
  (exists status, status_of r' id = Some status /\ settled status) /\
  (forall p, select_data_pool r' = Some p -> pl_id p <> id) /\
  (forall p, select_data_pool_with_headroom r' exclude required = Some p -> pl_id p <> id).
Proof.
  intros Hok Hb Hp Hops r'. assert (drained id (exec_all interval (on_registry s r) ops)) as Hd.
  { apply exec_all_drained; [done|]. by eapply begin_drain_drained. }
  assert (registry_ok r') as Hok' by (apply exec_all_ok; by eapply begin_drain_ok).
  pose proof (dr_status _ _ Hd) as Hst. fold r' in Hst. clearbody r'. split; [done|].
  assert (forall best P excl p, is_best (eligible r' excl P) best -> best = Some p -> pl_id p <> id) as Hno.
  { intros best P excl p Hbest -> Heq. destruct Hbest as [(Hin & _ & Hh & _) _].
    destruct Hst as (st & Hst & Hset). unfold status_of in Hst. rewrite <- Heq in Hst.
    rewrite (NoDup_pool_by_id _ _ (ro_ids _ Hok') Hin) in Hst. cbn in Hst. rewrite Hh in Hst.
    destruct Hset; congruence. }
  destruct (placement_best r' exclude required) as [H1 H2].
  split; intros p Hs; [exact (Hno _ _ _ p H1 Hs)|exact (Hno _ _ _ p H2 Hs)].
Qed.

(** ** A reused id *)

(** The monitor's part in a run. *)
Definition monitors (o : op) : Prop :=
  match o with Tick _ _ _ | Loss _ _ | Apply _ => True | _ => False end.

(** The pool under [id] is healthy for the registry, dead for the monitor, and
    no decision about it is in flight. *)
Record unwatched (id : Z) (s : System) : Prop := {
  uw_status : status_of (sy_registry s) id = Some Healthy;
  uw_mirror : exists e, sy_monitor s !! id = Some e /\ ms_status e = PoolDead;
  uw_pending : forall status, (id, status) ∉ sy_pending s }.

Lemma tick_dead interval now snapshot pool mon e :
  pl_status pool <> Draining -> mon !! pl_id pool = Some e -> ms_status e = PoolDead ->
  exists e', (tick_decide interval now snapshot pool mon).1 = <[pl_id pool := e']> mon /\ ms_status e' = PoolDead /\
    (tick_decide interval now snapshot pool mon).2 = None.
Proof.
  intros Hp He Hd. unfold tick_decide, reconcile. rewrite He. cbn [default]. rewrite bool_decide_eq_false_2 by done.
  cbn [from_option id]. destruct (_ <? _); [by exists e|].
  destruct (tick_entry_status interval now (default default_signal snapshot) pool e) as [verdict Hv].
  rewrite Hd in Hv. cbn in Hv. eexists. split_and!; [done..|]. cbn [snd]. by rewrite bool_decide_eq_true_2 by congruence.
Qed.

Lemma decided_unwatched s id id' d :
  unwatched id s -> (id' <> id -> d.1 !! id = sy_monitor s !! id) ->
  (id' = id -> (exists e, d.1 !! id = Some e /\ ms_status e = PoolDead) /\ d.2 = None) -> unwatched id (decided s id' d).
Proof.
  intros [Hst Hm Hp] Hother Hsame. constructor; [done|..]; cbn [decided sy_monitor sy_pending].
  - destruct (decide (id' = id)) as [Heq|Hne]; [by apply Hsame|by rewrite Hother].
  - intros status [H|H]%elem_of_app; [by apply Hp in H|]. destruct d.2 eqn:Hd; [|by apply not_elem_of_nil in H].
    apply list_elem_of_singleton in H. simplify_eq. by destruct (Hsame eq_refl) as [_ ?].
Qed.

Lemma exec_unwatched interval s id o : monitors o -> unwatched id s -> unwatched id (exec interval s o).
Proof.
  intros Ho Hu. destruct o; try done; cbn [exec].
  - destruct (pool_by_id _ id0) as [pool|] eqn:Hp; [|done]. destruct (pool_by_id_Some _ _ _ Hp) as [_ Hid].
    apply decided_unwatched; [done|intros Hne; apply tick_decide_other; congruence|]. intros ->.
    destruct Hu as [Hst (e & He & Hd) _]. rewrite (status_of_pool _ _ _ Hp) in Hst. rewrite <- Hid in He.
    destruct (tick_dead interval now snapshot pool (sy_monitor s) e) as (e' & -> & Hd' & ->); [congruence|done..|].
    split; [|done]. exists e'. rewrite Hid. by rewrite lookup_insert_eq.
  - apply decided_unwatched; [done|intros Hne; cbn; by rewrite lookup_insert_ne|]. intros ->.
    destruct Hu as [_ (e & He & Hd) _]. cbn [report_confirmed_loss fst snd]. rewrite He. change (default _ (Some e)) with e.
    rewrite bool_decide_eq_true_2 by done. split; [|done]. eexists. by rewrite lookup_insert_eq.
  - destruct (sy_pending s !! i) as [[id' status]|] eqn:Hi; [|done]. destruct Hu as [Hst Hm Hp].
    pose proof (list_elem_of_lookup_2 _ _ _ Hi) as Hin.
    constructor; cbn [sy_registry sy_monitor sy_pending]; [|done|].
    + rewrite status_of_apply. case_bool_decide as Heq; [|done]. subst id'. by apply Hp in Hin.
    + intros status' H. apply (Hp status'). eapply elem_of_submseteq; [done|]. apply sublist_submseteq, sublist_delete.
Qed.

Lemma exec_all_unwatched interval ops s id : Forall monitors ops -> unwatched id s -> unwatched id (exec_all interval s ops).
Proof.
  revert s. induction ops as [|o ops IH]; intros s; [done|]. intros [Ho H]%Forall_cons Hu. by apply IH, exec_unwatched.
Qed.

Lemma attach_status pool capacity before now id r :
  attach pool (Some capacity) before now = Ok (id, r) -> status_of r id = Some Healthy.
Proof.
  unfold attach. intros H. checks H. destruct a0 as [status cap]. checks H. injection H as <- <-.
  match goal with Hpr : probe_outcome _ _ _ = _ |- _ => cbn in Hpr; injection Hpr as <- <- end.
  unfold status_of. cbn [with_drain with_pools rg_pools]. rewrite pool_by_id_app.
  destruct (pool_by_id (rg_pools now) (free_id (rg_pools now))) as [p|] eqn:Hp.
  - apply pool_by_id_Some in Hp as [Hp Hid]. destruct (free_id_spec (rg_pools now)) as [Hni _]. destruct Hni.
    rewrite <- Hid at 1. by apply list_elem_of_fmap_2.
  - rewrite pool_by_id_cons. cbn [new_pool pl_id]. by rewrite bool_decide_eq_true_2.
Qed.

(** C40: The monitor does not watch a pool attached under a dead pool's id. The
    monitor keeps its entry of a pool that died while detachable and was then
    detached. A replacement that is attached healthy and takes over the id
    stays healthy for the registry whatever the monitor then observes,
    confirmed losses of the new pool included. *)
Theorem replacement_is_never_monitored interval s id e t lifecycle self detached pool capacity r ops :
  sy_monitor s !! id = Some e -> ms_status e = PoolDead -> (forall status, (id, status) ∉ sy_pending s) ->
  try_detach_pool t lifecycle self id (sy_registry s) (sy_registry s) = Ok detached ->
  attach pool (Some capacity) detached.2 detached.2 = Ok (id, r) -> Forall monitors ops ->
  let s' := exec_all interval s
    (Detach (sy_registry s) id t lifecycle self :: Attach detached.2 pool (Some capacity) :: ops) in
  status_of (sy_registry s') id = Some Healthy.
Proof.
  intros He Hd Hp Hdet Hatt Hops s'. apply uw_status. unfold s', exec_all. cbn [foldl].
  apply exec_all_unwatched; [done|]. unfold exec at 2. rewrite Hdet. cbn [mbind outcome_bind ok_else].
  unfold exec, on_registry. cbn [sy_registry sy_monitor sy_pending]. rewrite Hatt. cbn [mbind outcome_bind ok_else snd].
  constructor; cbn [sy_registry sy_monitor sy_pending]; [by eapply attach_status|by eauto|done].
Qed.

(** ** Recovery *)

(** A window without errors. *)
Definition quiet (snapshot : option PoolSignal) : Prop :=
  sg_errors (default default_signal snapshot) = 0 /\ from_kinds (sg_error_kinds (default default_signal snapshot)) = None.

(** The ticks of windows [k], [k + 1], ... ([n] of them), the first at [t]. *)
Fixpoint ticks (id t secs : Z) (signals : nat -> option PoolSignal) (k n : nat) : list op :=
  match n with
  | O => []
  | S n => Tick id t (signals k) :: ticks id (t + secs * 1000000000) secs signals (S k) n
  end.

(** A degraded pool after [k] quiet windows, due at [t]. *)
Record recovering (id : Z) (p : StoragePool) (t k : Z) (s : System) : Prop := {
  rc_pool : pool_by_id (rg_pools (sy_registry s)) id = Some p;
  rc_status : pl_status p = Degraded;
  rc_entry : exists e, sy_monitor s !! id = Some e /\ ms_status e = Degraded /\ ms_clean_windows e = k /\ ms_next_tick e <= t;
  rc_pending : sy_pending s = [] }.

Lemma quiet_tick interval s id p t k snapshot :
  let secs := tick_secs interval (pl_health p) in
  let rec := hc_recovery_window_secs (pl_health p) in
  recovering id p t k s -> quiet snapshot -> 0 <= k -> rec <= u64_max -> k * secs < rec ->
  let s' := exec interval s (Tick id t snapshot) in
  if rec <=? (k + 1) * secs
  then sy_registry s' = sy_registry s /\ sy_pending s' = [(id, Healthy)]
  else sy_registry s' = sy_registry s /\ recovering id p (t + secs * 1000000000) (k + 1) s'.
Proof.
  intros secs rec [Hp Hst (e & He & Hd & Hk & Hdue) Hpend] [Herr Hloss] Hk0 Hrec Hlt. cbn [exec]. rewrite Hp.
  destruct (pool_by_id_Some _ _ _ Hp) as [_ Hid]. unfold tick_decide. rewrite Hid, He.
  change (default _ (Some e)) with e. unfold reconcile. rewrite bool_decide_eq_false_2 by congruence.
  rewrite (proj2 (Z.ltb_ge t (ms_next_tick e))) by lia. unfold tick_entry.
  set (v := evaluate_trend_with _ _ _). set (h := drop _ _). unfold decide_transition. rewrite Hd, Hloss, Herr, Hk. cbn [Z.eqb].
  fold secs rec. assert (1 <= secs) by (unfold secs, tick_secs; lia).
  assert (saturating_add64 k 1 = k + 1) as -> by (unfold saturating_add64; nia).
  assert ((rec <=? saturating_mul64 (k + 1) secs) = (rec <=? (k + 1) * secs)) as ->.
  { unfold saturating_mul64. apply eq_true_iff_eq. rewrite !Z.leb_le. lia. }
  destruct (rec <=? (k + 1) * secs); cbn [ms_status decided sy_registry sy_pending fst snd].
  - rewrite bool_decide_eq_false_2 by done. by rewrite Hpend.
  - split; [done|]. constructor; cbn [decided sy_registry sy_monitor sy_pending fst snd]; [done..| |].
    + eexists. rewrite lookup_insert_eq. split_and!; [done..|]. cbn [ms_next_tick]. lia.
    + rewrite bool_decide_eq_true_2 by done. by rewrite Hpend.
Qed.

Lemma apply_first interval s id status :
  sy_pending s = [(id, status)] -> sy_registry (exec interval s (Apply 0)) = apply_status id status (sy_registry s).
Proof. intros H. cbn [exec]. by rewrite H. Qed.

Lemma apply_none interval s : sy_pending s = [] -> exec interval s (Apply 0) = s.
Proof. intros H. cbn [exec]. by rewrite H. Qed.

Lemma ticks_snoc id t secs signals k n :
  ticks id t secs signals k (S n) =
  ticks id t secs signals k n ++ [Tick id (t + Z.of_nat n * (secs * 1000000000)) (signals (k + n)%nat)].
Proof.
  revert t k. induction n as [|n IH]; intros t k.
  - cbn. by rewrite Z.add_0_r, Nat.add_0_r.
  - cbn [ticks] in IH |- *. cbn [app]. f_equal. rewrite IH. do 3 f_equal; [lia|f_equal; lia].
Qed.

Lemma quiet_prefix interval signals id p s t m :
  let secs := tick_secs interval (pl_health p) in
  let rec := hc_recovery_window_secs (pl_health p) in
  recovering id p t 0 s -> (forall j, quiet (signals j)) -> rec <= u64_max -> Z.of_nat m * secs < rec ->
  let s' := exec_all interval s (ticks id t secs signals 0 m) in
  sy_registry s' = sy_registry s /\ recovering id p (t + Z.of_nat m * (secs * 1000000000)) (Z.of_nat m) s'.
Proof.
  intros secs rec Hs Hq Hrec. assert (1 <= secs) by (unfold secs, tick_secs; lia).
  induction m as [|m IH]; intros Hm; [by rewrite Z.add_0_r|]. rewrite ticks_snoc. unfold exec_all. rewrite foldl_app.
  destruct IH as [Hr Hm']; [lia|]. fold (exec_all interval) in *. cbn [foldl].
  pose proof (quiet_tick interval _ id p _ _ (signals (0 + m)%nat) Hm' (Hq _)) as Ht. cbv zeta in Ht. fold secs rec in Ht.
  rewrite (proj2 (Z.leb_gt _ _)) in Ht by nia. destruct Ht as [Hr' Hs']; [lia|done|nia|].
  split; [exact (eq_trans Hr' Hr)|].
  replace (t + Z.of_nat (S m) * (secs * 1000000000))
    with (t + Z.of_nat m * (secs * 1000000000) + secs * 1000000000) by lia.
  replace (Z.of_nat (S m)) with (Z.of_nat m + 1) by lia. exact Hs'.
Qed.

(** C26: A degraded pool recovers. After as many windows without errors as the
    recovery window asks for, and no fewer, the monitor decides that the pool is
    healthy, and the registry has it healthy once that is stored. *)
Theorem degraded_pool_recovers interval signals s id p t n :
  let secs := tick_secs interval (pl_health p) in
  recovering id p t 0 s -> (forall j, quiet (signals j)) -> hc_recovery_window_secs (pl_health p) <= u64_max ->
  Z.of_nat n * secs < hc_recovery_window_secs (pl_health p) <= (Z.of_nat n + 1) * secs ->
  (forall m, (m < S n)%nat ->
     status_of (sy_registry (exec_all interval s (ticks id t secs signals 0 m ++ [Apply 0]))) id = Some Degraded) /\
  status_of (sy_registry (exec_all interval s (ticks id t secs signals 0 (S n) ++ [Apply 0]))) id = Some Healthy.
Proof.
  intros secs Hs Hq Hrec [Hlo Hhi]. assert (1 <= secs) by (unfold secs, tick_secs; lia). unfold exec_all. split.
  - intros m Hm. rewrite foldl_app. destruct (quiet_prefix interval signals id p s t m Hs Hq Hrec) as [Hr [Hp Hst _ Hpe]].
    { fold secs. nia. }
    fold secs in Hp, Hpe. cbn [foldl]. rewrite (apply_none _ _ Hpe). by rewrite (status_of_pool _ _ _ Hp), Hst.
  - rewrite ticks_snoc, !foldl_app. destruct (quiet_prefix interval signals id p s t n Hs Hq Hrec Hlo) as [Hr Hn].
    pose proof (quiet_tick interval _ id p _ _ (signals (0 + n)%nat) Hn (Hq _)) as Ht. cbv zeta in Ht. fold secs in Ht, Hr, Hn.
    rewrite (proj2 (Z.leb_le _ _)) in Ht by lia. destruct Ht as [Hr' Hpe]; [lia..|].
    change (foldl (exec interval) ?x [?o]) with (exec interval x o). rewrite (apply_first _ _ _ _ Hpe).
    rewrite status_of_apply, bool_decide_eq_true_2 by done. destruct Hs as [Hp _ _ _].
    transitivity ((fun _ => Healthy) <$> status_of (sy_registry s) id); [|by rewrite (status_of_pool _ _ _ Hp)].
    do 2 f_equal. exact (eq_trans Hr' Hr).
Qed.

(** ** Two more races *)

(** A decision the monitor made before a drain began undoes it. When it is
    stored after the drain began, the pool is degraded again while its drain
    record still runs, so the drain can not complete. *)
Theorem late_decision_undoes_drain interval s id mode r :
  begin_drain_with_mode id mode (sy_registry s) = Ok r -> sy_pending s = [(id, Degraded)] ->
  let r' := sy_registry (exec interval (on_registry s r) (Apply 0)) in
  status_of r' id = Some Degraded /\ drain_state r' id = DrainRunning None false /\
  set_pool_empty id r' = Err (NotDraining id).
Proof.
  intros Hb Hp r'. assert (status_of r id = Some Draining /\ rg_drain r !! id = Some (DrainRunning None false)) as [Hs Hd].
  { unfold begin_drain_with_mode in Hb. destruct (pool_by_id (rg_pools (sy_registry s)) id) as [p|] eqn:Hl; [|done].
    cbn [ok_or mbind outcome_bind] in Hb. checks Hb.
    destruct (pl_status p); simplify_eq; rewrite status_of_set_status, bool_decide_eq_true_2 by done;
      unfold status_of; cbn [with_drain set_status with_pools rg_pools rg_drain]; rewrite Hl, lookup_insert_eq; done. }
  assert (status_of r' id = Some Degraded /\ rg_drain r' = rg_drain r) as [Hs' Hd'].
  { unfold r'. rewrite (apply_first _ _ id Degraded) by done. rewrite status_of_apply, bool_decide_eq_true_2 by done.
    cbn [on_registry sy_registry]. rewrite Hs. split; [done|]. unfold apply_status, apply_role_consequences.
    destruct (pool_by_id _ _); [case_match|]; done. }
  split_and!; [done|unfold drain_state; by rewrite Hd', Hd|].
  unfold set_pool_empty. unfold status_of in Hs'. destruct (pool_by_id (rg_pools r') id) as [p|]; [|done].
  cbn [ok_or mbind outcome_bind]. cbn in Hs'. injection Hs' as ->. done.
Qed.

(** A pool returned from the dead keeps its drain record. A pool that died
    when its drain was complete is healthy after its return, gets new segments
    like any other, and can be detached without another drain. *)
Theorem returned_pool_is_detachable id capacity r r' :
  reset_dead_pool id (Some capacity) r = Ok r' -> drain_state r id = Detachable ->
  status_of r' id = Some Healthy /\ exists r'', detach id r' r' = Ok r'' /\ pool_by_id (rg_pools r'') id = None.
Proof.
  unfold reset_dead_pool. intros H Hd. destruct (pool_by_id (rg_pools r) id) as [p|] eqn:Hp; [|done].
  cbn [ok_or mbind outcome_bind] in H. checks H. injection H as <-.
  apply negb_false_iff, bool_decide_eq_true in E.
  set (r' := set_write_degraded _ _ _).
  assert (pool_by_id (rg_pools r') id = Some (store_write_degraded false (store_status Healthy
    (store_capacity {| cap_total := cap_total (default no_capacity capacity); cap_free := cap_free (default no_capacity capacity) |} p)))) as Hp'.
  { unfold r', set_write_degraded, set_status, set_pool_capacity. cbn [with_pools rg_pools].
    rewrite !update_pool_lookup by done. rewrite !bool_decide_eq_true_2 by done. by rewrite Hp. }
  split; [by rewrite (status_of_pool _ _ _ Hp')|]. unfold detach. rewrite Hp'. cbn [ok_or mbind outcome_bind].
  change (pl_role (store_write_degraded _ _)) with (pl_role p). rewrite (bool_decide_eq_true_2 _ E).
  change (drain_state r' id) with (drain_state r id). rewrite (bool_decide_eq_true_2 _ Hd). cbn [negb refuse mbind outcome_bind].
  eexists. split; [done|]. cbn [with_drain with_pools rg_pools]. clear. induction (rg_pools r') as [|q pools IH]; [done|].
  rewrite filter_cons. case_decide as Hq; [|done]. rewrite pool_by_id_cons. by rewrite bool_decide_eq_false_2.
Qed.

(** ** Witnesses *)

Definition no_override : PoolHealthOverride := {|
  ho_error_rate_threshold := None; ho_min_errors := None; ho_latency_factor := None; ho_trend_window_secs := None;
  ho_detection_window_secs := None; ho_recovery_window_secs := None; ho_trend_doubling_factor := None;
  ho_trend_min_windows := None; ho_trend_latency_percentile := None; ho_history_max_windows := None;
  ho_smart_growth := None; ho_monitor_tick_interval_secs := None; ho_event_capacity := None; ho_hints_probe_divisor := None |}.

Definition pool_at (name : byte) (role : PoolRole) : PoolConfig := {|
  pc_name := [name]; pc_role := role; pc_root := [ROOT_DIR; [name]]; pc_weight := None; pc_tech := TechAuto;
  pc_health := no_override |}.

Definition node_config : StorageConfig := {|
  sc_pools := [pool_at "a" RoleData; pool_at "b" RoleData; pool_at "w" RoleWal; pool_at "m" RoleMetadata; pool_at "h" RoleHints];
  sc_health := no_override; sc_missing_root_policy := Fatal |}.

Definition disk : option PoolCapacity := Some {| cap_total := 100 * GIB; cap_free := 50 * GIB |}.

Definition booted : outcome ConfigError PoolRegistry := from_config (fun _ => Some disk) node_config [ROOT_DIR; ["d"%byte]].

Definition node : PoolRegistry :=
  ok_else {| rg_pools := []; rg_missing_root_policy := Fatal; rg_data_dir := []; rg_drain := ∅;
             rg_global_health := default_health; rg_drain_mode := ∅ |} booted.

(** A window in which an owned segment was not found. *)
Definition lost : option PoolSignal := Some {|
  sg_error_rate := f64_of_Z 1; sg_ops := 1; sg_errors := 1; sg_latency := sg_latency default_signal;
  sg_smart := sg_smart default_signal; sg_error_kinds := 1 :: replicate 16 0 |}.

Lemma registry_well_formed_witness :
  registry_ok (sy_registry (exec_all None (boot node)
    [BeginDrain 0 IntraNode; Empty 0; Detach node 1 0 ∅ []; Attach node (pool_at "c" RoleData) (Some disk)])).
Proof.
  apply (registry_well_formed (fun _ => Some disk) node_config [ROOT_DIR; ["d"%byte]] []); [vm_compute; discriminate|].
  vm_compute. reflexivity.
Defined.

Definition draining_ops : list op := [Tick 0 5 lost; Apply 0; Attach node (pool_at "c" RoleData) (Some disk); Tick 0 100000000000 None].

Lemma draining_pool_gets_no_segment_witness :
  exists r, begin_drain_with_mode 0 IntraNode node = Ok r /\
    forall p, select_data_pool (sy_registry (exec_all None (on_registry (boot node) r) draining_ops)) = Some p -> pl_id p <> 0.
Proof.
  destruct (begin_drain_with_mode 0 IntraNode node) as [r| |] eqn:Hb; [|exfalso; vm_compute in Hb; discriminate..].
  exists r. split; [done|]. eapply (draining_pool_gets_no_segment None (boot node) 0 IntraNode r draining_ops [] 0).
  - apply (from_config_ok (fun _ => Some disk) node_config [ROOT_DIR; ["d"%byte]] []); [vm_compute; discriminate|vm_compute; reflexivity].
  - exact Hb.
  - intros status. apply not_elem_of_nil.
  - repeat (apply Forall_cons; split; [exact I|]). apply Forall_nil_2.
Defined.

(** Pool 0 drained to empty and then lost its disk. *)
Definition dead_drained : System := exec_all None (boot node) [BeginDrain 0 IntraNode; Empty 0; Tick 0 5 lost; Apply 0].

Lemma replacement_is_never_monitored_witness :
  exists detached r, try_detach_pool 0 ∅ [] 0 (sy_registry dead_drained) (sy_registry dead_drained) = Ok detached /\
    attach (pool_at "c" RoleData) (Some disk) detached.2 detached.2 = Ok (0, r) /\
    status_of (sy_registry (exec_all None dead_drained
      (Detach (sy_registry dead_drained) 0 0 ∅ [] :: Attach detached.2 (pool_at "c" RoleData) (Some disk) ::
       [Tick 0 900000000000 lost; Loss 0 900000000001; Apply 0]))) 0 = Some Healthy.
Proof.
  destruct (try_detach_pool 0 ∅ [] 0 (sy_registry dead_drained) (sy_registry dead_drained)) as [d| |] eqn:Hd;
    [|exfalso; vm_compute in Hd; discriminate..].
  assert (exists r, attach (pool_at "c" RoleData) (Some disk) d.2 d.2 = Ok (0, r)) as [r Hr].
  { vm_compute in Hd. injection Hd as <-. eexists. vm_compute. reflexivity. }
  exists d, r. split; [done|split; [done|]].
  destruct (sy_monitor dead_drained !! 0) as [e|] eqn:He; [|exfalso; vm_compute in He; discriminate].
  apply (replacement_is_never_monitored None dead_drained 0 e 0 ∅ [] d (pool_at "c" RoleData) disk r).
  - exact He.
  - vm_compute in He. injection He as <-. reflexivity.
  - intros status. replace (sy_pending dead_drained) with (@nil (Z * PoolStatus)) by (vm_compute; reflexivity). apply not_elem_of_nil.
  - exact Hd.
  - exact Hr.
  - repeat (apply Forall_cons; split; [exact I|]). apply Forall_nil_2.
Defined.

(** A window in which half of the operations failed, none of them for good. *)
Definition noisy : option PoolSignal := Some {|
  sg_error_rate := S754_finite false 4503599627370496 (-53); sg_ops := 10; sg_errors := 5; sg_latency := sg_latency default_signal;
  sg_smart := sg_smart default_signal; sg_error_kinds := replicate 5 0 ++ [5] ++ replicate 11 0 |}.

Definition degraded_node : System := exec_all None (boot node) [Tick 1 0 noisy; Apply 0].

Lemma degraded_pool_recovers_witness :
  exists p, status_of (sy_registry (exec_all None degraded_node
    (ticks 1 30000000000 (tick_secs None (pl_health p)) (fun _ => None) 0 10 ++ [Apply 0]))) 1 = Some Healthy.
Proof.
  destruct (pool_by_id (rg_pools (sy_registry degraded_node)) 1) as [p|] eqn:Hp; [|exfalso; vm_compute in Hp; discriminate].
  exists p. apply (degraded_pool_recovers None (fun _ => None) degraded_node 1 p 30000000000 9).
  - vm_compute in Hp. injection Hp as <-. constructor; [vm_compute; reflexivity|reflexivity| |reflexivity].
    eexists. split; [vm_compute; reflexivity|]. split_and!; [reflexivity|reflexivity|vm_compute; discriminate].
  - intros j. split; reflexivity.
  - vm_compute in Hp. injection Hp as <-. vm_compute. discriminate.
  - vm_compute in Hp. injection Hp as <-. by split; vm_compute.
Defined.

(** The monitor found pool 0 degraded and has not yet stored it. *)
Definition undecided : System := exec None (boot node) (Tick 0 0 noisy).

Lemma late_decision_undoes_drain_witness :
  exists r, begin_drain_with_mode 0 IntraNode node = Ok r /\
    status_of (sy_registry (exec None (on_registry undecided r) (Apply 0))) 0 = Some Degraded.
Proof.
  destruct (begin_drain_with_mode 0 IntraNode node) as [r| |] eqn:Hb; [|exfalso; vm_compute in Hb; discriminate..].
  exists r. split; [done|]. by apply (late_decision_undoes_drain None undecided 0 IntraNode r).
Defined.

Lemma returned_pool_is_detachable_witness :
  exists r, reset_dead_pool 0 (Some disk) (sy_registry dead_drained) = Ok r /\ status_of r 0 = Some Healthy.
Proof.
  destruct (reset_dead_pool 0 (Some disk) (sy_registry dead_drained)) as [r| |] eqn:Hr; [|exfalso; vm_compute in Hr; discriminate..].
  exists r. split; [done|]. apply (returned_pool_is_detachable 0 disk (sy_registry dead_drained) r Hr). vm_compute. reflexivity.
Defined.
