(* ===== verification/WriteCoordinator.v ===== *)
(** * The write coordinator and the replicas
      (crates/oceanfs-server/src/write/coordinator.rs: [put], [forward_write],
       [delete] and their helpers; write/replication.rs;
       grpc/segment_service.rs: [append_segment], [delete_object];
       s3_handler/handlers.rs: [put_object], [delete_object];
       crates/oceanfs-storage/src/pool/mod.rs: the availability gates)

    A coordinator is its clock, its metadata store, its segments
    ([LocalWrite]) and its hint ledger ([HintManager]); the other nodes are
    their clocks and stores. How each call to another node, each disk write
    and each enqueue ends is an argument. Caches, metrics and the semaphore's
    waiting time are left out. *)

From Stdlib Require Import ZArith Lia Strings.Byte.
From stdpp Require Import base list gmap.
From S2P Require Import Prelude PoolRegistry Hlc Ring WalPos WalEntry EventRecord Lifecycle EventWal Recovery MetaKey MetaStore SegmentPool LocalWrite HintWal HintManager.

Set Default Proof Using "Type".
Local Open Scope Z_scope.

(** ** Storage pools *)

(** The gates of the coordinator; a coordinator without a pool registry is
    always open. *)
Definition serves (pools : option (list StoragePool)) : bool := from_option node_serves_requests true pools.
Definition journals (pools : option (list StoragePool)) : bool := from_option accepts_writes true pools.

Definition hints_pool_accepts (pools : option (list StoragePool)) : bool :=
  from_option (fun ps => from_option (fun p => negb (bool_decide (pl_status p = PoolDead))) true (pool_by_role ps RoleHints))
    true pools.

(** ** Replicas *)

Inductive RpcStatus := InvalidArgument | InternalStatus.

Record SegmentAppendRequest := {
  sr_data : bytes; sr_hlc : option Hlc; sr_bucket_id : bytes; sr_object_key : bytes; sr_object_size : Z;
  sr_blake3_hash : bytes; sr_chunk_segment_ids : list bytes; sr_chunk_offsets : list Z; sr_chunk_lengths : list Z }.

Inductive AckStatus := AckOk | AckError.

Record SegmentAppendResponse := { sp_wal_position : Z; sp_ack : AckStatus }.

Record Replica := { rp_clock : Z; rp_store : Store }.

(** The clocks of a server, how its commit ends, and its remap alias. *)
Record ServerEnv := {
  sv_physical : Z; sv_now : Z; sv_io : commit_io;
  sv_alias : option (bytes -> Z -> Z -> option (bytes * Z)) }.

(** What the stream has carried so far; the fields of the object are those of
    the first message that names a bucket. *)
Record Collected := { cl_first : option SegmentAppendRequest; cl_data : bytes }.

Definition collect (c : Collected) (msg : SegmentAppendRequest) : Collected :=
  {| cl_first := match cl_first c with
                 | Some m => Some m
                 | None => if bool_decide (sr_bucket_id msg = []) then None else Some msg
                 end;
     cl_data := cl_data c ++ sr_data msg |}.

(** An identifier that is not 16 bytes long reads as zeros. *)
Definition uuid_of (b : bytes) : bytes := if (length b =? 16)%nat then b else replicate 16 x00.

Definition received_chunk (alias : option (bytes -> Z -> Z -> option (bytes * Z))) (x : bytes * Z * Z) : ChunkRef :=
  let '(raw, offset, len) := x in
  let id := uuid_of raw in
  let '(id, offset) := default (id, offset) (resolve ← alias; resolve id offset len) in
  {| cr_segment_id := id; cr_offset := offset; cr_length := len; cr_compressed := false; cr_logical_length := len |}.

Definition received_chunks (alias : option (bytes -> Z -> Z -> option (bytes * Z))) (m : SegmentAppendRequest) : list ChunkRef :=
  received_chunk alias <$> zip (zip (sr_chunk_segment_ids m) (sr_chunk_offsets m)) (sr_chunk_lengths m).

Definition received_meta (sv : ServerEnv) (m : SegmentAppendRequest) (hlc : Hlc) (data : bytes) : ObjectMetadata :=
  let chunks := received_chunks (sv_alias sv) m in
  {| om_object_key := sr_object_key m; om_size := sr_object_size m;
     om_blake3_hash := if (length (sr_blake3_hash m) =? 32)%nat then Some (sr_blake3_hash m) else None;
     om_chunks := chunks;
     om_inline_data := match chunks with [] => Some data | _ => None end;
     om_created_at := sv_now sv; om_hlc := hlc |}.

Definition clock_update (received : Hlc) (physical cur : Z) : Z := pack (update_next received physical cur).

(** The append of an object from another node: metadata only. *)
Definition append_segment (sv : ServerEnv) (stream : list SegmentAppendRequest) (r : Replica)
    : Replica * outcome RpcStatus SegmentAppendResponse :=
  let c := foldl collect {| cl_first := None; cl_data := [] |} stream in
  if (length (cl_data c) =? 0)%nat then (r, Ok {| sp_wal_position := 0; sp_ack := AckError |})
  else match cl_first c with
       | None => (r, Err InvalidArgument)
       | Some m =>
           match sr_hlc m with
           | Some hlc =>
               if bool_decide (hlc = hlc_zero) then (r, Err InvalidArgument)
               else
                 let clock := clock_update hlc (sv_physical sv) (rp_clock r) in
                 let '(store, ok) := put_object_in_bucket (rp_store r) (sv_io sv) (sv_now sv) (sr_bucket_id m)
                                       (received_meta sv m hlc (cl_data c)) in
                 let r := {| rp_clock := clock; rp_store := store |} in
                 if ok : bool then (r, Ok {| sp_wal_position := Z.of_nat (length (cl_data c)); sp_ack := AckOk |})
                 else (r, Err InternalStatus)
           | None => (r, Err InvalidArgument)
           end
       end.

(** The deletion from another node; it always confirms. *)
Definition delete_object_rpc (sv : ServerEnv) (bucket key : bytes) (hlc : option Hlc) (r : Replica)
    : Replica * outcome RpcStatus bool :=
  let hlc := default hlc_zero hlc in
  let '(store, ok) := delete_object (rp_store r) (sv_io sv) (sv_now sv) bucket key hlc in
  let r := {| rp_clock := clock_update hlc (sv_physical sv) (rp_clock r); rp_store := store |} in
  if ok : bool then (r, Ok true) else (r, Err InternalStatus).

(** A call: the server does not see it, or serves it and its answer arrives,
    is lost, or comes after the deadline. [late] calls that are not served end
    with the deadline. *)
Inductive reply := Arrives | Lost | Late.
Inductive rpc_io := NotServed (late : bool) | Served (sv : ServerEnv) (r : reply).

Notation Cluster := (gmap NodeId Replica).

(** ** The coordinator *)

Inductive CandidateClass := Preferred | Fallback | Excluded.

#[export] Instance CandidateClass_eq_dec : EqDecision CandidateClass.
Proof. solve_decision. Defined.

Inductive Error :=
  | ServiceUnavailable | Routing | QuorumNotMet (required : Z) (received : nat) | ForwardFailed
  | LocalWriteFailed (e : WriteError) | MetadataFailed.

Record WriteRequest := {
  rq_bucket : bytes; rq_key : bytes; rq_hash_key : RingPosition; rq_data : bytes; rq_write_quorum : Z;
  rq_compression : option (Z * (bytes -> option bytes)) }.

Record WriteResult := {
  wr_object_key : bytes; wr_chunks : list ChunkRef; wr_size : Z; wr_blake3_hash : option bytes; wr_hlc : Hlc }.

(** What the coordinator knows of the cluster: [state_of = Alive],
    [address_of] and [write_target_class]. *)
Record View := {
  vw_ring : RingCache; vw_alive : NodeId -> bool; vw_address : NodeId -> bool; vw_class : NodeId -> CandidateClass }.

Record Config := {
  cf_node_id : NodeId; cf_size_config : SegmentSizeConfig; cf_ready : bool; cf_quorum_requires_ring : bool;
  cf_hint_inline_threshold_bytes : Z }.

Record Coordinator := {
  wc_clock : Z; wc_store : Store; wc_data : DataNode; wc_hints : Manager;
  wc_rejected_write : Z; wc_rejected_delete : Z }.

Definition set_clock (c : Coordinator) (clock : Z) : Coordinator :=
  {| wc_clock := clock; wc_store := wc_store c; wc_data := wc_data c; wc_hints := wc_hints c;
     wc_rejected_write := wc_rejected_write c; wc_rejected_delete := wc_rejected_delete c |}.
Definition set_store (c : Coordinator) (st : Store) : Coordinator :=
  {| wc_clock := wc_clock c; wc_store := st; wc_data := wc_data c; wc_hints := wc_hints c;
     wc_rejected_write := wc_rejected_write c; wc_rejected_delete := wc_rejected_delete c |}.
Definition set_data (c : Coordinator) (nd : DataNode) : Coordinator :=
  {| wc_clock := wc_clock c; wc_store := wc_store c; wc_data := nd; wc_hints := wc_hints c;
     wc_rejected_write := wc_rejected_write c; wc_rejected_delete := wc_rejected_delete c |}.
Definition set_hints (c : Coordinator) (mg : Manager) : Coordinator :=
  {| wc_clock := wc_clock c; wc_store := wc_store c; wc_data := wc_data c; wc_hints := mg;
     wc_rejected_write := wc_rejected_write c; wc_rejected_delete := wc_rejected_delete c |}.
Definition count_rejected (c : Coordinator) (write_path : bool) : Coordinator :=
  {| wc_clock := wc_clock c; wc_store := wc_store c; wc_data := wc_data c; wc_hints := wc_hints c;
     wc_rejected_write := wc_rejected_write c + (if write_path then 1 else 0);
     wc_rejected_delete := wc_rejected_delete c + (if write_path then 0 else 1) |}.

(** [HlcClock::now]. *)
Definition clock_now (c : Coordinator) (physical : Z) : Coordinator * Hlc :=
  let h := now_next physical (wc_clock c) in (set_clock c (pack h), h).

Definition MAX_REPLICA_FANOUT : nat := 6.

(** [len as u8]. *)
Definition as_u8 (n : nat) : Z := Z.of_nat n mod 256.

(** How the enqueue of one hint ends; the pools are looked at again. *)
Record hint_io := {
  hi_pools : option (list StoragePool); hi_now : Z; hi_now_secs : Z; hi_opens : bool; hi_io : HintWal.write_io }.

Definition hint_debt_gate (pools : option (list StoragePool)) (write_path : bool) (c : Coordinator)
    : Coordinator * outcome Error unit :=
  if hints_pool_accepts pools then (c, Ok ()) else (count_rejected c write_path, Err ServiceUnavailable).

Definition known_down_debt_targets (self : NodeId) (vw : View) (replica_set : list NodeId) : bool :=
  existsb (fun t => negb (bool_decide (t = self)) && (negb (vw_alive vw t) || negb (vw_address vw t))) replica_set.

Definition excluded_write_target (vw : View) (n : NodeId) : bool := bool_decide (vw_class vw n = Excluded).

(** The loop of step 2: the first preferred node that is alive ends it. *)
Fixpoint forward_scan (vw : View) (candidates : list NodeId) (fallback any_alive : option NodeId) : option NodeId :=
  match candidates with
  | [] => match fallback with Some n => Some n | None => any_alive end
  | n :: candidates =>
      if negb (vw_alive vw n) then forward_scan vw candidates fallback any_alive
      else
        let any_alive := match any_alive with Some m => Some m | None => Some n end in
        match vw_class vw n with
        | Preferred => Some n
        | Fallback => forward_scan vw candidates (match fallback with Some m => Some m | None => Some n end) any_alive
        | Excluded => forward_scan vw candidates fallback any_alive
        end
  end.

Definition forward_target (vw : View) (replica_set : list NodeId) : option NodeId := forward_scan vw replica_set None None.

(** The targets of step 5: preferred ones first, then the fallbacks. *)
Definition of_class (self : NodeId) (vw : View) (cls : CandidateClass) (replica_set : list NodeId) : list NodeId :=
  filter (fun n => n <> self /\ vw_class vw n = cls) replica_set.

Definition remote_targets (self : NodeId) (vw : View) (replica_set : list NodeId) : list NodeId :=
  take MAX_REPLICA_FANOUT (of_class self vw Preferred replica_set ++ of_class self vw Fallback replica_set).

Definition unattempted (self : NodeId) (targets replica_set : list NodeId) : list NodeId :=
  filter (fun n => n <> self /\ n ∉ targets) replica_set.

(** *** Replication *)

Definition replication_request (req : WriteRequest) (hlc : Hlc) (hash : bytes) (chunks : list ChunkRef) : SegmentAppendRequest :=
  {| sr_data := rq_data req; sr_hlc := Some hlc; sr_bucket_id := rq_bucket req; sr_object_key := rq_key req;
     sr_object_size := Z.of_nat (length (rq_data req)); sr_blake3_hash := hash;
     sr_chunk_segment_ids := cr_segment_id <$> chunks; sr_chunk_offsets := cr_offset <$> chunks;
     sr_chunk_lengths := cr_length <$> chunks |}.

(** [None] in the result: no answer before the deadline. *)
Definition replicate_to_single (vw : View) (request : SegmentAppendRequest) (target : NodeId) (io : rpc_io) (cl : Cluster)
    : Cluster * option (outcome Error Z) :=
  if negb (vw_address vw target) then (cl, Some (Err ForwardFailed))
  else match io, cl !! target with
       | Served sv reply, Some r =>
           let '(r, status) := append_segment sv [request] r in
           let cl := <[target := r]> cl in
           match reply with
           | Late => (cl, None)
           | Lost => (cl, Some (Err ForwardFailed))
           | Arrives => (cl, Some (match status with
                                   | Ok ack => Ok (sp_wal_position ack)
                                   | Err _ => Err ForwardFailed
                                   | Panic => Err ForwardFailed
                                   end))
           end
       | NotServed true, _ => (cl, None)
       | _, _ => (cl, Some (Err ForwardFailed))
       end.

Fixpoint replicate_write (vw : View) (request : SegmentAppendRequest) (targets : list NodeId) (ios : NodeId -> rpc_io)
    (cl : Cluster) : Cluster * list (NodeId * outcome Error Z) :=
  match targets with
  | [] => (cl, [])
  | t :: targets =>
      let '(cl, r) := replicate_to_single vw request t (ios t) cl in
      let '(cl, rs) := replicate_write vw request targets ios cl in
      (cl, option_list (pair t <$> r) ++ rs)
  end.

(** The acknowledgements and the targets without one. *)
Fixpoint account_results (targets : list NodeId) (results : gmap NodeId (outcome Error Z)) : nat * list NodeId :=
  match targets with
  | [] => (O, [])
  | t :: targets =>
      let '(acks, failed) := account_results targets (delete t results) in
      match results !! t with
      | Some (Ok _) => (S acks, failed)
      | _ => (acks, t :: failed)
      end
  end.

(** [results.into_iter().collect()]. *)
Definition by_target (results : list (NodeId * outcome Error Z)) : gmap NodeId (outcome Error Z) :=
  foldl (fun m x => <[x.1 := x.2]> m) ∅ results.

Section coordinator.
Context (crc32 : bytes -> Z) (blake3 : bytes -> bytes) (shard_for : SegmentId -> Z).
Context (new_small new_standard : nat -> SegmentId) (pp_small pp_standard : PoolParams).
Context (encode : HintRecord -> bytes).
Context (cf : Config).

Notation store_object := (store_object crc32 blake3 shard_for new_small new_standard pp_small pp_standard).
Notation enqueue := (HintManager.enqueue encode crc32).

(** *** Hints *)

Definition write_hint_record (target : NodeId) (req : WriteRequest) (chunks : list ChunkRef) (hlc : Hlc) : HintRecord :=
  if Z.of_nat (length (rq_data req)) <=? cf_hint_inline_threshold_bytes cf
  then new_inline target (rq_bucket req) (rq_key req) (rq_data req) hlc
  else match chunks with
       | c :: _ => new_segment_ref target (rq_bucket req) (rq_key req) (cr_segment_id c) (cr_offset c) (cr_length c) hlc
       | [] => new_inline target (rq_bucket req) (rq_key req) (rq_data req) hlc
       end.

Definition enqueue_hint (write_path : bool) (hint : HintRecord) (io : hint_io) (c : Coordinator)
    : Coordinator * outcome Error unit :=
  match hint_debt_gate (hi_pools io) write_path c with
  | (c, Ok _) =>
      match enqueue (wc_hints c) hint (hi_now io) (hi_now_secs io) (hi_opens io) (hi_io io) with
      | (Ok _, mg) => (set_hints c mg, Ok ())
      | (Err _, mg) => (set_hints c mg, Err ServiceUnavailable)
      | (Panic, mg) => (set_hints c mg, Panic)
      end
  | r => r
  end.

Definition enqueue_write_hint (target : NodeId) (req : WriteRequest) (chunks : list ChunkRef) (hlc : Hlc) (io : hint_io)
    (c : Coordinator) : Coordinator * outcome Error unit :=
  enqueue_hint true (write_hint_record target req chunks hlc) io c.

Definition enqueue_delete_hint (target : NodeId) (bucket key : bytes) (hlc : Hlc) (io : hint_io) (c : Coordinator)
    : Coordinator * outcome Error unit :=
  enqueue_hint false (new_delete target bucket key hlc) io c.

(** The loop of step 6b: the targets that got a hint, and the error that
    ended it. *)
Fixpoint hint_all (targets : list NodeId) (req : WriteRequest) (chunks : list ChunkRef) (hlc : Hlc) (ios : NodeId -> hint_io)
    (c : Coordinator) : Coordinator * list NodeId * outcome Error unit :=
  match targets with
  | [] => (c, [], Ok ())
  | t :: targets =>
      match enqueue_write_hint t req chunks hlc (ios t) c with
      | (c, Ok _) =>
          let '(c, hinted, r) := hint_all targets req chunks hlc ios c in (c, t :: hinted, r)
      | (c, r) => (c, [], r)
      end
  end.

(** The cancels bypass the gate and their errors are only logged. *)
Definition cancel_partial_hints (targets : list NodeId) (bucket key : bytes) (physical : Z) (ios : NodeId -> hint_io)
    (c : Coordinator) : Coordinator :=
  match targets with
  | [] => c
  | _ =>
      let '(c, hlc) := clock_now c physical in
      foldl (fun c t =>
        let io := ios t in
        set_hints c (enqueue (wc_hints c) (new_delete t bucket key hlc) (hi_now io) (hi_now_secs io) (hi_opens io) (hi_io io)).2)
        c targets
  end.

Definition rollback_failed_write (bucket key : bytes) (local_metadata_row_written : bool) (physical now : Z)
    (io : commit_io) (c : Coordinator) : Coordinator :=
  if negb local_metadata_row_written then c
  else
    let '(c, hlc) := clock_now c physical in
    set_store c (delete_object (wc_store c) io now bucket key hlc).1.

(** *** Put *)

Record PutEnv := {
  pe_pools : option (list StoragePool); pe_physical : Z; pe_now : Z; pe_inline_io : commit_io;
  pe_chunks : nat -> ChunkEnv; pe_drain_now : Z; pe_drain_io1 : SegmentId -> send_io; pe_drain_io2 : SegmentId -> nat;
  pe_forward_id : bytes; pe_rpc : NodeId -> rpc_io; pe_hint : NodeId -> hint_io;
  pe_cancel_physical : Z; pe_cancel : NodeId -> hint_io;
  pe_rollback_physical : Z; pe_rollback_now : Z; pe_rollback_io : commit_io }.

(** The forwarded write: one append without chunk references. *)
Definition forward_write (vw : View) (target : NodeId) (req : WriteRequest) (env : PutEnv) (c : Coordinator) (cl : Cluster)
    : Coordinator * Cluster * outcome Error WriteResult :=
  if negb (vw_address vw target) then (c, cl, Err ForwardFailed)
  else
    let '(c, hlc) := clock_now c (pe_physical env) in
    let size := Z.of_nat (length (rq_data req)) in
    let request := {| sr_data := rq_data req; sr_hlc := Some hlc; sr_bucket_id := rq_bucket req; sr_object_key := rq_key req;
                      sr_object_size := size; sr_blake3_hash := []; sr_chunk_segment_ids := []; sr_chunk_offsets := [];
                      sr_chunk_lengths := [] |} in
    match pe_rpc env target, cl !! target with
    | Served sv reply, Some r =>
        let '(r, status) := append_segment sv [request] r in
        let cl := <[target := r]> cl in
        match reply, status with
        | Arrives, Ok _ =>
            let chunk := {| cr_segment_id := pe_forward_id env; cr_offset := 0; cr_length := wrap32 size;
                            cr_compressed := false; cr_logical_length := wrap32 size |} in
            (c, cl, Ok {| wr_object_key := rq_key req; wr_chunks := [chunk]; wr_size := size;
                          wr_blake3_hash := Some (blake3 (rq_data req)); wr_hlc := hlc |})
        | _, _ => (c, cl, Err ForwardFailed)
        end
    | _, _ => (c, cl, Err ForwardFailed)
    end.

(** Step 4: the chunks, and whether the row is written already. *)
Definition store_local (req : WriteRequest) (hlc : Hlc) (env : PutEnv) (c : Coordinator)
    : Coordinator * outcome Error (list ChunkRef * bool) :=
  let drain := drain_pending_seals new_small new_standard pp_small pp_standard (pe_drain_now env) (pe_drain_io1 env)
                 (pe_drain_io2 env) in
  match pieces_of (cf_size_config cf) (rq_data req) with
  | None =>
      let meta := {| om_object_key := rq_key req; om_size := Z.of_nat (length (rq_data req));
                     om_blake3_hash := Some (blake3 (rq_data req)); om_chunks := [];
                     om_inline_data := Some (rq_data req); om_created_at := pe_now env; om_hlc := hlc |} in
      let '(st, ok) := put_object_in_bucket (wc_store c) (pe_inline_io env) (pe_now env) (rq_bucket req) meta in
      let c := set_store c st in
      if ok : bool then (set_data c (drain (wc_data c)), Ok ([], true)) else (c, Err (LocalWriteFailed StorageError))
  | Some (small, pieces) =>
      let blob := {| bl_bucket := rq_bucket req; bl_key := rq_key req; bl_hash := blake3 (rq_data req) |} in
      match store_object small pieces blob (rq_compression req) hlc (pe_chunks env) (pe_drain_now env)
              (pe_drain_io1 env) (pe_drain_io2 env) (wc_data c) with
      | (nd, Ok chunks) => (set_data c nd, Ok (chunks, false))
      | (nd, Err e) => (set_data c nd, Err (LocalWriteFailed e))
      | (nd, Panic) => (set_data c nd, Panic)
      end
  end.

(** Steps 5 to 7. *)
Definition replicate_and_ack (vw : View) (replica_set : list NodeId) (req : WriteRequest) (hlc : Hlc) (chunks : list ChunkRef)
    (row_written : bool) (env : PutEnv) (c : Coordinator) (cl : Cluster)
    : Coordinator * Cluster * outcome Error WriteResult :=
  let self := cf_node_id cf in
  let quorum := if cf_quorum_requires_ring cf then rq_write_quorum req
                else Z.min (rq_write_quorum req) (as_u8 (length replica_set)) in
  let targets := remote_targets self vw replica_set in
  let request := replication_request req hlc (blake3 (rq_data req)) chunks in
  let '(cl, results) := replicate_write vw request targets (pe_rpc env) cl in
  let '(acks, failed) := account_results targets (by_target results) in
  let acks_received := S acks in
  let rollback c := rollback_failed_write (rq_bucket req) (rq_key req) row_written (pe_rollback_physical env)
                      (pe_rollback_now env) (pe_rollback_io env) c in
  if Z.of_nat acks_received <? quorum then (rollback c, cl, Err (QuorumNotMet quorum acks_received))
  else
    match hint_all (failed ++ unattempted self targets replica_set) req chunks hlc (pe_hint env) c with
    | (c, _, Ok _) =>
        (c, cl, Ok {| wr_object_key := rq_key req; wr_chunks := chunks; wr_size := Z.of_nat (length (rq_data req));
                      wr_blake3_hash := Some (blake3 (rq_data req)); wr_hlc := hlc |})
    | (c, hinted, Err e) =>
        (rollback (cancel_partial_hints hinted (rq_bucket req) (rq_key req) (pe_cancel_physical env) (pe_cancel env) c),
         cl, Err e)
    | (c, _, Panic) => (c, cl, Panic)
    end.

(** Steps 2b to 7, on a node of the replica set. *)
Definition put_local (vw : View) (replica_set : list NodeId) (req : WriteRequest) (env : PutEnv) (c : Coordinator)
    (cl : Cluster) : Coordinator * Cluster * outcome Error WriteResult :=
  let self := cf_node_id cf in
  let debt_known := known_down_debt_targets self vw replica_set
                    || existsb (fun t => negb (bool_decide (t = self)) && excluded_write_target vw t) replica_set in
  match (if debt_known then hint_debt_gate (pe_pools env) true c else (c, Ok ())) with
  | (c, Ok _) =>
      if negb (journals (pe_pools env)) then (c, cl, Err ServiceUnavailable)
      else
        let '(c, hlc) := clock_now c (pe_physical env) in
        if (length (rq_data req) =? 0)%nat
        then (c, cl, Ok {| wr_object_key := rq_key req; wr_chunks := []; wr_size := 0;
                           wr_blake3_hash := Some (blake3 (rq_data req)); wr_hlc := hlc |})
        else match store_local req hlc env c with
             | (c, Ok (chunks, row_written)) => replicate_and_ack vw replica_set req hlc chunks row_written env c cl
             | (c, Err e) => (c, cl, Err e)
             | (c, Panic) => (c, cl, Panic)
             end
  | (c, Err e) => (c, cl, Err e)
  | (c, Panic) => (c, cl, Panic)
  end.

Definition put (vw : View) (req : WriteRequest) (env : PutEnv) (c : Coordinator) (cl : Cluster)
    : Coordinator * Cluster * outcome Error WriteResult :=
  let replica_set := cache_lookup (vw_ring vw) (rq_hash_key req) in
  let n := length replica_set in
  if negb (serves (pe_pools env)) then (c, cl, Err ServiceUnavailable)
  else if (n =? 0)%nat then (c, cl, Err Routing)
  else if negb (cf_ready cf) && (n <? 2)%nat then (c, cl, Err (QuorumNotMet (Z.min (rq_write_quorum req) 2) n))
  else if cf_quorum_requires_ring cf && (as_u8 n <? rq_write_quorum req)
  then (c, cl, Err (QuorumNotMet (rq_write_quorum req) n))
  else if bool_decide (cf_node_id cf ∈ replica_set) then put_local vw replica_set req env c cl
  else match forward_target vw replica_set with
       | None => (c, cl, Err Routing)
       | Some target => forward_write vw target req env c cl
       end.

(** *** Delete *)

(** The calls to the replicas, one after the other. *)
Fixpoint delete_targets (vw : View) (targets : list NodeId) (bucket key : bytes) (hlc : Hlc) (rpc : NodeId -> rpc_io)
    (hint : NodeId -> hint_io) (c : Coordinator) (cl : Cluster) : Coordinator * Cluster * outcome Error nat :=
  match targets with
  | [] => (c, cl, Ok O)
  | t :: targets =>
      if bool_decide (t = cf_node_id cf) then delete_targets vw targets bucket key hlc rpc hint c cl
      else
        let hinted cl :=
          match enqueue_delete_hint t bucket key hlc (hint t) c with
          | (c, Ok _) => delete_targets vw targets bucket key hlc rpc hint c cl
          | (c, Err e) => (c, cl, Err e)
          | (c, Panic) => (c, cl, Panic)
          end in
        if negb (vw_address vw t) then hinted cl
        else match rpc t, cl !! t with
             | Served sv reply, Some r =>
                 let '(r, status) := delete_object_rpc sv bucket key (Some hlc) r in
                 let cl := <[t := r]> cl in
                 match reply, status with
                 | Arrives, Ok confirmed =>
                     match delete_targets vw targets bucket key hlc rpc hint c cl with
                     | (c, cl, Ok n) => (c, cl, Ok (if confirmed : bool then S n else n))
                     | r => r
                     end
                 | _, _ => hinted cl
                 end
             | _, _ => hinted cl
             end
  end.

Record DeleteEnv := {
  de_pools : option (list StoragePool); de_physical : Z; de_now : Z; de_io : commit_io;
  de_rpc : NodeId -> rpc_io; de_hint : NodeId -> hint_io }.

Definition delete_on_replicas (vw : View) (bucket key : bytes) (hash_key : RingPosition) (hlc : Hlc) (env : DeleteEnv) (c : Coordinator)
    (cl : Cluster) : Coordinator * Cluster * outcome Error nat :=
  let replica_set := cache_lookup (vw_ring vw) hash_key in
  if (length replica_set =? 0)%nat then (c, cl, Err Routing)
  else match (if known_down_debt_targets (cf_node_id cf) vw replica_set
              then hint_debt_gate (de_pools env) false c else (c, Ok ())) with
       | (c, Ok _) => delete_targets vw replica_set bucket key hlc (de_rpc env) (de_hint env) c cl
       | (c, Err e) => (c, cl, Err e)
       | (c, Panic) => (c, cl, Panic)
       end.

(** ** The S3 handlers *)

Inductive Response := Success | Failure (e : Error) | SlowDown.

(** [PUT]: the row of an object with chunks is written after the put.
    [admitted] is the outcome of the write queue. *)
Definition s3_put_object (admitted : bool) (vw : View) (req : WriteRequest) (env : PutEnv) (row_now : Z) (row_io : commit_io)
    (c : Coordinator) (cl : Cluster) : Coordinator * Cluster * outcome unit Response :=
  if negb admitted then (c, cl, Ok SlowDown)
  else match put vw req env c cl with
       | (c, cl, Ok res) =>
           match wr_chunks res with
           | [] => (c, cl, Ok Success)
           | chunks =>
               let meta := {| om_object_key := rq_key req; om_size := wr_size res; om_blake3_hash := wr_blake3_hash res;
                              om_chunks := chunks; om_inline_data := None; om_created_at := row_now; om_hlc := wr_hlc res |} in
               let '(st, ok) := put_object_in_bucket (wc_store c) row_io row_now (rq_bucket req) meta in
               (set_store c st, cl, Ok (if ok : bool then Success else Failure MetadataFailed))
           end
       | (c, cl, Err e) => (c, cl, Ok (Failure e))
       | (c, cl, Panic) => (c, cl, Panic)
       end.

(** [DELETE]: the local tombstone first, then the replicas, then the quorum. *)
Definition s3_delete_object (vw : View) (bucket key : bytes) (hash_key : RingPosition) (write_quorum : Z) (env : DeleteEnv)
    (c : Coordinator) (cl : Cluster) : Coordinator * Cluster * outcome unit Response :=
  let '(c, hlc) := clock_now c (de_physical env) in
  let replica_count := length (cache_lookup (vw_ring vw) hash_key) in
  if cf_quorum_requires_ring cf && (as_u8 replica_count <? write_quorum)
  then (c, cl, Ok (Failure (QuorumNotMet write_quorum replica_count)))
  else
    let '(st, ok) := delete_object (wc_store c) (de_io env) (de_now env) bucket key hlc in
    let c := set_store c st in
    if negb ok then (c, cl, Ok (Failure MetadataFailed))
    else match delete_on_replicas vw bucket key hash_key hlc env c cl with
         | (c, cl, Ok remote_deleted) =>
             let required := if cf_quorum_requires_ring cf then write_quorum
                             else Z.min write_quorum (as_u8 replica_count) in
             let confirmed := S remote_deleted in
             if Z.of_nat confirmed <? required then (c, cl, Ok (Failure (QuorumNotMet required confirmed)))
             else (c, cl, Ok Success)
         | (c, cl, Err e) => (c, cl, Ok (Failure e))
         | (c, cl, Panic) => (c, cl, Panic)
         end.

(** ** Hinted objects *)

(** [apply_hinted_object]: the object of a hint is stored on this node only. *)
Definition apply_hinted_object (bucket key data : bytes) (hlc : Hlc) (created_at : Z) (env : PutEnv) (row_io : commit_io)
    (c : Coordinator) : Coordinator * outcome WriteError ObjectMetadata :=
  let size := Z.of_nat (length data) in
  let meta chunks inline :=
    {| om_object_key := key; om_size := size; om_blake3_hash := Some (blake3 data); om_chunks := chunks;
       om_inline_data := inline; om_created_at := created_at; om_hlc := hlc |} in
  match pieces_of (cf_size_config cf) data with
  | None =>
      let '(st, ok) := put_object_in_bucket (wc_store c) row_io (pe_now env) bucket (meta [] (Some data)) in
      if ok : bool
      then (set_data (set_store c st)
              (drain_pending_seals new_small new_standard pp_small pp_standard (pe_drain_now env) (pe_drain_io1 env)
                 (pe_drain_io2 env) (wc_data c)), Ok (meta [] (Some data)))
      else (set_store c st, Err StorageError)
  | Some (small, pieces) =>
      let blob := {| bl_bucket := bucket; bl_key := key; bl_hash := blake3 data |} in
      match store_object small pieces blob None hlc (pe_chunks env) (pe_drain_now env) (pe_drain_io1 env)
              (pe_drain_io2 env) (wc_data c) with
      | (nd, Ok chunks) =>
          let c := set_data c nd in
          match chunks with
          | [] => (c, Ok (meta [] (Some data)))
          | _ =>
              let '(st, ok) := put_object_in_bucket (wc_store c) row_io (pe_now env) bucket (meta chunks None) in
              (set_store c st, if ok : bool then Ok (meta chunks None) else Err StorageError)
          end
      | (nd, Err e) => (set_data c nd, Err e)
      | (nd, Panic) => (set_data c nd, Panic)
      end
  end.
End coordinator.

(** ** The ledger of hints *)

Lemma hints_set mg n t m : hints (set_target mg n t) m = if decide (m = n) then snd <$> tg_queue t else hints mg m.
Proof. unfold hints. rewrite target_of_set. by case_decide. Qed.

Lemma hints_count a b c d e mg n : hints (count a b c d e mg) n = hints mg n.
Proof. done. Qed.

Lemma evict_hints mg now n : hints (evict_least_recently_used mg now) n = hints mg n.
Proof.
  unfold evict_least_recently_used. destruct (foldl _ _ _) as [[m z]|]; [|done]. rewrite hints_set. by case_decide; subst.
Qed.

Lemma open_hints mg n now opens m : hints (get_or_open_node_wal mg n now opens).2 m = hints mg m.
Proof.
  unfold get_or_open_node_wal. destruct (tg_open _); cbn [snd]; [rewrite hints_set; by case_decide; subst|].
  assert (He : forall k, hints (if (16 <=? open_count mg)%nat then evict_least_recently_used mg now else mg) k = hints mg k)
    by (intros k; destruct (_ <=? _)%nat; [apply evict_hints|done]).
  destruct opens; cbn [snd]; [|apply He]. rewrite hints_set. case_decide; [subst; apply He|apply He].
Qed.

(** An enqueue adds its hint, or nothing. *)
Lemma enqueue_hints encode crc32 mg r now now_secs opens io res mg' n :
  HintManager.enqueue encode crc32 mg r now now_secs opens io = (res, mg') ->
  hints mg' n = hints mg n ++
    match res with Ok _ => if decide (intended_for r = Some n) then [stamp r now_secs] else [] | _ => [] end.
Proof.
  unfold HintManager.enqueue. destruct (intended_for r) as [target|]; [|intros [= <- <-]; by rewrite app_nil_r].
  pose proof (open_hints mg target now opens) as Ho.
  destruct (get_or_open_node_wal mg target now opens) as [[w|] mg1]; cbn [snd] in Ho.
  2: { intros [= <- <-]. rewrite app_nil_r. apply Ho. }
  destruct (write_hint encode crc32 w (stamp r now_secs) io) as [[[position end_position]|] w1].
  - intros [= <- <-]. rewrite hints_count, hints_set, <- Ho.
    destruct (decide (n = target)) as [->|Hne].
    + rewrite decide_True by done. cbn. by rewrite fmap_app.
    + rewrite decide_False by congruence. by rewrite app_nil_r.
  - intros [= <- <-]. rewrite app_nil_r, <- Ho, hints_count, hints_set. by case_decide; subst.
Qed.

(** ** The stores of the replicas *)

Lemma put_object_get st io now bucket meta st' :
  put_object_in_bucket st io now bucket meta = (st', true) -> get_object st' bucket (om_object_key meta) = Some meta.
Proof. unfold put_object_in_bucket, commit, get_object. destruct io; [done..|]. intros [= <-]. apply lookup_insert_eq. Qed.

Lemma delete_object_get st io now bucket key hlc st' :
  delete_object st io now bucket key hlc = (st', true) ->
  get_object st' bucket key = None /\ exists t, get_tombstone st' bucket key = Some t /\ ts_hlc t = hlc.
Proof.
  unfold delete_object, commit, get_object, get_tombstone. destruct io; [done..|]. intros [= <-]. cbn.
  split; [apply lookup_delete_eq|]. eexists. by rewrite lookup_insert_eq.
Qed.

(** A replica holds the row that a request asks for. *)
Definition replicated (cl : Cluster) (n : NodeId) (request : SegmentAppendRequest) (hlc : Hlc) : Prop :=
  exists r sv, cl !! n = Some r /\
    get_object (rp_store r) (sr_bucket_id request) (sr_object_key request)
      = Some (received_meta sv request hlc (sr_data request)).

Lemma append_one sv request r r' ack hlc :
  append_segment sv [request] r = (r', Ok ack) -> sr_data request <> [] -> sr_hlc request = Some hlc ->
  get_object (rp_store r') (sr_bucket_id request) (sr_object_key request)
    = Some (received_meta sv request hlc (sr_data request)).
Proof.
  unfold append_segment. cbn [foldl collect cl_first cl_data app]. intros Ha Hne Hh.
  destruct (Nat.eqb_spec (length (sr_data request)) 0) as [Hz|_]; [by destruct (sr_data request)|].
  case_bool_decide; [done|]. rewrite Hh in Ha. case_bool_decide; [done|].
  destruct (put_object_in_bucket _ _ _ _ _) as [st []] eqn:Hp; [|done]. injection Ha as <- _.
  by apply put_object_get in Hp.
Qed.

Lemma replicate_single_other vw request t io cl cl' r n :
  replicate_to_single vw request t io cl = (cl', r) -> n <> t -> cl' !! n = cl !! n.
Proof.
  unfold replicate_to_single. intros Hr Hne. repeat case_match; simplify_eq; try done; by rewrite lookup_insert_ne.
Qed.

Lemma replicate_single_ok vw request t io cl cl' p hlc :
  replicate_to_single vw request t io cl = (cl', Some (Ok p)) -> sr_data request <> [] -> sr_hlc request = Some hlc ->
  replicated cl' t request hlc.
Proof.
  unfold replicate_to_single. intros Hr Hne Hh. destruct (negb _); [done|].
  destruct io as [[]|sv reply]; [done..|]. destruct (cl !! t) as [r|]; [|done].
  destruct (append_segment sv [request] r) as [r' [ack|e|]] eqn:Ha; destruct reply; simplify_eq.
  exists r', sv. split; [apply lookup_insert_eq|]. by eapply append_one.
Qed.

Lemma replicate_write_other vw request targets ios : forall cl cl' rs n,
  replicate_write vw request targets ios cl = (cl', rs) -> n ∉ targets -> cl' !! n = cl !! n.
Proof.
  induction targets as [|t targets IH]; intros cl cl' rs n; cbn [replicate_write]; [by intros [= <- _]|].
  destruct (replicate_to_single _ _ _ _ _) as [cl1 r] eqn:H1. destruct (replicate_write _ _ _ _ _) as [cl2 rs2] eqn:H2.
  intros [= <- _] [Hne Hn]%not_elem_of_cons. rewrite (IH _ _ _ _ H2 Hn). by eapply replicate_single_other.
Qed.

Lemma replicate_write_spec vw request hlc targets ios : forall cl cl' rs,
  replicate_write vw request targets ios cl = (cl', rs) -> NoDup targets ->
  sr_data request <> [] -> sr_hlc request = Some hlc ->
  (forall t, t ∈ rs.*1 -> t ∈ targets) /\ NoDup rs.*1 /\
  forall t p, (t, Ok p) ∈ rs -> replicated cl' t request hlc.
Proof.
  induction targets as [|t targets IH]; intros cl cl' rs; cbn [replicate_write].
  { intros [= <- <-] _ _ _. split_and!; [done|constructor|by intros t p H%not_elem_of_nil]. }
  destruct (replicate_to_single _ _ _ _ _) as [cl1 r] eqn:H1. destruct (replicate_write _ _ _ _ _) as [cl2 rs2] eqn:H2.
  intros [= <- <-] [Hnt Hnd]%NoDup_cons Hne Hh. destruct (IH _ _ _ H2 Hnd Hne Hh) as (Hin & Hnd2 & Hok).
  destruct r as [r|]; cbn [fmap option_fmap option_map option_list app list_fmap fst].
  - cbn [fmap list_fmap fst]. split_and!.
    + intros t' [->|Ht]%elem_of_cons; [by left|right; auto].
    + constructor; [|done]. cbn. intros Ht. by apply Hnt, Hin.
    + intros t' p [[= -> <-]|Ht]%elem_of_cons; [|by eapply Hok].
      destruct (replicate_single_ok _ _ _ _ _ _ _ _ H1 Hne Hh) as (q & sv & Hq & ?).
      exists q, sv. by rewrite (replicate_write_other _ _ _ _ _ _ _ _ H2 Hnt).
  - split_and!; [|done|done]. intros t' Ht. right. auto.
Qed.

Lemma by_target_Some rs t v : by_target rs !! t = Some v -> (t, v) ∈ rs.
Proof.
  unfold by_target. assert (Hg : forall m : gmap NodeId (outcome Error Z), foldl (fun m x => <[x.1 := x.2]> m) m rs !! t = Some v -> (t, v) ∈ rs \/ m !! t = Some v).
  { induction rs as [|[t' v'] rs IH]; intros m; cbn [foldl]; [by right|]. intros [Hin|Hl]%IH; [left; by right|].
    cbn in Hl. apply lookup_insert_Some in Hl as [[-> ->]|[_ Hl]]; [left; by left|by right]. }
  intros [?|Hl]%Hg; [done|]. by rewrite lookup_empty in Hl.
Qed.

Lemma account_spec targets : forall results acks failed,
  account_results targets results = (acks, failed) -> NoDup targets ->
  exists acked, NoDup acked /\ length acked = acks /\
    (forall t, t ∈ acked -> t ∈ targets /\ exists p, results !! t = Some (Ok p)) /\
    (forall t, t ∈ targets -> t ∈ acked \/ t ∈ failed).
Proof.
  induction targets as [|t targets IH]; intros results acks failed; cbn [account_results].
  { intros [= <- <-] _. exists []. split_and!; [constructor|done|by intros t H%not_elem_of_nil|by intros t H%not_elem_of_nil]. }
  destruct (account_results targets (delete t results)) as [a f] eqn:Ha. intros Hr [Hnt Hnd]%NoDup_cons.
  destruct (IH _ _ _ Ha Hnd) as (acked & Hna & Hl & Hok & Hall).
  assert (Hok' : forall u, u ∈ acked -> u ∈ targets /\ exists p, results !! u = Some (Ok p)).
  { intros u Hu. destruct (Hok u Hu) as (Hin & p & Hp). split; [done|]. exists p.
    by rewrite lookup_delete_ne in Hp by (by intros ->). }
  assert (Hfail : t :: f = failed -> a = acks -> exists acked, NoDup acked /\ length acked = acks /\
    (forall u, u ∈ acked -> u ∈ t :: targets /\ exists p, results !! u = Some (Ok p)) /\
    (forall u, u ∈ t :: targets -> u ∈ acked \/ u ∈ failed)).
  { intros <- <-. exists acked. split_and!; [done|done| |]; [intros u Hu; destruct (Hok' u Hu); split; [by right|done]|].
    intros u [->|Hu]%elem_of_cons; [right; by left|]. destruct (Hall u Hu); [by left|right; by right]. }
  destruct (results !! t) as [[p|e|]|] eqn:Ht; injection Hr as <- <-.
  - exists (t :: acked). split_and!; [|by rewrite <- Hl| |].
    + constructor; [|done]. intros Hu. by apply Hnt, Hok.
    + intros u [->|Hu]%elem_of_cons; [split; [by left|eauto]|]. destruct (Hok' u Hu). split; [by right|done].
    + intros u [->|Hu]%elem_of_cons; [left; by left|]. destruct (Hall u Hu); [left; by right|by right].
  - by apply Hfail.
  - by apply Hfail.
  - by apply Hfail.
Qed.

Lemma of_class_NoDup self vw cls rs : NoDup rs -> NoDup (of_class self vw cls rs).
Proof. apply NoDup_filter. Qed.

Lemma remote_targets_spec self vw rs :
  NoDup rs -> NoDup (remote_targets self vw rs) /\ forall n, n ∈ remote_targets self vw rs -> n ∈ rs /\ n <> self.
Proof.
  intros Hnd. unfold remote_targets. split.
  - eapply sublist_NoDup; [|apply sublist_take]. apply NoDup_app. split_and!; [by apply of_class_NoDup| |by apply of_class_NoDup].
    intros n [[_ Hp] _]%list_elem_of_filter [[_ Hf] _]%list_elem_of_filter. congruence.
  - intros n Hn. eapply elem_of_sublist in Hn; [|apply sublist_take].
    apply elem_of_app in Hn as [[[??]?]%list_elem_of_filter|[[??]?]%list_elem_of_filter]; done.
Qed.

(** ** Puts *)

Section put_lemmas.
Context (crc32 : bytes -> Z) (blake3 : bytes -> bytes) (shard_for : SegmentId -> Z).
Context (new_small new_standard : nat -> SegmentId) (pp_small pp_standard : PoolParams).
Context (encode : HintRecord -> bytes) (cf : Config).

Notation enqueue_hint := (enqueue_hint crc32 encode).
Notation hint_all := (hint_all crc32 encode cf).

Lemma hint_debt_gate_hints pools w c c' r : hint_debt_gate pools w c = (c', r) -> wc_hints c' = wc_hints c /\ wc_store c' = wc_store c.
Proof using Type. unfold hint_debt_gate. destruct (hints_pool_accepts pools); by intros [= <- _]. Qed.

(** An enqueue of the coordinator touches the ledger only. *)
Lemma enqueue_hint_spec w hint io c c' r :
  enqueue_hint w hint io c = (c', r) ->
  wc_store c' = wc_store c /\
  forall n, hints (wc_hints c') n = hints (wc_hints c) n ++
    match r with Ok _ => if decide (intended_for hint = Some n) then [stamp hint (hi_now_secs io)] else [] | _ => [] end.
Proof using Type.
  unfold WriteCoordinator.enqueue_hint. destruct (hint_debt_gate (hi_pools io) w c) as [c1 r1] eqn:Hg.
  destruct (hint_debt_gate_hints _ _ _ _ _ Hg) as [Hh Hs].
  destruct r1 as [[]|e|]; [|intros [= <- <-]; split; [done|]; intros n; by rewrite Hh, app_nil_r..].
  destruct (HintManager.enqueue _ _ _ _ _ _ _ _) as [[[]|e|] mg] eqn:He; intros [= <- <-]; (split; [done|]);
    intros n; cbn [wc_hints set_hints]; rewrite (enqueue_hints _ _ _ _ _ _ _ _ _ _ n He), Hh; done.
Qed.

Lemma write_hint_target t req chunks hlc : intended_for (write_hint_record cf t req chunks hlc) = Some t.
Proof using Type. unfold write_hint_record. destruct (_ <=? _); [done|]. by destruct chunks. Qed.

Lemma hint_all_spec req chunks hlc ios targets : forall c c' hinted r,
  hint_all targets req chunks hlc ios c = (c', hinted, r) ->
  wc_store c' = wc_store c /\ (forall n h, h ∈ hints (wc_hints c) n -> h ∈ hints (wc_hints c') n) /\
  (r = Ok () -> forall t, t ∈ targets ->
     stamp (write_hint_record cf t req chunks hlc) (hi_now_secs (ios t)) ∈ hints (wc_hints c') t).
Proof using Type.
  induction targets as [|t targets IH]; intros c c' hinted r; cbn [WriteCoordinator.hint_all].
  { intros [= <- <- <-]. split_and!; [done|done|]. by intros _ t H%not_elem_of_nil. }
  unfold enqueue_write_hint. destruct (enqueue_hint _ _ _ _) as [c1 r1] eqn:H1. apply enqueue_hint_spec in H1 as [Hs Hh].
  assert (Hold : forall n h, h ∈ hints (wc_hints c) n -> h ∈ hints (wc_hints c1) n)
    by (intros n h Hin; rewrite Hh; apply elem_of_app; by left).
  destruct r1 as [[]|e|]; [|intros [= <- <- <-]; split_and!; done..].
  destruct (hint_all targets req chunks hlc ios c1) as [[c2 hs] r2] eqn:H2. intros [= <- <- <-].
  destruct (IH _ _ _ _ H2) as (Hs2 & Hk & Hall). split_and!; [congruence|auto|].
  intros Hok u [->|Hu]%elem_of_cons; [|auto]. apply Hk. rewrite Hh, write_hint_target, decide_True by done.
  apply elem_of_app. right. by left.
Qed.

Lemma write_chunks_length small blob ctx hlc pieces : forall nd ls nd' ls' cs,
  write_chunks crc32 blake3 shard_for new_small new_standard pp_small pp_standard small blob ctx pieces hlc nd ls
    = (nd', ls', Ok cs) -> length cs = length pieces.
Proof using Type.
  induction pieces as [|[d env] pieces IH]; intros nd ls nd' ls' cs; cbn [write_chunks]; [by intros [= _ _ <-]|].
  destruct (write_chunk _ _ _ _ _ _ _ _ _ _ _ _ _ _ _) as [[nd1 ls1] [c| |]]; [|done..].
  destruct (write_chunks _ _ _ _ _ _ _ _ _ _ _ _ _ _) as [[nd2 ls2] [cs2| |]] eqn:H2; [|done..].
  intros [= _ _ <-]. cbn. by rewrite (IH _ _ _ _ _ H2).
Qed.

Lemma pieces_of_nonempty cfg data small pieces :
  pieces_of cfg data = Some (small, pieces) -> data <> [] -> pieces <> [].
Proof using Type.
  unfold pieces_of. intros Hp Hne. destruct (classify _ _); simplify_eq; try done. unfold split.
  by destruct data as [|x data].
Qed.

(** The row of the object: written already, or still to be written by the
    handler. *)
Lemma store_local_spec req hlc env c c' chunks row_written :
  store_local crc32 blake3 shard_for new_small new_standard pp_small pp_standard cf req hlc env c = (c', Ok (chunks, row_written)) ->
  rq_data req <> [] -> wc_hints c' = wc_hints c /\
  (row_written = true /\ chunks = [] /\ (exists m, get_object (wc_store c') (rq_bucket req) (rq_key req) = Some m /\
      om_hlc m = hlc /\ om_chunks m = [] /\ om_inline_data m = Some (rq_data req)) \/
   row_written = false /\ chunks <> [] /\ wc_store c' = wc_store c).
Proof using Type.
  unfold store_local. intros Hs Hne. destruct (pieces_of _ _) as [[small pieces]|] eqn:Hp.
  - destruct (store_object _ _ _ _ _ _ _ _ _ _ _ _ _ _ _ _ _) as [nd [cs|e|]] eqn:Ho; [|done..]. simplify_eq.
    split; [done|]. right. split_and!; [done| |done]. intros ->. unfold store_object in Ho.
    destruct (write_chunks _ _ _ _ _ _ _ _ _ _ _ _ _ _) as [[nd1 ls] [cs| |]] eqn:Hw; [|done..]. simplify_eq.
    apply write_chunks_length in Hw. rewrite length_imap in Hw. by apply (pieces_of_nonempty _ _ _ _ Hp Hne), nil_length_inv.
  - destruct (put_object_in_bucket _ _ _ _ _) as [st []] eqn:Ho; [|done]. simplify_eq. split; [done|]. left.
    split_and!; [done|done|]. apply put_object_get in Ho. by eexists.
Qed.

(** The quorum that a put waits for. *)
Definition required_quorum (write_quorum : Z) (replica_set : list NodeId) : Z :=
  if cf_quorum_requires_ring cf then write_quorum else Z.min write_quorum (as_u8 (length replica_set)).

(** Every member of the replica set has the version or is owed it. *)
Definition accounted_for (replica_set acked : list NodeId) (req : WriteRequest) (hlc : Hlc) (chunks : list ChunkRef)
    (env : PutEnv) (c : Coordinator) (cl : Cluster) : Prop :=
  NoDup acked /\ required_quorum (rq_write_quorum req) replica_set <= Z.of_nat (S (length acked)) /\
  (forall n, n ∈ acked -> n ∈ replica_set /\ n <> cf_node_id cf /\
     replicated cl n (replication_request req hlc (blake3 (rq_data req)) chunks) hlc) /\
  (forall n, n ∈ replica_set -> n = cf_node_id cf \/ n ∈ acked \/
     stamp (write_hint_record cf n req chunks hlc) (hi_now_secs (pe_hint env n)) ∈ hints (wc_hints c) n).

Lemma replicate_and_ack_spec vw replica_set req hlc chunks row_written env c cl c' cl' res :
  replicate_and_ack crc32 blake3 encode cf vw replica_set req hlc chunks row_written env c cl = (c', cl', Ok res) ->
  NoDup replica_set -> rq_data req <> [] ->
  wc_store c' = wc_store c /\ wr_chunks res = chunks /\ wr_hlc res = hlc /\
  exists acked, accounted_for replica_set acked req hlc chunks env c' cl'.
Proof using Type.
  unfold replicate_and_ack. intros Hr Hnd Hne. set (targets := remote_targets _ _ _) in *.
  set (request := replication_request _ _ _ _) in *.
  destruct (replicate_write vw request targets (pe_rpc env) cl) as [cl1 rs] eqn:Hw.
  destruct (account_results targets (by_target rs)) as [acks failed] eqn:Ha.
  destruct (remote_targets_spec (cf_node_id cf) vw replica_set Hnd) as [Hnt Hin]. fold targets in Hnt, Hin.
  destruct (replicate_write_spec _ _ hlc _ _ _ _ _ Hw Hnt Hne) as (_ & _ & Hok); [done|].
  destruct (account_spec _ _ _ _ Ha Hnt) as (acked & Hna & Hl & Hack & Hall).
  destruct (Z.ltb_spec (Z.of_nat (S acks)) (required_quorum (rq_write_quorum req) replica_set)) as [Hq|Hq];
    unfold required_quorum in Hq; [rewrite (proj2 (Z.ltb_lt _ _) Hq) in Hr; done|rewrite (proj2 (Z.ltb_ge _ _) Hq) in Hr].
  destruct (hint_all _ _ _ _ _ _) as [[c2 hinted] [[]|e|]] eqn:Hh; [|done..]. simplify_eq/=.
  apply hint_all_spec in Hh as (Hs & _ & Hhint). split_and!; [done..|]. exists acked. split_and!; [done|done| |].
  - intros n Hn. destruct (Hack n Hn) as (Ht & p & Hp). destruct (Hin n Ht). split_and!; [done..|].
    by eapply Hok, by_target_Some.
  - intros n Hn. destruct (decide (n = cf_node_id cf)) as [|Hself]; [by left|]. right.
    destruct (decide (n ∈ targets)) as [Ht|Ht].
    + destruct (Hall n Ht) as [|Hf]; [by left|]. right. apply Hhint; [done|]. apply elem_of_app. by left.
    + right. apply Hhint; [done|]. apply elem_of_app. right. by apply list_elem_of_filter.
Qed.
End put_lemmas.

(** ** Properties *)

Section properties.
Context (crc32 : bytes -> Z) (blake3 : bytes -> bytes) (shard_for : SegmentId -> Z).
Context (new_small new_standard : nat -> SegmentId) (pp_small pp_standard : PoolParams).
Context (encode : HintRecord -> bytes) (cf : Config).

Notation put := (put crc32 blake3 shard_for new_small new_standard pp_small pp_standard encode cf).
Notation put_local := (put_local crc32 blake3 shard_for new_small new_standard pp_small pp_standard encode cf).
Notation s3_put_object := (s3_put_object crc32 blake3 shard_for new_small new_standard pp_small pp_standard encode cf).

Lemma put_gates vw req env c cl c' cl' res :
  put vw req env c cl = (c', cl', Ok res) ->
  let replica_set := cache_lookup (vw_ring vw) (rq_hash_key req) in
  if bool_decide (cf_node_id cf ∈ replica_set) then put_local vw replica_set req env c cl = (c', cl', Ok res)
  else exists t, forward_target vw replica_set = Some t /\ forward_write blake3 vw t req env c cl = (c', cl', Ok res).
Proof using Type.
  cbn zeta. unfold WriteCoordinator.put. intros Hp. destruct (negb (serves _)); [done|].
  destruct (_ =? _)%nat; [done|]. destruct (_ && _); [done|]. destruct (_ && _); [done|].
  case_bool_decide; [done|]. destruct (forward_target _ _) as [t|]; [|done]. eauto.
Qed.

Lemma put_local_spec vw replica_set req env c cl c' cl' res :
  put_local vw replica_set req env c cl = (c', cl', Ok res) -> NoDup replica_set -> rq_data req <> [] ->
  (wr_chunks res = [] -> exists m, get_object (wc_store c') (rq_bucket req) (rq_key req) = Some m /\
     om_hlc m = wr_hlc res /\ om_chunks m = [] /\ om_inline_data m = Some (rq_data req)) /\
  exists acked, accounted_for blake3 cf replica_set acked req (wr_hlc res) (wr_chunks res) env c' cl'.
Proof using Type.
  unfold WriteCoordinator.put_local. intros Hp Hnd Hne.
  destruct (if _ || _ then _ else _) as [c0 [[]|e|]]; [|done..].
  destruct (negb _); [done|]. destruct (clock_now c0 (pe_physical env)) as [c1 hlc].
  destruct (Nat.eqb_spec (length (rq_data req)) 0) as [Hz|_]; [by destruct (rq_data req)|].
  destruct (store_local _ _ _ _ _ _ _ _ _ _ _ _) as [c2 [[chunks row]|e|]] eqn:Hs; [|done..].
  apply store_local_spec in Hs as (_ & Hrow); [|done].
  apply replicate_and_ack_spec in Hp as (Hst & -> & -> & Hacc); [|done..]. split; [|done].
  rewrite Hst. intros ->. by destruct Hrow as [(_ & _ & ?)|(_ & ? & _)].
Qed.

Lemma ring_NoDup vw h : ring_inv (inner (vw_ring vw)) -> NoDup (cache_lookup (vw_ring vw) h).
Proof using Type. intros (Hs & _). by apply ring_lookup_NoDup. Qed.

(** C3: a put of a non-empty object that the client sees succeed on a node of
    the replica set is accounted for everywhere: the coordinator has the row, at
    least the write quorum of nodes (itself included) has it, and every other
    member of the replica set has the row or a hint for it in the coordinator's
    ledger, whichever calls fail, get lost or come too late. This is of the
    state when the handler returns, with the put and the handler's write of the
    row as one step: a hint that is delivered between the two, before the row
    exists, is [HintReceiver]'s [early_delivery_drops_write]. *)
Theorem acked_put_is_accounted vw req env row_now row_io c cl c' cl' :
  s3_put_object true vw req env row_now row_io c cl = (c', cl', Ok Success) ->
  ring_inv (inner (vw_ring vw)) -> rq_data req <> [] ->
  cf_node_id cf ∈ cache_lookup (vw_ring vw) (rq_hash_key req) ->
  exists m acked,
    get_object (wc_store c') (rq_bucket req) (rq_key req) = Some m /\
    (om_chunks m = [] -> om_inline_data m = Some (rq_data req)) /\
    accounted_for blake3 cf (cache_lookup (vw_ring vw) (rq_hash_key req)) acked req (om_hlc m) (om_chunks m) env c' cl'.
Proof using Type.
  intros Hs Hring Hne Hself. unfold WriteCoordinator.s3_put_object in Hs. cbn [negb] in Hs.
  destruct (put vw req env c cl) as [[c1 cl1] [res|e|]] eqn:Hp; [|done..].
  apply put_gates in Hp. cbn zeta in Hp. rewrite bool_decide_true in Hp by done.
  apply put_local_spec in Hp as (Hrow & acked & Hacc); [|by apply ring_NoDup|done].
  destruct (wr_chunks res) as [|ch chs] eqn:Hch.
  - injection Hs as <- <-. destruct Hrow as (m & Hm & Hh & Hc & Hi); [done|]. exists m, acked. by rewrite Hc, Hh.
  - destruct (put_object_in_bucket _ _ _ _ _) as [st []] eqn:Ho; [|done]. injection Hs as <- <-.
    apply put_object_get in Ho. eexists _, acked. split_and!; [exact Ho|done|]. exact Hacc.
Qed.

(** A forwarded write touches the clock of the coordinator and one node. *)
Lemma forward_write_spec vw t req env c cl c' cl' r :
  forward_write blake3 vw t req env c cl = (c', cl', r) ->
  wc_store c' = wc_store c /\ wc_data c' = wc_data c /\ wc_hints c' = wc_hints c /\
  (forall n, n <> t -> cl' !! n = cl !! n) /\ forall required received, r <> Err (QuorumNotMet required received).
Proof using Type.
  unfold forward_write, clock_now. intros Hf. repeat case_match; simplify_eq/=; split_and!; try done;
    intros n Hn; by rewrite lookup_insert_ne.
Qed.

Lemma hint_all_data req chunks hlc ios targets : forall c,
  wc_store (hint_all crc32 encode cf targets req chunks hlc ios c).1.1 = wc_store c.
Proof using Type.
  intros c. destruct (hint_all _ _ _ _ _ _ _ _ _) as [[c1 h] r] eqn:H. by apply hint_all_spec in H as (? & _).
Qed.

Lemma hint_all_error req chunks hlc ios targets : forall c c' hinted e,
  hint_all crc32 encode cf targets req chunks hlc ios c = (c', hinted, Err e) -> e = ServiceUnavailable.
Proof using Type.
  induction targets as [|t targets IH]; intros c c' hinted e; cbn [hint_all]; [done|].
  unfold enqueue_write_hint, enqueue_hint, hint_debt_gate. destruct (hints_pool_accepts _); [|by intros [= _ _ <-]].
  destruct (HintManager.enqueue _ _ _ _ _ _ _ _) as [[[]|e1|] mg]; [|by intros [= _ _ <-]|done].
  destruct (hint_all _ _ _ targets _ _ _ _ _) as [[c3 hs] r3] eqn:H3. intros [= _ _ ->]. by eapply IH.
Qed.

Lemma cancel_store targets bucket key physical ios c :
  wc_store (cancel_partial_hints crc32 encode targets bucket key physical ios c) = wc_store c.
Proof using Type.
  unfold cancel_partial_hints. destruct targets as [|t ts]; [done|]. destruct (clock_now c physical) as [c1 h] eqn:Hc.
  assert (wc_store c1 = wc_store c) as <- by (by injection Hc as <- _). clear Hc. generalize (t :: ts). intros l.
  revert c1. induction l as [|x l IH]; intros c1; [done|]. cbn [foldl]. by rewrite IH.
Qed.

(** a put of a segment-tier object that fails leaves the metadata of the
    coordinator as it was, whatever the error; when the quorum is missed it
    leaves no hint either, so that the refused version is not spread. *)
Theorem refused_put_leaves_no_row vw req env c cl c' cl' e :
  put vw req env c cl = (c', cl', Err e) -> pieces_of (cf_size_config cf) (rq_data req) <> None ->
  wc_store c' = wc_store c /\
  forall required received n, e = QuorumNotMet required received -> hints (wc_hints c') n = hints (wc_hints c) n.
Proof using Type.
  unfold WriteCoordinator.put. intros Hp Htier.
  destruct (negb (serves _)); [by simplify_eq|]. destruct (_ =? _)%nat; [by simplify_eq|].
  destruct (_ && _); [by simplify_eq|]. destruct (_ && _); [by simplify_eq|]. case_bool_decide.
  2: { destruct (forward_target _ _) as [t|]; [|by simplify_eq].
       apply forward_write_spec in Hp as (? & _ & Hh & _). split; [done|]. intros. by rewrite Hh. }
  unfold WriteCoordinator.put_local in Hp. destruct (if _ || _ then _ else _) as [c0 r0] eqn:Hg.
  assert (Hc0 : wc_store c0 = wc_store c /\ wc_hints c0 = wc_hints c).
  { destruct (_ || _); [apply hint_debt_gate_hints in Hg as []; by split|by simplify_eq]. }
  destruct Hc0 as [<- <-]. destruct r0 as [[]|e0|]; [|by simplify_eq..]. destruct (negb _); [by simplify_eq|].
  cbn [clock_now] in Hp. destruct (_ =? _)%nat; [done|]. unfold store_local in Hp.
  destruct (pieces_of _ _) as [[small pieces]|]; [|done].
  destruct (store_object _ _ _ _ _ _ _ _ _ _ _ _ _ _ _ _ _) as [nd [cs|e1|]]; [|by simplify_eq..].
  unfold replicate_and_ack, rollback_failed_write in Hp. cbn [negb] in Hp.
  destruct (replicate_write _ _ _ _ _) as [cl1 rs]. destruct (account_results _ _) as [acks failed].
  destruct (_ <? _); [by simplify_eq|].
  match type of Hp with context [hint_all _ _ _ ?a ?b ?d ?h ?i ?st] => pose proof (hint_all_data b d h i a st) as Hd end.
  destruct (hint_all _ _ _ _ _ _ _ _ _) as [[c2 hinted] [[]|e2|]] eqn:Hh; [done| |done]. simplify_eq/=.
  rewrite cancel_store. split; [done|]. intros required received n ->. by apply hint_all_error in Hh.
Qed.

(** Two readings of the clock. *)
Lemma clock_twice h p1 p2 :
  hlc_wf h -> is_u64 p1 -> is_u64 p2 ->
  let t := now_next p2 (pack (now_next p1 (pack h))) in wall_time t < u64_max -> hlc_lt h t.
Proof using Type.
  intros Hh Hp1 Hp2 t Ht. destruct (op_next_advances Now p1 h Hh I Hp1) as (Hw1 & _ & _ & A1).
  destruct (op_next_advances Now p2 _ Hw1 I Hp2) as (_ & Hm & _ & A2). cbn [op_next] in *. fold t in Hm, A2.
  destruct (A2 Ht) as [L2 _]. destruct A1 as [L1 _]; [lia|]. by eapply hlc_lt_trans.
Qed.

(** an inline overwrite that misses its quorum erases the version that was
    committed before. The roll-back, when its commit succeeds, deletes the key
    with a fresh timestamp: the client sees an error, and the old object is
    gone, behind a tombstone that is newer than the old object's version,
    unless that version was ahead of the coordinator's clock or the clock is at
    the end of its range. *)
Theorem refused_overwrite_erases_object vw req env c cl c' cl' required received old :
  put vw req env c cl = (c', cl', Err (QuorumNotMet required received)) ->
  cf_node_id cf ∈ cache_lookup (vw_ring vw) (rq_hash_key req) -> cf_ready cf = true ->
  rq_write_quorum req <= as_u8 (length (cache_lookup (vw_ring vw) (rq_hash_key req))) ->
  pieces_of (cf_size_config cf) (rq_data req) = None -> pe_rollback_io env = Committed ->
  is_u64 (pe_physical env) -> is_u64 (pe_rollback_physical env) ->
  get_object (wc_store c) (rq_bucket req) (rq_key req) = Some old ->
  get_object (wc_store c') (rq_bucket req) (rq_key req) = None /\
  exists t, get_tombstone (wc_store c') (rq_bucket req) (rq_key req) = Some t /\
    forall h, wc_clock c = pack h -> hlc_wf h -> ~ hlc_lt h (om_hlc old) -> wall_time (ts_hlc t) < u64_max ->
      hlc_lt (om_hlc old) (ts_hlc t).
Proof using Type.
  unfold WriteCoordinator.put. intros Hp Hself Hready Hq Htier Hio Hp1 Hp2 _.
  destruct (negb (serves _)); [done|]. destruct (_ =? _)%nat; [done|]. rewrite Hready in Hp. cbn [negb andb] in Hp.
  rewrite (proj2 (Z.ltb_ge _ _) Hq), andb_false_r, bool_decide_true in Hp by done.
  unfold WriteCoordinator.put_local in Hp. destruct (if _ || _ then _ else _) as [c0 [[]|e|]] eqn:Hg; [| |done].
  2: { destruct (_ || _); [|done]. unfold hint_debt_gate in Hg. by destruct (hints_pool_accepts _); simplify_eq. }
  assert (Hck : wc_clock c0 = wc_clock c).
  { destruct (_ || _); [|by simplify_eq]. unfold hint_debt_gate in Hg. by destruct (hints_pool_accepts _); simplify_eq. }
  destruct (negb _); [done|]. cbn [clock_now] in Hp. destruct (_ =? _)%nat; [done|].
  unfold store_local in Hp. rewrite Htier in Hp.
  destruct (put_object_in_bucket _ _ _ _ _) as [st []]; [|done].
  unfold replicate_and_ack, rollback_failed_write in Hp. cbn [negb clock_now] in Hp.
  destruct (replicate_write _ _ _ _ _) as [cl1 rs]. destruct (account_results _ _) as [acks failed]. rewrite Hio in Hp.
  destruct (_ <? _).
  - simplify_eq. unfold get_object, get_tombstone, delete_object, commit. cbn. split; [apply lookup_delete_eq|].
    eexists. rewrite lookup_insert_eq. split; [reflexivity|]. cbn [ts_hlc]. rewrite Hck. intros h -> Hh Hle Hmax.
    pose proof (clock_twice h _ _ Hh Hp1 Hp2 Hmax) as L. rewrite hlc_lt_iff in *. lia.
  - destruct (hint_all _ _ _ _ _ _ _ _ _) as [[c2 hinted] [[]|e2|]] eqn:Hh; [done| |done].
    apply hint_all_error in Hh as ->. done.
Qed.

(** a put of an empty object on a node of the replica set answers success
    and stores nothing: no row, no segment, no replica and no hint changes. *)
Theorem empty_put_stores_nothing vw req env row_now row_io c cl c' cl' :
  s3_put_object true vw req env row_now row_io c cl = (c', cl', Ok Success) -> rq_data req = [] ->
  cf_node_id cf ∈ cache_lookup (vw_ring vw) (rq_hash_key req) ->
  wc_store c' = wc_store c /\ wc_data c' = wc_data c /\ wc_hints c' = wc_hints c /\ cl' = cl.
Proof using Type.
  intros Hs He Hself. unfold WriteCoordinator.s3_put_object in Hs. cbn [negb] in Hs.
  destruct (put vw req env c cl) as [[c1 cl1] [res|e|]] eqn:Hp; [|done..].
  apply put_gates in Hp. cbn zeta in Hp. rewrite bool_decide_true in Hp by done.
  unfold WriteCoordinator.put_local in Hp. destruct (if _ || _ then _ else _) as [c0 [[]|e|]] eqn:Hg; [|done..].
  assert (c0 = c) as ->.
  { destruct (_ || _); [|by injection Hg]. unfold hint_debt_gate in Hg. by destruct (hints_pool_accepts _); simplify_eq. }
  destruct (negb _); [done|]. rewrite He in Hp. cbn in Hp. simplify_eq/=. done.
Qed.

(** a put on a node outside the replica set is one copy: whatever quorum
    was asked for, only the node it is forwarded to gets a row, no hint is
    recorded, and the row that the handler then writes on the coordinator
    names a new segment that holds nothing. *)
Theorem forwarded_put_is_one_copy vw req env row_now row_io c cl c' cl' :
  s3_put_object true vw req env row_now row_io c cl = (c', cl', Ok Success) ->
  cf_node_id cf ∉ cache_lookup (vw_ring vw) (rq_hash_key req) ->
  exists t m, (forall n, n <> t -> cl' !! n = cl !! n) /\ wc_hints c' = wc_hints c /\ wc_data c' = wc_data c /\
    get_object (wc_store c') (rq_bucket req) (rq_key req) = Some m /\
    cr_segment_id <$> om_chunks m = [pe_forward_id env].
Proof using Type.
  intros Hs Hself. unfold WriteCoordinator.s3_put_object in Hs. cbn [negb] in Hs.
  destruct (put vw req env c cl) as [[c1 cl1] [res|e|]] eqn:Hp; [|done..].
  apply put_gates in Hp. cbn zeta in Hp. rewrite bool_decide_false in Hp by done. destruct Hp as (t & _ & Hf).
  assert (Hch : exists ch, wr_chunks res = [ch] /\ cr_segment_id ch = pe_forward_id env).
  { unfold forward_write, clock_now in Hf. repeat case_match; simplify_eq/=. by eexists. }
  apply forward_write_spec in Hf as (Hst & Hd & Hh & Hcl & _). destruct Hch as (ch & Hch & Hid). rewrite Hch in Hs.
  destruct (put_object_in_bucket _ _ _ _ _) as [st []] eqn:Ho; [|done]. injection Hs as <- <-.
  apply put_object_get in Ho. exists t. eexists. split_and!; [done|done|done|exact Ho|]. cbn. by rewrite Hid.
Qed.
End properties.

(** the append of a replicated object does not compare versions: an older
    write that arrives late replaces a newer row of the replica and is
    acknowledged. *)
Theorem late_append_replaces_newer sv request r r' ack hlc newer :
  append_segment sv [request] r = (r', Ok ack) -> sr_data request <> [] -> sr_hlc request = Some hlc ->
  get_object (rp_store r) (sr_bucket_id request) (sr_object_key request) = Some newer -> hlc_lt hlc (om_hlc newer) ->
  exists m, get_object (rp_store r') (sr_bucket_id request) (sr_object_key request) = Some m /\ om_hlc m = hlc.
Proof. intros Ha Hne Hh _ _. eexists. split; [by eapply append_one|done]. Qed.

(** ** Deletes *)

Section deletes.
Context (crc32 : bytes -> Z) (encode : HintRecord -> bytes) (cf : Config).

Notation delete_targets := (delete_targets crc32 encode cf).

(** A replica has the tombstone. *)
Definition gone (bucket key : bytes) (hlc : Hlc) (cl : Cluster) (n : NodeId) : Prop :=
  exists r t, cl !! n = Some r /\ get_object (rp_store r) bucket key = None /\
    get_tombstone (rp_store r) bucket key = Some t /\ ts_hlc t = hlc.

(** The ledger has the delete for it. *)
Definition owed (bucket key : bytes) (hlc : Hlc) (hint : NodeId -> hint_io) (c : Coordinator) (n : NodeId) : Prop :=
  stamp (new_delete n bucket key hlc) (hi_now_secs (hint n)) ∈ hints (wc_hints c) n.

Lemma delete_rpc_spec sv bucket key hlc r r' b :
  delete_object_rpc sv bucket key (Some hlc) r = (r', Ok b) ->
  b = true /\ get_object (rp_store r') bucket key = None /\
  exists t, get_tombstone (rp_store r') bucket key = Some t /\ ts_hlc t = hlc.
Proof using Type.
  unfold delete_object_rpc. cbn [default from_option]. destruct (delete_object _ _ _ _ _ _) as [st []] eqn:Hd; [|done].
  intros [= <- <-]. by apply delete_object_get in Hd.
Qed.

(** Other nodes keep what they have, and hints are not lost. *)
Lemma delete_targets_frame vw bucket key hlc rpc hint targets : forall c cl c' cl' k,
  delete_targets vw targets bucket key hlc rpc hint c cl = (c', cl', Ok k) ->
  wc_store c' = wc_store c /\ (forall n, n ∉ targets -> cl' !! n = cl !! n) /\
  (forall n h, h ∈ hints (wc_hints c) n -> h ∈ hints (wc_hints c') n).
Proof using Type.
  induction targets as [|t targets IH]; intros c cl c' cl' k; cbn [WriteCoordinator.delete_targets].
  { by intros [= <- <- <-]. }
  case_bool_decide as Hself.
  { intros Hd. apply IH in Hd as (? & Hcl & ?). split_and!; [done| |done]. intros n [_ Hn]%not_elem_of_cons. auto. }
  assert (Hhint : forall cl1, (forall n, n <> t -> cl1 !! n = cl !! n) ->
    match enqueue_delete_hint crc32 encode t bucket key hlc (hint t) c with
    | (c, Ok _) => delete_targets vw targets bucket key hlc rpc hint c cl1
    | (c, Err e) => (c, cl1, Err e)
    | (c, Panic) => (c, cl1, Panic)
    end = (c', cl', Ok k) ->
    wc_store c' = wc_store c /\ (forall n, n ∉ t :: targets -> cl' !! n = cl !! n) /\
    (forall n h, h ∈ hints (wc_hints c) n -> h ∈ hints (wc_hints c') n)).
  { intros cl1 Hcl1. unfold enqueue_delete_hint. destruct (enqueue_hint _ _ _ _ _ _) as [c1 [[]|e|]] eqn:He; [|done..].
    apply enqueue_hint_spec in He as [Hs Hh]. intros (Hs' & Hcl & Hk)%IH. split_and!; [congruence| |].
    - intros n [Hn Hnt]%not_elem_of_cons. rewrite Hcl by done. by apply Hcl1.
    - intros n h Hin. apply Hk. rewrite Hh. apply elem_of_app. by left. }
  destruct (negb _); [by apply Hhint|]. destruct (rpc t) as [late|sv reply]; [by apply Hhint|].
  destruct (cl !! t) as [r|]; [|by apply Hhint].
  destruct (delete_object_rpc sv bucket key (Some hlc) r) as [r1 status].
  assert (Hins : forall n, n <> t -> <[t := r1]> cl !! n = cl !! n) by (intros; by rewrite lookup_insert_ne).
  destruct reply, status as [b|e|]; try (by apply Hhint).
  destruct (delete_targets _ _ _ _ _ _ _ _ _) as [[c1 cl1] [m|e|]] eqn:Hd; [|done..]. intros [= <- <- _].
  apply IH in Hd as (? & Hcl & ?). split_and!; [done| |done]. intros n [Hn Hnt]%not_elem_of_cons. rewrite Hcl by done. auto.
Qed.

Lemma delete_targets_spec vw bucket key hlc rpc hint targets : forall c cl c' cl' k,
  delete_targets vw targets bucket key hlc rpc hint c cl = (c', cl', Ok k) -> NoDup targets ->
  exists confirmed, NoDup confirmed /\ length confirmed = k /\
    (forall n, n ∈ confirmed -> n ∈ targets /\ n <> cf_node_id cf /\ gone bucket key hlc cl' n) /\
    (forall n, n ∈ targets -> n = cf_node_id cf \/ n ∈ confirmed \/ owed bucket key hlc hint c' n).
Proof using Type.
  induction targets as [|t targets IH]; intros c cl c' cl' k; cbn [WriteCoordinator.delete_targets].
  { intros [= <- <- <-] _. exists []. split_and!; [constructor|done|by intros n H%not_elem_of_nil|by intros n H%not_elem_of_nil]. }
  intros Hd [Hnt Hnd]%NoDup_cons. case_bool_decide as Hself.
  { destruct (IH _ _ _ _ _ Hd Hnd) as (cs & ? & ? & Hc & Hall). exists cs. split_and!; [done|done| |].
    - intros n Hn. destruct (Hc n Hn). split; [by right|done].
    - intros n [->|Hn]%elem_of_cons; auto. }
  assert (Hhint : forall cl1,
    match enqueue_delete_hint crc32 encode t bucket key hlc (hint t) c with
    | (c, Ok _) => delete_targets vw targets bucket key hlc rpc hint c cl1
    | (c, Err e) => (c, cl1, Err e)
    | (c, Panic) => (c, cl1, Panic)
    end = (c', cl', Ok k) ->
    exists confirmed, NoDup confirmed /\ length confirmed = k /\
      (forall n, n ∈ confirmed -> n ∈ t :: targets /\ n <> cf_node_id cf /\ gone bucket key hlc cl' n) /\
      (forall n, n ∈ t :: targets -> n = cf_node_id cf \/ n ∈ confirmed \/ owed bucket key hlc hint c' n)).
  { intros cl1. unfold enqueue_delete_hint. destruct (enqueue_hint _ _ _ _ _ _) as [c1 [[]|e|]] eqn:He; [|done..].
    apply enqueue_hint_spec in He as [_ Hh]. intros Hd1. pose proof (delete_targets_frame _ _ _ _ _ _ _ _ _ _ _ _ Hd1) as (_ & _ & Hk).
    destruct (IH _ _ _ _ _ Hd1 Hnd) as (cs & ? & ? & Hc & Hall). exists cs. split_and!; [done|done| |].
    - intros n Hn. destruct (Hc n Hn). split; [by right|done].
    - intros n [->|Hn]%elem_of_cons; [|auto]. right. right. apply Hk. rewrite Hh, decide_True by done.
      apply elem_of_app. right. by left. }
  destruct (negb _); [by eapply Hhint|]. destruct (rpc t) as [late|sv reply]; [by eapply Hhint|].
  destruct (cl !! t) as [r|]; [|by eapply Hhint].
  destruct (delete_object_rpc sv bucket key (Some hlc) r) as [r1 status] eqn:Hr.
  destruct reply, status as [b|e|]; try (by eapply Hhint). apply delete_rpc_spec in Hr as (-> & Hg & ts & Ht & Hts).
  destruct (delete_targets _ _ _ _ _ _ _ _ _) as [[c1 cl1] [m|e|]] eqn:Hd1; [|done..]. injection Hd as <- <- <-.
  pose proof (delete_targets_frame _ _ _ _ _ _ _ _ _ _ _ _ Hd1) as (_ & Hcl & _).
  destruct (IH _ _ _ _ _ Hd1 Hnd) as (cs & Hcs & Hl & Hc & Hall). exists (t :: cs). split_and!.
  - constructor; [|done]. intros Hn. by apply Hnt, Hc.
  - cbn. by rewrite Hl.
  - intros n [->|Hn]%elem_of_cons; [|destruct (Hc n Hn); split; [by right|done]]. split_and!; [by left|done|].
    exists r1, ts. rewrite Hcl, lookup_insert_eq by done. done.
  - intros n [->|Hn]%elem_of_cons; [right; left; by left|]. destruct (Hall n Hn) as [?|[?|?]]; [by left|right; left; by right|by right; right].
Qed.

(** C19: a delete that the client sees succeed is accounted for everywhere: the
    coordinator has the tombstone, at least the write quorum of nodes has it,
    with one timestamp, and every other replica has it or is owed it by a hint
    in the ledger. *)
Theorem acked_delete_is_accounted vw bucket key hash_key write_quorum env c cl c' cl' :
  s3_delete_object crc32 encode cf vw bucket key hash_key write_quorum env c cl = (c', cl', Ok Success) ->
  ring_inv (inner (vw_ring vw)) ->
  let replica_set := cache_lookup (vw_ring vw) hash_key in
  exists t confirmed, get_object (wc_store c') bucket key = None /\ get_tombstone (wc_store c') bucket key = Some t /\
    NoDup confirmed /\ required_quorum cf write_quorum replica_set <= Z.of_nat (S (length confirmed)) /\
    (forall n, n ∈ confirmed -> n ∈ replica_set /\ n <> cf_node_id cf /\ gone bucket key (ts_hlc t) cl' n) /\
    (forall n, n ∈ replica_set -> n = cf_node_id cf \/ n ∈ confirmed \/ owed bucket key (ts_hlc t) (de_hint env) c' n).
Proof using Type.
  intros Hs Hring replica_set. unfold s3_delete_object in Hs. destruct (clock_now c (de_physical env)) as [c1 hlc].
  fold replica_set in Hs. destruct (_ && _); [done|].
  destruct (delete_object _ _ _ _ _ _) as [st ok] eqn:Hd. destruct ok; cbn [negb] in Hs; [|done].
  destruct (delete_on_replicas _ _ _ _ _ _ _ _ _ _ _) as [[c2 cl2] [k|e|]] eqn:Hr; [|done..].
  fold (required_quorum cf write_quorum replica_set) in Hs.
  destruct (Z.ltb_spec (Z.of_nat (S k)) (required_quorum cf write_quorum replica_set)); [done|]. injection Hs as <- <-.
  unfold delete_on_replicas in Hr. fold replica_set in Hr. destruct (_ =? _)%nat; [done|].
  destruct (if known_down_debt_targets _ _ _ then _ else _) as [c3 [[]|e|]] eqn:Hg; [|done..].
  assert (Hst : wc_store c3 = st).
  { destruct (known_down_debt_targets _ _ _); [apply hint_debt_gate_hints in Hg as [_ ->]|simplify_eq]; done. }
  destruct (delete_object_get _ _ _ _ _ _ _ Hd) as (Hnone & t & Ht & <-).
  pose proof (delete_targets_frame _ _ _ _ _ _ _ _ _ _ _ _ Hr) as (Hs2 & _).
  destruct (delete_targets_spec _ _ _ _ _ _ _ _ _ _ _ _ Hr) as (cs & Hnd & Hl & Hc & Hall); [by apply ring_NoDup|].
  exists t, cs. rewrite Hs2, Hst, Hl. split_and!; done.
Qed.
End deletes.

(** ** Witnesses *)

Definition coord_id (tag : byte) (n : nat) : SegmentId := tag :: replicate n x01.

Definition coord_params (tier : SizeTier) : PoolParams :=
  {| pp_tier := tier; pp_size_config := pp_size_config sample_params; pp_ec_config := None; pp_queue_capacity := 2 |}.

Definition three_nodes : Ring :=
  foldl (ring_apply toy_digest) (ring_new {| vnodes_per_node := 1; replication_factor := 3 |}) [Join [x61]; Join [x62]; Join [x63]].

(** All nodes known and alive. *)
Definition sample_view : View :=
  {| vw_ring := {| inner := three_nodes |}; vw_alive := fun _ => true; vw_address := fun _ => true; vw_class := fun _ => Preferred |}.

Definition sample_config (self : NodeId) : Config :=
  {| cf_node_id := self; cf_size_config := pp_size_config sample_params; cf_ready := true; cf_quorum_requires_ring := true;
     cf_hint_inline_threshold_bytes := 100 |}.

Definition sample_coordinator (st : Store) : Coordinator :=
  {| wc_clock := 0; wc_store := st;
     wc_data := {| dn_registry := ∅; dn_small := default sample_pool (pool_new (coord_id x00) (coord_params Small) 1);
                   dn_standard := default sample_pool (pool_new (coord_id x01) (coord_params Standard) 1);
                   dn_wal := []; dn_pending := [] |};
     wc_hints := new_manager; wc_rejected_write := 0; wc_rejected_delete := 0 |}.

Definition sample_cluster : Cluster :=
  {[ [x62] := {| rp_clock := 0; rp_store := empty_store |}; [x63] := {| rp_clock := 0; rp_store := empty_store |} ]}.

Definition sample_server : ServerEnv := {| sv_physical := 7; sv_now := 7; sv_io := Committed; sv_alias := None |}.

Definition recorded : hint_io := {| hi_pools := None; hi_now := 1; hi_now_secs := 9; hi_opens := true; hi_io := HintWal.Written |}.

(** The nodes of [up] answer; the others do not see the call. *)
Definition answers (up : list NodeId) (n : NodeId) : rpc_io :=
  if bool_decide (n ∈ up) then Served sample_server Arrives else NotServed true.

Definition sample_put_env (up : list NodeId) : PutEnv :=
  {| pe_pools := None; pe_physical := 7; pe_now := 7; pe_inline_io := Committed;
     pe_chunks := fun i => {| ce_now := 7; ce_waits := []; ce_recover := fun _ => Waits 0; ce_t1 := 7; ce_t2 := 7;
       ce_reserve := Durable; ce_wal := Some {| dp_file_seq := 1; dp_offset := Z.of_nat i |}; ce_handoff := Waits 0 |};
     pe_drain_now := 7; pe_drain_io1 := fun _ => Waits 0; pe_drain_io2 := fun _ => O;
     pe_forward_id := [x7a]; pe_rpc := answers up; pe_hint := fun _ => recorded;
     pe_cancel_physical := 8; pe_cancel := fun _ => recorded;
     pe_rollback_physical := 8; pe_rollback_now := 8; pe_rollback_io := Committed |}.

Definition sample_request (data : bytes) : WriteRequest :=
  {| rq_bucket := [x62]; rq_key := [x6b]; rq_hash_key := 0; rq_data := data; rq_write_quorum := 2; rq_compression := None |}.

Definition sample_hash (data : bytes) : bytes := replicate 32 x00.

Definition run_put (self : NodeId) (up : list NodeId) (data : bytes) (st : Store) (cl : Cluster) :=
  s3_put_object (fun _ => 0) sample_hash (fun _ => 0) (coord_id x00) (coord_id x01) (coord_params Small) (coord_params Standard)
    (fun _ => []) (sample_config self) true sample_view (sample_request data) (sample_put_env up) 7 Committed
    (sample_coordinator st) cl.

Lemma three_nodes_inv : ring_inv three_nodes.
Proof.
  eapply (ring_ops_inv toy_digest {| vnodes_per_node := 1; replication_factor := 3 |}); [cbn; lia|].
  apply vnodes_distinct_check. vm_compute. reflexivity.
Qed.

(** One replica answers, the other gets a hint. *)
Definition acked_run := Eval vm_compute in run_put [x61] [[x62]] [x0a; x0b; x0c] empty_store sample_cluster.

Lemma acked_put_is_accounted_witness :
  exists m acked,
    get_object (wc_store acked_run.1.1) [x62] [x6b] = Some m /\
    (om_chunks m = [] -> om_inline_data m = Some [x0a; x0b; x0c]) /\
    accounted_for sample_hash (sample_config [x61]) (cache_lookup (vw_ring sample_view) 0) acked (sample_request [x0a; x0b; x0c])
      (om_hlc m) (om_chunks m) (sample_put_env [[x62]]) acked_run.1.1 acked_run.1.2.
Proof.
  apply (acked_put_is_accounted (fun _ => 0) sample_hash (fun _ => 0) (coord_id x00) (coord_id x01) (coord_params Small)
    (coord_params Standard) (fun _ => []) (sample_config [x61]) sample_view (sample_request [x0a; x0b; x0c])
    (sample_put_env [[x62]]) 7 Committed (sample_coordinator empty_store) sample_cluster).
  - exact_eval.
  - apply three_nodes_inv.
  - discriminate.
  - apply (bool_decide_unpack _). vm_compute. exact I.
Defined.

(** No replica answers. *)
Definition run_refused (data : bytes) (st : Store) :=
  put (fun _ => 0) sample_hash (fun _ => 0) (coord_id x00) (coord_id x01) (coord_params Small) (coord_params Standard)
    (fun _ => []) (sample_config [x61]) sample_view (sample_request data) (sample_put_env []) (sample_coordinator st) sample_cluster.

Definition refused_run := Eval vm_compute in run_refused [x0a; x0b; x0c] empty_store.

Lemma refused_put_leaves_no_row_witness :
  refused_run.2 = Err (QuorumNotMet 2 1) /\
  (wc_store refused_run.1.1 = wc_store (sample_coordinator empty_store) /\
   forall required received n, QuorumNotMet 2 1 = QuorumNotMet required received ->
     hints (wc_hints refused_run.1.1) n = hints (wc_hints (sample_coordinator empty_store)) n).
Proof.
  split; [reflexivity|].
  apply (refused_put_leaves_no_row (fun _ => 0) sample_hash (fun _ => 0) (coord_id x00) (coord_id x01) (coord_params Small)
    (coord_params Standard) (fun _ => []) (sample_config [x61]) sample_view (sample_request [x0a; x0b; x0c])
    (sample_put_env []) (sample_coordinator empty_store) sample_cluster refused_run.1.1 refused_run.1.2 (QuorumNotMet 2 1)).
  - exact_eval.
  - discriminate.
Defined.

(** A committed row of the key. *)
Definition committed_row : ObjectMetadata :=
  {| om_object_key := [x6b]; om_size := 1; om_blake3_hash := None; om_chunks := []; om_inline_data := Some [x0f];
     om_created_at := 1; om_hlc := {| wall_time := 1; logical := 0 |} |}.

Definition committed_store : Store := Eval vm_compute in (put_object_in_bucket empty_store Committed 1 [x62] committed_row).1.
Definition erased_run := Eval vm_compute in run_refused [x0a] committed_store.

Lemma refused_overwrite_erases_object_witness :
  get_object committed_store [x62] [x6b] = Some committed_row /\ erased_run.2 = Err (QuorumNotMet 2 1) /\
  get_object (wc_store erased_run.1.1) [x62] [x6b] = None /\
  exists t, get_tombstone (wc_store erased_run.1.1) [x62] [x6b] = Some t /\
    forall h, 0 = pack h -> hlc_wf h -> ~ hlc_lt h (om_hlc committed_row) -> wall_time (ts_hlc t) < u64_max ->
      hlc_lt (om_hlc committed_row) (ts_hlc t).
Proof.
  split; [vm_compute; reflexivity|]. split; [reflexivity|].
  apply (refused_overwrite_erases_object (fun _ => 0) sample_hash (fun _ => 0) (coord_id x00) (coord_id x01) (coord_params Small)
    (coord_params Standard) (fun _ => []) (sample_config [x61]) sample_view (sample_request [x0a])
    (sample_put_env []) (sample_coordinator committed_store) sample_cluster erased_run.1.1 erased_run.1.2 2 1 committed_row).
  - exact_eval.
  - apply (bool_decide_unpack _). vm_compute. exact I.
  - reflexivity.
  - vm_compute. discriminate.
  - reflexivity.
  - reflexivity.
  - vm_compute. by split.
  - vm_compute. by split.
  - exact_eval.
Defined.

Definition empty_run := Eval vm_compute in run_put [x61] [[x62]] [] empty_store sample_cluster.

Lemma empty_put_stores_nothing_witness :
  empty_run.2 = Ok Success /\
  (wc_store empty_run.1.1 = wc_store (sample_coordinator empty_store) /\
   wc_data empty_run.1.1 = wc_data (sample_coordinator empty_store) /\
   wc_hints empty_run.1.1 = wc_hints (sample_coordinator empty_store) /\ empty_run.1.2 = sample_cluster).
Proof.
  split; [reflexivity|].
  apply (empty_put_stores_nothing (fun _ => 0) sample_hash (fun _ => 0) (coord_id x00) (coord_id x01) (coord_params Small)
    (coord_params Standard) (fun _ => []) (sample_config [x61]) sample_view (sample_request []) (sample_put_env [[x62]]) 7 Committed).
  - exact_eval.
  - reflexivity.
  - apply (bool_decide_unpack _). vm_compute. exact I.
Defined.

(** A coordinator that is not in the ring. *)
Definition full_cluster : Cluster := <[ [x61] := {| rp_clock := 0; rp_store := empty_store |} ]> sample_cluster.

Definition forwarded_run := Eval vm_compute in run_put [x7a] [[x61]; [x62]; [x63]] [x0a; x0b] empty_store full_cluster.

Lemma forwarded_put_is_one_copy_witness :
  forwarded_run.2 = Ok Success /\
  exists t m, (forall n, n <> t -> forwarded_run.1.2 !! n = full_cluster !! n) /\
    wc_hints forwarded_run.1.1 = wc_hints (sample_coordinator empty_store) /\
    wc_data forwarded_run.1.1 = wc_data (sample_coordinator empty_store) /\
    get_object (wc_store forwarded_run.1.1) [x62] [x6b] = Some m /\ cr_segment_id <$> om_chunks m = [[x7a]].
Proof.
  split; [reflexivity|].
  apply (forwarded_put_is_one_copy (fun _ => 0) sample_hash (fun _ => 0) (coord_id x00) (coord_id x01) (coord_params Small)
    (coord_params Standard) (fun _ => []) (sample_config [x7a]) sample_view (sample_request [x0a; x0b])
    (sample_put_env [[x61]; [x62]; [x63]]) 7 Committed).
  - exact_eval.
  - apply (bool_decide_unpack _). vm_compute. exact I.
Defined.

(** A request of version 3 reaches a replica that has version 5. *)
Definition newer_row : ObjectMetadata :=
  {| om_object_key := [x6b]; om_size := 1; om_blake3_hash := None; om_chunks := []; om_inline_data := Some [x0f];
     om_created_at := 1; om_hlc := {| wall_time := 5; logical := 0 |} |}.

Definition late_request : SegmentAppendRequest :=
  replication_request (sample_request [x0a]) {| wall_time := 3; logical := 0 |} [] [].

Definition ahead_replica : Replica :=
  Eval vm_compute in {| rp_clock := 0; rp_store := (put_object_in_bucket empty_store Committed 1 [x62] newer_row).1 |}.
Definition late_run := Eval vm_compute in append_segment sample_server [late_request] ahead_replica.

Lemma late_append_replaces_newer_witness :
  exists m, get_object (rp_store late_run.1) [x62] [x6b] = Some m /\ om_hlc m = {| wall_time := 3; logical := 0 |}.
Proof.
  apply (late_append_replaces_newer sample_server late_request ahead_replica late_run.1 {| sp_wal_position := 1; sp_ack := AckOk |}
    {| wall_time := 3; logical := 0 |} newer_row); vm_compute; (reflexivity || discriminate).
Defined.

(** One replica confirms the delete, the other is owed it. *)
Definition sample_delete_env : DeleteEnv :=
  {| de_pools := None; de_physical := 7; de_now := 7; de_io := Committed; de_rpc := answers [[x62]]; de_hint := fun _ => recorded |}.

Definition delete_run := Eval vm_compute in
  s3_delete_object (fun _ => 0) (fun _ => []) (sample_config [x61]) sample_view [x62] [x6b] 0 2 sample_delete_env
    (sample_coordinator committed_store) sample_cluster.

Lemma acked_delete_is_accounted_witness :
  delete_run.2 = Ok Success /\
  let replica_set := cache_lookup (vw_ring sample_view) 0 in
  exists t confirmed, get_object (wc_store delete_run.1.1) [x62] [x6b] = None /\
    get_tombstone (wc_store delete_run.1.1) [x62] [x6b] = Some t /\
    NoDup confirmed /\ required_quorum (sample_config [x61]) 2 replica_set <= Z.of_nat (S (length confirmed)) /\
    (forall n, n ∈ confirmed -> n ∈ replica_set /\ n <> [x61] /\ gone [x62] [x6b] (ts_hlc t) delete_run.1.2 n) /\
    (forall n, n ∈ replica_set -> n = [x61] \/ n ∈ confirmed \/
       owed [x62] [x6b] (ts_hlc t) (de_hint sample_delete_env) delete_run.1.1 n).
Proof.
  split; [reflexivity|].
  apply (acked_delete_is_accounted (fun _ => 0) (fun _ => []) (sample_config [x61]) sample_view [x62] [x6b] 0 2 sample_delete_env
    (sample_coordinator committed_store) sample_cluster).
  - exact_eval.
  - apply three_nodes_inv.
Defined.
