(* ===== verification/HintReceiver.v ===== *)
(** * The receiver of hinted handoff
      (crates/oceanfs-durability/src/healing_service.rs: [hinted_handoff],
       [hinted_handoff_single], [apply_hint_object], [apply_inline_hint],
       [apply_hint_delete], [fetch_hint_object];
       hinted_handoff/hint_delivery.rs: [GrpcHintObjectFetcher::fetch_object])

    A batch of hints is applied in order: inline writes and deletes at once,
    references to objects in a second pass that asks the origin for the state
    of the key. What could not be applied is reported for retry; everything
    else is gone from the sender's ledger. The node is the coordinator of
    [WriteCoordinator], whose [apply_hinted_object] stores the data. *)

From Stdlib Require Import ZArith Lia Strings.Byte.
From stdpp Require Import base list gmap.
From S2P Require Import Prelude PoolRegistry Hlc Ring WalPos EventRecord Lifecycle EventWal Recovery MetaKey MetaStore SegmentPool LocalWrite HintWal HintManager HintBuffer WriteCoordinator.

Set Default Proof Using "Type".
Local Open Scope Z_scope.

(** ** Data *)

(** The node and the buffer of hints for other nodes. *)
Record Receiver := { rv_node : Coordinator; rv_buffer : HintedHandoff }.

Definition set_node (rv : Receiver) (c : Coordinator) : Receiver := {| rv_node := c; rv_buffer := rv_buffer rv |}.
Definition set_buffer (rv : Receiver) (b : HintedHandoff) : Receiver := {| rv_node := rv_node rv; rv_buffer := b |}.

Record HintedHandoffResponse := { rs_accepted : bool; rs_accepted_count : Z; rs_retry_indices : list Z }.

(** One hint: clocks, whether the two reads of the store succeed, what other
    tasks do between the checks and the write, and the outcomes of the I/O. *)
Record RecvEnv := {
  re_physical : Z; re_now : Z; re_now_secs : Z; re_row_read : bool; re_tombstone_read : bool;
  re_meanwhile : Coordinator -> Coordinator; re_put : PutEnv; re_io : commit_io; re_new_id : bytes }.

(** [NodeId::new("unknown")] and [BucketId::new("default")]. *)
Definition unknown_node : NodeId := [x75; x6e; x6b; x6e; x6f; x77; x6e].
Definition default_bucket : bytes := [x64; x65; x66; x61; x75; x6c; x74].

(** What the origin answers about a key. *)
Inductive fetched := Present (meta : ObjectMetadata) (data : bytes) | Absent | FetchFails | TaskPanics.

(** ** The origin *)

Record FetchHintObjectChunk := {
  fc_data : bytes; fc_present : bool; fc_hlc : option Hlc; fc_size : Z; fc_blake3_hash : bytes }.

(** The stream in pieces of 64 KiB; the first carries the state. *)
Definition fetch_chunk_size : nat := 16 * 16 * 16 * 16.

Definition first_chunk (meta : ObjectMetadata) (chunk : FetchHintObjectChunk) : FetchHintObjectChunk :=
  {| fc_data := fc_data chunk; fc_present := fc_present chunk; fc_hlc := Some (om_hlc meta); fc_size := om_size meta;
     fc_blake3_hash := default [] (om_blake3_hash meta) |}.

Definition data_chunk (data : bytes) : FetchHintObjectChunk :=
  {| fc_data := data; fc_present := true; fc_hlc := None; fc_size := 0; fc_blake3_hash := [] |}.

(** [read] is the answer of the node's read path. *)
Definition fetch_hint_object (st : Store) (bucket key : bytes) (read : outcome unit (option (ObjectMetadata * bytes)))
    : outcome unit (list FetchHintObjectChunk) :=
  match read with
  | Ok None =>
      Ok [{| fc_data := []; fc_present := false; fc_hlc := Some (default hlc_zero (ts_hlc <$> get_tombstone st bucket key));
             fc_size := 0; fc_blake3_hash := [] |}]
  | Ok (Some (meta, data)) =>
      match (fun x => data_chunk x.2) <$> split (Z.of_nat fetch_chunk_size) data with
      | [] => Ok []
      | c :: cs => Ok (first_chunk meta c :: cs)
      end
  | Err e => Err e
  | Panic => Panic
  end.

(** The receiving end: [None] is a transport error. *)
Definition fetch_object (blake3 : bytes -> bytes) (key : bytes) (stream : option (list FetchHintObjectChunk)) : fetched :=
  match stream with
  | None | Some [] => FetchFails
  | Some (first :: rest) =>
      if negb (fc_present first) then Absent
      else
        let data := fc_data first ++ concat (fc_data <$> rest) in
        if negb (Z.of_nat (length data) =? fc_size first) then FetchFails
        else if (length (fc_blake3_hash first) =? 32)%nat && negb (bool_decide (blake3 data = fc_blake3_hash first))
        then FetchFails
        else Present {| om_object_key := key; om_size := Z.of_nat (length data); om_blake3_hash := Some (blake3 data);
                        om_chunks := []; om_inline_data := None; om_created_at := 0;
                        om_hlc := default hlc_zero (fc_hlc first) |} data
  end.

(** How a fetch task ends: it panics, or has this stream. *)
Inductive fetch_io := FetchPanics | Stream (stream : option (list FetchHintObjectChunk)).

Definition run_fetch (blake3 : bytes -> bytes) (key : bytes) (io : fetch_io) : fetched :=
  match io with FetchPanics => TaskPanics | Stream stream => fetch_object blake3 key stream end.

(** The local read of the origin: [assemble] fetches the chunks of a row.
    [read_ok] is whether the metadata can be read, [pools] are those of the
    availability gate. *)
Definition read_local (pools : option (list StoragePool)) (read_ok : bool) (assemble : ObjectMetadata -> outcome unit bytes)
    (st : Store) (bucket key : bytes) : outcome unit (option (ObjectMetadata * bytes)) :=
  if negb (serves pools) then Err ()
  else if negb read_ok then Err ()
  else match get_object st bucket key with
       | None => Ok None
       | Some meta =>
           match om_inline_data meta, om_chunks meta with
           | Some data, _ => Ok (Some (meta, data))
           | None, _ :: _ => d ← assemble meta; Ok (Some (meta, d))
           | None, [] => Ok None
           end
       end.

Section receiver.
Context (crc32 : bytes -> Z) (blake3 : bytes -> bytes) (shard_for : SegmentId -> Z).
Context (new_small new_standard : nat -> SegmentId) (pp_small pp_standard : PoolParams).
Context (cf : Config).

Notation apply_hinted_object :=
  (apply_hinted_object crc32 blake3 shard_for new_small new_standard pp_small pp_standard cf).

Definition is_local_hint (target : NodeId) : bool := bool_decide (target = cf_node_id cf).

Definition receive_clock (hlc : Hlc) (physical : Z) (rv : Receiver) : Receiver :=
  set_node rv (WriteCoordinator.set_clock (rv_node rv) (clock_update hlc physical (wc_clock (rv_node rv)))).

(** ** Applying a hint *)

(** A version of the key that is newer than [hlc]. A read that fails counts
    as absent. *)
Definition newer_row_than (hlc : Hlc) (read : bool) (st : Store) (bucket key : bytes) : bool :=
  if read then from_option (fun m => hlc_ltb hlc (om_hlc m)) false (get_object st bucket key) else false.

Definition newer_tombstone_than (hlc : Hlc) (read : bool) (st : Store) (bucket key : bytes) : bool :=
  if read then from_option (fun t => hlc_ltb hlc (ts_hlc t)) false (get_tombstone st bucket key) else false.

Definition apply_hint_object (bucket : bytes) (meta : ObjectMetadata) (data : bytes) (env : RecvEnv) (c : Coordinator)
    : Coordinator * outcome unit bool :=
  let key := om_object_key meta in
  if newer_row_than (om_hlc meta) (re_row_read env) (wc_store c) bucket key then (c, Ok true)
  else if newer_tombstone_than (om_hlc meta) (re_tombstone_read env) (wc_store c) bucket key then (c, Ok true)
  else
    match apply_hinted_object bucket key data (om_hlc meta) (om_created_at meta) (re_put env) (re_io env) (re_meanwhile env c) with
    | (c, Ok _) => (c, Ok true)
    | (c, Err _) => (c, Ok false)
    | (c, Panic) => (c, Panic)
    end.

Definition apply_inline_hint (bucket key data : bytes) (hlc : Hlc) (env : RecvEnv) (c : Coordinator)
    : Coordinator * outcome unit bool :=
  apply_hint_object bucket
    {| om_object_key := key; om_size := Z.of_nat (length data); om_blake3_hash := Some (blake3 data); om_chunks := [];
       om_inline_data := Some data; om_created_at := re_now env; om_hlc := hlc |} data env c.

(** A tombstone of the same version means that the delete is applied. *)
Definition apply_hint_delete (bucket key : bytes) (hlc : Hlc) (env : RecvEnv) (c : Coordinator) : Coordinator * bool :=
  if newer_row_than hlc (re_row_read env) (wc_store c) bucket key then (c, true)
  else if (if re_tombstone_read env
           then from_option (fun t => negb (hlc_ltb (ts_hlc t) hlc)) false (get_tombstone (wc_store c) bucket key)
           else false) then (c, true)
  else let '(st, ok) := delete_object (wc_store c) (re_io env) (re_now env) bucket key hlc in (set_store c st, ok).

(** A hint for another node goes to the buffer. *)
Definition relay (target : NodeId) (hint : BufferedHint) (env : RecvEnv) (rv : Receiver) : Receiver * bool :=
  match handoff (rv_buffer rv) target hint (re_now_secs env) with
  | (Ok _, b) => (set_buffer rv b, true)
  | (_, b) => (set_buffer rv b, false)
  end.

(** An identifier that is missing or not 16 bytes long becomes a new one. *)
Definition ref_segment_id (h : HintSegmentRef) (fresh : bytes) : bytes :=
  match hs_segment_id h with Some id => if (length id =? 16)%nat then id else fresh | None => fresh end.

(** ** A batch *)

Record Batch := { bt_accepted : Z; bt_retry : list Z; bt_pending : list (Z * bytes * bytes) }.

Definition settle_hint (b : Batch) (idx : Z) (ok : bool) : Batch :=
  if ok then {| bt_accepted := wrap32 (bt_accepted b + 1); bt_retry := bt_retry b; bt_pending := bt_pending b |}
  else {| bt_accepted := bt_accepted b; bt_retry := bt_retry b ++ [idx]; bt_pending := bt_pending b |}.

(** One hint of the first pass; [can_fetch] is whether there is an origin
    address and a fetcher. *)
Definition handle_hint (can_fetch : bool) (idx : Z) (env : RecvEnv) (hint : HintRecord) (rv : Receiver) (b : Batch)
    : outcome unit (Receiver * Batch) :=
  match hr_record hint with
  | Some (RecInline h) =>
      let target := default unknown_node (hi_intended_for h) in
      let hlc := default hlc_zero (hi_hlc h) in
      let rv := receive_clock hlc (re_physical env) rv in
      if is_local_hint target then
        match apply_inline_hint (default default_bucket (hi_bucket_id h)) (hi_object_key h) (hi_data h) hlc env (rv_node rv) with
        | (c, Ok ok) => Ok (set_node rv c, settle_hint b idx ok)
        | (_, _) => Panic
        end
      else
        let entry := {| bh_intended_for := target; bh_segment_id := re_new_id env; bh_offset := 0;
                        bh_length := wrap32 (Z.of_nat (length (hi_data h))); bh_timestamp := hlc; bh_data := hi_data h;
                        bh_stored_at_secs := 0 |} in
        let '(rv, ok) := relay target entry env rv in Ok (rv, settle_hint b idx ok)
  | Some (RecSegmentRef h) =>
      let target := default unknown_node (hs_intended_for h) in
      let hlc := default hlc_zero (hs_hlc h) in
      let rv := receive_clock hlc (re_physical env) rv in
      if is_local_hint target then
        if can_fetch
        then Ok (rv, {| bt_accepted := bt_accepted b; bt_retry := bt_retry b;
                        bt_pending := bt_pending b ++ [(idx, default default_bucket (hs_bucket_id h), hs_object_key h)] |})
        else Ok (rv, settle_hint b idx false)
      else
        let entry := {| bh_intended_for := target; bh_segment_id := ref_segment_id h (re_new_id env);
                        bh_offset := hs_offset h; bh_length := hs_length h; bh_timestamp := hlc; bh_data := [];
                        bh_stored_at_secs := 0 |} in
        let '(rv, ok) := relay target entry env rv in Ok (rv, settle_hint b idx ok)
  | Some (RecDelete h) =>
      let hlc := default hlc_zero (hd_hlc h) in
      let rv := receive_clock hlc (re_physical env) rv in
      if is_local_hint (default unknown_node (hd_intended_for h)) then
        let '(c, ok) := apply_hint_delete (default default_bucket (hd_bucket_id h)) (hd_object_key h) hlc env (rv_node rv) in
        Ok (set_node rv c, settle_hint b idx ok)
      else Ok (rv, settle_hint b idx false)
  | None => Ok (rv, settle_hint b idx false)
  end.

Fixpoint first_pass (can_fetch : bool) (idx : Z) (envs : Z -> RecvEnv) (hints : list HintRecord) (rv : Receiver) (b : Batch)
    : outcome unit (Receiver * Batch) :=
  match hints with
  | [] => Ok (rv, b)
  | h :: hints =>
      match handle_hint can_fetch (wrap32 idx) (envs idx) h rv b with
      | Ok (rv, b) => first_pass can_fetch (idx + 1) envs hints rv b
      | Err e => Err e
      | Panic => Panic
      end
  end.

(** The second pass, in the order in which the fetches end. A task that
    panics has every deferred hint retried. *)
Fixpoint second_pass (deferred : list Z) (envs : Z -> RecvEnv) (done : list (Z * bytes * bytes * fetched)) (rv : Receiver)
    (b : Batch) : outcome unit (Receiver * Batch) :=
  match done with
  | [] => Ok (rv, b)
  | (idx, bucket, key, Present meta data) :: done =>
      match apply_hint_object bucket meta data (envs idx) (rv_node rv) with
      | (c, Ok ok) => second_pass deferred envs done (set_node rv c) (settle_hint b idx ok)
      | (_, _) => Panic
      end
  | (idx, bucket, key, Absent) :: done => second_pass deferred envs done rv (settle_hint b idx true)
  | (idx, bucket, key, FetchFails) :: done => second_pass deferred envs done rv (settle_hint b idx false)
  | (_, _, _, TaskPanics) :: done =>
      second_pass deferred envs done rv
        {| bt_accepted := bt_accepted b; bt_retry := bt_retry b ++ deferred; bt_pending := bt_pending b |}
  end.

(** [fetch] is how the task of a deferred hint ends and [order] the order in
    which the tasks end. *)
Definition hinted_handoff (can_fetch : bool) (envs : Z -> RecvEnv) (fetch : Z * bytes * bytes -> fetch_io)
    (order : list (Z * bytes * bytes) -> list (Z * bytes * bytes)) (fetch_envs : Z -> RecvEnv) (hints : list HintRecord)
    (rv : Receiver) : outcome unit (Receiver * HintedHandoffResponse) :=
  match first_pass can_fetch 0 envs hints rv {| bt_accepted := 0; bt_retry := []; bt_pending := [] |} with
  | Ok (rv, b) =>
      match second_pass (fst ∘ fst <$> bt_pending b) fetch_envs 
              ((fun x => (x, run_fetch blake3 x.2 (fetch x))) <$> order (bt_pending b)) rv b with
      | Ok (rv, b) =>
          Ok (rv, {| rs_accepted := bool_decide (bt_retry b = []); rs_accepted_count := bt_accepted b;
                     rs_retry_indices := bt_retry b |})
      | Err e => Err e
      | Panic => Panic
      end
  | Err e => Err e
  | Panic => Panic
  end.
(** A hint sent alone goes to the buffer, whoever it is for. *)
Definition hinted_handoff_single (intended_for : option NodeId) (segment_id : option bytes) (hlc : option Hlc) (data : bytes)
    (env : RecvEnv) (rv : Receiver) : Receiver * (bool * option SegmentId) :=
  let target := default unknown_node intended_for in
  let id := match segment_id with Some id => if (length id =? 16)%nat then id else re_new_id env | None => re_new_id env end in
  let hlc := default hlc_zero hlc in
  let rv := receive_clock hlc (re_physical env) rv in
  let '(rv, ok) := relay target
    {| bh_intended_for := target; bh_segment_id := id; bh_offset := 0; bh_length := wrap32 (Z.of_nat (length data));
       bh_timestamp := hlc; bh_data := data; bh_stored_at_secs := 0 |} env rv in
  (rv, if ok then (true, Some id) else (false, None)).
End receiver.

(** ** Versions *)

Definition hlc_le (a b : Hlc) : Prop := ~ hlc_lt b a.

Lemma hlc_le_trans a b c : hlc_le a b -> hlc_le b c -> hlc_le a c.
Proof. unfold hlc_le. rewrite !hlc_lt_iff. lia. Qed.

Lemma hlc_le_refl a : hlc_le a a.
Proof. apply hlc_lt_irrefl. Qed.

Lemma hlc_ltb_false a b : hlc_ltb a b = false -> hlc_le b a.
Proof. unfold hlc_ltb, hlc_le, hlc_lt. by destruct (hlc_cmp a b). Qed.

Lemma hlc_ltb_true a b : hlc_ltb a b = true -> hlc_le a b.
Proof. unfold hlc_ltb, hlc_le. intros H Hlt. assert (hlc_lt a b) by (unfold hlc_lt; by destruct (hlc_cmp a b)).
  apply (hlc_lt_irrefl a). by eapply hlc_lt_trans. Qed.

#[local] Hint Resolve hlc_le_refl hlc_ltb_false hlc_ltb_true : ocean.

(** A key has a row or a tombstone of this version, or of a newer one. *)
Definition covers (st : Store) (rk : bytes) (h : Hlc) : Prop :=
  (exists m, st_objects st !! rk = Some m /\ hlc_le h (om_hlc m)) \/
  (exists t, st_deletions st !! rk = Some t /\ hlc_le h (ts_hlc t)).

(** The key has nothing newer than [h]. *)
Definition at_most (st : Store) (rk : bytes) (h : Hlc) : Prop :=
  (forall m, st_objects st !! rk = Some m -> hlc_le (om_hlc m) h) /\
  (forall t, st_deletions st !! rk = Some t -> hlc_le (ts_hlc t) h).

Lemma covers_at_most st rk h h' : covers st rk h -> at_most st rk h' -> hlc_le h h'.
Proof. intros [(m & Hm & ?)|(t & Ht & ?)] [H1 H2]; eapply hlc_le_trans; eauto. Qed.

(** No version is lost. *)
Definition keeps (st st' : Store) : Prop := forall rk h, row_key_ok rk -> covers st rk h -> covers st' rk h.

Lemma keeps_refl st : keeps st st.
Proof. by intros rk h. Qed.

Lemma keeps_trans a b c : keeps a b -> keeps b c -> keeps a c.
Proof. intros H1 H2 rk h Hrk Hc. auto. Qed.

#[local] Hint Resolve keeps_refl keeps_trans : ocean.

Lemma put_keeps st io now bucket meta st' ok :
  put_object_in_bucket st io now bucket meta = (st', ok) -> nul_free bucket ->
  at_most st (encode_object_key bucket (om_object_key meta)) (om_hlc meta) ->
  keeps st st' /\ (ok = true -> covers st' (encode_object_key bucket (om_object_key meta)) (om_hlc meta)).
Proof.
  intros Hp Hb Hmost. set (rk0 := encode_object_key _ _) in *. unfold put_object_in_bucket, commit in Hp. fold rk0 in Hp.
  destruct io; [injection Hp as <- <-; split; [apply keeps_refl|done]| |].
  { injection Hp as <- <-. split; [|done]. by intros rk h _ Hc. }
  assert (Hnew : covers st' rk0 (om_hlc meta)).
  { injection Hp as <- <-. left. exists meta. cbn. rewrite lookup_insert_eq. split; [done|apply hlc_le_refl]. }
  split; [|done]. intros rk h Hrk Hc. destruct (decide (rk = rk0)) as [->|Hne].
  - pose proof (covers_at_most _ _ _ _ Hc Hmost) as Hle. destruct Hnew as [(m & Hm & Hl)|(t & Ht & Hl)];
      [left; exists m|right; exists t]; (split; [done|by eapply hlc_le_trans]).
  - injection Hp as <- <-. destruct Hc as [(m & Hm & ?)|(t & Ht & ?)].
    + left. exists m. cbn. by rewrite lookup_insert_ne.
    + right. exists t. cbn. rewrite lookup_delete_ne by done. split; [|done]. unfold record_capture.
      destruct (capture _ _ _ _) as [[[chunks v] at_]|]; [|done]. rewrite lookup_insert_ne; [done|].
      destruct Hrk as (b & k & Hb' & Hk & ->). by apply supersede_key_not_plain.
Qed.

Lemma delete_keeps st io now bucket key h0 st' ok :
  delete_object st io now bucket key h0 = (st', ok) -> at_most st (encode_object_key bucket key) h0 ->
  keeps st st' /\ (ok = true -> covers st' (encode_object_key bucket key) h0).
Proof.
  intros Hp Hmost. set (rk0 := encode_object_key _ _) in *. unfold delete_object, commit in Hp. fold rk0 in Hp.
  destruct io; [injection Hp as <- <-; split; [apply keeps_refl|done]| |].
  { injection Hp as <- <-. split; [|done]. by intros rk h _ Hc. }
  injection Hp as <- <-. assert (Hnew : forall h, hlc_le h h0 -> covers
    {| st_objects := base.delete rk0 (st_objects st);
       st_deletions := <[rk0 := {| ts_deletion_time := now; ts_hlc := h0;
          ts_chunks := from_option om_chunks [] (get_object st bucket key) |}]> (st_deletions st);
       st_journal := st_journal st ++ [(JDelete, rk0, h0)] |} rk0 h).
  { intros h Hh. right. eexists. cbn. rewrite lookup_insert_eq. by split. }
  split; [|intros _; apply Hnew, hlc_le_refl]. intros rk h Hrk Hc. destruct (decide (rk = rk0)) as [->|Hne].
  - apply Hnew. by eapply covers_at_most.
  - destruct Hc as [(m & Hm & ?)|(t & Ht & ?)]; [left; exists m|right; exists t]; cbn;
      [by rewrite lookup_delete_ne|by rewrite lookup_insert_ne].
Qed.

Section batches.
Context (crc32 : bytes -> Z) (blake3 : bytes -> bytes) (shard_for : SegmentId -> Z).
Context (new_small new_standard : nat -> SegmentId) (pp_small pp_standard : PoolParams).
Context (cf : Config).
Hypothesis Hinline : 0 <= inline_threshold_bytes (cf_size_config cf).

Notation apply_hinted_object :=
  (apply_hinted_object crc32 blake3 shard_for new_small new_standard pp_small pp_standard cf).
Notation apply_hint_object :=
  (apply_hint_object crc32 blake3 shard_for new_small new_standard pp_small pp_standard cf).
Notation handle_hint := (handle_hint crc32 blake3 shard_for new_small new_standard pp_small pp_standard cf).
Notation first_pass := (first_pass crc32 blake3 shard_for new_small new_standard pp_small pp_standard cf).
Notation second_pass := (second_pass crc32 blake3 shard_for new_small new_standard pp_small pp_standard cf).

(** The store is read, and nobody else writes it between the checks and the
    write. *)
Record undisturbed_env (env : RecvEnv) : Prop := {
  ue_row : re_row_read env = true;
  ue_tombstone : re_tombstone_read env = true;
  ue_alone : forall c, wc_store (re_meanwhile env c) = wc_store c }.

(** The object of a hint is written by one put, or not at all. *)
Lemma apply_hinted_put bucket key data hlc created env io c c' r :
  apply_hinted_object bucket key data hlc created env io c = (c', r) ->
  (wc_store c' = wc_store c /\ forall m, r <> Ok m) \/
  exists meta ok, om_object_key meta = key /\ om_hlc meta = hlc /\
    put_object_in_bucket (wc_store c) io (pe_now env) bucket meta = (wc_store c', ok) /\ (forall m, r = Ok m -> ok = true).
Proof using Hinline.
  unfold WriteCoordinator.apply_hinted_object. intros Ha. destruct (pieces_of _ _) as [[small pieces]|] eqn:Hp.
  - assert (Hne : data <> []).
    { intros ->. revert Hp. unfold pieces_of, classify.
      by rewrite (proj2 (Z.leb_le (Z.of_nat (length [])) (inline_threshold_bytes (cf_size_config cf)))). }
    destruct (store_object _ _ _ _ _ _ _ _ _ _ _ _ _ _ _ _ _) as [nd [chunks|e|]] eqn:Ho; [|simplify_eq; by left..].
    destruct chunks as [|ch chs].
    + exfalso. unfold store_object in Ho. destruct (write_chunks _ _ _ _ _ _ _ _ _ _ _ _ _ _) as [[nd1 ls] [cs| |]] eqn:Hw; [|done..].
      injection Ho as _ ->. apply write_chunks_length in Hw. rewrite length_imap in Hw.
      by apply (pieces_of_nonempty _ _ _ _ Hp Hne), nil_length_inv.
    + destruct (put_object_in_bucket _ _ _ _ _) as [st ok] eqn:Hput. injection Ha as <- <-. right. eexists _, ok.
      split_and!; [| |exact Hput|]; [done|done|]. intros m. by destruct ok.
  - destruct (put_object_in_bucket _ _ _ _ _) as [st ok] eqn:Hput. right.
    destruct ok; injection Ha as <- <-; eexists _, _; (split_and!; [| |exact Hput|]); done.
Qed.

Lemma not_newer hlc st bucket key :
  newer_row_than hlc true st bucket key = false -> newer_tombstone_than hlc true st bucket key = false ->
  at_most st (encode_object_key bucket key) hlc.
Proof using Type.
  unfold newer_row_than, newer_tombstone_than, get_object, get_tombstone. intros H1 H2. split.
  - intros m Hm. rewrite Hm in H1. by apply hlc_ltb_false.
  - intros t Ht. rewrite Ht in H2. by apply hlc_ltb_false.
Qed.

Lemma apply_object_covers bucket meta data env c c' ok :
  apply_hint_object bucket meta data env c = (c', Ok ok) -> undisturbed_env env -> nul_free bucket ->
  keeps (wc_store c) (wc_store c') /\
  (ok = true -> covers (wc_store c') (encode_object_key bucket (om_object_key meta)) (om_hlc meta)).
Proof using Hinline.
  unfold HintReceiver.apply_hint_object. intros Ha [Hr Ht Halone] Hb. rewrite Hr, Ht in Ha.
  destruct (newer_row_than (om_hlc meta) true _ _ _) eqn:H1.
  { injection Ha as <- <-. split; [apply keeps_refl|]. intros _. unfold newer_row_than, get_object in H1.
    destruct (st_objects _ !! _) as [m|] eqn:Hm; [|done]. left. exists m. eauto with ocean. }
  destruct (newer_tombstone_than (om_hlc meta) true _ _ _) eqn:H2.
  { injection Ha as <- <-. split; [apply keeps_refl|]. intros _. unfold newer_tombstone_than, get_tombstone in H2.
    destruct (st_deletions _ !! _) as [t|] eqn:Hm; [|done]. right. exists t. eauto with ocean. }
  pose proof (not_newer _ _ _ _ H1 H2) as Hmost.
  destruct (apply_hinted_object _ _ _ _ _ _ _ _) as [c1 r] eqn:Ho.
  apply apply_hinted_put in Ho as [[Hs Hno]|(m & ok1 & Hk & Hh & Hp & Hok)]; rewrite Halone in *.
  - destruct r as [m|e|]; [by destruct (Hno m)| |done]. injection Ha as <- <-. rewrite Hs. split; [apply keeps_refl|done].
  - rewrite <- Hk, <- Hh in Hmost |- *. destruct (put_keeps _ _ _ _ _ _ _ Hp Hb Hmost) as [Hkeep Hcov].
    destruct r as [m1|e|]; [| |done]; injection Ha as <- <-; (split; [done|]); [|done]. intros _. by apply Hcov, (Hok m1).
Qed.

Lemma apply_delete_covers bucket key hlc env c c' ok :
  apply_hint_delete bucket key hlc env c = (c', ok) -> undisturbed_env env ->
  keeps (wc_store c) (wc_store c') /\ (ok = true -> covers (wc_store c') (encode_object_key bucket key) hlc).
Proof using Type.
  unfold apply_hint_delete. intros Ha [Hr Ht _]. rewrite Hr, Ht in Ha.
  destruct (newer_row_than hlc true _ _ _) eqn:H1.
  { injection Ha as <- <-. split; [apply keeps_refl|]. intros _. unfold newer_row_than, get_object in H1.
    destruct (st_objects _ !! _) as [m|] eqn:Hm; [|done]. left. exists m. eauto with ocean. }
  destruct (from_option _ _ _) eqn:H2.
  { injection Ha as <- <-. split; [apply keeps_refl|]. intros _. unfold get_tombstone in H2.
    destruct (st_deletions _ !! _) as [t|] eqn:Hm; [|done]. right. exists t. apply negb_true_iff in H2. eauto with ocean. }
  destruct (delete_object _ _ _ _ _ _) as [st ok1] eqn:Hd. injection Ha as <- <-.
  apply (delete_keeps _ _ _ _ _ _ _ _ Hd). split.
  - intros m Hm. unfold newer_row_than, get_object in H1. rewrite Hm in H1. by apply hlc_ltb_false.
  - intros t Htm. unfold get_tombstone in H2. rewrite Htm in H2. apply negb_false_iff in H2. by apply hlc_ltb_true.
Qed.

(** ** A batch *)

(** What a hint asks this node to have: the key and the version. For a
    reference it is what the origin answered. *)
Definition owed_version (fetch : Z * bytes * bytes -> fetch_io) (idx : Z) (hint : HintRecord) : option (bytes * bytes * Hlc) :=
  match hr_record hint with
  | Some (RecInline h) =>
      if is_local_hint cf (default unknown_node (hi_intended_for h))
      then Some (default default_bucket (hi_bucket_id h), hi_object_key h, default hlc_zero (hi_hlc h)) else None
  | Some (RecDelete h) =>
      if is_local_hint cf (default unknown_node (hd_intended_for h))
      then Some (default default_bucket (hd_bucket_id h), hd_object_key h, default hlc_zero (hd_hlc h)) else None
  | Some (RecSegmentRef h) =>
      if is_local_hint cf (default unknown_node (hs_intended_for h)) then
        let bucket := default default_bucket (hs_bucket_id h) in
        match run_fetch blake3 (hs_object_key h) (fetch (idx, bucket, hs_object_key h)) with
        | Present meta _ => Some (bucket, hs_object_key h, om_hlc meta)
        | _ => None
        end
      else None
  | None => None
  end.

(** The object could not be fetched. *)
Definition fetch_failed (f : fetched) : bool := match f with FetchFails | TaskPanics => true | _ => false end.

(** What a node can do nothing with: a reference that cannot be fetched, a
    delete for another node, an empty record. *)
Definition unresolved (can_fetch : bool) (fetch : Z * bytes * bytes -> fetch_io) (idx : Z) (hint : HintRecord) : bool :=
  match hr_record hint with
  | Some (RecInline _) => false
  | Some (RecDelete h) => negb (is_local_hint cf (default unknown_node (hd_intended_for h)))
  | Some (RecSegmentRef h) =>
      is_local_hint cf (default unknown_node (hs_intended_for h)) &&
      (negb can_fetch ||
       fetch_failed (run_fetch blake3 (hs_object_key h)
                       (fetch (idx, default default_bucket (hs_bucket_id h), hs_object_key h))))
  | None => true
  end.

(** The bucket that a hint names. *)
Definition hint_bucket (hint : HintRecord) : bytes :=
  default default_bucket
    (match hr_record hint with
     | Some (RecInline h) => hi_bucket_id h
     | Some (RecSegmentRef h) => hs_bucket_id h
     | Some (RecDelete h) => hd_bucket_id h
     | None => None
     end).

(** A hint is settled: it will be retried, it waits for the second pass, or
    its version is there. *)
Definition settled_in (fetch : Z * bytes * bytes -> fetch_io) (idx : Z) (hint : HintRecord) (rv : Receiver) (b : Batch) : Prop :=
  idx ∈ bt_retry b \/
  (exists x, x ∈ bt_pending b /\ x.1.1 = idx /\ nul_free x.1.2 /\
     forall bucket key h, owed_version fetch idx hint = Some (bucket, key, h) ->
       x = (idx, bucket, key) /\ exists meta data, run_fetch blake3 key (fetch x) = Present meta data /\ om_hlc meta = h) \/
  forall bucket key h, owed_version fetch idx hint = Some (bucket, key, h) ->
    nul_free bucket -> nul_free key -> covers (wc_store (rv_node rv)) (encode_object_key bucket key) h.

(** The batch only grows. *)
Record extends (b b' : Batch) : Prop := {
  ex_retry i : i ∈ bt_retry b -> i ∈ bt_retry b';
  ex_pending x : x ∈ bt_pending b -> x ∈ bt_pending b' }.

Lemma extends_settle b idx ok : extends b (settle_hint b idx ok) /\ (ok = false -> idx ∈ bt_retry (settle_hint b idx ok)).
Proof using Type.
  destruct ok; (split; [constructor; intros i Hi; cbn; try done|]); [done| |]; cbn; try (apply elem_of_app; by left).
  intros _. apply elem_of_app. right. by left.
Qed.

Lemma relay_node target entry env rv rv' ok : relay target entry env rv = (rv', ok) -> rv_node rv' = rv_node rv.
Proof using Type. unfold relay. destruct (handoff _ _ _ _) as [[[]|e|] b']; by intros [= <- _]. Qed.

Lemma extends_refl b : extends b b.
Proof using Type. by constructor. Qed.

Lemma extends_trans b1 b2 b3 : extends b1 b2 -> extends b2 b3 -> extends b1 b3.
Proof using Type. intros [R1 P1] [R2 P2]. constructor; auto. Qed.

(** What is settled stays settled. *)
Lemma settled_mono fetch idx hint rv rv' b b' :
  settled_in fetch idx hint rv b -> keeps (wc_store (rv_node rv)) (wc_store (rv_node rv')) -> extends b b' ->
  settled_in fetch idx hint rv' b'.
Proof using Type.
  intros [Hr|[(x & Hx & H)|Hc]] Hk [ER EP]; [left; auto|right; left; exists x; auto|right; right].
  intros bucket key h Ho Hb Hkey. apply Hk; [by exists bucket, key|auto].
Qed.

Lemma settled_ok fetch idx hint rv b ok :
  (ok = true -> forall bucket key h, owed_version fetch idx hint = Some (bucket, key, h) ->
     covers (wc_store (rv_node rv)) (encode_object_key bucket key) h) ->
  settled_in fetch idx hint rv (settle_hint b idx ok).
Proof using Type.
  intros Hc. destruct ok; [right; right; intros; by apply Hc|]. left. by apply (extends_settle b idx false).
Qed.

Lemma receive_clock_store h p rv : wc_store (rv_node (receive_clock h p rv)) = wc_store (rv_node rv).
Proof using Type. done. Qed.

Lemma handle_hint_settles fetch can_fetch idx env hint rv b rv' b' :
  handle_hint can_fetch idx env hint rv b = Ok (rv', b') -> undisturbed_env env -> nul_free (hint_bucket hint) ->
  keeps (wc_store (rv_node rv)) (wc_store (rv_node rv')) /\ extends b b' /\ settled_in fetch idx hint rv' b'.
Proof using Hinline.
  unfold HintReceiver.handle_hint, hint_bucket. intros Hh He Hb.
  assert (Hnone : owed_version fetch idx hint = None -> forall rv1 ok, settled_in fetch idx hint rv1 (settle_hint b idx ok)).
  { intros Ho rv1 ok. apply settled_ok. intros _ bucket key h. by rewrite Ho. }
  destruct (hr_record hint) as [[h|h|h]|] eqn:Hrec; cbn [default] in Hb.
  - set (rv0 := receive_clock _ _ rv) in *. destruct (is_local_hint _ _) eqn:Hl.
    + unfold apply_inline_hint in Hh. destruct (apply_hint_object _ _ _ _ _) as [c [ok|e|]] eqn:Ha; [|done..].
      injection Hh as <- <-. apply apply_object_covers in Ha as [Hk Hc]; [|done..].
      split_and!; [exact Hk|apply extends_settle|]. apply settled_ok. intros Hok bucket key v. unfold owed_version.
      rewrite Hrec, Hl. intros [= <- <- <-]. by apply Hc.
    + destruct (relay _ _ _ _) as [rv1 ok] eqn:Hr. injection Hh as <- <-. apply relay_node in Hr as ->.
      split_and!; [apply keeps_refl|apply extends_settle|]. apply Hnone. unfold owed_version. by rewrite Hrec, Hl.
  - set (rv0 := receive_clock _ _ rv) in *. destruct (is_local_hint _ _) eqn:Hl.
    + destruct can_fetch; injection Hh as <- <-; (split_and!; [apply keeps_refl| |]).
      * constructor; intros x Hx; cbn; [done|]. apply elem_of_app. by left.
      * right. left. exists (idx, default default_bucket (hs_bucket_id h), hs_object_key h). cbn.
        split_and!; [apply elem_of_app; right; by left|done|done|]. intros bucket key v. unfold owed_version. rewrite Hrec, Hl.
        destruct (run_fetch _ _ _) as [meta data| | |] eqn:Hf; [|done..]. intros [= <- <- <-]. split; [done|]. by exists meta, data.
      * apply (extends_settle b idx false).
      * left. by apply (extends_settle b idx false).
    + destruct (relay _ _ _ _) as [rv1 ok] eqn:Hr. injection Hh as <- <-. apply relay_node in Hr as ->.
      split_and!; [apply keeps_refl|apply extends_settle|]. apply Hnone. unfold owed_version. by rewrite Hrec, Hl.
  - set (rv0 := receive_clock _ _ rv) in *. destruct (is_local_hint _ _) eqn:Hl.
    + destruct (apply_hint_delete _ _ _ _ _) as [c ok] eqn:Ha. injection Hh as <- <-.
      apply apply_delete_covers in Ha as [Hk Hc]; [|done..].
      split_and!; [exact Hk|apply extends_settle|]. apply settled_ok. intros Hok bucket key v. unfold owed_version.
      rewrite Hrec, Hl. intros [= <- <- <-]. by apply Hc.
    + injection Hh as <- <-. split_and!; [apply keeps_refl|apply (extends_settle b idx false)|].
      left. by apply (extends_settle b idx false).
  - injection Hh as <- <-. split_and!; [apply keeps_refl|apply (extends_settle b idx false)|]. left. by apply (extends_settle b idx false).
Qed.

Lemma first_pass_settles fetch can_fetch envs hints : forall idx rv b rv' b',
  first_pass can_fetch idx envs hints rv b = Ok (rv', b') -> (forall i, undisturbed_env (envs i)) ->
  Forall (fun hint => nul_free (hint_bucket hint)) hints ->
  keeps (wc_store (rv_node rv)) (wc_store (rv_node rv')) /\ extends b b' /\
  forall i hint, hints !! i = Some hint -> settled_in fetch (wrap32 (idx + Z.of_nat i)) hint rv' b'.
Proof using Hinline.
  induction hints as [|hint hints IH]; intros idx rv b rv' b'; cbn [HintReceiver.first_pass].
  { intros [= <- <-] _ _. split_and!; [apply keeps_refl|apply extends_refl|done]. }
  destruct (handle_hint _ _ _ _ _ _) as [[rv1 b1]|e|] eqn:H1; [|done..]. intros H2 He [Hb Hall]%Forall_cons.
  apply (handle_hint_settles fetch) in H1 as (K1 & E1 & S1); [|done..].
  apply IH in H2 as (K2 & E2 & S2); [|done..]. split_and!; [by eapply keeps_trans|by eapply extends_trans|].
  intros [|i] h; cbn [lookup list_lookup].
  - intros [= <-]. rewrite Z.add_0_r. by eapply settled_mono.
  - intros Hi. replace (idx + Z.of_nat (S i)) with (idx + 1 + Z.of_nat i) by lia. by apply S2.
Qed.

Lemma second_pass_settles deferred envs done : forall rv b rv' b',
  second_pass deferred envs done rv b = Ok (rv', b') -> (forall i, undisturbed_env (envs i)) ->
  (forall idx bucket key f, (idx, bucket, key, f) ∈ done -> nul_free bucket) ->
  keeps (wc_store (rv_node rv)) (wc_store (rv_node rv')) /\ extends b b' /\
  forall idx bucket key meta data, (idx, bucket, key, Present meta data) ∈ done -> nul_free (om_object_key meta) ->
    idx ∈ bt_retry b' \/ covers (wc_store (rv_node rv')) (encode_object_key bucket (om_object_key meta)) (om_hlc meta).
Proof using Hinline.
  induction done as [|[[[idx bucket] key] f] done IH]; intros rv b rv' b'; cbn [HintReceiver.second_pass].
  { intros [= <- <-] _ _. split_and!; [apply keeps_refl|apply extends_refl|]. by intros ????? H%not_elem_of_nil. }
  intros Hs He Hb. assert (Hb' : forall i bu k g, (i, bu, k, g) ∈ done -> nul_free bu) by (intros; eapply Hb; by right).
  destruct f as [meta data| | |].
  - destruct (apply_hint_object _ _ _ _ _) as [c [ok|e|]] eqn:Ha; [|done..].
    apply apply_object_covers in Ha as [Hk Hc]; [|done|by eapply Hb; left].
    apply IH in Hs as (K2 & E2 & S2); [|done..]. destruct (extends_settle b idx ok) as [E1 R1].
    split_and!; [by eapply keeps_trans|by eapply extends_trans|].
    intros i bu k m d [[= -> -> -> -> ->]|Hin]%elem_of_cons Hkey; [|by eapply S2].
    destruct ok; [right|left; by apply E2, R1]. apply K2; [|by apply Hc].
    exists bucket, (om_object_key meta). split_and!; [by eapply Hb; left|done|done].
  - apply IH in Hs as (K2 & E2 & S2); [|done..]. split_and!; [done|exact (extends_trans _ _ _ (proj1 (extends_settle b idx _)) E2)|].
    intros i bu k m d [?|Hin]%elem_of_cons; [done|by eapply S2].
  - apply IH in Hs as (K2 & E2 & S2); [|done..]. split_and!; [done|exact (extends_trans _ _ _ (proj1 (extends_settle b idx _)) E2)|].
    intros i bu k m d [?|Hin]%elem_of_cons; [done|by eapply S2].
  - apply IH in Hs as (K2 & E2 & S2); [|done..]. split_and!; [done| |].
    + eapply extends_trans; [|exact E2]. constructor; intros x Hx; cbn; [apply elem_of_app; by left|done].
    + intros i bu k m d [?|Hin]%elem_of_cons; [done|by eapply S2].
Qed.

Lemma handle_hint_pending can_fetch idx env hint rv b rv' b' x :
  handle_hint can_fetch idx env hint rv b = Ok (rv', b') -> x ∈ bt_pending b' ->
  x ∈ bt_pending b \/ x.1.2 = hint_bucket hint.
Proof using Type.
  assert (Hs : forall ok, bt_pending (settle_hint b idx ok) = bt_pending b) by (by intros []).
  unfold HintReceiver.handle_hint, hint_bucket. intros Hh Hx.
  destruct (hr_record hint) as [[h|h|h]|]; [destruct (is_local_hint _ _)..|]; repeat case_match; simplify_eq;
    try (by left; rewrite ?Hs in Hx).
  cbn in Hx. apply elem_of_app in Hx as [Hx|Hx]; [by left|]. apply list_elem_of_singleton in Hx as ->. by right.
Qed.

Lemma first_pass_pending can_fetch envs hints : forall idx rv b rv' b' x,
  first_pass can_fetch idx envs hints rv b = Ok (rv', b') -> Forall (fun hint => nul_free (hint_bucket hint)) hints ->
  x ∈ bt_pending b' -> x ∈ bt_pending b \/ nul_free x.1.2.
Proof using Type.
  induction hints as [|hint hints IH]; intros idx rv b rv' b' x; cbn [HintReceiver.first_pass]; [intros [= <- <-]; by left|].
  destruct (handle_hint _ _ _ _ _ _) as [[rv1 b1]|e|] eqn:H1; [|done..]. intros H2 [Hb Hall]%Forall_cons Hx.
  destruct (IH _ _ _ _ _ _ H2 Hall Hx) as [Hx1|]; [|by right].
  destruct (handle_hint_pending _ _ _ _ _ _ _ _ _ H1 Hx1) as [|E]; [by left|right; by rewrite E].
Qed.

Lemma run_fetch_key key io meta data : run_fetch blake3 key io = Present meta data -> om_object_key meta = key.
Proof using Type.
  unfold run_fetch, fetch_object. destruct io as [|[[|c cs]|]]; try done. repeat case_match; try done. by intros [= <- _].
Qed.

Lemma owed_bucket fetch idx hint bucket key h :
  owed_version fetch idx hint = Some (bucket, key, h) -> bucket = hint_bucket hint.
Proof using Type. unfold owed_version, hint_bucket. repeat case_match; by intros [= <- _ _]. Qed.

(** What a node can do nothing with is retried. *)
Lemma handle_hint_unresolved fetch can_fetch idx env hint rv b rv' b' :
  handle_hint can_fetch idx env hint rv b = Ok (rv', b') -> unresolved can_fetch fetch idx hint = true ->
  idx ∈ bt_retry b' \/
  exists x, x ∈ bt_pending b' /\ x.1.1 = idx /\ fetch_failed (run_fetch blake3 x.2 (fetch x)) = true.
Proof using Type.
  unfold HintReceiver.handle_hint, unresolved. pose proof (proj2 (extends_settle b idx false) eq_refl) as Hr.
  destruct (hr_record hint) as [[h|h|h]|]; [done|destruct (is_local_hint _ _)..|]; cbn [negb andb].
  - destruct can_fetch; intros [= _ <-] Hu; [right|by left]. exists (idx, default default_bucket (hs_bucket_id h), hs_object_key h).
    split_and!; [cbn; apply elem_of_app; right; by left|done|done].
  - done.
  - done.
  - intros [= _ <-] _. by left.
  - intros [= _ <-] _. by left.
Qed.

Lemma first_pass_unresolved fetch can_fetch envs hints : forall idx rv b rv' b' i hint,
  first_pass can_fetch idx envs hints rv b = Ok (rv', b') -> (forall i, undisturbed_env (envs i)) ->
  Forall (fun hint => nul_free (hint_bucket hint)) hints -> hints !! i = Some hint ->
  unresolved can_fetch fetch (wrap32 (idx + Z.of_nat i)) hint = true ->
  wrap32 (idx + Z.of_nat i) ∈ bt_retry b' \/
  exists x, x ∈ bt_pending b' /\ x.1.1 = wrap32 (idx + Z.of_nat i) /\ fetch_failed (run_fetch blake3 x.2 (fetch x)) = true.
Proof using Hinline.
  induction hints as [|h0 hints IH]; intros idx rv b rv' b' i hint; cbn [HintReceiver.first_pass]; [done|].
  destruct (handle_hint _ _ _ _ _ _) as [[rv1 b1]|e|] eqn:H1; [|done..]. intros H2 He [Hb Hall]%Forall_cons.
  destruct i as [|i]; cbn [lookup list_lookup].
  - intros [= <-]. rewrite Z.add_0_r. intros Hu.
    destruct (first_pass_settles fetch _ _ _ _ _ _ _ _ H2 He Hall) as (_ & [ER EP] & _).
    destruct (handle_hint_unresolved fetch _ _ _ _ _ _ _ _ H1 Hu) as [|(x & ? & ?)]; [left; auto|right; exists x; auto].
  - replace (idx + Z.of_nat (S i)) with (idx + 1 + Z.of_nat i) by lia. by eapply IH.
Qed.

Lemma second_pass_retries deferred envs idx bucket key f l : forall rv b rv' b',
  second_pass deferred envs l rv b = Ok (rv', b') -> (forall i, undisturbed_env (envs i)) ->
  (forall i bu k g, (i, bu, k, g) ∈ l -> nul_free bu) ->
  (idx, bucket, key, f) ∈ l -> idx ∈ deferred -> fetch_failed f = true -> idx ∈ bt_retry b'.
Proof using Hinline.
  induction l as [|[[[i bu] k] g] l IH]; intros rv b rv' b' Hs He Hb Hin Hd Hf; [by apply not_elem_of_nil in Hin|].
  assert (Hb' : forall i bu k g, (i, bu, k, g) ∈ l -> nul_free bu) by (intros; eapply Hb; by right).
  apply elem_of_cons in Hin as [[= <- <- <- <-]|Hin].
  - destruct f; [done..| |]; cbn [HintReceiver.second_pass] in Hs;
      apply second_pass_settles in Hs as (_ & [ER _] & _); try done; apply ER; cbn; apply elem_of_app; right; [by left|done].
  - cbn [HintReceiver.second_pass] in Hs. destruct g as [meta data| | |]; [|by eapply IH..].
    destruct (apply_hint_object _ _ _ _ _) as [c [ok|e|]]; [by eapply IH|done..].
Qed.

(** C10: a hint that the receiver of a batch does not report for retry is
    covered. For an inline write and a delete for this node the node then has a
    row or a tombstone of the hint's version or of a newer one. For a reference
    it has this of the version with which the origin answered the fetch, which
    need not be the one in the hint; an answer that the key is absent asks for
    nothing. No version of any key is lost on the way, in whatever order the
    fetches end. A reference that could not be fetched, a delete for another
    node and an empty record are reported for retry. This holds when the two
    reads of the store succeed and no other task writes the store between a
    hint's checks and its write, and for buckets and keys without NUL bytes; a
    commit may fail. *)
Theorem accepted_hints_are_covered can_fetch envs fetch order fetch_envs hints rv rv' resp :
  hinted_handoff crc32 blake3 shard_for new_small new_standard pp_small pp_standard cf can_fetch envs fetch order fetch_envs
    hints rv = Ok (rv', resp) ->
  (forall l, order l ≡ₚ l) -> (forall i, undisturbed_env (envs i)) -> (forall i, undisturbed_env (fetch_envs i)) ->
  Forall (fun hint => nul_free (hint_bucket hint)) hints ->
  keeps (wc_store (rv_node rv)) (wc_store (rv_node rv')) /\
  (forall i hint, hints !! i = Some hint -> unresolved can_fetch fetch (wrap32 (Z.of_nat i)) hint = true ->
     wrap32 (Z.of_nat i) ∈ rs_retry_indices resp) /\
  forall i hint bucket key h, hints !! i = Some hint ->
    owed_version fetch (wrap32 (Z.of_nat i)) hint = Some (bucket, key, h) -> nul_free key ->
    wrap32 (Z.of_nat i) ∈ rs_retry_indices resp \/ covers (wc_store (rv_node rv')) (encode_object_key bucket key) h.
Proof using Hinline.
  unfold hinted_handoff. intros Hh Hperm He1 He2 Hb.
  destruct (first_pass _ _ _ _ _ _) as [[rv1 b1]|e|] eqn:H1; [|done..].
  destruct (second_pass _ _ _ _ _) as [[rv2 b2]|e|] eqn:H2; [|done..]. injection Hh as <- <-. cbn [rs_retry_indices].
  pose proof (fun x => first_pass_pending _ _ _ _ _ _ _ _ x H1 Hb) as Hpend.
  pose proof (fun i hint => first_pass_unresolved fetch _ _ _ _ _ _ _ _ i hint H1 He1 Hb) as U1.
  apply (first_pass_settles fetch) in H1 as (K1 & _ & S1); [|done..].
  match type of H2 with HintReceiver.second_pass _ _ _ _ _ _ _ _ _ _ ?l _ _ = _ => set (l0 := l) in * end.
  assert (Hl : forall idx bucket key f, (idx, bucket, key, f) ∈ l0 -> nul_free bucket).
  { intros idx bucket key f ([[i bu] k] & [= -> -> -> ->] & Hx)%list_elem_of_fmap. rewrite Hperm in Hx.
    destruct (Hpend _ Hx) as [H%not_elem_of_nil|Hf]; [done|exact Hf]. }
  pose proof (fun idx bucket key f => second_pass_retries _ _ idx bucket key f _ _ _ _ _ H2 He2 Hl) as U2.
  apply second_pass_settles in H2 as (K2 & [R2 _] & S2); [|done..].
  split; [by eapply keeps_trans|]. split.
  { intros i hint Hi Hu. destruct (U1 i hint Hi Hu) as [Hr|([[j bu] k] & Hx & Hj & Hf)]; [by apply R2|].
    cbn in Hj. subst j. eapply U2; [|apply list_elem_of_fmap; by exists (wrap32 (Z.of_nat i), bu, k)|exact Hf].
    apply list_elem_of_fmap. exists (wrap32 (Z.of_nat i), bu, k). split; [done|]. by rewrite Hperm. }
  intros i hint bucket key h Hi Ho Hkey.
  assert (Hbucket : nul_free bucket) by (rewrite (owed_bucket _ _ _ _ _ _ Ho); by eapply Forall_lookup_1 in Hb).
  destruct (S1 i hint Hi) as [Hr|[(x & Hx & _ & _ & Hown)|Hc]]; [left; by apply R2| |].
  - destruct (Hown _ _ _ Ho) as (-> & meta & data & Hf & <-). pose proof (run_fetch_key _ _ _ _ Hf) as Hk. rewrite <- Hk in Hkey.
    edestruct S2 as [Hr|Hc]; [|exact Hkey|left; exact Hr|right; rewrite Hk in Hc; exact Hc].
    apply list_elem_of_fmap. eexists (_, bucket, key). split; [cbn [snd fst]; by rewrite Hf|]. by rewrite Hperm.
  - right. apply K2; [by exists bucket, key|]. by apply (Hc _ _ _ Ho).
Qed.
End batches.

(** ** A delivery before the row is written *)

Section early.
Context (crc32 : bytes -> Z) (blake3 : bytes -> bytes) (shard_for : SegmentId -> Z).
Context (new_small new_standard : nat -> SegmentId) (pp_small pp_standard : PoolParams).
Context (encode : HintRecord -> bytes) (cf : Config).

(** The put of a segment-tier object does not write its row. *)
Lemma put_segment_store vw req env c cl c' cl' res :
  put crc32 blake3 shard_for new_small new_standard pp_small pp_standard encode cf vw req env c cl = (c', cl', Ok res) ->
  ring_inv (inner (vw_ring vw)) -> cf_node_id cf ∈ cache_lookup (vw_ring vw) (rq_hash_key req) ->
  rq_data req <> [] -> pieces_of (cf_size_config cf) (rq_data req) <> None ->
  wc_store c' = wc_store c /\ wr_chunks res <> [].
Proof using Type.
  intros Hp Hring Hself Hne Htier. apply put_gates in Hp. cbn zeta in Hp. rewrite bool_decide_true in Hp by done.
  unfold put_local in Hp. destruct (if _ || _ then _ else _) as [c0 [[]|e|]] eqn:Hg; [|done..].
  assert (Hc0 : wc_store c0 = wc_store c).
  { destruct (_ || _); [by apply hint_debt_gate_hints in Hg as []|by simplify_eq]. }
  destruct (negb _); [done|]. destruct (clock_now c0 (pe_physical env)) as [c1 hlc] eqn:Hclk.
  assert (wc_store c1 = wc_store c0) as Hc1 by (by injection Hclk as <- _).
  destruct (Nat.eqb_spec (length (rq_data req)) 0) as [Hz|_]; [by destruct (rq_data req)|].
  destruct (store_local _ _ _ _ _ _ _ _ _ _ _ _) as [c2 [[chunks row]|e|]] eqn:Hs; [|done..].
  assert (Hrow : row = false).
  { unfold store_local in Hs. destruct (pieces_of _ _) as [[small pieces]|]; [|done].
    destruct (store_object _ _ _ _ _ _ _ _ _ _ _ _ _ _ _ _ _) as [nd [cs|e|]]; by simplify_eq. }
  apply store_local_spec in Hs as (_ & [(? & _)|(_ & Hch & Hst)]); [congruence| |done].
  apply replicate_and_ack_spec in Hp as (Hst2 & -> & _); [|by apply ring_NoDup|done]. split; [congruence|done].
Qed.

(** C38: a put of a segment-tier object records its hints before the handler
    writes the row of the object. A delivery in between asks the origin for
    the key, gets the answer that the object does not exist, and takes the
    hint for resolved: the batch is accepted, the replica has nothing, and
    the write it was owed is gone from the ledger. *)
Theorem early_delivery_drops_write vw req env c cl c' cl' res cf' envs order fetch_envs assemble secs n rv :
  put crc32 blake3 shard_for new_small new_standard pp_small pp_standard encode cf vw req env c cl = (c', cl', Ok res) ->
  ring_inv (inner (vw_ring vw)) -> cf_node_id cf ∈ cache_lookup (vw_ring vw) (rq_hash_key req) ->
  rq_data req <> [] -> pieces_of (cf_size_config cf) (rq_data req) <> None ->
  cf_hint_inline_threshold_bytes cf < Z.of_nat (length (rq_data req)) ->
  get_object (wc_store c) (rq_bucket req) (rq_key req) = None -> cf_node_id cf' = n -> (forall l, order l ≡ₚ l) ->
  let stream := match fetch_hint_object (wc_store c') (rq_bucket req) (rq_key req)
                        (read_local None true assemble (wc_store c') (rq_bucket req) (rq_key req)) with
                | Ok chunks => Some chunks | _ => None end in
  exists rv' resp,
    hinted_handoff crc32 blake3 shard_for new_small new_standard pp_small pp_standard cf' true envs (fun _ => Stream stream)
      order fetch_envs [stamp (write_hint_record cf n req (wr_chunks res) (wr_hlc res)) secs] rv = Ok (rv', resp) /\
    rs_accepted resp = true /\ rs_retry_indices resp = [] /\ wc_store (rv_node rv') = wc_store (rv_node rv).
Proof using Type.
  intros Hp Hring Hself Hne Htier Hthr Hnone Hn Hperm stream.
  destruct (put_segment_store _ _ _ _ _ _ _ _ Hp Hring Hself Hne Htier) as [Hst Hch].
  assert (Hread : read_local None true assemble (wc_store c') (rq_bucket req) (rq_key req) = Ok None)
    by (unfold read_local; cbn; by rewrite Hst, Hnone).
  destruct (wr_chunks res) as [|ch chs]; [done|].
  assert (Hrec : forall s, hr_record (stamp (write_hint_record cf n req (ch :: chs) (wr_hlc res)) s)
    = hr_record (new_segment_ref n (rq_bucket req) (rq_key req) (cr_segment_id ch) (cr_offset ch) (cr_length ch) (wr_hlc res))).
  { intros s. unfold write_hint_record. rewrite (proj2 (Z.leb_gt _ _) Hthr). unfold stamp. by destruct (_ =? _). }
  unfold hinted_handoff, first_pass, handle_hint. rewrite Hrec. cbn [hr_record new_segment_ref new_hint hs_intended_for default from_option].
  unfold is_local_hint. rewrite bool_decide_true by done. cbn [bt_pending app hs_bucket_id hs_object_key default from_option Datatypes.id].
  set (x := (wrap32 0, rq_bucket req, rq_key req)).
  assert (order [x] = [x]) as -> by (apply Permutation_singleton_r, Hperm).
  cbn [fmap list_fmap compose fst]. unfold run_fetch, stream. rewrite Hread. cbn [fetch_hint_object fetch_object fc_present negb].
  eexists _, _. split; [reflexivity|]. by split_and!.
Qed.
End early.

(** ** A write between the checks and the apply *)

(** the receiver compares versions before it stores the data of a hint, not
    when it writes the row: a newer write of the key that commits in between
    is replaced by the older version of the hint, and the hint is accepted. *)
Theorem racing_write_is_regressed crc32 blake3 shard_for new_small new_standard pp_small pp_standard cf bucket meta data env c c'
    newer :
  0 <= inline_threshold_bytes (cf_size_config cf) ->
  apply_hint_object crc32 blake3 shard_for new_small new_standard pp_small pp_standard cf bucket meta data env c = (c', Ok true) ->
  at_most (wc_store c) (encode_object_key bucket (om_object_key meta)) (om_hlc meta) ->
  get_object (wc_store (re_meanwhile env c)) bucket (om_object_key meta) = Some newer -> hlc_lt (om_hlc meta) (om_hlc newer) ->
  exists m, get_object (wc_store c') bucket (om_object_key meta) = Some m /\ om_hlc m = om_hlc meta.
Proof.
  intros Hinline Ha [Hrow Htomb] _ _. unfold apply_hint_object in Ha.
  assert (Hno : forall h, hlc_le h (om_hlc meta) -> hlc_ltb (om_hlc meta) h = false).
  { intros h Hh. unfold hlc_ltb. destruct (hlc_cmp _ h) eqn:E; [done| |done]. by destruct Hh. }
  assert (newer_row_than (om_hlc meta) (re_row_read env) (wc_store c) bucket (om_object_key meta) = false) as H1.
  { unfold newer_row_than, get_object. destruct (re_row_read env); [|done].
    destruct (st_objects _ !! _) as [m|] eqn:E; [|done]. apply Hno. by apply Hrow. }
  assert (newer_tombstone_than (om_hlc meta) (re_tombstone_read env) (wc_store c) bucket (om_object_key meta) = false) as H2.
  { unfold newer_tombstone_than, get_tombstone. destruct (re_tombstone_read env); [|done].
    destruct (st_deletions _ !! _) as [t|] eqn:E; [|done]. apply Hno. by apply Htomb. }
  rewrite H1, H2 in Ha. destruct (apply_hinted_object _ _ _ _ _ _ _ _ _ _ _ _ _ _ _ _) as [c1 r] eqn:Ho.
  apply apply_hinted_put in Ho as [[_ Hno2]|(m & ok & Hk & Hh & Hp & Hok)]; [| |done];
    destruct r as [m1|e|]; simplify_eq; [by destruct (Hno2 m1)|].
  rewrite (Hok m1) in Hp by done. apply put_object_get in Hp. rewrite Hk in Hp. by exists m.
Qed.

(** ** Witnesses *)

Definition calm : RecvEnv :=
  {| re_physical := 9; re_now := 9; re_now_secs := 9; re_row_read := true; re_tombstone_read := true; re_meanwhile := id;
     re_put := sample_put_env []; re_io := Committed; re_new_id := [] |}.

Lemma calm_undisturbed : undisturbed_env calm.
Proof. by constructor. Qed.

Definition sample_receiver : Receiver :=
  {| rv_node := sample_coordinator empty_store; rv_buffer := {| hh_hints := ∅; hh_ttl_secs := 0 |} |}.

(** A write, a delete of another key, and a reference whose fetch fails. *)
Definition sample_batch : list HintRecord :=
  [new_inline [x62] [x62] [x6b] [x0a; x0b] {| wall_time := 3; logical := 0 |};
   new_delete [x62] [x62] [x6c] {| wall_time := 4; logical := 0 |};
   new_segment_ref [x62] [x62] [x6d] (replicate 16 x01) 0 2 {| wall_time := 5; logical := 0 |}].

Definition run_batch := hinted_handoff (fun _ => 0) sample_hash (fun _ => 0) (coord_id x00) (coord_id x01) (coord_params Small)
  (coord_params Standard) (sample_config [x62]) true (fun _ => calm).

Definition batch_run := Eval vm_compute in
  match run_batch (fun _ => Stream None) id (fun _ => calm) sample_batch sample_receiver with
  | Ok r => r
  | _ => (sample_receiver, {| rs_accepted := false; rs_accepted_count := 0; rs_retry_indices := [] |})
  end.

Lemma accepted_hints_are_covered_witness :
  rs_retry_indices batch_run.2 = [2] /\
  (keeps (wc_store (rv_node sample_receiver)) (wc_store (rv_node batch_run.1)) /\
   (forall i hint, sample_batch !! i = Some hint ->
      unresolved sample_hash (sample_config [x62]) true (fun _ => Stream None) (wrap32 (Z.of_nat i)) hint = true ->
      wrap32 (Z.of_nat i) ∈ rs_retry_indices batch_run.2) /\
   forall i hint bucket key h, sample_batch !! i = Some hint ->
     owed_version sample_hash (sample_config [x62]) (fun _ => Stream None) (wrap32 (Z.of_nat i)) hint = Some (bucket, key, h) ->
     nul_free key ->
     wrap32 (Z.of_nat i) ∈ rs_retry_indices batch_run.2 \/ covers (wc_store (rv_node batch_run.1)) (encode_object_key bucket key) h).
Proof.
  split; [reflexivity|].
  apply (accepted_hints_are_covered (fun _ => 0) sample_hash (fun _ => 0) (coord_id x00) (coord_id x01) (coord_params Small)
    (coord_params Standard) (sample_config [x62])) with (can_fetch := true) (envs := fun _ => calm) (order := id)
    (fetch_envs := fun _ => calm).
  - cbn. lia.
  - exact_eval.
  - done.
  - intros _. apply calm_undisturbed.
  - intros _. apply calm_undisturbed.
  - repeat constructor; cbn; unfold nul_free; set_solver.
Defined.

Definition small_hints : Config :=
  {| cf_node_id := [x61]; cf_size_config := pp_size_config sample_params; cf_ready := true; cf_quorum_requires_ring := true;
     cf_hint_inline_threshold_bytes := 2 |}.

Definition early_put := Eval vm_compute in
  put (fun _ => 0) sample_hash (fun _ => 0) (coord_id x00) (coord_id x01) (coord_params Small) (coord_params Standard)
    (fun _ => []) small_hints sample_view (sample_request [x0a; x0b; x0c]) (sample_put_env [[x62]])
    (sample_coordinator empty_store) sample_cluster.

Definition early_result : WriteResult := Eval vm_compute in
  match early_put.2 with
  | Ok res => res
  | _ => {| wr_object_key := []; wr_chunks := []; wr_size := 0; wr_blake3_hash := None; wr_hlc := hlc_zero |}
  end.

(** The hint for the third node is delivered before the row is there. *)
Lemma early_delivery_drops_write_witness :
  hints (wc_hints early_put.1.1) [x63]
    = [stamp (write_hint_record small_hints [x63] (sample_request [x0a; x0b; x0c]) (wr_chunks early_result) (wr_hlc early_result)) 9] /\
  let stream := match fetch_hint_object (wc_store early_put.1.1) [x62] [x6b]
                        (read_local None true (fun _ => Err ()) (wc_store early_put.1.1) [x62] [x6b]) with
                | Ok chunks => Some chunks | _ => None end in
  exists rv' resp,
    hinted_handoff (fun _ => 0) sample_hash (fun _ => 0) (coord_id x00) (coord_id x01) (coord_params Small) (coord_params Standard)
      (sample_config [x63]) true (fun _ => calm) (fun _ => Stream stream) id (fun _ => calm)
      [stamp (write_hint_record small_hints [x63] (sample_request [x0a; x0b; x0c]) (wr_chunks early_result) (wr_hlc early_result)) 9]
      sample_receiver = Ok (rv', resp) /\
    rs_accepted resp = true /\ rs_retry_indices resp = [] /\ wc_store (rv_node rv') = wc_store (rv_node sample_receiver).
Proof.
  split; [vm_compute; reflexivity|].
  apply (early_delivery_drops_write (fun _ => 0) sample_hash (fun _ => 0) (coord_id x00) (coord_id x01) (coord_params Small)
    (coord_params Standard) (fun _ => []) small_hints sample_view (sample_request [x0a; x0b; x0c]) (sample_put_env [[x62]])
    (sample_coordinator empty_store) sample_cluster early_put.1.1 early_put.1.2 early_result).
  - exact_eval.
  - apply three_nodes_inv.
  - apply (bool_decide_unpack _). vm_compute. exact I.
  - discriminate.
  - discriminate.
  - vm_compute. reflexivity.
  - vm_compute. reflexivity.
  - reflexivity.
  - done.
Defined.

(** A newer row commits while the data of the hint is stored. *)
Definition overtaken : RecvEnv :=
  {| re_physical := 9; re_now := 9; re_now_secs := 9; re_row_read := true; re_tombstone_read := true;
     re_meanwhile := fun c => set_store c (put_object_in_bucket (wc_store c) Committed 9 [x62] newer_row).1;
     re_put := sample_put_env []; re_io := Committed; re_new_id := [] |}.

Definition raced_run := Eval vm_compute in
  apply_hint_object (fun _ => 0) sample_hash (fun _ => 0) (coord_id x00) (coord_id x01) (coord_params Small) (coord_params Standard)
    (sample_config [x62]) [x62] committed_row [x0a; x0b] overtaken (sample_coordinator empty_store).

Lemma racing_write_is_regressed_witness :
  hlc_lt (om_hlc committed_row) (om_hlc newer_row) /\
  exists m, get_object (wc_store raced_run.1) [x62] [x6b] = Some m /\ om_hlc m = om_hlc committed_row.
Proof.
  split; [reflexivity|].
  apply (racing_write_is_regressed (fun _ => 0) sample_hash (fun _ => 0) (coord_id x00) (coord_id x01) (coord_params Small)
    (coord_params Standard) (sample_config [x62]) [x62] committed_row [x0a; x0b] overtaken (sample_coordinator empty_store)
    raced_run.1 newer_row).
  - cbn. lia.
  - exact_eval.
  - split; intros m; cbn; by rewrite lookup_empty.
  - vm_compute. reflexivity.
  - reflexivity.
Defined.
